(* ===== verification/_CoqProject ===== *)
-Q . S2P
Prelude.v
Unicode.v
ByteScan.v
Codec.v
JsonTypes.v
JsonStorage.v
JsonNumber.v
JsonHash.v
JsonSpec.v
JsonReader.v
JsonTokenizer.v
JsonParse.v
JsonTokRefine.v
JsonDenote.v
JsonRefine.v
JsonParseOk.v
JsonValid.v
JsonUnicode.v
JsonGrammar.v
JsonRfc.v
JsonDump.v
JsonRoundTrip.v
JsonDom.v
JsonDomOk.v
Http1.v
HttpBody.v
HttpTypes.v
HttpMessage.v
HttpServe.v
HttpUpload.v
SlotPool.v
LruMap.v
Cidr.v
Crypto.v
SignedToken.v
Throttle.v
WebSocket.v
Sse.v
Route.v
Router.v
HttpConn.v
HttpServer.v
HttpAuthentic.v
Middleware.v
Cache.v
StaticFiles.v
Dns.v
