(* ===== verification/Prelude.v ===== *)
(** * conflux: a verification development (root file and prelude)

    conflux is a C++ web framework: an HTTP server on io_uring, a JSON module,
    and middleware. The development models the parts of it that are programs
    over bytes, integers and containers, and proves what they promise. Source
    paths are below [src/src/].

    ** The parts and how they interact

    - The JSON module reads a text in three layers: byte scanners find the next
      special byte, the tokenizer reads strings and numbers, the tree builder
      fills a flat document storage. The accessors and the serializer read that
      storage; an object's hash index is built on first lookup, by whichever
      thread comes first.
    - The HTTP/1 parser reads a request head from the bytes received so far; the
      body helpers read Content-Length, the chunked coding and form bodies. The
      connection calls both on its receive buffer, hands the request to the
      router, writes the response and goes on with the next request; uploads,
      event streams and WebSockets take it over.
    - The router finds the route of a request and runs its handler inside the
      middleware. Header fields, requests and responses are shared by all.
    - The server takes slots of the kernel's file table from a pool of slots.
    - The middleware uses the shared parts: the throttles keep their buckets in
      the string-keyed LRU map, signed cookies and tokens use Base64, SHA-256
      and HMAC, and tokens are read with the JSON module. The response cache
      keeps its entries in the LRU map, as the DNS resolver does its results.

    ** Files and sources

    - [Prelude]: bytes, machine integers, the parts of the C++ library that are
      used ([find], [substr], [from_chars]), tactics and hint databases.
    - [ByteScan]: the scanners of [json_simd_intrinsics.cxx], [json_api.cxx],
      [json_dump.cxx] and [utils.cxx]. [Codec]: the text codecs of [utils.cxx].
    - [JsonTypes], [JsonStorage], [JsonNumber], [JsonHash]: the data of
      [json_api.cxx], [json_storage.cxx] and [json_number.cxx].
    - [JsonTokenizer], [JsonParse]: [json_parse.cxx] and
      [json_parse_entries.cxx]. [JsonDump]: [json_dump.cxx]. [JsonDom]:
      [json_dom.cxx], with lookups by several threads as a step function.
    - [Unicode]: scalar values and UTF-8 by RFC 3629, for the comparisons.
    - [JsonSpec], [JsonReader], [JsonGrammar], [JsonRfc], [JsonValid],
      [JsonUnicode], [JsonDenote]: the specification side: a reference reader,
      its grammar, the grammar of RFC 8259, and the value a storage denotes. [JsonTokRefine], [JsonRefine], [JsonParseOk],
      [JsonRoundTrip], [JsonDomOk]: the proofs that connect the two.
    - [Http1]: [net/http1_parser.cxx]. [HttpBody]: [net/http_parse_helpers.cxx].
    - [HttpTypes]: [net/http_types.cxx]. [HttpMessage]: the requests and
      responses of [net/server_types.cxx] and [net/response.cxx]. [HttpServe]:
      [net/http_server_helpers.cxx]. [HttpUpload]: [UploadBodyState] of
      [net/server_types.cxx].
    - [HttpConn]: the connection of [net/http_server_dispatch.cxx] and of the
      [_recv], [_send], [_cqe] and [_state] files beside it. [HttpServer],
      [HttpAuthentic]: its theorems.
    - [Route]: [net/router_match.cxx], [net/path.cxx]. [Router]:
      [net/router_impl.cxx], [net/router_dispatch.cxx].
    - [WebSocket], [Sse]: the two halves of [net/realtime.cxx].
    - [SlotPool]: [net/direct_slot_pool.cxx]. [LruMap]: [StringLruMap] of
      [types_api.cxx], with the interface [RecencyMap] its clients use.
    - [Cidr]: the address section of [utils.cxx] and [net/ip_filter.cxx].
    - [Crypto]: [crypto.cxx]. [SignedToken]: [net/cookie_signing.cxx],
      [net/jwt.cxx], the secrets of [net/config.cxx].
    - [Throttle]: [net/rate_limit.cxx], [net/rate_limit_impl.cxx], [net/auth.cxx].
    - [Middleware]: the smaller middleware and [net/vhost.cxx]. [Cache]:
      [net/response_cache.cxx]. [StaticFiles]: [net/static_core.cxx].
    - [Dns]: [net/dns/dns.cxx] and [net/dns/dns_impl.cxx].

    A C++ string is a list of bytes, a w-bit integer a [Z] with its wrap-around
    written out, a vector a list, and a mutable object a record that is passed
    along. [None], or the outcomes [OutOfBounds] and [OutOfFuel] of the
    tokenizer, stand for undefined behaviour, a failed assertion or an exhausted
    bound; the theorems show that they do not occur.

    ** What the theorems show

    - JSON: [parse] is the reference reader on every input, and in strict mode
      accepts of the UTF-8 texts those of RFC 8259 within the limits; documents
      are valid; [dump] parses back; lookups evaluate pointers; concurrent lookups finish
      and agree; an arena's live handle refers to its own document.
    - HTTP: the head parser and the chunked decoder accept exactly their
      grammars within their limits, and do so however the bytes arrive, except
      at the limits themselves, where two theorems show the difference.
      Responses cannot be split by what a handler puts in them, multipart forms
      and cookies are read as they are written.
    - The connection: requests that are accepted are served once each and in
      order whatever the sizes of reads and writes; whatever bytes arrive, the
      application is called with the framed requests they start with, and with
      all of them while the connection is open; bad framing ends the requests.
      One theorem shows a request that is lost.
    - Routing: a request goes to the first registered route that matches, as
      the scan without the index finds it.
    - WebSocket, events and uploads: messages are received as sent; frames and
      pieces are delivered once and in order or accounted for as lost or
      refused, and no read of an upload is left without an answer.
    - Slot pool and LRU map: each refines an abstract map on every sequence of
      calls; two leases never name one slot.
    - Addresses: which texts are blocks, and which peers the filter admits.
    - Cryptography: streaming SHA-256 is the hash of the whole message, HMAC is
      its RFC 2104 construction, Base64 decoding inverts encoding.
    - Cookies and tokens: acceptance is characterised exactly, and signed tokens
      are accepted. Nothing is claimed of the hardness of the hash functions.
    - Throttling: bounds on what passes and on what is tracked, and how long a
      failing address or subject is refused, however often it tries, while the
      tables have room for all of them.
    - Middleware and caches: what each lets through; what the response cache
      answers was stored for the same request, and what is stored is found; a
      static path stays below its root; the cache of static files is a list in
      order of last use.
    - DNS: names decode in bounds, endpoints come from a response to the query
      that was sent, and a proper answer is returned.

    ** Bounds and fuel

    The recursion over nested JSON values has fuel 258, two more than the
    deepest nesting the parser's own ceiling admits; loops over a text are
    bounded by its length, and the chunked decoder by twice the length plus
    three. That these are enough is part of the theorems: each says that a
    result is returned. The integer cube root behind the SHA-256 constants runs
    over 36 bits, more than the root of any of its arguments has. Those
    constants are a table in the source; they are computed here from their
    definition in FIPS 180-4. A DNS name is decoded within the product of the
    pointers it may follow and the length of the message; making room in a
    cache takes at most as many evictions as it has entries; a WebSocket
    receives one frame per round, and its theorems say how many rounds are
    enough.

    ** Not modelled

    - System calls, the io_uring runtime, coroutines, sockets, files, TLS, the
      HTTP/2 and HTTP/3 stacks and the database client: their behaviour is that
      of the kernel and of third-party libraries.
    - Code over reflected user types (JSON codecs, the application framework),
      which has no fixed program before it is instantiated.
    - Locks and the memory model, apart from the compare-and-swap of the JSON
      index: an operation under a mutex is one step.
    - AES-GCM and the vector variants of the scanners through experimental
      libraries.
    - Not yet translated: the streaming JSON reader, the builder and patches,
      templates, configuration files and compression.
    - The C library's [inet_pton], [inet_ntop] and [strtod_l], allocation
      outcomes, random seeds, hash functions of containers and the clock are
      arguments of the definitions that use them. *)

From Stdlib Require Import ZArith Lia.
From Stdlib Require Import Strings.Byte String Ascii.
From stdpp Require Import base tactics option numbers list.

Set Default Proof Using "Type".
#[global] Open Scope Z_scope.

(** ** Bytes

    A C++ [char] or [unsigned char] is a [Byte.byte]; a [std::string] or a
    [std::string_view] is a list of bytes. *)

Abbreviation bytes := (list byte).

Declare Scope conflux_scope.
Delimit Scope conflux_scope with cfx.
#[global] Open Scope conflux_scope.

(** The numeric value of a byte, as [static_cast<unsigned char>] gives it. *)
Definition byteZ (b : byte) : Z := Z.of_N (Byte.to_N b).

(** [static_cast<unsigned char>] of an integer: reduction modulo 256. *)
Definition byte_of_Z (z : Z) : byte :=
  match Byte.of_N (Z.to_N (z mod 256)) with
  | Some b => b
  | None => x00
  end.

Notation "x =b y" := (Byte.eqb x y) (at level 70) : conflux_scope.

(** Literal text. *)
Definition B (s : string) : bytes := list_byte_of_string s.

#[global] Instance byte_eq_dec : EqDecision byte := Byte.byte_eq_dec.

Definition bytes_eqb (x y : bytes) : bool := bool_decide (x = y).

(** All 256 bytes, so that a boolean fact about bytes is decided by
    evaluation. *)
Definition all_bytes : bytes := map (fun n => byte_of_Z (Z.of_nat n)) (seq 0 256).

Lemma byteZ_range b : 0 <= byteZ b < 256.
Proof.
  unfold byteZ. pose proof (Byte.to_N_bounded b). lia.
Qed.

Lemma byteZ_inj a b : byteZ a = byteZ b -> a = b.
Proof.
  unfold byteZ. intros H%N2Z.inj.
  pose proof (Byte.of_to_N a) as Ha. pose proof (Byte.of_to_N b) as Hb.
  rewrite H in Ha. congruence.
Qed.

Lemma byte_of_Z_byteZ b : byte_of_Z (byteZ b) = b.
Proof.
  unfold byte_of_Z. rewrite Z.mod_small by apply byteZ_range.
  unfold byteZ. rewrite N2Z.id, Byte.of_to_N. reflexivity.
Qed.

Lemma byteZ_byte_of_Z z : byteZ (byte_of_Z z) = z mod 256.
Proof.
  unfold byte_of_Z, byteZ.
  pose proof (Z.mod_pos_bound z 256 ltac:(lia)) as Hz.
  destruct (Byte.of_N (Z.to_N (z mod 256))) as [b|] eqn:E.
  - apply Byte.to_of_N in E. rewrite E, Z2N.id by lia. reflexivity.
  - apply Byte.of_N_None_iff in E. lia.
Qed.

Lemma all_bytes_complete b : In b all_bytes.
Proof.
  unfold all_bytes. apply in_map_iff. exists (Z.to_nat (byteZ b)).
  pose proof (byteZ_range b). split.
  - rewrite Z2Nat.id by lia. apply byte_of_Z_byteZ.
  - apply in_seq. lia.
Qed.

(** A boolean property of bytes is proved by running it on all of them. *)
Lemma forall_byte (P : byte -> bool) :
  forallb P all_bytes = true -> forall b, P b = true.
Proof.
  intros H b. rewrite forallb_forall in H. apply H, all_bytes_complete.
Qed.

Lemma byte_eqb_spec a b : reflect (a = b) (a =b b).
Proof.
  destruct (a =b b) eqn:E; constructor.
  - by apply Byte.byte_dec_bl.
  - intros ->. rewrite Byte.byte_dec_lb in E; done.
Qed.

Lemma byte_eqb_refl a : (a =b a) = true.
Proof. by apply Byte.byte_dec_lb. Qed.

Lemma byte_eqb_eq a b : (a =b b) = true <-> a = b.
Proof. destruct (byte_eqb_spec a b); naive_solver. Qed.

Lemma byte_eqb_ne a b : (a =b b) = false <-> a <> b.
Proof. destruct (byte_eqb_spec a b); naive_solver. Qed.

Lemma bytes_eqb_eq x y : bytes_eqb x y = true <-> x = y.
Proof. apply bool_decide_eq_true. Qed.

Lemma bytes_eqb_refl x : bytes_eqb x x = true.
Proof. by apply bytes_eqb_eq. Qed.

Lemma bytes_eqb_ne x y : bytes_eqb x y = false <-> x <> y.
Proof. apply bool_decide_eq_false. Qed.

(** ** [std::expected] and machine integers *)

Inductive expected (A E : Type) : Type :=
| Ok (a : A)
| Unexpected (e : E).
Arguments Ok {A E} a.
Arguments Unexpected {A E} e.

Definition is_ok {A E} (r : expected A E) : bool :=
  match r with Ok _ => true | Unexpected _ => false end.

Notation "'let?' x := m 'in' k" :=
  (match m with Ok x => k | Unexpected e => Unexpected e end)
  (at level 10, x pattern, m at level 100, k at level 200) : conflux_scope.

(** Unsigned integers of a fixed width, with C++'s wrap-around. *)
Definition u8 (z : Z) : Z := z mod 2 ^ 8.
Definition u32 (z : Z) : Z := z mod 2 ^ 32.
Definition u64 (z : Z) : Z := z mod 2 ^ 64.
Definition size_max : Z := 2 ^ 64 - 1.

Lemma u32_small z : 0 <= z < 2 ^ 32 -> u32 z = z.
Proof. apply Z.mod_small. Qed.

Lemma u64_small z : 0 <= z < 2 ^ 64 -> u64 z = z.
Proof. apply Z.mod_small. Qed.

Lemma u64_range z : 0 <= u64 z < 2 ^ 64.
Proof. apply Z.mod_pos_bound. lia. Qed.

Lemma u64_add_l a b : u64 (u64 a + b) = u64 (a + b).
Proof. unfold u64. apply Zplus_mod_idemp_l. Qed.

Lemma u64_sub_l a b : u64 (u64 a - b) = u64 (a - b).
Proof. unfold u64. apply Zminus_mod_idemp_l. Qed.

(** [(a << n) | d] with [d] below [2 ^ n]. *)
Lemma lor_shiftl_add a d n : 0 <= n -> 0 <= d < 2 ^ n -> Z.lor (Z.shiftl a n) d = a * 2 ^ n + d.
Proof.
  intros Hn Hd. rewrite <- Z.shiftl_mul_pow2 by done.
  rewrite <- (Z.add_lor_land (Z.shiftl a n) d).
  assert (Z.land (Z.shiftl a n) d = 0) as ->; [|lia].
  apply Z.bits_inj'. intros i Hi. rewrite Z.land_spec, Z.bits_0.
  destruct (Z.ltb_spec i n).
  - by rewrite Z.shiftl_spec_low.
  - rewrite <- (Z.mod_small d (2 ^ n)) by done. rewrite Z.mod_pow2_bits_high by lia.
    apply andb_false_r.
Qed.

(** ** [std::string_view]

    [npos] is [None]. [substr pos n] clamps as the C++ member does; the
    source never calls it with [pos] beyond the end. *)

Definition substr (s : bytes) (pos n : nat) : bytes := take n (drop pos s).

Fixpoint find_byte (c : byte) (s : bytes) : option nat :=
  match s with
  | [] => None
  | x :: s' => if x =b c then Some 0%nat else S <$> find_byte c s'
  end.

(** [s.find(c, pos)] *)
Definition sv_find (c : byte) (s : bytes) (pos : nat) : option nat :=
  (fun k => (pos + k)%nat) <$> find_byte c (drop pos s).

(** [s.rfind(c)] *)
Fixpoint sv_rfind (c : byte) (s : bytes) : option nat :=
  match s with
  | [] => None
  | x :: s' =>
      match sv_rfind c s' with
      | Some n => Some (S n)
      | None => if x =b c then Some 0%nat else None
      end
  end.

(** [s.starts_with(p)] *)
Fixpoint starts_with (s p : bytes) : bool :=
  match p, s with
  | [], _ => true
  | y :: p', x :: s' => (x =b y) && starts_with s' p'
  | _ :: _, [] => false
  end.

(** [s.ends_with(p)] *)
Definition ends_with (s p : bytes) : bool := starts_with (rev s) (rev p).

(** First occurrence of a string, for a needle that is not empty. *)
Fixpoint find_sub (p s : bytes) : option nat :=
  match s with
  | [] => None
  | _ :: s' => if starts_with s p then Some 0%nat else S <$> find_sub p s'
  end.

(** [s.find(p, pos)] *)
Definition sv_find_sub (p s : bytes) (pos : nat) : option nat :=
  (fun k => (pos + k)%nat) <$> find_sub p (drop pos s).

(** ** Decimal numbers, [std::from_chars] and [std::to_chars] *)

Definition in_range (lo hi : Z) (c : byte) : bool :=
  (lo <=? byteZ c) && (byteZ c <=? hi).

Definition is_digit (c : byte) : bool := in_range 48 57 c.

Definition digit_val (c : byte) : Z := byteZ c - 48.

Definition dec_value (ds : bytes) : Z :=
  fold_left (fun acc d => acc * 10 + digit_val d) ds 0.

Fixpoint span {A} (f : A -> bool) (l : list A) : list A * list A :=
  match l with
  | [] => ([], [])
  | x :: l' => if f x then let '(a, b) := span f l' in (x :: a, b) else ([], l)
  end.

(** What [std::from_chars] reports: the value and the characters consumed, or
    [invalid_argument], or [result_out_of_range] with the characters consumed. *)
Inductive from_chars_result (V : Type) : Type :=
| FcOk (v : V) (consumed : nat)
| FcInvalid
| FcRange (consumed : nat).
Arguments FcOk {V} v consumed.
Arguments FcInvalid {V}.
Arguments FcRange {V} consumed.

(** [std::from_chars] for an unsigned type whose largest value is [maxv]. *)
Definition from_chars_unsigned (maxv : Z) (s : bytes) : from_chars_result Z :=
  let '(ds, _) := span is_digit s in
  match ds with
  | [] => FcInvalid
  | _ :: _ =>
      if maxv <? dec_value ds then FcRange (length ds) else FcOk (dec_value ds) (length ds)
  end.

(** [std::from_chars] for a signed type with values in [minv, maxv]. *)
Definition from_chars_signed (minv maxv : Z) (s : bytes) : from_chars_result Z :=
  match s with
  | x2d :: s' =>
      let '(ds, _) := span is_digit s' in
      match ds with
      | [] => FcInvalid
      | _ :: _ =>
          if - dec_value ds <? minv then FcRange (S (length ds))
          else FcOk (- dec_value ds) (S (length ds))
      end
  | _ => from_chars_unsigned maxv s
  end.

(** [std::to_chars] of a non-negative integer. *)
Fixpoint to_dec_fuel (n : nat) (z : Z) (acc : bytes) : bytes :=
  match n with
  | O => acc
  | S n' =>
      let acc' := byte_of_Z (48 + z mod 10) :: acc in
      if z <? 10 then acc' else to_dec_fuel n' (z / 10) acc'
  end.

Definition to_dec (z : Z) : bytes := to_dec_fuel (S (Z.to_nat (Z.log2 z))) z [].

(** ** Tactics and hint databases *)

(** Split a boolean condition of the code into its comparisons. *)
Ltac bool_simp :=
  repeat match goal with
  | H : (_ && _) = true |- _ => apply andb_true_iff in H; destruct H
  | H : (_ || _) = false |- _ => apply orb_false_iff in H; destruct H
  | H : negb _ = true |- _ => apply negb_true_iff in H
  | H : negb _ = false |- _ => apply negb_false_iff in H
  | H : (_ =b _) = true |- _ => apply byte_eqb_eq in H
  | H : (_ =b _) = false |- _ => apply byte_eqb_ne in H
  | H : bytes_eqb _ _ = true |- _ => apply bytes_eqb_eq in H
  | H : bytes_eqb _ _ = false |- _ => apply bytes_eqb_ne in H
  | H : (_ <? _) = true |- _ => apply Z.ltb_lt in H
  | H : (_ <? _) = false |- _ => apply Z.ltb_ge in H
  | H : (_ <=? _) = true |- _ => apply Z.leb_le in H
  | H : (_ <=? _) = false |- _ => apply Z.leb_gt in H
  | H : (_ =? _) = true |- _ => apply Z.eqb_eq in H
  | H : (_ =? _) = false |- _ => apply Z.eqb_neq in H
  | H : (_ <? _)%nat = true |- _ => apply Nat.ltb_lt in H
  | H : (_ <? _)%nat = false |- _ => apply Nat.ltb_ge in H
  | H : (_ <=? _)%nat = true |- _ => apply Nat.leb_le in H
  | H : (_ <=? _)%nat = false |- _ => apply Nat.leb_gt in H
  | H : (_ =? _)%nat = true |- _ => apply Nat.eqb_eq in H
  | H : (_ =? _)%nat = false |- _ => apply Nat.eqb_neq in H
  end.

(** Case analysis on every match of the goal or of a hypothesis. *)
Ltac dmatch := repeat (case_match; simplify_eq/=; bool_simp; try done).

(** A boolean fact about one byte, by evaluation on all of them. *)
Ltac byte_decide b :=
  let P := match goal with |- @eq bool ?e true => eval pattern b in e end in
  match P with ?f b => exact (forall_byte f ltac:(vm_compute; reflexivity) b) end.

Create HintDb cfx.
Create HintDb cfxr.

(** ** Lists and lookups *)

Lemma drop_lookup_cons {A} (l : list A) i x :
  l !! i = Some x -> drop i l = x :: drop (S i) l.
Proof. apply drop_S. Qed.

Lemma take_S_snoc {A} (l : list A) i x :
  l !! i = Some x -> take (S i) l = take i l ++ [x].
Proof. apply take_S_r. Qed.

Lemma take_drop_app {A} (l : list A) (i j : nat) :
  (i <= j)%nat -> take j l = take i l ++ take (j - i) (drop i l).
Proof.
  intros. replace j with (i + (j - i))%nat at 1 by lia.
  by rewrite <- take_take_drop.
Qed.

Lemma substr_split (l : bytes) (i j k : nat) :
  (i <= j <= k)%nat -> substr l i (k - i) = substr l i (j - i) ++ substr l j (k - j).
Proof.
  intros. unfold substr.
  rewrite (take_drop_app (drop i l) (j - i) (k - i)) by lia.
  rewrite drop_drop. f_equal. f_equal; [lia|]. f_equal; lia.
Qed.

Lemma drop_substr (l : bytes) (i n : nat) : drop i l = substr l i n ++ drop (i + n) l.
Proof. unfold substr. by rewrite <- drop_drop, take_drop. Qed.

Lemma substr_add (l : bytes) (i a b : nat) : substr l i (a + b) = substr l i a ++ substr l (i + a) b.
Proof.
  unfold substr. rewrite (take_drop_app _ a (a + b)) by lia. rewrite drop_drop. by replace (a + b - a)%nat with b by lia.
Qed.

Lemma substr_length (l : bytes) (i n : nat) :
  length (substr l i n) = Nat.min n (length l - i).
Proof. unfold substr. rewrite length_take, length_drop. done. Qed.

Lemma substr_nil l i : substr l i 0 = [].
Proof. done. Qed.

Lemma substr_1 (l : bytes) i x : l !! i = Some x -> substr l i 1 = [x].
Proof. intros H. unfold substr. by rewrite (drop_lookup_cons _ _ _ H). Qed.

Lemma substr_S (l : bytes) i x n :
  l !! i = Some x -> substr l i (S n) = x :: substr l (S i) n.
Proof. intros H. unfold substr. by rewrite (drop_lookup_cons _ _ _ H). Qed.

Lemma substr_app_l (l1 l2 : bytes) : substr (l1 ++ l2) 0 (length l1) = l1.
Proof. unfold substr. by rewrite drop_0, take_app_length. Qed.

Lemma substr_app_mid (l1 l2 l3 : bytes) :
  substr (l1 ++ l2 ++ l3) (length l1) (length l2) = l2.
Proof. unfold substr. by rewrite drop_app_length, take_app_length. Qed.

Lemma drop_after {A} (l : list A) c t : drop (S (length l)) (l ++ c :: t) = t.
Proof. induction l; simpl; auto. Qed.

Lemma starts_with_spec (s p : bytes) :
  starts_with s p = true <-> exists t, s = p ++ t.
Proof.
  revert s. induction p as [|y p IH]; intros s; simpl.
  - destruct s; split; eauto.
  - destruct s as [|x s]; simpl.
    + split; [done|]. intros [t [=]].
    + rewrite andb_true_iff, byte_eqb_eq, IH. split.
      * intros [-> [t ->]]. eauto.
      * intros [t [= -> ->]]. eauto.
Qed.

Lemma starts_with_app (p t : bytes) : starts_with (p ++ t) p = true.
Proof. apply starts_with_spec. eauto. Qed.

Lemma find_byte_Some c s n :
  find_byte c s = Some n -> s = take n s ++ c :: drop (S n) s /\ c ∉ take n s.
Proof.
  revert n. induction s as [|x s IH]; intros n; simpl; [done|].
  destruct (byte_eqb_spec x c) as [->|Hne].
  - intros [= <-]. split; [done|]. apply not_elem_of_nil.
  - destruct (find_byte c s) as [m|]; [|done]. intros [= <-].
    destruct (IH m eq_refl) as [Hs Hn]. cbn. split; [by f_equal|].
    rewrite not_elem_of_cons. naive_solver.
Qed.

Lemma find_byte_lookup c s n : find_byte c s = Some n -> s !! n = Some c.
Proof.
  revert n. induction s as [|x s IH]; intros n; simpl; [done|].
  destruct (byte_eqb_spec x c) as [->|Hne]; [by intros [= <-]|].
  destruct (find_byte c s) as [m|]; [|done]. intros [= <-]. by apply IH.
Qed.

Lemma find_byte_lt c s n : find_byte c s = Some n -> (n < length s)%nat.
Proof. intros H%find_byte_lookup. by eapply lookup_lt_Some. Qed.

Lemma find_byte_None c s : find_byte c s = None <-> c ∉ s.
Proof.
  induction s as [|x s IH]; simpl; [split; [intros _; apply not_elem_of_nil|done]|].
  rewrite elem_of_cons. destruct (byte_eqb_spec x c) as [->|Hne]; [naive_solver|].
  destruct (find_byte c s) as [m|]; simpl; naive_solver.
Qed.

Lemma find_byte_app c p t : c ∉ p -> find_byte c (p ++ c :: t) = Some (length p).
Proof.
  induction p as [|x p IH]; simpl; intros H.
  - by rewrite byte_eqb_refl.
  - rewrite not_elem_of_cons in H. destruct (byte_eqb_spec x c); [naive_solver|].
    by rewrite IH by naive_solver.
Qed.

Lemma find_sub_Some p s n :
  find_sub p s = Some n ->
  exists t, s = take n s ++ p ++ t /\ (n < length s)%nat.
Proof.
  revert n. induction s as [|x s IH]; intros n; cbn -[starts_with]; [done|].
  destruct (starts_with (x :: s) p) eqn:E.
  - intros [= <-]. apply starts_with_spec in E as [t Ht]. exists t. simpl. split; [done|lia].
  - destruct (find_sub p s) as [m|]; [|done]. intros [= <-].
    destruct (IH m eq_refl) as (t & Ht & Hl). exists t. simpl. split; [by f_equal|lia].
Qed.

(** The match found is the first one. *)
Lemma find_sub_first p s n i :
  find_sub p s = Some n -> (i < n)%nat -> starts_with (drop i s) p = false.
Proof.
  revert n i. induction s as [|x s IH]; intros n i; cbn -[starts_with]; [done|].
  destruct (starts_with (x :: s) p) eqn:E; [intros [= <-]; lia|].
  destruct (find_sub p s) as [m|] eqn:Ef; [|done]. intros [= <-] Hi.
  destruct i as [|i]; [done|]. apply (IH m); [done|lia].
Qed.

Lemma find_sub_None p s i :
  find_sub p s = None -> (i < length s)%nat -> starts_with (drop i s) p = false.
Proof.
  revert i. induction s as [|x s IH]; intros i; cbn -[starts_with]; [lia|].
  destruct (starts_with (x :: s) p) eqn:E; [done|].
  destruct (find_sub p s) as [m|] eqn:Ef; [done|]. intros _ Hi.
  destruct i as [|i]; [done|]. apply IH; [done|lia].
Qed.

Lemma find_sub_complete p s n :
  (n < length s)%nat -> starts_with (drop n s) p = true ->
  (forall i, (i < n)%nat -> starts_with (drop i s) p = false) ->
  find_sub p s = Some n.
Proof.
  revert n. induction s as [|x s IH]; intros n Hl Hn Hf; simpl in Hl; [lia|].
  cbn -[starts_with]. destruct n as [|n].
  - rewrite drop_0 in Hn. by rewrite Hn.
  - pose proof (Hf 0%nat ltac:(lia)) as H0. rewrite drop_0 in H0. rewrite H0.
    rewrite (IH n); [done|lia|done|]. intros i Hi. apply (Hf (S i)). lia.
Qed.

Lemma forallb_Forall {A} (f : A -> bool) l : forallb f l = true <-> Forall (fun x => f x = true) l.
Proof.
  induction l as [|x l IH]; simpl; [by split; [constructor|]|]. rewrite andb_true_iff, IH, Forall_cons. done.
Qed.

Lemma span_spec {A} (f : A -> bool) l a b :
  span f l = (a, b) ->
  l = a ++ b /\ Forall (fun x => f x = true) a /\
  match b with [] => True | y :: _ => f y = false end.
Proof.
  revert a b. induction l as [|x l IH]; intros a b; simpl.
  - intros [= <- <-]. done.
  - destruct (f x) eqn:E.
    + destruct (span f l) as [a' b']. intros [= <- <-].
      destruct (IH a' b' eq_refl) as (-> & ? & ?). repeat split; [|done]. by constructor.
    + intros [= <- <-]. done.
Qed.

Lemma span_app {A} (f : A -> bool) a b :
  Forall (fun x => f x = true) a ->
  match b with [] => True | y :: _ => f y = false end ->
  span f (a ++ b) = (a, b).
Proof.
  induction 1 as [|x a Hx Ha IH]; intros Hb; simpl.
  - destruct b as [|y b]; simpl; [done|]. by rewrite Hb.
  - rewrite Hx, IH by done. done.
Qed.

Lemma span_all {A} (f : A -> bool) a :
  Forall (fun x => f x = true) a -> span f a = (a, []).
Proof. intros H. rewrite <- (app_nil_r a) at 1. by apply span_app. Qed.

(** ** Decimal round trip *)

Lemma dec_value_acc ds a :
  fold_left (fun acc d => acc * 10 + digit_val d) ds a
  = a * 10 ^ Z.of_nat (length ds) + dec_value ds.
Proof.
  unfold dec_value. revert a. induction ds as [|d ds IH]; intros a; cbn [fold_left length].
  - lia.
  - rewrite IH, (IH (0 * 10 + digit_val d)).
    rewrite Nat2Z.inj_succ, Z.pow_succ_r by lia. lia.
Qed.

Lemma dec_value_cons d ds :
  dec_value (d :: ds) = digit_val d * 10 ^ Z.of_nat (length ds) + dec_value ds.
Proof. unfold dec_value at 1. cbn [fold_left]. apply dec_value_acc. Qed.

Lemma dec_value_app a b :
  dec_value (a ++ b) = dec_value a * 10 ^ Z.of_nat (length b) + dec_value b.
Proof. unfold dec_value at 1. rewrite fold_left_app. apply dec_value_acc. Qed.

Lemma is_digit_val d : is_digit d = true -> 0 <= digit_val d <= 9.
Proof. unfold is_digit, in_range, digit_val. intros. bool_simp. lia. Qed.

Lemma dec_value_nonneg ds : Forall (fun d => is_digit d = true) ds -> 0 <= dec_value ds.
Proof.
  induction 1 as [|d ds Hd _ IH]; [done|]. rewrite dec_value_cons.
  apply is_digit_val in Hd.
  pose proof (Z.pow_nonneg 10 (Z.of_nat (length ds)) ltac:(lia)). nia.
Qed.

Lemma digit_byte z : 0 <= z <= 9 -> is_digit (byte_of_Z (48 + z)) = true /\
  digit_val (byte_of_Z (48 + z)) = z.
Proof.
  intros. unfold is_digit, in_range, digit_val.
  rewrite byteZ_byte_of_Z, Z.mod_small by lia. split; [|lia].
  apply andb_true_iff. rewrite !Z.leb_le. lia.
Qed.

Lemma to_dec_fuel_spec n z acc :
  0 <= z -> (Z.to_nat (Z.log2 z) < n)%nat ->
  exists ds, to_dec_fuel n z acc = ds ++ acc /\ ds <> [] /\
    Forall (fun d => is_digit d = true) ds /\ dec_value ds = z.
Proof.
  revert z acc. induction n as [|n IH]; intros z acc Hz Hn; [lia|]. simpl.
  assert (Hm : 0 <= z mod 10 <= 9) by (pose proof (Z.mod_pos_bound z 10); lia).
  destruct (digit_byte (z mod 10) Hm) as [Hd Hv].
  destruct (z <? 10) eqn:E; bool_simp.
  - exists [byte_of_Z (48 + z mod 10)]. repeat split; [done|by repeat constructor|].
    unfold dec_value. cbn [fold_left]. rewrite Hv, Z.mod_small by lia. lia.
  - assert (Hlog : Z.log2 (z / 10) < Z.log2 z).
    { apply Z.log2_lt_pow2; [apply Z.div_str_pos; lia|].
      pose proof (Z.log2_spec z ltac:(lia)) as [_ Hu].
      rewrite Z.pow_succ_r in Hu by apply Z.log2_nonneg.
      apply Z.div_lt_upper_bound; lia. }
    assert (Hz' : 0 <= z / 10) by (apply Z.div_pos; lia).
    pose proof (Z.log2_nonneg (z / 10)).
    destruct (IH (z / 10) (byte_of_Z (48 + z mod 10) :: acc) Hz' ltac:(lia))
      as (ds & -> & Hne & Hds & Hval).
    exists (ds ++ [byte_of_Z (48 + z mod 10)]). rewrite <- app_assoc. repeat split.
    + by destruct ds.
    + apply Forall_app_2; [done|by repeat constructor].
    + rewrite dec_value_app, Hval. unfold dec_value at 1. cbn [fold_left length]. rewrite Hv.
      pose proof (Z.div_mod z 10). lia.
Qed.

Lemma to_dec_spec z :
  0 <= z ->
  to_dec z <> [] /\ Forall (fun d => is_digit d = true) (to_dec z) /\ dec_value (to_dec z) = z.
Proof.
  intros Hz. unfold to_dec.
  destruct (to_dec_fuel_spec (S (Z.to_nat (Z.log2 z))) z [] Hz ltac:(lia)) as (ds & -> & ?).
  by rewrite app_nil_r.
Qed.

Lemma from_chars_to_dec maxv z t :
  0 <= z <= maxv ->
  match t with [] => True | y :: _ => is_digit y = false end ->
  from_chars_unsigned maxv (to_dec z ++ t) = FcOk z (length (to_dec z)).
Proof.
  intros Hz Ht. destruct (to_dec_spec z ltac:(lia)) as (Hne & Hds & Hv).
  unfold from_chars_unsigned. rewrite span_app by done. rewrite Hv.
  destruct (to_dec z); [done|]. destruct (Z.ltb_spec maxv z); [lia|done].
Qed.

Lemma to_dec_inj a b : 0 <= a -> 0 <= b -> to_dec a = to_dec b -> a = b.
Proof.
  intros Ha Hb H. destruct (to_dec_spec a Ha) as (_ & _ & <-).
  destruct (to_dec_spec b Hb) as (_ & _ & <-). by rewrite H.
Qed.

Lemma sv_rfind_None c s : sv_rfind c s = None <-> c ∉ s.
Proof.
  induction s as [|x s IH]; [split; [intros _; apply not_elem_of_nil|done]|]. cbn [sv_rfind]. rewrite not_elem_of_cons.
  destruct (sv_rfind c s) as [n|]; [split; [done|]; intros [_ H]; by apply IH in H|].
  destruct (byte_eqb_spec x c) as [->|Hne]; [by split; [|intros [H _]]|]. naive_solver.
Qed.

Lemma sv_rfind_app c p t : c ∉ t -> sv_rfind c (p ++ c :: t) = Some (length p).
Proof.
  intros Ht. induction p as [|x p IH]; cbn [app sv_rfind length]; [|by rewrite IH].
  by rewrite (proj2 (sv_rfind_None c t) Ht), byte_eqb_refl.
Qed.

Lemma sv_rfind_Some c s n : sv_rfind c s = Some n -> s = take n s ++ c :: drop (n + 1) s /\ c ∉ drop (n + 1) s.
Proof.
  revert n. induction s as [|x s IH]; intros n; [done|]. cbn [sv_rfind].
  destruct (sv_rfind c s) as [k|] eqn:E.
  - intros [= <-]. destruct (IH k eq_refl) as [Hs Hn]. cbn [take drop Nat.add app]. by rewrite <- Hs.
  - destruct (byte_eqb_spec x c) as [->|]; [|done]. intros [= <-]. cbn [take drop Nat.add app].
    split; [done|]. by apply sv_rfind_None.
Qed.

(** ** Splitting at a byte *)

Fixpoint split_on (d : byte) (s : bytes) : list bytes :=
  match s with
  | [] => [[]]
  | c :: s' =>
      if c =b d then [] :: split_on d s'
      else match split_on d s' with h :: t => (c :: h) :: t | [] => [[c]] end
  end.

Lemma split_on_nil d s : split_on d s <> [].
Proof. destruct s as [|c s]; cbn [split_on]; [done|]. destruct (c =b d); [done|]. by destruct (split_on d s). Qed.

Lemma split_on_none d s : d ∉ s -> split_on d s = [s].
Proof.
  induction s as [|c s IH]; [done|]. cbn [split_on]. intros [Hc Hs]%not_elem_of_cons.
  rewrite IH by done. destruct (byte_eqb_spec c d); [by subst|done].
Qed.

Lemma split_on_app d a t : d ∉ a -> split_on d (a ++ d :: t) = a :: split_on d t.
Proof.
  induction a as [|c a IH]; cbn [app split_on]; [by rewrite byte_eqb_refl|]. intros [Hc Hs]%not_elem_of_cons.
  rewrite IH by done. destruct (byte_eqb_spec c d); [by subst|done].
Qed.

Lemma split_on_find d s :
  split_on d s = match find_byte d s with None => [s] | Some n => take n s :: split_on d (drop (S n) s) end.
Proof.
  destruct (find_byte d s) as [n|] eqn:E.
  - apply find_byte_Some in E as [Hs Hn]. rewrite Hs at 1. by rewrite split_on_app.
  - apply split_on_none. by apply find_byte_None.
Qed.

Fixpoint join_on (d : byte) (parts : list bytes) : bytes :=
  match parts with
  | [] => []
  | [p] => p
  | p :: ps => p ++ d :: join_on d ps
  end.

Lemma join_split_on d s : join_on d (split_on d s) = s.
Proof.
  induction s as [|c s IH]; [done|]. cbn [split_on]. pose proof (split_on_nil d s) as Hn.
  destruct (byte_eqb_spec c d) as [->|Hc].
  - destruct (split_on d s) as [|h t]; [done|]. cbn [join_on app] in *. by rewrite IH.
  - destruct (split_on d s) as [|h t]; [done|]. destruct t; cbn [join_on app] in *; by rewrite <- IH.
Qed.

Lemma split_on_clean d s : Forall (fun p => d ∉ p) (split_on d s).
Proof.
  induction s as [|c s IH]; cbn [split_on]; [repeat constructor; apply not_elem_of_nil|].
  destruct (byte_eqb_spec c d) as [->|Hc]; [constructor; [apply not_elem_of_nil|done]|].
  destruct (split_on d s) as [|h t]; [repeat constructor; apply not_elem_of_cons; split; [done|apply not_elem_of_nil]|].
  apply Forall_cons in IH as [Hh Ht]. constructor; [|done]. apply not_elem_of_cons. by split.
Qed.

(** ** Whole decimal texts *)

Lemma from_chars_all maxv v :
  v <> [] -> Forall (fun c => is_digit c = true) v ->
  from_chars_unsigned maxv v = if maxv <? dec_value v then FcRange (length v) else FcOk (dec_value v) (length v).
Proof. intros Hne Hd. unfold from_chars_unsigned. rewrite span_all by done. by destruct v. Qed.

Lemma from_chars_full maxv v n :
  from_chars_unsigned maxv v = FcOk n (length v) -> v <> [] -> Forall (fun c => is_digit c = true) v.
Proof.
  unfold from_chars_unsigned. destruct (span is_digit v) as [ds r] eqn:E. apply span_spec in E as (-> & Hd & _).
  destruct ds as [|d ds]; [done|]. destruct (_ <? _); [done|]. intros [= _ Hl] _. rewrite length_app in Hl.
  destruct r; [by rewrite app_nil_r|simpl in Hl; lia].
Qed.

(** A [from_chars] whose caller insists that the whole text was read. *)
Lemma from_chars_whole maxv v :
  match from_chars_unsigned maxv v with
  | FcOk n len => if negb (len =? length v)%nat then None else Some n
  | _ => None
  end = if (negb (bool_decide (v = [])) && forallb is_digit v && (dec_value v <=? maxv))%bool
        then Some (dec_value v) else None.
Proof.
  destruct (decide (v = [])) as [->|Hne]; [done|]. rewrite bool_decide_false by done. cbn [negb andb].
  destruct (forallb is_digit v) eqn:Hd; cbn [andb].
  - rewrite forallb_forall in Hd. rewrite from_chars_all by (try apply Forall_forall; intros; try apply Hd; by try apply list_elem_of_In).
    destruct (Z.ltb_spec maxv (dec_value v)), (Z.leb_spec (dec_value v) maxv); try lia; [done|].
    by rewrite Nat.eqb_refl.
  - destruct (from_chars_unsigned maxv v) as [n len| |] eqn:E; try done.
    destruct (Nat.eqb_spec len (length v)) as [->|]; [|done]. exfalso.
    apply from_chars_full in E; [|done]. rewrite Forall_forall in E.
    enough (forallb is_digit v = true) by congruence. apply forallb_forall. intros x Hx. apply E.
    by apply list_elem_of_In.
Qed.
