(* ===== verification/Unicode.v ===== *)
(** * Unicode text in UTF-8

    The scalar values of Unicode, their encodings and the byte strings made of them,
    as RFC 3629 defines them, by arithmetic on the code points. The decoders and
    checks of the sources (the JSON tokenizer and serializer, the text frames of
    WebSocket) are compared with these definitions and share none with them. *)

From Stdlib Require Import ZArith Lia Strings.Byte String.
From stdpp Require Import base tactics option numbers list.
From S2P Require Import Prelude.

(** The code points without the surrogates. *)
Definition scalar (cp : Z) : Prop := 0 <= cp < 0x110000 /\ ~ (0xD800 <= cp <= 0xDFFF).

(** One to four bytes: the high bits of the first give the length, each other byte
    has six bits of the code point. *)
Definition utf8_of (cp : Z) : bytes :=
  map byte_of_Z
    (if cp <? 0x80 then [cp]
     else if cp <? 0x800 then [192 + cp / 64; 128 + cp mod 64]
     else if cp <? 0x10000 then [224 + cp / 4096; 128 + cp / 64 mod 64; 128 + cp mod 64]
     else [240 + cp / 262144; 128 + cp / 4096 mod 64; 128 + cp / 64 mod 64; 128 + cp mod 64]).

Inductive scalars : bytes -> Prop :=
| scalars_nil : scalars []
| scalars_cons cp d : scalar cp -> scalars d -> scalars (utf8_of cp ++ d).

Lemma scalars_one cp : scalar cp -> scalars (utf8_of cp).
Proof. intros H. rewrite <- (app_nil_r (utf8_of cp)). by constructor; [|constructor]. Qed.

Lemma scalars_app a b : scalars a -> scalars b -> scalars (a ++ b).
Proof. induction 1 as [|cp d Hc _ IH]; [done|]. intros Hb. rewrite <- app_assoc. constructor; [done|by apply IH]. Qed.

Lemma utf8_of_ascii c : byteZ c < 0x80 -> scalar (byteZ c) /\ utf8_of (byteZ c) = [c].
Proof.
  intros H. pose proof (byteZ_range c). split; [unfold scalar; lia|]. unfold utf8_of. destruct (Z.ltb_spec (byteZ c) 0x80); [|lia].
  cbn. by rewrite byte_of_Z_byteZ.
Qed.

(** ASCII text. *)
Lemma scalars_ascii_text s : Forall (fun c => byteZ c < 0x80) s -> scalars s.
Proof.
  induction 1 as [|c s Hc _ IH]; [constructor|]. destruct (utf8_of_ascii c Hc) as [Hs E]. change (c :: s) with ([c] ++ s).
  rewrite <- E. by constructor.
Qed.
