(* ===== verification/ByteScan.v ===== *)
(** * Byte scanners: SWAR and SIMD loops against their scalar specification

    The word-at-a-time and vector-at-a-time scanners that the JSON tokenizer,
    the JSON dumper and the fallback string escaper run over string bodies
    ([src/src/utils.cxx], [src/src/json_api.cxx],
    [src/src/json_simd_intrinsics.cxx], [src/src/json_dump.cxx]). Each is
    written as the source has it (64-bit words with wrap-around, 16- and
    32-lane masks, count-trailing-zeros) and proved equal to "index of the
    first byte that satisfies the predicate, or the length". *)

From Stdlib Require Import ZArith Lia Strings.Byte.
From stdpp Require Import base tactics option numbers list.
From S2P Require Import Prelude.

(** ** Machine operations the scanners use *)

Module Machine.

(** [std::memcpy] of the bytes at [p] into a little-endian word. *)
Fixpoint le_word (bs : bytes) : Z :=
  match bs with
  | [] => 0
  | b :: bs' => byteZ b + 256 * le_word bs'
  end.

(** [std::countr_zero] / [__builtin_ctzll] of a positive number. *)
Fixpoint pos_ctz (p : positive) : nat :=
  match p with
  | xO q => S (pos_ctz q)
  | _ => O
  end.

Definition countr_zero (z : Z) : nat :=
  match z with Zpos p => pos_ctz p | _ => 64%nat end.

(** 64-bit subtraction and complement. *)
Definition sub64 (a b : Z) : Z := u64 (a - b).
Definition not64 (a : Z) : Z := Z.lxor a (2 ^ 64 - 1).

(** [_mm_movemask_epi8] of a vector of lane flags: bit [i] is lane [i]. *)
Fixpoint movemask (lanes : list bool) : Z :=
  match lanes with
  | [] => 0
  | b :: t => (if b then 1 else 0) + 2 * movemask t
  end.

(** The signed value of a lane, as [_mm_cmplt_epi8] reads it. *)
Definition signed8 (b : byte) : Z := if byteZ b <? 128 then byteZ b else byteZ b - 256.

Lemma le_word_range bs : 0 <= le_word bs < 256 ^ Z.of_nat (length bs).
Proof.
  induction bs as [|b bs IH]; cbn [le_word length]; [lia|].
  rewrite Nat2Z.inj_succ, Z.pow_succ_r by lia. pose proof (byteZ_range b). lia.
Qed.

Lemma countr_zero_double z : 0 < z -> countr_zero (2 * z) = S (countr_zero z).
Proof. destruct z; try lia. done. Qed.

Lemma countr_zero_odd z : 0 < z -> Z.odd z = true -> countr_zero z = 0%nat.
Proof. destruct z as [|p|p]; try lia. by destruct p. Qed.

Lemma countr_zero_mul_pow2 (n : nat) z :
  0 < z -> countr_zero (2 ^ Z.of_nat n * z) = (n + countr_zero z)%nat.
Proof.
  intros Hz. induction n as [|n IH]; [by rewrite Z.mul_1_l|].
  rewrite Nat2Z.inj_succ, Z.pow_succ_r by lia.
  rewrite <- Z.mul_assoc, countr_zero_double by (apply Z.mul_pos_pos; lia).
  by rewrite IH.
Qed.

(** The lowest set bit of a number whose low byte is [0x80] is bit 7. *)
Lemma countr_zero_low_msb z : 0 <= z -> z mod 256 = 128 -> countr_zero z = 7%nat.
Proof.
  intros Hz Hm.
  assert (z = 2 ^ Z.of_nat 7 * (2 * (z / 256) + 1)) as ->.
  { pose proof (Z.div_mod z 256). change (2 ^ Z.of_nat 7) with 128. lia. }
  assert (0 <= z / 256) by (apply Z.div_pos; lia).
  rewrite countr_zero_mul_pow2 by lia. rewrite countr_zero_odd; [done|lia|].
  by rewrite Z.add_comm, Z.odd_add_mul_2.
Qed.

(** The lowest set bit of [movemask] is the first set lane. *)
Lemma movemask_first lanes :
  0 <= movemask lanes /\
  (movemask lanes = 0 <-> Forall (fun b => b = false) lanes) /\
  (movemask lanes <> 0 ->
   exists pre post, lanes = pre ++ true :: post /\ Forall (fun b => b = false) pre /\
     countr_zero (movemask lanes) = length pre).
Proof.
  induction lanes as [|b t (IH0 & IHz & IHf)]; cbn [movemask]; [by repeat split|].
  destruct b.
  - split_and!; [lia| |].
    + split; [lia|]. intros H. by inversion H.
    + intros _. exists [], t. repeat split; [constructor|].
      apply countr_zero_odd; [lia|]. by rewrite Z.odd_add_mul_2.
  - split_and!; [lia| |].
    + split.
      * intros. constructor; [done|apply IHz; lia].
      * intros H. inversion_clear H. rewrite (proj2 IHz) by done. lia.
    + intros Hne. destruct IHf as (pre & post & -> & Hp & Hc); [lia|].
      exists (false :: pre), post. repeat split; [by constructor|].
      rewrite Z.add_0_l, countr_zero_double by lia. by rewrite Hc.
Qed.

End Machine.

(** ** The scanners, as the source writes them *)

Module Swar.
Import Machine.

Section constants.

Definition kMsb : Z := 0x8080808080808080.
Definition kOnes : Z := 0x0101010101010101.
Definition kQuote : Z := 0x2222222222222222.
Definition kBackslash : Z := 0x5C5C5C5C5C5C5C5C.
Definition kSpace : Z := 0x2020202020202020.

End constants.

(** The mask of bytes to escape in one word ([utils.cxx]). *)
Definition escape_bad_word (word : Z) : Z :=
  let q := Z.lxor word kQuote in
  let b := Z.lxor word kBackslash in
  Z.lor (Z.lor (Z.land (Z.land (sub64 q kOnes) (not64 q)) kMsb)
               (Z.land (Z.land (sub64 b kOnes) (not64 b)) kMsb))
        (Z.land (Z.land (sub64 word kSpace) (not64 word)) kMsb).

(** [zero_byte_mask] of [scan_str_until_special_swar]. *)
Definition zero_byte_mask (word : Z) : Z :=
  Z.land (Z.land (sub64 word kOnes) (not64 word)) kMsb.

(** The mask of special bytes in one word ([json_api.cxx]): quote, backslash,
    control and non-ASCII. *)
Definition special_bad_word (word : Z) : Z :=
  let quote_or_backslash :=
    Z.lor (zero_byte_mask (Z.lxor word kQuote)) (zero_byte_mask (Z.lxor word kBackslash)) in
  let control := Z.land (Z.land (sub64 word kSpace) (not64 word)) kMsb in
  let high_ascii := Z.land word kMsb in
  Z.lor (Z.lor quote_or_backslash control) high_ascii.

(** The loop shared by the two SWAR scanners: eight bytes at a time from
    index [i] of the [n] bytes at [p], then the scalar tail. [fuel] bounds the
    iterations; each advances [i]. *)
Fixpoint scalar_tail (stop : byte -> bool) (fuel : nat) (p : bytes) (i n : nat) : nat :=
  match fuel with
  | O => i
  | S fuel' =>
      if (i <? n)%nat then
        match p !! i with
        | Some c => if stop c then i else scalar_tail stop fuel' p (S i) n
        | None => i
        end
      else i
  end.

Fixpoint swar_loop (bad : Z -> Z) (stop : byte -> bool) (fuel : nat) (p : bytes) (i n : nat) : nat :=
  match fuel with
  | O => i
  | S fuel' =>
      if (i + 8 <=? n)%nat then
        let w := bad (le_word (substr p i 8)) in
        if negb (w =? 0) then (i + Nat.div (countr_zero w) 8)%nat
        else swar_loop bad stop fuel' p (i + 8) n
      else scalar_tail stop (S (n - i)) p i n
  end.

Definition stop_escape (c : byte) : bool :=
  (byteZ c <? 0x20) || (c =b x22) || (c =b x5c).

Definition stop_special (c : byte) : bool :=
  (c =b x22) || (c =b x5c) || (byteZ c <? 0x20) || (0x80 <=? byteZ c).

(** [json_string_first_escape_(p, n)] with [n] the length of [p]. *)
Definition json_string_first_escape_ (p : bytes) : nat :=
  swar_loop escape_bad_word stop_escape (S (length p)) p 0 (length p).

(** [scan_str_until_special_swar(p, n)] *)
Definition scan_str_until_special_swar (p : bytes) : nat :=
  swar_loop special_bad_word stop_special (S (length p)) p 0 (length p).

End Swar.

Module Simd.
Import Machine Swar.

(** One vector of [width] lanes loaded at index [i]. *)
Definition load (width : nat) (p : bytes) (i : nat) : bytes := substr p i width.

(** [mix] of the string scanner: quote, backslash, or less than [0x20] as
    signed bytes, which flags every byte with the high bit too. *)
Definition str_lane (v : byte) : bool :=
  (v =b x22) || (v =b x5c) || (signed8 v <? 0x20).

(** [mix] of the dump scanner: with [ascii_only] the signed comparison,
    otherwise [min_epu8(v, 0x1F) == v], the unsigned [v <= 0x1F]. *)
Definition dump_lane (ascii_only : bool) (v : byte) : bool :=
  (v =b x22) || (v =b x5c) ||
  (if ascii_only then signed8 v <? 0x20 else Z.min (byteZ v) 0x1F =? byteZ v).

(** [while (i + width <= n) { ... return i + ctz(mask) ... i += width; }];
    [inl] is the early return, [inr] the index at which the loop ends. *)
Fixpoint simd_loop (lane : byte -> bool) (width : nat) (fuel : nat) (p : bytes) (i n : nat)
  : nat + nat :=
  match fuel with
  | O => inr i
  | S fuel' =>
      if (i + width <=? n)%nat then
        let mask := movemask (map lane (load width p i)) in
        if negb (mask =? 0) then inl (i + countr_zero mask)%nat
        else simd_loop lane width fuel' p (i + width) n
      else inr i
  end.

Definition stop_dump (ascii_only : bool) (c : byte) : bool :=
  ((c =b x22) || (c =b x5c) || (byteZ c <? 0x20)) || (ascii_only && (0x80 <=? byteZ c)).

(** The vector loops of the intrinsics build: 32 lanes when AVX2 is compiled
    in, then 16 lanes, then the scalar tail. *)
Definition scan_intrin (lane stop : byte -> bool) (avx2 : bool) (p : bytes) : nat :=
  let n := length p in
  let first := if avx2 then simd_loop lane 32 (S n) p 0 n else inr 0%nat in
  match first with
  | inl r => r
  | inr i =>
      match simd_loop lane 16 (S n) p i n with
      | inl r => r
      | inr i => scalar_tail stop (S (n - i)) p i n
      end
  end.

(** [conflux_json_scan_str_until_special_intrin] *)
Definition scan_str_until_special_intrin (avx2 : bool) (p : bytes) : nat :=
  scan_intrin str_lane stop_special avx2 p.

(** [conflux_json_scan_dump_safe_run_intrin] *)
Definition scan_dump_safe_run_intrin (avx2 ascii_only : bool) (p : bytes) : nat :=
  scan_intrin (dump_lane ascii_only) (stop_dump ascii_only) avx2 p.

(** [detail::simd::scan_str_until_special] of the SSE2 build: 16 lanes at a
    time, then the SWAR scanner on what is left. *)
Definition scan_str_until_special (p : bytes) : nat :=
  match simd_loop str_lane 16 (S (length p)) p 0 (length p) with
  | inl r => r
  | inr i => (i + scan_str_until_special_swar (drop i p))%nat
  end.

(** [scan_dump_safe_run] of the SSE2 build. *)
Definition scan_dump_safe_run (p : bytes) (ascii_only : bool) : nat :=
  match simd_loop (dump_lane ascii_only) 16 (S (length p)) p 0 (length p) with
  | inl r => r
  | inr i => scalar_tail (stop_dump ascii_only) (S (length p - i)) p i (length p)
  end.

End Simd.

(** ** Specification: the first byte that stops the scan *)

Fixpoint first_index (stop : byte -> bool) (p : bytes) : nat :=
  match p with
  | [] => O
  | c :: p' => if stop c then O else S (first_index stop p')
  end.

Section first_index.
Context (stop : byte -> bool).

Lemma first_index_le p : (first_index stop p <= length p)%nat.
Proof. induction p as [|c p IH]; simpl; [lia|]. destruct (stop c); lia. Qed.

Lemma first_index_clean a b :
  Forall (fun c => stop c = false) a ->
  first_index stop (a ++ b) = (length a + first_index stop b)%nat.
Proof. induction 1 as [|c a Hc _ IH]; simpl; [done|]. by rewrite Hc, IH. Qed.

Lemma first_index_hit a b :
  (first_index stop a < length a)%nat -> first_index stop (a ++ b) = first_index stop a.
Proof.
  induction a as [|c a IH]; simpl; [lia|]. destruct (stop c); [done|].
  intros. rewrite IH; [done|lia].
Qed.

Lemma first_index_here pre c post :
  Forall (fun c => stop c = false) pre -> stop c = true ->
  first_index stop (pre ++ c :: post) = length pre.
Proof. intros Hp Hc. rewrite first_index_clean by done. simpl. rewrite Hc. lia. Qed.

Lemma first_index_take p :
  Forall (fun c => stop c = false) (take (first_index stop p) p).
Proof.
  induction p as [|c p IH]; simpl; [constructor|].
  destruct (stop c) eqn:E; [constructor|]. simpl. by constructor.
Qed.

Lemma first_index_lookup p c :
  p !! first_index stop p = Some c -> stop c = true.
Proof.
  induction p as [|x p IH]; simpl; [done|].
  destruct (stop x) eqn:E; [by intros [= <-]|]. apply IH.
Qed.

Import Swar.

Lemma scalar_tail_spec fuel p i :
  (i <= length p)%nat -> (length p - i < fuel)%nat ->
  scalar_tail stop fuel p i (length p) = (i + first_index stop (drop i p))%nat.
Proof.
  revert i. induction fuel as [|fuel IH]; intros i Hi Hf; [lia|]. simpl.
  destruct (Nat.ltb_spec i (length p)).
  - destruct (lookup_lt_is_Some_2 p i) as [c Hc]; [done|].
    rewrite Hc, (drop_lookup_cons _ _ _ Hc). simpl.
    destruct (stop c); [lia|]. rewrite IH by lia. lia.
  - rewrite drop_ge by lia. simpl. lia.
Qed.

End first_index.

(** ** Lane arithmetic: a word is its low byte and the word above it *)

Module Lanes.
Import Machine.

Fixpoint rep (n : nat) (k : Z) : Z :=
  match n with O => 0 | S n' => k + 256 * rep n' k end.

(** The zero-or-below mask of [n] lanes. *)
Definition mask_sub (n : nat) (k w : Z) : Z :=
  Z.land (Z.land ((w - rep n k) mod 256 ^ Z.of_nat n) (Z.lxor w (256 ^ Z.of_nat n - 1)))
         (rep n 128).

Definition lane (k b : Z) : Z := Z.land (Z.land ((b - k) mod 256) (Z.lxor b 255)) 128.

Lemma testbit_split a x i :
  0 <= a < 256 -> 0 <= i ->
  Z.testbit (a + 256 * x) i = if i <? 8 then Z.testbit a i else Z.testbit x (i - 8).
Proof.
  intros Ha Hi. destruct (Z.ltb_spec i 8).
  - rewrite <- (Z.mod_pow2_bits_low (a + 256 * x) 8 i) by lia. f_equal.
    change (2 ^ 8) with 256. rewrite Z.mul_comm, Z_mod_plus_full. by apply Z.mod_small.
  - replace x with ((a + 256 * x) / 2 ^ 8) at 2.
    + rewrite Z.div_pow2_bits by lia. f_equal. lia.
    + change (2 ^ 8) with 256. rewrite Z.mul_comm, Z.div_add by lia.
      rewrite Z.div_small by lia. lia.
Qed.

Lemma high_bits_zero a i : 0 <= a < 256 -> 8 <= i -> Z.testbit a i = false.
Proof.
  intros Ha Hi. rewrite <- (Z.mod_small a (2 ^ 8)) by lia.
  by rewrite Z.mod_pow2_bits_high by lia.
Qed.

Section bitop.
Context (op : Z -> Z -> Z) (bop : bool -> bool -> bool).
Context (op_spec : forall a b i, Z.testbit (op a b) i = bop (Z.testbit a i) (Z.testbit b i)).
Context (bop_ff : bop false false = false).

Lemma op_byte a c : 0 <= a < 256 -> 0 <= c < 256 -> 0 <= op a c < 256.
Proof.
  intros Ha Hc. assert (op a c = op a c mod 2 ^ 8) as ->; [|apply Z.mod_pos_bound; lia].
  apply Z.bits_inj'. intros i Hi. destruct (Z.ltb_spec i 8).
  - by rewrite Z.mod_pow2_bits_low by lia.
  - rewrite Z.mod_pow2_bits_high by lia. by rewrite op_spec, !high_bits_zero.
Qed.

Lemma op_split a c x y :
  0 <= a < 256 -> 0 <= c < 256 -> op (a + 256 * x) (c + 256 * y) = op a c + 256 * op x y.
Proof.
  intros Ha Hc. apply Z.bits_inj'. intros i Hi.
  rewrite op_spec, !testbit_split by (done || by apply op_byte).
  destruct (i <? 8); by rewrite op_spec.
Qed.

End bitop.

Lemma land_split a c x y :
  0 <= a < 256 -> 0 <= c < 256 ->
  Z.land (a + 256 * x) (c + 256 * y) = Z.land a c + 256 * Z.land x y.
Proof. apply (op_split Z.land andb Z.land_spec eq_refl). Qed.

Lemma lor_split a c x y :
  0 <= a < 256 -> 0 <= c < 256 ->
  Z.lor (a + 256 * x) (c + 256 * y) = Z.lor a c + 256 * Z.lor x y.
Proof. apply (op_split Z.lor orb Z.lor_spec eq_refl). Qed.

Lemma lxor_split a c x y :
  0 <= a < 256 -> 0 <= c < 256 ->
  Z.lxor (a + 256 * x) (c + 256 * y) = Z.lxor a c + 256 * Z.lxor x y.
Proof. apply (op_split Z.lxor xorb Z.lxor_spec eq_refl). Qed.

Lemma lxor_byte a c : 0 <= a < 256 -> 0 <= c < 256 -> 0 <= Z.lxor a c < 256.
Proof. apply (op_byte Z.lxor xorb Z.lxor_spec eq_refl). Qed.

Lemma land_byte a c : 0 <= a < 256 -> 0 <= c < 256 -> 0 <= Z.land a c < 256.
Proof. apply (op_byte Z.land andb Z.land_spec eq_refl). Qed.

Lemma rep_nonneg n k : 0 <= k -> 0 <= rep n k.
Proof. intros. induction n; cbn [rep]; lia. Qed.

(** One lane: the flag of the low byte, and, when the low byte does not
    borrow, the mask of the lanes above it unchanged. *)
Lemma mask_sub_step n k b w :
  0 <= b < 256 -> 0 <= k < 256 ->
  exists w', 0 <= w' /\ mask_sub (S n) k (b + 256 * w) = lane k b + 256 * w' /\
    (k <= b -> w' = mask_sub n k w).
Proof.
  intros Hb Hk. set (bor := if b <? k then 1 else 0).
  set (d := (w - rep n k - bor) mod 256 ^ Z.of_nat n).
  assert (Hp : 0 < 256 ^ Z.of_nat n) by (apply Z.pow_pos_nonneg; lia).
  assert (Hsub : (b + 256 * w - rep (S n) k) mod 256 ^ Z.of_nat (S n)
                 = (b - k) mod 256 + 256 * d).
  { cbn [rep]. rewrite Nat2Z.inj_succ, Z.pow_succ_r by lia.
    replace (b + 256 * w - (k + 256 * rep n k))
      with ((b - k + 256 * bor) + 256 * (w - rep n k - bor)) by lia.
    assert (Hlow : (b - k) mod 256 = b - k + 256 * bor).
    { unfold bor. destruct (Z.ltb_spec b k).
      - symmetry. apply (Z.mod_unique _ _ (-1)); lia.
      - rewrite Z.mod_small; lia. }
    assert (Hr : 0 <= b - k + 256 * bor < 256)
      by (rewrite <- Hlow; apply Z.mod_pos_bound; lia).
    rewrite Z.rem_mul_r by lia. rewrite (Z.mul_comm 256 (w - _ - _)), Z_mod_plus_full.
    rewrite Z.div_add, Z.div_small, Z.mod_small by lia. rewrite Hlow. done. }
  exists (Z.land (Z.land d (Z.lxor w (256 ^ Z.of_nat n - 1))) (rep n 128)). split_and!.
  - apply Z.land_nonneg. right. by apply rep_nonneg.
  - unfold mask_sub, lane. rewrite Hsub. cbn [rep].
    replace (256 ^ Z.of_nat (S n) - 1) with (255 + 256 * (256 ^ Z.of_nat n - 1))
      by (rewrite Nat2Z.inj_succ, Z.pow_succ_r by lia; lia).
    assert (Hm : 0 <= (b - k) mod 256 < 256) by (apply Z.mod_pos_bound; lia).
    assert (Hx : 0 <= Z.lxor b 255 < 256) by (apply lxor_byte; lia).
    rewrite lxor_split by lia. rewrite land_split by lia.
    rewrite land_split by (lia || by apply land_byte). done.
  - intros Hle. unfold mask_sub, d, bor. destruct (Z.ltb_spec b k); [lia|].
    by rewrite Z.sub_0_r.
Qed.

(** The lane flag by evaluation: [k = 0x20] flags control bytes, [k = 1] after
    an exclusive or flags one byte value. *)
Lemma lane_space b : lane 32 (byteZ b) = if byteZ b <? 32 then 128 else 0.
Proof. apply Z.eqb_eq. byte_decide b. Qed.

Lemma lane_quote b : lane 1 (Z.lxor (byteZ b) 0x22) = if b =b x22 then 128 else 0.
Proof. apply Z.eqb_eq. byte_decide b. Qed.

Lemma lane_backslash b : lane 1 (Z.lxor (byteZ b) 0x5c) = if b =b x5c then 128 else 0.
Proof. apply Z.eqb_eq. byte_decide b. Qed.

Lemma lane_high b : Z.land (byteZ b) 128 = if 0x80 <=? byteZ b then 128 else 0.
Proof. apply Z.eqb_eq. byte_decide b. Qed.

Lemma lxor_zero_quote b : (1 <= Z.lxor (byteZ b) 0x22) \/ (b =b x22) = true.
Proof.
  destruct (Z.leb_spec 1 (Z.lxor (byteZ b) 0x22)); [by left|right].
  assert ((1 <=? Z.lxor (byteZ b) 0x22) || (b =b x22) = true) by byte_decide b.
  destruct (Z.leb_spec 1 (Z.lxor (byteZ b) 0x22)); [lia|done].
Qed.

Lemma lxor_zero_backslash b : (1 <= Z.lxor (byteZ b) 0x5c) \/ (b =b x5c) = true.
Proof.
  destruct (Z.leb_spec 1 (Z.lxor (byteZ b) 0x5c)); [by left|right].
  assert ((1 <=? Z.lxor (byteZ b) 0x5c) || (b =b x5c) = true) by byte_decide b.
  destruct (Z.leb_spec 1 (Z.lxor (byteZ b) 0x5c)); [lia|done].
Qed.

End Lanes.

(** ** Equivalence of the scanners with the specification *)

Module ScanSpec.
Import Machine Swar Simd Lanes.

(** A family of [n]-lane masks that flags exactly the bytes of [stop], up to
    and including the first one. *)
Class LaneMask (bad_n : nat -> Z -> Z) (stop : byte -> bool) : Prop := {
  lane_nil : bad_n 0%nat 0 = 0;
  lane_step n b w : exists w', 0 <= w' /\
    bad_n (S n) (byteZ b + 256 * w) = (if stop b then 128 else 0) + 256 * w' /\
    (stop b = false -> w' = bad_n n w)
}.

Definition escape_n (n : nat) (w : Z) : Z :=
  Z.lor (Z.lor (mask_sub n 1 (Z.lxor w (rep n 0x22))) (mask_sub n 1 (Z.lxor w (rep n 0x5c))))
        (mask_sub n 32 w).

Definition special_n (n : nat) (w : Z) : Z :=
  Z.lor (escape_n n w) (Z.land w (rep n 128)).

Lemma escape_bad_word_n w : escape_bad_word w = escape_n 8 w.
Proof. reflexivity. Qed.

Lemma special_bad_word_n w : special_bad_word w = special_n 8 w.
Proof. reflexivity. Qed.

Lemma flag_lor (x y : bool) :
  Z.lor (if x then 128 else 0) (if y then 128 else 0) = if x || y then 128 else 0.
Proof. by destruct x, y. Qed.

Lemma flag_byte (x : bool) : 0 <= (if x then 128 else 0) < 256.
Proof. destruct x; lia. Qed.

#[export] Instance escape_lanes : LaneMask escape_n stop_escape.
Proof.
  split; [reflexivity|]. intros n b w. pose proof (byteZ_range b) as Hb.
  unfold escape_n. cbn [rep]. rewrite !lxor_split by lia.
  destruct (mask_sub_step n 1 (Z.lxor (byteZ b) 0x22) (Z.lxor w (rep n 0x22)))
    as (q & Hq0 & -> & Hq); [by apply lxor_byte|lia|].
  destruct (mask_sub_step n 1 (Z.lxor (byteZ b) 0x5c) (Z.lxor w (rep n 0x5c)))
    as (s & Hs0 & -> & Hs); [by apply lxor_byte|lia|].
  destruct (mask_sub_step n 32 (byteZ b) w) as (c & Hc0 & -> & Hc); [lia|lia|].
  rewrite lane_quote, lane_backslash, lane_space, lor_split by apply flag_byte.
  rewrite !flag_lor, lor_split by apply flag_byte. rewrite flag_lor.
  eexists. split_and!; [|unfold stop_escape; f_equal|].
  - rewrite !Z.lor_nonneg. auto.
  - by destruct (b =b x22), (b =b x5c), (byteZ b <? 32).
  - unfold stop_escape. intros H. bool_simp.
    destruct (lxor_zero_quote b), (lxor_zero_backslash b); bool_simp; try done.
    by rewrite Hq, Hs, Hc.
Qed.

#[export] Instance special_lanes : LaneMask special_n stop_special.
Proof.
  split; [reflexivity|]. intros n b w. pose proof (byteZ_range b) as Hb.
  unfold special_n. cbn [rep].
  destruct (lane_step (bad_n := escape_n) n b w) as (e & He0 & -> & He).
  rewrite land_split, lane_high, lor_split by (lia || apply flag_byte). rewrite flag_lor.
  exists (Z.lor e (Z.land w (rep n 128))). split_and!.
  - rewrite Z.lor_nonneg, Z.land_nonneg. split; [done|right]. by apply rep_nonneg.
  - unfold stop_escape, stop_special. f_equal.
    by destruct (b =b x22), (b =b x5c), (byteZ b <? 32).
  - unfold stop_special. intros H. bool_simp. rewrite He; [done|].
    unfold stop_escape. by rewrite !orb_false_iff, !byte_eqb_ne, Z.ltb_ge.
Qed.

Section swar.
Context (bad_n : nat -> Z -> Z) (stop : byte -> bool) `{!LaneMask bad_n stop}.

(** The mask of a word is zero exactly when no byte stops the scan, and
    otherwise its lowest set bit is in the first byte that does. *)
Lemma lane_mask_word bs :
  let m := bad_n (length bs) (le_word bs) in
  0 <= m /\ (m = 0 -> Forall (fun c => stop c = false) bs) /\
  (m <> 0 -> (first_index stop bs < length bs)%nat /\
             Nat.div (countr_zero m) 8 = first_index stop bs).
Proof.
  induction bs as [|b bs (IH0 & IHz & IHn)]; cbn [length le_word first_index].
  - rewrite lane_nil. repeat split; [done|constructor|done|done].
  - destruct (lane_step (bad_n := bad_n) (stop := stop) (length bs) b (le_word bs))
      as (w' & Hw' & -> & Hw).
    destruct (stop b) eqn:Eb.
    + split_and!; [lia|lia|]. intros _. split; [lia|].
      rewrite countr_zero_low_msb; [done|lia|].
      rewrite Z.mul_comm, Z_mod_plus_full. done.
    + rewrite Hw, Z.add_0_l by done. split_and!; [lia| |].
      * intros. constructor; [done|]. apply IHz. lia.
      * intros. destruct IHn as [Hl Hc]; [lia|]. split; [lia|].
        change 256 with (2 ^ Z.of_nat 8). rewrite countr_zero_mul_pow2 by lia.
        change (8 + countr_zero (bad_n (length bs) (le_word bs)))%nat
          with (1 * 8 + countr_zero (bad_n (length bs) (le_word bs)))%nat.
        rewrite Nat.div_add_l by lia. lia.
Qed.

Lemma swar_loop_spec bad fuel p i :
  (forall w, bad w = bad_n 8 w) ->
  (i <= length p)%nat -> (length p - i < fuel)%nat ->
  swar_loop bad stop fuel p i (length p) = (i + first_index stop (drop i p))%nat.
Proof.
  intros Hbad. revert i. induction fuel as [|fuel IH]; intros i Hi Hf; [lia|].
  cbn [swar_loop]. destruct (Nat.leb_spec (i + 8) (length p)) as [Hle|Hgt].
  - assert (Hlen : length (substr p i 8) = 8%nat) by (rewrite substr_length; lia).
    pose proof (drop_substr p i 8) as Hd.
    destruct (lane_mask_word (substr p i 8)) as (_ & Hz & Hn).
    rewrite Hlen, <- Hbad in Hz, Hn. rewrite Hd.
    destruct (Z.eqb_spec (bad (le_word (substr p i 8))) 0) as [E|E]; cbn [negb].
    + rewrite IH by lia. rewrite first_index_clean by auto. lia.
    + destruct (Hn E) as [Hl ->]. by rewrite first_index_hit by lia.
  - apply scalar_tail_spec; lia.
Qed.

End swar.

Section simd.
Context (lane stop : byte -> bool) (Hlane : forall c, lane c = stop c).

Lemma simd_loop_spec width fuel p i :
  (0 < width)%nat -> (i <= length p)%nat -> (length p - i < fuel)%nat ->
  match simd_loop lane width fuel p i (length p) with
  | inl r => r = (i + first_index stop (drop i p))%nat
  | inr j => (j <= length p)%nat /\
             (i + first_index stop (drop i p) = j + first_index stop (drop j p))%nat
  end.
Proof.
  intros Hw. revert i. induction fuel as [|fuel IH]; intros i Hi Hf; [lia|].
  cbn [simd_loop]. destruct (Nat.leb_spec (i + width) (length p)) as [Hle|Hgt]; [|done].
  assert (Hlen : length (load width p i) = width) by (unfold load; rewrite substr_length; lia).
  assert (Hd : drop i p = load width p i ++ drop (i + width) p) by apply drop_substr.
  destruct (movemask_first (map lane (load width p i))) as (_ & Hz & Hn).
  destruct (Z.eqb_spec (movemask (map lane (load width p i))) 0) as [E|E]; cbn [negb].
  - apply Hz in E. rewrite Forall_map in E.
    assert (Hc : Forall (fun c => stop c = false) (load width p i)).
    { eapply Forall_impl; [exact E|]. intros c. simpl. by rewrite Hlane. }
    specialize (IH (i + width)%nat ltac:(lia) ltac:(lia)).
    rewrite Hd, first_index_clean, Hlen by done.
    destruct (simd_loop _ _ _ _ _ _); [lia|]. destruct IH. lia.
  - destruct (Hn E) as (pre & post & Hl & Hp & ->).
    apply map_eq_app in Hl as (a & b & Hab & <- & Hb).
    destruct b as [|c b]; [done|]. simpl in Hb. injection Hb as Hc _.
    rewrite Hd, Hab, <- app_assoc. rewrite length_map. simpl. rewrite first_index_here; [done| |].
    + rewrite Forall_map in Hp. eapply Forall_impl; [exact Hp|]. intros x. simpl. by rewrite Hlane.
    + by rewrite <- Hlane.
Qed.

Lemma scan_intrin_spec avx2 p : scan_intrin lane stop avx2 p = first_index stop p.
Proof.
  unfold scan_intrin.
  assert (H16 : forall i, (i <= length p)%nat ->
    match simd_loop lane 16 (S (length p)) p i (length p) with
    | inl r => r
    | inr i => scalar_tail stop (S (length p - i)) p i (length p)
    end = (i + first_index stop (drop i p))%nat).
  { intros i Hi. pose proof (simd_loop_spec 16 (S (length p)) p i ltac:(lia) Hi ltac:(lia)).
    destruct (simd_loop _ _ _ _ _ _); [done|].
    destruct H as [Hj ->]. apply scalar_tail_spec; lia. }
  destruct avx2; [|by rewrite H16 by lia].
  pose proof (simd_loop_spec 32 (S (length p)) p 0 ltac:(lia) ltac:(lia) ltac:(lia)) as H.
  destruct (simd_loop lane 32 _ _ _ _) as [r|j]; [done|].
  destruct H as [Hj Heq]. rewrite H16 by done. by rewrite <- Heq.
Qed.

End simd.

(** The signed comparison of the vector code flags every non-ASCII byte. *)
Lemma str_lane_stop c : str_lane c = stop_special c.
Proof. apply eqb_prop. byte_decide c. Qed.

Lemma dump_lane_stop ascii_only c : dump_lane ascii_only c = stop_dump ascii_only c.
Proof. apply eqb_prop. destruct ascii_only; byte_decide c. Qed.

Lemma json_string_first_escape_spec p :
  json_string_first_escape_ p = first_index stop_escape p.
Proof. apply (swar_loop_spec escape_n stop_escape _ _ p 0 escape_bad_word_n); lia. Qed.

Lemma scan_str_until_special_swar_spec p :
  scan_str_until_special_swar p = first_index stop_special p.
Proof. apply (swar_loop_spec special_n stop_special _ _ p 0 special_bad_word_n); lia. Qed.

Lemma scan_str_until_special_spec p : scan_str_until_special p = first_index stop_special p.
Proof.
  unfold scan_str_until_special.
  pose proof (simd_loop_spec _ _ str_lane_stop 16 (S (length p)) p 0
                ltac:(lia) ltac:(lia) ltac:(lia)) as H.
  destruct (simd_loop _ _ _ _ _ _) as [r|j]; [done|].
  destruct H as [Hj Heq]. by rewrite scan_str_until_special_swar_spec, <- Heq.
Qed.

Lemma scan_dump_safe_run_spec p ascii_only :
  scan_dump_safe_run p ascii_only = first_index (stop_dump ascii_only) p.
Proof.
  pose proof (scan_intrin_spec _ _ (dump_lane_stop ascii_only) false p) as H.
  unfold scan_intrin in H. exact H.
Qed.

(** every byte scanner returns the index of the first byte that needs
    attention, or the length: the two 64-bit SWAR loops, the portable SIMD
    scanner, the dump scanner, and the SSE2 and AVX2 builds all agree with the
    byte-by-byte definition on every input. *)
Theorem scanners_exact p ascii_only avx2 :
  json_string_first_escape_ p = first_index stop_escape p /\
  scan_str_until_special_swar p = first_index stop_special p /\
  scan_str_until_special p = first_index stop_special p /\
  scan_dump_safe_run p ascii_only = first_index (stop_dump ascii_only) p /\
  scan_str_until_special_intrin avx2 p = first_index stop_special p /\
  scan_dump_safe_run_intrin avx2 ascii_only p = first_index (stop_dump ascii_only) p.
Proof.
  split_and!.
  - apply json_string_first_escape_spec.
  - apply scan_str_until_special_swar_spec.
  - apply scan_str_until_special_spec.
  - apply scan_dump_safe_run_spec.
  - apply scan_intrin_spec, str_lane_stop.
  - apply scan_intrin_spec, dump_lane_stop.
Qed.

End ScanSpec.
