(* ===== verification/Codec.v ===== *)
(** * Text codecs of [src/src/utils.cxx]

    Hexadecimal ([hex_encode], [hex_decode]), URL percent- and form-encoding
    ([append_url_encoded_impl_], [url_decode_impl_]), the JSON string escaper
    used outside the JSON module ([append_json_string_content_fallback]), ASCII
    case mapping, [trim], [split_once] and the line iterator [LineRange]. The
    theorems are the round trips, the exactness of the precomputed output
    sizes, and the equivalence of the run-based loops with a per-byte map. *)

From Stdlib Require Import ZArith Lia Strings.Byte String.
From stdpp Require Import base tactics option numbers list.
From S2P Require Import Prelude ByteScan.

(** ** Hexadecimal *)

Module Hex.

(** [kHex[v]] for a nibble [v]: ["0123456789abcdef"] and its upper-case twin. *)
Definition kHex : bytes := B "0123456789abcdef".
Definition kUrlHex_ : bytes := B "0123456789ABCDEF".

(** [table[v]] with [v < 16] at every use. *)
Definition hex_digit (table : bytes) (v : Z) : byte := default x00 (table !! Z.to_nat v).

Definition hi_nibble (c : byte) : Z := Z.shiftr (byteZ c) 4.
Definition lo_nibble (c : byte) : Z := Z.land (byteZ c) 0x0F.

Definition hex_encode (inp : bytes) : bytes :=
  flat_map (fun c => [hex_digit kHex (hi_nibble c); hex_digit kHex (lo_nibble c)]) inp.

Definition hex_char_to_int (c : byte) : Z :=
  if in_range 48 57 c then byteZ c - 48
  else if in_range 97 102 c then byteZ c - 97 + 10
  else if in_range 65 70 c then byteZ c - 65 + 10
  else -1.

(** [static_cast<unsigned char>((hi << 4) | lo)] *)
Definition nibbles (hi lo : Z) : byte := byte_of_Z (Z.lor (Z.shiftl hi 4) lo).

(** The loop over pairs; [out] is what has been pushed so far. *)
Fixpoint hex_decode_loop (inp out : bytes) : expected bytes string :=
  match inp with
  | c1 :: c2 :: rest =>
      let hi := hex_char_to_int c1 in
      let lo := hex_char_to_int c2 in
      if (hi <? 0) || (lo <? 0) then Unexpected "hex_decode: invalid hex digit"%string
      else hex_decode_loop rest (out ++ [nibbles hi lo])
  | _ => Ok out
  end.

Definition hex_decode (inp : bytes) : expected bytes string :=
  if negb (Nat.even (length inp)) then Unexpected "hex_decode: odd-length input"%string
  else hex_decode_loop inp [].

(** A hex digit of either case reads back as its nibble. *)
Lemma hex_char_hi c : hex_char_to_int (hex_digit kHex (hi_nibble c)) = hi_nibble c.
Proof. apply Z.eqb_eq. byte_decide c. Qed.

Lemma hex_char_lo c : hex_char_to_int (hex_digit kHex (lo_nibble c)) = lo_nibble c.
Proof. apply Z.eqb_eq. byte_decide c. Qed.

Lemma url_hex_char_hi c : hex_char_to_int (hex_digit kUrlHex_ (hi_nibble c)) = hi_nibble c.
Proof. apply Z.eqb_eq. byte_decide c. Qed.

Lemma url_hex_char_lo c : hex_char_to_int (hex_digit kUrlHex_ (lo_nibble c)) = lo_nibble c.
Proof. apply Z.eqb_eq. byte_decide c. Qed.

Lemma nibbles_split c : nibbles (hi_nibble c) (lo_nibble c) = c.
Proof. apply byte_eqb_eq. byte_decide c. Qed.

Lemma nibble_nonneg c : 0 <= hi_nibble c /\ 0 <= lo_nibble c.
Proof.
  split; [apply Z.shiftr_nonneg|apply Z.land_nonneg]; pose proof (byteZ_range c); lia.
Qed.

Lemma hex_decode_encode_loop inp out :
  hex_decode_loop (hex_encode inp) out = Ok (out ++ inp).
Proof.
  revert out. induction inp as [|c inp IH]; intros out; simpl; [by rewrite app_nil_r|].
  rewrite hex_char_hi, hex_char_lo. pose proof (nibble_nonneg c) as [H1 H2].
  destruct (Z.ltb_spec (hi_nibble c) 0), (Z.ltb_spec (lo_nibble c) 0); try lia. simpl.
  rewrite nibbles_split. rewrite IH, <- app_assoc. done.
Qed.

Lemma hex_encode_length inp : length (hex_encode inp) = (2 * length inp)%nat.
Proof. induction inp; simpl; [done|]. unfold hex_encode in *. lia. Qed.

Lemma hex_roundtrip inp : hex_decode (hex_encode inp) = Ok inp.
Proof.
  unfold hex_decode. rewrite hex_encode_length, Nat.even_mul. simpl.
  apply hex_decode_encode_loop.
Qed.

End Hex.

(** ** URL percent- and form-encoding *)

Module Url.
Import Hex.

Definition is_url_unreserved (c : byte) : bool :=
  in_range 65 90 c || in_range 97 122 c || in_range 48 57 c
  || (c =b x2d) || (c =b x5f) || (c =b x2e) || (c =b x7e).

Definition url_needs_component_decode (s : bytes) : bool :=
  existsb (fun c => (c =b x25) || (c =b x2b)) s.

Definition url_needs_path_decode (s : bytes) : bool := existsb (fun c => c =b x25) s.

(** What one byte contributes to the output. *)
Definition url_encode_byte (space_as_plus : bool) (c : byte) : bytes :=
  if is_url_unreserved c then [c]
  else if space_as_plus && (c =b x20) then [x2b]
  else [x25; hex_digit kUrlHex_ (hi_nibble c); hex_digit kUrlHex_ (lo_nibble c)].

Definition append_url_encoded_impl_ (out s : bytes) (space_as_plus : bool) : bytes :=
  fold_left (fun out c => out ++ url_encode_byte space_as_plus c) s out.

Definition url_percent_encoded_size (s : bytes) : nat :=
  fold_left (fun n c => (n + if is_url_unreserved c then 1 else 3)%nat) s 0%nat.

Definition url_form_encoded_size (s : bytes) : nat :=
  fold_left (fun n c => (n + if is_url_unreserved c || (c =b x20) then 1 else 3)%nat) s 0%nat.

Definition append_url_percent_encoded (out s : bytes) : bytes := append_url_encoded_impl_ out s false.
Definition url_percent_encode (s : bytes) : bytes := append_url_percent_encoded [] s.
Definition append_url_form_encoded (out s : bytes) : bytes := append_url_encoded_impl_ out s true.
Definition url_form_encode (s : bytes) : bytes := append_url_form_encoded [] s.

Definition url_special (plus_is_special : bool) (c : byte) : bool :=
  (c =b x25) || (plus_is_special && (c =b x2b)).

(** [scan_url_plain_run_], the portable build: length of the run before the
    first special byte. *)
Fixpoint scan_url_plain_run_ (p : bytes) (plus_is_special : bool) : nat :=
  match p with
  | [] => O
  | c :: p' => if url_special plus_is_special c then O
               else S (scan_url_plain_run_ p' plus_is_special)
  end.

(** The [while] loop of [url_decode_impl_]; every iteration advances [i], so
    [length s - i] iterations are enough. *)
Fixpoint url_decode_loop (fuel : nat) (s : bytes) (plus_is_space : bool) (i : nat) (out : bytes)
  : bytes :=
  match fuel with
  | O => out
  | S fuel' =>
      if (i <? length s)%nat then
        let run := scan_url_plain_run_ (drop i s) plus_is_space in
        let out := out ++ substr s i run in
        let i := (i + run)%nat in
        match s !! i with
        | None => out
        | Some c =>
            if plus_is_space && (c =b x2b) then
              url_decode_loop fuel' s plus_is_space (S i) (out ++ [x20])
            else
              match (if (c =b x25) && (i + 2 <? length s)%nat then
                       match s !! (i + 1)%nat, s !! (i + 2)%nat with
                       | Some h, Some l =>
                           let hi := hex_char_to_int h in
                           let lo := hex_char_to_int l in
                           if (0 <=? hi) && (0 <=? lo) then Some (nibbles hi lo) else None
                       | _, _ => None
                       end
                     else None) with
              | Some b => url_decode_loop fuel' s plus_is_space (i + 3) (out ++ [b])
              | None => url_decode_loop fuel' s plus_is_space (S i) (out ++ [c])
              end
        end
      else out
  end.

Definition url_decode_impl_ (s : bytes) (plus_is_space : bool) : bytes :=
  url_decode_loop (S (length s)) s plus_is_space 0 [].

Definition url_decode (s : bytes) : bytes := url_decode_impl_ s true.
Definition url_decode_path (s : bytes) : bytes := url_decode_impl_ s false.

(** *** The decoder as a function of the remaining input *)

Definition decode_pct (rest : bytes) : option byte :=
  match rest with
  | h :: l :: _ =>
      if (0 <=? hex_char_to_int h) && (0 <=? hex_char_to_int l)
      then Some (nibbles (hex_char_to_int h) (hex_char_to_int l)) else None
  | _ => None
  end.

Fixpoint url_decode_spec (fuel : nat) (plus_is_space : bool) (s : bytes) : bytes :=
  match fuel, s with
  | S fuel', c :: rest =>
      if plus_is_space && (c =b x2b) then x20 :: url_decode_spec fuel' plus_is_space rest
      else if c =b x25 then
        match decode_pct rest with
        | Some b => b :: url_decode_spec fuel' plus_is_space (drop 2 rest)
        | None => c :: url_decode_spec fuel' plus_is_space rest
        end
      else c :: url_decode_spec fuel' plus_is_space rest
  | _, _ => []
  end.

Lemma url_decode_spec_fuel f1 f2 p s :
  (length s <= f1)%nat -> (length s <= f2)%nat ->
  url_decode_spec f1 p s = url_decode_spec f2 p s.
Proof.
  revert f2 s. induction f1 as [|f1 IH]; intros f2 s H1 H2.
  - destruct s; [by destruct f2|simpl in *; lia].
  - destruct f2, s as [|c s]; simpl in *; try done; try lia.
    assert (forall n, url_decode_spec f1 p (drop n s) = url_decode_spec f2 p (drop n s)) as H.
    { intros n. apply IH; rewrite length_drop; lia. }
    pose proof (H 0%nat) as H0. rewrite drop_0 in H0. rewrite H0, H. done.
Qed.

(** The plain run is copied as it is. *)
Lemma url_decode_spec_run f p s :
  (length s <= f)%nat ->
  url_decode_spec f p s
  = take (scan_url_plain_run_ s p) s
    ++ url_decode_spec f p (drop (scan_url_plain_run_ s p) s).
Proof.
  revert s. induction f as [|f IH]; intros s Hs.
  { destruct s; [done|simpl in *; lia]. }
  destruct s as [|c s]; [done|]. cbn [scan_url_plain_run_ url_special].
  destruct (url_special p c) eqn:E; [by rewrite drop_0|].
  unfold url_special in E. bool_simp. cbn [take drop].
  simpl in Hs. cbn [url_decode_spec].
  replace (p && (c =b x2b)) with false. destruct (byte_eqb_spec c x25); [done|].
  rewrite IH by lia. cbn [app]. do 2 f_equal.
  apply (url_decode_spec_fuel f (S f)); rewrite length_drop; lia.
Qed.

Lemma decode_pct_index (s : bytes) (i : nat) :
  (if (i + 2 <? length s)%nat then
     match s !! (i + 1)%nat, s !! (i + 2)%nat with
     | Some h, Some l =>
         if (0 <=? hex_char_to_int h) && (0 <=? hex_char_to_int l)
         then Some (nibbles (hex_char_to_int h) (hex_char_to_int l)) else None
     | _, _ => None
     end
   else None) = decode_pct (drop (S i) s).
Proof.
  unfold decode_pct. replace (i + 1)%nat with (S i) by lia. replace (i + 2)%nat with (S (S i)) by lia.
  destruct (Nat.ltb_spec (S (S i)) (length s)) as [Hl|Hl].
  - destruct (lookup_lt_is_Some_2 s (S i)) as [h Hh]; [lia|].
    destruct (lookup_lt_is_Some_2 s (S (S i))) as [l Hl']; [lia|].
    rewrite Hh, Hl', (drop_S _ _ _ Hh), (drop_S _ _ _ Hl'). done.
  - assert (length (drop (S i) s) <= 1)%nat as Hd by (rewrite length_drop; lia).
    destruct (drop (S i) s) as [|? [|? ?]]; simpl in Hd; try done; lia.
Qed.

(** The loop computes the specification of what is left of the input. *)
Lemma url_decode_loop_spec fuel s p i out :
  (length s - i < fuel)%nat ->
  url_decode_loop fuel s p i out = out ++ url_decode_spec (length s - i) p (drop i s).
Proof.
  revert i out. induction fuel as [|fuel IH]; intros i out Hf; [lia|]. cbn [url_decode_loop].
  destruct (Nat.ltb_spec i (length s)) as [Hi|Hi].
  2:{ rewrite drop_ge by lia. destruct (length s - i)%nat; by rewrite app_nil_r. }
  rewrite url_decode_spec_run by (rewrite length_drop; lia).
  set (run := scan_url_plain_run_ (drop i s) p). rewrite drop_drop, app_assoc.
  change (take run (drop i s)) with (substr s i run).
  destruct (s !! (i + run)%nat) as [c|] eqn:Ec.
  2:{ apply lookup_ge_None in Ec. rewrite drop_ge by lia.
      destruct (length s - i)%nat; by rewrite app_nil_r. }
  pose proof (lookup_lt_Some _ _ _ Ec) as Hlt.
  rewrite (drop_S _ _ _ Ec).
  rewrite (url_decode_spec_fuel _ (S (length s - S (i + run)))) by (simpl; rewrite length_drop; lia).
  cbn [url_decode_spec].
  destruct (p && (c =b x2b)). { rewrite IH, <- app_assoc by lia. done. }
  destruct (c =b x25) eqn:E25; cbn [andb].
  - rewrite decode_pct_index. destruct (decode_pct (drop (S (i + run)) s)) as [b|] eqn:Ed.
    + rewrite IH, <- app_assoc by lia. cbn. do 2 f_equal. rewrite drop_drop.
      replace (S (i + run) + 2)%nat with (i + run + 3)%nat by lia.
      apply url_decode_spec_fuel; rewrite length_drop; lia.
    + rewrite IH, <- app_assoc by lia. done.
  - rewrite IH, <- app_assoc by lia. done.
Qed.

Lemma url_decode_impl_spec s p : url_decode_impl_ s p = url_decode_spec (length s) p s.
Proof. unfold url_decode_impl_. rewrite url_decode_loop_spec by lia. by rewrite Nat.sub_0_r, drop_0. Qed.

Lemma append_url_encoded_flat out s p :
  append_url_encoded_impl_ out s p = out ++ flat_map (url_encode_byte p) s.
Proof.
  unfold append_url_encoded_impl_. revert out. induction s as [|c s IH]; intros out; simpl.
  - by rewrite app_nil_r.
  - by rewrite IH, app_assoc.
Qed.

Lemma unreserved_not_special c p : is_url_unreserved c = true -> url_special p c = false.
Proof.
  intros H. assert (implb (is_url_unreserved c) (negb (url_special p c)) = true) as Hi.
  { destruct p; byte_decide c. }
  rewrite H in Hi. by apply negb_true_iff.
Qed.

(** One encoded byte decodes to itself. *)
Lemma url_decode_spec_byte enc dec c t f :
  (enc = true -> dec = true) -> (length t <= f)%nat ->
  url_decode_spec (S f) dec (url_encode_byte enc c ++ t) = c :: url_decode_spec f dec t.
Proof.
  intros Hpd Hf. unfold url_encode_byte.
  destruct (is_url_unreserved c) eqn:Eu; [|destruct (enc && (c =b x20)) eqn:Esp].
  - pose proof (unreserved_not_special c dec Eu) as Hs. unfold url_special in Hs. bool_simp.
    cbn. replace (dec && (c =b x2b)) with false. by destruct (byte_eqb_spec c x25).
  - bool_simp. subst. by rewrite Hpd.
  - cbn [url_decode_spec app].
    replace (dec && (x25 =b x2b)) with false by (by destruct dec). cbn -[kUrlHex_].
    rewrite url_hex_char_hi, url_hex_char_lo.
    pose proof (nibble_nonneg c) as [H1 H2]. apply Z.leb_le in H1, H2. rewrite H1, H2.
    cbn -[url_decode_spec]. by rewrite nibbles_split, drop_0.
Qed.

Lemma url_decode_spec_encode enc dec s f :
  (enc = true -> dec = true) ->
  (length (flat_map (url_encode_byte enc) s) <= f)%nat ->
  url_decode_spec f dec (flat_map (url_encode_byte enc) s) = s.
Proof.
  intros Hpd. revert f. induction s as [|c s IH]; intros f Hf; [by destruct f|].
  cbn [flat_map] in *. rewrite length_app in Hf.
  rewrite (url_decode_spec_fuel f (S f)) by (rewrite length_app; lia).
  rewrite url_decode_spec_byte, IH by (done || lia). done.
Qed.

Lemma url_roundtrip enc dec s :
  (enc = true -> dec = true) ->
  url_decode_impl_ (append_url_encoded_impl_ [] s enc) dec = s.
Proof.
  intros. rewrite url_decode_impl_spec, append_url_encoded_flat.
  by apply url_decode_spec_encode.
Qed.

Lemma fold_size (w : byte -> nat) s n :
  fold_left (fun n c => (n + w c)%nat) s n = (n + length (flat_map (fun c => repeat x00 (w c)) s))%nat.
Proof.
  revert n. induction s as [|c s IH]; intros n; cbn; [lia|].
  rewrite IH, length_app, repeat_length. lia.
Qed.

Lemma flat_map_length_ext {A} (f g : byte -> list A) s :
  (forall c, length (f c) = length (g c)) -> length (flat_map f s) = length (flat_map g s).
Proof. intros H. induction s; simpl; [done|]. rewrite !length_app, H. lia. Qed.

(** The reserved sizes are the sizes of the output. *)
Lemma url_sizes_exact s :
  length (url_percent_encode s) = url_percent_encoded_size s /\
  length (url_form_encode s) = url_form_encoded_size s.
Proof.
  unfold url_percent_encode, append_url_percent_encoded, url_form_encode, append_url_form_encoded,
    url_percent_encoded_size, url_form_encoded_size.
  rewrite !append_url_encoded_flat, !fold_size. simpl.
  split; apply flat_map_length_ext; intros c; unfold url_encode_byte; rewrite repeat_length.
  - by destruct (is_url_unreserved c).
  - by destruct (is_url_unreserved c), (c =b x20).
Qed.

(** What the [needs_decode] tests promise: when they answer no, decoding would
    change nothing. *)
Lemma url_decode_spec_id p s f :
  (length s <= f)%nat -> Forall (fun c => url_special p c = false) s -> url_decode_spec f p s = s.
Proof.
  intros Hf H. revert f Hf. induction H as [|c s Hc _ IH]; intros f Hf; [by destruct f|].
  destruct f; simpl in Hf; [lia|]. unfold url_special in Hc. bool_simp. cbn.
  replace (p && (c =b x2b)) with false. destruct (byte_eqb_spec c x25); [done|].
  rewrite IH by lia. done.
Qed.

End Url.

(** ** JSON string escaping outside the JSON module *)

Module JsonEscape.
Import Hex Swar.

Definition kJsonHex_ : bytes := B "0123456789abcdef".

Definition append_json_u_escape_ (out : bytes) (c : byte) : bytes :=
  out ++ [x5c; x75; x30; x30] ++ [hex_digit kJsonHex_ (hi_nibble c)]
      ++ [hex_digit kJsonHex_ (lo_nibble c)].

Definition json_string_content_escaped_size_ (value : bytes) : nat :=
  fold_left (fun out raw =>
    (out + if (raw =b x22) || (raw =b x5c) || (raw =b x08) || (raw =b x0c) || (raw =b x0a)
              || (raw =b x0d) || (raw =b x09) then 2
           else if (byteZ raw <? 0x20)%Z then 6 else 1)%nat) value 0%nat.

(** The [switch] of the escape-dense path. *)
Definition append_escaped (out : bytes) (c : byte) : bytes :=
  match c with
  | x22 => out ++ [x5c; x22]
  | x5c => out ++ [x5c; x5c]
  | x08 => out ++ [x5c; x62]
  | x0c => out ++ [x5c; x66]
  | x0a => out ++ [x5c; x6e]
  | x0d => out ++ [x5c; x72]
  | x09 => out ++ [x5c; x74]
  | _ => append_json_u_escape_ out c
  end.

(** The [while] loop; an iteration consumes one escaped byte or a run that is
    not empty. *)
Fixpoint json_escape_loop (fuel : nat) (value : bytes) (i : nat) (out : bytes) : bytes :=
  match fuel with
  | O => out
  | S fuel' =>
      match value !! i with
      | None => out
      | Some c =>
          if (byteZ c <? 0x20) || (c =b x22) || (c =b x5c) then
            json_escape_loop fuel' value (S i) (append_escaped out c)
          else
            let run := json_string_first_escape_ (drop i value) in
            json_escape_loop fuel' value (i + run) (out ++ substr value i run)
      end
  end.

Definition append_json_string_content_fallback (out value : bytes) : bytes :=
  json_escape_loop (S (length value)) value 0 out.

Definition json_string_content_fallback (value : bytes) : bytes :=
  append_json_string_content_fallback [] value.

Definition append_json_string_fallback (out value : bytes) : bytes :=
  append_json_string_content_fallback (out ++ [x22]) value ++ [x22].

Definition json_string_fallback (value : bytes) : bytes := append_json_string_fallback [] value.

(** Per-byte specification. *)
Definition escape_byte (c : byte) : bytes := if stop_escape c then append_escaped [] c else [c].

Lemma append_escaped_app out c : append_escaped out c = out ++ append_escaped [] c.
Proof. destruct c; reflexivity. Qed.

Lemma escape_clean p :
  Forall (fun c => stop_escape c = false) p -> flat_map escape_byte p = p.
Proof.
  induction 1 as [|c p Hc _ IH]; simpl; [done|]. unfold escape_byte at 1.
  by rewrite Hc, IH.
Qed.

Lemma json_escape_loop_spec fuel value i out :
  (length value - i < fuel)%nat ->
  json_escape_loop fuel value i out = out ++ flat_map escape_byte (drop i value).
Proof.
  revert i out. induction fuel as [|fuel IH]; intros i out Hf; [lia|]. cbn [json_escape_loop].
  destruct (value !! i) as [c|] eqn:Ec.
  2:{ apply lookup_ge_None in Ec. rewrite drop_ge by lia. by rewrite app_nil_r. }
  pose proof (lookup_lt_Some _ _ _ Ec) as Hlt.
  change ((byteZ c <? 32) || (c =b x22) || (c =b x5c)) with (stop_escape c).
  destruct (stop_escape c) eqn:Es.
  - rewrite IH by lia. rewrite (drop_S _ _ _ Ec). cbn [flat_map].
    unfold escape_byte at 2. rewrite Es, append_escaped_app, app_assoc. done.
  - rewrite ScanSpec.json_string_first_escape_spec. set (run := first_index stop_escape (drop i value)).
    assert (Hrun : (1 <= run)%nat).
    { unfold run. rewrite (drop_S _ _ _ Ec). simpl. rewrite Es. lia. }
    rewrite IH by lia. rewrite (drop_substr value i run), flat_map_app, app_assoc.
    rewrite (escape_clean (substr value i run)); [done|].
    apply first_index_take.
Qed.

Lemma content_fallback_spec out value :
  append_json_string_content_fallback out value = out ++ flat_map escape_byte value.
Proof.
  unfold append_json_string_content_fallback. rewrite json_escape_loop_spec by lia.
  by rewrite drop_0.
Qed.

Lemma escape_byte_size c :
  length (escape_byte c) =
  (if (c =b x22) || (c =b x5c) || (c =b x08) || (c =b x0c) || (c =b x0a)
      || (c =b x0d) || (c =b x09) then 2
   else if (byteZ c <? 0x20)%Z then 6 else 1)%nat.
Proof. apply Nat.eqb_eq. byte_decide c. Qed.

Lemma content_fallback_size value :
  length (json_string_content_fallback value) = json_string_content_escaped_size_ value.
Proof.
  unfold json_string_content_fallback, json_string_content_escaped_size_.
  rewrite content_fallback_spec, Url.fold_size. simpl.
  apply Url.flat_map_length_ext. intros c. by rewrite escape_byte_size, repeat_length.
Qed.

End JsonEscape.

(** ** ASCII case, trimming and splitting *)

Module Ascii.

Definition lower_byte (u : byte) : byte :=
  if in_range 65 90 u then byte_of_Z (Z.lor (byteZ u) 0x20) else u.

Definition upper_byte (u : byte) : byte :=
  if in_range 97 122 u then byte_of_Z (Z.ldiff (byteZ u) 0x20) else u.

(** [ascii_lower_inplace], [ascii_upper_inplace] and their copying twins. *)
Definition ascii_lower (s : bytes) : bytes := map lower_byte s.
Definition ascii_upper (s : bytes) : bytes := map upper_byte s.

Definition is_ws (c : byte) : bool := (c =b x20) || (c =b x09) || (c =b x0d) || (c =b x0a).

Fixpoint drop_front (ws : byte -> bool) (s : bytes) : bytes :=
  match s with
  | [] => []
  | c :: s' => if ws c then drop_front ws s' else s
  end.

(** [while (!s.empty() && is_ws(s.back())) s.remove_suffix(1);] *)
Definition drop_back (ws : byte -> bool) (s : bytes) : bytes := rev (drop_front ws (rev s)).

Definition trim (s : bytes) : bytes := drop_back is_ws (drop_front is_ws s).

Definition strip_cr (s : bytes) : bytes :=
  match last s with Some x0d => take (length s - 1) s | _ => s end.

Definition split_once (s : bytes) (delim : byte) : option (bytes * bytes) :=
  pos ← find_byte delim s; Some (take pos s, drop (S pos) s).

Lemma lower_byte_idemp c : lower_byte (lower_byte c) = lower_byte c.
Proof. apply byte_eqb_eq. byte_decide c. Qed.

Lemma lower_upper_byte c : lower_byte (upper_byte c) = lower_byte c.
Proof. apply byte_eqb_eq. byte_decide c. Qed.

Lemma ascii_lower_idemp s : ascii_lower (ascii_lower s) = ascii_lower s.
Proof. unfold ascii_lower. rewrite map_map. apply map_ext, lower_byte_idemp. Qed.

Lemma ascii_lower_upper s : ascii_lower (ascii_upper s) = ascii_lower s.
Proof. unfold ascii_lower, ascii_upper. rewrite map_map. apply map_ext, lower_upper_byte. Qed.

Lemma drop_front_spec ws s :
  exists a, s = a ++ drop_front ws s /\ Forall (fun c => ws c = true) a /\
    match drop_front ws s with [] => True | c :: _ => ws c = false end.
Proof.
  induction s as [|c s (a & Hs & Ha & Hh)]; simpl; [by exists []|].
  destruct (ws c) eqn:E.
  - exists (c :: a). rewrite Hs at 1. split_and!; [done|by constructor|done].
  - exists []. by rewrite E.
Qed.

(** [trim] cuts exactly the maximal white-space prefix and suffix. *)
Lemma trim_spec s :
  exists a b, s = a ++ trim s ++ b /\
    Forall (fun c => is_ws c = true) a /\ Forall (fun c => is_ws c = true) b /\
    match trim s with [] => True | c :: _ => is_ws c = false end /\
    match last (trim s) with None => True | Some c => is_ws c = false end.
Proof.
  unfold trim, drop_back.
  destruct (drop_front_spec is_ws s) as (a & Hs & Ha & Hh).
  destruct (drop_front_spec is_ws (rev (drop_front is_ws s))) as (b & Hr & Hb & Hl).
  set (m := drop_front is_ws s) in *. set (r := drop_front is_ws (rev m)) in *.
  exists a, (rev b). apply (f_equal (@rev _)) in Hr. rewrite rev_involutive, rev_app_distr in Hr.
  split_and!; [by rewrite Hs, Hr at 1|done|by apply Forall_rev| |].
  - destruct (rev r) as [|c t] eqn:Er; [done|]. rewrite Hr in Hh. done.
  - destruct r as [|c r']; [done|]. simpl. by rewrite last_snoc.
Qed.

Lemma split_once_spec s d a b :
  split_once s d = Some (a, b) <-> s = a ++ d :: b /\ d ∉ a.
Proof.
  unfold split_once. split.
  - destruct (find_byte d s) as [n|] eqn:E; [|done]. intros [= <- <-].
    by apply find_byte_Some.
  - intros [-> H]. rewrite find_byte_app by done. simpl.
    by rewrite take_app_length, <- (Nat.add_1_r (length a)), drop_app_add.
Qed.

End Ascii.

(** ** The line iterator *)

Module Lines.
Import Ascii.

Record LineView := mkLineView { text : bytes; line_no : nat }.

(** The iterator's state; [current_] is meaningless when [done_]. *)
Record iterator := mkIterator {
  rest_ : bytes; current_ : LineView; next_line_no_ : nat; done_ : bool
}.

Definition advance_ (it : iterator) : iterator :=
  match rest_ it with
  | [] => mkIterator [] (mkLineView [] 0) (next_line_no_ it) true
  | _ :: _ =>
      let eol := find_byte x0a (rest_ it) in
      let line := match eol with None => rest_ it | Some e => take e (rest_ it) end in
      mkIterator (match eol with None => [] | Some e => drop (S e) (rest_ it) end)
        (mkLineView (strip_cr line) (next_line_no_ it)) (S (next_line_no_ it)) false
  end.

(** [LineRange{text}.begin()] *)
Definition begin (text : bytes) : iterator :=
  advance_ (mkIterator text (mkLineView [] 0) 1 false).

(** A range-[for] over the lines: each step consumes at least a byte. *)
Fixpoint collect (fuel : nat) (it : iterator) : list LineView :=
  match fuel with
  | O => []
  | S fuel' => if done_ it then [] else current_ it :: collect fuel' (advance_ it)
  end.

Definition lines (s : bytes) : list LineView := collect (S (length s)) (begin s).

(** The lines of a text: the pieces between line feeds, the last one dropped
    when it is empty. *)
Fixpoint split_lines (s cur : bytes) : list bytes :=
  match s with
  | [] => match cur with [] => [] | _ => [cur] end
  | c :: s' => if c =b x0a then cur :: split_lines s' [] else split_lines s' (cur ++ [c])
  end.

Lemma split_lines_step s cur :
  cur ++ s <> [] ->
  x0a ∉ cur ->
  split_lines s cur =
  match find_byte x0a s with
  | None => [cur ++ s]
  | Some e => (cur ++ take e s) :: split_lines (drop (S e) s) []
  end.
Proof.
  revert cur. induction s as [|c s IH]; intros cur Hne Hc; simpl.
  - rewrite app_nil_r in *. by destruct cur.
  - destruct (byte_eqb_spec c x0a) as [->|Hn]; [by rewrite app_nil_r|].
    rewrite IH; [|by destruct cur|].
    + destruct (find_byte x0a s); simpl; by rewrite <- app_assoc.
    + rewrite not_elem_of_app, list_elem_of_singleton. naive_solver.
Qed.

Lemma collect_spec fuel s n cur :
  (length s < fuel)%nat ->
  collect fuel (advance_ (mkIterator s cur n false))
  = imap (fun k l => mkLineView (strip_cr l) (n + k)) (split_lines s []).
Proof.
  revert s n cur. induction fuel as [|fuel IH]; intros s n cur Hf; [lia|].
  destruct s as [|c s']; [done|]. set (s := c :: s') in *.
  unfold advance_. simpl rest_. cbn [collect done_ current_].
  rewrite (split_lines_step s []); [|done|apply not_elem_of_nil].
  destruct (find_byte x0a s) as [e|] eqn:E; simpl.
  - rewrite IH by (simpl in *; rewrite length_drop; lia).
    f_equal; [f_equal; lia|]. apply imap_ext. intros i l _. simpl. f_equal. lia.
  - f_equal; [f_equal; lia|]. by destruct fuel.
Qed.

Lemma lines_spec s :
  lines s = imap (fun k l => mkLineView (strip_cr l) (S k)) (split_lines s []).
Proof. unfold lines, begin. by rewrite collect_spec by lia. Qed.

End Lines.

(** ** Properties *)

Module CodecProps.
Import Hex Url JsonEscape Ascii Lines.

Lemma hex_value_range c : -1 <= hex_char_to_int c <= 15.
Proof.
  assert ((-1 <=? hex_char_to_int c) && (hex_char_to_int c <=? 15) = true) as H by byte_decide c. bool_simp. lia.
Qed.

Lemma nibbles_value h l : 0 <= h <= 15 -> 0 <= l <= 15 -> byteZ (nibbles h l) = 16 * h + l.
Proof.
  intros Hh Hl. unfold nibbles. rewrite byteZ_byte_of_Z, lor_shiftl_add by lia. rewrite Z.mod_small; lia.
Qed.

Lemma nibbles_hi h l : 0 <= h <= 15 -> 0 <= l <= 15 -> hi_nibble (nibbles h l) = h.
Proof.
  intros Hh Hl. unfold hi_nibble. rewrite nibbles_value, Z.shiftr_div_pow2 by lia.
  symmetry. apply (Z.div_unique _ _ _ l); lia.
Qed.

Lemma nibbles_lo h l : 0 <= h <= 15 -> 0 <= l <= 15 -> lo_nibble (nibbles h l) = l.
Proof.
  intros Hh Hl. unfold lo_nibble. change 0x0F with (Z.ones 4). rewrite nibbles_value, Z.land_ones by lia.
  symmetry. apply (Z.mod_unique _ _ h); lia.
Qed.

Lemma hex_digit_lower c : 0 <= hex_char_to_int c -> hex_digit kHex (hex_char_to_int c) = lower_byte c.
Proof.
  intros H. assert (implb (0 <=? hex_char_to_int c) (hex_digit kHex (hex_char_to_int c) =b lower_byte c) = true) as Hi
    by byte_decide c.
  apply Z.leb_le in H. rewrite H in Hi. by apply byte_eqb_eq.
Qed.

Lemma hex_decode_loop_inv fuel inp out r :
  (length inp <= fuel)%nat -> Nat.even (length inp) = true -> hex_decode_loop inp out = Ok r ->
  exists t, r = out ++ t /\ hex_encode t = ascii_lower inp.
Proof.
  revert inp out. induction fuel as [|fuel IH]; intros inp out Hf He H;
    (destruct inp as [|c1 [|c2 inp]]; [injection H as <-; exists []; by rewrite app_nil_r|done|]); [simpl in Hf; lia|].
  cbn [hex_decode_loop] in H. pose proof (hex_value_range c1). pose proof (hex_value_range c2).
  destruct (Z.ltb_spec (hex_char_to_int c1) 0); [done|]. destruct (Z.ltb_spec (hex_char_to_int c2) 0); [done|].
  cbn [orb] in H. destruct (IH inp _ ltac:(simpl in Hf; lia) He H) as (t & -> & Ht).
  exists (nibbles (hex_char_to_int c1) (hex_char_to_int c2) :: t). rewrite <- app_assoc. split; [done|].
  unfold hex_encode, ascii_lower in *. cbn [flat_map map]. rewrite Ht, nibbles_hi, nibbles_lo by lia.
  by rewrite !hex_digit_lower by lia.
Qed.

(** hexadecimal coding is exact: decoding an encoding gives the bytes back,
    and whatever [hex_decode] accepts is, up to letter case, the encoding of
    what it returns. *)
Theorem hex_codec_exact inp out :
  hex_decode (hex_encode inp) = Ok inp /\ (hex_decode out = Ok inp -> hex_encode inp = ascii_lower out).
Proof.
  split; [apply hex_roundtrip|]. unfold hex_decode. destruct (Nat.even (length out)) eqn:He; [|done]. cbn [negb].
  intros H. by apply (hex_decode_loop_inv (length out)) in H as (t & -> & <-).
Qed.

(** percent and form encoding decode back to the original bytes, and the
    sizes computed in advance are the sizes of the encodings. *)
Theorem url_codec_exact s :
  url_decode (url_form_encode s) = s /\ url_decode (url_percent_encode s) = s /\
  url_decode_path (url_percent_encode s) = s /\
  length (url_percent_encode s) = url_percent_encoded_size s /\
  length (url_form_encode s) = url_form_encoded_size s.
Proof. split_and!; try by apply url_roundtrip. all: apply url_sizes_exact. Qed.

(** the line iterator yields the pieces between the line feeds, numbered
    from one, each without its final carriage return; a final empty piece is
    not a line. *)
Theorem lines_correct s :
  lines s = imap (fun k l => mkLineView (strip_cr l) (S k)) (split_lines s []).
Proof. apply lines_spec. Qed.

End CodecProps.
