(* ===== verification/JsonTypes.v ===== *)
(** * JSON module: enumerations, errors, limits and options

    The value types of [src/src/json_api.cxx] that every other part of the JSON
    module uses: kinds, stages, issue codes, paths, [JsonError], [LimitOption],
    [JsonParseOptions] and [JsonDumpOptions]. *)

From Stdlib Require Import ZArith Lia Strings.Byte String.
From stdpp Require Import base tactics option numbers list.
From S2P Require Import Prelude.

Inductive JsonKind := KObject | KArray | KString | KNumber | KBoolean | KNull.

Inductive JsonStage := Stage_parse | Stage_lookup | Stage_decode | Stage_build | Stage_dump
  | Stage_json_patch.

Inductive JsonIssueCode :=
| syntax_error
| unexpected_eof
| trailing_garbage
| invalid_utf8
| invalid_unicode_escape
| invalid_pointer
| duplicate_member
| missing_member
| wrong_kind
| index_out_of_range
| invalid_number
| number_out_of_range
| sign_mismatch
| invalid_value
| constraint_violation
| nesting_too_deep
| input_too_large
| string_too_large
| output_too_large
| resource_exhausted
| invalid_patch
| patch_op_missing
| patch_op_unknown
| patch_path_missing
| patch_path_invalid
| patch_from_missing
| patch_from_invalid
| patch_test_failed
| patch_target_missing
| patch_parent_missing
| patch_array_index_invalid
| patch_array_index_out_of_range
| patch_move_into_child
| patch_remove_document_root
| patch_too_many_operations
| patch_pointer_too_deep.

#[export] Instance JsonKind_eq_dec : EqDecision JsonKind.
Proof. solve_decision. Defined.
#[export] Instance JsonIssueCode_eq_dec : EqDecision JsonIssueCode.
Proof. solve_decision. Defined.

Record JsonSourceLocation := mkLoc { offset : nat; sl_line : nat; sl_column : nat }.

Inductive DuplicateKeyPolicy := dup_reject | dup_last_wins | dup_first_wins.

(** [JsonPathSegment], the variant of a member name and an index. *)
Inductive JsonPathSegment := JsonPathMember (name : bytes) | JsonPathIndex (index : nat).

#[export] Instance JsonPathSegment_eq_dec : EqDecision JsonPathSegment.
Proof. solve_decision. Defined.

(** [JsonPath] is the vector [segs_]. *)
Definition JsonPath := list JsonPathSegment.

Record JsonError := mkJsonError {
  stage : JsonStage;
  code : JsonIssueCode;
  path : JsonPath;
  source : option JsonSourceLocation;
  expected_kind : option JsonKind;
  actual_kind : option JsonKind;
  err_member_name : option bytes;
  target_type : option bytes;
  requested_index : option Z;
  container_size : option nat;
  operation_index : option nat;
  operation : option bytes;
  pointer : option bytes;
  from_pointer_ : option bytes;
  message : bytes
}.

(** The designated initialisers the code uses: the rest is default. *)
Definition simple_error (st : JsonStage) (c : JsonIssueCode) (msg : bytes) : JsonError :=
  mkJsonError st c [] None None None None None None None None None None None msg.

Definition located_error (st : JsonStage) (c : JsonIssueCode) (loc : JsonSourceLocation)
  (msg : bytes) : JsonError :=
  mkJsonError st c [] (Some loc) None None None None None None None None None None msg.

(** [JsonError::with_prefix]: the two push loops append the prefix's segments,
    then the error's own. *)
Definition with_prefix (self : JsonError) (prefix : JsonPath) : JsonError :=
  mkJsonError (stage self) (code self) (prefix ++ path self) (source self) (expected_kind self)
    (actual_kind self) (err_member_name self) (target_type self) (requested_index self)
    (container_size self) (operation_index self) (operation self) (pointer self)
    (from_pointer_ self) (message self).

(** [LimitOption] and its [exceeds]. *)
Inductive LimitOption := limit_default | limit_unlimited | limit_bound (value_ : Z).

Definition exceeds (l : LimitOption) (n default_cap : Z) : bool :=
  match l with
  | limit_unlimited => false
  | limit_default => default_cap <? n
  | limit_bound value_ => value_ <? n
  end.

Inductive ParseMode := strict | json5.

Record JsonParseOptions := mkParseOptions {
  max_depth : LimitOption;
  max_input_size : LimitOption;
  max_string_size : LimitOption;
  duplicate_key : DuplicateKeyPolicy;
  warm_threshold : option Z;
  mode : ParseMode
}.

Definition default_parse_options : JsonParseOptions :=
  mkParseOptions limit_default limit_default limit_default dup_reject None strict.

Record JsonDumpOptions := mkDumpOptions {
  pretty : bool;
  indent : nat;
  sort_object_keys : bool;
  ascii_only : bool;
  indent_char : byte;
  truncate_depth : option nat
}.

Definition default_dump_options : JsonDumpOptions :=
  mkDumpOptions false 2 false false x20 None.

(** Limits of [json_api.cxx]. *)
Definition kSlowFloatLexemeCopyLimit : Z := 4096.
Definition kMaxNumberLexemeLen : Z := 1024.
Definition kDefaultMaxDepth : Z := 128.
Definition kDefaultMaxInput : Z := 128 * 1024 * 1024.
Definition kDefaultMaxString : Z := 64 * 1024 * 1024.
Definition kRecursiveDepthCeiling : Z := 256.

(** A byte count or an index converted to [uint32_t]. *)
Definition u32n (n : nat) : nat := Z.to_nat (u32 (Z.of_nat n)).

Lemma u32n_small n : Z.of_nat n < 2 ^ 32 -> u32n n = n.
Proof. intros. unfold u32n. rewrite u32_small by lia. apply Nat2Z.id. Qed.
