(* ===== verification/JsonStorage.v ===== *)
(** * JSON module: nodes and document storage

    The flat document of [src/src/json_api.cxx] and [src/src/json_storage.cxx]:
    [Node] with its flag byte and union payload, the node factories,
    [MemberEntry], the object hash table's data, [DocumentStorage] and its
    accessors. The union is an inductive payload; a [char const *] of
    [external_ptrs_] is the list of bytes it points at. Allocators and vector
    capacities are not part of the state. *)

From Stdlib Require Import ZArith Lia Strings.Byte String Floats.SpecFloat.
From stdpp Require Import base tactics option numbers list.
From S2P Require Import Prelude JsonTypes.

(** ** Nodes *)

Inductive NodeKind := NK_null | NK_boolean | NK_number | NK_string | NK_array | NK_object.

#[export] Instance NodeKind_eq_dec : EqDecision NodeKind.
Proof. solve_decision. Defined.

Definition kStorageInputView : Z := 0x01.
Definition kRawJsonSlice : Z := 0x02.
Definition kValKindDeferred : Z := 0x04.
Definition kLexIntForm : Z := 0x08.
Definition kValKindInt : Z := 0x10.
Definition kValKindUint : Z := 0x20.
Definition kValKindF64 : Z := 0x40.
Definition kValueExternalView : Z := 0x80.
Definition kMemberExternalView : Z := 0x04.

(** [(flags & bit) != 0] *)
Definition has_flag (flags bit : Z) : bool := negb (Z.land flags bit =? 0).

(** The slots of an object's hash table; [None] is [kEmptySlot]. *)
Record ObjHashSlot := mkSlot { member_index : nat; name_hash : Z }.

Record ObjHashTable := mkHashTable {
  capacity : Z;
  member_count : nat;
  hash_seed : Z;
  slots : list (option ObjHashSlot);
  ptr_cache : list bytes
}.

(** [hash_idx_raw]: null, a published table, or [kHashBuildFailedSentinel]. *)
Inductive HashRef := HashNull | HashTable (t : ObjHashTable) | HashBuildFailed.

(** The union of [Node]; a [double] is a [spec_float] of binary64. *)
Inductive Payload :=
| raw_zero
| bool_val (b : bool)
| ival (v : Z)
| uval (v : Z)
| dval (v : spec_float)
| hash_idx_raw (h : HashRef).

Record Node := mkNode { kind : NodeKind; flags : Z; off : nat; len : nat; payload : Payload }.

Definition make_null : Node := mkNode NK_null 0 0 0 raw_zero.
Definition make_bool (v : bool) : Node := mkNode NK_boolean 0 0 0 (bool_val v).
Definition make_string (o l : nat) (fl : Z) : Node := mkNode NK_string fl o l raw_zero.
Definition node_array (o l : nat) : Node := mkNode NK_array 0 o l raw_zero.
Definition node_object (o l : nat) : Node := mkNode NK_object 0 o l (hash_idx_raw HashNull).

Definition make_number_int (o l : nat) (storage_flags : Z) (v : Z) : Node :=
  mkNode NK_number (u8 (Z.lor (Z.lor storage_flags kLexIntForm) kValKindInt)) o l (ival v).

Definition make_number_uint (o l : nat) (storage_flags : Z) (v : Z) : Node :=
  mkNode NK_number (u8 (Z.lor (Z.lor storage_flags kLexIntForm) kValKindUint)) o l (uval v).

Definition make_number_f64 (o l : nat) (storage_flags : Z) (v : spec_float) (int_form : bool) : Node :=
  mkNode NK_number
    (u8 (Z.lor (Z.lor storage_flags (if int_form then kLexIntForm else 0)) kValKindF64))
    o l (dval v).

Definition make_number_overflow (o l : nat) (storage_flags : Z) (int_form : bool) : Node :=
  mkNode NK_number (u8 (Z.lor storage_flags (if int_form then kLexIntForm else 0))) o l raw_zero.

Definition make_number_deferred (o l : nat) (storage_flags : Z) : Node :=
  mkNode NK_number (u8 (Z.lor storage_flags kValKindDeferred)) o l raw_zero.

(** [store.nodes[i].hash_idx_raw = h] *)
Definition set_hash (h : HashRef) (n : Node) : Node :=
  mkNode (kind n) (flags n) (off n) (len n) (hash_idx_raw h).

(** ** Storage *)

Record MemberEntry := mkMember {
  name_off : nat; name_len : nat; val_node : nat; name_flags : Z
}.

(** The counters of [JsonParseStorageStats] that do not report capacities. *)
Record ParseStats := mkStats {
  input_bytes : nat;
  duplicate_hash_promotions : nat;
  duplicate_hash_inserts : nat;
  duplicate_member_hits : nat;
  first_wins_rollbacks : nat;
  last_wins_updates : nat
}.

Definition empty_stats : ParseStats := mkStats 0 0 0 0 0 0.

Record DocumentStorage := mkStorage {
  nodes : list Node;
  string_arena : bytes;
  array_children : list nat;
  object_members : list MemberEntry;
  external_ptrs_ : list bytes;
  owned_input : bytes;
  input_view : bytes;
  root_node : nat;
  bom_prefix_bytes : nat;
  parse_stats : ParseStats
}.

(** A fresh storage, and what [reset] leaves behind (the destroyed hash tables
    of its nodes are gone with the nodes). *)
Definition empty_storage : DocumentStorage := mkStorage [] [] [] [] [] [] [] 0 0 empty_stats.

Definition reset (ds : DocumentStorage) : DocumentStorage := empty_storage.

Definition str_at (ds : DocumentStorage) (o l : nat) : bytes := substr (string_arena ds) o l.

Definition bytes_at (ds : DocumentStorage) (o l : nat) (fl : Z) : bytes :=
  if has_flag fl kValueExternalView then take l (default [] (external_ptrs_ ds !! o))
  else if has_flag fl kStorageInputView then substr (input_view ds) o l
  else str_at ds o l.

Definition member_name (ds : DocumentStorage) (m : MemberEntry) : bytes :=
  if has_flag (name_flags m) kMemberExternalView then
    take (name_len m) (default [] (external_ptrs_ ds !! name_off m))
  else bytes_at ds (name_off m) (name_len m) (u8 (name_flags m)).

(** Field updates. *)
Definition set_nodes (l : list Node) (ds : DocumentStorage) : DocumentStorage :=
  mkStorage l (string_arena ds) (array_children ds) (object_members ds) (external_ptrs_ ds)
    (owned_input ds) (input_view ds) (root_node ds) (bom_prefix_bytes ds) (parse_stats ds).

Definition set_arena (a : bytes) (ds : DocumentStorage) : DocumentStorage :=
  mkStorage (nodes ds) a (array_children ds) (object_members ds) (external_ptrs_ ds)
    (owned_input ds) (input_view ds) (root_node ds) (bom_prefix_bytes ds) (parse_stats ds).

Definition set_children (c : list nat) (ds : DocumentStorage) : DocumentStorage :=
  mkStorage (nodes ds) (string_arena ds) c (object_members ds) (external_ptrs_ ds)
    (owned_input ds) (input_view ds) (root_node ds) (bom_prefix_bytes ds) (parse_stats ds).

Definition set_members (m : list MemberEntry) (ds : DocumentStorage) : DocumentStorage :=
  mkStorage (nodes ds) (string_arena ds) (array_children ds) m (external_ptrs_ ds)
    (owned_input ds) (input_view ds) (root_node ds) (bom_prefix_bytes ds) (parse_stats ds).

Definition set_input (own view : bytes) (bom : nat) (ds : DocumentStorage) : DocumentStorage :=
  mkStorage (nodes ds) (string_arena ds) (array_children ds) (object_members ds)
    (external_ptrs_ ds) own view (root_node ds) bom (parse_stats ds).

Definition set_root (r : nat) (ds : DocumentStorage) : DocumentStorage :=
  mkStorage (nodes ds) (string_arena ds) (array_children ds) (object_members ds)
    (external_ptrs_ ds) (owned_input ds) (input_view ds) r (bom_prefix_bytes ds)
    (parse_stats ds).

Definition set_stats (st : ParseStats) (ds : DocumentStorage) : DocumentStorage :=
  mkStorage (nodes ds) (string_arena ds) (array_children ds) (object_members ds)
    (external_ptrs_ ds) (owned_input ds) (input_view ds) (root_node ds) (bom_prefix_bytes ds) st.

(** ** Extension

    Parsing only appends to the vectors and the arena; [ext] is the order in
    which every reference into the storage stays meaningful. *)

Record ext (a b : DocumentStorage) : Prop := {
  ext_nodes : nodes a `prefix_of` nodes b;
  ext_arena : string_arena a `prefix_of` string_arena b;
  ext_children : array_children a `prefix_of` array_children b;
  ext_members : object_members a `prefix_of` object_members b;
  ext_external : external_ptrs_ a `prefix_of` external_ptrs_ b;
  ext_input : input_view a = input_view b;
  ext_bom : bom_prefix_bytes a = bom_prefix_bytes b
}.

#[export] Instance ext_preorder : PreOrder ext.
Proof.
  split.
  - intros a. by constructor.
  - intros a b c [] []. constructor; try (by etransitivity); congruence.
Qed.

(** A text reference that lies inside its buffer: the view has exactly the
    recorded length. Bytes marked [kRawJsonSlice] need no escaping. *)
Definition text_at (ds : DocumentStorage) (o l : nat) (fl : Z) (s : bytes) : Prop :=
  bytes_at ds o l fl = s /\ length s = l.

Lemma substr_prefix (a b : bytes) o l :
  a `prefix_of` b -> length (substr a o l) = l -> substr b o l = substr a o l.
Proof.
  intros [k ->] Hl. unfold substr in *. rewrite length_take, length_drop in Hl.
  destruct (decide (l = 0%nat)) as [->|]; [done|].
  rewrite drop_app_le by lia. rewrite take_app_le; [done|]. rewrite length_drop. lia.
Qed.

Lemma text_at_ext a b o l fl s : ext a b -> text_at a o l fl s -> text_at b o l fl s.
Proof.
  intros [_ Har _ _ Hext Hin _] [Hb Hl]. split; [|done]. unfold bytes_at, str_at in *.
  destruct (has_flag fl kValueExternalView).
  - destruct (external_ptrs_ a !! o) as [p|] eqn:Ep; simpl in Hb.
    + by rewrite (prefix_lookup_Some _ _ _ _ Ep Hext).
    + rewrite take_nil in Hb. subst s. simpl in Hl. subst l. apply take_0.
  - destruct (has_flag fl kStorageInputView); [by rewrite <- Hin|].
    subst s. by apply substr_prefix.
Qed.
