(* ===== verification/JsonNumber.v ===== *)
(** * JSON module: numbers

    [build_number_node_from_lexeme], [classify_range_error_slow]
    ([src/src/json_api.cxx]), [JsonNumberView] and [validate_number_lexeme]
    ([src/src/json_number.cxx]), over a model of [std::from_chars] for
    [int64_t], [uint64_t] and [double]. The theorems: a lexeme of the JSON
    grammar is always accepted, and the integer conversions are exact. *)

From Stdlib Require Import ZArith Lia Strings.Byte String Floats.SpecFloat.
From stdpp Require Import base tactics option numbers list.
From S2P Require Import Prelude JsonTypes JsonStorage.

(** ** [std::from_chars] for [double] *)

Module Float64.

(** The binary64 number nearest to [n / d], ties to even: the mantissa and the
    exponent, [k >= -1074] and at most 53 bits (or exactly [2 ^ 53] after
    rounding up). *)
Definition round_ratio (n d : Z) : Z * Z :=
  let k0 := Z.log2 n - Z.log2 d - 53 in
  let scaled k := (n * 2 ^ Z.max 0 (- k)) / (d * 2 ^ Z.max 0 k) in
  let k1 := if 2 ^ 53 <=? scaled k0 then k0 + 1 else k0 in
  let k := Z.max k1 (-1074) in
  let num := n * 2 ^ Z.max 0 (- k) in
  let den := d * 2 ^ Z.max 0 k in
  let q := num / den in
  let r := num mod den in
  let up := (den <? 2 * r) || ((2 * r =? den) && Z.odd q) in
  (if up then q + 1 else q, k).

(** The [double] of a mantissa and an exponent, in canonical form; [None] when
    it is too large. *)
Definition of_mantissa (neg : bool) (m k : Z) : option spec_float :=
  let '(m, k) := if m =? 2 ^ 53 then (2 ^ 52, k + 1) else (m, k) in
  if 971 <? k then None
  else match m with Zpos p => Some (S754_finite neg p k) | _ => Some (S754_zero neg) end.

(** A decimal [digits * 10 ^ e10]; [None] is [result_out_of_range]: the rounded
    value is infinite, or a value that is not zero rounds to zero. The two
    exponent guards decide the cases whose powers of ten would be huge. *)
Definition decimal_to_double (neg : bool) (digits : bytes) (e10 : Z) : option spec_float :=
  let m := dec_value digits in
  let magnitude := Z.of_nat (length (to_dec m)) + e10 in
  if m =? 0 then Some (S754_zero neg)
  else if 400 <? magnitude then None
  else if magnitude <? -400 then None
  else
    let '(q, k) := round_ratio (m * 10 ^ Z.max 0 e10) (10 ^ Z.max 0 (- e10)) in
    if q =? 0 then None else of_mantissa neg q k.

(** The exponent part after the digits: its value and its length. A malformed
    exponent is not consumed. *)
Definition scan_exponent (s : bytes) : Z * nat :=
  match s with
  | c :: s1 =>
      if (c =b x65) || (c =b x45) then
        let '(sgn, skip, s2) :=
          match s1 with
          | x2d :: t => (-1, 1%nat, t)
          | x2b :: t => (1, 1%nat, t)
          | _ => (1, 0%nat, s1)
          end in
        let '(ds, _) := span is_digit s2 in
        match ds with
        | [] => (0, 0%nat)
        | _ => (sgn * dec_value ds, (1 + skip + length ds)%nat)
        end
      else (0, 0%nat)
  | [] => (0, 0%nat)
  end.

(** [std::from_chars(b, e, dv, std::chars_format::general)] on a text that
    starts with a digit or with a minus sign and a digit; the [inf], [nan] and
    [.5] forms have no digit there and are not read from JSON lexemes. *)
Definition from_chars_double (s : bytes) : from_chars_result spec_float :=
  let '(neg, s1, n0) := match s with x2d :: t => (true, t, 1%nat) | _ => (false, s, 0%nat) end in
  let '(ip, s2) := span is_digit s1 in
  match ip with
  | [] => FcInvalid
  | _ =>
      let '(fp, s3, nf) :=
        match s2 with
        | x2e :: t => let '(fp, s3) := span is_digit t in (fp, s3, (1 + length fp)%nat)
        | _ => ([], s2, 0%nat)
        end in
      let '(e, ne) := scan_exponent s3 in
      let consumed := (n0 + length ip + nf + ne)%nat in
      match decimal_to_double neg (ip ++ fp) (e - Z.of_nat (length fp)) with
      | Some v => FcOk v consumed
      | None => FcRange consumed
      end
  end.

(** [static_cast<double>] of an integer. *)
Definition of_int (z : Z) : spec_float := binary_normalize 53 1024 z 0 false.

Definition is_finite (v : spec_float) : bool :=
  match v with S754_zero _ | S754_finite _ _ _ => true | _ => false end.

Definition is_inf (v : spec_float) : bool :=
  match v with S754_infinity _ => true | _ => false end.

End Float64.

Import Float64.

Definition int64_min : Z := - 2 ^ 63.
Definition int64_max : Z := 2 ^ 63 - 1.
Definition uint64_max : Z := 2 ^ 64 - 1.

(** ** From a lexeme to a node *)

(** [ec == std::errc{} && p == e] *)
Definition fc_full {V} (r : from_chars_result V) (lex : bytes) : option V :=
  match r with
  | FcOk v n => if (n =? length lex)%nat then Some v else None
  | _ => None
  end.

(** [!lex.empty() && lex.front() == '-'] *)
Definition negative_lexeme (lex : bytes) : bool := match lex with x2d :: _ => true | _ => false end.

Definition is_fc_range {V} (r : from_chars_result V) : bool :=
  match r with FcRange _ => true | _ => false end.

Definition build_number_node_from_lexeme (o l : nat) (storage_flags : Z) (lex : bytes)
  (int_form_hint : option bool) : expected Node JsonError :=
  let int_form :=
    match int_form_hint with
    | Some b => b
    | None => negb (existsb (fun c => (c =b x2e) || (c =b x65) || (c =b x45)) lex)
    end in
  let neg := negative_lexeme lex in
  let as_double :=
    match fc_full (from_chars_double lex) lex with
    | Some dv =>
        if is_finite dv then Ok (make_number_f64 o l storage_flags dv int_form)
        else Ok (make_number_overflow o l storage_flags int_form)
    | None =>
        if is_fc_range (from_chars_double lex) then
          if kSlowFloatLexemeCopyLimit <? Z.of_nat (length lex) then
            Ok (make_number_overflow o l storage_flags int_form)
          else Ok (make_number_deferred o l storage_flags)
        else Unexpected (simple_error Stage_parse invalid_number
                           (B "number rejected by std::from_chars: " ++ lex))
    end in
  if int_form then
    match fc_full (from_chars_signed int64_min int64_max lex) lex with
    | Some iv => Ok (make_number_int o l storage_flags iv)
    | None =>
        match (if neg then None else fc_full (from_chars_unsigned uint64_max lex) lex) with
        | Some uv => Ok (make_number_uint o l storage_flags uv)
        | None => as_double
        end
    end
  else as_double.

(** ** [JsonNumberView] *)

Record JsonNumberView := mkNumberView { lexeme_ : bytes; raw_payload_ : Payload; flags_ : Z }.

Inductive JsonNumberForm := form_integer | form_non_integer.

Definition form (v : JsonNumberView) : JsonNumberForm :=
  if has_flag (flags_ v) kLexIntForm then form_integer else form_non_integer.

(** [std::bit_cast<int64_t>] and the [uint64_t] reading of the union, for the
    union members the flags select. *)
Definition raw_i64 (p : Payload) : Z :=
  match p with
  | ival v => v
  | uval v => if v <? 2 ^ 63 then v else v - 2 ^ 64
  | _ => 0
  end.

Definition raw_u64 (p : Payload) : Z :=
  match p with ival v => u64 v | uval v => v | _ => 0 end.

Definition raw_f64 (p : Payload) : spec_float := match p with dval v => v | _ => S754_zero false end.

Definition to_i64 (v : JsonNumberView) : expected Z JsonError :=
  if negb (has_flag (flags_ v) kLexIntForm) then
    Unexpected (simple_error Stage_lookup invalid_number (B "to_i64 requires integer-form number"))
  else if has_flag (flags_ v) kValKindInt then Ok (raw_i64 (raw_payload_ v))
  else Unexpected (simple_error Stage_lookup number_out_of_range
                     (B "value out of std::int64_t range: " ++ lexeme_ v)).

Definition to_u64 (v : JsonNumberView) : expected Z JsonError :=
  let out_of_range := Unexpected (simple_error Stage_lookup number_out_of_range
                        (B "value out of std::uint64_t range: " ++ lexeme_ v)) in
  if negb (has_flag (flags_ v) kLexIntForm) then
    Unexpected (simple_error Stage_lookup invalid_number (B "to_u64 requires integer-form number"))
  else if negative_lexeme (lexeme_ v) then
    Unexpected (simple_error Stage_lookup sign_mismatch
                  (B "negative integer passed to to_u64: " ++ lexeme_ v))
  else if has_flag (flags_ v) kValKindUint then Ok (raw_u64 (raw_payload_ v))
  else if has_flag (flags_ v) kValKindInt then
    let i := raw_i64 (raw_payload_ v) in
    if 0 <=? i then Ok (u64 i) else out_of_range
  else out_of_range.

(** ** The slow classification of out-of-range doubles

    [strtod_l] and [newlocale] are the C library's, the [nothrow] allocation is
    the runtime's. *)

Inductive ClassifiedDouble := underflow_finite (value : spec_float) | overflow_infinite.

Section slow.
Context (strtod_c_locale : bytes -> spec_float * nat) (locale_ok alloc_ok : bool).

Definition classify_range_error_slow (lex : bytes) : expected ClassifiedDouble JsonError :=
  let n := length lex in
  if kSlowFloatLexemeCopyLimit <? Z.of_nat n then Ok overflow_infinite
  else
    match fc_full (from_chars_double lex) lex with
    | Some dv => if is_finite dv then Ok (underflow_finite dv) else Ok overflow_infinite
    | None =>
        if is_fc_range (from_chars_double lex) then
          if negb locale_ok then
            Unexpected (simple_error Stage_parse resource_exhausted
                          (B "newlocale(C) failed at startup; strtod_l unavailable"))
          else if (128 <? n + 1)%nat && negb alloc_ok then
            Unexpected (simple_error Stage_parse resource_exhausted
                          (B "OOM in classify_range_error_slow"))
          else
            let '(v, consumed) := strtod_c_locale lex in
            if negb (consumed =? n)%nat then
              Unexpected (simple_error Stage_parse invalid_number
                            (B "strtod_l rejected deferred lexeme"))
            else if is_inf v then Ok overflow_infinite
            else Ok (underflow_finite v)
        else Unexpected (simple_error Stage_parse invalid_number
                           (B "std::from_chars rejected deferred lexeme: " ++ lex))
    end.

Definition with_stage (st : JsonStage) (e : JsonError) : JsonError :=
  mkJsonError st (code e) (path e) (source e) (expected_kind e) (actual_kind e)
    (err_member_name e) (target_type e) (requested_index e) (container_size e)
    (operation_index e) (operation e) (pointer e) (from_pointer_ e) (message e).

Definition to_f64 (v : JsonNumberView) : expected spec_float JsonError :=
  let overflows := Unexpected (simple_error Stage_lookup number_out_of_range
                     (B "f64 conversion overflows: " ++ lexeme_ v)) in
  if has_flag (flags_ v) kValKindF64 then Ok (raw_f64 (raw_payload_ v))
  else if has_flag (flags_ v) kValKindInt then Ok (of_int (raw_i64 (raw_payload_ v)))
  else if has_flag (flags_ v) kValKindUint then Ok (of_int (raw_u64 (raw_payload_ v)))
  else if has_flag (flags_ v) kValKindDeferred then
    match classify_range_error_slow (lexeme_ v) with
    | Unexpected e => Unexpected (with_stage Stage_lookup e)
    | Ok (underflow_finite d) => Ok d
    | Ok overflow_infinite => overflows
    end
  else overflows.

End slow.

(** ** [validate_number_lexeme] *)

(** [while (i < lex.size() && digit(lex[i])) ++i;] *)
Fixpoint skip_digits_at (fuel : nat) (lex : bytes) (i : nat) : nat :=
  match fuel with
  | O => i
  | S fuel' =>
      match lex !! i with
      | Some c => if is_digit c then skip_digits_at fuel' lex (S i) else i
      | None => i
      end
  end.

Definition digit_at (lex : bytes) (i : nat) : bool :=
  match lex !! i with Some c => is_digit c | None => false end.

Definition char_at (lex : bytes) (i : nat) (p : byte -> bool) : bool :=
  match lex !! i with Some c => p c | None => false end.

Definition validate_number_lexeme (lex : bytes) : bool :=
  let n := length lex in
  if (n =? 0)%nat then false
  else
    let neg := char_at lex 0 (fun c => c =b x2d) in
    let i := if neg then 1%nat else 0%nat in
    if neg && (n <=? i)%nat then false
    else
      match (if char_at lex i (fun c => c =b x30) then Some (S i)
             else if char_at lex i (fun c => in_range 49 57 c) then Some (skip_digits_at n lex i)
             else None) with
      | None => false
      | Some i =>
          match (if char_at lex i (fun c => c =b x2e) then
                   if digit_at lex (S i) then Some (skip_digits_at n lex (S i)) else None
                 else Some i) with
          | None => false
          | Some i =>
              match (if char_at lex i (fun c => (c =b x65) || (c =b x45)) then
                       let i := S i in
                       let i := if char_at lex i (fun c => (c =b x2b) || (c =b x2d)) then S i else i in
                       if digit_at lex i then Some (skip_digits_at n lex i) else None
                     else Some i) with
              | None => false
              | Some i => (i =? n)%nat
              end
          end
      end.

(** ** The number grammar of RFC 8259 *)

Definition digits (ds : bytes) : Prop := Forall (fun c => is_digit c = true) ds.

Definition int_part (ip : bytes) : Prop :=
  ip = [x30] \/ exists d ds, ip = d :: ds /\ in_range 49 57 d = true /\ digits ds.

Definition frac_part (fp : bytes) : Prop :=
  fp = [] \/ exists ds, fp = x2e :: ds /\ ds <> [] /\ digits ds.

Definition exp_part (ep : bytes) : Prop :=
  ep = [] \/ exists e sg ds, ep = e :: sg ++ ds /\ (e = x65 \/ e = x45) /\
    (sg = [] \/ sg = [x2b] \/ sg = [x2d]) /\ ds <> [] /\ digits ds.

(** [lex] is a number; [int_form] says that it has no fraction and no
    exponent. *)
Definition jnumber (lex : bytes) (int_form : bool) : Prop :=
  exists sg ip fp ep, lex = sg ++ ip ++ fp ++ ep /\ (sg = [] \/ sg = [x2d]) /\
    int_part ip /\ frac_part fp /\ exp_part ep /\
    int_form = bool_decide (fp = [] /\ ep = []).

(** What may follow a number so that it is not read further. *)
Definition number_follow (rest : bytes) : Prop :=
  match rest with
  | [] => True
  | c :: _ => is_digit c = false /\ c <> x2e /\ c <> x65 /\ c <> x45
  end.

(** The scanner of the grammar on the remaining input, in three stages. *)
Definition scan_int (s : bytes) : option (bytes * bytes) :=
  match s with
  | d :: t =>
      if is_digit d then
        let '(ds, rest) := span is_digit t in
        if (d =b x30) && negb (bool_decide (ds = [])) then None else Some (d :: ds, rest)
      else None
  | [] => None
  end.

Definition scan_frac (s : bytes) : option (bytes * bytes) :=
  match s with
  | x2e :: t =>
      let '(ds, rest) := span is_digit t in
      match ds with [] => None | _ => Some (x2e :: ds, rest) end
  | _ => Some ([], s)
  end.

Definition scan_exp (s : bytes) : option (bytes * bytes) :=
  match s with
  | c :: t =>
      if (c =b x65) || (c =b x45) then
        let '(sg, t) :=
          match t with
          | x2b :: t' => ([x2b], t')
          | x2d :: t' => ([x2d], t')
          | _ => ([], t)
          end in
        let '(ds, rest) := span is_digit t in
        match ds with [] => None | _ => Some (c :: sg ++ ds, rest) end
      else Some ([], s)
  | [] => Some ([], [])
  end.

Definition scan_number (s : bytes) : option (bytes * bool * bytes) :=
  let '(sg, s0) := match s with x2d :: t => ([x2d], t) | _ => ([], s) end in
  '(ip, s1) ← scan_int s0;
  '(fp, s2) ← scan_frac s1;
  '(ep, s3) ← scan_exp s2;
  Some (sg ++ ip ++ fp ++ ep, bool_decide (fp = [] /\ ep = []), s3).

Lemma digit_neq d c : is_digit d = true -> is_digit c = false -> d <> c.
Proof. congruence. Qed.

Lemma scan_int_sound s ip rest :
  scan_int s = Some (ip, rest) ->
  s = ip ++ rest /\ int_part ip /\ match rest with [] => True | c :: _ => is_digit c = false \/ ip = [x30] end.
Proof.
  destruct s as [|d t]; simpl; [done|]. destruct (is_digit d) eqn:Ed; [|done].
  destruct (span is_digit t) as [ds r] eqn:Es. apply span_spec in Es as (-> & Hds & Hr).
  destruct (byte_eqb_spec d x30) as [->|Hd]; simpl.
  - case_bool_decide as E; [|done]. intros [= <- <-]. subst ds. simpl.
    split_and!; [done|by left|]. destruct r; auto.
  - intros [= <- <-]. split_and!; [done| |destruct r; auto].
    right. exists d, ds. split_and!; try done.
    unfold is_digit, in_range in *. bool_simp. apply andb_true_iff. rewrite !Z.leb_le.
    split; [|lia]. destruct (decide (byteZ d = 48)) as [Hz|]; [|lia].
    destruct Hd. by apply byteZ_inj.
Qed.

Lemma scan_frac_sound s fp rest :
  scan_frac s = Some (fp, rest) -> s = fp ++ rest /\ frac_part fp.
Proof.
  unfold scan_frac. destruct s as [|c t]; [intros [= <- <-]; split; [done|by left]|].
  destruct (decide (c = x2e)) as [->|Hn].
  - destruct (span is_digit t) as [ds r] eqn:Es. apply span_spec in Es as (-> & Hds & _).
    destruct ds as [|d ds]; [done|]. intros [= <- <-]. split; [done|]. right. by exists (d :: ds).
  - assert (match c :: t with
            | x2e :: t0 => let '(ds, r) := span is_digit t0 in
                match ds with [] => None | _ => Some (x2e :: ds, r) end
            | _ => Some ([], c :: t) end = Some ([], c :: t)) as -> by (by destruct c).
    intros [= <- <-]. split; [done|by left].
Qed.

Lemma exp_sign_cases (t : bytes) :
  let '(sg, t') := match t with
          | x2b :: t' => ([x2b], t')
          | x2d :: t' => ([x2d], t')
          | _ => ([], t)
          end in
  t = sg ++ t' /\ (sg = [] \/ sg = [x2b] \/ sg = [x2d]).
Proof. destruct t as [|c t]; [by auto|]. destruct c; by auto. Qed.

Lemma scan_exp_sound s ep rest :
  scan_exp s = Some (ep, rest) -> s = ep ++ rest /\ exp_part ep.
Proof.
  unfold scan_exp. destruct s as [|c t]; [intros [= <- <-]; split; [done|by left]|].
  destruct ((c =b x65) || (c =b x45)) eqn:Ec; [|intros [= <- <-]; split; [done|by left]].
  pose proof (exp_sign_cases t) as Hsg.
  destruct (match t with x2b :: t' => ([x2b], t') | x2d :: t' => ([x2d], t') | _ => ([], t) end)
    as [sg t']. destruct Hsg as [-> Hsg].
  destruct (span is_digit t') as [ds r] eqn:Es. apply span_spec in Es as (-> & Hds & _).
  destruct ds as [|d ds]; [done|]. intros [= <- <-]. split; [simpl; by rewrite <- app_assoc|].
  right. exists c, sg, (d :: ds). split_and!; try done.
  apply orb_true_iff in Ec as [E%byte_eqb_eq|E%byte_eqb_eq]; auto.
Qed.

Lemma scan_number_sound s lex b rest :
  scan_number s = Some (lex, b, rest) -> s = lex ++ rest /\ jnumber lex b.
Proof.
  unfold scan_number.
  assert (exists sg s0, s = sg ++ s0 /\ (sg = [] \/ sg = [x2d]) /\
    match s with x2d :: t => ([x2d], t) | _ => ([], s) end = (sg, s0)) as (sg & s0 & -> & Hsg & ->).
  { destruct s as [|c t]; [exists [], []; auto|].
    destruct (decide (c = x2d)) as [->|Hc]; [exists [x2d], t; auto|].
    exists [], (c :: t). split_and!; [done|auto|by destruct c]. }
  destruct (scan_int s0) as [[ip s1]|] eqn:Ei; simpl; [|done].
  destruct (scan_frac s1) as [[fp s2]|] eqn:Ef; simpl; [|done].
  destruct (scan_exp s2) as [[ep s3]|] eqn:Ee; simpl; [|done].
  intros [= <- <- <-]. apply scan_int_sound in Ei as (-> & Hi & _).
  apply scan_frac_sound in Ef as (-> & Hf). apply scan_exp_sound in Ee as (-> & He).
  split; [by rewrite <- !app_assoc|]. by exists sg, ip, fp, ep.
Qed.

(** *** Completeness of the scanner *)

Lemma digit_19 d : in_range 49 57 d = true -> is_digit d = true /\ d <> x30.
Proof.
  intros H. unfold is_digit, in_range in *. bool_simp. split.
  - apply andb_true_iff. rewrite !Z.leb_le. lia.
  - intros ->. cbn in *. lia.
Qed.

Definition not_digit_head (r : bytes) : Prop :=
  match r with [] => True | c :: _ => is_digit c = false end.

Lemma scan_int_complete ip r :
  int_part ip -> not_digit_head r -> scan_int (ip ++ r) = Some (ip, r).
Proof.
  intros [->|(d & ds & -> & Hd & Hds)] Hr; cbn [app scan_int].
  - pose proof (span_app is_digit [] r (Forall_nil_2 _) Hr) as Hs. simpl in Hs. by rewrite Hs.
  - destruct (digit_19 d Hd) as [Hdd Hne]. rewrite Hdd, span_app by done.
    destruct (byte_eqb_spec d x30); [done|]. done.
Qed.

Lemma scan_frac_complete fp r :
  frac_part fp -> not_digit_head r -> (fp = [] -> match r with x2e :: _ => False | _ => True end) ->
  scan_frac (fp ++ r) = Some (fp, r).
Proof.
  intros [->|(ds & -> & Hne & Hds)] Hr Hdot; cbn [app].
  - unfold scan_frac. destruct r as [|c r]; [done|]. specialize (Hdot eq_refl).
    by destruct c.
  - unfold scan_frac. rewrite span_app by done. by destruct ds.
Qed.

Lemma scan_exp_complete ep r :
  exp_part ep -> not_digit_head r ->
  (ep = [] -> match r with x65 :: _ | x45 :: _ => False | _ => True end) ->
  scan_exp (ep ++ r) = Some (ep, r).
Proof.
  intros [->|(e & sg & ds & -> & He & Hsg & Hne & Hds)] Hr Hx; cbn [app].
  - unfold scan_exp. destruct r as [|c r]; [done|]. specialize (Hx eq_refl). by destruct c.
  - unfold scan_exp. assert ((e =b x65) || (e =b x45) = true) as -> by (by destruct He; subst).
    rewrite <- app_assoc.
    assert (match sg ++ ds ++ r with
            | x2b :: t' => ([x2b], t') | x2d :: t' => ([x2d], t') | _ => ([], sg ++ ds ++ r) end
            = (sg, ds ++ r)) as ->.
    { destruct Hsg as [->|[->| ->]]; try done. destruct ds as [|d ds]; [done|].
      inversion_clear Hds. simpl. destruct d; done. }
    rewrite span_app by done. by destruct ds.
Qed.

Lemma exp_part_head ep r : exp_part ep -> not_digit_head r -> not_digit_head (ep ++ r).
Proof. intros [->|(e & sg & ds & -> & [-> | ->] & _)] Hr; done. Qed.

Lemma frac_part_head fp r : frac_part fp -> not_digit_head r -> not_digit_head (fp ++ r).
Proof. intros [->|(ds & -> & _)] Hr; done. Qed.

Lemma scan_number_complete lex b rest :
  jnumber lex b -> number_follow rest -> scan_number (lex ++ rest) = Some (lex, b, rest).
Proof.
  intros (sg & ip & fp & ep & -> & Hsg & Hi & Hf & He & ->) Hfo.
  assert (Hr : not_digit_head rest) by (destruct rest; [done|apply Hfo]).
  unfold scan_number. rewrite <- !app_assoc.
  assert (match sg ++ ip ++ fp ++ ep ++ rest with x2d :: t => ([x2d], t) | _ => ([], sg ++ ip ++ fp ++ ep ++ rest) end
          = (sg, ip ++ fp ++ ep ++ rest)) as ->.
  { destruct Hsg as [->| ->]; [|done]. cbn [app].
    destruct Hi as [->|(d & ds & -> & Hd & _)]; [done|]. simpl. by destruct d. }
  rewrite scan_int_complete by (done || by apply frac_part_head, exp_part_head). simpl.
  rewrite scan_frac_complete; [|done|by apply exp_part_head|]; simpl.
  2:{ intros _. destruct He as [->|(e & ? & ? & -> & [-> | ->] & _)]; try done. simpl.
      destruct rest as [|c rest]; [done|]. destruct Hfo as (_ & Hd & _). by destruct c. }
  rewrite scan_exp_complete; [done|done|done|].
  intros _. destruct rest as [|c rest]; [done|]. destruct Hfo as (_ & _ & Hd & HD).
  by destruct c.
Qed.

(** ** [std::from_chars] on numbers of the grammar *)

Lemma int_part_digits ip : int_part ip -> digits ip /\ ip <> [].
Proof.
  intros [->|(d & ds & -> & Hd & Hds)]; (split; [|done]).
  - by repeat constructor.
  - constructor; [by apply digit_19|done].
Qed.

Lemma scan_exponent_part ep r :
  exp_part ep -> not_digit_head r ->
  (ep = [] -> match r with x65 :: _ | x45 :: _ => False | _ => True end) ->
  exists e, scan_exponent (ep ++ r) = (e, length ep).
Proof.
  intros [->|(e & sg & ds & -> & He & Hsg & Hne & Hds)] Hr Hx; cbn [app].
  - exists 0. unfold scan_exponent. destruct r as [|c r]; [done|]. specialize (Hx eq_refl).
    by destruct c.
  - unfold scan_exponent. assert ((e =b x65) || (e =b x45) = true) as -> by (by destruct He; subst).
    rewrite <- app_assoc.
    assert (exists sgn, match sg ++ ds ++ r with
            | x2d :: t => (-1, 1%nat, t) | x2b :: t => (1, 1%nat, t)
            | _ => (1, 0%nat, sg ++ ds ++ r) end = (sgn, length sg, ds ++ r)) as [sgn ->].
    { destruct Hsg as [->|[->| ->]]; try (by eexists). destruct ds as [|d ds]; [done|].
      inversion_clear Hds. exists 1. simpl. by destruct d. }
    rewrite span_app by done. destruct ds; [done|]. eexists. f_equal.
    simpl. rewrite length_app. simpl. lia.
Qed.

Lemma frac_not_dot_head (ep : bytes) : exp_part ep -> match ep with x2e :: _ => False | _ => True end.
Proof. intros [->|(e & sg & ds & -> & [-> | ->] & _)]; done. Qed.

(** The whole lexeme is consumed; only the magnitude can be out of range. *)
Lemma from_chars_double_number lex b :
  jnumber lex b ->
  (exists v, from_chars_double lex = FcOk v (length lex)) \/
  from_chars_double lex = FcRange (length lex).
Proof.
  intros (sg & ip & fp & ep & -> & Hsg & Hi & Hf & He & _).
  destruct (int_part_digits ip Hi) as [Hid Hine].
  unfold from_chars_double.
  assert (exists neg, match sg ++ ip ++ fp ++ ep with
            x2d :: t => (true, t, 1%nat) | _ => (false, sg ++ ip ++ fp ++ ep, 0%nat) end
          = (neg, ip ++ fp ++ ep, length sg)) as [neg ->].
  { destruct Hsg as [->| ->]; [|by eexists]. exists false. cbn [app].
    destruct Hi as [->|(d & ds & -> & Hd & _)]; [done|]. simpl. by destruct d. }
  pose proof (exp_part_head ep [] He I) as Heh. rewrite app_nil_r in Heh.
  rewrite span_app by (done || by apply frac_part_head). destruct ip as [|i0 ip]; [done|].
  assert (exists fds, match fp ++ ep with
            | x2e :: t => let '(fp, s3) := span is_digit t in (fp, s3, (1 + length fp)%nat)
            | _ => ([], fp ++ ep, 0%nat) end = (fds, ep, length fp)) as [fds ->].
  { destruct Hf as [->|(ds & -> & Hne & Hds)]; cbn [app].
    - pose proof (frac_not_dot_head ep He). exists []. destruct ep as [|c ep]; [done|].
      by destruct c.
    - rewrite span_app by done. by exists ds. }
  destruct (scan_exponent_part ep [] He I) as [e Hse]; [done|]. rewrite app_nil_r in Hse.
  rewrite Hse. rewrite !length_app. rewrite !Nat.add_assoc.
  destruct (decimal_to_double _ _ _); [left; by eexists|by right].
Qed.

Lemma fc_full_double lex b :
  jnumber lex b ->
  (exists v, fc_full (from_chars_double lex) lex = Some v) \/
  (fc_full (from_chars_double lex) lex = None /\ is_fc_range (from_chars_double lex) = true).
Proof.
  intros H. destruct (from_chars_double_number lex b H) as [[v ->]| ->]; simpl; [|auto].
  rewrite Nat.eqb_refl. eauto.
Qed.

(** The value of an integer-form lexeme. *)
Definition int_value (lex : bytes) : Z :=
  match lex with x2d :: ds => - dec_value ds | _ => dec_value lex end.

Lemma jnumber_int lex :
  jnumber lex true -> exists sg ip, lex = sg ++ ip /\ (sg = [] \/ sg = [x2d]) /\ int_part ip.
Proof.
  intros (sg & ip & fp & ep & -> & Hsg & Hi & _ & _ & Hb).
  symmetry in Hb. apply bool_decide_eq_true in Hb as [-> ->].
  exists sg, ip. by rewrite !app_nil_r.
Qed.

Lemma jnumber_int_inv sg ip :
  (sg = [] \/ sg = [x2d]) -> int_part ip -> jnumber (sg ++ ip) true.
Proof.
  intros. exists sg, ip, [], []. rewrite !app_nil_r. split_and!; try done; by left.
Qed.

(** [std::from_chars] for the two integer types is exact on integer-form
    lexemes. *)
Lemma fc_full_signed lex :
  jnumber lex true ->
  fc_full (from_chars_signed int64_min int64_max lex) lex
  = if bool_decide (int64_min <= int_value lex <= int64_max) then Some (int_value lex) else None.
Proof.
  intros (sg & ip & -> & Hsg & Hi)%jnumber_int. destruct (int_part_digits ip Hi) as [Hd Hne].
  pose proof (dec_value_nonneg ip Hd) as Hv. unfold int64_min, int64_max.
  destruct Hsg as [->| ->]; cbn [app].
  - assert (from_chars_signed (-2^63) (2^63-1) ip = from_chars_unsigned (2^63-1) ip) as ->.
    { destruct ip as [|d ip]; [done|]. inversion_clear Hd. by destruct d. }
    assert (int_value ip = dec_value ip) as ->.
    { destruct ip as [|d ip]; [done|]. inversion_clear Hd. by destruct d. }
    unfold from_chars_unsigned. rewrite span_all by done. destruct ip as [|d ip]; [done|].
    destruct (Z.ltb_spec (2 ^ 63 - 1) (dec_value (d :: ip))).
    + rewrite bool_decide_eq_false_2 by lia. done.
    + rewrite bool_decide_eq_true_2 by lia. simpl. by rewrite Nat.eqb_refl.
  - simpl from_chars_signed. rewrite span_all by done. destruct ip as [|d ip]; [done|].
    cbn [int_value].
    destruct (Z.ltb_spec (- dec_value (d :: ip)) (- 2 ^ 63)).
    + rewrite bool_decide_eq_false_2 by lia. done.
    + rewrite bool_decide_eq_true_2 by lia. simpl. by rewrite Nat.eqb_refl.
Qed.

Lemma fc_full_unsigned ip :
  int_part ip ->
  fc_full (from_chars_unsigned uint64_max ip) ip
  = if bool_decide (dec_value ip <= uint64_max) then Some (dec_value ip) else None.
Proof.
  intros Hi. destruct (int_part_digits ip Hi) as [Hd Hne].
  unfold from_chars_unsigned. rewrite span_all by done. destruct ip as [|d ip]; [done|].
  destruct (Z.ltb_spec uint64_max (dec_value (d :: ip))).
  - rewrite bool_decide_eq_false_2 by lia. done.
  - rewrite bool_decide_eq_true_2 by lia. simpl. by rewrite Nat.eqb_refl.
Qed.

Lemma int_part_not_minus ip : int_part ip -> negative_lexeme ip = false.
Proof. intros [->|(d & ds & -> & Hd & _)]; [done|]. by destruct d. Qed.

Lemma int_value_pos ip : int_part ip -> int_value ip = dec_value ip.
Proof. intros [->|(d & ds & -> & Hd & _)]; [done|]. by destruct d. Qed.

(** What kind of node a number gets. *)
Inductive number_node (o l : nat) (sf : Z) (lex : bytes) (int_form : bool) : Node -> Prop :=
| nn_int : int_form = true -> int64_min <= int_value lex <= int64_max ->
    number_node o l sf lex int_form (make_number_int o l sf (int_value lex))
| nn_uint : int_form = true -> int64_max < int_value lex <= uint64_max ->
    number_node o l sf lex int_form (make_number_uint o l sf (int_value lex))
| nn_f64 v : (int_form = true -> int_value lex < int64_min \/ uint64_max < int_value lex) ->
    number_node o l sf lex int_form (make_number_f64 o l sf v int_form)
| nn_overflow : (int_form = true -> int_value lex < int64_min \/ uint64_max < int_value lex) ->
    number_node o l sf lex int_form (make_number_overflow o l sf int_form)
| nn_deferred : (int_form = true -> int_value lex < int64_min \/ uint64_max < int_value lex) ->
    number_node o l sf lex int_form (make_number_deferred o l sf).

(** Every number of the grammar gets a node, of the kind its value calls for. *)
Lemma build_number_node_ok o l sf lex b hint :
  jnumber lex b -> hint = Some b ->
  exists n, build_number_node_from_lexeme o l sf lex hint = Ok n /\ number_node o l sf lex b n.
Proof.
  intros Hj ->. unfold build_number_node_from_lexeme.
  assert (Hdbl : (b = true -> int_value lex < int64_min \/ uint64_max < int_value lex) ->
    exists n, match fc_full (from_chars_double lex) lex with
      | Some dv => if is_finite dv then Ok (make_number_f64 o l sf dv b)
                   else Ok (make_number_overflow o l sf b)
      | None => if is_fc_range (from_chars_double lex) then
          if kSlowFloatLexemeCopyLimit <? Z.of_nat (length lex)
          then Ok (make_number_overflow o l sf b) else Ok (make_number_deferred o l sf)
        else Unexpected (simple_error Stage_parse invalid_number
                (B "number rejected by std::from_chars: " ++ lex)) end = Ok n
      /\ number_node o l sf lex b n).
  { intros Hr. destruct (fc_full_double lex b Hj) as [[v ->]|[-> ->]].
    - destruct (is_finite v); eexists; split; try done; by constructor.
    - destruct (_ <? _); eexists; split; try done; by constructor. }
  destruct b; [|by apply Hdbl].
  rewrite fc_full_signed by done. case_bool_decide as Hs; [eexists; split; [done|by constructor]|].
  destruct (jnumber_int lex Hj) as (sg & ip & -> & Hsg & Hi).
  destruct (int_part_digits ip Hi) as [Hd _]. pose proof (dec_value_nonneg ip Hd).
  destruct Hsg as [->| ->]; cbn [app] in *.
  - rewrite int_part_not_minus, fc_full_unsigned by done.
    rewrite int_value_pos in * by done. unfold int64_min, int64_max in *.
    case_bool_decide as Hu; simpl.
    + rewrite <- (int_value_pos ip) by done. eexists. split; [done|].
      apply nn_uint; [done|]. rewrite int_value_pos by done. unfold int64_max. lia.
    + apply Hdbl. unfold int64_min. lia.
  - apply Hdbl. intros _. left. unfold int64_min, int64_max in *. cbn [int_value] in *. lia.
Qed.

(** The view of a number node: what [NodeRef::as_number] hands out. *)
Definition node_view (lex : bytes) (n : Node) : JsonNumberView := mkNumberView lex (payload n) (flags n).

(** The storage flags the parser ([0x03]) and the builder ([0]) use. *)
Definition storage_only (sf : Z) : Prop := sf = 0 \/ sf = Z.lor kStorageInputView kRawJsonSlice.

Ltac eval_flags :=
  repeat match goal with
  | |- context [has_flag ?a ?b] =>
      let r := eval vm_compute in (has_flag a b) in change (has_flag a b) with r
  end.

Ltac solve_view :=
  eval_flags; cbn;
  split; [intros Hz; simplify_eq; split_and!; first [done|lia]
         |intros; destruct_and?; simplify_eq; first [done|lia]].

Lemma node_view_i64 sf lex o l b n z :
  storage_only sf -> number_node o l sf lex b n ->
  to_i64 (node_view lex n) = Ok z <->
  b = true /\ z = int_value lex /\ int64_min <= int_value lex <= int64_max.
Proof.
  unfold int64_min, int64_max, to_i64, node_view.
  intros [-> | ->] [-> H| -> H|v H|H|H]; unfold uint64_max, int64_min, int64_max in *;
    try (destruct b; [specialize (H eq_refl)|clear H]); cbn; solve_view.
Qed.

Lemma node_view_u64 sf lex o l b n z :
  storage_only sf -> number_node o l sf lex b n ->
  (negative_lexeme lex = false -> b = true -> 0 <= int_value lex) ->
  to_u64 (node_view lex n) = Ok z <->
  b = true /\ negative_lexeme lex = false /\ z = int_value lex /\ int_value lex <= uint64_max.
Proof.
  unfold uint64_max, int64_max.
  intros Hsf Hn Hpos. unfold to_u64, node_view. cbn [lexeme_ raw_payload_ flags_].
  destruct (negative_lexeme lex).
  { split; [|intros (_ & ? & _); done]. destruct (negb _); done. }
  destruct Hsf as [-> | ->], Hn as [-> H| -> H|v H|H|H];
    unfold uint64_max, int64_min, int64_max in *;
    try (destruct b; [specialize (H eq_refl)|clear H]); cbn; eval_flags; cbn;
    try (destruct (Z.leb_spec 0 (int_value lex)); [rewrite u64_small by lia|]); solve_view.
Qed.

Lemma int_value_nonneg lex :
  jnumber lex true -> negative_lexeme lex = false -> 0 <= int_value lex.
Proof.
  intros (sg & ip & -> & [->| ->] & Hi)%jnumber_int Hn; [|done]. simpl in *.
  rewrite int_value_pos by done. by apply dec_value_nonneg, int_part_digits.
Qed.

(** ** [validate_number_lexeme] decides the grammar *)

Lemma skip_digits_at_spec fuel lex i :
  (length lex - i <= fuel)%nat ->
  skip_digits_at fuel lex i = (i + length (fst (span is_digit (drop i lex))))%nat /\
  drop (skip_digits_at fuel lex i) lex = snd (span is_digit (drop i lex)).
Proof.
  revert i. induction fuel as [|fuel IH]; intros i Hf; cbn [skip_digits_at].
  - rewrite drop_ge by lia. simpl. split; [lia|done].
  - destruct (lex !! i) as [c|] eqn:Ec.
    + rewrite (drop_S _ _ _ Ec). cbn [span]. destruct (is_digit c) eqn:Ed.
      * destruct (IH (S i)) as [H1 H2]; [lia|]. rewrite H2, H1.
        destruct (span is_digit (drop (S i) lex)); simpl. split; [lia|done].
      * simpl. rewrite (drop_S _ _ _ Ec). split; [lia|done].
    + apply lookup_ge_None in Ec. rewrite drop_ge by lia. simpl. split; [lia|done].
Qed.

Lemma lookup_drop_head {A} (l : list A) i : l !! i = head (drop i l).
Proof.
  destruct (l !! i) as [x|] eqn:E.
  - by rewrite (drop_S _ _ _ E).
  - apply lookup_ge_None in E. by rewrite drop_ge.
Qed.

Lemma span_nil_head (s : bytes) :
  match fst (span is_digit s) with [] => true | _ => false end
  = negb (match head s with Some c => is_digit c | None => false end).
Proof.
  destruct s as [|c s]; simpl; [done|]. destruct (is_digit c); [|done].
  by destruct (span is_digit s).
Qed.

(** The index code of each stage against the list scanner. *)
Definition stage_end (lex : bytes) (r : option nat) (sc : option (bytes * bytes)) : Prop :=
  match r, sc with
  | Some j, Some (_, rest) => rest = drop j lex /\ (j <= length lex)%nat
  | None, None => True
  | _, _ => False
  end.

Lemma skip_digits_le lex i : (i <= length lex)%nat -> (skip_digits_at (length lex) lex i <= length lex)%nat.
Proof.
  intros Hi. destruct (skip_digits_at_spec (length lex) lex i) as [-> _]; [lia|].
  destruct (span is_digit (drop i lex)) as [a b] eqn:E. apply span_spec in E as (E & _).
  apply (f_equal length) in E. rewrite length_app, length_drop in E. simpl. lia.
Qed.

Lemma stage_digits lex i (pre : bytes) :
  (i <= length lex)%nat ->
  stage_end lex (if digit_at lex i then Some (skip_digits_at (length lex) lex i) else None)
    (let '(ds, rest) := span is_digit (drop i lex) in
     match ds with [] => None | _ => Some (pre ++ ds, rest) end).
Proof.
  intros Hi. unfold digit_at. rewrite lookup_drop_head.
  pose proof (span_nil_head (drop i lex)) as Hh.
  destruct (skip_digits_at_spec (length lex) lex i) as [_ Hd]; [lia|].
  pose proof (skip_digits_le lex i Hi) as Hle.
  destruct (span is_digit (drop i lex)) as [ds rest]. simpl in *.
  destruct (head (drop i lex)) as [c|]; [destruct (is_digit c)|]; by destruct ds.
Qed.

Lemma stage_frac lex i :
  (i <= length lex)%nat ->
  stage_end lex (if char_at lex i (fun c => c =b x2e) then
                   if digit_at lex (S i) then Some (skip_digits_at (length lex) lex (S i)) else None
                 else Some i) (scan_frac (drop i lex)).
Proof.
  intros Hi. unfold char_at, scan_frac. destruct (lex !! i) as [c|] eqn:Ec.
  - pose proof (lookup_lt_Some _ _ _ Ec). rewrite (drop_S _ _ _ Ec).
    destruct (byte_eqb_spec c x2e) as [->|Hc].
    + apply (stage_digits lex (S i) [x2e]). lia.
    + destruct c; simpl; try done; by rewrite (drop_S _ _ _ Ec).
  - apply lookup_ge_None in Ec. rewrite drop_ge by lia. simpl. by rewrite drop_ge.
Qed.

Lemma stage_exp lex i :
  (i <= length lex)%nat ->
  stage_end lex (if char_at lex i (fun c => (c =b x65) || (c =b x45)) then
       let i := S i in
       let i := if char_at lex i (fun c => (c =b x2b) || (c =b x2d)) then S i else i in
       if digit_at lex i then Some (skip_digits_at (length lex) lex i) else None
     else Some i) (scan_exp (drop i lex)).
Proof.
  intros Hi. unfold char_at at 1, scan_exp. destruct (lex !! i) as [c|] eqn:Ec.
  2:{ apply lookup_ge_None in Ec. rewrite drop_ge by lia. simpl. by rewrite drop_ge. }
  pose proof (lookup_lt_Some _ _ _ Ec). rewrite (drop_S _ _ _ Ec).
  destruct ((c =b x65) || (c =b x45)); [|simpl; by rewrite (drop_S _ _ _ Ec)].
  cbv zeta. unfold char_at. destruct (lex !! S i) as [d|] eqn:Ed.
  2:{ apply lookup_ge_None in Ed. pose proof (stage_digits lex (S i) [c] ltac:(lia)) as H'.
      rewrite drop_ge in * by lia. exact H'. }
  pose proof (lookup_lt_Some _ _ _ Ed). rewrite (drop_S _ _ _ Ed).
  destruct (decide (d = x2b)) as [->|H1]; [apply (stage_digits lex (S (S i)) [c; x2b]); lia|].
  destruct (decide (d = x2d)) as [->|H2]; [apply (stage_digits lex (S (S i)) [c; x2d]); lia|].
  assert ((d =b x2b) || (d =b x2d) = false) as -> by (by destruct d).
  pose proof (stage_digits lex (S i) [c] ltac:(lia)) as H'. rewrite (drop_S _ _ _ Ed) in H'.
  by destruct d.
Qed.

(** The stages after the integer part, from index [i]. *)
Definition validate_tail (lex : bytes) (i : nat) : bool :=
  match (if char_at lex i (fun c => c =b x2e) then
           if digit_at lex (S i) then Some (skip_digits_at (length lex) lex (S i)) else None
         else Some i) with
  | None => false
  | Some i =>
      match (if char_at lex i (fun c => (c =b x65) || (c =b x45)) then
               let i := S i in
               let i := if char_at lex i (fun c => (c =b x2b) || (c =b x2d)) then S i else i in
               if digit_at lex i then Some (skip_digits_at (length lex) lex i) else None
             else Some i) with
      | None => false
      | Some i => (i =? length lex)%nat
      end
  end.

Lemma validate_tail_spec lex i :
  (i <= length lex)%nat ->
  validate_tail lex i = true <->
  exists fp s2 ep, scan_frac (drop i lex) = Some (fp, s2) /\ scan_exp s2 = Some (ep, []).
Proof.
  intros Hi. unfold validate_tail. pose proof (stage_frac lex i Hi) as Hf.
  destruct (if char_at lex i _ then _ else _) as [j|], (scan_frac (drop i lex)) as [[fp s2]|];
    simpl in Hf; try done; [|naive_solver].
  destruct Hf as [-> Hj]. pose proof (stage_exp lex j Hj) as He.
  destruct (if char_at lex j _ then _ else _) as [k|], (scan_exp (drop j lex)) as [[ep s3]|] eqn:E;
    simpl in He; try done; [|naive_solver].
  destruct He as [-> Hk]. rewrite Nat.eqb_eq. split.
  - intros ->. exists fp, (drop j lex), ep. by rewrite E, drop_all.
  - intros (? & ? & ? & [= <- <-] & E'). rewrite E in E'. injection E' as _ Hnil.
    apply (f_equal length) in Hnil. rewrite length_drop in Hnil. simpl in Hnil. lia.
Qed.

Lemma validate_tail_digit lex i c :
  lex !! i = Some c -> is_digit c = true -> validate_tail lex i = false.
Proof.
  intros Hc Hd. unfold validate_tail, char_at. rewrite Hc.
  assert (c <> x2e /\ (c =b x65) || (c =b x45) = false) as [H1 H2] by (split; by destruct c).
  destruct (byte_eqb_spec c x2e); [done|]. rewrite Hc, H2.
  apply Nat.eqb_neq. apply lookup_lt_Some in Hc. lia.
Qed.

Definition sign_len (lex : bytes) : nat := if negative_lexeme lex then 1%nat else 0%nat.

Lemma scan_number_unfold lex :
  scan_number lex =
  '(ip, s1) ← scan_int (drop (sign_len lex) lex);
  '(fp, s2) ← scan_frac s1;
  '(ep, s3) ← scan_exp s2;
  Some (take (sign_len lex) lex ++ ip ++ fp ++ ep, bool_decide (fp = [] /\ ep = []), s3).
Proof. destruct lex as [|c t]; [done|]. by destruct c. Qed.

(** The scanner reaches the end when each stage succeeds. *)
Definition scans_to_end (lex : bytes) : Prop :=
  exists ip s1 fp s2 ep, scan_int (drop (sign_len lex) lex) = Some (ip, s1) /\
    scan_frac s1 = Some (fp, s2) /\ scan_exp s2 = Some (ep, []).

Lemma scan_number_stages lex :
  (exists b, scan_number lex = Some (lex, b, [])) <-> scans_to_end lex.
Proof.
  split.
  - intros [b H]. rewrite scan_number_unfold in H.
    destruct (scan_int _) as [[ip s1]|] eqn:Ei; simpl in H; [|done].
    destruct (scan_frac _) as [[fp s2]|] eqn:Ef; simpl in H; [|done].
    destruct (scan_exp _) as [[ep s3]|] eqn:Ee; simpl in H; [|done].
    injection H as _ _ ->. by exists ip, s1, fp, s2, ep.
  - intros (ip & s1 & fp & s2 & ep & Ei & Ef & Ee).
    assert (H : scan_number lex = Some (take (sign_len lex) lex ++ ip ++ fp ++ ep,
                  bool_decide (fp = [] /\ ep = []), [])).
    { rewrite scan_number_unfold, Ei. simpl. rewrite Ef. simpl. by rewrite Ee. }
    eexists. rewrite H. apply scan_number_sound in H as [H _]. rewrite app_nil_r in H.
    by rewrite <- H.
Qed.

(** [validate_number_lexeme] is the sign, the integer part and the tail. *)
Lemma validate_number_unfold lex :
  validate_number_lexeme lex =
  match drop (sign_len lex) lex with
  | [] => false
  | d :: _ =>
      if d =b x30 then validate_tail lex (S (sign_len lex))
      else if in_range 49 57 d
           then validate_tail lex (skip_digits_at (length lex) lex (sign_len lex)) else false
  end.
Proof.
  unfold validate_number_lexeme. destruct lex as [|c t] eqn:El; [done|]. rewrite <- El.
  replace (length lex =? 0)%nat with false by (by subst).
  assert (char_at lex 0 (fun c => c =b x2d) = negative_lexeme lex) as -> by (subst; by destruct c).
  fold (sign_len lex). destruct (negative_lexeme lex && (length lex <=? sign_len lex)%nat) eqn:Eg.
  { bool_simp. by rewrite drop_ge. }
  clear Eg. unfold char_at at 1 2. rewrite lookup_drop_head.
  destruct (drop (sign_len lex) lex) as [|d ds]; simpl; [done|].
  destruct (d =b x30); [done|]. by destruct (in_range 49 57 d).
Qed.

Lemma digit_not_19 d : in_range 49 57 d = false -> d <> x30 -> is_digit d = false.
Proof.
  intros Er Hd. destruct (is_digit d) eqn:E; [|done]. destruct Hd.
  unfold is_digit, in_range in *. apply andb_false_iff in Er. bool_simp.
  apply byteZ_inj. cbn. destruct Er as [Er|Er]; bool_simp; lia.
Qed.

Lemma validate_number_scan lex : validate_number_lexeme lex = true <-> scans_to_end lex.
Proof.
  rewrite validate_number_unfold. unfold scans_to_end. set (i := sign_len lex).
  destruct (drop i lex) as [|d ds] eqn:Ed; [split; [done|]; intros; naive_solver|].
  assert (Hlk : lex !! i = Some d) by (by rewrite lookup_drop_head, Ed).
  assert (Hds : drop (S i) lex = ds) by (rewrite (drop_S _ _ _ Hlk) in Ed; by injection Ed).
  pose proof (lookup_lt_Some _ _ _ Hlk) as Hlt.
  destruct (byte_eqb_spec d x30) as [->|Hd0]; [|destruct (in_range 49 57 d) eqn:Er].
  - cbn [scan_int]. change (is_digit x30) with true. cbn iota.
    destruct ds as [|e es]; [rewrite validate_tail_spec, Hds by lia; simpl; naive_solver|].
    cbn [span]. destruct (is_digit e) eqn:Ee.
    + rewrite (validate_tail_digit lex (S i) e); [|by rewrite lookup_drop_head, Hds|done].
      destruct (span is_digit es). simpl. naive_solver.
    + rewrite validate_tail_spec, Hds by lia. simpl. naive_solver.
  - destruct (digit_19 d Er) as [Hdd _].
    rewrite validate_tail_spec by (apply skip_digits_le; lia).
    destruct (skip_digits_at_spec (length lex) lex i) as [_ ->]; [lia|]. rewrite Ed.
    cbn [scan_int span]. rewrite Hdd. destruct (span is_digit ds) as [a b]. simpl.
    destruct (byte_eqb_spec d x30); [done|]. simpl. naive_solver.
  - simpl. rewrite (digit_not_19 d) by done. naive_solver.
Qed.

Lemma validate_number_grammar lex :
  validate_number_lexeme lex = true <-> exists b, jnumber lex b.
Proof.
  rewrite validate_number_scan, <- scan_number_stages. split.
  - intros [b H]. exists b. by apply scan_number_sound in H as [_ H].
  - intros [b H]. exists b. pose proof (scan_number_complete lex b [] H I) as H'.
    by rewrite app_nil_r in H'.
Qed.
