(* ===== verification/JsonHash.v ===== *)
(** * JSON module: the object hash index

    [hash_name], [ObjHashTable::allocation_bytes], [clamped_capacity],
    [ObjHashTable::create], [build_table], [lookup_in] and [lookup_linear] of
    [src/src/json_api.cxx] and [src/src/json_storage.cxx]. The theorem: probing
    a table that [build_table] filled answers what the linear scan answers, for
    every name, seed and capacity. *)

From Stdlib Require Import ZArith Lia Strings.Byte String.
From stdpp Require Import base tactics option numbers list.
From S2P Require Import Prelude JsonTypes JsonStorage.

Definition kHashThreshold : nat := 32.
Definition kProbeChainMax : nat := 64.
Definition kMaxHashTableCapacity : Z := 2 ^ 30.
Definition kMaxHashIndexBytes : Z := 256 * 1024 * 1024.

(** [hash_name], the built-in provider: seeded FNV-1a with a final mix. *)
Definition hash_name (name : bytes) (seed : Z) : Z :=
  let h := fold_left (fun h c => u64 (Z.lxor h (byteZ c) * 1099511628211))
             name (Z.lxor 1469598103934665603 seed) in
  let h := Z.lxor h (Z.shiftr h 33) in
  let h := u64 (h * 0xff51afd7ed558ccd) in
  let h := Z.lxor h (Z.shiftr h 33) in
  u32 h.

(** [sizeof(ObjHashTable)] is 24, [sizeof(ObjHashSlot)] and the size of a
    pointer are 8. *)
Definition allocation_bytes (cap count : Z) : Z :=
  let bytes := 24 in
  if (size_max - bytes) / 8 <? cap then size_max
  else
    let bytes := bytes + 8 * cap in
    if (size_max - bytes) / 8 <? count then size_max
    else bytes + 8 * count.

Definition kEffectiveMax : Z :=
  let kSlotMax := kMaxHashIndexBytes / 8 in
  if kMaxHashTableCapacity <? kSlotMax then kMaxHashTableCapacity else kSlotMax.

(** [while (cap < target && cap < kEffectiveMax) cap <<= 1;] doubles at most
    32 times. *)
Fixpoint grow_capacity (fuel : nat) (target cap : Z) : Z :=
  match fuel with
  | O => cap
  | S fuel' =>
      if (cap <? target) && (cap <? kEffectiveMax)
      then grow_capacity fuel' target (u32 (Z.shiftl cap 1)) else cap
  end.

Fixpoint shrink_capacity (fuel : nat) (count cap : Z) : Z :=
  match fuel with
  | O => cap
  | S fuel' =>
      if (count <? cap) && (kMaxHashIndexBytes <? allocation_bytes cap count)
      then shrink_capacity fuel' count (Z.shiftr cap 1) else cap
  end.

Definition clamped_capacity (count : Z) : Z :=
  let target := if count <=? kEffectiveMax / 2 then u32 (count * 2) else kEffectiveMax in
  let cap := grow_capacity 32 target 1 in
  if cap <? count then 0
  else
    let cap := shrink_capacity 32 count cap in
    if kMaxHashIndexBytes <? allocation_bytes cap count then 0 else cap.

(** [ObjHashTable::create] after a successful allocation. *)
Definition create (cap : Z) (count : nat) (seed : Z) : ObjHashTable :=
  mkHashTable cap count seed (replicate (Z.to_nat cap) None) [].

(** [for (i = 0; i < mem_count; ++i)]: the first member with the name. *)
Fixpoint lookup_linear_from (ds : DocumentStorage) (mem_start : nat) (left i : nat) (name : bytes)
  : option nat :=
  match left with
  | O => None
  | S left' =>
      match object_members ds !! (mem_start + i)%nat with
      | None => None
      | Some m =>
          if (name_len m =? u32n (length name))%nat && bytes_eqb (member_name ds m) name
          then Some (val_node m)
          else lookup_linear_from ds mem_start left' (S i) name
      end
  end.

Definition lookup_linear (ds : DocumentStorage) (mem_start mem_count : nat) (name : bytes) : option nat :=
  lookup_linear_from ds mem_start mem_count 0 name.

(** [slot = (slot + 1) & mask], starting from [h & mask]. *)
Definition home_slot (ht : ObjHashTable) (h : Z) : Z := Z.land h (capacity ht - 1).
Definition next_slot (ht : ObjHashTable) (slot : Z) : Z := Z.land (u32 (slot + 1)) (capacity ht - 1).

(** The probe loop of [lookup_in]; [None] is "chain longer than the bound". *)
Fixpoint probe_lookup (ht : ObjHashTable) (ds : DocumentStorage) (mem_start : nat) (name : bytes)
  (h : Z) (left : nat) (slot : Z) : option (option nat) :=
  match left with
  | O => None
  | S left' =>
      match mjoin (slots ht !! Z.to_nat slot) with
      | None => Some None
      | Some s =>
          let hit :=
            if name_hash s =? h then
              match object_members ds !! (mem_start + member_index s)%nat with
              | Some m =>
                  if bytes_eqb (take (name_len m) (default [] (ptr_cache ht !! member_index s))) name
                  then Some (val_node m) else None
              | None => None
              end
            else None in
          match hit with
          | Some v => Some (Some v)
          | None => probe_lookup ht ds mem_start name h left' (next_slot ht slot)
          end
      end
  end.

Definition lookup_in (ht : ObjHashTable) (ds : DocumentStorage) (mem_start mem_count : nat)
  (name : bytes) : option nat :=
  let h := hash_name name (hash_seed ht) in
  match probe_lookup ht ds mem_start name h kProbeChainMax (home_slot ht h) with
  | Some r => r
  | None => lookup_linear ds mem_start mem_count name
  end.

(** The probe loop of [build_table]: the slot the member goes to. *)
Fixpoint probe_insert (ht : ObjHashTable) (left : nat) (slot : Z) : option Z :=
  match left with
  | O => None
  | S left' =>
      match mjoin (slots ht !! Z.to_nat slot) with
      | None => Some slot
      | Some _ => probe_insert ht left' (next_slot ht slot)
      end
  end.

Definition set_slot (slot : Z) (s : ObjHashSlot) (ht : ObjHashTable) : ObjHashTable :=
  mkHashTable (capacity ht) (member_count ht) (hash_seed ht)
    (<[Z.to_nat slot := Some s]> (slots ht)) (ptr_cache ht).

Definition push_ptr (sv : bytes) (ht : ObjHashTable) : ObjHashTable :=
  mkHashTable (capacity ht) (member_count ht) (hash_seed ht) (slots ht) (ptr_cache ht ++ [sv]).

Fixpoint build_from (ds : DocumentStorage) (mem_start : nat) (left i : nat) (ht : ObjHashTable)
  : bool * ObjHashTable :=
  match left with
  | O => (true, ht)
  | S left' =>
      match object_members ds !! (mem_start + i)%nat with
      | None => (false, ht)
      | Some m =>
          let sv := member_name ds m in
          let ht := push_ptr sv ht in
          let h := hash_name sv (hash_seed ht) in
          match probe_insert ht kProbeChainMax (home_slot ht h) with
          | Some slot => build_from ds mem_start left' (S i) (set_slot slot (mkSlot i h) ht)
          | None => (false, ht)
          end
      end
  end.

Definition build_table (ht : ObjHashTable) (ds : DocumentStorage) (mem_start mem_count : nat)
  : bool * ObjHashTable :=
  build_from ds mem_start mem_count 0 ht.

(** ** The table invariant *)

Lemma hash_name_range n s : 0 <= hash_name n s < 2 ^ 32.
Proof. unfold hash_name. apply Z.mod_pos_bound. lia. Qed.

#[local] Opaque hash_name kProbeChainMax.

(** The members of the object are in range and their names have the recorded
    32-bit length. *)
Definition members_ok (ds : DocumentStorage) (mem_start mem_count : nat) : Prop :=
  forall i, (i < mem_count)%nat -> exists m, object_members ds !! (mem_start + i)%nat = Some m /\
    length (member_name ds m) = name_len m /\ Z.of_nat (name_len m) < 2 ^ 32.

(** The slot probed after [p] steps. *)
Fixpoint probe_seq (ht : ObjHashTable) (p : nat) (slot : Z) : Z :=
  match p with O => slot | S p' => probe_seq ht p' (next_slot ht slot) end.

Section table.
Context (ds : DocumentStorage) (ms : nat).

Definition nth_name (i : nat) : bytes :=
  match object_members ds !! (ms + i)%nat with Some m => member_name ds m | None => [] end.

Definition slot_at (ht : ObjHashTable) (slot : Z) : option ObjHashSlot :=
  mjoin (slots ht !! Z.to_nat slot).

(** Member [j] sits [p] probes from its home, behind members inserted before
    it only. *)
Definition placed (ht : ObjHashTable) (j : nat) : Prop :=
  let h := hash_name (nth_name j) (hash_seed ht) in
  exists p, (p < kProbeChainMax)%nat /\
    slot_at ht (probe_seq ht p (home_slot ht h)) = Some (mkSlot j h) /\
    forall q, (q < p)%nat -> exists k, (k < j)%nat /\
      slot_at ht (probe_seq ht q (home_slot ht h))
      = Some (mkSlot k (hash_name (nth_name k) (hash_seed ht))).

Record table_inv (ht : ObjHashTable) (i : nat) : Prop := {
  inv_placed : forall j, (j < i)%nat -> placed ht j;
  inv_slots : forall slot s, slot_at ht slot = Some s ->
    (member_index s < i)%nat /\ name_hash s = hash_name (nth_name (member_index s)) (hash_seed ht);
  inv_cache : forall j, (j < i)%nat -> ptr_cache ht !! j = Some (nth_name j);
  inv_cache_len : length (ptr_cache ht) = i;
  inv_cap : 0 < capacity ht <= 2 ^ 32 /\ length (slots ht) = Z.to_nat (capacity ht)
}.

Lemma probe_seq_params a b p slot :
  capacity a = capacity b -> probe_seq a p slot = probe_seq b p slot.
Proof.
  intros Hc. revert slot. induction p as [|p IH]; intros slot; simpl; [done|].
  unfold next_slot. by rewrite Hc, IH.
Qed.

Lemma probe_seq_S ht p slot : probe_seq ht (S p) slot = next_slot ht (probe_seq ht p slot).
Proof. revert slot. induction p as [|p IH]; intros slot; [done|]. simpl. by rewrite <- IH. Qed.

Lemma land_mask_range a c : 0 <= a -> 0 < c -> 0 <= Z.land a (c - 1) < c.
Proof.
  intros Ha Hc. split; [apply Z.land_nonneg; lia|].
  rewrite <- (Z2N.id a), <- (Z2N.id (c - 1)), <- N2Z.inj_land by lia.
  pose proof (N.land_le_r (Z.to_N a) (Z.to_N (c - 1))). lia.
Qed.

Lemma probe_seq_range ht p h :
  0 < capacity ht -> 0 <= h -> 0 <= probe_seq ht p (home_slot ht h) < capacity ht.
Proof.
  intros Hc Hh. destruct p as [|p]; [by apply land_mask_range|].
  rewrite probe_seq_S. apply land_mask_range; [|done]. apply Z.mod_pos_bound. lia.
Qed.

Lemma probe_insert_spec ht left slot r :
  probe_insert ht left slot = Some r ->
  exists p, (p < left)%nat /\ r = probe_seq ht p slot /\ slot_at ht r = None /\
    forall q, (q < p)%nat -> slot_at ht (probe_seq ht q slot) <> None.
Proof.
  revert slot. induction left as [|left IH]; intros slot; simpl; [done|].
  destruct (mjoin (slots ht !! Z.to_nat slot)) eqn:E.
  - intros (p & Hp & -> & Hn & Hq)%IH. exists (S p). split_and!; [lia|done|done|].
    intros [|q] Hlt; simpl; [unfold slot_at; congruence|]. apply Hq. lia.
  - intros [= <-]. exists 0%nat. split_and!; [lia|done|done|lia].
Qed.

Lemma slot_at_set ht slot s x :
  0 <= slot < Z.of_nat (length (slots ht)) -> 0 <= x ->
  slot_at (set_slot slot s ht) x = if x =? slot then Some s else slot_at ht x.
Proof.
  intros Hs Hx. unfold slot_at, set_slot. simpl. destruct (Z.eqb_spec x slot) as [->|Hne].
  - rewrite list_lookup_insert_eq; [done|lia].
  - rewrite list_lookup_insert_ne; [done|]. intros H. apply Hne.
    apply (f_equal Z.of_nat) in H. rewrite !Z2Nat.id in H by lia. done.
Qed.

(** Filling a free slot leaves the members placed before where they were. *)
Lemma slot_kept ht slot s sv x t :
  0 <= slot < Z.of_nat (length (slots ht)) -> 0 <= x -> slot_at ht slot = None ->
  slot_at ht x = Some t -> slot_at (set_slot slot s (push_ptr sv ht)) x = Some t.
Proof.
  intros Hs Hx Hn Ht. rewrite slot_at_set by done. destruct (Z.eqb_spec x slot) as [->|]; [|done].
  congruence.
Qed.

Lemma placed_kept ht slot s sv j :
  0 < capacity ht -> 0 <= slot < Z.of_nat (length (slots ht)) -> slot_at ht slot = None ->
  placed ht j -> placed (set_slot slot s (push_ptr sv ht)) j.
Proof.
  intros Hc Hs Hn (p & Hp & Hat & Hq). exists p.
  assert (Hr : forall q, 0 <= probe_seq ht q (home_slot ht (hash_name (nth_name j) (hash_seed ht)))).
  { intros q. apply probe_seq_range; [done|apply hash_name_range]. }
  set (ht2 := set_slot _ _ _).
  assert (Hseq : forall q x, probe_seq ht2 q x = probe_seq ht q x)
    by (intros; by apply probe_seq_params).
  split_and!; [done| |].
  - rewrite Hseq. by apply slot_kept; [| |done|apply Hat].
  - intros q Hlt. destruct (Hq q Hlt) as (k & Hk & Ek). exists k. split; [done|].
    rewrite Hseq. by apply slot_kept; [| |done|apply Ek].
Qed.

Lemma placed_new ht i slot :
  table_inv ht i ->
  let ht1 := push_ptr (nth_name i) ht in
  let h := hash_name (nth_name i) (hash_seed ht1) in
  probe_insert ht1 kProbeChainMax (home_slot ht1 h) = Some slot ->
  0 <= slot < Z.of_nat (length (slots ht)) /\ slot_at ht slot = None /\
  placed (set_slot slot (mkSlot i h) ht1) i.
Proof.
  intros [_ Hs _ _ [Hcap Hlen]] ht1 h (p & Hpl & -> & Hnone & Hbefore)%probe_insert_spec.
  assert (Hr : forall q, 0 <= probe_seq ht1 q (home_slot ht1 h) < Z.of_nat (length (slots ht))).
  { intros q. rewrite Hlen, Z2Nat.id by lia. apply (probe_seq_range ht1); [simpl; lia|apply hash_name_range]. }
  split_and!; [apply Hr|apply Hr|exact Hnone|].
  set (ht2 := set_slot _ _ ht1).
  assert (Hseq : forall q x, probe_seq ht2 q x = probe_seq ht1 q x)
    by (intros; by apply probe_seq_params).
  exists p. split_and!; [done| |].
  - rewrite Hseq. unfold ht2. rewrite slot_at_set by apply Hr. by rewrite Z.eqb_refl.
  - intros q Hq. specialize (Hbefore q Hq). rewrite Hseq.
    destruct (slot_at ht1 (probe_seq ht1 q (home_slot ht1 h))) as [[k hk]|] eqn:Ek; [|done].
    destruct (Hs _ _ Ek) as [Hk Hkh]. simpl in *. exists k. split; [done|].
    rewrite <- Hkh. apply slot_kept; try done; apply Hr.
Qed.

(** Inserting the next member keeps the invariant. *)
Lemma table_inv_step ht i slot :
  table_inv ht i ->
  let ht1 := push_ptr (nth_name i) ht in
  let h := hash_name (nth_name i) (hash_seed ht1) in
  probe_insert ht1 kProbeChainMax (home_slot ht1 h) = Some slot ->
  table_inv (set_slot slot (mkSlot i h) ht1) (S i).
Proof.
  intros Hinv ht1 h Hins. destruct (placed_new ht i slot Hinv Hins) as (Hr & Hfree & Hnew).
  destruct Hinv as [Hp Hs Hc Hcl [Hcap Hlen]]. constructor.
  - intros j Hj. destruct (decide (j = i)) as [->|Hne]; [exact Hnew|].
    apply placed_kept; [lia|done|done|]. apply Hp. lia.
  - intros x s E.
    assert (Hx : slot_at (set_slot slot (mkSlot i h) ht1) (Z.of_nat (Z.to_nat x)) = Some s)
      by (unfold slot_at in *; by rewrite Nat2Z.id).
    rewrite slot_at_set in Hx by (done || lia).
    destruct (_ =? _); [injection Hx as <-; simpl; split; [lia|done]|].
    destruct (Hs _ _ Hx). split; [lia|done].
  - intros j Hj. simpl. destruct (decide (j = i)) as [->|Hne].
    + by rewrite <- Hcl, list_lookup_middle.
    + rewrite lookup_app_l by lia. apply Hc. lia.
  - simpl. rewrite length_app. simpl. lia.
  - split; [done|]. simpl. by rewrite length_insert.
Qed.

Lemma build_from_inv left i ht ht' :
  table_inv ht i -> build_from ds ms left i ht = (true, ht') ->
  table_inv ht' (i + left) /\ hash_seed ht' = hash_seed ht.
Proof.
  revert i ht. induction left as [|left IH]; intros i ht Hinv; cbn [build_from].
  - intros [= <-]. by rewrite Nat.add_0_r.
  - destruct (object_members ds !! (ms + i)%nat) as [m|] eqn:Em; [|done].
    assert (nth_name i = member_name ds m) as <- by (unfold nth_name; by rewrite Em).
    destruct (probe_insert _ _ _) as [slot|] eqn:Ei; [|done]. intros H.
    destruct (IH _ _ (table_inv_step ht i slot Hinv Ei) H) as [? ->].
    replace (i + S left)%nat with (S i + left)%nat by lia. done.
Qed.

Lemma create_inv cap n seed : 0 < cap <= 2 ^ 32 -> table_inv (create cap n seed) 0.
Proof.
  intros Hc. constructor; simpl; try lia; [|by rewrite length_replicate].
  intros slot s. unfold slot_at. simpl.
  destruct (replicate (Z.to_nat cap) None !! Z.to_nat slot) eqn:E; [|done].
  apply lookup_replicate in E as [-> _]. done.
Qed.

(** ** Probing agrees with the linear scan *)

Lemma lookup_linear_spec left i name :
  members_ok ds ms (i + left) ->
  match lookup_linear_from ds ms left i name with
  | Some v => exists j m, (i <= j < i + left)%nat /\ object_members ds !! (ms + j)%nat = Some m /\
      v = val_node m /\ nth_name j = name /\ forall k, (i <= k < j)%nat -> nth_name k <> name
  | None => forall k, (i <= k < i + left)%nat -> nth_name k <> name
  end.
Proof.
  revert i. induction left as [|left IH]; intros i Hok; simpl; [lia|].
  destruct (Hok i ltac:(lia)) as (m & Hm & Hlen & H32). rewrite Hm.
  assert (Hn : nth_name i = member_name ds m) by (unfold nth_name; by rewrite Hm).
  specialize (IH (S i) ltac:(by replace (S i + left)%nat with (i + S left)%nat by lia)).
  destruct (bytes_eqb (member_name ds m) name) eqn:E; bool_simp.
  - rewrite <- E, Hlen, u32n_small, Nat.eqb_refl by done. simpl. exists i, m.
    split_and!; [lia|lia|done|done|congruence|lia].
  - rewrite andb_false_r. destruct (lookup_linear_from _ _ _ _ _) as [v|].
    + destruct IH as (j & m' & Hj & Hm' & -> & Hnm & Hk). exists j, m'.
      split_and!; [lia|lia|done|done|done|]. intros k Hlt.
      destruct (decide (k = i)) as [->|]; [congruence|]. apply Hk. lia.
    + intros k Hk. destruct (decide (k = i)) as [->|]; [congruence|]. apply IH. lia.
Qed.

(** The test of one probe: it hits exactly on a member with the name. *)
Lemma probe_hit ht n name s :
  members_ok ds ms n -> table_inv ht n ->
  (member_index s < n)%nat -> name_hash s = hash_name (nth_name (member_index s)) (hash_seed ht) ->
  (if name_hash s =? hash_name name (hash_seed ht) then
     match object_members ds !! (ms + member_index s)%nat with
     | Some m => if bytes_eqb (take (name_len m) (default [] (ptr_cache ht !! member_index s))) name
                 then Some (val_node m) else None
     | None => None
     end
   else None)
  = if bytes_eqb (nth_name (member_index s)) name
    then val_node <$> object_members ds !! (ms + member_index s)%nat else None.
Proof.
  intros Hok Hinv Hi Hh. destruct (Hok _ Hi) as (m & Hm & Hlen & _).
  assert (Hn : nth_name (member_index s) = member_name ds m) by (unfold nth_name; by rewrite Hm).
  rewrite (inv_cache _ _ Hinv) by done. rewrite Hm, Hn. simpl.
  rewrite take_ge by lia. rewrite Hh, Hn.
  destruct (bytes_eqb (member_name ds m) name) eqn:E; bool_simp.
  - by rewrite E, Z.eqb_refl.
  - by destruct (_ =? _).
Qed.

Lemma probe_lookup_found ht n name j m left q :
  members_ok ds ms n -> table_inv ht n -> (j < n)%nat ->
  object_members ds !! (ms + j)%nat = Some m -> nth_name j = name ->
  (forall k, (k < j)%nat -> nth_name k <> name) ->
  let h := hash_name name (hash_seed ht) in
  forall p, (q <= p)%nat -> (p - q < left)%nat ->
  slot_at ht (probe_seq ht p (home_slot ht h)) = Some (mkSlot j h) ->
  (forall r, (r < p)%nat -> exists k, (k < j)%nat /\
      slot_at ht (probe_seq ht r (home_slot ht h)) = Some (mkSlot k (hash_name (nth_name k) (hash_seed ht)))) ->
  probe_lookup ht ds ms name h left (probe_seq ht q (home_slot ht h)) = Some (Some (val_node m)).
Proof.
  intros Hok Hinv Hj Hm Hnm Hfirst h p. subst h. revert left.
  induction (p - q)%nat as [|d IH] eqn:Ed in q |- *; intros left Hq Hl Hat Hbefore;
    (destruct left as [|left]; [lia|]); cbn [probe_lookup].
  - assert (q = p) as -> by lia. unfold slot_at in Hat. rewrite Hat.
    rewrite (probe_hit ht n) by (done || (simpl; by rewrite Hnm)). simpl.
    by rewrite Hnm, bytes_eqb_refl, Hm.
  - destruct (Hbefore q ltac:(lia)) as (k & Hk & Ek). unfold slot_at in Ek. rewrite Ek.
    rewrite (probe_hit ht n) by (done || (simpl; lia)). simpl.
    destruct (bytes_eqb (nth_name k) name) eqn:E; bool_simp; [by destruct (Hfirst k Hk)|].
    rewrite <- probe_seq_S. apply IH; try done; lia.
Qed.

Lemma probe_lookup_absent ht n name left slot :
  members_ok ds ms n -> table_inv ht n -> (forall k, (k < n)%nat -> nth_name k <> name) ->
  probe_lookup ht ds ms name (hash_name name (hash_seed ht)) left slot = None \/
  probe_lookup ht ds ms name (hash_name name (hash_seed ht)) left slot = Some None.
Proof.
  intros Hok Hinv Hno. revert slot. induction left as [|left IH]; intros slot; [by left|].
  cbn [probe_lookup]. destruct (mjoin (slots ht !! Z.to_nat slot)) as [s|] eqn:E; [|by right].
  destruct (inv_slots _ _ Hinv _ _ E) as [Hi Hh]. rewrite (probe_hit ht n) by done.
  destruct (bytes_eqb _ name) eqn:Eb; bool_simp; [by destruct (Hno _ Hi)|]. apply IH.
Qed.

(** The answer of a filled table. *)
Lemma lookup_in_linear ht n name :
  members_ok ds ms n -> table_inv ht n -> lookup_in ht ds ms n name = lookup_linear ds ms n name.
Proof.
  intros Hok Hinv. unfold lookup_in. pose proof (lookup_linear_spec n 0 name Hok) as Hlin.
  fold (lookup_linear ds ms n name) in Hlin. destruct (lookup_linear ds ms n name) as [v|] eqn:El.
  - destruct Hlin as (j & m & Hj & Hm & -> & Hnm & Hfirst).
    destruct (inv_placed _ _ Hinv j ltac:(lia)) as (p & Hp & Hat & Hbefore). rewrite Hnm in *.
    pose proof (probe_lookup_found ht n name j m kProbeChainMax 0) as Hf. simpl in Hf.
    rewrite (Hf Hok Hinv ltac:(lia) Hm Hnm) with (p := p); try done; try lia.
    intros k Hk. apply Hfirst. lia.
  - destruct (probe_lookup_absent ht n name kProbeChainMax (home_slot ht (hash_name name (hash_seed ht))))
      as [-> | ->]; try done. intros k Hk. apply Hlin. lia.
Qed.
End table.

(** A table built over an object answers as the linear scan does. *)
Lemma build_table_lookup ds ms n cap seed ht name :
  members_ok ds ms n -> 0 < cap <= 2 ^ 32 ->
  build_table (create cap n seed) ds ms n = (true, ht) ->
  lookup_in ht ds ms n name = lookup_linear ds ms n name.
Proof.
  intros Hok Hc Hb. apply lookup_in_linear; [done|].
  by apply (build_from_inv ds ms n 0 (create cap n seed) ht (create_inv ds ms cap n seed Hc)).
Qed.

(** The invariant depends on the storage only through the names. *)
Lemma table_inv_names a b oa ob ht n :
  (forall j, (j < n)%nat -> nth_name a oa j = nth_name b ob j) -> table_inv a oa ht n -> table_inv b ob ht n.
Proof.
  intros Hn [Hp Hs Hc Hl Hcap]. constructor; try done.
  - intros j Hj. destruct (Hp j Hj) as (p & Hlt & Hat & Hq). unfold placed. rewrite <- Hn by done.
    exists p. split_and!; [done|done|]. intros q Hqp. destruct (Hq q Hqp) as (k & Hk & Hsk).
    exists k. rewrite <- Hn by lia. done.
  - intros slot s Hat. destruct (Hs slot s Hat) as [Hlt Hh]. split; [done|]. by rewrite <- Hn.
  - intros j Hj. rewrite <- Hn by done. by apply Hc.
Qed.

(** [clamped_capacity] is zero or a power of two within the byte budget. *)
Lemma grow_capacity_pow2 fuel target a :
  0 <= a <= 25 -> exists b, grow_capacity fuel target (2 ^ a) = 2 ^ b /\ 0 <= b <= 25.
Proof.
  revert a. induction fuel as [|fuel IH]; intros a Ha; cbn [grow_capacity]; [by exists a|].
  destruct ((2 ^ a <? target) && (2 ^ a <? kEffectiveMax)) eqn:E; [|by exists a].
  bool_simp. change kEffectiveMax with (2 ^ 25) in *.
  assert (a < 25) by (apply (Z.pow_lt_mono_r_iff 2); lia).
  rewrite Z.shiftl_mul_pow2, <- Z.pow_add_r by lia.
  rewrite u32_small; [apply IH; lia|].
  split; [apply Z.pow_nonneg; lia|]. apply Z.pow_lt_mono_r; lia.
Qed.

Lemma shrink_capacity_pow2 fuel count a :
  0 <= a <= 25 -> 0 <= count ->
  exists b, shrink_capacity fuel count (2 ^ a) = 2 ^ b /\ 0 <= b <= 25.
Proof.
  intros Ha Hc. revert a Ha. induction fuel as [|fuel IH]; intros a Ha; cbn [shrink_capacity]; [by exists a|].
  destruct ((count <? 2 ^ a) && (kMaxHashIndexBytes <? allocation_bytes (2 ^ a) count)) eqn:E; [|by exists a].
  bool_simp. assert (a <> 0).
  { intros ->. assert (count = 0) as -> by lia. by vm_compute in H0. }
  rewrite Z.shiftr_div_pow2 by lia. change (2 ^ 1) with 2.
  replace (2 ^ a) with (2 ^ (a - 1) * 2).
  - rewrite Z.div_mul by lia. apply IH. lia.
  - rewrite Z.mul_comm, <- Z.pow_succ_r by lia. f_equal. lia.
Qed.

Lemma clamped_capacity_ok count :
  0 <= count ->
  clamped_capacity count = 0 \/
  exists b, clamped_capacity count = 2 ^ b /\ 0 <= b <= 25 /\
    allocation_bytes (2 ^ b) count <= kMaxHashIndexBytes.
Proof.
  intros Hc. unfold clamped_capacity. set (target := if count <=? kEffectiveMax / 2 then u32 (count * 2) else kEffectiveMax).
  destruct (grow_capacity_pow2 32 target 0) as (a & Ha & Hra); [lia|].
  change (2 ^ 0) with 1 in Ha. rewrite Ha. destruct (_ <? count); [by left|].
  destruct (shrink_capacity_pow2 32 count a) as (b & Hb & Hrb); [done|done|]. rewrite Hb.
  destruct (Z.ltb_spec kMaxHashIndexBytes (allocation_bytes (2 ^ b) count)); [by left|right].
  by exists b.
Qed.

Lemma clamped_capacity_range count :
  0 <= count -> 0 < clamped_capacity count -> 0 < clamped_capacity count <= 2 ^ 32.
Proof.
  intros Hc Hp. split; [done|]. destruct (clamped_capacity_ok count Hc) as [->|(b & -> & Hb & _)]; [lia|].
  apply Z.pow_le_mono_r; lia.
Qed.
