(* ===== verification/JsonSpec.v ===== *)
(** * JSON module: the reference reader

    The specification side of the parser. [jval] is the value of a text;
    [spec_parse] is a reference reader, a plain recursive descent over the
    remaining input without positions, storage or vector code, for the strict
    mode and for the JSON5 subset. The implementation is proved equal to the
    reader in [JsonRefine]; the reader is compared with the grammar in
    [JsonGrammar] and [JsonRfc]. *)

From Stdlib Require Import ZArith Lia Strings.Byte String.
From stdpp Require Import base tactics option numbers list.
From S2P Require Import Prelude JsonTypes JsonNumber.

(** ** Values *)

Inductive jval :=
| JNull
| JBool (b : bool)
| JNum (lexeme : bytes)
| JStr (s : bytes)
| JArr (vs : list jval)
| JObj (ms : list (bytes * jval)).

(** Induction over the nested lists. *)
Section jval_ind.
Context (P : jval -> Prop).
Context (Hnull : P JNull) (Hbool : forall b, P (JBool b)) (Hnum : forall l, P (JNum l))
  (Hstr : forall s, P (JStr s)) (Harr : forall vs, Forall P vs -> P (JArr vs))
  (Hobj : forall ms, Forall (fun m => P (snd m)) ms -> P (JObj ms)).

Fixpoint jval_nested_ind (v : jval) : P v :=
  match v with
  | JNull => Hnull
  | JBool b => Hbool b
  | JNum l => Hnum l
  | JStr s => Hstr s
  | JArr vs =>
      Harr vs ((fix go l : Forall P l :=
        match l with [] => Forall_nil_2 _ | x :: l' => Forall_cons_2 _ _ _ (jval_nested_ind x) (go l') end) vs)
  | JObj ms =>
      Hobj ms ((fix go l : Forall (fun m => P (snd m)) l :=
        match l with
        | [] => Forall_nil_2 _
        | x :: l' => Forall_cons_2 _ _ _ (jval_nested_ind (snd x)) (go l')
        end) ms)
  end.
End jval_ind.

(** ** UTF-8 and escapes *)

(** [utf8_seq_len] and [is_cont] of [json_reader_strings.cxx]. *)
Definition utf8_seq_len (lead : byte) : nat :=
  let c := byteZ lead in
  if c <? 0x80 then 1
  else if c <? 0xC2 then 0
  else if c <? 0xE0 then 2
  else if c <? 0xF0 then 3
  else if c <? 0xF5 then 4
  else 0.

Definition is_cont (c : byte) : bool := Z.land (byteZ c) 0xC0 =? 0x80.

(** [Tokenizer::append_utf8] and [utf8_encoded_len]: the encoding of a code
    point. *)
Definition encode_utf8 (cp : Z) : bytes :=
  if cp <? 0x80 then [byte_of_Z cp]
  else if cp <? 0x800 then
    [byte_of_Z (Z.lor 0xC0 (Z.shiftr cp 6)); byte_of_Z (Z.lor 0x80 (Z.land cp 0x3F))]
  else if cp <? 0x10000 then
    [byte_of_Z (Z.lor 0xE0 (Z.shiftr cp 12)); byte_of_Z (Z.lor 0x80 (Z.land (Z.shiftr cp 6) 0x3F));
     byte_of_Z (Z.lor 0x80 (Z.land cp 0x3F))]
  else
    [byte_of_Z (Z.lor 0xF0 (Z.shiftr cp 18)); byte_of_Z (Z.lor 0x80 (Z.land (Z.shiftr cp 12) 0x3F));
     byte_of_Z (Z.lor 0x80 (Z.land (Z.shiftr cp 6) 0x3F)); byte_of_Z (Z.lor 0x80 (Z.land cp 0x3F))].

Definition utf8_encoded_len (cp : Z) : nat :=
  if cp <? 0x80 then 1 else if cp <? 0x800 then 2 else if cp <? 0x10000 then 3 else 4.

Lemma encode_utf8_length cp : length (encode_utf8 cp) = utf8_encoded_len cp.
Proof.
  unfold encode_utf8, utf8_encoded_len.
  destruct (cp <? 0x80); [done|]. destruct (cp <? 0x800); [done|]. by destruct (cp <? 0x10000).
Qed.

(** One hexadecimal digit of either case. *)
Definition hex_val (c : byte) : option Z :=
  if in_range 48 57 c then Some (byteZ c - 48)
  else if in_range 97 102 c then Some (byteZ c - 97 + 10)
  else if in_range 65 70 c then Some (byteZ c - 65 + 10)
  else None.

Definition hex_step (acc d : Z) : Z := Z.lor (Z.shiftl acc 4) d.

(** Four of them at the front of the input. *)
Definition hex4_of (s : bytes) : option (Z * bytes) :=
  match s with
  | a :: b :: c :: d :: rest =>
      va ← hex_val a; vb ← hex_val b; vc ← hex_val c; vd ← hex_val d;
      Some (hex_step (hex_step (hex_step (hex_step 0 va) vb) vc) vd, rest)
  | _ => None
  end.

Lemma hex_val_range c v : hex_val c = Some v -> 0 <= v < 16.
Proof.
  unfold hex_val, in_range. intros H. repeat case_match; simplify_eq; bool_simp; lia.
Qed.

Lemma hex_step_val acc d : 0 <= d < 16 -> hex_step acc d = acc * 16 + d.
Proof. intros. unfold hex_step. by rewrite lor_shiftl_add. Qed.

(** The shape and the value of four digits. *)
Lemma hex4_of_Some s v t :
  hex4_of s = Some (v, t) ->
  exists a b c d va vb vc vd, s = [a; b; c; d] ++ t /\ hex_val a = Some va /\
    hex_val b = Some vb /\ hex_val c = Some vc /\ hex_val d = Some vd /\
    v = ((va * 16 + vb) * 16 + vc) * 16 + vd /\ 0 <= v < 0x10000.
Proof.
  destruct s as [|a [|b [|c [|d u]]]]; simpl; try done.
  destruct (hex_val a) as [va|] eqn:Ha; simpl; [|done].
  destruct (hex_val b) as [vb|] eqn:Hb; simpl; [|done].
  destruct (hex_val c) as [vc|] eqn:Hc; simpl; [|done].
  destruct (hex_val d) as [vd|] eqn:Hd; simpl; [|done].
  intros [= <- <-]. exists a, b, c, d, va, vb, vc, vd.
  apply hex_val_range in Ha as Ra, Hb as Rb, Hc as Rc, Hd as Rd.
  rewrite !hex_step_val by done. split_and!; try done; lia.
Qed.

Definition is_high_surrogate (cp : Z) : bool := (0xD800 <=? cp) && (cp <=? 0xDBFF).
Definition is_low_surrogate (cp : Z) : bool := (0xDC00 <=? cp) && (cp <=? 0xDFFF).

Definition combine_surrogates (hi lo : Z) : Z :=
  0x10000 + Z.shiftl (hi - 0xD800) 10 + (lo - 0xDC00).

(** ** Results *)

Inductive rres (A : Type) : Type :=
| ROk (a : A) (rest : bytes)
| RErr (c : JsonIssueCode)
| RFuel.
Arguments ROk {A} a rest.
Arguments RErr {A} c.
Arguments RFuel {A}.

Definition rmap {A B} (f : A -> B) (r : rres A) : rres B :=
  match r with ROk a rest => ROk (f a) rest | RErr c => RErr c | RFuel => RFuel end.

Definition rbind {A B} (r : rres A) (k : A -> bytes -> rres B) : rres B :=
  match r with ROk a rest => k a rest | RErr c => RErr c | RFuel => RFuel end.

(** ** Strings *)

(** What follows a backslash and [u]. *)
Definition spec_unicode (s : bytes) : rres Z :=
  match hex4_of s with
  | None => RErr invalid_unicode_escape
  | Some (cp, s1) =>
      if is_high_surrogate cp then
        match s1 with
        | c :: d :: s2 =>
            if (length s2 <? 4)%nat || negb (c =b x5c) || negb (d =b x75)
            then RErr invalid_unicode_escape
            else
              match hex4_of s2 with
              | Some (lo, s3) =>
                  if is_low_surrogate lo then ROk (combine_surrogates cp lo) s3
                  else RErr invalid_unicode_escape
              | None => RErr invalid_unicode_escape
              end
        | _ => RErr invalid_unicode_escape
        end
      else if is_low_surrogate cp then RErr invalid_unicode_escape
      else ROk cp s1
  end.

(** The one-character escapes; the apostrophe only in a single-quoted
    string. *)
Definition simple_escape (quote e : byte) : option byte :=
  match e with
  | x22 => Some x22
  | x5c => Some x5c
  | x2f => Some x2f
  | x62 => Some x08
  | x66 => Some x0c
  | x6e => Some x0a
  | x72 => Some x0d
  | x74 => Some x09
  | x27 => if quote =b x27 then Some x27 else None
  | _ => None
  end.

Definition spec_escape (quote : byte) (s : bytes) : rres bytes :=
  match s with
  | [] => RErr unexpected_eof
  | e :: t =>
      match simple_escape quote e with
      | Some c => ROk [c] t
      | None =>
          if e =b x75 then
            match spec_unicode t with
            | ROk cp rest => ROk (encode_utf8 cp) rest
            | RErr c => RErr c
            | RFuel => RFuel
            end
          else RErr syntax_error
      end
  end.

(** One multi-byte sequence (or one ASCII byte) copied as it is. *)
Definition spec_utf8 (s : bytes) : rres bytes :=
  match s with
  | [] => RErr unexpected_eof
  | c :: t =>
      let seq := utf8_seq_len c in
      if (seq =? 0)%nat then RErr invalid_utf8
      else if (length s <? seq)%nat then RErr invalid_utf8
      else if forallb is_cont (take (seq - 1) t) then ROk (take seq s) (drop seq s)
      else RErr invalid_utf8
  end.

(** One item of a string body: [inl] the closing quote, [inr] a decoded
    chunk. *)
Definition spec_item (quote : byte) (s : bytes) : rres (unit + bytes) :=
  match s with
  | [] => RErr unexpected_eof
  | c :: t =>
      if c =b quote then ROk (inl tt) t
      else if byteZ c <? 0x20 then RErr syntax_error
      else
        match (if c =b x5c then spec_escape quote t else spec_utf8 s) with
        | ROk ch rest => ROk (inr ch) rest
        | RErr e => RErr e
        | RFuel => RFuel
        end
  end.

Fixpoint spec_string_n (n : nat) (quote : byte) (s : bytes) : rres bytes :=
  match n with
  | O => RFuel
  | S n' =>
      match spec_item quote s with
      | ROk (inl _) rest => ROk [] rest
      | ROk (inr ch) rest => rmap (app ch) (spec_string_n n' quote rest)
      | RErr e => RErr e
      | RFuel => RFuel
      end
  end.

(** The body of a string after its opening quote; an item consumes at least
    one byte. *)
Definition spec_string (quote : byte) (s : bytes) : rres bytes :=
  spec_string_n (S (length s)) quote s.

(** *** An item consumes at least as much as it decodes *)

Lemma spec_unicode_length s cp r :
  spec_unicode s = ROk cp r -> (length r + utf8_encoded_len cp < length s)%nat.
Proof.
  unfold spec_unicode. destruct (hex4_of s) as [[v s1]|] eqn:E1; [|done].
  apply hex4_of_Some in E1 as (a & b & c & d & ? & ? & ? & ? & -> & _ & _ & _ & _ & _ & Hv). simpl.
  destruct (is_high_surrogate v).
  - destruct s1 as [|c1 [|d1 s2]]; try done. destruct (_ || _); [done|].
    destruct (hex4_of s2) as [[lo s3]|] eqn:E2; [|done].
    apply hex4_of_Some in E2 as (a2 & b2 & c2 & d2 & ? & ? & ? & ? & -> & _). simpl.
    destruct (is_low_surrogate lo); [|done]. intros [= <- <-].
    unfold utf8_encoded_len. repeat destruct (_ <? _); lia.
  - destruct (is_low_surrogate v); [done|]. intros [= <- <-]. unfold utf8_encoded_len.
    destruct (v <? 0x80); [lia|]. destruct (v <? 0x800); [lia|].
    destruct (Z.ltb_spec v 0x10000); lia.
Qed.

Lemma spec_utf8_split s ch r :
  spec_utf8 s = ROk ch r -> s = ch ++ r /\ ch <> [].
Proof.
  unfold spec_utf8. destruct s as [|c t]; [done|].
  destruct (Nat.eqb_spec (utf8_seq_len c) 0); [done|]. destruct (_ <? _)%nat; [done|].
  destruct (forallb _ _); [|done]. intros [= <- <-]. split; [by rewrite take_drop|].
  by destruct (utf8_seq_len c).
Qed.

Lemma spec_escape_length q s ch r :
  spec_escape q s = ROk ch r -> (length r + length ch <= length s)%nat /\ (length r < length s)%nat.
Proof.
  unfold spec_escape. destruct s as [|e t]; [done|].
  destruct (simple_escape q e) as [b|]; [intros [= <- <-]; simpl; lia|].
  destruct (e =b x75); [|done]. destruct (spec_unicode t) as [cp rr| |] eqn:E; try done.
  intros [= <- <-]. apply spec_unicode_length in E. rewrite encode_utf8_length. simpl. lia.
Qed.

Lemma spec_item_length q s x r :
  spec_item q s = ROk x r ->
  (length r + match x with inl _ => 0 | inr ch => length ch end <= length s)%nat /\
  (length r < length s)%nat.
Proof.
  unfold spec_item. destruct s as [|c t]; [done|].
  destruct (c =b q); [intros [= <- <-]; simpl; lia|]. destruct (byteZ c <? 0x20); [done|].
  destruct (c =b x5c).
  - destruct (spec_escape q t) as [ch rr| |] eqn:E; try done. intros [= <- <-].
    apply spec_escape_length in E. simpl. lia.
  - destruct (spec_utf8 (c :: t)) as [ch rr| |] eqn:E; try done. intros [= <- <-].
    apply spec_utf8_split in E as [-> Hne]. rewrite length_app. destruct ch; [done|]. simpl. lia.
Qed.

Lemma spec_string_n_length n q s d r :
  spec_string_n n q s = ROk d r -> (length r + length d < length s)%nat.
Proof.
  revert s d r. induction n as [|n IH]; intros s d r; simpl; [done|].
  destruct (spec_item q s) as [[u|ch] rr| |] eqn:E; try done.
  - intros [= <- <-]. apply spec_item_length in E. simpl. lia.
  - apply spec_item_length in E as [H1 H2].
    destruct (spec_string_n n q rr) as [d' r'| |] eqn:E'; try done. intros [= <- <-].
    apply IH in E'. rewrite length_app. lia.
Qed.

(** More fuel than bytes changes nothing. *)
Lemma spec_string_n_fuel n m q s :
  (length s < n)%nat -> (length s < m)%nat -> spec_string_n n q s = spec_string_n m q s.
Proof.
  revert m s. induction n as [|n IH]; intros m s Hn Hm; [lia|]. destruct m as [|m]; [lia|]. simpl.
  destruct (spec_item q s) as [[u|ch] rr| |] eqn:E; try done.
  apply spec_item_length in E as [_ H]. by rewrite (IH m) by lia.
Qed.

Lemma spec_string_step q s :
  spec_string q s =
  match spec_item q s with
  | ROk (inl _) rest => ROk [] rest
  | ROk (inr ch) rest => rmap (app ch) (spec_string q rest)
  | RErr e => RErr e
  | RFuel => RFuel
  end.
Proof.
  unfold spec_string at 1. cbn [spec_string_n].
  destruct (spec_item q s) as [[u|ch] rr| |] eqn:E; try done.
  apply spec_item_length in E as [_ H]. unfold spec_string.
  by rewrite (spec_string_n_fuel (length s) (S (length rr))) by lia.
Qed.

Lemma spec_string_n_no_fuel n q s : (length s < n)%nat -> spec_string_n n q s <> RFuel.
Proof.
  revert s. induction n as [|n IH]; intros s Hn; [lia|]. simpl.
  destruct (spec_item q s) as [[u|ch] rr| |] eqn:E; try done.
  - apply spec_item_length in E as [_ H]. specialize (IH rr ltac:(lia)).
    by destruct (spec_string_n n q rr).
  - unfold spec_item in E. destruct s as [|c t]; [done|]. destruct (c =b q); [done|].
    destruct (byteZ c <? 0x20); [done|]. destruct (c =b x5c).
    + unfold spec_escape in E. destruct t as [|e t]; [done|].
      destruct (simple_escape q e); [done|]. destruct (e =b x75); [|done].
      unfold spec_unicode in E. repeat case_match; done.
    + unfold spec_utf8 in E. repeat case_match; done.
Qed.

(** ** White space and comments *)

Definition is_blank (c : byte) : bool := (c =b x0a) || (c =b x20) || (c =b x09) || (c =b x0d).

Fixpoint spec_blanks (s : bytes) : bytes :=
  match s with
  | [] => []
  | c :: t => if is_blank c then spec_blanks t else s
  end.

Fixpoint spec_line_comment (s : bytes) : bytes :=
  match s with
  | [] => []
  | c :: t => if c =b x0a then s else spec_line_comment t
  end.

Fixpoint spec_block_comment (s : bytes) : option bytes :=
  match s with
  | [] => None
  | c :: t =>
      match t with
      | d :: u => if (c =b x2a) && (d =b x2f) then Some u else spec_block_comment t
      | [] => None
      end
  end.

(** [None] is an unterminated block comment. *)
Fixpoint spec_ws_n (n : nat) (m : ParseMode) (s : bytes) : option bytes :=
  match n with
  | O => Some s
  | S n' =>
      let s := spec_blanks s in
      match m with
      | strict => Some s
      | json5 =>
          match s with
          | c :: d :: t =>
              if negb (c =b x2f) then Some s
              else if d =b x2f then spec_ws_n n' m (spec_line_comment t)
              else if d =b x2a then t' ← spec_block_comment t; spec_ws_n n' m t'
              else Some s
          | _ => Some s
          end
      end
  end.

Definition spec_ws (m : ParseMode) (s : bytes) : option bytes := spec_ws_n (S (length s)) m s.

Lemma spec_blanks_length s : (length (spec_blanks s) <= length s)%nat.
Proof. induction s as [|c s IH]; simpl; [done|]. destruct (is_blank c); simpl; lia. Qed.

Lemma spec_line_comment_length s : (length (spec_line_comment s) <= length s)%nat.
Proof. induction s as [|c s IH]; simpl; [done|]. destruct (c =b x0a); simpl; lia. Qed.

Lemma spec_block_comment_length s t : spec_block_comment s = Some t -> (length t < length s)%nat.
Proof.
  revert t. induction s as [|c s IH]; intros t; simpl; [done|]. destruct s as [|d u]; [done|].
  destruct ((c =b x2a) && (d =b x2f)); [intros [= <-]; simpl; lia|]. intros Ht%IH. simpl in *. lia.
Qed.

Lemma spec_ws_n_length n m s t : spec_ws_n n m s = Some t -> (length t <= length s)%nat.
Proof.
  revert s t. induction n as [|n IH]; intros s t; cbn [spec_ws_n]; [by intros [= <-]|].
  pose proof (spec_blanks_length s) as Hb. destruct m; [by intros [= <-]|].
  destruct (spec_blanks s) as [|c [|d u]]; [by intros [= <-]|by intros [= <-]|].
  destruct (negb (c =b x2f)); [by intros [= <-]|]. simpl in Hb. destruct (d =b x2f).
  - intros H%IH. pose proof (spec_line_comment_length u). lia.
  - destruct (d =b x2a); [|by intros [= <-]].
    destruct (spec_block_comment u) as [v|] eqn:Ev; simpl; [|done].
    intros H%IH. apply spec_block_comment_length in Ev. lia.
Qed.

Lemma spec_ws_length m s t : spec_ws m s = Some t -> (length t <= length s)%nat.
Proof. apply spec_ws_n_length. Qed.

(** ** Values *)

Definition is_ident_start (c : byte) : bool :=
  in_range 65 90 c || in_range 97 122 c || (c =b x5f) || (c =b x24).

Definition is_ident_char (c : byte) : bool :=
  in_range 65 90 c || in_range 97 122 c || in_range 48 57 c || (c =b x5f) || (c =b x24).

(** The member of a list of members with a name. *)
Fixpoint find_name {A} (nm : bytes) (ms : list (bytes * A)) : option nat :=
  match ms with
  | [] => None
  | (k, _) :: ms' => if bytes_eqb k nm then Some 0%nat else S <$> find_name nm ms'
  end.

(** [m.val_node = v] at an index, the name kept. *)
Definition set_value {A} (i : nat) (v : A) (ms : list (bytes * A)) : list (bytes * A) :=
  alter (fun m => (fst m, v)) i ms.

Section reader.
Context (o : JsonParseOptions).

(** Run [k] after white space and comments. *)
Definition after_ws {A} (s : bytes) (k : bytes -> rres A) : rres A :=
  match spec_ws (mode o) s with
  | None => RErr unexpected_eof
  | Some s' => k s'
  end.

Lemma after_ws_rbind {A B} s (f : bytes -> rres A) (k : A -> bytes -> rres B) :
  rbind (after_ws s f) k = after_ws s (fun s' => rbind (f s') k).
Proof. unfold after_ws. by destruct (spec_ws (mode o) s). Qed.

Definition too_deep (depth : nat) : bool :=
  (kRecursiveDepthCeiling <? Z.of_nat depth) || exceeds (max_depth o) (Z.of_nat depth) kDefaultMaxDepth.

Definition too_long (s : bytes) : bool :=
  exceeds (max_string_size o) (Z.of_nat (length s)) kDefaultMaxString.

Definition spec_limited_string (quote : byte) (s : bytes) : rres bytes :=
  match spec_string quote s with
  | ROk d rest => if too_long d then RErr string_too_large else ROk d rest
  | r => r
  end.

Definition spec_literal {A} (text : bytes) (v : A) (s : bytes) : rres A :=
  if starts_with s text then ROk v (drop (length text) s) else RErr syntax_error.

(** A number lexeme, within the length limit. *)
Definition spec_number (s : bytes) : rres bytes :=
  match scan_number s with
  | None => RErr syntax_error
  | Some (lex, _, rest) =>
      if kMaxNumberLexemeLen <? Z.of_nat (length lex) then RErr invalid_number else ROk lex rest
  end.

Definition is_json5 : bool := match mode o with json5 => true | strict => false end.

(** After an element: a closing bracket, or a separator and, in JSON5, perhaps
    a trailing comma. [inl] closes, [inr] goes on. *)
Definition spec_separator (close : byte) (s : bytes) : rres bool :=
  after_ws s (fun s =>
    match s with
    | [] => RErr unexpected_eof
    | c :: t =>
        if c =b close then ROk true t
        else if negb (c =b x2c) then RErr syntax_error
        else if is_json5 then
          after_ws t (fun t =>
            match t with
            | d :: u => if d =b close then ROk true u else ROk false t
            | [] => ROk false t
            end)
        else ROk false t
    end).

(** An element list up to its closing bracket. *)
Fixpoint spec_elements {A} (elem : bytes -> A -> rres A) (close : byte) (n : nat) (s : bytes) (acc : A)
  : rres A :=
  match n with
  | O => RFuel
  | S n' =>
      match elem s acc with
      | ROk acc' s1 =>
          match spec_separator close s1 with
          | ROk true rest => ROk acc' rest
          | ROk false rest => spec_elements elem close n' rest acc'
          | RErr c => RErr c
          | RFuel => RFuel
          end
      | r => r
      end
  end.

Definition spec_container {A} (elem : bytes -> A -> rres A) (close : byte) (empty : A) (s : bytes)
  : rres A :=
  after_ws s (fun s =>
    match s with
    | c :: t => if c =b close then ROk empty t else spec_elements elem close (S (length s)) s empty
    | [] => spec_elements elem close (S (length s)) s empty
    end).

(** A member name: quoted, or in JSON5 single-quoted or a bare identifier. *)
Definition spec_key (s : bytes) : rres bytes :=
  match s with
  | [] => RErr unexpected_eof
  | c :: t =>
      if c =b x22 then spec_string x22 t
      else if is_json5 then
        if c =b x27 then spec_string x27 t
        else if is_ident_start c then
          let '(id, rest) := span is_ident_char t in ROk (c :: id) rest
        else RErr syntax_error
      else RErr syntax_error
  end.

Definition spec_colon {A} (s : bytes) (k : bytes -> rres A) : rres A :=
  after_ws s (fun s =>
    match s with
    | c :: t => if c =b x3a then k t else RErr syntax_error
    | [] => RErr syntax_error
    end).

(** *** Skipping a value *)

Definition spec_skip_member (skip : bytes -> rres unit) (s : bytes) (_ : unit) : rres unit :=
  after_ws s (fun s =>
    match spec_key s with
    | ROk _ s1 => spec_colon s1 skip
    | RErr c => RErr c
    | RFuel => RFuel
    end).

Fixpoint spec_skip (fuel : nat) (depth : nat) (s : bytes) : rres unit :=
  match fuel with
  | O => RFuel
  | S f =>
      after_ws s (fun s =>
        match s with
        | [] => RErr unexpected_eof
        | c :: t =>
            if too_deep depth then RErr nesting_too_deep
            else if (c =b x22) || (is_json5 && (c =b x27)) then
              match spec_limited_string c t with
              | ROk _ rest => ROk tt rest
              | RErr e => RErr e
              | RFuel => RFuel
              end
            else if c =b x5b then spec_container (fun s _ => spec_skip f (S depth) s) x5d tt t
            else if c =b x7b then spec_container (spec_skip_member (spec_skip f (S depth))) x7d tt t
            else if c =b x74 then spec_literal (B "true") tt s
            else if c =b x66 then spec_literal (B "false") tt s
            else if c =b x6e then spec_literal (B "null") tt s
            else if (c =b x2d) || is_digit c then
              match spec_number s with
              | ROk _ rest => ROk tt rest
              | RErr e => RErr e
              | RFuel => RFuel
              end
            else RErr syntax_error
        end)
  end.

(** *** Reading a value *)

Definition spec_element (value : bytes -> rres jval) (s : bytes) (acc : list jval) : rres (list jval) :=
  match value s with
  | ROk v rest => ROk (acc ++ [v]) rest
  | RErr c => RErr c
  | RFuel => RFuel
  end.

(** One member: the name, the duplicate check against the members read so far,
    the colon, and the value according to the policy. *)
Definition spec_member (value : bytes -> rres jval) (skip : bytes -> rres unit)
  (s : bytes) (ms : list (bytes * jval)) : rres (list (bytes * jval)) :=
  after_ws s (fun s =>
    match spec_key s with
    | ROk nm s1 =>
        if too_long nm then RErr string_too_large
        else
          let dup := find_name nm ms in
          match dup, duplicate_key o with
          | Some _, dup_reject => RErr duplicate_member
          | Some _, dup_first_wins =>
              spec_colon s1 (fun t =>
                match skip t with
                | ROk _ rest => ROk ms rest
                | RErr c => RErr c
                | RFuel => RFuel
                end)
          | _, _ =>
              spec_colon s1 (fun t =>
                match value t with
                | ROk v rest =>
                    ROk (match dup with Some i => set_value i v ms | None => ms ++ [(nm, v)] end) rest
                | RErr c => RErr c
                | RFuel => RFuel
                end)
          end
    | RErr c => RErr c
    | RFuel => RFuel
    end).

Fixpoint spec_value (fuel : nat) (depth : nat) (s : bytes) : rres jval :=
  match fuel with
  | O => RFuel
  | S f =>
      after_ws s (fun s =>
        match s with
        | [] => RErr unexpected_eof
        | c :: t =>
            if too_deep depth then RErr nesting_too_deep
            else if (c =b x22) || (is_json5 && (c =b x27)) then rmap JStr (spec_limited_string c t)
            else if c =b x5b then
              rmap JArr (spec_container (spec_element (spec_value f (S depth))) x5d [] t)
            else if c =b x7b then
              rmap JObj (spec_container
                (spec_member (spec_value f (S depth)) (spec_skip f (S depth))) x7d [] t)
            else if c =b x74 then spec_literal (B "true") (JBool true) s
            else if c =b x66 then spec_literal (B "false") (JBool false) s
            else if c =b x6e then spec_literal (B "null") JNull s
            else if (c =b x2d) || is_digit c then rmap JNum (spec_number s)
            else RErr syntax_error
        end)
  end.

(** The recursion never goes deeper than the ceiling allows. *)
Definition value_fuel : nat := 258.

(** A whole text: white space, one value, white space, nothing more. *)
Definition spec_parse (s : bytes) : expected jval JsonIssueCode :=
  match spec_ws (mode o) s with
  | None => Unexpected unexpected_eof
  | Some [] => Unexpected unexpected_eof
  | Some s =>
      match spec_value value_fuel 0 s with
      | ROk v rest =>
          match spec_ws (mode o) rest with
          | None => Unexpected unexpected_eof
          | Some [] => Ok v
          | Some _ => Unexpected trailing_garbage
          end
      | RErr c => Unexpected c
      | RFuel => Unexpected resource_exhausted
      end
  end.
End reader.
