(* ===== verification/JsonReader.v ===== *)
(** * JSON module: the reference reader is total

    Every reading function consumes input, and the fuel the reader starts with
    is enough: [spec_value value_fuel 0] is a value or an error on every text.
    The two facts are one statement, [good]. *)

From Stdlib Require Import ZArith Lia Strings.Byte String.
From stdpp Require Import base tactics option numbers list.
From S2P Require Import Prelude JsonTypes JsonNumber JsonSpec.

(** A result read from [s]: it consumed something, and [RFuel] is seen only
    where [lax] allows it. *)
Definition good (lax : bool) {A} (s : bytes) (r : rres A) : Prop :=
  match r with
  | ROk _ rest => (length rest < length s)%nat
  | RErr _ => True
  | RFuel => lax = true
  end.

Lemma good_le lax {A} s s' (r : rres A) : (length s' <= length s)%nat -> good lax s' r -> good lax s r.
Proof. destruct r; simpl; [lia|done|done]. Qed.

Lemma good_rmap lax {A B} (f : A -> B) s r : good lax s r -> good lax s (rmap f r).
Proof. by destruct r. Qed.

Lemma span_rest_length p (s a b : bytes) : span p s = (a, b) -> (length b <= length s)%nat.
Proof. intros H. apply span_spec in H as (-> & _). rewrite length_app. lia. Qed.

Lemma spec_string_good lax q s : good lax s (spec_string q s).
Proof.
  unfold good, spec_string. destruct (spec_string_n _ q s) as [d r| |] eqn:E; [|done|].
  - apply spec_string_n_length in E. lia.
  - exfalso. by eapply (spec_string_n_no_fuel (S (length s))); [|exact E]; lia.
Qed.

Section facts.
Context (o : JsonParseOptions) (lax : bool).

Lemma after_ws_good {A} s (k : bytes -> rres A) :
  (forall s', (length s' <= length s)%nat -> good lax s' (k s')) -> good lax s (after_ws o s k).
Proof.
  intros Hk. unfold after_ws. destruct (spec_ws _ s) as [s'|] eqn:E; [|done].
  apply spec_ws_length in E. eapply good_le; [exact E|]. by apply Hk.
Qed.

Lemma spec_limited_string_good q s : good lax s (spec_limited_string o q s).
Proof.
  unfold spec_limited_string. pose proof (spec_string_good lax q s) as H.
  destruct (spec_string q s) as [d r| |]; [|done|done]. by destruct (too_long o d).
Qed.

Lemma spec_literal_good {A} text (v : A) s : text <> [] -> good lax s (spec_literal text v s).
Proof.
  intros Hne. unfold spec_literal. destruct (starts_with s text) eqn:E; [|done].
  apply starts_with_spec in E as [t ->]. simpl. rewrite drop_app_length, length_app.
  destruct text; [done|simpl; lia].
Qed.

Lemma jnumber_nonempty lex b : jnumber lex b -> (0 < length lex)%nat.
Proof.
  intros (sg & ip & fp & ep & -> & _ & Hi & _). apply int_part_digits in Hi as [_ Hi].
  rewrite !length_app. destruct ip; [done|]. simpl. lia.
Qed.

Lemma spec_number_good s : good lax s (spec_number s).
Proof.
  unfold spec_number. destruct (scan_number s) as [[[lex b] r]|] eqn:E; [|done].
  apply scan_number_sound in E as [-> Hj%jnumber_nonempty]. destruct (_ <? _); [done|].
  simpl. rewrite length_app. lia.
Qed.

Lemma spec_separator_good close s : good lax s (spec_separator o close s).
Proof.
  apply after_ws_good. intros [|c t] _; [done|]. destruct (c =b close); [simpl; lia|].
  destruct (negb _); [done|]. destruct (is_json5 o); [|simpl; lia].
  unfold after_ws. destruct (spec_ws _ t) as [t'|] eqn:E; [|done]. apply spec_ws_length in E.
  destruct t' as [|d u]; [simpl in *; lia|]. destruct (d =b close); simpl in *; lia.
Qed.

Lemma spec_elements_good {A} (elem : bytes -> A -> rres A) close n s acc :
  (forall s acc, good lax s (elem s acc)) -> (lax = true \/ (length s < n)%nat) ->
  good lax s (spec_elements o elem close n s acc).
Proof.
  intros He. revert s acc. induction n as [|n IH]; intros s acc Hn; [by destruct Hn; [|lia]|].
  cbn [spec_elements]. specialize (He s acc). destruct (elem s acc) as [acc' s1| |]; [|done|done].
  pose proof (spec_separator_good close s1) as Hs. simpl in He.
  destruct (spec_separator o close s1) as [[] s2| |]; simpl in Hs; [simpl; lia| |done|done].
  eapply good_le; [|apply IH]; [lia|]. destruct Hn; [by left|right; lia].
Qed.

Lemma spec_container_good {A} (elem : bytes -> A -> rres A) close empty s :
  (forall s acc, good lax s (elem s acc)) -> good lax s (spec_container o elem close empty s).
Proof.
  intros He. apply after_ws_good. intros s' _.
  assert (good lax s' (spec_elements o elem close (S (length s')) s' empty))
    by (apply spec_elements_good; [done|right; lia]).
  destruct s' as [|c t]; [done|]. destruct (c =b close); [simpl; lia|done].
Qed.

Lemma spec_key_good s : good lax s (spec_key o s).
Proof.
  unfold spec_key. destruct s as [|c t]; [done|].
  assert (Hstr : forall q, good lax (c :: t) (spec_string q t)).
  { intros q. eapply good_le; [|apply spec_string_good]. simpl. lia. }
  destruct (c =b x22); [apply Hstr|]. destruct (is_json5 o); [|done]. destruct (c =b x27); [apply Hstr|].
  destruct (is_ident_start c); [|done]. destruct (span _ t) as [id r'] eqn:Es.
  apply span_rest_length in Es. simpl. lia.
Qed.

Lemma spec_colon_good {A} s (k : bytes -> rres A) :
  (forall s', good lax s' (k s')) -> good lax s (spec_colon o s k).
Proof.
  intros Hk. apply after_ws_good. intros [|c t] _; [done|]. destruct (c =b x3a); [|done].
  eapply good_le; [|apply Hk]. simpl. lia.
Qed.

(** What follows a name. *)
Lemma after_key_good {A} s (k : bytes -> bytes -> rres A) :
  (forall nm s1, good lax s1 (k nm s1)) ->
  good lax s (match spec_key o s with ROk nm s1 => k nm s1 | RErr c => RErr c | RFuel => RFuel end).
Proof.
  intros Hk. pose proof (spec_key_good s) as H. destruct (spec_key o s) as [nm s1| |]; [|done|done].
  simpl in H. eapply good_le; [|apply Hk]. lia.
Qed.

(** Fuel [f] is enough at nesting [d]. *)
Definition enough (f d : nat) : Prop := (d <= 257 /\ 258 <= f + d)%nat.

Lemma enough_S f d : enough (S f) d -> too_deep o d = false -> enough f (S d).
Proof.
  unfold enough, too_deep, kRecursiveDepthCeiling. intros Hf [Hd _]%orb_false_iff. bool_simp. lia.
Qed.

Lemma spec_skip_good f d s : lax = true \/ enough f d -> good lax s (spec_skip o f d s).
Proof.
  revert d s. induction f as [|f IH]; intros d s Hf; [destruct Hf as [?|[? ?]]; [done|lia]|].
  cbn [spec_skip]. apply after_ws_good. intros [|c t] _; [done|].
  destruct (too_deep o d) eqn:Ed; [done|].
  assert (Hrec : forall s, good lax s (spec_skip o f (S d) s)).
  { intros s'. apply IH. destruct Hf as [?|Hf]; [by left|right; by apply enough_S]. }
  assert (Hle : forall A (r : rres A), good lax t r -> good lax (c :: t) r).
  { intros A r. apply good_le. simpl. lia. }
  destruct (_ || _).
  { pose proof (spec_limited_string_good c t) as H. apply Hle. by destruct (spec_limited_string o c t). }
  destruct (c =b x5b); [apply Hle, spec_container_good; auto|].
  destruct (c =b x7b).
  { apply Hle, spec_container_good. intros s' acc. apply after_ws_good. intros s'' _.
    apply (after_key_good s'' (fun _ s1 => spec_colon o s1 (spec_skip o f (S d)))). intros _ s1.
    by apply spec_colon_good. }
  destruct (c =b x74); [by apply spec_literal_good|]. destruct (c =b x66); [by apply spec_literal_good|].
  destruct (c =b x6e); [by apply spec_literal_good|]. destruct (_ || _); [|done].
  pose proof (spec_number_good (c :: t)) as H. by destruct (spec_number (c :: t)).
Qed.

Lemma spec_member_good value skip s ms :
  (forall s, good lax s (value s)) -> (forall s, good lax s (skip s)) ->
  good lax s (spec_member o value skip s ms).
Proof.
  intros Hv Hs. apply after_ws_good. intros s' _.
  apply (after_key_good s' (fun nm s1 => _)). intros nm s1. destruct (too_long o nm); [done|].
  assert (Hval : forall f : jval -> list (bytes * jval), good lax s1 (spec_colon o s1 (fun t => match value t with
    | ROk v r => ROk (f v) r | RErr c => RErr c | RFuel => RFuel end))).
  { intros f. apply spec_colon_good. intros s2. specialize (Hv s2). by destruct (value s2). }
  destruct (find_name nm ms) as [i|]; [|apply (Hval (fun v => ms ++ [(nm, v)]))].
  destruct (duplicate_key o); [done|apply (Hval (fun v => set_value i v ms))|].
  apply spec_colon_good. intros s2. specialize (Hs s2). by destruct (skip s2).
Qed.

Lemma spec_value_good f d s : lax = true \/ enough f d -> good lax s (spec_value o f d s).
Proof.
  revert d s. induction f as [|f IH]; intros d s Hf; [destruct Hf as [?|[? ?]]; [done|lia]|].
  cbn [spec_value]. apply after_ws_good. intros [|c t] _; [done|].
  destruct (too_deep o d) eqn:Ed; [done|].
  assert (Hen : lax = true \/ enough f (S d)) by (destruct Hf as [?|Hf]; [by left|right; by apply enough_S]).
  assert (Hle : forall A (r : rres A), good lax t r -> good lax (c :: t) r).
  { intros A r. apply good_le. simpl. lia. }
  destruct (_ || _); [apply Hle, good_rmap, spec_limited_string_good|].
  destruct (c =b x5b).
  { apply Hle, good_rmap, spec_container_good. intros s' acc. unfold spec_element.
    specialize (IH (S d) s' Hen). by destruct (spec_value o f (S d) s'). }
  destruct (c =b x7b).
  { apply Hle, good_rmap, spec_container_good. intros s' acc. apply spec_member_good; intros s''.
    - by apply IH.
    - by apply spec_skip_good. }
  destruct (c =b x74); [by apply spec_literal_good|]. destruct (c =b x66); [by apply spec_literal_good|].
  destruct (c =b x6e); [by apply spec_literal_good|]. destruct (_ || _); [|done].
  apply good_rmap, spec_number_good.
Qed.
End facts.

(** The fuel of the entry point is enough. *)
Lemma spec_value_total o s : spec_value o value_fuel 0 s <> RFuel.
Proof.
  intros H. pose proof (spec_value_good o false value_fuel 0 s) as G. rewrite H in G.
  discriminate G. right. unfold enough, value_fuel. lia.
Qed.

Lemma spec_skip_length o f d s u r : spec_skip o f d s = ROk u r -> (length r < length s)%nat.
Proof. intros H. pose proof (spec_skip_good o true f d s (or_introl eq_refl)) as G. by rewrite H in G. Qed.

Lemma spec_value_length o f d s v r : spec_value o f d s = ROk v r -> (length r < length s)%nat.
Proof. intros H. pose proof (spec_value_good o true f d s (or_introl eq_refl)) as G. by rewrite H in G. Qed.

(** ** Members by name *)

Lemma find_name_None {A} nm (acc : list (bytes * A)) : find_name nm acc = None -> nm ∉ map fst acc.
Proof.
  induction acc as [|[k w] acc IH]; cbn [find_name map fst]; [intros _; apply not_elem_of_nil|].
  destruct (bytes_eqb k nm) eqn:Ek; [done|]. intros H. destruct (find_name nm acc) eqn:Hf; [done|].
  apply not_elem_of_cons. split; [|by apply IH]. intros ->. by rewrite bytes_eqb_refl in Ek.
Qed.

Lemma find_name_absent {A} nm (acc : list (bytes * A)) : nm ∉ map fst acc -> find_name nm acc = None.
Proof.
  induction acc as [|[k w] acc IH]; cbn [find_name map fst]; [done|]. intros [Hk Hn]%not_elem_of_cons.
  destruct (bytes_eqb k nm) eqn:Ek; [bool_simp; congruence|]. by rewrite IH.
Qed.

Lemma find_name_lt {A} nm (acc : list (bytes * A)) i : find_name nm acc = Some i -> (i < length acc)%nat.
Proof.
  revert i. induction acc as [|[k w] acc IH]; cbn [find_name]; [done|]. intros i.
  destruct (bytes_eqb k nm); [intros [= <-]; simpl; lia|].
  destruct (find_name nm acc); [|done]. intros [= <-]. specialize (IH _ eq_refl). simpl. lia.
Qed.

Lemma set_value_names {A} i (v : A) acc : map fst (set_value i v acc) = map fst acc.
Proof.
  unfold set_value. revert i. induction acc as [|[k w] acc IH]; intros [|i]; try done.
  simpl. f_equal. apply IH.
Qed.

Lemma length_set_value {A} i (v : A) acc : length (set_value i v acc) = length acc.
Proof. by rewrite <- (length_map fst), set_value_names, length_map. Qed.
