(* ===== verification/JsonTokenizer.v ===== *)
(** * JSON module: the tokenizer

    [Tokenizer] of [src/src/json_parse.cxx]: source coordinates, white space
    and comments, the four string-body loops, unquoted keys and number
    lexemes. The state is [PState], shared with the tree builder; a computation
    is a state-and-error function that keeps the state it failed in. An index
    outside the input is the outcome [OutOfBounds] and an exhausted loop bound
    is [OutOfFuel], so that memory safety and termination are statements about
    the outcome. *)

From Stdlib Require Import ZArith Lia Strings.Byte String.
From stdpp Require Import base tactics option numbers list.
From S2P Require Import Prelude ByteScan JsonTypes JsonStorage JsonNumber JsonSpec.

(** ** State and computations *)

(** The constant part: the input, the length of the stripped byte order mark
    and the options. *)
Record Env := mkEnv { src : bytes; bom : nat; opts : JsonParseOptions }.

Record PState := mkPState {
  pos : nat;
  line : nat;
  col : nat;
  unterminated_block_comment : bool;
  ubc_pos : nat;
  ubc_line : nat;
  ubc_col : nat;
  store : DocumentStorage;
  staging : list nat;
  staging_members : list MemberEntry
}.

Definition set_coords (p l c : nat) (st : PState) : PState :=
  mkPState p l c (unterminated_block_comment st) (ubc_pos st) (ubc_line st) (ubc_col st)
    (store st) (staging st) (staging_members st).

Definition set_store (ds : DocumentStorage) (st : PState) : PState :=
  mkPState (pos st) (line st) (col st) (unterminated_block_comment st) (ubc_pos st) (ubc_line st)
    (ubc_col st) ds (staging st) (staging_members st).

Definition set_staging (l : list nat) (st : PState) : PState :=
  mkPState (pos st) (line st) (col st) (unterminated_block_comment st) (ubc_pos st) (ubc_line st)
    (ubc_col st) (store st) l (staging_members st).

Definition set_staging_members (l : list MemberEntry) (st : PState) : PState :=
  mkPState (pos st) (line st) (col st) (unterminated_block_comment st) (ubc_pos st) (ubc_line st)
    (ubc_col st) (store st) (staging st) l.

Definition set_unterminated (p l c : nat) (st : PState) : PState :=
  mkPState (pos st) (line st) (col st) true p l c (store st) (staging st) (staging_members st).

Inductive outcome (A : Type) : Type :=
| Ret (a : A)
| Fail (e : JsonError)
| OutOfFuel
| OutOfBounds.
Arguments Ret {A} a.
Arguments Fail {A} e.
Arguments OutOfFuel {A}.
Arguments OutOfBounds {A}.

Definition M (A : Type) : Type := PState -> outcome A * PState.

#[export] Instance M_ret : MRet M := fun A a st => (Ret a, st).

#[export] Instance M_bind : MBind M := fun A B f m st =>
  match m st with
  | (Ret a, st') => f a st'
  | (Fail e, st') => (Fail e, st')
  | (OutOfFuel, st') => (OutOfFuel, st')
  | (OutOfBounds, st') => (OutOfBounds, st')
  end.

Definition get : M PState := fun st => (Ret st, st).
Definition modify (f : PState -> PState) : M unit := fun st => (Ret tt, f st).
Definition throw {A} (e : JsonError) : M A := fun st => (Fail e, st).
Definition out_of_fuel {A} : M A := fun st => (OutOfFuel, st).
Definition out_of_bounds {A} : M A := fun st => (OutOfBounds, st).

(** Run [g] on the state when [m] fails, as the code's clean-up before an
    error return. *)
Definition on_fail {A} (g : PState -> PState) (m : M A) : M A := fun st =>
  match m st with
  | (Fail e, st') => (Fail e, g st')
  | r => r
  end.

Section tokenizer.
Context (E : Env).

(** ** Coordinates and errors *)

Definition mk_err (c : JsonIssueCode) (msg : bytes) (st : PState) : JsonError :=
  located_error Stage_parse c (mkLoc (pos st + bom E) (line st) (col st)) msg.

Definition whitespace_error (st : PState) : JsonError :=
  located_error Stage_parse unexpected_eof
    (mkLoc (ubc_pos st + bom E) (ubc_line st) (ubc_col st)) (B "unterminated block comment").

Definition err {A} (c : JsonIssueCode) (msg : bytes) : M A := fun st => (Fail (mk_err c msg st), st).

Definition adv_state (n : nat) (st : PState) : PState := set_coords (pos st + n) (line st) (col st + n) st.
Definition adv (n : nat) : M unit := modify (adv_state n).

Definition newline_state (st : PState) : PState := set_coords (S (pos st)) (S (line st)) 1 st.

(** [src[pos]] at a place where the code has checked, or relies on, the
    bound. *)
Definition at_pos : M byte := fun st =>
  match src E !! pos st with
  | Some c => (Ret c, st)
  | None => (OutOfBounds, st)
  end.

Definition eof (st : PState) : bool := (length (src E) <=? pos st)%nat.

(** ** White space *)

(** [while (pos < src.size())] over blanks. *)
Fixpoint skip_blanks (n : nat) (st : PState) : PState :=
  match n with
  | O => st
  | S n' =>
      match src E !! pos st with
      | Some c =>
          if c =b x0a then skip_blanks n' (newline_state st)
          else if (c =b x20) || (c =b x09) || (c =b x0d) then skip_blanks n' (adv_state 1 st)
          else st
      | None => st
      end
  end.

Fixpoint skip_line_comment (n : nat) (st : PState) : PState :=
  match n with
  | O => st
  | S n' =>
      match src E !! pos st with
      | Some c => if negb (c =b x0a) then skip_line_comment n' (adv_state 1 st) else st
      | None => st
      end
  end.

(** [while (pos + 1 < src.size())]; the flag says that the comment was
    closed. *)
Fixpoint skip_block_comment (n : nat) (st : PState) : bool * PState :=
  match n with
  | O => (false, st)
  | S n' =>
      match src E !! pos st, src E !! S (pos st) with
      | Some c, Some d =>
          if (c =b x2a) && (d =b x2f) then (true, adv_state 2 st)
          else if c =b x0a then skip_block_comment n' (newline_state st)
          else skip_block_comment n' (adv_state 1 st)
      | _, _ => (false, st)
      end
  end.

(** The [for (;;)] of [skip_ws]. *)
Fixpoint skip_ws_loop (n : nat) (st : PState) : PState :=
  match n with
  | O => st
  | S n' =>
      let left := (length (src E) - pos st)%nat in
      let st := skip_blanks left st in
      match mode (opts E) with
      | strict => st
      | json5 =>
          match src E !! pos st, src E !! S (pos st) with
          | Some c, Some d =>
              if negb (c =b x2f) then st
              else if d =b x2f then skip_ws_loop n' (skip_line_comment left (adv_state 2 st))
              else if d =b x2a then
                match skip_block_comment left (adv_state 2 st) with
                | (true, st') => skip_ws_loop n' st'
                | (false, st') =>
                    set_unterminated (pos st) (line st) (col st)
                      (set_coords (length (src E)) (line st') (col st') st')
                end
              else st
          | _, _ => st
          end
      end
  end.

Definition skip_ws (st : PState) : PState :=
  if unterminated_block_comment st then st
  else skip_ws_loop (S (length (src E) - pos st)) st.

(** [TreeBuilder::skip_ws_checked] *)
Definition skip_ws_checked : M unit := fun st =>
  let st' := skip_ws st in
  if unterminated_block_comment st' then (Fail (whitespace_error st'), st') else (Ret tt, st').

(** ** Strings *)

(** [append_utf8(cp, store.string_arena)] and the other appends. *)
Definition append_arena (s : bytes) (st : PState) : PState :=
  set_store (set_arena (string_arena (store st) ++ s) (store st)) st.

(** The accumulation of [hex4]; [None] is the early [return false]. *)
Definition hex4_value (p : nat) : option Z :=
  let digit k := c ← src E !! (p + k)%nat; hex_val c in
  a ← digit 0%nat; b ← digit 1%nat; c ← digit 2%nat; d ← digit 3%nat;
  Some (hex_step (hex_step (hex_step (hex_step 0 a) b) c) d).

Definition hex4 : M (option Z) := fun st =>
  if (length (src E) <? pos st + 4)%nat then (Ret None, st)
  else
    match hex4_value (pos st) with
    | Some out => (Ret (Some out), adv_state 4 st)
    | None => (Ret None, st)
    end.

(** [case 'u'] of the escape switches: the code point. *)
Definition parse_unicode_escape : M Z :=
  adv 1;;
  r ← hex4;
  match r with
  | None => err invalid_unicode_escape (B "invalid \uXXXX")
  | Some cp =>
      if is_high_surrogate cp then
        st ← get;
        if (length (src E) <? pos st + 6)%nat
           || negb (char_at (src E) (pos st) (fun c => c =b x5c))
           || negb (char_at (src E) (S (pos st)) (fun c => c =b x75)) then
          err invalid_unicode_escape (B "unpaired high surrogate")
        else
          adv 2;;
          r ← hex4;
          match r with
          | Some lo =>
              if is_low_surrogate lo then mret (combine_surrogates cp lo)
              else err invalid_unicode_escape (B "invalid low surrogate")
          | None => err invalid_unicode_escape (B "invalid low surrogate")
          end
      else if is_low_surrogate cp then err invalid_unicode_escape (B "lone low surrogate")
      else mret cp
  end.

(** The UTF-8 checks at the current byte [c]: the length of the sequence. *)
Definition check_utf8 (c : byte) : M nat :=
  let seq := utf8_seq_len c in
  st ← get;
  if (seq =? 0)%nat then err invalid_utf8 (B "invalid UTF-8 std::byte")
  else if (length (src E) <? pos st + seq)%nat then err invalid_utf8 (B "truncated UTF-8")
  else if forallb is_cont (substr (src E) (S (pos st)) (seq - 1)) then mret seq
  else err invalid_utf8 (B "invalid UTF-8 continuation").

(** [pos += seq; col += 1;] *)
Definition adv_seq (seq : nat) : M unit :=
  modify (fun st => set_coords (pos st + seq) (line st) (col st + 1) st).

Record ParsedStr := mkParsedStr { ps_off : nat; ps_len : nat; ps_flags : Z }.

Definition kRawInput : Z := Z.lor kStorageInputView kRawJsonSlice.

(** The escape switch of [parse_str_decode_tail], after the backslash. *)
Definition decode_escape : M unit :=
  st ← get;
  if eof st then err unexpected_eof (B "EOF in escape")
  else
    c ← at_pos;
    let simple b := modify (append_arena [b]);; adv 1 in
    match c with
    | x22 => simple x22
    | x5c => simple x5c
    | x2f => simple x2f
    | x62 => simple x08
    | x66 => simple x0c
    | x6e => simple x0a
    | x72 => simple x0d
    | x74 => simple x09
    | x75 => cp ← parse_unicode_escape; modify (append_arena (encode_utf8 cp))
    | _ => err syntax_error (B "invalid escape")
    end.

Fixpoint decode_tail_loop (n : nat) (arena_off : nat) : M ParsedStr :=
  match n with
  | O => out_of_fuel
  | S n' =>
      st ← get;
      if eof st then err unexpected_eof (B "EOF in string")
      else
        c ← at_pos;
        if c =b x22 then
          adv 1;;
          st ← get;
          mret (mkParsedStr (u32n arena_off)
                  (u32n (length (string_arena (store st)) - arena_off)) 0)
        else if byteZ c <? 0x20 then err syntax_error (B "unescaped control character")
        else if c =b x5c then adv 1;; decode_escape;; decode_tail_loop n' arena_off
        else
          seq ← check_utf8 c;
          modify (append_arena (substr (src E) (pos st) seq));;
          adv_seq seq;;
          decode_tail_loop n' arena_off
  end.

(** [parse_str_decode_tail(arena_off)] *)
Definition parse_str_decode_tail (arena_off : nat) : M ParsedStr :=
  st ← get; decode_tail_loop (S (length (src E) - pos st)) arena_off.

(** The [while] of [parse_str_body]: vector skip, then the boundary byte. *)
Fixpoint str_body_loop (n : nat) (start_pos : nat) : M ParsedStr :=
  match n with
  | O => out_of_fuel
  | S n' =>
      st ← get;
      if eof st then err unexpected_eof (B "EOF in string")
      else
        adv (Simd.scan_str_until_special (drop (pos st) (src E)));;
        st ← get;
        if eof st then err unexpected_eof (B "EOF in string")
        else
          c ← at_pos;
          if c =b x22 then
            let len := Z.to_nat (u32 (u32 (Z.of_nat (pos st)) - Z.of_nat start_pos)) in
            adv 1;; mret (mkParsedStr start_pos len kRawInput)
          else if byteZ c <? 0x20 then err syntax_error (B "unescaped control character")
          else if c =b x5c then
            let arena_off := length (string_arena (store st)) in
            modify (append_arena (substr (src E) start_pos (pos st - start_pos)));;
            parse_str_decode_tail arena_off
          else
            seq ← check_utf8 c;
            adv_seq seq;;
            str_body_loop n' start_pos
  end.

Definition parse_str_body : M ParsedStr :=
  st ← get; str_body_loop (S (length (src E) - pos st)) (u32n (pos st)).

(** The escape switch of [parse_str_body_sq]. *)
Definition sq_escape : M unit :=
  st ← get;
  if eof st then err unexpected_eof (B "EOF in escape")
  else
    c ← at_pos;
    let simple b := modify (append_arena [b]);; adv 1 in
    match c with
    | x27 => simple x27
    | x22 => simple x22
    | x5c => simple x5c
    | x2f => simple x2f
    | x62 => simple x08
    | x66 => simple x0c
    | x6e => simple x0a
    | x72 => simple x0d
    | x74 => simple x09
    | x75 => cp ← parse_unicode_escape; modify (append_arena (encode_utf8 cp))
    | _ => err syntax_error (B "invalid escape")
    end.

Fixpoint str_body_sq_loop (n : nat) (arena_off : nat) : M ParsedStr :=
  match n with
  | O => out_of_fuel
  | S n' =>
      st ← get;
      if eof st then err unexpected_eof (B "EOF in string")
      else
        c ← at_pos;
        if c =b x27 then
          adv 1;;
          st ← get;
          mret (mkParsedStr (u32n arena_off)
                  (u32n (length (string_arena (store st)) - arena_off)) 0)
        else if byteZ c <? 0x20 then err syntax_error (B "unescaped control character")
        else if c =b x5c then adv 1;; sq_escape;; str_body_sq_loop n' arena_off
        else
          seq ← check_utf8 c;
          modify (append_arena (substr (src E) (pos st) seq));;
          adv_seq seq;;
          str_body_sq_loop n' arena_off
  end.

(** [parse_str_body_sq]: the single-quoted string of JSON5. *)
Definition parse_str_body_sq : M ParsedStr :=
  st ← get;
  str_body_sq_loop (S (length (src E) - pos st)) (length (string_arena (store st))).

(** The escape switch of [skip_str_body_no_store]: the decoded length. *)
Definition skip_escape (quote : byte) : M nat :=
  st ← get;
  if eof st then err unexpected_eof (B "EOF in escape")
  else
    c ← at_pos;
    match c with
    | x27 =>
        if negb (quote =b x27) then err syntax_error (B "invalid escape")
        else adv 1;; mret 1%nat
    | x22 | x5c | x2f | x62 | x66 | x6e | x72 | x74 => adv 1;; mret 1%nat
    | x75 => cp ← parse_unicode_escape; mret (utf8_encoded_len cp)
    | _ => err syntax_error (B "invalid escape")
    end.

Fixpoint skip_str_loop (n : nat) (quote : byte) (decoded_len : nat) : M nat :=
  match n with
  | O => out_of_fuel
  | S n' =>
      st ← get;
      if eof st then err unexpected_eof (B "EOF in string")
      else
        c ← at_pos;
        if c =b quote then adv 1;; mret (u32n decoded_len)
        else if byteZ c <? 0x20 then err syntax_error (B "unescaped control character")
        else if c =b x5c then
          adv 1;;
          k ← skip_escape quote;
          skip_str_loop n' quote (decoded_len + k)
        else
          seq ← check_utf8 c;
          adv_seq seq;;
          skip_str_loop n' quote (decoded_len + seq)
  end.

Definition skip_str_body_no_store (quote : byte) : M nat :=
  st ← get; skip_str_loop (S (length (src E) - pos st)) quote 0.

(** ** Unquoted keys and numbers *)

Fixpoint skip_while (p : byte -> bool) (n : nat) (st : PState) : PState :=
  match n with
  | O => st
  | S n' =>
      match src E !! pos st with
      | Some c => if p c then skip_while p n' (adv_state 1 st) else st
      | None => st
      end
  end.

Definition skip_chars (p : byte -> bool) : M unit :=
  modify (fun st => skip_while p (length (src E) - pos st) st).

Definition parse_unquoted_key : M ParsedStr :=
  st ← get;
  let start := pos st in
  first ← at_pos;
  if negb (is_ident_start first) then
    err syntax_error (B "std::expected string key or identifier")
  else
    adv 1;;
    skip_chars is_ident_char;;
    st ← get;
    mret (mkParsedStr (u32n start) (u32n (pos st - start)) kRawInput).

(** [pos < src.size() && p(src[pos])] *)
Definition looking_at (p : byte -> bool) (st : PState) : bool :=
  match src E !! pos st with Some c => p c | None => false end.

(** The three parts of [parse_number_lexeme] after the sign: the integer
    digits, the fraction and the exponent; the latter two clear
    [is_int_form]. *)
Definition number_int : M unit :=
  st ← get;
  if negb (looking_at is_digit st) then err syntax_error (B "digit required after sign")
  else
    let starts_zero := looking_at (fun c => c =b x30) st in
    adv 1;;
    st ← get;
    if starts_zero && looking_at is_digit st then err syntax_error (B "leading zeros forbidden")
    else skip_chars is_digit.

Definition number_frac (is_int_form : bool) : M bool :=
  st ← get;
  if looking_at (fun c => c =b x2e) st then
    adv 1;;
    st ← get;
    if negb (looking_at is_digit st) then err syntax_error (B "digit required after '.'")
    else skip_chars is_digit;; mret false
  else mret is_int_form.

Definition number_exp (is_int_form : bool) : M bool :=
  st ← get;
  if looking_at (fun c => (c =b x65) || (c =b x45)) st then
    adv 1;;
    st ← get;
    (if looking_at (fun c => (c =b x2b) || (c =b x2d)) st then adv 1 else mret tt);;
    st ← get;
    if negb (looking_at is_digit st) then err syntax_error (B "digit required in exponent")
    else skip_chars is_digit;; mret false
  else mret is_int_form.

(** [parse_number_lexeme(&int_form)]: the lexeme and whether it is an
    integer. *)
Definition parse_number_lexeme : M (bytes * bool) :=
  st ← get;
  let start := pos st in
  c0 ← at_pos;
  (if c0 =b x2d then adv 1 else mret tt);;
  number_int;;
  int1 ← number_frac true;
  int_form ← number_exp int1;
  st ← get;
  if kMaxNumberLexemeLen <? Z.of_nat (pos st - start) then
    err invalid_number (B "number lexeme exceeds maximum length")
  else mret (substr (src E) start (pos st - start), int_form).
End tokenizer.
