(* ===== verification/JsonParse.v ===== *)
(** * JSON module: the tree builder and the parse entry points

    [TreeBuilder] of [src/src/json_parse.cxx] ([parse_value], [parse_array],
    [parse_object] and their helpers, the syntax-only [skip_value] family) and
    the entry points of [src/src/json_parse_entries.cxx]. The recursive
    functions take the recursive call as an argument and are tied by a fuel
    that counts the nesting; loops carry a bound on their iterations. The
    random seed and the allocation of an object's hash index are the
    environment's: [hash_env i] is the seed used for the object at node [i], or
    [None] when the allocation fails. *)

From Stdlib Require Import ZArith Lia Strings.Byte String.
From stdpp Require Import base tactics option numbers list.
From S2P Require Import Prelude JsonTypes JsonStorage JsonNumber JsonHash JsonSpec JsonTokenizer.

Definition kDedupLinearMax : nat := 8.

(** [MemberNameKey]: where the bytes of a name are. *)
Record MemberNameKey := mkKey { key_off : nat; key_len : nat; key_flags : Z }.

(** [MemberNameIndex], an unordered map from names to staging indices; keys are
    compared by the bytes they denote. *)
Definition MemberNameIndex := list (MemberNameKey * nat).

Inductive ObjectMemberSeparator := sep_next | sep_close.

(** [staging_members.resize(n)] to a size not above the current one. *)
Definition truncate_members (n : nat) (st : PState) : PState :=
  set_staging_members (take n (staging_members st)) st.

Definition truncate_staging (n : nat) (st : PState) : PState :=
  set_staging (take n (staging st)) st.

Section builder.
Context (E : Env) (hash_env : nat -> option Z).

Definition is_json5_mode : bool := match mode (opts E) with json5 => true | strict => false end.

(** [store.nodes.push_back(n); return store.nodes.size() - 1;] *)
Definition push_node (n : Node) : M nat := fun st =>
  (Ret (length (nodes (store st))), set_store (set_nodes (nodes (store st) ++ [n]) (store st)) st).

(** [opts.max_string_size.exceeds(len, kDefaultMaxString)] *)
Definition check_string_size (len : nat) : M unit :=
  if exceeds (max_string_size (opts E)) (Z.of_nat len) kDefaultMaxString
  then err E string_too_large (B "std::string exceeds max_string_size") else mret tt.

Definition check_depth (depth : nat) : M unit :=
  if (kRecursiveDepthCeiling <? Z.of_nat depth)
     || exceeds (max_depth (opts E)) (Z.of_nat depth) kDefaultMaxDepth
  then err E nesting_too_deep (B "nesting depth limit exceeded") else mret tt.

(** The three literals. *)
Definition expect_literal (text : bytes) : M unit :=
  st ← get;
  if negb (bytes_eqb (substr (src E) (pos st) (length text)) text)
  then err E syntax_error (B "invalid token") else adv (length text).

Definition unexpected_char {A} (c : byte) : M A :=
  err E syntax_error (B "std::unexpected character '" ++ [c] ++ B "'").

(** ** Skipping *)

(** [skip_array]'s loop, and below [skip_object]'s. *)
Fixpoint skip_array_loop (rec : M unit) (n : nat) : M unit :=
  match n with
  | O => out_of_fuel
  | S n' =>
      rec;;
      skip_ws_checked E;;
      st ← get;
      if eof E st then err E unexpected_eof (B "EOF in array")
      else
        c ← at_pos E;
        if c =b x5d then adv 1
        else if negb (c =b x2c) then err E syntax_error (B "std::expected ',' or ']'")
        else
          adv 1;;
          if is_json5_mode then
            skip_ws_checked E;;
            st ← get;
            if looking_at E (fun c => c =b x5d) st then adv 1 else skip_array_loop rec n'
          else skip_array_loop rec n'
  end.

Definition skip_array (rec : M unit) : M unit :=
  adv 1;;
  skip_ws_checked E;;
  st ← get;
  if looking_at E (fun c => c =b x5d) st then adv 1
  else skip_array_loop rec (S (length (src E) - pos st)).

(** The key of a skipped member. *)
Definition skip_key : M unit :=
  key_ch ← at_pos E;
  if key_ch =b x22 then adv 1;; skip_str_body_no_store E x22;; mret tt
  else if is_json5_mode then
    if key_ch =b x27 then adv 1;; skip_str_body_no_store E x27;; mret tt
    else parse_unquoted_key E;; mret tt
  else err E syntax_error (B "std::expected string key").

Definition expect_colon : M unit :=
  skip_ws_checked E;;
  st ← get;
  if negb (looking_at E (fun c => c =b x3a) st) then err E syntax_error (B "std::expected ':'")
  else adv 1.

Fixpoint skip_object_loop (rec : M unit) (n : nat) : M unit :=
  match n with
  | O => out_of_fuel
  | S n' =>
      skip_ws_checked E;;
      st ← get;
      if eof E st then err E unexpected_eof (B "EOF in object")
      else
        skip_key;;
        expect_colon;;
        rec;;
        skip_ws_checked E;;
        st ← get;
        if eof E st then err E unexpected_eof (B "EOF in object")
        else
          c ← at_pos E;
          if c =b x7d then adv 1
          else if negb (c =b x2c) then err E syntax_error (B "std::expected ',' or '}'")
          else
            adv 1;;
            if is_json5_mode then
              skip_ws_checked E;;
              st ← get;
              if looking_at E (fun c => c =b x7d) st then adv 1 else skip_object_loop rec n'
            else skip_object_loop rec n'
  end.

Definition skip_object (rec : M unit) : M unit :=
  adv 1;;
  skip_ws_checked E;;
  st ← get;
  if looking_at E (fun c => c =b x7d) st then adv 1
  else skip_object_loop rec (S (length (src E) - pos st)).

Definition skip_string (quote : byte) : M unit :=
  adv 1;; len ← skip_str_body_no_store E quote; check_string_size len.

Fixpoint skip_value (fuel : nat) (depth : nat) : M unit :=
  match fuel with
  | O => out_of_fuel
  | S f =>
      skip_ws_checked E;;
      st ← get;
      if eof E st then err E unexpected_eof (B "std::unexpected end of input")
      else
        check_depth depth;;
        c ← at_pos E;
        if c =b x22 then skip_string x22
        else if is_json5_mode && (c =b x27) then skip_string x27
        else if c =b x5b then skip_array (skip_value f (S depth))
        else if c =b x7b then skip_object (skip_value f (S depth))
        else if c =b x74 then expect_literal (B "true")
        else if c =b x66 then expect_literal (B "false")
        else if c =b x6e then expect_literal (B "null")
        else if (c =b x2d) || is_digit c then parse_number_lexeme E;; mret tt
        else unexpected_char c
  end.

(** ** Building *)

Definition push_string (p : ParsedStr) : M nat :=
  check_string_size (ps_len p);; push_node (make_string (ps_off p) (ps_len p) (ps_flags p)).

Definition parse_str_node : M nat := p ← parse_str_body E; push_string p.
Definition parse_str_node_sq : M nat := p ← parse_str_body_sq E; push_string p.

Definition finish_array (children_start : nat) : M nat :=
  st ← get;
  let len := (length (staging st) - children_start)%nat in
  let cs := length (array_children (store st)) in
  modify (fun st => set_store (set_children (array_children (store st) ++ drop children_start (staging st))
                                 (store st)) st);;
  modify (truncate_staging children_start);;
  push_node (node_array (u32n cs) (u32n len)).

Fixpoint parse_array_loop (rec : M nat) (children_start : nat) (n : nat) : M nat :=
  match n with
  | O => out_of_fuel
  | S n' =>
      child ← rec;
      modify (fun st => set_staging (staging st ++ [u32n child]) st);;
      skip_ws_checked E;;
      st ← get;
      if eof E st then err E unexpected_eof (B "EOF in array")
      else
        c ← at_pos E;
        if c =b x5d then adv 1;; finish_array children_start
        else if negb (c =b x2c) then
          modify (truncate_staging children_start);;
          err E syntax_error (B "std::expected ',' or ']'")
        else
          adv 1;;
          if is_json5_mode then
            skip_ws_checked E;;
            st ← get;
            if looking_at E (fun c => c =b x5d) st then adv 1;; finish_array children_start
            else parse_array_loop rec children_start n'
          else parse_array_loop rec children_start n'
  end.

Definition parse_array (rec : M nat) : M nat :=
  adv 1;;
  skip_ws_checked E;;
  st ← get;
  if looking_at E (fun c => c =b x5d) st then adv 1;; finish_array (length (staging st))
  else parse_array_loop rec (length (staging st)) (S (length (src E) - pos st)).

Definition key_bytes (ds : DocumentStorage) (k : MemberNameKey) : bytes :=
  bytes_at ds (key_off k) (key_len k) (key_flags k).

(** [seen_hash->find(name)] *)
Fixpoint index_find (ds : DocumentStorage) (name : MemberNameKey) (idx : MemberNameIndex) : option nat :=
  match idx with
  | [] => None
  | (k, i) :: idx' =>
      if bytes_eqb (key_bytes ds k) (key_bytes ds name) then Some i else index_find ds name idx'
  end.

(** [seen_hash->emplace(key, i)]: nothing when the key is there. *)
Definition index_emplace (ds : DocumentStorage) (k : MemberNameKey) (i : nat) (idx : MemberNameIndex)
  : MemberNameIndex :=
  match index_find ds k idx with Some _ => idx | None => idx ++ [(k, i)] end.

Definition member_key (m : MemberEntry) : MemberNameKey := mkKey (name_off m) (name_len m) (u8 (name_flags m)).

(** The linear scan of [dedup_member_index] over the members of this object. *)
Fixpoint dedup_linear (ds : DocumentStorage) (name : MemberNameKey) (i : nat) (ms : list MemberEntry)
  : option nat :=
  match ms with
  | [] => None
  | m :: ms' =>
      if bytes_eqb (bytes_at ds (name_off m) (name_len m) (u8 (name_flags m))) (key_bytes ds name)
      then Some i else dedup_linear ds name (S i) ms'
  end.

Definition dedup_member_index (st : PState) (members_start : nat) (name : MemberNameKey)
  (seen_hash : option MemberNameIndex) : option nat :=
  match seen_hash with
  | Some idx => index_find (store st) name idx
  | None => dedup_linear (store st) name members_start (drop members_start (staging_members st))
  end.

(** Counter updates of [parse_stats]. *)
Definition upd_stats (f : ParseStats -> ParseStats) : M unit :=
  modify (fun st => set_store (set_stats (f (parse_stats (store st))) (store st)) st).

Definition count_dup_hit (s : ParseStats) : ParseStats :=
  mkStats (input_bytes s) (duplicate_hash_promotions s) (duplicate_hash_inserts s)
    (S (duplicate_member_hits s)) (first_wins_rollbacks s) (last_wins_updates s).
Definition count_rollback (s : ParseStats) : ParseStats :=
  mkStats (input_bytes s) (duplicate_hash_promotions s) (duplicate_hash_inserts s)
    (duplicate_member_hits s) (S (first_wins_rollbacks s)) (last_wins_updates s).
Definition count_update (s : ParseStats) : ParseStats :=
  mkStats (input_bytes s) (duplicate_hash_promotions s) (duplicate_hash_inserts s)
    (duplicate_member_hits s) (first_wins_rollbacks s) (S (last_wins_updates s)).
Definition count_inserts (n : nat) (s : ParseStats) : ParseStats :=
  mkStats (input_bytes s) (duplicate_hash_promotions s) (duplicate_hash_inserts s + n)
    (duplicate_member_hits s) (first_wins_rollbacks s) (last_wins_updates s).
Definition count_promotion (s : ParseStats) : ParseStats :=
  mkStats (input_bytes s) (S (duplicate_hash_promotions s)) (duplicate_hash_inserts s)
    (duplicate_member_hits s) (first_wins_rollbacks s) (last_wins_updates s).

(** The eager hash index of [finish_object] for the object at [idx]. *)
Definition warm_index (ds : DocumentStorage) (idx ms len : nat) : DocumentStorage :=
  match warm_threshold (opts E) with
  | None => ds
  | Some w =>
      if (w <=? Z.of_nat len) && (kHashThreshold <=? len)%nat then
        let cap := clamped_capacity (u32 (Z.of_nat len)) in
        if 0 <? cap then
          match hash_env idx with
          | None => ds
          | Some seed =>
              match build_table (create cap (u32n len) seed) ds ms len with
              | (true, ht) => set_nodes (alter (set_hash (HashTable ht)) idx (nodes ds)) ds
              | (false, _) => set_nodes (alter (set_hash HashBuildFailed) idx (nodes ds)) ds
              end
          end
        else ds
      else ds
  end.

Definition finish_object (members_start : nat) : M nat :=
  st ← get;
  let len := (length (staging_members st) - members_start)%nat in
  let ms := length (object_members (store st)) in
  modify (fun st => set_store (set_members (object_members (store st)
                                 ++ drop members_start (staging_members st)) (store st)) st);;
  modify (truncate_members members_start);;
  obj_node_idx ← push_node (node_object (u32n ms) (u32n len));
  modify (fun st => set_store (warm_index (store st) obj_node_idx ms len) st);;
  mret obj_node_idx.

Definition parse_object_member_name : M ParsedStr :=
  key_ch ← at_pos E;
  if key_ch =b x22 then adv 1;; parse_str_body E
  else if is_json5_mode then
    if key_ch =b x27 then adv 1;; parse_str_body_sq E else parse_unquoted_key E
  else err E syntax_error (B "std::expected string key").

(** The seen-set after a new member at [new_member_index]: an insertion, or
    the promotion of the whole object above the linear threshold. *)
Definition promote (st : PState) (members_start : nat) : MemberNameIndex :=
  fst (fold_left (fun acc m =>
         let '(idx, i) := acc in (index_emplace (store st) (member_key m) i idx, S i))
       (drop members_start (staging_members st)) ([], members_start)).

Definition update_seen (members_start : nat) (name_key : MemberNameKey) (new_member_index : nat)
  (seen_hash : option MemberNameIndex) : M (option MemberNameIndex) :=
  st ← get;
  match seen_hash with
  | Some idx =>
      upd_stats (count_inserts 1);;
      mret (Some (index_emplace (store st) name_key new_member_index idx))
  | None =>
      let cur_count := (length (staging_members st) - members_start)%nat in
      if (kDedupLinearMax <? cur_count)%nat then
        upd_stats count_promotion;;
        upd_stats (count_inserts cur_count);;
        mret (Some (promote st members_start))
      else mret None
  end.

(** [parse_object_member]; every error return truncates the staged members. The
    result is the seen-set for the next member. *)
Definition parse_object_member (rec : M nat) (skip : M unit) (members_start : nat)
  (seen_hash : option MemberNameIndex) : M (option MemberNameIndex) :=
  on_fail (truncate_members members_start) (
    skip_ws_checked E;;
    st ← get;
    if eof E st then err E unexpected_eof (B "EOF in object")
    else
      name ← parse_object_member_name;
      check_string_size (ps_len name);;
      st ← get;
      let name_key := mkKey (ps_off name) (ps_len name) (ps_flags name) in
      let name_sv := key_bytes (store st) name_key in
      let dup_index := dedup_member_index st members_start name_key seen_hash in
      (match dup_index with Some _ => upd_stats count_dup_hit | None => mret tt end);;
      match dup_index, duplicate_key (opts E) with
      | Some _, dup_reject => err E duplicate_member (B "duplicate member: " ++ name_sv)
      | _, policy =>
          expect_colon;;
          match dup_index, policy with
          | Some _, dup_first_wins =>
              skip;;
              upd_stats count_rollback;;
              mret seen_hash
          | _, _ =>
              val ← rec;
              match dup_index with
              | Some i =>
                  modify (fun st => set_staging_members
                    (alter (fun m => mkMember (name_off m) (name_len m) (u32n val) (name_flags m))
                       i (staging_members st)) st);;
                  upd_stats count_update;;
                  mret seen_hash
              | None =>
                  st ← get;
                  let new_member_index := length (staging_members st) in
                  modify (fun st => set_staging_members
                    (staging_members st
                     ++ [mkMember (ps_off name) (ps_len name) (u32n val) (ps_flags name)]) st);;
                  update_seen members_start name_key new_member_index seen_hash
              end
          end
      end).

Definition parse_object_member_separator (members_start : nat) : M ObjectMemberSeparator :=
  on_fail (truncate_members members_start) (
    skip_ws_checked E;;
    st ← get;
    if eof E st then err E unexpected_eof (B "EOF in object")
    else
      c ← at_pos E;
      if c =b x7d then adv 1;; mret sep_close
      else if negb (c =b x2c) then err E syntax_error (B "std::expected ',' or '}'")
      else
        adv 1;;
        if is_json5_mode then
          skip_ws_checked E;;
          st ← get;
          if looking_at E (fun c => c =b x7d) st then adv 1;; mret sep_close else mret sep_next
        else mret sep_next).

Fixpoint parse_object_loop (rec : M nat) (skip : M unit) (members_start : nat) (n : nat)
  (seen_hash : option MemberNameIndex) : M nat :=
  match n with
  | O => out_of_fuel
  | S n' =>
      seen ← parse_object_member rec skip members_start seen_hash;
      sep ← parse_object_member_separator members_start;
      match sep with
      | sep_close => finish_object members_start
      | sep_next => parse_object_loop rec skip members_start n' seen
      end
  end.

Definition parse_object (rec : M nat) (skip : M unit) : M nat :=
  adv 1;;
  skip_ws_checked E;;
  st ← get;
  if looking_at E (fun c => c =b x7d) st then
    adv 1;; push_node (node_object (u32n (length (object_members (store st)))) 0)
  else parse_object_loop rec skip (length (staging_members st)) (S (length (src E) - pos st)) None.

Definition parse_number : M nat :=
  st ← get;
  let start := pos st in
  r ← parse_number_lexeme E;
  let '(lex, int_form) := r in
  match build_number_node_from_lexeme (u32n start) (u32n (length lex)) kRawInput lex (Some int_form) with
  | Ok node => push_node node
  | Unexpected e => throw e
  end.

Fixpoint parse_value (fuel : nat) (depth : nat) : M nat :=
  match fuel with
  | O => out_of_fuel
  | S f =>
      skip_ws_checked E;;
      st ← get;
      if eof E st then err E unexpected_eof (B "std::unexpected end of input")
      else
        check_depth depth;;
        c ← at_pos E;
        if c =b x22 then adv 1;; parse_str_node
        else if is_json5_mode && (c =b x27) then adv 1;; parse_str_node_sq
        else if c =b x5b then parse_array (parse_value f (S depth))
        else if c =b x7b then parse_object (parse_value f (S depth)) (skip_value f (S depth))
        else if c =b x74 then expect_literal (B "true");; push_node (make_bool true)
        else if c =b x66 then expect_literal (B "false");; push_node (make_bool false)
        else if c =b x6e then expect_literal (B "null");; push_node make_null
        else if (c =b x2d) || is_digit c then parse_number
        else unexpected_char c
  end.

(** The body shared by [parse_inplace_impl] and [parse_with_storage_impl],
    after the storage has been prepared. *)
Definition parse_document : M unit :=
  skip_ws_checked E;;
  st ← get;
  if eof E st then throw (simple_error Stage_parse unexpected_eof (B "empty input"))
  else
    root ← parse_value value_fuel 0;
    modify (fun st => set_store (set_root (u32n root) (store st)) st);;
    skip_ws_checked E;;
    st ← get;
    if negb (eof E st) then err E trailing_garbage (B "trailing content after value")
    else mret tt.
End builder.

(** ** Entry points *)

(** The fresh [TreeBuilder] over a prepared storage. *)
Definition initial_state (ds : DocumentStorage) : PState :=
  mkPState 0 1 1 false 0 1 1
    (set_stats (mkStats (length (input_view ds)) 0 0 0 0 0) ds) [] [].

(** [parse_inplace] and [parse_with_storage]: the outcome and the storage it
    leaves. *)
Definition parse_inplace (hash_env : nat -> option Z) (o : JsonParseOptions) (ds : DocumentStorage)
  : outcome unit * DocumentStorage :=
  let '(r, st) := parse_document (mkEnv (input_view ds) (bom_prefix_bytes ds) o) hash_env
                    (initial_state ds) in
  (r, store st).

Definition check_input_limits (input_size : Z) (o : JsonParseOptions) : expected unit JsonError :=
  let kU32Ceiling := 2 ^ 32 - 1 in
  if kU32Ceiling <=? input_size then
    Unexpected (simple_error Stage_parse input_too_large (B "input exceeds 4 GiB hard ceiling"))
  else if exceeds (max_input_size o) input_size kDefaultMaxInput then
    Unexpected (simple_error Stage_parse input_too_large (B "input exceeds max_input_size"))
  else Ok tt.

Definition kBOM : bytes := [xef; xbb; xbf].

Definition set_storage_input_view (own src : bytes) (ds : DocumentStorage) : DocumentStorage :=
  if starts_with src kBOM then set_input own (drop (length kBOM) src) (length kBOM) ds
  else set_input own src (bom_prefix_bytes ds) ds.

(** [prepare_copied_input] and [prepare_moved_input] own the text they view,
    [prepare_borrowed_input] does not. *)
Definition prepare_copied_input (input : bytes) (ds : DocumentStorage) : DocumentStorage :=
  set_storage_input_view input input ds.

Definition prepare_borrowed_input (input : bytes) (ds : DocumentStorage) : DocumentStorage :=
  set_storage_input_view (owned_input ds) input ds.

(** [parse_document_storage] over a fresh storage; the document on success. *)
Definition parse_document_storage (hash_env : nat -> option Z) (o : JsonParseOptions)
  (prepare_input : bytes -> DocumentStorage -> DocumentStorage) (input : bytes)
  : outcome DocumentStorage :=
  match check_input_limits (Z.of_nat (length input)) o with
  | Unexpected e => Fail e
  | Ok _ =>
      match parse_inplace hash_env o (prepare_input input empty_storage) with
      | (Ret _, ds) => Ret ds
      | (Fail e, _) => Fail e
      | (OutOfFuel, _) => OutOfFuel
      | (OutOfBounds, _) => OutOfBounds
      end
  end.

Definition parse_copy (hash_env : nat -> option Z) (o : JsonParseOptions) (input : bytes) :=
  parse_document_storage hash_env o prepare_copied_input input.

Definition parse_borrowed (hash_env : nat -> option Z) (o : JsonParseOptions) (input : bytes) :=
  parse_document_storage hash_env o prepare_borrowed_input input.

(** [parse(string_view)] *)
Definition parse (hash_env : nat -> option Z) (o : JsonParseOptions) (input : bytes) :=
  parse_borrowed hash_env o input.

(** ** The reusable arena *)

Record JsonArena := mkArena { generation_ : Z; arena_storage : DocumentStorage }.

Definition reset_storage_for_reuse (a : JsonArena) : JsonArena :=
  mkArena (u32 (generation_ a + 1)) (reset (arena_storage a)).

(** [parse_into], [parse_moved_into] (copied or moved input) and
    [parse_borrowed_into]: the outcome, with the generation the document
    carries, and the arena afterwards. *)
Definition arena_parse (hash_env : nat -> option Z) (o : JsonParseOptions)
  (prepare_input : bytes -> DocumentStorage -> DocumentStorage) (input : bytes) (a : JsonArena)
  : outcome Z * JsonArena :=
  match check_input_limits (Z.of_nat (length input)) o with
  | Unexpected e => (Fail e, a)
  | Ok _ =>
      let a := reset_storage_for_reuse a in
      let '(r, ds) := parse_inplace hash_env o (prepare_input input (arena_storage a)) in
      let a' := mkArena (generation_ a) ds in
      (match r with
       | Ret _ => Ret (generation_ a)
       | Fail e => Fail e
       | OutOfFuel => OutOfFuel
       | OutOfBounds => OutOfBounds
       end, a')
  end.

(** [JsonArena::reset] *)
Definition arena_reset (a : JsonArena) : JsonArena := mkArena (u32 (generation_ a + 1)) empty_storage.

(** [ArenaDocument::live_] of a handle issued with generation [g]. *)
Definition live_ (a : JsonArena) (g : Z) : bool := generation_ a =? g.

(** The calls a client makes on an arena. *)
Inductive ArenaOp :=
| op_parse_into (o : JsonParseOptions) (input : bytes) (hash_env : nat -> option Z)
| op_parse_borrowed_into (o : JsonParseOptions) (input : bytes) (hash_env : nat -> option Z)
| op_reset.

Definition arena_op (op : ArenaOp) (a : JsonArena) : JsonArena :=
  match op with
  | op_parse_into o input hash_env => snd (arena_parse hash_env o prepare_copied_input input a)
  | op_parse_borrowed_into o input hash_env => snd (arena_parse hash_env o prepare_borrowed_input input a)
  | op_reset => arena_reset a
  end.
