(* ===== verification/JsonTokRefine.v ===== *)
(** * JSON module: the tokenizer implements the reference reader

    Each [Tokenizer] operation is related to its counterpart of [JsonSpec] on
    the remaining input: same result and same rest, or an error with the same
    code and with coordinates that are those of the failing offset. *)

From Stdlib Require Import ZArith Lia Strings.Byte String.
From stdpp Require Import base tactics option numbers list.
From S2P Require Import Prelude ByteScan JsonTypes JsonStorage JsonNumber JsonSpec JsonTokenizer.

(** ** Coordinates *)

(** Line and column after a prefix of the input: a line feed starts a line, a
    UTF-8 continuation byte does not start a character. *)
Definition coord_step (lc : nat * nat) (b : byte) : nat * nat :=
  if b =b x0a then (S (fst lc), 1%nat)
  else if is_cont b then lc else (fst lc, S (snd lc)).

Definition coords (pre : bytes) : nat * nat := fold_left coord_step pre (1%nat, 1%nat).

(** A byte that advances the column by one. *)
Definition plain (c : byte) : bool := negb (c =b x0a) && negb (is_cont c).

Lemma coords_app a b : coords (a ++ b) = fold_left coord_step b (coords a).
Proof. apply fold_left_app. Qed.

Lemma fold_plain p lc :
  Forall (fun c => plain c = true) p -> fold_left coord_step p lc = (fst lc, (snd lc + length p)%nat).
Proof.
  revert lc. induction p as [|c p IH]; intros lc H; simpl.
  - destruct lc. simpl. f_equal. lia.
  - inversion_clear H as [|?? Hc Hp]. unfold plain in Hc. bool_simp.
    rewrite IH by done. unfold coord_step.
    destruct (byte_eqb_spec c x0a); [done|]. rewrite H0. simpl. f_equal. lia.
Qed.

Lemma fold_cont p lc :
  forallb is_cont p = true -> Forall (fun c => c <> x0a) p -> fold_left coord_step p lc = lc.
Proof.
  revert lc. induction p as [|c p IH]; intros lc H Hn; simpl in *; [done|].
  bool_simp. inversion_clear Hn. rewrite IH by done. unfold coord_step.
  destruct (byte_eqb_spec c x0a); [done|]. by rewrite H.
Qed.

Lemma cont_not_newline c : is_cont c = true -> c <> x0a.
Proof. intros H ->. done. Qed.

Lemma implb_use (a b : bool) : implb a b = true -> a = true -> b = true.
Proof. by destruct a, b. Qed.

Lemma digit_plain c : is_digit c = true -> plain c = true.
Proof. apply implb_use. byte_decide c. Qed.

Lemma ident_plain c : is_ident_char c = true -> plain c = true.
Proof. apply implb_use. byte_decide c. Qed.

Lemma ident_start_plain c : is_ident_start c = true -> plain c = true.
Proof. apply implb_use. byte_decide c. Qed.

Lemma hex_plain c v : hex_val c = Some v -> plain c = true.
Proof.
  intros H. apply (implb_use (match hex_val c with Some _ => true | None => false end)).
  - byte_decide c.
  - by rewrite H.
Qed.

Lemma seq_lead_plain c : (utf8_seq_len c =? 0)%nat = false -> byteZ c <? 0x20 = false -> plain c = true.
Proof.
  intros H1 H2. apply (implb_use (negb (utf8_seq_len c =? 0)%nat && negb (byteZ c <? 0x20))).
  - byte_decide c.
  - by rewrite H1, H2.
Qed.

Section refine.
Context (E : Env).

Definition rest (st : PState) : bytes := drop (pos st) (src E).

(** The tokenizer is inside the input, no comment is open, and in strict mode
    its coordinates are those of its position. *)
Record tok_ok (st : PState) : Prop := {
  ok_pos : (pos st <= length (src E))%nat;
  ok_comment : unterminated_block_comment st = false;
  ok_coords : mode (opts E) = strict -> (line st, col st) = coords (take (pos st) (src E))
}.

(** Everything but the coordinates. *)
Definition same_data (a b : PState) : Prop :=
  store a = store b /\ staging a = staging b /\ staging_members a = staging_members b.

(** An error with a given code, located inside the input at its true
    coordinates. *)
Definition err_ok (e : JsonError) (c : JsonIssueCode) : Prop :=
  code e = c /\ stage e = Stage_parse /\
  exists o, (o <= length (src E))%nat /\ exists l k, source e = Some (mkLoc (o + bom E) l k) /\
    (mode (opts E) = strict -> (l, k) = coords (take o (src E))).

(** The outcome of the code against the result of the reader. *)
Definition sim {A B} (res : outcome A * PState) (r : rres B) (Q : A -> B -> PState -> Prop) : Prop :=
  match res, r with
  | (Ret a, st'), ROk b rr => tok_ok st' /\ rest st' = rr /\ Q a b st'
  | (Fail e, _), RErr c => err_ok e c
  | (OutOfFuel, _), RFuel => True
  | _, _ => False
  end.

Lemma sim_bind {A B C D} (m : M A) (f : A -> M C) st (r : rres B) (k : B -> bytes -> rres D) Q Q' :
  sim (m st) r Q ->
  (forall a b st', tok_ok st' -> Q a b st' -> sim (f a st') (k b (rest st')) Q') ->
  sim ((m ≫= f) st) (match r with ROk b rr => k b rr | RErr c => RErr c | RFuel => RFuel end) Q'.
Proof.
  unfold sim, mbind, M_bind. destruct (m st) as [[a|e| |] st'], r as [b rr|c|]; try done.
  intros (Hok & <- & HQ) Hk. by apply Hk.
Qed.

Lemma bind_ext {A B} (m : M A) (f g : A -> M B) st :
  (forall a st', f a st' = g a st') -> (m ≫= f) st = (m ≫= g) st.
Proof. intros Hfg. unfold mbind, M_bind. by destruct (m st) as [[a|e| |] st']. Qed.

Lemma sim_weaken {A B} (res : outcome A * PState) (r : rres B) (Q Q' : A -> B -> PState -> Prop) :
  sim res r Q -> (forall a b st', tok_ok st' -> Q a b st' -> Q' a b st') -> sim res r Q'.
Proof.
  unfold sim. destruct res as [[a|e| |] st'], r; try done. intros (? & ? & ?) HQ. auto.
Qed.

Lemma err_ok_mk st c msg : tok_ok st -> err_ok (mk_err E c msg st) c.
Proof.
  intros [Hp _ Hc]. unfold mk_err, err_ok, located_error. simpl.
  split_and!; [done|done|]. exists (pos st). split; [done|]. by exists (line st), (col st).
Qed.

Lemma sim_err {A B} st c msg (Q : A -> B -> PState -> Prop) :
  tok_ok st -> sim (err E c msg st) (RErr c) Q.
Proof. apply err_ok_mk. Qed.

Lemma sim_ret {A B} st a (b : B) rr (Q : A -> B -> PState -> Prop) :
  tok_ok st -> rest st = rr -> Q a b st -> sim ((mret a : M A) st) (ROk b rr) Q.
Proof. by intros. Qed.

Lemma rest_length st : length (rest st) = (length (src E) - pos st)%nat.
Proof. apply length_drop. Qed.

Lemma lookup_rest st : src E !! pos st = head (rest st).
Proof.
  unfold rest. destruct (src E !! pos st) as [c|] eqn:H.
  - by rewrite (drop_S _ _ _ H).
  - apply lookup_ge_None in H. by rewrite drop_ge.
Qed.

Lemma lookup_rest_S st : src E !! S (pos st) = head (tail (rest st)).
Proof.
  unfold rest. destruct (src E !! pos st) as [c|] eqn:H.
  - rewrite (drop_S _ _ _ H). simpl. destruct (src E !! S (pos st)) as [d|] eqn:H'.
    + by rewrite (drop_S _ _ _ H').
    + apply lookup_ge_None in H'. by rewrite drop_ge.
  - apply lookup_ge_None in H. rewrite drop_ge by lia. simpl. apply lookup_ge_None. lia.
Qed.

Lemma eof_rest st : eof E st = match rest st with [] => true | _ => false end.
Proof.
  unfold eof. pose proof (rest_length st). destruct (rest st); simpl in *.
  - apply Nat.leb_le. lia.
  - apply Nat.leb_gt. lia.
Qed.

Lemma looking_at_rest p st :
  looking_at E p st = match rest st with c :: _ => p c | [] => false end.
Proof. unfold looking_at. rewrite lookup_rest. by destruct (rest st). Qed.

Lemma at_pos_rest st c t : rest st = c :: t -> at_pos E st = (Ret c, st).
Proof. intros H. unfold at_pos. by rewrite lookup_rest, H. Qed.

(** Moving over a piece [pre] of the remaining input. *)
Lemma step_ok st st' pre t :
  tok_ok st -> rest st = pre ++ t -> pos st' = (pos st + length pre)%nat ->
  unterminated_block_comment st' = false ->
  (mode (opts E) = strict ->
   (line st', col st') = fold_left coord_step pre (line st, col st)) ->
  tok_ok st' /\ rest st' = t.
Proof.
  intros [Hp Hu Hc] Hr Hp' Hu' Hc'. unfold rest in *.
  assert (Hl : (pos st + length pre + length t = length (src E))%nat).
  { apply (f_equal length) in Hr. rewrite length_drop, length_app in Hr. lia. }
  split; [constructor|].
  - lia.
  - done.
  - intros Hm. rewrite Hc', Hc, Hp' by done. rewrite <- coords_app. f_equal.
    rewrite (take_drop_app _ (pos st) (pos st + length pre)) by lia. f_equal.
    by rewrite Hr, Nat.add_comm, Nat.add_sub, take_app_length.
  - by rewrite Hp', <- drop_drop, Hr, drop_app_length.
Qed.

Lemma adv_ok st pre t :
  tok_ok st -> rest st = pre ++ t -> Forall (fun c => plain c = true) pre ->
  tok_ok (adv_state (length pre) st) /\ rest (adv_state (length pre) st) = t.
Proof.
  intros Hok Hr Hpl. eapply step_ok; [done|done|done|apply Hok|].
  intros _. rewrite fold_plain by done. done.
Qed.

Lemma adv1_ok st c t :
  tok_ok st -> rest st = c :: t -> plain c = true ->
  tok_ok (adv_state 1 st) /\ rest (adv_state 1 st) = t.
Proof. intros. apply (adv_ok st [c] t); [done|done|by repeat constructor]. Qed.

(** ** White space *)

Lemma blank_plain c : (c =b x20) || (c =b x09) || (c =b x0d) = true -> plain c = true.
Proof. apply implb_use. byte_decide c. Qed.

Lemma skip_blanks_spec n st :
  tok_ok st -> (length (rest st) <= n)%nat ->
  tok_ok (skip_blanks E n st) /\ rest (skip_blanks E n st) = spec_blanks (rest st) /\
  same_data (skip_blanks E n st) st.
Proof.
  revert st. induction n as [|n IH]; intros st Hok Hn; cbn [skip_blanks].
  { destruct (rest st) eqn:Er; simpl in *; [|lia]. done. }
  rewrite lookup_rest. destruct (rest st) as [|c t] eqn:Er; simpl in *; [done|].
  unfold is_blank. destruct (byte_eqb_spec c x0a) as [->|Hc]; simpl.
  - destruct (step_ok st (newline_state st) [x0a] t) as [Hok' Hr']; try done; [by simpl; lia|apply Hok|].
    rewrite <- Hr' in Hn |- *. exact (IH (newline_state st) Hok' ltac:(lia)).
  - destruct ((c =b x20) || (c =b x09) || (c =b x0d)) eqn:Eb; [|done].
    destruct (adv1_ok st c t) as [Hok' Hr']; [done|done|by apply blank_plain|].
    rewrite <- Hr' in Hn |- *. exact (IH (adv_state 1 st) Hok' ltac:(lia)).
Qed.

(** In JSON5 mode only the offset matters. *)
Lemma json5_step st st' pre t :
  mode (opts E) = json5 -> tok_ok st -> rest st = pre ++ t ->
  pos st' = (pos st + length pre)%nat -> unterminated_block_comment st' = false ->
  tok_ok st' /\ rest st' = t.
Proof. intros Hm ? ? ? ?. eapply step_ok; try done. congruence. Qed.

Lemma skip_line_comment_spec n st :
  mode (opts E) = json5 -> tok_ok st -> (length (rest st) <= n)%nat ->
  tok_ok (skip_line_comment E n st) /\
  rest (skip_line_comment E n st) = spec_line_comment (rest st) /\
  same_data (skip_line_comment E n st) st.
Proof.
  intros Hm. revert st. induction n as [|n IH]; intros st Hok Hn; cbn [skip_line_comment].
  { destruct (rest st) eqn:Er; simpl in *; [|lia]. done. }
  rewrite lookup_rest. destruct (rest st) as [|c t] eqn:Er; simpl in *; [done|].
  destruct (c =b x0a); simpl; [done|].
  destruct (json5_step st (adv_state 1 st) [c] t) as [Hok' Hr']; try done; [apply Hok|].
  rewrite <- Hr' in Hn |- *. exact (IH (adv_state 1 st) Hok' ltac:(lia)).
Qed.

Lemma skip_block_comment_spec n st :
  mode (opts E) = json5 -> tok_ok st -> (length (rest st) <= n)%nat ->
  match skip_block_comment E n st, spec_block_comment (rest st) with
  | (true, st'), Some t => tok_ok st' /\ rest st' = t /\ same_data st' st
  | (false, st'), None => unterminated_block_comment st' = false /\ same_data st' st
  | _, _ => False
  end.
Proof.
  intros Hm. revert st. induction n as [|n IH]; intros st Hok Hn; cbn [skip_block_comment].
  { destruct (rest st) eqn:Er; simpl in *; [|lia]. split; [apply Hok|done]. }
  rewrite lookup_rest, lookup_rest_S. destruct (rest st) as [|c t] eqn:Er; simpl in *.
  { split; [apply Hok|done]. }
  destruct t as [|d u]; simpl. { split; [apply Hok|done]. }
  destruct ((c =b x2a) && (d =b x2f)) eqn:Ecd.
  - destruct (json5_step st (adv_state 2 st) [c; d] u) as [Hok' Hr']; try done; apply Hok.
  - assert (Hstep : forall st1, pos st1 = S (pos st) -> unterminated_block_comment st1 = false ->
      same_data st1 st ->
      match skip_block_comment E n st1, spec_block_comment (d :: u) with
      | (true, st'), Some t => tok_ok st' /\ rest st' = t /\ same_data st' st
      | (false, st'), None => unterminated_block_comment st' = false /\ same_data st' st
      | _, _ => False
      end).
    { intros st1 Hp1 Hu1 Hs1.
      destruct (json5_step st st1 [c] (d :: u)) as [Hok' Hr']; try done; [simpl; lia|].
      specialize (IH st1 Hok'). rewrite Hr' in IH. specialize (IH ltac:(simpl in *; lia)).
      destruct Hs1 as (H1 & H2 & H3). unfold same_data in *. by rewrite <- H1, <- H2, <- H3. }
    destruct (c =b x0a); apply Hstep; try done; try apply Hok; simpl; lia.
Qed.
Lemma skip_ws_loop_spec n st :
  tok_ok st -> (length (rest st) < n)%nat ->
  match spec_ws_n n (mode (opts E)) (rest st) with
  | Some t => tok_ok (skip_ws_loop E n st) /\ rest (skip_ws_loop E n st) = t /\
              same_data (skip_ws_loop E n st) st
  | None => let st' := skip_ws_loop E n st in
      mode (opts E) = json5 /\ unterminated_block_comment st' = true /\
      (ubc_pos st' <= length (src E))%nat
  end.
Proof.
  revert st. induction n as [|n IH]; intros st Hok Hn; [lia|]. cbn [skip_ws_loop spec_ws_n].
  rewrite <- rest_length.
  destruct (skip_blanks_spec (length (rest st)) st Hok ltac:(lia)) as (Hok1 & Hr1 & Hd1).
  pose proof (spec_blanks_length (rest st)) as Hbl. revert Hok1 Hr1 Hd1.
  generalize (skip_blanks E (length (rest st)) st) as st1. intros st1 Hok1 Hr1 Hd1.
  destruct (mode (opts E)) eqn:Hm; [by split_and!|].
  rewrite lookup_rest, lookup_rest_S, Hr1.
  destruct (spec_blanks (rest st)) as [|c [|d s2]] eqn:Es; [by split_and!|by split_and!|]. simpl.
  destruct (byte_eqb_spec c x2f) as [->|Hc]; simpl; [|by split_and!]. simpl in Hbl.
  destruct (json5_step st1 (adv_state 2 st1) [x2f; d] s2) as [Hok2 Hr2]; try done; [apply Hok1|].
  destruct (byte_eqb_spec d x2f) as [->|Hd]; [|destruct (byte_eqb_spec d x2a) as [->|Hd']].
  - destruct (skip_line_comment_spec (length (rest st)) (adv_state 2 st1)) as (Hok3 & Hr3 & Hd3);
      [done|done|rewrite Hr2; lia|].
    pose proof (spec_line_comment_length s2). rewrite Hr2 in Hr3.
    specialize (IH _ Hok3). rewrite Hr3 in IH. specialize (IH ltac:(lia)).
    destruct (spec_ws_n n json5 (spec_line_comment s2)); [|done].
    destruct IH as (? & ? & H1 & H2 & H3). destruct Hd1 as (? & ? & ?), Hd3 as (? & ? & ?).
    unfold same_data. simpl in *. split_and!; congruence.
  - pose proof (skip_block_comment_spec (length (rest st)) (adv_state 2 st1) Hm Hok2) as Hb.
    rewrite Hr2 in Hb. specialize (Hb ltac:(lia)).
    destruct (skip_block_comment E (length (rest st)) (adv_state 2 st1)) as [[] st3],
      (spec_block_comment s2) as [s3|] eqn:Eb; try done; simpl.
    + destruct Hb as (Hok3 & Hr3 & Hd3). apply spec_block_comment_length in Eb.
      specialize (IH _ Hok3). rewrite Hr3 in IH. specialize (IH ltac:(lia)).
      destruct (spec_ws_n n json5 s3); [|done].
      destruct IH as (? & ? & H1 & H2 & H3). destruct Hd1 as (? & ? & ?), Hd3 as (? & ? & ?).
      unfold same_data. simpl in *. split_and!; congruence.
    + split_and!; [done|done|apply Hok1].
  - by split_and!.
Qed.

Lemma skip_ws_checked_sim st :
  tok_ok st ->
  sim (skip_ws_checked E st)
    (match spec_ws (mode (opts E)) (rest st) with None => RErr unexpected_eof | Some s => ROk tt s end)
    (fun _ _ st' => same_data st' st).
Proof.
  intros Hok. unfold skip_ws_checked, skip_ws. rewrite (ok_comment _ Hok), <- rest_length.
  unfold spec_ws. pose proof (skip_ws_loop_spec (S (length (rest st))) st Hok ltac:(lia)) as Hw.
  destruct (spec_ws_n _ _ _).
  - destruct Hw as (Hok' & Hr & Hd). by rewrite (ok_comment _ Hok').
  - destruct Hw as (Hm & -> & Hp). unfold sim, err_ok, whitespace_error, located_error. simpl.
    split_and!; [done|done|]. eexists. split; [exact Hp|]. do 2 eexists. split; [done|].
    by rewrite Hm.
Qed.

(** [skip_ws_checked] in front of a computation. *)
Lemma sim_ws {A B} st (f : unit -> M A) (k : bytes -> rres B) Q :
  tok_ok st ->
  (forall st', tok_ok st' -> same_data st' st -> (length (rest st') <= length (rest st))%nat ->
     sim (f tt st') (k (rest st')) Q) ->
  sim ((skip_ws_checked E ≫= f) st) (after_ws (opts E) (rest st) k) Q.
Proof.
  intros Hok Hk. pose proof (skip_ws_checked_sim st Hok) as Hw.
  unfold after_ws. destruct (spec_ws _ _) as [s|] eqn:Es; unfold sim in Hw; unfold mbind, M_bind;
    destruct (skip_ws_checked E st) as [[[]|e| |] st']; try done.
  destruct Hw as (Hok' & <- & Hd). apply Hk; [done|done|]. by apply spec_ws_length in Es.
Qed.

(** ** Escapes and UTF-8 *)

Lemma hex4_value_rest st :
  hex4_value E (pos st) = fst <$> hex4_of (rest st).
Proof.
  assert (Hl : forall k, src E !! (pos st + k)%nat = rest st !! k) by (intros; by rewrite <- lookup_drop).
  unfold hex4_value. rewrite !Hl. destruct (rest st) as [|a [|b [|c [|d t]]]]; simpl.
  - done.
  - by destruct (hex_val a).
  - destruct (hex_val a); simpl; [|done]. by destruct (hex_val b).
  - destruct (hex_val a); simpl; [|done]. destruct (hex_val b); simpl; [|done].
    by destruct (hex_val c).
  - destruct (hex_val a); simpl; [|done]. destruct (hex_val b); simpl; [|done].
    destruct (hex_val c); simpl; [|done]. by destruct (hex_val d).
Qed.

Lemma hex4_of_split s v t :
  hex4_of s = Some (v, t) -> exists h, s = h ++ t /\ length h = 4%nat /\
    Forall (fun c => plain c = true) h.
Proof.
  destruct s as [|a [|b [|c [|d u]]]]; simpl; try done.
  destruct (hex_val a) eqn:Ha; simpl; [|done]. destruct (hex_val b) eqn:Hb; simpl; [|done].
  destruct (hex_val c) eqn:Hc; simpl; [|done]. destruct (hex_val d) eqn:Hd; simpl; [|done].
  intros [= <- <-]. exists [a; b; c; d]. split_and!; [done|done|].
  repeat constructor; eauto using hex_plain.
Qed.

Lemma hex4_spec st :
  tok_ok st ->
  match hex4_of (rest st) with
  | Some (v, t) => hex4 E st = (Ret (Some v), adv_state 4 st) /\
      tok_ok (adv_state 4 st) /\ rest (adv_state 4 st) = t
  | None => hex4 E st = (Ret None, st)
  end.
Proof.
  intros Hok. unfold hex4. rewrite hex4_value_rest. pose proof (rest_length st) as Hl.
  pose proof (ok_pos _ Hok). destruct (Nat.ltb_spec (length (src E)) (pos st + 4)) as [Hlt|Hge].
  - destruct (hex4_of (rest st)) as [[v t]|] eqn:Eh; [|done].
    apply hex4_of_split in Eh as (h & Hr & Hh & _). rewrite Hr, length_app in Hl. lia.
  - destruct (hex4_of (rest st)) as [[v t]|] eqn:Eh; [|done]. simpl.
    apply hex4_of_split in Eh as (h & Hr & Hh & Hp). split; [done|].
    rewrite <- Hh. by apply adv_ok.
Qed.

Lemma spec_unicode_low s1 st :
  tok_ok st -> rest st = s1 -> forall cp,
  sim ((r ← hex4 E;
        match r with
        | Some lo => if is_low_surrogate lo then mret (combine_surrogates cp lo)
                     else err E invalid_unicode_escape (B "invalid low surrogate")
        | None => err E invalid_unicode_escape (B "invalid low surrogate")
        end) st)
    (match hex4_of s1 with
     | Some (lo, s3) => if is_low_surrogate lo then ROk (combine_surrogates cp lo) s3
                        else RErr invalid_unicode_escape
     | None => RErr invalid_unicode_escape
     end) (fun cp cp' st' => cp = cp' /\ same_data st' st).
Proof.
  intros Hok <- cp. pose proof (hex4_spec st Hok) as Hh.
  destruct (hex4_of (rest st)) as [[lo s3]|]; unfold mbind, M_bind.
  - destruct Hh as (-> & Hok' & Hr'). destruct (is_low_surrogate lo); [|by apply sim_err].
    by apply sim_ret.
  - rewrite Hh. by apply sim_err.
Qed.

Lemma parse_unicode_escape_sim st t :
  tok_ok st -> rest st = x75 :: t ->
  sim (parse_unicode_escape E st) (spec_unicode t) (fun cp cp' st' => cp = cp' /\ same_data st' st).
Proof.
  intros Hok Hr. destruct (adv1_ok st x75 t) as [Hok1 Hr1]; [done|done|done|].
  unfold parse_unicode_escape, spec_unicode. rewrite <- Hr1.
  pose proof (hex4_spec (adv_state 1 st) Hok1) as Hh.
  unfold mbind at 1 2, M_bind at 1 2. cbn [adv modify].
  destruct (hex4_of (rest (adv_state 1 st))) as [[cp s1]|]; [|rewrite Hh; by apply sim_err].
  destruct Hh as (-> & Hok2 & Hr2).
  destruct (is_high_surrogate cp).
  - unfold mbind at 1, M_bind at 1. cbn [get]. set (st2 := adv_state 4 (adv_state 1 st)) in *.
    assert (Hd2 : same_data st2 st) by done. clearbody st2.
    assert (Hcond : (length (src E) <? pos st2 + 6)%nat
       || negb (char_at (src E) (pos st2) (fun c => c =b x5c))
       || negb (char_at (src E) (S (pos st2)) (fun c => c =b x75)) =
       match s1 with
       | c :: d :: s2 => (length s2 <? 4)%nat || negb (c =b x5c) || negb (d =b x75)
       | _ => true end).
    { unfold char_at. rewrite lookup_rest, lookup_rest_S, Hr2.
      pose proof (rest_length st2) as Hl. rewrite Hr2 in Hl. pose proof (ok_pos _ Hok2).
      destruct s1 as [|c [|d s2]]; simpl in *; rewrite ?orb_true_r; try done.
      f_equal. f_equal. destruct (Nat.ltb_spec (length (src E)) (pos st2 + 6)),
        (Nat.ltb_spec (length s2) 4); try done; lia. }
    rewrite Hcond. clear Hcond. destruct s1 as [|c [|d s2]]; try by apply sim_err.
    destruct ((length s2 <? 4)%nat || negb (c =b x5c) || negb (d =b x75)) eqn:Eb; [by apply sim_err|].
    bool_simp. subst c d.
    destruct (adv_ok st2 [x5c; x75] s2) as [Hok3 Hr3]; [done|done|by repeat constructor|].
    eapply sim_weaken; [by apply (spec_unicode_low s2 (adv_state 2 st2))|].
    intros a b st' _ [-> Hd]. split; [done|]. destruct Hd as (? & ? & ?), Hd2 as (? & ? & ?).
    unfold same_data. simpl in *. split_and!; congruence.
  - destruct (is_low_surrogate cp); [by apply sim_err|]. by apply sim_ret.
Qed.

Lemma check_utf8_sim st c t :
  tok_ok st -> rest st = c :: t ->
  match check_utf8 E c st, spec_utf8 (c :: t) with
  | (Ret seq, st'), ROk ch rr => st' = st /\ seq = length ch /\ (0 < seq)%nat /\ c :: t = ch ++ rr /\
      ch = substr (src E) (pos st) seq /\
      fold_left coord_step ch (line st, col st) =
        if byteZ c <? 0x20 then fold_left coord_step ch (line st, col st) else (line st, (col st + 1)%nat)
  | (Fail e, _), RErr k => err_ok e k
  | _, _ => False
  end.
Proof.
  intros Hok Hr. unfold check_utf8, spec_utf8, mbind, M_bind. cbn [get].
  destruct (utf8_seq_len c =? 0)%nat eqn:E0; [by apply err_ok_mk|].
  pose proof (rest_length st) as Hl. rewrite Hr in Hl. pose proof (ok_pos _ Hok).
  assert ((length (src E) <? pos st + utf8_seq_len c)%nat = (length (c :: t) <? utf8_seq_len c)%nat) as ->.
  { destruct (Nat.ltb_spec (length (src E)) (pos st + utf8_seq_len c)),
      (Nat.ltb_spec (length (c :: t)) (utf8_seq_len c)); try done; simpl in *; lia. }
  destruct (Nat.ltb_spec (length (c :: t)) (utf8_seq_len c)) as [|Hge];
    [by apply err_ok_mk|].
  assert (substr (src E) (S (pos st)) (utf8_seq_len c - 1) = take (utf8_seq_len c - 1) t) as ->.
  { unfold substr. f_equal. pose proof Hr as Hr'. unfold rest in Hr'.
    assert (Hc : src E !! pos st = Some c) by (by rewrite lookup_rest, Hr).
    rewrite (drop_S _ _ _ Hc) in Hr'. by injection Hr'. }
  destruct (forallb is_cont (take (utf8_seq_len c - 1) t)) eqn:Ec;
    [|by apply err_ok_mk].
  apply Nat.eqb_neq in E0. rewrite length_take.
  split_and!; [done|lia|lia|by rewrite take_drop| |].
  - unfold substr. fold (rest st). by rewrite Hr.
  - destruct (byteZ c <? 0x20) eqn:Elt; [done|].
    destruct (utf8_seq_len c) as [|k] eqn:Ek; [done|]. cbn [take fold_left].
    replace (S k - 1)%nat with k in Ec by lia.
    rewrite fold_cont; [|done|].
    + unfold coord_step. pose proof (seq_lead_plain c) as Hp. unfold plain in Hp.
      rewrite Ek in Hp. specialize (Hp eq_refl Elt). bool_simp.
      destruct (byte_eqb_spec c x0a); [done|]. rewrite H1. simpl. f_equal. lia.
    + apply Forall_forall. intros x Hx. apply cont_not_newline.
      rewrite forallb_forall in Ec. apply Ec. by apply list_elem_of_In.
Qed.
(** ** String bodies *)

(** [ch] was appended to the arena and nothing else changed. *)
Definition appended (st st' : PState) (ch : bytes) : Prop :=
  store st' = set_arena (string_arena (store st) ++ ch) (store st) /\
  staging st' = staging st /\ staging_members st' = staging_members st.

Lemma same_data_trans a b c : same_data a b -> same_data b c -> same_data a c.
Proof. intros (? & ? & ?) (? & ? & ?). unfold same_data. split_and!; congruence. Qed.

Lemma appended_trans a b c x y : appended a b x -> appended b c y -> appended a c (x ++ y).
Proof.
  intros (H1 & H2 & H3) (H4 & H5 & H6). unfold appended. rewrite H4, H1, H5, H6, H2, H3. simpl.
  by rewrite <- app_assoc.
Qed.

Lemma appended_same a b c x : same_data b a -> appended b c x -> appended a c x.
Proof.
  intros (H1 & H2 & H3) (H4 & H5 & H6). unfold appended. rewrite H4, H5, H6, H1, H2, H3. done.
Qed.

Lemma appended_nil a b : same_data b a -> appended a b [].
Proof.
  intros (H1 & H2 & H3). unfold appended. rewrite H1, H2, H3, app_nil_r. by destruct (store a).
Qed.

Lemma tok_ok_store st ds : tok_ok st -> tok_ok (set_store ds st).
Proof. by intros [? ? ?]. Qed.

(** One decoded chunk of an escape: the spec's case analysis of the switch. *)
Definition escape_switch {A} (quote c : byte) (simple : byte -> M A) (unicode : M A) : M A :=
  match simple_escape quote c with
  | Some b => simple b
  | None => if c =b x75 then unicode else err E syntax_error (B "invalid escape")
  end.

Lemma simple_escape_plain q c b : simple_escape q c = Some b -> plain c = true.
Proof.
  intros H. apply (implb_use (match simple_escape q c with Some _ => true | None => false end)).
  - unfold simple_escape. destruct (q =b x27); byte_decide c.
  - by rewrite H.
Qed.

Lemma escape_switch_sim {A} quote st (simple : byte -> M A) (unicode : M A) e t
  (Q : A -> bytes -> PState -> Prop) :
  tok_ok st -> rest st = e :: t ->
  (forall b, simple_escape quote e = Some b -> sim (simple b st) (ROk [b] t) Q) ->
  (e = x75 -> sim (unicode st)
     (match spec_unicode t with ROk cp r => ROk (encode_utf8 cp) r | RErr c => RErr c | RFuel => RFuel end) Q) ->
  sim (escape_switch quote e simple unicode st) (spec_escape quote (e :: t)) Q.
Proof.
  intros Hok Hr Hs Hu. unfold escape_switch, spec_escape.
  destruct (simple_escape quote e) as [b|] eqn:Eb; [by apply Hs|].
  destruct (byte_eqb_spec e x75); [by apply Hu|by apply sim_err].
Qed.

(** The arena-writing escape functions. *)
Definition arena_simple (b : byte) : M unit := modify (append_arena [b]);; adv 1.
Definition arena_unicode : M unit := cp ← parse_unicode_escape E; modify (append_arena (encode_utf8 cp)).

Lemma arena_escape_sim quote st :
  tok_ok st ->
  sim ((if eof E st then err E unexpected_eof (B "EOF in escape")
        else c ← at_pos E; escape_switch quote c arena_simple arena_unicode) st)
    (spec_escape quote (rest st)) (fun _ ch st' => appended st st' ch).
Proof.
  intros Hok. rewrite eof_rest. destruct (rest st) as [|e t] eqn:Hr; [by apply sim_err|].
  unfold mbind at 1, M_bind at 1. rewrite (at_pos_rest st e t) by done.
  apply escape_switch_sim; [done|done| |].
  - intros b Hb. destruct (adv1_ok st e t) as [Hok' Hr']; [done|done|by eapply simple_escape_plain|].
    split_and!; [|exact Hr'|done]. by apply (tok_ok_store _ _ Hok').
  - intros ->. unfold arena_unicode.
    apply (sim_bind _ _ st (spec_unicode t) (fun cp r => ROk (encode_utf8 cp) r)
             (fun cp cp' st' => cp = cp' /\ same_data st' st)); [by apply parse_unicode_escape_sim|].
    intros cp cp' st' Hok' [<- Hd]. split_and!; [by apply tok_ok_store|done|].
    eapply appended_same; [exact Hd|done].
Qed.

Lemma decode_escape_sim st :
  tok_ok st -> sim (decode_escape E st) (spec_escape x22 (rest st)) (fun _ ch st' => appended st st' ch).
Proof.
  intros Hok. assert (decode_escape E st =
    (if eof E st then err E unexpected_eof (B "EOF in escape")
     else c ← at_pos E; escape_switch x22 c arena_simple arena_unicode) st) as ->.
  { unfold decode_escape. unfold mbind at 1, M_bind at 1. cbn [get].
    destruct (eof E st); [done|]. apply bind_ext. by intros []. }
  by apply arena_escape_sim.
Qed.

Lemma sq_escape_sim st :
  tok_ok st -> sim (sq_escape E st) (spec_escape x27 (rest st)) (fun _ ch st' => appended st st' ch).
Proof.
  intros Hok. assert (sq_escape E st =
    (if eof E st then err E unexpected_eof (B "EOF in escape")
     else c ← at_pos E; escape_switch x27 c arena_simple arena_unicode) st) as ->.
  { unfold sq_escape. unfold mbind at 1, M_bind at 1. cbn [get].
    destruct (eof E st); [done|]. apply bind_ext. by intros []. }
  by apply arena_escape_sim.
Qed.
(** One iteration of the decoding loops, the next one abstracted. *)
Definition arena_loop_body (quote : byte) (esc : M unit) (again : M ParsedStr) (arena_off : nat)
  : M ParsedStr :=
  st ← get;
  if eof E st then err E unexpected_eof (B "EOF in string")
  else
    c ← at_pos E;
    if c =b quote then
      adv 1;;
      st ← get;
      mret (mkParsedStr (u32n arena_off) (u32n (length (string_arena (store st)) - arena_off)) 0)
    else if byteZ c <? 0x20 then err E syntax_error (B "unescaped control character")
    else if c =b x5c then adv 1;; esc;; again
    else
      seq ← check_utf8 E c;
      modify (append_arena (substr (src E) (pos st) seq));;
      adv_seq seq;;
      again.

Definition decoded_in_arena (arena_off : nat) (st : PState) (p : ParsedStr) (d : bytes) (st' : PState)
  : Prop :=
  appended st st' d /\
  p = mkParsedStr (u32n arena_off) (u32n (length (string_arena (store st')) - arena_off)) 0.

Lemma adv_seq_ok st c t ch rr ds :
  tok_ok st -> rest st = c :: t -> c :: t = ch ++ rr -> byteZ c <? 0x20 = false ->
  fold_left coord_step ch (line st, col st) =
    (if byteZ c <? 0x20 then fold_left coord_step ch (line st, col st) else (line st, (col st + 1)%nat)) ->
  let st' := set_coords (pos st + length ch) (line st) (col st + 1) (set_store ds st) in
  tok_ok st' /\ rest st' = rr.
Proof.
  intros Hok Hr Hs Hc Hf. rewrite Hc in Hf.
  apply (step_ok st _ ch rr); [done|by rewrite Hr|done|apply Hok|]. intros _. by rewrite Hf.
Qed.

Lemma arena_loop_step quote esc again ao st n :
  plain quote = true -> tok_ok st ->
  (forall st', tok_ok st' -> sim (esc st') (spec_escape quote (rest st')) (fun _ ch st'' => appended st' st'' ch)) ->
  (forall st', tok_ok st' -> sim (again st') (spec_string_n n quote (rest st')) (decoded_in_arena ao st')) ->
  sim (arena_loop_body quote esc again ao st) (spec_string_n (S n) quote (rest st)) (decoded_in_arena ao st).
Proof.
  intros Hq Hok Hesc Hagain. unfold arena_loop_body. unfold mbind at 1, M_bind at 1. cbn [get].
  rewrite eof_rest. cbn [spec_string_n spec_item].
  destruct (rest st) as [|c t] eqn:Hr; [by apply sim_err|]. cbn [spec_item].
  unfold mbind at 1, M_bind at 1. rewrite (at_pos_rest st c t) by done.
  destruct (byte_eqb_spec c quote) as [->|Hc].
  { destruct (adv1_ok st quote t) as [Hok' Hr']; [done|done|done|].
    split_and!; [done|done|]. split; [by apply appended_nil|done]. }
  destruct (byteZ c <? 0x20) eqn:Ec; [by apply sim_err|].
  assert (Hrec : forall st1 ch rr, tok_ok st1 -> rest st1 = rr -> appended st st1 ch ->
    sim (again st1) (rmap (app ch) (spec_string_n n quote rr)) (decoded_in_arena ao st)).
  { intros st1 ch rr Hok1 <- Ha. specialize (Hagain st1 Hok1). unfold sim in *.
    destruct (again st1) as [[p|e| |] st2], (spec_string_n n quote (rest st1)); try done.
    destruct Hagain as (? & ? & Ha2 & ->). split_and!; [done|done|]. split; [|done].
    by eapply appended_trans. }
  destruct (byte_eqb_spec c x5c) as [->|Hb].
  - destruct (adv1_ok st x5c t) as [Hok' Hr']; [done|done|done|].
    specialize (Hesc _ Hok'). rewrite Hr' in Hesc. unfold mbind, M_bind. cbn [adv modify].
    destruct (esc (adv_state 1 st)) as [[[]|e| |] st2], (spec_escape quote t) as [ch rr|e'|]; try done.
    destruct Hesc as (Hok2 & Hr2 & Ha). by apply Hrec.
  - pose proof (check_utf8_sim st c t Hok Hr) as Hu. unfold mbind at 1, M_bind at 1.
    destruct (check_utf8 E c st) as [[seq|e| |] st2], (spec_utf8 (c :: t)) as [ch rr|e'|]; try done.
    destruct Hu as (-> & -> & Hpos & Hs & Hch & Hf).
    destruct (adv_seq_ok st c t ch rr (set_arena (string_arena (store st) ++ ch) (store st)))
      as [Hok2 Hr2]; try done.
    unfold mbind, M_bind. cbn [modify adv_seq]. rewrite <- Hch. by apply Hrec.
Qed.

Lemma decode_tail_loop_sim n ao st :
  tok_ok st -> sim (decode_tail_loop E n ao st) (spec_string_n n x22 (rest st)) (decoded_in_arena ao st).
Proof.
  revert st. induction n as [|n IH]; intros st Hok; [done|].
  apply (arena_loop_step x22 (decode_escape E) (decode_tail_loop E n ao)); try done.
  apply decode_escape_sim.
Qed.

Lemma str_body_sq_loop_sim n ao st :
  tok_ok st -> sim (str_body_sq_loop E n ao st) (spec_string_n n x27 (rest st)) (decoded_in_arena ao st).
Proof.
  revert st. induction n as [|n IH]; intros st Hok; [done|].
  apply (arena_loop_step x27 (sq_escape E) (str_body_sq_loop E n ao)); try done.
  apply sq_escape_sim.
Qed.

(** ** Parsed strings *)

(** A byte that a dumped string holds as it is. *)
Definition clean (c : byte) : Prop := Swar.stop_escape c = false.

(** A string reference of the parser: raw input with nothing to escape, or
    decoded bytes in the arena. *)
Definition flags_ok (fl : Z) (d : bytes) : Prop := (fl = kRawInput /\ Forall clean d) \/ fl = 0.

Context (Hsize : Z.of_nat (length (src E)) < 2 ^ 32).

(** The storage side of the state: it views the input, and the arena holds no
    more bytes than have been consumed. *)
Record st_ok (st : PState) : Prop := {
  st_tok : tok_ok st;
  st_input : input_view (store st) = src E;
  st_arena : (length (string_arena (store st)) <= pos st)%nat
}.

Definition parsed_ok (st : PState) (p : ParsedStr) (d : bytes) (st' : PState) : Prop :=
  text_at (store st') (ps_off p) (ps_len p) (ps_flags p) d /\ flags_ok (ps_flags p) d /\
  (length (string_arena (store st')) <= pos st')%nat /\ exists x, appended st st' x.

Lemma pos_rest st : tok_ok st -> (pos st + length (rest st) = length (src E))%nat.
Proof. intros Hok. rewrite rest_length. pose proof (ok_pos _ Hok). lia. Qed.

Lemma fits_u32 n : (n <= length (src E))%nat -> u32n n = n.
Proof. intros. apply u32n_small. lia. Qed.

Lemma substr_app_r (a b : bytes) : substr (a ++ b) (length a) (length b) = b.
Proof. unfold substr. rewrite drop_app_length. by rewrite take_ge. Qed.

(** What the decoding loops leave is a valid reference. *)
Lemma decoded_parsed st0 st1 pre p d st' :
  st_ok st0 -> appended st0 st1 pre -> tok_ok st1 ->
  (length (string_arena (store st1)) <= pos st1)%nat ->
  decoded_in_arena (length (string_arena (store st0))) st1 p d st' ->
  tok_ok st' -> (length (rest st') + length d <= length (rest st1))%nat ->
  parsed_ok st0 p (pre ++ d) st'.
Proof.
  intros [Hok0 Hin Har] Hpre Hok1 Har1 [Happ ->] Hok' Hlen.
  pose proof (appended_trans _ _ _ _ _ Hpre Happ) as (Hst & Hsg & Hsm).
  pose proof (pos_rest _ Hok1). pose proof (pos_rest _ Hok'). pose proof (pos_rest _ Hok0).
  assert (Hl : (length (string_arena (store st')) <= pos st')%nat).
  { destruct Happ as (-> & _). simpl. rewrite length_app. lia. }
  unfold parsed_ok. split_and!; [|by right|done|].
  - cbn [ps_off ps_len ps_flags]. rewrite !fits_u32 by lia. unfold text_at.
    assert (Harena : string_arena (store st') = string_arena (store st0) ++ (pre ++ d)) by (by rewrite Hst).
    rewrite Harena, length_app. split; [|lia].
    unfold bytes_at, str_at. cbn -[substr]. rewrite Harena.
    replace (length (string_arena (store st0)) + length (pre ++ d) - length (string_arena (store st0)))%nat
      with (length (pre ++ d)) by lia. apply substr_app_r.
  - by exists (pre ++ d).
Qed.

Lemma parse_str_body_sq_sim st :
  st_ok st -> sim (parse_str_body_sq E st) (spec_string x27 (rest st)) (parsed_ok st).
Proof.
  intros Hst. pose proof (st_tok _ Hst) as Hok. unfold parse_str_body_sq, mbind, M_bind. cbn [get].
  rewrite <- rest_length. pose proof (str_body_sq_loop_sim (S (length (rest st)))
    (length (string_arena (store st))) st Hok) as Hs. fold (spec_string x27 (rest st)) in Hs.
  unfold sim in *. destruct (str_body_sq_loop _ _ _ _) as [[p|e| |] st'],
    (spec_string x27 (rest st)) as [d rr|e'|] eqn:Ed; try done.
  destruct Hs as (Hok' & Hr' & Hd). split_and!; [done|done|].
  apply spec_string_n_length in Ed.
  apply (decoded_parsed st st [] p d st'); try done; [by apply appended_nil|apply Hst|rewrite Hr'; lia].
Qed.

(** *** The vector path *)

Lemma special_clean c : Swar.stop_special c = false ->
  clean c /\ plain c = true /\ utf8_seq_len c = 1%nat /\ c <> x22 /\ c <> x5c /\ byteZ c <? 0x20 = false.
Proof.
  intros Hs.
  assert (negb (Swar.stop_special c) && negb (negb (Swar.stop_escape c) && plain c
    && (utf8_seq_len c =? 1)%nat && negb (c =b x22) && negb (c =b x5c) && negb (byteZ c <? 0x20)) = false) as Hb.
  { apply negb_true_iff. byte_decide c. }
  rewrite Hs in Hb. simpl in Hb. bool_simp. unfold clean. split_and!; try done. by apply Z.ltb_ge.
Qed.

Lemma spec_item_plain c t :
  Swar.stop_special c = false -> spec_item x22 (c :: t) = ROk (inr [c]) t.
Proof.
  intros Hs. destruct (special_clean c Hs) as (_ & _ & Hu & H1 & H2 & H3).
  unfold spec_item, spec_utf8. destruct (byte_eqb_spec c x22); [done|]. rewrite H3.
  destruct (byte_eqb_spec c x5c); [done|]. rewrite Hu. simpl. by rewrite take_0, drop_0.
Qed.

Lemma spec_string_run run s :
  Forall (fun c => Swar.stop_special c = false) run ->
  spec_string x22 (run ++ s) = rmap (app run) (spec_string x22 s).
Proof.
  induction 1 as [|c run Hc _ IH]; cbn [app]; [by destruct (spec_string x22 s)|].
  rewrite spec_string_step, spec_item_plain by done. rewrite IH.
  by destruct (spec_string x22 s).
Qed.

(** The state of the vector loop: the bytes from [start] on are clean. *)
Definition clean_from (start : nat) (st : PState) (pre : bytes) : Prop :=
  pre = substr (src E) start (pos st - start) /\ (start <= pos st)%nat /\ Forall clean pre.

Lemma clean_from_extend start st st' pre run :
  clean_from start st pre -> rest st = run ++ rest st' -> tok_ok st -> tok_ok st' ->
  Forall clean run -> clean_from start st' (pre ++ run).
Proof.
  intros (-> & Hle & Hc) Hr Hok Hok' Hcl.
  pose proof (pos_rest _ Hok) as H1. pose proof (pos_rest _ Hok') as H2.
  rewrite Hr, length_app in H1. assert (Hp : pos st' = (pos st + length run)%nat) by lia.
  split_and!; [|lia|by apply Forall_app_2].
  rewrite (substr_split (src E) start (pos st) (pos st')) by lia. f_equal.
  unfold substr. fold (rest st). rewrite Hr, Hp.
  replace (pos st + length run - pos st)%nat with (length run) by lia. by rewrite take_app_length.
Qed.

Lemma raw_parsed st0 st start pre :
  st_ok st0 -> same_data st st0 -> tok_ok st -> clean_from start st pre ->
  (length (string_arena (store st0)) <= pos st)%nat -> forall t, rest st = x22 :: t ->
  parsed_ok st0 (mkParsedStr start (Z.to_nat (u32 (u32 (Z.of_nat (pos st)) - Z.of_nat start))) kRawInput)
    pre (adv_state 1 st).
Proof.
  intros [Hok0 Hin Har] (Hs1 & Hs2 & Hs3) Hok (Hpre & Hle & Hcl) Hpos t Hr.
  pose proof (pos_rest _ Hok) as Hp. rewrite Hr in Hp. simpl in Hp.
  assert (Z.to_nat (u32 (u32 (Z.of_nat (pos st)) - Z.of_nat start)) = (pos st - start)%nat) as ->.
  { rewrite (u32_small (Z.of_nat (pos st))) by lia. rewrite u32_small by lia. lia. }
  unfold parsed_ok. cbn [ps_off ps_len ps_flags]. split_and!.
  - unfold text_at, bytes_at. cbn -[substr]. rewrite Hs1, Hin, <- Hpre. split; [done|].
    subst pre. rewrite substr_length. lia.
  - by left.
  - simpl. rewrite Hs1. lia.
  - exists []. by apply appended_nil.
Qed.
(** Lift a result for the rest to the text with [pre] in front. *)
Lemma sim_prefix {A} (res : outcome A * PState) (r : rres bytes) (pre ch : bytes)
  (Q : A -> bytes -> PState -> Prop) :
  sim res r (fun a d st' => Q a ((pre ++ ch) ++ d) st') ->
  sim res (rmap (app ch) r) (fun a d st' => Q a (pre ++ d) st').
Proof.
  unfold sim. destruct res as [[a|e| |] st'], r as [d rr| |]; try done.
  cbn [rmap]. by rewrite <- app_assoc.
Qed.

(** The slow path from the vector loop: copy the prefix, decode the tail. *)
Lemma decode_from_sim st0 st pre :
  st_ok st0 -> same_data st st0 -> tok_ok st -> clean_from (pos st0) st pre ->
  sim (parse_str_decode_tail E (length (string_arena (store st0))) (append_arena pre st))
    (spec_string x22 (rest st)) (fun p d st' => parsed_ok st0 p (pre ++ d) st').
Proof.
  intros Hst0 Hd Hok (Hpre & Hle & Hcl).
  set (st1 := append_arena pre st). assert (Hok1 : tok_ok st1) by (by apply tok_ok_store).
  unfold parse_str_decode_tail, mbind, M_bind. cbn [get].
  rewrite <- (rest_length st1). change (rest st1) with (rest st).
  pose proof (decode_tail_loop_sim (S (length (rest st))) (length (string_arena (store st0))) st1 Hok1) as Hs.
  change (rest st1) with (rest st) in Hs. fold (spec_string x22 (rest st)) in Hs.
  unfold sim in *. destruct (decode_tail_loop _ _ _ _) as [[p|e| |] st'],
    (spec_string x22 (rest st)) as [d rr|e'|] eqn:Ed; try done.
  destruct Hs as (Hok' & Hr' & Hdec). split_and!; [done|done|].
  apply spec_string_n_length in Ed. apply (decoded_parsed st0 st1 pre p d st'); try done.
  - by apply (appended_same st0 st).
  - simpl. destruct Hd as (-> & _). rewrite length_app. pose proof (st_arena _ Hst0).
    assert (length pre = (pos st - pos st0)%nat).
    { subst pre. rewrite substr_length. pose proof (ok_pos _ Hok). lia. }
    lia.
  - rewrite Hr'. change (rest st1) with (rest st). lia.
Qed.

Lemma spec_utf8_clean c t ch rr :
  c <> x22 -> c <> x5c -> byteZ c <? 0x20 = false ->
  spec_utf8 (c :: t) = ROk ch rr -> Forall clean ch.
Proof.
  intros H1 H2 H3. unfold spec_utf8. destruct (Nat.eqb_spec (utf8_seq_len c) 0); [done|].
  destruct (_ <? _)%nat; [done|]. destruct (forallb _ _) eqn:Ef; [|done]. intros [= <- <-].
  destruct (utf8_seq_len c) as [|k]; [done|]. cbn [take]. replace (S k - 1)%nat with k in Ef by lia.
  constructor.
  - unfold clean, Swar.stop_escape. rewrite H3. by destruct (byte_eqb_spec c x22), (byte_eqb_spec c x5c).
  - apply Forall_forall. intros x Hx%list_elem_of_In. rewrite forallb_forall in Ef.
    specialize (Ef x Hx). unfold clean. apply negb_true_iff.
    apply (implb_use (is_cont x)); [byte_decide x|done].
Qed.

(** The boundary byte of the vector loop, the next iteration abstracted. *)
Definition boundary_body (start_pos : nat) (again : M ParsedStr) : M ParsedStr :=
  st ← get;
  if eof E st then err E unexpected_eof (B "EOF in string")
  else
    c ← at_pos E;
    if c =b x22 then
      let len := Z.to_nat (u32 (u32 (Z.of_nat (pos st)) - Z.of_nat start_pos)) in
      adv 1;; mret (mkParsedStr start_pos len kRawInput)
    else if byteZ c <? 0x20 then err E syntax_error (B "unescaped control character")
    else if c =b x5c then
      let arena_off := length (string_arena (store st)) in
      modify (append_arena (substr (src E) start_pos (pos st - start_pos)));;
      parse_str_decode_tail E arena_off
    else
      seq ← check_utf8 E c;
      adv_seq seq;;
      again.

Lemma boundary_sim again st0 st pre :
  st_ok st0 -> same_data st st0 -> tok_ok st -> clean_from (pos st0) st pre ->
  (forall st' pre', same_data st' st0 -> tok_ok st' -> clean_from (pos st0) st' pre' ->
     (length (rest st') < length (rest st))%nat ->
     sim (again st') (spec_string x22 (rest st')) (fun p d st'' => parsed_ok st0 p (pre' ++ d) st'')) ->
  sim (boundary_body (pos st0) again st) (spec_string x22 (rest st))
    (fun p d st' => parsed_ok st0 p (pre ++ d) st').
Proof.
  intros Hst0 Hd Hok Hcl Hagain. unfold boundary_body. unfold mbind at 1, M_bind at 1. cbn [get].
  rewrite eof_rest. destruct (rest st) as [|c t] eqn:Hr; [by apply sim_err|].
  unfold mbind at 1, M_bind at 1. rewrite (at_pos_rest st c t) by done.
  destruct (byte_eqb_spec c x22) as [->|Hcq].
  { destruct (adv1_ok st x22 t) as [Hok2 Hr2]; [done|done|done|].
    rewrite spec_string_step. cbn [spec_item]. split_and!; [done|done|]. rewrite app_nil_r.
    apply (raw_parsed st0 st (pos st0) pre) with (t := t); try done.
    pose proof (st_arena _ Hst0). destruct Hcl as (_ & ? & _). lia. }
  destruct (byteZ c <? 0x20) eqn:Ec.
  { rewrite spec_string_step. cbn [spec_item]. destruct (byte_eqb_spec c x22); [done|]. rewrite Ec.
    by apply sim_err. }
  destruct (byte_eqb_spec c x5c) as [->|Hcb].
  - rewrite <- Hr. unfold mbind at 1, M_bind at 1. cbn [modify].
    destruct Hcl as (Hp1 & Hle1 & Hf1). rewrite <- Hp1. rewrite (proj1 Hd).
    by apply decode_from_sim.
  - rewrite spec_string_step. cbn [spec_item]. destruct (byte_eqb_spec c x22); [done|]. rewrite Ec.
    destruct (byte_eqb_spec c x5c); [done|].
    pose proof (check_utf8_sim st c t Hok Hr) as Hu. unfold mbind at 1, M_bind at 1.
    destruct (check_utf8 E c st) as [[seq|e| |] st2], (spec_utf8 (c :: t)) as [ch rr|e'|] eqn:Eu; try done.
    destruct Hu as (-> & -> & Hpos & Hs & Hch & Hf).
    destruct (adv_seq_ok st c t ch rr (store st)) as [Hok2 Hr2]; try done.
    apply sim_prefix. rewrite <- Hr2. apply Hagain; [done|done| |].
    + apply (clean_from_extend (pos st0) st); try done; [by rewrite Hr, Hr2|].
      by eapply spec_utf8_clean.
    + rewrite Hr2, Hs, length_app. lia.
Qed.

Lemma str_body_loop_sim n st0 st pre :
  st_ok st0 -> same_data st st0 -> tok_ok st -> clean_from (pos st0) st pre ->
  (length (rest st) < n)%nat ->
  sim (str_body_loop E n (pos st0) st) (spec_string x22 (rest st))
    (fun p d st' => parsed_ok st0 p (pre ++ d) st').
Proof.
  intros Hst0. revert st pre. induction n as [|n IH]; intros st pre Hd Hok Hcl Hn; [lia|].
  change (sim ((if eof E st then err E unexpected_eof (B "EOF in string") else
    adv (Simd.scan_str_until_special (rest st));; boundary_body (pos st0) (str_body_loop E n (pos st0))) st)
    (spec_string x22 (rest st)) (fun p d st' => parsed_ok st0 p (pre ++ d) st')).
  rewrite eof_rest. destruct (rest st) as [|c0 t0] eqn:Hr0; [by apply sim_err|]. rewrite <- Hr0 in *.
  unfold mbind at 1, M_bind at 1. cbn [adv modify].
  rewrite ScanSpec.scan_str_until_special_spec. set (k := first_index Swar.stop_special (rest st)).
  assert (Hrun : Forall (fun c => Swar.stop_special c = false) (take k (rest st))) by apply first_index_take.
  assert (Hk : length (take k (rest st)) = k).
  { rewrite length_take. pose proof (first_index_le Swar.stop_special (rest st)) as Hfi. fold k in Hfi. lia. }
  destruct (adv_ok st (take k (rest st)) (drop k (rest st))) as [Hok1 Hr1];
    [done|by rewrite take_drop| |].
  { eapply Forall_impl; [exact Hrun|]. intros c Hc. by apply special_clean. }
  rewrite Hk in Hok1, Hr1. rewrite <- (take_drop k (rest st)) at 1.
  rewrite spec_string_run by done. apply sim_prefix. rewrite <- Hr1.
  apply boundary_sim; [done|done|done| |].
  - apply (clean_from_extend (pos st0) st); try done; [by rewrite Hr1, take_drop|].
    eapply Forall_impl; [exact Hrun|]. intros c Hc. by apply special_clean.
  - intros st' pre' Hd' Hok' Hcl' Hlen. apply IH; try done. rewrite Hr1, length_drop in Hlen. lia.
Qed.

Lemma parse_str_body_sim st :
  st_ok st -> sim (parse_str_body E st) (spec_string x22 (rest st)) (parsed_ok st).
Proof.
  intros Hst. pose proof (st_tok _ Hst) as Hok. unfold parse_str_body, mbind, M_bind. cbn [get].
  rewrite <- rest_length, fits_u32 by apply Hok.
  apply (str_body_loop_sim _ st st []); try done; [|lia].
  split_and!; [by rewrite Nat.sub_diag|done|constructor].
Qed.
(** ** Skipped strings *)

Lemma skip_escape_sim quote st :
  tok_ok st ->
  sim (skip_escape E quote st) (spec_escape quote (rest st))
    (fun k ch st' => k = length ch /\ same_data st' st).
Proof.
  intros Hok. assert (skip_escape E quote st =
    (if eof E st then err E unexpected_eof (B "EOF in escape")
     else c ← at_pos E; escape_switch quote c (fun _ => adv 1;; mret 1%nat)
            (cp ← parse_unicode_escape E; mret (utf8_encoded_len cp))) st) as ->.
  { unfold skip_escape. unfold mbind at 1, M_bind at 1. cbn [get].
    destruct (eof E st); [done|]. apply bind_ext. unfold escape_switch.
    intros []; try done. intros st'. simpl. by destruct (quote =b x27). }
  rewrite eof_rest. destruct (rest st) as [|e t] eqn:Hr; [by apply sim_err|].
  unfold mbind at 1, M_bind at 1. rewrite (at_pos_rest st e t) by done.
  apply escape_switch_sim; [done|done| |].
  - intros b Hb. destruct (adv1_ok st e t) as [Hok' Hr']; [done|done|by eapply simple_escape_plain|].
    by split_and!.
  - intros ->. apply (sim_bind _ _ st (spec_unicode t) (fun cp r => ROk (encode_utf8 cp) r)
             (fun cp cp' st' => cp = cp' /\ same_data st' st)); [by apply parse_unicode_escape_sim|].
    intros cp cp' st' Hok' [<- Hd]. split_and!; [done|done|by rewrite encode_utf8_length|done].
Qed.

Lemma skip_str_loop_sim n quote k st :
  plain quote = true -> tok_ok st ->
  sim (skip_str_loop E n quote k st) (spec_string_n n quote (rest st))
    (fun len d st' => len = u32n (k + length d) /\ same_data st' st).
Proof.
  intros Hq. revert k st. induction n as [|n IH]; intros k st Hok; [done|].
  cbn [skip_str_loop spec_string_n]. unfold mbind at 1, M_bind at 1. cbn [get].
  rewrite eof_rest. destruct (rest st) as [|c t] eqn:Hr; [by apply sim_err|]. cbn [spec_item].
  unfold mbind at 1, M_bind at 1. rewrite (at_pos_rest st c t) by done.
  destruct (byte_eqb_spec c quote) as [->|Hc].
  { destruct (adv1_ok st quote t) as [Hok' Hr']; [done|done|done|].
    split_and!; [done|done|by rewrite Nat.add_0_r|done]. }
  destruct (byteZ c <? 0x20) eqn:Ec; [by apply sim_err|].
  assert (Hrec : forall st1 ch j rr, tok_ok st1 -> rest st1 = rr -> j = length ch -> same_data st1 st ->
    sim (skip_str_loop E n quote (k + j) st1) (rmap (app ch) (spec_string_n n quote rr))
      (fun len d st' => len = u32n (k + length d) /\ same_data st' st)).
  { intros st1 ch j rr Hok1 <- -> Hs. specialize (IH (k + length ch)%nat st1 Hok1). unfold sim in *.
    destruct (skip_str_loop _ _ _ _ _) as [[p|e| |] st2], (spec_string_n n quote (rest st1)); try done.
    destruct IH as (? & ? & -> & ?). split_and!; [done|done| |by eapply same_data_trans].
    rewrite length_app. f_equal. lia. }
  destruct (byte_eqb_spec c x5c) as [->|Hb].
  - destruct (adv1_ok st x5c t) as [Hok' Hr']; [done|done|done|].
    pose proof (skip_escape_sim quote _ Hok') as Hesc. rewrite Hr' in Hesc.
    unfold mbind, M_bind. cbn [adv modify].
    destruct (skip_escape E quote (adv_state 1 st)) as [[j|e| |] st2], (spec_escape quote t) as [ch rr|e'|]; try done.
    destruct Hesc as (Hok2 & Hr2 & -> & Hd). by apply Hrec.
  - pose proof (check_utf8_sim st c t Hok Hr) as Hu. unfold mbind at 1, M_bind at 1.
    destruct (check_utf8 E c st) as [[seq|e| |] st2], (spec_utf8 (c :: t)) as [ch rr|e'|]; try done.
    destruct Hu as (-> & -> & Hpos & Hs & Hch & Hf).
    destruct (adv_seq_ok st c t ch rr (store st)) as [Hok2 Hr2]; try done.
    unfold mbind, M_bind. cbn [modify adv_seq]. by apply Hrec.
Qed.

Lemma skip_str_body_sim quote st :
  plain quote = true -> tok_ok st ->
  sim (skip_str_body_no_store E quote st) (spec_string quote (rest st))
    (fun len d st' => len = length d /\ same_data st' st).
Proof.
  intros Hq Hok. unfold skip_str_body_no_store, mbind, M_bind. cbn [get]. rewrite <- rest_length.
  pose proof (skip_str_loop_sim (S (length (rest st))) quote 0 st Hq Hok) as Hs.
  fold (spec_string quote (rest st)) in Hs. unfold sim in *.
  destruct (skip_str_loop _ _ _ _ _) as [[len|e| |] st'], (spec_string quote (rest st)) eqn:Ed; try done.
  destruct Hs as (? & ? & -> & ?). split_and!; try done.
  apply spec_string_n_length in Ed. rewrite fits_u32; [done|]. pose proof (pos_rest _ Hok). lia.
Qed.

(** ** Runs of characters *)

Lemma skip_while_spec p n st :
  (forall c, p c = true -> plain c = true) -> tok_ok st -> (length (rest st) <= n)%nat ->
  let st' := skip_while E p n st in
  tok_ok st' /\ rest st' = snd (span p (rest st)) /\ same_data st' st /\
  pos st' = (pos st + length (fst (span p (rest st))))%nat.
Proof.
  intros Hp. revert st. induction n as [|n IH]; intros st Hok Hn; cbn [skip_while].
  { destruct (rest st) eqn:Er; simpl in *; [|lia]. split_and!; try done; lia. }
  rewrite lookup_rest. destruct (rest st) as [|c t] eqn:Er; simpl in *; [split_and!; try done; lia|].
  destruct (p c) eqn:Ep; [|simpl; split_and!; try done; lia].
  destruct (adv1_ok st c t) as [Hok' Hr']; [done|done|by apply Hp|].
  rewrite <- Hr' in Hn |- *. specialize (IH (adv_state 1 st) Hok' ltac:(lia)).
  destruct (span p (rest (adv_state 1 st))) as [a b]. simpl in *.
  destruct IH as (? & ? & ? & ?). split_and!; try done. lia.
Qed.

Lemma skip_chars_spec p st :
  (forall c, p c = true -> plain c = true) -> tok_ok st ->
  exists st', skip_chars E p st = (Ret tt, st') /\ tok_ok st' /\
    rest st' = snd (span p (rest st)) /\ same_data st' st /\
    pos st' = (pos st + length (fst (span p (rest st))))%nat.
Proof.
  intros Hp Hok. unfold skip_chars, modify. rewrite <- rest_length. eexists. split; [done|].
  by apply skip_while_spec.
Qed.

Lemma ident_clean c : is_ident_char c = true -> clean c.
Proof. intros H. apply negb_true_iff. revert H. apply implb_use. byte_decide c. Qed.

Lemma ident_start_char c : is_ident_start c = true -> is_ident_char c = true.
Proof. apply implb_use. byte_decide c. Qed.

Lemma parse_unquoted_key_sim st c t :
  st_ok st -> rest st = c :: t ->
  sim (parse_unquoted_key E st)
    (if is_ident_start c then let '(id, r) := span is_ident_char t in ROk (c :: id) r
     else RErr syntax_error) (parsed_ok st).
Proof.
  intros Hst Hr. pose proof (st_tok _ Hst) as Hok.
  unfold parse_unquoted_key. unfold mbind at 1, M_bind at 1. cbn [get].
  unfold mbind at 1, M_bind at 1. rewrite (at_pos_rest st c t) by done.
  destruct (is_ident_start c) eqn:Es; cbn [negb]; [|by apply sim_err].
  destruct (adv1_ok st c t) as [Hok1 Hr1]; [done|done|by apply ident_start_plain|].
  unfold mbind at 1, M_bind at 1. cbn [adv modify].
  destruct (skip_chars_spec is_ident_char (adv_state 1 st)) as (st2 & Hs & Hok2 & Hr2 & Hd2 & Hp2);
    [apply ident_plain|done|].
  unfold mbind at 1, M_bind at 1. rewrite Hs. rewrite Hr1 in *.
  destruct (span is_ident_char t) as [id r] eqn:Esp. apply span_spec in Esp as (-> & Hid & _).
  simpl in Hp2, Hr2. pose proof (pos_rest _ Hok) as Hp. pose proof (ok_pos _ Hok2).
  assert (Hlen : (pos st2 - pos st = length (c :: id))%nat) by (simpl; lia).
  split_and!; [done|done|]. rewrite Hlen. unfold parsed_ok. cbn [ps_off ps_len ps_flags].
  rewrite !fits_u32 by (simpl; lia). split_and!.
  - unfold text_at, bytes_at. cbn -[substr length]. destruct Hd2 as (-> & _). simpl store.
    rewrite (st_input _ Hst). split; [|done].
    unfold substr. fold (rest st). rewrite Hr. change (c :: id ++ r) with ((c :: id) ++ r).
    by rewrite take_app_length.
  - left. split; [done|]. constructor; [by apply ident_clean, ident_start_char|].
    eapply Forall_impl; [exact Hid|]. intros x. apply ident_clean.
  - destruct Hd2 as (-> & _). simpl. pose proof (st_arena _ Hst). lia.
  - exists []. by apply appended_nil.
Qed.

(** The same without the storage, for skipped members. *)
Lemma parse_unquoted_key_tok st c t :
  tok_ok st -> rest st = c :: t ->
  sim (parse_unquoted_key E st)
    (if is_ident_start c then let '(id, r) := span is_ident_char t in ROk (c :: id) r
     else RErr syntax_error) (fun _ _ st' => same_data st' st).
Proof.
  intros Hok Hr.
  unfold parse_unquoted_key. unfold mbind at 1, M_bind at 1. cbn [get].
  unfold mbind at 1, M_bind at 1. rewrite (at_pos_rest st c t) by done.
  destruct (is_ident_start c) eqn:Es; cbn [negb]; [|by apply sim_err].
  destruct (adv1_ok st c t) as [Hok1 Hr1]; [done|done|by apply ident_start_plain|].
  unfold mbind at 1, M_bind at 1. cbn [adv modify].
  destruct (skip_chars_spec is_ident_char (adv_state 1 st)) as (st2 & Hs & Hok2 & Hr2 & Hd2 & Hp2);
    [apply ident_plain|done|].
  unfold mbind at 1, M_bind at 1. rewrite Hs. rewrite Hr1 in *.
  destruct (span is_ident_char t) as [id r]. by split_and!.
Qed.

(** ** Numbers *)

(** The stages of [parse_number_lexeme] after the sign. *)
Lemma skip_digits_stage st :
  tok_ok st -> exists st', skip_chars E is_digit st = (Ret tt, st') /\ tok_ok st' /\
    rest st' = snd (span is_digit (rest st)) /\ same_data st' st /\
    pos st' = (pos st + length (fst (span is_digit (rest st))))%nat.
Proof. intros. apply skip_chars_spec; [apply digit_plain|done]. Qed.

(** [sim] for the optional parts: an error or the part and the rest. *)
Definition part_ok {A} (st : PState) (res : outcome A * PState) (r : option (bytes * bytes))
  (Q : A -> bytes -> Prop) : Prop :=
  match r, res with
  | Some (part, rr), (Ret a, st') => tok_ok st' /\ rest st' = rr /\ same_data st' st /\
      pos st' = (pos st + length part)%nat /\ Q a part
  | None, (Fail e, _) => err_ok e syntax_error
  | _, _ => False
  end.
Lemma part_ok_weaken {A} st (res : outcome A * PState) r (Q Q' : A -> bytes -> Prop) :
  part_ok st res r Q -> (forall a p, Q a p -> Q' a p) -> part_ok st res r Q'.
Proof.
  unfold part_ok. destruct r as [[p rr]|]; [|done]. destruct res as [[a|e| |] st']; try done.
  intros (? & ? & ? & ? & ?) HQ. split_and!; auto.
Qed.

Lemma part_digits {A} st pre (k : M A) a t st1 :
  pre <> [] -> rest st = pre ++ t -> tok_ok st1 -> rest st1 = t -> same_data st1 st ->
  pos st1 = (pos st + length pre)%nat ->
  (forall st', k st' = (Ret a, st')) ->
  match t with d :: _ => is_digit d = true | [] => False end ->
  part_ok st (((skip_chars E is_digit;; k) : M A) st1)
    (let '(ds, r) := span is_digit t in match ds with [] => None | _ => Some (pre ++ ds, r) end)
    (fun b p => b = a /\ p <> []).
Proof.
  intros Hpre Hr Hok1 Hr1 Hd1 Hp1 Hk Hh.
  destruct (skip_digits_stage st1 Hok1) as (st2 & Hs & Hok2 & Hr2 & Hd2 & Hp2).
  unfold mbind, M_bind. rewrite Hs, Hk. rewrite Hr1 in Hr2, Hp2.
  destruct t as [|d u]; [done|]. simpl in *. rewrite Hh in *.
  destruct (span is_digit u) as [ds r]. simpl in *.
  split_and!; [done|done|by eapply same_data_trans|rewrite length_app; simpl; lia|done|by destruct pre].
Qed.

Lemma number_int_ok st :
  tok_ok st -> part_ok st (number_int E st) (scan_int (rest st)) (fun _ _ => True).
Proof.
  intros Hok. unfold number_int. unfold mbind at 1, M_bind at 1. cbn [get].
  rewrite !looking_at_rest. destruct (rest st) as [|d t] eqn:Hr; [by apply err_ok_mk|].
  cbn [scan_int]. destruct (is_digit d) eqn:Ed; cbn [negb]; [|by apply err_ok_mk].
  destruct (adv1_ok st d t) as [Hok1 Hr1]; [done|done|by apply digit_plain|].
  unfold mbind at 1, M_bind at 1. cbn [adv modify]. unfold mbind at 1, M_bind at 1. cbn [get].
  rewrite looking_at_rest, Hr1.
  destruct (skip_digits_stage (adv_state 1 st) Hok1) as (st2 & Hs & Hok2 & Hr2 & Hd2 & Hp2).
  rewrite Hr1 in Hr2, Hp2.
  assert (Hz : match t with c :: _ => is_digit c | [] => false end
    = negb (bool_decide (fst (span is_digit t) = []))).
  { destruct t as [|c t']; simpl; [done|]. destruct (is_digit c); [|done].
    by destruct (span is_digit t'). }
  rewrite Hz. destruct (span is_digit t) as [ds r]. simpl in *.
  destruct ((d =b x30) && negb (bool_decide (ds = []))); [by apply err_ok_mk|].
  rewrite Hs. simpl. split_and!; try done. lia.
Qed.

Lemma number_frac_ok st b :
  tok_ok st ->
  part_ok st (number_frac E b st) (scan_frac (rest st)) (fun b' fp => b' = b && bool_decide (fp = [])).
Proof.
  intros Hok. unfold number_frac. unfold mbind at 1, M_bind at 1. cbn [get]. rewrite looking_at_rest.
  destruct (rest st) as [|c t] eqn:Hr.
  { simpl. rewrite andb_true_r. split_and!; done || lia. }
  destruct (byte_eqb_spec c x2e) as [->|Hc].
  - destruct (adv1_ok st x2e t) as [Hok1 Hr1]; [done|done|done|].
    unfold mbind at 1, M_bind at 1. cbn [adv modify]. unfold mbind at 1, M_bind at 1. cbn [get].
    rewrite looking_at_rest, Hr1. cbn [scan_frac].
    destruct (match t with c :: _ => is_digit c | [] => false end) eqn:Ed; cbn [negb].
    + eapply part_ok_weaken.
      * apply (part_digits st [x2e] (mret false) false t (adv_state 1 st)); try done. by destruct t.
      * intros b' p [-> Hne]. rewrite bool_decide_eq_false_2 by done. by rewrite andb_false_r.
    + destruct t as [|d u]; [by apply err_ok_mk|]. simpl. rewrite Ed. by apply err_ok_mk.
  - assert (scan_frac (c :: t) = Some ([], c :: t)) as -> by (by destruct c).
    simpl. rewrite andb_true_r. split_and!; done || lia.
Qed.
Lemma number_exp_ok st b :
  tok_ok st ->
  part_ok st (number_exp E b st) (scan_exp (rest st)) (fun b' ep => b' = b && bool_decide (ep = [])).
Proof.
  intros Hok. unfold number_exp. unfold mbind at 1, M_bind at 1. cbn [get]. rewrite looking_at_rest.
  destruct (rest st) as [|c t] eqn:Hr.
  { simpl. rewrite andb_true_r. split_and!; done || lia. }
  unfold scan_exp. destruct ((c =b x65) || (c =b x45)) eqn:Ec.
  2:{ simpl. rewrite andb_true_r. split_and!; done || lia. }
  assert (Hcp : plain c = true) by (revert Ec; apply implb_use; byte_decide c).
  destruct (adv1_ok st c t) as [Hok1 Hr1]; [done|done|done|].
  unfold mbind at 1, M_bind at 1. cbn [adv modify]. unfold mbind at 1, M_bind at 1. cbn [get].
  rewrite looking_at_rest, Hr1. pose proof (exp_sign_cases t) as Hsg.
  assert (Hlook : (match t with c :: _ => (c =b x2b) || (c =b x2d) | [] => false end) =
    negb (bool_decide ((match t with x2b :: t' => ([x2b], t') | x2d :: t' => ([x2d], t')
                        | _ => ([], t) end).1 = []))) by (destruct t as [|e t']; [done|by destruct e]).
  rewrite Hlook. clear Hlook.
  destruct (match t with x2b :: t' => ([x2b], t') | x2d :: t' => ([x2d], t') | _ => ([], t) end)
    as [sg t']. destruct Hsg as [-> Hsg]. simpl fst.
  assert (Hsign : exists st2, (if negb (bool_decide (sg = [])) then adv 1 else mret tt) (adv_state 1 st)
    = (Ret tt, st2) /\ tok_ok st2 /\ rest st2 = t' /\ same_data st2 st /\
    pos st2 = (pos st + length (c :: sg))%nat).
  { assert (Hc : sg = [] \/ exists s, sg = [s] /\ plain s = true) by (destruct Hsg as [->|[->| ->]]; eauto).
    destruct Hc as [->|(s & -> & Hps)]; simpl; (eexists; split; [done|]); [by split_and!|].
    destruct (adv1_ok (adv_state 1 st) s t') as [? ?]; [done|exact Hr1|done|].
    split_and!; done || (simpl; lia). }
  destruct Hsign as (st2 & Hs2 & Hok2 & Hr2 & Hd2 & Hp2).
  unfold mbind at 1, M_bind at 1. rewrite Hs2. unfold mbind at 1, M_bind at 1. cbn [get].
  rewrite looking_at_rest, Hr2.
  destruct (match t' with c :: _ => is_digit c | [] => false end) eqn:Ed; cbn [negb].
  - eapply part_ok_weaken.
    + apply (part_digits st (c :: sg) (mret false) false t' st2); try done; [by destruct t'].
    + intros b' p [-> Hne]. rewrite bool_decide_eq_false_2 by done. by rewrite andb_false_r.
  - destruct t' as [|d u]; [by apply err_ok_mk|]. simpl. rewrite Ed. by apply err_ok_mk.
Qed.

(** *** The whole lexeme *)

Lemma number_sign_ok st c t :
  tok_ok st -> rest st = c :: t ->
  exists st', (if c =b x2d then adv 1 else mret tt) st = (Ret tt, st') /\ tok_ok st' /\
    rest st' = drop (sign_len (c :: t)) (c :: t) /\ same_data st' st /\
    pos st' = (pos st + sign_len (c :: t))%nat.
Proof.
  intros Hok Hr. unfold sign_len. destruct (byte_eqb_spec c x2d) as [->|Hc].
  - destruct (adv1_ok st x2d t) as [? ?]; [done|done|done|]. eexists. split; [done|]. by split_and!.
  - assert (negative_lexeme (c :: t) = false) as -> by (by destruct c).
    eexists. split; [done|]. split_and!; done || lia.
Qed.

Lemma parse_number_lexeme_sim st c t :
  tok_ok st -> rest st = c :: t ->
  sim (parse_number_lexeme E st) (spec_number (rest st))
    (fun r lex st' => fst r = lex /\ scan_number (rest st) = Some (lex, snd r, rest st') /\
       same_data st' st).
Proof.
  intros Hok Hr. unfold parse_number_lexeme, spec_number. unfold mbind at 1, M_bind at 1. cbn [get].
  unfold mbind at 1, M_bind at 1. rewrite (at_pos_rest st c t) by done.
  destruct (number_sign_ok st c t Hok Hr) as (st1 & Hs1 & Hok1 & Hr1 & Hd1 & Hp1).
  unfold mbind at 1, M_bind at 1. rewrite Hs1. rewrite Hr, scan_number_unfold, <- Hr1.
  pose proof (number_int_ok st1 Hok1) as Hi. unfold mbind at 1, M_bind at 1.
  destruct (scan_int (rest st1)) as [[ip s1]|] eqn:Ei; cbn [mbind option_bind];
    destruct (number_int E st1) as [[[]|e| |] st2]; try done.
  destruct Hi as (Hok2 & <- & Hd2 & Hp2 & _).
  pose proof (number_frac_ok st2 true Hok2) as Hf. unfold mbind at 1, M_bind at 1.
  destruct (scan_frac (rest st2)) as [[fp s2]|] eqn:Ef; cbn [mbind option_bind];
    destruct (number_frac E true st2) as [[b1|e| |] st3]; try done.
  destruct Hf as (Hok3 & <- & Hd3 & Hp3 & ->).
  pose proof (number_exp_ok st3 (true && bool_decide (fp = [])) Hok3) as He. unfold mbind at 1, M_bind at 1.
  destruct (scan_exp (rest st3)) as [[ep s3]|] eqn:Ee; cbn [mbind option_bind];
    destruct (number_exp E _ st3) as [[b2|e| |] st4]; try done.
  destruct He as (Hok4 & Hr4 & Hd4 & Hp4 & ->). unfold mbind at 1, M_bind at 1. cbn [get].
  set (lex := take (sign_len (c :: t)) (c :: t) ++ ip ++ fp ++ ep).
  assert (Hscan : scan_number (c :: t) = Some (lex, bool_decide (fp = [] /\ ep = []), s3)).
  { rewrite scan_number_unfold, <- Hr1, Ei. simpl. rewrite Ef. simpl. by rewrite Ee. }
  apply scan_number_sound in Hscan as [Hsp _]. rewrite <- Hr in Hsp.
  assert (Hlen : (pos st4 - pos st = length lex)%nat).
  { unfold lex. rewrite !length_app, length_take.
    assert (sign_len (c :: t) <= length (c :: t))%nat
      by (unfold sign_len; destruct (negative_lexeme _); simpl; lia). lia. }
  rewrite Hlen. destruct (_ <? _); [by apply sim_err|].
  split_and!; [done|done| | |].
  - simpl. unfold substr. fold (rest st). by rewrite Hsp, take_app_length.
  - simpl. rewrite Hr4. do 3 f_equal. by rewrite bool_decide_and.
  - eauto using same_data_trans.
Qed.
End refine.
