(* ===== verification/JsonDenote.v ===== *)
(** * JSON module: what a storage denotes

    [denotes ds i v] reads the value at node [i] of a storage. It is stable
    under the extensions parsing makes, and it determines the value: a node
    denotes at most one. *)

From Stdlib Require Import ZArith Lia Strings.Byte String.
From stdpp Require Import base tactics option numbers list.
From S2P Require Import Prelude ByteScan JsonTypes JsonStorage JsonNumber JsonHash JsonSpec JsonTokenizer JsonTokRefine.

(** Pointwise relation of two lists, by recursion on the second. *)
Definition all2 {A B} (P : A -> B -> Prop) : list A -> list B -> Prop :=
  fix go l k {struct k} :=
    match k, l with
    | [], [] => True
    | y :: k', x :: l' => P x y /\ go l' k'
    | _, _ => False
    end.

Lemma all2_Forall2 {A B} (P : A -> B -> Prop) l k : all2 P l k <-> Forall2 P l k.
Proof.
  revert l. induction k as [|y k IH]; intros [|x l]; simpl; try by (split; try done; intros H; inversion H).
  rewrite IH. split; [intros [? ?]; by constructor|]. intros H. by inversion H; subst.
Qed.

(** The bytes of a string or a name, and that raw ones need no escaping. *)
Definition text_ref (ds : DocumentStorage) (o l : nat) (fl : Z) (s : bytes) : Prop :=
  text_at ds o l fl s /\ flags_ok fl s.

Definition member_ref (ds : DocumentStorage) (m : MemberEntry) (nm : bytes) : Prop :=
  text_ref ds (name_off m) (name_len m) (name_flags m) nm /\ Z.of_nat (name_len m) < 2 ^ 32.

Definition slice {A} (l : list A) (o n : nat) : list A := take n (drop o l).

Definition node_is (ds : DocumentStorage) (i : nat) (k : NodeKind) (P : Node -> Prop) : Prop :=
  exists n, nodes ds !! i = Some n /\ kind n = k /\ P n.

(** The hash index of an object node, when it has one, is that of its members. *)
Definition hash_ok (ds : DocumentStorage) (n : Node) : Prop :=
  match payload n with
  | hash_idx_raw (HashTable t) => table_inv ds (off n) t (len n)
  | hash_idx_raw _ => True
  | _ => False
  end.

Fixpoint denotes (ds : DocumentStorage) (i : nat) (v : jval) : Prop :=
  match v with
  | JNull => node_is ds i NK_null (fun _ => True)
  | JBool b => node_is ds i NK_boolean (fun n => payload n = bool_val b)
  | JNum lex => node_is ds i NK_number (fun n =>
      text_at ds (off n) (len n) (flags n) lex /\
      exists b, jnumber lex b /\ number_node (off n) (len n) kRawInput lex b n)
  | JStr s => node_is ds i NK_string (fun n => text_ref ds (off n) (len n) (flags n) s)
  | JArr vs => node_is ds i NK_array (fun n =>
      length vs = len n /\
      all2 (fun c w => (c < i)%nat /\ denotes ds c w) (slice (array_children ds) (off n) (len n)) vs)
  | JObj ms => node_is ds i NK_object (fun n =>
      length ms = len n /\ hash_ok ds n /\
      all2 (fun m x => let '(nm, w) := x in
              member_ref ds m nm /\ (val_node m < i)%nat /\ denotes ds (val_node m) w)
        (slice (object_members ds) (off n) (len n)) ms)
  end.

(** A staged member denotes a name and a value. *)
Definition member_denotes (ds : DocumentStorage) (m : MemberEntry) (x : bytes * jval) : Prop :=
  member_ref ds m (fst x) /\ (val_node m < length (nodes ds))%nat /\ denotes ds (val_node m) (snd x).

Lemma slice_prefix {A} (a b : list A) o n :
  a `prefix_of` b -> length (slice a o n) = n -> slice b o n = slice a o n.
Proof.
  intros [k ->] Hl. unfold slice in *. rewrite length_take, length_drop in Hl.
  destruct (decide (n = 0%nat)) as [->|]; [done|].
  rewrite drop_app_le by lia. rewrite take_app_le; [done|]. rewrite length_drop. lia.
Qed.

Lemma node_is_ext a b i k (P Q : Node -> Prop) :
  ext a b -> (forall n, P n -> Q n) -> node_is a i k P -> node_is b i k Q.
Proof.
  intros Hext HPQ (n & Hn & Hk & HP). exists n. split_and!; [|done|by apply HPQ].
  by eapply prefix_lookup_Some; [|apply Hext].
Qed.

Lemma text_ref_ext a b o l fl s : ext a b -> text_ref a o l fl s -> text_ref b o l fl s.
Proof. intros Hext [? ?]. split; [by eapply text_at_ext|done]. Qed.

Lemma all2_length {A B} (P : A -> B -> Prop) l k : all2 P l k -> length l = length k.
Proof. intros H%all2_Forall2. by apply Forall2_length in H. Qed.

Lemma all2_impl {A B} (P Q : A -> B -> Prop) l k :
  Forall (fun y => forall x, P x y -> Q x y) k -> all2 P l k -> all2 Q l k.
Proof.
  intros Hk. revert l. induction Hk as [|y k Hy _ IH]; intros [|x l]; simpl; try done.
  intros [? ?]. split; auto.
Qed.

Lemma slice_lookup {A} (l : list A) o n i x : slice l o n !! i = Some x -> l !! (o + i)%nat = Some x.
Proof.
  unfold slice. intros H. rewrite <- lookup_drop. by apply lookup_take_Some in H as [H _].
Qed.

Lemma member_ref_bytes ds m nm :
  member_ref ds m nm -> bytes_at ds (name_off m) (name_len m) (u8 (name_flags m)) = nm.
Proof. intros [[[Hb _] [[He _]|He]] _]; by rewrite He in *. Qed.

Lemma member_ref_ext a b m nm : ext a b -> member_ref a m nm -> member_ref b m nm.
Proof. intros Hx [? ?]. split; [by eapply text_ref_ext|done]. Qed.

Lemma member_name_ref ds m nm : member_ref ds m nm -> member_name ds m = nm.
Proof.
  intros Hm. pose proof (member_ref_bytes _ _ _ Hm) as Hb. unfold member_name.
  destruct Hm as [[_ [[He _]|He]] _]; rewrite He in *; done.
Qed.

(** The names of the members in a slice. *)
Lemma slice_names ds o n (names : list bytes) j nm :
  Forall2 (member_ref ds) (slice (object_members ds) o n) names -> names !! j = Some nm ->
  nth_name ds o j = nm.
Proof.
  intros Hall Hj. destruct (Forall2_lookup_r _ _ _ _ _ Hall Hj) as (m & Hm & Hr).
  apply slice_lookup in Hm. unfold nth_name. rewrite Hm. simpl. by apply member_name_ref.
Qed.

Lemma hash_ok_names a b n (names : list bytes) :
  length names = len n ->
  Forall2 (member_ref a) (slice (object_members a) (off n) (len n)) names ->
  Forall2 (member_ref b) (slice (object_members b) (off n) (len n)) names ->
  hash_ok a n -> hash_ok b n.
Proof.
  intros Hl Ha Hb. unfold hash_ok. destruct (payload n) as [| | | | |[|t|]]; try done.
  apply table_inv_names. intros j Hj. destruct (lookup_lt_is_Some_2 names j) as [nm Hnm]; [lia|].
  by rewrite (slice_names a _ _ _ _ _ Ha Hnm), (slice_names b _ _ _ _ _ Hb Hnm).
Qed.

Lemma denotes_ext a b i v : ext a b -> denotes a i v -> denotes b i v.
Proof.
  intros Hext. revert i. induction v as [| | | |vs IH|ms IH] using jval_nested_ind; intros i; simpl.
  - by apply node_is_ext.
  - by apply node_is_ext.
  - apply node_is_ext; [done|]. intros n (Ht & Hb). split; [by eapply text_at_ext|done].
  - apply node_is_ext; [done|]. intros n. by apply text_ref_ext.
  - apply node_is_ext; [done|]. intros n [Hl Ha]. split; [done|].
    pose proof (all2_length _ _ _ Ha) as Hlen.
    rewrite (slice_prefix (array_children a)) by (apply Hext || congruence).
    eapply all2_impl; [|exact Ha]. eapply Forall_impl; [exact IH|]. naive_solver.
  - apply node_is_ext; [done|]. intros n (Hl & Hh & Ha). split; [done|].
    pose proof (all2_length _ _ _ Ha) as Hlen.
    assert (Hs : slice (object_members b) (off n) (len n) = slice (object_members a) (off n) (len n))
      by (apply slice_prefix; [apply Hext|congruence]).
    assert (Ha' : all2 (fun m x => let '(nm, w) := x in
      member_ref b m nm /\ (val_node m < i)%nat /\ denotes b (val_node m) w)
      (slice (object_members b) (off n) (len n)) ms).
    { rewrite Hs. eapply all2_impl; [|exact Ha]. eapply Forall_impl; [exact IH|].
      intros [nm w] Hw m. simpl in *. intros (? & ? & ?). split_and!; [by eapply member_ref_ext|done|by apply Hw]. }
    split; [|exact Ha']. apply (hash_ok_names a b n (map fst ms)); [by rewrite length_map| | |done].
    + apply Forall2_fmap_r. apply all2_Forall2 in Ha. eapply Forall2_impl; [exact Ha|]. by intros m [nm w] (? & _).
    + apply Forall2_fmap_r. apply all2_Forall2 in Ha'. eapply Forall2_impl; [exact Ha'|]. by intros m [nm w] (? & _).
Qed.

Lemma member_denotes_ext a b m x : ext a b -> member_denotes a m x -> member_denotes b m x.
Proof.
  intros Hext (Hr & Hl & Hd). split_and!; [by eapply member_ref_ext| |by eapply denotes_ext].
  pose proof (prefix_length _ _ (ext_nodes _ _ Hext)). lia.
Qed.

(** ** A node denotes one value *)

Lemma node_is_inj ds i k1 k2 P Q :
  node_is ds i k1 P -> node_is ds i k2 Q -> k1 = k2 /\ exists n, nodes ds !! i = Some n /\ P n /\ Q n.
Proof. intros (n & Hn & <- & HP) (m & Hm & <- & HQ). simplify_eq. eauto. Qed.

Lemma text_at_inj ds o l fl s t : text_at ds o l fl s -> text_at ds o l fl t -> s = t.
Proof. by intros [<- _] [<- _]. Qed.

Lemma all2_inj {A B} (P : A -> B -> Prop) l k1 k2 :
  Forall (fun y => forall x z, P x y -> P x z -> y = z) k1 -> all2 P l k1 -> all2 P l k2 -> k1 = k2.
Proof.
  intros Hk. revert l k2. induction Hk as [|y k1 Hy _ IH]; intros [|x l] [|z k2]; simpl; try done.
  intros [? ?] [? ?]. f_equal; [by eapply Hy|by eapply IH].
Qed.

Lemma denotes_inj ds i v w : denotes ds i v -> denotes ds i w -> v = w.
Proof.
  revert i w. induction v as [| | | |vs IH|ms IH] using jval_nested_ind; intros i w Hv Hw;
    destruct w; simpl in *; destruct (node_is_inj _ _ _ _ _ _ Hv Hw) as [Hk (n & _ & H1 & H2)];
    try done.
  - congruence.
  - destruct H1 as [H1 _], H2 as [H2 _]. f_equal. by eapply text_at_inj.
  - destruct H1 as [H1 _], H2 as [H2 _]. f_equal. by eapply text_at_inj.
  - f_equal. destruct H1 as [_ H1], H2 as [_ H2]. eapply all2_inj; [|exact H1|exact H2].
    eapply Forall_impl; [exact IH|]. naive_solver.
  - f_equal. destruct H1 as (_ & _ & H1), H2 as (_ & _ & H2). eapply all2_inj; [|exact H1|exact H2].
    eapply Forall_impl; [exact IH|]. intros [nm1 w1] Hw1 m [nm2 w2]. simpl in *.
    intros ([[Ht1 _] _] & _ & Hd1) ([[Ht2 _] _] & _ & Hd2). f_equal; [by eapply text_at_inj|by eapply Hw1].
Qed.
