(* ===== verification/JsonRefine.v ===== *)
(** * JSON module: the tree builder implements the reference reader

    [skip_value] and [parse_value] against [spec_skip] and [spec_value]: same
    rest, same error code, and on success a node that denotes the value the
    reader returns. The invariant [bst_ok] carries the size bounds that make
    every conversion to [uint32_t] exact. *)

From Stdlib Require Import ZArith Lia Strings.Byte String.
From stdpp Require Import base tactics option numbers list.
From S2P Require Import Prelude ByteScan JsonTypes JsonStorage JsonNumber JsonHash JsonSpec JsonReader JsonTokenizer JsonParse JsonTokRefine JsonDenote.

Section skip.
Context (E : Env) (Hsize : Z.of_nat (length (src E)) < 2 ^ 32).

Lemma check_string_size_sim (d : bytes) {B} (b : B) rr st (Q : unit -> B -> PState -> Prop) :
  tok_ok E st -> rest E st = rr -> Q tt b st ->
  sim E (check_string_size E (length d) st)
    (if too_long (opts E) d then RErr string_too_large else ROk b rr) Q.
Proof.
  intros Hok Hr HQ. unfold check_string_size, too_long.
  destruct (exceeds _ _ _); [by apply sim_err|by apply sim_ret].
Qed.

Lemma expect_literal_sim {B} (text : bytes) (b : B) st (Q : unit -> B -> PState -> Prop) :
  text <> [] -> Forall (fun c => plain c = true) text -> tok_ok E st ->
  (forall st', tok_ok E st' -> same_data st' st -> Q tt b st') ->
  sim E (expect_literal E text st) (spec_literal text b (rest E st)) Q.
Proof.
  intros Hne Hpl Hok HQ. unfold expect_literal, spec_literal. unfold mbind, M_bind. cbn [get].
  unfold substr. fold (rest E st). destruct (starts_with (rest E st) text) eqn:Es.
  - apply starts_with_spec in Es as [t Ht]. rewrite Ht, take_app_length, bytes_eqb_refl. cbn [negb].
    destruct (adv_ok E st text t) as [Hok' Hr']; [done|done|done|].
    split_and!; [done|by rewrite drop_app_length|by apply HQ].
  - destruct (bytes_eqb _ _) eqn:Eb; [|by apply sim_err]. bool_simp.
    assert (starts_with (rest E st) text = true); [|congruence].
    apply starts_with_spec. exists (drop (length text) (rest E st)). rewrite <- Eb at 1.
    by rewrite take_drop.
Qed.

(** The separator code of the containers, what follows abstracted. *)
Definition sep_code {A} (close : byte) (eof_msg syn_msg : bytes) (clean_up : PState -> PState)
  (on_close on_next : M A) : M A :=
  skip_ws_checked E;;
  st ← get;
  if eof E st then err E unexpected_eof eof_msg
  else
    c ← at_pos E;
    if c =b close then adv 1;; on_close
    else if negb (c =b x2c) then modify clean_up;; err E syntax_error syn_msg
    else
      adv 1;;
      if is_json5_mode E then
        skip_ws_checked E;;
        st ← get;
        if looking_at E (fun c => c =b close) st then adv 1;; on_close else on_next
      else on_next.

Lemma sep_sim {A B} close m1 m2 g (on_close on_next : M A) (k : bool -> bytes -> rres B) st Q :
  plain close = true -> tok_ok E st ->
  (forall st', tok_ok E st' -> tok_ok E (g st')) ->
  (forall st', tok_ok E st' -> same_data st' st -> (length (rest E st') < length (rest E st))%nat ->
     sim E (on_close st') (k true (rest E st')) Q) ->
  (forall st', tok_ok E st' -> same_data st' st -> (length (rest E st') < length (rest E st))%nat ->
     sim E (on_next st') (k false (rest E st')) Q) ->
  sim E (sep_code close m1 m2 g on_close on_next st)
    (rbind (spec_separator (opts E) close (rest E st)) k) Q.
Proof.
  intros Hpl Hok Hg Hclose Hnext. unfold sep_code, spec_separator. rewrite after_ws_rbind.
  apply sim_ws; [done|]. intros st1 Hok1 Hd1 Hl1. unfold mbind at 1, M_bind at 1. cbn [get].
  rewrite eof_rest. destruct (rest E st1) as [|c t] eqn:Hr1; [by apply sim_err|].
  unfold mbind at 1, M_bind at 1. rewrite (at_pos_rest E st1 c t) by done. simpl in Hl1.
  destruct (byte_eqb_spec c close) as [->|Hc].
  { destruct (adv1_ok E st1 close t) as [Hok2 Hr2]; [done|done|done|]. cbn [rbind]. rewrite <- Hr2.
    apply Hclose; [done|done|rewrite Hr2; lia]. }
  destruct (byte_eqb_spec c x2c) as [->|Hcc]; cbn [negb]; [|apply sim_err; by apply Hg].
  destruct (adv1_ok E st1 x2c t) as [Hok2 Hr2]; [done|done|done|].
  unfold mbind at 1, M_bind at 1. cbn [adv modify]. unfold is_json5_mode, is_json5.
  destruct (mode (opts E)).
  { cbn [rbind]. rewrite <- Hr2. apply Hnext; [done|done|rewrite Hr2; lia]. }
  rewrite after_ws_rbind, <- Hr2. apply sim_ws; [done|].
  intros st3 Hok3 Hd3 Hl3. rewrite Hr2 in Hl3. unfold mbind at 1, M_bind at 1. cbn [get].
  assert (Hd : same_data st3 st) by (eapply same_data_trans; [exact Hd3|exact Hd1]).
  rewrite looking_at_rest. destruct (rest E st3) as [|d u] eqn:Hr3.
  { cbn [rbind]. rewrite <- Hr3. apply Hnext; [done|done|rewrite Hr3; simpl; lia]. }
  simpl in Hl3. destruct (byte_eqb_spec d close) as [->|Hdc]; cbn [rbind].
  - destruct (adv1_ok E st3 close u) as [Hok4 Hr4]; [done|done|done|]. rewrite <- Hr4.
    apply Hclose; [done|done|rewrite Hr4; lia].
  - rewrite <- Hr3. apply Hnext; [done|done|rewrite Hr3; simpl; lia].
Qed.

(** The colon after a name. *)
Lemma expect_colon_sim {A C} (f : unit -> M A) (k : bytes -> rres C) st Q :
  tok_ok E st ->
  (forall st', tok_ok E st' -> same_data st' st -> (length (rest E st') < length (rest E st))%nat ->
     sim E (f tt st') (k (rest E st')) Q) ->
  sim E ((expect_colon E ≫= f) st) (spec_colon (opts E) (rest E st) k) Q.
Proof.
  intros Hok Hk. assert ((expect_colon E ≫= f) st = (skip_ws_checked E ≫= (fun _ =>
    st ← get; if negb (looking_at E (fun c => c =b x3a) st) then err E syntax_error (B "std::expected ':'")
    else adv 1 ≫= f)) st) as ->.
  { unfold expect_colon, mbind, M_bind, get. destruct (skip_ws_checked E st) as [[[]|e| |] st']; try done.
    by destruct (negb _). }
  apply sim_ws; [done|]. intros st1 Hok1 Hd1 Hl1. unfold mbind at 1, M_bind at 1. cbn [get].
  rewrite looking_at_rest. destruct (rest E st1) as [|c t] eqn:Hr1; [by apply sim_err|].
  simpl in Hl1. destruct (byte_eqb_spec c x3a) as [->|Hc]; cbn [negb]; [|by apply sim_err].
  destruct (adv1_ok E st1 x3a t) as [Hok2 Hr2]; [done|done|done|]. rewrite <- Hr2.
  apply Hk; [done|done|rewrite Hr2; lia].
Qed.

(** *** Skipping *)

Lemma skip_key_sim st c t :
  tok_ok E st -> rest E st = c :: t ->
  sim E (skip_key E st) (rmap (fun _ => tt) (spec_key (opts E) (c :: t)))
    (fun _ _ st' => same_data st' st).
Proof.
  intros Hok Hr. unfold skip_key, spec_key. unfold mbind at 1, M_bind at 1.
  rewrite (at_pos_rest E st c t) by done. unfold is_json5_mode, is_json5.
  assert (Hskip : forall q, c = q -> plain q = true ->
    sim E ((adv 1;; skip_str_body_no_store E q;; mret tt) st)
      (rmap (fun _ => tt) (spec_string q t)) (fun _ _ st' => same_data st' st)).
  { intros q -> Hq. destruct (adv1_ok E st q t) as [Hok1 Hr1]; [done|done|done|].
    unfold mbind at 1, M_bind at 1. cbn [adv modify]. rewrite <- Hr1.
    apply (sim_bind E _ _ _ _ (fun _ r => ROk tt r) (fun len d st' => len = length d /\ same_data st' (adv_state 1 st)));
      [by apply skip_str_body_sim|].
    intros len d st' Hok' [_ Hd]. by apply sim_ret. }
  destruct (byte_eqb_spec c x22) as [->|Hc]; [by apply Hskip|].
  destruct (mode (opts E)); [by apply sim_err|].
  destruct (byte_eqb_spec c x27) as [->|Hc']; [by apply Hskip|].
  pose proof (parse_unquoted_key_tok E st c t Hok Hr) as Hk.
  unfold mbind, M_bind. destruct (is_ident_start c); [|by destruct (parse_unquoted_key E st) as [[p|e| |] st']].
  destruct (span is_ident_char t) as [id r].
  destruct (parse_unquoted_key E st) as [[p|e| |] st']; done.
Qed.

Definition skip_post (st : PState) (_ _ : unit) (st' : PState) : Prop := same_data st' st.

Lemma sim_skip_weaken {A C} (res : outcome A * PState) (r : rres C) st1 st :
  same_data st1 st -> sim E res r (fun _ _ st' => same_data st' st1) ->
  sim E res r (fun _ _ st' => same_data st' st).
Proof. intros Hd Hs. eapply sim_weaken; [exact Hs|]. intros a b st' _ Hd'.
  exact (same_data_trans _ _ _ Hd' Hd).
Qed.

Section containers.
Context (rec : M unit) (spec : bytes -> rres unit).
Context (Hrec : forall st, tok_ok E st -> sim E (rec st) (spec (rest E st)) (skip_post st)).

Lemma skip_array_loop_sim n st :
  tok_ok E st ->
  sim E (skip_array_loop E rec n st)
    (spec_elements (opts E) (fun s _ => spec s) x5d n (rest E st) tt) (skip_post st).
Proof.
  revert st. induction n as [|n IH]; intros st Hok; [done|].
  change (skip_array_loop E rec (S n)) with (rec;; sep_code x5d (B "EOF in array")
    (B "std::expected ',' or ']'") id (mret tt) (skip_array_loop E rec n)).
  cbn [spec_elements]. apply (sim_bind E rec _ st (spec (rest E st))
    (fun acc' s1 => rbind (spec_separator (opts E) x5d s1) (fun b r =>
       if b then ROk acc' r else spec_elements (opts E) (fun s _ => spec s) x5d n r acc')) (skip_post st));
    [by apply Hrec|].
  intros [] [] st1 Hok1 Hd1. eapply sim_skip_weaken; [exact Hd1|].
  apply sep_sim; [done|done|done| |].
  - intros st2 Hok2 Hd2 _. by apply sim_ret.
  - intros st2 Hok2 Hd2 _. eapply sim_skip_weaken; [exact Hd2|]. by apply IH.
Qed.

Lemma skip_array_sim st t :
  tok_ok E st -> rest E st = x5b :: t ->
  sim E (skip_array E rec st) (spec_container (opts E) (fun s _ => spec s) x5d tt t) (skip_post st).
Proof.
  intros Hok Hr. destruct (adv1_ok E st x5b t) as [Hok1 Hr1]; [done|done|done|].
  unfold skip_array, spec_container. rewrite <- Hr1.
  apply (sim_ws E (adv_state 1 st)); [done|]. intros st2 Hok2 Hd2 Hl2.
  eapply (sim_skip_weaken _ _ st2); [exact Hd2|]. unfold mbind, M_bind. cbn [get].
  rewrite looking_at_rest, <- rest_length.
  destruct (rest E st2) as [|c u] eqn:Hr2; [rewrite <- Hr2; by apply skip_array_loop_sim|].
  destruct (byte_eqb_spec c x5d) as [->|Hc]; [|rewrite <- Hr2; by apply skip_array_loop_sim].
  destruct (adv1_ok E st2 x5d u) as [Hok3 Hr3]; [done|done|done|]. by split_and!.
Qed.

Lemma skip_object_loop_sim n st :
  tok_ok E st ->
  sim E (skip_object_loop E rec n st)
    (spec_elements (opts E) (spec_skip_member (opts E) spec) x7d n (rest E st) tt) (skip_post st).
Proof.
  revert st. induction n as [|n IH]; intros st Hok; [done|].
  set (sep := sep_code x7d (B "EOF in object") (B "std::expected ',' or '}'") id
                (mret tt) (skip_object_loop E rec n)).
  change (skip_object_loop E rec (S n)) with (skip_ws_checked E;; st ← get;
    if eof E st then err E unexpected_eof (B "EOF in object")
    else skip_key E;; expect_colon E;; rec;; sep).
  cbn [spec_elements]. set (k := fun acc' s1 => rbind (spec_separator (opts E) x7d s1) (fun b r =>
       if b then ROk acc' r else spec_elements (opts E) (spec_skip_member (opts E) spec) x7d n r acc')).
  change (sim E ((skip_ws_checked E;; st ← get;
    if eof E st then err E unexpected_eof (B "EOF in object")
    else skip_key E;; expect_colon E;; rec;; sep) st)
    (rbind (spec_skip_member (opts E) spec (rest E st) tt) k) (skip_post st)).
  unfold spec_skip_member. rewrite after_ws_rbind. apply sim_ws; [done|].
  intros st1 Hok1 Hd1 _. eapply sim_skip_weaken; [exact Hd1|]. unfold mbind at 1, M_bind at 1. cbn [get].
  rewrite eof_rest. destruct (rest E st1) as [|c t] eqn:Hr1; [by apply sim_err|].
  pose proof (skip_key_sim st1 c t Hok1 Hr1) as Hk. unfold mbind at 1, M_bind at 1.
  destruct (spec_key (opts E) (c :: t)) as [nm r| |]; cbn [rmap rbind] in *;
    destruct (skip_key E st1) as [[[]|e| |] st2]; try done.
  destruct Hk as (Hok2 & <- & Hd2). eapply sim_skip_weaken; [exact Hd2|].
  assert (Hcol : rbind (spec_colon (opts E) (rest E st2) spec) k
    = spec_colon (opts E) (rest E st2) (fun t => rbind (spec t) k)).
  { unfold spec_colon. rewrite after_ws_rbind. unfold after_ws.
    destruct (spec_ws _ _) as [[|d u]|]; try done. by destruct (d =b x3a). }
  rewrite Hcol. apply expect_colon_sim; [done|]. intros st3 Hok3 Hd3 _.
  eapply sim_skip_weaken; [exact Hd3|].
  apply (sim_bind E rec _ st3 (spec (rest E st3)) k (skip_post st3)); [by apply Hrec|].
  intros [] [] st4 Hok4 Hd4. eapply sim_skip_weaken; [exact Hd4|]. apply sep_sim; [done|done|done| |].
  - intros st5 Hok5 Hd5 _. by apply sim_ret.
  - intros st5 Hok5 Hd5 _. eapply sim_skip_weaken; [exact Hd5|]. by apply IH.
Qed.

Lemma skip_object_sim st t :
  tok_ok E st -> rest E st = x7b :: t ->
  sim E (skip_object E rec st) (spec_container (opts E) (spec_skip_member (opts E) spec) x7d tt t)
    (skip_post st).
Proof.
  intros Hok Hr. destruct (adv1_ok E st x7b t) as [Hok1 Hr1]; [done|done|done|].
  unfold skip_object, spec_container. rewrite <- Hr1.
  apply (sim_ws E (adv_state 1 st)); [done|]. intros st2 Hok2 Hd2 Hl2.
  eapply (sim_skip_weaken _ _ st2); [exact Hd2|]. unfold mbind, M_bind. cbn [get].
  rewrite looking_at_rest, <- rest_length.
  destruct (rest E st2) as [|c u] eqn:Hr2; [rewrite <- Hr2; by apply skip_object_loop_sim|].
  destruct (byte_eqb_spec c x7d) as [->|Hc]; [|rewrite <- Hr2; by apply skip_object_loop_sim].
  destruct (adv1_ok E st2 x7d u) as [Hok3 Hr3]; [done|done|done|]. by split_and!.
Qed.
End containers.

Lemma check_depth_sim {A C} depth (f : unit -> M A) (r : rres C) st Q :
  tok_ok E st -> sim E (f tt st) r Q ->
  sim E ((check_depth E depth ≫= f) st) (if too_deep (opts E) depth then RErr nesting_too_deep else r) Q.
Proof.
  intros Hok Hf. unfold check_depth, too_deep. destruct (_ || _); [by apply sim_err|]. exact Hf.
Qed.

Lemma skip_string_sim q st t :
  plain q = true -> tok_ok E st -> rest E st = q :: t ->
  sim E (skip_string E q st)
    (match spec_limited_string (opts E) q t with
     | ROk _ r => ROk tt r | RErr e => RErr e | RFuel => RFuel end) (skip_post st).
Proof.
  intros Hq Hok Hr. destruct (adv1_ok E st q t) as [Hok1 Hr1]; [done|done|done|].
  unfold skip_string, spec_limited_string. rewrite <- Hr1.
  pose proof (skip_str_body_sim E Hsize q (adv_state 1 st) Hq Hok1) as Hs.
  unfold mbind, M_bind. cbn [adv modify].
  destruct (skip_str_body_no_store E q (adv_state 1 st)) as [[len|e| |] st2],
    (spec_string q (rest E (adv_state 1 st))) as [d r| |]; try done.
  destruct Hs as (Hok2 & Hr2 & -> & Hd2).
  pose proof (check_string_size_sim d tt r st2 (skip_post st) Hok2 Hr2 Hd2) as Hc.
  by destruct (too_long (opts E) d).
Qed.

Lemma skip_value_sim fuel depth st :
  tok_ok E st ->
  sim E (skip_value E fuel depth st) (spec_skip (opts E) fuel depth (rest E st)) (skip_post st).
Proof.
  revert depth st. induction fuel as [|f IH]; intros depth st Hok; [done|].
  cbn [skip_value spec_skip]. apply sim_ws; [done|]. intros st1 Hok1 Hd1 _.
  eapply sim_skip_weaken; [exact Hd1|]. clear st Hok Hd1. unfold mbind at 1, M_bind at 1. cbn [get].
  rewrite eof_rest. destruct (rest E st1) as [|c t] eqn:Hr; [by apply sim_err|].
  apply check_depth_sim; [done|]. unfold mbind at 1, M_bind at 1. rewrite (at_pos_rest E st1 c t) by done.
  assert (Hlit : forall text, text <> [] -> Forall (fun c => plain c = true) text ->
    sim E (expect_literal E text st1) (spec_literal text tt (c :: t)) (skip_post st1)).
  { intros text Hne Hpl. rewrite <- Hr. by apply expect_literal_sim. }
  destruct (byte_eqb_spec c x22) as [->|H22]; cbn [orb]; [by apply skip_string_sim|].
  unfold is_json5_mode, is_json5. set (j5 := match mode (opts E) with json5 => true | strict => false end).
  destruct (j5 && (c =b x27)) eqn:E27. { bool_simp. subst c. by apply skip_string_sim. }
  destruct (byte_eqb_spec c x5b) as [->|H5b]; [by apply (skip_array_sim _ _ (IH (S depth)))|].
  destruct (byte_eqb_spec c x7b) as [->|H7b]; [by apply (skip_object_sim _ _ (IH (S depth)))|].
  destruct (c =b x74); [apply Hlit; [done|by repeat constructor]|].
  destruct (c =b x66); [apply Hlit; [done|by repeat constructor]|].
  destruct (c =b x6e); [apply Hlit; [done|by repeat constructor]|].
  destruct ((c =b x2d) || is_digit c); [|by apply sim_err].
  rewrite <- Hr. apply (sim_bind E _ _ st1 (spec_number (rest E st1)) (fun _ r => ROk tt r) _ _
    (parse_number_lexeme_sim E st1 c t Hok1 Hr)).
  intros [lex b] lex' st2 Hok2 (_ & _ & Hd). by apply sim_ret.
Qed.
End skip.

(** ** Building *)

Section build.
Context (E : Env) (hash_env : nat -> option Z) (Hsize : Z.of_nat (length (src E)) < 2 ^ 32).

(** Indices held by the vectors and the staging buffers. *)
Definition cnt (st : PState) : nat :=
  (length (array_children (store st)) + length (staging st)
   + length (object_members (store st)) + length (staging_members st))%nat.

Definition node_count (st : PState) : nat := length (nodes (store st)).

(** Sizes: no more nodes than bytes consumed, no more indices than nodes. *)
Record bst_ok (st : PState) : Prop := {
  b_st : st_ok E st;
  b_nodes : (node_count st <= pos st)%nat;
  b_cnt : (cnt st <= node_count st)%nat
}.

(** [st'] has the nodes, the children and the members of [st]. *)
Record quiet (st st' : PState) : Prop := {
  q_ext : ext (store st) (store st');
  q_nodes : nodes (store st') = nodes (store st);
  q_children : array_children (store st') = array_children (store st);
  q_members : object_members (store st') = object_members (store st);
  q_staging : staging st' = staging st;
  q_staged : staging_members st' = staging_members st
}.

(** What a parsed value leaves: a node that denotes it. *)
Record value_post (st : PState) (idx : nat) (v : jval) (st' : PState) : Prop := {
  vp_bst : bst_ok st';
  vp_ext : ext (store st) (store st');
  vp_staging : staging st' = staging st;
  vp_staged : staging_members st' = staging_members st;
  vp_denotes : denotes (store st') idx v;
  vp_idx : (idx < node_count st')%nat;
  vp_grow : (cnt st' + node_count st + 1 <= node_count st' + cnt st)%nat
}.

Lemma ext_set_arena ds x : ext ds (set_arena (string_arena ds ++ x) ds).
Proof. constructor; simpl; done || by apply prefix_app_r. Qed.

Lemma ext_set_stats ds s : ext ds (set_stats s ds).
Proof. by constructor. Qed.

Lemma ext_push_node ds n : ext ds (set_nodes (nodes ds ++ [n]) ds).
Proof. constructor; simpl; done || by apply prefix_app_r. Qed.

Lemma ext_set_children ds c : ext ds (set_children (array_children ds ++ c) ds).
Proof. constructor; simpl; done || by apply prefix_app_r. Qed.

Lemma ext_set_members ds c : ext ds (set_members (object_members ds ++ c) ds).
Proof. constructor; simpl; done || by apply prefix_app_r. Qed.

Lemma quiet_same st st' : same_data st' st -> quiet st st'.
Proof. intros (H1 & H2 & H3). constructor; rewrite ?H1, ?H2, ?H3; done. Qed.

Lemma quiet_appended st st' x : appended st st' x -> quiet st st'.
Proof.
  intros (H1 & H2 & H3). constructor; rewrite ?H1; simpl; done || apply ext_set_arena.
Qed.

Lemma quiet_stats f st : quiet st (set_store (set_stats (f (parse_stats (store st))) (store st)) st).
Proof. constructor; done || apply ext_set_stats. Qed.

Lemma quiet_trans a b c : quiet a b -> quiet b c -> quiet a c.
Proof.
  intros [] []. constructor; try congruence. by etransitivity.
Qed.

Lemma quiet_cnt st st' : quiet st st' -> cnt st' = cnt st /\ node_count st' = node_count st.
Proof. intros [_ H1 H2 H3 H4 H5]. unfold cnt, node_count. by rewrite H1, H2, H3, H4, H5. Qed.

Lemma pos_le_rest st st' :
  tok_ok E st -> tok_ok E st' -> (length (rest E st') <= length (rest E st))%nat -> (pos st <= pos st')%nat.
Proof. intros H1 H2 H3. pose proof (pos_rest E _ H1). pose proof (pos_rest E _ H2). lia. Qed.

Lemma pos_lt_rest st st' :
  tok_ok E st -> tok_ok E st' -> (length (rest E st') < length (rest E st))%nat -> (pos st < pos st')%nat.
Proof. intros H1 H2 H3. pose proof (pos_rest E _ H1). pose proof (pos_rest E _ H2). lia. Qed.

Lemma b_tok st : bst_ok st -> tok_ok E st.
Proof. intros [[] _ _]. done. Qed.

Lemma bst_quiet st st' :
  bst_ok st -> quiet st st' -> tok_ok E st' ->
  (length (string_arena (store st')) <= pos st')%nat -> (pos st <= pos st')%nat -> bst_ok st'.
Proof.
  intros [[Hok Hin Har] Hn Hc] Hq Hok' Har' Hp. destruct (quiet_cnt _ _ Hq) as [Hc' Hn'].
  constructor; [constructor| |]; try done; [|lia|lia].
  rewrite <- Hin. symmetry. apply Hq.
Qed.

Lemma bst_same st st' :
  bst_ok st -> same_data st' st -> tok_ok E st' ->
  (length (rest E st') <= length (rest E st))%nat -> bst_ok st'.
Proof.
  intros Hb Hd Hok' Hl. pose proof (pos_le_rest st st' (b_tok _ Hb) Hok' Hl).
  apply (bst_quiet st); try done; [by apply quiet_same|].
  destruct Hd as (-> & _). pose proof (st_arena _ _ (b_st _ Hb)). lia.
Qed.

Lemma value_post_quiet st0 st idx v st' :
  quiet st0 st -> value_post st idx v st' -> value_post st0 idx v st'.
Proof.
  intros Hq [? ? ? ? ? ? Hg]. destruct (quiet_cnt _ _ Hq) as [Hc Hn]. rewrite Hc, Hn in Hg.
  destruct Hq. constructor; try done; try congruence. by etransitivity.
Qed.

(** *** Scalars *)

Definition pushed (n : Node) (st : PState) : PState :=
  set_store (set_nodes (nodes (store st) ++ [n]) (store st)) st.

Lemma push_scalar st st1 n v :
  bst_ok st -> quiet st st1 -> tok_ok E st1 ->
  (length (string_arena (store st1)) <= pos st1)%nat -> (pos st < pos st1)%nat ->
  (nodes (store (pushed n st1)) !! node_count st = Some n -> denotes (store (pushed n st1)) (node_count st) v) ->
  value_post st (node_count st) v (pushed n st1).
Proof.
  intros Hb Hq Hok1 Har Hp Hd. pose proof (bst_quiet st st1 Hb Hq Hok1 Har ltac:(lia)) as Hb1.
  destruct (quiet_cnt _ _ Hq) as [Hc Hn].
  assert (Hn' : node_count (pushed n st1) = S (node_count st)).
  { unfold node_count, pushed. simpl. rewrite length_app, (q_nodes _ _ Hq). simpl. unfold node_count. lia. }
  assert (Hc' : cnt (pushed n st1) = cnt st) by (rewrite <- Hc; done).
  pose proof (b_nodes _ Hb). pose proof (b_cnt _ Hb). constructor.
  - destruct Hb1 as [[Ht Hi Ha] _ _]. constructor; [constructor; [by apply tok_ok_store|done|done]| |].
    + rewrite Hn'. simpl. lia.
    + rewrite Hn', Hc'. lia.
  - etransitivity; [apply Hq|apply ext_push_node].
  - apply Hq.
  - apply Hq.
  - apply Hd. simpl. rewrite (q_nodes _ _ Hq). unfold node_count. by rewrite list_lookup_middle.
  - lia.
  - lia.
Qed.

Lemma push_node_eq n st : push_node n st = (Ret (node_count st), pushed n st).
Proof. done. Qed.

(** A string node over a parsed string. *)
Lemma push_string_sim p d rr st st1 :
  bst_ok st -> parsed_ok st p d st1 -> tok_ok E st1 -> rest E st1 = rr -> (pos st < pos st1)%nat ->
  sim E (push_string E p st1)
    (if too_long (opts E) d then RErr string_too_large else ROk (JStr d) rr) (value_post st).
Proof.
  intros Hb (Ht & Hf & Har & x & Hx) Hok Hr Hp. unfold push_string, check_string_size, too_long.
  destruct Ht as [Hbytes Hlen]. rewrite <- Hlen. destruct (exceeds _ _ _); [by apply sim_err|].
  split_and!; [by apply tok_ok_store|done|]. rewrite Hlen.
  pose proof (quiet_appended _ _ _ Hx) as Hq.
  assert (length (nodes (store st1)) = node_count st) as -> by (unfold node_count; by rewrite (q_nodes _ _ Hq)).
  apply push_scalar; try done. intros Hn. exists (make_string (ps_off p) (ps_len p) (ps_flags p)).
  split_and!; [done|done|]. split; [by split|done].
Qed.

Lemma parse_string_sim q (body : M ParsedStr) st t :
  plain q = true -> bst_ok st -> rest E st = q :: t ->
  (forall st', st_ok E st' -> sim E (body st') (spec_string q (rest E st')) (parsed_ok st')) ->
  sim E ((adv 1;; p ← body; push_string E p) st)
    (rmap JStr (spec_limited_string (opts E) q t)) (value_post st).
Proof.
  intros Hq Hb Hr Hbody. pose proof (b_tok _ Hb) as Hok.
  destruct (adv1_ok E st q t) as [Hok1 Hr1]; [done|done|done|].
  assert (Hb1 : bst_ok (adv_state 1 st)) by (apply (bst_same st); [done|done|done|rewrite Hr1, Hr; simpl; lia]).
  unfold spec_limited_string. rewrite <- Hr1. specialize (Hbody _ (b_st _ Hb1)).
  unfold mbind, M_bind. cbn [adv modify].
  destruct (body (adv_state 1 st)) as [[p|e| |] st2], (spec_string q _) as [d r| |] eqn:Es; try done.
  destruct Hbody as (Hok2 & Hr2 & Hp2). apply spec_string_n_length in Es.
  assert (Hlt : (pos (adv_state 1 st) < pos st2)%nat) by (apply pos_lt_rest; [done|done|rewrite Hr2; lia]).
  pose proof (push_string_sim p d r _ st2 Hb1 Hp2 Hok2 Hr2 Hlt) as Hs.
  destruct (too_long (opts E) d); [exact Hs|].
  eapply sim_weaken; [exact Hs|]. intros idx v st' _. apply value_post_quiet. by apply quiet_same.
Qed.

Lemma number_node_shape o l lex b n :
  number_node o l kRawInput lex b n ->
  kind n = NK_number /\ off n = o /\ len n = l /\
  has_flag (flags n) kValueExternalView = false /\ has_flag (flags n) kStorageInputView = true.
Proof. intros []; destruct b; by split_and!. Qed.

Lemma parse_number_sim st c t :
  bst_ok st -> rest E st = c :: t ->
  sim E (parse_number E st) (rmap JNum (spec_number (rest E st))) (value_post st).
Proof.
  intros Hb Hr. pose proof (b_tok _ Hb) as Hok. unfold parse_number. unfold mbind at 1, M_bind at 1. cbn [get].
  pose proof (parse_number_lexeme_sim E st c t Hok Hr) as Hs. unfold mbind at 1, M_bind at 1.
  destruct (parse_number_lexeme E st) as [[[lex b]|e| |] st1], (spec_number (rest E st)) as [lex' r| |]; try done.
  destruct Hs as (Hok1 & Hr1 & Hl & Hsc & Hd). simpl in Hl, Hsc. subst lex'.
  apply scan_number_sound in Hsc as [Hsplit Hj].
  destruct (build_number_node_ok (u32n (pos st)) (u32n (length lex)) kRawInput lex b (Some b) Hj eq_refl)
    as (n & -> & Hn). cbn [rmap].
  destruct (number_node_shape _ _ _ _ _ Hn) as (Hk & Ho & Hle & Hf1 & Hf2).
  assert (Hlex : (0 < length lex)%nat).
  { destruct Hj as (sg & ip & fp & ep & -> & _ & Hi & _). apply int_part_digits in Hi as [_ Hi].
    rewrite !length_app. destruct ip; [done|]. simpl. lia. }
  pose proof (pos_rest E _ Hok) as Hp. rewrite Hsplit, length_app in Hp.
  pose proof (pos_rest E _ Hok1) as Hp1.
  rewrite push_node_eq. split_and!; [by apply tok_ok_store|done|].
  assert (node_count st1 = node_count st) as -> by (by apply quiet_cnt, quiet_same).
  apply push_scalar; [done|by apply quiet_same|done| |lia|].
  - destruct Hd as (-> & _). pose proof (st_arena _ _ (b_st _ Hb)). lia.
  - intros Hnode. exists n. split_and!; [done|done| |].
    + rewrite Ho, Hle, !(fits_u32 E Hsize) by lia. split; [|done].
      unfold bytes_at. rewrite Hf1, Hf2. destruct Hd as (Hs & _). unfold pushed. simpl. rewrite Hs.
      rewrite (st_input _ _ (b_st _ Hb)). unfold substr. fold (rest E st).
      by rewrite Hsplit, take_app_length.
    + exists b. by rewrite Ho, Hle.
Qed.

Lemma literal_value_sim text v n st :
  text <> [] -> Forall (fun c => plain c = true) text -> bst_ok st ->
  (forall ds i, nodes ds !! i = Some n -> denotes ds i v) ->
  sim E ((expect_literal E text;; push_node n) st) (spec_literal text v (rest E st)) (value_post st).
Proof.
  intros Hne Hpl Hb Hd. pose proof (b_tok _ Hb) as Hok.
  pose proof (expect_literal_sim E text tt st (fun _ _ st' => same_data st' st) Hne Hpl Hok
    ltac:(by intros)) as Hs.
  unfold spec_literal in *. destruct (starts_with (rest E st) text) eqn:Es; unfold mbind, M_bind;
    destruct (expect_literal E text st) as [[[]|e| |] st1]; try done.
  destruct Hs as (Hok1 & Hr1 & Hd1). rewrite push_node_eq.
  split_and!; [by apply tok_ok_store|done|].
  assert (node_count st1 = node_count st) as -> by (by apply quiet_cnt, quiet_same).
  apply starts_with_spec in Es as [t Ht]. rewrite Ht, drop_app_length in Hr1.
  assert (Hlt : (pos st < pos st1)%nat).
  { apply pos_lt_rest; [done|done|]. rewrite Hr1, Ht, length_app. destruct text; [done|simpl; lia]. }
  apply push_scalar; [done|by apply quiet_same|done| |done|].
  - destruct Hd1 as (-> & _). pose proof (st_arena _ _ (b_st _ Hb)). lia.
  - intros Hn. by apply Hd.
Qed.
(** *** Arrays *)

(** In the middle of an array that started at [st0] and has read [acc]. *)
Record arr_inv (st0 st : PState) (acc : list jval) : Prop := {
  ai_bst : bst_ok st;
  ai_ext : ext (store st0) (store st);
  ai_staged : staging_members st = staging_members st0;
  ai_staging : exists cs, staging st = staging st0 ++ cs /\
    Forall2 (fun c v => (c < node_count st)%nat /\ denotes (store st) c v) cs acc;
  ai_grow : (cnt st + node_count st0 <= node_count st + cnt st0)%nat
}.

Lemma arr_inv_start st0 : bst_ok st0 -> arr_inv st0 st0 [].
Proof. intros Hb. constructor; try done; [exists []; by rewrite app_nil_r|lia]. Qed.

Lemma arr_inv_same st0 st st' acc :
  arr_inv st0 st acc -> same_data st' st -> tok_ok E st' ->
  (length (rest E st') <= length (rest E st))%nat -> arr_inv st0 st' acc.
Proof.
  intros [Hb Hx Hm Hs Hg] Hd Hok Hl. pose proof (bst_same _ _ Hb Hd Hok Hl) as Hb'.
  pose proof (quiet_same _ _ Hd) as Hq. destruct (quiet_cnt _ _ Hq) as [Hc Hn].
  destruct Hd as (Hd1 & Hd2 & Hd3).
  constructor; rewrite ?Hc, ?Hn, ?Hd1, ?Hd2, ?Hd3; done.
Qed.

(** The child just parsed goes to the staging buffer. *)
Lemma arr_inv_push st0 st acc idx v st' :
  arr_inv st0 st acc -> value_post st idx v st' ->
  arr_inv st0 (set_staging (staging st' ++ [u32n idx]) st') (acc ++ [v]).
Proof.
  intros [Hb Hx Hm (cs & Hcs & Hall) Hg] [Hb' Hx' Hs' Hm' Hd Hi Hgr].
  pose proof (b_nodes _ Hb') as Hn. pose proof (ok_pos _ _ (b_tok _ Hb')) as Hp.
  rewrite (fits_u32 E Hsize) by lia.
  assert (Hcnt : cnt (set_staging (staging st' ++ [idx]) st') = S (cnt st')).
  { unfold cnt. simpl. rewrite length_app. simpl. lia. }
  pose proof (b_cnt _ Hb). constructor.
  - destruct Hb' as [[Ht Hin Har] _ _]. constructor; [constructor; try done; by destruct Ht|done|].
    rewrite Hcnt. change (node_count (set_staging _ st')) with (node_count st'). lia.
  - by etransitivity.
  - simpl. congruence.
  - exists (cs ++ [idx]). simpl. rewrite Hs', Hcs, app_assoc. split; [done|].
    apply Forall2_app; [|by constructor].
    eapply Forall2_impl; [exact Hall|]. intros c w [Hlt Hdn]. split; [|by eapply denotes_ext].
    pose proof (prefix_length _ _ (ext_nodes _ _ Hx')). unfold node_count in *. simpl. lia.
  - rewrite Hcnt. change (node_count (set_staging _ st')) with (node_count st'). lia.
Qed.

Lemma slice_app_r {A} (a b : list A) : slice (a ++ b) (length a) (length b) = b.
Proof. unfold slice. rewrite drop_app_length. by rewrite take_ge. Qed.

(** The node of a finished array. *)
Lemma finish_array_sim st0 st acc :
  arr_inv st0 st acc -> (node_count st < pos st)%nat ->
  sim E (finish_array (length (staging st0)) st) (ROk (JArr acc) (rest E st)) (value_post st0).
Proof.
  intros [Hb Hx Hm (cs & Hcs & Hall) Hg] Hlt. pose proof (b_tok _ Hb) as Hok.
  unfold finish_array, mbind, M_bind. cbn [get modify]. rewrite push_node_eq.
  pose proof (ok_pos _ _ Hok) as Hp. pose proof (b_cnt _ Hb) as Hc.
  set (st2 := truncate_staging _ _).
  assert (Hs2 : staging st2 = staging st0).
  { unfold st2. simpl. by rewrite Hcs, take_app_length. }
  assert (Hc2 : array_children (store st2) = array_children (store st) ++ cs).
  { unfold st2. simpl. by rewrite Hcs, drop_app_length. }
  assert (Hlen : (length (staging st) - length (staging st0))%nat = length cs).
  { rewrite Hcs, length_app. lia. }
  pose proof (Forall2_length _ _ _ Hall) as Hl.
  assert (Hsz : (length (array_children (store st)) + length (staging st) <= cnt st)%nat) by (unfold cnt; lia).
  assert (Hcl : (length cs <= length (staging st))%nat) by (rewrite Hcs, length_app; lia).
  rewrite Hlen, !(fits_u32 E Hsize) by lia.
  assert (Hcnt : cnt (pushed (node_array (length (array_children (store st))) (length cs)) st2) = cnt st).
  { unfold cnt, pushed. cbn [store staging staging_members set_store set_nodes array_children object_members].
    rewrite Hs2, Hc2, Hcs, !length_app. simpl. lia. }
  assert (Hn2 : forall n, node_count (pushed n st2) = S (node_count st)).
  { intros n. unfold node_count, pushed. simpl. rewrite length_app. simpl. lia. }
  assert (Hext2 : ext (store st) (store st2)) by apply ext_set_children.
  assert (Hok2 : forall n, tok_ok E (pushed n st2)) by (intros; by apply tok_ok_store; destruct Hok).
  split_and!; [done|done|]. constructor; rewrite ?Hcnt, ?Hn2.
  - destruct Hb as [[Ht Hin Har] _ _]. constructor; [by constructor| |].
    + rewrite Hn2. simpl. lia.
    + rewrite Hcnt, Hn2. lia.
  - etransitivity; [exact Hx|]. etransitivity; [exact Hext2|apply ext_push_node].
  - done.
  - done.
  - exists (node_array (length (array_children (store st))) (length cs)).
    split_and!; [|done|done|].
    + simpl. unfold node_count, st2. simpl. by rewrite list_lookup_middle.
    + cbn [off len node_array]. change (array_children (store (pushed _ st2))) with (array_children (store st2)).
      rewrite Hc2, slice_app_r. apply all2_Forall2. eapply Forall2_impl; [exact Hall|].
      intros c v [Hcv Hdv]. split; [done|]. eapply denotes_ext; [|exact Hdv].
      etransitivity; [exact Hext2|apply ext_push_node].
  - change (node_count st2) with (node_count st). lia.
  - lia.
Qed.

Section array.
Context (rec : M nat) (spec : bytes -> rres jval).
Context (Hrec : forall st, bst_ok st -> sim E (rec st) (spec (rest E st)) (value_post st)).

Lemma arr_close_sim st0 st acc st' :
  arr_inv st0 st acc -> same_data st' st -> tok_ok E st' ->
  (length (rest E st') < length (rest E st))%nat ->
  sim E (finish_array (length (staging st0)) st') (ROk (JArr acc) (rest E st')) (value_post st0).
Proof.
  intros Hinv Hd Hok Hl. pose proof (pos_lt_rest st st' (b_tok _ (ai_bst _ _ _ Hinv)) Hok Hl).
  apply finish_array_sim; [apply (arr_inv_same _ st); [done..|lia]|].
  destruct (quiet_cnt _ _ (quiet_same _ _ Hd)) as [_ ->].
  pose proof (b_nodes _ (ai_bst _ _ _ Hinv)). lia.
Qed.

Lemma parse_array_loop_sim st0 n st acc :
  arr_inv st0 st acc ->
  sim E (parse_array_loop E rec (length (staging st0)) n st)
    (rmap JArr (spec_elements (opts E) (spec_element spec) x5d n (rest E st) acc)) (value_post st0).
Proof.
  revert st acc. induction n as [|n IH]; intros st acc Hinv; [done|].
  change (parse_array_loop E rec (length (staging st0)) (S n)) with (child ← rec;
    modify (fun st => set_staging (staging st ++ [u32n child]) st);;
    sep_code E x5d (B "EOF in array") (B "std::expected ',' or ']'") (truncate_staging (length (staging st0)))
      (finish_array (length (staging st0))) (parse_array_loop E rec (length (staging st0)) n)).
  set (k := fun acc' (b : bool) r => if b then ROk (JArr acc') r else
       rmap JArr (spec_elements (opts E) (spec_element spec) x5d n r acc')).
  assert (rmap JArr (spec_elements (opts E) (spec_element spec) x5d (S n) (rest E st) acc)
    = match spec (rest E st) with
      | ROk v r => rbind (spec_separator (opts E) x5d r) (k (acc ++ [v]))
      | RErr c => RErr c | RFuel => RFuel end) as ->.
  { cbn [spec_elements]. unfold spec_element at 1. destruct (spec (rest E st)) as [v r| |]; try done.
    by destruct (spec_separator (opts E) x5d r) as [[] ?| |]. }
  apply (sim_bind E rec _ st (spec (rest E st))
    (fun v r => rbind (spec_separator (opts E) x5d r) (k (acc ++ [v]))) (value_post st));
    [apply Hrec, Hinv|].
  intros idx v st1 Hok1 Hv. unfold mbind, M_bind. cbn [modify].
  pose proof (arr_inv_push _ _ _ _ _ _ Hinv Hv) as Hinv2. set (st2 := set_staging _ st1) in *.
  change (rest E st1) with (rest E st2). apply sep_sim; [done|by apply b_tok, Hinv2| | |].
  - intros st' []. by constructor.
  - intros st3 Hok3 Hd3 Hl3. by apply (arr_close_sim _ st2).
  - intros st3 Hok3 Hd3 Hl3. apply IH. apply (arr_inv_same _ st2); [done..|lia].
Qed.

Lemma parse_array_sim st t :
  bst_ok st -> rest E st = x5b :: t ->
  sim E (parse_array E rec st)
    (rmap JArr (spec_container (opts E) (spec_element spec) x5d [] t)) (value_post st).
Proof.
  intros Hb Hr. pose proof (b_tok _ Hb) as Hok.
  destruct (adv1_ok E st x5b t) as [Hok1 Hr1]; [done|done|done|].
  unfold parse_array, spec_container. rewrite <- Hr1.
  change (rmap JArr (after_ws (opts E) ?s ?k)) with (rbind (after_ws (opts E) s k) (fun v => ROk (JArr v))).
  rewrite after_ws_rbind. apply (sim_ws E (adv_state 1 st)); [done|]. intros st2 Hok2 Hd2 Hl2.
  rewrite Hr1 in Hl2. assert (Hl : (length (rest E st2) < length (rest E st))%nat) by (rewrite Hr; simpl; lia).
  assert (Hb2 : bst_ok st2) by (apply (bst_same st); [done|done|done|lia]).
  eapply sim_weaken; [|intros idx v st' _; apply (value_post_quiet st st2); by apply quiet_same].
  pose proof (arr_inv_start st2 Hb2) as Hinv. unfold mbind, M_bind. cbn [get].
  rewrite looking_at_rest, <- rest_length.
  destruct (rest E st2) as [|c u] eqn:Hr2; [rewrite <- Hr2; by apply parse_array_loop_sim|].
  destruct (byte_eqb_spec c x5d) as [->|Hc]; [|rewrite <- Hr2; by apply parse_array_loop_sim].
  destruct (adv1_ok E st2 x5d u) as [Hok3 Hr3]; [done|done|done|]. cbn [rbind]. rewrite <- Hr3.
  apply (arr_close_sim st2 st2); [done|done|done|]. rewrite Hr3, Hr2. simpl. lia.
Qed.
End array.

(** *** Member names *)

Lemma dedup_linear_spec ds k nm ms (acc : list (bytes * jval)) i :
  Forall2 (fun m x => member_ref ds m (fst x)) ms acc -> key_bytes ds k = nm ->
  dedup_linear ds k i ms = (fun j => i + j)%nat <$> find_name nm acc.
Proof.
  intros Hall Hk. revert i. induction Hall as [|m [n w] ms acc Hm _ IH]; intros i; [done|].
  cbn [dedup_linear find_name]. rewrite (member_ref_bytes _ _ _ Hm), Hk. cbn [fst].
  destruct (bytes_eqb n nm); [simpl; f_equal; lia|]. rewrite IH.
  destruct (find_name nm acc); simpl; f_equal; lia.
Qed.

(** The seen-set holds the members read so far, at their staging indices. *)
Definition idx_ok (ds : DocumentStorage) (start : nat) (idx : MemberNameIndex) (acc : list (bytes * jval)) : Prop :=
  map snd idx = seq start (length acc) /\
  Forall2 (fun e x => text_at ds (key_off (fst e)) (key_len (fst e)) (key_flags (fst e)) (fst x)) idx acc.

Lemma index_find_spec ds start idx acc k nm :
  idx_ok ds start idx acc -> key_bytes ds k = nm ->
  index_find ds k idx = (fun j => start + j)%nat <$> find_name nm acc.
Proof.
  intros [Hs Hall] Hk. revert start Hs.
  induction Hall as [|[k' i] [n w] idx acc Hm _ IH]; intros start Hs; [done|].
  cbn [map snd length seq] in Hs. injection Hs as -> Hs. cbn [index_find find_name].
  unfold key_bytes at 1. destruct Hm as [Hm _]. cbn [fst] in Hm. rewrite Hm, Hk.
  destruct (bytes_eqb n nm); [simpl; f_equal; lia|]. rewrite (IH (S start)) by done.
  destruct (find_name nm acc); simpl; f_equal; lia.
Qed.

(** A new name enters the seen-set at the next staging index. *)
Lemma index_emplace_ok ds start idx acc k i nm v :
  idx_ok ds start idx acc -> i = (start + length acc)%nat -> find_name nm acc = None ->
  text_at ds (key_off k) (key_len k) (key_flags k) nm ->
  idx_ok ds start (index_emplace ds k i idx) (acc ++ [(nm, v)]).
Proof.
  intros Hok -> Hf Ht. unfold index_emplace.
  rewrite (index_find_spec _ _ _ _ k nm Hok) by apply Ht. rewrite Hf. cbn [fmap option_fmap option_map].
  destruct Hok as [Hs Hall]. split.
  - rewrite map_app, Hs, length_app. simpl. by rewrite Nat.add_1_r, seq_S.
  - apply Forall2_app; [done|]. by constructor.
Qed.

(** The index built when an object outgrows the linear scan. *)
Lemma promote_fold_ok ds start ms acc idx acc0 :
  Forall2 (fun m x => member_ref ds m (fst x)) ms acc -> NoDup (map fst (acc0 ++ acc)) ->
  idx_ok ds start idx acc0 ->
  idx_ok ds start
    (fst (fold_left (fun a m => let '(idx, i) := a in (index_emplace ds (member_key m) i idx, S i))
            ms (idx, (start + length acc0)%nat))) (acc0 ++ acc).
Proof.
  intros Hall. revert idx acc0. induction Hall as [|m [nm w] ms acc Hm _ IH]; intros idx acc0 Hnd Hok.
  - by rewrite app_nil_r.
  - cbn [fold_left].
    replace (S (start + length acc0)) with (start + length (acc0 ++ [(nm, w)]))%nat
      by (rewrite length_app; simpl; lia).
    replace (acc0 ++ (nm, w) :: acc) with ((acc0 ++ [(nm, w)]) ++ acc) in * by (by rewrite <- app_assoc).
    apply IH; [done|]. apply index_emplace_ok; [done|done| |].
    + apply find_name_absent. rewrite !map_app in Hnd. apply NoDup_app in Hnd as [Hnd _].
      apply NoDup_app in Hnd as (_ & Hnd & _). intros Hin. apply (Hnd _ Hin). by left.
    + pose proof (member_ref_bytes _ _ _ Hm) as Hb. destruct Hm as [[[_ Hl] _] _]. by split.
Qed.

(** *** Objects *)

Definition seen_ok (ds : DocumentStorage) (start : nat) (seen : option MemberNameIndex)
  (acc : list (bytes * jval)) : Prop :=
  match seen with Some idx => idx_ok ds start idx acc | None => True end.

(** In the middle of an object that started at [st0] and has read [acc]. *)
Record obj_inv (st0 st : PState) (acc : list (bytes * jval)) : Prop := {
  oi_bst : bst_ok st;
  oi_ext : ext (store st0) (store st);
  oi_staging : staging st = staging st0;
  oi_members : exists ms, staging_members st = staging_members st0 ++ ms /\
    Forall2 (member_denotes (store st)) ms acc;
  oi_nodup : NoDup (map fst acc);
  oi_grow : (cnt st + node_count st0 <= node_count st + cnt st0)%nat
}.

Definition obj_post (st0 : PState) (seen : option MemberNameIndex) (acc : list (bytes * jval))
  (st : PState) : Prop :=
  obj_inv st0 st acc /\ seen_ok (store st) (length (staging_members st0)) seen acc.

Lemma seen_ok_ext a b start seen acc : ext a b -> seen_ok a start seen acc -> seen_ok b start seen acc.
Proof.
  intros Hx. destruct seen as [idx|]; [|done]. intros [Hs Hall]. split; [done|].
  eapply Forall2_impl; [exact Hall|]. intros e x. by apply text_at_ext.
Qed.

Lemma seen_ok_set ds start seen acc i v : seen_ok ds start seen acc -> seen_ok ds start seen (set_value i v acc).
Proof.
  destruct seen as [idx|]; [|done]. intros [Hs Hall]. split; [by rewrite length_set_value|].
  set (P := fun (e : MemberNameKey * nat) n => text_at ds (key_off (fst e)) (key_len (fst e)) (key_flags (fst e)) n).
  apply (Forall2_fmap_r fst P). change (fst <$> set_value i v acc) with (map fst (set_value i v acc)).
  rewrite set_value_names. by apply (Forall2_fmap_r fst P).
Qed.

Lemma obj_inv_start st0 : bst_ok st0 -> obj_inv st0 st0 [].
Proof. intros Hb. constructor; try done; [exists []; by rewrite app_nil_r|constructor|lia]. Qed.

Lemma obj_post_quiet st0 st st' seen acc :
  obj_post st0 seen acc st -> quiet st st' -> bst_ok st' -> obj_post st0 seen acc st'.
Proof.
  intros [[Hb Hx Hs (ms & Hms & Hall) Hnd Hg] Hseen] Hq Hb'. destruct (quiet_cnt _ _ Hq) as [Hc Hn].
  pose proof (q_ext _ _ Hq) as Hx'. split; [|by eapply seen_ok_ext].
  constructor; rewrite ?Hc, ?Hn; try done.
  - by etransitivity.
  - rewrite <- Hs. apply Hq.
  - exists ms. rewrite (q_staged _ _ Hq). split; [done|]. eapply Forall2_impl; [exact Hall|].
    intros m x. by apply member_denotes_ext.
Qed.

Lemma obj_post_same st0 st st' seen acc :
  obj_post st0 seen acc st -> same_data st' st -> tok_ok E st' ->
  (length (rest E st') <= length (rest E st))%nat -> obj_post st0 seen acc st'.
Proof.
  intros Hinv Hd Hok Hl. eapply obj_post_quiet; [exact Hinv|by apply quiet_same|].
  eapply bst_same; try done. apply Hinv.
Qed.

Definition stats_state (f : ParseStats -> ParseStats) (st : PState) : PState :=
  set_store (set_stats (f (parse_stats (store st))) (store st)) st.

Lemma upd_stats_eq f st : upd_stats f st = (Ret tt, stats_state f st).
Proof. done. Qed.

Lemma bst_stats f st : bst_ok st -> bst_ok (stats_state f st).
Proof.
  intros [[Ht Hi Ha] Hn Hc]. constructor; try done. constructor; try done. by apply tok_ok_store.
Qed.

Lemma obj_post_stats st0 f st seen acc : obj_post st0 seen acc st -> obj_post st0 seen acc (stats_state f st).
Proof.
  intros H. eapply obj_post_quiet; [exact H|apply quiet_stats|]. apply bst_stats, H.
Qed.

(** A value parsed inside a member leaves the members read so far. *)
Lemma obj_members_after st0 st seen acc idx v st' :
  obj_post st0 seen acc st -> value_post st idx v st' ->
  ext (store st0) (store st') /\ seen_ok (store st') (length (staging_members st0)) seen acc /\
  exists ms, staging_members st' = staging_members st0 ++ ms /\ Forall2 (member_denotes (store st')) ms acc.
Proof.
  intros [[Hb Hx Hs (ms & Hms & Hall) Hnd Hg] Hseen] [Hb' Hx' Hs' Hm' Hd Hi Hgr].
  split_and!; [by etransitivity|by eapply seen_ok_ext|]. exists ms. split; [congruence|].
  eapply Forall2_impl; [exact Hall|]. intros m x. by apply member_denotes_ext.
Qed.

Lemma bst_members st ms :
  bst_ok st -> (length ms + cnt st <= length (staging_members st) + node_count st)%nat ->
  bst_ok (set_staging_members ms st).
Proof.
  intros [[Ht Hi Ha] Hn Hc] Hl. constructor; [constructor; try done; by destruct Ht|done|].
  unfold cnt, node_count in *. simpl. lia.
Qed.

(** A new member. *)
Lemma obj_post_push st0 st seen acc idx v st' m nm :
  obj_post st0 seen acc st -> value_post st idx v st' -> find_name nm acc = None ->
  member_ref (store st') m nm -> val_node m = idx ->
  obj_inv st0 (set_staging_members (staging_members st' ++ [m]) st') (acc ++ [(nm, v)]) /\
  seen_ok (store st') (length (staging_members st0)) seen acc.
Proof.
  intros Hinv Hv Hf Hm Hidx. destruct (obj_members_after _ _ _ _ _ _ _ Hinv Hv) as (Hx & Hseen & ms & Hms & Hall).
  split; [|done]. destruct Hinv as [[Hb _ Hs _ Hnd Hg] _], Hv as [Hb' _ Hs' _ Hd Hi Hgr].
  pose proof (b_cnt _ Hb). pose proof (b_cnt _ Hb'). constructor.
  - apply bst_members; [done|]. rewrite length_app. simpl. lia.
  - done.
  - simpl. congruence.
  - exists (ms ++ [m]). simpl. rewrite Hms, app_assoc. split; [done|].
    apply Forall2_app; [done|]. constructor; [|done]. split_and!; [done|by rewrite Hidx|by rewrite Hidx].
  - rewrite map_app. apply NoDup_app. split_and!; [done| |apply NoDup_singleton].
    intros x Hx' Hin. apply list_elem_of_singleton in Hin as ->. by apply (find_name_None nm acc).
  - assert (cnt (set_staging_members (staging_members st' ++ [m]) st') = S (cnt st')) as ->.
    { unfold cnt. simpl. rewrite length_app. simpl. lia. }
    change (node_count (set_staging_members _ st')) with (node_count st'). lia.
Qed.

(** [last_wins]: the value of an earlier member replaced. *)
Lemma obj_post_set st0 st seen acc idx v st' i :
  obj_post st0 seen acc st -> value_post st idx v st' ->
  obj_post st0 seen (set_value i v acc)
    (set_staging_members (alter (fun m => mkMember (name_off m) (name_len m) (u32n idx) (name_flags m))
       (length (staging_members st0) + i)%nat (staging_members st')) st').
Proof.
  intros Hinv Hv. destruct (obj_members_after _ _ _ _ _ _ _ Hinv Hv) as (Hx & Hseen & ms & Hms & Hall).
  destruct Hinv as [[Hb _ Hs _ Hnd Hg] _], Hv as [Hb' _ Hs' _ Hd Hi Hgr].
  pose proof (b_nodes _ Hb') as Hn. pose proof (ok_pos _ _ (b_tok _ Hb')) as Hp.
  rewrite (fits_u32 E Hsize) by lia. split; [|by apply seen_ok_set]. pose proof (b_cnt _ Hb'). constructor.
  - apply bst_members; [done|]. rewrite length_alter. lia.
  - done.
  - simpl. congruence.
  - eexists. simpl. rewrite Hms, alter_app_r. split; [done|]. unfold set_value. apply Forall2_alter; [done|].
    intros m [nm w] _ _ (Hr & Hl & Hw). by split_and!.
  - by rewrite set_value_names.
  - change (node_count (set_staging_members _ st')) with (node_count st').
    unfold cnt. simpl. rewrite length_alter. fold (cnt st'). unfold cnt in *. lia.
Qed.

Lemma members_refs ds ms acc :
  Forall2 (member_denotes ds) ms acc -> Forall2 (fun m x => member_ref ds m (fst x)) ms acc.
Proof. intros H. eapply Forall2_impl; [exact H|]. intros m x. by intros (? & _). Qed.

(** Either way of looking for a duplicate finds the first member of that name. *)
Lemma dedup_ok st0 st seen acc k nm :
  obj_post st0 seen acc st -> key_bytes (store st) k = nm ->
  dedup_member_index st (length (staging_members st0)) k seen
  = (fun j => length (staging_members st0) + j)%nat <$> find_name nm acc.
Proof.
  intros [[_ _ _ (ms & Hms & Hall) _ _] Hseen] Hk. unfold dedup_member_index. destruct seen as [idx|].
  - by apply index_find_spec.
  - rewrite Hms, drop_app_length. apply dedup_linear_spec; [|done]. by apply members_refs.
Qed.

Lemma update_seen_ok st0 st seen acc k nm v :
  obj_inv st0 st (acc ++ [(nm, v)]) -> seen_ok (store st) (length (staging_members st0)) seen acc ->
  find_name nm acc = None -> text_at (store st) (key_off k) (key_len k) (key_flags k) nm ->
  exists seen' st', update_seen (length (staging_members st0)) k (length (staging_members st0) + length acc)%nat seen st
    = (Ret seen', st') /\ tok_ok E st' /\ rest E st' = rest E st /\ obj_post st0 seen' (acc ++ [(nm, v)]) st'.
Proof.
  intros Hinv Hseen Hf Ht. unfold update_seen, mbind, M_bind. cbn [get].
  assert (Hfin : forall seen', seen_ok (store st) (length (staging_members st0)) seen' (acc ++ [(nm, v)]) ->
    obj_post st0 seen' (acc ++ [(nm, v)]) st) by (intros; by split).
  pose proof (b_tok _ (oi_bst _ _ _ Hinv)) as Hok. destruct seen as [idx|].
  - do 2 eexists. split_and!; [reflexivity|by apply tok_ok_store|done|].
    apply obj_post_stats, Hfin. by apply index_emplace_ok.
  - destruct (kDedupLinearMax <? _)%nat.
    + do 2 eexists. split_and!; [reflexivity|by apply tok_ok_store, tok_ok_store|done|].
      apply (obj_post_stats _ _ (stats_state _ st)), obj_post_stats, Hfin.
      destruct Hinv as [_ _ _ (ms & Hms & Hall) Hnd _]. unfold promote. rewrite Hms, drop_app_length.
      rewrite <- (Nat.add_0_r (length (staging_members st0))) at 2.
      apply (promote_fold_ok _ _ _ (acc ++ [(nm, v)]) [] []); [by apply members_refs|done|by split].
    + do 2 eexists. split_and!; [reflexivity|done|done|by apply Hfin].
Qed.

Lemma parse_object_member_name_sim st c t :
  st_ok E st -> rest E st = c :: t ->
  sim E (parse_object_member_name E st) (spec_key (opts E) (c :: t)) (parsed_ok st).
Proof.
  intros Hst Hr. pose proof (st_tok _ _ Hst) as Hok. unfold parse_object_member_name, spec_key.
  unfold mbind at 1, M_bind at 1. rewrite (at_pos_rest E st c t) by done. unfold is_json5_mode, is_json5.
  assert (Hadv : forall q, c = q -> plain q = true -> st_ok E (adv_state 1 st) /\ rest E (adv_state 1 st) = t).
  { intros q -> Hq. destruct (adv1_ok E st q t) as [Hok1 Hr1]; [done|done|done|].
    split; [|done]. destruct Hst as [_ Hi Ha]. constructor; [done|done|]. simpl. lia. }
  destruct (byte_eqb_spec c x22) as [->|Hc].
  { destruct (Hadv x22) as [Hst1 Hr1]; [done|done|]. rewrite <- Hr1. by apply (parse_str_body_sim E Hsize (adv_state 1 st)). }
  destruct (mode (opts E)); [by apply sim_err|].
  destruct (byte_eqb_spec c x27) as [->|Hc'].
  { destruct (Hadv x27) as [Hst1 Hr1]; [done|done|]. rewrite <- Hr1. by apply (parse_str_body_sq_sim E Hsize (adv_state 1 st)). }
  by apply parse_unquoted_key_sim.
Qed.

Lemma sim_on_fail {A C} g (m : M A) st (r : rres C) Q : sim E (m st) r Q -> sim E (on_fail g m st) r Q.
Proof. unfold on_fail. by destruct (m st) as [[a|e| |] st']. Qed.

(** A referenced text is no longer than the input. *)
Lemma text_length st o l fl d :
  st_ok E st -> text_at (store st) o l fl d -> flags_ok fl d -> (l <= length (src E))%nat.
Proof.
  intros [Hok Hin Har] [<- <-] Hf. pose proof (ok_pos _ _ Hok). unfold bytes_at, str_at.
  destruct Hf as [[-> _]| ->]; simpl; unfold substr; rewrite length_take, length_drop, ?Hin; lia.
Qed.

Section object.
Context (rec : M nat) (skip : M unit) (spec : bytes -> rres jval) (spec_sk : bytes -> rres unit).
Context (Hrec : forall st, bst_ok st -> sim E (rec st) (spec (rest E st)) (value_post st)).
Context (Hskip : forall st, tok_ok E st -> sim E (skip st) (spec_sk (rest E st)) (skip_post st)).
Context (Hskip_len : forall s u r, spec_sk s = ROk u r -> (length r <= length s)%nat).

Lemma member_first_wins_sim st0 st seen acc :
  obj_post st0 seen acc st ->
  sim E ((skip;; upd_stats count_rollback;; mret seen) st)
    (match spec_sk (rest E st) with ROk _ r => ROk acc r | RErr c => RErr c | RFuel => RFuel end)
    (obj_post st0).
Proof.
  intros Hinv. pose proof (b_tok _ (oi_bst _ _ _ (proj1 Hinv))) as Hok. specialize (Hskip st Hok).
  unfold mbind, M_bind. destruct (skip st) as [[[]|e| |] st1], (spec_sk (rest E st)) as [u r| |] eqn:Es; try done.
  destruct Hskip as (Hok1 & Hr1 & Hd). apply Hskip_len in Es.
  split_and!; [by apply tok_ok_store|done|]. apply obj_post_stats.
  apply (obj_post_same _ st); [done|done|done|by rewrite Hr1].
Qed.

Lemma member_last_wins_sim st0 st seen acc i :
  obj_post st0 seen acc st ->
  sim E ((val ← rec;
          modify (fun st => set_staging_members
            (alter (fun m => mkMember (name_off m) (name_len m) (u32n val) (name_flags m))
               (length (staging_members st0) + i)%nat (staging_members st)) st);;
          upd_stats count_update;; mret seen) st)
    (match spec (rest E st) with
     | ROk v r => ROk (set_value i v acc) r | RErr c => RErr c | RFuel => RFuel end) (obj_post st0).
Proof.
  intros Hinv. pose proof (Hrec st (oi_bst _ _ _ (proj1 Hinv))) as Hs. unfold mbind, M_bind.
  destruct (rec st) as [[idx|e| |] st1], (spec (rest E st)) as [v r| |]; try done.
  destruct Hs as (Hok1 & Hr1 & Hv). pose proof (obj_post_set _ _ _ _ _ _ _ i Hinv Hv) as Hp.
  cbn [modify]. rewrite upd_stats_eq. split_and!; [|done|by apply obj_post_stats].
  apply tok_ok_store. by destruct Hok1.
Qed.

Lemma member_new_sim st0 st seen acc p nm :
  obj_post st0 seen acc st -> find_name nm acc = None ->
  text_ref (store st) (ps_off p) (ps_len p) (ps_flags p) nm ->
  sim E ((val ← rec;
          st ← get;
          modify (fun st => set_staging_members
            (staging_members st ++ [mkMember (ps_off p) (ps_len p) (u32n val) (ps_flags p)]) st);;
          update_seen (length (staging_members st0)) (mkKey (ps_off p) (ps_len p) (ps_flags p))
            (length (staging_members st)) seen) st)
    (match spec (rest E st) with
     | ROk v r => ROk (acc ++ [(nm, v)]) r | RErr c => RErr c | RFuel => RFuel end) (obj_post st0).
Proof.
  intros Hinv Hf Ht. pose proof (Hrec st (oi_bst _ _ _ (proj1 Hinv))) as Hs. unfold mbind, M_bind.
  destruct (rec st) as [[idx|e| |] st1], (spec (rest E st)) as [v r| |]; try done.
  destruct Hs as (Hok1 & Hr1 & Hv). cbn [get modify].
  pose proof (b_nodes _ (vp_bst _ _ _ _ Hv)). pose proof (ok_pos _ _ Hok1). pose proof (vp_idx _ _ _ _ Hv).
  rewrite (fits_u32 E Hsize) by lia.
  set (m := mkMember (ps_off p) (ps_len p) idx (ps_flags p)).
  assert (Hm : member_ref (store st1) m nm).
  { split; [eapply text_ref_ext; [apply Hv|done]|]. cbn [name_len m].
    pose proof (text_length st (ps_off p) (ps_len p) (ps_flags p) nm (b_st _ (oi_bst _ _ _ (proj1 Hinv))) (proj1 Ht) (proj2 Ht)). lia. }
  destruct (obj_post_push _ _ _ _ _ _ _ m nm Hinv Hv Hf Hm eq_refl) as [Hinv' Hseen].
  assert (length (staging_members st1) = length (staging_members st0) + length acc)%nat as ->.
  { destruct (obj_members_after _ _ _ _ _ _ _ Hinv Hv) as (_ & _ & ms & -> & Hall).
    rewrite length_app. by rewrite (Forall2_length _ _ _ Hall). }
  destruct (update_seen_ok st0 _ seen acc (mkKey (ps_off p) (ps_len p) (ps_flags p)) nm v Hinv' Hseen Hf)
    as (seen' & st2 & -> & Hok2 & Hr2 & Hp); [apply (proj1 (proj1 Hm))|].
  split_and!; [done|by rewrite Hr2|done].
Qed.

Lemma parse_object_member_sim st0 st seen acc :
  obj_post st0 seen acc st ->
  sim E (parse_object_member E rec skip (length (staging_members st0)) seen st)
    (spec_member (opts E) spec spec_sk (rest E st) acc) (obj_post st0).
Proof.
  intros Hinv. unfold parse_object_member. apply sim_on_fail. unfold spec_member.
  apply sim_ws; [apply b_tok, Hinv|]. intros st1 Hok1 Hd1 Hl1.
  pose proof (obj_post_same _ _ _ _ _ Hinv Hd1 Hok1 Hl1) as Hinv1. clear Hd1 Hl1 Hinv st.
  unfold mbind at 1, M_bind at 1. cbn [get]. rewrite eof_rest.
  destruct (rest E st1) as [|c t] eqn:Hr1; [by apply sim_err|].
  pose proof (oi_bst _ _ _ (proj1 Hinv1)) as Hb1.
  pose proof (parse_object_member_name_sim st1 c t (b_st _ Hb1) Hr1) as Hn.
  unfold mbind at 1, M_bind at 1.
  destruct (parse_object_member_name E st1) as [[p|e| |] st2], (spec_key (opts E) (c :: t)) as [nm r| |] eqn:Ek; try done.
  destruct Hn as (Hok2 & <- & Ht & Hfl & Har & x & Hx).
  assert (Hinv2 : obj_post st0 seen acc st2).
  { apply (obj_post_quiet _ st1); [done|by eapply quiet_appended|].
    apply (bst_quiet st1); [done|by eapply quiet_appended|done|done|].
    apply pos_le_rest; [done|done|]. rewrite Hr1. pose proof (spec_key_good (opts E) true (c :: t)) as Hg. rewrite Ek in Hg. simpl in *. lia. }
  assert (Hb2 : key_bytes (store st2) (mkKey (ps_off p) (ps_len p) (ps_flags p)) = nm) by apply Ht.
  unfold check_string_size, too_long. destruct Ht as [Hbytes Hlen]. rewrite <- Hlen.
  destruct (exceeds _ _ _); [by apply sim_err|].
  unfold mbind at 1, M_bind at 1. cbn [mret M_ret]. unfold mbind at 1, M_bind at 1. cbn [get].
  rewrite Hlen. rewrite (dedup_ok st0 _ _ acc _ nm Hinv2 Hb2).
  destruct (find_name nm acc) as [i|] eqn:Ef; cbn [fmap option_fmap option_map].
  - unfold mbind at 1, M_bind at 1. rewrite upd_stats_eq.
    pose proof (obj_post_stats _ count_dup_hit _ _ _ Hinv2) as Hinv3.
    assert (Hok3 : tok_ok E (stats_state count_dup_hit st2)) by (by apply tok_ok_store).
    change (rest E st2) with (rest E (stats_state count_dup_hit st2)).
    destruct (duplicate_key (opts E)); [by apply sim_err| |];
      (apply expect_colon_sim; [done|]; intros st4 Hok4 Hd4 Hl4;
       assert (Hinv4 : obj_post st0 seen acc st4) by (eapply obj_post_same; [exact Hinv3|done|done|lia])).
    + by apply member_last_wins_sim.
    + by apply member_first_wins_sim.
  - unfold mbind at 1, M_bind at 1. cbn [mret M_ret].
    assert (Hnew : sim E ((expect_colon E;;
        (val ← rec;
          st ← get;
          modify (fun st => set_staging_members
            (staging_members st ++ [mkMember (ps_off p) (ps_len p) (u32n val) (ps_flags p)]) st);;
          update_seen (length (staging_members st0)) (mkKey (ps_off p) (ps_len p) (ps_flags p))
            (length (staging_members st)) seen)) st2)
      (spec_colon (opts E) (rest E st2) (fun t => match spec t with
         | ROk v r => ROk (acc ++ [(nm, v)]) r | RErr c => RErr c | RFuel => RFuel end)) (obj_post st0)).
    { apply expect_colon_sim; [done|]. intros st4 Hok4 Hd4 Hl4. apply member_new_sim; [|done|].
      - eapply obj_post_same; [exact Hinv2|done|done|lia].
      - destruct Hd4 as (-> & _). by split. }
    destruct (duplicate_key (opts E)); exact Hnew.
Qed.

Lemma parse_object_member_separator_sim start st :
  tok_ok E st ->
  sim E (parse_object_member_separator E start st) (spec_separator (opts E) x7d (rest E st))
    (fun s b st' => s = (if b then sep_close else sep_next) /\ same_data st' st /\
       (length (rest E st') < length (rest E st))%nat).
Proof.
  intros Hok. apply sim_on_fail.
  change (sim E (sep_code E x7d (B "EOF in object") (B "std::expected ',' or '}'") id
    (mret sep_close) (mret sep_next) st) (spec_separator (opts E) x7d (rest E st))
    (fun s b st' => s = (if b then sep_close else sep_next) /\ same_data st' st /\
       (length (rest E st') < length (rest E st))%nat)).
  assert (Hb : spec_separator (opts E) x7d (rest E st)
    = rbind (spec_separator (opts E) x7d (rest E st)) (fun b r => ROk b r)).
  { by destruct (spec_separator (opts E) x7d (rest E st)). }
  rewrite Hb. apply sep_sim; [done|done|done| |]; intros st' Hok' Hd Hl; by apply sim_ret.
Qed.
End object.

(** The eager index changes nothing but the payload of the node just pushed,
    and a table it publishes is that of the members. *)
Lemma warm_index_shape ds N n ms l :
  nodes ds = N ++ [n] -> payload n = hash_idx_raw HashNull -> off n = ms -> len n = l ->
  exists n', warm_index E hash_env ds (length N) ms l = set_nodes (N ++ [n']) ds /\
    kind n' = kind n /\ off n' = ms /\ len n' = l /\ hash_ok (set_nodes (N ++ [n']) ds) n'.
Proof.
  intros Hn Hpay Ho Hl. unfold warm_index.
  assert (Hid : exists n', ds = set_nodes (N ++ [n']) ds /\
    kind n' = kind n /\ off n' = ms /\ len n' = l /\ hash_ok (set_nodes (N ++ [n']) ds) n').
  { exists n. rewrite <- Hn. assert (ds = set_nodes (nodes ds) ds) as <- by (by destruct ds).
    split_and!; try done. unfold hash_ok. by rewrite Hpay. }
  assert (Halt : forall h, hash_ok ds (set_hash h n) ->
    exists n', set_nodes (alter (set_hash h) (length N) (nodes ds)) ds = set_nodes (N ++ [n']) ds /\
    kind n' = kind n /\ off n' = ms /\ len n' = l /\ hash_ok (set_nodes (N ++ [n']) ds) n').
  { intros h Hh. exists (set_hash h n). rewrite Hn.
    rewrite <- (Nat.add_0_r (length N)), alter_app_r. split_and!; try done.
    unfold hash_ok in *. simpl in *. destruct h as [|t|]; try done. eapply table_inv_names; [|exact Hh]. done. }
  destruct (warm_threshold (opts E)) as [w|]; [|done]. destruct (_ && _); [|done].
  destruct (Z.ltb_spec 0 (clamped_capacity (u32 (Z.of_nat l)))) as [Hc|]; [|done].
  destruct (hash_env (length N)) as [seed|]; [|done].
  destruct (build_table _ _ _ _) as [[] ht] eqn:Eb; apply Halt; [|done].
  change (table_inv ds (off n) ht (len n)). rewrite Ho, Hl.
  apply (build_from_inv ds ms l 0) in Eb; [apply Eb|]. apply create_inv.
  apply clamped_capacity_range; [apply Z.mod_pos_bound; lia|done].
Qed.

(** The node of a finished object, whatever its index. *)
Lemma finish_object_sim st0 st acc :
  obj_inv st0 st acc -> (node_count st < pos st)%nat ->
  sim E (finish_object E hash_env (length (staging_members st0)) st) (ROk (JObj acc) (rest E st)) (value_post st0).
Proof.
  intros [Hb Hx Hs (ms & Hms & Hall) Hnd Hg] Hlt. pose proof (b_tok _ Hb) as Hok.
  unfold finish_object, mbind, M_bind. cbn [get modify]. rewrite push_node_eq. cbn [mret M_ret].
  pose proof (ok_pos _ _ Hok) as Hp. pose proof (b_cnt _ Hb) as Hc.
  set (st2 := truncate_members _ _).
  assert (Hs2 : staging_members st2 = staging_members st0).
  { unfold st2. simpl. by rewrite Hms, take_app_length. }
  assert (Hc2 : object_members (store st2) = object_members (store st) ++ ms).
  { unfold st2. simpl. by rewrite Hms, drop_app_length. }
  assert (Hlen : (length (staging_members st) - length (staging_members st0))%nat = length ms).
  { rewrite Hms, length_app. lia. }
  pose proof (Forall2_length _ _ _ Hall) as Hl.
  assert (Hsz : (length (object_members (store st)) + length (staging_members st) <= cnt st)%nat) by (unfold cnt; lia).
  assert (Hcl : (length ms <= length (staging_members st))%nat) by (rewrite Hms, length_app; lia).
  rewrite Hlen, !(fits_u32 E Hsize) by lia.
  set (n := node_object (length (object_members (store st))) (length ms)).
  destruct (warm_index_shape (store (pushed n st2)) (nodes (store st)) n
    (length (object_members (store st))) (length ms) eq_refl eq_refl eq_refl eq_refl) as (n' & Hw & Hk & Ho & Hle & Hh).
  change (node_count st2) with (length (nodes (store st))). rewrite Hw.
  assert (Hst : set_store (set_nodes (nodes (store st) ++ [n']) (store (pushed n st2))) (pushed n st2)
    = pushed n' st2) by done.
  rewrite Hst. clear Hst Hw.
  assert (Hcnt : cnt (pushed n' st2) = cnt st).
  { unfold cnt, pushed. cbn [store staging staging_members set_store set_nodes array_children object_members].
    rewrite Hs2, Hc2, Hms, !length_app. simpl. lia. }
  assert (Hn2 : node_count (pushed n' st2) = S (node_count st)).
  { unfold node_count, pushed. simpl. rewrite length_app. simpl. lia. }
  assert (Hext2 : ext (store st) (store st2)) by apply ext_set_members.
  assert (Hext3 : ext (store st) (store (pushed n' st2))) by (etransitivity; [exact Hext2|apply ext_push_node]).
  assert (Hok2 : tok_ok E (pushed n' st2)) by (apply tok_ok_store; by destruct Hok).
  split_and!; [done|done|]. constructor; rewrite ?Hcnt, ?Hn2.
  - destruct Hb as [[Ht Hin Har] _ _]. constructor; [by constructor| |].
    + rewrite Hn2. simpl. lia.
    + rewrite Hcnt, Hn2. lia.
  - by etransitivity.
  - done.
  - done.
  - exists n'. rewrite Hk, Ho, Hle. split_and!; [|done|done|exact Hh|].
    + simpl. by rewrite list_lookup_middle.
    + change (object_members (store (pushed _ st2))) with (object_members (store st2)).
      rewrite Hc2, slice_app_r. apply all2_Forall2. eapply Forall2_impl; [exact Hall|].
      intros m [nm v] (Hr & Hv & Hd). split_and!; [by eapply member_ref_ext|done|by eapply denotes_ext].
  - unfold node_count. lia.
  - lia.
Qed.

Section object_loop.
Context (rec : M nat) (skip : M unit) (spec : bytes -> rres jval) (spec_sk : bytes -> rres unit).
Context (Hrec : forall st, bst_ok st -> sim E (rec st) (spec (rest E st)) (value_post st)).
Context (Hskip : forall st, tok_ok E st -> sim E (skip st) (spec_sk (rest E st)) (skip_post st)).
Context (Hskip_len : forall s u r, spec_sk s = ROk u r -> (length r <= length s)%nat).

Lemma parse_object_loop_sim st0 n st seen acc :
  obj_post st0 seen acc st ->
  sim E (parse_object_loop E hash_env rec skip (length (staging_members st0)) n seen st)
    (rmap JObj (spec_elements (opts E) (spec_member (opts E) spec spec_sk) x7d n (rest E st) acc))
    (value_post st0).
Proof.
  revert st seen acc. induction n as [|n IH]; intros st seen acc Hinv; [done|].
  cbn [parse_object_loop].
  set (k := fun acc' (b : bool) r => if b then ROk (JObj acc') r else
    rmap JObj (spec_elements (opts E) (spec_member (opts E) spec spec_sk) x7d n r acc')).
  set (elem := spec_member (opts E) spec spec_sk (rest E st) acc).
  assert (rmap JObj (spec_elements (opts E) (spec_member (opts E) spec spec_sk) x7d (S n) (rest E st) acc)
    = match elem with
      | ROk acc' s1 => match spec_separator (opts E) x7d s1 with
          | ROk b r => k acc' b r | RErr c => RErr c | RFuel => RFuel end
      | RErr c => RErr c | RFuel => RFuel end) as ->.
  { cbn [spec_elements]. fold elem. destruct elem as [acc' s1| |]; try done. by destruct (spec_separator (opts E) x7d s1) as [[] r| |]. }
  apply (sim_bind E _ _ st elem (fun acc' s1 => match spec_separator (opts E) x7d s1 with
      | ROk b r => k acc' b r | RErr c => RErr c | RFuel => RFuel end) (obj_post st0));
    [by apply parse_object_member_sim|].
  intros seen' acc' st1 Hok1 Hinv1.
  apply (sim_bind E _ _ st1 _ (fun b r => k acc' b r) _ _
    (parse_object_member_separator_sim (length (staging_members st0)) st1 Hok1)).
  intros s b st2 Hok2 (-> & Hd & Hl).
  pose proof (obj_post_same _ _ _ _ _ Hinv1 Hd Hok2 ltac:(lia)) as Hinv2. destruct b; [|by apply IH].
  apply finish_object_sim; [apply Hinv2|]. pose proof (pos_lt_rest st1 st2 Hok1 Hok2 Hl).
  destruct (quiet_cnt _ _ (quiet_same _ _ Hd)) as [_ ->].
  pose proof (b_nodes _ (oi_bst _ _ _ (proj1 Hinv1))). lia.
Qed.

Lemma parse_object_sim st t :
  bst_ok st -> rest E st = x7b :: t ->
  sim E (parse_object E hash_env rec skip st)
    (rmap JObj (spec_container (opts E) (spec_member (opts E) spec spec_sk) x7d [] t)) (value_post st).
Proof.
  intros Hb Hr. pose proof (b_tok _ Hb) as Hok.
  destruct (adv1_ok E st x7b t) as [Hok1 Hr1]; [done|done|done|].
  unfold parse_object, spec_container. rewrite <- Hr1.
  change (rmap JObj (after_ws (opts E) ?s ?k)) with (rbind (after_ws (opts E) s k) (fun v => ROk (JObj v))).
  rewrite after_ws_rbind. apply (sim_ws E (adv_state 1 st)); [done|]. intros st2 Hok2 Hd2 Hl2.
  rewrite Hr1 in Hl2. assert (Hl : (length (rest E st2) < length (rest E st))%nat) by (rewrite Hr; simpl; lia).
  assert (Hb2 : bst_ok st2) by (apply (bst_same st); [done|done|done|lia]).
  eapply sim_weaken; [|intros idx v st' _; apply (value_post_quiet st st2); by apply quiet_same].
  assert (Hinv : obj_post st2 None [] st2) by (split; [by apply obj_inv_start|done]).
  unfold mbind, M_bind. cbn [get]. rewrite looking_at_rest, <- rest_length.
  destruct (rest E st2) as [|c u] eqn:Hr2; [rewrite <- Hr2; by apply parse_object_loop_sim|].
  destruct (byte_eqb_spec c x7d) as [->|Hc]; [|rewrite <- Hr2; by apply parse_object_loop_sim].
  destruct (adv1_ok E st2 x7d u) as [Hok3 Hr3]; [done|done|done|]. cbn [rbind adv modify].
  rewrite push_node_eq. split_and!; [by apply tok_ok_store|done|].
  change (node_count (adv_state 1 st2)) with (node_count st2).
  apply push_scalar; [done|by apply quiet_same|done| |simpl; lia|].
  - pose proof (st_arena _ _ (b_st _ Hb2)). simpl. lia.
  - intros Hn. eexists. split_and!; [exact Hn|done|done|done|done].
Qed.
End object_loop.

Lemma parse_value_sim fuel depth st :
  bst_ok st ->
  sim E (parse_value E hash_env fuel depth st) (spec_value (opts E) fuel depth (rest E st)) (value_post st).
Proof.
  revert depth st. induction fuel as [|f IH]; intros depth st Hb; [done|].
  cbn [parse_value spec_value]. apply sim_ws; [by apply b_tok|]. intros st1 Hok1 Hd1 Hl1.
  pose proof (bst_same _ _ Hb Hd1 Hok1 Hl1) as Hb1.
  eapply sim_weaken; [|intros idx v st' _; apply (value_post_quiet st st1); by apply quiet_same].
  clear st Hb Hd1 Hl1. unfold mbind at 1, M_bind at 1. cbn [get].
  rewrite eof_rest. destruct (rest E st1) as [|c t] eqn:Hr; [by apply sim_err|].
  apply check_depth_sim; [done|]. unfold mbind at 1, M_bind at 1. rewrite (at_pos_rest E st1 c t) by done.
  assert (Hlit : forall text v n, text <> [] -> Forall (fun c => plain c = true) text ->
    (forall ds i, nodes ds !! i = Some n -> denotes ds i v) ->
    sim E ((expect_literal E text;; push_node n) st1) (spec_literal text v (c :: t)) (value_post st1)).
  { intros text v n Hne Hpl Hd. rewrite <- Hr. by apply literal_value_sim. }
  destruct (byte_eqb_spec c x22) as [->|H22]; cbn [orb].
  { apply parse_string_sim; [done|done|done|]. by apply parse_str_body_sim. }
  unfold is_json5_mode, is_json5. set (j5 := match mode (opts E) with json5 => true | strict => false end).
  destruct (j5 && (c =b x27)) eqn:E27.
  { bool_simp. subst c. apply parse_string_sim; [done|done|done|]. by apply parse_str_body_sq_sim. }
  destruct (byte_eqb_spec c x5b) as [->|H5b]; [by apply (parse_array_sim _ _ (IH (S depth)))|].
  destruct (byte_eqb_spec c x7b) as [->|H7b].
  { apply parse_object_sim; [by apply IH|by intros; apply skip_value_sim| |done|done].
    intros s u r Hs%spec_skip_length. lia. }
  destruct (c =b x74); [apply Hlit; [done|by repeat constructor|intros ds i Hn; by eexists]|].
  destruct (c =b x66); [apply Hlit; [done|by repeat constructor|intros ds i Hn; by eexists]|].
  destruct (c =b x6e); [apply Hlit; [done|by repeat constructor|intros ds i Hn; by eexists]|].
  destruct ((c =b x2d) || is_digit c); [|by apply sim_err].
  rewrite <- Hr. by apply (parse_number_sim st1 c t).
Qed.
End build.
