(* ===== verification/JsonParseOk.v ===== *)
(** * JSON module: the parse entry points

    [parse], [parse_copy] and the arena entries against the reference reader:
    which texts they accept, what the document they build denotes, and which
    error, located where, they give otherwise. *)

From Stdlib Require Import ZArith Lia Strings.Byte String.
From stdpp Require Import base tactics option numbers list.
From S2P Require Import Prelude ByteScan JsonTypes JsonStorage JsonNumber JsonHash JsonSpec JsonReader JsonTokenizer JsonParse JsonTokRefine JsonDenote JsonRefine.

(** A text without its byte order mark. *)
Definition strip_bom (input : bytes) : bytes :=
  if starts_with input kBOM then drop (length kBOM) input else input.

(** What the entry points promise: the reader behind the size limits. *)
Definition parse_spec (o : JsonParseOptions) (input : bytes) : expected jval JsonIssueCode :=
  if (2 ^ 32 - 1 <=? Z.of_nat (length input))
     || exceeds (max_input_size o) (Z.of_nat (length input)) kDefaultMaxInput
  then Unexpected input_too_large
  else spec_parse o (strip_bom input).

(** An error location inside the input, at its true coordinates in strict mode. *)
Definition located_in (o : JsonParseOptions) (input : bytes) (e : JsonError) : Prop :=
  forall loc, source e = Some loc ->
    (offset loc <= length input)%nat /\
    (mode o = strict -> (sl_line loc, sl_column loc) = coords (strip_bom (take (offset loc) input))).

Section document.
Context (E : Env) (hash_env : nat -> option Z) (Hsize : Z.of_nat (length (src E)) < 2 ^ 32).

Definition doc_err (e : JsonError) (c : JsonIssueCode) : Prop :=
  code e = c /\ stage e = Stage_parse /\ (source e = None \/ err_ok E e c).

Lemma ext_set_root ds r : ext ds (set_root r ds).
Proof. by constructor. Qed.

Lemma parse_document_ok st :
  bst_ok E st -> pos st = 0%nat ->
  match parse_document E hash_env st with
  | (Ret _, st') => exists v, spec_parse (opts E) (src E) = Ok v /\ denotes (store st') (root_node (store st')) v
  | (Fail e, _) => exists c, spec_parse (opts E) (src E) = Unexpected c /\ doc_err e c
  | _ => False
  end.
Proof.
  intros Hb Hp. assert (Hrest : rest E st = src E) by (unfold rest; by rewrite Hp).
  pose proof (skip_ws_checked_sim E st (b_tok _ _ Hb)) as Hw. rewrite Hrest in Hw.
  unfold parse_document, spec_parse. unfold mbind at 1, M_bind at 1.
  destruct (skip_ws_checked E st) as [[[]|e| |] st1], (spec_ws (mode (opts E)) (src E)) as [s|] eqn:Ews; try done.
  2: { exists unexpected_eof. split; [done|]. split_and!; [apply Hw|apply Hw|by right]. }
  destruct Hw as (Hok1 & Hr1 & Hd1). unfold mbind at 1, M_bind at 1. cbn [get]. rewrite eof_rest, Hr1.
  destruct s as [|c t]; [exists unexpected_eof; split; [done|]; split_and!; [done|done|by left]|].
  apply spec_ws_length in Ews.
  assert (Hb1 : bst_ok E st1) by (apply (bst_same E st); [done|done|done|by rewrite Hr1, Hrest]).
  pose proof (parse_value_sim E hash_env Hsize value_fuel 0 st1 Hb1) as Hv. rewrite Hr1 in Hv.
  pose proof (spec_value_total (opts E) (c :: t)) as Htot.
  unfold mbind at 1, M_bind at 1.
  destruct (parse_value E hash_env value_fuel 0 st1) as [[root|e| |] st2],
    (spec_value (opts E) value_fuel 0 (c :: t)) as [v r|e'|]; try done.
  2: { exists e'. split; [done|]. split_and!; [apply Hv|apply Hv|by right]. }
  destruct Hv as (Hok2 & Hr2 & Hpost). unfold mbind at 1, M_bind at 1. cbn [modify].
  pose proof (b_nodes _ _ (vp_bst _ _ _ _ _ Hpost)). pose proof (ok_pos _ _ Hok2).
  pose proof (vp_idx _ _ _ _ _ Hpost). rewrite (fits_u32 E Hsize) by lia.
  set (st3 := set_store _ st2). assert (Hok3 : tok_ok E st3) by (by apply tok_ok_store).
  pose proof (skip_ws_checked_sim E st3 Hok3) as Hw. change (rest E st3) with (rest E st2) in Hw. rewrite Hr2 in Hw.
  unfold mbind at 1, M_bind at 1.
  destruct (skip_ws_checked E st3) as [[[]|e| |] st4], (spec_ws (mode (opts E)) r) as [s|]; try done.
  2: { exists unexpected_eof. split; [done|]. split_and!; [apply Hw|apply Hw|by right]. }
  destruct Hw as (Hok4 & Hr4 & Hd4 & _). unfold mbind, M_bind. cbn [get]. rewrite eof_rest, Hr4.
  destruct s as [|d u]; cbn [negb].
  - exists v. split; [done|]. simpl. rewrite Hd4. simpl. eapply denotes_ext; [apply ext_set_root|]. apply Hpost.
  - exists trailing_garbage. split; [done|].
    pose proof (err_ok_mk E st4 trailing_garbage (B "trailing content after value") Hok4) as He.
    split_and!; [apply He|apply He|by right].
Qed.
End document.

(** A storage ready to be parsed into. *)
Record fresh_over (input : bytes) (ds : DocumentStorage) : Prop := {
  fr_nodes : nodes ds = [];
  fr_arena : string_arena ds = [];
  fr_children : array_children ds = [];
  fr_members : object_members ds = [];
  fr_input : input_view ds = strip_bom input;
  fr_bom : (bom_prefix_bytes ds + length (strip_bom input) = length input)%nat
}.

Lemma prepare_fresh own input : fresh_over input (set_storage_input_view own input empty_storage).
Proof.
  unfold set_storage_input_view. assert (Hs : strip_bom input = if starts_with input kBOM
    then drop (length kBOM) input else input) by done.
  destruct (starts_with input kBOM) eqn:Eb; constructor; rewrite ?Hs; try done.
  apply starts_with_spec in Eb as [t ->]. by rewrite drop_app_length, length_app.
Qed.

Lemma fresh_bst input o ds :
  fresh_over input ds -> bst_ok (mkEnv (input_view ds) (bom_prefix_bytes ds) o) (initial_state ds).
Proof.
  intros [Hn Ha Hc Hm Hi _]. constructor; [constructor| |].
  - constructor; simpl; [lia|done|done].
  - done.
  - simpl. rewrite Ha. simpl. lia.
  - unfold node_count. simpl. rewrite Hn. simpl. lia.
  - unfold cnt, node_count. simpl. rewrite Hn, Hc, Hm. simpl. lia.
Qed.

Lemma strip_bom_length input : (length (strip_bom input) <= length input)%nat.
Proof. unfold strip_bom. destruct (starts_with input kBOM); [rewrite length_drop|]; lia. Qed.

(** Parsing into a fresh storage. *)
Lemma parse_inplace_ok hash_env o input ds :
  fresh_over input ds -> Z.of_nat (length input) < 2 ^ 32 - 1 ->
  match parse_inplace hash_env o ds with
  | (Ret _, ds') => exists v, spec_parse o (strip_bom input) = Ok v /\ denotes ds' (root_node ds') v
  | (Fail e, _) => exists c, spec_parse o (strip_bom input) = Unexpected c /\
      doc_err (mkEnv (input_view ds) (bom_prefix_bytes ds) o) e c
  | _ => False
  end.
Proof.
  intros Hf Hl. unfold parse_inplace. pose proof (strip_bom_length input) as Hsl.
  set (E := mkEnv (input_view ds) (bom_prefix_bytes ds) o).
  assert (Hsize : Z.of_nat (length (src E)) < 2 ^ 32) by (simpl; rewrite (fr_input _ _ Hf); lia).
  pose proof (parse_document_ok E hash_env Hsize (initial_state ds) (fresh_bst _ _ _ Hf) eq_refl) as H.
  change (opts E) with o in H. change (src E) with (input_view ds) in H. rewrite (fr_input _ _ Hf) in H.
  by destruct (parse_document E hash_env (initial_state ds)) as [[u|e| |] st'].
Qed.

Lemma starts_with_take (s p : bytes) n : starts_with (take n s) p = true -> starts_with s p = true.
Proof.
  intros [t Ht]%starts_with_spec. apply starts_with_spec. exists (t ++ drop n s).
  by rewrite app_assoc, <- Ht, take_drop.
Qed.

(** The prefix of the stripped text before an offset. *)
Lemma strip_bom_take input ds n :
  fresh_over input ds -> (bom_prefix_bytes ds = 0%nat \/ starts_with input kBOM = true) ->
  take n (strip_bom input) = strip_bom (take (n + bom_prefix_bytes ds) input).
Proof.
  intros Hf Hb. pose proof (fr_bom _ _ Hf) as Hl. unfold strip_bom in *.
  destruct (starts_with input kBOM) eqn:Eb.
  - apply starts_with_spec in Eb as [t ->]. rewrite drop_app_length, length_app in Hl.
    replace (n + bom_prefix_bytes ds)%nat with (length kBOM + n)%nat by lia.
    rewrite drop_app_length, take_app_add.
    assert (starts_with (kBOM ++ take n t) kBOM = true) as -> by (apply starts_with_spec; by eexists).
    by rewrite drop_app_length.
  - destruct Hb as [-> |]; [|done]. rewrite Nat.add_0_r.
    destruct (starts_with (take n input) kBOM) eqn:Et; [|done].
    apply starts_with_take in Et. congruence.
Qed.

Lemma doc_err_located input ds o e c :
  fresh_over input ds -> (bom_prefix_bytes ds = 0%nat \/ starts_with input kBOM = true) ->
  doc_err (mkEnv (input_view ds) (bom_prefix_bytes ds) o) e c -> located_in o input e.
Proof.
  intros Hf Hb (_ & _ & [Hn|(_ & _ & n & Hle & l & k & Hsrc & Hco)]) loc Hloc; [congruence|].
  rewrite Hsrc in Hloc. injection Hloc as <-. simpl in *. pose proof (fr_bom _ _ Hf).
  rewrite (fr_input _ _ Hf) in *. split; [lia|]. intros Hm. rewrite (Hco Hm). f_equal. by apply strip_bom_take.
Qed.

Lemma prepare_bom own input :
  bom_prefix_bytes (set_storage_input_view own input empty_storage) = 0%nat \/ starts_with input kBOM = true.
Proof. unfold set_storage_input_view. destruct (starts_with input kBOM); auto. Qed.

(** The outcome of an entry point against its specification. *)
Definition entry_ok (o : JsonParseOptions) (input : bytes) (r : outcome DocumentStorage) : Prop :=
  match r with
  | Ret ds => exists v, parse_spec o input = Ok v /\ denotes ds (root_node ds) v
  | Fail e => parse_spec o input = Unexpected (code e) /\ stage e = Stage_parse /\ located_in o input e
  | OutOfFuel | OutOfBounds => False
  end.

Lemma check_input_limits_spec o input :
  match check_input_limits (Z.of_nat (length input)) o with
  | Ok _ => Z.of_nat (length input) < 2 ^ 32 - 1 /\ parse_spec o input = spec_parse o (strip_bom input)
  | Unexpected e => parse_spec o input = Unexpected (code e) /\ stage e = Stage_parse /\ source e = None
  end.
Proof.
  unfold check_input_limits, parse_spec. destruct (2 ^ 32 - 1 <=? _) eqn:E1; [done|].
  destruct (exceeds _ _ _); [done|]. bool_simp. split; [lia|done].
Qed.

(** Every way of preparing a fresh storage views the text without its mark. *)
Definition prepares (prep : bytes -> DocumentStorage -> DocumentStorage) : Prop :=
  forall input, exists own, prep input empty_storage = set_storage_input_view own input empty_storage.

Lemma prepares_copied : prepares prepare_copied_input.
Proof. intros input. by exists input. Qed.

Lemma prepares_borrowed : prepares prepare_borrowed_input.
Proof. intros input. by exists []. Qed.

Lemma prepared_parse_ok hash_env o prep input :
  prepares prep -> Z.of_nat (length input) < 2 ^ 32 - 1 ->
  parse_spec o input = spec_parse o (strip_bom input) ->
  match parse_inplace hash_env o (prep input empty_storage) with
  | (Ret _, ds) => entry_ok o input (Ret ds)
  | (Fail e, _) => entry_ok o input (Fail e)
  | _ => False
  end.
Proof.
  intros Hprep Hl Hspec. destruct (Hprep input) as [own ->].
  pose proof (prepare_fresh own input) as Hf. pose proof (prepare_bom own input) as Hb.
  pose proof (parse_inplace_ok hash_env o input _ Hf Hl) as H.
  destruct (parse_inplace hash_env o _) as [[u|e| |] ds']; simpl; rewrite ?Hspec; try done.
  destruct H as (c & Hc & He). pose proof (doc_err_located _ _ _ _ _ Hf Hb He).
  destruct He as (<- & Hst & _). done.
Qed.

Lemma parse_document_storage_ok hash_env o prep input :
  prepares prep -> entry_ok o input (parse_document_storage hash_env o prep input).
Proof.
  intros Hprep. unfold parse_document_storage. pose proof (check_input_limits_spec o input) as Hl.
  destruct (check_input_limits _ o) as [u|e].
  - destruct Hl as [Hl Hs]. pose proof (prepared_parse_ok hash_env o prep input Hprep Hl Hs) as H.
    by destruct (parse_inplace _ _ _) as [[?|?| |] ?].
  - destruct Hl as (? & ? & Hn). split_and!; try done. intros loc. congruence.
Qed.

(** The arena: a parse into it is a parse into a fresh storage, whatever it
    held; a refused size leaves it alone. *)
Lemma arena_parse_ok hash_env o prep input a :
  prepares prep ->
  match arena_parse hash_env o prep input a with
  | (Ret g, a') => generation_ a' = g /\ g = u32 (generation_ a + 1) /\ entry_ok o input (Ret (arena_storage a'))
  | (Fail e, a') => entry_ok o input (Fail e) /\
      (a' = a \/ generation_ a' = u32 (generation_ a + 1))
  | _ => False
  end.
Proof.
  intros Hprep. unfold arena_parse. pose proof (check_input_limits_spec o input) as Hl.
  destruct (check_input_limits _ o) as [u|e].
  - destruct Hl as [Hl Hs]. pose proof (prepared_parse_ok hash_env o prep input Hprep Hl Hs) as H.
    unfold reset_storage_for_reuse, reset. cbn [arena_storage generation_].
    destruct (parse_inplace _ _ _) as [[?|?| |] ds']; try done; simpl; auto.
  - destruct Hl as (? & ? & Hn). split; [|by left]. split_and!; try done. intros loc. congruence.
Qed.

(** An operation leaves the arena alone or moves to the next generation. *)
Lemma arena_op_step op a : arena_op op a = a \/ generation_ (arena_op op a) = u32 (generation_ a + 1).
Proof.
  destruct op as [o input hash_env|o input hash_env|]; simpl; [| |by right]; unfold arena_parse;
    (destruct (check_input_limits _ o); [|by left]); right; by destruct (parse_inplace _ _ _).
Qed.

Lemma arena_ops_step ops a :
  0 <= generation_ a < 2 ^ 32 ->
  exists k, 0 <= k <= Z.of_nat (length ops) /\ generation_ (foldl (flip arena_op) a ops) = u32 (generation_ a + k) /\
    (k = 0 -> foldl (flip arena_op) a ops = a).
Proof.
  revert a. induction ops as [|op ops IH]; intros a Ha; cbn [foldl length].
  { exists 0. split_and!; [lia|lia| |done]. unfold u32. by rewrite Z.add_0_r, Z.mod_small. }
  change (flip arena_op a op) with (arena_op op a). destruct (arena_op_step op a) as [->|Hg].
  - destruct (IH a Ha) as (k & Hk & Hgen & Hz). exists k. split_and!; [lia|lia|done|done].
  - destruct (IH (arena_op op a)) as (k & Hk & Hgen & Hz); [rewrite Hg; apply Z.mod_pos_bound; lia|].
    exists (k + 1). split_and!; [lia|lia| |lia]. rewrite Hgen, Hg. unfold u32.
    rewrite Zplus_mod_idemp_l. f_equal. lia.
Qed.

(** ** The properties of the entry points *)


(** [parse_copy] has the same contract. *)
Theorem parse_copy_correct hash_env o input : entry_ok o input (parse_copy hash_env o input).
Proof. apply parse_document_storage_ok, prepares_copied. Qed.

(** parsing into an arena is parsing into a fresh storage, whatever the
    arena held before: its storage denotes the value of the text and the
    handle carries the arena's new generation. A text refused for its size
    leaves the arena and the handles into it alone; any other error spends the
    generation. *)
Theorem arena_parse_correct hash_env o input a :
  match arena_parse hash_env o prepare_copied_input input a with
  | (Ret g, a') => generation_ a' = g /\ g = u32 (generation_ a + 1) /\ entry_ok o input (Ret (arena_storage a'))
  | (Fail e, a') => entry_ok o input (Fail e) /\ (a' = a \/ generation_ a' = u32 (generation_ a + 1))
  | _ => False
  end.
Proof. apply arena_parse_ok, prepares_copied. Qed.

(** a live handle sees its own document. A handle issued by the arena
    carries its generation; after fewer than 2^32 further calls the handle is
    live only if none of them touched the storage it refers to. *)
Theorem arena_live_handle ops a :
  0 <= generation_ a < 2 ^ 32 -> Z.of_nat (length ops) < 2 ^ 32 ->
  live_ (foldl (flip arena_op) a ops) (generation_ a) = true ->
  arena_storage (foldl (flip arena_op) a ops) = arena_storage a.
Proof.
  intros Ha Hops Hl. destruct (arena_ops_step ops a Ha) as (k & Hk & Hg & Hz).
  unfold live_ in Hl. apply Z.eqb_eq in Hl. rewrite Hg in Hl. f_equal. apply Hz. unfold u32 in Hl.
  destruct (Z_lt_le_dec (generation_ a + k) (2 ^ 32)).
  - rewrite Z.mod_small in Hl by lia. lia.
  - rewrite <- (Z.mod_add _ (-1)), Z.mod_small in Hl by lia. lia.
Qed.

Lemma arena_live_handle_witness :
  let a := mkArena 7 empty_storage in
  let o := mkParseOptions limit_default (limit_bound 2) limit_default dup_reject None strict in
  arena_storage (foldl (flip arena_op) a [op_parse_into o (B "[1]") (fun _ => None)]) = arena_storage a.
Proof. apply arena_live_handle; [simpl; lia|simpl; lia|vm_compute; reflexivity]. Defined.
