(* ===== verification/JsonValid.v ===== *)
(** * JSON module: what the reader returns is valid

    Every value the reference reader returns, in either mode, is within the
    limits, has distinct member names in every object, numbers of the grammar
    and strings of the characters the tokenizer accepts: a lead byte with its
    continuation bytes. [JsonUnicode] shows that they are UTF-8 when the text is. *)

From Stdlib Require Import ZArith Lia Strings.Byte String.
From stdpp Require Import base tactics option numbers list.
From S2P Require Import Prelude JsonTypes JsonNumber JsonSpec JsonReader.

(** ** UTF-8 *)

(** One character as the tokenizer accepts it: a lead byte and its
    continuation bytes. *)
Definition utf8_char (ch : bytes) : Prop :=
  exists lead conts, ch = lead :: conts /\ utf8_seq_len lead = S (length conts) /\
    Forall (fun c => is_cont c = true) conts.

Inductive utf8 : bytes -> Prop :=
| utf8_nil : utf8 []
| utf8_cons ch d : utf8_char ch -> utf8 d -> utf8 (ch ++ d).

Lemma utf8_char_one c : byteZ c < 0x80 -> utf8_char [c].
Proof.
  intros H. exists c, []. split_and!; [done| |constructor]. unfold utf8_seq_len.
  destruct (Z.ltb_spec (byteZ c) 0x80); [done|lia].
Qed.

(** A byte built from a marker and a payload below it. *)
Lemma byteZ_lor n a x :
  0 <= n -> 0 <= x < 2 ^ n -> 0 <= a -> a * 2 ^ n + x < 256 ->
  byteZ (byte_of_Z (Z.lor (Z.shiftl a n) x)) = a * 2 ^ n + x.
Proof. intros Hn Hx Ha Hlt. rewrite lor_shiftl_add, byteZ_byte_of_Z by done. apply Z.mod_small. nia. Qed.

Lemma shiftr_range cp n lo hi :
  0 <= n -> lo * 2 ^ n <= cp < hi * 2 ^ n -> lo <= Z.shiftr cp n < hi.
Proof.
  intros Hn [H1 H2]. rewrite Z.shiftr_div_pow2 by done. assert (0 < 2 ^ n) by (apply Z.pow_pos_nonneg; lia).
  split; [apply Z.div_le_lower_bound; lia|apply Z.div_lt_upper_bound; lia].
Qed.

Lemma land_63_range x : 0 <= Z.land x 63 < 64.
Proof. change 63 with (Z.ones 6). rewrite Z.land_ones by lia. apply Z.mod_pos_bound. lia. Qed.

Lemma cont_byte x : is_cont (byte_of_Z (Z.lor 0x80 (Z.land x 0x3F))) = true.
Proof.
  pose proof (land_63_range x) as H. change 0x80 with (Z.shiftl 2 6).
  unfold is_cont. rewrite byteZ_lor by lia.
  assert (Hc : forall k, 0 <= k < 64 -> Z.land (2 * 2 ^ 6 + k) 0xC0 =? 0x80 = true); [|by apply Hc].
  intros k Hk. rewrite <- lor_shiftl_add by lia.
  rewrite Z.land_lor_distr_l. change (Z.land (Z.shiftl 2 6) 0xC0) with 0x80.
  assert (Z.land k 0xC0 = 0) as ->; [|done].
  apply Z.bits_inj'. intros i Hi. rewrite Z.land_spec, Z.bits_0. change 0xC0 with (Z.shiftl 3 6).
  destruct (Z.ltb_spec i 6).
  - rewrite Z.shiftl_spec_low by done. by rewrite andb_false_r.
  - rewrite (Z.bits_above_log2 k); [done|lia|]. destruct (Z.eq_dec k 0) as [->|]; [simpl; lia|].
    apply Z.log2_lt_pow2; [lia|]. assert (2 ^ 6 <= 2 ^ i) by (apply Z.pow_le_mono_r; lia). lia.
Qed.

(** Settle comparisons by arithmetic. *)
Ltac ltb_cases :=
  repeat match goal with |- context [?a <? ?b] => destruct (Z.ltb_spec a b); try lia end.

Lemma encode_utf8_char cp : 0 <= cp < 0x110000 -> utf8_char (encode_utf8 cp).
Proof.
  intros Hcp. unfold encode_utf8. destruct (Z.ltb_spec cp 0x80).
  { apply utf8_char_one. rewrite byteZ_byte_of_Z, Z.mod_small; lia. }
  destruct (Z.ltb_spec cp 0x800); [|destruct (Z.ltb_spec cp 0x10000)]; (eexists _, _; split; [done|]; split;
    [|repeat (apply Forall_cons; split; [apply cont_byte|]); apply Forall_nil; done]); unfold utf8_seq_len.
  - pose proof (shiftr_range cp 6 2 32 ltac:(lia) ltac:(lia)).
    assert (byteZ (byte_of_Z (Z.lor 0xC0 (Z.shiftr cp 6))) = 6 * 2 ^ 5 + Z.shiftr cp 6) as ->
      by (apply (byteZ_lor 5 6); lia). by ltb_cases.
  - pose proof (shiftr_range cp 12 0 16 ltac:(lia) ltac:(lia)).
    assert (byteZ (byte_of_Z (Z.lor 0xE0 (Z.shiftr cp 12))) = 14 * 2 ^ 4 + Z.shiftr cp 12) as ->
      by (apply (byteZ_lor 4 14); lia). by ltb_cases.
  - pose proof (shiftr_range cp 18 0 5 ltac:(lia) ltac:(lia)).
    assert (byteZ (byte_of_Z (Z.lor 0xF0 (Z.shiftr cp 18))) = 30 * 2 ^ 3 + Z.shiftr cp 18) as ->
      by (apply (byteZ_lor 3 30); lia). by ltb_cases.
Qed.

(** ** Decoded strings *)

Lemma spec_unicode_range s cp r : spec_unicode s = ROk cp r -> 0 <= cp < 0x110000.
Proof.
  unfold spec_unicode. destruct (hex4_of s) as [[v s1]|] eqn:E1; [|done].
  apply hex4_of_Some in E1 as (a & b & c & d & ? & ? & ? & ? & _ & _ & _ & _ & _ & _ & Hv).
  destruct (is_high_surrogate v) eqn:Eh.
  - destruct s1 as [|c1 [|d1 s2]]; try done. destruct (_ || _); [done|].
    destruct (hex4_of s2) as [[lo s3]|]; [|done]. destruct (is_low_surrogate lo) eqn:El; [|done].
    intros [= <- _]. unfold is_high_surrogate, is_low_surrogate, combine_surrogates in *. bool_simp.
    rewrite Z.shiftl_mul_pow2 by lia. change (2 ^ 10) with 1024. lia.
  - destruct (is_low_surrogate v); [done|]. intros [= <- _]. lia.
Qed.

Lemma simple_escape_ascii q e c : simple_escape q e = Some c -> byteZ c < 0x80.
Proof.
  unfold simple_escape. destruct e; try done; try (intros [= <-]; done). destruct (q =b x27); [|done].
  intros [= <-]. done.
Qed.

Lemma spec_item_utf8 q s ch r : spec_item q s = ROk (inr ch) r -> utf8_char ch.
Proof.
  unfold spec_item. destruct s as [|c t]; [done|]. destruct (c =b q); [done|].
  destruct (byteZ c <? 0x20); [done|]. destruct (c =b x5c).
  - unfold spec_escape. destruct t as [|e t]; [done|]. destruct (simple_escape q e) as [b|] eqn:Ee.
    + intros [= <- _]. by apply utf8_char_one, (simple_escape_ascii q e).
    + destruct (e =b x75); [|done]. destruct (spec_unicode t) as [cp rr| |] eqn:Eu; try done.
      intros [= <- _]. by apply encode_utf8_char, (spec_unicode_range t cp rr).
  - destruct (spec_utf8 (c :: t)) as [ch' rr| |] eqn:Eu; try done. intros [= <- _].
    unfold spec_utf8 in Eu. destruct (Nat.eqb_spec (utf8_seq_len c) 0); [done|].
    destruct (Nat.ltb_spec (length (c :: t)) (utf8_seq_len c)) as [|Hl]; [done|].
    destruct (forallb _ _) eqn:Ef; [|done]. injection Eu as <- _.
    destruct (utf8_seq_len c) as [|k] eqn:Ek; [done|]. simpl in *. rewrite Nat.sub_0_r in Ef.
    exists c, (take k t). rewrite length_take_le by lia. split_and!; [done|done|]. by apply forallb_Forall.
Qed.

Lemma spec_string_utf8 q s d r : spec_string q s = ROk d r -> utf8 d.
Proof.
  unfold spec_string. generalize (S (length s)). intros n. revert s d r.
  induction n as [|n IH]; intros s d r; cbn [spec_string_n]; [done|].
  destruct (spec_item q s) as [[u|ch] rr| |] eqn:Ei; try done; [intros [= <- _]; constructor|].
  destruct (spec_string_n n q rr) as [d' r'| |] eqn:Es; try done. intros [= <- _].
  constructor; [by eapply spec_item_utf8|by eapply IH].
Qed.

Lemma ident_utf8 id : Forall (fun c => is_ident_char c = true) id -> utf8 id.
Proof.
  induction 1 as [|c id Hc _ IH]; [constructor|]. apply (utf8_cons [c]); [|done]. apply utf8_char_one.
  assert (implb (is_ident_char c) (byteZ c <? 0x80) = true) as H by byte_decide c.
  rewrite Hc in H. by apply Z.ltb_lt in H.
Qed.

Lemma spec_key_utf8 o s nm r : spec_key o s = ROk nm r -> utf8 nm.
Proof.
  unfold spec_key. destruct s as [|c t]; [done|]. destruct (c =b x22); [apply spec_string_utf8|].
  destruct (is_json5 o); [|done]. destruct (c =b x27); [apply spec_string_utf8|].
  destruct (is_ident_start c) eqn:Ec; [|done]. destruct (span _ t) as [id r'] eqn:Es. intros [= <- _].
  apply span_spec in Es as (_ & Hid & _). apply ident_utf8. constructor; [|done].
  assert (implb (is_ident_start c) (is_ident_char c) = true) as H by byte_decide c. by rewrite Ec in H.
Qed.

(** ** Valid values *)

Definition allP {A} (P : A -> Prop) : list A -> Prop :=
  fix go l := match l with [] => True | x :: l' => P x /\ go l' end.

Lemma allP_Forall {A} (P : A -> Prop) l : allP P l <-> Forall P l.
Proof. induction l as [|x l IH]; simpl; [by split|]. by rewrite IH, Forall_cons. Qed.

Section valid.
Context (o : JsonParseOptions).

Definition valid_name (nm : bytes) : Prop := too_long o nm = false /\ utf8 nm.

(** [v] can stand at nesting [d] of a parsed document. *)
Fixpoint valid (d : nat) (v : jval) : Prop :=
  too_deep o d = false /\
  match v with
  | JNull | JBool _ => True
  | JStr s => too_long o s = false /\ utf8 s
  | JNum lex => (kMaxNumberLexemeLen <? Z.of_nat (length lex)) = false /\ exists b, jnumber lex b
  | JArr vs => allP (valid (S d)) vs
  | JObj ms => NoDup (map fst ms) /\
      allP (fun m => valid_name (fst m) /\ valid (S d) (snd m)) ms
  end.

Lemma spec_elements_inv {A} (I : A -> Prop) (elem : bytes -> A -> rres A) close n s acc acc' r :
  (forall s acc acc' r, I acc -> elem s acc = ROk acc' r -> I acc') -> I acc ->
  spec_elements o elem close n s acc = ROk acc' r -> I acc'.
Proof.
  intros He. revert s acc. induction n as [|n IH]; intros s acc Hi; cbn [spec_elements]; [done|].
  destruct (elem s acc) as [acc1 s1| |] eqn:Ee; try done. apply He in Ee; [|done].
  destruct (spec_separator o close s1) as [[] s2| |]; try done; [by intros [= <- _]|by apply IH].
Qed.

Lemma after_ws_inv {A} s (k : bytes -> rres A) a r : after_ws o s k = ROk a r -> exists s', k s' = ROk a r.
Proof. unfold after_ws. destruct (spec_ws _ s) as [s'|]; [by exists s'|done]. Qed.

Lemma spec_container_inv {A} (I : A -> Prop) (elem : bytes -> A -> rres A) close empty s acc r :
  (forall s acc acc' r, I acc -> elem s acc = ROk acc' r -> I acc') -> I empty ->
  spec_container o elem close empty s = ROk acc r -> I acc.
Proof.
  intros He Hi [s' H]%after_ws_inv. destruct s' as [|c t]; [by eapply spec_elements_inv|].
  destruct (c =b close); [by injection H as <- _|by eapply spec_elements_inv].
Qed.

Lemma spec_colon_inv {A} s (k : bytes -> rres A) a r : spec_colon o s k = ROk a r -> exists t, k t = ROk a r.
Proof. intros [[|c t] H]%after_ws_inv; [done|]. destruct (c =b x3a); [by exists t|done]. Qed.

Lemma valid_depth d v : valid d v -> too_deep o d = false.
Proof. destruct v; by intros [? _]. Qed.

(** The members read so far. *)
Definition valid_members (d : nat) (ms : list (bytes * jval)) : Prop :=
  NoDup (map fst ms) /\ Forall (fun m => valid_name (fst m) /\ valid d (snd m)) ms.

Lemma valid_members_snoc d ms nm v :
  valid_members d ms -> find_name nm ms = None -> valid_name nm -> valid d v -> valid_members d (ms ++ [(nm, v)]).
Proof.
  intros [Hnd Hall] Hf Hn Hv. split; [|apply Forall_app; split; [done|by apply Forall_singleton]].
  rewrite map_app. apply NoDup_app. split_and!; [done| |apply NoDup_singleton].
  intros x Hx ->%list_elem_of_singleton. by apply (find_name_None nm ms).
Qed.

Lemma valid_members_set d ms i v : valid_members d ms -> valid d v -> valid_members d (set_value i v ms).
Proof.
  intros [Hnd Hall] Hv. split; [by rewrite set_value_names|]. unfold set_value.
  apply Forall_alter; [done|]. by intros [nm w] _ [? _].
Qed.

Lemma spec_member_valid value skip d s ms ms' r :
  (forall s v r, value s = ROk v r -> valid d v) ->
  valid_members d ms -> spec_member o value skip s ms = ROk ms' r -> valid_members d ms'.
Proof.
  intros Hval Hms. intros [s' H]%after_ws_inv. destruct (spec_key o s') as [nm s1| |] eqn:Ek; try done.
  apply spec_key_utf8 in Ek. destruct (too_long o nm) eqn:El; [done|].
  assert (Hcol : forall f : jval -> list (bytes * jval), spec_colon o s1 (fun t => match value t with
      | ROk v r => ROk (f v) r | RErr c => RErr c | RFuel => RFuel end) = ROk ms' r ->
    exists v, valid d v /\ ms' = f v).
  { intros f [t Ht]%spec_colon_inv. destruct (value t) as [v r'| |] eqn:Ev; try done.
    injection Ht as <- _. exists v. split; [by eapply Hval|done]. }
  destruct (find_name nm ms) as [i|] eqn:Ef.
  - destruct (duplicate_key o); [done| |].
    + apply (Hcol (fun v => set_value i v ms)) in H as (v & Hv & ->). by apply valid_members_set.
    + apply spec_colon_inv in H as [t Ht]. destruct (skip t) as [u r'| |]; try done. by injection Ht as <- _.
  - apply (Hcol (fun v => ms ++ [(nm, v)])) in H as (v & Hv & ->). by apply valid_members_snoc.
Qed.

(** Everything the reader returns is valid. *)
Lemma spec_value_valid f d s v r : spec_value o f d s = ROk v r -> valid d v.
Proof.
  revert d s v r. induction f as [|f IH]; intros d s v r; cbn [spec_value]; [done|].
  intros [[|c t] H]%after_ws_inv; [done|]. revert H. destruct (too_deep o d) eqn:Ed; [done|].
  assert (Hlit : forall text v', (valid d v') -> spec_literal text v' (c :: t) = ROk v r -> valid d v).
  { intros text v' Hv'. unfold spec_literal. destruct (starts_with _ _); [|done]. by intros [= <- _]. }
  destruct (_ || _).
  { unfold spec_limited_string. destruct (spec_string c t) as [dd rr| |] eqn:Es; try done.
    destruct (too_long o dd) eqn:El; [done|]. intros [= <- _]. simpl. split_and!; [done|done|by eapply spec_string_utf8]. }
  destruct (c =b x5b).
  { destruct (spec_container o _ x5d [] t) as [vs rr| |] eqn:Ec; try done. intros [= <- _]. split; [done|].
    apply allP_Forall. eapply (spec_container_inv (Forall (valid (S d)))); [|constructor|exact Ec].
    intros s' acc acc' r' Hacc. unfold spec_element. destruct (spec_value o f (S d) s') as [w q| |] eqn:Ev; try done.
    intros [= <- _]. apply Forall_app. split; [done|]. constructor; [by eapply IH|done]. }
  destruct (c =b x7b).
  { destruct (spec_container o _ x7d [] t) as [ms rr| |] eqn:Ec; try done. intros [= <- _].
    eapply (spec_container_inv (valid_members (S d))) in Ec as [Hnd Hall].
    - split_and!; [done|done|by apply allP_Forall].
    - intros s' acc acc' r'. apply spec_member_valid. intros s1 v1 r1. apply IH.
    - split; constructor. }
  destruct (c =b x74); [by apply Hlit|]. destruct (c =b x66); [by apply Hlit|].
  destruct (c =b x6e); [by apply Hlit|]. destruct (_ || _); [|done].
  unfold spec_number. destruct (scan_number (c :: t)) as [[[lex b] rr]|] eqn:En; [|done].
  destruct (_ <? _) eqn:El; [done|]. intros [= <- _]. apply scan_number_sound in En as [_ Hj].
  split_and!; [done|done|by exists b].
Qed.

Lemma spec_parse_valid s v : spec_parse o s = Ok v -> valid 0 v.
Proof.
  unfold spec_parse. destruct (spec_ws _ s) as [[|c t]|]; try done.
  destruct (spec_value o value_fuel 0 (c :: t)) as [w r| |] eqn:E; try done.
  destruct (spec_ws _ r) as [[|? ?]|]; try done. intros [= <-]. by eapply spec_value_valid.
Qed.
End valid.
