(* ===== verification/JsonUnicode.v ===== *)
(** * JSON module: UTF-8 text in, UTF-8 text out

    The tokenizer checks of a multi-byte character only the lead byte and that its
    continuation bytes follow. When the text is UTF-8 that is enough: every string and
    every member name the reference reader returns, in either mode, is UTF-8. *)

From Stdlib Require Import ZArith Lia Strings.Byte String.
From stdpp Require Import base tactics option numbers list.
From S2P Require Import Prelude Unicode JsonTypes JsonNumber JsonSpec JsonReader JsonValid.

(** ** The encoder *)

Lemma continuation_bits x : Z.lor 0x80 (Z.land x 0x3F) = 128 + x mod 64.
Proof.
  change 0x3F with (Z.ones 6). rewrite Z.land_ones by lia. change (2 ^ 6) with 64.
  pose proof (Z.mod_pos_bound x 64 ltac:(lia)). change 0x80 with (Z.shiftl 2 6). by rewrite lor_shiftl_add.
Qed.

Lemma encode_utf8_of cp : 0 <= cp < 0x110000 -> encode_utf8 cp = utf8_of cp.
Proof.
  intros H. unfold encode_utf8, utf8_of. destruct (Z.ltb_spec cp 0x80); [done|].
  destruct (Z.ltb_spec cp 0x800); [|destruct (Z.ltb_spec cp 0x10000)]; cbn [map]; rewrite !continuation_bits.
  - pose proof (shiftr_range cp 6 2 32 ltac:(lia) ltac:(lia)). change 0xC0 with (Z.shiftl 6 5).
    rewrite (lor_shiftl_add 6) by lia. by rewrite Z.shiftr_div_pow2.
  - pose proof (shiftr_range cp 12 0 16 ltac:(lia) ltac:(lia)). change 0xE0 with (Z.shiftl 14 4).
    rewrite (lor_shiftl_add 14) by lia. by rewrite !Z.shiftr_div_pow2.
  - pose proof (shiftr_range cp 18 0 5 ltac:(lia) ltac:(lia)). change 0xF0 with (Z.shiftl 30 3).
    rewrite (lor_shiftl_add 30) by lia. by rewrite !Z.shiftr_div_pow2.
Qed.

Lemma scalar_surrogates cp :
  scalar cp <-> 0 <= cp < 0x110000 /\ is_high_surrogate cp = false /\ is_low_surrogate cp = false.
Proof.
  unfold scalar, is_high_surrogate, is_low_surrogate.
  destruct (Z.leb_spec 0xD800 cp), (Z.leb_spec cp 0xDFFF), (Z.leb_spec cp 0xDBFF), (Z.leb_spec 0xDC00 cp); cbn [andb];
    intuition (try done; lia).
Qed.

(** One encoded character: a lead byte that gives its length, and continuation bytes. *)
Lemma utf8_of_char cp : scalar cp -> utf8_char (utf8_of cp).
Proof. intros [H _]. rewrite <- encode_utf8_of by lia. by apply encode_utf8_char. Qed.

(** ** Text seen from inside *)

(** From every byte on that does not continue a character, the text is UTF-8. *)
Definition textual (s : bytes) : Prop := forall p c t, s = p ++ c :: t -> is_cont c = false -> scalars (c :: t).

Lemma textual_suffix p s : textual (p ++ s) -> textual s.
Proof. intros H p' c t -> Hc. apply (H (p ++ p')); [by rewrite <- app_assoc|done]. Qed.

Lemma scalars_textual s : scalars s -> textual s.
Proof.
  induction 1 as [|cp d Hcp Hd IH]; intros p c t E Hc; [by destruct p|]. destruct (utf8_of_char cp Hcp) as (lead & conts & Hch & Hl & Hco).
  destruct p as [|b p]; [cbn in E; rewrite <- E; by constructor|]. rewrite Hch in E. cbn in E. injection E as -> E.
  destruct (decide (length conts <= length p)%nat) as [Hle|Hlt].
  - apply (IH (drop (length conts) p)); [|done]. rewrite <- (drop_app_length conts d), E. by rewrite drop_app_le.
  - exfalso. assert (Hin : c ∈ conts).
    { apply (list_elem_of_lookup_2 _ (length p)). rewrite <- (lookup_app_l conts d), E, lookup_app_r by lia. by rewrite Nat.sub_diag. }
    rewrite Forall_forall in Hco. rewrite (Hco c Hin) in Hc. done.
Qed.

Lemma seq_len_lead c : utf8_seq_len c <> 0%nat -> is_cont c = false.
Proof.
  intros H. assert (Hd : (utf8_seq_len c =? 0)%nat || negb (is_cont c) = true) by byte_decide c.
  apply orb_true_iff in Hd as [Hd|Hd]; [by apply Nat.eqb_eq in Hd|by apply negb_true_iff].
Qed.

(** What the tokenizer copies as one character is one. *)
Lemma textual_char lead conts rest :
  textual (lead :: conts ++ rest) -> utf8_seq_len lead = S (length conts) -> exists cp, scalar cp /\ lead :: conts = utf8_of cp.
Proof.
  intros Ht Hl. assert (Hs : scalars (lead :: conts ++ rest)) by (apply (Ht []); [done|apply seq_len_lead; lia]).
  inversion Hs as [|cp d Hcp Hd E]. exists cp. split; [done|]. destruct (utf8_of_char cp Hcp) as (l & cs & Hch & Hl' & _).
  rewrite Hch in *. cbn in E. injection E as -> E. f_equal. rewrite Hl in Hl'. apply app_inj_1 in E; [symmetry; apply E|lia].
Qed.

(** ** The reader goes forward in the text *)

Lemma textual_rest r s : textual s -> r `suffix_of` s -> textual r.
Proof. intros H [p ->]. by eapply textual_suffix. Qed.

Lemma blanks_suffix s : spec_blanks s `suffix_of` s.
Proof. induction s as [|c s IH]; [done|]. cbn. destruct (is_blank c); [by apply suffix_cons_r|done]. Qed.

Lemma line_comment_suffix s : spec_line_comment s `suffix_of` s.
Proof. induction s as [|c s IH]; [done|]. cbn. destruct (c =b x0a); [done|by apply suffix_cons_r]. Qed.

Lemma block_comment_suffix s t : spec_block_comment s = Some t -> t `suffix_of` s.
Proof.
  induction s as [|c s IH]; [done|]. cbn. destruct s as [|d u]; [done|]. destruct (_ && _); [|intros H; apply suffix_cons_r; auto].
  intros [= <-]. by apply suffix_cons_r, suffix_cons_r.
Qed.

Lemma ws_suffix m s t : spec_ws m s = Some t -> t `suffix_of` s.
Proof.
  unfold spec_ws. generalize (S (length s)). intros n. revert s. induction n as [|n IH]; intros s; cbn [spec_ws_n]; [by intros [= <-]|].
  pose proof (blanks_suffix s) as Hb. destruct m; [by intros [= <-]|].
  destruct (spec_blanks s) as [|c [|d u]]; [by intros [= <-]|by intros [= <-]|]. destruct (negb _); [by intros [= <-]|].
  assert (Hu : u `suffix_of` s) by (etrans; [|exact Hb]; by apply suffix_cons_r, suffix_cons_r).
  destruct (d =b x2f).
  - intros H%IH. etrans; [exact H|]. etrans; [apply line_comment_suffix|done].
  - destruct (d =b x2a); [|by intros [= <-]]. destruct (spec_block_comment u) as [v|] eqn:Ev; [|done].
    intros H%IH. etrans; [exact H|]. etrans; [by apply block_comment_suffix|done].
Qed.

Lemma unicode_suffix s cp r : spec_unicode s = ROk cp r -> r `suffix_of` s /\ scalar cp.
Proof.
  intros H. pose proof (spec_unicode_range s cp r H) as Hr. revert H. unfold spec_unicode. destruct (hex4_of s) as [[v s1]|] eqn:E1; [|done].
  apply hex4_of_Some in E1 as (a & b & c & d & ? & ? & ? & ? & -> & _ & _ & _ & _ & _ & Hv).
  destruct (is_high_surrogate v) eqn:Eh.
  - destruct s1 as [|c1 [|d1 s2]]; try done. destruct (_ || _); [done|]. destruct (hex4_of s2) as [[lo s3]|] eqn:E2; [|done].
    apply hex4_of_Some in E2 as (a2 & b2 & c2 & d2 & ? & ? & ? & ? & -> & _). destruct (is_low_surrogate lo) eqn:El; [|done].
    intros [= <- <-]. split; [by eexists ([a; b; c; d; c1; d1; a2; b2; c2; d2])|]. split; [done|].
    unfold is_high_surrogate, is_low_surrogate, combine_surrogates in *. bool_simp. rewrite Z.shiftl_mul_pow2 by lia. change (2 ^ 10) with 1024. lia.
  - destruct (is_low_surrogate v) eqn:El; [done|]. intros [= <- <-]. split; [by exists [a; b; c; d]|]. by apply scalar_surrogates.
Qed.

(** One item of a string of a text. *)
Lemma item_unicode q s x r :
  spec_item q s = ROk x r -> r `suffix_of` s /\ (textual s -> match x with inl _ => True | inr ch => scalars ch end).
Proof.
  unfold spec_item. destruct s as [|c t]; [done|]. destruct (c =b q); [intros [= <- <-]; split; [by apply suffix_cons_r|done]|].
  destruct (byteZ c <? 0x20); [done|]. destruct (c =b x5c).
  - unfold spec_escape. destruct t as [|e t]; [done|]. destruct (simple_escape q e) as [b|] eqn:Ee.
    + intros [= <- <-]. split; [by apply suffix_cons_r, suffix_cons_r|]. intros _. apply scalars_ascii_text. constructor; [|done].
      by apply (simple_escape_ascii q e).
    + destruct (e =b x75); [|done]. destruct (spec_unicode t) as [cp rr| |] eqn:Eu; try done. intros [= <- <-].
      apply unicode_suffix in Eu as [Hr Hs]. split; [by apply suffix_cons_r, suffix_cons_r|]. intros _.
      rewrite encode_utf8_of by apply Hs. by apply scalars_one.
  - destruct (spec_utf8 (c :: t)) as [ch rr| |] eqn:Eu; try done. intros [= <- <-]. pose proof (spec_utf8_split _ _ _ Eu) as [Hs _].
    split; [by exists ch|]. intros Ht. assert (utf8_char ch) as (lead & conts & -> & Hl & _).
    { unfold spec_utf8 in Eu. destruct (Nat.eqb_spec (utf8_seq_len c) 0); [done|].
      destruct (Nat.ltb_spec (length (c :: t)) (utf8_seq_len c)) as [|Hl]; [done|]. destruct (forallb _ _) eqn:Ef; [|done].
      injection Eu as <- _. destruct (utf8_seq_len c) as [|k] eqn:Ek; [done|]. simpl in *. rewrite Nat.sub_0_r in Ef.
      exists c, (take k t). rewrite length_take_le by lia. split_and!; [done|done|]. by apply forallb_Forall. }
    rewrite Hs in Ht. destruct (textual_char lead conts rr Ht Hl) as (cp & Hcp & ->). by apply scalars_one.
Qed.

Lemma string_unicode q s d r : spec_string q s = ROk d r -> r `suffix_of` s /\ (textual s -> scalars d).
Proof.
  unfold spec_string. generalize (S (length s)). intros n. revert s d. induction n as [|n IH]; intros s d; cbn [spec_string_n]; [done|].
  destruct (spec_item q s) as [[u|ch] rr| |] eqn:Ei; try done; apply item_unicode in Ei as [Hr Hi].
  - intros [= <- <-]. split; [done|constructor].
  - destruct (spec_string_n n q rr) as [d' r'| |] eqn:Es; try done. intros [= <- <-]. apply IH in Es as [Hr' Hd].
    split; [by etrans|]. intros Ht. apply scalars_app; [by apply Hi|]. apply Hd. by eapply textual_rest.
Qed.

Section reader.
Context (o : JsonParseOptions).

Lemma after_ws_suffix {A} s (k : bytes -> rres A) a r : after_ws o s k = ROk a r -> exists s', s' `suffix_of` s /\ k s' = ROk a r.
Proof. unfold after_ws. destruct (spec_ws _ s) as [s'|] eqn:E; [|done]. apply ws_suffix in E. by exists s'. Qed.

Lemma key_unicode s nm r : spec_key o s = ROk nm r -> r `suffix_of` s /\ (textual s -> scalars nm).
Proof.
  unfold spec_key. destruct s as [|c t]; [done|]. assert (Hcons : forall P, textual (c :: t) -> (textual t -> P) -> P).
  { intros P Ht HP. apply HP. by apply (textual_suffix [c]). }
  assert (Hstr : forall q, spec_string q t = ROk nm r -> r `suffix_of` (c :: t) /\ (textual (c :: t) -> scalars nm)).
  { intros q [Hr Hd]%string_unicode. split; [by apply suffix_cons_r|]. intros Ht. by apply (Hcons (scalars nm) Ht). }
  destruct (c =b x22); [apply Hstr|]. destruct (is_json5 o); [|done]. destruct (c =b x27); [apply Hstr|].
  destruct (is_ident_start c) eqn:Ec; [|done]. destruct (span _ t) as [id r'] eqn:Es. intros [= <- <-].
  apply span_spec in Es as (Ht & Hid & _). split; [apply suffix_cons_r; by exists id|]. intros _. apply scalars_ascii_text.
  assert (Hc : is_ident_char c = true).
  { assert (implb (is_ident_start c) (is_ident_char c) = true) as H by byte_decide c. by rewrite Ec in H. }
  eapply Forall_impl; [exact (Forall_cons_2 _ _ _ Hc Hid)|]. cbn. intros b Hb.
  assert (implb (is_ident_char b) (byteZ b <? 0x80) = true) as H by byte_decide b. rewrite Hb in H. by apply Z.ltb_lt in H.
Qed.

Lemma separator_suffix close s b r : spec_separator o close s = ROk b r -> r `suffix_of` s.
Proof.
  intros (s' & Hs & H)%after_ws_suffix. etrans; [|exact Hs]. destruct s' as [|c t]; [done|].
  destruct (c =b close); [injection H as <- <-; by apply suffix_cons_r|]. destruct (negb _); [done|].
  destruct (is_json5 o); [|injection H as <- <-; by apply suffix_cons_r]. apply after_ws_suffix in H as (t' & Ht & H). apply suffix_cons_r.
  etrans; [|exact Ht]. destruct t' as [|d u]; [injection H as <- <-; done|].
  destruct (d =b close); injection H as <- <-; [by apply suffix_cons_r|done].
Qed.

(** Elements one after the other: what each of them keeps. *)
Lemma elements_unicode {A} (I : A -> Prop) (elem : bytes -> A -> rres A) close n s acc acc' r :
  (forall s acc acc' r, elem s acc = ROk acc' r -> r `suffix_of` s /\ (textual s -> I acc -> I acc')) ->
  spec_elements o elem close n s acc = ROk acc' r -> r `suffix_of` s /\ (textual s -> I acc -> I acc').
Proof.
  intros He. revert s acc. induction n as [|n IH]; intros s acc; cbn [spec_elements]; [done|].
  destruct (elem s acc) as [acc1 s1| |] eqn:Ee; try done. apply He in Ee as [Hr1 Hi].
  destruct (spec_separator o close s1) as [[] s2| |] eqn:Es; try done; apply separator_suffix in Es.
  - intros [= <- <-]. split; [by etrans|done].
  - intros [Hr2 H]%IH. split; [etrans; [exact Hr2|by etrans]|]. intros Ht Ha. apply H; [|by apply Hi].
    eapply textual_rest; [exact Ht|by etrans].
Qed.

Lemma container_unicode {A} (I : A -> Prop) (elem : bytes -> A -> rres A) close empty s acc r :
  (forall s acc acc' r, elem s acc = ROk acc' r -> r `suffix_of` s /\ (textual s -> I acc -> I acc')) ->
  spec_container o elem close empty s = ROk acc r -> r `suffix_of` s /\ (textual s -> I empty -> I acc).
Proof.
  intros He (s' & Hs & H)%after_ws_suffix.
  assert (Hel : spec_elements o elem close (S (length s')) s' empty = ROk acc r -> r `suffix_of` s /\ (textual s -> I empty -> I acc)).
  { intros [Hr Hi]%(elements_unicode I); [|done]. split; [by etrans|]. intros Ht. apply Hi. by eapply textual_rest. }
  destruct s' as [|c t]; [by apply Hel|]. destruct (c =b close); [|by apply Hel]. injection H as <- <-.
  split; [etrans; [|exact Hs]; by apply suffix_cons_r|done].
Qed.

Lemma colon_suffix {A} s (k : bytes -> rres A) a r : spec_colon o s k = ROk a r -> exists t, t `suffix_of` s /\ k t = ROk a r.
Proof.
  intros ([|c t] & Hs & H)%after_ws_suffix; [done|]. destruct (c =b x3a); [|done]. exists t. split; [|done].
  etrans; [|exact Hs]. by apply suffix_cons_r.
Qed.

Lemma literal_suffix {A} text (v a : A) s r : spec_literal text v s = ROk a r -> r `suffix_of` s /\ a = v.
Proof. unfold spec_literal. destruct (starts_with _ _); [|done]. intros [= <- <-]. split; [apply suffix_drop|done]. Qed.

Lemma number_suffix s lex r : spec_number s = ROk lex r -> r `suffix_of` s.
Proof.
  unfold spec_number. destruct (scan_number s) as [[[l b] rr]|] eqn:E; [|done]. destruct (_ <? _); [done|]. intros [= <- <-].
  apply scan_number_sound in E as [-> _]. by exists l.
Qed.

Lemma limited_unicode q s d r : spec_limited_string o q s = ROk d r -> r `suffix_of` s /\ (textual s -> scalars d).
Proof.
  unfold spec_limited_string. destruct (spec_string q s) as [d' r'| |] eqn:E; try done. destruct (too_long o d'); [done|].
  intros [= <- <-]. by apply string_unicode in E.
Qed.

Lemma skip_suffix f d s u r : spec_skip o f d s = ROk u r -> r `suffix_of` s.
Proof.
  revert d s r u. induction f as [|f IH]; intros d s r u; cbn [spec_skip]; [done|].
  intros ([|c t] & Hs & H)%after_ws_suffix; [done|]. etrans; [|exact Hs]. destruct (too_deep o d); [done|].
  destruct (_ || _).
  { destruct (spec_limited_string o c t) as [dd rr| |] eqn:E; try done. injection H as <- <-. apply limited_unicode in E as [E _]. by apply suffix_cons_r. }
  destruct (c =b x5b).
  { apply (container_unicode (fun _ => True)) in H as [H _]; [by apply suffix_cons_r|]. intros s' [] [] r' Hk%IH. done. }
  destruct (c =b x7b).
  { apply (container_unicode (fun _ => True)) in H as [H _]; [by apply suffix_cons_r|]. intros s' [] [] r' (s1 & Hs1 & Hm)%after_ws_suffix.
    destruct (spec_key o s1) as [nm s2| |] eqn:Ek; try done. apply key_unicode in Ek as [Ek _]. apply colon_suffix in Hm as (t' & Ht' & Hk%IH).
    split; [|done]. etrans; [exact Hk|]. etrans; [exact Ht'|]. by etrans. }
  destruct (c =b x74); [by apply literal_suffix in H as [? _]|]. destruct (c =b x66); [by apply literal_suffix in H as [? _]|].
  destruct (c =b x6e); [by apply literal_suffix in H as [? _]|]. destruct (_ || _); [|done].
  destruct (spec_number (c :: t)) as [l rr| |] eqn:E; try done. injection H as <- <-. by apply number_suffix in E.
Qed.

(** All strings and names of a value. *)
Fixpoint strings (P : bytes -> Prop) (v : jval) : Prop :=
  match v with
  | JNull | JBool _ | JNum _ => True
  | JStr s => P s
  | JArr vs => allP (strings P) vs
  | JObj ms => allP (fun m => P (fst m) /\ strings P (snd m)) ms
  end.

Definition unicode_members (ms : list (bytes * jval)) : Prop := Forall (fun m => scalars (fst m) /\ strings scalars (snd m)) ms.

Lemma member_unicode value skip s ms ms' r :
  (forall s v r, value s = ROk v r -> r `suffix_of` s /\ (textual s -> strings scalars v)) ->
  (forall s u r, skip s = ROk u r -> r `suffix_of` s) ->
  spec_member o value skip s ms = ROk ms' r -> r `suffix_of` s /\ (textual s -> unicode_members ms -> unicode_members ms').
Proof.
  intros Hval Hskip (s' & Hs & H)%after_ws_suffix. destruct (spec_key o s') as [nm s1| |] eqn:Ek; try done.
  apply key_unicode in Ek as [Hr1 Hnm]. assert (Hs1 : s1 `suffix_of` s) by (by etrans). destruct (too_long o nm); [done|].
  assert (Hcol : forall f : jval -> list (bytes * jval), spec_colon o s1 (fun t => match value t with
      | ROk v r => ROk (f v) r | RErr c => RErr c | RFuel => RFuel end) = ROk ms' r ->
    r `suffix_of` s /\ exists v, (textual s -> strings scalars v) /\ ms' = f v).
  { intros f (t & Ht & Hv)%colon_suffix. destruct (value t) as [v r'| |] eqn:Ev; try done. injection Hv as <- <-.
    apply Hval in Ev as [Hr Hv]. split; [etrans; [exact Hr|by etrans]|]. exists v. split; [|done]. intros Htx. apply Hv.
    eapply textual_rest; [exact Htx|by etrans]. }
  destruct (find_name nm ms) as [i|] eqn:Ef.
  - destruct (duplicate_key o); [done| |].
    + apply (Hcol (fun v => set_value i v ms)) in H as (Hr & v & Hv & ->). split; [done|]. intros Ht Hms. unfold set_value.
      apply Forall_alter; [done|]. intros [n w] _ [Hn _]. split; [done|by apply Hv].
    + apply colon_suffix in H as (t & Ht & H). destruct (skip t) as [u r'| |] eqn:Es; try done. injection H as <- <-.
      apply Hskip in Es. split; [etrans; [exact Es|by etrans]|done].
  - apply (Hcol (fun v => ms ++ [(nm, v)])) in H as (Hr & v & Hv & ->). split; [done|]. intros Ht Hms. apply Forall_app. split; [done|].
    apply Forall_singleton. split; [|by apply Hv]. apply Hnm. by eapply textual_rest.
Qed.

Lemma value_unicode f d s v r : spec_value o f d s = ROk v r -> r `suffix_of` s /\ (textual s -> strings scalars v).
Proof.
  revert d s v r. induction f as [|f IH]; intros d s v r; cbn [spec_value]; [done|].
  intros ([|c t] & Hs & H)%after_ws_suffix; [done|]. cut (r `suffix_of` (c :: t) /\ (textual (c :: t) -> strings scalars v)).
  { intros [Hr Hv]. split; [by etrans|]. intros Ht. apply Hv. by eapply textual_rest. }
  assert (Htail : textual (c :: t) -> textual t) by apply (textual_suffix [c]). destruct (too_deep o d); [done|].
  destruct (_ || _).
  { destruct (spec_limited_string o c t) as [dd rr| |] eqn:E; try done. injection H as <- <-. apply limited_unicode in E as [E Hd].
    split; [by apply suffix_cons_r|]. intros Ht. by apply Hd, Htail. }
  destruct (c =b x5b).
  { destruct (spec_container o _ x5d [] t) as [vs rr| |] eqn:Ec; try done. injection H as <- <-.
    apply (container_unicode (Forall (strings scalars))) in Ec as [Hr Hc].
    - split; [by apply suffix_cons_r|]. intros Ht. apply (allP_Forall (strings scalars)), Hc; [by apply Htail|done].
    - intros s' acc acc' r'. unfold spec_element. destruct (spec_value o f (S d) s') as [w q| |] eqn:Ev; try done.
      intros [= <- <-]. apply IH in Ev as [Hr' Hv]. split; [done|]. intros Ht Ha. apply Forall_app. split; [done|].
      constructor; [by apply Hv|done]. }
  destruct (c =b x7b).
  { destruct (spec_container o _ x7d [] t) as [ms rr| |] eqn:Ec; try done. injection H as <- <-.
    apply (container_unicode unicode_members) in Ec as [Hr Hc].
    - split; [by apply suffix_cons_r|]. intros Ht. apply (allP_Forall (fun m => scalars (fst m) /\ strings scalars (snd m))), Hc;
        [by apply Htail|constructor].
    - intros s' acc acc' r'. apply member_unicode; [intros s1 v1 r1; apply IH|intros s1 u1 r1; apply skip_suffix]. }
  destruct (c =b x74); [by apply literal_suffix in H as [? ->]|]. destruct (c =b x66); [by apply literal_suffix in H as [? ->]|].
  destruct (c =b x6e); [by apply literal_suffix in H as [? ->]|]. destruct (_ || _); [|done].
  destruct (spec_number (c :: t)) as [l rr| |] eqn:E; try done. injection H as <- <-. by apply number_suffix in E.
Qed.

Lemma spec_parse_unicode s v : spec_parse o s = Ok v -> scalars s -> strings scalars v.
Proof.
  unfold spec_parse. destruct (spec_ws _ s) as [[|c t]|] eqn:Ew; try done. apply ws_suffix in Ew.
  destruct (spec_value o value_fuel 0 (c :: t)) as [w r| |] eqn:E; try done. destruct (spec_ws _ r) as [[|? ?]|]; try done.
  intros [= <-] Hs. apply value_unicode in E as [_ Hv]. apply Hv. eapply textual_rest; [by apply scalars_textual|done].
Qed.
End reader.
