(* ===== verification/JsonGrammar.v ===== *)
(** * JSON module: the grammar of the reader

    The texts of the grammar of RFC 8259, with the characters the tokenizer
    accepts in its strings (a lead byte with its continuation bytes; [JsonRfc] has
    the characters of Unicode instead), as inductive relations between a text and the
    value it writes (objects with all their members, in order), the meaning the
    options give to such a value (the limits and the duplicate-key policy), and
    the theorem that in strict mode the reference reader accepts exactly the
    texts of the grammar that have a meaning, and returns it. *)

From Stdlib Require Import ZArith Lia Strings.Byte String.
From stdpp Require Import base tactics option numbers list.
From S2P Require Import Prelude JsonTypes JsonNumber JsonSpec JsonReader.

(** ** Strings *)

Definition hex4_text (h : bytes) (cp : Z) : Prop :=
  exists a b c d va vb vc vd, h = [a; b; c; d] /\ hex_val a = Some va /\
    hex_val b = Some vb /\ hex_val c = Some vc /\ hex_val d = Some vd /\
    cp = ((va * 16 + vb) * 16 + vc) * 16 + vd.

(** [jchar t ch]: the text [t] of one character, and the bytes it stands for. *)
Inductive jchar : bytes -> bytes -> Prop :=
| jc_unescaped lead conts :
    0x20 <= byteZ lead -> lead <> x22 -> lead <> x5c ->
    utf8_seq_len lead = S (length conts) -> Forall (fun c => is_cont c = true) conts ->
    jchar (lead :: conts) (lead :: conts)
| jc_escape e c : simple_escape x22 e = Some c -> jchar [x5c; e] [c]
| jc_unicode h cp : hex4_text h cp -> is_high_surrogate cp = false -> is_low_surrogate cp = false ->
    jchar (x5c :: x75 :: h) (encode_utf8 cp)
| jc_pair h hi l lo : hex4_text h hi -> hex4_text l lo ->
    is_high_surrogate hi = true -> is_low_surrogate lo = true ->
    jchar (x5c :: x75 :: h ++ x5c :: x75 :: l) (encode_utf8 (combine_surrogates hi lo)).

Inductive jchars : bytes -> bytes -> Prop :=
| jcs_nil : jchars [] []
| jcs_cons t ch u d : jchar t ch -> jchars u d -> jchars (t ++ u) (ch ++ d).

(** ** Values *)

Definition blanks (w : bytes) : Prop := Forall (fun c => is_blank c = true) w.

(** [jtext v t]: the text [t] writes the value [v]; [jpad] with white space
    around it. *)
Inductive jtext : jval -> bytes -> Prop :=
| jt_null : jtext JNull (B "null")
| jt_true : jtext (JBool true) (B "true")
| jt_false : jtext (JBool false) (B "false")
| jt_num lex b : jnumber lex b -> jtext (JNum lex) lex
| jt_str t d : jchars t d -> jtext (JStr d) (x22 :: t ++ [x22])
| jt_arr_empty w : blanks w -> jtext (JArr []) (x5b :: w ++ [x5d])
| jt_arr vs t : jelems vs t -> jtext (JArr vs) (x5b :: t ++ [x5d])
| jt_obj_empty w : blanks w -> jtext (JObj []) (x7b :: w ++ [x7d])
| jt_obj ms t : jmembers ms t -> jtext (JObj ms) (x7b :: t ++ [x7d])
with jpad : jval -> bytes -> Prop :=
| jpad_intro w1 v t w2 : blanks w1 -> jtext v t -> blanks w2 -> jpad v (w1 ++ t ++ w2)
with jelems : list jval -> bytes -> Prop :=
| je_one v t : jpad v t -> jelems [v] t
| je_cons v t vs u : jpad v t -> jelems vs u -> jelems (v :: vs) (t ++ x2c :: u)
with jpair : bytes * jval -> bytes -> Prop :=
| jpair_intro w1 nt nm w2 v t :
    blanks w1 -> jchars nt nm -> blanks w2 -> jpad v t ->
    jpair (nm, v) (w1 ++ x22 :: nt ++ x22 :: w2 ++ x3a :: t)
with jmembers : list (bytes * jval) -> bytes -> Prop :=
| jm_one m t : jpair m t -> jmembers [m] t
| jm_cons m t ms u : jpair m t -> jmembers ms u -> jmembers (m :: ms) (t ++ x2c :: u).

Scheme jtext_mut := Minimality for jtext Sort Prop
with jpad_mut := Minimality for jpad Sort Prop
with jelems_mut := Minimality for jelems Sort Prop
with jpair_mut := Minimality for jpair Sort Prop
with jmembers_mut := Minimality for jmembers Sort Prop.
Combined Scheme jgrammar_ind from jtext_mut, jpad_mut, jelems_mut, jpair_mut, jmembers_mut.

(** ** The meaning of a written value under the options *)

Section meaning.
Context (o : JsonParseOptions).

(** What a value dropped by [first_wins] must still satisfy. *)
Fixpoint skippable (d : nat) (v : jval) : bool :=
  negb (too_deep o d) &&
  match v with
  | JStr s => negb (too_long o s)
  | JNum lex => negb (kMaxNumberLexemeLen <? Z.of_nat (length lex))
  | JArr vs => forallb (skippable (S d)) vs
  | JObj ms => forallb (fun m => skippable (S d) (snd m)) ms
  | _ => true
  end.

(** One more member, given the meaning of its value. *)
Definition add_member (nm : bytes) (mean : option jval) (skip : bool) (acc : list (bytes * jval))
  : option (list (bytes * jval)) :=
  if too_long o nm then None
  else
    match find_name nm acc, duplicate_key o with
    | None, _ => x ← mean; Some (acc ++ [(nm, x)])
    | Some _, dup_reject => None
    | Some i, dup_last_wins => x ← mean; Some (set_value i x acc)
    | Some _, dup_first_wins => if skip then Some acc else None
    end.

Definition add_members (mean : jval -> option jval) (skip : jval -> bool)
  : list (bytes * jval) -> list (bytes * jval) -> option (list (bytes * jval)) :=
  fix go ms acc :=
    match ms with
    | [] => Some acc
    | (nm, v) :: ms' => acc' ← add_member nm (mean v) (skip v) acc; go ms' acc'
    end.

Definition mean_all (mean : jval -> option jval) : list jval -> option (list jval) :=
  fix go vs :=
    match vs with
    | [] => Some []
    | v :: vs' => x ← mean v; xs ← go vs'; Some (x :: xs)
    end.

Fixpoint meaning (d : nat) (v : jval) : option jval :=
  if too_deep o d then None
  else
    match v with
    | JStr s => if too_long o s then None else Some v
    | JNum lex => if kMaxNumberLexemeLen <? Z.of_nat (length lex) then None else Some v
    | JArr vs => JArr <$> mean_all (meaning (S d)) vs
    | JObj ms => JObj <$> add_members (meaning (S d)) (skippable (S d)) ms []
    | _ => Some v
    end.
End meaning.

(** ** White space *)

Lemma spec_blanks_app w s : blanks w -> spec_blanks (w ++ s) = spec_blanks s.
Proof. intros Hw. induction Hw as [|c w Hc _ IH]; [done|]. simpl. by rewrite Hc. Qed.

Lemma spec_blanks_split s : exists w, blanks w /\ s = w ++ spec_blanks s.
Proof.
  induction s as [|c s IH]; [exists []; split; [constructor|done]|]. simpl.
  destruct (is_blank c) eqn:Ec; [|exists []; split; [constructor|done]].
  destruct IH as (w & Hw & Hs). exists (c :: w). split; [by constructor|]. simpl. by rewrite <- Hs.
Qed.

Lemma spec_blanks_head c s : is_blank c = false -> spec_blanks (c :: s) = c :: s.
Proof. intros H. simpl. by rewrite H. Qed.

Lemma blanks_app a b : blanks a -> blanks b -> blanks (a ++ b).
Proof. apply Forall_app_2. Qed.

(** Appends to the right. *)
Ltac app_norm := repeat first [rewrite <- app_assoc | rewrite <- app_comm_cons].

(** ** Strings: sound and complete *)

Lemma hex4_of_text h cp r : hex4_text h cp -> hex4_of (h ++ r) = Some (cp, r).
Proof.
  intros (a & b & c & d & va & vb & vc & vd & -> & Ha & Hb & Hc & Hd & ->). simpl. rewrite Ha, Hb, Hc, Hd. simpl.
  apply hex_val_range in Ha, Hb, Hc, Hd. by rewrite !hex_step_val by done.
Qed.

Lemma hex4_text_of s cp r : hex4_of s = Some (cp, r) -> exists h, s = h ++ r /\ hex4_text h cp.
Proof.
  intros (a & b & c & d & va & vb & vc & vd & -> & Ha & Hb & Hc & Hd & Hv & _)%hex4_of_Some.
  exists [a; b; c; d]. split; [done|]. by exists a, b, c, d, va, vb, vc, vd.
Qed.

Lemma hex4_text_length h cp : hex4_text h cp -> length h = 4%nat.
Proof. by intros (a & b & c & d & ? & ? & ? & ? & -> & _). Qed.

Lemma spec_unicode_sound s cp r :
  spec_unicode s = ROk cp r -> exists t, s = t ++ r /\ jchar (x5c :: x75 :: t) (encode_utf8 cp).
Proof.
  unfold spec_unicode. destruct (hex4_of s) as [[v s1]|] eqn:E1; [|done].
  apply hex4_text_of in E1 as (h & -> & Hh). destruct (is_high_surrogate v) eqn:Eh.
  - destruct s1 as [|c [|d s2]]; try done. destruct (_ || _ || _) eqn:Eo; [done|]. bool_simp.
    destruct (hex4_of s2) as [[lo s3]|] eqn:E2; [|done]. apply hex4_text_of in E2 as (l & -> & Hl).
    destruct (is_low_surrogate lo) eqn:El; [|done]. intros [= <- <-].
    exists (h ++ x5c :: x75 :: l). split; [by rewrite <- app_assoc; simplify_eq/=|by apply jc_pair].
  - destruct (is_low_surrogate v) eqn:El; [done|]. intros [= <- <-]. exists h. split; [done|by apply jc_unicode].
Qed.

Lemma spec_unicode_complete h cp r :
  hex4_text h cp -> is_high_surrogate cp = false -> is_low_surrogate cp = false ->
  spec_unicode (h ++ r) = ROk cp r.
Proof. intros Hh Hhi Hlo. unfold spec_unicode. by rewrite (hex4_of_text _ _ _ Hh), Hhi, Hlo. Qed.

Lemma spec_unicode_pair h hi l lo r :
  hex4_text h hi -> hex4_text l lo -> is_high_surrogate hi = true -> is_low_surrogate lo = true ->
  spec_unicode (h ++ x5c :: x75 :: l ++ r) = ROk (combine_surrogates hi lo) r.
Proof.
  intros Hh Hl Hhi Hlo. unfold spec_unicode. rewrite (hex4_of_text _ _ _ Hh), Hhi.
  rewrite length_app, (hex4_text_length _ _ Hl). simpl. by rewrite (hex4_of_text _ _ _ Hl), Hlo.
Qed.

Lemma spec_utf8_sound s ch r :
  spec_utf8 s = ROk ch r -> exists lead conts, ch = lead :: conts /\ s = ch ++ r /\
    utf8_seq_len lead = S (length conts) /\ Forall (fun c => is_cont c = true) conts.
Proof.
  unfold spec_utf8. destruct s as [|c t]; [done|].
  destruct (Nat.eqb_spec (utf8_seq_len c) 0) as [|Hn]; [done|].
  destruct (Nat.ltb_spec (length (c :: t)) (utf8_seq_len c)) as [|Hl]; [done|].
  destruct (forallb _ _) eqn:Ef; [|done]. intros [= <- <-].
  destruct (utf8_seq_len c) as [|k] eqn:Ek; [done|]. simpl in *. rewrite Nat.sub_0_r in Ef.
  exists c, (take k t). rewrite take_drop, length_take_le by lia. split_and!; try done. by apply forallb_Forall.
Qed.

Lemma spec_utf8_complete lead conts r :
  utf8_seq_len lead = S (length conts) -> Forall (fun c => is_cont c = true) conts ->
  spec_utf8 (lead :: conts ++ r) = ROk (lead :: conts) r.
Proof.
  intros Hl Hc. unfold spec_utf8. rewrite Hl. cbn [Nat.eqb length]. rewrite length_app.
  destruct (Nat.ltb_spec (S (length conts + length r)) (S (length conts))); [lia|].
  simpl. rewrite Nat.sub_0_r, take_app_length, drop_app_length.
  assert (forallb is_cont conts = true) as ->; [|done]. by apply forallb_Forall.
Qed.

Lemma simple_escape_u q : simple_escape q x75 = None.
Proof. done. Qed.

Lemma spec_item_sound s ch r : spec_item x22 s = ROk (inr ch) r -> exists t, s = t ++ r /\ jchar t ch.
Proof.
  unfold spec_item. destruct s as [|c t]; [done|]. destruct (byte_eqb_spec c x22) as [|Hq]; [done|].
  destruct (Z.ltb_spec (byteZ c) 0x20); [done|]. destruct (byte_eqb_spec c x5c) as [->|Hb].
  - unfold spec_escape. destruct t as [|e t]; [done|]. destruct (simple_escape x22 e) as [b|] eqn:Ee.
    + intros [= <- <-]. exists [x5c; e]. split; [done|by apply jc_escape].
    + destruct (byte_eqb_spec e x75) as [->|]; [|done].
      destruct (spec_unicode t) as [cp rr| |] eqn:Eu; try done. intros [= <- <-].
      apply spec_unicode_sound in Eu as (u & -> & Hu). by exists (x5c :: x75 :: u).
  - destruct (spec_utf8 (c :: t)) as [ch' rr| |] eqn:Eu; try done. intros [= <- <-].
    apply spec_utf8_sound in Eu as (lead & conts & -> & Hs & Hl & Hc). exists (lead :: conts).
    split; [done|]. injection Hs as <- _. by apply jc_unescaped.
Qed.

Lemma spec_item_complete t ch r : jchar t ch -> spec_item x22 (t ++ r) = ROk (inr ch) r.
Proof.
  intros [lead conts H0 Hq Hb Hl Hc|e c He|h cp Hh Hhi Hlo|h hi l lo Hh Hl Hhi Hlo]; unfold spec_item; cbn [app].
  - destruct (byte_eqb_spec lead x22); [done|]. destruct (Z.ltb_spec (byteZ lead) 0x20); [lia|].
    destruct (byte_eqb_spec lead x5c); [done|]. by rewrite spec_utf8_complete.
  - cbn -[spec_escape]. unfold spec_escape. by rewrite He.
  - cbn -[spec_escape]. unfold spec_escape. cbn -[spec_unicode encode_utf8]. by rewrite (spec_unicode_complete _ cp).
  - cbn -[spec_escape]. unfold spec_escape. cbn -[spec_unicode encode_utf8].
    rewrite <- app_assoc. cbn [app]. by rewrite (spec_unicode_pair _ hi _ lo).
Qed.

Lemma spec_string_sound s d r : spec_string x22 s = ROk d r -> exists t, s = t ++ x22 :: r /\ jchars t d.
Proof.
  unfold spec_string. generalize (S (length s)). intros n. revert s d.
  induction n as [|n IH]; intros s d; cbn [spec_string_n]; [done|].
  destruct (spec_item x22 s) as [[[]|ch] rr| |] eqn:Ei; try done.
  - intros [= <- <-]. exists []. split; [|constructor]. unfold spec_item in Ei. destruct s as [|c t]; [done|].
    destruct (byte_eqb_spec c x22) as [->|]; [by injection Ei as ->|]. repeat case_match; done.
  - apply spec_item_sound in Ei as (t & -> & Hc).
    destruct (spec_string_n n x22 rr) as [d' r'| |] eqn:Es; try done. intros [= <- <-].
    apply IH in Es as (u & -> & Hu). exists (t ++ u). split; [by rewrite app_assoc|by constructor].
Qed.

Lemma spec_string_complete t d r : jchars t d -> spec_string x22 (t ++ x22 :: r) = ROk d r.
Proof.
  induction 1 as [|t ch u d Hc _ IH]; [done|]. rewrite spec_string_step, <- app_assoc.
  rewrite (spec_item_complete t ch) by done. by rewrite IH.
Qed.

(** ** Element lists *)

(** Pieces separated by commas. *)
Inductive slist {A} (P : A -> bytes -> Prop) : list A -> bytes -> Prop :=
| sl_one x t : P x t -> slist P [x] t
| sl_cons x t xs u : P x t -> slist P xs u -> slist P (x :: xs) (t ++ x2c :: u).

Lemma slist_impl {A} (P Q : A -> bytes -> Prop) xs t :
  (forall x t, P x t -> Q x t) -> slist P xs t -> slist Q xs t.
Proof. intros H. induction 1; [apply sl_one|apply sl_cons]; auto. Qed.

Lemma slist_jelems vs t : slist jpad vs t <-> jelems vs t.
Proof. split; induction 1; by constructor. Qed.

Lemma slist_jmembers ms t : slist jpair ms t <-> jmembers ms t.
Proof. split; induction 1; by constructor. Qed.

(** Steps that may fail, in order. *)
Fixpoint foldo {A C} (step : A -> C -> option C) (xs : list A) (acc : C) : option C :=
  match xs with
  | [] => Some acc
  | x :: xs' => acc' ← step x acc; foldo step xs' acc'
  end.

Section strict.
Context (o : JsonParseOptions) (Hmode : mode o = strict).

Lemma after_ws_strict {A} s (k : bytes -> rres A) : after_ws o s k = k (spec_blanks s).
Proof. unfold after_ws, spec_ws. by rewrite Hmode. Qed.

Lemma spec_separator_sound close s b r :
  spec_separator o close s = ROk b r ->
  exists w, blanks w /\ s = w ++ (if b then close else x2c) :: r.
Proof.
  unfold spec_separator. rewrite after_ws_strict. destruct (spec_blanks_split s) as (w & Hw & Hs).
  destruct (spec_blanks s) as [|c t]; [done|]. destruct (byte_eqb_spec c close) as [->|].
  { intros [= <- <-]. by exists w. }
  destruct (byte_eqb_spec c x2c) as [->|]; [|done]. unfold is_json5. rewrite Hmode. cbn [negb].
  intros [= <- <-]. by exists w.
Qed.

Lemma spec_separator_complete close w (b : bool) r :
  blanks w -> is_blank close = false -> close <> x2c ->
  spec_separator o close (w ++ (if b then close else x2c) :: r) = ROk b r.
Proof.
  intros Hw Hc Hne. unfold spec_separator. rewrite after_ws_strict, spec_blanks_app by done. destruct b.
  - rewrite spec_blanks_head by done. by rewrite byte_eqb_refl.
  - rewrite spec_blanks_head by done. destruct (byte_eqb_spec x2c close) as [<-|_]; [done|].
    rewrite byte_eqb_refl. unfold is_json5. by rewrite Hmode.
Qed.

Section lists.
Context {A C : Type} (P : A -> bytes -> Prop) (step : A -> C -> option C)
  (elem : bytes -> C -> rres C) (close : byte).

Lemma spec_elements_sound n s acc acc' r :
  (forall s acc acc' r, elem s acc = ROk acc' r -> exists x t, s = t ++ r /\ step x acc = Some acc' /\
     forall w, blanks w -> P x (t ++ w)) ->
  spec_elements o elem close n s acc = ROk acc' r ->
  exists xs u, s = u ++ close :: r /\ slist P xs u /\ foldo step xs acc = Some acc'.
Proof.
  intros He. revert s acc. induction n as [|n IH]; intros s acc; cbn [spec_elements]; [done|].
  destruct (elem s acc) as [acc1 s1| |] eqn:Ee; try done. apply He in Ee as (x & t & -> & Hst & HP).
  destruct (spec_separator o close s1) as [b s2| |] eqn:Es; try done.
  apply spec_separator_sound in Es as (w & Hw & ->). destruct b.
  - intros [= <- <-]. exists [x], (t ++ w). split_and!; [by rewrite app_assoc|by apply sl_one, HP|].
    simpl. by rewrite Hst.
  - intros (xs & u & -> & Hl & Hf)%IH. exists (x :: xs), ((t ++ w) ++ x2c :: u).
    split_and!; [by rewrite <- !app_assoc|by apply sl_cons; [apply HP|]|]. simpl. by rewrite Hst.
Qed.

Lemma spec_elements_complete n xs u acc acc' r :
  is_blank close = false -> close <> x2c ->
  slist (fun x t => forall acc acc' c r, c = close \/ c = x2c -> step x acc = Some acc' ->
    exists w, blanks w /\ elem (t ++ c :: r) acc = ROk acc' (w ++ c :: r)) xs u ->
  foldo step xs acc = Some acc' -> (length (u ++ close :: r) < n)%nat ->
  spec_elements o elem close n (u ++ close :: r) acc = ROk acc' r.
Proof.
  intros Hb Hne Hl. revert n acc. induction Hl as [x t Hx|x t xs u Hx _ IH]; intros n acc Hf Hn;
    (destruct n as [|n]; [lia|]); cbn [spec_elements]; simpl in Hf;
    destruct (step x acc) as [acc1|] eqn:Es; try done; simpl in Hf.
  - injection Hf as <-. destruct (Hx acc acc1 close r (or_introl eq_refl) Es) as (w & Hw & ->).
    by rewrite (spec_separator_complete close w true).
  - rewrite <- app_assoc. cbn [app].
    destruct (Hx acc acc1 x2c (u ++ close :: r) (or_intror eq_refl) Es) as (w & Hw & ->).
    rewrite (spec_separator_complete close w false) by done. apply IH; [done|].
    rewrite <- app_assoc, length_app in Hn. simpl in Hn. lia.
Qed.

Lemma spec_elements_agree n m s acc :
  spec_elements o elem close n s acc <> RFuel -> spec_elements o elem close m s acc <> RFuel ->
  spec_elements o elem close n s acc = spec_elements o elem close m s acc.
Proof.
  revert m s acc. induction n as [|n IH]; intros [|m] s acc; cbn [spec_elements]; try done.
  destruct (elem s acc) as [acc1 s1| |]; try done. destruct (spec_separator o close s1) as [[] s2| |]; try done.
  apply IH.
Qed.

(** The reader of an element starts with white space. *)
Definition starts_blank : Prop := forall s acc, elem (spec_blanks s) acc = elem s acc.
Definition not_close : Prop := forall s t acc acc' r, spec_blanks s = close :: t -> elem s acc <> ROk acc' r.

Lemma spec_container_sound empty s acc r :
  (forall s acc acc' r, elem s acc = ROk acc' r -> exists x t, s = t ++ r /\ step x acc = Some acc' /\
     forall w, blanks w -> P x (t ++ w)) ->
  (forall x t w, blanks w -> P x t -> P x (w ++ t)) ->
  spec_container o elem close empty s = ROk acc r ->
  (exists w, blanks w /\ s = w ++ close :: r /\ acc = empty) \/
  (exists xs u, s = u ++ close :: r /\ slist P xs u /\ foldo step xs empty = Some acc).
Proof.
  intros He Hpad. unfold spec_container. rewrite after_ws_strict. destruct (spec_blanks_split s) as (w & Hw & Hs).
  assert (Hels : spec_elements o elem close (S (length (spec_blanks s))) (spec_blanks s) empty = ROk acc r ->
    exists xs u, s = u ++ close :: r /\ slist P xs u /\ foldo step xs empty = Some acc).
  { intros (xs & u & Hu & Hl & Hf)%spec_elements_sound; [|done]. exists xs, (w ++ u).
    rewrite Hs, Hu. split_and!; [by rewrite app_assoc| |done].
    destruct Hl; [by apply sl_one, Hpad|rewrite app_assoc; by apply sl_cons; [apply Hpad|]]. }
  destruct (spec_blanks s) as [|c t]; [intros H; right; by apply Hels|].
  destruct (byte_eqb_spec c close) as [->|]; [|intros H; right; by apply Hels].
  intros [= <- <-]. left. by exists w.
Qed.

Lemma spec_container_complete xs u empty acc r :
  is_blank close = false -> close <> x2c -> starts_blank -> not_close ->
  (forall s acc, good false s (elem s acc)) ->
  slist (fun x t => forall acc acc' c r, c = close \/ c = x2c -> step x acc = Some acc' ->
    exists w, blanks w /\ elem (t ++ c :: r) acc = ROk acc' (w ++ c :: r)) xs u ->
  foldo step xs empty = Some acc ->
  spec_container o elem close empty (u ++ close :: r) = ROk acc r.
Proof.
  intros Hb Hne Hel Hcl Hg Hl Hf. set (s := u ++ close :: r).
  pose proof (spec_elements_complete (S (length s)) xs u empty acc r Hb Hne Hl Hf (Nat.lt_succ_diag_r _)) as H.
  fold s in H. unfold spec_container. rewrite after_ws_strict.
  assert (H' : spec_elements o elem close (S (length s)) (spec_blanks s) empty = ROk acc r).
  { rewrite <- H. cbn [spec_elements]. by rewrite Hel. }
  assert (Hn : spec_elements o elem close (S (length (spec_blanks s))) (spec_blanks s) empty = ROk acc r).
  { rewrite <- H'. apply spec_elements_agree; [|by rewrite H'].
    pose proof (spec_elements_good o false elem close (S (length (spec_blanks s))) (spec_blanks s) empty Hg
      (or_intror (Nat.lt_succ_diag_r _))) as G. intros Hx. by rewrite Hx in G. }
  destruct (spec_blanks s) as [|c t] eqn:Es; [done|]. destruct (byte_eqb_spec c close) as [->|]; [|done].
  exfalso. cbn [spec_elements] in H. destruct (elem s empty) as [a q| |] eqn:Ee; try done.
  by eapply Hcl.
Qed.

Lemma spec_container_empty w empty r :
  blanks w -> is_blank close = false -> spec_container o elem close empty (w ++ close :: r) = ROk empty r.
Proof.
  intros Hw Hb. unfold spec_container. rewrite after_ws_strict, spec_blanks_app, spec_blanks_head by done.
  by rewrite byte_eqb_refl.
Qed.
End lists.

(** ** Names and colons *)

Lemma spec_key_sound s nm r : spec_key o s = ROk nm r -> exists t, s = x22 :: t ++ x22 :: r /\ jchars t nm.
Proof.
  unfold spec_key, is_json5. rewrite Hmode. destruct s as [|c t]; [done|].
  destruct (byte_eqb_spec c x22) as [->|]; [|done].
  intros (u & -> & Hu)%spec_string_sound. by exists u.
Qed.

Lemma spec_key_complete t nm r : jchars t nm -> spec_key o (x22 :: t ++ x22 :: r) = ROk nm r.
Proof. intros Ht. unfold spec_key. by apply spec_string_complete. Qed.

Lemma spec_colon_sound {A} s (k : bytes -> rres A) a r :
  spec_colon o s k = ROk a r -> exists w t, blanks w /\ s = w ++ x3a :: t /\ k t = ROk a r.
Proof.
  unfold spec_colon. rewrite after_ws_strict. destruct (spec_blanks_split s) as (w & Hw & Hs).
  destruct (spec_blanks s) as [|c t]; [done|]. destruct (byte_eqb_spec c x3a) as [->|]; [|done].
  intros H. by exists w, t.
Qed.

Lemma spec_colon_complete {A} w t (k : bytes -> rres A) : blanks w -> spec_colon o (w ++ x3a :: t) k = k t.
Proof.
  intros Hw. unfold spec_colon. rewrite after_ws_strict, spec_blanks_app by done. done.
Qed.

(** ** The steps of the containers *)

Definition array_step (mean : jval -> option jval) (v : jval) (acc : list jval) : option (list jval) :=
  x ← mean v; Some (acc ++ [x]).

Definition member_step (mean : jval -> option jval) (skip : jval -> bool) (m : bytes * jval)
  (acc : list (bytes * jval)) : option (list (bytes * jval)) :=
  add_member o (fst m) (mean (snd m)) (skip (snd m)) acc.

Definition skip_step {A} (skip : A -> bool) (x : A) (_ : unit) : option unit :=
  if skip x then Some tt else None.

Lemma foldo_array mean vs acc :
  foldo (array_step mean) vs acc = (fun xs => acc ++ xs) <$> mean_all mean vs.
Proof.
  revert acc. induction vs as [|v vs IH]; intros acc; simpl; [by rewrite app_nil_r|]. unfold array_step at 2.
  destruct (mean v) as [x|]; simpl; [|done]. rewrite IH. destruct (mean_all mean vs); simpl; [|done].
  by rewrite <- app_assoc.
Qed.

Lemma foldo_members mean skip ms acc :
  foldo (member_step mean skip) ms acc = add_members o mean skip ms acc.
Proof.
  revert acc. induction ms as [|[nm v] ms IH]; intros acc; simpl; [done|]. unfold member_step at 2. simpl.
  destruct (add_member o nm (mean v) (skip v) acc); simpl; [|done]. apply IH.
Qed.

Lemma foldo_skip {A} (skip : A -> bool) xs : foldo (skip_step skip) xs tt = if forallb skip xs then Some tt else None.
Proof. induction xs as [|x xs IH]; simpl; [done|]. unfold skip_step at 2. by destruct (skip x). Qed.

Lemma jpad_right v t w : jpad v t -> blanks w -> jpad v (t ++ w).
Proof. intros [w1 v' t' w2 H1 H2 H3] Hw. rewrite <- !app_assoc. constructor; [done|done|by apply blanks_app]. Qed.

Lemma jpad_left v t w : blanks w -> jpad v t -> jpad v (w ++ t).
Proof. intros Hw [w1 v' t' w2 H1 H2 H3]. rewrite app_assoc. constructor; [by apply blanks_app|done|done]. Qed.

Lemma jpair_left m t w : blanks w -> jpair m t -> jpair m (w ++ t).
Proof. intros Hw [w1 nt nm w2 v u H1 H2 H3 H4]. rewrite app_assoc. constructor; [by apply blanks_app|done|done|done]. Qed.

(** ** Soundness *)

(** From [s] a text of [v] was read, leaving [r]. *)
Definition reads (s r : bytes) (v : jval) : Prop :=
  exists w t, s = w ++ t ++ r /\ blanks w /\ jtext v t.

Lemma reads_pad s r v : reads s r v -> exists t, s = t ++ r /\ forall w, blanks w -> jpad v (t ++ w).
Proof.
  intros (w & t & -> & Hw & Ht). exists (w ++ t). split; [by rewrite app_assoc|].
  intros w2 Hw2. rewrite <- app_assoc. by constructor.
Qed.

Lemma spec_literal_inv {A} text (a b : A) s r : spec_literal text a s = ROk b r -> b = a /\ s = text ++ r.
Proof.
  unfold spec_literal. destruct (starts_with s text) eqn:E; [|done]. intros [= <- <-].
  apply starts_with_spec in E as [t ->]. by rewrite drop_app_length.
Qed.

Lemma spec_number_inv s lex r :
  spec_number s = ROk lex r ->
  exists b, s = lex ++ r /\ jnumber lex b /\ (kMaxNumberLexemeLen <? Z.of_nat (length lex)) = false.
Proof.
  unfold spec_number. destruct (scan_number s) as [[[l b] r']|] eqn:E; [|done].
  destruct (_ <? _) eqn:El; [done|]. intros [= <- <-]. apply scan_number_sound in E as [-> Hj]. by exists b.
Qed.

Lemma spec_limited_string_inv s d r :
  spec_limited_string o x22 s = ROk d r ->
  too_long o d = false /\ exists t, s = t ++ x22 :: r /\ jchars t d.
Proof.
  unfold spec_limited_string. destruct (spec_string x22 s) as [d' r'| |] eqn:E; try done.
  destruct (too_long o d') eqn:El; [done|]. intros [= <- <-]. split; [done|by apply spec_string_sound].
Qed.

(** A text that starts at the first byte that is not blank. *)
Lemma reads_at s c t r v :
  spec_blanks s = c :: t -> (exists tt, c :: t = tt ++ r /\ jtext v tt) -> reads s r v.
Proof.
  intros Hs (tt & Htt & Hj). destruct (spec_blanks_split s) as (w & Hw & Hsw).
  exists w, tt. split_and!; [|done|done]. by rewrite <- Htt, <- Hs.
Qed.

(** The text of an array or an object, with what its elements amount to. *)
Lemma array_sound {C} (step : jval -> C -> option C) elem empty t acc r :
  (forall s acc acc' r, elem s acc = ROk acc' r ->
     exists v, reads s r v /\ step v acc = Some acc') ->
  spec_container o elem x5d empty t = ROk acc r ->
  exists vs, (exists tt, x5b :: t = tt ++ r /\ jtext (JArr vs) tt) /\ foldo step vs empty = Some acc.
Proof.
  intros He Hc. apply (spec_container_sound jpad step) in Hc as [(w & Hw & -> & ->)|(vs & u & -> & Hl & Hf)].
  - exists []. split; [|done]. exists (x5b :: w ++ [x5d]). split; [by app_norm|by constructor].
  - exists vs. split; [|done]. exists (x5b :: u ++ [x5d]). split; [by app_norm|by apply jt_arr, slist_jelems].
  - intros s a a' r' (v & Hr & Hv)%He. apply reads_pad in Hr as (tv & -> & Hp). by exists v, tv.
  - intros; by apply jpad_left.
Qed.

Lemma object_sound {C} (step : bytes * jval -> C -> option C) elem empty t acc r :
  (forall s acc acc' r, elem s acc = ROk acc' r -> exists m u, s = u ++ r /\ step m acc = Some acc' /\
     forall w, blanks w -> jpair m (u ++ w)) ->
  spec_container o elem x7d empty t = ROk acc r ->
  exists ms, (exists tt, x7b :: t = tt ++ r /\ jtext (JObj ms) tt) /\ foldo step ms empty = Some acc.
Proof.
  intros He Hc. apply (spec_container_sound jpair step) in Hc as [(w & Hw & -> & ->)|(ms & u & -> & Hl & Hf)].
  - exists []. split; [|done]. exists (x7b :: w ++ [x7d]). split; [by app_norm|by constructor].
  - exists ms. split; [|done]. exists (x7b :: u ++ [x7d]). split; [by app_norm|by apply jt_obj, slist_jmembers].
  - done.
  - intros; by apply jpair_left.
Qed.

(** The text of a member: a name, a colon, a value. *)
Lemma pair_reads s nm s1 w2 t r v :
  spec_key o (spec_blanks s) = ROk nm s1 -> blanks w2 -> s1 = w2 ++ x3a :: t -> reads t r v ->
  exists u, s = u ++ r /\ forall w, blanks w -> jpair (nm, v) (u ++ w).
Proof.
  intros Ek Hw2 -> Hr. destruct (spec_blanks_split s) as (w & Hw & Hsw).
  apply spec_key_sound in Ek as (nt & Hnt & Hch). apply reads_pad in Hr as (tv & -> & Hp).
  exists (w ++ x22 :: nt ++ x22 :: w2 ++ x3a :: tv). split; [rewrite Hsw, Hnt; by app_norm|].
  intros w3 Hw3. app_norm. constructor; [done|done|done|by apply Hp].
Qed.

Lemma spec_skip_member_sound skip skv s u acc r :
  (forall s u r, skip s = ROk u r -> exists v, reads s r v /\ skv v = true) ->
  spec_skip_member o skip s u = ROk acc r ->
  exists m t, s = t ++ r /\ skip_step (fun m => skv (snd m)) m u = Some acc /\
    forall w, blanks w -> jpair m (t ++ w).
Proof.
  intros Hs. unfold spec_skip_member. rewrite after_ws_strict.
  destruct (spec_key o (spec_blanks s)) as [nm s1| |] eqn:Ek; try done.
  intros (w2 & t & Hw2 & H1 & (v & Hr & Hv)%Hs)%spec_colon_sound.
  destruct (pair_reads _ _ _ _ _ _ _ Ek Hw2 H1 Hr) as (tm & -> & Hp). exists (nm, v), tm.
  split_and!; [done| |done]. unfold skip_step. simpl. rewrite Hv. by destruct acc.
Qed.

Lemma spec_member_sound value skip mean skv s acc acc' r :
  (forall s x r, value s = ROk x r -> exists v, reads s r v /\ mean v = Some x) ->
  (forall s u r, skip s = ROk u r -> exists v, reads s r v /\ skv v = true) ->
  spec_member o value skip s acc = ROk acc' r ->
  exists m t, s = t ++ r /\ member_step mean skv m acc = Some acc' /\
    forall w, blanks w -> jpair m (t ++ w).
Proof.
  intros Hv Hs. unfold spec_member, member_step, add_member. rewrite after_ws_strict.
  destruct (spec_key o (spec_blanks s)) as [nm s1| |] eqn:Ek; try done.
  destruct (too_long o nm) eqn:El; [done|].
  assert (Hval : forall f : jval -> list (bytes * jval), spec_colon o s1 (fun t => match value t with
      | ROk v r => ROk (f v) r | RErr c => RErr c | RFuel => RFuel end) = ROk acc' r ->
    exists v x u, s = u ++ r /\ mean v = Some x /\ acc' = f x /\ forall w, blanks w -> jpair (nm, v) (u ++ w)).
  { intros f (w2 & t & Hw2 & H1 & Ht)%spec_colon_sound. destruct (value t) as [x r'| |] eqn:Ev; try done.
    injection Ht as <- <-. apply Hv in Ev as (v & Hr & Hm).
    destruct (pair_reads _ _ _ _ _ _ _ Ek Hw2 H1 Hr) as (tm & -> & Hp). by exists v, x, tm. }
  destruct (find_name nm acc) as [i|] eqn:Ef.
  - destruct (duplicate_key o) eqn:Edk; [done| |].
    + intros (v & x & u & -> & Hm & -> & Hp)%(Hval (fun x => set_value i x acc)). exists (nm, v), u.
      simpl. by rewrite El, Ef, Hm.
    + intros (w2 & t & Hw2 & H1 & Ht)%spec_colon_sound. destruct (skip t) as [x r'| |] eqn:Ev; try done.
      injection Ht as <- <-. apply Hs in Ev as (v & Hr & Hk).
      destruct (pair_reads _ _ _ _ _ _ _ Ek Hw2 H1 Hr) as (tm & -> & Hp). exists (nm, v), tm.
      simpl. by rewrite El, Ef, Hk.
  - intros (v & x & u & -> & Hm & -> & Hp)%(Hval (fun x => acc ++ [(nm, x)])). exists (nm, v), u.
    simpl. by rewrite El, Ef, Hm.
Qed.

Lemma spec_skip_sound f d s u r :
  spec_skip o f d s = ROk u r -> exists v, reads s r v /\ skippable o d v = true.
Proof.
  revert d s u r. induction f as [|f IH]; intros d s u r; cbn [spec_skip]; [done|]. rewrite after_ws_strict.
  destruct (spec_blanks s) as [|c t] eqn:Es; [done|].
  destruct (too_deep o d) eqn:Ed; [done|].
  assert (Hfin : forall v, (exists tt, c :: t = tt ++ r /\ jtext v tt) -> skippable o d v = true ->
    exists v, reads s r v /\ skippable o d v = true).
  { intros v Ht Hv. exists v. split; [by eapply reads_at|done]. }
  unfold is_json5. rewrite Hmode. cbn [andb]. rewrite orb_false_r.
  destruct (byte_eqb_spec c x22) as [->|].
  { destruct (spec_limited_string o x22 t) as [dd rr| |] eqn:El; try done. intros [= <- <-].
    apply spec_limited_string_inv in El as (Hl & tt & -> & Hc). apply (Hfin (JStr dd)).
    - exists (x22 :: tt ++ [x22]). split; [by app_norm|by constructor].
    - simpl. by rewrite Ed, Hl. }
  destruct (byte_eqb_spec c x5b) as [->|].
  { intros (vs & Ht & Hf)%(array_sound (skip_step (skippable o (S d)))).
    - rewrite foldo_skip in Hf. destruct (forallb _ vs) eqn:Ef; [|done].
      apply (Hfin (JArr vs)); [done|simpl; by rewrite Ed].
    - intros s' [] [] r' (v & Hr & Hv)%IH. exists v. split; [done|]. unfold skip_step. by rewrite Hv. }
  destruct (byte_eqb_spec c x7b) as [->|].
  { intros (ms & Ht & Hf)%(object_sound (skip_step (fun m => skippable o (S d) (snd m)))).
    - rewrite foldo_skip in Hf. destruct (forallb _ ms) eqn:Ef; [|done].
      apply (Hfin (JObj ms)); [done|simpl; by rewrite Ed].
    - intros s' a a' r'. apply (spec_skip_member_sound _ (skippable o (S d))). by apply IH. }
  assert (Hlit : forall text v, jtext v text -> skippable o d v = true ->
    spec_literal text tt (c :: t) = ROk u r -> exists v, reads s r v /\ skippable o d v = true).
  { intros text v Hj Hv [_ Ht]%spec_literal_inv. apply (Hfin v); [|done]. by exists text. }
  destruct (c =b x74); [apply (Hlit _ (JBool true)); [constructor|simpl; by rewrite Ed]|].
  destruct (c =b x66); [apply (Hlit _ (JBool false)); [constructor|simpl; by rewrite Ed]|].
  destruct (c =b x6e); [apply (Hlit _ JNull); [constructor|simpl; by rewrite Ed]|].
  destruct (_ || _); [|done].
  destruct (spec_number (c :: t)) as [lex rr| |] eqn:En; try done. intros [= <- <-].
  apply spec_number_inv in En as (b & Hs & Hj & Hl). apply (Hfin (JNum lex)).
  - exists lex. split; [done|by eapply jt_num].
  - simpl. by rewrite Ed, Hl.
Qed.

Lemma spec_value_sound f d s x r :
  spec_value o f d s = ROk x r -> exists v, reads s r v /\ meaning o d v = Some x.
Proof.
  revert d s x r. induction f as [|f IH]; intros d s x r; cbn [spec_value]; [done|]. rewrite after_ws_strict.
  destruct (spec_blanks s) as [|c t] eqn:Es; [done|].
  destruct (too_deep o d) eqn:Ed; [done|].
  assert (Hfin : forall v, (exists tt, c :: t = tt ++ r /\ jtext v tt) -> meaning o d v = Some x ->
    exists v, reads s r v /\ meaning o d v = Some x).
  { intros v Ht Hv. exists v. split; [by eapply reads_at|done]. }
  unfold is_json5. rewrite Hmode. cbn [andb]. rewrite orb_false_r.
  destruct (byte_eqb_spec c x22) as [->|].
  { destruct (spec_limited_string o x22 t) as [dd rr| |] eqn:El; try done. intros [= <- <-].
    apply spec_limited_string_inv in El as (Hl & tt & -> & Hc). apply (Hfin (JStr dd)).
    - exists (x22 :: tt ++ [x22]). split; [by app_norm|by constructor].
    - simpl. by rewrite Ed, Hl. }
  destruct (byte_eqb_spec c x5b) as [->|].
  { destruct (spec_container o _ x5d [] t) as [vs' rr| |] eqn:Ec; try done. intros [= <- <-].
    apply (array_sound (array_step (meaning o (S d)))) in Ec as (vs & Ht & Hf).
    - rewrite foldo_array in Hf. apply (Hfin (JArr vs)); [done|]. simpl. rewrite Ed.
      destruct (mean_all _ vs); [|done]. by injection Hf as <-.
    - intros s' a a' r'. unfold spec_element. destruct (spec_value o f (S d) s') as [w q| |] eqn:Ev; try done.
      intros [= <- <-]. apply IH in Ev as (v & Hr & Hm). exists v. split; [done|]. unfold array_step. by rewrite Hm. }
  destruct (byte_eqb_spec c x7b) as [->|].
  { destruct (spec_container o _ x7d [] t) as [ms' rr| |] eqn:Ec; try done. intros [= <- <-].
    apply (object_sound (member_step (meaning o (S d)) (skippable o (S d)))) in Ec as (ms & Ht & Hf).
    - rewrite foldo_members in Hf. apply (Hfin (JObj ms)); [done|]. simpl. by rewrite Ed, Hf.
    - intros s' a a' r'. apply spec_member_sound; [by apply IH|]. apply spec_skip_sound. }
  assert (Hlit : forall text v, jtext v text -> meaning o d v = Some v ->
    spec_literal text v (c :: t) = ROk x r -> exists v, reads s r v /\ meaning o d v = Some x).
  { intros text v Hj Hv [-> Ht]%spec_literal_inv. apply (Hfin v); [|done]. by exists text. }
  destruct (c =b x74); [apply Hlit; [constructor|simpl; by rewrite Ed]|].
  destruct (c =b x66); [apply Hlit; [constructor|simpl; by rewrite Ed]|].
  destruct (c =b x6e); [apply Hlit; [constructor|simpl; by rewrite Ed]|].
  destruct (_ || _); [|done].
  destruct (spec_number (c :: t)) as [lex rr| |] eqn:En; try done. intros [= <- <-].
  apply spec_number_inv in En as (b & Hs & Hj & Hl). apply (Hfin (JNum lex)).
  - exists lex. split; [done|by eapply jt_num].
  - simpl. by rewrite Ed, Hl.
Qed.

(** ** Completeness *)

Definition delim (c : byte) : Prop := c = x2c \/ c = x5d \/ c = x7d.

Lemma blank_follow c : is_blank c = true -> is_digit c = false /\ c <> x2e /\ c <> x65 /\ c <> x45.
Proof.
  unfold is_blank. intros H. rewrite !orb_true_iff in H. destruct H as [[[H|H]|H]|H]; bool_simp; by subst c.
Qed.

Lemma follow_blanks w : blanks w -> number_follow w.
Proof. intros [|c w' Hc _]; [done|]. by apply blank_follow. Qed.

Lemma follow_delim w c r : blanks w -> delim c -> number_follow (w ++ c :: r).
Proof. intros [|b w' Hb _] Hd; [by destruct Hd as [->|[->| ->]]|]. by apply blank_follow. Qed.

Lemma spec_blanks_idem s : spec_blanks (spec_blanks s) = spec_blanks s.
Proof. induction s as [|c s IH]; [done|]. simpl. destruct (is_blank c) eqn:E; [done|]. by apply spec_blanks_head. Qed.

Lemma after_ws_blanks {A} s (k : bytes -> rres A) : after_ws o (spec_blanks s) k = after_ws o s k.
Proof. by rewrite !after_ws_strict, spec_blanks_idem. Qed.

Lemma spec_value_blanks f d s : spec_value o f d (spec_blanks s) = spec_value o f d s.
Proof. destruct f; [done|]. cbn [spec_value]. by rewrite after_ws_blanks. Qed.

Lemma spec_skip_blanks f d s : spec_skip o f d (spec_blanks s) = spec_skip o f d s.
Proof. destruct f; [done|]. cbn [spec_skip]. by rewrite after_ws_blanks. Qed.

Lemma spec_value_ws f d w s : blanks w -> spec_value o f d (w ++ s) = spec_value o f d s.
Proof. intros Hw. by rewrite <- spec_value_blanks, spec_blanks_app, spec_value_blanks. Qed.

Lemma spec_skip_ws f d w s : blanks w -> spec_skip o f d (w ++ s) = spec_skip o f d s.
Proof. intros Hw. by rewrite <- spec_skip_blanks, spec_blanks_app, spec_skip_blanks. Qed.

(** No value starts with a closing bracket. *)
Lemma spec_value_close f d s t x r : spec_blanks s = x5d :: t -> spec_value o f d s <> ROk x r.
Proof.
  intros Hs. destruct f; [done|]. cbn [spec_value]. rewrite after_ws_strict, Hs.
  destruct (too_deep o d); [done|]. unfold is_json5. by rewrite Hmode.
Qed.

Lemma spec_skip_close f d s t x r : spec_blanks s = x5d :: t -> spec_skip o f d s <> ROk x r.
Proof.
  intros Hs. destruct f; [done|]. cbn [spec_skip]. rewrite after_ws_strict, Hs.
  destruct (too_deep o d); [done|]. unfold is_json5. by rewrite Hmode.
Qed.

Lemma spec_key_close t : spec_key o (x7d :: t) = RErr syntax_error.
Proof. unfold spec_key, is_json5. by rewrite Hmode. Qed.

Definition text_complete (v : jval) (t : bytes) : Prop := forall f d r,
  enough f d -> number_follow r ->
  (forall x, meaning o d v = Some x -> spec_value o f d (t ++ r) = ROk x r) /\
  (skippable o d v = true -> spec_skip o f d (t ++ r) = ROk tt r).

Definition pad_complete (v : jval) (t : bytes) : Prop := forall f d c r,
  enough f d -> delim c -> exists w, blanks w /\
  (forall x, meaning o d v = Some x -> spec_value o f d (t ++ c :: r) = ROk x (w ++ c :: r)) /\
  (skippable o d v = true -> spec_skip o f d (t ++ c :: r) = ROk tt (w ++ c :: r)).

Definition pair_complete (m : bytes * jval) (t : bytes) : Prop := forall f d c r,
  enough f d -> delim c -> exists w, blanks w /\
  (forall acc acc', member_step (meaning o d) (skippable o d) m acc = Some acc' ->
     spec_member o (spec_value o f d) (spec_skip o f d) (t ++ c :: r) acc = ROk acc' (w ++ c :: r)) /\
  (skippable o d (snd m) = true ->
     spec_skip_member o (spec_skip o f d) (t ++ c :: r) tt = ROk tt (w ++ c :: r)).

Lemma pad_complete_intro w1 v t w2 : blanks w1 -> text_complete v t -> blanks w2 -> pad_complete v (w1 ++ t ++ w2).
Proof.
  intros Hw1 Ht Hw2 f d c r Hf Hc. exists w2. split; [done|].
  destruct (Ht f d (w2 ++ c :: r) Hf (follow_delim _ _ _ Hw2 Hc)) as [Hv Hs].
  split; [intros x Hx|intros Hx]; app_norm.
  - rewrite spec_value_ws by done. by apply Hv.
  - rewrite spec_skip_ws by done. by apply Hs.
Qed.

Lemma pair_complete_intro w1 nt nm w2 v t :
  blanks w1 -> jchars nt nm -> blanks w2 -> pad_complete v t ->
  pair_complete (nm, v) (w1 ++ x22 :: nt ++ x22 :: w2 ++ x3a :: t).
Proof.
  intros Hw1 Hn Hw2 Ht f d c r Hf Hc. destruct (Ht f d c r Hf Hc) as (w & Hw & Hv & Hs).
  exists w. split; [done|]. app_norm.
  assert (Hk : forall A (k : bytes -> bytes -> rres A),
    after_ws o (w1 ++ x22 :: nt ++ x22 :: w2 ++ x3a :: t ++ c :: r) (fun s => match spec_key o s with
      | ROk nm s1 => k nm s1 | RErr c => RErr c | RFuel => RFuel end) = k nm (w2 ++ x3a :: t ++ c :: r)).
  { intros A k. rewrite after_ws_strict, spec_blanks_app, spec_blanks_head by done. by rewrite (spec_key_complete _ nm). }
  split.
  - intros acc acc'. unfold member_step, add_member. cbn [fst snd]. unfold spec_member. rewrite Hk.
    destruct (too_long o nm); [done|]. destruct (find_name nm acc) as [i|].
    + destruct (duplicate_key o); [done| |]; rewrite spec_colon_complete by done.
      * destruct (meaning o d v) as [x|]; [|done]. intros [= <-]. by rewrite (Hv x).
      * destruct (skippable o d v); [|done]. intros [= <-]. by rewrite Hs.
    + rewrite spec_colon_complete by done.
      destruct (meaning o d v) as [x|]; [|done]. intros [= <-]. by rewrite (Hv x).
  - intros Hsk. unfold spec_skip_member. rewrite Hk, spec_colon_complete by done. by apply Hs.
Qed.

Lemma spec_literal_complete {A} text (v : A) r : spec_literal text v (text ++ r) = ROk v r.
Proof. unfold spec_literal. rewrite (proj2 (starts_with_spec _ _)); [by rewrite drop_app_length|by exists r]. Qed.

(** Nested elements. *)
Lemma array_complete vs t f d r :
  slist pad_complete vs t -> enough f d ->
  (forall xs, mean_all (meaning o d) vs = Some xs ->
     spec_container o (spec_element (spec_value o f d)) x5d [] (t ++ x5d :: r) = ROk xs r) /\
  (forallb (skippable o d) vs = true ->
     spec_container o (fun s _ => spec_skip o f d s) x5d tt (t ++ x5d :: r) = ROk tt r).
Proof.
  intros Hl Hf. split.
  - intros xs Hx. apply (spec_container_complete (array_step (meaning o d)) _ _ vs); try done.
    + intros s acc. unfold spec_element. by rewrite spec_value_blanks.
    + intros s u acc acc' q Hs. unfold spec_element. pose proof (spec_value_close f d s u) as Hc.
      destruct (spec_value o f d s) as [x p| |]; try done. by specialize (Hc x p Hs).
    + intros s acc. unfold spec_element. pose proof (spec_value_good o false f d s (or_intror Hf)) as G.
      by destruct (spec_value o f d s).
    + eapply slist_impl; [|exact Hl]. intros v u Hv acc acc' c q Hc Hst.
      destruct (Hv f d c q Hf) as (w & Hw & Hval & _); [by destruct Hc as [->| ->]; [right; left|left]|].
      exists w. split; [done|]. unfold array_step in Hst. unfold spec_element.
      destruct (meaning o d v) as [x|]; [|done]. injection Hst as <-. by rewrite (Hval x).
    + by rewrite foldo_array, Hx.
  - intros Hx. apply (spec_container_complete (skip_step (skippable o d)) _ _ vs); try done.
    + intros s acc. by rewrite spec_skip_blanks.
    + intros s u acc acc' q Hs. by eapply spec_skip_close.
    + intros s acc. by apply spec_skip_good; right.
    + eapply slist_impl; [|exact Hl]. intros v u Hv acc acc' c q Hc Hst.
      destruct (Hv f d c q Hf) as (w & Hw & _ & Hsk); [by destruct Hc as [->| ->]; [right; left|left]|].
      exists w. split; [done|]. unfold skip_step in Hst. destruct (skippable o d v); [|done].
      destruct acc'. by apply Hsk.
    + by rewrite foldo_skip, Hx.
Qed.

Lemma object_complete ms t f d r :
  slist pair_complete ms t -> enough f d ->
  (forall xs, add_members o (meaning o d) (skippable o d) ms [] = Some xs ->
     spec_container o (spec_member o (spec_value o f d) (spec_skip o f d)) x7d [] (t ++ x7d :: r) = ROk xs r) /\
  (forallb (fun m => skippable o d (snd m)) ms = true ->
     spec_container o (spec_skip_member o (spec_skip o f d)) x7d tt (t ++ x7d :: r) = ROk tt r).
Proof.
  intros Hl Hf. split.
  - intros xs Hx. apply (spec_container_complete (member_step (meaning o d) (skippable o d)) _ _ ms); try done.
    + intros s acc. unfold spec_member. by rewrite after_ws_blanks.
    + intros s u acc acc' q Hs. unfold spec_member. by rewrite after_ws_strict, Hs, spec_key_close.
    + intros s acc. apply spec_member_good; intros s'; [apply spec_value_good|apply spec_skip_good]; by right.
    + eapply slist_impl; [|exact Hl]. intros m u Hm acc acc' c q Hc Hst.
      destruct (Hm f d c q Hf) as (w & Hw & Hval & _); [by destruct Hc as [->| ->]; [right; right|left]|].
      exists w. split; [done|by apply Hval].
    + by rewrite foldo_members.
  - intros Hx. apply (spec_container_complete (skip_step (fun m => skippable o d (snd m))) _ _ ms); try done.
    + intros s acc. unfold spec_skip_member. by rewrite after_ws_blanks.
    + intros s u acc acc' q Hs. unfold spec_skip_member. by rewrite after_ws_strict, Hs, spec_key_close.
    + intros s acc. unfold spec_skip_member. apply after_ws_good. intros s' _.
      apply (after_key_good o false s' (fun _ s1 => spec_colon o s1 (spec_skip o f d))). intros _ s1.
      apply spec_colon_good. intros s2. apply spec_skip_good. by right.
    + eapply slist_impl; [|exact Hl]. intros m u Hm acc acc' c q Hc Hst.
      destruct (Hm f d c q Hf) as (w & Hw & _ & Hsk); [by destruct Hc as [->| ->]; [right; right|left]|].
      exists w. split; [done|]. unfold skip_step in Hst. destruct (skippable o d (snd m)); [|done].
      destruct acc, acc'. by apply Hsk.
    + by rewrite foldo_skip, Hx.
Qed.

(** What both readers do on a text whose first byte is known. *)
Lemma number_head lex b : jnumber lex b -> exists c t, lex = c :: t /\ (c =b x2d) || is_digit c = true.
Proof.
  intros (sg & ip & fp & ep & -> & [->| ->] & Hi & _); [|by eexists _, _].
  destruct Hi as [->|(d & ds & -> & Hd & _)]; [by eexists _, _|]. eexists d, _. split; [done|].
  assert (is_digit d = true) as ->; [|by rewrite orb_true_r]. unfold is_digit, in_range in *. bool_simp. lia.
Qed.

Lemma number_head_test c : (c =b x2d) || is_digit c = true ->
  is_blank c = false /\ (c =b x22) = false /\ (c =b x5b) = false /\ (c =b x7b) = false /\
  (c =b x74) = false /\ (c =b x66) = false /\ (c =b x6e) = false.
Proof.
  intros H.
  assert (implb ((c =b x2d) || is_digit c) (negb (is_blank c || (c =b x22) || (c =b x5b) || (c =b x7b)
    || (c =b x74) || (c =b x66) || (c =b x6e))) = true) as Hi by byte_decide c.
  rewrite H in Hi. simpl in Hi. rewrite negb_true_iff, !orb_false_iff in Hi. tauto.
Qed.

Lemma number_complete lex b : jnumber lex b -> text_complete (JNum lex) lex.
Proof.
  intros Hj [|f] d r Hf Hr; [destruct Hf; lia|]. destruct (number_head _ _ Hj) as (c & t & -> & Hc).
  destruct (number_head_test c Hc) as (H1 & H2 & H3 & H4 & H5 & H6 & H7).
  pose proof (scan_number_complete _ _ _ Hj Hr) as Hn.
  cbn [meaning skippable spec_value spec_skip]. rewrite !after_ws_strict. cbn [app].
  rewrite !spec_blanks_head by done. unfold is_json5. rewrite Hmode, H2, H3, H4, H5, H6, H7, Hc.
  change (c :: t ++ r) with ((c :: t) ++ r). unfold spec_number. rewrite Hn.
  destruct (too_deep o d); [split; [done|by intros]|].
  destruct (kMaxNumberLexemeLen <? _); split; try done. by intros x [= <-].
Qed.

Lemma string_complete t d' : jchars t d' -> text_complete (JStr d') (x22 :: t ++ [x22]).
Proof.
  intros Hj [|f] d r Hf Hr; [destruct Hf; lia|].
  cbn [meaning skippable spec_value spec_skip]. rewrite !after_ws_strict. app_norm. cbn [app].
  rewrite !spec_blanks_head by done. rewrite !byte_eqb_refl. cbn [orb].
  unfold spec_limited_string. rewrite (spec_string_complete t d') by done.
  destruct (too_deep o d); [split; [done|by intros]|]. destruct (too_long o d'); split; try done.
  by intros x [= <-].
Qed.

Lemma literal_complete text v :
  (text = B "null" /\ v = JNull) \/ (text = B "true" /\ v = JBool true) \/ (text = B "false" /\ v = JBool false) ->
  text_complete v text.
Proof.
  intros Hv [|f] d r Hf Hr; [destruct Hf; lia|].
  assert (Hl : forall A (a : A), spec_literal text a (text ++ r) = ROk a r) by (intros; apply spec_literal_complete).
  cbn [spec_value spec_skip]. rewrite !after_ws_strict.
  destruct Hv as [[-> ->]|[[-> ->]|[-> ->]]]; unfold is_json5; rewrite Hmode; cbn -[spec_literal too_deep] in *;
    rewrite !Hl; destruct (too_deep o d); (split; [|by intros]); intros x Hx; try done; by injection Hx as <-.
Qed.

Lemma container_complete v t f d r :
  enough (S f) d -> (too_deep o d = false -> enough f (S d) ->
    (forall x, meaning o d v = Some x -> spec_value o (S f) d (t ++ r) = ROk x r) /\
    (skippable o d v = true -> spec_skip o (S f) d (t ++ r) = ROk tt r)) ->
  (forall x, meaning o d v = Some x -> spec_value o (S f) d (t ++ r) = ROk x r) /\
  (skippable o d v = true -> spec_skip o (S f) d (t ++ r) = ROk tt r).
Proof.
  intros Hf H. destruct (too_deep o d) eqn:Ed; [|by apply H; [|apply (enough_S o)]].
  split; [destruct v; simpl; by rewrite Ed|destruct v; simpl; by rewrite Ed].
Qed.

Lemma array_text_complete vs t :
  (vs = [] /\ blanks t) \/ slist pad_complete vs t -> text_complete (JArr vs) (x5b :: t ++ [x5d]).
Proof.
  intros Hvs [|f] d r Hf Hr; [destruct Hf; lia|]. apply container_complete; [done|]. intros Ed Hf'.
  cbn [meaning skippable spec_value spec_skip]. rewrite !after_ws_strict. app_norm. cbn [app].
  rewrite !spec_blanks_head by done. unfold is_json5. rewrite Hmode, Ed. cbn -[spec_container].
  destruct Hvs as [[-> Ht]|Hl].
  - rewrite !spec_container_empty by done. split; [|done]. by intros x [= <-].
  - destruct (array_complete vs t f (S d) r Hl Hf') as [Hv Hs]. split; [|done].
    intros x. destruct (mean_all _ vs) as [xs|] eqn:Ex; [|done]. intros [= <-]. by rewrite (Hv xs).
Qed.

Lemma object_text_complete ms t :
  (ms = [] /\ blanks t) \/ slist pair_complete ms t -> text_complete (JObj ms) (x7b :: t ++ [x7d]).
Proof.
  intros Hvs [|f] d r Hf Hr; [destruct Hf; lia|]. apply container_complete; [done|]. intros Ed Hf'.
  cbn [meaning skippable spec_value spec_skip]. rewrite !after_ws_strict. app_norm. cbn [app].
  rewrite !spec_blanks_head by done. unfold is_json5. rewrite Hmode, Ed. cbn -[spec_container].
  destruct Hvs as [[-> Ht]|Hl].
  - rewrite !spec_container_empty by done. split; [|done]. by intros x [= <-].
  - destruct (object_complete ms t f (S d) r Hl Hf') as [Hv Hs]. split; [|done].
    intros x. destruct (add_members _ _ _ ms []) as [xs|] eqn:Ex; [|done]. intros [= <-]. by rewrite (Hv xs).
Qed.

(** Every text of the grammar is read. *)
Lemma grammar_complete :
  (forall v t, jtext v t -> text_complete v t) /\ (forall v t, jpad v t -> pad_complete v t) /\
  (forall vs t, jelems vs t -> slist pad_complete vs t) /\ (forall m t, jpair m t -> pair_complete m t) /\
  (forall ms t, jmembers ms t -> slist pair_complete ms t).
Proof.
  apply jgrammar_ind; intros; try (by apply sl_one) || (by apply sl_cons).
  - apply literal_complete. by left.
  - apply literal_complete. by right; left.
  - apply literal_complete. by right; right.
  - by eapply number_complete.
  - by apply string_complete.
  - apply array_text_complete. by left.
  - apply array_text_complete. by right.
  - apply object_text_complete. by left.
  - apply object_text_complete. by right.
  - by apply pad_complete_intro.
  - by apply pair_complete_intro.
Qed.

(** ** Whole texts *)

(** A document of RFC 8259 and the value it writes. *)
Definition jdocument (s : bytes) (v : jval) : Prop := jpad v s.

Lemma jtext_head v t : jtext v t -> exists c u, t = c :: u /\ is_blank c = false.
Proof.
  intros H. destruct H as [| | |lex b Hj| | | | |]; try by eexists _, _.
  destruct (number_head _ _ Hj) as (c & u & -> & Hc). exists c, u. split; [done|]. by apply number_head_test.
Qed.

Lemma spec_parse_strict s :
  spec_parse o s = match spec_blanks s with
    | [] => Unexpected unexpected_eof
    | s' => match spec_value o value_fuel 0 s' with
            | ROk v r => match spec_blanks r with [] => Ok v | _ => Unexpected trailing_garbage end
            | RErr c => Unexpected c
            | RFuel => Unexpected resource_exhausted
            end
    end.
Proof.
  unfold spec_parse, spec_ws. rewrite Hmode. cbn [spec_ws_n]. destruct (spec_blanks s); [done|].
  destruct (spec_value _ _ _ _) as [v r| |]; [|done|done]. by destruct (spec_blanks r).
Qed.

Lemma spec_parse_iff s x :
  spec_parse o s = Ok x <-> exists v, jdocument s v /\ meaning o 0 v = Some x.
Proof.
  rewrite spec_parse_strict. split.
  - destruct (spec_blanks s) as [|c t] eqn:Es; [done|]. rewrite <- Es, spec_value_blanks.
    destruct (spec_value o value_fuel 0 s) as [v r| |] eqn:Ev; try done.
    destruct (spec_blanks_split r) as (w & Hw & Hr).
    destruct (spec_blanks r); [|done]. intros [= <-]. rewrite app_nil_r in Hr. subst r.
    apply spec_value_sound in Ev as (v' & (w1 & t' & -> & Hw1 & Ht) & Hm). exists v'. split; [by constructor|done].
  - intros (v & [w1 v' t w2 Hw1 Ht Hw2] & Hm). destruct (jtext_head _ _ Ht) as (c & u & -> & Hc).
    rewrite spec_blanks_app by done. cbn [app]. rewrite spec_blanks_head by done.
    destruct (proj1 grammar_complete _ _ Ht value_fuel 0%nat w2) as [Hv _];
      [unfold enough, value_fuel; lia|by apply follow_blanks|].
    change (c :: u ++ w2) with ((c :: u) ++ w2). rewrite (Hv x Hm). cbn [app].
    rewrite <- (app_nil_r w2), spec_blanks_app by done. done.
Qed.
End strict.
