(* ===== verification/JsonRfc.v ===== *)
(** * JSON module: the texts of RFC 8259

    The grammar of RFC 8259 over UTF-8 text, with nothing taken from the reader: the
    characters by their code points, the escapes by a table, white space, numbers,
    arrays and objects. A [\u] escape of a surrogate has to be half of a pair. The
    grammar of [JsonGrammar] has the characters the tokenizer accepts instead; on text
    that is UTF-8 the two are the same. *)

From Stdlib Require Import ZArith Lia Strings.Byte String.
From stdpp Require Import base tactics option numbers list.
From S2P Require Import Prelude Unicode JsonTypes JsonNumber JsonSpec JsonReader JsonValid JsonUnicode JsonGrammar.

(** ** The grammar *)

Definition hex_digit (c : byte) (v : Z) : Prop :=
  exists n, v = Z.of_nat n /\ (B "0123456789abcdef" !! n = Some c \/ B "0123456789ABCDEF" !! n = Some c).

Definition four_hex (h : bytes) (v : Z) : Prop :=
  exists a b c d va vb vc vd, h = [a; b; c; d] /\ hex_digit a va /\ hex_digit b vb /\ hex_digit c vc /\ hex_digit d vd /\
    v = va * 4096 + vb * 256 + vc * 16 + vd.

(** The byte after the backslash, and what it stands for. *)
Definition escapes : list (byte * byte) :=
  [(x22, x22); (x5c, x5c); (x2f, x2f); (x62, x08); (x66, x0c); (x6e, x0a); (x72, x0d); (x74, x09)].

Inductive rchar : bytes -> bytes -> Prop :=
| rc_unescaped cp : scalar cp -> 0x20 <= cp -> cp <> 0x22 -> cp <> 0x5C -> rchar (utf8_of cp) (utf8_of cp)
| rc_escape e c : (e, c) ∈ escapes -> rchar [x5c; e] [c]
| rc_unicode h v : four_hex h v -> scalar v -> rchar (x5c :: x75 :: h) (utf8_of v)
| rc_pair h hi l lo : four_hex h hi -> four_hex l lo -> 0xD800 <= hi <= 0xDBFF -> 0xDC00 <= lo <= 0xDFFF ->
    rchar (x5c :: x75 :: h ++ x5c :: x75 :: l) (utf8_of (0x10000 + (hi - 0xD800) * 1024 + (lo - 0xDC00))).

Inductive rchars : bytes -> bytes -> Prop :=
| rcs_nil : rchars [] []
| rcs_cons t ch u d : rchar t ch -> rchars u d -> rchars (t ++ u) (ch ++ d).

Definition rblanks (w : bytes) : Prop := Forall (fun c => c ∈ [x20; x09; x0a; x0d]) w.

Inductive rtext : jval -> bytes -> Prop :=
| rt_null : rtext JNull (B "null")
| rt_true : rtext (JBool true) (B "true")
| rt_false : rtext (JBool false) (B "false")
| rt_num lex b : jnumber lex b -> rtext (JNum lex) lex
| rt_str t d : rchars t d -> rtext (JStr d) (x22 :: t ++ [x22])
| rt_arr_empty w : rblanks w -> rtext (JArr []) (x5b :: w ++ [x5d])
| rt_arr vs t : relems vs t -> rtext (JArr vs) (x5b :: t ++ [x5d])
| rt_obj_empty w : rblanks w -> rtext (JObj []) (x7b :: w ++ [x7d])
| rt_obj ms t : rmembers ms t -> rtext (JObj ms) (x7b :: t ++ [x7d])
with rpad : jval -> bytes -> Prop :=
| rpad_intro w1 v t w2 : rblanks w1 -> rtext v t -> rblanks w2 -> rpad v (w1 ++ t ++ w2)
with relems : list jval -> bytes -> Prop :=
| re_one v t : rpad v t -> relems [v] t
| re_cons v t vs u : rpad v t -> relems vs u -> relems (v :: vs) (t ++ x2c :: u)
with rpair : bytes * jval -> bytes -> Prop :=
| rpair_intro w1 nt nm w2 v t :
    rblanks w1 -> rchars nt nm -> rblanks w2 -> rpad v t -> rpair (nm, v) (w1 ++ x22 :: nt ++ x22 :: w2 ++ x3a :: t)
with rmembers : list (bytes * jval) -> bytes -> Prop :=
| rm_one m t : rpair m t -> rmembers [m] t
| rm_cons m t ms u : rpair m t -> rmembers ms u -> rmembers (m :: ms) (t ++ x2c :: u).

Scheme rtext_mut := Minimality for rtext Sort Prop
with rpad_mut := Minimality for rpad Sort Prop
with relems_mut := Minimality for relems Sort Prop
with rpair_mut := Minimality for rpair Sort Prop
with rmembers_mut := Minimality for rmembers Sort Prop.
Combined Scheme rfc_ind from rtext_mut, rpad_mut, relems_mut, rpair_mut, rmembers_mut.

(** A JSON text: one value with white space around it. *)
Definition rfc8259 (s : bytes) (v : jval) : Prop := rpad v s.

(** ** Characters *)

Lemma hex_digit_val c v : hex_digit c v <-> hex_val c = Some v.
Proof.
  split.
  - intros (n & -> & [H|H]); do 16 (destruct n as [|n]; [injection H as <-; reflexivity|]); done.
  - intros H. pose proof (hex_val_range c v H) as Hr. exists (Z.to_nat v). split; [lia|].
    assert (Hd : match hex_val c with
      | Some v => bool_decide (B "0123456789abcdef" !! Z.to_nat v = Some c) || bool_decide (B "0123456789ABCDEF" !! Z.to_nat v = Some c)
      | None => true end = true) by byte_decide c.
    rewrite H in Hd. apply orb_true_iff in Hd as [Hd|Hd]; apply bool_decide_eq_true in Hd; auto.
Qed.

Lemma four_hex_text h v : four_hex h v <-> hex4_text h v.
Proof.
  split; intros (a & b & c & d & va & vb & vc & vd & -> & Ha & Hb & Hc & Hd & ->); exists a, b, c, d, va, vb, vc, vd;
    apply hex_digit_val in Ha, Hb, Hc, Hd; split_and!; try done; lia.
Qed.

Lemma four_hex_range h v : four_hex h v -> 0 <= v < 0x10000.
Proof.
  intros (a & b & c & d & va & vb & vc & vd & -> & Ha & Hb & Hc & Hd & ->). apply hex_digit_val, hex_val_range in Ha, Hb, Hc, Hd. lia.
Qed.

Lemma escapes_simple e c : (e, c) ∈ escapes <-> simple_escape x22 e = Some c.
Proof.
  split; [|intros H; unfold simple_escape in H; destruct e; try done; injection H as <-; apply list_elem_of_In; cbn; auto 10].
  intros H. unfold escapes in H. repeat (apply elem_of_cons in H as [[= -> ->]|H]; [done|]). by apply elem_of_nil in H.
Qed.

Lemma rblanks_blanks w : rblanks w <-> blanks w.
Proof.
  unfold rblanks, blanks. rewrite !Forall_forall. split; intros H c Hc; specialize (H c Hc).
  - repeat (apply elem_of_cons in H as [->|H]; [done|]). by apply elem_of_nil in H.
  - unfold is_blank in H. rewrite !orb_true_iff in H. destruct H as [[[H|H]|H]|H]; apply byte_eqb_eq in H as ->; apply list_elem_of_In; cbn; auto 10.
Qed.

(** An encoded character above the controls that is no quote and no backslash. *)
Lemma utf8_of_lead cp lead conts : scalar cp -> utf8_of cp = lead :: conts ->
  (cp < 0x80 /\ byteZ lead = cp /\ conts = []) \/ (0x80 <= cp /\ 0x80 <= byteZ lead).
Proof.
  intros [Hcp _]. unfold utf8_of. destruct (Z.ltb_spec cp 0x80); [|destruct (Z.ltb_spec cp 0x800); [|destruct (Z.ltb_spec cp 0x10000)]];
    cbn [map]; intros [= <- <-]; rewrite byteZ_byte_of_Z; [left; by rewrite Z.mod_small by lia|..]; right; (split; [done|]).
  - assert (cp / 64 < 32) by (apply Z.div_lt_upper_bound; lia). assert (0 <= cp / 64) by (apply Z.div_pos; lia). rewrite Z.mod_small by lia. lia.
  - assert (cp / 4096 < 16) by (apply Z.div_lt_upper_bound; lia). assert (0 <= cp / 4096) by (apply Z.div_pos; lia). rewrite Z.mod_small by lia. lia.
  - assert (cp / 262144 < 5) by (apply Z.div_lt_upper_bound; lia). assert (0 <= cp / 262144) by (apply Z.div_pos; lia). rewrite Z.mod_small by lia. lia.
Qed.

Lemma rchar_jchar t ch : rchar t ch -> jchar t ch.
Proof.
  intros [cp Hs H20 Hq Hb|e c He|h v Hh Hs|h hi l lo Hh Hl Hhi Hlo].
  - destruct (utf8_of_char cp Hs) as (lead & conts & E & Hlen & Hc). rewrite E. pose proof (utf8_of_lead cp lead conts Hs E) as Hlead.
    apply jc_unescaped; [lia|intros ->; cbn in Hlead; lia|intros ->; cbn in Hlead; lia|done|done].
  - by apply jc_escape, escapes_simple.
  - rewrite <- encode_utf8_of by apply Hs. apply scalar_surrogates in Hs as (_ & ? & ?). apply jc_unicode; [by apply four_hex_text|done|done].
  - rewrite <- encode_utf8_of by lia. assert (0x10000 + (hi - 0xD800) * 1024 + (lo - 0xDC00) = combine_surrogates hi lo) as ->.
    { unfold combine_surrogates. rewrite Z.shiftl_mul_pow2 by lia. done. }
    apply jc_pair; [by apply four_hex_text|by apply four_hex_text|unfold is_high_surrogate; lia|unfold is_low_surrogate; lia].
Qed.

Lemma jchar_rchar t ch rest : jchar t ch -> textual (t ++ rest) -> rchar t ch.
Proof.
  intros [lead conts H20 Hq Hb Hl Hc|e c He|h cp Hh Hhi Hlo|h hi l lo Hh Hl Hhi Hlo] Ht.
  - destruct (textual_char lead conts rest Ht Hl) as (cp & Hs & E). rewrite E. pose proof (utf8_of_lead cp lead conts Hs (eq_sym E)) as Hlead.
    assert (Hne : forall c, lead <> c -> byteZ lead <> byteZ c) by (intros c Hn Hz; apply Hn; by apply byteZ_inj).
    pose proof (Hne x22 Hq) as Hq'. pose proof (Hne x5c Hb) as Hb'. cbn in Hq', Hb'. apply rc_unescaped; [done|lia|lia|lia].
  - by apply rc_escape, escapes_simple.
  - apply four_hex_text in Hh. pose proof (four_hex_range _ _ Hh). assert (Hs : scalar cp) by (apply scalar_surrogates; split_and!; [lia|lia|done|done]).
    rewrite encode_utf8_of by lia. by apply rc_unicode.
  - apply four_hex_text in Hh, Hl. unfold is_high_surrogate, is_low_surrogate in *. bool_simp.
    unfold combine_surrogates. rewrite Z.shiftl_mul_pow2 by lia. change (2 ^ 10) with 1024. rewrite encode_utf8_of by lia. apply rc_pair; done || lia.
Qed.

Lemma rchars_jchars t d : rchars t d -> jchars t d.
Proof. induction 1; constructor; [by apply rchar_jchar|done]. Qed.

Lemma jchars_rchars t d rest : jchars t d -> textual (t ++ rest) -> rchars t d.
Proof.
  induction 1 as [|t ch u d Hc _ IH]; intros Ht; [constructor|]. rewrite <- app_assoc in Ht.
  constructor; [by eapply jchar_rchar|apply IH; by eapply textual_suffix].
Qed.

(** ** The two grammars *)

Lemma rtext_jtext :
  (forall v t, rtext v t -> jtext v t) /\ (forall v t, rpad v t -> jpad v t) /\ (forall vs t, relems vs t -> jelems vs t) /\
  (forall m t, rpair m t -> jpair m t) /\ (forall ms t, rmembers ms t -> jmembers ms t).
Proof.
  apply rfc_ind; intros; econstructor; eauto; try (by apply rblanks_blanks); by apply rchars_jchars.
Qed.

(** What is left of a text behind a byte, or a part. *)
Lemma textual_cons c s : textual (c :: s) -> textual s.
Proof. apply (textual_suffix [c]). Qed.

Ltac textual_part := repeat first [rewrite <- app_assoc in * | rewrite <- app_comm_cons in *];
  repeat match goal with
  | H : textual (_ :: _) |- _ => apply textual_cons in H
  end.

Lemma jtext_rtext :
  (forall v t, jtext v t -> forall rest, textual (t ++ rest) -> rtext v t) /\
  (forall v t, jpad v t -> forall rest, textual (t ++ rest) -> rpad v t) /\
  (forall vs t, jelems vs t -> forall rest, textual (t ++ rest) -> relems vs t) /\
  (forall m t, jpair m t -> forall rest, textual (t ++ rest) -> rpair m t) /\
  (forall ms t, jmembers ms t -> forall rest, textual (t ++ rest) -> rmembers ms t).
Proof.
  apply jgrammar_ind; intros; textual_part; try (by constructor).
  - by eapply rt_num.
  - apply rt_str. by eapply jchars_rchars.
  - by apply rt_arr_empty, rblanks_blanks.
  - apply rt_arr. eauto.
  - by apply rt_obj_empty, rblanks_blanks.
  - apply rt_obj. eauto.
  - match goal with H : textual (_ ++ _ ++ _) |- _ => apply textual_suffix in H end. constructor; [by apply rblanks_blanks|eauto|by apply rblanks_blanks].
  - apply re_one. eauto.
  - apply re_cons; [eauto|]. match goal with H : textual (_ ++ _ :: _) |- _ => apply textual_suffix, textual_cons in H end. eauto.
  - match goal with H : textual (_ ++ _) |- _ => apply textual_suffix, textual_cons in H; rename H into Ht end.
    constructor; [by apply rblanks_blanks|by eapply jchars_rchars|by apply rblanks_blanks|].
    apply textual_suffix, textual_cons, textual_suffix, textual_cons in Ht. eauto.
  - apply rm_one. eauto.
  - apply rm_cons; [eauto|]. match goal with H : textual (_ ++ _ :: _) |- _ => apply textual_suffix, textual_cons in H end. eauto.
Qed.

(** ** A text of the grammar is UTF-8 *)

Lemma number_ascii lex b : jnumber lex b -> Forall (fun c => byteZ c < 0x80) lex.
Proof.
  assert (Hd : forall ds, digits ds -> Forall (fun c => byteZ c < 0x80) ds).
  { intros ds Hds. eapply Forall_impl; [exact Hds|]. cbn. intros c Hc. assert (implb (is_digit c) (byteZ c <? 0x80) = true) as H by byte_decide c.
    rewrite Hc in H. by apply Z.ltb_lt in H. }
  intros (sg & ip & fp & ep & -> & Hsg & Hip & Hfp & Hep & _). rewrite !Forall_app. split_and!.
  - destruct Hsg as [-> | ->]; repeat constructor.
  - destruct Hip as [->|(d & ds & -> & Hr & Hds)]; [repeat constructor|]. constructor; [|by apply Hd].
    unfold in_range in Hr. bool_simp. lia.
  - destruct Hfp as [->|(ds & -> & _ & Hds)]; [constructor|]. constructor; [done|by apply Hd].
  - destruct Hep as [->|(e & sg' & ds & -> & He & Hsg' & _ & Hds)]; [constructor|]. constructor; [by destruct He as [-> | ->]|].
    apply Forall_app. split; [|by apply Hd]. destruct Hsg' as [->|[-> | ->]]; repeat constructor.
Qed.

Lemma hex_ascii h v : four_hex h v -> Forall (fun c => byteZ c < 0x80) h.
Proof.
  assert (Hx : forall c v, hex_digit c v -> byteZ c < 0x80).
  { intros c w Hc%hex_digit_val. assert (match hex_val c with Some _ => byteZ c <? 0x80 | None => true end = true) as H by byte_decide c.
    rewrite Hc in H. by apply Z.ltb_lt. }
  intros (a & b & c & d & va & vb & vc & vd & -> & Ha & Hb & Hc & Hd & _). repeat constructor; eauto.
Qed.

Lemma rchar_scalars t ch : rchar t ch -> scalars t.
Proof.
  intros [cp Hs _ _ _|e c He|h v Hh _|h hi l lo Hh Hl _ _]; [by apply scalars_one|..]; apply scalars_ascii_text.
  - unfold escapes in He. repeat (apply elem_of_cons in He as [[= -> _]|He]; [by repeat constructor|]). by apply elem_of_nil in He.
  - repeat constructor. by eapply hex_ascii.
  - repeat constructor. apply Forall_app. split; [by eapply hex_ascii|]. repeat constructor. by eapply hex_ascii.
Qed.

Lemma rchars_scalars t d : rchars t d -> scalars t.
Proof. induction 1; [constructor|]. apply scalars_app; [by eapply rchar_scalars|done]. Qed.

Lemma rblanks_scalars w : rblanks w -> scalars w.
Proof.
  intros H. apply scalars_ascii_text. eapply Forall_impl; [exact H|]. cbn. intros c Hc.
  repeat (apply elem_of_cons in Hc as [->|Hc]; [done|]). by apply elem_of_nil in Hc.
Qed.

Lemma scalars_byte c s : byteZ c < 0x80 -> scalars s -> scalars (c :: s).
Proof. intros Hc Hs. change (c :: s) with ([c] ++ s). apply scalars_app; [|done]. apply scalars_ascii_text. by repeat constructor. Qed.

Lemma rtext_scalars :
  (forall v t, rtext v t -> scalars t) /\ (forall v t, rpad v t -> scalars t) /\ (forall vs t, relems vs t -> scalars t) /\
  (forall m t, rpair m t -> scalars t) /\ (forall ms t, rmembers ms t -> scalars t).
Proof.
  apply rfc_ind; intros; repeat first [assumption | apply scalars_app | apply scalars_byte; [done|] | apply scalars_nil
    | by apply rblanks_scalars | by eapply rchars_scalars].
  by eapply scalars_ascii_text, number_ascii.
Qed.

(** On UTF-8 text the grammar of the tokenizer is the grammar of the RFC. *)
Lemma rfc8259_document s v : rfc8259 s v <-> scalars s /\ jdocument s v.
Proof.
  split.
  - intros H. split; [by apply (proj1 (proj2 rtext_scalars)) in H|by apply (proj1 (proj2 rtext_jtext))].
  - intros [Hs Hj]. apply (proj1 (proj2 jtext_rtext) _ _ Hj []). rewrite app_nil_r. by apply scalars_textual.
Qed.
