(* ===== verification/JsonDump.v ===== *)
(** * JSON module: serialization

    [dump_str], [dump_node] and [dump] of [src/src/json_dump.cxx], the text they
    write for the value a node denotes ([print]), and the round trip: the text
    is in the grammar, and parsing it gives the value back. *)

From Stdlib Require Import ZArith Lia Strings.Byte String.
From stdpp Require Import base tactics option numbers list sorting.
From S2P Require Import Prelude Unicode ByteScan Codec JsonTypes JsonStorage JsonNumber JsonSpec JsonReader JsonTokRefine JsonDenote JsonRefine JsonValid JsonUnicode JsonGrammar.

(** ** Strings *)

Definition kDumpHex : bytes := B "0123456789abcdef".

Definition dump_hex (v : Z) : byte := Hex.hex_digit kDumpHex v.

(** [append_u_escape] *)
Definition append_u_escape (out : bytes) (cp : Z) : bytes :=
  out ++ [x5c; x75] ++
  [dump_hex (Z.land (Z.shiftr cp 12) 0x0F); dump_hex (Z.land (Z.shiftr cp 8) 0x0F);
   dump_hex (Z.land (Z.shiftr cp 4) 0x0F); dump_hex (Z.land cp 0x0F)].

(** [dump_str_raw] *)
Definition dump_str_raw (sv out : bytes) : bytes := (out ++ [x22]) ++ sv ++ [x22].

(** The bytes of a multi-byte sequence folded into a code point. *)
Definition fold_conts (cp : Z) (cs : bytes) : Z :=
  fold_left (fun cp c => Z.lor (u32 (Z.shiftl cp 6)) (Z.land (byteZ c) 0x3F)) cs cp.

(** The [\uXXXX] escape or the surrogate pair of a code point. *)
Definition append_code_point (out : bytes) (cp : Z) : bytes :=
  if cp <? 0x10000 then append_u_escape out cp
  else
    let cp := cp - 0x10000 in
    append_u_escape (append_u_escape out (Z.lor 0xD800 (Z.shiftr cp 10))) (Z.lor 0xDC00 (Z.land cp 0x3FF)).

(** The [switch] on the byte at [i]: the index after it and the output. *)
Definition dump_escape (sv : bytes) (ascii : bool) (i : nat) (cc : byte) (out : bytes) : nat * bytes :=
  if cc =b x22 then (S i, out ++ [x5c; x22])
  else if cc =b x5c then (S i, out ++ [x5c; x5c])
  else if cc =b x08 then (S i, out ++ [x5c; x62])
  else if cc =b x0c then (S i, out ++ [x5c; x66])
  else if cc =b x0a then (S i, out ++ [x5c; x6e])
  else if cc =b x0d then (S i, out ++ [x5c; x72])
  else if cc =b x09 then (S i, out ++ [x5c; x74])
  else if byteZ cc <? 0x20 then (S i, append_u_escape out (byteZ cc))
  else if ascii && (0x80 <=? byteZ cc) then
    let '(cp, seq) :=
      if byteZ cc <? 0xE0 then (Z.land (byteZ cc) 0x1F, 2%nat)
      else if byteZ cc <? 0xF0 then (Z.land (byteZ cc) 0x0F, 3%nat)
      else (Z.land (byteZ cc) 0x07, 4%nat) in
    let cp := fold_conts cp (substr sv (S i) (seq - 1)) in
    ((i + seq)%nat, append_code_point out cp)
  else (S i, out ++ [cc]).

(** The [while] loop of [dump_str]; every iteration advances. *)
Fixpoint dump_str_loop (ascii : bool) (fuel : nat) (sv : bytes) (i : nat) (out : bytes) : bytes :=
  match fuel with
  | O => out
  | S f =>
      match sv !! i with
      | None => out
      | Some c =>
          let needs_escape := (c =b x22) || (c =b x5c) || (byteZ c <? 0x20) || (ascii && (0x80 <=? byteZ c)) in
          let run := if needs_escape then 0%nat else Simd.scan_dump_safe_run (drop i sv) ascii in
          let out := out ++ substr sv i run in
          let i := (i + run)%nat in
          match sv !! i with
          | None => out
          | Some cc => let '(i, out) := dump_escape sv ascii i cc out in dump_str_loop ascii f sv i out
          end
      end
  end.

Definition dump_str (sv out : bytes) (ascii : bool) : bytes :=
  dump_str_loop ascii (S (length sv)) sv 0 (out ++ [x22]) ++ [x22].

(** ** Nodes *)

(** [std::string_view] order: bytes as unsigned, a prefix first. *)
Fixpoint sv_leb (a b : bytes) : bool :=
  match a, b with
  | [], _ => true
  | _ :: _, [] => false
  | x :: a', y :: b' => if byteZ x =? byteZ y then sv_leb a' b' else byteZ x <? byteZ y
  end.

(** [std::ranges::sort] by the first component. *)
Fixpoint sort_insert {A} (x : bytes * A) (l : list (bytes * A)) : list (bytes * A) :=
  match l with
  | [] => [x]
  | y :: l' => if sv_leb (fst x) (fst y) then x :: l else y :: sort_insert x l'
  end.

Definition sort_by_name {A} (l : list (bytes * A)) : list (bytes * A) := foldr sort_insert [] l.

Section dump.
Context (ds : DocumentStorage) (opts : JsonDumpOptions).

(** The [indent] closure. *)
Definition put_indent (d : nat) (out : bytes) : bytes :=
  if pretty opts then out ++ x0a :: repeat (indent_char opts) (d * indent opts)%nat else out.

Definition truncated (depth : nat) : bool :=
  match truncate_depth opts with Some t => (t <? depth)%nat | None => false end.

Definition dump_text (flags : Z) (sv out : bytes) : bytes :=
  if has_flag flags kRawJsonSlice && negb (ascii_only opts) then dump_str_raw sv out
  else dump_str sv out (ascii_only opts).

(** What precedes the element [i] of a container. *)
Definition put_separator (i depth : nat) (out : bytes) : bytes :=
  put_indent (S depth) (if (0 <? i)%nat then out ++ [x2c] else out).

(** The elements [i .. i + left) of an array. *)
Fixpoint dump_children (rec : nat -> nat -> bytes -> option bytes) (o depth : nat) (left i : nat) (out : bytes)
  : option bytes :=
  match left with
  | O => Some out
  | S left' =>
      c ← array_children ds !! (o + i)%nat;
      out ← rec c (S depth) (put_separator i depth out);
      dump_children rec o depth left' (S i) out
  end.

(** The members of an object in a given order of names and indices. *)
Fixpoint dump_members (rec : nat -> nat -> bytes -> option bytes) (o depth : nat)
  (order : list (bytes * nat)) (i : nat) (out : bytes) : option bytes :=
  match order with
  | [] => Some out
  | (name, j) :: order' =>
      m ← object_members ds !! (o + j)%nat;
      let out := dump_text (name_flags m) name (put_separator i depth out) in
      let out := out ++ (if pretty opts then [x3a; x20] else [x3a]) in
      out ← rec (val_node m) (S depth) out;
      dump_members rec o depth order' (S i) out
  end.

(** The names of the members with their indices. *)
Fixpoint member_order (o : nat) (left i : nat) : option (list (bytes * nat)) :=
  match left with
  | O => Some []
  | S left' =>
      m ← object_members ds !! (o + i)%nat;
      rest ← member_order o left' (S i);
      Some ((member_name ds m, i) :: rest)
  end.

(** [dump_node]; an access outside a vector gives [None]. *)
Fixpoint dump_node (fuel : nat) (idx depth : nat) (out : bytes) : option bytes :=
  match fuel with
  | O => None
  | S f =>
      if truncated depth then Some (out ++ B "null")
      else
        n ← nodes ds !! idx;
        match kind n with
        | NK_null => Some (out ++ B "null")
        | NK_boolean => Some (out ++ (match payload n with bool_val true => B "true" | _ => B "false" end))
        | NK_string => Some (dump_text (flags n) (bytes_at ds (off n) (len n) (flags n)) out)
        | NK_number => Some (out ++ bytes_at ds (off n) (len n) (flags n))
        | NK_array =>
            let out := out ++ [x5b] in
            out ← (if (0 <? len n)%nat then
                     out ← dump_children (dump_node f) (off n) depth (len n) 0 out;
                     Some (put_indent depth out)
                   else Some out);
            Some (out ++ [x5d])
        | NK_object =>
            let out := out ++ [x7b] in
            out ← (if (0 <? len n)%nat then
                     order ← member_order (off n) (len n) 0;
                     let order := if sort_object_keys opts then sort_by_name order else order in
                     out ← dump_members (dump_node f) (off n) depth order 0 out;
                     Some (put_indent depth out)
                   else Some out);
            Some (out ++ [x7d])
        end
  end.

(** [NodeRef::dump] and [Document::dump]; children come before their parents,
    so a node's index bounds the nesting below it. *)
Definition node_dump (idx : nat) : option bytes := dump_node (S idx) idx 0 [].
Definition dump : option bytes := node_dump (root_node ds).
End dump.

(** ** The text of a string *)

Import Simd.

(** What [dump_str] writes for the bytes of a string, [k] of them skipped. *)
Fixpoint esc_skip (ascii : bool) (k : nat) (sv : bytes) : bytes :=
  match sv with
  | [] => []
  | c :: t =>
      match k with
      | S k' => esc_skip ascii k' t
      | O =>
          if stop_dump ascii c then
            let '(n, txt) := dump_escape (c :: t) ascii 0 c [] in txt ++ esc_skip ascii (n - 1) t
          else c :: esc_skip ascii 0 t
      end
  end.

Definition esc (ascii : bool) (sv : bytes) : bytes := esc_skip ascii 0 sv.
Definition quoted (ascii : bool) (sv : bytes) : bytes := x22 :: esc ascii sv ++ [x22].

Lemma esc_skip_drop ascii k sv : esc_skip ascii k sv = esc ascii (drop k sv).
Proof.
  revert k. induction sv as [|c t IH]; intros [|k]; try done. cbn [esc_skip drop]. apply IH.
Qed.

Lemma append_u_escape_app out cp : append_u_escape out cp = out ++ append_u_escape [] cp.
Proof. done. Qed.

Lemma append_code_point_app out cp : append_code_point out cp = out ++ append_code_point [] cp.
Proof.
  unfold append_code_point. destruct (cp <? 0x10000); [done|].
  by rewrite append_u_escape_app, (append_u_escape_app out), (append_u_escape_app (append_u_escape [] _)), app_assoc.
Qed.

(** The switch looks only at the bytes from [i] on. *)
Lemma dump_escape_shift sv ascii i cc out :
  dump_escape sv ascii i cc out =
  let '(n, txt) := dump_escape (cc :: drop (S i) sv) ascii 0 cc [] in ((i + n)%nat, out ++ txt).
Proof.
  unfold dump_escape. repeat (case_match; [by rewrite Nat.add_1_r|]). unfold substr. simpl drop.
  destruct (ascii && _); [|by rewrite Nat.add_1_r].
  destruct (byteZ cc <? 0xE0); [|destruct (byteZ cc <? 0xF0)]; by rewrite append_code_point_app.
Qed.

Lemma dump_escape_pos sv ascii i cc out : (i < fst (dump_escape sv ascii i cc out))%nat.
Proof.
  unfold dump_escape. repeat (case_match; [simpl; lia|]).
  destruct (ascii && _); [|simpl; lia]. repeat case_match; simplify_eq; simpl; lia.
Qed.

Lemma esc_run ascii p s : Forall (fun c => stop_dump ascii c = false) p -> esc ascii (p ++ s) = p ++ esc ascii s.
Proof. induction 1 as [|c p Hc _ IH]; [done|]. unfold esc in *. simpl. by rewrite Hc, IH. Qed.

Lemma esc_stop ascii c t :
  stop_dump ascii c = true ->
  esc ascii (c :: t) = let '(n, txt) := dump_escape (c :: t) ascii 0 c [] in txt ++ esc ascii (drop n (c :: t)).
Proof.
  intros Hc. unfold esc. cbn [esc_skip]. rewrite Hc. pose proof (dump_escape_pos (c :: t) ascii 0 c []) as Hp.
  destruct (dump_escape _ _ _ _ _) as [n txt]. simpl in Hp. destruct n as [|n]; [lia|].
  simpl. rewrite Nat.sub_0_r. by rewrite esc_skip_drop.
Qed.

Lemma dump_str_loop_spec ascii fuel sv i out :
  (length sv - i < fuel)%nat -> dump_str_loop ascii fuel sv i out = out ++ esc ascii (drop i sv).
Proof.
  revert i out. induction fuel as [|fuel IH]; intros i out Hf; [lia|]. cbn [dump_str_loop].
  destruct (sv !! i) as [c|] eqn:Ec.
  2: { apply lookup_ge_None in Ec. rewrite drop_ge by lia. by rewrite app_nil_r. }
  change ((c =b x22) || (c =b x5c) || (byteZ c <? 0x20) || (ascii && (0x80 <=? byteZ c))) with (stop_dump ascii c).
  set (run := if stop_dump ascii c then _ else _).
  assert (Hrun : run = first_index (stop_dump ascii) (drop i sv)).
  { unfold run. rewrite ScanSpec.scan_dump_safe_run_spec, (drop_S _ _ _ Ec). simpl. by destruct (stop_dump ascii c). }
  rewrite (drop_substr sv i run), esc_run, app_assoc by (rewrite Hrun; apply first_index_take).
  destruct (sv !! (i + run)%nat) as [cc|] eqn:Ecc.
  2: { apply lookup_ge_None in Ecc. rewrite drop_ge by lia. by rewrite app_nil_r. }
  assert (Hstop : stop_dump ascii cc = true).
  { apply (first_index_lookup _ (drop i sv)). by rewrite lookup_drop, <- Hrun. }
  rewrite (drop_S _ _ _ Ecc), esc_stop by done. rewrite dump_escape_shift.
  pose proof (dump_escape_pos (cc :: drop (S (i + run)) sv) ascii 0 cc []) as Hp.
  destruct (dump_escape (cc :: _) ascii 0 cc []) as [n txt]. simpl in Hp.
  pose proof (lookup_lt_Some _ _ _ Ecc). rewrite IH by lia. rewrite <- (app_assoc _ txt). do 2 f_equal.
  rewrite <- (drop_S _ _ _ Ecc), drop_drop. done.
Qed.

Lemma dump_str_spec sv out ascii : dump_str sv out ascii = out ++ quoted ascii sv.
Proof.
  unfold dump_str, quoted. rewrite dump_str_loop_spec by lia. rewrite drop_0. by app_norm.
Qed.

(** A raw slice needs no scan. *)
Lemma dump_str_raw_spec sv out : Forall clean sv -> dump_str_raw sv out = out ++ quoted false sv.
Proof.
  intros Hc. unfold dump_str_raw, quoted. rewrite <- (app_nil_r sv) at 2.
  rewrite esc_run, app_nil_r; [by app_norm|]. eapply Forall_impl; [exact Hc|]. intros c.
  unfold clean, stop_dump, Swar.stop_escape. intros H. by destruct (byteZ c <? 0x20), (c =b x22), (c =b x5c).
Qed.

(** ** The text of a string is in the grammar *)

Lemma dump_hex_val v : 0 <= v < 16 -> hex_val (dump_hex v) = Some v.
Proof.
  intros Hv. assert (H : forallb (fun n => bool_decide (hex_val (dump_hex (Z.of_nat n)) = Some (Z.of_nat n)))
    (seq 0 16) = true) by done.
  apply forallb_Forall in H. rewrite Forall_seq in H. specialize (H (Z.to_nat v) ltac:(lia)).
  rewrite Z2Nat.id in H by lia. by apply bool_decide_eq_true in H.
Qed.

Lemma land_15 x : Z.land x 0x0F = x mod 16.
Proof. change 0x0F with (Z.ones 4). by rewrite Z.land_ones. Qed.

Lemma u_escape_text cp : 0 <= cp < 0x10000 -> exists h, append_u_escape [] cp = x5c :: x75 :: h /\ hex4_text h cp.
Proof.
  intros Hcp. eexists. split; [done|]. repeat eexists; try (apply dump_hex_val; rewrite land_15; apply Z.mod_pos_bound; lia).
  rewrite !land_15, !Z.shiftr_div_pow2 by lia. change (2 ^ 12) with 4096. change (2 ^ 8) with 256. change (2 ^ 4) with 16.
  Z.to_euclidean_division_equations. lia.
Qed.

Lemma code_point_jchar cp : scalar cp -> jchar (append_code_point [] cp) (encode_utf8 cp).
Proof.
  intros (Hcp & Hhi & Hlo)%scalar_surrogates. unfold append_code_point. destruct (Z.ltb_spec cp 0x10000).
  - destruct (u_escape_text cp) as (h & -> & Hh); [lia|]. by apply jc_unicode.
  - set (c := cp - 0x10000). assert (Hc : 0 <= c < 0x100000) by lia.
    assert (Hr : 0 <= Z.shiftr c 10 < 1024) by (apply shiftr_range; lia).
    assert (Hm : Z.land c 0x3FF = c mod 1024) by (change 0x3FF with (Z.ones 10); by rewrite Z.land_ones).
    pose proof (Z.mod_pos_bound c 1024 ltac:(lia)) as Hmb.
    assert (Hd : Z.shiftr c 10 = c / 1024) by (by rewrite Z.shiftr_div_pow2).
    assert (Z.lor 0xD800 (Z.shiftr c 10) = 0xD800 + Z.shiftr c 10) as -> by (by rewrite (lor_shiftl_add 54 _ 10)).
    assert (Z.lor 0xDC00 (Z.land c 0x3FF) = 0xDC00 + c mod 1024) as -> by (rewrite Hm; by rewrite (lor_shiftl_add 55 _ 10)).
    destruct (u_escape_text (0xD800 + Z.shiftr c 10)) as (h & Hh & Hth); [lia|].
    destruct (u_escape_text (0xDC00 + c mod 1024)) as (l & Hl & Htl); [lia|].
    rewrite append_u_escape_app, Hh, Hl.
    assert (cp = combine_surrogates (0xD800 + Z.shiftr c 10) (0xDC00 + c mod 1024)) as Hcomb.
    { unfold combine_surrogates. rewrite Z.shiftl_mul_pow2, Hd by lia. change (2 ^ 10) with 1024.
      pose proof (Z.div_mod c 1024 ltac:(lia)). assert (cp = 0x10000 + c) by (unfold c; lia). lia. }
    rewrite Hcomb. apply (jc_pair h _ l _ Hth Htl); unfold is_high_surrogate, is_low_surrogate; lia.
Qed.

(** ASCII bytes that need an escape. *)
Lemma stop_ascii_jchar ascii c t :
  stop_dump false c = true -> exists txt, dump_escape (c :: t) ascii 0 c [] = (1%nat, txt) /\ jchar txt [c].
Proof.
  intros Hc. unfold stop_dump in Hc. rewrite orb_false_r in Hc. unfold dump_escape.
  assert (Hs : forall e b, simple_escape x22 e = Some b -> c = b ->
    exists txt, (1%nat, [] ++ [x5c; e]) = (1%nat, txt) /\ jchar txt [c]).
  { intros e b He ->. exists [x5c; e]. split; [done|by apply jc_escape]. }
  destruct (byte_eqb_spec c x22) as [H|]; [by eapply (Hs x22)|].
  destruct (byte_eqb_spec c x5c) as [H|]; [by eapply (Hs x5c)|]. cbn [orb] in Hc.
  destruct (byte_eqb_spec c x08) as [H|]; [by eapply (Hs x62)|].
  destruct (byte_eqb_spec c x0c) as [H|]; [by eapply (Hs x66)|].
  destruct (byte_eqb_spec c x0a) as [H|]; [by eapply (Hs x6e)|].
  destruct (byte_eqb_spec c x0d) as [H|]; [by eapply (Hs x72)|].
  destruct (byte_eqb_spec c x09) as [H|]; [by eapply (Hs x74)|].
  rewrite Hc. apply Z.ltb_lt in Hc. pose proof (byteZ_range c) as Hr.
  exists (append_u_escape [] (byteZ c)). split; [done|].
  destruct (u_escape_text (byteZ c)) as (h & -> & Hh); [lia|].
  assert ([c] = encode_utf8 (byteZ c)) as ->.
  { unfold encode_utf8. destruct (Z.ltb_spec (byteZ c) 0x80); [|lia]. by rewrite byte_of_Z_byteZ. }
  apply jc_unicode; [done|..]; unfold is_high_surrogate, is_low_surrogate; lia.
Qed.

Lemma stop_false_ascii c : stop_dump false c = true -> utf8_seq_len c = 1%nat.
Proof.
  intros H. assert (implb (stop_dump false c) (utf8_seq_len c =? 1)%nat = true) as Hi by byte_decide c.
  rewrite H in Hi. by apply Nat.eqb_eq in Hi.
Qed.

Lemma cont_not_stop c : is_cont c = true -> stop_dump false c = false.
Proof.
  intros H. assert (implb (is_cont c) (negb (stop_dump false c)) = true) as Hi by byte_decide c.
  rewrite H in Hi. simpl in Hi. by apply negb_true_iff in Hi.
Qed.

Lemma not_stop_unescaped c : stop_dump false c = false -> 0x20 <= byteZ c /\ c <> x22 /\ c <> x5c.
Proof. unfold stop_dump. intros H. bool_simp. split_and!; [lia|done|done]. Qed.

Lemma esc_utf8 s : utf8 s -> jchars (esc false s) s.
Proof.
  induction 1 as [|ch d (lead & conts & -> & Hl & Hc) _ IH]; [constructor|].
  destruct (stop_dump false lead) eqn:Es.
  - assert (conts = []) as ->. { rewrite (stop_false_ascii _ Es) in Hl. by destruct conts. }
    cbn [app]. rewrite esc_stop by done. destruct (stop_ascii_jchar false lead d Es) as (txt & -> & Hj).
    by apply (jcs_cons txt [lead]).
  - rewrite esc_run.
    + apply jcs_cons; [|done]. destruct (not_stop_unescaped _ Es) as (? & ? & ?). by apply jc_unescaped.
    + constructor; [done|]. eapply Forall_impl; [exact Hc|]. apply cont_not_stop.
Qed.

(** *** Decoding for the ASCII output *)

Lemma land_63 x : Z.land x 0x3F = x mod 64.
Proof. change 0x3F with (Z.ones 6). by rewrite Z.land_ones. Qed.

Lemma cont_payload x : Z.land (byteZ (byte_of_Z (Z.lor 0x80 (Z.land x 0x3F)))) 0x3F = x mod 64.
Proof.
  pose proof (land_63_range x) as H.
  assert (byteZ (byte_of_Z (Z.lor 0x80 (Z.land x 0x3F))) = 2 * 2 ^ 6 + Z.land x 0x3F) as ->
    by (apply (byteZ_lor 6 2); lia).
  rewrite !land_63. change (2 * 2 ^ 6) with (2 * 64). rewrite Z.add_comm, Z.mod_add by lia. by rewrite Z.mod_mod.
Qed.

Lemma fold_conts_cons cp x cs :
  0 <= cp < 2 ^ 26 ->
  fold_conts cp (byte_of_Z (Z.lor 0x80 (Z.land x 0x3F)) :: cs) = fold_conts (cp * 64 + x mod 64) cs.
Proof.
  intros Hcp. unfold fold_conts. cbn [fold_left]. rewrite cont_payload. f_equal.
  pose proof (Z.mod_pos_bound x 64 ltac:(lia)). rewrite u32_small.
  - by rewrite (lor_shiftl_add cp _ 6) by lia.
  - rewrite Z.shiftl_mul_pow2 by lia. lia.
Qed.

Lemma lead_payload n a x :
  0 <= n -> 0 <= a -> 0 <= x < 2 ^ n -> Z.land (a * 2 ^ n + x) (Z.ones n) = x.
Proof.
  intros Hn Ha Hx. rewrite Z.land_ones by done. rewrite Z.add_comm, Z.mod_add by lia. by apply Z.mod_small.
Qed.

Lemma join_64 x : Z.shiftr x 6 * 64 + x mod 64 = x.
Proof. rewrite Z.shiftr_div_pow2 by lia. change (2 ^ 6) with 64. pose proof (Z.div_mod x 64). lia. Qed.

Lemma shiftr_12 x : Z.shiftr x 12 = Z.shiftr (Z.shiftr x 6) 6.
Proof. by rewrite Z.shiftr_shiftr. Qed.

Lemma shiftr_18 x : Z.shiftr x 18 = Z.shiftr (Z.shiftr x 12) 6.
Proof. by rewrite Z.shiftr_shiftr. Qed.

Lemma dump_escape_high c t :
  0x80 <= byteZ c ->
  dump_escape (c :: t) true 0 c [] =
    let '(cp, seq) :=
      if byteZ c <? 0xE0 then (Z.land (byteZ c) 0x1F, 2%nat)
      else if byteZ c <? 0xF0 then (Z.land (byteZ c) 0x0F, 3%nat)
      else (Z.land (byteZ c) 0x07, 4%nat) in
    (seq, append_code_point [] (fold_conts cp (take (seq - 1) t))).
Proof.
  intros Hc. unfold dump_escape.
  assert (forall b, byteZ b < 0x80 -> (c =b b) = false) as Hne.
  { intros b Hb. destruct (byte_eqb_spec c b) as [->|]; [lia|done]. }
  rewrite !Hne by done. destruct (Z.ltb_spec (byteZ c) 0x20); [lia|].
  destruct (Z.leb_spec 0x80 (byteZ c)); [|lia]. simpl.
  by destruct (byteZ c <? 0xE0), (byteZ c <? 0xF0).
Qed.

Lemma decode_encode cp t :
  0x80 <= cp < 0x110000 ->
  exists lead conts, encode_utf8 cp = lead :: conts /\ 0x80 <= byteZ lead /\
    dump_escape (lead :: conts ++ t) true 0 lead [] = (length (lead :: conts), append_code_point [] cp).
Proof.
  intros Hcp. unfold encode_utf8. destruct (Z.ltb_spec cp 0x80); [lia|].
  destruct (Z.ltb_spec cp 0x800); [|destruct (Z.ltb_spec cp 0x10000)]; eexists _, _; (split; [done|]).
  - pose proof (shiftr_range cp 6 2 32 ltac:(lia) ltac:(lia)) as Hr.
    assert (Hb : byteZ (byte_of_Z (Z.lor 0xC0 (Z.shiftr cp 6))) = 6 * 2 ^ 5 + Z.shiftr cp 6)
      by (apply (byteZ_lor 5 6); lia).
    rewrite dump_escape_high, Hb by lia. split; [lia|]. destruct (Z.ltb_spec (6 * 2 ^ 5 + Z.shiftr cp 6) 0xE0); [|lia].
    rewrite (lead_payload 5) by lia. cbn [app take Nat.sub]. rewrite fold_conts_cons by lia. cbn [fold_conts fold_left].
    by rewrite join_64.
  - pose proof (shiftr_range cp 12 0 16 ltac:(lia) ltac:(lia)) as Hr.
    assert (Hb : byteZ (byte_of_Z (Z.lor 0xE0 (Z.shiftr cp 12))) = 14 * 2 ^ 4 + Z.shiftr cp 12)
      by (apply (byteZ_lor 4 14); lia).
    rewrite dump_escape_high, Hb by lia. split; [lia|].
    destruct (Z.ltb_spec (14 * 2 ^ 4 + Z.shiftr cp 12) 0xE0); [lia|].
    destruct (Z.ltb_spec (14 * 2 ^ 4 + Z.shiftr cp 12) 0xF0); [|lia].
    rewrite (lead_payload 4) by lia. cbn [app take Nat.sub].
    pose proof (Z.mod_pos_bound (Z.shiftr cp 6) 64 ltac:(lia)).
    rewrite fold_conts_cons, fold_conts_cons by lia. cbn [fold_conts fold_left].
    by rewrite shiftr_12, !join_64.
  - pose proof (shiftr_range cp 18 0 5 ltac:(lia) ltac:(lia)) as Hr.
    assert (Hb : byteZ (byte_of_Z (Z.lor 0xF0 (Z.shiftr cp 18))) = 30 * 2 ^ 3 + Z.shiftr cp 18)
      by (apply (byteZ_lor 3 30); lia).
    rewrite dump_escape_high, Hb by lia. split; [lia|].
    destruct (Z.ltb_spec (30 * 2 ^ 3 + Z.shiftr cp 18) 0xE0); [lia|].
    destruct (Z.ltb_spec (30 * 2 ^ 3 + Z.shiftr cp 18) 0xF0); [lia|].
    rewrite (lead_payload 3) by lia. cbn [app take Nat.sub].
    pose proof (Z.mod_pos_bound (Z.shiftr cp 6) 64 ltac:(lia)). pose proof (Z.mod_pos_bound (Z.shiftr cp 12) 64 ltac:(lia)).
    rewrite fold_conts_cons, fold_conts_cons, fold_conts_cons by lia. cbn [fold_conts fold_left].
    by rewrite shiftr_18, join_64, shiftr_12, !join_64.
Qed.

Lemma stop_true_false c : byteZ c < 0x80 -> stop_dump true c = stop_dump false c.
Proof. intros H. unfold stop_dump. destruct (Z.leb_spec 0x80 (byteZ c)); [lia|done]. Qed.

Lemma esc_scalars s : scalars s -> jchars (esc true s) s.
Proof.
  induction 1 as [|cp d Hs _ IH]; [constructor|]. rewrite <- (encode_utf8_of cp) by apply Hs. destruct (Z.lt_ge_cases cp 0x80) as [Hlt|Hge].
  - destruct Hs as (Hr & _). unfold encode_utf8. destruct (Z.ltb_spec cp 0x80); [|lia].
    set (c := byte_of_Z cp). assert (Hc : byteZ c < 0x80).
    { unfold c. rewrite byteZ_byte_of_Z, Z.mod_small by lia. lia. }
    cbn [app]. destruct (stop_dump true c) eqn:Es.
    + rewrite esc_stop by done. rewrite (stop_true_false c Hc) in Es.
      destruct (stop_ascii_jchar true c d Es) as (txt & -> & Hj). by apply (jcs_cons txt [c]).
    + change (c :: d) with ([c] ++ d). rewrite (esc_run true [c]) by (by repeat constructor).
      apply (jcs_cons [c] [c]); [|done].
      rewrite (stop_true_false c Hc) in Es. destruct (not_stop_unescaped _ Es) as (? & ? & ?).
      apply jc_unescaped; [done|done|done| |constructor]. unfold utf8_seq_len. destruct (Z.ltb_spec (byteZ c) 0x80); [done|lia].
  - destruct (decode_encode cp d) as (lead & conts & He & Hl & Hd); [destruct Hs; lia|]. rewrite He. cbn [app].
    rewrite esc_stop, Hd.
    + change (lead :: conts ++ d) with ((lead :: conts) ++ d). rewrite drop_app_length.
      apply jcs_cons; [|done]. rewrite <- He. by apply code_point_jchar.
    + unfold stop_dump. destruct (Z.leb_spec 0x80 (byteZ lead)); [by rewrite orb_true_r|lia].
Qed.

(** ** The text of a value *)

Section print.
Context (opts : JsonDumpOptions).

Definition ind (d : nat) : bytes :=
  if pretty opts then x0a :: repeat (indent_char opts) (d * indent opts)%nat else [].

(** The elements of a container from index [i] on, and all of them up to the
    closing bracket. *)
Fixpoint items (depth i : nat) (ts : list bytes) : bytes :=
  match ts with
  | [] => []
  | t :: ts' => (if (0 <? i)%nat then [x2c] else []) ++ ind (S depth) ++ t ++ items depth (S i) ts'
  end.

Definition join (depth : nat) (ts : list bytes) : bytes :=
  match ts with [] => [] | _ => items depth 0 ts ++ ind depth end.

Definition colon : bytes := if pretty opts then [x3a; x20] else [x3a].

Definition member_text (nt : bytes * bytes) : bytes := quoted (ascii_only opts) (fst nt) ++ colon ++ snd nt.

Definition in_order {A} (l : list (bytes * A)) : list (bytes * A) :=
  if sort_object_keys opts then sort_by_name l else l.

Fixpoint print (depth : nat) (v : jval) : bytes :=
  if truncated opts depth then B "null"
  else
    match v with
    | JNull => B "null"
    | JBool b => if b then B "true" else B "false"
    | JNum lex => lex
    | JStr s => quoted (ascii_only opts) s
    | JArr vs => x5b :: join depth (map (print (S depth)) vs) ++ [x5d]
    | JObj ms =>
        x7b :: join depth (map member_text (in_order (map (fun m => (fst m, print (S depth) (snd m))) ms))) ++ [x7d]
    end.

Lemma put_indent_ind d out : put_indent opts d out = out ++ ind d.
Proof. unfold put_indent, ind. destruct (pretty opts); [done|by rewrite app_nil_r]. Qed.

Lemma put_separator_items i depth out :
  put_separator opts i depth out = out ++ (if (0 <? i)%nat then [x2c] else []) ++ ind (S depth).
Proof.
  unfold put_separator. rewrite put_indent_ind. destruct (0 <? i)%nat; [by rewrite <- app_assoc|done].
Qed.

(** A string or a name, raw or decoded. *)
Lemma dump_text_spec fl s out : flags_ok fl s -> dump_text opts fl s out = out ++ quoted (ascii_only opts) s.
Proof.
  intros Hf. unfold dump_text. destruct (ascii_only opts) eqn:Ea; cbn [negb].
  - rewrite andb_false_r. apply dump_str_spec.
  - rewrite andb_true_r. destruct Hf as [[-> Hc]| ->]; [by apply dump_str_raw_spec|apply dump_str_spec].
Qed.

(** *** Sorting *)

Lemma in_order_rel {A C} (P : bytes * A -> bytes * C -> Prop) l k :
  (forall x y, P x y -> fst x = fst y) -> Forall2 P l k -> Forall2 P (in_order l) (in_order k).
Proof.
  intros HP H. unfold in_order. destruct (sort_object_keys opts); [|done]. unfold sort_by_name.
  assert (Hins : forall x y l k, P x y -> Forall2 P l k -> Forall2 P (sort_insert x l) (sort_insert y k)).
  { intros x y l' k' Hxy. induction 1 as [|x' y' l' k' Hxy' Hl IH]; [constructor; [done|constructor]|].
    cbn [sort_insert]. rewrite (HP _ _ Hxy), (HP _ _ Hxy').
    destruct (sv_leb (fst y) (fst y')); (constructor; [done|]); [by constructor|done]. }
  induction H as [|x y l k Hxy _ IH]; simpl; [constructor|by apply Hins].
Qed.

Lemma sort_insert_perm {A} (x : bytes * A) l : sort_insert x l ≡ₚ x :: l.
Proof.
  induction l as [|y l IH]; simpl; [done|]. destruct (sv_leb _ _); [done|]. rewrite IH. by apply Permutation_swap.
Qed.

Lemma in_order_perm {A} (l : list (bytes * A)) : in_order l ≡ₚ l.
Proof.
  unfold in_order. destruct (sort_object_keys opts); [|done]. unfold sort_by_name.
  induction l as [|x l IH]; simpl; [done|]. by rewrite sort_insert_perm, IH.
Qed.
End print.

(** ** [dump_node] writes the text of the value *)

Section dump_ok.
Context (ds : DocumentStorage) (opts : JsonDumpOptions).

Lemma dump_children_spec rec o depth cs ts i out :
  (forall j, cs !! j = array_children ds !! (o + (i + j))%nat \/ cs !! j = None) ->
  Forall2 (fun c t => forall out, rec c (S depth) out = Some (out ++ t)) cs ts ->
  dump_children ds opts rec o depth (length cs) i out = Some (out ++ items opts depth i ts).
Proof.
  intros Hcs Hall. revert i out Hcs. induction Hall as [|c t cs ts Hc _ IH]; intros i out Hcs.
  - cbn. by rewrite app_nil_r.
  - cbn [length dump_children items]. destruct (Hcs 0%nat) as [H0|]; [|done]. simpl in H0.
    rewrite Nat.add_0_r in H0. rewrite <- H0. simpl. rewrite Hc. simpl.
    rewrite IH.
    + rewrite put_separator_items. by rewrite <- !app_assoc.
    + intros j. destruct (Hcs (S j)) as [Hj|Hj]; simpl in Hj; [left|by right].
      rewrite Hj. do 2 f_equal. lia.
Qed.

Lemma slice_at {A} (l : list A) o n j : slice l o n !! j = l !! (o + (0 + j))%nat \/ slice l o n !! j = None.
Proof. destruct (slice l o n !! j) as [x|] eqn:E; [left|by right]. symmetry. by apply slice_lookup in E. Qed.

(** The names of the members and their indices. *)
Lemma member_order_spec o ms names i :
  (forall j, ms !! j = object_members ds !! (o + (i + j))%nat \/ ms !! j = None) ->
  Forall2 (fun m nm => member_ref ds m nm) ms names ->
  member_order ds o (length ms) i = Some (zip names (seq i (length ms))).
Proof.
  intros Hms Hall. revert i Hms. induction Hall as [|m nm ms names Hm _ IH]; intros i Hms; [done|].
  cbn [length member_order seq]. destruct (Hms 0%nat) as [H0|]; [|done]. simpl in H0.
  rewrite Nat.add_0_r in H0. rewrite <- H0. simpl. rewrite IH.
  - simpl. by rewrite (member_name_ref _ _ _ Hm).
  - intros j. destruct (Hms (S j)) as [Hj|Hj]; simpl in Hj; [left|by right]. rewrite Hj. do 2 f_equal. lia.
Qed.

(** A member index whose member is written as the text [t] after its name. *)
Definition writes_member (rec : nat -> nat -> bytes -> option bytes) (o depth : nat)
  (x : bytes * nat) (nt : bytes * bytes) : Prop :=
  fst x = fst nt /\ exists m, object_members ds !! (o + snd x)%nat = Some m /\
    flags_ok (name_flags m) (fst x) /\ forall out, rec (val_node m) (S depth) out = Some (out ++ snd nt).

Lemma dump_members_spec rec o depth order nts i out :
  Forall2 (writes_member rec o depth) order nts ->
  dump_members ds opts rec o depth order i out
  = Some (out ++ items opts depth i (map (member_text opts) nts)).
Proof.
  intros Hall. revert i out.
  induction Hall as [|[nm j] [nm' t] order nts (Hn & m & Hm & Hf & Hr) _ IH]; intros i out.
  - cbn. by rewrite app_nil_r.
  - cbn [fst snd] in *. subst nm'. cbn [dump_members]. rewrite Hm. cbn [mbind option_bind]. rewrite Hr. cbn [mbind option_bind]. rewrite IH.
    rewrite dump_text_spec by done. rewrite put_separator_items. unfold member_text, colon. cbn [map items fst snd].
    generalize (quoted (ascii_only opts) nm). intros q. by rewrite <- !app_assoc.
Qed.

(** The members of an object node, with their indices, are written as their
    texts. *)
Lemma members_write rec o depth l ms (text : jval -> bytes) i :
  (forall j, l !! j = object_members ds !! (o + (i + j))%nat \/ l !! j = None) ->
  Forall2 (fun m x => member_ref ds m (fst x) /\
    forall out, rec (val_node m) (S depth) out = Some (out ++ text (snd x))) l ms ->
  Forall2 (writes_member rec o depth) (zip (map fst ms) (seq i (length l)))
    (map (fun m => (fst m, text (snd m))) ms).
Proof.
  intros Hl Hall. revert i Hl. induction Hall as [|m [nm w] l ms [Hm Hw] _ IH]; intros i Hl; [constructor|].
  constructor.
  - split; [done|]. exists m. destruct (Hl 0%nat) as [H0|]; [|done]. simpl in H0.
    rewrite Nat.add_0_r in H0. split_and!; [done|apply Hm|done].
  - apply IH. intros j. destruct (Hl (S j)) as [Hj|Hj]; simpl in Hj; [left|by right]. rewrite Hj. do 2 f_equal. lia.
Qed.

Lemma dump_node_spec fuel idx depth v out :
  denotes ds idx v -> (idx < fuel)%nat -> dump_node ds opts fuel idx depth out = Some (out ++ print opts depth v).
Proof.
  revert idx depth v out. induction fuel as [|f IH]; intros idx depth v out Hd Hf; [lia|]. cbn [dump_node].
  destruct (truncated opts depth) eqn:Et; [destruct v; cbn [print]; by rewrite Et|].
  destruct v as [|b|lex|s|vs|ms]; cbn [print]; rewrite Et; destruct Hd as (n & Hn & Hk & Hd); rewrite Hn; simpl; rewrite Hk.
  - done.
  - rewrite Hd. by destruct b.
  - destruct Hd as [[-> _] _]. done.
  - destruct Hd as [[-> _] Hfl]. by rewrite dump_text_spec.
  - destruct Hd as [Hl Ha]. pose proof (all2_length _ _ _ Ha) as Hlen. apply all2_Forall2 in Ha.
    destruct vs as [|v0 vs']; [simpl in Hl; rewrite <- Hl; simpl; by rewrite <- app_assoc|].
    destruct (Nat.ltb_spec 0 (len n)); [|simpl in Hl; lia]. rewrite <- Hl, <- Hlen.
    rewrite (dump_children_spec _ _ _ _ (map (print opts (S depth)) (v0 :: vs'))).
    + cbn [mbind option_bind join map]. rewrite put_indent_ind. by rewrite <- !app_assoc.
    + apply slice_at.
    + apply Forall2_fmap_r. eapply Forall2_impl; [exact Ha|]. intros c w [Hc Hw] out'. apply IH; [done|lia].
  - destruct Hd as (Hl & _ & Ha). pose proof (all2_length _ _ _ Ha) as Hlen. apply all2_Forall2 in Ha.
    destruct ms as [|m0 ms']; [simpl in Hl; rewrite <- Hl; cbn; unfold in_order; case_match; by rewrite <- app_assoc|].
    destruct (Nat.ltb_spec 0 (len n)); [|simpl in Hl; lia]. rewrite <- Hl, <- Hlen.
    set (ms := m0 :: ms') in *.
    rewrite (member_order_spec _ _ (map fst ms)).
    + cbn [mbind option_bind]. change (if sort_object_keys opts then sort_by_name ?l else ?l) with (in_order opts l).
      rewrite (dump_members_spec _ _ _ _ (in_order opts (map (fun m => (fst m, print opts (S depth) (snd m))) ms))).
      * cbn [mbind option_bind]. rewrite put_indent_ind.
        assert (Hne : map (member_text opts) (in_order opts (map (fun m => (fst m, print opts (S depth) (snd m))) ms)) <> []).
        { intros H0. apply (f_equal length) in H0. rewrite length_map, in_order_perm, length_map in H0. done. }
        unfold join. destruct (map (member_text opts) _) as [|t0 ts]; [done|]. by rewrite <- !app_assoc.
      * apply in_order_rel; [by intros ? ? [? _]|]. apply members_write; [apply slice_at|].
        eapply Forall2_impl; [exact Ha|]. intros m [nm w] (Hr & Hv & Hw). split; [done|].
        intros out'. apply IH; [done|lia].
    + apply slice_at.
    + apply Forall2_fmap_r. eapply Forall2_impl; [exact Ha|]. by intros m [nm w] (Hr & _).
Qed.

(** The text of a document is the text of its value. *)
Lemma dump_spec v : denotes ds (root_node ds) v -> dump ds opts = Some (print opts 0 v).
Proof. intros Hd. unfold dump, node_dump. by rewrite (dump_node_spec _ _ _ v) by (done || lia). Qed.
End dump_ok.

(** ** The written value *)

Section view.
Context (opts : JsonDumpOptions) (Hind : pretty opts = true -> is_blank (indent_char opts) = true).

(** The value a dump stands for: cut at the truncation depth, members in the
    order written. *)
Fixpoint view (depth : nat) (v : jval) : jval :=
  if truncated opts depth then JNull
  else
    match v with
    | JArr vs => JArr (map (view (S depth)) vs)
    | JObj ms => JObj (in_order opts (map (fun m => (fst m, view (S depth) (snd m))) ms))
    | _ => v
    end.

(** The strings the output mode can write. *)
Definition quotable (s : bytes) : Prop := if ascii_only opts then scalars s else utf8 s.

Fixpoint printable (v : jval) : Prop :=
  match v with
  | JNull | JBool _ => True
  | JNum lex => exists b, jnumber lex b
  | JStr s => quotable s
  | JArr vs => allP printable vs
  | JObj ms => allP (fun m => quotable (fst m) /\ printable (snd m)) ms
  end.

Lemma quoted_jchars s : quotable s -> jchars (esc (ascii_only opts) s) s.
Proof. unfold quotable. destruct (ascii_only opts); [apply esc_scalars|apply esc_utf8]. Qed.

Lemma ind_blanks d : blanks (ind opts d).
Proof.
  unfold ind. destruct (pretty opts) eqn:E; [|constructor]. constructor; [done|].
  specialize (Hind eq_refl). induction (d * indent opts)%nat; simpl; by constructor.
Qed.

Lemma colon_pad v t w : jtext v t -> blanks w ->
  exists u, colon opts ++ t ++ w = x3a :: u /\ jpad v u.
Proof.
  intros Ht Hw. unfold colon. destruct (pretty opts).
  - exists ([x20] ++ t ++ w). split; [done|]. constructor; [by repeat constructor|done|done].
  - exists ([] ++ t ++ w). split; [done|]. constructor; [constructor|done|done].
Qed.

(** The elements written one after the other. *)
Lemma items_slist {A} (P R : A -> bytes -> Prop) depth x xs t ts i w :
  (forall x t w1 w2, blanks w1 -> blanks w2 -> R x t -> P x (w1 ++ t ++ w2)) ->
  R x t -> Forall2 R xs ts -> blanks w ->
  slist P (x :: xs) (ind opts (S depth) ++ t ++ items opts depth (S i) ts ++ w).
Proof.
  intros HP Hx Hall Hw. revert x t i Hx. induction Hall as [|y u xs ts Hy _ IH]; intros x t i Hx.
  - cbn [items app]. apply sl_one. apply HP; [apply ind_blanks|done|done].
  - cbn [items]. change (0 <? S i)%nat with true. cbn [app].
    match goal with |- slist _ _ ?g => replace g
      with ((ind opts (S depth) ++ t ++ []) ++ x2c :: (ind opts (S depth) ++ u ++ items opts depth (S (S i)) ts ++ w))
      by (rewrite app_nil_r; by app_norm) end.
    apply sl_cons; [apply HP; [apply ind_blanks|constructor|done]|]. by apply IH.
Qed.

Lemma join_slist {A} (P R : A -> bytes -> Prop) depth xs ts :
  (forall x t w1 w2, blanks w1 -> blanks w2 -> R x t -> P x (w1 ++ t ++ w2)) ->
  Forall2 R xs ts -> xs <> [] -> slist P xs (join opts depth ts).
Proof.
  intros HP [|x t xs' ts' Hx Hall] Hne; [done|]. unfold join. cbn [items]. change (0 <? 0)%nat with false.
  cbn [app]. rewrite <- !app_assoc. apply (items_slist P R); [done|done|done|apply ind_blanks].
Qed.

Lemma print_text depth v : printable v -> jtext (view depth v) (print opts depth v).
Proof.
  revert depth. induction v as [|b|lex|s|vs IH|ms IH] using jval_nested_ind; intros depth Hp; cbn [view print];
    (destruct (truncated opts depth); [constructor|]).
  - constructor.
  - destruct b; constructor.
  - destruct Hp as [b Hb]. by apply (jt_num lex b).
  - constructor. by apply quoted_jchars.
  - destruct vs as [|v0 vs']; [apply (jt_arr_empty []); constructor|]. apply jt_arr, slist_jelems.
    apply (join_slist jpad jtext); [intros; by constructor| |done].
    simpl in Hp. apply (allP_Forall printable (v0 :: vs')) in Hp.
    apply Forall2_fmap_l, Forall2_fmap_r, Forall_Forall2_diag.
    eapply Forall_impl; [exact (proj2 (Forall_and _ _) (conj IH Hp))|]. intros v [Hv Hpv]. by apply Hv.
  - destruct ms as [|m0 ms'].
    { cbn [map]. unfold in_order. case_match; apply (jt_obj_empty []); constructor. }
    simpl in Hp. apply (allP_Forall (fun m => quotable (fst m) /\ printable (snd m)) (m0 :: ms')) in Hp.
    set (ms := m0 :: ms') in *. apply jt_obj, slist_jmembers.
    apply (join_slist jpair (fun x t => exists tv, t = member_text opts (fst x, tv) /\ quotable (fst x) /\ jtext (snd x) tv)).
    + intros [nm v] t w1 w2 Hw1 Hw2 (tv & -> & Hq & Hv). unfold member_text, quoted. cbn [fst snd].
      destruct (colon_pad v tv w2 Hv Hw2) as (u & Hu & Hpad).
      match goal with |- jpair _ ?g => replace g
        with (w1 ++ x22 :: esc (ascii_only opts) nm ++ x22 :: [] ++ x3a :: u)
        by (rewrite <- Hu; by app_norm) end.
      constructor; [done|by apply quoted_jchars|constructor|done].
    + apply Forall2_fmap_r.
      eapply Forall2_impl; [apply (in_order_rel opts (fun x y => fst x = fst y /\ quotable (fst x) /\ jtext (snd x) (snd y)))|].
      * by intros ? ? [? _].
      * apply Forall2_fmap_l, Forall2_fmap_r, Forall_Forall2_diag. eapply Forall_impl; [exact (proj2 (Forall_and _ _) (conj IH Hp))|].
        intros [nm v] [Hv [Hq Hpv]]. cbn [fst snd] in *. split_and!; [done|done|by apply Hv].
      * intros [nm v] [nm' tv] (Hn & Hq & Hv). cbn [fst snd] in *. subst nm'. by exists tv.
    + intros H0. apply (f_equal length) in H0. rewrite in_order_perm, length_map in H0. done.
Qed.
End view.
