(* ===== verification/JsonRoundTrip.v ===== *)
(** * JSON module: accepted texts and round trips

    The parser, the grammar and the serializer put together: which texts
    [parse] accepts, that a document is well formed, and that the text [dump]
    writes parses back to the value it was written from. *)

From Stdlib Require Import ZArith Lia Strings.Byte String.
From stdpp Require Import base tactics option numbers list.
From S2P Require Import Prelude Unicode ByteScan Codec JsonTypes JsonStorage JsonNumber JsonHash JsonSpec JsonReader JsonTokenizer JsonParse JsonTokRefine JsonDenote JsonRefine JsonParseOk JsonValid JsonUnicode JsonGrammar JsonRfc JsonDump.

(** ** Valid values mean themselves *)

Lemma mean_all_id mean vs : Forall (fun v => mean v = Some v) vs -> mean_all mean vs = Some vs.
Proof. induction 1 as [|v vs Hv _ IH]; [done|]. simpl. rewrite Hv. simpl. by rewrite IH. Qed.

Section meaning.
Context (o : JsonParseOptions).

Lemma add_members_id mean skip ms acc :
  Forall (fun m => too_long o (fst m) = false /\ mean (snd m) = Some (snd m)) ms ->
  NoDup (map fst (acc ++ ms)) -> add_members o mean skip ms acc = Some (acc ++ ms).
Proof.
  intros Hall. revert acc. induction Hall as [|[nm v] ms [Hl Hm] _ IH]; intros acc Hnd; simpl.
  - by rewrite app_nil_r.
  - cbn [fst snd] in *. unfold add_member. rewrite Hl.
    rewrite (cons_middle (nm, v)), app_assoc in Hnd.
    assert (find_name nm acc = None) as ->.
    { apply find_name_absent. rewrite !map_app in Hnd. apply NoDup_app in Hnd as [Hnd _].
      apply NoDup_app in Hnd as (_ & Hnd & _). intros Hin. apply (Hnd _ Hin). by left. }
    rewrite Hm. simpl. rewrite IH by done. by rewrite <- app_assoc.
Qed.

Lemma valid_meaning d v : valid o d v -> meaning o d v = Some v.
Proof.
  revert d. induction v as [|b|lex|s|vs IH|ms IH] using jval_nested_ind; intros d [Hd Hv]; cbn [meaning]; rewrite Hd.
  - done.
  - done.
  - destruct Hv as [-> _]. done.
  - destruct Hv as [-> _]. done.
  - apply (allP_Forall (valid o (S d))) in Hv. rewrite mean_all_id; [done|].
    eapply Forall_impl; [exact (proj2 (Forall_and _ _) (conj IH Hv))|]. intros v [Hi Hw]. by apply Hi.
  - destruct Hv as [Hnd Hv]. apply (allP_Forall (fun m => valid_name o (fst m) /\ valid o (S d) (snd m))) in Hv.
    rewrite (add_members_id _ _ ms []); [done| |done].
    eapply Forall_impl; [exact (proj2 (Forall_and _ _) (conj IH Hv))|]. intros [nm v] [Hi [[Hl _] Hw]].
    split; [done|by apply Hi].
Qed.

(** Cutting and sorting keeps a value valid. *)
Lemma view_valid dopts d depth v : valid o d v -> valid o d (view dopts depth v).
Proof.
  revert d depth. induction v as [|b|lex|s|vs IH|ms IH] using jval_nested_ind; intros d depth Hv; cbn [view];
    (destruct (truncated dopts depth); [split; [by apply (valid_depth o d _ Hv)|done]|]); try done.
  - destruct Hv as [Hd Hv]. split; [done|]. apply (allP_Forall (valid o (S d))) in Hv. apply allP_Forall, Forall_fmap.
    eapply Forall_impl; [exact (proj2 (Forall_and _ _) (conj IH Hv))|]. intros v [Hi Hw]. by apply Hi.
  - destruct Hv as (Hd & Hnd & Hv). apply (allP_Forall (fun m => valid_name o (fst m) /\ valid o (S d) (snd m))) in Hv.
    set (l := map (fun m => (fst m, view dopts (S depth) (snd m))) ms).
    assert (Hnames : map fst l = map fst ms) by (unfold l; rewrite map_map; done).
    split_and!; [done| |].
    + rewrite (Permutation_map fst (in_order_perm dopts l)). by rewrite Hnames.
    + apply allP_Forall. rewrite (in_order_perm dopts l). apply Forall_fmap.
      eapply Forall_impl; [exact (proj2 (Forall_and _ _) (conj IH Hv))|]. intros [nm v] [Hi [Hn Hw]].
      split; [done|by apply Hi].
Qed.

(** Every valid value can be written, with the ASCII restriction one of UTF-8 strings. *)
Lemma valid_printable dopts d v : (ascii_only dopts = true -> strings scalars v) -> valid o d v -> printable dopts v.
Proof.
  assert (Hq : forall s, (ascii_only dopts = true -> scalars s) -> utf8 s -> quotable dopts s).
  { intros s H1 H2. unfold quotable. destruct (ascii_only dopts); auto. }
  revert d. induction v as [|b|lex|s|vs IH|ms IH] using jval_nested_ind; intros d Ha [Hd Hv]; simpl.
  - done.
  - done.
  - apply Hv.
  - by apply Hq; [|apply Hv].
  - apply (allP_Forall (valid o (S d))) in Hv. apply (allP_Forall (printable dopts)). apply Forall_forall. intros v Hin.
    rewrite Forall_forall in IH, Hv. apply (IH v Hin (S d)); [|by apply Hv]. intros Hasc. specialize (Ha Hasc).
    apply (allP_Forall (strings scalars)) in Ha. rewrite Forall_forall in Ha. by apply Ha.
  - destruct Hv as [_ Hv]. apply (allP_Forall (fun m => valid_name o (fst m) /\ valid o (S d) (snd m))) in Hv.
    apply (allP_Forall (fun m => quotable dopts (fst m) /\ printable dopts (snd m))). apply Forall_forall. intros [nm v] Hin.
    rewrite Forall_forall in IH, Hv. destruct (Hv _ Hin) as [[_ Hn] Hw].
    assert (Ha' : ascii_only dopts = true -> scalars nm /\ strings scalars v).
    { intros Hasc. specialize (Ha Hasc). apply (allP_Forall (fun m => scalars (fst m) /\ strings scalars (snd m))) in Ha.
      rewrite Forall_forall in Ha. by apply (Ha _ Hin). }
    split; [apply Hq; [intros Hasc; by destruct (Ha' Hasc)|done]|]. apply (IH _ Hin (S d)); [intros Hasc; by destruct (Ha' Hasc)|done].
Qed.
End meaning.

(** ** Texts accepted by the entry points *)

(** The options with the strict grammar. *)
Definition strict_of (o : JsonParseOptions) : JsonParseOptions :=
  mkParseOptions (max_depth o) (max_input_size o) (max_string_size o) (duplicate_key o) (warm_threshold o) strict.

(** The size limits of [check_input_limits]. *)
Definition input_fits (o : JsonParseOptions) (t : bytes) : bool :=
  negb ((2 ^ 32 - 1 <=? Z.of_nat (length t)) || exceeds (max_input_size o) (Z.of_nat (length t)) kDefaultMaxInput).

Lemma parse_spec_fits o t : input_fits o t = true -> parse_spec o t = spec_parse o (strip_bom t).
Proof. unfold input_fits, parse_spec. intros H. apply negb_true_iff in H. by rewrite H. Qed.

(** The mode does not matter for being valid. *)
Lemma valid_strict o d v : valid o d v -> valid (strict_of o) d v.
Proof. done. Qed.

(** A value text does not start with a byte order mark. *)
Lemma strip_bom_text v t : jtext v t -> strip_bom t = t.
Proof.
  intros H. unfold strip_bom. assert (Hh : exists c u, t = c :: u /\ c <> xef).
  { destruct H as [| | |lex b Hj| | | | |]; try by eexists _, _.
    destruct (number_head _ _ Hj) as (c & u & -> & Hc). exists c, u. split; [done|]. by intros ->. }
  destruct Hh as (c & u & -> & Hc). destruct (starts_with (c :: u) kBOM) eqn:E; [|done].
  apply starts_with_spec in E as [t' Ht']. by injection Ht' as -> _.
Qed.

Lemma parse_accepts hash_env o t v :
  parse_spec o t = Ok v -> exists ds, parse hash_env o t = Ret ds /\ denotes ds (root_node ds) v.
Proof.
  intros Hs. pose proof (parse_document_storage_ok hash_env o prepare_borrowed_input t prepares_borrowed) as H.
  change (parse_document_storage hash_env o prepare_borrowed_input t) with (parse hash_env o t) in H.
  destruct (parse hash_env o t) as [ds|e| |]; try done.
  - exists ds. split; [done|]. destruct H as (v' & Hv' & Hd). rewrite Hs in Hv'. by injection Hv' as ->.
  - destruct H as [H _]. rewrite Hs in H. discriminate.
Qed.

Lemma parse_result hash_env o t ds :
  parse hash_env o t = Ret ds -> exists v, parse_spec o t = Ok v /\ denotes ds (root_node ds) v.
Proof.
  intros Hp. pose proof (parse_document_storage_ok hash_env o prepare_borrowed_input t prepares_borrowed) as H.
  change (parse_document_storage hash_env o prepare_borrowed_input t) with (parse hash_env o t) in H. by rewrite Hp in H.
Qed.

Lemma parse_spec_valid o t v : parse_spec o t = Ok v -> valid o 0 v.
Proof. unfold parse_spec. destruct (_ || _); [done|apply spec_parse_valid]. Qed.

Lemma parse_spec_unicode o t v : parse_spec o t = Ok v -> scalars (strip_bom t) -> strings scalars v.
Proof. unfold parse_spec. destruct (_ || _); [done|apply spec_parse_unicode]. Qed.

(** The text of a valid value reads back as the value written. *)
Lemma print_reads o dopts v :
  mode o = strict -> (pretty dopts = true -> is_blank (indent_char dopts) = true) ->
  printable dopts v -> valid o 0 v -> input_fits o (print dopts 0 v) = true ->
  parse_spec o (print dopts 0 v) = Ok (view dopts 0 v).
Proof.
  intros Hm Hind Hp Hv Hfit. pose proof (print_text dopts Hind 0 v Hp) as Ht.
  rewrite parse_spec_fits by done. rewrite (strip_bom_text _ _ Ht). apply spec_parse_iff; [done|].
  exists (view dopts 0 v). split; [|by apply valid_meaning, view_valid].
  rewrite <- (app_nil_l (print _ _ _)), <- (app_nil_r (print _ _ _)).
  constructor; [constructor|done|constructor].
Qed.

(** ** The escaper of [utils.cxx] *)

Import Swar Simd.

Lemma dump_escape_plain c t :
  stop_escape c = true -> dump_escape (c :: t) false 0 c [] = (1%nat, JsonEscape.append_escaped [] c).
Proof. destruct c; try discriminate; reflexivity. Qed.

(** It writes what the serializer writes. *)
Lemma esc_escape_byte s : esc false s = flat_map JsonEscape.escape_byte s.
Proof.
  unfold esc. induction s as [|c s IH]; [done|]. cbn [esc_skip flat_map]. unfold JsonEscape.escape_byte at 1.
  assert (stop_dump false c = stop_escape c) as -> by (apply eqb_prop; byte_decide c).
  destruct (stop_escape c) eqn:E.
  - rewrite dump_escape_plain by done. by rewrite <- IH.
  - by rewrite IH.
Qed.

Lemma json_string_fallback_quoted s : JsonEscape.json_string_fallback s = quoted false s.
Proof.
  unfold JsonEscape.json_string_fallback, JsonEscape.append_json_string_fallback, quoted.
  by rewrite JsonEscape.content_fallback_spec, esc_escape_byte.
Qed.

(** ** A sample document for the witnesses *)

Definition ascii_dump : JsonDumpOptions := mkDumpOptions false 2 false true x20 None.

Definition sample_text : bytes := B "{'a': [1, -2.5e3, true], 'b': {'c': null}}".
Definition sample_input : bytes := map (fun c => if c =b x27 then x22 else c) sample_text.
Definition sample_ds : DocumentStorage :=
  match parse (fun _ => None) default_parse_options sample_input with Ret ds => ds | _ => empty_storage end.
Definition sample_value : jval :=
  match parse_spec default_parse_options sample_input with Ok v => v | _ => JNull end.

Lemma parse_denotes hash_env o t ds v :
  parse hash_env o t = Ret ds -> parse_spec o t = Ok v -> denotes ds (root_node ds) v.
Proof. intros (v' & Hs & Hd)%parse_result Hv. rewrite Hv in Hs. by injection Hs as ->. Qed.

(** ** The properties *)

(** C4: in strict mode [parse] reads RFC 8259. For an input within the size limits,
    [parse] accepts it and what follows its optional byte order mark is UTF-8 (RFC
    3629) exactly when that is a text of the grammar of RFC 8259 (where a [\u] escape
    of a surrogate is half of a pair) that is within the limits and, under the reject
    policy, free of duplicate names; and the document denotes the value the text
    writes, duplicates resolved by the policy. *)
Theorem parse_strict_grammar hash_env o input x :
  mode o = strict -> input_fits o input = true ->
  (scalars (strip_bom input) /\ exists ds, parse hash_env o input = Ret ds /\ denotes ds (root_node ds) x) <->
  (exists v, rfc8259 (strip_bom input) v /\ meaning o 0 v = Some x).
Proof.
  intros Hm Hf. assert (Hp : (exists ds, parse hash_env o input = Ret ds /\ denotes ds (root_node ds) x) <->
    exists v, jdocument (strip_bom input) v /\ meaning o 0 v = Some x).
  { rewrite <- spec_parse_iff, <- parse_spec_fits by done. split; [|apply parse_accepts].
    intros (ds & (v & Hs & Hv)%parse_result & Hd). by rewrite (denotes_inj _ _ _ _ Hd Hv). }
  rewrite Hp. setoid_rewrite rfc8259_document. naive_solver.
Qed.

Lemma parse_strict_grammar_witness :
  (scalars (strip_bom sample_input) /\
   exists ds, parse (fun _ => None) default_parse_options sample_input = Ret ds /\ denotes ds (root_node ds) sample_value)
  <-> (exists v, rfc8259 (strip_bom sample_input) v /\ meaning default_parse_options 0 v = Some sample_value).
Proof. apply parse_strict_grammar; [reflexivity|vm_compute; reflexivity]. Defined.

(** C39: the document of a successful parse, in either mode, holds a valid value:
    nesting, string and number lengths within the limits, no object with two
    members of the same name, numbers of the grammar; every character of a string or
    name is a lead byte with its continuation bytes, and when the input (behind its
    byte order mark) is UTF-8, all strings and names are. *)
Theorem parse_document_valid hash_env o input ds :
  parse hash_env o input = Ret ds ->
  exists v, denotes ds (root_node ds) v /\ valid o 0 v /\ (scalars (strip_bom input) -> strings scalars v).
Proof.
  intros (v & Hs & Hd)%parse_result. exists v. split_and!; [done|by apply (parse_spec_valid o input)|by apply (parse_spec_unicode o input)].
Qed.

Lemma parse_document_valid_witness :
  exists v, denotes sample_ds (root_node sample_ds) v /\ valid default_parse_options 0 v /\
    (scalars (strip_bom sample_input) -> strings scalars v).
Proof.
  apply (parse_document_valid (fun _ => None) default_parse_options sample_input). vm_compute. reflexivity.
Defined.

(** C5: [dump] of a parsed document always succeeds, and what it writes reads back.
    The output is compact, or pretty with a blank indent character, sorted or not,
    truncated or not; with the ASCII restriction the input was UTF-8. When the output
    is within the size limit of the input, [parse] accepts it in strict mode under the
    same options, as the value of the document with the truncation and the order of the
    options applied. *)
Theorem dump_parse_roundtrip hash_env hash_env' o dopts input ds :
  parse hash_env o input = Ret ds -> (ascii_only dopts = true -> scalars (strip_bom input)) ->
  (pretty dopts = true -> is_blank (indent_char dopts) = true) ->
  exists t v, dump ds dopts = Some t /\ denotes ds (root_node ds) v /\
    (input_fits o t = true -> exists ds', parse hash_env' (strict_of o) t = Ret ds' /\
       denotes ds' (root_node ds') (view dopts 0 v)).
Proof.
  intros (v & Hs & Hd)%parse_result Ha Hind. exists (print dopts 0 v), v.
  split_and!; [by apply dump_spec|done|]. intros Hf. apply parse_accepts. apply print_reads; try done.
  - apply (valid_printable o dopts 0); [|by eapply parse_spec_valid]. intros Hasc. eapply parse_spec_unicode; [done|by apply Ha].
  - by apply valid_strict, (parse_spec_valid o input).
Qed.

(** A string of one two-byte character. *)
Definition accent_input : bytes := [x22; xc3; xa9; x22].
Definition accent_ds : DocumentStorage :=
  match parse (fun _ => None) default_parse_options accent_input with Ret ds => ds | _ => empty_storage end.

Lemma accent_scalars : scalars (strip_bom accent_input).
Proof.
  apply (scalars_cons 0x22 [xc3; xa9; x22]); [unfold scalar; lia|]. apply (scalars_cons 0xe9 [x22]); [unfold scalar; lia|].
  apply (scalars_cons 0x22 []); [unfold scalar; lia|constructor].
Qed.

Lemma dump_parse_roundtrip_witness :
  exists t v, dump accent_ds ascii_dump = Some t /\ denotes accent_ds (root_node accent_ds) v /\
    (input_fits default_parse_options t = true ->
     exists ds', parse (fun _ => Some 5) (strict_of default_parse_options) t = Ret ds' /\
       denotes ds' (root_node ds') (view ascii_dump 0 v)).
Proof.
  apply (dump_parse_roundtrip (fun _ => None) (fun _ => Some 5) default_parse_options ascii_dump accent_input);
    [vm_compute; reflexivity|intros _; apply accent_scalars|discriminate].
Defined.

(** Parse, dump, and parse what was written: the code of the second error. *)
Definition reparse_code (dopts : JsonDumpOptions) (input : bytes) : option JsonIssueCode :=
  match parse (fun _ => None) default_parse_options input with
  | Ret ds =>
      match dump ds dopts with
      | Some t => match parse (fun _ => None) default_parse_options t with Fail e => Some (code e) | _ => None end
      | None => None
      end
  | _ => None
  end.

Lemma reparse_code_inv dopts input c :
  reparse_code dopts input = Some c ->
  exists ds t e, parse (fun _ => None) default_parse_options input = Ret ds /\ dump ds dopts = Some t /\
    parse (fun _ => None) default_parse_options t = Fail e /\ code e = c.
Proof.
  unfold reparse_code. destruct (parse _ _ input) as [ds| | |]; try discriminate.
  destruct (dump ds dopts) as [t|] eqn:Et; try discriminate.
  destruct (parse _ _ t) as [|e| |] eqn:Ep; try discriminate. intros [= H]. by exists ds, t, e.
Qed.

Lemma reparse_surrogate : reparse_code ascii_dump [x22; xed; xa0; x80; x22] = Some invalid_unicode_escape.
Proof. vm_compute. reflexivity. Qed.

(** the ASCII output of an accepted document need not parse. The tokenizer
    accepts the bytes of an encoded surrogate, [dump] writes them as a lone
    [\ud800] escape, and the tokenizer rejects that. *)
Theorem ascii_dump_not_accepted :
  exists ds t e, parse (fun _ => None) default_parse_options [x22; xed; xa0; x80; x22] = Ret ds /\
    dump ds ascii_dump = Some t /\
    parse (fun _ => None) default_parse_options t = Fail e /\ code e = invalid_unicode_escape.
Proof. exact (reparse_code_inv _ _ _ reparse_surrogate). Qed.

(** the string escaper outside the JSON module agrees with the parser: for
    UTF-8 content within the string limit, what [json_string_fallback] writes
    parses, in strict mode, as that string; the size it reserves is the size it
    writes. *)
Theorem json_string_fallback_parses hash_env o s :
  mode o = strict -> valid o 0 (JStr s) -> input_fits o (JsonEscape.json_string_fallback s) = true ->
  (exists ds, parse hash_env o (JsonEscape.json_string_fallback s) = Ret ds /\ denotes ds (root_node ds) (JStr s)) /\
  length (JsonEscape.json_string_fallback s) = (JsonEscape.json_string_content_escaped_size_ s + 2)%nat.
Proof.
  intros Hm Hv Hf. split.
  - rewrite json_string_fallback_quoted in *. apply parse_accepts.
    apply (print_reads o default_dump_options (JStr s)); try done. by apply (valid_printable o default_dump_options 0).
  - rewrite <- JsonEscape.content_fallback_size. unfold JsonEscape.json_string_fallback, JsonEscape.append_json_string_fallback,
      JsonEscape.json_string_content_fallback. rewrite !JsonEscape.content_fallback_spec, !length_app. simpl. lia.
Qed.

Lemma json_string_fallback_parses_witness :
  (exists ds, parse (fun _ => None) default_parse_options (JsonEscape.json_string_fallback [x0a; x01; x41]) = Ret ds /\
     denotes ds (root_node ds) (JStr [x0a; x01; x41])) /\
  length (JsonEscape.json_string_fallback [x0a; x01; x41])
    = (JsonEscape.json_string_content_escaped_size_ [x0a; x01; x41] + 2)%nat.
Proof.
  apply (json_string_fallback_parses (fun _ => None) default_parse_options [x0a; x01; x41]).
  - reflexivity.
  - split; [reflexivity|split; [reflexivity|]].
    apply (utf8_cons [x0a]), (utf8_cons [x01]), (utf8_cons [x41]); try constructor; by apply utf8_char_one.
  - vm_compute. reflexivity.
Defined.
