(* ===== verification/JsonDom.v ===== *)
(** * JSON module: looking things up in a document

    JSON Pointer and the document accessors of [src/src/json_dom.cxx]:
    [JsonPath::to_pointer] and [from_pointer], [NodeRef::at], [ObjectView::member],
    [ArrayView::element], and [ObjectView::find_member] with its hash index that
    is built on first use and published with compare-and-swap. The reads of a
    node are lookups in the storage; a read outside it gives [None]. *)

From Stdlib Require Import ZArith Lia Strings.Byte String.
From stdpp Require Import base tactics option numbers list relations.
From S2P Require Import Prelude JsonTypes JsonStorage JsonNumber JsonHash JsonSpec JsonReader JsonTokRefine JsonDenote.

(** ** JSON Pointer *)

Module Pointer.

(** The loop of [decode_json_pointer_token]. *)
Fixpoint decode_token (token decoded : bytes) : option bytes :=
  match token with
  | [] => Some decoded
  | c :: t =>
      if negb (c =b x7e) then decode_token t (decoded ++ [c])
      else
        match t with
        | [] => None
        | e :: t' =>
            if e =b x30 then decode_token t' (decoded ++ [x7e])
            else if e =b x31 then decode_token t' (decoded ++ [x2f])
            else None
        end
  end.

Definition decode_json_pointer_token (token : bytes) : option bytes := decode_token token [].

Definition escape_char (c : byte) : bytes :=
  if c =b x7e then [x7e; x30] else if c =b x2f then [x7e; x31] else [c].

Definition segment_text (seg : JsonPathSegment) : bytes :=
  x2f :: match seg with
         | JsonPathMember name => flat_map escape_char name
         | JsonPathIndex index => to_dec (Z.of_nat index)
         end.

Definition to_pointer (p : JsonPath) : bytes := flat_map segment_text p.

(** The loop of [from_pointer] from position [pos]; a token ends at the next
    slash, so an iteration consumes at least one position. *)
Fixpoint from_pointer_loop (fuel : nat) (sv : bytes) (pos : nat) (result : JsonPath)
  : expected JsonPath JsonError :=
  match fuel with
  | O => Ok result
  | S f =>
      if (pos <=? length sv)%nat then
        let slash := match sv_find x2f sv pos with Some i => i | None => length sv end in
        match decode_json_pointer_token (substr sv pos (slash - pos)) with
        | None => Unexpected (simple_error Stage_parse invalid_pointer (B "invalid '~' escape in JSON Pointer"))
        | Some name => from_pointer_loop f sv (slash + 1) (result ++ [JsonPathMember name])
        end
      else Ok result
  end.

Definition from_pointer (sv : bytes) : expected JsonPath JsonError :=
  match sv with
  | [] => Ok []
  | c :: _ =>
      if negb (c =b x2f)
      then Unexpected (simple_error Stage_parse invalid_pointer (B "JSON Pointer must start with '/' or be empty"))
      else from_pointer_loop (S (length sv)) sv 1 []
  end.
End Pointer.

(** ** Views *)

Record ObjectView := mkObjectView { mem_start_ : nat; mem_count_ : nat; node_idx_ : nat }.
Record ArrayView := mkArrayView { child_start_ : nat; child_count_ : nat }.

Definition kind_of (k : NodeKind) : JsonKind :=
  match k with
  | NK_null => KNull
  | NK_boolean => KBoolean
  | NK_number => KNumber
  | NK_string => KString
  | NK_array => KArray
  | NK_object => KObject
  end.

Definition wrong_kind_error (want : JsonKind) (n : Node) (msg : bytes) : JsonError :=
  mkJsonError Stage_lookup wrong_kind [] None (Some want) (Some (kind_of (kind n))) None None None None None None None None msg.

Definition kind_is (n : Node) (k : NodeKind) : bool :=
  match kind n, k with
  | NK_null, NK_null | NK_boolean, NK_boolean | NK_number, NK_number | NK_string, NK_string
  | NK_array, NK_array | NK_object, NK_object => true
  | _, _ => false
  end.

Section accessors.
Context (ds : DocumentStorage) (idx : nat).

(** [rec()] *)
Definition node_rec : option Node := nodes ds !! idx.

Definition as_object : option (expected ObjectView JsonError) :=
  n ← node_rec;
  Some (if negb (kind_is n NK_object) then Unexpected (wrong_kind_error KObject n (B "std::expected object"))
        else Ok (mkObjectView (off n) (len n) idx)).

Definition as_array : option (expected ArrayView JsonError) :=
  n ← node_rec;
  Some (if negb (kind_is n NK_array) then Unexpected (wrong_kind_error KArray n (B "std::expected array"))
        else Ok (mkArrayView (off n) (len n))).

Definition as_bool : option (expected bool JsonError) :=
  n ← node_rec;
  Some (if negb (kind_is n NK_boolean) then Unexpected (wrong_kind_error KBoolean n (B "std::expected boolean"))
        else Ok (match payload n with bool_val b => b | _ => false end)).

Definition as_string : option (expected bytes JsonError) :=
  n ← node_rec;
  Some (if negb (kind_is n NK_string) then Unexpected (wrong_kind_error KString n (B "std::expected string"))
        else Ok (bytes_at ds (off n) (len n) (flags n))).

Definition as_number : option (expected JsonNumberView JsonError) :=
  n ← node_rec;
  Some (if negb (kind_is n NK_number) then Unexpected (wrong_kind_error KNumber n (B "std::expected number"))
        else Ok (mkNumberView (bytes_at ds (off n) (len n) (flags n)) (payload n) (flags n))).

(** [as_number().and_then(f)] *)
Definition and_then {A} (f : JsonNumberView -> expected A JsonError) : option (expected A JsonError) :=
  r ← as_number;
  Some (match r with Ok v => f v | Unexpected e => Unexpected e end).

Definition as_i64 : option (expected Z JsonError) := and_then to_i64.
Definition as_u64 : option (expected Z JsonError) := and_then to_u64.
End accessors.

(** ** The hash index built on first use *)

Module LazyIndex.
Section find.
Context (ds : DocumentStorage) (mem_start mem_count : nat).

(** What a thread that finds no table tries: the capacity, the allocation (with
    its seed, or [None]) and the build. *)
Definition try_build (env : option Z) : option ObjHashTable :=
  let cap := clamped_capacity (u32 (Z.of_nat mem_count)) in
  if 0 <? cap then
    seed ← env;
    match build_table (create cap (u32n mem_count) seed) ds mem_start mem_count with
    | (true, t) => Some t
    | (false, _) => None
    end
  else None.

(** Where a thread is in [find_member]: before the load, before publishing its
    table, before recording a failure, or done. *)
Inductive Pc := at_load | at_publish (t : ObjHashTable) | at_mark | finished (r : option nat).

(** One atomic access to the slot. *)
Definition step (name : bytes) (env : option Z) (slot : HashRef) (pc : Pc) : HashRef * Pc :=
  match pc with
  | at_load =>
      match slot with
      | HashBuildFailed => (slot, finished (lookup_linear ds mem_start mem_count name))
      | HashTable t => (slot, finished (lookup_in t ds mem_start mem_count name))
      | HashNull => (slot, match try_build env with Some t => at_publish t | None => at_mark end)
      end
  | at_publish t =>
      match slot with
      | HashNull => (HashTable t, finished (lookup_in t ds mem_start mem_count name))
      | HashBuildFailed => (slot, at_mark)
      | HashTable t' => (slot, finished (lookup_in t' ds mem_start mem_count name))
      end
  | at_mark =>
      (match slot with HashNull => HashBuildFailed | _ => slot end,
       finished (lookup_linear ds mem_start mem_count name))
  | finished r => (slot, pc)
  end.

(** Threads that look up names in the same object. *)
Record Thread := mkThread { t_name : bytes; t_env : option Z; t_pc : Pc }.
Record System := mkSystem { slot : HashRef; threads : list Thread }.

(** Any thread makes its next access. *)
Inductive sys_step : System -> System -> Prop :=
| sys_thread s i t slot' pc' :
    threads s !! i = Some t -> step (t_name t) (t_env t) (slot s) (t_pc t) = (slot', pc') ->
    sys_step s (mkSystem slot' (<[i := mkThread (t_name t) (t_env t) pc']> (threads s))).

Definition initial (sl : HashRef) (reqs : list (bytes * option Z)) : System :=
  mkSystem sl (map (fun r => mkThread (fst r) (snd r) at_load) reqs).

(** The threads named by a schedule access the slot in that order. *)
Fixpoint run_schedule (sched : list nat) (s : System) : System :=
  match sched with
  | [] => s
  | i :: rest =>
      run_schedule rest
        match threads s !! i with
        | None => s
        | Some t =>
            let '(slot', pc') := step (t_name t) (t_env t) (slot s) (t_pc t) in
            mkSystem slot' (<[i := mkThread (t_name t) (t_env t) pc']> (threads s))
        end
  end.
End find.
End LazyIndex.
Import LazyIndex.

(** [find_member] run without other threads: at most three accesses. *)
Definition set_slot_of (idx : nat) (h : HashRef) (ds : DocumentStorage) : DocumentStorage :=
  set_nodes (alter (set_hash h) idx (nodes ds)) ds.

Definition run_find (ds : DocumentStorage) (ov : ObjectView) (name : bytes) (env : option Z) (sl : HashRef)
  : HashRef * Pc :=
  let st := step ds (mem_start_ ov) (mem_count_ ov) name env in
  let '(s1, p1) := st sl at_load in let '(s2, p2) := st s1 p1 in st s2 p2.

Definition find_member (env : option Z) (ds : DocumentStorage) (ov : ObjectView) (name : bytes)
  : option (DocumentStorage * option nat) :=
  if (mem_count_ ov <? kHashThreshold)%nat
  then Some (ds, lookup_linear ds (mem_start_ ov) (mem_count_ ov) name)
  else
    n ← nodes ds !! node_idx_ ov;
    match payload n with
    | hash_idx_raw sl =>
        match run_find ds ov name env sl with
        | (sl', finished r) => Some (set_slot_of (node_idx_ ov) sl' ds, r)
        | _ => None
        end
    | _ => None
    end.

Definition missing_member_error (name : bytes) : JsonError :=
  mkJsonError Stage_lookup missing_member [] None None None (Some name) None None None None None None None
    (B "missing member: " ++ name).

Definition member (env : option Z) (ds : DocumentStorage) (ov : ObjectView) (name : bytes)
  : option (DocumentStorage * expected nat JsonError) :=
  r ← find_member env ds ov name;
  Some (fst r, match snd r with Some j => Ok j | None => Unexpected (missing_member_error name) end).

Definition element (ds : DocumentStorage) (av : ArrayView) (index : Z) : option (expected nat JsonError) :=
  if Z.of_nat (child_count_ av) <=? index then
    Some (Unexpected (mkJsonError Stage_lookup index_out_of_range [] None None None None None (Some index)
      (Some (child_count_ av)) None None None None
      (B "index " ++ to_dec index ++ B " out of range (size=" ++ to_dec (Z.of_nat (child_count_ av)) ++ B ")")))
  else
    c ← array_children ds !! (child_start_ av + Z.to_nat index)%nat;
    Some (Ok c).

(** ** [NodeRef::at] *)

(** The test for an array index in a pointer token: no sign, no leading zero. *)
Definition all_digits (name : bytes) : bool :=
  negb (bytes_eqb name []) && ((length name =? 1)%nat || negb (match name with c :: _ => c =b x30 | [] => false end))
  && forallb is_digit name.

Definition with_path (p : JsonPath) (e : JsonError) : JsonError :=
  mkJsonError (stage e) (code e) p (source e) (expected_kind e) (actual_kind e) (err_member_name e) (target_type e)
    (requested_index e) (container_size e) (operation_index e) (operation e) (pointer e) (from_pointer_ e) (message e).

Definition index_range_error : JsonError :=
  mkJsonError Stage_lookup index_out_of_range [] None None None None None
    (Some size_max) None None None None None (B "array index out of range").

(** One segment from the node [cur]. *)
Definition at_segment (hash_env : nat -> option Z) (ds : DocumentStorage) (cur : nat) (seg : JsonPathSegment)
  : option (DocumentStorage * expected nat JsonError) :=
  n ← node_rec ds cur;
  let by_index (i : Z) :=
    arr ← as_array ds cur;
    match arr with
    | Unexpected e => Some (ds, Unexpected e)
    | Ok av => r ← element ds av i; Some (ds, r)
    end in
  match seg with
  | JsonPathMember name =>
      if kind_is n NK_array then
        if negb (all_digits name) then
          Some (ds, Unexpected (mkJsonError Stage_lookup wrong_kind [] None (Some KObject) (Some KArray)
            None None None None None None None None (B "non-numeric JSON Pointer segment on array")))
        else
          match from_chars_unsigned size_max name with
          | FcOk i consumed =>
              if negb (consumed =? length name)%nat
              then Some (ds, Unexpected index_range_error) else by_index i
          | _ => Some (ds, Unexpected index_range_error)
          end
      else
        obj ← as_object ds cur;
        match obj with
        | Unexpected e => Some (ds, Unexpected e)
        | Ok ov => member (hash_env (node_idx_ ov)) ds ov name
        end
  | JsonPathIndex index => by_index (Z.of_nat index)
  end.

(** The loop over the segments; an error carries the path up to its segment. *)
Fixpoint at_loop (hash_env : nat -> option Z) (ds : DocumentStorage) (cur : nat) (before todo : JsonPath)
  : option (DocumentStorage * expected nat JsonError) :=
  match todo with
  | [] => Some (ds, Ok cur)
  | seg :: todo' =>
      r ← at_segment hash_env ds cur seg;
      match snd r with
      | Ok j => at_loop hash_env (fst r) j (before ++ [seg]) todo'
      | Unexpected e => Some (fst r, Unexpected (with_path (before ++ [seg]) e))
      end
  end.

Definition at_path (hash_env : nat -> option Z) (ds : DocumentStorage) (cur : nat) (p : JsonPath) :=
  at_loop hash_env ds cur [] p.

Definition at_pointer (hash_env : nat -> option Z) (ds : DocumentStorage) (cur : nat) (ptr : bytes)
  : option (DocumentStorage * expected nat JsonError) :=
  match Pointer.from_pointer ptr with
  | Unexpected e => Some (ds, Unexpected e)
  | Ok p => at_path hash_env ds cur p
  end.

(** ** Pointers round trip *)

Module PointerFacts.
Import Pointer.

(** The token of a segment and the segment it reads back as. *)
Definition token (seg : JsonPathSegment) : bytes :=
  match seg with JsonPathMember name => name | JsonPathIndex i => to_dec (Z.of_nat i) end.

Lemma decode_token_escape name u acc :
  decode_token (flat_map escape_char name ++ u) acc = decode_token u (acc ++ name).
Proof.
  revert acc. induction name as [|c name IH]; intros acc; [by rewrite app_nil_r|].
  cbn [flat_map]. rewrite <- app_assoc. unfold escape_char at 1.
  destruct (byte_eqb_spec c x7e) as [->|Ht]; [|destruct (byte_eqb_spec c x2f) as [->|Hs]];
    cbn [app decode_token]; try (cbn; by rewrite IH, <- app_assoc).
  destruct (byte_eqb_spec c x7e); [done|]. cbn [negb]. by rewrite IH, <- app_assoc.
Qed.

Lemma to_dec_digits n : Forall (fun c => is_digit c = true) (to_dec (Z.of_nat n)).
Proof. apply (to_dec_spec (Z.of_nat n)). lia. Qed.

Lemma decode_digits ds acc : Forall (fun c => is_digit c = true) ds -> decode_token ds acc = Some (acc ++ ds).
Proof.
  intros H. revert acc. induction H as [|c ds Hc _ IH]; intros acc; [by rewrite app_nil_r|].
  cbn [decode_token]. destruct (byte_eqb_spec c x7e) as [->|]; [done|]. cbn [negb]. by rewrite IH, <- app_assoc.
Qed.

(** The escaped token: no slash in it, and it decodes to the token. *)
Definition escaped (seg : JsonPathSegment) : bytes :=
  match seg with
  | JsonPathMember name => flat_map escape_char name
  | JsonPathIndex i => to_dec (Z.of_nat i)
  end.

Lemma escaped_decodes seg : decode_json_pointer_token (escaped seg) = Some (token seg).
Proof.
  destruct seg as [name|i]; unfold decode_json_pointer_token; cbn [escaped token].
  - rewrite <- (app_nil_r (flat_map _ _)). by rewrite decode_token_escape.
  - by rewrite decode_digits by apply to_dec_digits.
Qed.

Lemma escaped_no_slash seg : x2f ∉ escaped seg.
Proof.
  destruct seg as [name|i]; cbn [escaped].
  - induction name as [|c name IH]; [apply not_elem_of_nil|]. cbn [flat_map]. rewrite elem_of_app.
    intros [Hin|Hin]; [|done]. unfold escape_char in Hin.
    destruct (byte_eqb_spec c x7e); [|destruct (byte_eqb_spec c x2f) as [|Hn]];
      repeat (apply elem_of_cons in Hin as [Hin|Hin]; [try done|]); try by apply not_elem_of_nil in Hin.
  - intros Hin. pose proof (to_dec_digits i) as H. rewrite Forall_forall in H. by specialize (H _ Hin).
Qed.

Lemma to_pointer_tokens p : to_pointer p = flat_map (fun seg => x2f :: escaped seg) p.
Proof. apply flat_map_ext. by intros [name|i]. Qed.

Lemma from_pointer_tokens segs pre result fuel :
  segs <> [] -> (length segs < fuel)%nat ->
  from_pointer_loop fuel (pre ++ flat_map (fun seg => x2f :: escaped seg) segs) (length pre + 1)%nat result
  = Ok (result ++ map (fun seg => JsonPathMember (token seg)) segs).
Proof.
  revert pre result fuel. induction segs as [|seg segs IH]; intros pre result fuel Hne Hf; [done|].
  destruct fuel as [|fuel]; [lia|]. cbn [flat_map from_pointer_loop].
  set (tail := flat_map (fun seg => x2f :: escaped seg) segs). set (sv := pre ++ (x2f :: escaped seg) ++ tail).
  assert (Hdrop : drop (length pre + 1) sv = escaped seg ++ tail) by (unfold sv; by rewrite drop_app_add).
  assert (Hlen : length sv = (length pre + 1 + length (escaped seg) + length tail)%nat).
  { unfold sv. rewrite !length_app. simpl. lia. }
  destruct (Nat.leb_spec (length pre + 1) (length sv)); [|lia].
  set (slash := match sv_find x2f sv (length pre + 1) with Some i => i | None => length sv end).
  assert (Hslash : slash = (length pre + 1 + length (escaped seg))%nat /\ (segs = [] -> slash = length sv)).
  { unfold slash, sv_find. rewrite Hdrop. destruct segs as [|seg' segs'].
    - unfold tail in *. simpl in *. rewrite app_nil_r in *.
      rewrite (proj2 (find_byte_None _ _) (escaped_no_slash seg)). simpl. lia.
    - unfold tail. cbn [flat_map app]. rewrite find_byte_app by apply escaped_no_slash. done. }
  destruct Hslash as [-> Hend]. unfold substr. rewrite Hdrop.
  replace (length pre + 1 + length (escaped seg) - (length pre + 1))%nat with (length (escaped seg)) by lia.
  rewrite take_app_length, escaped_decodes. destruct segs as [|seg' segs'].
  - rewrite (Hend eq_refl). destruct fuel; [done|]. cbn [from_pointer_loop].
    destruct (Nat.leb_spec (length sv + 1) (length sv)); [lia|done].
  - replace (length pre + 1 + length (escaped seg) + 1)%nat with (length (pre ++ x2f :: escaped seg) + 1)%nat
      by (rewrite length_app; simpl; lia).
    replace sv with ((pre ++ x2f :: escaped seg) ++ tail) by (unfold sv; by rewrite <- app_assoc).
    unfold tail. rewrite IH by (done || simpl in *; lia). by rewrite <- app_assoc.
Qed.

(** A pointer reads back as the tokens it was written from. *)
Lemma from_to_pointer p : from_pointer (to_pointer p) = Ok (map (fun seg => JsonPathMember (token seg)) p).
Proof.
  rewrite to_pointer_tokens. destruct p as [|seg p]; [done|].
  pose proof (from_pointer_tokens (seg :: p) [] []) as H. cbn [flat_map app length] in *. unfold from_pointer.
  cbn [negb]. rewrite byte_eqb_refl. cbn [negb]. rewrite H; [done|done|].
  cbn [length]. rewrite length_app. clear H. cut (length p <= length (flat_map (fun seg => x2f :: escaped seg) p))%nat; [simpl; lia|].
  induction p as [|q p IH]; simpl; [lia|]. rewrite length_app. lia.
Qed.

(** A decoded token is the only one with that text. *)
Lemma decode_token_inv t acc r :
  decode_token t acc = Some r -> x2f ∉ t -> exists name, r = acc ++ name /\ flat_map escape_char name = t.
Proof.
  remember (length t) as n eqn:Hn. revert t acc Hn. induction (lt_wf n) as [n _ IH]. intros t acc -> Hd Hs.
  destruct t as [|c t]; cbn [decode_token] in Hd.
  { injection Hd as <-. exists []. by rewrite app_nil_r. }
  apply not_elem_of_cons in Hs as [Hc Hs]. destruct (byte_eqb_spec c x7e) as [->|Ht]; cbn [negb] in Hd.
  - destruct t as [|e t]; [done|]. apply not_elem_of_cons in Hs as [_ Hs].
    destruct (byte_eqb_spec e x30) as [->|]; [|destruct (byte_eqb_spec e x31) as [->|]; [|done]];
      (destruct (IH (length t) ltac:(simpl; lia) t _ eq_refl Hd Hs) as (name & -> & Hname)).
    + exists (x7e :: name). rewrite <- app_assoc. cbn [flat_map]. by rewrite Hname.
    + exists (x2f :: name). rewrite <- app_assoc. cbn [flat_map]. by rewrite Hname.
  - destruct (IH (length t) ltac:(simpl; lia) t _ eq_refl Hd Hs) as (name & -> & Hname).
    exists (c :: name). rewrite <- app_assoc. cbn [flat_map]. rewrite Hname. split; [done|]. unfold escape_char.
    destruct (byte_eqb_spec c x7e); [done|]. destruct (byte_eqb_spec c x2f); [by subst|done].
Qed.

Lemma to_pointer_snoc p name : to_pointer (p ++ [JsonPathMember name]) = to_pointer p ++ x2f :: flat_map escape_char name.
Proof. unfold to_pointer. rewrite flat_map_app. simpl. by rewrite app_nil_r. Qed.

Lemma from_pointer_loop_inv fuel sv pos result p :
  from_pointer_loop fuel sv pos result = Ok p -> (length sv < fuel + pos)%nat ->
  to_pointer p = to_pointer result ++ (if (pos <=? length sv)%nat then x2f :: drop pos sv else []).
Proof.
  revert pos result. induction fuel as [|f IH]; intros pos result; cbn [from_pointer_loop].
  { intros [= <-] Hf. destruct (Nat.leb_spec pos (length sv)); [lia|]. by rewrite app_nil_r. }
  destruct (Nat.leb_spec pos (length sv)) as [Hp|]; [|intros [= <-] _; by rewrite app_nil_r].
  unfold sv_find, substr. destruct (find_byte x2f (drop pos sv)) as [k|] eqn:Ek; cbn [fmap option_fmap option_map].
  - pose proof (find_byte_lt _ _ _ Ek) as Hk. rewrite length_drop in Hk.
    apply find_byte_Some in Ek as [Heq Hno]. replace (pos + k - pos)%nat with k by lia.
    destruct (decode_json_pointer_token _) as [name|] eqn:Ed; [|done]. intros Hl Hf.
    apply decode_token_inv in Ed as (nm & -> & Hnm); [|done]. change ([] ++ nm) with nm in Hl. rewrite (IH _ _ Hl) by lia.
    rewrite to_pointer_snoc, Hnm, <- app_assoc. cbn [app]. do 2 f_equal. rewrite Heq at 2. f_equal.
    rewrite drop_drop. destruct (Nat.leb_spec (pos + k + 1) (length sv)); [|lia].
    replace (pos + S k)%nat with (pos + k + 1)%nat by lia. done.
  - apply find_byte_None in Ek. replace (length sv - pos)%nat with (length (drop pos sv)) by (rewrite length_drop; lia).
    rewrite firstn_all. destruct (decode_json_pointer_token _) as [name|] eqn:Ed; [|done]. intros Hl Hf.
    apply decode_token_inv in Ed as (nm & -> & Hnm); [|done]. change ([] ++ nm) with nm in Hl. rewrite (IH _ _ Hl) by lia.
    rewrite to_pointer_snoc, Hnm, <- app_assoc. destruct (Nat.leb_spec (length sv + 1) (length sv)); [lia|].
    by rewrite app_nil_r.
Qed.

(** A path read from a pointer is written as that pointer. *)
Lemma to_from_pointer sv p : from_pointer sv = Ok p -> to_pointer p = sv.
Proof.
  destruct sv as [|c sv]; cbn [from_pointer]; [by intros [= <-]|].
  destruct (byte_eqb_spec c x2f) as [->|]; [|done]. cbn [negb]. intros H.
  by apply from_pointer_loop_inv in H as ->; [|simpl; lia].
Qed.
End PointerFacts.

(** ** The lazy index agrees with the linear scan *)

Section lazy.
Context (ds : DocumentStorage) (ms n : nat) (Hok : members_ok ds ms n).

Definition slot_valid (sl : HashRef) : Prop :=
  match sl with HashTable t => table_inv ds ms t n | _ => True end.

(** What a thread holds: a filled table, or the answer of the linear scan. *)
Definition pc_ok (name : bytes) (pc : Pc) : Prop :=
  match pc with
  | at_publish t => table_inv ds ms t n
  | finished r => r = lookup_linear ds ms n name
  | _ => True
  end.

Lemma try_build_inv env t : try_build ds ms n env = Some t -> table_inv ds ms t n.
Proof.
  unfold try_build. destruct (Z.ltb_spec 0 (clamped_capacity (u32 (Z.of_nat n)))) as [Hc|]; [|done].
  destruct env as [seed|]; [|done]. simpl. destruct (build_table _ ds ms n) as [[] t'] eqn:Eb; [|done].
  intros [= <-]. apply (build_from_inv ds ms n 0) in Eb; [apply Eb|]. apply create_inv.
  apply clamped_capacity_range; [apply Z.mod_pos_bound; lia|done].
Qed.

Lemma step_inv name env sl pc sl' pc' :
  slot_valid sl -> pc_ok name pc -> step ds ms n name env sl pc = (sl', pc') ->
  slot_valid sl' /\ pc_ok name pc'.
Proof.
  intros Hsl Hpc. destruct pc as [|t| |r]; cbn [step].
  - destruct sl as [|t|]; intros [= <- <-].
    + split; [done|]. destruct (try_build ds ms n env) eqn:E; [by eapply try_build_inv|done].
    + split; [done|]. by apply lookup_in_linear.
    + done.
  - destruct sl as [|t'|]; intros [= <- <-]; try done; (split; [done|]); by apply lookup_in_linear.
  - intros [= <- <-]. split; [by destruct sl|done].
  - by intros [= <- <-].
Qed.

(** Once published, a slot keeps its content. *)
Lemma step_slot name env sl pc sl' pc' :
  step ds ms n name env sl pc = (sl', pc') -> sl <> HashNull -> sl' = sl.
Proof. destruct pc, sl; cbn [step]; intros H; by simplify_eq. Qed.

(** Every access of an unfinished thread brings it closer to its answer. *)
Definition left_to_do (pc : Pc) : nat :=
  match pc with at_load => 3 | at_publish _ => 2 | at_mark => 1 | finished _ => 0 end.

Lemma step_progress name env sl pc sl' pc' :
  step ds ms n name env sl pc = (sl', pc') -> (left_to_do pc' <= left_to_do pc - 1)%nat.
Proof.
  destruct pc, sl; cbn [step]; intros [= <- <-]; simpl; try lia. destruct (try_build ds ms n env); simpl; lia.
Qed.

Definition sys_ok (s : System) : Prop :=
  slot_valid (slot s) /\ Forall (fun t => pc_ok (t_name t) (t_pc t)) (threads s).

Lemma sys_step_ok s s' : sys_ok s -> sys_step ds ms n s s' -> sys_ok s'.
Proof.
  intros [Hsl Hth] Hst. destruct Hst as [s i t sl' pc' Hi Hst]. pose proof (Forall_lookup_1 _ _ _ _ Hth Hi) as Hpc.
  destruct (step_inv _ _ _ _ _ _ Hsl Hpc Hst) as [Hsl' Hpc']. split; [done|]. by apply Forall_insert.
Qed.

Lemma sys_reach_ok s s' : sys_ok s -> rtc (sys_step ds ms n) s s' -> sys_ok s'.
Proof. intros Hs Hr. induction Hr; [done|]. by eauto using sys_step_ok. Qed.

Lemma initial_ok sl reqs : slot_valid sl -> sys_ok (initial sl reqs).
Proof. intros Hsl. split; [done|]. apply Forall_fmap, Forall_true. done. Qed.

Lemma run_find_ok ov name env sl :
  mem_start_ ov = ms -> mem_count_ ov = n -> slot_valid sl ->
  exists sl', run_find ds ov name env sl = (sl', finished (lookup_linear ds ms n name)) /\ slot_valid sl'.
Proof.
  intros Hs Hc Hsl. unfold run_find. rewrite Hs, Hc.
  destruct (step ds ms n name env sl at_load) as [s1 p1] eqn:E1.
  destruct (step_inv name _ _ at_load _ _ Hsl I E1) as [H1 P1]. apply step_progress in E1 as M1.
  destruct (step ds ms n name env s1 p1) as [s2 p2] eqn:E2.
  destruct (step_inv _ _ _ _ _ _ H1 P1 E2) as [H2 P2]. apply step_progress in E2 as M2.
  destruct (step ds ms n name env s2 p2) as [s3 p3] eqn:E3.
  destruct (step_inv _ _ _ _ _ _ H2 P2 E3) as [H3 P3]. apply step_progress in E3 as M3.
  exists s3. split; [|done]. cbn [left_to_do] in M1. destruct p3; simpl in *; try lia. by rewrite P3.
Qed.

(** A schedule is a run of the system. *)
Lemma run_schedule_reach sched s : rtc (sys_step ds ms n) s (run_schedule ds ms n sched s).
Proof.
  revert s. induction sched as [|i sched IH]; intros s; [done|]. cbn [run_schedule].
  destruct (threads s !! i) as [t|] eqn:Et; [|done].
  destruct (step ds ms n (t_name t) (t_env t) (slot s) (t_pc t)) as [sl' pc'] eqn:Es.
  eapply rtc_l; [by econstructor|apply IH].
Qed.

(** A thread keeps its request and gets ahead each time it is scheduled. *)
Lemma run_schedule_thread sched s k t :
  threads s !! k = Some t ->
  exists t', threads (run_schedule ds ms n sched s) !! k = Some t' /\ t_name t' = t_name t /\
    (left_to_do (t_pc t') <= left_to_do (t_pc t) - length (filter (.= k) sched))%nat.
Proof.
  revert s t. induction sched as [|i sched IH]; intros s t Ht; cbn [run_schedule].
  { exists t. split_and!; [done|done|simpl; lia]. }
  rewrite filter_cons. destruct (threads s !! i) as [u|] eqn:Eu.
  2: { destruct (IH s t Ht) as (t' & H1 & H2 & H3). exists t'. rewrite decide_False by congruence. done. }
  destruct (step ds ms n (t_name u) (t_env u) (slot s) (t_pc u)) as [sl' pc'] eqn:Es.
  destruct (decide (i = k)) as [->|Hne].
  - rewrite Ht in Eu. injection Eu as <-. pose proof (step_progress _ _ _ _ _ _ Es).
    destruct (IH (mkSystem sl' (<[k := mkThread (t_name t) (t_env t) pc']> (threads s))) (mkThread (t_name t) (t_env t) pc'))
      as (t' & H1 & H2 & H3); [apply list_lookup_insert_eq; by eapply lookup_lt_Some|].
    exists t'. split_and!; [done|done|]. simpl in *. lia.
  - destruct (IH (mkSystem sl' (<[i := mkThread (t_name u) (t_env u) pc']> (threads s))) t) as (t' & H1 & H2 & H3);
      [cbn [threads]; by rewrite list_lookup_insert_ne|]. by exists t'.
Qed.

(** Once the slot holds a table or a failure it keeps it. *)
Lemma run_schedule_slot sched s : slot s <> HashNull -> slot (run_schedule ds ms n sched s) = slot s.
Proof.
  revert s. induction sched as [|i sched IH]; intros s Hs; [done|]. cbn [run_schedule].
  destruct (threads s !! i) as [t|]; [|by apply IH].
  destruct (step ds ms n (t_name t) (t_env t) (slot s) (t_pc t)) as [sl' pc'] eqn:Es.
  pose proof (step_slot _ _ _ _ _ _ Es Hs) as ->. by rewrite IH.
Qed.
End lazy.

(** ** Publishing an index changes no value *)

Lemma node_is_other ds k h i kd (P : Node -> Prop) :
  (forall n, nodes ds !! k = Some n -> kind n = NK_object) -> kd <> NK_object ->
  node_is ds i kd P -> node_is (set_slot_of k h ds) i kd P.
Proof.
  intros Hk Hne (n & Hn & Hkd & HP). exists n. split_and!; [|done|done]. simpl.
  rewrite list_lookup_alter_ne; [done|]. intros ->. specialize (Hk n Hn). congruence.
Qed.

Lemma hash_ok_same_members a b n :
  object_members b = object_members a -> (forall m, member_name b m = member_name a m) ->
  hash_ok a n -> hash_ok b n.
Proof.
  intros Hm Hn. unfold hash_ok. destruct (payload n) as [| | | | |[|t|]]; try done.
  apply table_inv_names. intros j _. unfold nth_name. rewrite Hm. destruct (object_members a !! _); [|done]. by rewrite Hn.
Qed.

Lemma denotes_set_slot ds k h i v :
  (forall n, nodes ds !! k = Some n -> kind n = NK_object /\ hash_ok ds (set_hash h n)) ->
  denotes ds i v -> denotes (set_slot_of k h ds) i v.
Proof.
  intros Hk. assert (Hk' : forall n, nodes ds !! k = Some n -> kind n = NK_object) by (intros n Hn; by apply Hk).
  revert i. induction v as [|b|lex|s|vs IH|ms IH] using jval_nested_ind; intros i; cbn [denotes];
    try by apply node_is_other.
  - intros H. apply (node_is_other ds k h) in H as (n & Hn & Hkd & Hl & Ha); [|done|done].
    exists n. split_and!; [done|done|done|]. eapply all2_impl; [|exact Ha].
    eapply Forall_impl; [exact IH|]. intros w Hw c [Hc Hd]. split; [done|by apply Hw].
  - intros (n & Hn & Hkd & Hl & Hh & Ha).
    assert (Ha' : all2 (fun m x => let '(nm, w) := x in member_ref (set_slot_of k h ds) m nm /\
      (val_node m < i)%nat /\ denotes (set_slot_of k h ds) (val_node m) w)
      (slice (object_members ds) (off n) (len n)) ms).
    { eapply all2_impl; [|exact Ha]. eapply Forall_impl; [exact IH|]. intros [nm w] Hw m (Hr & Hv & Hd).
      split_and!; [exact Hr|done|by apply Hw]. }
    destruct (decide (i = k)) as [->|Hne].
    + exists (set_hash h n). split_and!; [simpl; by rewrite list_lookup_alter_eq, Hn|done|done| |exact Ha'].
      eapply hash_ok_same_members; [| |by apply Hk]; done.
    + exists n. split_and!; [simpl; by rewrite list_lookup_alter_ne|done|done| |exact Ha'].
      by eapply hash_ok_same_members; [| |exact Hh].
Qed.

(** ** Members by name *)

Lemma find_name_first {A} nm (ms : list (bytes * A)) k w :
  ms !! k = Some (nm, w) -> (forall q x, (q < k)%nat -> ms !! q = Some x -> fst x <> nm) ->
  find_name nm ms = Some k.
Proof.
  revert k. induction ms as [|[nm' w'] ms IH]; intros k Hk Hq; [done|]. cbn [find_name]. destruct k as [|k].
  - injection Hk as -> ->. by rewrite bytes_eqb_refl.
  - destruct (bytes_eqb nm' nm) eqn:E.
    + bool_simp. subst nm'. by destruct (Hq 0%nat (nm, w') ltac:(lia) eq_refl).
    + rewrite (IH k); [done|done|]. intros q x Hlt Hx. by apply (Hq (S q)); [lia|].
Qed.

Section object.
Context (ds : DocumentStorage) (i : nat) (n : Node) (ms : list (bytes * jval)).
Context (Hn : nodes ds !! i = Some n) (Hlen : length ms = len n) (Hh : hash_ok ds n).
Context (Hall : Forall2 (fun m x => let '(nm, w) := x in
  member_ref ds m nm /\ (val_node m < i)%nat /\ denotes ds (val_node m) w)
  (slice (object_members ds) (off n) (len n)) ms).

Lemma object_member j x : ms !! j = Some x -> exists m, object_members ds !! (off n + j)%nat = Some m /\
  member_ref ds m (fst x) /\ (val_node m < i)%nat /\ denotes ds (val_node m) (snd x).
Proof.
  intros Hj. destruct (Forall2_lookup_r _ _ _ _ _ Hall Hj) as (m & Hm & Hr). destruct x as [nm w].
  exists m. split; [by eapply slice_lookup|done].
Qed.

Lemma object_name j x : ms !! j = Some x -> nth_name ds (off n) j = fst x.
Proof.
  intros Hj. destruct (object_member j x Hj) as (m & Hm & Hr & _). unfold nth_name. rewrite Hm. by apply member_name_ref.
Qed.

Lemma object_members_ok : members_ok ds (off n) (len n).
Proof.
  intros j Hj. destruct (lookup_lt_is_Some_2 ms j) as [x Hx]; [lia|].
  destruct (object_member j x Hx) as (m & Hm & Hr & _). exists m. split; [done|].
  rewrite (member_name_ref _ _ _ Hr). destruct Hr as [[[_ Hl] _] Hb]. done.
Qed.

(** The linear scan finds the first member of the name. *)
Lemma lookup_linear_find name :
  match lookup_linear ds (off n) (len n) name with
  | Some c => exists k w, find_name name ms = Some k /\ ms !! k = Some (name, w) /\ (c < i)%nat /\ denotes ds c w
  | None => find_name name ms = None
  end.
Proof.
  pose proof (lookup_linear_spec ds (off n) (len n) 0 name object_members_ok) as H.
  unfold lookup_linear. destruct (lookup_linear_from ds (off n) (len n) 0 name) as [c|].
  - destruct H as (j & m & Hj & Hm & -> & Hnm & Hfirst).
    destruct (lookup_lt_is_Some_2 ms j) as [[nm w] Hx]; [lia|].
    assert (nm = name) as -> by (rewrite <- Hnm; symmetry; by apply (object_name j (nm, w))).
    destruct (object_member j _ Hx) as (m' & Hm' & _ & Hv & Hd). rewrite Hm in Hm'. injection Hm' as <-.
    exists j, w. split_and!; [|done|done|done]. apply (find_name_first _ _ _ w); [done|].
    intros q x Hq Hqx. rewrite <- (object_name q x Hqx). apply Hfirst. lia.
  - apply find_name_absent. intros Hin. apply list_elem_of_lookup in Hin as [j Hj].
    apply list_lookup_fmap_Some in Hj as (x & -> & Hx). apply (H j); [|by apply object_name].
    apply lookup_lt_Some in Hx. lia.
Qed.
End object.

(** ** Lookups on values *)

Definition jelement (vs : list jval) (i : Z) : expected jval JsonIssueCode :=
  if Z.of_nat (length vs) <=? i then Unexpected index_out_of_range
  else match vs !! Z.to_nat i with Some w => Ok w | None => Unexpected index_out_of_range end.

Definition jmember (ms : list (bytes * jval)) (name : bytes) : expected jval JsonIssueCode :=
  match find_name name ms with
  | Some k => match ms !! k with Some (_, w) => Ok w | None => Unexpected missing_member end
  | None => Unexpected missing_member
  end.

(** RFC 6901 evaluation of one segment. *)
Definition jat_segment (v : jval) (seg : JsonPathSegment) : expected jval JsonIssueCode :=
  match seg, v with
  | JsonPathMember name, JArr vs =>
      if negb (all_digits name) then Unexpected wrong_kind
      else if size_max <? dec_value name then Unexpected index_out_of_range
      else jelement vs (dec_value name)
  | JsonPathMember name, JObj ms => jmember ms name
  | JsonPathIndex i, JArr vs => jelement vs (Z.of_nat i)
  | _, _ => Unexpected wrong_kind
  end.

Fixpoint jat (v : jval) (p : JsonPath) : expected jval JsonIssueCode :=
  match p with
  | [] => Ok v
  | seg :: p' => match jat_segment v seg with Ok w => jat w p' | Unexpected c => Unexpected c end
  end.

(** Nothing a document denotes is lost. *)
Definition keeps (ds ds' : DocumentStorage) : Prop := forall j w, denotes ds j w -> denotes ds' j w.

(** The outcome of a lookup against its value. *)
Definition lookup_ok (ds : DocumentStorage) (res : option (DocumentStorage * expected nat JsonError))
  (spec : expected jval JsonIssueCode) : Prop :=
  exists ds' r, res = Some (ds', r) /\ keeps ds ds' /\
    match r with
    | Ok j => exists w, spec = Ok w /\ denotes ds' j w
    | Unexpected e => spec = Unexpected (code e)
    end.

Lemma find_member_ok env ds i ms name :
  denotes ds i (JObj ms) ->
  exists n ds' r, nodes ds !! i = Some n /\ kind n = NK_object /\
    find_member env ds (mkObjectView (off n) (len n) i) name = Some (ds', r) /\ keeps ds ds' /\
    match r with
    | Some c => exists w, jmember ms name = Ok w /\ denotes ds c w
    | None => jmember ms name = Unexpected missing_member
    end.
Proof.
  intros (n & Hn & Hk & Hlen & Hh & Hall%all2_Forall2). exists n.
  pose proof (lookup_linear_find ds i n ms Hlen Hall name) as Hlin.
  assert (Hres : match lookup_linear ds (off n) (len n) name with
    | Some c => exists w, jmember ms name = Ok w /\ denotes ds c w
    | None => jmember ms name = Unexpected missing_member end).
  { unfold jmember. destruct (lookup_linear ds (off n) (len n) name) as [c|].
    - destruct Hlin as (k & w & -> & -> & _ & Hd). by exists w.
    - by rewrite Hlin. }
  unfold find_member. cbn [mem_start_ mem_count_ node_idx_]. destruct (len n <? kHashThreshold)%nat.
  { eexists _, _. split_and!; [done|done|done|by intros ? ?|done]. }
  rewrite Hn. simpl. unfold hash_ok in Hh. destruct (payload n) as [| | | | |sl] eqn:Ep; try done.
  destruct (run_find_ok ds (off n) (len n) (object_members_ok ds i n ms Hlen Hall)
    (mkObjectView (off n) (len n) i) name env sl eq_refl eq_refl) as (sl' & -> & Hsl'); [by destruct sl|].
  eexists _, _. split_and!; [done|done|done| |exact Hres].
  intros j w. apply denotes_set_slot. intros n' Hn'. rewrite Hn in Hn'. injection Hn' as <-. split; [done|].
  unfold hash_ok. simpl. by destruct sl'.
Qed.

Lemma kind_is_spec n k : kind_is n k = true <-> kind n = k.
Proof. unfold kind_is. split; [by destruct (kind n), k|intros ->; by destruct k]. Qed.

Lemma kind_is_false n k : kind n <> k -> kind_is n k = false.
Proof. intros H. destruct (kind_is n k) eqn:E; [|done]. by apply kind_is_spec in E. Qed.

(** The node kind a value has. *)
Definition nk_of (v : jval) : NodeKind :=
  match v with
  | JNull => NK_null | JBool _ => NK_boolean | JNum _ => NK_number
  | JStr _ => NK_string | JArr _ => NK_array | JObj _ => NK_object
  end.

Lemma denotes_kind ds i v : denotes ds i v -> exists n, nodes ds !! i = Some n /\ kind n = nk_of v.
Proof. destruct v; intros (n & Hn & Hk & _); by exists n. Qed.

(** An element of an array, or the error for a node of another kind. *)
Lemma by_index_ok ds cur v i :
  denotes ds cur v -> 0 <= i ->
  lookup_ok ds (arr ← as_array ds cur;
    match arr with
    | Unexpected e => Some (ds, Unexpected e)
    | Ok av => r ← element ds av i; Some (ds, r)
    end)
    (match v with JArr vs => jelement vs i | _ => Unexpected wrong_kind end).
Proof.
  intros Hd Hi. destruct (denotes_kind _ _ _ Hd) as (n & Hn & Hk). unfold as_array, node_rec. rewrite Hn.
  cbn [mbind option_bind]. destruct v as [| | | |vs|];
    try (rewrite (kind_is_false n NK_array) by (rewrite Hk; done); eexists _, _; split_and!; [done|by intros ? ?|done]).
  rewrite (proj2 (kind_is_spec n NK_array) Hk). cbn [negb mbind option_bind]. unfold element. cbn [child_count_ child_start_].
  destruct Hd as (n' & Hn' & _ & Hlen & Ha). rewrite Hn in Hn'. injection Hn' as <-. rewrite <- Hlen. unfold jelement.
  destruct (Z.leb_spec (Z.of_nat (length vs)) i); [eexists _, _; split_and!; [done|by intros ? ?|done]|].
  destruct (lookup_lt_is_Some_2 vs (Z.to_nat i)) as [w Hw]; [lia|]. rewrite Hw. apply all2_Forall2 in Ha.
  destruct (Forall2_lookup_r _ _ _ _ _ Ha Hw) as (c & Hc & _ & Hdc). apply slice_lookup in Hc. rewrite Hc.
  eexists _, _. split_and!; [done|by intros ? ?|by exists w].
Qed.

Lemma at_segment_ok hash_env ds cur v seg :
  denotes ds cur v -> lookup_ok ds (at_segment hash_env ds cur seg) (jat_segment v seg).
Proof.
  intros Hd. destruct (denotes_kind _ _ _ Hd) as (n & Hn & Hk). unfold at_segment, node_rec at 1. rewrite Hn.
  cbn [mbind option_bind]. destruct seg as [name|index].
  2: { pose proof (by_index_ok ds cur v (Z.of_nat index) Hd ltac:(lia)) as H. by destruct v. }
  destruct (kind_is n NK_array) eqn:Ek.
  - apply kind_is_spec in Ek. assert (exists vs, v = JArr vs) as [vs ->] by (destruct v; simpl in *; try congruence; by eexists).
    cbn [jat_segment]. destruct (all_digits name) eqn:Ea; cbn [negb]; [|eexists _, _; split_and!; [done|by intros ? ?|done]].
    unfold all_digits in Ea. rewrite !andb_true_iff in Ea. destruct Ea as [[Hne _] Hdig]. apply forallb_Forall in Hdig.
    unfold from_chars_unsigned. rewrite span_all by done.
    destruct name as [|c name']; [done|]. set (nm := c :: name') in *.
    destruct (size_max <? dec_value nm); [eexists _, _; split_and!; [done|by intros ? ?|done]|].
    rewrite Nat.eqb_refl. cbn [negb]. apply (by_index_ok ds cur (JArr vs) _ Hd). by apply dec_value_nonneg.
  - unfold as_object, node_rec. rewrite Hn. cbn [mbind option_bind].
    destruct v as [| | | |vs|ms];
      try (rewrite (kind_is_false n NK_object) by (rewrite Hk; done); eexists _, _; split_and!; [done|by intros ? ?|done]).
    + rewrite (proj2 (kind_is_spec n NK_array) Hk) in Ek. done.
    + rewrite (proj2 (kind_is_spec n NK_object) Hk). cbn [negb mbind option_bind node_idx_].
      destruct (find_member_ok (hash_env cur) ds cur ms name Hd) as (n' & ds' & r & Hn' & _ & Hf & Hkeep & Hr).
      rewrite Hn in Hn'. injection Hn' as <-. unfold member. rewrite Hf. cbn [mbind option_bind fst snd jat_segment].
      destruct r as [c|]; eexists _, _; (split; [done|split; [done|]]).
      * destruct Hr as (w & -> & Hw). exists w. split; [done|by apply Hkeep].
      * done.
Qed.

Lemma at_loop_ok hash_env p ds cur v before :
  denotes ds cur v -> lookup_ok ds (at_loop hash_env ds cur before p) (jat v p).
Proof.
  revert ds cur v before. induction p as [|seg p IH]; intros ds cur v before Hd; cbn [at_loop jat].
  - eexists _, _. split_and!; [done|by intros ? ?|by exists v].
  - destruct (at_segment_ok hash_env ds cur v seg Hd) as (ds1 & r & -> & Hk1 & Hr). cbn [mbind option_bind fst snd].
    destruct r as [j|e].
    + destruct Hr as (w & -> & Hw). destruct (IH ds1 j w (before ++ [seg]) Hw) as (ds2 & r2 & -> & Hk2 & Hr2).
      eexists _, _. split_and!; [done| |done]. intros j' w' Hd'. by apply Hk2, Hk1.
    + rewrite Hr. eexists _, _. split_and!; [done|done|done].
Qed.

(** ** Paths and pointers lead to the same place *)

Lemma to_dec_fuel_head n z acc :
  1 <= z -> (Z.to_nat (Z.log2 z) < n)%nat -> exists c t, to_dec_fuel n z acc = c :: t /\ c <> x30.
Proof.
  revert z acc. induction n as [|n IH]; intros z acc Hz Hn; [lia|]. cbn [to_dec_fuel].
  destruct (Z.ltb_spec z 10).
  - eexists _, _. split; [done|]. intros Hc. apply (f_equal byteZ) in Hc. rewrite byteZ_byte_of_Z in Hc.
    rewrite (Z.mod_small z 10), Z.mod_small in Hc by lia. change (byteZ x30) with 48 in Hc. lia.
  - apply IH; [apply Z.div_le_lower_bound; lia|].
    assert (Z.log2 (z / 10) < Z.log2 z); [|pose proof (Z.log2_nonneg (z / 10)); lia].
    apply Z.log2_lt_pow2; [apply Z.div_str_pos; lia|]. pose proof (Z.log2_spec z ltac:(lia)) as [_ H1].
    apply Z.div_lt_upper_bound; [lia|]. rewrite Z.pow_succ_r in H1 by apply Z.log2_nonneg. lia.
Qed.

Lemma to_dec_all_digits n : all_digits (to_dec (Z.of_nat n)) = true.
Proof.
  destruct (to_dec_spec (Z.of_nat n) ltac:(lia)) as (Hne & Hd & _). unfold all_digits.
  assert (forallb is_digit (to_dec (Z.of_nat n)) = true) as -> by (by apply forallb_Forall).
  rewrite andb_true_r, andb_true_iff. split.
  - destruct (bytes_eqb _ []) eqn:E; [|done]. by bool_simp.
  - destruct n as [|n]; [done|]. unfold to_dec.
    destruct (to_dec_fuel_head (S (Z.to_nat (Z.log2 (Z.of_nat (S n))))) (Z.of_nat (S n)) []) as (c & t & -> & Hc); [lia|lia|].
    destruct (byte_eqb_spec c x30); [done|]. apply orb_true_r.
Qed.

Definition index_fits (seg : JsonPathSegment) : Prop :=
  match seg with JsonPathIndex i => Z.of_nat i <= size_max | _ => True end.

Lemma jat_tokens v p w :
  Forall index_fits p -> jat v p = Ok w ->
  jat v (map (fun seg => JsonPathMember (PointerFacts.token seg)) p) = Ok w.
Proof.
  intros Hp. revert v. induction Hp as [|seg p Hseg _ IH]; intros v; [done|]. cbn [jat map].
  destruct (jat_segment v seg) as [u|c] eqn:E; [|done]. intros Hw. destruct seg as [name|i].
  - cbn [PointerFacts.token]. rewrite E. by apply IH.
  - cbn [PointerFacts.token]. destruct v as [| | | |vs|]; try done. cbn [jat_segment] in *.
    rewrite to_dec_all_digits. cbn [negb]. destruct (to_dec_spec (Z.of_nat i) ltac:(lia)) as (_ & _ & ->).
    simpl in Hseg. destruct (Z.ltb_spec size_max (Z.of_nat i)); [lia|]. rewrite E. by apply IH.
Qed.
