(* ===== verification/JsonDomOk.v ===== *)
(** * JSON module: properties of document access

    Lookups in parsed documents: the index that threads build on first use,
    paths and JSON Pointers. *)

From Stdlib Require Import ZArith Lia Strings.Byte String.
From stdpp Require Import base tactics option numbers list relations.
From S2P Require Import Prelude JsonTypes JsonStorage JsonNumber JsonHash JsonSpec JsonTokenizer JsonParse JsonDenote JsonParseOk JsonValid JsonRoundTrip JsonDom.
Import LazyIndex.

(** The answer of a lookup of [name] among the members [ms]. *)
Definition answers (ds : DocumentStorage) (ms : list (bytes * jval)) (name : bytes) (r : option nat) : Prop :=
  match r with
  | Some c => exists w, jmember ms name = Ok w /\ denotes ds c w
  | None => jmember ms name = Unexpected missing_member
  end.

(** What a linear scan finds in a stored object. *)
Lemma lookup_linear_answers ds i n ms name :
  denotes ds i (JObj ms) -> nodes ds !! i = Some n ->
  answers ds ms name (lookup_linear ds (off n) (len n) name).
Proof.
  intros (n' & Hn & _ & Hlen & _ & Hall%all2_Forall2) Hn'. rewrite Hn' in Hn. injection Hn as <-.
  pose proof (lookup_linear_find ds i n ms Hlen Hall name) as Hlin. unfold answers, jmember.
  destruct (lookup_linear ds (off n) (len n) name) as [c|].
  - destruct Hlin as (k & w & -> & -> & _ & Hd). by exists w.
  - by rewrite Hlin.
Qed.

Lemma denotes_slot ds i n ms sl :
  denotes ds i (JObj ms) -> nodes ds !! i = Some n -> payload n = hash_idx_raw sl ->
  members_ok ds (off n) (len n) /\ slot_valid ds (off n) (len n) sl.
Proof.
  intros (n' & Hn & _ & Hlen & Hh & Hall%all2_Forall2) Hn' Hp. rewrite Hn' in Hn. injection Hn as <-.
  split; [by apply (object_members_ok ds i n ms)|]. unfold hash_ok in Hh. rewrite Hp in Hh. by destruct sl.
Qed.

(** C18: the index built on first use is correct under every interleaving of any
    number of threads, whatever their allocations and seeds. A thread that has
    been scheduled three times has its answer, and the answer is the first
    member with its name, or none. Once the slot holds a table it keeps it. *)
Theorem lazy_index_correct ds i n ms sl reqs sched k name env :
  denotes ds i (JObj ms) -> nodes ds !! i = Some n -> payload n = hash_idx_raw sl ->
  reqs !! k = Some (name, env) -> (3 <= length (filter (.= k) sched))%nat ->
  let run := run_schedule ds (off n) (len n) in
  (exists t r, threads (run sched (initial sl reqs)) !! k = Some t /\ t_pc t = finished r /\ answers ds ms name r) /\
  (forall more, slot (run sched (initial sl reqs)) <> HashNull ->
     slot (run more (run sched (initial sl reqs))) = slot (run sched (initial sl reqs))).
Proof.
  intros Hd Hn Hp Hk Hcount run. destruct (denotes_slot _ _ _ _ _ Hd Hn Hp) as [Hok Hsl].
  split; [|intros more; apply run_schedule_slot].
  destruct (run_schedule_thread ds (off n) (len n) sched (initial sl reqs) k (mkThread name env at_load))
    as (t & Ht & Hname & Hleft); [unfold initial; cbn [threads]; by rewrite list_lookup_fmap, Hk|].
  destruct (sys_reach_ok ds (off n) (len n) Hok _ _ (initial_ok ds (off n) (len n) sl reqs Hsl)
    (run_schedule_reach ds (off n) (len n) sched _)) as [_ Hth].
  pose proof (Forall_lookup_1 _ _ _ _ Hth Ht) as Hpc. cbn [t_pc t_name left_to_do] in *.
  destruct (t_pc t) as [| | |r] eqn:Epc; simpl in Hleft; try lia.
  exists t, r. split_and!; [done|done|]. simpl in Hpc. rewrite Hpc, Hname. by apply (lookup_linear_answers ds i).
Qed.

Definition two_reqs : list (bytes * option Z) := [(B "b", Some 11); (B "z", None)].
Definition two_sched : list nat := [0; 1; 0; 1; 1; 0]%nat.
Definition sample_root : Node := default make_null (nodes sample_ds !! root_node sample_ds).
Definition sample_members : list (bytes * jval) := match sample_value with JObj ms => ms | _ => [] end.

Lemma lazy_index_correct_witness :
  let run := run_schedule sample_ds (off sample_root) (len sample_root) in
  (exists t r, threads (run two_sched (initial HashNull two_reqs)) !! 0%nat = Some t /\ t_pc t = finished r /\
     answers sample_ds sample_members (B "b") r) /\
  (forall more, slot (run two_sched (initial HashNull two_reqs)) <> HashNull ->
     slot (run more (run two_sched (initial HashNull two_reqs))) = slot (run two_sched (initial HashNull two_reqs))).
Proof.
  apply (lazy_index_correct sample_ds (root_node sample_ds) sample_root sample_members HashNull two_reqs two_sched
    0%nat (B "b") (Some 11)).
  - apply (parse_denotes (fun _ => None) default_parse_options sample_input); vm_compute; reflexivity.
  - vm_compute. reflexivity.
  - vm_compute. reflexivity.
  - reflexivity.
  - vm_compute. lia.
Defined.

(** ** Pointers *)

(** [from_pointer] and [to_pointer] are inverse: an accepted pointer is the
    text of the path it reads as, and the text of any path is accepted, as the
    path of its tokens. *)
Theorem pointer_roundtrip sv p :
  (Pointer.from_pointer sv = Ok p -> Pointer.to_pointer p = sv) /\
  Pointer.from_pointer (Pointer.to_pointer p) = Ok (map (fun seg => JsonPathMember (PointerFacts.token seg)) p).
Proof. split; [apply PointerFacts.to_from_pointer|apply PointerFacts.from_to_pointer]. Qed.

(** The value a pointer selects. *)
Definition jat_pointer (v : jval) (ptr : bytes) : expected jval JsonIssueCode :=
  match Pointer.from_pointer ptr with Ok p => jat v p | Unexpected e => Unexpected (code e) end.

Lemma at_pointer_lookup hash_env ds v ptr :
  denotes ds (root_node ds) v -> lookup_ok ds (at_pointer hash_env ds (root_node ds) ptr) (jat_pointer v ptr).
Proof.
  intros Hd. unfold at_pointer, jat_pointer. destruct (Pointer.from_pointer ptr) as [p|e].
  - by apply at_loop_ok.
  - eexists _, _. split_and!; [done|by intros ? ?|done].
Qed.

(** C38: [at] on a parsed document evaluates the pointer on the value of the
    document: it never reads outside the storage, it finds the node of the
    selected value or fails with the reference error, and the indices it builds
    on the way change nothing the document denotes. *)
Theorem at_pointer_correct hash_env hash_env' o input ds ptr :
  parse hash_env o input = Ret ds ->
  exists v, parse_spec o input = Ok v /\
    lookup_ok ds (at_pointer hash_env' ds (root_node ds) ptr) (jat_pointer v ptr).
Proof. intros (v & Hs & Hd)%parse_result. exists v. split; [done|by apply at_pointer_lookup]. Qed.

Lemma at_pointer_correct_witness :
  exists v, parse_spec default_parse_options sample_input = Ok v /\
    lookup_ok sample_ds (at_pointer (fun _ => None) sample_ds (root_node sample_ds) (B "/b/c")) (jat_pointer v (B "/b/c")).
Proof.
  apply (at_pointer_correct (fun _ => None)). vm_compute. reflexivity.
Defined.

(** a path and the pointer written from it lead to the same value, array
    indices included. *)
Theorem path_pointer_agree hash_env ds v p w :
  denotes ds (root_node ds) v -> Forall index_fits p -> jat v p = Ok w ->
  exists ds' j, at_pointer hash_env ds (root_node ds) (Pointer.to_pointer p) = Some (ds', Ok j) /\ denotes ds' j w.
Proof.
  intros Hd Hp Hw. destruct (at_pointer_lookup hash_env ds v (Pointer.to_pointer p) Hd) as (ds' & r & Hr & _ & Hres).
  unfold jat_pointer in Hres. rewrite PointerFacts.from_to_pointer, (jat_tokens v p w) in Hres by done.
  destruct r as [j|e]; [|done]. destruct Hres as (w' & [= <-] & Hj). by exists ds', j.
Qed.

Definition sample_path : JsonPath := [JsonPathMember (B "a"); JsonPathIndex 1].

Lemma path_pointer_agree_witness :
  exists ds' j, at_pointer (fun _ => None) sample_ds (root_node sample_ds) (Pointer.to_pointer sample_path) = Some (ds', Ok j) /\
    denotes ds' j (JNum (B "-2.5e3")).
Proof.
  apply (path_pointer_agree (fun _ => None) sample_ds sample_value sample_path).
  - apply (parse_denotes (fun _ => None) default_parse_options sample_input); vm_compute; reflexivity.
  - repeat constructor; vm_compute; discriminate.
  - vm_compute. reflexivity.
Defined.

(** ** Typed accessors *)

Lemma jnumber_form lex b b' : jnumber lex b -> jnumber lex b' -> b = b'.
Proof.
  intros H H'. pose proof (scan_number_complete lex b [] H I) as E. pose proof (scan_number_complete lex b' [] H' I) as E'.
  rewrite E in E'. by injection E'.
Qed.

(** The text of a stored number or string is the one its node refers to. *)
Lemma as_number_view ds i lex :
  denotes ds i (JNum lex) ->
  exists n b, nodes ds !! i = Some n /\ jnumber lex b /\ number_node (off n) (len n) kRawInput lex b n /\
    as_number ds i = Some (Ok (node_view lex n)).
Proof.
  intros (n & Hn & Hk & Ht & b & Hj & Hnn). exists n, b. split_and!; [done..|].
  unfold as_number, node_rec. rewrite Hn. cbn [mbind option_bind].
  rewrite (proj2 (kind_is_spec n NK_number) Hk). cbn [negb]. destruct Ht as [Hb _]. unfold node_view. by rewrite Hb.
Qed.

(** C34: the integer accessors are exact. On the node of a number they return
    its integer value precisely when the number has integer form and the value
    fits the type (and, for [as_u64], has no minus sign), and an error
    otherwise; they never round, wrap or truncate. *)
Theorem integer_accessors_exact ds i lex b z :
  denotes ds i (JNum lex) -> jnumber lex b ->
  (as_i64 ds i = Some (Ok z) <-> b = true /\ z = int_value lex /\ - 2 ^ 63 <= int_value lex < 2 ^ 63) /\
  (as_u64 ds i = Some (Ok z) <->
     b = true /\ negative_lexeme lex = false /\ z = int_value lex /\ int_value lex < 2 ^ 64).
Proof.
  intros Hd Hj. destruct (as_number_view ds i lex Hd) as (n & b' & Hn & Hj' & Hnn & Hv).
  rewrite <- (jnumber_form lex b b' Hj Hj') in Hnn. unfold as_i64, as_u64, and_then. rewrite Hv. cbn [mbind option_bind].
  assert (Hsf : storage_only kRawInput) by (by right). split.
  - pose proof (node_view_i64 kRawInput lex _ _ b n z Hsf Hnn) as H. unfold int64_min, int64_max in H.
    split; [intros [= Hz]; apply H in Hz; intuition lia|]. intros (Hb & Hz & Hr). f_equal. apply H. intuition lia.
  - pose proof (node_view_u64 kRawInput lex _ _ b n z Hsf Hnn) as H. unfold uint64_max in H.
    assert (Hpos : negative_lexeme lex = false -> b = true -> 0 <= int_value lex).
    { intros Hneg ->. by apply int_value_nonneg. }
    specialize (H Hpos).
    split; [intros [= Hz]; apply H in Hz; intuition lia|]. intros (Hb & Hneg & Hz & Hr). f_equal. apply H. intuition lia.
Qed.

Definition max_input : bytes := B "18446744073709551615".
Definition max_ds : DocumentStorage :=
  match parse (fun _ => None) default_parse_options max_input with Ret ds => ds | _ => empty_storage end.

Lemma integer_accessors_exact_witness :
  (as_i64 max_ds (root_node max_ds) = Some (Ok (2 ^ 64 - 1)) <->
     true = true /\ 2 ^ 64 - 1 = int_value max_input /\ - 2 ^ 63 <= int_value max_input < 2 ^ 63) /\
  (as_u64 max_ds (root_node max_ds) = Some (Ok (2 ^ 64 - 1)) <->
     true = true /\ negative_lexeme max_input = false /\ 2 ^ 64 - 1 = int_value max_input /\ int_value max_input < 2 ^ 64).
Proof.
  apply (integer_accessors_exact max_ds (root_node max_ds) max_input true (2 ^ 64 - 1)).
  - apply (parse_denotes (fun _ => None) default_parse_options max_input); vm_compute; reflexivity.
  - apply (scan_number_sound max_input max_input true []). vm_compute. reflexivity.
Defined.

(** the accessors of the other scalars return the value of a node of their
    kind and [wrong_kind] for every other kind. *)
Theorem scalar_accessors_correct ds i v :
  denotes ds i v ->
  match as_bool ds i with
  | Some (Ok b) => v = JBool b
  | Some (Unexpected e) => code e = wrong_kind /\ forall b, v <> JBool b
  | None => False
  end /\
  match as_string ds i with
  | Some (Ok s) => v = JStr s
  | Some (Unexpected e) => code e = wrong_kind /\ forall s, v <> JStr s
  | None => False
  end.
Proof.
  intros Hd. destruct (denotes_kind _ _ _ Hd) as (n & Hn & Hk). unfold as_bool, as_string, node_rec. rewrite Hn.
  cbn [mbind option_bind]. unfold kind_is. rewrite Hk.
  destruct v as [|b|lex|s|vs|ms]; cbn [nk_of negb code wrong_kind_error]; split; try done;
    destruct Hd as (n' & Hn' & _ & H); rewrite Hn in Hn'; injection Hn' as <-.
  - by rewrite H.
  - f_equal. by destruct H as [[Hb _] _].
Qed.

Lemma scalar_accessors_correct_witness :
  match as_bool accent_ds 0 with
  | Some (Ok b) => JStr [xc3; xa9] = JBool b
  | Some (Unexpected e) => code e = wrong_kind /\ forall b, JStr [xc3; xa9] <> JBool b
  | None => False
  end /\
  match as_string accent_ds 0 with
  | Some (Ok s) => JStr [xc3; xa9] = JStr s
  | Some (Unexpected e) => code e = wrong_kind /\ forall s, JStr [xc3; xa9] <> JStr s
  | None => False
  end.
Proof.
  apply (scalar_accessors_correct accent_ds 0 (JStr [xc3; xa9])).
  change 0%nat with (root_node accent_ds).
  apply (parse_denotes (fun _ => None) default_parse_options accent_input); vm_compute; reflexivity.
Defined.

(** An integer of 311 digits. *)
Definition huge_integer : bytes := x31 :: repeat x30 310.

(** Parse a text and read its root as an [int64_t]: the code of the error. *)
Definition i64_error_code (input : bytes) : option JsonIssueCode :=
  match parse (fun _ => None) default_parse_options input with
  | Ret ds => match as_i64 ds (root_node ds) with Some (Unexpected e) => Some (code e) | _ => None end
  | _ => None
  end.

(** an integer beyond the range of [double] loses its integer form: reading
    it as an [int64_t] fails with [invalid_number], while one that is merely
    beyond the range of [int64_t] fails with [number_out_of_range]. *)
Theorem huge_integer_misclassified :
  (exists b, jnumber huge_integer b /\ b = true) /\
  i64_error_code huge_integer = Some invalid_number /\
  i64_error_code (B "100000000000000000000") = Some number_out_of_range.
Proof.
  split_and!; [|vm_compute; reflexivity..]. exists true. split; [|done].
  apply (scan_number_sound huge_integer huge_integer true []). vm_compute. reflexivity.
Qed.
