(* ===== verification/Http1.v ===== *)
(** * The HTTP/1 request parser

    [src/src/net/http1_parser.cxx]: [parse_request] over the bytes received so
    far. [Head] holds the translation, [Grammar] the request heads of RFC 9112
    it accepts. The theorems show that the parser accepts exactly those heads
    within its limits, that bytes after the head do not change the result, and
    that a head that arrives in pieces is waited for. *)

From Stdlib Require Import ZArith Lia Strings.Byte String.
From stdpp Require Import base tactics option numbers list.
From S2P Require Import Prelude.

Module Head.

(** [conflux::http::ParserLimits]; the limits are only compared with sizes. *)
Record ParserLimits := mkLimits {
  max_request_line_size : nat;
  max_header_line_size : nat;
  max_headers : nat;
  max_header_block_size : nat;
  max_chunks : nat
}.

Inductive ParseStatus :=
  StOk | Incomplete | BadRequest | UriTooLong | HeaderLineTooLarge | HeaderBlockTooLarge | TooManyHeaders.

Record ParsedRequest := mkRequest {
  method : bytes;
  target : bytes;
  version : bytes;
  headers : list (bytes * bytes);
  header_end_offset : nat
}.

Definition set_method (m : bytes) (r : ParsedRequest) := mkRequest m (target r) (version r) (headers r) (header_end_offset r).
Definition set_target (t : bytes) (r : ParsedRequest) := mkRequest (method r) t (version r) (headers r) (header_end_offset r).
Definition set_version (v : bytes) (r : ParsedRequest) := mkRequest (method r) (target r) v (headers r) (header_end_offset r).
Definition set_headers h (r : ParsedRequest) := mkRequest (method r) (target r) (version r) h (header_end_offset r).
Definition set_end (n : nat) (r : ParsedRequest) := mkRequest (method r) (target r) (version r) (headers r) n.

Definition is_tchar (c : byte) : bool :=
  if 0x80 <=? byteZ c then false
  else match c with
       | x21 | x23 | x24 | x25 | x26 | x27 | x2a | x2b | x2d | x2e | x5e | x5f | x60 | x7c | x7e => true
       | _ => in_range 48 57 c || in_range 97 122 c || in_range 65 90 c
       end.

Definition is_request_target_char (c : byte) : bool := (0x20 <? byteZ c) && negb (c =b x7f).

Definition crlf : bytes := [x0d; x0a].

Record HeaderBounds := mkBounds { request_line_end : nat; header_start : nat; header_end : nat }.

(** The loop over the complete lines of an unfinished block. Each iteration
    moves [pos] past a line end. *)
Fixpoint partial_loop (fuel : nat) (raw : bytes) (limits : ParserLimits) (header_count pos : nat)
  : option ParseStatus :=
  match fuel with
  | O => None
  | S fuel' =>
      if (pos <? length raw)%nat then
        let line_end := sv_find_sub crlf raw pos in
        let line_size := match line_end with None => length raw - pos | Some e => e - pos end%nat in
        if (max_header_line_size limits <? line_size)%nat then Some HeaderLineTooLarge
        else
          match line_end with
          | None => Some Incomplete
          | Some e =>
              if (max_headers limits <? S header_count)%nat then Some TooManyHeaders
              else partial_loop fuel' raw limits (S header_count) (e + 2)
          end
      else Some Incomplete
  end.

Definition find_complete_http1_header_block (raw : bytes) (limits : ParserLimits)
  : option (ParseStatus * HeaderBounds) :=
  let no_bounds := mkBounds 0 0 0 in
  match sv_find_sub crlf raw 0 with
  | None =>
      Some (if (max_request_line_size limits <? length raw)%nat then UriTooLong else Incomplete, no_bounds)
  | Some eol =>
      if (max_request_line_size limits <? eol)%nat then Some (UriTooLong, no_bounds)
      else
        let header_start := (eol + 2)%nat in
        match sv_find_sub (crlf ++ crlf) raw eol with
        | Some header_end =>
            let header_block_size := (if header_start <? header_end then header_end - header_start else 0)%nat in
            if (max_header_block_size limits <? header_block_size)%nat then Some (HeaderBlockTooLarge, no_bounds)
            else Some (StOk, mkBounds eol header_start header_end)
        | None =>
            if (header_start <? length raw)%nat && (max_header_block_size limits <? length raw - header_start)%nat
            then Some (HeaderBlockTooLarge, no_bounds)
            else status ← partial_loop (S (length raw)) raw limits 0 header_start; Some (status, no_bounds)
        end
  end.

Definition parse_http1_request_line (req_line : bytes) (out : ParsedRequest) : ParseStatus * ParsedRequest :=
  match find_byte x20 req_line with
  | None | Some O => (BadRequest, out)
  | Some sp1 =>
      let out := set_method (take sp1 req_line) out in
      if negb (forallb is_tchar (method out)) then (BadRequest, out)
      else
        let rest := drop (S sp1) req_line in
        let sp2 := find_byte x20 rest in
        let out := set_target (match sp2 with Some i => take i rest | None => rest end) out in
        if bytes_eqb (target out) [] then (BadRequest, out)
        else if negb (forallb is_request_target_char (target out)) then (BadRequest, out)
        else
          let out := set_version (match sp2 with Some i => drop (S i) rest | None => [] end) out in
          if negb (bytes_eqb (version out) (B "HTTP/1.0")) && negb (bytes_eqb (version out) (B "HTTP/1.1"))
          then (BadRequest, out) else (StOk, out)
  end.

Definition is_valid_http1_field_value (field_value : bytes) : bool :=
  forallb (fun c => negb (((byteZ c <? 0x20) && negb (c =b x09)) || (c =b x7f))) field_value.

Definition is_ows (c : byte) : bool := (c =b x20) || (c =b x09).

Fixpoint remove_front (s : bytes) : bytes :=
  match s with c :: s' => if is_ows c then remove_front s' else s | [] => [] end.

Definition trim_http1_ows (field_value : bytes) : bytes := rev (remove_front (rev (remove_front field_value))).

Definition append_http1_header (line : bytes) (out : ParsedRequest) : ParseStatus * ParsedRequest :=
  if match line with [] => true | c :: _ => is_ows c end then (BadRequest, out)
  else if match find_byte x00 line, find_byte x0d line with None, None => false | _, _ => true end
  then (BadRequest, out)
  else
    match find_byte x3a line with
    | None | Some O => (BadRequest, out)
    | Some colon =>
        let name := take colon line in
        if negb (forallb is_tchar name) then (BadRequest, out)
        else
          let field_value := trim_http1_ows (drop (S colon) line) in
          if negb (is_valid_http1_field_value field_value) then (BadRequest, out)
          else (StOk, set_headers (headers out ++ [(name, field_value)]) out)
    end.

(** The loop over the lines of a complete block. *)
Fixpoint header_loop (fuel : nat) (raw : bytes) (limits : ParserLimits) (bounds : HeaderBounds)
  (header_count pos : nat) (out : ParsedRequest) : option (ParseStatus * ParsedRequest) :=
  match fuel with
  | O => None
  | S fuel' =>
      if (pos <? header_end bounds)%nat then
        match sv_find_sub crlf raw pos with
        | None => Some (BadRequest, out)
        | Some line_end =>
            if (header_end bounds <? line_end)%nat then Some (BadRequest, out)
            else
              let line := substr raw pos (line_end - pos) in
              if (max_header_line_size limits <? length line)%nat then Some (HeaderLineTooLarge, out)
              else if (max_headers limits <? S header_count)%nat then Some (TooManyHeaders, out)
              else
                match append_http1_header line out with
                | (StOk, out) => header_loop fuel' raw limits bounds (S header_count) (line_end + 2) out
                | (status, out) => Some (status, out)
                end
        end
      else Some (StOk, set_end (header_end bounds) out)
  end.

Definition parse_request (raw : bytes) (limits : ParserLimits) (out : ParsedRequest)
  : option (ParseStatus * ParsedRequest) :=
  let out := set_headers [] out in
  '(status, bounds) ← find_complete_http1_header_block raw limits;
  match status with
  | StOk =>
      match parse_http1_request_line (take (request_line_end bounds) raw) out with
      | (StOk, out) => header_loop (S (length raw)) raw limits bounds 0 (header_start bounds) out
      | (status, out) => Some (status, out)
      end
  | _ => Some (status, out)
  end.

End Head.
Import Head.

(** ** Request heads *)

Module Grammar.

(** A field line: a name, a colon, and a value between optional blanks. *)
Definition field_line (h : bytes * bytes) (line : bytes) : Prop :=
  exists a b, line = fst h ++ x3a :: a ++ snd h ++ b /\
    fst h <> [] /\ Forall (fun c => is_tchar c = true) (fst h) /\
    Forall (fun c => is_ows c = true) a /\ Forall (fun c => is_ows c = true) b /\
    match snd h with [] => True | c :: _ => is_ows c = false end /\
    match last (snd h) with Some c => is_ows c = false | None => True end /\
    is_valid_http1_field_value (snd h) = true.

Definition request_line (r : ParsedRequest) : bytes := method r ++ x20 :: target r ++ x20 :: version r.

Definition request_line_ok (r : ParsedRequest) : Prop :=
  method r <> [] /\ Forall (fun c => is_tchar c = true) (method r) /\
  target r <> [] /\ Forall (fun c => is_request_target_char c = true) (target r) /\
  (version r = B "HTTP/1.0" \/ version r = B "HTTP/1.1").

(** The lines of the block, each with its line end. *)
Definition block (lines : list bytes) : bytes := flat_map (fun l => l ++ crlf) lines.

(** The size the parser compares with [max_header_block_size]: the block without
    its last line end. *)
Definition block_size (lines : list bytes) : nat := length (block lines) - 2.

Definition head (r : ParsedRequest) (lines : list bytes) : bytes := request_line r ++ crlf ++ block lines ++ crlf.

Definition within (limits : ParserLimits) (r : ParsedRequest) (lines : list bytes) : Prop :=
  (length (request_line r) <= max_request_line_size limits)%nat /\
  Forall (fun l => (length l <= max_header_line_size limits)%nat) lines /\
  (length lines <= max_headers limits)%nat /\
  (block_size lines <= max_header_block_size limits)%nat.

(** [raw] starts with the head of request [r]. *)
Definition request_head (limits : ParserLimits) (raw : bytes) (r : ParsedRequest) : Prop :=
  exists lines rest, raw = head r lines ++ rest /\ request_line_ok r /\
    Forall2 field_line (headers r) lines /\ within limits r lines /\
    header_end_offset r = (length (request_line r) + length (block lines))%nat.

End Grammar.
Import Grammar.

(** ** Lines *)

Lemma remove_front_spec s :
  exists a, s = a ++ remove_front s /\ Forall (fun c => is_ows c = true) a /\
    match remove_front s with [] => True | c :: _ => is_ows c = false end.
Proof.
  induction s as [|c s (a & Hs & Ha & Hh)]; simpl; [by exists []|]. destruct (is_ows c) eqn:E.
  - exists (c :: a). rewrite Hs at 1. split_and!; [done|by constructor|done].
  - exists []. by rewrite E.
Qed.

Lemma remove_front_app a s :
  Forall (fun c => is_ows c = true) a ->
  match s with [] => True | c :: _ => is_ows c = false end -> remove_front (a ++ s) = s.
Proof. induction 1 as [|c a Hc _ IH]; intros Hs; simpl; [destruct s; [done|simpl; by rewrite Hs]|]. rewrite Hc. by apply IH. Qed.

Lemma trim_http1_ows_spec s :
  exists a b, s = a ++ trim_http1_ows s ++ b /\
    Forall (fun c => is_ows c = true) a /\ Forall (fun c => is_ows c = true) b /\
    match trim_http1_ows s with [] => True | c :: _ => is_ows c = false end /\
    match last (trim_http1_ows s) with Some c => is_ows c = false | None => True end.
Proof.
  unfold trim_http1_ows. destruct (remove_front_spec s) as (a & Hs & Ha & Hh).
  destruct (remove_front_spec (rev (remove_front s))) as (b & Hr & Hb & Hl).
  set (m := remove_front s) in *. set (r := remove_front (rev m)) in *.
  exists a, (rev b). apply (f_equal (@rev _)) in Hr. rewrite rev_involutive, rev_app_distr in Hr.
  split_and!; [by rewrite Hs, Hr at 1|done|by apply Forall_rev| |].
  - destruct (rev r) as [|c t] eqn:Er; [done|]. by rewrite Hr in Hh.
  - destruct r as [|c r']; [done|]. simpl. by rewrite last_snoc.
Qed.

Lemma trim_http1_ows_unique a v b :
  Forall (fun c => is_ows c = true) a -> Forall (fun c => is_ows c = true) b ->
  match v with [] => True | c :: _ => is_ows c = false end ->
  match last v with Some c => is_ows c = false | None => True end ->
  trim_http1_ows (a ++ v ++ b) = v.
Proof.
  intros Ha Hb Hv Hl. unfold trim_http1_ows. destruct v as [|c v].
  - cbn [app]. assert (remove_front (a ++ b) = []) as ->; [|done].
    rewrite <- (app_nil_r (a ++ b)). by apply remove_front_app; [apply Forall_app|].
  - rewrite (remove_front_app a) by done. rewrite rev_app_distr, (remove_front_app (rev b)); [apply rev_involutive|by apply Forall_rev|].
    destruct (rev (c :: v)) as [|d u] eqn:E; [done|]. apply (f_equal (@rev _)) in E. rewrite rev_involutive in E.
    rewrite E in Hl. simpl in Hl. by rewrite last_snoc in Hl.
Qed.

(** Which bytes a name, a blank, a value can be. *)
Lemma tchar_not c : is_tchar c = true -> c <> x0d /\ c <> x00 /\ c <> x3a /\ c <> x20 /\ is_ows c = false.
Proof. by destruct c. Qed.

Lemma ows_not c : is_ows c = true -> c <> x0d /\ c <> x00.
Proof. by destruct c. Qed.

Lemma value_not c s : is_valid_http1_field_value s = true -> c ∈ s -> c <> x0d /\ c <> x00.
Proof.
  intros Hv%forallb_Forall Hc. rewrite Forall_forall in Hv. specialize (Hv c Hc). by destruct c.
Qed.

Lemma Forall_not_elem (P : byte -> bool) (d : byte) s : Forall (fun c => P c = true) s -> P d = false -> d ∉ s.
Proof. intros H Hd Hin. rewrite Forall_forall in H. specialize (H d Hin). congruence. Qed.

Lemma field_line_no_cr h line : field_line h line -> x0d ∉ line /\ x00 ∉ line /\ line <> [].
Proof.
  intros (a & b & -> & Hne & Hn & Ha & Hb & _ & _ & Hv).
  assert (Hval : forall d, d = x0d \/ d = x00 -> d ∉ snd h).
  { intros d Hd Hin. apply (value_not _ _ Hv) in Hin. naive_solver. }
  split_and!; [| |by destruct (fst h)];
    rewrite not_elem_of_app, not_elem_of_cons, !not_elem_of_app; split_and!;
    try (apply Hval; auto); try (eapply Forall_not_elem; [eassumption|done]); done.
Qed.

Lemma append_header_sound line out out' :
  append_http1_header line out = (StOk, out') ->
  exists h, field_line h line /\ out' = set_headers (headers out ++ [h]) out.
Proof.
  unfold append_http1_header. destruct line as [|c line']; [done|]. set (line := c :: line') in *.
  destruct (is_ows c); [done|]. destruct (find_byte x00 line); [done|]. destruct (find_byte x0d line); [done|].
  destruct (find_byte x3a line) as [[|k]|] eqn:Ec; try done.
  destruct (forallb is_tchar (take (S k) line)) eqn:Et; [|done]. cbn [negb].
  destruct (is_valid_http1_field_value _) eqn:Ev; [|done]. intros [= <-].
  exists (take (S k) line, trim_http1_ows (drop (S (S k)) line)). split; [|done]. destruct (trim_http1_ows_spec (drop (S (S k)) line)) as (a & b & Hs & Ha & Hb & Hf & Hl).
  exists a, b. cbn [fst snd]. rewrite <- Hs. apply forallb_Forall in Et.
  pose proof (find_byte_lt _ _ _ Ec) as Hlt. apply find_byte_Some in Ec as [Heq _]. split_and!; try done.
Qed.

Lemma append_header_complete h line out :
  field_line h line -> append_http1_header line out = (StOk, set_headers (headers out ++ [h]) out).
Proof.
  intros Hl. destruct (field_line_no_cr h line Hl) as (Hcr & Hnul & _).
  destruct Hl as (a & b & -> & Hne & Hn & Ha & Hb & Hf & Hla & Hv). unfold append_http1_header.
  rewrite (proj2 (find_byte_None _ _) Hcr), (proj2 (find_byte_None _ _) Hnul).
  assert (Hcol : x3a ∉ fst h) by (by eapply Forall_not_elem). rewrite (find_byte_app _ _ _ Hcol).
  destruct h as [[|c nm] v]; [done|]. cbn [fst snd app length] in *.
  pose proof (Forall_inv Hn) as (_ & _ & _ & _ & ->)%tchar_not. cbn [take drop]. rewrite take_app_length.
  rewrite drop_after, (proj2 (forallb_Forall is_tchar (c :: nm)) Hn). cbn [negb].
  rewrite (trim_http1_ows_unique a v b) by done. by rewrite Hv.
Qed.

Lemma request_line_sound line out out' :
  parse_http1_request_line line out = (StOk, out') ->
  line = request_line out' /\ request_line_ok out' /\ headers out' = headers out.
Proof.
  unfold parse_http1_request_line. destruct (find_byte x20 line) as [[|k]|] eqn:E1; try done.
  cbn [method set_method]. destruct (forallb is_tchar _) eqn:Et; [|done]. cbn [negb].
  pose proof (find_byte_lt _ _ _ E1) as Hlt. apply find_byte_Some in E1 as [Heq1 _].
  set (rest := drop (S (S k)) line) in *. destruct (find_byte x20 rest) as [i|] eqn:E2.
  - cbn [target set_target]. destruct (bytes_eqb (take i rest) []) eqn:En; [done|].
    destruct (forallb is_request_target_char (take i rest)) eqn:Er; [|done]. cbn [negb version set_version].
    destruct (negb _ && negb _) eqn:Ev; [done|]. intros [= <-]. apply find_byte_Some in E2 as [Heq2 _].
    unfold request_line, request_line_ok. cbn [method target version headers set_method set_target set_version].
    split_and!; [by rewrite <- Heq2| |by apply forallb_Forall| |by apply forallb_Forall| |done].
    + intros Hn. apply (f_equal length) in Hn. rewrite length_take in Hn. cbn [length] in Hn. lia.
    + by apply bytes_eqb_ne.
    + apply andb_false_iff in Ev as [Ev|Ev]; apply negb_false_iff, bytes_eqb_eq in Ev; auto.
  - cbn [target set_target]. destruct (bytes_eqb rest []); [done|]. destruct (forallb _ rest); [|done]. done.
Qed.

Lemma request_line_complete r out :
  request_line_ok r -> headers out = headers r -> header_end_offset out = header_end_offset r ->
  parse_http1_request_line (request_line r) out = (StOk, r).
Proof.
  intros (Hm & Hmt & Ht & Htt & Hv) Hh He. unfold parse_http1_request_line, request_line.
  rewrite find_byte_app by (by eapply Forall_not_elem). destruct r as [[|c m] t v hs e]; [done|].
  cbn [method target version headers header_end_offset] in *. cbn [length app take drop set_method method].
  rewrite take_app_length, drop_after, (proj2 (forallb_Forall is_tchar (c :: m)) Hmt). cbn [negb].
  rewrite find_byte_app by (by eapply Forall_not_elem). rewrite take_app_length, drop_after.
  cbn [target set_target set_version version]. apply bytes_eqb_ne in Ht. rewrite Ht.
  rewrite (proj2 (forallb_Forall is_request_target_char t) Htt). cbn [negb].
  destruct out as [? ? ? ? ?]. cbn in *. subst. by destruct Hv as [-> | ->].
Qed.

Lemma request_line_no_cr r : request_line_ok r -> x0d ∉ request_line r.
Proof.
  intros (Hm & Hmt & Ht & Htt & Hv). unfold request_line.
  rewrite not_elem_of_app, not_elem_of_cons, not_elem_of_app, not_elem_of_cons. split_and!; try done.
  - by eapply Forall_not_elem.
  - by eapply Forall_not_elem.
  - destruct Hv as [-> | ->]; by apply find_byte_None.
Qed.

(** ** Finding line ends *)

Lemma find_sub_skip p a s : x0d ∉ a -> find_sub (x0d :: p) (a ++ s) = (fun k => (length a + k)%nat) <$> find_sub (x0d :: p) s.
Proof.
  induction a as [|c a IH]; intros Ha; [cbn [app]; by destruct (find_sub (x0d :: p) s)|].
  apply not_elem_of_cons in Ha as [Hc Ha]. cbn [app find_sub starts_with].
  destruct (byte_eqb_spec c x0d); [by subst|]. cbn [andb]. rewrite IH by done. by destruct (find_sub (x0d :: p) s).
Qed.

Lemma find_sub_step p c s : starts_with (c :: s) p = false -> find_sub p (c :: s) = S <$> find_sub p s.
Proof. intros H. cbn [find_sub]. by rewrite H. Qed.

Lemma find_sub_here p t : p <> [] -> find_sub p (p ++ t) = Some 0%nat.
Proof. intros Hp. pose proof (starts_with_app p t) as H. destruct p as [|c p]; [done|]. cbn [app find_sub] in *. by rewrite H. Qed.

Lemma find_crlf a t : x0d ∉ a -> find_sub crlf (a ++ crlf ++ t) = Some (length a).
Proof. intros Ha. unfold crlf at 1. rewrite find_sub_skip by done. fold crlf. rewrite find_sub_here by done.
  cbn. by rewrite Nat.add_0_r.
Qed.

Lemma find_head_end lines rest :
  Forall (fun l => x0d ∉ l /\ l <> []) lines ->
  find_sub (crlf ++ crlf) (crlf ++ block lines ++ crlf ++ rest) = Some (length (block lines)).
Proof.
  induction 1 as [|l lines [Hcr Hne] _ IH]; [change (block []) with (@nil byte); by rewrite app_nil_l, (app_assoc crlf crlf), find_sub_here|].
  unfold block in *. cbn [flat_map]. destruct l as [|c l]; [done|].
  rewrite <- !app_assoc. set (tail := flat_map _ lines ++ crlf ++ rest) in *.
  assert (c <> x0d) by (intros ->; apply Hcr; by left).
  assert (Hstep : find_sub (crlf ++ crlf) (crlf ++ (c :: l) ++ crlf ++ tail)
    = (fun k => (2 + k)%nat) <$> find_sub (crlf ++ crlf) ((c :: l) ++ crlf ++ tail)).
  { change (crlf ++ (c :: l) ++ crlf ++ tail) with (x0d :: x0a :: (c :: l) ++ crlf ++ tail). rewrite (find_sub_step _ x0d), (find_sub_step _ x0a).
    - by destruct (find_sub (crlf ++ crlf) ((c :: l) ++ crlf ++ tail)).
    - done.
    - simpl. by destruct (byte_eqb_spec c x0d). }
  rewrite Hstep. rewrite (find_sub_skip (x0a :: crlf) (c :: l)) by done. change (x0d :: x0a :: crlf) with (crlf ++ crlf).
  rewrite IH. cbn [fmap option_fmap option_map]. rewrite !length_app. simpl. f_equal. lia.
Qed.

Lemma sv_find_sub_Some p s pos k :
  sv_find_sub p s pos = Some k ->
  (pos <= k)%nat /\ (exists t, drop k s = p ++ t /\ drop pos s = substr s pos (k - pos) ++ p ++ t) /\
  (k < length s)%nat /\ forall i, (pos <= i < k)%nat -> starts_with (drop i s) p = false.
Proof.
  unfold sv_find_sub. destruct (find_sub p (drop pos s)) as [n|] eqn:E; [|done]. intros [= <-].
  pose proof (find_sub_first p (drop pos s) n) as Hfirst.
  apply find_sub_Some in E as Hs. destruct Hs as (t & Hs & Hn). rewrite length_drop in Hn. split_and!; [lia| |lia|].
  - exists t. replace (pos + n - pos)%nat with n by lia. unfold substr. split; [|done].
    rewrite <- drop_drop, Hs. rewrite drop_app_length'; [done|]. rewrite length_take, length_drop. lia.
  - intros i Hi. specialize (Hfirst (i - pos)%nat E ltac:(lia)). rewrite drop_drop in Hfirst.
    by replace (pos + (i - pos))%nat with i in Hfirst by lia.
Qed.

(** Where the block ends. *)
Record head_pos (raw : bytes) (eol he : nat) : Prop := {
  hp_le : (eol <= he)%nat;
  hp_end : exists t, drop he raw = crlf ++ crlf ++ t;
  hp_first : forall i, (eol <= i < he)%nat -> starts_with (drop i raw) (crlf ++ crlf) = false
}.

Lemma next_line raw eol he q t :
  head_pos raw eol he -> (eol <= q <= he)%nat -> drop q raw = crlf ++ t -> q = he \/ (q + 2 < he)%nat.
Proof.
  intros [Hle [u Hend] Hfirst] Hq Hdrop. destruct (decide (q = he)) as [|Hne]; [by left|right].
  destruct (decide (he = q + 1)%nat) as [->|].
  { rewrite <- drop_drop, Hdrop in Hend. done. }
  destruct (decide (he = q + 2)%nat) as [->|]; [|lia].
  rewrite <- drop_drop, Hdrop in Hend. change (drop 2 (crlf ++ t)) with t in Hend. specialize (Hfirst q ltac:(lia)).
  rewrite Hdrop, Hend, app_assoc, starts_with_app in Hfirst. done.
Qed.

(** ** The header loop *)

Lemma header_loop_sound fuel raw limits b eol cnt pos out out' :
  header_loop fuel raw limits b cnt pos out = Some (StOk, out') ->
  head_pos raw eol (header_end b) -> (eol + 2 <= pos)%nat ->
  (pos = header_end b + 2 \/ pos < header_end b)%nat -> (cnt <= max_headers limits)%nat ->
  exists lines hs, drop pos raw = block lines ++ crlf ++ drop (header_end b + 4) raw /\
    Forall2 field_line hs lines /\
    out' = set_end (header_end b) (set_headers (headers out ++ hs) out) /\
    Forall (fun l => (length l <= max_header_line_size limits)%nat) lines /\
    (cnt + length lines <= max_headers limits)%nat.
Proof.
  intros H Hhp. revert cnt pos out H. induction fuel as [|fuel IH]; intros cnt pos out H Hpos Hcase Hcnt; [done|].
  cbn [header_loop] in H. destruct (Nat.ltb_spec pos (header_end b)) as [Hlt|Hge].
  2: { injection H as <-. destruct Hcase as [->|]; [|lia]. destruct (hp_end _ _ _ Hhp) as [t Ht].
       exists [], []. rewrite app_nil_r. split_and!; [|constructor|by destruct out|constructor|simpl; lia].
       rewrite <- !drop_drop, Ht. done. }
  destruct (sv_find_sub crlf raw pos) as [e|] eqn:Ef; [|done].
  apply sv_find_sub_Some in Ef as (Hle & (t & Ht & Hp) & _ & _).
  destruct (Nat.ltb_spec (header_end b) e); [done|]. set (line := substr raw pos (e - pos)) in *.
  destruct (Nat.ltb_spec (max_header_line_size limits) (length line)); [done|].
  destruct (Nat.ltb_spec (max_headers limits) (S cnt)); [done|].
  destruct (append_http1_header line out) as [[] out1] eqn:Ea; try done.
  apply append_header_sound in Ea as (h & Hh & ->).
  destruct (next_line raw eol (header_end b) e t Hhp) as [He|He]; [lia|done| |];
    (destruct (IH _ _ _ H) as (lines & hs & Hd & Hfs & -> & Hl & Hc); [lia|lia|lia|]);
    exists (line :: lines), (h :: hs); (split_and!; [|by constructor|cbn; by rewrite <- app_assoc|by constructor|simpl; lia]);
    rewrite Hp; unfold block; cbn [flat_map]; rewrite <- !app_assoc; do 2 f_equal;
    rewrite <- drop_drop, Ht in Hd; exact Hd.
Qed.

Lemma header_loop_complete fuel pre lines hs rest limits b cnt out :
  Forall2 field_line hs lines ->
  (header_end b + 2 = length pre + length (block lines))%nat -> (length lines < fuel)%nat ->
  Forall (fun l => (length l <= max_header_line_size limits)%nat) lines -> (cnt + length lines <= max_headers limits)%nat ->
  header_loop fuel (pre ++ block lines ++ crlf ++ rest) limits b cnt (length pre) out
  = Some (StOk, set_end (header_end b) (set_headers (headers out ++ hs) out)).
Proof.
  intros Hfs. revert fuel pre cnt out. induction Hfs as [|h line hs lines Hh _ IH]; intros fuel pre cnt out Hb Hf Hl Hc;
    (destruct fuel as [|fuel]; [simpl in Hf; lia|]); cbn [header_loop].
  { simpl in Hb. destruct (Nat.ltb_spec (length pre) (header_end b)); [lia|]. rewrite app_nil_r. by destruct out. }
  apply Forall_cons in Hl as [Hl1 Hl]. destruct (field_line_no_cr _ _ Hh) as (Hcr & _ & Hne).
  unfold block in *. cbn [flat_map length] in *. rewrite !length_app in Hb. cbn [length crlf] in Hb.
  assert (0 < length line)%nat by (by destruct line; [|simpl; lia]).
  destruct (Nat.ltb_spec (length pre) (header_end b)); [|lia]. unfold sv_find_sub, substr.
  rewrite drop_app_length, <- !app_assoc, find_crlf by done. cbn [fmap option_fmap option_map].
  destruct (Nat.ltb_spec (header_end b) (length pre + length line)); [lia|].
  replace (length pre + length line - length pre)%nat with (length line) by lia. rewrite take_app_length.
  destruct (Nat.ltb_spec (max_header_line_size limits) (length line)); [lia|].
  destruct (Nat.ltb_spec (max_headers limits) (S cnt)); [lia|].
  rewrite (append_header_complete h) by done.
  pose proof (IH fuel (pre ++ line ++ crlf) (S cnt) (set_headers (headers out ++ [h]) out)) as H'.
  rewrite !length_app in H'. cbn [length crlf] in H'. rewrite <- !app_assoc in H'.
  rewrite Nat.add_assoc in H'. rewrite H' by (done || lia). cbn [headers set_headers]. by rewrite <- app_assoc.
Qed.

(** ** The whole parser *)

Lemma field_lines_clean hs lines : Forall2 field_line hs lines -> Forall (fun l => x0d ∉ l /\ l <> []) lines.
Proof. induction 1 as [|h l hs lines Hh _ IH]; constructor; [|done]. by destruct (field_line_no_cr _ _ Hh) as (? & _ & ?). Qed.

Lemma parse_request_sound raw limits out r :
  parse_request raw limits out = Some (StOk, r) -> request_head limits raw r.
Proof.
  unfold parse_request, find_complete_http1_header_block. destruct (sv_find_sub crlf raw 0) as [eol|] eqn:E1; cbn [mbind option_bind].
  2: { by destruct (_ <? _)%nat. }
  destruct (Nat.ltb_spec (max_request_line_size limits) eol); [done|].
  apply sv_find_sub_Some in E1 as (_ & (t & Ht & Hraw) & _). rewrite drop_0, Nat.sub_0_r in Hraw.
  destruct (sv_find_sub (crlf ++ crlf) raw eol) as [he|] eqn:E2.
  2: { destruct (_ && _); [done|]. by destruct (partial_loop _ _ _ _ _) as [[]|]. }
  apply sv_find_sub_Some in E2 as (Hle & (t2 & Ht2 & _) & Hhe & Hfirst). rewrite <- app_assoc in Ht2.
  set (bs := (if eol + 2 <? he then he - (eol + 2) else 0)%nat).
  destruct (Nat.ltb_spec (max_header_block_size limits) bs) as [|Hbs]; [done|]. cbn [mbind option_bind request_line_end header_start].
  destruct (parse_http1_request_line (take eol raw) (set_headers [] out)) as [[] out1] eqn:El; try done.
  apply request_line_sound in El as (Hline & Hok & Hh). intros Hloop.
  assert (Hhp : head_pos raw eol he) by (split; [done|by exists t2|done]).
  apply (header_loop_sound _ _ _ _ eol) in Hloop as (lines & hs & Hd & Hfs & -> & Hl & Hc); cbn [header_end] in *;
    [|done|lia|destruct (next_line raw eol he eol t Hhp) as [->|]; [lia|done|by left|by right]|lia].
  rewrite Hh in *. cbn [headers set_headers app] in *.
  assert (Hlen : length (take eol raw) = eol) by (rewrite length_take; lia).
  assert (Hhb : he = (eol + length (block lines))%nat).
  { apply (f_equal length) in Hd. rewrite !length_app, !length_drop in Hd. apply (f_equal length) in Ht2.
    rewrite length_drop, !length_app in Ht2. cbn [length crlf] in *. lia. }
  assert (Hrl : request_line (set_end he (set_headers hs out1)) = take eol raw) by (by rewrite Hline).
  exists lines, (drop (he + 4) raw). unfold head, within, block_size. rewrite Hrl, Hlen.
  split_and!; try done; try lia.
  - rewrite <- !app_assoc, <- Hd, <- drop_drop, Ht. change (drop 2 (crlf ++ t)) with t.
    unfold substr in Hraw. by rewrite drop_0 in Hraw.
  - subst bs. destruct (Nat.ltb_spec (eol + 2) he) in Hbs; lia.
Qed.

Lemma parse_request_complete raw limits out r :
  request_head limits raw r -> parse_request raw limits out = Some (StOk, r).
Proof.
  intros (lines & rest & -> & Hok & Hfs & (Hw1 & Hw2 & Hw3 & Hw4) & Hend).
  unfold parse_request, find_complete_http1_header_block, head. rewrite <- !app_assoc. unfold sv_find_sub.
  rewrite drop_0, find_crlf by (by apply request_line_no_cr). cbn [fmap option_fmap option_map Nat.add].
  set (eol := length (request_line r)) in *. destruct (Nat.ltb_spec (max_request_line_size limits) eol); [lia|].
  rewrite (drop_app_length' _ _ eol) by done. rewrite find_head_end by (by eapply field_lines_clean). cbn [fmap option_fmap option_map].
  rewrite <- Hend. set (bs := (if eol + 2 <? header_end_offset r then header_end_offset r - (eol + 2) else 0)%nat).
  unfold block_size in Hw4.
  destruct (Nat.ltb_spec (max_header_block_size limits) bs) as [Hbs|_].
  { subst bs. destruct (Nat.ltb_spec (eol + 2) (header_end_offset r)) in Hbs; lia. }
  cbn [mbind option_bind request_line_end header_start]. rewrite (take_app_length' _ _ eol) by done.
  set (r0 := mkRequest (method r) (target r) (version r) [] (header_end_offset out)).
  rewrite (request_line_complete r0) by done.
  replace (eol + 2)%nat with (length (request_line r ++ crlf)) by (rewrite length_app; done). rewrite (app_assoc _ crlf).
  rewrite (header_loop_complete _ _ lines (headers r)); cbn [header_end]; [by destruct r|done| | |done|lia].
  - rewrite length_app, Hend. cbn [length crlf]. lia.
  - rewrite !length_app. cut (length lines <= length (block lines))%nat; [simpl; lia|]. clear.
    unfold block. induction lines as [|l lines IH]; simpl; [lia|]. rewrite !length_app. simpl. lia.
Qed.

(** ** Termination *)

Lemma partial_loop_total fuel raw limits cnt pos :
  (length raw - pos < fuel)%nat -> exists s, partial_loop fuel raw limits cnt pos = Some s.
Proof.
  revert cnt pos. induction fuel as [|fuel IH]; intros cnt pos Hf; [lia|]. cbn [partial_loop].
  destruct (Nat.ltb_spec pos (length raw)); [|by eexists].
  destruct (sv_find_sub crlf raw pos) as [e|] eqn:E; repeat case_match; try by eexists.
  apply sv_find_sub_Some in E as (? & _ & ? & _). apply IH. lia.
Qed.

Lemma header_loop_total fuel raw limits b cnt pos out :
  (header_end b - pos < fuel)%nat -> exists s, header_loop fuel raw limits b cnt pos out = Some s.
Proof.
  revert cnt pos out. induction fuel as [|fuel IH]; intros cnt pos out Hf; [lia|]. cbn [header_loop].
  destruct (Nat.ltb_spec pos (header_end b)); [|by eexists].
  destruct (sv_find_sub crlf raw pos) as [e|] eqn:E; repeat case_match; try by eexists.
  apply sv_find_sub_Some in E as (? & _ & ? & _). apply IH. lia.
Qed.

Lemma parse_request_total raw limits out : exists s, parse_request raw limits out = Some s.
Proof.
  unfold parse_request, find_complete_http1_header_block. destruct (sv_find_sub crlf raw 0) as [eol|] eqn:E1.
  2: { cbn. case_match; by eexists. }
  destruct (_ <? _)%nat; [by eexists|]. destruct (sv_find_sub (crlf ++ crlf) raw eol) as [he|] eqn:E2.
  - destruct (_ <? _)%nat; [by eexists|]. cbn [mbind option_bind]. destruct (parse_http1_request_line _ _) as [[] r]; try by eexists.
    apply sv_find_sub_Some in E2 as (? & _ & ? & _). apply header_loop_total. simpl. lia.
  - destruct (_ && _); [by eexists|]. destruct (partial_loop_total (S (length raw)) raw limits 0 (eol + 2)) as [s ->]; [lia|].
    cbn [mbind option_bind]. destruct s; by eexists.
Qed.

(** ** Heads that arrive in pieces *)

Lemma find_crlf_none k a t : x0d ∉ a -> (k < length a + 2)%nat -> find_sub crlf (take k (a ++ crlf ++ t)) = None.
Proof.
  intros Ha Hk. destruct (Nat.le_gt_cases k (length a)).
  - rewrite take_app_le by done. unfold crlf.
    rewrite <- (app_nil_r (take k a)), find_sub_skip; [done|]. intros Hin. apply Ha.
    rewrite <- (take_drop k a). by apply elem_of_app; left.
  - replace k with (length a + 1)%nat by lia. rewrite take_app_add. unfold crlf. by rewrite find_sub_skip.
Qed.

Lemma starts_with_prefix (a b p : bytes) : starts_with a p = true -> starts_with (a ++ b) p = true.
Proof. intros [t ->]%starts_with_spec. apply starts_with_spec. exists (t ++ b). by rewrite app_assoc. Qed.

Lemma find_head_end_none k lines :
  Forall (fun l => x0d ∉ l /\ l <> []) lines -> (k < length (block lines) + 2)%nat ->
  find_sub (crlf ++ crlf) (crlf ++ take k (block lines ++ crlf)) = None.
Proof.
  intros Hl Hk. set (p := take k (block lines ++ crlf)). destruct (find_sub (crlf ++ crlf) (crlf ++ p)) as [n|] eqn:E; [|done].
  exfalso. apply find_sub_Some in E as (t & Ht & Hn). pose proof (find_head_end lines [] Hl) as Hfull.
  assert (Hocc : starts_with (drop n (crlf ++ p)) (crlf ++ crlf) = true).
  { apply starts_with_spec. exists t. rewrite Ht at 1. rewrite drop_app_length'; [done|]. rewrite length_take. lia. }
  apply (starts_with_prefix _ (drop k (block lines ++ crlf))) in Hocc. rewrite <- drop_app_le in Hocc by lia.
  rewrite <- app_assoc in Hocc. unfold p in Hocc. rewrite take_drop in Hocc.
  assert (n < length (block lines))%nat.
  { apply (f_equal length) in Ht. unfold p in *.
    rewrite !length_app, !length_take, !length_app, length_take, length_app in Ht.
    rewrite length_app, length_take, length_app in Hn. cbn [length crlf] in *. lia. }
  rewrite app_nil_r in Hfull.
  by rewrite (find_sub_first _ _ _ n Hfull) in Hocc.
Qed.

Lemma partial_loop_prefix fuel pre lines k limits cnt :
  Forall (fun l => x0d ∉ l /\ l <> []) lines -> (k < length (block lines) + 2)%nat ->
  Forall (fun l => (length l < max_header_line_size limits)%nat) lines -> (0 < max_header_line_size limits)%nat ->
  (cnt + length lines <= max_headers limits)%nat -> (k < fuel)%nat ->
  partial_loop fuel (pre ++ take k (block lines ++ crlf)) limits cnt (length pre) = Some Incomplete.
Proof.
  intros Hl. revert fuel pre k cnt. induction Hl as [|l lines [Hcr Hne] _ IH]; intros fuel pre k cnt Hk Hsz Hpos Hcnt Hf;
    (destruct fuel as [|fuel]; [lia|]); cbn [partial_loop]; unfold sv_find_sub;
    rewrite !drop_app_length, !length_app.
  - change (block [] ++ crlf) with ([] ++ crlf ++ []) in *. rewrite find_crlf_none; [|apply not_elem_of_nil|done].
    cbn [fmap option_fmap option_map]. rewrite length_take. cbn [app length crlf] in *.
    destruct (_ <? _)%nat; [|done]. destruct (Nat.ltb_spec (max_header_line_size limits) (length pre + k `min` 2 - length pre)); [|done].
    simpl in Hk. lia.
  - apply Forall_cons in Hsz as [Hs1 Hsz]. unfold block in *. cbn [flat_map length] in *. rewrite <- !app_assoc in *.
    destruct (Nat.lt_ge_cases k (length l + 2)) as [Hlt|Hge].
    + rewrite find_crlf_none by done. cbn [fmap option_fmap option_map]. rewrite length_take.
      destruct (_ <? _)%nat; [|done].
      destruct (Nat.ltb_spec (max_header_line_size limits)
        (length pre + k `min` length (l ++ crlf ++ flat_map (fun l0 => l0 ++ crlf) lines ++ crlf) - length pre)); [lia|done].
    + assert (Htake : take k (l ++ crlf ++ flat_map (fun l0 => l0 ++ crlf) lines ++ crlf)
        = l ++ crlf ++ take (k - (length l + 2)) (flat_map (fun l0 => l0 ++ crlf) lines ++ crlf)).
      { rewrite !app_assoc, <- (app_assoc (l ++ crlf)). rewrite take_app_ge by (rewrite length_app; simpl; lia).
        rewrite length_app. done. }
      rewrite Htake, find_crlf by done. cbn [fmap option_fmap option_map]. rewrite !length_app. cbn [length crlf].
      destruct (Nat.ltb_spec (length pre) (length pre + (length l + (2 + length (take (k - (length l + 2))
        (flat_map (fun l0 => l0 ++ crlf) lines ++ crlf)))))); [|done].
      destruct (Nat.ltb_spec (max_header_line_size limits) (length pre + length l - length pre)); [lia|].
      destruct (Nat.ltb_spec (max_headers limits) (S cnt)); [lia|].
      pose proof (IH fuel (pre ++ l ++ crlf) (k - (length l + 2))%nat (S cnt)) as H'.
      rewrite !length_app, <- !app_assoc in H'. cbn [length crlf] in H'. rewrite Nat.add_assoc in H'. apply H'; try done; try lia.
      rewrite !length_app in Hk. simpl in Hk. lia.
Qed.

(** Limits a head meets with room for a partial line end. *)
Definition room (limits : ParserLimits) (r : ParsedRequest) (lines : list bytes) : Prop :=
  (length (request_line r) < max_request_line_size limits)%nat /\
  Forall (fun l => (length l < max_header_line_size limits)%nat) lines /\ (0 < max_header_line_size limits)%nat /\
  (length lines <= max_headers limits)%nat /\ (length (block lines) < max_header_block_size limits)%nat.

Lemma prefix_incomplete k limits out r lines :
  request_line_ok r -> Forall (fun l => x0d ∉ l /\ l <> []) lines -> room limits r lines ->
  (k < length (head r lines))%nat -> parse_request (take k (head r lines)) limits out = Some (Incomplete, set_headers [] out).
Proof.
  intros Hok Hl (Hr1 & Hr2 & Hr3 & Hr4 & Hr5) Hk. unfold head in *. rewrite !length_app in Hk. cbn [length crlf] in Hk.
  pose proof (request_line_no_cr r Hok) as Hcr. set (rl := request_line r) in *.
  unfold parse_request, find_complete_http1_header_block, sv_find_sub. rewrite drop_0.
  destruct (Nat.lt_ge_cases k (length rl + 2)) as [Hlt|Hge].
  { rewrite find_crlf_none by done. cbn [fmap option_fmap option_map]. rewrite length_take.
    destruct (Nat.ltb_spec (max_request_line_size limits) (k `min` length (rl ++ crlf ++ block lines ++ crlf))); [lia|done]. }
  assert (Htake : take k (rl ++ crlf ++ block lines ++ crlf) = rl ++ crlf ++ take (k - (length rl + 2)) (block lines ++ crlf)).
  { rewrite !app_assoc, <- (app_assoc (rl ++ crlf)). rewrite take_app_ge by (rewrite length_app; simpl; lia). by rewrite length_app. }
  rewrite Htake, find_crlf by done. cbn [fmap option_fmap option_map Nat.add].
  destruct (Nat.ltb_spec (max_request_line_size limits) (length rl)); [lia|].
  rewrite drop_app_length, find_head_end_none by (done || lia). cbn [fmap option_fmap option_map].
  assert (length (rl ++ crlf ++ take (k - (length rl + 2)) (block lines ++ crlf)) = k) as Hlen.
  { rewrite <- Htake, length_take, !length_app. cbn [length crlf]. lia. }
  rewrite Hlen. destruct (Nat.ltb_spec (max_header_block_size limits) (k - (length rl + 2))); [lia|].
  rewrite andb_false_r. replace (length rl + 2)%nat with (length (rl ++ crlf)) by (by rewrite length_app).
  rewrite app_assoc, partial_loop_prefix; try done.
  - rewrite length_app. cbn [length crlf]. lia.
  - rewrite length_app. cbn [length crlf]. lia.
Qed.

(** ** Properties *)

(** C7: [parse_request] always returns, and it accepts exactly the request heads
    of the grammar that are within the limits: a method token, a target without
    blanks or controls, [HTTP/1.0] or [HTTP/1.1], header lines whose names are
    tokens and whose trimmed values hold no control bytes, an empty line. What
    it returns is the head it was given, with the offset of the end of the last
    line; no line holds a bare carriage return or a NUL. *)
Theorem parse_request_correct raw limits out :
  (exists s, parse_request raw limits out = Some s) /\
  forall r, parse_request raw limits out = Some (StOk, r) <-> request_head limits raw r.
Proof.
  split; [apply parse_request_total|]. intros r. split; [apply parse_request_sound|apply parse_request_complete].
Qed.

Lemma request_head_more limits raw r more : request_head limits raw r -> request_head limits (raw ++ more) r.
Proof.
  intros (lines & rest & -> & H). exists lines, (rest ++ more). by rewrite <- app_assoc.
Qed.

(** bytes that follow a complete head do not change how it is read, so
    pipelined requests and bodies cannot alter it. *)
Theorem parse_request_extend raw more limits out out' r :
  parse_request raw limits out = Some (StOk, r) -> parse_request (raw ++ more) limits out' = Some (StOk, r).
Proof. intros H%parse_request_sound. by apply parse_request_complete, request_head_more. Qed.

Definition sample_limits : ParserLimits := mkLimits 14 16 4 64 8.
Definition blank_request : ParsedRequest := mkRequest [] [] [] [] 0.
Definition sample_raw : bytes := B "GET / HTTP/1.1" ++ crlf ++ B "Host: a" ++ crlf ++ crlf.
Definition sample_request : ParsedRequest := mkRequest (B "GET") (B "/") (B "HTTP/1.1") [(B "Host", B "a")] 23.

Lemma parse_request_extend_witness :
  parse_request (sample_raw ++ B "body") sample_limits blank_request = Some (StOk, sample_request).
Proof. apply (parse_request_extend sample_raw (B "body") sample_limits blank_request). vm_compute. reflexivity. Defined.

(** a head that arrives in pieces is waited for: every strict prefix of a
    well-formed head whose limits leave room for a partial line end is
    [Incomplete], never an error. *)
Theorem parse_request_waits k limits out r lines :
  request_line_ok r -> Forall2 field_line (headers r) lines -> room limits r lines ->
  (k < length (head r lines))%nat ->
  exists out', parse_request (take k (head r lines)) limits out = Some (Incomplete, out').
Proof. intros Hok Hfs Hroom Hk. eexists. apply prefix_incomplete; try done. by eapply field_lines_clean. Qed.

Lemma parse_request_waits_witness :
  exists out', parse_request (take 20 (head sample_request [B "Host: a"])) (mkLimits 15 16 4 64 8) blank_request
    = Some (Incomplete, out').
Proof.
  apply parse_request_waits.
  - split_and!; [done|by apply forallb_Forall|done|by apply forallb_Forall|by right].
  - repeat constructor. exists [x20], []. split_and!; try done; by apply forallb_Forall.
  - split_and!; try (vm_compute; lia); repeat constructor; vm_compute; lia.
  - vm_compute. lia.
Defined.

(** at the limit the answer depends on how the bytes arrive. A request line
    of exactly [max_request_line_size] bytes is accepted when it arrives with
    its line end and refused with [UriTooLong] when the buffer ends between the
    carriage return and the line feed; the same holds for header lines and the
    header block. *)
Theorem limit_depends_on_arrival :
  parse_request sample_raw sample_limits blank_request = Some (StOk, sample_request) /\
  fst <$> parse_request (take 15 sample_raw) sample_limits blank_request = Some UriTooLong /\
  fst <$> parse_request sample_raw (mkLimits 20 7 4 64 8) blank_request = Some StOk /\
  fst <$> parse_request (take 24 sample_raw) (mkLimits 20 7 4 64 8) blank_request = Some HeaderLineTooLarge /\
  fst <$> parse_request sample_raw (mkLimits 20 16 4 7 8) blank_request = Some StOk /\
  fst <$> parse_request (take 24 sample_raw) (mkLimits 20 16 4 7 8) blank_request = Some HeaderBlockTooLarge.
Proof. split_and!; vm_compute; reflexivity. Qed.
