(* ===== verification/HttpBody.v ===== *)
(** * HTTP message bodies

    [src/src/net/http_parse_helpers.cxx]: [Content-Length], the incremental
    decoder of the chunked transfer coding, media types, and form bodies.
    [Chunked] models the decoder as its state machine, one step per iteration of
    the loop; a read outside the buffer gives [None]. *)

From Stdlib Require Import ZArith Lia Strings.Byte String.
From stdpp Require Import base tactics option numbers list.
From S2P Require Import Prelude Codec Http1.
Import Head.

(** ** [Content-Length] *)

Module ContentLength.

Inductive ContentLengthParseError := malformed | too_large.

Definition parse_content_length_value (value : bytes) : expected Z ContentLengthParseError :=
  match value with
  | [] => Unexpected malformed
  | _ :: _ =>
      match from_chars_unsigned size_max value with
      | FcOk content_length n => if (n =? length value)%nat then Ok content_length else Unexpected malformed
      | _ => Unexpected malformed
      end
  end.

Definition parse_content_length_limited (value : bytes) (max_body_size : Z) : expected Z ContentLengthParseError :=
  match parse_content_length_value value with
  | Unexpected e => Unexpected e
  | Ok parsed => if max_body_size <? parsed then Unexpected too_large else Ok parsed
  end.

End ContentLength.

(** ** Media types *)

Module MediaType.
Import Ascii.

(** [ascii_ci_equal] *)
Definition ascii_iequals (lhs rhs : bytes) : bool := bytes_eqb (ascii_lower lhs) (ascii_lower rhs).

Definition content_type_media_type (content_type : bytes) : bytes :=
  trim (match find_byte x3b content_type with None => content_type | Some semi => take semi content_type end).

Definition content_type_matches (content_type want : bytes) : bool :=
  ascii_iequals (content_type_media_type content_type) want.

Definition content_type_is_form_urlencoded (content_type : bytes) : bool :=
  content_type_matches content_type (B "application/x-www-form-urlencoded").

Definition content_type_is_multipart_form_data (content_type : bytes) : bool :=
  content_type_matches content_type (B "multipart/form-data").

Definition content_type_is_json_like (content_type : bytes) : bool :=
  let media_type := content_type_media_type content_type in
  ascii_iequals media_type (B "application/json")
  || (ends_with media_type (B "+json") && match find_byte x2f media_type with Some _ => true | None => false end).

End MediaType.

(** ** Form bodies *)

Module Form.
Import Url.

(** One component, appended to the fields: borrowed when nothing needs
    decoding, decoded otherwise. *)
Definition add_component (P : bytes) (out : list (bytes * bytes)) : list (bytes * bytes) :=
  match find_byte x3d P with
  | Some eq =>
      let key := take eq P in
      let field_value := drop (S eq) P in
      if negb (url_needs_component_decode key) && negb (url_needs_component_decode field_value)
      then out ++ [(key, field_value)]
      else out ++ [(url_decode key, url_decode field_value)]
  | None =>
      match P with
      | [] => out
      | _ :: _ => if negb (url_needs_component_decode P) then out ++ [(P, [])] else out ++ [(url_decode P, [])]
      end
  end.

(** The second loop of [parse_urlencoded]; the first only counts the fields to
    reserve. An iteration moves [pos] past an ampersand. *)
Fixpoint urlencoded_loop (fuel : nat) (data : bytes) (pos : nat) (out : list (bytes * bytes))
  : option (list (bytes * bytes)) :=
  match fuel with
  | O => None
  | S fuel' =>
      if (pos <=? length data)%nat then
        match sv_find x26 data pos with
        | None => Some (add_component (drop pos data) out)
        | Some amp => urlencoded_loop fuel' data (amp + 1) (add_component (substr data pos (amp - pos)) out)
        end
      else Some out
  end.

Definition parse_urlencoded (data : bytes) (out : list (bytes * bytes)) : option (list (bytes * bytes)) :=
  urlencoded_loop (S (S (length data))) data 0 out.

End Form.

(** ** The chunked transfer coding *)

Module Chunked.
Import Hex.

Definition kMaxChunkHexDigits : nat := 16.
Definition kMaxChunkSizeLineBytes : nat := 256.
Definition kMaxChunkTrailerLines : nat := 64.
Definition kMaxChunkTrailerBytes : nat := 8192.

(** The digit loop; [__builtin_mul_overflow] and [__builtin_add_overflow] fail
    when the result does not fit [size_t]. *)
Fixpoint chunk_digits (size_digits : bytes) (chunk_size : Z) : option Z :=
  match size_digits with
  | [] => Some chunk_size
  | c :: rest =>
      let d := hex_char_to_int c in
      if d <? 0 then None
      else
        let shifted := chunk_size * 16 in
        if size_max <? shifted then None
        else if size_max <? shifted + d then None
        else chunk_digits rest (shifted + d)
  end.

Definition parse_chunk_size_line (size_line_raw : bytes) : option Z :=
  if (kMaxChunkSizeLineBytes <? length size_line_raw)%nat then None
  else
    let size_digits := match find_byte x3b size_line_raw with Some semi => take semi size_line_raw | None => size_line_raw end in
    if bytes_eqb size_digits [] || (kMaxChunkHexDigits <? length size_digits)%nat then None
    else chunk_digits size_digits 0.

(** The new counters, or [None] when the line is refused. *)
Definition accept_chunk_trailer_line (line_bytes trailer_lines trailer_bytes : nat) : option (nat * nat) :=
  if (kMaxChunkTrailerLines <? S trailer_lines)%nat then None
  else if (kMaxChunkTrailerBytes <? line_bytes)%nat || (kMaxChunkTrailerBytes - line_bytes <? trailer_bytes)%nat then None
  else Some (S trailer_lines, trailer_bytes + line_bytes)%nat.

Inductive ChunkedDecodePhase := SizeLine | Data | DataCrlf | Trailers | Complete.

Record ChunkedDecodeState := mkChunked {
  active : bool;
  body_start : nat;
  pos : nat;
  chunks_seen : nat;
  current_chunk_size : Z;
  remaining : Z;
  trailer_lines : nat;
  trailer_bytes : nat;
  body_bytes : Z;
  phase : ChunkedDecodePhase;
  body : bytes
}.

(** [reset], with the members set afterwards. *)
Definition started (is_active : bool) (start : nat) : ChunkedDecodeState :=
  mkChunked is_active start start 0 0 0 0 0 0 SizeLine [].

Definition fresh : ChunkedDecodeState := started false 0.

(** [raw.size() - st.pos] *)
Definition available_bytes (raw : bytes) (p : nat) : Z := u64 (Z.of_nat (length raw) - Z.of_nat p).

(** One iteration: [inl] goes on, [inr] returns with the state left behind. *)
Definition step (raw : bytes) (max_body_size : Z) (max_chunks : nat) (st : ChunkedDecodeState)
  : option (ChunkedDecodeState + Z * ChunkedDecodeState) :=
  let ret rc := Some (inr (rc, st)) in
  match phase st with
  | SizeLine =>
      match sv_find_sub crlf raw (pos st) with
      | None => ret (if Z.of_nat kMaxChunkSizeLineBytes <? available_bytes raw (pos st) then -1 else 0)
      | Some e =>
          let st := mkChunked (active st) (body_start st) (pos st) (S (chunks_seen st)) (current_chunk_size st)
                      (remaining st) (trailer_lines st) (trailer_bytes st) (body_bytes st) (phase st) (body st) in
          if (max_chunks <? chunks_seen st)%nat then Some (inr (-1, st))
          else
            match parse_chunk_size_line (substr raw (pos st) (e - pos st)) with
            | None => Some (inr (-1, st))
            | Some chunk_size =>
                let st := mkChunked (active st) (body_start st) (e + 2) (chunks_seen st) chunk_size
                            (remaining st) (trailer_lines st) (trailer_bytes st) (body_bytes st) (phase st) (body st) in
                if chunk_size =? 0 then
                  Some (inl (mkChunked (active st) (body_start st) (pos st) (chunks_seen st) chunk_size
                    (remaining st) (trailer_lines st) (trailer_bytes st) (body_bytes st) Trailers (body st)))
                else if (max_body_size <? body_bytes st) || (max_body_size - body_bytes st <? chunk_size)
                then Some (inr (-2, st))
                else
                  Some (inl (mkChunked (active st) (body_start st) (pos st) (chunks_seen st) chunk_size
                    chunk_size (trailer_lines st) (trailer_bytes st) (body_bytes st) Data (body st)))
            end
      end
  | Data =>
      if (length raw <=? pos st)%nat then ret 0
      else
        let available := Z.min (remaining st) (available_bytes raw (pos st)) in
        let st :=
          if 0 <? available then
            mkChunked (active st) (body_start st) (pos st + Z.to_nat available) (chunks_seen st) (current_chunk_size st)
              (remaining st - available) (trailer_lines st) (trailer_bytes st) (body_bytes st + available) Data
              (body st ++ substr raw (pos st) (Z.to_nat available))
          else st in
        if 0 <? remaining st then Some (inr (0, st))
        else
          Some (inl (mkChunked (active st) (body_start st) (pos st) (chunks_seen st) (current_chunk_size st)
            (remaining st) (trailer_lines st) (trailer_bytes st) (body_bytes st) DataCrlf (body st)))
  | DataCrlf =>
      if available_bytes raw (pos st) <? 2 then ret 0
      else
        c0 ← raw !! pos st; c1 ← raw !! S (pos st);
        if negb (c0 =b x0d) || negb (c1 =b x0a) then ret (-1)
        else
          Some (inl (mkChunked (active st) (body_start st) (pos st + 2) (chunks_seen st) (current_chunk_size st)
            (remaining st) (trailer_lines st) (trailer_bytes st) (body_bytes st) SizeLine (body st)))
  | Trailers =>
      match sv_find_sub crlf raw (pos st) with
      | None => ret (if Z.of_nat kMaxChunkTrailerBytes <? u64 (available_bytes raw (pos st) + 2) then -1 else 0)
      | Some next =>
          if (next =? pos st)%nat then
            Some (inr (Z.of_nat (pos st + 2 - body_start st),
              mkChunked (active st) (body_start st) (pos st + 2) (chunks_seen st) (current_chunk_size st)
                (remaining st) (trailer_lines st) (trailer_bytes st) (body_bytes st) Complete (body st)))
          else
            match accept_chunk_trailer_line (next - pos st + 2) (trailer_lines st) (trailer_bytes st) with
            | None =>
                (* the counter has been incremented *)
                Some (inr (-1, mkChunked (active st) (body_start st) (pos st) (chunks_seen st) (current_chunk_size st)
                  (remaining st) (S (trailer_lines st)) (trailer_bytes st) (body_bytes st) Trailers (body st)))
            | Some (lines', bytes') =>
                Some (inl (mkChunked (active st) (body_start st) (next + 2) (chunks_seen st) (current_chunk_size st)
                  (remaining st) lines' bytes' (body_bytes st) Trailers (body st)))
            end
      end
  | Complete => ret (Z.of_nat (pos st - body_start st))
  end.

Fixpoint run (fuel : nat) (raw : bytes) (max_body_size : Z) (max_chunks : nat) (st : ChunkedDecodeState)
  : option (Z * ChunkedDecodeState) :=
  match fuel with
  | O => None
  | S fuel' =>
      match step raw max_body_size max_chunks st with
      | None => None
      | Some (inr r) => Some r
      | Some (inl st') => run fuel' raw max_body_size max_chunks st'
      end
  end.

(** Every iteration moves [pos] forward or leaves the data phase. *)
Definition run_fuel (raw : bytes) : nat := 2 * length raw + 3.

Definition decode_chunked_incremental (raw : bytes) (start : nat) (max_body_size : Z) (max_chunks : nat)
  (st : ChunkedDecodeState) : option (Z * ChunkedDecodeState) :=
  let st := if negb (active st) || negb (body_start st =? start)%nat then started true start else st in
  run (run_fuel raw) raw max_body_size max_chunks st.

(** The code and the body handed out. *)
Definition decode_chunked (data : bytes) (max_body_size : Z) (max_chunks : nat) : option (Z * bytes) :=
  '(rc, st) ← decode_chunked_incremental data 0 max_body_size max_chunks fresh;
  Some (rc, if 0 <? rc then body st else []).

End Chunked.
Import Hex ContentLength MediaType Form Chunked.

(** ** The decoder: invariant and termination *)

Section machine.
Context (mb : Z) (mc : nat).

(** A state of the decoder over [raw], started at a position inside it. *)
Record st_ok (raw : bytes) (st : ChunkedDecodeState) : Prop := {
  ok_active : active st = true;
  ok_start : (body_start st <= pos st <= length raw)%nat;
  ok_size : Z.of_nat (length raw) < 2 ^ 64 - 2;
  ok_body : body_bytes st = Z.of_nat (length (body st)) /\ body_bytes st <= mb;
  ok_data : phase st = Data -> 0 < remaining st /\ body_bytes st + remaining st <= mb;
  ok_trailers : (trailer_lines st <= kMaxChunkTrailerLines)%nat /\ (trailer_bytes st <= kMaxChunkTrailerBytes)%nat;
  ok_complete : phase st = Complete -> (body_start st < pos st)%nat
}.

Lemma available_small raw p :
  (p <= length raw)%nat -> Z.of_nat (length raw) < 2 ^ 64 - 2 -> available_bytes raw p = Z.of_nat (length raw) - Z.of_nat p.
Proof. intros. unfold available_bytes. apply u64_small. lia. Qed.

Lemma find_crlf_bounds raw p e :
  sv_find_sub crlf raw p = Some e -> (p <= e)%nat /\ (e + 2 <= length raw)%nat.
Proof.
  intros H. apply sv_find_sub_Some in H as (Hle & (t & Ht & _) & He & _). split; [done|].
  apply (f_equal length) in Ht. rewrite length_drop, length_app in Ht. cbn [length crlf] in Ht. lia.
Qed.

Lemma hex_digits_nonneg ds acc n : 0 <= acc -> chunk_digits ds acc = Some n -> 0 <= n.
Proof.
  revert acc. induction ds as [|c ds IH]; intros acc Ha; cbn [chunk_digits]; [intros [= <-]; lia|].
  destruct (Z.ltb_spec (hex_char_to_int c) 0); [done|]. repeat case_match; try done. apply IH. lia.
Qed.

Lemma chunk_size_nonneg line n : parse_chunk_size_line line = Some n -> 0 <= n.
Proof. unfold parse_chunk_size_line. repeat case_match; try done; apply hex_digits_nonneg; lia. Qed.

(** Every step keeps the invariant, and gets ahead when it goes on. *)
Definition measure (raw : bytes) (st : ChunkedDecodeState) : nat :=
  (2 * (length raw - pos st) + match phase st with Data => 1 | _ => 0 end)%nat.

Definition step_good (raw : bytes) (st : ChunkedDecodeState) (r : option (ChunkedDecodeState + Z * ChunkedDecodeState)) : Prop :=
  match r with
  | None => False
  | Some (inl st') => st_ok raw st' /\ (measure raw st' < measure raw st)%nat /\ body_start st' = body_start st
  | Some (inr (rc, st')) => active st' = true /\ body_start st' = body_start st /\
      body_bytes st' = Z.of_nat (length (body st')) /\ body_bytes st' <= mb /\ (rc = 0 -> st_ok raw st')
  end.

Ltac ok_fields :=
  match goal with H : st_ok _ _ |- _ => destruct H as [Hact Hstart Hsize [Hbody Hmb] Hdata [Htl Htb] Hcomp] end.

Lemma step_size_line raw st : st_ok raw st -> phase st = SizeLine -> step_good raw st (step raw mb mc st).
Proof.
  intros H Hp. pose proof H as Hok. ok_fields. unfold step, measure. rewrite Hp.
  destruct (sv_find_sub crlf raw (pos st)) as [e|] eqn:E; [|simpl; by case_match].
  apply find_crlf_bounds in E as [Hle He]. cbn [chunks_seen pos body_bytes].
  destruct (_ <? _)%nat; [by split_and!|]. destruct (parse_chunk_size_line _) as [n|] eqn:En; [|by split_and!].
  apply chunk_size_nonneg in En. destruct (Z.eqb_spec n 0) as [->|Hn].
  - cbn [step_good]. unfold measure. rewrite Hp. cbn. split_and!; [|lia|done]. split; cbn; try done; try lia.
  - destruct (_ || _) eqn:Eb; [by split_and!|]. apply orb_false_iff in Eb as [Eb1 Eb2]. bool_simp.
    cbn [step_good]. unfold measure. rewrite Hp. cbn. split_and!; [|lia|done]. split; cbn; try done; lia.
Qed.

Lemma step_data raw st : st_ok raw st -> phase st = Data -> step_good raw st (step raw mb mc st).
Proof.
  intros H Hp. pose proof H as Hok. ok_fields. destruct (Hdata Hp) as [Hr Hrb]. unfold step. rewrite Hp.
  destruct (Nat.leb_spec (length raw) (pos st)); [by split_and!|].
  rewrite available_small by lia. set (av := Z.min _ _). assert (0 < av <= Z.of_nat (length raw) - Z.of_nat (pos st)) by lia.
  destruct (Z.ltb_spec 0 av); [|lia].
  assert (Hlen : length (body st ++ substr raw (pos st) (Z.to_nat av)) = (length (body st) + Z.to_nat av)%nat).
  { rewrite length_app, substr_length. lia. }
  cbn [remaining pos body_bytes body]. destruct (Z.ltb_spec 0 (remaining st - av)).
  - cbn [step_good]. cbn. split_and!; try done; [lia|lia|]. intros _. split; cbn; try done; try lia.
  - cbn [step_good]. unfold measure. rewrite Hp. cbn. split_and!; [|lia|done]. split; cbn; try done; try lia.
Qed.

Lemma step_data_crlf raw st : st_ok raw st -> phase st = DataCrlf -> step_good raw st (step raw mb mc st).
Proof.
  intros H Hp. pose proof H as Hok. ok_fields. unfold step. rewrite Hp, available_small by lia.
  destruct (Z.ltb_spec (Z.of_nat (length raw) - Z.of_nat (pos st)) 2); [by split_and!|].
  destruct (lookup_lt_is_Some_2 raw (pos st)) as [c0 ->]; [lia|].
  destruct (lookup_lt_is_Some_2 raw (S (pos st))) as [c1 ->]; [lia|]. cbn [mbind option_bind].
  destruct (_ || _); [by split_and!|]. cbn [step_good]. unfold measure. rewrite Hp. cbn.
  split_and!; [|lia|done]. split; cbn; try done; try lia.
Qed.

Lemma step_trailers raw st : st_ok raw st -> phase st = Trailers -> step_good raw st (step raw mb mc st).
Proof.
  intros H Hp. pose proof H as Hok. ok_fields. unfold step. rewrite Hp.
  destruct (sv_find_sub crlf raw (pos st)) as [e|] eqn:E; [|by split_and!].
  apply find_crlf_bounds in E as [Hle He]. destruct (Nat.eqb_spec e (pos st)) as [->|Hne].
  - cbn [step_good]. cbn. split_and!; try done. lia.
  - unfold accept_chunk_trailer_line. destruct (Nat.ltb_spec kMaxChunkTrailerLines (S (trailer_lines st))); [by split_and!|].
    destruct (Nat.ltb_spec kMaxChunkTrailerBytes (e - pos st + 2)); [by split_and!|].
    destruct (Nat.ltb_spec (kMaxChunkTrailerBytes - (e - pos st + 2)) (trailer_bytes st)); [by split_and!|].
    cbn [orb step_good]. unfold measure. rewrite Hp. cbn [phase pos body_start]. split_and!; [|lia|done].
    split; cbn [active body_start pos body_bytes body phase trailer_lines trailer_bytes remaining]; try done; try lia.
Qed.

Lemma chunk_step_ok raw st : st_ok raw st -> step_good raw st (step raw mb mc st).
Proof.
  intros H. destruct (phase st) eqn:Hp.
  - by apply step_size_line.
  - by apply step_data.
  - by apply step_data_crlf.
  - by apply step_trailers.
  - pose proof H as Hok. ok_fields. unfold step. rewrite Hp. by split_and!.
Qed.

(** The loop ends within its fuel. *)
Lemma run_ok fuel raw st :
  st_ok raw st -> (measure raw st < fuel)%nat ->
  exists rc st', run fuel raw mb mc st = Some (rc, st') /\ active st' = true /\ body_start st' = body_start st /\
    Z.of_nat (length (body st')) <= mb /\ (rc = 0 -> st_ok raw st').
Proof.
  revert st. induction fuel as [|fuel IH]; intros st Hok Hm; [lia|]. cbn [run].
  pose proof (chunk_step_ok raw st Hok) as Hs. destruct (step raw mb mc st) as [[st'|[rc st']]|]; [| |done].
  - destruct Hs as (Hok' & Hlt & Hst). destruct (IH st' Hok' ltac:(lia)) as (rc & st2 & Hr & ? & Hb & ? & ?).
    exists rc, st2. split_and!; try done. by rewrite Hb.
  - destruct Hs as (? & ? & Hb & ? & ?). exists rc, st'. rewrite <- Hb. by split_and!.
Qed.

Lemma run_mono f f' raw st x : run f raw mb mc st = Some x -> (f <= f')%nat -> run f' raw mb mc st = Some x.
Proof.
  revert f' st. induction f as [|f IH]; intros f' st H Hf; [done|]. destruct f' as [|f']; [lia|]. cbn [run] in *.
  destruct (step raw mb mc st) as [[st'|r]|]; [|done|done]. apply IH; [done|lia].
Qed.

Lemma measure_fuel raw st : (measure raw st < run_fuel raw)%nat.
Proof. unfold measure, run_fuel. destruct (phase st); lia. Qed.

Lemma run_value f raw st x :
  st_ok raw st -> run f raw mb mc st = Some x -> run (run_fuel raw) raw mb mc st = Some x.
Proof.
  intros Hok Hr. destruct (run_ok (run_fuel raw) raw st Hok (measure_fuel raw st)) as (rc & st' & H & _).
  destruct (Nat.le_ge_cases f (run_fuel raw)) as [Hle|Hle]; [by apply (run_mono f)|].
  rewrite (run_mono _ f _ _ _ H Hle) in Hr. by rewrite H.
Qed.

Lemma run_step raw st st' :
  st_ok raw st -> step raw mb mc st = Some (inl st') ->
  run (run_fuel raw) raw mb mc st = run (run_fuel raw) raw mb mc st'.
Proof.
  intros Hok Hs. pose proof (chunk_step_ok raw st Hok) as Hg. rewrite Hs in Hg. destruct Hg as (Hok' & _ & _).
  destruct (run_ok (run_fuel raw) raw st' Hok' (measure_fuel raw st')) as (rc & st2 & Hr & _). rewrite Hr.
  apply (run_value (S (run_fuel raw))); [done|]. cbn [run]. by rewrite Hs.
Qed.
End machine.

(** ** The grammar of the chunked coding *)

(** A line: the first line end after it is its own. *)
Definition plain_line (l : bytes) : Prop := find_sub crlf (l ++ crlf) = Some (length l).

(** Trailer lines and the empty line: the number of lines, the bytes they take,
    the text. *)
Inductive trailer_part : nat -> nat -> bytes -> Prop :=
| tp_end : trailer_part 0 0 crlf
| tp_line l k s t :
    plain_line l -> l <> [] -> trailer_part k s t ->
    trailer_part (S k) (length l + 2 + s) (l ++ crlf ++ t).

(** A hexadecimal digit and a number written with such digits, the most significant
    first. *)
Definition is_hex (c : byte) (v : nat) : Prop :=
  B "0123456789abcdef" !! v = Some c \/ B "0123456789ABCDEF" !! v = Some c.

Inductive hex_number : bytes -> Z -> Prop :=
| hex_one c v : is_hex c v -> hex_number [c] (Z.of_nat v)
| hex_more c v ds n : is_hex c v -> hex_number ds n ->
    hex_number (c :: ds) (Z.of_nat v * 16 ^ Z.of_nat (length ds) + n).

(** A size line: the size, at most sixteen digits, and perhaps an extension behind a
    semicolon, together at most [kMaxChunkSizeLineBytes] bytes. *)
Definition chunk_size_line (line : bytes) (n : Z) : Prop :=
  exists digits ext, hex_number digits n /\ (length digits <= 16)%nat /\ (length line <= kMaxChunkSizeLineBytes)%nat /\
    (line = digits \/ line = digits ++ x3b :: ext).

(** Chunks, the last chunk and the trailer part: the number of chunks (the last
    included), the trailer lines and bytes, the text, and the body it codes. *)
Inductive chunked_text : nat -> nat -> nat -> bytes -> bytes -> Prop :=
| ct_last line k s t :
    plain_line line -> chunk_size_line line 0 -> trailer_part k s t ->
    chunked_text 1 k s (line ++ crlf ++ t) []
| ct_chunk line data n k s t b :
    plain_line line -> chunk_size_line line (Z.of_nat (length data)) -> data <> [] ->
    chunked_text n k s t b ->
    chunked_text (S n) k s (line ++ crlf ++ data ++ crlf ++ t) (data ++ b).

Lemma is_hex_spec c v : is_hex c v <-> hex_char_to_int c = Z.of_nat v.
Proof.
  split.
  - intros [H|H]; do 16 (destruct v as [|v]; [cbn in H; injection H as <-; reflexivity|]); discriminate H.
  - intros H. pose proof (forall_byte (fun c => (hex_char_to_int c <? 0) || bool_decide (B "0123456789abcdef" !! Z.to_nat (hex_char_to_int c) = Some c)
      || bool_decide (B "0123456789ABCDEF" !! Z.to_nat (hex_char_to_int c) = Some c)) ltac:(by vm_compute) c) as Hc.
    cbn beta in Hc. rewrite H, Nat2Z.id in Hc. rewrite (proj2 (Z.ltb_ge _ _)) in Hc by lia. cbn [orb] in Hc.
    by apply orb_true_iff in Hc as [?%bool_decide_eq_true_1|?%bool_decide_eq_true_1]; [left|right].
Qed.

Lemma is_hex_lt c v : is_hex c v -> (v < 16)%nat.
Proof. intros [H|H]; by apply lookup_lt_Some in H. Qed.

Lemma hex_number_range ds n : hex_number ds n -> 0 <= n < 16 ^ Z.of_nat (length ds).
Proof.
  induction 1 as [c v Hv|c v ds n Hv Hn IH]; apply is_hex_lt in Hv; cbn [length]; [change (16 ^ Z.of_nat 1) with 16; lia|].
  rewrite Nat2Z.inj_succ, Z.pow_succ_r by lia. nia.
Qed.

(** The digit loop computes the number, and does not overflow on so few digits. *)
Lemma chunk_digits_spec ds acc m :
  ds <> [] -> 0 <= acc -> (acc + 1) * 16 ^ Z.of_nat (length ds) <= 2 ^ 64 ->
  chunk_digits ds acc = Some m <-> exists n, hex_number ds n /\ m = acc * 16 ^ Z.of_nat (length ds) + n.
Proof.
  revert acc. induction ds as [|c ds IH]; intros acc Hne Ha Hfit; [done|]. cbn [chunk_digits length] in *.
  rewrite Nat2Z.inj_succ, Z.pow_succ_r in * by lia. assert (Hp : 1 <= 16 ^ Z.of_nat (length ds)) by (apply (Z.pow_le_mono_r 16 0); lia).
  destruct (Z.ltb_spec (hex_char_to_int c) 0) as [Hneg|Hd].
  { split; [done|]. intros (n & Hn & _). exfalso. inversion Hn as [? v Hv|? v ? ? Hv]; subst; apply is_hex_spec in Hv; lia. }
  assert (Hc : is_hex c (Z.to_nat (hex_char_to_int c))) by (apply is_hex_spec; lia). pose proof (is_hex_lt _ _ Hc) as Hlt.
  rewrite (proj2 (Z.ltb_ge size_max _)) by (unfold size_max; nia). rewrite (proj2 (Z.ltb_ge size_max _)) by (unfold size_max; nia).
  assert (Huniq : forall v, is_hex c v -> Z.of_nat v = hex_char_to_int c) by (intros v ?%is_hex_spec; lia).
  destruct ds as [|d ds].
  - cbn [chunk_digits length]. change (16 ^ Z.of_nat 0) with 1. split.
    + intros [= <-]. exists (hex_char_to_int c). split; [|lia]. rewrite <- (Z2Nat.id (hex_char_to_int c)) by lia. by constructor.
    + intros (n & Hn & ->). inversion Hn as [? v Hv|? v ? ? Hv Hn']; subst; [|inversion Hn']. rewrite (Huniq _ Hv). f_equal; lia.
  - rewrite IH by (done || nia). split.
    + intros (n & Hn & ->). exists (hex_char_to_int c * 16 ^ Z.of_nat (length (d :: ds)) + n). split; [|lia].
      rewrite <- (Z2Nat.id (hex_char_to_int c)) by lia. by constructor.
    + intros (n & Hn & ->). inversion Hn as [|? v ? n' Hv Hn']; subst. exists n'. split; [done|]. rewrite (Huniq _ Hv). lia.
Qed.

Lemma hex_number_digits ds n : hex_number ds n -> ds <> [] /\ x3b ∉ ds.
Proof.
  assert (Hsemi : forall c v, is_hex c v -> c <> x3b) by (intros c v Hc ->; apply is_hex_spec in Hc; cbn in Hc; lia).
  induction 1 as [c v Hv|c v ds n Hv Hn [_ IH]]; (split; [done|]); apply not_elem_of_cons; (split; [by eapply not_eq_sym, Hsemi|]); [apply not_elem_of_nil|done].
Qed.

(** The parser of size lines accepts exactly the size lines. *)
Lemma parse_chunk_size_line_spec line n : parse_chunk_size_line line = Some n <-> chunk_size_line line n.
Proof.
  unfold parse_chunk_size_line, chunk_size_line.
  set (digits := match find_byte x3b line with Some semi => take semi line | None => line end).
  destruct (Nat.ltb_spec kMaxChunkSizeLineBytes (length line)) as [Hl|Hl]; [split; [done|intros (ds & ext & _ & _ & ? & _); lia]|].
  assert (Hds : forall ds ext, x3b ∉ ds -> line = ds \/ line = ds ++ x3b :: ext -> digits = ds).
  { intros ds ext Hn [->| ->]; unfold digits; [by rewrite (proj2 (find_byte_None _ _) Hn)|].
    rewrite find_byte_app by done. by rewrite take_app_length. }
  assert (Hline : line = digits \/ line = digits ++ x3b :: drop (S (length digits)) line).
  { unfold digits. destruct (find_byte x3b line) as [k|] eqn:E; [right|by left]. apply find_byte_Some in E as [Hs Hk].
    assert (length (take k line) = k) as ->; [|done]. apply (f_equal length) in Hs. rewrite length_app in Hs. cbn in Hs.
    rewrite length_drop in Hs. rewrite length_take in *. lia. }
  assert (Hdec : digits <> [] -> (length digits <= 16)%nat -> chunk_digits digits 0 = Some n <-> hex_number digits n).
  { intros Hne H16. rewrite chunk_digits_spec; [|done|lia|]; [split; [by intros (m & ? & ->)|by exists n]|].
    rewrite Z.mul_1_l. change (2 ^ 64) with (16 ^ 16). apply Z.pow_le_mono_r; lia. }
  destruct (bytes_eqb digits [] || (kMaxChunkHexDigits <? length digits)%nat) eqn:E.
  - split; [done|]. intros (ds & ext & Hn & H16 & _ & Hor). destruct (hex_number_digits _ _ Hn) as [Hne Hs].
    rewrite (Hds ds ext Hs Hor) in E. apply orb_true_iff in E as [->%bytes_eqb_eq|H%Nat.ltb_lt]; [done|]. unfold kMaxChunkHexDigits in H. lia.
  - apply orb_false_iff in E as [E1%bytes_eqb_ne E2%Nat.ltb_ge]. unfold kMaxChunkHexDigits in E2. rewrite Hdec by done. split.
    + intros Hn. exists digits, (drop (S (length digits)) line). done.
    + intros (ds & ext & Hn & _ & _ & Hor). destruct (hex_number_digits _ _ Hn) as [_ Hs]. by rewrite (Hds ds ext Hs Hor).
Qed.

Lemma starts_with_false_app (a b p : bytes) : (length p <= length a)%nat -> starts_with (a ++ b) p = starts_with a p.
Proof.
  revert a. induction p as [|y p IH]; intros [|x a] Hl; try done; simpl in *; [by destruct b|lia|]. by rewrite IH by lia.
Qed.

(** The first line end of a text that starts with a line. *)
Lemma plain_line_find l t : plain_line l -> find_sub crlf (l ++ crlf ++ t) = Some (length l).
Proof.
  unfold plain_line. intros H. apply find_sub_complete.
  - rewrite !length_app. simpl. lia.
  - rewrite drop_app_length. apply starts_with_app.
  - intros i Hi. rewrite drop_app_le by lia. rewrite app_assoc, starts_with_false_app.
    + pose proof (find_sub_first _ _ _ i H Hi) as Hf. by rewrite drop_app_le in Hf by lia.
    + rewrite length_app, length_drop. simpl. lia.
Qed.

Lemma find_plain_line raw p e :
  sv_find_sub crlf raw p = Some e ->
  plain_line (substr raw p (e - p)) /\ (p <= e)%nat /\ (e + 2 <= length raw)%nat /\
  drop p raw = substr raw p (e - p) ++ crlf ++ drop (e + 2) raw /\ length (substr raw p (e - p)) = (e - p)%nat.
Proof.
  intros H. pose proof (find_crlf_bounds _ _ _ H) as [Hle He]. apply sv_find_sub_Some in H as (_ & (t & Ht & Hp) & _ & Hfirst).
  assert (Hlen : length (substr raw p (e - p)) = (e - p)%nat) by (rewrite substr_length; lia).
  assert (Ht2 : t = drop (e + 2) raw) by (rewrite <- drop_drop, Ht; done). subst t.
  split_and!; try done. unfold plain_line. apply find_sub_complete.
  - rewrite length_app, Hlen. simpl. lia.
  - by rewrite drop_app_length.
  - intros i Hi. rewrite Hlen in Hi. specialize (Hfirst (p + i)%nat ltac:(lia)). rewrite <- drop_drop, Hp, app_assoc in Hfirst.
    rewrite drop_app_le in Hfirst by (rewrite length_app, Hlen; simpl; lia).
    rewrite starts_with_false_app in Hfirst; [done|]. rewrite length_drop, length_app, Hlen. simpl. lia.
Qed.

Lemma sv_find_plain raw p l t :
  drop p raw = l ++ crlf ++ t -> plain_line l -> sv_find_sub crlf raw p = Some (p + length l)%nat.
Proof. intros Hd Hl. unfold sv_find_sub. by rewrite Hd, plain_line_find. Qed.

Section grammar.
Context (raw : bytes) (mb : Z) (mc : nat).

(** What is left to read in each phase. *)
Definition shape (st : ChunkedDecodeState) (text b : bytes) : Prop :=
  match phase st with
  | SizeLine => exists n k s, chunked_text n k s text b /\ (chunks_seen st + n <= mc)%nat /\
      body_bytes st + Z.of_nat (length b) <= mb /\
      (trailer_lines st + k <= kMaxChunkTrailerLines)%nat /\ (trailer_bytes st + s <= kMaxChunkTrailerBytes)%nat
  | Data => exists data t b' n k s, text = data ++ crlf ++ t /\ b = data ++ b' /\ Z.of_nat (length data) = remaining st /\
      chunked_text n k s t b' /\ (chunks_seen st + n <= mc)%nat /\ body_bytes st + Z.of_nat (length b) <= mb /\
      (trailer_lines st + k <= kMaxChunkTrailerLines)%nat /\ (trailer_bytes st + s <= kMaxChunkTrailerBytes)%nat
  | DataCrlf => exists t n k s, text = crlf ++ t /\ chunked_text n k s t b /\ (chunks_seen st + n <= mc)%nat /\
      body_bytes st + Z.of_nat (length b) <= mb /\
      (trailer_lines st + k <= kMaxChunkTrailerLines)%nat /\ (trailer_bytes st + s <= kMaxChunkTrailerBytes)%nat
  | Trailers => b = [] /\ exists k s, trailer_part k s text /\
      (trailer_lines st + k <= kMaxChunkTrailerLines)%nat /\ (trailer_bytes st + s <= kMaxChunkTrailerBytes)%nat
  | Complete => text = [] /\ b = []
  end.

(** From a state with that much left, the decoder ends with it read. *)
Definition finishes (st st' : ChunkedDecodeState) (text b : bytes) : Prop :=
  (exists rest, drop (pos st) raw = text ++ rest) /\ pos st' = (pos st + length text)%nat /\ body st' = body st ++ b.

(** What a step reads and adds to the body. *)
Definition reads (st st1 : ChunkedDecodeState) (text b text1 b1 : bytes) (rest : bytes) : Prop :=
  drop (pos st) raw = text ++ rest /\ (pos st1 + length text1 = pos st + length text)%nat /\
  body st1 ++ b1 = body st ++ b.

Lemma back_size_line st st1 text1 b1 rest :
  st_ok mb raw st -> phase st = SizeLine -> step raw mb mc st = Some (inl st1) ->
  shape st1 text1 b1 -> drop (pos st1) raw = text1 ++ rest ->
  exists text b, shape st text b /\ reads st st1 text b text1 b1 rest.
Proof.
  intros Hok Hp Hs Hsh Hd. unfold step in Hs. rewrite Hp in Hs.
  destruct (sv_find_sub crlf raw (pos st)) as [e|] eqn:E; [|done].
  apply find_plain_line in E as (Hpl & Hle & He & Hdp & Hlen). cbn [chunks_seen pos body_bytes] in Hs.
  destruct (Nat.ltb_spec mc (S (chunks_seen st))); [done|].
  set (line := substr raw (pos st) (e - pos st)) in *.
  destruct (parse_chunk_size_line line) as [n|] eqn:En; [|done]. pose proof (chunk_size_nonneg _ _ En) as Hn. pose proof (proj1 (parse_chunk_size_line_spec _ _) En) as Hcs.
  destruct (ok_body _ _ _ Hok) as [Hbb Hbm]. unfold reads, shape. rewrite Hp. destruct (Z.eqb_spec n 0) as [->|Hn0].
  - injection Hs as <-. cbn in Hsh, Hd. destruct Hsh as (-> & k & s & Ht & Hk & Hsz).
    exists (line ++ crlf ++ text1), []. split; [|split_and!].
    + exists 1%nat, k, s. split_and!; [by constructor|lia|simpl; lia|done|done].
    + by rewrite Hdp, Hd, <- !app_assoc.
    + cbn [pos]. rewrite !length_app, Hlen. cbn [length crlf]. lia.
    + done.
  - destruct (_ || _) eqn:Eb; [done|]. injection Hs as <-. cbn in Hsh, Hd.
    destruct Hsh as (data & t & b' & n' & k & s & -> & -> & Hdl & Hct & Hc & Hb & Hk & Hsz).
    exists (line ++ crlf ++ data ++ crlf ++ t), (data ++ b'). split; [|split_and!].
    + exists (S n'), k, s. split_and!; try done; [|lia]. constructor; try done; [by rewrite Hdl|].
      intros ->. simpl in Hdl. lia.
    + rewrite Hdp, Hd, <- !app_assoc. done.
    + cbn [pos]. rewrite !length_app, Hlen. cbn [length crlf]. lia.
    + done.
Qed.

Lemma back_data st st1 text1 b1 rest :
  st_ok mb raw st -> phase st = Data -> step raw mb mc st = Some (inl st1) ->
  shape st1 text1 b1 -> drop (pos st1) raw = text1 ++ rest ->
  exists text b, shape st text b /\ reads st st1 text b text1 b1 rest.
Proof.
  intros Hok Hp Hs Hsh Hd. unfold step in Hs. rewrite Hp in Hs.
  pose proof (ok_start _ _ _ Hok) as Hst. destruct (ok_data _ _ _ Hok Hp) as [Hr Hrb].
  destruct (Nat.leb_spec (length raw) (pos st)); [done|]. rewrite available_small in Hs by (lia || apply Hok).
  set (av := Z.min _ _) in *. assert (0 < av) by lia. destruct (Z.ltb_spec 0 av); [|lia]. cbn [remaining] in Hs.
  destruct (Z.ltb_spec 0 (remaining st - av)); [done|]. injection Hs as <-. cbn in Hsh, Hd.
  assert (av = remaining st) as Hav by lia. rewrite Hav in *.
  set (data := substr raw (pos st) (Z.to_nat (remaining st))) in *.
  assert (Hlen : length data = Z.to_nat (remaining st)) by (unfold data; rewrite substr_length; lia).
  destruct Hsh as (t & n & k & s & -> & Hct & Hc & Hb & Hk & Hsz).
  unfold reads, shape. rewrite Hp. exists (data ++ crlf ++ t), (data ++ b1). split; [|split_and!].
  - exists data, t, b1, n, k, s. split_and!; try done; [lia|]. rewrite length_app. lia.
  - rewrite (drop_substr raw (pos st) (Z.to_nat (remaining st))). fold data. rewrite Hd, <- !app_assoc. done.
  - cbn [pos]. rewrite !length_app, Hlen. cbn [length crlf]. lia.
  - cbn. by rewrite <- app_assoc.
Qed.

Lemma back_data_crlf st st1 text1 b1 rest :
  st_ok mb raw st -> phase st = DataCrlf -> step raw mb mc st = Some (inl st1) ->
  shape st1 text1 b1 -> drop (pos st1) raw = text1 ++ rest ->
  exists text b, shape st text b /\ reads st st1 text b text1 b1 rest.
Proof.
  intros Hok Hp Hs Hsh Hd. unfold step in Hs. rewrite Hp in Hs. destruct (_ <? 2); [done|].
  destruct (raw !! pos st) as [c0|] eqn:E0; [|done]. destruct (raw !! S (pos st)) as [c1|] eqn:E1; [|done].
  cbn [mbind option_bind] in Hs. destruct (byte_eqb_spec c0 x0d) as [->|]; [|done].
  destruct (byte_eqb_spec c1 x0a) as [->|]; [|done]. injection Hs as <-. cbn in Hsh, Hd.
  destruct Hsh as (n & k & s & Hct & Hc & Hb & Hk & Hsz). unfold reads, shape. rewrite Hp.
  exists (crlf ++ text1), b1. split; [|split_and!].
  - by exists text1, n, k, s.
  - rewrite (drop_S _ _ _ E0), (drop_S _ _ _ E1). replace (S (S (pos st))) with (pos st + 2)%nat by lia. by rewrite Hd.
  - cbn. lia.
  - done.
Qed.

Lemma back_trailers st st1 text1 b1 rest :
  st_ok mb raw st -> phase st = Trailers -> step raw mb mc st = Some (inl st1) ->
  shape st1 text1 b1 -> drop (pos st1) raw = text1 ++ rest ->
  exists text b, shape st text b /\ reads st st1 text b text1 b1 rest.
Proof.
  intros Hok Hp Hs Hsh Hd. unfold step in Hs. rewrite Hp in Hs.
  destruct (sv_find_sub crlf raw (pos st)) as [e|] eqn:E; [|done].
  apply find_plain_line in E as (Hpl & Hle & He & Hdp & Hlen).
  destruct (Nat.eqb_spec e (pos st)) as [->|Hne]; [done|]. unfold accept_chunk_trailer_line in Hs.
  destruct (Nat.ltb_spec kMaxChunkTrailerLines (S (trailer_lines st))); [done|].
  destruct (Nat.ltb_spec kMaxChunkTrailerBytes (e - pos st + 2)); [done|].
  destruct (Nat.ltb_spec (kMaxChunkTrailerBytes - (e - pos st + 2)) (trailer_bytes st)); [done|].
  injection Hs as <-. unfold shape in Hsh. cbn [phase trailer_lines trailer_bytes] in Hsh. cbn [pos] in Hd.
  destruct Hsh as (-> & k & s & Ht & Hk & Hsz). unfold reads, shape. rewrite Hp.
  set (line := substr raw (pos st) (e - pos st)) in *.
  exists (line ++ crlf ++ text1), []. split; [|split_and!].
  - split; [done|]. exists (S k), (length line + 2 + s)%nat. split_and!; [|lia|lia]. constructor; try done.
    intros Hnil. rewrite Hnil in Hlen. simpl in Hlen. lia.
  - by rewrite Hdp, Hd, <- !app_assoc.
  - cbn [pos]. rewrite !length_app, Hlen. cbn [length crlf]. lia.
  - done.
Qed.

(** A run that ends with a positive code has read such a text. *)
Lemma run_sound fuel st rc st' :
  st_ok mb raw st -> run fuel raw mb mc st = Some (rc, st') -> 0 < rc ->
  exists text b, shape st text b /\ finishes st st' text b /\ rc = Z.of_nat (pos st' - body_start st).
Proof.
  revert st. induction fuel as [|fuel IH]; intros st Hok H Hrc; [done|]. cbn [run] in H.
  pose proof (chunk_step_ok mb mc raw st Hok) as Hg. destruct (step raw mb mc st) as [[st1|[rc1 st1]]|] eqn:Es; [| |done].
  - destruct Hg as (Hok1 & _ & Hbs). destruct (IH st1 Hok1 H Hrc) as (text & b & Hsh & ((rest & Hd) & Hpos & Hb) & Hval).
    assert (exists text' b', shape st text' b' /\ reads st st1 text' b' text b rest) as (text' & b' & Hsh' & Hd' & Hlen & Hbody).
    { destruct (phase st) eqn:Hp; [by apply back_size_line|by apply back_data|by apply back_data_crlf|by apply back_trailers|].
      unfold step in Es. rewrite Hp in Es. done. }
    exists text', b'. split; [done|]. rewrite <- Hbs. split; [|done].
    split_and!; [by exists rest|lia|by rewrite Hb, Hbody].
  - injection H as -> ->. destruct (phase st) eqn:Hp; unfold step in Es; rewrite Hp in Es.
    + repeat case_match; simplify_eq; lia.
    + repeat case_match; simplify_eq; lia.
    + destruct (_ <? 2); [injection Es as <- <-; lia|].
      destruct (raw !! pos st), (raw !! S (pos st)); try done. simpl in Es. case_match; simplify_eq; lia.
    + destruct (sv_find_sub crlf raw (pos st)) as [e|] eqn:E; [|case_match; simplify_eq; lia].
      apply find_plain_line in E as (_ & _ & He & Hdp & _).
      destruct (Nat.eqb_spec e (pos st)) as [->|Hne]; [|repeat case_match; simplify_eq; lia].
      injection Es as <- <-. exists crlf, []. unfold shape, finishes. rewrite Hp. cbn [pos body].
      pose proof (ok_trailers _ _ _ Hok) as [Htl Htb]. rewrite Nat.sub_diag in Hdp.
      split_and!; [done| |eexists; exact Hdp|done|by rewrite app_nil_r|done]. exists 0%nat, 0%nat. split_and!; [apply tp_end|lia|lia].
    + injection Es as <- <-. exists [], []. unfold shape, finishes. rewrite Hp. cbn.
      split_and!; [done|done|by eexists|lia|by rewrite app_nil_r|done].
Qed.

(** With such a text in front of it a state goes on, or ends with it read. *)
Definition goes_on (st : ChunkedDecodeState) (text b rest : bytes) : Prop :=
  (exists st1 text1 b1, step raw mb mc st = Some (inl st1) /\ shape st1 text1 b1 /\
     drop (pos st1) raw = text1 ++ rest /\ (pos st1 + length text1 = pos st + length text)%nat /\
     body st1 ++ b1 = body st ++ b) \/
  (exists st1, step raw mb mc st = Some (inr (Z.of_nat (pos st + length text - body_start st), st1)) /\
     body st1 = body st ++ b).

Lemma forth_size_line st text b rest :
  st_ok mb raw st -> phase st = SizeLine -> shape st text b -> drop (pos st) raw = text ++ rest ->
  goes_on st text b rest.
Proof.
  intros Hok Hp Hsh Hd. left. unfold shape in Hsh. rewrite Hp in Hsh. destruct (ok_body _ _ _ Hok) as [Hbb Hbm].
  destruct Hsh as (n & k & s & Hct & Hc & Hb & Hk & Hsz).
  destruct Hct as [line k s t Hpl Hz Ht|line data n k s t b' Hpl Hz Hne Ht]; apply parse_chunk_size_line_spec in Hz; rewrite <- ?app_assoc in Hd;
    pose proof (sv_find_plain _ _ _ _ Hd Hpl) as Hf; unfold step; rewrite Hp, Hf; cbn [chunks_seen pos body_bytes];
    (destruct (Nat.ltb_spec mc (S (chunks_seen st))); [lia|]);
    replace (pos st + length line - pos st)%nat with (length line) by lia; unfold substr; rewrite Hd, take_app_length, Hz.
  - eexists _, t, []. split_and!; [done| | | |done].
    + unfold shape. cbn [phase trailer_lines trailer_bytes]. split; [done|]. by exists k, s.
    + cbn [pos]. rewrite <- !drop_drop, Hd, drop_app_length. done.
    + cbn [pos]. rewrite !length_app. cbn [length crlf]. lia.
  - assert (0 < length data)%nat by (by destruct data; [|simpl; lia]). destruct (Z.eqb_spec (Z.of_nat (length data)) 0); [lia|].
    rewrite length_app in Hb. destruct (Z.ltb_spec mb (body_bytes st)); [lia|].
    destruct (Z.ltb_spec (mb - body_bytes st) (Z.of_nat (length data))); [lia|]. cbn [orb].
    eexists _, (data ++ crlf ++ t), (data ++ b'). split_and!; [done| | | |done].
    + unfold shape. cbn [phase trailer_lines trailer_bytes chunks_seen remaining body_bytes].
      exists data, t, b', n, k, s. split_and!; try done; [lia|rewrite length_app; lia].
    + cbn [pos]. rewrite <- !drop_drop, Hd, drop_app_length, <- !app_assoc. done.
    + cbn [pos]. rewrite !length_app. cbn [length crlf]. lia.
Qed.

Lemma forth_data st text b rest :
  st_ok mb raw st -> phase st = Data -> shape st text b -> drop (pos st) raw = text ++ rest -> goes_on st text b rest.
Proof.
  intros Hok Hp Hsh Hd. left. unfold shape in Hsh. rewrite Hp in Hsh.
  destruct Hsh as (data & t & b' & n & k & s & -> & -> & Hr & Hct & Hc & Hb & Hk & Hsz).
  destruct (ok_data _ _ _ Hok Hp) as [Hr0 _]. pose proof (ok_start _ _ _ Hok) as Hst.
  assert (Hlen : (pos st + length data + 2 <= length raw)%nat).
  { apply (f_equal length) in Hd. rewrite length_drop, !length_app in Hd. cbn [length crlf] in Hd. lia. }
  unfold step. rewrite Hp. destruct (Nat.leb_spec (length raw) (pos st)); [lia|].
  rewrite available_small by (lia || apply Hok). rewrite Z.min_l by lia. rewrite <- Hr.
  destruct (Z.ltb_spec 0 (Z.of_nat (length data))); [|lia]. cbn [remaining]. rewrite Z.sub_diag. cbn [Z.ltb Z.compare].
  rewrite Nat2Z.id. unfold substr. rewrite Hd, <- !app_assoc, take_app_length.
  eexists _, (crlf ++ t), b'. split_and!; [done| | | |cbn [body]; by rewrite <- app_assoc].
  - unfold shape. cbn [phase trailer_lines trailer_bytes chunks_seen remaining body_bytes].
    exists t, n, k, s. rewrite length_app in Hb. split_and!; try done. lia.
  - cbn [pos]. rewrite <- !drop_drop, Hd, <- !app_assoc, drop_app_length. done.
  - cbn [pos]. rewrite !length_app. lia.
Qed.

Lemma forth_data_crlf st text b rest :
  st_ok mb raw st -> phase st = DataCrlf -> shape st text b -> drop (pos st) raw = text ++ rest -> goes_on st text b rest.
Proof.
  intros Hok Hp Hsh Hd. left. unfold shape in Hsh. rewrite Hp in Hsh.
  destruct Hsh as (t & n & k & s & -> & Hct & Hc & Hb & Hk & Hsz). pose proof (ok_start _ _ _ Hok) as Hst.
  assert (Hlen : (pos st + 2 <= length raw)%nat).
  { apply (f_equal length) in Hd. rewrite length_drop, !length_app in Hd. cbn [length crlf] in Hd. lia. }
  unfold step. rewrite Hp, available_small by (lia || apply Hok).
  destruct (Z.ltb_spec (Z.of_nat (length raw) - Z.of_nat (pos st)) 2); [lia|].
  assert (H0 : raw !! pos st = Some x0d) by (by rewrite <- (Nat.add_0_r (pos st)), <- lookup_drop, Hd).
  assert (H1 : raw !! S (pos st) = Some x0a) by (by rewrite <- Nat.add_1_r, <- lookup_drop, Hd).
  rewrite H0, H1. cbn [mbind option_bind]. eexists _, t, b. split_and!; [done| | | |done].
  - unfold shape. cbn [phase trailer_lines trailer_bytes chunks_seen remaining body_bytes]. by exists n, k, s.
  - cbn [pos]. rewrite <- !drop_drop, Hd. done.
  - cbn [pos]. rewrite !length_app. cbn [length crlf]. lia.
Qed.

Lemma forth_trailers st text b rest :
  st_ok mb raw st -> phase st = Trailers -> shape st text b -> drop (pos st) raw = text ++ rest -> goes_on st text b rest.
Proof.
  intros Hok Hp Hsh Hd. unfold shape in Hsh. rewrite Hp in Hsh. destruct Hsh as (-> & k & s & Ht & Hk & Hsz).
  unfold goes_on, step. rewrite Hp. destruct Ht as [|l k s t Hpl Hne Ht].
  - right. rewrite (sv_find_plain raw (pos st) [] rest) by done. cbn [length]. rewrite Nat.add_0_r, Nat.eqb_refl.
    eexists. split; [done|]. cbn [body]. by rewrite app_nil_r.
  - left. rewrite <- !app_assoc in Hd. rewrite (sv_find_plain _ _ _ _ Hd Hpl).
    assert (0 < length l)%nat by (by destruct l; [|simpl; lia]).
    destruct (Nat.eqb_spec (pos st + length l) (pos st)); [lia|]. unfold accept_chunk_trailer_line.
    replace (pos st + length l - pos st)%nat with (length l) by lia.
    destruct (Nat.ltb_spec kMaxChunkTrailerLines (S (trailer_lines st))); [lia|].
    destruct (Nat.ltb_spec kMaxChunkTrailerBytes (length l + 2)); [lia|].
    destruct (Nat.ltb_spec (kMaxChunkTrailerBytes - (length l + 2)) (trailer_bytes st)); [lia|]. cbn [orb].
    eexists _, t, []. split_and!; [done| | | |done].
    + unfold shape. cbn [phase trailer_lines trailer_bytes]. split; [done|]. exists k, s. split_and!; [done|lia|lia].
    + cbn [pos]. rewrite <- !drop_drop, Hd, drop_app_length. done.
    + cbn [pos]. rewrite !length_app. cbn [length crlf]. lia.
Qed.

Lemma run_complete fuel st text b rest :
  st_ok mb raw st -> shape st text b -> drop (pos st) raw = text ++ rest -> (measure raw st < fuel)%nat ->
  exists st', run fuel raw mb mc st = Some (Z.of_nat (pos st + length text - body_start st), st') /\ body st' = body st ++ b.
Proof.
  revert st text b. induction fuel as [|fuel IH]; intros st text b Hok Hsh Hd Hm; [lia|]. cbn [run].
  assert (goes_on st text b rest) as [(st1 & text1 & b1 & Hs & Hsh1 & Hd1 & Hlen & Hbody)|(st1 & Hs & Hbody)].
  { destruct (phase st) eqn:Hp;
      [by apply forth_size_line|by apply forth_data|by apply forth_data_crlf|by apply forth_trailers|].
    right. unfold shape in Hsh. rewrite Hp in Hsh. destruct Hsh as [-> ->]. exists st. unfold step. rewrite Hp.
    cbn [length]. rewrite Nat.add_0_r, app_nil_r. done. }
  - pose proof (chunk_step_ok mb mc raw st Hok) as Hg. rewrite Hs in *. destruct Hg as (Hok1 & Hlt & Hbs).
    destruct (IH st1 text1 b1 Hok1 Hsh1 Hd1 ltac:(lia)) as (st' & -> & Hb'). exists st'.
    rewrite Hlen, Hbs, Hb', Hbody. done.
  - rewrite Hs. by exists st1.
Qed.
End grammar.

(** ** Bodies that arrive in pieces *)

Section pieces.
Context (mb : Z) (mc : nat) (p more : bytes) (Hsize : Z.of_nat (length (p ++ more)) < 2 ^ 64 - 2).
Notation raw := (p ++ more).

Lemma find_more q e :
  sv_find_sub crlf p q = Some e -> sv_find_sub crlf raw q = Some e /\ substr raw q (e - q) = substr p q (e - q).
Proof.
  intros H. apply find_plain_line in H as (Hpl & Hle & He & Hd & Hlen).
  assert (Hd' : drop q raw = substr p q (e - q) ++ crlf ++ (drop (e + 2) p ++ more)).
  { rewrite drop_app_le by lia. by rewrite Hd, <- !app_assoc. }
  rewrite (sv_find_plain _ _ _ _ Hd' Hpl), Hlen. split; [f_equal; lia|]. unfold substr at 1. rewrite Hd', take_app_length'; [done|].
  by rewrite Hlen.
Qed.

Lemma st_ok_more st : st_ok mb p st -> st_ok mb raw st.
Proof. intros []. split; try done. rewrite length_app. lia. Qed.

(** What a step does with part of the buffer it does with all of it. *)
Lemma step_more st st1 :
  st_ok mb p st -> step p mb mc st = Some (inl st1) -> step raw mb mc st = Some (inl st1).
Proof.
  intros Hok Hs. pose proof (ok_start _ _ _ Hok) as Hst. assert (Hl : (length p <= length raw)%nat) by (rewrite length_app; lia).
  unfold step in *. destruct (phase st) eqn:Hp.
  - destruct (sv_find_sub crlf p (pos st)) as [e|] eqn:E; [|done]. apply find_more in E as [-> Hsub].
    cbn [chunks_seen pos] in *. by rewrite Hsub.
  - destruct (Nat.leb_spec (length p) (pos st)); [done|]. destruct (Nat.leb_spec (length raw) (pos st)); [lia|].
    rewrite available_small in Hs by (lia || apply Hok). rewrite available_small by lia.
    destruct (ok_data _ _ _ Hok Hp) as [Hr _]. set (av := Z.min _ _) in Hs. assert (0 < av) by lia.
    destruct (Z.ltb_spec 0 av); [|lia]. cbn [remaining] in Hs. destruct (Z.ltb_spec 0 (remaining st - av)); [done|].
    rewrite Z.min_l by lia. assert (Hav : av = remaining st) by lia. rewrite Hav in *.
    destruct (Z.ltb_spec 0 (remaining st)); [|lia]. cbn [remaining]. destruct (Z.ltb_spec 0 (remaining st - remaining st)); [lia|].
    rewrite <- Hs. do 4 f_equal. unfold substr. rewrite drop_app_le, take_app_le by (rewrite ?length_drop; lia). done.
  - rewrite available_small in Hs by (lia || apply Hok). rewrite available_small by lia.
    destruct (Z.ltb_spec (Z.of_nat (length p) - Z.of_nat (pos st)) 2); [done|].
    destruct (Z.ltb_spec (Z.of_nat (length raw) - Z.of_nat (pos st)) 2); [lia|]. by rewrite !lookup_app_l by lia.
  - destruct (sv_find_sub crlf p (pos st)) as [e|] eqn:E; [|done]. by apply find_more in E as [-> _].
  - done.
Qed.

(** Data taken in two parts is data taken at once. *)
Definition advance (buf : bytes) (st : ChunkedDecodeState) (av : Z) : ChunkedDecodeState :=
  mkChunked (active st) (body_start st) (pos st + Z.to_nat av) (chunks_seen st) (current_chunk_size st)
    (remaining st - av) (trailer_lines st) (trailer_bytes st) (body_bytes st + av) Data
    (body st ++ substr buf (pos st) (Z.to_nat av)).

Definition to_crlf (st : ChunkedDecodeState) : ChunkedDecodeState :=
  mkChunked (active st) (body_start st) (pos st) (chunks_seen st) (current_chunk_size st)
    (remaining st) (trailer_lines st) (trailer_bytes st) (body_bytes st) DataCrlf (body st).

Lemma step_data_advance buf st :
  st_ok mb buf st -> phase st = Data ->
  let av := Z.min (remaining st) (Z.of_nat (length buf) - Z.of_nat (pos st)) in
  step buf mb mc st = Some (if 0 <? remaining st - av then inr (0, advance buf st av) else inl (to_crlf (advance buf st av))).
Proof.
  intros Hok Hp av. pose proof (ok_start _ _ _ Hok) as Hst. destruct (ok_data _ _ _ Hok Hp) as [Hr _]. unfold step. rewrite Hp.
  destruct (Nat.leb_spec (length buf) (pos st)).
  - assert (av = 0) as -> by lia. destruct (Z.ltb_spec 0 (remaining st - 0)); [|lia]. do 3 f_equal. unfold advance.
    rewrite Z.sub_0_r, Z.add_0_r, Nat.add_0_r. cbn [Z.to_nat]. rewrite substr_nil, app_nil_r, <- Hp. by destruct st.
  - rewrite available_small by (lia || apply Hok). fold av. destruct (Z.ltb_spec 0 av); [|lia]. cbn [remaining].
    by destruct (0 <? remaining st - av).
Qed.

Lemma data_twice st st1 :
  st_ok mb p st -> phase st = Data -> step p mb mc st = Some (inr (0, st1)) ->
  run (run_fuel raw) raw mb mc st1 = run (run_fuel raw) raw mb mc st.
Proof.
  intros Hok Hp Hs. pose proof (chunk_step_ok mb mc p st Hok) as Hg. rewrite Hs in Hg. destruct Hg as (_ & _ & _ & _ & Hok1).
  specialize (Hok1 eq_refl). pose proof (ok_start _ _ _ Hok) as Hst. rewrite step_data_advance in Hs by done.
  set (av := Z.min _ _) in Hs. destruct (Z.ltb_spec 0 (remaining st - av)); [|done]. injection Hs as <-.
  assert (Hav : av = Z.of_nat (length p) - Z.of_nat (pos st)) by lia. assert (Hlr := length_app p more).
  pose proof (step_data_advance raw st (st_ok_more st Hok) Hp) as Ha.
  pose proof (step_data_advance raw (advance p st av) (st_ok_more _ Hok1) eq_refl) as Hb. cbn zeta in *.
  set (v := Z.min (remaining st) (Z.of_nat (length raw) - Z.of_nat (pos st))) in *.
  set (w := Z.min (remaining (advance p st av)) (Z.of_nat (length raw) - Z.of_nat (pos (advance p st av)))) in *.
  assert (Hvw : v = av + w) by (subst v w; cbn [advance remaining pos]; lia).
  assert (Hw : 0 <= w) by (subst w; cbn [advance remaining pos]; lia).
  assert (Hadv : advance raw (advance p st av) w = advance raw st v).
  { unfold advance at 1 3. cbn [active body_start pos chunks_seen current_chunk_size remaining trailer_lines trailer_bytes
      body_bytes body advance]. rewrite Hvw, Z2Nat.inj_add by lia. f_equal; [lia|lia|lia|]. rewrite <- app_assoc. f_equal.
    rewrite substr_add. f_equal.
    unfold substr. rewrite drop_app_le, take_app_le by (rewrite ?length_drop; lia). done. }
  assert (Hrem : remaining (advance p st av) - w = remaining st - v) by (cbn [advance remaining]; lia).
  rewrite Hadv, Hrem in Hb. destruct (0 <? remaining st - v).
  - rewrite (run_value mb mc 1 raw st (0, advance raw st v)); [|by apply st_ok_more|cbn [run]; by rewrite Ha].
    apply (run_value mb mc 1); [by apply st_ok_more|]. cbn [run]. by rewrite Hb.
  - rewrite (run_step mb mc raw _ _ (st_ok_more _ Hok1) Hb), (run_step mb mc raw _ _ (st_ok_more _ Hok) Ha). done.
Qed.

(** A step that asks for more leaves the machine where the whole buffer would
    take it. *)
Lemma step_wait st st1 :
  st_ok mb p st -> step p mb mc st = Some (inr (0, st1)) ->
  run (run_fuel raw) raw mb mc st1 = run (run_fuel raw) raw mb mc st.
Proof.
  intros Hok Hs. destruct (phase st) eqn:Hp; [|by apply data_twice|..]; unfold step in Hs; rewrite Hp in Hs.
  - repeat case_match; simplify_eq; done.
  - destruct (_ <? 2); [by injection Hs as <-|]. destruct (p !! pos st), (p !! S (pos st)); try done. simpl in Hs. by case_match.
  - destruct (sv_find_sub crlf p (pos st)) as [e|]; [|repeat case_match; simplify_eq; done].
    pose proof (ok_start _ _ _ Hok). destruct (Nat.eqb e (pos st)); [|repeat case_match; done].
    exfalso. injection Hs as Hz _. lia.
  - pose proof (ok_complete _ _ _ Hok Hp). exfalso. injection Hs as Hz _. lia.
Qed.

Lemma run_more fuel st rc st1 :
  st_ok mb p st -> run fuel p mb mc st = Some (rc, st1) -> rc = 0 ->
  run (run_fuel raw) raw mb mc st1 = run (run_fuel raw) raw mb mc st.
Proof.
  revert st. induction fuel as [|fuel IH]; intros st Hok Hr ->; [done|]. cbn [run] in Hr.
  pose proof (chunk_step_ok mb mc p st Hok) as Hg. destruct (step p mb mc st) as [[st2|[rc2 st2]]|] eqn:Es; [| |done].
  - destruct Hg as (Hok2 & _ & _). rewrite (IH st2 Hok2 Hr eq_refl).
    symmetry. apply run_step; [by apply st_ok_more|by apply step_more].
  - injection Hr as -> ->. by apply step_wait.
Qed.
End pieces.

(** ** Properties of the chunked decoder *)

Lemma started_ok mb raw start :
  (start <= length raw)%nat -> Z.of_nat (length raw) < 2 ^ 64 - 2 -> 0 <= mb -> st_ok mb raw (started true start).
Proof. intros. split; cbn -[Nat.le]; try done; try lia. Qed.

Lemma dci_started raw start mb mc st :
  active st = true -> body_start st = start ->
  decode_chunked_incremental raw start mb mc st = run (run_fuel raw) raw mb mc st.
Proof. intros Ha Hs. unfold decode_chunked_incremental. by rewrite Ha, Hs, Nat.eqb_refl. Qed.

(** The decoder accepts a text of the coding. *)
Lemma decode_chunked_text c k s text b rest mb mc :
  Z.of_nat (length (text ++ rest)) < 2 ^ 64 - 2 -> 0 <= mb -> chunked_text c k s text b -> (c <= mc)%nat ->
  Z.of_nat (length b) <= mb -> (k <= kMaxChunkTrailerLines)%nat -> (s <= kMaxChunkTrailerBytes)%nat ->
  decode_chunked (text ++ rest) mb mc = Some (Z.of_nat (length text), b).
Proof.
  intros Hsz Hmb Hct Hc Hb Hk Hs. pose proof (started_ok mb (text ++ rest) 0 ltac:(lia) Hsz Hmb) as Hok. unfold decode_chunked.
  change (decode_chunked_incremental (text ++ rest) 0 mb mc fresh)
    with (run (run_fuel (text ++ rest)) (text ++ rest) mb mc (started true 0)).
  assert (Hsh : shape mb mc (started true 0) text b) by (exists c, k, s; cbn; split_and!; try done; lia).
  destruct (run_complete (text ++ rest) mb mc _ _ _ _ rest Hok Hsh eq_refl (measure_fuel _ _)) as (st2 & Hr2 & Hb2).
  cbn [pos body_start started] in Hr2. rewrite Hr2. cbn [mbind option_bind]. rewrite Nat.sub_0_r, Nat.add_0_l.
  assert (0 < length text)%nat by (destruct Hct; rewrite !length_app; simpl; lia).
  destruct (Z.ltb_spec 0 (Z.of_nat (length text))); [|lia]. by rewrite Hb2.
Qed.

(** C11: [decode_chunked] always returns; it succeeds exactly on the texts of the
    chunked coding (chunks with their sizes, extensions ignored, the last chunk,
    trailer lines, an empty line) that respect the limits on chunks, body size
    and trailers. It then returns the number of bytes the coding takes and the
    concatenation of the chunks. *)
Theorem decode_chunked_correct data mb mc :
  Z.of_nat (length data) < 2 ^ 64 - 2 -> 0 <= mb ->
  (exists r, decode_chunked data mb mc = Some r) /\
  forall n b, (decode_chunked data mb mc = Some (n, b) /\ 0 < n) <->
    exists c k s text rest, data = text ++ rest /\ chunked_text c k s text b /\ n = Z.of_nat (length text) /\
      (c <= mc)%nat /\ Z.of_nat (length b) <= mb /\
      (k <= kMaxChunkTrailerLines)%nat /\ (s <= kMaxChunkTrailerBytes)%nat.
Proof.
  intros Hsz Hmb. pose proof (started_ok mb data 0 ltac:(lia) Hsz Hmb) as Hok. unfold decode_chunked.
  change (decode_chunked_incremental data 0 mb mc fresh) with (run (run_fuel data) data mb mc (started true 0)).
  destruct (run_ok mb mc (run_fuel data) data _ Hok (measure_fuel data _)) as (rc & st' & Hr & _).
  split; [rewrite Hr; by eexists|]. intros n b. split.
  - rewrite Hr. cbn [mbind option_bind]. intros [[= <- <-] Hn]. destruct (Z.ltb_spec 0 rc); [|lia].
    apply run_sound in Hr as (text & b' & Hsh & ((rest & Hd) & Hpos & Hbody) & Hval); [|done|done].
    cbn in Hsh, Hd, Hpos, Hbody. rewrite drop_0 in Hd. destruct Hsh as (c & k & s & Hct & Hc & Hb & Hk & Hs).
    rewrite Hbody. exists c, k, s, text, rest. split_and!; try done. rewrite Hval, Hpos. cbn [body_start started]. f_equal. lia.
  - intros (c & k & s & text & rest & -> & Hct & -> & Hc & Hb & Hk & Hs).
    split; [exact (decode_chunked_text c k s text b rest mb mc Hsz Hmb Hct Hc Hb Hk Hs)|]. destruct Hct; rewrite !length_app; simpl; lia.
Qed.

Definition chunked_sample : bytes := B "4;x=1" ++ crlf ++ B "Wiki" ++ crlf ++ B "00" ++ crlf ++ B "T: v" ++ crlf ++ crlf.

Lemma decode_chunked_correct_witness :
  (exists r, decode_chunked chunked_sample 10 4 = Some r) /\
  forall n b, (decode_chunked chunked_sample 10 4 = Some (n, b) /\ 0 < n) <->
    exists c k s text rest, chunked_sample = text ++ rest /\ chunked_text c k s text b /\ n = Z.of_nat (length text) /\
      (c <= 4)%nat /\ Z.of_nat (length b) <= 10 /\
      (k <= kMaxChunkTrailerLines)%nat /\ (s <= kMaxChunkTrailerBytes)%nat.
Proof. apply (decode_chunked_correct chunked_sample 10 4); [vm_compute; reflexivity|lia]. Defined.

Lemma decode_chunked_sample : decode_chunked chunked_sample 10 4 = Some (25, B "Wiki").
Proof. vm_compute. reflexivity. Qed.

(** Reads that arrive one after the other, the decoder called after each with
    the whole buffer, until it answers. *)
Fixpoint feed (start : nat) (mb : Z) (mc : nat) (buf : bytes) (segments : list bytes) (st : ChunkedDecodeState)
  : option (Z * bytes * ChunkedDecodeState) :=
  match segments with
  | [] => Some (0, buf, st)
  | s :: rest =>
      '(rc, st') ← decode_chunked_incremental (buf ++ s) start mb mc st;
      if rc =? 0 then feed start mb mc (buf ++ s) rest st' else Some (rc, buf ++ s, st')
  end.

Definition total (buf : bytes) (segments : list bytes) : Z := Z.of_nat (length (buf ++ concat segments)).

Lemma feed_same start mb mc buf segments st rc buf' st' :
  0 <= mb -> (start <= length buf)%nat -> total buf segments < 2 ^ 64 - 2 ->
  st_ok mb buf st -> body_start st = start ->
  (forall more, Z.of_nat (length (buf ++ more)) < 2 ^ 64 - 2 ->
     run (run_fuel (buf ++ more)) (buf ++ more) mb mc st
     = run (run_fuel (buf ++ more)) (buf ++ more) mb mc (started true start)) ->
  segments <> [] -> feed start mb mc buf segments st = Some (rc, buf', st') ->
  decode_chunked_incremental buf' start mb mc fresh = Some (rc, st').
Proof.
  intros Hmb. revert buf st. induction segments as [|s segments IH]; intros buf st Hst Htot Hok Hbs Hsame Hseg Hf; [done|].
  cbn [feed] in Hf. unfold total in Htot. cbn [concat] in Htot. rewrite app_assoc in Htot.
  assert (Hsz : Z.of_nat (length (buf ++ s)) < 2 ^ 64 - 2) by (rewrite length_app in Htot; lia).
  rewrite dci_started in Hf by (done || apply Hok). pose proof (st_ok_more mb buf s Hsz st Hok) as Hok'.
  destruct (run_ok mb mc (run_fuel (buf ++ s)) _ st Hok' (measure_fuel _ _)) as (rc1 & st1 & Hr & Hact & Hb1 & _ & Hok1).
  assert (Hfresh : forall q, (start <= length q)%nat -> decode_chunked_incremental q start mb mc fresh
    = run (run_fuel q) q mb mc (started true start)) by (intros; done).
  rewrite Hr in Hf. cbn [mbind option_bind] in Hf. destruct (Z.eqb_spec rc1 0) as [->|Hne].
  2: { injection Hf as <- <- <-. rewrite Hfresh by (rewrite length_app; lia). by rewrite <- Hsame, Hr. }
  destruct segments as [|s' segments'].
  { injection Hf as <- <- <-. rewrite Hfresh by (rewrite length_app; lia). by rewrite <- Hsame, Hr. }
  apply (IH (buf ++ s) st1); try done; [rewrite length_app; lia|by apply Hok1|by rewrite Hb1|].
  intros more Hm. rewrite (run_more mb mc (buf ++ s) more Hm _ st _ st1 Hok' Hr eq_refl).
  rewrite <- app_assoc in *. by apply Hsame.
Qed.


Definition chunked_pieces : list bytes := [take 3 chunked_sample; take 7 (drop 3 chunked_sample); drop 10 chunked_sample].


(** whatever the input and the state it continues from, the decoder returns
    and the body it has collected is within [max_body_size]; a state it asks to
    continue from is again such a state. *)
Theorem chunked_bounded mb mc raw st :
  st_ok mb raw st ->
  exists rc st', decode_chunked_incremental raw (body_start st) mb mc st = Some (rc, st') /\
    Z.of_nat (length (body st')) <= mb /\ (rc = 0 -> st_ok mb raw st').
Proof.
  intros Hok. rewrite dci_started by (done || apply Hok).
  destruct (run_ok mb mc (run_fuel raw) raw st Hok (measure_fuel raw st)) as (rc & st' & Hr & _ & _ & Hb & Hok').
  by exists rc, st'.
Qed.

Lemma chunked_bounded_witness :
  exists rc st', decode_chunked_incremental chunked_sample 0 10 4 (started true 0) = Some (rc, st') /\
    Z.of_nat (length (body st')) <= 10 /\ (rc = 0 -> st_ok 10 chunked_sample st').
Proof.
  apply (chunked_bounded 10 4 chunked_sample (started true 0)).
  apply started_ok; [simpl; lia|vm_compute; reflexivity|lia].
Defined.

(** A chunk-size line of 256 bytes. *)
Definition long_size_line : bytes := B "1;" ++ repeat x61 254.
Definition long_chunk : bytes := long_size_line ++ crlf ++ B "x" ++ crlf ++ B "0" ++ crlf ++ crlf.

(** a chunk-size line of exactly [kMaxChunkSizeLineBytes] bytes is accepted
    when its line end arrives with it, and refused when the buffer ends between
    the carriage return and the line feed. *)
Theorem chunk_line_limit_depends_on_arrival :
  decode_chunked long_chunk 10 4 = Some (266, B "x") /\
  fst <$> decode_chunked (take 257 long_chunk) 10 4 = Some (-1).
Proof. split; vm_compute; reflexivity. Qed.

(** ** Content-Length *)

(** a [Content-Length] is accepted exactly when it is a non-empty string of
    decimal digits whose value fits [size_t] and the body limit, and the value
    returned is that number; it is [too_large] exactly when only the limit is
    exceeded, and [malformed] otherwise. *)
Theorem content_length_exact value max_body_size :
  match parse_content_length_limited value max_body_size with
  | Ok n => value <> [] /\ Forall (fun c => is_digit c = true) value /\ n = dec_value value /\
      n <= max_body_size /\ n <= size_max
  | Unexpected too_large => value <> [] /\ Forall (fun c => is_digit c = true) value /\
      max_body_size < dec_value value <= size_max
  | Unexpected malformed => value = [] \/ ~ Forall (fun c => is_digit c = true) value \/ size_max < dec_value value
  end.
Proof.
  unfold parse_content_length_limited, parse_content_length_value. destruct value as [|c v]; [by left|].
  set (value := c :: v). assert (Hne : value <> []) by done.
  destruct (decide (Forall (fun c => is_digit c = true) value)) as [Hd|Hd].
  - rewrite from_chars_all by done. destruct (Z.ltb_spec size_max (dec_value value)); [by right; right|].
    rewrite Nat.eqb_refl. destruct (Z.ltb_spec max_body_size (dec_value value)); split_and!; try done; lia.
  - assert (Hm : forall n, from_chars_unsigned size_max value = FcOk n (length value) -> False)
      by (intros n Hn; apply from_chars_full in Hn; done).
    destruct (from_chars_unsigned size_max value) as [n k| |k]; try by right; left.
    destruct (Nat.eqb_spec k (length value)) as [->|]; [by destruct (Hm n)|by right; left].
Qed.

(** ** Form bodies *)

(** The components between ampersands. *)
Fixpoint split_amp (s cur : bytes) : list bytes :=
  match s with
  | [] => [cur]
  | c :: s' => if c =b x26 then cur :: split_amp s' [] else split_amp s' (cur ++ [c])
  end.

(** The field of a component: name and value around the first equals sign, each
    decoded; an empty component is none. *)
Definition field_of (P : bytes) : list (bytes * bytes) :=
  match find_byte x3d P with
  | Some eq => [(Url.url_decode (take eq P), Url.url_decode (drop (S eq) P))]
  | None => match P with [] => [] | _ => [(Url.url_decode P, [])] end
  end.

Lemma no_decode s : Url.url_needs_component_decode s = false -> Url.url_decode s = s.
Proof.
  intros H. unfold Url.url_decode. rewrite Url.url_decode_impl_spec. apply Url.url_decode_spec_id; [done|].
  apply Forall_forall. intros c Hc. unfold Url.url_special. destruct ((c =b x25) || (true && (c =b x2b))) eqn:E; [|done].
  assert (Url.url_needs_component_decode s = true); [|congruence]. unfold Url.url_needs_component_decode.
  apply existsb_exists. exists c. split; [by apply list_elem_of_In|exact E].
Qed.

Lemma add_component_spec P out : add_component P out = out ++ field_of P.
Proof.
  unfold add_component, field_of. destruct (find_byte x3d P) as [e|].
  - destruct (Url.url_needs_component_decode (take e P)) eqn:E1, (Url.url_needs_component_decode (drop (S e) P)) eqn:E2;
      cbn [negb andb]; try done. by rewrite !no_decode.
  - destruct P as [|c P]; [by rewrite app_nil_r|]. destruct (Url.url_needs_component_decode (c :: P)) eqn:E; [done|].
    by rewrite no_decode.
Qed.

Lemma split_amp_step s cur :
  split_amp s cur = match find_byte x26 s with
    | None => [cur ++ s]
    | Some k => (cur ++ take k s) :: split_amp (drop (S k) s) []
    end.
Proof.
  revert cur. induction s as [|c s IH]; intros cur; simpl; [by rewrite app_nil_r|].
  destruct (c =b x26); [by rewrite app_nil_r|]. rewrite IH. destruct (find_byte x26 s); simpl; by rewrite <- app_assoc.
Qed.

Lemma urlencoded_loop_spec fuel data q out :
  (q <= length data)%nat -> (length data - q < fuel)%nat ->
  urlencoded_loop fuel data q out = Some (out ++ flat_map field_of (split_amp (drop q data) [])).
Proof.
  revert q out. induction fuel as [|fuel IH]; intros q out Hq Hf; [lia|]. cbn [urlencoded_loop].
  destruct (Nat.leb_spec q (length data)); [|lia]. rewrite split_amp_step. unfold sv_find.
  destruct (find_byte x26 (drop q data)) as [k|] eqn:E; cbn [fmap option_fmap option_map].
  - pose proof (find_byte_lt _ _ _ E) as Hk. rewrite length_drop in Hk. rewrite IH by lia.
    rewrite add_component_spec, drop_drop. unfold substr. replace (q + k - q)%nat with k by lia.
    replace (q + S k)%nat with (q + k + 1)%nat by lia. cbn [flat_map app]. by rewrite <- app_assoc.
  - rewrite add_component_spec. cbn [flat_map app]. by rewrite app_nil_r.
Qed.

(** A form as it is written. *)
Definition encode_field (f : bytes * bytes) : bytes := Url.url_form_encode (fst f) ++ x3d :: Url.url_form_encode (snd f).

Fixpoint encode_form (fs : list (bytes * bytes)) : bytes :=
  match fs with
  | [] => []
  | [f] => encode_field f
  | f :: fs' => encode_field f ++ x26 :: encode_form fs'
  end.

Lemma url_encode_byte_clean c : Forall (fun d => (d =b x26) || (d =b x3d) = false) (Url.url_encode_byte true c).
Proof.
  assert (forallb (fun d => negb ((d =b x26) || (d =b x3d))) (Url.url_encode_byte true c) = true) as H by byte_decide c.
  apply forallb_Forall in H. eapply Forall_impl; [exact H|]. intros d Hd. by apply negb_true_iff.
Qed.

Lemma form_encode_clean s : x26 ∉ Url.url_form_encode s /\ x3d ∉ Url.url_form_encode s.
Proof.
  unfold Url.url_form_encode, Url.append_url_form_encoded. rewrite Url.append_url_encoded_flat. cbn [app].
  assert (Forall (fun d => (d =b x26) || (d =b x3d) = false) (flat_map (Url.url_encode_byte true) s)) as H.
  { induction s as [|c s IH]; simpl; [constructor|]. apply Forall_app. split; [apply url_encode_byte_clean|done]. }
  rewrite Forall_forall in H. split; intros Hin; by specialize (H _ Hin).
Qed.

Lemma field_of_encode f : field_of (encode_field f) = [f].
Proof.
  unfold field_of, encode_field. rewrite find_byte_app by apply form_encode_clean. rewrite take_app_length, drop_after.
  unfold Url.url_decode, Url.url_form_encode, Url.append_url_form_encoded. rewrite !Url.url_roundtrip by done. by destruct f.
Qed.

Lemma split_form fs : flat_map field_of (split_amp (encode_form fs) []) = fs.
Proof.
  assert (Hclean : forall f, x26 ∉ encode_field f).
  { intros f. unfold encode_field. rewrite not_elem_of_app, not_elem_of_cons. split_and!; try done; apply form_encode_clean. }
  induction fs as [|f [|g fs] IH]; [done| |]; rewrite split_amp_step.
  - cbn [encode_form]. rewrite (proj2 (find_byte_None _ _) (Hclean f)). cbn [app flat_map]. by rewrite field_of_encode.
  - change (encode_form (f :: g :: fs)) with (encode_field f ++ x26 :: encode_form (g :: fs)).
    rewrite find_byte_app, take_app_length, drop_after by done. cbn [app flat_map]. by rewrite field_of_encode, IH.
Qed.

(** [parse_urlencoded] returns the fields of the components between the
    ampersands, whether they are borrowed or decoded, and reads back every form
    that was encoded with [url_form_encode]. *)
Theorem parse_urlencoded_correct data out fs :
  parse_urlencoded data out = Some (out ++ flat_map field_of (split_amp data [])) /\
  parse_urlencoded (encode_form fs) out = Some (out ++ fs).
Proof. unfold parse_urlencoded. by rewrite !urlencoded_loop_spec, !drop_0, split_form by lia. Qed.
