(* ===== verification/HttpTypes.v ===== *)
(** * Header fields, header lists and URLs

    [src/src/net/http_types.cxx]: the field containers [HttpFields] and
    [HttpFieldsView], the iterators over header lists, the request-target and
    authority helpers, and [Url]. A view and the fields it views are the same
    list of pairs; the storage a view shares with its copies is not modelled.
    The quality values of Accept-Encoding are floating point and are left out,
    as is the formatting of dates by the C library.

    The theorems: [HttpFields::set], which compacts the vector in place,
    replaces exactly the fields of one name; the list iterators split as the
    header grammar says and join back; a URL that parses is well formed, and
    printing it and parsing the text again gives it back when its host is
    written without a colon or in brackets. *)

From Stdlib Require Import ZArith Lia Strings.Byte String.
From stdpp Require Import base tactics option numbers list.
From S2P Require Import Prelude.
From S2P Require Import Codec.
From S2P Require Import HttpBody.

(** ** Fields *)

Module Fields.
Import MediaType.

Record HttpFields := mkFields { data_ : list (bytes * bytes); case_insensitive_ : bool }.

Definition key_eq (ci : bool) (a b : bytes) : bool := if ci then ascii_iequals a b else bytes_eqb a b.

Definition matches (f : HttpFields) (key : bytes) (p : bytes * bytes) : bool := key_eq (case_insensitive_ f) p.1 key.

Fixpoint first_matching_in (ci : bool) (key : bytes) (data : list (bytes * bytes)) : option bytes :=
  match data with
  | [] => None
  | (k, v) :: rest => if key_eq ci k key then Some v else first_matching_in ci key rest
  end.

Definition first_matching (f : HttpFields) (key : bytes) : option bytes :=
  first_matching_in (case_insensitive_ f) key (data_ f).

Definition get (f : HttpFields) (key : bytes) : option bytes := first_matching f key.
Definition value_or (f : HttpFields) (key def : bytes) : bytes := default def (get f key).

(** The reading [operator[]]. *)
Definition at_ (f : HttpFields) (key : bytes) : bytes := default [] (get f key).
Definition contains (f : HttpFields) (key : bytes) : bool :=
  match first_matching f key with Some _ => true | None => false end.

(** [for_each_matching], the visitor adding to an accumulator. *)
Fixpoint for_each_matching_in {S} (ci : bool) (key : bytes) (fn : S -> bytes -> S) (data : list (bytes * bytes)) (s : S) : S :=
  match data with
  | [] => s
  | (k, v) :: rest => for_each_matching_in ci key fn rest (if key_eq ci k key then fn s v else s)
  end.

Definition for_each_matching {S} (f : HttpFields) (key : bytes) (fn : S -> bytes -> S) (s : S) : S :=
  for_each_matching_in (case_insensitive_ f) key fn (data_ f) s.

Definition count (f : HttpFields) (key : bytes) : nat := for_each_matching f key (fun n _ => S n) 0%nat.
Definition values (f : HttpFields) (key : bytes) : list bytes := for_each_matching f key (fun out v => out ++ [v]) [].

(** [for_each_matching_until] with a visitor that may stop it. *)
Fixpoint for_each_matching_until_in {S} (ci : bool) (key : bytes) (fn : S -> bytes -> S * bool)
    (data : list (bytes * bytes)) (s : S) : S * bool :=
  match data with
  | [] => (s, true)
  | (k, v) :: rest =>
      if negb (key_eq ci k key) then for_each_matching_until_in ci key fn rest s
      else
        let '(s', go) := fn s v in
        if negb go then (s', false) else for_each_matching_until_in ci key fn rest s'
  end.

Definition any_value (f : HttpFields) (key : bytes) (pred : bytes -> bool) : bool :=
  fst (for_each_matching_until_in (case_insensitive_ f) key
         (fun matched v => if pred v then (true, false) else (matched, true)) (data_ f) false).

(** The writing [operator[]] with the assignment to what it refers to. *)
Fixpoint assign_in (ci : bool) (key v : bytes) (data : list (bytes * bytes)) : list (bytes * bytes) :=
  match data with
  | [] => [(key, v)]
  | (k, w) :: rest => if key_eq ci k key then (k, v) :: rest else (k, w) :: assign_in ci key v rest
  end.

Definition assign (f : HttpFields) (key v : bytes) : HttpFields :=
  mkFields (assign_in (case_insensitive_ f) key v (data_ f)) (case_insensitive_ f).

Definition emplace_back (f : HttpFields) (k v : bytes) : HttpFields :=
  mkFields (data_ f ++ [(k, v)]) (case_insensitive_ f).

Definition clear (f : HttpFields) : HttpFields := mkFields [] (case_insensitive_ f).

(** The loop of [set]: entries are moved down over the duplicates. *)
Record compact := mkCompact { vec : list (bytes * bytes); found : bool; write : nat }.

Definition set_step (ci : bool) (key field_value : bytes) (c : compact) (read : nat) : option compact :=
  field ← vec c !! read;
  if key_eq ci field.1 key then
    if found c then Some c
    else
      let field' := (field.1, field_value) in
      let v := <[read := field']> (vec c) in
      Some (mkCompact (if (write c =? read)%nat then v else <[write c := field']> v) true (S (write c)))
  else Some (mkCompact (if (write c =? read)%nat then vec c else <[write c := field]> (vec c)) (found c) (S (write c))).

Fixpoint set_loop (ci : bool) (key field_value : bytes) (fuel : nat) (read : nat) (c : compact) : option compact :=
  match fuel with
  | O => if (length (vec c) <=? read)%nat then Some c else None
  | S fuel =>
      if (length (vec c) <=? read)%nat then Some c
      else c' ← set_step ci key field_value c read; set_loop ci key field_value fuel (S read) c'
  end.

Definition set (f : HttpFields) (key field_value : bytes) : option HttpFields :=
  c ← set_loop (case_insensitive_ f) key field_value (length (data_ f)) 0 (mkCompact (data_ f) false 0);
  Some (mkFields (if found c then take (write c) (vec c) else vec c ++ [(key, field_value)]) (case_insensitive_ f)).

(** [std::erase_if] and the number of fields it removed. *)
Definition erase (f : HttpFields) (key : bytes) : nat * HttpFields :=
  let kept := filter (fun p => matches f key p = false) (data_ f) in
  (length (data_ f) - length kept, mkFields kept (case_insensitive_ f))%nat.

End Fields.

(** ** Lists of tokens, parameters and items *)

Module HeaderList.
Import Ascii MediaType.

(** [HeaderTokenView::Iterator]; the end is any iterator that is done. *)
Record token_iterator := mkTokIt { header_ : bytes; pos_ : nat; token_ : bytes; done_ : bool }.

Definition read_token (header : bytes) (pos : nat) : token_iterator :=
  if (length header <? pos)%nat then mkTokIt header pos [] true
  else
    let part := match sv_find x2c header pos with
                | None => drop pos header
                | Some comma => substr header pos (comma - pos)
                end in
    mkTokIt header pos (trim part) false.

Definition next_token (it : token_iterator) : token_iterator :=
  if done_ it then it
  else
    match sv_find x2c (header_ it) (pos_ it) with
    | None => mkTokIt (header_ it) (pos_ it) [] true
    | Some comma => read_token (header_ it) (comma + 1)
    end.

Fixpoint collect_tokens (fuel : nat) (it : token_iterator) : option (list bytes) :=
  if done_ it then Some []
  else
    match fuel with
    | O => None
    | S fuel => rest ← collect_tokens fuel (next_token it); Some (token_ it :: rest)
    end.

(** The tokens a loop over [header_tokens(header)] sees. *)
Definition header_tokens (header : bytes) : option (list bytes) :=
  collect_tokens (S (length header)) (read_token header 0).

Definition join_header_tokens (tokens : list bytes) : bytes :=
  fold_left (fun out token => (match out with [] => [] | _ => out ++ B ", " end) ++ token) tokens [].

Fixpoint find_unquoted_loop (s : bytes) (needle : byte) (quoted escaped : bool) (i : nat) : option nat :=
  match s with
  | [] => None
  | c :: rest =>
      if escaped then find_unquoted_loop rest needle quoted false (S i)
      else if quoted && (c =b x5c) then find_unquoted_loop rest needle quoted true (S i)
      else if c =b x22 then find_unquoted_loop rest needle (negb quoted) escaped (S i)
      else if negb quoted && (c =b needle) then Some i
      else find_unquoted_loop rest needle quoted escaped (S i)
  end.

Definition find_unquoted_header_delim (s : bytes) (needle : byte) (pos : nat) : option nat :=
  find_unquoted_loop (drop pos s) needle false false pos.

Record HeaderParam := mkParam { name : bytes; value : bytes; has_value : bool }.

Definition param_of (segment : bytes) : HeaderParam :=
  match find_unquoted_header_delim segment x3d 0 with
  | None => mkParam (trim segment) [] false
  | Some eq => mkParam (trim (take eq segment)) (trim (drop (eq + 1) segment)) true
  end.

(** [HeaderParamView::Iterator::read_current]: the next parameter and where the
    search goes on. *)
Fixpoint read_param (fuel : nat) (params : bytes) (pos : nat) : option (option (HeaderParam * nat)) :=
  if (length params <? pos)%nat then Some None
  else
    match fuel with
    | O => None
    | S fuel =>
        let semi := find_unquoted_header_delim params x3b pos in
        let segment := trim (match semi with None => drop pos params | Some k => substr params pos (k - pos) end) in
        let pos' := match semi with None => length params + 1 | Some k => k + 1 end%nat in
        match segment with
        | [] => read_param fuel params pos'
        | _ => Some (Some (param_of segment, pos'))
        end
    end.

Fixpoint collect_params (fuel : nat) (params : bytes) (pos : nat) : option (list HeaderParam) :=
  match fuel with
  | O => None
  | S fuel =>
      r ← read_param (S (length params)) params pos;
      match r with
      | None => Some []
      | Some (p, pos') => rest ← collect_params fuel params pos'; Some (p :: rest)
      end
  end.

Definition header_params (params : bytes) : option (list HeaderParam) :=
  collect_params (S (S (length params))) params 0.

Record HeaderItem := mkItem { item_name : bytes; item_value : bytes; item_has_value : bool; item_params : bytes }.

(** [HeaderItemView::Iterator::read_current] on one token. *)
Definition item_of (token : bytes) : HeaderItem :=
  let semi := find_unquoted_header_delim token x3b 0 in
  let first := trim (match semi with None => token | Some k => take k token end) in
  let params := match semi with None => [] | Some k => drop (k + 1) token end in
  match find_unquoted_header_delim first x3d 0 with
  | None => mkItem first [] false params
  | Some eq => mkItem (trim (take eq first)) (trim (drop (eq + 1) first)) true params
  end.

Definition header_items (header : bytes) : option (list HeaderItem) :=
  tokens ← header_tokens header; Some (map item_of tokens).

Definition header_token_contains (header token : bytes) : option bool :=
  match header with
  | [] => Some false
  | _ => tokens ← header_tokens header; Some (existsb (fun part => ascii_iequals part token) tokens)
  end.

(** [for_each_comma_token] with a predicate as the visitor. *)
Definition for_each_comma_token (header_value : bytes) (fn : bytes -> bool) : option bool :=
  tokens ← header_tokens header_value; Some (forallb fn tokens).

Definition kHopByHopHeaders : list bytes :=
  [B "connection"; B "keep-alive"; B "proxy-authenticate"; B "proxy-authorization"; B "te"; B "trailer";
   B "trailers"; B "transfer-encoding"; B "upgrade"].

Definition is_hop_by_hop_header (name : bytes) : bool :=
  existsb (fun candidate => ascii_iequals name candidate) kHopByHopHeaders.
Definition is_request_controlled_header (name : bytes) : bool :=
  ascii_iequals name (B "host") || is_hop_by_hop_header name.
Definition is_response_framing_header (name : bytes) : bool :=
  ascii_iequals name (B "content-length") || is_hop_by_hop_header name.

End HeaderList.

(** ** Timeouts, request targets and authorities *)

Module Target.

(** Milliseconds. *)
Record HttpTimeouts := mkTimeouts {
  resolve : Z; connect : Z; tls : Z; write_ : Z; first_byte : Z; between_bytes : Z
}.

Definition built_in : HttpTimeouts := mkTimeouts 5000 5000 5000 30000 30000 30000.

Definition pick (field : HttpTimeouts -> Z) (request defaults : HttpTimeouts) : Z :=
  if negb (field request =? field built_in) then field request else field defaults.

Definition effective_http_timeouts (request defaults : HttpTimeouts) : HttpTimeouts :=
  mkTimeouts (pick resolve request defaults) (pick connect request defaults) (pick tls request defaults)
    (pick write_ request defaults) (pick first_byte request defaults) (pick between_bytes request defaults).

Record PathQueryView := mkPathQuery { path : bytes; query : bytes; query_suffix : bytes }.

Definition split_path_query (target : bytes) : PathQueryView :=
  match find_byte x3f target with
  | None => mkPathQuery target [] []
  | Some qmark => mkPathQuery (take qmark target) (drop (qmark + 1) target) (drop qmark target)
  end.

Definition path_without_query (target : bytes) : bytes := path (split_path_query target).

Definition origin_form_path_from_target (target : bytes) : bytes :=
  let after n := match sv_find x2f target n with Some slash => drop slash target | None => B "/" end in
  if starts_with target (B "https://") then after 8%nat
  else if starts_with target (B "http://") then after 7%nat
  else target.

Record AuthorityHostPortView := mkAuthority {
  host : bytes; port : bytes; has_port : bool; bracketed_ipv6 : bool; invalid_bracket : bool; invalid_suffix : bool
}.

Definition split_authority_host_port (authority : bytes) : AuthorityHostPortView :=
  if starts_with authority [x5b] then
    match find_byte x5d authority with
    | None => mkAuthority authority [] false true true false
    | Some bracket =>
        let after := drop (bracket + 1) authority in
        match after with
        | [] => mkAuthority authority [] false true false false
        | _ =>
            if negb (starts_with after [x3a]) then mkAuthority (take (bracket + 1) authority) [] false true false true
            else mkAuthority (take (bracket + 1) authority) (drop 1 after) true true false false
        end
    end
  else
    match sv_rfind x3a authority with
    | None => mkAuthority authority [] false false false false
    | Some colon => mkAuthority (take colon authority) (drop (colon + 1) authority) true false false false
    end.

Definition host_without_port (authority : bytes) : bytes :=
  let parts := split_authority_host_port authority in
  if invalid_bracket parts || invalid_suffix parts then authority else host parts.

Definition host_without_port_or_ipv6_brackets (authority : bytes) : bytes :=
  let parts := split_authority_host_port authority in
  if invalid_bracket parts || invalid_suffix parts then authority
  else
    let h := host parts in
    if bracketed_ipv6 parts && (2 <=? length h)%nat && starts_with h [x5b]
       && match last h with Some x5d => true | _ => false end
    then take (length h - 2) (drop 1 h) else h.

End Target.

(** ** URLs *)

Module Url.
Import Ascii.

Inductive UrlErrorKind :=
| empty | missing_scheme | unsupported_scheme | missing_host | invalid_host | invalid_port | invalid_target | too_long.

Record UrlError := mkError { kind : UrlErrorKind; message : bytes }.

Record Url := mkUrl { scheme : bytes; host : bytes; port : Z; path : bytes; query : bytes }.

Definition kMaxUrl : Z := 8192.

(** [uc <= 0x20U || uc == 0x7FU] *)
Definition bad_byte (c : byte) : bool := (byteZ c <=? 0x20) || (c =b x7f).

(** [rest.find_first_of("/?")] *)
Fixpoint find_slash_or_query (s : bytes) : option nat :=
  match s with
  | [] => None
  | c :: s' => if (c =b x2f) || (c =b x3f) then Some 0%nat else S <$> find_slash_or_query s'
  end.

Definition read_port (port_sv : bytes) : option Z :=
  match from_chars_unsigned 65535 port_sv with
  | FcOk p n => if negb (n =? length port_sv)%nat || (p =? 0) then None else Some p
  | _ => None
  end.

(** From the host on: the checks, then path and query. *)
Definition parse_target (scheme host : bytes) (port : Z) (rest : bytes) (authority_end : option nat)
    : expected Url UrlError :=
  match host with
  | [] => Unexpected (mkError missing_host (B "empty host"))
  | _ =>
      if existsb bad_byte host then Unexpected (mkError invalid_host (B "host contains control or space bytes"))
      else
        let '(path, query) :=
          match authority_end with
          | None => (B "/", [])
          | Some e =>
              let pq := Target.split_path_query (drop e rest) in
              (match Target.path pq with [] => B "/" | p => p end, Target.query pq)
          end in
        if existsb bad_byte path || existsb bad_byte query
        then Unexpected (mkError invalid_target (B "request target contains control or space bytes"))
        else Ok (mkUrl scheme host port path query)
  end.

Definition parse_authority (scheme : bytes) (rest : bytes) : expected Url UrlError :=
  let authority_end := find_slash_or_query rest in
  let authority := match authority_end with None => rest | Some e => take e rest end in
  match authority with
  | [] => Unexpected (mkError missing_host (B "missing host"))
  | _ =>
      let parts := Target.split_authority_host_port authority in
      if Target.invalid_bracket parts then Unexpected (mkError missing_host (B "unterminated IPv6 literal"))
      else if Target.invalid_suffix parts
      then Unexpected (mkError invalid_port (B "std::unexpected character after ']'"))
      else
        let default_port := if bytes_eqb scheme (B "https") then 443 else 80 in
        if Target.has_port parts then
          match read_port (Target.port parts) with
          | None => Unexpected (mkError invalid_port (B "invalid port '" ++ Target.port parts ++ B "'"))
          | Some p => parse_target scheme (Target.host parts) p rest authority_end
          end
        else parse_target scheme (Target.host parts) default_port rest authority_end
  end.

Definition parse (input : bytes) : expected Url UrlError :=
  match input with
  | [] => Unexpected (mkError empty (B "empty URL"))
  | _ =>
      if kMaxUrl <? Z.of_nat (length input) then Unexpected (mkError too_long (B "URL exceeds 8192 bytes"))
      else
        match find_sub (B "://") input with
        | None => Unexpected (mkError missing_scheme (B "missing '://'"))
        | Some scheme_end =>
            let scheme := ascii_lower (take scheme_end input) in
            if negb (bytes_eqb scheme (B "http")) && negb (bytes_eqb scheme (B "https"))
            then Unexpected (mkError unsupported_scheme (B "unsupported scheme '" ++ scheme ++ B "'"))
            else
              let rest := drop (scheme_end + 3) input in
              match rest with
              | [] => Unexpected (mkError missing_host (B "missing host"))
              | _ => parse_authority scheme rest
              end
        end
  end.

Definition uses_default_port (u : Url) : bool :=
  (bytes_eqb (scheme u) (B "http") && (port u =? 80)) || (bytes_eqb (scheme u) (B "https") && (port u =? 443)).

Definition append_origin_form_target (u : Url) (out : bytes) : bytes :=
  let out := out ++ (match path u with [] => B "/" | p => p end) in
  match query u with [] => out | q => out ++ [x3f] ++ q end.

Definition origin_form_target_size (u : Url) : nat :=
  (match path u with [] => 1 | p => length p end + match query u with [] => 0 | q => 1 + length q end)%nat.

(** [for (auto value = port; value >= 10; value /= 10) ++port_digits;] on 16 bits. *)
Fixpoint port_digits_loop (fuel : nat) (value : Z) (port_digits : nat) : option nat :=
  if value <? 10 then Some port_digits
  else match fuel with O => None | S fuel => port_digits_loop fuel (value / 10) (S port_digits) end.

Definition host_header_value_size (u : Url) (override_host : bytes) : option nat :=
  match override_host with
  | _ :: _ => Some (length override_host)
  | [] =>
      if uses_default_port u then Some (length (host u))
      else port_digits ← port_digits_loop 4 (port u) 1; Some (length (host u) + 1 + port_digits)%nat
  end.

Definition append_port (u : Url) (out : bytes) : bytes :=
  if uses_default_port u then out else out ++ [x3a] ++ to_dec (port u).

Definition append_host_header_value (u : Url) (out override_host : bytes) : bytes :=
  match override_host with
  | _ :: _ => out ++ override_host
  | [] => append_port u (out ++ host u)
  end.

Definition str (u : Url) : bytes :=
  let out := append_port u (scheme u ++ B "://" ++ host u) in
  let out := match path u with x2f :: _ => out | _ => out ++ [x2f] end in
  let out := out ++ path u in
  match query u with [] => out | q => out ++ [x3f] ++ q end.

Definition set_query_param (u : Url) (name value : bytes) : Url :=
  let query := match query u with [] => [] | q => q ++ [x26] end in
  let query := Codec.Url.append_url_percent_encoded query name ++ [x3d] in
  mkUrl (scheme u) (host u) (port u) (path u) (Codec.Url.append_url_percent_encoded query value).

End Url.

(** ** Fields by name *)

Module FieldsOk.
Import Fields MediaType Ascii.

Lemma key_eq_spec ci a b : key_eq ci a b = true <-> (if ci then ascii_lower a else a) = (if ci then ascii_lower b else b).
Proof. unfold key_eq, ascii_iequals. destruct ci; apply bytes_eqb_eq. Qed.

Lemma key_eq_refl ci a : key_eq ci a a = true.
Proof. by apply key_eq_spec. Qed.

(** Names that are equal to [a] are equal to the same names as [a]. *)
Lemma key_eq_same ci a b c : key_eq ci a b = true -> key_eq ci a c = key_eq ci b c.
Proof.
  intros Hab. apply eq_true_iff_eq. rewrite !key_eq_spec. apply key_eq_spec in Hab. by rewrite Hab.
Qed.

Lemma key_eq_sym ci a b : key_eq ci a b = key_eq ci b a.
Proof. apply eq_true_iff_eq. rewrite !key_eq_spec. naive_solver. Qed.

Lemma values_in ci key data out :
  for_each_matching_in ci key (fun out v => out ++ [v]) data out =
  out ++ map snd (filter (fun p => key_eq ci p.1 key = true) data).
Proof.
  revert out. induction data as [|[k v] rest IH]; intros out; cbn [for_each_matching_in]; [by rewrite app_nil_r|].
  rewrite IH. destruct (key_eq ci k key) eqn:E.
  - rewrite filter_cons_True by done. cbn. by rewrite <- app_assoc.
  - rewrite filter_cons_False by (cbn; congruence). done.
Qed.

Lemma values_spec f key :
  values f key = map snd (filter (fun p => key_eq (case_insensitive_ f) p.1 key = true) (data_ f)).
Proof. unfold values, for_each_matching. apply values_in. Qed.

Lemma count_values f key : count f key = length (values f key).
Proof.
  unfold count, values, for_each_matching. rewrite values_in. cbn [app]. rewrite length_map.
  enough (forall data n, for_each_matching_in (case_insensitive_ f) key (fun n (_ : bytes) => S n) data n =
    (n + length (filter (fun p => key_eq (case_insensitive_ f) p.1 key = true) data))%nat) as -> by done.
  intros data. induction data as [|[k v] rest IH]; intros n; cbn [for_each_matching_in]; [cbn; lia|]. rewrite IH.
  destruct (key_eq (case_insensitive_ f) k key) eqn:E.
  - rewrite filter_cons_True by done. cbn. lia.
  - rewrite filter_cons_False by (cbn; congruence). done.
Qed.

Lemma get_values f key : get f key = head (values f key).
Proof.
  rewrite values_spec. unfold get, first_matching. induction (data_ f) as [|[k v] rest IH]; [done|].
  cbn [first_matching_in]. destruct (key_eq (case_insensitive_ f) k key) eqn:E.
  - by rewrite filter_cons_True by done.
  - rewrite filter_cons_False by (cbn; congruence). done.
Qed.

(** What [set] leaves of a list of fields that has the name. *)
Fixpoint compacted (ci : bool) (key v : bytes) (seen : bool) (data : list (bytes * bytes)) : list (bytes * bytes) :=
  match data with
  | [] => []
  | p :: rest =>
      if key_eq ci p.1 key
      then if seen then compacted ci key v true rest else (p.1, v) :: compacted ci key v true rest
      else p :: compacted ci key v seen rest
  end.

Definition seen_in (ci : bool) (key : bytes) (data : list (bytes * bytes)) : bool :=
  existsb (fun p => key_eq ci p.1 key) data.

Section Loop.
Context (ci : bool) (key v : bytes).

Lemma compacted_snoc seen data p :
  compacted ci key v seen (data ++ [p]) =
  compacted ci key v seen data ++
    (if key_eq ci p.1 key then if seen || seen_in ci key data then [] else [(p.1, v)] else [p]).
Proof.
  revert seen. induction data as [|q rest IH]; intros seen; cbn [compacted app seen_in existsb].
  - rewrite orb_false_r. by repeat case_match.
  - rewrite !IH. destruct (key_eq ci q.1 key); [destruct seen|]; cbn [orb app]; rewrite ?orb_true_r; done.
Qed.

Lemma seen_snoc data p : seen_in ci key (data ++ [p]) = seen_in ci key data || key_eq ci p.1 key.
Proof. unfold seen_in. rewrite existsb_app. cbn. by rewrite orb_false_r. Qed.

Record inv (data : list (bytes * bytes)) (i : nat) (c : compact) : Prop := {
  inv_len : length (vec c) = length data;
  inv_out : take (write c) (vec c) = compacted ci key v false (take i data);
  inv_write : (write c <= i)%nat;
  inv_rest : drop i (vec c) = drop i data;
  inv_found : found c = seen_in ci key (take i data)
}.

Lemma take_S_insert {A} (l : list A) w x : (w < length l)%nat -> take (S w) (<[w:=x]> l) = take w l ++ [x].
Proof.
  intros H. rewrite (take_S_r _ _ x) by (by apply list_lookup_insert_eq). f_equal. apply take_insert_ge. lia.
Qed.

Lemma set_step_inv data i c p :
  inv data i c -> data !! i = Some p -> exists c', set_step ci key v c i = Some c' /\ inv data (S i) c'.
Proof.
  intros [Hl Ho Hw Hr Hf] Hp. pose proof (lookup_lt_Some _ _ _ Hp) as Hi.
  assert (vec c !! i = Some p) as Hv.
  { replace i with (i + 0)%nat by lia. rewrite <- lookup_drop, Hr, lookup_drop. by rewrite Nat.add_0_r. }
  assert (take (S i) data = take i data ++ [p]) as Ht by (by apply take_S_r).
  assert (drop (S i) (vec c) = drop (S i) data) as Hd.
  { by rewrite <- Nat.add_1_r, <- !drop_drop, Hr. }
  unfold set_step. rewrite Hv. cbn [mbind option_bind].
  destruct (key_eq ci p.1 key) eqn:Ek; [destruct (found c) eqn:Ef|]; eexists; (split; [reflexivity|]);
    split; cbn [vec write found]; rewrite ?Ht, ?compacted_snoc, ?seen_snoc, ?Ek, <- ?Hf, ?Ef, ?app_nil_r; try done; try lia.
  - destruct (_ =? _)%nat; by rewrite ?length_insert.
  - destruct (Nat.eqb_spec (write c) i) as [He|He].
    + rewrite He, take_S_insert by lia. rewrite <- He at 1. by rewrite Ho.
    + rewrite take_S_insert by (rewrite length_insert; lia). rewrite take_insert_ge by lia. by rewrite Ho.
  - destruct (Nat.eqb_spec (write c) i) as [He|He]; rewrite ?drop_insert_lt by lia; done.
  - destruct (_ =? _)%nat; by rewrite ?length_insert.
  - destruct (Nat.eqb_spec (write c) i) as [He|He].
    + rewrite He, (take_S_r _ _ p) by done. rewrite <- He at 1. by rewrite Ho.
    + rewrite take_S_insert by lia. by rewrite Ho.
  - destruct (Nat.eqb_spec (write c) i) as [He|He]; rewrite ?drop_insert_lt by lia; done.
  - by rewrite orb_false_r.
Qed.

Lemma set_loop_inv data fuel i c :
  inv data i c -> (i + fuel = length data)%nat -> exists c', set_loop ci key v fuel i c = Some c' /\ inv data (length data) c'.
Proof.
  revert i c. induction fuel as [|fuel IH]; intros i c Hi Hn; cbn [set_loop]; rewrite (inv_len _ _ _ Hi).
  - rewrite (proj2 (Nat.leb_le _ _)) by lia. exists c. replace (length data) with i by lia. done.
  - rewrite (proj2 (Nat.leb_gt _ _)) by lia.
    destruct (lookup_lt_is_Some_2 data i) as [p Hp]; [lia|].
    destruct (set_step_inv _ _ _ _ Hi Hp) as (c' & -> & Hc'). cbn [mbind option_bind]. apply IH; [done|lia].
Qed.

End Loop.

Lemma compacted_unseen ci key v data : seen_in ci key data = false -> compacted ci key v false data = data.
Proof.
  induction data as [|p rest IH]; [done|]. cbn [seen_in existsb compacted]. intros [-> Hr]%orb_false_iff.
  f_equal. by apply IH.
Qed.

Lemma set_data f key v :
  set f key v = Some (mkFields
    (if seen_in (case_insensitive_ f) key (data_ f) then compacted (case_insensitive_ f) key v false (data_ f)
     else data_ f ++ [(key, v)]) (case_insensitive_ f)).
Proof.
  unfold set. destruct (set_loop_inv (case_insensitive_ f) key v (data_ f) (length (data_ f)) 0 (mkCompact (data_ f) false 0))
    as (c & -> & [Hl Ho Hw Hr Hf]); [by split|done|].
  cbn [mbind option_bind]. rewrite firstn_all in Ho, Hf. rewrite <- Hf.
  destruct (found c) eqn:Efd; [by rewrite Ho|]. do 3 f_equal. rewrite compacted_unseen in Ho by done.
  assert (length (take (write c) (vec c)) = length (data_ f)) as Hlen by (by rewrite Ho).
  rewrite length_take in Hlen. rewrite <- Ho. symmetry. apply take_ge. lia.
Qed.

Definition named (ci : bool) (key : bytes) (data : list (bytes * bytes)) : list (bytes * bytes) :=
  filter (fun p => key_eq ci p.1 key = true) data.

Lemma named_cons ci key p data :
  named ci key (p :: data) = if key_eq ci p.1 key then p :: named ci key data else named ci key data.
Proof.
  unfold named. destruct (key_eq ci p.1 key) eqn:E; [by rewrite filter_cons_True by done|].
  by rewrite filter_cons_False by congruence.
Qed.

Lemma compacted_named ci key v key' seen data :
  map snd (named ci key' (compacted ci key v seen data)) =
  if key_eq ci key key' then if seen || negb (seen_in ci key data) then [] else [v]
  else map snd (named ci key' data).
Proof.
  revert seen. induction data as [|p rest IH]; intros seen; cbn [compacted].
  - destruct (key_eq ci key key'); [|done]. cbn. by rewrite orb_true_r.
  - cbn [seen_in existsb]. rewrite (named_cons _ _ p). destruct (key_eq ci p.1 key) eqn:E.
    + rewrite (key_eq_same _ _ _ key' E). cbn [orb negb]. rewrite orb_false_r.
      destruct seen; rewrite ?named_cons; cbn [fst]; rewrite ?(key_eq_same _ _ _ key' E); cbn [map];
        destruct (key_eq ci key key') eqn:E2; cbn [map snd]; rewrite IH; rewrite ?E2; cbn [orb]; done.
    + cbn [orb]. rewrite named_cons. destruct (key_eq ci p.1 key') eqn:E2; cbn [map]; rewrite IH; fold (seen_in ci key rest).
      * destruct (key_eq ci key key') eqn:E3; [|done].
        rewrite (key_eq_same _ _ _ key E2), key_eq_sym, E3 in E. done.
      * done.
Qed.

Definition others (ci : bool) (key : bytes) (data : list (bytes * bytes)) : list (bytes * bytes) :=
  filter (fun p => key_eq ci p.1 key = false) data.

Lemma others_cons ci key p data :
  others ci key (p :: data) = if key_eq ci p.1 key then others ci key data else p :: others ci key data.
Proof.
  unfold others. destruct (key_eq ci p.1 key) eqn:E; [by rewrite filter_cons_False by congruence|].
  by rewrite filter_cons_True by done.
Qed.

Lemma compacted_others ci key v seen data : others ci key (compacted ci key v seen data) = others ci key data.
Proof.
  revert seen. induction data as [|p rest IH]; intros seen; cbn [compacted]; [done|].
  rewrite (others_cons _ _ p). destruct (key_eq ci p.1 key) eqn:E; [destruct seen|];
    rewrite ?others_cons; cbn [fst]; rewrite ?E, IH; done.
Qed.

Lemma seen_named ci key data : seen_in ci key data = false -> forall key', key_eq ci key key' = true -> named ci key' data = [].
Proof.
  intros Hs key' Hk. induction data as [|p rest IH]; [done|]. cbn [seen_in existsb] in Hs.
  apply orb_false_iff in Hs as [Hp Hr]. rewrite named_cons. rewrite (key_eq_sym _ p.1), <- (key_eq_same _ _ _ _ Hk), key_eq_sym, Hp.
  by apply IH.
Qed.

End FieldsOk.

Module FieldsProps.
Import Fields FieldsOk.

(** [HttpFields::set], which moves the fields down over the duplicates in
    place, returns for every name: afterwards the name (in any case, where the
    fields ignore case) has exactly the new value, every other name has the
    values it had, the other fields keep their order, and a name that was
    absent is added at the end. *)
Theorem fields_set_exact f key v :
  exists f', set f key v = Some f' /\ case_insensitive_ f' = case_insensitive_ f /\
    (forall key', values f' key' = if key_eq (case_insensitive_ f) key key' then [v] else values f key') /\
    others (case_insensitive_ f) key (data_ f') = others (case_insensitive_ f) key (data_ f) /\
    (contains f key = false -> data_ f' = data_ f ++ [(key, v)]).
Proof.
  rewrite set_data. eexists. split; [reflexivity|]. cbn [case_insensitive_ data_]. split; [done|].
  set (ci := case_insensitive_ f).
  assert (contains f key = false -> seen_in ci key (data_ f) = false) as Hc.
  { unfold contains, first_matching, seen_in. subst ci. induction (data_ f) as [|[k w] rest IH]; [done|]. cbn.
    by destruct (key_eq _ k key). }
  destruct (seen_in ci key (data_ f)) eqn:E; split_and!.
  - intros key'. rewrite !values_spec. cbn [case_insensitive_ data_]. fold ci. change (filter _ ?l) with (named ci key' l).
    rewrite compacted_named, E. done.
  - apply compacted_others.
  - intros H. by apply Hc in H.
  - intros key'. rewrite !values_spec. cbn [case_insensitive_ data_]. fold ci. rewrite filter_app, map_app.
    change (filter _ [(key, v)]) with (named ci key' [(key, v)]). change (filter _ (data_ f)) with (named ci key' (data_ f)).
    rewrite named_cons. cbn [fst]. destruct (key_eq ci key key') eqn:Ek.
    + by rewrite (seen_named _ _ _ E key' Ek).
    + cbn. by rewrite app_nil_r.
  - unfold others. rewrite filter_app. rewrite filter_cons_False by (cbn; rewrite key_eq_refl; done). by rewrite app_nil_r.
  - done.
Qed.

End FieldsProps.

(** ** Header lists *)

Module HeaderListOk.
Import HeaderList Ascii.

Lemma collect_tokens_spec fuel header pos :
  (pos <= length header)%nat -> (length header < pos + fuel)%nat ->
  collect_tokens fuel (read_token header pos) = Some (map trim (split_on x2c (drop pos header))).
Proof.
  revert pos. induction fuel as [|fuel IH]; intros pos Hp Hf; [lia|].
  rewrite split_on_find. unfold read_token. rewrite (proj2 (Nat.ltb_ge _ _)) by lia.
  unfold sv_find. cbn [collect_tokens next_token done_ header_ pos_ token_]. unfold sv_find.
  destruct (find_byte x2c (drop pos header)) as [n|] eqn:E; cbn [fmap option_fmap option_map].
  - pose proof (find_byte_lt _ _ _ E) as Hn. rewrite length_drop in Hn.
    rewrite IH by lia. cbn [mbind option_bind map]. do 3 f_equal.
    + unfold substr. do 2 f_equal. lia.
    + rewrite drop_drop. do 2 f_equal. lia.
  - by destruct fuel.
Qed.

Lemma header_tokens_spec header : header_tokens header = Some (map trim (split_on x2c header)).
Proof. unfold header_tokens. by rewrite collect_tokens_spec by lia. Qed.

Lemma drop_front_ws a s : Forall (fun c => is_ws c = true) a -> drop_front is_ws (a ++ s) = drop_front is_ws s.
Proof. induction 1 as [|c a Hc Ha IH]; [done|]. cbn [app drop_front]. by rewrite Hc. Qed.

Lemma trim_space t : trim (x20 :: t) = trim t.
Proof. done. Qed.

(** A token that a list can carry. *)
Definition plain_token (t : bytes) : Prop := t <> [] /\ x2c ∉ t /\ trim t = t.

Lemma join_loop tokens out :
  out <> [] ->
  fold_left (fun out token => (match out with [] => [] | _ => out ++ B ", " end) ++ token) tokens out =
  out ++ concat (map (fun t => B ", " ++ t) tokens).
Proof.
  revert out. induction tokens as [|t ts IH]; intros out Ho; cbn [fold_left map concat]; [by rewrite app_nil_r|].
  rewrite IH; [|destruct out; [done|]; by destruct out]. destruct out; [done|]. by rewrite <- !app_assoc.
Qed.

Lemma join_split tokens out :
  x2c ∉ out -> Forall plain_token tokens ->
  map trim (split_on x2c (out ++ concat (map (fun t => B ", " ++ t) tokens))) = trim out :: tokens.
Proof.
  intros Ho Ht. revert out Ho. induction Ht as [|t ts (Hn & Hc & Htr) Ht IH]; intros out Ho; cbn [map concat].
  - by rewrite app_nil_r, split_on_none.
  - replace (out ++ (B ", " ++ t) ++ _) with (out ++ x2c :: (x20 :: t) ++ concat (map (fun t => B ", " ++ t) ts)) by done.
    rewrite split_on_app by done. cbn [map]. rewrite IH, trim_space, Htr; [done|].
    apply not_elem_of_cons. by split.
Qed.

(** The reference for lists of parameters: cut at each separator outside quotes. *)
Fixpoint split_unquoted (needle : byte) (s : bytes) (quoted escaped : bool) : list bytes :=
  let keep c rest := match rest with h :: t => (c :: h) :: t | [] => [[c]] end in
  match s with
  | [] => [[]]
  | c :: s' =>
      if escaped then keep c (split_unquoted needle s' quoted false)
      else if quoted && (c =b x5c) then keep c (split_unquoted needle s' quoted true)
      else if c =b x22 then keep c (split_unquoted needle s' (negb quoted) escaped)
      else if negb quoted && (c =b needle) then [] :: split_unquoted needle s' false false
      else keep c (split_unquoted needle s' quoted escaped)
  end.

Lemma find_unquoted_split s needle q e i :
  match find_unquoted_loop s needle q e i with
  | None => split_unquoted needle s q e = [s]
  | Some j => exists n, j = (i + n)%nat /\ (n < length s)%nat /\
      split_unquoted needle s q e = take n s :: split_unquoted needle (drop (S n) s) false false
  end.
Proof.
  revert q e i. induction s as [|c s IH]; intros q e i; cbn [find_unquoted_loop split_unquoted]; [done|].
  assert (forall q e,
    match find_unquoted_loop s needle q e (S i) with
    | None => match split_unquoted needle s q e with h :: t => (c :: h) :: t | [] => [[c]] end = [c :: s]
    | Some j => exists n, j = (i + n)%nat /\ (n < length (c :: s))%nat /\
        match split_unquoted needle s q e with h :: t => (c :: h) :: t | [] => [[c]] end =
        take n (c :: s) :: split_unquoted needle (drop (S n) (c :: s)) false false
    end) as Hk.
  { intros q' e'. specialize (IH q' e' (S i)). destruct (find_unquoted_loop s needle q' e' (S i)) as [j|].
    - destruct IH as (n & -> & Hn & ->). exists (S n). cbn [length take drop]. split; [lia|]. split; [lia|done].
    - by rewrite IH. }
  destruct e; [apply Hk|]. destruct (q && (c =b x5c)); [apply Hk|]. destruct (c =b x22); [apply Hk|].
  destruct (negb q && (c =b needle)); [|apply Hk].
  exists 0%nat. cbn [length take drop]. split; [lia|]. split; [lia|done].
Qed.

(** The segments that are not blank. *)
Definition segments (s : bytes) : list bytes :=
  filter (fun t => t <> []) (map trim (split_unquoted x3b s false false)).

Lemma segments_step params pos :
  (pos <= length params)%nat ->
  let semi := find_unquoted_header_delim params x3b pos in
  let segment := trim (match semi with None => drop pos params | Some k => substr params pos (k - pos) end) in
  let pos' := match semi with None => length params + 1 | Some k => k + 1 end%nat in
  (pos < pos' <= length params + 1)%nat /\
  segments (drop pos params) = (if decide (segment <> []) then [segment] else []) ++
    (if (length params <? pos')%nat then [] else segments (drop pos' params)).
Proof.
  intros Hp. cbn zeta. unfold find_unquoted_header_delim, segments.
  pose proof (find_unquoted_split (drop pos params) x3b false false pos) as Hs.
  destruct (find_unquoted_loop (drop pos params) x3b false false pos) as [j|].
  - destruct Hs as (n & -> & Hn & ->). rewrite length_drop in Hn. split; [lia|].
    rewrite (proj2 (Nat.ltb_ge _ _)) by lia. unfold substr. replace (pos + n - pos)%nat with n by lia.
    rewrite drop_drop. replace (pos + S n)%nat with (pos + n + 1)%nat by lia. cbn [map].
    rewrite filter_cons. by destruct (decide (trim (take n (drop pos params)) <> [])).
  - rewrite Hs. split; [lia|]. rewrite (proj2 (Nat.ltb_lt _ _)) by lia. cbn [map]. rewrite filter_cons.
    by destruct (decide (trim (drop pos params) <> [])).
Qed.

Lemma read_param_spec fuel params pos :
  (pos <= length params + 1)%nat -> (length params + 1 <= pos + fuel)%nat ->
  exists r, read_param fuel params pos = Some r /\
    match r with
    | None => (if (length params <? pos)%nat then [] else segments (drop pos params)) = []
    | Some (p, pos') => exists t, p = param_of t /\ (pos < pos' <= length params + 1)%nat /\
        (if (length params <? pos)%nat then [] else segments (drop pos params)) =
        t :: (if (length params <? pos')%nat then [] else segments (drop pos' params))
    end.
Proof.
  revert pos. induction fuel as [|fuel IH]; intros pos Hp Hf; cbn [read_param];
    (destruct (Nat.ltb_spec (length params) pos) as [Hgt|Hle]; [by eexists|]); [lia|].
  pose proof (segments_step params pos Hle) as Hs. cbn zeta in Hs. destruct Hs as [Hb ->].
  set (pos' := match find_unquoted_header_delim params x3b pos with None => _ | Some _ => _ end) in *.
  set (segment := trim _) in *. destruct segment as [|c t] eqn:Es.
  - destruct (IH pos') as (r & -> & Hr); [lia..|]. exists r. split; [done|].
    rewrite decide_False by naive_solver. cbn [app]. destruct r as [[p q]|]; [|done].
    destruct Hr as (t & Ht & Hq & He). exists t. split; [done|]. split; [lia|done].
  - eexists. split; [reflexivity|]. cbn beta iota. exists (c :: t). rewrite decide_True by done. done.
Qed.

Lemma collect_params_spec fuel params pos :
  (pos <= length params + 1)%nat -> (length params + 1 < pos + fuel)%nat ->
  collect_params fuel params pos =
  Some (map param_of (if (length params <? pos)%nat then [] else segments (drop pos params))).
Proof.
  revert pos. induction fuel as [|fuel IH]; intros pos Hp Hf; [lia|]. cbn [collect_params].
  destruct (read_param_spec (S (length params)) params pos) as (r & -> & Hs); [lia..|].
  cbn [mbind option_bind]. destruct r as [[p pos']|]; [|by rewrite Hs].
  destruct Hs as (t & -> & Hq & ->). by rewrite IH by lia.
Qed.

Lemma header_params_spec params : header_params params = Some (map param_of (segments params)).
Proof. unfold header_params. rewrite collect_params_spec by lia. by rewrite (proj2 (Nat.ltb_ge _ _)) by lia. Qed.

End HeaderListOk.

Module HeaderListProps.
Import HeaderList HeaderListOk Ascii.

(** a loop over [header_tokens] ends and sees exactly the parts between the
    commas, trimmed; a loop over [header_params] ends and sees one parameter for
    each part between the semicolons that stand outside quoted strings, blank
    parts left out; and [join_header_tokens] writes a list that is read back as
    it was, for tokens that are not blank, trimmed and without commas. *)
Theorem header_lists_exact header :
  header_tokens header = Some (map trim (split_on x2c header)) /\
  header_params header = Some (map param_of (segments header)) /\
  forall t ts, Forall plain_token (t :: ts) -> header_tokens (join_header_tokens (t :: ts)) = Some (t :: ts).
Proof.
  split; [apply header_tokens_spec|]. split; [apply header_params_spec|].
  intros t ts [(Hn & Hc & Ht) Hts]%Forall_cons. rewrite header_tokens_spec. unfold join_header_tokens. cbn [fold_left app].
  rewrite join_loop by done. by rewrite join_split, Ht.
Qed.

(** A comma in a quoted parameter value ends the item: the items are cut from
    the comma-separated tokens, which know no quotes. *)
Lemma quoted_comma_splits_item :
  header_items (B "a;x=" ++ [x22] ++ B "1,2" ++ [x22]) =
  Some [mkItem (B "a") [] false (B "x=" ++ [x22] ++ B "1"); mkItem (B "2" ++ [x22]) [] false []].
Proof. reflexivity. Qed.

End HeaderListProps.

(** ** URLs that parse *)

Module UrlOk.
Import Url Ascii.

(** Well-formed URLs. *)
Record wf (u : Url) : Prop := {
  wf_scheme : scheme u = B "http" \/ scheme u = B "https";
  wf_port : 1 <= port u <= 65535;
  wf_host : host u <> [] /\ existsb bad_byte (host u) = false /\ x2f ∉ host u /\ x3f ∉ host u;
  wf_bracket : starts_with (host u) [x5b] = true -> find_byte x5d (host u) = Some (length (host u) - 1)%nat;
  wf_path : starts_with (path u) [x2f] = true /\ existsb bad_byte (path u) = false /\ x3f ∉ path u;
  wf_query : existsb bad_byte (query u) = false
}.

(** A host whose end the authority shows: a literal in brackets, or no colon. *)
Definition plain_host (u : Url) : Prop := starts_with (host u) [x5b] = true \/ x3a ∉ host u.

Lemma find_slash_spec s :
  match find_slash_or_query s with
  | None => x2f ∉ s /\ x3f ∉ s
  | Some n => (n < length s)%nat /\ x2f ∉ take n s /\ x3f ∉ take n s /\
      (exists t, drop n s = x2f :: t \/ drop n s = x3f :: t)
  end.
Proof.
  induction s as [|c s IH]; cbn [find_slash_or_query]; [split; apply not_elem_of_nil|].
  destruct (byte_eqb_spec c x2f) as [->|Hc1]; cbn [orb];
    [cbn; split; [lia|]; split; [apply not_elem_of_nil|]; split; [apply not_elem_of_nil|]; eauto|].
  destruct (byte_eqb_spec c x3f) as [->|Hc2]; cbn [orb];
    [cbn; split; [lia|]; split; [apply not_elem_of_nil|]; split; [apply not_elem_of_nil|]; eauto|].
  destruct (find_slash_or_query s) as [n|]; cbn [fmap option_fmap option_map].
  - destruct IH as (Hl & H1 & H2 & H3). cbn [take drop length]. rewrite !not_elem_of_cons. split; [lia|]. naive_solver.
  - rewrite !not_elem_of_cons. naive_solver.
Qed.

Lemma find_slash_app a t : x2f ∉ a -> x3f ∉ a -> find_slash_or_query (a ++ x2f :: t) = Some (length a).
Proof.
  intros H1 H2. induction a as [|c a IH]; [done|]. cbn [app find_slash_or_query].
  apply not_elem_of_cons in H1 as [H1 H1'], H2 as [H2 H2'].
  rewrite (proj2 (byte_eqb_ne c x2f)), (proj2 (byte_eqb_ne c x3f)) by done. by rewrite IH.
Qed.

Lemma read_port_spec s p : read_port s = Some p -> 1 <= p <= 65535.
Proof.
  unfold read_port. destruct (from_chars_unsigned 65535 s) as [v n| |] eqn:E; try done.
  destruct (negb (n =? length s)%nat || (v =? 0)) eqn:E2; [done|]. intros [= ->]. bool_simp.
  unfold from_chars_unsigned in E. destruct (span is_digit s) as [ds r] eqn:Es. apply span_spec in Es as (_ & Hd & _).
  destruct ds as [|d ds]; [done|]. destruct (Z.ltb_spec 65535 (dec_value (d :: ds))); [done|]. injection E as <- _.
  pose proof (dec_value_nonneg _ Hd). lia.
Qed.

Lemma read_port_dec p : 1 <= p <= 65535 -> read_port (to_dec p) = Some p.
Proof.
  intros Hp. unfold read_port. rewrite <- (app_nil_r (to_dec p)) at 1. rewrite from_chars_to_dec by (done || lia).
  rewrite Nat.eqb_refl. cbn [negb orb]. by rewrite (proj2 (Z.eqb_neq _ _)) by lia.
Qed.

Lemma path_query_parts t c r :
  t = c :: r -> c = x2f \/ c = x3f ->
  let pq := Target.split_path_query t in
  let path := match Target.path pq with [] => B "/" | p => p end in
  starts_with path [x2f] = true /\ x3f ∉ path.
Proof.
  intros -> Hc. unfold Target.split_path_query. cbn zeta. destruct (find_byte x3f (c :: r)) as [n|] eqn:E; cbn [Target.path].
  - apply find_byte_Some in E as [He Hn]. destruct n as [|n]; cbn [take] in *; [split; [done|]; by apply not_elem_of_cons; split; [|apply not_elem_of_nil]|].
    destruct Hc as [->| ->]; [split; [apply (starts_with_app [x2f])|exact Hn]|]. by apply not_elem_of_cons in Hn as [? _].
  - apply find_byte_None in E. destruct Hc as [->| ->]; [split; [apply (starts_with_app [x2f])|exact E]|]. by apply not_elem_of_cons in E as [? _].
Qed.

Lemma authority_host a :
  let parts := Target.split_authority_host_port a in
  Target.invalid_bracket parts = false -> Target.invalid_suffix parts = false ->
  (exists b, a = Target.host parts ++ b) /\
  (starts_with (Target.host parts) [x5b] = true ->
     find_byte x5d (Target.host parts) = Some (length (Target.host parts) - 1)%nat).
Proof.
  cbn zeta. unfold Target.split_authority_host_port. destruct (starts_with a [x5b]) eqn:Es.
  - destruct (find_byte x5d a) as [n|] eqn:Ef; cbn [Target.invalid_bracket]; [|done].
    apply find_byte_Some in Ef as [Ha Hn].
    assert (length (take n a) = n) as Hln.
    { rewrite length_take. apply (f_equal length) in Ha. rewrite length_app, length_take in Ha. cbn in Ha. lia. }
    assert (take (n + 1) a = take n a ++ [x5d]) as Ht.
    { rewrite Ha at 1. rewrite take_app_ge by lia. by replace (n + 1 - length (take n a))%nat with 1%nat by lia. }
    assert (forall h, h = take n a ++ [x5d] -> find_byte x5d h = Some (length h - 1)%nat) as Hh.
    { intros h ->. rewrite find_byte_app by done. rewrite length_app. cbn. f_equal. lia. }
    destruct (drop (n + 1) a) as [|c after] eqn:Ed; cbn [Target.host Target.invalid_bracket Target.invalid_suffix].
    + split; [exists []; by rewrite app_nil_r|]. intros _. apply Hh. rewrite <- Ht.
      rewrite <- (take_drop (n + 1) a) at 1. by rewrite Ed, app_nil_r.
    + destruct (starts_with (c :: after) [x3a]); cbn [negb Target.host Target.invalid_bracket Target.invalid_suffix]; [|done].
      split; [|intros _; by apply Hh]. exists (c :: after). rewrite <- Ed. by rewrite take_drop.
  - destruct (sv_rfind x3a a) as [k|] eqn:Er; cbn [Target.host].
    + split; [exists (drop k a); by rewrite take_drop|]. intros Hk. exfalso.
      apply starts_with_spec in Hk as [t Ht]. enough (starts_with a [x5b] = true) by congruence.
      apply starts_with_spec. exists (t ++ drop k a). by rewrite app_assoc, <- Ht, take_drop.
    + split; [exists []; by rewrite app_nil_r|]. congruence.
Qed.

Lemma parse_target_wf sch h p rest ae u :
  (sch = B "http" \/ sch = B "https") -> 1 <= p <= 65535 -> x2f ∉ h -> x3f ∉ h ->
  (starts_with h [x5b] = true -> find_byte x5d h = Some (length h - 1)%nat) ->
  match ae with None => True | Some e => exists t, drop e rest = x2f :: t \/ drop e rest = x3f :: t end ->
  parse_target sch h p rest ae = Ok u -> wf u.
Proof.
  intros Hs Hp H1 H2 Hb Hae. unfold parse_target. destruct h as [|c h]; [done|].
  destruct (existsb bad_byte (c :: h)) eqn:Eb; [done|].
  assert (exists P Q, match ae with None => (B "/", []) | Some e =>
    (match Target.path (Target.split_path_query (drop e rest)) with [] => B "/" | q => q end,
     Target.query (Target.split_path_query (drop e rest))) end = (P, Q) /\ starts_with P [x2f] = true /\ x3f ∉ P)
    as (P & Q & Epq & HP1 & HP2).
  { destruct ae as [e|]; [|exists (B "/"), []; split; [done|]; split; [done|]; by apply not_elem_of_cons; split; [|apply not_elem_of_nil]].
    do 2 eexists. split; [reflexivity|]. destruct Hae as (t & [Ht|Ht]); eapply path_query_parts; eauto. }
  cbn zeta. rewrite Epq. destruct (existsb bad_byte P) eqn:EP; [done|]. destruct (existsb bad_byte Q) eqn:EQ; [done|].
  cbn [orb]. intros [= <-]. by split.
Qed.

Lemma parse_wf input u : parse input = Ok u -> wf u.
Proof.
  unfold parse. destruct input as [|c0 s0]; [done|]. set (input := c0 :: s0).
  destruct (_ <? _); [done|]. destruct (find_sub (B "://") input) as [k|]; [|done].
  set (sch := ascii_lower (take k input)).
  destruct (negb (bytes_eqb sch (B "http")) && negb (bytes_eqb sch (B "https"))) eqn:Es; [done|].
  assert (sch = B "http" \/ sch = B "https") as Hs.
  { apply andb_false_iff in Es as [Es|Es]; bool_simp; auto. }
  destruct (drop (k + 3) input) as [|c1 s1] eqn:Er; [done|]. rewrite <- Er. generalize (drop (k + 3) input). intros rest.
  unfold parse_authority. pose proof (find_slash_spec rest) as Hf.
  set (a := match find_slash_or_query rest with None => rest | Some e => take e rest end).
  assert (x2f ∉ a /\ x3f ∉ a) as [Ha1 Ha2].
  { subst a. destruct (find_slash_or_query rest); naive_solver. }
  assert (match find_slash_or_query rest with None => True | Some e => exists t, drop e rest = x2f :: t \/ drop e rest = x3f :: t end) as Hae.
  { destruct (find_slash_or_query rest); naive_solver. }
  destruct a as [|c a']; [done|]. set (a := c :: a') in *.
  destruct (Target.invalid_bracket _) eqn:E1; [done|]. destruct (Target.invalid_suffix _) eqn:E2; [done|].
  destruct (authority_host a E1 E2) as [[b Hb] Hbr].
  assert (x2f ∉ Target.host (Target.split_authority_host_port a) /\ x3f ∉ Target.host (Target.split_authority_host_port a)) as [Hh1 Hh2].
  { rewrite Hb in Ha1, Ha2. apply not_elem_of_app in Ha1, Ha2. tauto. }
  destruct (Target.has_port _).
  - destruct (read_port _) as [p|] eqn:Ep; [|done]. apply read_port_spec in Ep. eauto using parse_target_wf.
  - intros H. eapply parse_target_wf; [..|exact H]; try done. by destruct (bytes_eqb sch (B "https")).
Qed.

(** *** Printing and parsing again *)

Definition port_part (u : Url) : bytes := if uses_default_port u then [] else x3a :: to_dec (port u).
Definition query_part (u : Url) : bytes := match query u with [] => [] | q => x3f :: q end.

Lemma str_shape u :
  starts_with (path u) [x2f] = true ->
  str u = scheme u ++ B "://" ++ (host u ++ port_part u) ++ path u ++ query_part u.
Proof.
  intros Hp. unfold str, append_port, port_part, query_part. apply starts_with_spec in Hp as [t ->]. cbn [app].
  destruct (uses_default_port u), (query u); rewrite ?app_nil_r, <- ?app_assoc; done.
Qed.

Lemma to_dec_clean p c : 0 <= p -> is_digit c = false -> c ∉ to_dec p.
Proof.
  intros Hp Hc Hin. destruct (to_dec_spec p Hp) as (_ & Hd & _). rewrite Forall_forall in Hd.
  apply Hd in Hin. congruence.
Qed.

Lemma port_part_clean u c : wf u -> is_digit c = false -> c <> x3a -> c ∉ port_part u.
Proof.
  intros [_ Hp _ _ _ _] Hc Hne. unfold port_part. destruct (uses_default_port u); [apply not_elem_of_nil|].
  apply not_elem_of_cons. split; [done|]. apply to_dec_clean; [lia|done].
Qed.

Lemma split_printed u :
  wf u -> plain_host u ->
  Target.split_authority_host_port (host u ++ port_part u) =
  Target.mkAuthority (host u) (if uses_default_port u then [] else to_dec (port u)) (negb (uses_default_port u))
    (starts_with (host u) [x5b]) false false.
Proof.
  intros Hwf Hpl. pose proof Hwf as [_ Hp _ Hb _ _]. unfold Target.split_authority_host_port.
  assert (forall t, host u <> [] -> starts_with (host u ++ t) [x5b] = starts_with (host u) [x5b]) as Hst.
  { intros t. destruct (host u) as [|c h]; [done|]. intros _. cbn. by destruct h, t. }
  rewrite Hst by (apply Hwf). destruct (starts_with (host u) [x5b]) eqn:Es.
  - specialize (Hb eq_refl). pose proof (find_byte_lt _ _ _ Hb) as Hlt. apply find_byte_Some in Hb as [Hh Hn].
    replace (S (length (host u) - 1)) with (length (host u)) in Hh by lia. rewrite drop_all in Hh.
    assert (find_byte x5d (host u ++ port_part u) = Some (length (host u) - 1)%nat) as ->.
    { rewrite Hh at 1. rewrite <- app_assoc. cbn [app]. rewrite find_byte_app by done. f_equal. rewrite length_take. lia. }
    replace (length (host u) - 1 + 1)%nat with (length (host u)) by lia. rewrite drop_app_length, take_app_length.
    unfold port_part. destruct (uses_default_port u); cbn [negb]; [by rewrite app_nil_r|].
    change (x3a :: to_dec (port u)) with ([x3a] ++ to_dec (port u)). by rewrite starts_with_app.
  - destruct Hpl as [?|Hc]; [congruence|]. unfold port_part. destruct (uses_default_port u); cbn [negb].
    + rewrite app_nil_r. by rewrite (proj2 (sv_rfind_None _ _) Hc).
    + rewrite sv_rfind_app by (apply to_dec_clean; [lia|done]). rewrite take_app_length.
      by rewrite Nat.add_1_r, drop_after.
Qed.

Lemma parse_target_printed u p n :
  wf u -> n = length (host u ++ port_part u) -> p = port u ->
  parse_target (scheme u) (host u) p ((host u ++ port_part u) ++ path u ++ query_part u) (Some n) = Ok u.
Proof.
  intros [_ _ (Hn & Hb & _) _ (Hp1 & Hp2 & Hp3) Hq] -> ->. unfold parse_target. rewrite Hb.
  destruct (host u) as [|c h] eqn:Eh; [done|]. rewrite <- Eh. cbn zeta. rewrite drop_app_length.
  assert (Target.split_path_query (path u ++ query_part u) = Target.mkPathQuery (path u) (query u) (query_part u)) as ->.
  { unfold Target.split_path_query, query_part. destruct (query u) as [|d q].
    - rewrite app_nil_r. by rewrite (proj2 (find_byte_None _ _) Hp3).
    - rewrite find_byte_app by done. by rewrite take_app_length, drop_app_length, Nat.add_1_r, drop_after. }
  cbn [Target.path Target.query]. apply starts_with_spec in Hp1 as [t Ht]. rewrite Ht. cbn [app]. rewrite Ht in Hp2. cbn [app] in Hp2.
  rewrite Hp2, Hq. cbn [orb]. f_equal. destruct u. cbn in *. by subst.
Qed.

Lemma parse_printed u :
  wf u -> plain_host u -> Z.of_nat (length (str u)) <= kMaxUrl -> parse (str u) = Ok u.
Proof.
  intros Hwf Hpl Hlen. pose proof Hwf as [Hs Hp (Hn & Hb & Hh1 & Hh2) _ (Hp1 & Hp2 & Hp3) Hq].
  unfold parse. rewrite (str_shape u Hp1) in *.
  remember ((host u ++ port_part u) ++ path u ++ query_part u) as rest eqn:Er.
  assert (find_sub (B "://") (scheme u ++ B "://" ++ rest) = Some (length (scheme u)) /\
    ascii_lower (scheme u) = scheme u /\ scheme u <> [] /\
    negb (bytes_eqb (scheme u) (B "http")) && negb (bytes_eqb (scheme u) (B "https")) = false) as (Hf & Hlow & Hne & Hsch).
  { destruct Hs as [->| ->]; (split; [|split; [done|]; by split]).
    all: cbn [app B list_byte_of_string]; apply find_sub_complete; [cbn; lia| |].
    all: try (intros i Hi; do 5 (destruct i as [|i]; [first [reflexivity|cbn in Hi; lia]|]); cbn in Hi; lia).
    all: apply (starts_with_app (B "://")). }
  destruct (scheme u ++ B "://" ++ rest) as [|c0 s0] eqn:E0; [by destruct (scheme u)|]. rewrite <- E0 in *.
  rewrite (proj2 (Z.ltb_ge _ _)) by done. rewrite Hf. cbn zeta. rewrite take_app_length, Hlow, Hsch.
  assert (drop (length (scheme u) + 3) (scheme u ++ B "://" ++ rest) = rest) as ->.
  { rewrite drop_app_ge by lia. by replace (length (scheme u) + 3 - length (scheme u))%nat with 3%nat by lia. }
  destruct rest as [|c1 s1] eqn:E1; [by destruct (host u)|]. rewrite <- E1 in *. clear E1.
  unfold parse_authority.
  assert (find_slash_or_query rest = Some (length (host u ++ port_part u))) as ->.
  { apply starts_with_spec in Hp1 as [t Ht]. rewrite Er, Ht. cbn [app]. apply find_slash_app; apply not_elem_of_app;
      (split; [done|apply port_part_clean; done]). }
  rewrite Er. rewrite take_app_length. destruct (host u ++ port_part u) as [|c2 s2] eqn:E2; [by destruct (host u)|].
  rewrite <- E2. rewrite split_printed by done. cbn [Target.invalid_bracket Target.invalid_suffix Target.has_port Target.port Target.host].
  destruct (uses_default_port u) eqn:Ed; cbn [negb].
  - apply parse_target_printed; [done|done|]. unfold uses_default_port in Ed.
    destruct Hs as [Hs|Hs]; rewrite Hs in Ed |- *; apply orb_true_iff in Ed as [[Es Ep]%andb_true_iff|[Es Ep]%andb_true_iff];
      try discriminate Es; apply Z.eqb_eq in Ep; by rewrite Ep.
  - rewrite read_port_dec by done. by apply parse_target_printed.
Qed.

End UrlOk.

Module UrlProps.
Import Url UrlOk.

(** every URL that [Url::parse] returns is well formed: scheme http or
    https, a port between 1 and 65535, a host that is not empty and, when it
    starts with a bracket, ends with the only closing bracket, a path that starts
    with a slash, and no control or space byte in host, path or query, no
    query mark in host or path, no slash in the host. *)
Theorem url_parse_wf input u : parse input = Ok u -> wf u.
Proof. apply parse_wf. Qed.

Lemma url_parse_wf_witness : wf (mkUrl (B "https") (B "[::1]") 8443 (B "/") (B "q=1")).
Proof. apply (url_parse_wf (B "HTTPS://[::1]:8443?q=1")). vm_compute. reflexivity. Defined.

(** printing a well-formed URL and parsing the text gives the URL back, when
    its host is in brackets or has no colon and the text is not too long. *)
Theorem url_parse_str u :
  wf u -> plain_host u -> Z.of_nat (length (str u)) <= kMaxUrl -> parse (str u) = Ok u.
Proof. apply parse_printed. Qed.

Lemma url_parse_str_witness :
  parse (str (mkUrl (B "http") (B "[::1]") 8080 (B "/a") (B "b"))) = Ok (mkUrl (B "http") (B "[::1]") 8080 (B "/a") (B "b")).
Proof.
  apply url_parse_str.
  - apply (parse_wf (B "http://[::1]:8080/a?b")). vm_compute. reflexivity.
  - left. reflexivity.
  - vm_compute. discriminate.
Defined.

(** without the condition on the host it does not hold: of an authority with
    two colons [Url::parse] takes the first part as host, colon included, and
    [str] and the Host header, which leave out a default port, name another
    host and port. *)
Theorem url_colon_host_renamed :
  exists u u', parse (B "http://a:1:80/") = Ok u /\ host u = B "a:1" /\ port u = 80 /\
    append_host_header_value u [] [] = B "a:1" /\
    parse (str u) = Ok u' /\ host u' = B "a" /\ port u' = 1.
Proof.
  exists (mkUrl (B "http") (B "a:1") 80 (B "/") []), (mkUrl (B "http") (B "a") 1 (B "/") []).
  vm_compute. tauto.
Qed.

End UrlProps.
