(* ===== verification/HttpMessage.v ===== *)
(** * Requests and responses

    The value types that handlers and middleware exchange: [RequestView] and the
    typed field accessors of [src/src/net/server_types.cxx], [Response], its
    builders, cookies and [DeferredResponse] of [src/src/net/response.cxx].
    Objects behind a shared pointer in a body (channels, mapped and streamed
    files, deferred responses) are named by a number; a file body carries the
    size the response reports. The owned and the viewing form of a request are
    the same record.

    The theorems: error pages cannot carry markup from their detail text;
    [append_vary] adds its token once; a deferred response delivers the first
    completion, or the timeout page when the deadline came first; the typed
    accessors accept exactly the decimal numbers of their type. *)

From Stdlib Require Import ZArith Lia Strings.Byte String.
From stdpp Require Import base tactics option numbers list.
From S2P Require Import Prelude.
From S2P Require Import Codec.
From S2P Require Import HttpBody.
From S2P Require Import HttpTypes.

(** ** Responses *)

Module Resp.
Import Fields HeaderList MediaType.

(** [case] of the switch in [append_html_escaped]. *)
Definition html_escape_char (c : byte) : bytes :=
  match c with
  | x26 => B "&amp;"
  | x3c => B "&lt;"
  | x3e => B "&gt;"
  | x22 => B "&quot;"
  | x27 => B "&#39;"
  | _ => [c]
  end.

Definition append_html_escaped (out value : bytes) : bytes := fold_left (fun out c => out ++ html_escape_char c) value out.
Definition html_escaped (value : bytes) : bytes := append_html_escaped [] value.

Definition response_html_error_body (status : Z) (status_text detail : bytes) : bytes :=
  let body := B "<html><body><h1>" ++ to_dec status ++ B " " ++ status_text ++ B "</h1>" in
  let body := match detail with [] => body | _ => body ++ B "<p>" ++ html_escaped detail ++ B "</p>" end in
  body ++ B "</body></html>".

Inductive BodyKind := text_kind | sse_kind | ws_upgrade_kind | mapped_file_kind | streamed_file_kind | deferred_kind.

(** [WsUpgrade]: the key and the handler. *)
Inductive BodyPayload :=
| PText (text : bytes)
| PSse (channel : nat)
| PWs (accept_key : bytes) (handler : nat)
| PMapped (window : nat)
| PStreamed (send_size : nat)
| PDeferred (deferred : nat).

Record Response := mkResponse {
  status : Z; status_text : bytes; content_type : bytes; headers : HttpFields; set_cookies : list bytes;
  trailers : HttpFields; head_only : bool; content_length_hint : nat; body_kind : BodyKind; body_payload : BodyPayload
}.

Definition kContentTypeHtmlUtf8 : bytes := B "text/html; charset=utf-8".
Definition kContentTypeTextUtf8 : bytes := B "text/plain; charset=utf-8".
Definition kContentTypeJson : bytes := B "application/json".
Definition kContentTypeProblemJson : bytes := B "application/problem+json".
Definition kContentTypePrometheus : bytes := B "text/plain; version=0.0.4; charset=utf-8".
Definition kContentTypeEventStream : bytes := B "text/event-stream".

(** A value-initialised response, with the members a braced list names. *)
Definition response_with (status : Z) (status_text content_type : bytes) : Response :=
  mkResponse status status_text content_type (mkFields [] true) [] (mkFields [] true) false 0 text_kind (PText []).

Definition default_response : Response := response_with 200 (B "OK") kContentTypeHtmlUtf8.

Definition set_payload (k : BodyKind) (p : BodyPayload) (r : Response) : Response :=
  mkResponse (status r) (status_text r) (content_type r) (headers r) (set_cookies r) (trailers r) (head_only r)
    (content_length_hint r) k p.

Definition set_text_body (t : bytes) : Response -> Response := set_payload text_kind (PText t).
Definition set_sse_channel (ch : nat) : Response -> Response := set_payload sse_kind (PSse ch).
Definition set_ws_upgrade (key : bytes) (h : nat) : Response -> Response := set_payload ws_upgrade_kind (PWs key h).
Definition set_mapped_file (size : nat) : Response -> Response := set_payload mapped_file_kind (PMapped size).
Definition set_streamed_file (size : nat) : Response -> Response := set_payload streamed_file_kind (PStreamed size).
Definition set_deferred_response (d : nat) : Response -> Response := set_payload deferred_kind (PDeferred d).

Definition set_resp_headers (h : HttpFields) (r : Response) : Response :=
  mkResponse (status r) (status_text r) (content_type r) h (set_cookies r) (trailers r) (head_only r)
    (content_length_hint r) (body_kind r) (body_payload r).

(** [r.headers[name] = value] *)
Definition set_header (name value : bytes) (r : Response) : Response := set_resp_headers (assign (headers r) name value) r.

Definition set_head_only (r : Response) : Response :=
  mkResponse (status r) (status_text r) (content_type r) (headers r) (set_cookies r) (trailers r) true
    (content_length_hint r) (body_kind r) (body_payload r).

Definition text_body (r : Response) : bytes := match body_payload r with PText t => t | _ => [] end.

Definition text_body_mut (r : Response) : Response :=
  match body_kind r, body_payload r with text_kind, PText _ => r | _, _ => set_text_body [] r end.

Definition take_text_body (r : Response) : bytes * Response :=
  match body_payload r with PText t => (t, set_payload (body_kind r) (PText []) r) | _ => ([], r) end.

Definition content_length (r : Response) : nat :=
  if negb (content_length_hint r =? 0)%nat then content_length_hint r
  else
    match body_kind r, body_payload r with
    | mapped_file_kind, PMapped size => size
    | streamed_file_kind, PStreamed size => size
    | _, _ => length (text_body r)
    end.

Definition status_text_for (status : Z) : bytes :=
  match status with
  | 200 => B "OK" | 201 => B "Created" | 204 => B "No Content" | 206 => B "Partial Content"
  | 301 => B "Moved Permanently" | 302 => B "Found" | 304 => B "Not Modified" | 307 => B "Temporary Redirect"
  | 308 => B "Permanent Redirect" | 400 => B "Bad Request" | 401 => B "Unauthorized" | 403 => B "Forbidden"
  | 404 => B "Not Found" | 405 => B "Method Not Allowed" | 408 => B "Request Timeout" | 413 => B "Content Too Large"
  | 414 => B "URI Too Long" | 417 => B "Expectation Failed" | 416 => B "Range Not Satisfiable"
  | 422 => B "Unprocessable Entity" | 431 => B "Request Header Fields Too Large" | 429 => B "Too Many Requests"
  | 500 => B "Internal Server Error" | 502 => B "Bad Gateway" | 504 => B "Gateway Timeout"
  | _ => []
  end.

Definition with_body (body content_type : bytes) (status : Z) (status_text : bytes) : Response :=
  set_text_body body (response_with status status_text content_type).

Definition html (body : bytes) (status : Z) : Response := with_body body kContentTypeHtmlUtf8 status (status_text_for status).
Definition json (body : bytes) (status : Z) : Response := with_body body kContentTypeJson status (status_text_for status).
Definition problem_json (body : bytes) (status : Z) : Response :=
  with_body body kContentTypeProblemJson status (status_text_for status).
Definition prometheus (body : bytes) : Response := with_body body kContentTypePrometheus 200 (B "OK").
Definition text (body : bytes) (status : Z) : Response := with_body body kContentTypeTextUtf8 status (status_text_for status).

Definition redirect (location : bytes) (code : Z) : Response :=
  let status_text := match status_text_for code with [] => B "Found" | t => t end in
  set_header (B "Location") location (response_with code status_text kContentTypeHtmlUtf8).

Definition not_found (path : bytes) : Response := html (response_html_error_body 404 (B "Not Found") path) 404.
Definition bad_request (detail : bytes) : Response := html (response_html_error_body 400 (B "Bad Request") detail) 400.

Definition unauthorized (www_authenticate : bytes) : Response :=
  let r := html (response_html_error_body 401 (B "Unauthorized") []) 401 in
  match www_authenticate with [] => r | w => set_header (B "WWW-Authenticate") w r end.

Definition forbidden (detail : bytes) : Response := html (response_html_error_body 403 (B "Forbidden") detail) 403.

Definition method_not_allowed (allowed : list bytes) : Response :=
  let r := html (response_html_error_body 405 (B "Method Not Allowed") []) 405 in
  match allowed with [] => r | _ => set_header (B "Allow") (join_header_tokens allowed) r end.

Definition unprocessable_entity (detail : bytes) : Response :=
  html (response_html_error_body 422 (B "Unprocessable Entity") detail) 422.
Definition uri_too_long : Response := html (response_html_error_body 414 (B "URI Too Long") []) 414.
Definition header_fields_too_large : Response :=
  html (response_html_error_body 431 (B "Request Header Fields Too Large") []) 431.

Definition bad_gateway (detail : bytes) : Response :=
  set_text_body (match detail with [] => B "Bad Gateway" | d => d end)
    (response_with 502 (B "Bad Gateway") kContentTypeTextUtf8).

Definition gateway_timeout : Response := html (response_html_error_body 504 (B "Gateway Timeout") []) 504.
Definition sse (ch : nat) : Response := set_sse_channel ch (response_with 200 (B "OK") kContentTypeEventStream).
Definition deferred (d : nat) : Response := set_deferred_response d default_response.
Definition internal_error (detail : bytes) : Response :=
  html (response_html_error_body 500 (B "Internal Server Error") detail) 500.
Definition no_content : Response := response_with 204 (B "No Content") kContentTypeHtmlUtf8.

Definition not_modified (etag : bytes) : Response :=
  let r := response_with 304 (B "Not Modified") kContentTypeHtmlUtf8 in
  match etag with [] => r | e => set_header (B "ETag") e r end.

Definition content_too_large : Response := html (response_html_error_body 413 (B "Content Too Large") []) 413.

Definition set_cookie (name cookie_value attributes : bytes) (r : Response) : Response :=
  let line := match attributes with
              | [] => name ++ B "=" ++ cookie_value
              | _ => name ++ B "=" ++ cookie_value ++ B "; " ++ attributes
              end in
  mkResponse (status r) (status_text r) (content_type r) (headers r) (set_cookies r ++ [line]) (trailers r)
    (head_only r) (content_length_hint r) (body_kind r) (body_payload r).

(** Reading [headers["Vary"]] adds the field when it is absent. *)
Definition append_vary (token : bytes) (r : Response) : option Response :=
  let current := at_ (headers r) (B "Vary") in
  let r := if contains (headers r) (B "Vary") then r else set_header (B "Vary") [] r in
  match current with
  | [] => Some (set_header (B "Vary") token r)
  | _ =>
      if bytes_eqb (Ascii.trim current) (B "*") then Some r
      else
        tokens ← header_tokens current;
        if existsb (fun part => ascii_iequals part token) tokens then Some r
        else Some (set_header (B "Vary") (current ++ B ", " ++ token) r)
  end.

Inductive SameSite := Lax | Strict | SameSiteNone.

Definition same_site_token (v : SameSite) : bytes :=
  match v with Lax => B "Lax" | Strict => B "Strict" | SameSiteNone => B "None" end.

Record CookieBuilder := mkCookie { cookie_name : bytes; cookie_value : bytes; cookie_attributes : bytes }.

Definition attribute (attr : bytes) (c : CookieBuilder) : CookieBuilder :=
  match attr with
  | [] => c
  | _ =>
      let a := match cookie_attributes c with [] => [] | a => a ++ B "; " end in
      mkCookie (cookie_name c) (cookie_value c) (a ++ attr)
  end.

Definition cookie_path (v : bytes) : CookieBuilder -> CookieBuilder := attribute (B "Path=" ++ v).
Definition cookie_domain (v : bytes) : CookieBuilder -> CookieBuilder := attribute (B "Domain=" ++ v).
Definition http_only : CookieBuilder -> CookieBuilder := attribute (B "HttpOnly").
Definition secure : CookieBuilder -> CookieBuilder := attribute (B "Secure").
Definition same_site (v : SameSite) : CookieBuilder -> CookieBuilder := attribute (B "SameSite=" ++ same_site_token v).
Definition expires (v : bytes) : CookieBuilder -> CookieBuilder := attribute (B "Expires=" ++ v).

Inductive UploadErrorKind :=
| malformed_body | disconnected | timeout | cancelled | body_too_large | content_length_mismatch | io_error.

Definition upload_error_response (kind : UploadErrorKind) (detail : bytes) : Response :=
  match kind with
  | body_too_large => content_too_large
  | timeout => html (response_html_error_body 408 (B "Request Timeout") detail) 408
  | malformed_body | content_length_mismatch => bad_request detail
  | disconnected | cancelled => set_header (B "Connection") (B "close") (bad_request detail)
  | io_error => internal_error detail
  end.

End Resp.

(** ** Responses that come later *)

Module Deferred.
Import Resp.

Inductive CancelReason := requested | abandoned | shutdown | deadline.

(** [cancel_ctl_] holds a control or none; [cancels] are the requests made
    through it, [wakes] the writes to the event descriptor. *)
Record DeferredResponse := mkDeferred {
  ready_ : option Response; deadline_ : Z; cancel_ctl_ : bool; cancels : list CancelReason; wakes : nat
}.

Definition make (now timeout : Z) : DeferredResponse := mkDeferred None (now + timeout) false [] 0.

Definition complete (response : Response) (d : DeferredResponse) : DeferredResponse :=
  match ready_ d with
  | Some _ => d
  | None => mkDeferred (Some response) (deadline_ d) (cancel_ctl_ d) (cancels d) (S (wakes d))
  end.

Definition is_ready (d : DeferredResponse) : bool := match ready_ d with Some _ => true | None => false end.

Definition take_ready (d : DeferredResponse) : option Response * DeferredResponse :=
  match ready_ d with
  | None => (None, d)
  | Some r => (Some r, mkDeferred None (deadline_ d) (cancel_ctl_ d) (cancels d) (wakes d))
  end.

Definition set_deadline (t : Z) (d : DeferredResponse) : DeferredResponse :=
  mkDeferred (ready_ d) t (cancel_ctl_ d) (cancels d) (wakes d).

Definition attach_cancel (d : DeferredResponse) : DeferredResponse :=
  mkDeferred (ready_ d) (deadline_ d) true (cancels d) (wakes d).

Definition cancel (reason : CancelReason) (d : DeferredResponse) : DeferredResponse :=
  mkDeferred (ready_ d) (deadline_ d) (cancel_ctl_ d)
    (if cancel_ctl_ d then cancels d ++ [reason] else cancels d) (wakes d).

Definition expire_if_past_deadline (now : Z) (d : DeferredResponse) : bool * DeferredResponse :=
  match ready_ d with
  | Some _ => (false, d)
  | None =>
      if now <? deadline_ d then (false, d)
      else
        (true, mkDeferred (Some gateway_timeout) (deadline_ d) false
                 (if cancel_ctl_ d then cancels d ++ [deadline] else cancels d) (S (wakes d)))
  end.

End Deferred.

(** ** Requests *)

Module Req.
Import Fields MediaType.

Record UploadedFile := mkFile { file_name : bytes; filename : bytes; file_type : bytes; file_data : bytes }.

Record RequestView := mkRequestView {
  method : bytes; path : bytes; version : bytes; remote_addr : bytes; is_tls : bool;
  params : HttpFields; headers : HttpFields; query : HttpFields; form : HttpFields; cookies : HttpFields;
  files : list UploadedFile; body : bytes
}.

Inductive HttpFieldSource := in_params | in_headers | in_query | in_form | in_cookies.
Inductive HttpFieldErrorKind := missing | empty | invalid | out_of_range.

Record HttpFieldError := mkFieldError {
  err_kind : HttpFieldErrorKind; err_source : HttpFieldSource; err_name : bytes; err_value : bytes; err_message : bytes
}.

Definition http_field_source_name (s : HttpFieldSource) : bytes :=
  match s with
  | in_params => B "params" | in_headers => B "headers" | in_query => B "query" | in_form => B "form"
  | in_cookies => B "cookies"
  end.

Definition http_field_error (kind : HttpFieldErrorKind) (source : HttpFieldSource) (name value reason : bytes) : HttpFieldError :=
  mkFieldError kind source name value
    (http_field_source_name source ++ B " field '" ++ name ++ B "' " ++ reason).

(** [parse_http_field_value<bool>] *)
Definition parse_bool_value (value : bytes) (source : HttpFieldSource) (name : bytes) : expected bool HttpFieldError :=
  match value with
  | [] => Unexpected (http_field_error empty source name value (B "is empty"))
  | _ =>
      if ascii_iequals value (B "true") || bytes_eqb value (B "1") || ascii_iequals value (B "yes")
         || ascii_iequals value (B "on") then Ok true
      else if ascii_iequals value (B "false") || bytes_eqb value (B "0") || ascii_iequals value (B "no")
         || ascii_iequals value (B "off") then Ok false
      else Unexpected (http_field_error invalid source name value (B "is not a boolean"))
  end.

(** [parse_http_field_value<U>] for an integer type, whose [from_chars] is given. *)
Definition parse_integer_value (from_chars : bytes -> from_chars_result Z) (value : bytes) (source : HttpFieldSource)
    (name : bytes) : expected Z HttpFieldError :=
  match value with
  | [] => Unexpected (http_field_error empty source name value (B "is empty"))
  | _ =>
      match from_chars value with
      | FcRange _ => Unexpected (http_field_error out_of_range source name value (B "is out of range"))
      | FcInvalid => Unexpected (http_field_error invalid source name value (B "is not an integer"))
      | FcOk v n =>
          if negb (n =? length value)%nat
          then Unexpected (http_field_error invalid source name value (B "is not an integer"))
          else Ok v
      end
  end.

Definition http_field_as {T} (parse : bytes -> HttpFieldSource -> bytes -> expected T HttpFieldError)
    (fields : HttpFields) (source : HttpFieldSource) (name : bytes) : expected T HttpFieldError :=
  match get fields name with
  | None => Unexpected (http_field_error missing source name [] (B "is missing"))
  | Some value => parse value source name
  end.

Definition http_field_optional_as {T} (parse : bytes -> HttpFieldSource -> bytes -> expected T HttpFieldError)
    (fields : HttpFields) (source : HttpFieldSource) (name : bytes) : expected (option T) HttpFieldError :=
  match get fields name with
  | None => Ok None
  | Some value => match parse value source name with Unexpected e => Unexpected e | Ok v => Ok (Some v) end
  end.

End Req.

(** ** Escaping *)

Module RespOk.
Import Resp Fields FieldsOk HeaderList HeaderListOk MediaType Ascii.

(** The reading of character references by a browser, for the five that occur. *)
Definition entities : list (bytes * byte) :=
  [(B "&amp;", x26); (B "&lt;", x3c); (B "&gt;", x3e); (B "&quot;", x22); (B "&#39;", x27)].

Definition entity_at (s : bytes) : option (bytes * byte) := List.find (fun e => starts_with s e.1) entities.

Fixpoint html_text (fuel : nat) (s : bytes) : bytes :=
  match fuel, s with
  | O, _ | _, [] => []
  | S fuel, c :: rest =>
      match entity_at s with
      | Some (e, d) => d :: html_text fuel (drop (length e) s)
      | None => c :: html_text fuel rest
      end
  end.

Lemma escaped_flat value out : append_html_escaped out value = out ++ flat_map html_escape_char value.
Proof.
  unfold append_html_escaped. revert out. induction value as [|c v IH]; intros out; cbn [fold_left flat_map]; [by rewrite app_nil_r|].
  by rewrite IH, <- app_assoc.
Qed.

Definition markup (c : byte) : bool := (c =b x3c) || (c =b x3e) || (c =b x22) || (c =b x27).

Lemma escape_char_clean c : forallb (fun d => negb (markup d)) (html_escape_char c) = true.
Proof. byte_decide c. Qed.

Lemma entity_read e d t : In (e, d) entities -> entity_at (e ++ t) = Some (e, d).
Proof.
  assert (starts_with t [] = true) as Hn by (by destruct t).
  intros Hin. cbn in Hin. repeat (destruct Hin as [Hin|Hin]; [injection Hin as <- <-; cbn; by rewrite Hn|]). done.
Qed.

Lemma escape_char_read c t fuel :
  html_text (S fuel) (html_escape_char c ++ t) = c :: html_text fuel t.
Proof.
  destruct (markup c || (c =b x26)) eqn:E.
  - assert (In (html_escape_char c, c) entities) as Hin.
    { unfold markup in E. repeat (apply orb_true_iff in E as [E|E]); apply byte_eqb_eq in E as ->; cbn; tauto. }
    cbn [html_text]. destruct (html_escape_char c ++ t) as [|c0 s0] eqn:Es; [by destruct c|]. rewrite <- Es.
    by rewrite (entity_read _ _ _ Hin), drop_app_length.
  - assert (html_escape_char c = [c]) as Hc.
    { unfold markup in E. bool_simp. destruct c; done. }
    rewrite Hc. cbn [app html_text].
    assert (entity_at (c :: t) = None) as ->; [|done].
    unfold entity_at, entities. bool_simp. cbn.
    by rewrite (proj2 (byte_eqb_ne c x26)) by done.
Qed.

Lemma html_text_escaped value fuel : (length value <= fuel)%nat -> html_text fuel (flat_map html_escape_char value) = value.
Proof.
  revert fuel. induction value as [|c v IH]; intros fuel Hf; [by destruct fuel|]. destruct fuel as [|fuel]; cbn in Hf; [lia|].
  cbn [flat_map]. rewrite escape_char_read. f_equal. apply IH. lia.
Qed.

(** *** Assigning a field *)

Lemma assign_get ci key v key' data :
  first_matching_in ci key' (assign_in ci key v data) =
  if key_eq ci key key' then Some v else first_matching_in ci key' data.
Proof.
  induction data as [|[k w] rest IH]; cbn [assign_in first_matching_in].
  - done.
  - destruct (key_eq ci k key) eqn:E; cbn [first_matching_in].
    + rewrite (key_eq_same _ _ _ key' E). by destruct (key_eq ci key key').
    + destruct (key_eq ci k key') eqn:E2; [|apply IH].
      destruct (key_eq ci key key') eqn:E3; [|done].
      rewrite (key_eq_same _ _ _ key E2), key_eq_sym, E3 in E. done.
Qed.

Lemma at_assign f key v key' : at_ (assign f key v) key' = if key_eq (case_insensitive_ f) key key' then v else at_ f key'.
Proof.
  unfold at_, get, first_matching, assign. cbn [case_insensitive_ data_]. rewrite assign_get.
  by destruct (key_eq (case_insensitive_ f) key key').
Qed.

Lemma at_set_header name v r key :
  at_ (Resp.headers (set_header name v r)) key =
  if key_eq (case_insensitive_ (Resp.headers r)) name key then v else at_ (Resp.headers r) key.
Proof. apply at_assign. Qed.

Lemma ci_set_header name v r : case_insensitive_ (Resp.headers (set_header name v r)) = case_insensitive_ (Resp.headers r).
Proof. done. Qed.

(** The tokens of the Vary field. *)
Definition vary (r : Response) : list bytes :=
  match at_ (Resp.headers r) (B "Vary") with [] => [] | v => map trim (split_on x2c v) end.

Lemma split_on_snoc s token : x2c ∉ token -> split_on x2c (s ++ B ", " ++ token) = split_on x2c s ++ [x20 :: token].
Proof.
  intros Ht. change (B ", " ++ token) with (x2c :: x20 :: token).
  induction s as [|c s IH]; cbn [app split_on].
  - rewrite byte_eqb_refl, (proj2 (byte_eqb_ne x20 x2c)) by done. by rewrite split_on_none.
  - rewrite IH. destruct (c =b x2c); [done|]. pose proof (split_on_nil x2c s). by destruct (split_on x2c s).
Qed.

(** *** A deferred response that is ready *)

Inductive deferred_call := Complete (r : Response) | Expire (now : Z) | SetDeadline (t : Z) | Attach | Cancel (c : Deferred.CancelReason).

Definition do_deferred (d : Deferred.DeferredResponse) (c : deferred_call) : Deferred.DeferredResponse :=
  match c with
  | Complete r => Deferred.complete r d
  | Expire now => snd (Deferred.expire_if_past_deadline now d)
  | SetDeadline t => Deferred.set_deadline t d
  | Attach => Deferred.attach_cancel d
  | Cancel c => Deferred.cancel c d
  end.

Definition run_deferred (d : Deferred.DeferredResponse) (cs : list deferred_call) : Deferred.DeferredResponse :=
  fold_left do_deferred cs d.

(** The response the calls settle on: the first completion, or the timeout page
    at the first expiry that is not before the deadline of that moment. *)
Fixpoint settled (deadline : Z) (cs : list deferred_call) : option Response :=
  match cs with
  | [] => None
  | Complete r :: _ => Some r
  | Expire now :: rest => if now <? deadline then settled deadline rest else Some gateway_timeout
  | SetDeadline t :: rest => settled t rest
  | _ :: rest => settled deadline rest
  end.

Lemma settled_ready d cs r : Deferred.ready_ d = Some r ->
  Deferred.ready_ (run_deferred d cs) = Some r /\ Deferred.wakes (run_deferred d cs) = Deferred.wakes d.
Proof.
  revert d. induction cs as [|c cs IH]; intros d Hd; [done|]. cbn [run_deferred fold_left].
  assert (Deferred.ready_ (do_deferred d c) = Some r /\ Deferred.wakes (do_deferred d c) = Deferred.wakes d) as [H1 H2].
  { destruct c; cbn [do_deferred]; unfold Deferred.complete, Deferred.expire_if_past_deadline; rewrite ?Hd; done. }
  destruct (IH _ H1) as [H3 H4]. unfold run_deferred in *. by rewrite H4.
Qed.

Lemma settled_run d cs :
  Deferred.ready_ d = None -> Deferred.ready_ (run_deferred d cs) = settled (Deferred.deadline_ d) cs /\
  Deferred.wakes (run_deferred d cs) = (Deferred.wakes d + if settled (Deferred.deadline_ d) cs then 1 else 0)%nat.
Proof.
  revert d. induction cs as [|c cs IH]; intros d Hd; [cbn; split; [done|lia]|]. cbn [run_deferred fold_left settled].
  destruct c as [r|now|t| |c]; cbn [do_deferred].
  - unfold Deferred.complete. rewrite Hd.
    match goal with |- context [fold_left _ cs ?d1] => destruct (settled_ready d1 cs r eq_refl) as [H1 H2] end.
    unfold run_deferred in *. rewrite H1, H2. cbn. split; [done|lia].
  - unfold Deferred.expire_if_past_deadline. rewrite Hd. destruct (now <? Deferred.deadline_ d); cbn [snd]; [by apply IH|].
    match goal with |- context [fold_left _ cs ?d1] => destruct (settled_ready d1 cs gateway_timeout eq_refl) as [H1 H2] end.
    unfold run_deferred in *. rewrite H1, H2. cbn. split; [done|lia].
  - apply (IH (Deferred.set_deadline t d)). done.
  - apply (IH (Deferred.attach_cancel d)). done.
  - apply (IH (Deferred.cancel c d)). done.
Qed.

End RespOk.

Module MessageProps.
Import Resp RespOk Fields FieldsOk HeaderList HeaderListOk MediaType Ascii.

(** the detail text of an error page cannot become markup: its escaped form
    contains none of the characters that open or close a tag or an attribute
    value, and reading the character references back gives the text. *)
Theorem html_escape_safe value :
  Forall (fun c => markup c = false) (html_escaped value) /\
  html_text (length value) (html_escaped value) = value.
Proof.
  unfold html_escaped. rewrite escaped_flat. cbn [app]. split; [|by apply html_text_escaped].
  induction value as [|c v IH]; cbn [flat_map]; [constructor|]. apply Forall_app. split; [|done].
  pose proof (escape_char_clean c) as Hc. rewrite forallb_Forall in Hc. eapply Forall_impl; [exact Hc|].
  intros d Hd. by apply negb_true_iff.
Qed.

(** [append_vary] with a token that fits in a list leaves a "*" alone and
    otherwise adds the token after the tokens that are there, unless one of them
    is the token in some case; no other header changes. *)
Theorem append_vary_exact token r :
  plain_token token -> case_insensitive_ (Resp.headers r) = true ->
  exists r', append_vary token r = Some r' /\
    (forall key, ascii_iequals (B "Vary") key = false -> at_ (Resp.headers r') key = at_ (Resp.headers r) key) /\
    (if bytes_eqb (trim (at_ (Resp.headers r) (B "Vary"))) (B "*")
        || existsb (fun t => ascii_iequals t token) (vary r)
     then vary r' = vary r else vary r' = vary r ++ [token]).
Proof.
  intros (Hn & Hc & Ht) Hci. unfold append_vary.
  set (current := at_ (Resp.headers r) (B "Vary")).
  set (r0 := if contains (Resp.headers r) (B "Vary") then r else set_header (B "Vary") [] r).
  assert (case_insensitive_ (Resp.headers r0) = true) as Hci0 by (subst r0; by destruct (contains _ _)).
  assert (forall key, at_ (Resp.headers r0) key = at_ (Resp.headers r) key) as Hat.
  { intros key. subst r0. destruct (contains (Resp.headers r) (B "Vary")) eqn:E; [done|]. rewrite at_set_header.
    destruct (key_eq _ (B "Vary") key) eqn:Ek; [|done]. unfold contains in E. unfold at_, get.
    destruct (first_matching (Resp.headers r) (B "Vary")) eqn:E2; [done|].
    assert (first_matching (Resp.headers r) key = None) as ->; [|done]. revert E2. unfold first_matching.
    induction (data_ (Resp.headers r)) as [|[k w] l IH]; [done|]. cbn [first_matching_in].
    rewrite (key_eq_sym _ k key), <- (key_eq_same _ _ _ k Ek), (key_eq_sym _ (B "Vary") k).
    by destruct (key_eq _ k (B "Vary")). }
  assert (vary r0 = vary r) as Hvr by (unfold vary; by rewrite Hat).
  assert (forall v key, ascii_iequals (B "Vary") key = false -> at_ (Resp.headers (set_header (B "Vary") v r0)) key = at_ (Resp.headers r) key) as Hoth.
  { intros v key Hk. rewrite at_set_header, Hci0, <- Hat. unfold key_eq. by rewrite Hk. }
  assert (forall v, at_ (Resp.headers (set_header (B "Vary") v r0)) (B "Vary") = v) as Hself.
  { intros v. by rewrite at_set_header, key_eq_refl. }
  assert (vary r = match current with [] => [] | v => map trim (split_on x2c v) end) as Hv by (unfold vary; fold current; by destruct current).
  destruct current as [|c0 s0] eqn:Ecur.
  - rewrite Hv. eexists. split; [reflexivity|]. split; [by apply Hoth|]. unfold vary. rewrite Hself.
    destruct token as [|c t]; [done|]. cbn [app existsb]. rewrite split_on_none by done. cbn [map]. by rewrite Ht.
  - rewrite header_tokens_spec. cbn [mbind option_bind]. rewrite Hv.
    destruct (bytes_eqb (trim (c0 :: s0)) (B "*")); cbn [orb].
    { eexists. split; [reflexivity|]. split; [intros; apply Hat|]. by rewrite Hvr. }
    destruct (existsb _ _).
    { eexists. split; [reflexivity|]. split; [intros; apply Hat|]. by rewrite Hvr. }
    eexists. split; [reflexivity|]. split; [by apply Hoth|]. unfold vary. rewrite Hself.
    change ((c0 :: s0) ++ B ", " ++ token) with (c0 :: (s0 ++ B ", " ++ token)).
    cbn beta iota. change (c0 :: (s0 ++ B ", " ++ token)) with ((c0 :: s0) ++ B ", " ++ token).
    rewrite split_on_snoc by done. rewrite map_app. cbn [map]. by rewrite trim_space, Ht.
Qed.

Definition vary_sample : Response := set_header (B "vary") (B "Origin , Accept") default_response.

Lemma append_vary_exact_witness :
  exists r', append_vary (B "Cookie") vary_sample = Some r' /\ vary r' = [B "Origin"; B "Accept"; B "Cookie"].
Proof.
  destruct (append_vary_exact (B "Cookie") vary_sample) as (r' & Hr & _ & Hv).
  - split; [done|]. split; [|reflexivity]. apply (find_byte_None x2c). reflexivity.
  - reflexivity.
  - exists r'. split; [exact Hr|]. exact Hv.
Defined.

(** whatever sequence of completions, expiries, deadline changes and
    cancellations reaches a deferred response, it settles once: on the first
    completion, or on the timeout page when an expiry at or after the deadline
    came first; later calls do not replace the response, and the descriptor is
    signalled once. *)
Theorem deferred_settles_once now timeout cs :
  let d := run_deferred (Deferred.make now timeout) cs in
  fst (Deferred.take_ready d) = settled (now + timeout) cs /\
  Deferred.wakes d = (if settled (now + timeout) cs then 1 else 0)%nat.
Proof.
  cbn zeta. destruct (settled_run (Deferred.make now timeout) cs eq_refl) as [H1 H2]. cbn in H1, H2.
  rewrite H2. split; [|done]. unfold Deferred.take_ready. rewrite H1. by destruct (settled _ _).
Qed.

(** An unsigned field is read exactly when it is a decimal number of its type. *)
Lemma unsigned_field_exact maxv value source name v :
  Req.parse_integer_value (from_chars_unsigned maxv) value source name = Ok v <->
  value <> [] /\ forallb is_digit value = true /\ dec_value value <= maxv /\ v = dec_value value.
Proof.
  pose proof (from_chars_whole maxv value) as Hw. unfold Req.parse_integer_value.
  destruct value as [|c t]; [split; [done|]; by intros [? _]|]. rewrite bool_decide_false in Hw by done. cbn [negb andb] in Hw.
  destruct (from_chars_unsigned maxv (c :: t)) as [n k| |k].
  - destruct (negb (k =? length (c :: t))%nat).
    + split; [done|]. intros (_ & Hd & Hl & _). rewrite Hd, (proj2 (Z.leb_le _ _) Hl) in Hw. done.
    + destruct (forallb is_digit (c :: t)) eqn:Hd; cbn [andb] in Hw; [|done].
      destruct (Z.leb_spec (dec_value (c :: t)) maxv); [|done]. injection Hw as ->. split; [intros [= <-]; by split_and!|]. by intros (_ & _ & _ & ->).
  - split; [done|]. intros (_ & Hd & Hl & _). rewrite Hd, (proj2 (Z.leb_le _ _) Hl) in Hw. done.
  - split; [done|]. intros (_ & Hd & Hl & _). rewrite Hd, (proj2 (Z.leb_le _ _) Hl) in Hw. done.
Qed.

End MessageProps.
