(* ===== verification/HttpServe.v ===== *)
(** * The text of responses and the parts of a request

    [src/src/net/http_server_helpers.cxx]: writing a response, the chunks of a
    stream, header parameters, cookies, [Expect] and [Transfer-Encoding], and
    multipart forms. The date of a response is an argument. A multipart body is
    read in at most [kMaxMultipartParts] rounds, which is the fuel of its loop;
    the other loops are bounded by the length of their text.

    The theorems: a response cannot be split, since its head is the status line
    and the fields of the response that are fields, and the body follows the first
    empty line; a stream of chunks decodes to the bytes sent; cookies and forms
    are read back as they were written. *)

From Stdlib Require Import ZArith Lia Strings.Byte String.
From stdpp Require Import base tactics option numbers list.
From S2P Require Import Prelude.
From S2P Require Import Codec.
From S2P Require Import Http1.
From S2P Require Import HttpBody.
From S2P Require Import HttpTypes.
From S2P Require Import HttpMessage.

(** ** Numbers *)

Module Decimal.

(** [append_decimal] of a signed number, the text only. *)
Definition append_decimal (v : Z) : bytes := if v <? 0 then x2d :: to_dec (- v) else to_dec v.

Definition hex_digit (d : Z) : byte := byte_of_Z (if d <? 10 then 48 + d else 87 + d).

(** [std::to_chars] in base sixteen. *)
Fixpoint to_hex_fuel (fuel : nat) (v : Z) (acc : bytes) : bytes :=
  match fuel with
  | O => acc
  | S fuel =>
      let acc := hex_digit (v mod 16) :: acc in
      if v <? 16 then acc else to_hex_fuel fuel (v / 16) acc
  end.

(** [append_hex] of a [size_t]: sixteen digits at most. *)
Definition append_hex (v : Z) : bytes := to_hex_fuel 16 v [].

End Decimal.

(** ** Writing a response *)

Module Format.
Import Http1.Head Decimal Fields HeaderList Resp.

Definition is_valid_header_name (name : bytes) : bool :=
  match name with [] => false | _ => forallb is_tchar name end.

Definition is_valid_header_value (value : bytes) : bool :=
  forallb (fun c => negb ((byteZ c <? 0x20) && negb (c =b x09)) && negb (c =b x7f)) value.

Definition must_not_have_body (status : Z) : bool :=
  ((100 <=? status) && (status <? 200)) || (status =? 204) || (status =? 304).

Definition is_valid_reason_phrase (value : bytes) : bool :=
  forallb (fun c => negb ((byteZ c <? 0x20) && negb (c =b x09)) && negb (c =b x7f)) value.

Definition is_ws_upgrade (r : Response) : bool := match body_kind r with ws_upgrade_kind => true | _ => false end.
Definition is_mapped_file (r : Response) : bool := match body_kind r with mapped_file_kind => true | _ => false end.
Definition is_streamed_file (r : Response) : bool := match body_kind r with streamed_file_kind => true | _ => false end.

Definition add_header (out : bytes) (p : bytes * bytes) : bytes :=
  if is_response_framing_header p.1 then out
  else if negb (is_valid_header_name p.1) || negb (is_valid_header_value p.2) then out
  else out ++ p.1 ++ B ": " ++ p.2 ++ crlf.

Definition add_cookie (out sc : bytes) : bytes :=
  if negb (is_valid_header_value sc) then out else out ++ B "Set-Cookie: " ++ sc ++ crlf.

Definition format_response (http_date_now : bytes) (r : Response) (alt_svc : bytes) (close : bool) : bytes :=
  match is_ws_upgrade r, body_payload r with
  | true, PWs accept _ =>
      B "HTTP/1.1 101 Switching Protocols" ++ crlf ++ B "Upgrade: websocket" ++ crlf ++ B "Connection: Upgrade" ++ crlf
      ++ B "Sec-WebSocket-Accept: " ++ accept ++ crlf ++ crlf
  | _, _ =>
      let status_no_body := must_not_have_body (status r) in
      let suppress_body := status_no_body || head_only r in
      let include_body := negb suppress_body && negb (is_mapped_file r) && negb (is_streamed_file r) in
      let out := B "HTTP/1.1 " ++ append_decimal (status r) ++ B " " in
      let out := if is_valid_reason_phrase (status_text r) then out ++ status_text r else out in
      let out := out ++ crlf ++ B "Date: " ++ http_date_now ++ crlf in
      let out := match content_type r with
                 | [] => out
                 | _ => if is_valid_header_value (content_type r) then out ++ B "Content-Type: " ++ content_type r ++ crlf else out
                 end in
      let out :=
        if status r =? 304 then
          if negb (content_length_hint r =? 0)%nat
          then out ++ B "Content-Length: " ++ append_decimal (Z.of_nat (content_length_hint r)) ++ crlf else out
        else if negb status_no_body
        then out ++ B "Content-Length: " ++ append_decimal (Z.of_nat (content_length r)) ++ crlf else out in
      let out := fold_left add_header (data_ (headers r)) out in
      let out := fold_left add_cookie (set_cookies r) out in
      let out := match alt_svc with [] => out | _ => out ++ B "Alt-Svc: " ++ alt_svc ++ crlf end in
      let out := out ++ (if close then B "Connection: close" else B "Connection: keep-alive") ++ crlf ++ crlf in
      if include_body then out ++ text_body r else out
  end.

Definition format_sse_headers (close : bool) : bytes :=
  B "HTTP/1.1 200 OK" ++ crlf ++ B "Content-Type: text/event-stream" ++ crlf ++ B "Cache-Control: no-cache" ++ crlf
  ++ B "Transfer-Encoding: chunked" ++ crlf
  ++ (if close then B "Connection: close" else B "Connection: keep-alive") ++ crlf ++ crlf.

Definition format_http_chunk (payload : bytes) : bytes :=
  append_hex (Z.of_nat (length payload)) ++ crlf ++ payload ++ crlf.

End Format.

(** ** Parameters, cookies and expectations *)

Module Parts.
Import Ascii Fields HeaderList MediaType.

(** The loop over a quoted string: up to the quote, or everything. *)
Fixpoint quoted_loop (rest : bytes) (escaped : bool) (i : nat) : option nat :=
  match rest with
  | [] => None
  | c :: rest =>
      if escaped then quoted_loop rest false (S i)
      else if c =b x5c then quoted_loop rest true (S i)
      else if c =b x22 then Some i
      else quoted_loop rest false (S i)
  end.

Definition param_value (v : bytes) : bytes :=
  match trim v with
  | x22 :: q => match quoted_loop q false 0 with Some i => take i q | None => q end
  | v => v
  end.

Fixpoint find_param (params : list HeaderParam) (param_name : bytes) : bytes :=
  match params with
  | [] => []
  | p :: rest =>
      if negb (has_value p) || negb (ascii_iequals (name p) param_name) then find_param rest param_name
      else param_value (value p)
  end.

Definition extract_param (header param_name : bytes) : option bytes :=
  params ← header_params header; Some (find_param params param_name).

Definition is_ows (c : byte) : bool := (c =b x20) || (c =b x09).
Definition trim_cookie_ows (s : bytes) : bytes := drop_back is_ows (drop_front is_ows s).

Definition add_cookie_pair (P : bytes) (out : HttpFields) : HttpFields :=
  match find_byte x3d P with
  | Some eq =>
      match trim_cookie_ows (take eq P) with
      | [] => out
      | n => emplace_back out n (trim_cookie_ows (drop (eq + 1) P))
      end
  | None => match P with [] => out | _ => emplace_back out P [] end
  end.

Fixpoint cookie_loop (fuel : nat) (cookie_header : bytes) (pos : nat) (out : HttpFields) : option HttpFields :=
  if (length cookie_header <=? pos)%nat then Some out
  else
    match fuel with
    | O => None
    | S fuel =>
        let sep := sv_find x3b cookie_header pos in
        let P := trim_cookie_ows (match sep with None => drop pos cookie_header | Some k => substr cookie_header pos (k - pos) end) in
        let out := add_cookie_pair P out in
        match sep with None => Some out | Some k => cookie_loop fuel cookie_header (k + 1) out end
    end.

Definition parse_cookies (cookie_header : bytes) (out : HttpFields) : option HttpFields :=
  cookie_loop (length cookie_header) cookie_header 0 out.

(** A loop over [header_tokens] always ends ([header_tokens_spec]). *)
Definition has_connection_token (headers : HttpFields) (wanted : bytes) : bool :=
  any_value headers (B "connection") (fun v => default false (header_token_contains v wanted)).

Inductive ExpectState := expect_none | continue_100 | unsupported.

(** The loop over the tokens; [saw] is [saw_continue]. *)
Fixpoint expect_loop (tokens : list bytes) (saw : bool) : ExpectState :=
  match tokens with
  | [] => if saw then continue_100 else expect_none
  | [] :: rest => expect_loop rest saw
  | token :: rest => if negb (ascii_iequals token (B "100-continue")) then unsupported else expect_loop rest true
  end.

Definition parse_expect_value (header_value : bytes) : ExpectState :=
  expect_loop (default [] (header_tokens header_value)) false.

(** [for_each_value_until]: the state is [saw_continue] and [unsupported]. *)
Definition parse_expect_header (headers : HttpFields) : ExpectState :=
  let visit (s : bool * bool) v :=
    match parse_expect_value v with
    | unsupported => ((s.1, true), false)
    | continue_100 => ((true, s.2), true)
    | expect_none => (s, true)
    end in
  let '(saw, unsup) := fst (for_each_matching_until_in (case_insensitive_ headers) (B "expect") visit (data_ headers) (false, false)) in
  if unsup then unsupported else if saw then continue_100 else expect_none.

(** The loop over one value: whether it is valid, and the tokens counted. *)
Fixpoint te_loop (tokens : list bytes) (token_count : nat) : bool * nat :=
  match tokens with
  | [] => (true, token_count)
  | token :: rest =>
      match token with
      | [] => (false, token_count)
      | _ => if negb (ascii_iequals token (B "chunked")) then (false, token_count) else te_loop rest (S token_count)
      end
  end.

Definition has_valid_chunked_transfer_encoding (headers : HttpFields) : bool :=
  let visit (s : bool * nat) v :=
    let s' := te_loop (default [] (header_tokens v)) s.2 in (s', s'.1) in
  let '(valid, token_count) :=
    fst (for_each_matching_until_in (case_insensitive_ headers) (B "transfer-encoding") visit (data_ headers) (true, 0%nat)) in
  valid && (token_count =? 1)%nat.

End Parts.

(** ** Multipart forms *)

Module Multipart.
Import Http1.Head Ascii Fields HeaderList MediaType Form Format Parts Req Target.

Record MultipartBoundaryMatch := mkMatch { delim_pos : nat; content_end : nat }.

(** Whether the delimiter at [pos] is a line, and where the content before it ends. *)
Definition boundary_at (body delim : bytes) (pos : nat) : option MultipartBoundaryMatch :=
  let at_start := (pos =? 0)%nat in
  let after_crlf := (2 <=? pos)%nat && bytes_eqb (substr body (pos - 2) 2) crlf in
  let after_lf := negb after_crlf && (1 <=? pos)%nat && match body !! (pos - 1)%nat with Some x0a => true | _ => false end in
  if at_start || after_crlf || after_lf then
    let after := (pos + length delim)%nat in
    let valid_end := (after =? length body)%nat || bytes_eqb (substr body after 2) (B "--") || bytes_eqb (substr body after 2) crlf
                     || match body !! after with Some x0a => true | _ => false end in
    if valid_end then Some (mkMatch pos (if after_crlf then pos - 2 else if after_lf then pos - 1 else pos)) else None
  else None.

Fixpoint boundary_loop (fuel : nat) (body delim : bytes) (search : nat) : option (option MultipartBoundaryMatch) :=
  if (length body <=? search)%nat then Some None
  else
    match fuel with
    | O => None
    | S fuel =>
        match sv_find_sub delim body search with
        | None => Some None
        | Some pos =>
            match boundary_at body delim pos with
            | Some m => Some (Some m)
            | None => boundary_loop fuel body delim (pos + 1)
            end
        end
    end.

Definition find_multipart_boundary_line (body delim : bytes) (from : nat) : option (option MultipartBoundaryMatch) :=
  boundary_loop (length body) body delim from.

(** The headers of a part: disposition and type. *)
Definition part_header (line : bytes) (s : bytes * bytes) : bytes * bytes :=
  match find_byte x3a line with
  | None => s
  | Some colon =>
      let key := take colon line in
      let val := trim (drop (colon + 1) line) in
      if is_valid_header_name key then
        if ascii_iequals key (B "content-disposition") then (val, s.2)
        else if ascii_iequals key (B "content-type") then (s.1, val)
        else s
      else s
  end.

Fixpoint part_headers_loop (fuel : nat) (part_headers_sv : bytes) (h : nat) (s : bytes * bytes) : option (bytes * bytes) :=
  if (length part_headers_sv <=? h)%nat then Some s
  else
    match fuel with
    | O => None
    | S fuel =>
        match sv_find_sub crlf part_headers_sv h with
        | None => Some (part_header (drop h part_headers_sv) s)
        | Some le => part_headers_loop fuel part_headers_sv (le + 2) (part_header (substr part_headers_sv h (le - h)) s)
        end
    end.

Definition kMaxMultipartParts : nat := 1000.
Definition kMaxPartHeaderBytes : Z := 16 * 1024.

(** The parts read so far: form fields and files. *)
Definition parts_read : Type := HttpFields * list UploadedFile.

Definition add_part (name filename part_ct content : bytes) (out : parts_read) : parts_read :=
  match filename, name with
  | _ :: _, _ => (out.1, out.2 ++ [mkFile name filename part_ct content])
  | [], _ :: _ => (emplace_back out.1 name content, out.2)
  | [], [] => out
  end.

(** One part, with [pos] behind its delimiter line's end: where the next
    delimiter is, or [None] where the loop ends. *)
Definition read_part (body delim : bytes) (pos : nat) (out : parts_read) : option (option (nat * parts_read)) :=
  match sv_find_sub (crlf ++ crlf) body pos with
  | None => Some None
  | Some headers_end =>
      if (headers_end <? pos)%nat || (kMaxPartHeaderBytes <? Z.of_nat (headers_end - pos)) then Some None
      else
        let part_headers_sv := substr body pos (headers_end - pos) in
        let content_start := (headers_end + 4)%nat in
        next_boundary ← find_multipart_boundary_line body delim content_start;
        match next_boundary with
        | None => Some None
        | Some m =>
            if (content_end m <? content_start)%nat then Some None
            else
              let content := substr body content_start (content_end m - content_start) in
              '(disposition, part_ct) ← part_headers_loop (length part_headers_sv) part_headers_sv 0 ([], B "text/plain");
              name ← extract_param disposition (B "name");
              filename ← extract_param disposition (B "filename");
              Some (Some (delim_pos m, add_part name filename part_ct content out))
        end
  end.

(** The loop; [parts] counts down from [kMaxMultipartParts]. *)
Fixpoint multipart_loop (parts : nat) (body delim : bytes) (pos : nat) (out : parts_read) : option parts_read :=
  match parts with
  | O => Some out
  | S parts =>
      let pos := (pos + length delim)%nat in
      if (length body <=? pos + 1)%nat then Some out
      else if bytes_eqb (substr body pos 2) (B "--") then Some out
      else
        let after := if bytes_eqb (substr body pos 2) crlf then Some (pos + 2)%nat
                     else match body !! pos with Some x0a => Some (pos + 1)%nat | _ => None end in
        match after with
        | None => Some out
        | Some pos =>
            r ← read_part body delim pos out;
            match r with
            | None => Some out
            | Some (next, out) => multipart_loop parts body delim next out
            end
        end
  end.

Definition parse_multipart (body boundary : bytes) (form : HttpFields) (files : list UploadedFile) : option parts_read :=
  let delim := B "--" ++ boundary in
  first ← find_multipart_boundary_line body delim 0;
  match first with
  | None => Some (form, files)
  | Some m => multipart_loop kMaxMultipartParts body delim (delim_pos m) (form, files)
  end.

Record RequestParts := mkParts { p_query : HttpFields; p_form : HttpFields; p_cookies : HttpFields; p_files : list UploadedFile }.

Definition populate_request_parts (target : PathQueryView) (headers : HttpFields) (body : bytes) (parts : RequestParts)
    : option RequestParts :=
  query ← match query_suffix target with
          | [] => Some (p_query parts)
          | _ => l ← parse_urlencoded (Target.query target) (data_ (p_query parts));
                 Some (mkFields l (case_insensitive_ (p_query parts)))
          end;
  let content_type := at_ headers (B "content-type") in
  form ← (if content_type_is_form_urlencoded content_type then
            l ← parse_urlencoded body (data_ (p_form parts)); Some (mkFields l (case_insensitive_ (p_form parts)))
          else Some (p_form parts));
  '(form, files) ← (if content_type_is_multipart_form_data content_type then
                      boundary ← extract_param content_type (B "boundary");
                      match boundary with
                      | [] => Some (form, p_files parts)
                      | _ => parse_multipart body boundary form (p_files parts)
                      end
                    else Some (form, p_files parts));
  cookies ← match at_ headers (B "cookie") with
            | [] => Some (p_cookies parts)
            | cookie => parse_cookies cookie (p_cookies parts)
            end;
  Some (mkParts query form cookies files).

End Multipart.

(** ** The head of a response *)

Module FormatOk.
Import Http1.Head Http1.Grammar Decimal Fields HeaderList Resp Format.

Definition field_text (f : bytes * bytes) : bytes := f.1 ++ B ": " ++ f.2.

Definition sendable (f : bytes * bytes) : bool :=
  negb (is_response_framing_header f.1) && is_valid_header_name f.1 && is_valid_header_value f.2.

Definition status_line (r : Response) : bytes :=
  B "HTTP/1.1 " ++ append_decimal (status r) ++ B " " ++ (if is_valid_reason_phrase (status_text r) then status_text r else []).

Definition length_field (r : Response) : list (bytes * bytes) :=
  if status r =? 304 then
    if (content_length_hint r =? 0)%nat then [] else [(B "Content-Length", to_dec (Z.of_nat (content_length_hint r)))]
  else if must_not_have_body (status r) then [] else [(B "Content-Length", to_dec (Z.of_nat (content_length r)))].

Definition connection_field (close : bool) : bytes * bytes := (B "Connection", if close then B "close" else B "keep-alive").

(** The fields of the head, in order. *)
Definition response_fields (date : bytes) (r : Response) (alt_svc : bytes) (close : bool) : list (bytes * bytes) :=
  [(B "Date", date)]
  ++ (if negb (bytes_eqb (content_type r) []) && is_valid_header_value (content_type r)
      then [(B "Content-Type", content_type r)] else [])
  ++ length_field r
  ++ filter (fun f => sendable f = true) (data_ (headers r))
  ++ map (fun sc => (B "Set-Cookie", sc)) (filter (fun sc => is_valid_header_value sc = true) (set_cookies r))
  ++ (if bytes_eqb alt_svc [] then [] else [(B "Alt-Svc", alt_svc)])
  ++ [connection_field close].

Definition sent_body (r : Response) : bytes :=
  if must_not_have_body (status r) || head_only r || is_mapped_file r || is_streamed_file r then [] else text_body r.

Lemma block_app a b : block (a ++ b) = block a ++ block b.
Proof. unfold block. by rewrite flat_map_app. Qed.

Lemma block_one l : block [l] = l ++ crlf.
Proof. unfold block. cbn. by rewrite app_nil_r. Qed.

(** A loop that appends the line of each element that passes a test. *)
Lemma fold_lines {A} (step : bytes -> A -> bytes) (test : A -> bool) (line : A -> bytes) :
  (forall out a, step out a = if test a then out ++ line a ++ crlf else out) ->
  forall l out, fold_left step l out = out ++ block (map line (filter (fun a => test a = true) l)).
Proof.
  intros Hs. induction l as [|a l IH]; intros out; cbn [fold_left]; [by rewrite app_nil_r|].
  rewrite IH, Hs, filter_cons. destruct (test a) eqn:E; [rewrite decide_True by done|by rewrite decide_False by congruence].
  cbn [map]. change (block (line a :: ?x)) with ((line a ++ crlf) ++ block x). by rewrite <- app_assoc.
Qed.

Lemma add_header_line out f : add_header out f = if sendable f then out ++ field_text f ++ crlf else out.
Proof.
  unfold add_header, sendable, field_text. destruct (is_response_framing_header f.1); [done|].
  destruct (is_valid_header_name f.1); [|done]. destruct (is_valid_header_value f.2); [|done]. cbn [negb andb orb]. by rewrite <- !app_assoc.
Qed.

Lemma add_cookie_line out sc :
  add_cookie out sc = if is_valid_header_value sc then out ++ field_text (B "Set-Cookie", sc) ++ crlf else out.
Proof. unfold add_cookie. by destruct (is_valid_header_value sc). Qed.

Lemma append_decimal_nat n : append_decimal (Z.of_nat n) = to_dec (Z.of_nat n).
Proof. unfold append_decimal. by rewrite (proj2 (Z.ltb_ge _ _)) by lia. Qed.

Lemma app_if (c : bool) (out x : bytes) : (if c then out ++ x else out) = out ++ (if c then x else []).
Proof. destruct c; [done|by rewrite app_nil_r]. Qed.

Lemma block_if (c : bool) f : block (map field_text (if c then [f] else [])) = if c then field_text f ++ crlf else [].
Proof. destruct c; [apply block_one|done]. Qed.

Lemma type_line out t :
  (match t with [] => out | _ => if is_valid_header_value t then out ++ B "Content-Type: " ++ t ++ crlf else out end)
  = out ++ block (map field_text (if negb (bytes_eqb t []) && is_valid_header_value t then [(B "Content-Type", t)] else [])).
Proof. rewrite block_if. destruct t as [|c t]; [by rewrite app_nil_r|]. cbn [bytes_eqb negb andb]. by rewrite app_if. Qed.

Lemma length_line out r :
  (if status r =? 304 then
     if negb (content_length_hint r =? 0)%nat
     then out ++ B "Content-Length: " ++ append_decimal (Z.of_nat (content_length_hint r)) ++ crlf else out
   else if negb (must_not_have_body (status r))
   then out ++ B "Content-Length: " ++ append_decimal (Z.of_nat (content_length r)) ++ crlf else out)
  = out ++ block (map field_text (length_field r)).
Proof.
  rewrite !append_decimal_nat. unfold length_field. destruct (status r =? 304).
  - destruct (content_length_hint r =? 0)%nat; cbn [negb]; [by rewrite app_nil_r|]. cbn [map]. by rewrite block_one.
  - destruct (must_not_have_body (status r)); cbn [negb]; [by rewrite app_nil_r|]. cbn [map]. by rewrite block_one.
Qed.

Lemma alt_line out alt :
  (match alt with [] => out | _ => out ++ B "Alt-Svc: " ++ alt ++ crlf end)
  = out ++ block (map field_text (if bytes_eqb alt [] then [] else [(B "Alt-Svc", alt)])).
Proof. destruct alt as [|c alt]; [by rewrite app_nil_r|].
  assert (bytes_eqb (c :: alt) [] = false) as -> by done. cbn [map]. by rewrite block_one.
Qed.

Lemma format_response_fields date r alt_svc close :
  is_ws_upgrade r = false ->
  format_response date r alt_svc close =
  status_line r ++ crlf ++ block (map field_text (response_fields date r alt_svc close)) ++ crlf ++ sent_body r.
Proof.
  intros Hws. unfold format_response. rewrite Hws. cbv zeta.
  rewrite type_line, length_line, alt_line, app_if.
  rewrite (fold_lines add_header sendable field_text add_header_line).
  rewrite (fold_lines add_cookie is_valid_header_value (fun sc => field_text (B "Set-Cookie", sc)) add_cookie_line).
  rewrite app_if. unfold response_fields. rewrite !map_app, !block_app, map_map. unfold sent_body, status_line.
  assert (negb (must_not_have_body (status r) || head_only r) && negb (is_mapped_file r) && negb (is_streamed_file r)
    = negb (must_not_have_body (status r) || head_only r || is_mapped_file r || is_streamed_file r)) as ->.
  { by destruct (must_not_have_body (status r)), (head_only r), (is_mapped_file r), (is_streamed_file r). }
  rewrite if_negb. cbn [map]. rewrite !block_one. unfold field_text at 1, connection_field. cbn [fst snd]. rewrite <- !app_assoc.
  by destruct close.
Qed.

Definition field_ok (f : bytes * bytes) : Prop := is_valid_header_name f.1 = true /\ is_valid_header_value f.2 = true.

Lemma to_dec_valid z : 0 <= z -> is_valid_header_value (to_dec z) = true.
Proof.
  intros Hz. unfold is_valid_header_value. apply forallb_forall. intros c Hc%list_elem_of_In. destruct (to_dec_spec z Hz) as (_ & Hd & _).
  rewrite Forall_forall in Hd. specialize (Hd c Hc). clear -Hd.
  assert (negb (is_digit c) || (negb ((byteZ c <? 0x20) && negb (c =b x09)) && negb (c =b x7f)) = true) as H by byte_decide c.
  by rewrite Hd in H.
Qed.

Lemma response_fields_ok date r alt_svc close :
  is_valid_header_value date = true -> is_valid_header_value alt_svc = true -> Forall field_ok (response_fields date r alt_svc close).
Proof.
  intros Hd Ha. unfold response_fields. rewrite !Forall_app. split_and!.
  - by repeat constructor.
  - destruct (negb _ && is_valid_header_value (content_type r)) eqn:E; [|constructor]. apply andb_true_iff in E as [_ E]. by repeat constructor.
  - unfold length_field. repeat case_match; repeat constructor; apply to_dec_valid; lia.
  - apply Forall_forall. intros f Hf. apply list_elem_of_filter in Hf as [Hs _]. unfold sendable in Hs. by apply andb_true_iff in Hs as [[_ ?]%andb_true_iff ?].
  - apply Forall_forall. intros f Hf. apply list_elem_of_fmap in Hf as (sc & -> & Hsc). by apply list_elem_of_filter in Hsc as [? _].
  - destruct (bytes_eqb alt_svc []); by repeat constructor.
  - destruct close; by repeat constructor.
Qed.

Lemma valid_value_no_cr v : is_valid_header_value v = true -> x0d ∉ v.
Proof. intros H Hin. unfold is_valid_header_value in H. rewrite forallb_forall in H. apply list_elem_of_In in Hin. by apply H in Hin. Qed.

Lemma valid_name_no_cr v : is_valid_header_name v = true -> x0d ∉ v /\ v <> [].
Proof.
  unfold is_valid_header_name. destruct v as [|c v]; [done|]. intros H. split; [|done]. intros Hin.
  rewrite forallb_forall in H. apply list_elem_of_In in Hin. by apply H in Hin.
Qed.

Lemma field_text_line f : field_ok f -> x0d ∉ field_text f /\ field_text f <> [].
Proof.
  intros [Hn Hv]. apply valid_name_no_cr in Hn as [Hn Hne]. apply valid_value_no_cr in Hv. unfold field_text. split.
  - rewrite !not_elem_of_app. split; [done|]. split; [by apply find_byte_None|done].
  - by destruct (f.1).
Qed.

Lemma append_decimal_no_cr z : x0d ∉ append_decimal z.
Proof.
  unfold append_decimal. destruct (Z.ltb_spec z 0).
  - apply not_elem_of_cons. split; [done|]. apply valid_value_no_cr, to_dec_valid. lia.
  - by apply valid_value_no_cr, to_dec_valid.
Qed.

Lemma status_line_no_cr r : x0d ∉ status_line r.
Proof.
  unfold status_line. rewrite !not_elem_of_app. split_and!; [by apply find_byte_None|apply append_decimal_no_cr|by apply find_byte_None|].
  destruct (is_valid_reason_phrase (status_text r)) eqn:E; [by apply valid_value_no_cr|apply not_elem_of_nil].
Qed.

End FormatOk.

(** ** Streams of chunks *)

Module ChunkOk.
Import Http1.Head Codec.Hex Chunked Decimal Format.

Definition hex_value (ds : bytes) (acc : Z) : Z := fold_left (fun a c => a * 16 + hex_char_to_int c) ds acc.

Lemma hex_digit_value d : 0 <= d < 16 -> hex_char_to_int (hex_digit d) = d.
Proof.
  intros Hd. assert (forallb (fun d => hex_char_to_int (hex_digit d) =? d) (map Z.of_nat (seq 0 16)) = true) as H by reflexivity.
  rewrite forallb_forall in H. apply Z.eqb_eq, H, in_map_iff. exists (Z.to_nat d). split; [lia|]. apply in_seq. lia.
Qed.

Lemma to_hex_fuel_spec n v acc :
  0 <= v < 16 ^ Z.of_nat (S n) ->
  exists ds, to_hex_fuel (S n) v acc = ds ++ acc /\ (0 < length ds <= S n)%nat /\
    Forall (fun c => 0 <= hex_char_to_int c < 16) ds /\ hex_value ds 0 = v.
Proof.
  revert v acc. induction n as [|n IH]; intros v acc Hv; cbn [to_hex_fuel].
  - change (16 ^ Z.of_nat 1) with 16 in Hv. rewrite (proj2 (Z.ltb_lt v 16)) by lia. rewrite Z.mod_small by lia.
    exists [hex_digit v]. split; [done|]. split; [cbn; lia|]. rewrite Forall_singleton. cbn. rewrite hex_digit_value by lia. lia.
  - destruct (Z.ltb_spec v 16) as [Hlt|Hge].
    + rewrite Z.mod_small by lia. exists [hex_digit v]. split; [done|]. split; [cbn; lia|]. rewrite Forall_singleton. cbn.
      rewrite hex_digit_value by lia. lia.
    + pose proof (Z.mod_pos_bound v 16 ltac:(lia)) as Hm. rewrite (Nat2Z.inj_succ (S n)), Z.pow_succ_r in Hv by lia.
      destruct (IH (v / 16) (hex_digit (v mod 16) :: acc)) as (ds & E & Hl & Hds & Hval).
      { split; [apply Z.div_pos; lia|]. apply Z.div_lt_upper_bound; lia. }
      exists (ds ++ [hex_digit (v mod 16)]). cbn [to_hex_fuel] in E. rewrite E, <- app_assoc. split; [done|].
      split; [rewrite length_app; cbn; lia|]. split.
      * apply Forall_app. split; [done|]. apply Forall_singleton. rewrite hex_digit_value by lia. lia.
      * unfold hex_value in *. rewrite fold_left_app, Hval. cbn. rewrite hex_digit_value by lia. pose proof (Z.div_mod v 16). lia.
Qed.

Lemma hex_value_grows ds acc : 0 <= acc -> Forall (fun c => 0 <= hex_char_to_int c < 16) ds -> acc <= hex_value ds acc.
Proof.
  intros Ha Hds. revert acc Ha. induction Hds as [|c ds Hc Hds IH]; intros acc Ha; [done|]. unfold hex_value in *. cbn [fold_left].
  etrans; [|apply IH]; lia.
Qed.

Lemma chunk_digits_value ds acc :
  0 <= acc -> Forall (fun c => 0 <= hex_char_to_int c < 16) ds -> hex_value ds acc <= size_max ->
  chunk_digits ds acc = Some (hex_value ds acc).
Proof.
  intros Ha Hds. revert acc Ha. induction Hds as [|c ds Hc Hds IH]; intros acc Ha Hv; [done|]. cbn [chunk_digits].
  pose proof (hex_value_grows ds (acc * 16 + hex_char_to_int c) ltac:(lia) Hds) as Hg. unfold hex_value in *. cbn [fold_left] in *.
  rewrite (proj2 (Z.ltb_ge _ _)) by lia. rewrite (proj2 (Z.ltb_ge _ _)) by lia. rewrite (proj2 (Z.ltb_ge _ _)) by lia. apply IH; lia.
Qed.

(** A size line reads back. *)
Lemma size_line v :
  0 <= v <= size_max -> parse_chunk_size_line (append_hex v) = Some v /\ x0d ∉ append_hex v.
Proof.
  intros Hv. unfold append_hex. destruct (to_hex_fuel_spec 15 v []) as (ds & -> & Hl & Hds & Hval).
  { unfold size_max in Hv. change (16 ^ Z.of_nat 16) with (2 ^ 64). lia. }
  rewrite app_nil_r. assert (forall c, 0 <= hex_char_to_int c < 16 -> c <> x3b /\ c <> x0d) as Hc.
  { intros c Hc. split; intros ->; by destruct Hc. }
  split; [|intros Hin; rewrite Forall_forall in Hds; by apply Hds, Hc in Hin as [_ ?]].
  unfold parse_chunk_size_line. rewrite (proj2 (Nat.ltb_ge _ _)) by (unfold kMaxChunkSizeLineBytes; lia).
  rewrite (proj2 (find_byte_None x3b ds)) by (intros Hin; rewrite Forall_forall in Hds; by apply Hds, Hc in Hin as [? _]).
  destruct ds as [|c ds]; [cbn in Hl; lia|]. change (bytes_eqb (c :: ds) []) with false. cbn [orb].
  rewrite (proj2 (Nat.ltb_ge _ _)) by (unfold kMaxChunkHexDigits; lia). rewrite chunk_digits_value, Hval by (done || lia). done.
Qed.

Lemma no_cr_plain l : x0d ∉ l -> plain_line l.
Proof. intros H. unfold plain_line. rewrite <- (app_nil_r crlf) at 2. by apply find_crlf. Qed.

(** Chunks up to the one that ends the stream. *)
Lemma chunks_text payloads :
  Forall (fun p => p <> [] /\ Z.of_nat (length p) <= size_max) payloads ->
  chunked_text (S (length payloads)) 0 0 (concat (map format_http_chunk payloads) ++ B "0" ++ crlf ++ crlf) (concat payloads).
Proof.
  induction 1 as [|p ps [Hne Hsz] Hps IH]; cbn [map concat length].
  - apply (ct_last (B "0") 0 0 crlf); [apply no_cr_plain; by apply find_byte_None|by apply parse_chunk_size_line_spec|constructor].
  - unfold format_http_chunk at 1. rewrite <- !app_assoc. destruct (size_line (Z.of_nat (length p)) ltac:(lia)) as [Hp Hcr].
    apply ct_chunk; try done; [by apply no_cr_plain|by apply parse_chunk_size_line_spec].
Qed.

End ChunkOk.

(** ** Cookies *)

Module CookieOk.
Import Ascii Fields Parts.

(** Text without blanks at its ends. *)
Definition bare (s : bytes) : Prop := trim_cookie_ows s = s.

Definition cookie_text (c : bytes * bytes) : bytes := c.1 ++ x3d :: c.2.

Definition cookie_ok (c : bytes * bytes) : Prop :=
  c.1 <> [] /\ bare c.1 /\ bare c.2 /\ x3b ∉ c.1 /\ x3d ∉ c.1 /\ x3b ∉ c.2.

(** A [Cookie] field: the pairs with a semicolon and a blank between. *)
Fixpoint cookie_header (cs : list (bytes * bytes)) : bytes :=
  match cs with
  | [] => []
  | [c] => cookie_text c
  | c :: cs => cookie_text c ++ B "; " ++ cookie_header cs
  end.

Lemma add_cookie_ok c out : cookie_ok c -> add_cookie_pair (cookie_text c) out = emplace_back out c.1 c.2.
Proof.
  intros (Hne & Hn & Hv & _ & Heq & _). unfold add_cookie_pair, cookie_text. rewrite find_byte_app by done.
  rewrite take_app_length, Nat.add_1_r, drop_after, Hn, Hv. by destruct (c.1).
Qed.

Lemma drop_front_all (p : byte -> bool) s t : Forall (fun c => p c = true) s -> drop_front p (s ++ t) = drop_front p t.
Proof. induction 1 as [|c s Hc Hs IH]; [done|]. cbn [app drop_front]. by rewrite Hc. Qed.

Definition clear_of (p : byte -> bool) (o : option byte) : Prop := match o with Some c => p c = false | None => True end.

Lemma drop_front_length p s : (length (drop_front p s) <= length s)%nat.
Proof. destruct (drop_front_spec p s) as (a & Hs & _). rewrite Hs at 2. rewrite length_app. lia. Qed.

Lemma drop_front_id p s : drop_front p s = s <-> clear_of p (head s).
Proof.
  destruct s as [|c s]; [done|]. cbn [drop_front head clear_of]. destruct (p c) eqn:E; [|done]. split; [|done].
  intros H. pose proof (drop_front_length p s) as Hl. rewrite H in Hl. cbn in Hl. lia.
Qed.

Lemma head_rev (s : bytes) : head (rev s) = last s.
Proof. induction s as [|c s IH] using rev_ind; [done|]. by rewrite rev_unit, last_snoc. Qed.

Lemma trimmed_iff p s : drop_back p (drop_front p s) = s <-> clear_of p (head s) /\ clear_of p (last s).
Proof.
  unfold drop_back. rewrite <- head_rev. split.
  - intros H. assert (length (drop_front p s) = length s) as Hl.
    { apply (f_equal length) in H. rewrite length_rev in H.
      pose proof (drop_front_length p (rev (drop_front p s))) as H1. rewrite length_rev in H1.
      pose proof (drop_front_length p s) as H2. lia. }
    assert (drop_front p s = s) as Hd.
    { destruct (drop_front_spec p s) as (a & Hs & _). destruct a as [|c a]; [done|]. apply (f_equal length) in Hs. rewrite length_app in Hs. cbn in Hs. lia. }
    rewrite Hd in H. split; [by apply drop_front_id|]. apply (f_equal (@rev byte)) in H. rewrite rev_involutive in H.
    by apply drop_front_id in H.
  - intros [Hh Hl]. rewrite (proj2 (drop_front_id p s)) by done. rewrite (proj2 (drop_front_id p (rev s))) by done. apply rev_involutive.
Qed.

Lemma bare_iff s : bare s <-> clear_of is_ows (head s) /\ clear_of is_ows (last s).
Proof. apply trimmed_iff. Qed.

Lemma bare_text c : cookie_ok c -> bare (cookie_text c).
Proof.
  intros (Hne & Hn & Hv & _). apply bare_iff in Hn as [Hn _]. apply bare_iff in Hv as [_ Hv]. apply bare_iff. unfold cookie_text. split.
  - by destruct (c.1).
  - rewrite last_app_cons. by destruct (c.2).
Qed.

Lemma blank_text c : cookie_ok c -> trim_cookie_ows (x20 :: cookie_text c) = cookie_text c.
Proof. intros Hc. apply bare_text in Hc. exact Hc. Qed.

(** The loop from a position behind which the pairs stand, a blank in front. *)
Lemma cookie_loop_ok cs blank fuel text pos out :
  cs <> [] -> Forall cookie_ok cs -> blank = [] \/ blank = [x20] -> drop pos text = blank ++ cookie_header cs ->
  (length text - pos <= fuel)%nat ->
  cookie_loop fuel text pos out = Some (mkFields (data_ out ++ cs) (case_insensitive_ out)).
Proof.
  intros Hne Hok. revert blank fuel pos out. induction Hok as [|c cs Hc Hcs IH]; intros blank fuel pos out Hb Hd Hf; [done|].
  assert (x3b ∉ blank ++ cookie_text c) as Hsemi.
  { destruct Hc as (_ & _ & _ & H1 & _ & H2). unfold cookie_text. rewrite !not_elem_of_app, not_elem_of_cons.
    split; [destruct Hb as [-> | ->]; by apply find_byte_None|]. done. }
  assert (trim_cookie_ows (blank ++ cookie_text c) = cookie_text c) as Htrim.
  { destruct Hb as [-> | ->]; [by apply bare_text|by apply blank_text]. }
  assert (0 < length (drop pos text))%nat as Hpos.
  { rewrite Hd, length_app. destruct cs; cbn [cookie_header]; unfold cookie_text; rewrite !length_app; cbn; lia. }
  rewrite length_drop in Hpos. destruct fuel as [|fuel]; [lia|]. cbn [cookie_loop]. rewrite (proj2 (Nat.leb_gt _ _)) by lia.
  unfold sv_find. destruct cs as [|c2 cs].
  - cbn [cookie_header] in Hd. rewrite Hd, (proj2 (find_byte_None _ _)) by done. cbn [fmap option_fmap option_map].
    rewrite Htrim, add_cookie_ok by done. by destruct c.
  - set (rest := x20 :: cookie_header (c2 :: cs)).
    assert (drop pos text = (blank ++ cookie_text c) ++ x3b :: rest) as Hd2 by (rewrite Hd, <- app_assoc; done).
    rewrite Hd2, find_byte_app by done. cbn [fmap option_fmap option_map]. unfold substr. rewrite Hd2.
    replace (pos + length (blank ++ cookie_text c) - pos)%nat with (length (blank ++ cookie_text c)) by lia.
    rewrite take_app_length, Htrim, add_cookie_ok by done.
    rewrite (IH ltac:(done) [x20]); [|by right| |lia].
    + unfold emplace_back. cbn [data_ case_insensitive_]. rewrite <- app_assoc. by destruct c.
    + rewrite <- Nat.add_assoc, <- drop_drop, Hd2, Nat.add_1_r, drop_after. done.
Qed.

End CookieOk.

(** ** Forms *)

Module MultipartOk.
Import Http1.Head Ascii Fields HeaderList HeaderListOk MediaType Format FormatOk Parts CookieOk Req Multipart.

(** *** The disposition of a part *)

Definition quoted (v : bytes) : bytes := x22 :: v ++ [x22].
Definition quotable (v : bytes) : Prop := x22 ∉ v /\ x5c ∉ v.

Definition prepend (a : bytes) (l : list bytes) : list bytes := match l with h :: t => (a ++ h) :: t | [] => [a] end.

Lemma prepend_prepend a b l : l <> [] -> prepend a (prepend b l) = prepend (a ++ b) l.
Proof. destruct l as [|h t]; [done|]. intros _. cbn. by rewrite app_assoc. Qed.

Lemma split_unquoted_nonempty needle s q e : split_unquoted needle s q e <> [].
Proof. destruct s as [|c s]; [done|]. cbn [split_unquoted]. repeat case_match; done. Qed.

Lemma split_unquoted_plain needle a s :
  x22 ∉ a -> needle ∉ a -> split_unquoted needle (a ++ s) false false = prepend a (split_unquoted needle s false false).
Proof.
  intros Hq Hn. induction a as [|c a IH].
  { cbn [app prepend]. destruct (split_unquoted needle s false false) eqn:E; [by apply split_unquoted_nonempty in E|done]. }
  apply not_elem_of_cons in Hq as [Hq1 Hq]. apply not_elem_of_cons in Hn as [Hn1 Hn]. cbn [app split_unquoted andb negb].
  destruct (byte_eqb_spec c x22); [by subst|]. destruct (byte_eqb_spec c needle); [by subst|]. rewrite IH by done.
  by destruct (split_unquoted needle s false false).
Qed.

Lemma split_unquoted_quoted needle v s :
  quotable v -> needle <> x22 ->
  split_unquoted needle (quoted v ++ s) false false = prepend (quoted v) (split_unquoted needle s false false).
Proof.
  intros [Hq Hb] Hne. unfold quoted.
  assert (split_unquoted needle (v ++ x22 :: s) true false = prepend (v ++ [x22]) (split_unquoted needle s false false)) as H.
  { induction v as [|c v IH]; cbn [app].
    - cbn [split_unquoted andb]. change (x22 =b x5c) with false. change (x22 =b x22) with true. cbn [negb].
      by destruct (split_unquoted needle s false false).
    - apply not_elem_of_cons in Hq as [Hq1 Hq]. apply not_elem_of_cons in Hb as [Hb1 Hb]. cbn [split_unquoted andb negb].
      destruct (byte_eqb_spec c x5c); [by subst|]. destruct (byte_eqb_spec c x22); [by subst|]. rewrite IH by done.
      by destruct (split_unquoted needle s false false). }
  cbn [app split_unquoted andb negb]. rewrite <- app_assoc. cbn [app]. change (x22 =b x22) with true. cbn beta iota. rewrite H.
  by destruct (split_unquoted needle s false false).
Qed.

Lemma split_unquoted_cut needle s : needle <> x22 -> split_unquoted needle (needle :: s) false false = [] :: split_unquoted needle s false false.
Proof.
  intros H. cbn [split_unquoted andb negb]. destruct (byte_eqb_spec needle x22); [done|]. by destruct (byte_eqb_spec needle needle).
Qed.

Lemma trim_id s : clear_of is_ws (head s) -> clear_of is_ws (last s) -> trim s = s.
Proof. intros. by apply trimmed_iff. Qed.

(** A parameter with a quoted value. *)
Definition param_text (key v : bytes) : bytes := key ++ x3d :: quoted v.

Lemma param_text_trim key v : clear_of is_ws (head key) -> key <> [] -> trim (param_text key v) = param_text key v.
Proof.
  intros Hk Hne. apply trim_id; unfold param_text, quoted; [by destruct key|]. rewrite last_app_cons.
  change (x3d :: x22 :: v ++ [x22]) with ((x3d :: x22 :: v) ++ [x22]). by rewrite last_snoc.
Qed.

Lemma quoted_loop_end v i : quotable v -> quoted_loop (v ++ [x22]) false i = Some (i + length v)%nat.
Proof.
  intros [Hq Hb]. revert i. induction v as [|c v IH]; intros i; cbn [app quoted_loop length]; [by rewrite Nat.add_0_r|].
  apply not_elem_of_cons in Hq as [Hq1 Hq]. apply not_elem_of_cons in Hb as [Hb1 Hb].
  destruct (byte_eqb_spec c x5c); [by subst|]. destruct (byte_eqb_spec c x22); [by subst|]. rewrite IH by done. f_equal. lia.
Qed.

Lemma param_value_quoted v : quotable v -> param_value (quoted v) = v.
Proof.
  intros Hv. unfold param_value. rewrite trim_id; unfold quoted; [|done|].
  - rewrite quoted_loop_end by done. by rewrite Nat.add_0_l, take_app_length.
  - change (x22 :: v ++ [x22]) with ((x22 :: v) ++ [x22]). by rewrite last_snoc.
Qed.

Lemma param_of_text key v :
  x22 ∉ key -> x3d ∉ key -> trim key = key -> param_of (param_text key v) = mkParam key (quoted v) true.
Proof.
  intros Hq He Ht. unfold param_of, find_unquoted_header_delim. rewrite drop_0.
  pose proof (find_unquoted_split (param_text key v) x3d false false 0) as Hs.
  assert (forall i s, find_unquoted_loop (key ++ x3d :: s) x3d false false i = Some (i + length key)%nat) as Hf.
  { clear Hs Ht. intros i s. revert i. induction key as [|c key IH]; intros i; cbn [app find_unquoted_loop andb negb length].
    - by rewrite Nat.add_0_r.
    - apply not_elem_of_cons in Hq as [Hq1 Hq]. apply not_elem_of_cons in He as [He1 He].
      destruct (byte_eqb_spec c x22); [by subst|]. destruct (byte_eqb_spec c x3d); [by subst|]. rewrite IH by done. f_equal. lia. }
  unfold param_text. rewrite Hf, Nat.add_0_l, take_app_length, Nat.add_1_r, drop_after, Ht. f_equal.
  apply trim_id; unfold quoted; [done|]. change (x22 :: v ++ [x22]) with ((x22 :: v) ++ [x22]). by rewrite last_snoc.
Qed.

(** One more parameter in front of the rest of a list. *)
Lemma split_param key v s :
  x22 ∉ key -> x3b ∉ key -> quotable v ->
  split_unquoted x3b (param_text key v ++ s) false false = prepend (param_text key v) (split_unquoted x3b s false false).
Proof.
  intros Hq Hs Hv. unfold param_text. replace ((key ++ x3d :: quoted v) ++ s) with ((key ++ [x3d]) ++ quoted v ++ s) by (by rewrite <- !app_assoc).
  rewrite split_unquoted_plain, split_unquoted_quoted, prepend_prepend; try done.
  - by rewrite <- app_assoc.
  - apply split_unquoted_nonempty.
  - rewrite not_elem_of_app. split; [done|by apply find_byte_None].
  - rewrite not_elem_of_app. split; [done|by apply find_byte_None].
Qed.

Definition filename_part (f : option bytes) : bytes :=
  match f with Some f => B "; " ++ param_text (B "filename") f | None => [] end.

Definition disposition (n : bytes) (f : option bytes) : bytes := B "form-data; " ++ param_text (B "name") n ++ filename_part f.

Lemma disposition_segments n f :
  quotable n -> match f with Some f => quotable f | None => True end ->
  segments (disposition n f) =
  B "form-data" :: param_text (B "name") n :: match f with Some f => [param_text (B "filename") f] | None => [] end.
Proof.
  intros Hn Hf. unfold segments, disposition.
  change (B "form-data; " ++ ?x) with (B "form-data" ++ x3b :: ([x20] ++ x)).
  rewrite split_unquoted_plain, split_unquoted_cut, split_unquoted_plain by (done || by apply find_byte_None).
  rewrite split_param by (done || by apply find_byte_None). cbn [prepend]. rewrite app_nil_r.
  assert (forall k v, k = B "name" \/ k = B "filename" -> trim (x20 :: param_text k v) = param_text k v /\ param_text k v <> []) as Hp.
  { intros k v Hk. rewrite trim_space, param_text_trim; [|by destruct Hk as [-> | ->]..]. split; [done|]. by destruct Hk as [-> | ->]. }
  destruct f as [f|]; cbn [filename_part].
  - change (B "; " ++ ?x) with (x3b :: ([x20] ++ x)). rewrite split_unquoted_cut, split_unquoted_plain by (done || by apply find_byte_None).
    rewrite <- (app_nil_r (param_text (B "filename") f)) at 1. rewrite split_param by (done || by apply find_byte_None).
    cbn [split_unquoted prepend map]. rewrite !app_nil_r. cbn [app].
    destruct (Hp (B "name") n) as [-> H1]; [by left|]. destruct (Hp (B "filename") f) as [-> H2]; [by right|].
    rewrite !filter_cons, !decide_True by done. done.
  - cbn [split_unquoted prepend map]. rewrite !app_nil_r. cbn [app]. destruct (Hp (B "name") n) as [-> H1]; [by left|].
    rewrite !filter_cons, !decide_True by done. done.
Qed.

Lemma extract_disposition n f :
  quotable n -> match f with Some f => quotable f | None => True end ->
  extract_param (disposition n f) (B "name") = Some n /\ extract_param (disposition n f) (B "filename") = Some (default [] f).
Proof.
  intros Hn Hf. unfold extract_param. rewrite header_params_spec, disposition_segments by done. cbn [map mbind option_bind].
  rewrite param_of_text by (done || by apply find_byte_None).
  destruct f as [f|]; cbn [map find_param has_value name value].
  - rewrite param_of_text by (done || by apply find_byte_None). cbn [has_value name value negb orb].
    change (has_value (param_of (B "form-data"))) with false. cbn [negb orb].
    change (ascii_iequals (B "name") (B "name")) with true. change (ascii_iequals (B "name") (B "filename")) with false.
    change (ascii_iequals (B "filename") (B "filename")) with true. cbn [negb orb]. by rewrite !param_value_quoted.
  - change (has_value (param_of (B "form-data"))) with false. cbn [negb orb].
    change (ascii_iequals (B "name") (B "name")) with true. change (ascii_iequals (B "name") (B "filename")) with false. cbn [negb orb].
    by rewrite param_value_quoted.
Qed.

(** *** Delimiters *)

Lemma find_sub_prefix p s t n : find_sub p s = Some n -> find_sub p (s ++ t) = Some n.
Proof.
  intros H. destruct (find_sub_Some p s n H) as (t' & Hs & Hn). pose proof (f_equal length Hs) as Hl.
  rewrite !length_app, length_take in Hl. assert (drop n s = p ++ t') as Hd.
  { rewrite Hs at 1. rewrite drop_app_length' by (rewrite length_take; lia). done. }
  apply find_sub_complete.
  - rewrite length_app. lia.
  - rewrite drop_app_le by lia. rewrite Hd, <- app_assoc. apply starts_with_app.
  - intros i Hi. rewrite drop_app_le by lia. rewrite starts_with_false_app; [by eapply find_sub_first|]. rewrite length_drop. lia.
Qed.

Lemma boundary_loop_found fuel body delim search pos m :
  (search < length body)%nat -> (0 < fuel)%nat -> sv_find_sub delim body search = Some pos -> boundary_at body delim pos = Some m ->
  boundary_loop fuel body delim search = Some (Some m).
Proof.
  intros Hs Hf Hfind Hat. destruct fuel as [|fuel]; [lia|]. cbn [boundary_loop]. rewrite (proj2 (Nat.leb_gt _ _)) by lia. by rewrite Hfind, Hat.
Qed.

Definition line_end (rest : bytes) : Prop := starts_with rest (B "--") = true \/ starts_with rest crlf = true.

Lemma line_end_ok body after rest : drop after body = rest -> line_end rest ->
  (after =? length body)%nat || bytes_eqb (substr body after 2) (B "--") || bytes_eqb (substr body after 2) crlf
  || match body !! after with Some x0a => true | _ => false end = true.
Proof.
  intros Hd He. unfold substr. rewrite Hd.
  destruct He as [He|He]; apply starts_with_spec in He as [t ->]; cbn; by rewrite ?orb_true_r.
Qed.

Lemma boundary_found body delim from content rest :
  drop from body = content ++ crlf ++ delim ++ rest -> find_sub delim (content ++ crlf ++ delim) = Some (length content + 2)%nat ->
  line_end rest ->
  find_multipart_boundary_line body delim from = Some (Some (mkMatch (from + length content + 2) (from + length content))).
Proof.
  intros Hd Hfind He. assert (length (drop from body) = length content + 2 + length delim + length rest)%nat as Hl.
  { rewrite Hd, !length_app. cbn. lia. }
  rewrite length_drop in Hl.
  assert (drop (from + length content) body = crlf ++ delim ++ rest) as Hc by (by rewrite <- drop_drop, Hd, drop_app_length).
  unfold find_multipart_boundary_line. apply (boundary_loop_found _ _ _ _ (from + length content + 2)); try lia.
  - unfold sv_find_sub. rewrite Hd. replace (content ++ crlf ++ delim ++ rest) with ((content ++ crlf ++ delim) ++ rest) by (by rewrite <- !app_assoc).
    rewrite (find_sub_prefix _ _ _ _ Hfind). cbn. f_equal. lia.
  - unfold boundary_at. replace (from + length content + 2 - 2)%nat with (from + length content)%nat by lia.
    assert (bytes_eqb (substr body (from + length content) 2) crlf = true) as -> by (unfold substr; by rewrite Hc).
    rewrite (proj2 (Nat.leb_le 2 _)) by lia. rewrite (proj2 (Nat.eqb_neq _ 0)) by lia. cbn [andb orb].
    rewrite (line_end_ok body _ rest); [done| |done].
    rewrite <- !Nat.add_assoc, Nat.add_assoc, <- drop_drop, Hc, <- drop_drop. change (drop 2 (crlf ++ delim ++ rest)) with (delim ++ rest). apply drop_app_length.
Qed.

Lemma boundary_first delim rest :
  delim <> [] -> line_end rest -> find_multipart_boundary_line (delim ++ rest) delim 0 = Some (Some (mkMatch 0 0)).
Proof.
  intros Hne He. unfold find_multipart_boundary_line.
  assert (0 < length delim)%nat by (destruct delim; [done|cbn; lia]).
  apply (boundary_loop_found _ _ _ _ 0); try (rewrite length_app; lia).
  - unfold sv_find_sub. rewrite drop_0, find_sub_here by done. done.
  - unfold boundary_at. cbn [Nat.eqb orb Nat.leb andb negb]. rewrite (line_end_ok _ _ rest); [done| |done]. apply drop_app_length.
Qed.

(** *** Parts *)

Inductive part :=
| FieldPart (n content : bytes)
| FilePart (n f type content : bytes).

Definition part_name (p : part) : bytes := match p with FieldPart n _ | FilePart n _ _ _ => n end.
Definition part_file (p : part) : option bytes := match p with FieldPart _ _ => None | FilePart _ f _ _ => Some f end.
Definition part_content (p : part) : bytes := match p with FieldPart _ c | FilePart _ _ _ c => c end.

Definition part_lines (p : part) : list bytes :=
  (B "Content-Disposition: " ++ disposition (part_name p) (part_file p))
  :: match p with FieldPart _ _ => [] | FilePart _ _ t _ => [B "Content-Type: " ++ t] end.

(** The lines without the last line end. *)
Definition part_head (p : part) : bytes :=
  match part_lines p with l :: ls => l ++ concat (map (fun l => crlf ++ l) ls) | [] => [] end.

Definition part_text (delim : bytes) (p : part) : bytes :=
  delim ++ crlf ++ part_head p ++ crlf ++ crlf ++ part_content p ++ crlf.

(** A form as a client writes it. *)
Definition form_text (boundary : bytes) (ps : list part) : bytes :=
  concat (map (part_text (B "--" ++ boundary)) ps) ++ B "--" ++ boundary ++ B "--" ++ crlf.

Definition text_ok (v : bytes) : Prop := quotable v /\ x0d ∉ v.

Definition part_ok (delim : bytes) (p : part) : Prop :=
  text_ok (part_name p) /\
  match p with
  | FieldPart n _ => n <> []
  | FilePart _ f t _ => text_ok f /\ f <> [] /\ x0d ∉ t /\ trim t = t
  end /\
  Z.of_nat (length (part_head p)) <= kMaxPartHeaderBytes /\
  find_sub delim (part_content p ++ crlf ++ delim) = Some (length (part_content p) + 2)%nat.

Definition with_part (out : parts_read) (p : part) : parts_read :=
  match p with
  | FieldPart n c => (emplace_back out.1 n c, out.2)
  | FilePart n f t c => (out.1, out.2 ++ [mkFile n f t c])
  end.

Lemma disposition_no_cr n f : x0d ∉ n -> match f with Some f => x0d ∉ f | None => True end -> x0d ∉ disposition n f.
Proof.
  intros Hn Hf. unfold disposition, param_text, quoted. rewrite !not_elem_of_app, !not_elem_of_cons, !not_elem_of_app.
  split_and!; try done; try by apply find_byte_None. destruct f as [f|]; [|apply not_elem_of_nil].
  cbn [filename_part]. unfold param_text, quoted. rewrite !not_elem_of_app, !not_elem_of_cons, !not_elem_of_app.
  split_and!; try done; by apply find_byte_None.
Qed.

Lemma part_lines_ok delim p : part_ok delim p -> Forall (fun l => x0d ∉ l /\ l <> []) (part_lines p).
Proof.
  intros ((_ & Hn) & Hp & _). unfold part_lines. constructor.
  - split; [|done]. rewrite not_elem_of_app. split; [by apply find_byte_None|]. apply disposition_no_cr; [done|].
    destruct p as [|n f t c]; [done|]. by destruct Hp as ((_ & ?) & _).
  - destruct p as [|n f t c]; constructor; [|constructor]. destruct Hp as (_ & _ & Ht & _). split; [|done].
    rewrite not_elem_of_app. split; [by apply find_byte_None|done].
Qed.

Lemma part_head_end delim p rest : part_ok delim p ->
  find_sub (crlf ++ crlf) (part_head p ++ crlf ++ crlf ++ rest) = Some (length (part_head p)).
Proof.
  intros Hp. pose proof (part_lines_ok delim p Hp) as Hl. unfold part_head. destruct (part_lines p) as [|l ls] eqn:E; [by destruct p|].
  apply Forall_cons in Hl as [[Hcr _] Hls]. rewrite <- app_assoc. change (crlf ++ crlf) with (x0d :: x0a :: crlf) at 1.
  rewrite find_sub_skip by done. change (x0d :: x0a :: crlf) with (crlf ++ crlf).
  assert (concat (map (fun l => crlf ++ l) ls) ++ crlf ++ crlf ++ rest = crlf ++ Grammar.block ls ++ crlf ++ rest) as ->.
  { clear. induction ls as [|l ls IH]; [done|]. unfold Grammar.block in *. cbn [map concat flat_map]. rewrite <- !app_assoc. do 2 f_equal. exact IH. }
  rewrite find_head_end by done. cbn. f_equal. rewrite length_app. f_equal. clear.
  induction ls as [|l ls IH]; [done|]. unfold Grammar.block in *. cbn [map concat flat_map]. rewrite !length_app, IH. cbn. lia.
Qed.

Lemma disposition_trim n f : trim (disposition n f) = disposition n f.
Proof.
  apply trim_id; [done|]. unfold disposition.
  assert (forall a k v, last (a ++ param_text k v) = Some x22) as Hlast.
  { intros a k v. unfold param_text, quoted. replace (a ++ k ++ x3d :: x22 :: v ++ [x22]) with ((a ++ k ++ x3d :: x22 :: v) ++ [x22]) by (by rewrite <- !app_assoc).
    apply last_snoc. }
  destruct f as [f|]; cbn [filename_part]; [rewrite !app_assoc|rewrite app_nil_r]; by rewrite Hlast.
Qed.

Lemma part_header_disposition n f s : part_header (B "Content-Disposition: " ++ disposition n f) s = (disposition n f, s.2).
Proof.
  change (part_header (B "Content-Disposition: " ++ disposition n f) s) with (trim (x20 :: disposition n f), s.2).
  by rewrite trim_space, disposition_trim.
Qed.

Lemma part_header_type t s : trim t = t -> part_header (B "Content-Type: " ++ t) s = (s.1, t).
Proof. intros Ht. change (part_header (B "Content-Type: " ++ t) s) with (s.1, trim (x20 :: t)). by rewrite trim_space, Ht. Qed.

Lemma no_line_end s : x0d ∉ s -> find_sub crlf s = None.
Proof. intros H. rewrite <- (app_nil_r s). unfold crlf. by rewrite find_sub_skip. Qed.

Definition part_type (p : part) : bytes := match p with FieldPart _ _ => B "text/plain" | FilePart _ _ t _ => t end.

Lemma part_headers_ok delim p : part_ok delim p ->
  part_headers_loop (length (part_head p)) (part_head p) 0 ([], B "text/plain") =
  Some (disposition (part_name p) (part_file p), part_type p).
Proof.
  intros Hp. pose proof (part_lines_ok delim p Hp) as Hl. destruct p as [n c|n f t c]; cbn [part_lines part_name part_file] in Hl;
    apply Forall_cons in Hl as [[Hcr _] Hls]; unfold part_head; cbn [part_lines part_name part_file map concat].
  - rewrite app_nil_r. set (l := B "Content-Disposition: " ++ disposition n None) in *.
    assert (exists k, length l = S k) as [k Hk] by (by exists (length (tail l))). rewrite Hk at 1. cbn [part_headers_loop].
    rewrite (proj2 (Nat.leb_gt _ _)) by lia. unfold sv_find_sub. rewrite drop_0, no_line_end by done. cbn [fmap option_fmap option_map].
    subst l. by rewrite part_header_disposition.
  - rewrite app_nil_r. apply Forall_cons in Hls as [[Hcr2 _] _]. destruct Hp as (_ & (_ & _ & _ & Ht) & _).
    set (l := B "Content-Disposition: " ++ disposition n (Some f)) in *. set (l2 := B "Content-Type: " ++ t) in *.
    assert (length (l ++ crlf ++ l2) = length l + 2 + length l2)%nat as Hlen by (rewrite !length_app; cbn; lia).
    assert (0 < length l)%nat by (by subst l; cbn; lia). assert (0 < length l2)%nat by (by subst l2; cbn; lia).
    assert (exists k, length (l ++ crlf ++ l2) = S (S k)) as [k Hk] by (exists (length l + length l2)%nat; lia).
    rewrite Hk at 1. cbn [part_headers_loop]. rewrite (proj2 (Nat.leb_gt _ _)) by lia.
    unfold sv_find_sub. rewrite drop_0, find_crlf by done. cbn [fmap option_fmap option_map]. rewrite Nat.add_0_l, (proj2 (Nat.leb_gt _ _)) by lia.
    assert (drop (length l + 2) (l ++ crlf ++ l2) = l2) as -> by (by rewrite <- drop_drop, drop_app_length).
    rewrite no_line_end by done. cbn [fmap option_fmap option_map]. unfold substr. rewrite drop_0, Nat.sub_0_r, take_app_length.
    subst l l2. by rewrite part_header_disposition, part_header_type.
Qed.

Lemma read_part_ok body delim p pos rest out :
  part_ok delim p -> drop pos body = part_head p ++ crlf ++ crlf ++ part_content p ++ crlf ++ delim ++ rest -> line_end rest ->
  read_part body delim pos out =
  Some (Some (pos + length (part_head p) + 4 + length (part_content p) + 2, with_part out p))%nat.
Proof.
  intros Hp Hd He. unfold read_part, sv_find_sub. rewrite Hd, (part_head_end delim) by done. cbn [fmap option_fmap option_map].
  pose proof Hp as (Hn & Hrest & Hsize & Hfind). rewrite (proj2 (Nat.ltb_ge _ _)) by lia. cbn [orb].
  replace (pos + length (part_head p) - pos)%nat with (length (part_head p)) by lia. rewrite (proj2 (Z.ltb_ge _ _)) by done.
  rewrite (boundary_found body delim _ (part_content p) rest); [|..|done|done].
  2:{ rewrite <- Nat.add_assoc, <- drop_drop, Hd, <- drop_drop, drop_app_length. done. }
  cbn [mbind option_bind content_end delim_pos]. rewrite (proj2 (Nat.ltb_ge _ _)) by lia.
  unfold substr. rewrite Hd, take_app_length. rewrite (part_headers_ok delim) by done. cbn [mbind option_bind].
  assert (match part_file p with Some f => quotable f | None => True end) as Hqf.
  { destruct p as [|? f]; [done|]. by destruct Hrest as ((? & _) & _). }
  destruct (extract_disposition (part_name p) (part_file p)) as [-> ->]; [by destruct Hn|done|]. cbn [mbind option_bind].
  replace (drop (pos + length (part_head p) + 4) body) with (part_content p ++ crlf ++ delim ++ rest)
    by (rewrite <- Nat.add_assoc, <- drop_drop, Hd, <- drop_drop, drop_app_length; done).
  replace (pos + length (part_head p) + 4 + length (part_content p) - (pos + length (part_head p) + 4))%nat with (length (part_content p)) by lia.
  rewrite take_app_length. do 3 f_equal.
  destruct p as [n c|n f t c]; cbn [part_name part_file part_type part_content default with_part add_part].
  - destruct n; [by destruct Hrest|done].
  - destruct Hrest as (_ & Hf & _). by destruct f.
Qed.

Lemma multipart_loop_ok ps delim rounds body pos out :
  Forall (part_ok delim) ps -> (length ps <= rounds)%nat -> delim <> [] ->
  drop pos body = concat (map (part_text delim) ps) ++ delim ++ B "--" ++ crlf ->
  multipart_loop rounds body delim pos out = Some (fold_left with_part ps out).
Proof.
  intros Hok Hr Hne. revert rounds pos out Hr. induction Hok as [|p ps Hp Hps IH]; intros rounds pos out Hr Hd.
  - destruct rounds as [|rounds]; [done|]. cbn [multipart_loop map concat app] in *.
    assert (drop (pos + length delim) body = B "--" ++ crlf) as Hd2 by (by rewrite <- drop_drop, Hd, drop_app_length).
    destruct (_ <=? _)%nat; [done|]. unfold substr. rewrite Hd2. done.
  - destruct rounds as [|rounds]; [cbn in Hr; lia|]. cbn [multipart_loop map concat] in *.
    set (next := concat (map (part_text delim) ps) ++ delim ++ B "--" ++ crlf) in *.
    assert (exists rest, next = delim ++ rest /\ line_end rest) as (rest & Hnext & He).
    { subst next. destruct ps as [|p2 ps]; [exists (B "--" ++ crlf); split; [done|by left]|]. cbn [map concat]. unfold part_text at 1. rewrite <- !app_assoc.
      eexists. split; [reflexivity|]. right. apply starts_with_app. }
    assert (drop (pos + length delim) body = crlf ++ part_head p ++ crlf ++ crlf ++ part_content p ++ crlf ++ next) as Hd2.
    { rewrite <- drop_drop, Hd. unfold part_text at 1. rewrite <- !app_assoc, drop_app_length. done. }
    assert (length (drop (pos + length delim) body) > 2)%nat as Hlen by (rewrite Hd2, !length_app; cbn; lia). rewrite length_drop in Hlen.
    rewrite (proj2 (Nat.leb_gt _ _)) by lia. unfold substr. rewrite Hd2. cbn [take app crlf].
    change (bytes_eqb [x0d; x0a] (B "--")) with false. rewrite bytes_eqb_refl. cbn beta iota.
    rewrite (read_part_ok body delim p _ rest); [|done| |done].
    2:{ rewrite <- drop_drop, Hd2, Hnext. done. }
    cbn [mbind option_bind]. rewrite (IH rounds); [done|cbn in Hr; lia|].
    replace (pos + length delim + 2 + length (part_head p) + 4 + length (part_content p) + 2)%nat
      with (pos + length delim + (2 + (length (part_head p) + (4 + (length (part_content p) + 2)))))%nat by lia.
    rewrite <- drop_drop, Hd2, <- drop_drop. change (drop 2 (crlf ++ ?x)) with x. rewrite <- drop_drop, drop_app_length, <- drop_drop.
    change (drop 4 (crlf ++ crlf ++ ?x)) with x. by rewrite <- drop_drop, drop_app_length.
Qed.

Lemma form_read ps boundary form files :
  Forall (part_ok (B "--" ++ boundary)) ps -> (length ps <= kMaxMultipartParts)%nat ->
  parse_multipart (form_text boundary ps) boundary form files = Some (fold_left with_part ps (form, files)).
Proof.
  intros Hok Hl. unfold parse_multipart. set (delim := B "--" ++ boundary) in *.
  assert (form_text boundary ps = concat (map (part_text delim) ps) ++ delim ++ B "--" ++ crlf) as Hf.
  { unfold form_text. subst delim. by rewrite <- !app_assoc. }
  assert (exists rest, form_text boundary ps = delim ++ rest /\ line_end rest) as (rest & Hd & He).
  { rewrite Hf. destruct ps as [|p ps]; [exists (B "--" ++ crlf); split; [done|by left]|]. cbn [map concat]. unfold part_text at 1. rewrite <- !app_assoc.
    eexists. split; [reflexivity|]. right. apply starts_with_app. }
  rewrite Hd at 1. rewrite boundary_first by done. cbn [mbind option_bind delim_pos].
  by apply multipart_loop_ok.
Qed.

End MultipartOk.

(** ** Properties *)

Module ServeProps.
Import Http1.Head Http1.Grammar Chunked Fields Req Resp Format FormatOk ChunkOk Parts CookieOk Multipart MultipartOk.

(** C10: a response cannot be split. Whatever bytes an application puts into the
    reason phrase, the content type, the fields and the cookies, the text sent is a
    status line, one line for each of [response_fields], an empty line and the
    body; every one of these fields has a token as its name and no control bytes in
    its value; the first empty line of the text is that one; and the fields that
    frame the message are the length the response computed and the connection's. *)
Theorem response_not_split date r alt_svc close :
  is_ws_upgrade r = false -> is_valid_header_value date = true -> is_valid_header_value alt_svc = true ->
  let fields := response_fields date r alt_svc close in
  let lines := map field_text fields in
  format_response date r alt_svc close = status_line r ++ crlf ++ block lines ++ crlf ++ sent_body r /\
  Forall field_ok fields /\
  find_sub (crlf ++ crlf) (format_response date r alt_svc close) = Some (length (status_line r) + length (block lines))%nat /\
  filter (fun f => HeaderList.is_response_framing_header f.1 = true) fields = length_field r ++ [connection_field close].
Proof.
  intros Hws Hd Ha fields lines. pose proof (response_fields_ok date r alt_svc close Hd Ha) as Hok.
  assert (format_response date r alt_svc close = status_line r ++ crlf ++ block lines ++ crlf ++ sent_body r) as Hf by (by apply format_response_fields).
  split; [done|]. split; [done|]. split.
  - rewrite Hf. change (crlf ++ crlf) with (x0d :: x0a :: crlf) at 1. rewrite find_sub_skip by apply status_line_no_cr.
    change (x0d :: x0a :: crlf) with (crlf ++ crlf). rewrite find_head_end; [done|]. apply Forall_fmap. eapply Forall_impl; [exact Hok|]. apply field_text_line.
  - subst fields. unfold response_fields. rewrite !filter_app.
    assert (forall l : list (bytes * bytes), Forall (fun f => HeaderList.is_response_framing_header f.1 = false) l ->
      filter (fun f => HeaderList.is_response_framing_header f.1 = true) l = []) as Hnone.
    { intros l Hl. induction Hl as [|f l Hf' Hl IH]; [done|]. by rewrite filter_cons, decide_False by congruence. }
    rewrite (Hnone (filter _ (data_ (headers r)))), (Hnone (map _ _)).
    + assert (filter (fun f => HeaderList.is_response_framing_header f.1 = true) (length_field r) = length_field r) as ->.
      { unfold length_field. by repeat case_match. }
      assert (filter (fun f => HeaderList.is_response_framing_header f.1 = true) [connection_field close] = [connection_field close]) as -> by done.
      destruct (negb _ && _), (bytes_eqb alt_svc []); done.
    + apply Forall_fmap, Forall_true. done.
    + apply Forall_forall. intros f Hf'. apply list_elem_of_filter in Hf' as [Hs _]. unfold sendable in Hs.
      apply andb_true_iff in Hs as [[Hs _]%andb_true_iff _]. by apply negb_true_iff.
Qed.

Lemma response_not_split_witness :
  let r := set_header (B "X") (B "a" ++ crlf ++ B "Set-Cookie: b") (text (B "hi") 200) in
  let fields := response_fields (B "now") r [] true in
  let lines := map field_text fields in
  format_response (B "now") r [] true = status_line r ++ crlf ++ block lines ++ crlf ++ sent_body r /\
  Forall field_ok fields /\
  find_sub (crlf ++ crlf) (format_response (B "now") r [] true) = Some (length (status_line r) + length (block lines))%nat /\
  filter (fun f => HeaderList.is_response_framing_header f.1 = true) fields = length_field r ++ [connection_field true].
Proof.
  intros r. apply (response_not_split (B "now") r [] true); reflexivity.
Defined.

(** a stream of chunks is what was sent: the chunks that [format_http_chunk]
    writes for pieces that are not empty, and the last chunk, decode to the
    concatenation of the pieces and nothing is left. *)
Theorem chunk_stream_decodes payloads max_body max_chunks :
  Forall (fun p => p <> []) payloads -> Z.of_nat (length (concat payloads)) <= max_body -> (length payloads < max_chunks)%nat ->
  let text := concat (map format_http_chunk payloads) ++ B "0" ++ crlf ++ crlf in
  Z.of_nat (length text) < 2 ^ 64 - 2 ->
  decode_chunked text max_body max_chunks = Some (Z.of_nat (length text), concat payloads).
Proof.
  intros Hne Hb Hc text Hsz. rewrite <- (app_nil_r text) at 1. apply (decode_chunked_text (S (length payloads)) 0 0); try lia.
  - by rewrite app_nil_r.
  - apply chunks_text. apply Forall_forall. intros p Hp. rewrite Forall_forall in Hne. split; [by apply Hne|].
    assert (length p <= length text)%nat; [|unfold size_max; lia]. subst text. rewrite length_app.
    apply list_elem_of_split in Hp as (l1 & l2 & ->). rewrite map_app. cbn [map]. rewrite concat_app. cbn [concat].
    unfold format_http_chunk at 2. rewrite !length_app. lia.
Qed.

Lemma chunk_stream_decodes_witness :
  decode_chunked (concat (map format_http_chunk [B "hello"; B "world!"]) ++ B "0" ++ crlf ++ crlf) 100 9
  = Some (Z.of_nat (length (concat (map format_http_chunk [B "hello"; B "world!"]) ++ B "0" ++ crlf ++ crlf)), concat [B "hello"; B "world!"]).
Proof.
  apply (chunk_stream_decodes [B "hello"; B "world!"] 100 9); [|cbn; lia|cbn; lia|vm_compute; reflexivity].
  constructor; [done|]. constructor; [done|]. constructor.
Defined.

(** cookies are read as they are sent: the field that a client writes for a
    list of cookies, pairs with a semicolon and a blank between, gives that list,
    in order. *)
Theorem cookies_read cs out :
  cs <> [] -> Forall cookie_ok cs ->
  parse_cookies (cookie_header cs) out = Some (mkFields (data_ out ++ cs) (case_insensitive_ out)).
Proof.
  intros Hne Hok. unfold parse_cookies. apply (cookie_loop_ok cs []); try done; [by left|lia].
Qed.

Lemma cookies_read_witness :
  parse_cookies (cookie_header [(B "a", B "1"); (B "b", B "x=y")]) (mkFields [] false)
  = Some (mkFields (data_ (mkFields [] false) ++ [(B "a", B "1"); (B "b", B "x=y")]) (case_insensitive_ (mkFields [] false))).
Proof.
  apply (cookies_read [(B "a", B "1"); (B "b", B "x=y")] (mkFields [] false)); [done|].
  repeat constructor; try done; by apply find_byte_None.
Defined.

(** C12: a multipart form is read as it was written: for fields and files whose
    names need no escaping and whose contents do not contain the delimiter, any
    line ends and other bytes in them included, [parse_multipart] appends exactly
    these fields and files, in order, up to the limit on parts. *)
Theorem multipart_form_read boundary ps form files :
  Forall (part_ok (B "--" ++ boundary)) ps -> (length ps <= kMaxMultipartParts)%nat ->
  parse_multipart (form_text boundary ps) boundary form files = Some (fold_left with_part ps (form, files)).
Proof. apply form_read. Qed.

Definition sample_parts : list part :=
  [FieldPart (B "a") (B "1" ++ crlf ++ B "2"); FilePart (B "f") (B "x.txt") (B "text/csv") (B "c,d")].

Lemma multipart_form_read_witness :
  parse_multipart (form_text (B "XX") sample_parts) (B "XX") (mkFields [] false) [] = Some (fold_left with_part sample_parts (mkFields [] false, [])).
Proof.
  apply (multipart_form_read (B "XX") sample_parts (mkFields [] false) []); [|unfold kMaxMultipartParts; cbn; lia].
  repeat constructor; try done; by apply find_byte_None.
Defined.

End ServeProps.

