(* ===== verification/HttpUpload.v ===== *)
(** * Streamed request bodies

    [src/src/net/server_types.cxx], [UploadBodyState]: the queue between the
    connection, which pushes the pieces of a body as they arrive, and the handler,
    which reads them. Each call runs under the mutex and is one step. A read that
    finds nothing waits; the step that completes it returns its result, which is the
    value the waiting task resumes with.

    The theorem: over every sequence of calls the handler is given the pieces that
    were pushed, each once and in order, the end only after the last piece, and
    nothing but the latest error once the body has failed; every read is answered
    as soon as there is anything to answer, and a push is refused exactly when the
    body would exceed its limit or the queue is full. *)

From Stdlib Require Import ZArith Lia Strings.Byte String.
From stdpp Require Import base tactics option numbers list.
From S2P Require Import Prelude.
From S2P Require Import HttpMessage.

Module Upload.
Import Resp.

Record UploadError := mkUploadError { kind : UploadErrorKind; detail : bytes }.

Definition upload_error_code (kind : UploadErrorKind) : bytes :=
  match kind with
  | malformed_body => B "malformed_body"
  | disconnected => B "disconnected"
  | timeout => B "timeout"
  | cancelled => B "cancelled"
  | body_too_large => B "body_too_large"
  | content_length_mismatch => B "content_length_mismatch"
  | io_error => B "io_error"
  end.

(** A piece, the end of the body, or the error. *)
Definition UploadReadResult : Type := expected (option bytes) UploadError.

(** [pending_read_] holds a source exactly when [read_pending_] is set. *)
Record UploadBodyState := mkUpload {
  chunks_ : list bytes; active_chunk_ : bytes; terminal_error_ : option UploadError; eof_ : bool;
  read_pending_ : bool; content_length_ : option Z; bytes_read_ : Z; bytes_received_ : Z; body_limit_ : Z;
  queue_capacity_ : nat; consumer_abandoned_ : bool; prelude_rejected_ : bool
}.

Definition make (content_length : option Z) (queue_capacity : nat) : UploadBodyState :=
  mkUpload [] [] None false false content_length 0 0 0 (if (queue_capacity =? 0)%nat then 1 else queue_capacity) false false.

(** The queue, the active piece and the count of bytes read. *)
Definition set_queue (cs : list bytes) (active : bytes) (n : Z) (u : UploadBodyState) : UploadBodyState :=
  mkUpload cs active (terminal_error_ u) (eof_ u) (read_pending_ u) (content_length_ u) n (bytes_received_ u)
    (body_limit_ u) (queue_capacity_ u) (consumer_abandoned_ u) (prelude_rejected_ u).

Definition set_error (e : UploadError) (u : UploadBodyState) : UploadBodyState :=
  mkUpload [] [] (Some e) (eof_ u) (read_pending_ u) (content_length_ u) (bytes_read_ u) (bytes_received_ u)
    (body_limit_ u) (queue_capacity_ u) (consumer_abandoned_ u) (prelude_rejected_ u).

Definition set_pending (p : bool) (u : UploadBodyState) : UploadBodyState :=
  mkUpload (chunks_ u) (active_chunk_ u) (terminal_error_ u) (eof_ u) p (content_length_ u) (bytes_read_ u)
    (bytes_received_ u) (body_limit_ u) (queue_capacity_ u) (consumer_abandoned_ u) (prelude_rejected_ u).

Definition set_received (n : Z) (u : UploadBodyState) : UploadBodyState :=
  mkUpload (chunks_ u) (active_chunk_ u) (terminal_error_ u) (eof_ u) (read_pending_ u) (content_length_ u)
    (bytes_read_ u) n (body_limit_ u) (queue_capacity_ u) (consumer_abandoned_ u) (prelude_rejected_ u).

Definition set_eof (u : UploadBodyState) : UploadBodyState :=
  mkUpload (chunks_ u) (active_chunk_ u) (terminal_error_ u) true (read_pending_ u) (content_length_ u)
    (bytes_read_ u) (bytes_received_ u) (body_limit_ u) (queue_capacity_ u) (consumer_abandoned_ u) (prelude_rejected_ u).

Definition set_abandoned (u : UploadBodyState) : UploadBodyState :=
  mkUpload (chunks_ u) (active_chunk_ u) (terminal_error_ u) (eof_ u) (read_pending_ u) (content_length_ u)
    (bytes_read_ u) (bytes_received_ u) (body_limit_ u) (queue_capacity_ u) true (prelude_rejected_ u).

Definition set_body_limit (limit : Z) (u : UploadBodyState) : UploadBodyState :=
  mkUpload (chunks_ u) (active_chunk_ u) (terminal_error_ u) (eof_ u) (read_pending_ u) (content_length_ u)
    (bytes_read_ u) (bytes_received_ u) limit (queue_capacity_ u) (consumer_abandoned_ u) (prelude_rejected_ u).

Definition mark_prelude_rejected (u : UploadBodyState) : UploadBodyState :=
  mkUpload (chunks_ u) (active_chunk_ u) (terminal_error_ u) (eof_ u) (read_pending_ u) (content_length_ u)
    (bytes_read_ u) (bytes_received_ u) (body_limit_ u) (queue_capacity_ u) (consumer_abandoned_ u) true.

Definition locked_next_result (u : UploadBodyState) : UploadReadResult * UploadBodyState :=
  match terminal_error_ u, chunks_ u with
  | Some e, _ => (Unexpected e, u)
  | None, c :: rest => (Ok (Some c), set_queue rest c (u64 (bytes_read_ u + Z.of_nat (length c))) u)
  | None, [] =>
      if eof_ u then (Ok None, u)
      else (Unexpected (mkUploadError cancelled (B "upload read is not ready")), u)
  end.

(** What a read gives: a result at once ([now]), a result for the read that was
    waiting ([waiter]), or neither, and then this read waits. *)
Record read_outcome := mkRead { now : option UploadReadResult; waiter : option UploadReadResult }.

Definition read (u : UploadBodyState) : read_outcome * UploadBodyState :=
  if match terminal_error_ u, chunks_ u with None, [] => eof_ u | _, _ => true end then
    let '(r, u) := locked_next_result u in (mkRead (Some r) None, u)
  else if read_pending_ u then
    let e := mkUploadError cancelled (B "concurrent UploadBody::read() is not allowed") in
    (mkRead (Some (Unexpected e)) (Some (Unexpected e)), set_pending false (set_abandoned (set_error e u)))
  else (mkRead None None, set_pending true u).

(** [push]: its result, the result of the read that waited, and the state. *)
Definition push (chunk : bytes) (u : UploadBodyState)
    : expected unit UploadError * option UploadReadResult * UploadBodyState :=
  let n := Z.of_nat (length chunk) in
  if match terminal_error_ u with Some _ => true | None => eof_ u end then (Ok tt, None, u)
  else if negb (body_limit_ u =? 0) && ((body_limit_ u <? n) || (body_limit_ u - n <? bytes_received_ u)) then
    let e := mkUploadError body_too_large (B "upload exceeds body limit") in
    let u' := set_error e u in
    if read_pending_ u then (Unexpected e, Some (Unexpected e), set_pending false u') else (Unexpected e, None, u')
  else
    let u := set_received (u64 (bytes_received_ u + n)) u in
    if negb (read_pending_ u) && (queue_capacity_ u <=? length (chunks_ u))%nat
    then (Unexpected (mkUploadError io_error (B "upload stream queue is full")), None, u)
    else
      let u := set_queue (chunks_ u ++ [chunk]) (active_chunk_ u) (bytes_read_ u) u in
      if read_pending_ u then
        let '(r, u) := locked_next_result u in (Ok tt, Some r, set_pending false u)
      else (Ok tt, None, u).

Definition finish (u : UploadBodyState) : option UploadReadResult * UploadBodyState :=
  let u := set_eof u in
  if read_pending_ u then
    match chunks_ u with
    | [] => (Some (Ok None), set_pending false u)
    | _ => let '(r, u) := locked_next_result u in (Some r, set_pending false u)
    end
  else (None, u).

Definition fail (error : UploadError) (u : UploadBodyState) : option UploadReadResult * UploadBodyState :=
  let u := set_error error u in
  if read_pending_ u then (Some (Unexpected error), set_pending false u) else (None, u).

Definition abandon_consumer (u : UploadBodyState) : option UploadReadResult * UploadBodyState :=
  fail (mkUploadError cancelled (B "upload body was destroyed before it was consumed or discarded")) (set_abandoned u).

End Upload.

(** ** Sequences of calls *)

Module UploadOk.
Import Resp Upload.

Inductive call :=
| Push (chunk : bytes) | Finish | Fail (e : UploadError) | Read | Abandon | SetLimit (n : Z) | Reject.

(** What was seen from outside: the results readers were given, in order, the
    pieces that were taken into the body (those pushed before the end and before a
    failure, with success), the number of reads, the latest failure, whether the
    body was finished, the bytes pushed while it was open, and the limit. *)
Record trace := mkTrace {
  state : UploadBodyState; results : list UploadReadResult; taken : list bytes; reads : nat;
  failure : option UploadError; ended : bool; received : Z; limit : Z
}.

Definition opt_list {A} (o : option A) : list A := match o with Some x => [x] | None => [] end.

Definition closed (t : trace) : bool := ended t || match failure t with Some _ => true | None => false end.
Definition over (t : trace) (chunk : bytes) : bool :=
  negb (limit t =? 0) && (limit t <? received t + Z.of_nat (length chunk)).
Definition waiting (t : trace) : bool := (length (results t) <? reads t)%nat.

(** The failure a call brings about. *)
Definition failure_of (t : trace) (c : call) : option UploadError :=
  match c with
  | Fail e => Some e
  | Abandon => Some (mkUploadError cancelled (B "upload body was destroyed before it was consumed or discarded"))
  | Push chunk =>
      if negb (closed t) && over t chunk then Some (mkUploadError body_too_large (B "upload exceeds body limit")) else None
  | Read => if waiting t then Some (mkUploadError cancelled (B "concurrent UploadBody::read() is not allowed")) else None
  | _ => None
  end.

(** The calls on the implementation: what a reader is given and what [push] answers. *)
Definition step (u : UploadBodyState) (c : call) : list UploadReadResult * bool * UploadBodyState :=
  match c with
  | Push chunk => let '(r, w, u) := push chunk u in (opt_list w, match r with Ok _ => true | Unexpected _ => false end, u)
  | Finish => let '(w, u) := finish u in (opt_list w, false, u)
  | Fail e => let '(w, u) := fail e u in (opt_list w, false, u)
  | Read => let '(o, u) := read u in (opt_list (waiter o) ++ opt_list (now o), false, u)
  | Abandon => let '(w, u) := abandon_consumer u in (opt_list w, false, u)
  | SetLimit n => ([], false, set_body_limit n u)
  | Reject => ([], false, mark_prelude_rejected u)
  end.

Definition do_call (t : trace) (c : call) : trace :=
  let '(given, accepted, u) := step (state t) c in
  mkTrace u (results t ++ given)
    (match c with Push chunk => if negb (closed t) && accepted then taken t ++ [chunk] else taken t | _ => taken t end)
    (match c with Read => S (reads t) | _ => reads t end)
    (match failure_of t c with Some e => Some e | None => failure t end)
    (match c with Finish => true | _ => ended t end)
    (match c with
     | Push chunk => if negb (closed t) && negb (over t chunk) then u64 (received t + Z.of_nat (length chunk)) else received t
     | _ => received t
     end)
    (match c with SetLimit n => n | _ => limit t end).

Definition start (u : UploadBodyState) : trace := mkTrace u [] [] 0 None false 0 0.
Definition run (u : UploadBodyState) (cs : list call) : trace := fold_left do_call cs (start u).

Definition piece_of (r : UploadReadResult) : list bytes := match r with Ok (Some c) => [c] | _ => [] end.
Definition pieces (rs : list UploadReadResult) : list bytes := flat_map piece_of rs.
Definition succeeds (r : UploadReadResult) : Prop := match r with Ok _ => True | Unexpected _ => False end.

(** The invariant, on what the calls read and change. *)
Record queue_ok (cs : list bytes) (err : option UploadError) (e pend : bool) (cap : nat)
    (rs : list UploadReadResult) (tk : list bytes) : Prop := {
  q_pending : pend = true -> cs = [] /\ err = None /\ e = false;
  q_live : err = None -> tk = pieces rs ++ cs /\ Forall succeeds rs;
  q_prefix : exists rest, tk = pieces rs ++ rest;
  q_end : Ok None ∈ rs -> e = true /\ cs = [] /\ tk = pieces rs;
  q_cap : (length cs <= cap)%nat /\ (1 <= cap)%nat;
  q_failed : is_Some err -> cs = []
}.

Definition trace_ok (t : trace) : Prop :=
  let u := state t in
  queue_ok (chunks_ u) (terminal_error_ u) (eof_ u) (read_pending_ u) (queue_capacity_ u) (results t) (taken t) /\
  failure t = terminal_error_ u /\ ended t = eof_ u /\ reads t = (length (results t) + Nat.b2n (read_pending_ u))%nat /\
  received t = bytes_received_ u /\ 0 <= received t /\ limit t = body_limit_ u.

Lemma pieces_app a b : pieces (a ++ b) = pieces a ++ pieces b.
Proof. apply flat_map_app. Qed.

Lemma pieces_failed es : Forall (fun r => ~ succeeds r) es -> pieces es = [].
Proof. induction 1 as [|[] es H _ IH]; cbn in *; [done|by destruct H|done]. Qed.

(** Failing drops the queue and tells the reader that waits. *)
Lemma queue_fail cs err e pend cap rs tk x es :
  queue_ok cs err e pend cap rs tk -> Forall (fun r => ~ succeeds r) es -> queue_ok [] (Some x) e false cap (rs ++ es) tk.
Proof.
  intros [Hp Hl [rest Hr] He [Hc Hc1] Hf] Hes. pose proof (pieces_failed _ Hes) as Hn.
  constructor; rewrite ?pieces_app, ?Hn, ?app_nil_r; try done; [by eexists| |cbn; lia].
  rewrite elem_of_app. intros [H|H]; [by destruct (He H) as (? & _ & ?)|].
  rewrite Forall_forall in Hes. by destruct (Hes _ H).
Qed.

(** A result is given to a reader. *)
Lemma queue_pop c cs e cap rs tk :
  queue_ok (c :: cs) None e false cap rs tk -> queue_ok cs None e false cap (rs ++ [Ok (Some c)]) tk.
Proof.
  intros [Hp Hl _ He [Hc Hc1] Hf]. destruct (Hl eq_refl) as [-> Hs].
  constructor; rewrite ?pieces_app; cbn in *; try done.
  - intros _. split; [by rewrite <- app_assoc|]. apply Forall_app. by split; [|repeat constructor].
  - exists cs. by rewrite <- app_assoc.
  - rewrite elem_of_app, list_elem_of_singleton. intros [H|]; [by destruct (He H) as (_ & ? & _)|done].
  - lia.
Qed.

Lemma queue_hand c cap rs tk :
  queue_ok [] None false true cap rs tk -> queue_ok [] None false false cap (rs ++ [Ok (Some c)]) (tk ++ [c]).
Proof.
  intros [Hp Hl _ He [Hc Hc1] Hf]. destruct (Hl eq_refl) as [-> Hs]. rewrite app_nil_r in *.
  constructor; rewrite ?pieces_app; cbn; try done.
  - intros _. rewrite app_nil_r. split; [done|]. apply Forall_app. by split; [|repeat constructor].
  - exists []. by rewrite app_nil_r.
  - rewrite elem_of_app, list_elem_of_singleton. intros [H|]; [by destruct (He H)|done].
Qed.

Lemma queue_add c cs cap rs tk :
  queue_ok cs None false false cap rs tk -> (length cs < cap)%nat -> queue_ok (cs ++ [c]) None false false cap rs (tk ++ [c]).
Proof.
  intros [Hp Hl _ He [Hc Hc1] Hf] Hlt. destruct (Hl eq_refl) as [-> Hs].
  constructor; try done.
  - intros _. split; [by rewrite <- app_assoc|done].
  - exists (cs ++ [c]). by rewrite <- app_assoc.
  - intros H. by destruct (He H).
  - rewrite length_app. cbn. lia.
Qed.

Lemma queue_ended pend e cap rs tk :
  queue_ok [] None e pend cap rs tk -> queue_ok [] None true false cap (rs ++ [Ok None]) tk.
Proof.
  intros [Hp Hl _ He [Hc Hc1] Hf]. destruct (Hl eq_refl) as [-> Hs]. rewrite app_nil_r in *.
  constructor; rewrite ?pieces_app; cbn; rewrite ?app_nil_r; try done.
  - intros _. split; [done|]. apply Forall_app. by split; [|repeat constructor].
  - exists []. by rewrite app_nil_r.
Qed.

Lemma queue_all_read pend e cap rs tk : queue_ok [] None e pend cap rs tk -> tk = pieces (rs ++ [Ok None]).
Proof. intros [_ Hl _ _ _ _]. destruct (Hl eq_refl) as [-> _]. rewrite pieces_app. cbn. by rewrite !app_nil_r. Qed.

Lemma queue_finish cs err e cap rs tk : queue_ok cs err e false cap rs tk -> queue_ok cs err true false cap rs tk.
Proof. intros [Hp Hl Hx He Hc Hf]. constructor; try done. intros H. by destruct (He H) as (_ & ? & ?). Qed.

Lemma queue_wait cap rs tk : queue_ok [] None false false cap rs tk -> queue_ok [] None false true cap rs tk.
Proof. by intros []. Qed.

Lemma queue_told x cs e cap rs tk :
  queue_ok cs (Some x) e false cap rs tk -> queue_ok cs (Some x) e false cap (rs ++ [Unexpected x]) tk.
Proof.
  intros H. pose proof (q_failed _ _ _ _ _ _ _ H (ex_intro _ x eq_refl)) as ->.
  apply (queue_fail _ _ _ _ _ _ _ x _ H). by repeat constructor; intros [].
Qed.

#[local] Hint Resolve queue_pop queue_hand queue_ended queue_finish queue_wait queue_told : upload.

(** A result that says what happened: a piece of a body that has not failed, the
    end of a finished one after all its pieces, or the latest failure. *)
Definition answer_ok (t : trace) (r : UploadReadResult) : Prop :=
  match r with
  | Ok (Some _) => failure t = None
  | Ok None => failure t = None /\ ended t = true /\ taken t = pieces (results t)
  | Unexpected e => failure t = Some e
  end.

Lemma waiting_pending t : trace_ok t -> waiting t = read_pending_ (state t).
Proof.
  intros (_ & _ & _ & Hr & _). unfold waiting. rewrite Hr. destruct (read_pending_ (state t)); cbn [Nat.b2n];
    [apply Nat.ltb_lt|apply Nat.ltb_ge]; lia.
Qed.

Lemma over_limit (l n r : Z) : 0 <= r -> ((l <? n) || (l - n <? r))%bool = (l <? r + n).
Proof. intros H. destruct (Z.ltb_spec l n), (Z.ltb_spec (l - n) r), (Z.ltb_spec l (r + n)); cbn; lia || done. Qed.

#[local] Ltac books :=
  cbn; rewrite ?app_nil_r; split;
  [ split_and!; rewrite ?length_app; cbn; try done; try lia; try (apply u64_range); eauto with upload;
    try match goal with
        | Hf : forall x es, _ -> queue_ok [] (Some x) _ _ _ (?rs ++ es) _ |- queue_ok [] (Some ?x) _ _ _ ?rs _ =>
            rewrite <- (app_nil_r rs); apply (Hf x [])
        | Hf : forall x es, _ -> queue_ok [] (Some x) _ _ _ (?rs ++ es) _ |- queue_ok [] (Some ?x) _ _ _ (?rs ++ ?es) _ => apply (Hf x es)
        end; try (by repeat constructor; intros [])
  | first [ by exists []; rewrite app_nil_r
          | eexists; split; [done|]; by repeat constructor ] ].

(** Each call keeps the invariant and gives only results that are right. *)
Lemma do_call_ok t c : trace_ok t ->
  trace_ok (do_call t c) /\ exists new, results (do_call t c) = results t ++ new /\ Forall (answer_ok (do_call t c)) new.
Proof.
  intros Ht. pose proof (waiting_pending t Ht) as Hw.
  destruct t as [[cs act err e pend cl br bc lim cap ab pr] rs tk n f en rc li]. unfold trace_ok in Ht. cbn in Ht.
  destruct Ht as (H & -> & -> & -> & -> & Hrc & ->). cbn [state read_pending_] in Hw.
  assert (Hpend : pend = true -> cs = [] /\ err = None /\ e = false) by apply H.
  assert (Hfail : forall x es, Forall (fun r => ~ succeeds r) es -> queue_ok [] (Some x) e false cap (rs ++ es) tk)
    by (intros; by eapply queue_fail).
  unfold do_call, trace_ok, failure_of, closed, over. rewrite Hw.
  destruct c as [c| |x| | |m|]; cbn.
  - (* push *) unfold push. cbn. rewrite over_limit by done.
    destruct err as [x|]; cbn; [rewrite orb_true_r; books|]. destruct e; cbn; [books|].
    destruct (negb _ && _); cbn; [destruct pend; books|]. destruct pend; cbn.
    + destruct (Hpend eq_refl) as (-> & _). books.
    + destruct (Nat.leb_spec cap (length cs)); books. by apply queue_add.
  - (* finish *) unfold finish, locked_next_result. cbn. destruct pend; cbn; [|books].
    destruct (Hpend eq_refl) as (-> & -> & ->). pose proof (queue_all_read _ _ _ _ _ H). books.
  - (* fail *) unfold fail. cbn. destruct pend; books.
  - (* read *) unfold read, locked_next_result. cbn. destruct pend.
    + destruct (Hpend eq_refl) as (-> & -> & ->). books.
    + destruct err as [x|]; cbn; [books|]. destruct cs as [|c cs]; cbn; [|books].
      pose proof (queue_all_read _ _ _ _ _ H). destruct e; books.
  - (* abandon *) unfold abandon_consumer, fail. cbn. destruct pend; books.
  - books.
  - books.
Qed.

(** [push], as seen from outside. *)
Lemma push_answer t chunk : trace_ok t ->
  (push chunk (state t)).1.1 =
    if closed t then Ok tt
    else if over t chunk then Unexpected (mkUploadError body_too_large (B "upload exceeds body limit"))
    else if negb (waiting t) && (queue_capacity_ (state t) <=? length (taken t) - length (pieces (results t)))%nat
    then Unexpected (mkUploadError io_error (B "upload stream queue is full"))
    else Ok tt.
Proof.
  intros Ht. rewrite (waiting_pending t Ht).
  destruct t as [[cs act err e pend cl br bc lim cap ab pr] rs tk n f en rc li]. unfold trace_ok in Ht. cbn in Ht.
  destruct Ht as (H & -> & -> & -> & -> & Hrc & ->). unfold closed, over, push. cbn. rewrite over_limit by done.
  destruct err as [x|]; cbn; [by rewrite orb_true_r|]. destruct e; cbn; [done|].
  destruct (negb _ && _); cbn; [by destruct pend|]. destruct (q_live _ _ _ _ _ _ _ H eq_refl) as [-> _].
  rewrite length_app, Nat.add_comm, Nat.add_sub. destruct (negb pend && (cap <=? length cs)%nat); [done|]. cbn.
  by destruct pend, cs.
Qed.

Lemma capacity_kept u c : queue_capacity_ (step u c).2 = queue_capacity_ u.
Proof.
  destruct u as [a b er e p cl br bc lim cap ab pr].
  destruct c; cbn; unfold push, finish, fail, read, abandon_consumer, locked_next_result, fail; cbn;
    repeat case_match; by simplify_eq.
Qed.

Lemma upload_run_ok content_length capacity cs : let t := run (make content_length capacity) cs in
  trace_ok t /\ queue_capacity_ (state t) = Nat.max 1 capacity.
Proof.
  assert (Hrun : forall cs t, trace_ok t -> let t' := fold_left do_call cs t in
      trace_ok t' /\ queue_capacity_ (state t') = queue_capacity_ (state t)).
  { clear. induction cs as [|c cs IH]; intros t Ht; [done|]. cbn. destruct (do_call_ok t c Ht) as [H1 _].
    destruct (IH _ H1) as [? ->]. split; [done|]. rewrite <- (capacity_kept (state t) c). unfold do_call.
    by destruct (step (state t) c) as [[g a] u]. }
  intros t. destruct (Hrun cs (start (make content_length capacity))) as [Ht Hcap].
  { split; [|done]. constructor; cbn; try done; [by exists []|by intros H%elem_of_nil|destruct (Nat.eqb_spec capacity 0); lia]. }
  split; [exact Ht|]. unfold t, run. rewrite Hcap. cbn. destruct (Nat.eqb_spec capacity 0); lia.
Qed.

End UploadOk.

Module UploadProps.
Import Resp Upload UploadOk.

(** C35: over every sequence of calls on a streamed body, the handler is given the
    pieces that were taken, each once and in order: what was read is always a
    prefix of what was taken, and while the body has not failed at most the
    capacity of the queue is still to be read. No read is left without an answer
    while there is one to give: at most one waits, and then the body has neither
    failed nor ended and all its pieces were read. Each answer a call gives is the
    next piece, if the body has not failed, the end, if it was finished and all its
    pieces were read, or the latest failure. A push into an open body is refused
    exactly when it exceeds the limit, which fails the body, or when the queue is
    full and no read waits. *)
Theorem upload_reads_accounted content_length capacity cs c chunk :
  let t := run (make content_length capacity) cs in
  let t' := do_call t c in
  (exists rest, taken t = pieces (results t) ++ rest /\ (failure t = None -> (length rest <= Nat.max 1 capacity)%nat)) /\
  (reads t = length (results t) \/
   reads t = S (length (results t)) /\ failure t = None /\ ended t = false /\ taken t = pieces (results t)) /\
  (exists new, results t' = results t ++ new /\
     Forall (fun r => match r with
       | Ok (Some _) => failure t' = None
       | Ok None => failure t' = None /\ ended t' = true /\ taken t' = pieces (results t')
       | Unexpected e => failure t' = Some e
       end) new) /\
  (push chunk (state t)).1.1 =
    if closed t then Ok tt
    else if over t chunk then Unexpected (mkUploadError body_too_large (B "upload exceeds body limit"))
    else if negb (waiting t) && (Nat.max 1 capacity <=? length (taken t) - length (pieces (results t)))%nat
    then Unexpected (mkUploadError io_error (B "upload stream queue is full"))
    else Ok tt.
Proof.
  intros t t'. destruct (upload_run_ok content_length capacity cs) as [Ht Hcap]. fold t in Ht, Hcap. split_and!.
  - destruct Ht as ([_ Hl [rest Hr] _ [Hc _] _] & Hf & _). destruct (failure t) as [x|] eqn:Ef; [by exists rest|].
    destruct (Hl (eq_sym Hf)) as [E _]. eexists. split; [exact E|]. intros _. by rewrite <- Hcap.
  - destruct Ht as ([Hp Hl _ _ _ _] & Hf & He & Hr & _). rewrite Hr. destruct (read_pending_ (state t)) eqn:Ep; cbn [Nat.b2n]; [right|left; lia].
    destruct (Hp eq_refl) as (Hcs & Herr & Heof). destruct (Hl Herr) as [E _]. rewrite Hcs, app_nil_r in E.
    split; [lia|]. split_and!; congruence.
  - apply do_call_ok. exact Ht.
  - rewrite <- Hcap. by apply push_answer.
Qed.

End UploadProps.
