(* ===== verification/SlotPool.v ===== *)
(** * The pool of registered file slots

    [src/src/net/direct_slot_pool.cxx]: [DirectSlotPool], which gives out the
    slots of the kernel's registered-file table, and the move-only handle
    [DirectSlotLease]. [Pool] is the translation: the three vectors of the
    source, with every [assert] and every vector access checked ([None] is a
    failed assertion or an access out of range). [PoolSpec] is what the pool
    promises: a state per slot and nothing else. The theorems show that the
    vectors stay consistent, that no assertion can fail, that each operation
    does what the table of states says on every branch, and that two live
    leases never name the same slot. *)

From Stdlib Require Import ZArith Lia.
From stdpp Require Import base tactics option numbers list.
From S2P Require Import Prelude.

Inductive DirectSlotState := free_slot | leased_empty | populated | closing | poisoned.

Inductive DirectSlotError := not_registered | exhausted | out_of_range | bad_state | install_failed.

#[global] Instance slot_state_eq_dec : EqDecision DirectSlotState.
Proof. solve_decision. Defined.

Module Pool.

(** [~std::uint32_t{}]. *)
Definition no_pos : Z := 2 ^ 32 - 1.

Record DirectSlotPool := mkPool {
  capacity_ : Z;
  poisoned_count_ : Z;
  state_ : list DirectSlotState;
  free_stack_ : list Z;
  free_pos_ : list Z
}.

(** [v[i]] and [v[i] = x]. *)
Definition get {A} (v : list A) (i : Z) : option A := if i <? 0 then None else v !! Z.to_nat i.

Definition put {A} (v : list A) (i : Z) (x : A) : option (list A) :=
  if i <? 0 then None
  else if (Z.to_nat i <? length v)%nat then Some (<[Z.to_nat i := x]> v) else None.

Definition back {A} (v : list A) : option A := last v.

Definition pop_back {A} (v : list A) : option (list A) :=
  match v with [] => None | _ => Some (take (length v - 1) v) end.

Definition assert (b : bool) : option unit := if b then Some tt else None.

Definition upto (n : Z) : list Z := map Z.of_nat (seq 0 (Z.to_nat n)).

(** The constructor; [capacity] is a [std::uint32_t]. *)
Definition make (capacity : Z) : DirectSlotPool :=
  mkPool capacity 0 (replicate (Z.to_nat capacity) free_slot) (upto capacity) (upto capacity).

Definition slot_state (p : DirectSlotPool) (slot : Z) : option DirectSlotState := get (state_ p) slot.

Definition set_state (p : DirectSlotPool) (slot : Z) (s : DirectSlotState) : option DirectSlotPool :=
  st ← put (state_ p) slot s;
  Some (mkPool (capacity_ p) (poisoned_count_ p) st (free_stack_ p) (free_pos_ p)).

Definition remove_from_free (p : DirectSlotPool) (slot : Z) : option DirectSlotPool :=
  pos ← get (free_pos_ p) slot;
  _ ← assert (negb (pos =? no_pos));
  here ← get (free_stack_ p) pos;
  _ ← assert (here =? slot);
  lst ← back (free_stack_ p);
  '(stack, fpos) ←
    (if negb (lst =? slot) then
       stack ← put (free_stack_ p) pos lst;
       fpos ← put (free_pos_ p) lst pos;
       Some (stack, fpos)
     else Some (free_stack_ p, free_pos_ p));
  stack ← pop_back stack;
  fpos ← put fpos slot no_pos;
  Some (mkPool (capacity_ p) (poisoned_count_ p) (state_ p) stack fpos).

Definition push_to_free (p : DirectSlotPool) (slot : Z) : option DirectSlotPool :=
  pos ← get (free_pos_ p) slot;
  _ ← assert (pos =? no_pos);
  fpos ← put (free_pos_ p) slot (u32 (Z.of_nat (length (free_stack_ p))));
  Some (mkPool (capacity_ p) (poisoned_count_ p) (state_ p) (free_stack_ p ++ [slot]) fpos).

Definition acquire (p : DirectSlotPool) : option (DirectSlotPool * expected Z DirectSlotError) :=
  match free_stack_ p with
  | [] => Some (p, Unexpected exhausted)
  | _ =>
      slot ← back (free_stack_ p);
      p ← remove_from_free p slot;
      p ← set_state p slot leased_empty;
      Some (p, Ok slot)
  end.

Definition release_empty (p : DirectSlotPool) (slot : Z) : option (DirectSlotPool * expected unit DirectSlotError) :=
  if capacity_ p <=? slot then Some (p, Unexpected out_of_range)
  else
    s ← slot_state p slot;
    if negb (bool_decide (s = leased_empty)) then Some (p, Unexpected bad_state)
    else
      p ← set_state p slot free_slot;
      p ← push_to_free p slot;
      Some (p, Ok tt).

Definition install_os_fd (p : DirectSlotPool) (slot : Z) : option (DirectSlotPool * expected unit DirectSlotError) :=
  if capacity_ p <=? slot then Some (p, Unexpected out_of_range)
  else
    s ← slot_state p slot;
    if negb (bool_decide (s = free_slot)) then Some (p, Unexpected bad_state)
    else
      p ← remove_from_free p slot;
      p ← set_state p slot populated;
      Some (p, Ok tt).

Definition adopt_kernel_allocated (p : DirectSlotPool) (slot : Z)
  : option (DirectSlotPool * expected unit DirectSlotError) :=
  if capacity_ p <=? slot then Some (p, Unexpected out_of_range)
  else
    s ← slot_state p slot;
    if negb (bool_decide (s = free_slot)) then Some (p, Unexpected bad_state)
    else
      p ← remove_from_free p slot;
      p ← set_state p slot populated;
      Some (p, Ok tt).

Definition mark_closing (p : DirectSlotPool) (slot : Z) : option (DirectSlotPool * expected unit DirectSlotError) :=
  if capacity_ p <=? slot then Some (p, Unexpected out_of_range)
  else
    s ← slot_state p slot;
    if negb (bool_decide (s = populated)) then Some (p, Unexpected bad_state)
    else
      p ← set_state p slot closing;
      Some (p, Ok tt).

Definition release_closed (p : DirectSlotPool) (slot : Z) : option (DirectSlotPool * expected unit DirectSlotError) :=
  if capacity_ p <=? slot then Some (p, Unexpected out_of_range)
  else
    s ← slot_state p slot;
    if negb (bool_decide (s = closing)) then Some (p, Unexpected bad_state)
    else
      p ← push_to_free p slot;
      p ← set_state p slot free_slot;
      Some (p, Ok tt).

(** [poison]; the log lines are left out. *)
Definition poison (p : DirectSlotPool) (slot : Z) : option DirectSlotPool :=
  if capacity_ p <=? slot then Some p
  else
    prev ← slot_state p slot;
    if bool_decide (prev = free_slot) then Some p
    else
      pos ← get (free_pos_ p) slot;
      _ ← assert (pos =? no_pos);
      if negb (bool_decide (prev = poisoned)) then
        p ← set_state p slot poisoned;
        Some (mkPool (capacity_ p) (u32 (poisoned_count_ p + 1)) (state_ p) (free_stack_ p) (free_pos_ p))
      else Some p.

Definition free_count (p : DirectSlotPool) : Z := u32 (Z.of_nat (length (free_stack_ p))).

Definition poisoned_count (p : DirectSlotPool) : Z := poisoned_count_ p.

(** A call of the pool, and its result: a slot, nothing, or an error. *)
Inductive call :=
| Acquire | ReleaseEmpty (slot : Z) | InstallOsFd (slot : Z) | AdoptKernel (slot : Z)
| MarkClosing (slot : Z) | ReleaseClosed (slot : Z) | Poison (slot : Z).

Inductive answer := Slot (slot : Z) | Done | Err (e : DirectSlotError).

Definition of_slot (r : expected Z DirectSlotError) : answer :=
  match r with Ok s => Slot s | Unexpected e => Err e end.

Definition of_unit (r : expected unit DirectSlotError) : answer :=
  match r with Ok _ => Done | Unexpected e => Err e end.

Definition do_call (p : DirectSlotPool) (c : call) : option (DirectSlotPool * answer) :=
  match c with
  | Acquire => '(p, r) ← acquire p; Some (p, of_slot r)
  | ReleaseEmpty s => '(p, r) ← release_empty p s; Some (p, of_unit r)
  | InstallOsFd s => '(p, r) ← install_os_fd p s; Some (p, of_unit r)
  | AdoptKernel s => '(p, r) ← adopt_kernel_allocated p s; Some (p, of_unit r)
  | MarkClosing s => '(p, r) ← mark_closing p s; Some (p, of_unit r)
  | ReleaseClosed s => '(p, r) ← release_closed p s; Some (p, of_unit r)
  | Poison s => p ← poison p s; Some (p, Done)
  end.

(** A sequence of calls and their answers. *)
Fixpoint run_calls (p : DirectSlotPool) (cs : list call) : option (DirectSlotPool * list answer) :=
  match cs with
  | [] => Some (p, [])
  | c :: cs =>
      '(p, a) ← do_call p c;
      '(p, rest) ← run_calls p cs;
      Some (p, a :: rest)
  end.

End Pool.

(** ** Leases

    The live [DirectSlotLease] objects of one pool, by identity. A handle that
    was moved from or detached has no pool pointer and is [None]. *)

Module Lease.
Import Pool.

Record world := mkWorld { pool : DirectSlotPool; leases : list (option Z) }.

(** The pool call of the destructor and of the move assignment, whose result
    is dropped. *)
Definition drop_slot (p : DirectSlotPool) (l : option Z) : option DirectSlotPool :=
  match l with
  | None => Some p
  | Some slot => '(p, _) ← release_empty p slot; Some p
  end.

Inductive op :=
| Make                              (* [acquire] and the constructor *)
| Destroy (i : nat)                 (* the destructor *)
| MoveConstruct (i : nat)           (* [DirectSlotLease b{std::move(a)}] *)
| MoveAssign (i j : nat)            (* [a = std::move(b)] *)
| Detach (i : nat)                  (* [a.detach()] *)
| Other (c : call).                 (* the server's own calls *)

(** Calls the server makes beside the leases: it takes slots for connections
    and closes them, and never frees a slot it leased. *)
Definition foreign (c : call) : bool :=
  match c with Acquire | ReleaseEmpty _ => false | _ => true end.

Definition step (w : world) (o : op) : option world :=
  match o with
  | Make =>
      '(p, r) ← acquire (pool w);
      match r with
      | Ok slot => Some (mkWorld p (leases w ++ [Some slot]))
      | Unexpected _ => Some (mkWorld p (leases w))
      end
  | Destroy i =>
      l ← leases w !! i;
      p ← drop_slot (pool w) l;
      Some (mkWorld p (delete i (leases w)))
  | MoveConstruct i =>
      l ← leases w !! i;
      Some (mkWorld (pool w) (<[i := None]> (leases w) ++ [l]))
  | MoveAssign i j =>
      l ← leases w !! i;
      o ← leases w !! j;
      if (i =? j)%nat then Some w
      else
        p ← drop_slot (pool w) l;
        Some (mkWorld p (<[j := None]> (<[i := o]> (leases w))))
  | Detach i =>
      _ ← leases w !! i;
      Some (mkWorld (pool w) (<[i := None]> (leases w)))
  | Other c =>
      '(p, _) ← do_call (pool w) c;
      Some (mkWorld p (leases w))
  end.

(** Operations on handles that exist. *)
Definition applies (w : world) (o : op) : Prop :=
  match o with
  | Make => True
  | Destroy i | MoveConstruct i | Detach i => (i < length (leases w))%nat
  | MoveAssign i j => (i < length (leases w))%nat /\ (j < length (leases w))%nat
  | Other c => foreign c = true
  end.

End Lease.

(** ** What the pool promises

    A table of slot states. A call moves one slot from the state the operation
    is for to the next one, or fails and changes nothing; [acquire] takes some
    free slot, and fails only when there is none. *)

Module PoolSpec.
Import Pool.

Definition count (s : DirectSlotState) (st : list DirectSlotState) : nat :=
  length (filter (fun x => x = s) st).

Definition move (st : list DirectSlotState) (slot : Z) (from to : DirectSlotState)
  : list DirectSlotState * answer :=
  match get st slot with
  | None => (st, Err out_of_range)
  | Some s =>
      if decide (s = from) then (<[Z.to_nat slot := to]> st, Done) else (st, Err bad_state)
  end.

Definition spoil (st : list DirectSlotState) (slot : Z) : list DirectSlotState * answer :=
  match get st slot with
  | None | Some free_slot => (st, Done)
  | Some _ => (<[Z.to_nat slot := poisoned]> st, Done)
  end.

Definition spec_call (st : list DirectSlotState) (c : call) (st' : list DirectSlotState) (a : answer) : Prop :=
  match c with
  | Acquire =>
      (count free_slot st = 0%nat /\ st' = st /\ a = Err exhausted) \/
      (exists slot, get st slot = Some free_slot /\ st' = <[Z.to_nat slot := leased_empty]> st /\ a = Slot slot)
  | ReleaseEmpty s => (st', a) = move st s leased_empty free_slot
  | InstallOsFd s | AdoptKernel s => (st', a) = move st s free_slot populated
  | MarkClosing s => (st', a) = move st s populated closing
  | ReleaseClosed s => (st', a) = move st s closing free_slot
  | Poison s => (st', a) = spoil st s
  end.

Inductive spec_calls : list DirectSlotState -> list call -> list DirectSlotState -> list answer -> Prop :=
| spec_nil st : spec_calls st [] st []
| spec_cons st c st1 a cs st2 rest :
    spec_call st c st1 a -> spec_calls st1 cs st2 rest -> spec_calls st (c :: cs) st2 (a :: rest).

(** The arguments are values of [std::uint32_t]. *)
Definition call_arg (c : call) : Z :=
  match c with
  | Acquire => 0
  | ReleaseEmpty s | InstallOsFd s | AdoptKernel s | MarkClosing s | ReleaseClosed s | Poison s => s
  end.

Definition call_ok (c : call) : Prop := 0 <= call_arg c < 2 ^ 32.

End PoolSpec.

(** ** The vectors stay consistent *)

Module PoolOk.
Import Pool PoolSpec.

Record wf (p : DirectSlotPool) : Prop := {
  wf_cap : 0 <= capacity_ p < 2 ^ 32;
  wf_state : length (state_ p) = Z.to_nat (capacity_ p);
  wf_pos : length (free_pos_ p) = Z.to_nat (capacity_ p);
  wf_stack : forall i s, free_stack_ p !! i = Some s ->
    exists k, s = Z.of_nat k /\ free_pos_ p !! k = Some (Z.of_nat i) /\ state_ p !! k = Some free_slot;
  wf_free : forall k, state_ p !! k = Some free_slot -> exists i, free_stack_ p !! i = Some (Z.of_nat k);
  wf_used : forall k s, state_ p !! k = Some s -> s <> free_slot -> free_pos_ p !! k = Some no_pos;
  wf_size : length (free_stack_ p) = count free_slot (state_ p);
  wf_poison : poisoned_count_ p = Z.of_nat (count poisoned (state_ p))
}.

Lemma get_nat {A} (v : list A) k : get v (Z.of_nat k) = v !! k.
Proof. unfold get. destruct (Z.ltb_spec (Z.of_nat k) 0); [lia|]. by rewrite Nat2Z.id. Qed.

Lemma put_nat {A} (v : list A) k x : (k < length v)%nat -> put v (Z.of_nat k) x = Some (<[k := x]> v).
Proof.
  intros H. unfold put. destruct (Z.ltb_spec (Z.of_nat k) 0); [lia|].
  rewrite Nat2Z.id. destruct (Nat.ltb_spec k (length v)); [done|lia].
Qed.

Lemma pop_back_eq {A} (v : list A) : (0 < length v)%nat -> pop_back v = Some (take (length v - 1) v).
Proof. destruct v; simpl; [lia|done]. Qed.

Lemma count_insert s st k x y :
  st !! k = Some x ->
  (count s (<[k := y]> st) + (if decide (x = s) then 1 else 0) =
   count s st + (if decide (y = s) then 1 else 0))%nat.
Proof.
  unfold count. revert k. induction st as [|z st IH]; intros [|k] H; simplify_eq/=.
  - rewrite !filter_cons. repeat case_decide; simpl; lia.
  - specialize (IH k H). rewrite !filter_cons. repeat case_decide; simpl; lia.
Qed.

Lemma count_le s st : (count s st <= length st)%nat.
Proof. unfold count. apply length_filter. Qed.

Lemma count_pos s st k : st !! k = Some s -> (0 < count s st)%nat.
Proof.
  intros H. pose proof (count_insert s st k s leased_empty H) as H1.
  pose proof (count_insert s st k s free_slot H) as H2.
  repeat case_decide; simplify_eq; lia.
Qed.

Lemma count_replicate s x n : count s (replicate n x) = if decide (x = s) then n else 0%nat.
Proof.
  unfold count. induction n as [|n IH]; simpl; [by case_decide|].
  rewrite filter_cons. repeat case_decide; simpl; lia.
Qed.

Lemma upto_lookup n i : upto n !! i = (if decide (i < Z.to_nat n)%nat then Some (Z.of_nat i) else None).
Proof.
  unfold upto. case_decide.
  - rewrite list_lookup_fmap, lookup_seq_lt by done. done.
  - rewrite lookup_ge_None_2; [done|]. rewrite length_map, length_seq. lia.
Qed.

Lemma make_wf n : 0 <= n < 2 ^ 32 -> wf (make n).
Proof.
  intros Hn. split; simpl; [done|by rewrite length_replicate| | | | | |].
  - unfold upto. by rewrite length_map, length_seq.
  - intros i s H. rewrite upto_lookup in H. case_decide; [|done]. injection H as <-.
    exists i. rewrite upto_lookup, lookup_replicate_2, decide_True by done. done.
  - intros k [_ H]%lookup_replicate. exists k. by rewrite upto_lookup, decide_True.
  - intros k s [-> _]%lookup_replicate. done.
  - unfold upto. rewrite length_map, length_seq, count_replicate. by case_decide.
  - rewrite count_replicate. case_decide; done.
Qed.

Section ops.
Context (p : DirectSlotPool) (W : wf p).

Lemma stack_bound : (length (free_stack_ p) <= Z.to_nat (capacity_ p))%nat.
Proof. rewrite (wf_size _ W), <- (wf_state _ W). apply count_le. Qed.

Lemma slot_in_range k s : state_ p !! k = Some s -> (k < Z.to_nat (capacity_ p))%nat.
Proof. intros H%lookup_lt_Some. by rewrite (wf_state _ W) in H. Qed.

(** The stack without one of its slots, the last one moved into its place. *)
Definition unstack (i : nat) (l : Z) : list Z :=
  take (length (free_stack_ p) - 1) (<[i := l]> (free_stack_ p)).

Definition unpos (k i : nat) (l : Z) : list Z :=
  <[k := no_pos]> (if decide (l = Z.of_nat k) then free_pos_ p else <[Z.to_nat l := Z.of_nat i]> (free_pos_ p)).

Definition taken (k i : nat) (l : Z) (t : DirectSlotState) : DirectSlotPool :=
  mkPool (capacity_ p) (poisoned_count_ p + if decide (t = poisoned) then 1 else 0)
    (<[k := t]> (state_ p)) (unstack i l) (unpos k i l).

Lemma stack_inj i j s : free_stack_ p !! i = Some s -> free_stack_ p !! j = Some s -> i = j.
Proof.
  intros Hi Hj. destruct (wf_stack _ W _ _ Hi) as (k & -> & Hk & _).
  destruct (wf_stack _ W _ _ Hj) as (k' & E & Hk' & _). apply Nat2Z.inj in E as <-.
  rewrite Hk in Hk'. injection Hk' as E. lia.
Qed.

Lemma unstack_lookup i l j s :
  last (free_stack_ p) = Some l -> (i < length (free_stack_ p))%nat ->
  unstack i l !! j = Some s ->
  (j < length (free_stack_ p) - 1)%nat /\
  ((j = i /\ s = l) \/ (j <> i /\ free_stack_ p !! j = Some s)).
Proof.
  intros Hl Hi H. unfold unstack in H. apply lookup_take_Some in H as [H Hj]. split; [done|].
  destruct (decide (j = i)) as [->|Hn].
  - rewrite list_lookup_insert_eq in H by done. naive_solver.
  - rewrite list_lookup_insert_ne in H by done. naive_solver.
Qed.

Lemma remove_from_free_eq k :
  state_ p !! k = Some free_slot ->
  exists i l, free_stack_ p !! i = Some (Z.of_nat k) /\ last (free_stack_ p) = Some l /\
    remove_from_free p (Z.of_nat k) =
      Some (mkPool (capacity_ p) (poisoned_count_ p) (state_ p) (unstack i l) (unpos k i l)).
Proof.
  intros Hk. destruct (wf_free _ W _ Hk) as (i & Hi). pose proof stack_bound as Hb.
  pose proof (wf_cap _ W) as Hc. pose proof (lookup_lt_Some _ _ _ Hi) as Hlt.
  destruct (wf_stack _ W _ _ Hi) as (k' & E & Hp & _). apply Nat2Z.inj in E as <-.
  destruct (last (free_stack_ p)) as [l|] eqn:El; [|apply last_None in El; rewrite El in Hlt; simpl in Hlt; lia].
  exists i, l. split; [done|]. split; [done|].
  assert (exists j, free_stack_ p !! j = Some l) as (j & Hj) by (rewrite last_lookup in El; eauto).
  destruct (wf_stack _ W _ _ Hj) as (m & -> & Hm & Hms). pose proof (slot_in_range _ _ Hms) as Hmr.
  pose proof (slot_in_range _ _ Hk) as Hkr. pose proof (wf_pos _ W) as Hlp.
  unfold remove_from_free, unstack, unpos, back. rewrite get_nat, Hp. cbn [mbind option_bind].
  replace (Z.of_nat i =? no_pos) with false by (symmetry; apply Z.eqb_neq; unfold no_pos; lia).
  cbn [negb assert mbind option_bind]. rewrite get_nat, Hi. cbn [mbind option_bind].
  rewrite Z.eqb_refl. cbn [assert mbind option_bind]. rewrite El. cbn [mbind option_bind].
  destruct (Z.eqb_spec (Z.of_nat m) (Z.of_nat k)) as [E|E]; cbn [negb].
  - apply Nat2Z.inj in E as ->. rewrite decide_True by done. cbn [mbind option_bind].
    rewrite (list_insert_id (free_stack_ p) i) by done.
    rewrite pop_back_eq by lia. cbn [mbind option_bind]. rewrite put_nat by lia. done.
  - rewrite decide_False by done. rewrite put_nat by lia. cbn [mbind option_bind].
    rewrite put_nat by lia. cbn [mbind option_bind].
    rewrite pop_back_eq by (rewrite length_insert; lia). rewrite length_insert. cbn [mbind option_bind].
    rewrite put_nat by (rewrite length_insert; lia). rewrite Nat2Z.id. done.
Qed.

Lemma taken_wf k i l t :
  state_ p !! k = Some free_slot -> t <> free_slot ->
  free_stack_ p !! i = Some (Z.of_nat k) -> last (free_stack_ p) = Some l -> wf (taken k i l t).
Proof.
  intros Hk Ht Hi Hl. pose proof (slot_in_range _ _ Hk) as Hkr.
  pose proof (wf_state _ W) as Hls. pose proof (wf_pos _ W) as Hlp.
  pose proof (lookup_lt_Some _ _ _ Hi) as Hlt.
  pose proof (last_lookup (free_stack_ p)) as Hll. rewrite Hl in Hll. symmetry in Hll.
  destruct (wf_stack _ W _ _ Hll) as (m & -> & Hm & Hms).
  pose proof (slot_in_range _ _ Hms) as Hmr.
  split; cbn [capacity_ poisoned_count_ state_ free_stack_ free_pos_ taken].
  - apply (wf_cap _ W).
  - by rewrite length_insert.
  - unfold unpos. case_decide; by rewrite !length_insert.
  - intros j s Hj. destruct (unstack_lookup _ _ _ _ Hl Hlt Hj) as (Hjb & [[-> ->]|[Hne Hj']]); clear Hj; [|rename Hj' into Hj].
    + assert (m <> k) by (intros ->; rewrite (stack_inj _ _ _ Hi Hll) in Hjb; lia).
      exists m. unfold unpos. rewrite decide_False by lia. rewrite Nat2Z.id.
      rewrite list_lookup_insert_ne by done. rewrite list_lookup_insert_eq by lia.
      rewrite list_lookup_insert_ne by done. done.
    + destruct (wf_stack _ W _ _ Hj) as (q & -> & Hq & Hqs). exists q.
      assert (q <> k) by (intros ->; apply Hne, (stack_inj _ _ _ Hj Hi)).
      assert (q <> m) by (intros ->; rewrite (stack_inj _ _ _ Hj Hll) in Hjb; lia).
      unfold unpos. split; [done|]. rewrite list_lookup_insert_ne by done.
      rewrite (list_lookup_insert_ne (state_ p)) by done.
      case_decide; [done|]. rewrite Nat2Z.id, list_lookup_insert_ne by done. done.
  - intros q Hq. destruct (decide (q = k)) as [->|Hne];
      [rewrite list_lookup_insert_eq in Hq by lia; congruence|].
    rewrite list_lookup_insert_ne in Hq by done. destruct (wf_free _ W _ Hq) as (j & Hj).
    destruct (decide (j = length (free_stack_ p) - 1)%nat) as [->|Hjn].
    + exists i. replace (pred (length (free_stack_ p))) with (length (free_stack_ p) - 1)%nat in Hll by lia.
      rewrite Hll in Hj. injection Hj as E. apply Nat2Z.inj in E as ->. unfold unstack.
      assert (i <> length (free_stack_ p) - 1)%nat by (intros ->; rewrite Hll in Hi; injection Hi; lia).
      rewrite lookup_take_lt by lia. by rewrite list_lookup_insert_eq.
    + exists j. pose proof (lookup_lt_Some _ _ _ Hj). unfold unstack. rewrite lookup_take_lt by lia.
      rewrite list_lookup_insert_ne; [done|]. intros ->. rewrite Hi in Hj. injection Hj. lia.
  - intros q s Hq Hs. unfold unpos. destruct (decide (q = k)) as [->|Hne].
    + rewrite list_lookup_insert_eq; [done|]. case_decide; rewrite ?length_insert; lia.
    + rewrite list_lookup_insert_ne in Hq by done. rewrite list_lookup_insert_ne by done.
      case_decide; [by eapply wf_used|]. rewrite Nat2Z.id.
      rewrite list_lookup_insert_ne by (intros ->; congruence). by eapply wf_used.
  - unfold unstack. rewrite length_take, length_insert.
    pose proof (count_insert free_slot (state_ p) k free_slot t Hk) as Hc. rewrite <- (wf_size _ W) in Hc.
    repeat case_decide; try done; lia.
  - pose proof (count_insert poisoned (state_ p) k free_slot t Hk) as Hc. rewrite (wf_poison _ W).
    repeat case_decide; try done; lia.
Qed.

(** The pool with a used slot back on the stack. *)
Definition given (k : nat) : DirectSlotPool :=
  mkPool (capacity_ p) (poisoned_count_ p) (<[k := free_slot]> (state_ p))
    (free_stack_ p ++ [Z.of_nat k]) (<[k := Z.of_nat (length (free_stack_ p))]> (free_pos_ p)).

(** The pool with one used slot in another used state. *)
Definition changed (k : nat) (n : Z) (t : DirectSlotState) : DirectSlotPool :=
  mkPool (capacity_ p) n (<[k := t]> (state_ p)) (free_stack_ p) (free_pos_ p).

Lemma stack_length_u32 : u32 (Z.of_nat (length (free_stack_ p))) = Z.of_nat (length (free_stack_ p)).
Proof. apply u32_small. pose proof stack_bound. pose proof (wf_cap _ W). lia. Qed.

Lemma set_state_eq q k t :
  (k < length (state_ q))%nat ->
  set_state q (Z.of_nat k) t =
    Some (mkPool (capacity_ q) (poisoned_count_ q) (<[k := t]> (state_ q)) (free_stack_ q) (free_pos_ q)).
Proof. intros H. unfold set_state. by rewrite put_nat. Qed.

Lemma push_to_free_eq q k s :
  state_ p !! k = Some s -> s <> free_slot -> free_pos_ q = free_pos_ p -> free_stack_ q = free_stack_ p ->
  push_to_free q (Z.of_nat k) =
    Some (mkPool (capacity_ q) (poisoned_count_ q) (state_ q)
      (free_stack_ p ++ [Z.of_nat k]) (<[k := Z.of_nat (length (free_stack_ p))]> (free_pos_ p))).
Proof.
  intros Hk Hs Ep Es. unfold push_to_free. rewrite Ep, Es, get_nat, (wf_used _ W _ _ Hk Hs).
  cbn [mbind option_bind]. rewrite Z.eqb_refl. cbn [assert mbind option_bind].
  rewrite stack_length_u32, put_nat; [done|]. rewrite (wf_pos _ W). by eapply slot_in_range.
Qed.

Lemma given_wf k s :
  state_ p !! k = Some s -> s <> free_slot -> s <> poisoned -> wf (given k).
Proof.
  intros Hk Hs Hp. pose proof (slot_in_range _ _ Hk) as Hkr.
  pose proof (wf_state _ W) as Hls. pose proof (wf_pos _ W) as Hlp.
  split; cbn [capacity_ poisoned_count_ state_ free_stack_ free_pos_ given].
  - apply (wf_cap _ W).
  - by rewrite length_insert.
  - by rewrite length_insert.
  - intros j q Hj. apply lookup_app_Some in Hj as [Hj|[Hb Hj]].
    + destruct (wf_stack _ W _ _ Hj) as (m & -> & Hm & Hms). exists m.
      assert (m <> k) by (intros ->; congruence). by rewrite !list_lookup_insert_ne by done.
    + apply list_lookup_singleton_Some in Hj as [Hj <-]. exists k.
      rewrite !list_lookup_insert_eq by lia. replace j with (length (free_stack_ p)) by lia. done.
  - intros m Hm. destruct (decide (m = k)) as [->|Hne].
    + exists (length (free_stack_ p)). by rewrite lookup_app_r, Nat.sub_diag by lia.
    + rewrite list_lookup_insert_ne in Hm by done. destruct (wf_free _ W _ Hm) as (j & Hj).
      exists j. by apply lookup_app_l_Some.
  - intros m t Hm Ht. destruct (decide (m = k)) as [->|Hne];
      [rewrite list_lookup_insert_eq in Hm by lia; congruence|].
    rewrite list_lookup_insert_ne in Hm by done. rewrite list_lookup_insert_ne by done. by eapply wf_used.
  - pose proof (count_insert free_slot (state_ p) k s free_slot Hk) as Hc. rewrite <- (wf_size _ W) in Hc.
    rewrite length_app. simpl. repeat case_decide; try done; lia.
  - pose proof (count_insert poisoned (state_ p) k s free_slot Hk) as Hc. rewrite (wf_poison _ W).
    repeat case_decide; try done; lia.
Qed.

Lemma changed_wf k s t n :
  state_ p !! k = Some s -> s <> free_slot -> t <> free_slot -> s <> poisoned ->
  n = poisoned_count_ p + (if decide (t = poisoned) then 1 else 0) -> wf (changed k n t).
Proof.
  intros Hk Hs Ht Hp Hn. pose proof (slot_in_range _ _ Hk) as Hkr.
  pose proof (wf_state _ W) as Hls.
  split; cbn [capacity_ poisoned_count_ state_ free_stack_ free_pos_ changed].
  - apply (wf_cap _ W).
  - by rewrite length_insert.
  - apply (wf_pos _ W).
  - intros j q Hj. destruct (wf_stack _ W _ _ Hj) as (m & -> & Hm & Hms). exists m.
    rewrite list_lookup_insert_ne by (intros ->; congruence). done.
  - intros m Hm. destruct (decide (m = k)) as [->|Hne];
      [rewrite list_lookup_insert_eq in Hm by lia; congruence|].
    rewrite list_lookup_insert_ne in Hm by done. by apply (wf_free _ W).
  - intros m q Hm Hq. destruct (decide (m = k)) as [->|Hne]; [by eapply wf_used|].
    rewrite list_lookup_insert_ne in Hm by done. by eapply wf_used.
  - pose proof (count_insert free_slot (state_ p) k s t Hk) as Hc. rewrite (wf_size _ W).
    repeat case_decide; try done; lia.
  - pose proof (count_insert poisoned (state_ p) k s t Hk) as Hc. rewrite Hn, (wf_poison _ W).
    repeat case_decide; try done; lia.
Qed.

(** A [std::uint32_t] is out of range or one of the slots. *)
Lemma slot_cases slot :
  0 <= slot ->
  (capacity_ p <=? slot = true /\ get (state_ p) slot = None) \/
  (exists k s, slot = Z.of_nat k /\ capacity_ p <=? slot = false /\ state_ p !! k = Some s).
Proof.
  intros H. pose proof (wf_state _ W) as Hl. destruct (Z.leb_spec (capacity_ p) slot) as [Hc|Hc].
  - left. split; [done|]. unfold get. destruct (Z.ltb_spec slot 0); [lia|]. apply lookup_ge_None_2. lia.
  - right. exists (Z.to_nat slot). destruct (lookup_lt_is_Some_2 (state_ p) (Z.to_nat slot)) as [s Hs]; [lia|].
    exists s. rewrite Z2Nat.id by done. done.
Qed.

Lemma move_at k s from to :
  state_ p !! k = Some s ->
  move (state_ p) (Z.of_nat k) from to =
    if decide (s = from) then (<[k := to]> (state_ p), Done) else (state_ p, Err bad_state).
Proof. intros H. unfold move. by rewrite get_nat, H, Nat2Z.id. Qed.

(** What a call has to give: an answer, a consistent pool, and the step of the
    table. *)
Definition call_good (c : call) (r : option (DirectSlotPool * answer)) : Prop :=
  exists p' a, r = Some (p', a) /\ wf p' /\ spec_call (state_ p) c (state_ p') a.

Lemma unchanged_good c a : spec_call (state_ p) c (state_ p) a -> call_good c (Some (p, a)).
Proof. intros H. by exists p, a. Qed.

Lemma take_slot_eq k t :
  state_ p !! k = Some free_slot -> t <> free_slot -> t <> poisoned ->
  exists p', (q ← remove_from_free p (Z.of_nat k); set_state q (Z.of_nat k) t) = Some p' /\
    wf p' /\ state_ p' = <[k := t]> (state_ p).
Proof.
  intros Hk Ht Hp. destruct (remove_from_free_eq k Hk) as (i & l & Hi & Hl & ->).
  pose proof (slot_in_range _ _ Hk). pose proof (wf_state _ W).
  cbn [mbind option_bind]. rewrite set_state_eq by (simpl; lia).
  eexists. split; [done|]. split; [|done]. pose proof (taken_wf k i l t Hk Ht Hi Hl) as Ho.
  unfold taken in Ho. rewrite decide_False in Ho by done. by rewrite Z.add_0_r in Ho.
Qed.

Lemma acquire_some l :
  last (free_stack_ p) = Some l ->
  acquire p = (q ← remove_from_free p l; q' ← set_state q l leased_empty; Some (q', Ok l)).
Proof.
  intros H. unfold acquire, back. rewrite H. cbn [mbind option_bind].
  destruct (free_stack_ p); done.
Qed.

Lemma acquire_good : call_good Acquire (do_call p Acquire).
Proof.
  unfold do_call. pose proof (wf_size _ W) as Hn.
  destruct (last (free_stack_ p)) as [l|] eqn:El.
  2:{ apply last_None in El. unfold acquire. rewrite El in *. apply unchanged_good. left. done. }
  rewrite (acquire_some l El). rewrite last_lookup in El.
  destruct (wf_stack _ W _ _ El) as (k & -> & _ & Hk).
  destruct (take_slot_eq k leased_empty Hk) as (p' & E & Wp & Hp); [done..|].
  destruct (remove_from_free p (Z.of_nat k)) as [q|]; [|done]. cbn [mbind option_bind] in *. rewrite E.
  exists p', (Slot (Z.of_nat k)). split; [done|]. split; [done|]. right. exists (Z.of_nat k).
  by rewrite get_nat, Nat2Z.id.
Qed.

Lemma free_to_populated_good c slot (f : DirectSlotPool -> Z -> option (DirectSlotPool * expected unit DirectSlotError)) :
  f = install_os_fd -> 0 <= slot ->
  (forall st' a, (st', a) = move (state_ p) slot free_slot populated -> spec_call (state_ p) c st' a) ->
  call_good c ('(q, r) ← f p slot; Some (q, of_unit r)).
Proof.
  intros -> Hs Hc. unfold install_os_fd, slot_state.
  destruct (slot_cases slot Hs) as [[-> Hg]|(k & s & -> & -> & Hk)].
  { apply unchanged_good, Hc. unfold move. by rewrite Hg. }
  rewrite get_nat, Hk. rewrite (move_at _ _ _ _ Hk) in Hc. cbn [mbind option_bind].
  destruct (decide (s = free_slot)) as [->|Hne].
  - rewrite bool_decide_true by done. cbn [negb].
    destruct (take_slot_eq k populated Hk) as (p' & E & Wp & Hp); [done..|].
    destruct (remove_from_free p (Z.of_nat k)) as [q|]; [|done]. cbn [mbind option_bind] in *. rewrite E.
    exists p', Done. rewrite Hp. auto.
  - rewrite bool_decide_false by done. apply unchanged_good. by apply Hc.
Qed.

Lemma release_empty_good slot : 0 <= slot -> call_good (ReleaseEmpty slot) (do_call p (ReleaseEmpty slot)).
Proof.
  intros Hs. unfold do_call, release_empty, slot_state.
  destruct (slot_cases slot Hs) as [[-> Hg]|(k & s & -> & -> & Hk)].
  { apply unchanged_good. cbn [spec_call]. unfold move. by rewrite Hg. }
  rewrite get_nat, Hk. cbn [mbind option_bind].
  case_bool_decide as E; cbn [negb].
  - subst s. pose proof (slot_in_range _ _ Hk). pose proof (wf_state _ W).
    rewrite set_state_eq by lia. cbn [mbind option_bind].
    rewrite (push_to_free_eq _ _ _ Hk) by done. cbn [mbind option_bind].
    exists (given k), Done. split; [done|]. split; [by apply (given_wf _ _ Hk)|].
    cbn [spec_call]. by rewrite (move_at _ _ _ _ Hk), decide_True.
  - apply unchanged_good. cbn [spec_call]. by rewrite (move_at _ _ _ _ Hk), decide_False.
Qed.

Lemma release_closed_good slot : 0 <= slot -> call_good (ReleaseClosed slot) (do_call p (ReleaseClosed slot)).
Proof.
  intros Hs. unfold do_call, release_closed, slot_state.
  destruct (slot_cases slot Hs) as [[-> Hg]|(k & s & -> & -> & Hk)].
  { apply unchanged_good. cbn [spec_call]. unfold move. by rewrite Hg. }
  rewrite get_nat, Hk. cbn [mbind option_bind].
  case_bool_decide as E; cbn [negb].
  - subst s. pose proof (slot_in_range _ _ Hk). pose proof (wf_state _ W).
    rewrite (push_to_free_eq _ _ _ Hk) by done. cbn [mbind option_bind].
    rewrite set_state_eq by (simpl; lia). cbn [mbind option_bind].
    exists (given k), Done. split; [done|]. split; [by apply (given_wf _ _ Hk)|].
    cbn [spec_call]. by rewrite (move_at _ _ _ _ Hk), decide_True.
  - apply unchanged_good. cbn [spec_call]. by rewrite (move_at _ _ _ _ Hk), decide_False.
Qed.

Lemma mark_closing_good slot : 0 <= slot -> call_good (MarkClosing slot) (do_call p (MarkClosing slot)).
Proof.
  intros Hs. unfold do_call, mark_closing, slot_state.
  destruct (slot_cases slot Hs) as [[-> Hg]|(k & s & -> & -> & Hk)].
  { apply unchanged_good. cbn [spec_call]. unfold move. by rewrite Hg. }
  rewrite get_nat, Hk. cbn [mbind option_bind].
  case_bool_decide as E; cbn [negb].
  - subst s. pose proof (slot_in_range _ _ Hk). pose proof (wf_state _ W).
    rewrite set_state_eq by lia. cbn [mbind option_bind].
    exists (changed k (poisoned_count_ p) closing), Done. split; [done|].
    split; [by apply (changed_wf _ _ _ _ Hk); [..|rewrite decide_False; [lia|]]|].
    cbn [spec_call]. by rewrite (move_at _ _ _ _ Hk), decide_True.
  - apply unchanged_good. cbn [spec_call]. by rewrite (move_at _ _ _ _ Hk), decide_False.
Qed.

Lemma poisoned_room k s :
  state_ p !! k = Some s -> s <> poisoned -> u32 (poisoned_count_ p + 1) = poisoned_count_ p + 1.
Proof.
  intros Hk Hs. apply u32_small. rewrite (wf_poison _ W).
  pose proof (count_insert poisoned (state_ p) k s poisoned Hk) as Hc.
  pose proof (count_le poisoned (<[k := poisoned]> (state_ p))) as Hl. rewrite length_insert in Hl.
  rewrite decide_False, decide_True in Hc by done. pose proof (wf_state _ W). pose proof (wf_cap _ W). lia.
Qed.

Lemma poison_good slot : 0 <= slot -> call_good (Poison slot) (do_call p (Poison slot)).
Proof.
  intros Hs. unfold do_call, poison, slot_state.
  destruct (slot_cases slot Hs) as [[-> Hg]|(k & s & -> & -> & Hk)].
  { apply unchanged_good. cbn [spec_call]. unfold spoil. by rewrite Hg. }
  rewrite (get_nat (state_ p)), Hk. cbn [mbind option_bind].
  case_bool_decide as E; [|rewrite get_nat, (wf_used _ W _ _ Hk E)]; cbn [mbind option_bind].
  { apply unchanged_good. cbn [spec_call]. unfold spoil. by rewrite get_nat, Hk, E. }
  rewrite Z.eqb_refl. cbn [assert mbind option_bind].
  assert (spoil (state_ p) (Z.of_nat k) = (<[k := poisoned]> (state_ p), Done)) as Hsp.
  { unfold spoil. rewrite get_nat, Hk, Nat2Z.id. by destruct s. }
  case_bool_decide as Ep; cbn [negb].
  - apply unchanged_good. cbn [spec_call]. rewrite Hsp, list_insert_id by (by rewrite Hk, Ep). done.
  - pose proof (slot_in_range _ _ Hk). pose proof (wf_state _ W).
    rewrite set_state_eq by lia. cbn [mbind option_bind poisoned_count_ capacity_ state_ free_stack_ free_pos_].
    rewrite (poisoned_room _ _ Hk) by done.
    exists (changed k (poisoned_count_ p + 1) poisoned), Done. split; [done|].
    split; [by apply (changed_wf _ _ _ _ Hk); [..|rewrite decide_True; [lia|]]|].
    cbn [spec_call]. by rewrite Hsp.
Qed.

Lemma do_call_good c : call_ok c -> call_good c (do_call p c).
Proof.
  intros [Hc _]. destruct c; cbn [call_arg] in Hc.
  - apply acquire_good.
  - by apply release_empty_good.
  - by apply free_to_populated_good.
  - by apply (free_to_populated_good _ _ adopt_kernel_allocated).
  - by apply mark_closing_good.
  - by apply release_closed_good.
  - by apply poison_good.
Qed.

End ops.
End PoolOk.

(** ** Leases name different slots *)

Module LeaseOk.
Import Pool PoolSpec PoolOk Lease.

(** The worlds the program can be in: it starts with a fresh pool and no
    lease. *)
Definition op_ok (o : op) : Prop := match o with Other c => call_ok c | _ => True end.

Inductive reachable (capacity : Z) : world -> Prop :=
| reach_start : reachable capacity (mkWorld (make capacity) [])
| reach_step w o w' :
    reachable capacity w -> applies w o -> op_ok o -> step w o = Some w' -> reachable capacity w'.

Definition live (w : world) (i : nat) (slot : Z) : Prop := leases w !! i = Some (Some slot).

Definition held (st : list DirectSlotState) (slot : Z) : Prop :=
  get st slot = Some leased_empty \/ get st slot = Some poisoned.

Record inv (w : world) : Prop := {
  inv_wf : wf (pool w);
  inv_inj : forall i j s, live w i s -> live w j s -> i = j;
  inv_held : forall i s, live w i s -> held (state_ (pool w)) s
}.

Lemma get_insert_ne {A} (st : list A) k slot t :
  slot <> Z.of_nat k -> get (<[k := t]> st) slot = get st slot.
Proof.
  intros H. unfold get. destruct (Z.ltb_spec slot 0); [done|].
  apply list_lookup_insert_ne. lia.
Qed.

Lemma get_insert_eq {A} (st : list A) k s t :
  st !! k = Some s -> get (<[k := t]> st) (Z.of_nat k) = Some t.
Proof. intros H%lookup_lt_Some. rewrite get_nat. by apply list_lookup_insert_eq. Qed.

Lemma get_Some {A} (st : list A) slot s :
  get st slot = Some s -> exists k, slot = Z.of_nat k /\ st !! k = Some s.
Proof.
  unfold get. destruct (Z.ltb_spec slot 0); [done|]. intros Hk. exists (Z.to_nat slot).
  by rewrite Z2Nat.id.
Qed.

(** Moving a slot between two states no lease is in leaves the leased slots
    alone. *)
Lemma move_held st s0 from to st' a slot :
  (st', a) = move st s0 from to -> from <> leased_empty -> from <> poisoned ->
  held st slot -> held st' slot.
Proof.
  unfold move. intros E H1 H2 Hh. destruct (get st s0) as [s|] eqn:Hg; [|by injection E as -> ->].
  case_decide; [|by injection E as -> ->]. subst s. injection E as -> ->.
  destruct (get_Some _ _ _ Hg) as (k & -> & Hk). rewrite Nat2Z.id. unfold held.
  rewrite get_insert_ne; [done|]. intros ->. rewrite <- get_nat in Hk. destruct Hh; congruence.
Qed.

Lemma spoil_held st s0 st' a slot :
  (st', a) = spoil st s0 -> held st slot -> held st' slot.
Proof.
  unfold spoil. intros E Hh.
  assert (st' = st \/ exists k s, st !! k = Some s /\ st' = <[k := poisoned]> st) as [->|(k & s & Hk & ->)].
  { destruct (get st s0) as [s|] eqn:Hg; [|injection E; auto].
    destruct (get_Some _ _ _ Hg) as (k & -> & Hk). rewrite Nat2Z.id in E.
    destruct s; injection E; eauto. }
  - done.
  - unfold held. destruct (decide (slot = Z.of_nat k)) as [->|Hne].
    + rewrite (get_insert_eq _ _ _ _ Hk). auto.
    + by rewrite get_insert_ne.
Qed.

Lemma foreign_held st c st' a slot :
  spec_call st c st' a -> foreign c = true -> held st slot -> held st' slot.
Proof.
  intros Hc Hf. destruct c; try done; cbn [spec_call] in Hc; revert Hc;
    solve [intros Hc; by eapply move_held | intros Hc; by eapply spoil_held].
Qed.

(** The destructor's call frees the slot of its own lease at most. *)
Lemma drop_slot_ok p l :
  wf p -> (forall s, l = Some s -> held (state_ p) s) ->
  exists p', drop_slot p l = Some p' /\ wf p' /\
    forall slot, l <> Some slot -> held (state_ p) slot -> held (state_ p') slot.
Proof.
  intros W Hl. destruct l as [s|]; [|by exists p].
  assert (0 <= s) as Hs.
  { destruct (Hl s eq_refl) as [E|E]; destruct (get_Some _ _ _ E) as (k & -> & _); lia. }
  destruct (release_empty_good p W s Hs) as (p' & a & E & Wp & Hc).
  unfold do_call in E. unfold drop_slot. destruct (release_empty p s) as [[q r]|]; [|done].
  cbn [mbind option_bind] in *. injection E as -> _. exists p'. split; [done|]. split; [done|].
  intros slot Hne Hh. cbn [spec_call] in Hc. unfold move in Hc.
  destruct (get (state_ p) s) as [t|] eqn:Hg; [|by injection Hc as -> _].
  case_decide; [|by injection Hc as -> _]. injection Hc as -> _.
  destruct (get_Some _ _ _ Hg) as (k & -> & Hk). rewrite Nat2Z.id. unfold held.
  rewrite get_insert_ne; [done|]. congruence.
Qed.

Lemma make_inv capacity : 0 <= capacity < 2 ^ 32 -> inv (mkWorld (make capacity) []).
Proof. intros H. split; [by apply make_wf|done|done]. Qed.

Lemma acquired_fresh p p' slot :
  wf p -> acquire p = Some (p', Ok slot) ->
  get (state_ p) slot = Some free_slot /\ wf p' /\ held (state_ p') slot /\
  forall s, held (state_ p) s -> held (state_ p') s.
Proof.
  intros W E. destruct (acquire_good p W) as (q & a & E' & Wq & Hc).
  unfold do_call in E'. rewrite E in E'. cbn [mbind option_bind of_slot] in E'. injection E' as -> <-.
  destruct Hc as [(_ & _ & [=])|(s & Hg & Hst & [= <-])].
  destruct (get_Some _ _ _ Hg) as (k & -> & Hk). rewrite Nat2Z.id in Hst. rewrite Hst.
  split; [done|]. split; [done|]. split; [left; by eapply get_insert_eq|].
  intros s Hs. unfold held. rewrite get_insert_ne; [done|].
  intros ->. destruct Hs; congruence.
Qed.

(** Handles moved around: each live handle of the new list is an old one, and
    different ones are different. *)
Lemma inv_rename w p' ls' (f : nat -> nat) :
  inv w -> wf p' ->
  (forall k s, ls' !! k = Some (Some s) -> live w (f k) s) ->
  (forall k k' s, ls' !! k = Some (Some s) -> ls' !! k' = Some (Some s) -> f k = f k' -> k = k') ->
  (forall k s, ls' !! k = Some (Some s) -> held (state_ (pool w)) s -> held (state_ p') s) ->
  inv (mkWorld p' ls').
Proof.
  intros [_ Hi Hh] W Hf Hinj Hk. split; unfold live; cbn [pool leases]; [done| |].
  - intros i j s H1 H2. eapply Hinj; [done..|]. eapply Hi; by apply Hf.
  - intros i s H. eapply Hk; [done|]. eapply Hh. by apply Hf.
Qed.

Lemma make_step w p' slot :
  inv w -> acquire (pool w) = Some (p', Ok slot) -> inv (mkWorld p' (leases w ++ [Some slot])).
Proof.
  intros I E. destruct (acquired_fresh _ _ _ (inv_wf _ I) E) as (Hg & Wp & Hs & Hk).
  assert (forall i, ~ live w i slot) as Hno.
  { intros i Hi. destruct (inv_held _ I _ _ Hi); congruence. }
  split; unfold live; cbn [pool leases]; [done| |].
  - intros i j s [H1|[H1 H1']]%lookup_app_Some [H2|[H2 H2']]%lookup_app_Some.
    + by eapply inv_inj.
    + apply list_lookup_singleton_Some in H2' as [_ [= <-]]. by destruct (Hno i).
    + apply list_lookup_singleton_Some in H1' as [_ [= <-]]. by destruct (Hno j).
    + apply list_lookup_singleton_Some in H1' as [? _]. apply list_lookup_singleton_Some in H2' as [? _]. lia.
  - intros i s [H1|[H1 H1']]%lookup_app_Some; [by eapply Hk, inv_held|].
    by apply list_lookup_singleton_Some in H1' as [_ [= <-]].
Qed.

Lemma lookup_delete_shift {A} (l : list A) i k x :
  delete i l !! k = Some x -> l !! (if (k <? i)%nat then k else S k) = Some x.
Proof.
  intros H. destruct (Nat.ltb_spec k i) as [Hlt|Hge].
  - by rewrite list_lookup_delete_lt in H.
  - by rewrite list_lookup_delete_ge in H.
Qed.

Lemma destroy_step w i l :
  inv w -> leases w !! i = Some l ->
  exists p', drop_slot (pool w) l = Some p' /\ inv (mkWorld p' (delete i (leases w))).
Proof.
  intros I Hi. destruct (drop_slot_ok (pool w) l (inv_wf _ I)) as (p' & E & Wp & Hk).
  { intros s ->. by eapply inv_held. }
  exists p'. split; [done|].
  apply (inv_rename w p' _ (fun k => if (k <? i)%nat then k else S k)); try done.
  - intros k s H. by apply lookup_delete_shift.
  - intros k k' s _ _. destruct (Nat.ltb_spec k i), (Nat.ltb_spec k' i); lia.
  - intros k s H%lookup_delete_shift. apply Hk. intros ->.
    pose proof (inv_inj _ I _ _ _ Hi H) as E'. destruct (Nat.ltb_spec k i); lia.
Qed.

Lemma move_construct_step w i l :
  inv w -> leases w !! i = Some l -> inv (mkWorld (pool w) (<[i := None]> (leases w) ++ [l])).
Proof.
  intros I Hi. pose proof (lookup_lt_Some _ _ _ Hi) as Hlt.
  assert (forall k s, (<[i:=None]> (leases w) ++ [l]) !! k = Some (Some s) ->
    (k <> i /\ leases w !! k = Some (Some s)) \/ (k = length (leases w) /\ l = Some s)) as Hc.
  { intros k s [H|[H H']]%lookup_app_Some.
    - left. destruct (decide (k = i)) as [->|Hne]; [by rewrite list_lookup_insert_eq in H|].
      by rewrite list_lookup_insert_ne in H.
    - right. rewrite length_insert in H, H'. apply list_lookup_singleton_Some in H' as [? ?].
      split; [lia|done]. }
  apply (inv_rename w _ _ (fun k => if decide (k = length (leases w)) then i else k)); try done.
  - apply (inv_wf _ I).
  - unfold live. intros k s [[Hk H]|[-> ->]]%Hc.
    + rewrite decide_False; [done|]. apply lookup_lt_Some in H. lia.
    + by rewrite decide_True.
  - intros k k' s H1%Hc H2%Hc. repeat case_decide; lia.
Qed.

Lemma move_assign_step w i j l o :
  inv w -> leases w !! i = Some l -> leases w !! j = Some o -> i <> j ->
  exists p', drop_slot (pool w) l = Some p' /\ inv (mkWorld p' (<[j := None]> (<[i := o]> (leases w)))).
Proof.
  intros I Hi Hj Hij. destruct (drop_slot_ok (pool w) l (inv_wf _ I)) as (p' & E & Wp & Hk).
  { intros s ->. by eapply inv_held. }
  exists p'. split; [done|].
  assert (forall k s, <[j:=None]> (<[i:=o]> (leases w)) !! k = Some (Some s) ->
    k <> j /\ leases w !! (if decide (k = i) then j else k) = Some (Some s)) as Hc.
  { intros k s H. pose proof (lookup_lt_Some _ _ _ Hi). pose proof (lookup_lt_Some _ _ _ Hj).
    destruct (decide (k = j)) as [->|Hne].
    { rewrite list_lookup_insert_eq in H; [done|]. by rewrite length_insert. }
    split; [done|]. rewrite list_lookup_insert_ne in H by done. case_decide as Ek.
    - subst k. rewrite list_lookup_insert_eq in H by done. congruence.
    - by rewrite list_lookup_insert_ne in H. }
  apply (inv_rename w p' _ (fun k => if decide (k = i) then j else k)); try done.
  - intros k s H. by apply Hc.
  - intros k k' s [H1 _]%Hc [H2 _]%Hc. repeat case_decide; congruence.
  - intros k s [Hne H]%Hc. apply Hk. intros ->. pose proof (inv_inj _ I _ _ _ Hi H). case_decide; congruence.
Qed.

Lemma lease_step_inv w o : inv w -> applies w o -> op_ok o -> exists w', step w o = Some w' /\ inv w'.
Proof.
  intros I Ha Ho. pose proof (inv_wf _ I) as W. destruct o; cbn [step applies op_ok] in *.
  - destruct (acquire_good (pool w) W) as (p' & a & E & Wp & Hc). unfold do_call in E.
    destruct (acquire (pool w)) as [[q [slot|e]]|] eqn:Ea; cbn [mbind option_bind of_slot] in *; [| |done].
    + eexists. split; [done|]. by apply make_step.
    + injection E as -> <-. eexists. split; [done|].
      destruct Hc as [(_ & Hst & _)|(s & _ & _ & [=])].
      apply (inv_rename w _ _ id); try done. by rewrite Hst.
  - destruct (lookup_lt_is_Some_2 _ _ Ha) as [l Hl]. rewrite Hl. cbn [mbind option_bind].
    destruct (destroy_step w i l I Hl) as (p' & -> & I'). cbn [mbind option_bind]. eauto.
  - destruct (lookup_lt_is_Some_2 _ _ Ha) as [l Hl]. rewrite Hl. cbn [mbind option_bind].
    eexists. split; [done|]. by apply move_construct_step.
  - destruct Ha as [Hi Hj]. destruct (lookup_lt_is_Some_2 _ _ Hi) as [l Hl].
    destruct (lookup_lt_is_Some_2 _ _ Hj) as [o Hl']. rewrite Hl, Hl'. cbn [mbind option_bind].
    destruct (Nat.eqb_spec i j) as [->|Hne]; [eauto|].
    destruct (move_assign_step w i j l o I Hl Hl' Hne) as (p' & -> & I'). cbn [mbind option_bind]. eauto.
  - destruct (lookup_lt_is_Some_2 _ _ Ha) as [l Hl]. rewrite Hl. cbn [mbind option_bind].
    eexists. split; [done|].
    assert (forall k s, <[i := None]> (leases w) !! k = Some (Some s) -> leases w !! k = Some (Some s)) as Hc.
    { intros k s H. destruct (decide (k = i)) as [->|Hne]; [by rewrite list_lookup_insert_eq in H|].
      by rewrite list_lookup_insert_ne in H. }
    apply (inv_rename w _ _ id); try done.
  - destruct (do_call_good (pool w) W c Ho) as (p' & a & E & Wp & Hc). rewrite E. cbn [mbind option_bind].
    eexists. split; [done|]. apply (inv_rename w _ _ id); try done.
    intros k s _. by eapply foreign_held.
Qed.

Lemma reachable_inv capacity w : 0 <= capacity < 2 ^ 32 -> reachable capacity w -> inv w.
Proof.
  intros Hc. induction 1 as [|w o w' _ IH Ha Ho E]; [by apply make_inv|].
  destruct (lease_step_inv w o IH Ha Ho) as (w'' & E' & I). congruence.
Qed.

End LeaseOk.

(** ** The theorems *)

Module SlotProps.
Import Pool PoolSpec PoolOk Lease LeaseOk.

Lemma run_calls_good cs p :
  wf p -> Forall call_ok cs ->
  exists p' answers, run_calls p cs = Some (p', answers) /\ wf p' /\ spec_calls (state_ p) cs (state_ p') answers.
Proof.
  revert p. induction cs as [|c cs IH]; intros p W Hc.
  - exists p, []. split; [done|]. split; [done|]. constructor.
  - apply Forall_cons in Hc as [Hc Hcs]. destruct (do_call_good p W c Hc) as (p1 & a & E & W1 & H1).
    destruct (IH p1 W1 Hcs) as (p2 & rest & E2 & W2 & H2). exists p2, (a :: rest).
    cbn [run_calls]. rewrite E. cbn [mbind option_bind]. rewrite E2. split; [done|]. split; [done|].
    by econstructor.
Qed.

(** C16: the slot pool implements its table of slot states. Any sequence of
    calls on a fresh pool, with any 32-bit slot numbers, runs without a failed
    assertion or an access out of range; each answer and each change is the one
    the table of states prescribes, errors included; [acquire] takes one of the
    free slots and fails only when there is none. The vectors stay consistent ([wf]): the stack has the free slots, each
    once, and every free slot knows its place in it. The two counters are the
    numbers of free and of poisoned slots. *)
Theorem slot_pool_refines capacity cs :
  0 <= capacity < 2 ^ 32 -> Forall call_ok cs ->
  exists p answers, run_calls (make capacity) cs = Some (p, answers) /\
    spec_calls (replicate (Z.to_nat capacity) free_slot) cs (state_ p) answers /\ wf p /\
    free_count p = Z.of_nat (count free_slot (state_ p)) /\
    poisoned_count p = Z.of_nat (count poisoned (state_ p)).
Proof.
  intros Hn Hc. destruct (run_calls_good cs _ (make_wf _ Hn) Hc) as (p & answers & E & W & H).
  exists p, answers. split; [done|]. split; [done|]. split; [done|]. split; [|apply (wf_poison _ W)].
  unfold free_count. rewrite (stack_length_u32 p W). by rewrite (wf_size _ W).
Qed.

Definition sample_calls : list call :=
  [Acquire; AdoptKernel 0; MarkClosing 0; Poison 2; ReleaseEmpty 2; ReleaseClosed 0; MarkClosing 9].

Lemma slot_pool_refines_witness :
  exists p, run_calls (make 3) sample_calls =
      Some (p, [Slot 2; Done; Done; Done; Err bad_state; Done; Err out_of_range]) /\
    free_count p = 2 /\ poisoned_count p = 1.
Proof.
  destruct (slot_pool_refines 3 sample_calls ltac:(lia)) as (p & answers & E & _ & _ & Hf & Hp).
  { unfold sample_calls, call_ok. repeat constructor; cbn [call_arg]; lia. }
  exists p. vm_compute in E. injection E as <- <-. vm_compute. auto.
Defined.

(** C24: leases are exclusive. However lease handles are made, moved, assigned,
    detached and destroyed while the server installs, closes and poisons other
    slots, every such operation succeeds, two live handles never name the same
    slot, the slot of a live handle is still leased (or was poisoned), and a
    slot given out next is one no live handle names. *)
Theorem leases_exclusive capacity w :
  0 <= capacity < 2 ^ 32 -> reachable capacity w ->
  (forall o, applies w o -> op_ok o -> is_Some (step w o)) /\
  (forall i j slot, live w i slot -> live w j slot -> i = j) /\
  (forall i slot, live w i slot -> held (state_ (pool w)) slot) /\
  (forall p slot i, acquire (pool w) = Some (p, Ok slot) -> ~ live w i slot).
Proof.
  intros Hc Hr. pose proof (reachable_inv capacity w Hc Hr) as I. split; [|split; [|split]].
  - intros o Ha Ho. destruct (lease_step_inv w o I Ha Ho) as (w' & E & _). eauto.
  - apply (inv_inj _ I).
  - apply (inv_held _ I).
  - intros p slot i E Hl. destruct (acquired_fresh _ _ _ (inv_wf _ I) E) as (Hg & _).
    destruct (inv_held _ I _ _ Hl); congruence.
Qed.

Definition two_leases : world := mkWorld (mkPool 3 0 [free_slot; leased_empty; leased_empty] [0] [0; no_pos; no_pos]) [Some 2; Some 1].

Lemma leases_exclusive_witness :
  live two_leases 0 2 /\ live two_leases 1 1 /\ is_Some (step two_leases (MoveAssign 0 1)).
Proof.
  assert (reachable 3 two_leases) as Hr.
  { eapply (reach_step 3 _ Make);
      [eapply (reach_step 3 _ Make); [apply reach_start|done|done|vm_compute; reflexivity]|done|done|].
    vm_compute. reflexivity. }
  destruct (leases_exclusive 3 two_leases ltac:(lia) Hr) as (Hs & _).
  split; [done|]. split; [done|]. apply Hs; simpl; [lia|done].
Defined.

End SlotProps.
