(* ===== verification/LruMap.v ===== *)
(** * The string-keyed LRU map

    [src/src/types_api.cxx]: [StringLruMap], the container behind the rate
    limiter, the login throttles and the response and DNS caches. [Lru] is the
    translation: the linked list [order_], whose nodes have an identity (a
    [std::list] iterator), and the hash table [map_], whose entries hold such an
    iterator. Dereferencing an iterator that is not in the list, or the front of
    an empty list, is [None]. [Recency] is the abstract map: the entries in the
    order they were last used. [RecencyMap] is what a client may rely on, and
    [string_lru_map] shows that the container provides it. *)

From Stdlib Require Import ZArith Lia Strings.Byte String.
From stdpp Require Import base tactics option numbers gmap list.
From S2P Require Import Prelude.

#[global] Program Instance byte_countable : Countable byte :=
  inj_countable' Byte.to_N (fun n => match Byte.of_N n with Some b => b | None => x00 end) _.
Next Obligation. intros b. cbv beta. by rewrite Byte.of_to_N. Qed.

(** [TouchResult], with the value its pointer leads to. *)
Record TouchResult (V : Type) := mkTouch { touched : V; inserted : bool; evicted : bool }.
Arguments mkTouch {V}.
Arguments touched {V}.
Arguments inserted {V}.
Arguments evicted {V}.

Module Lru.
Section lru.
Context {V : Type}.

(** [std::list<std::string>]: a node is an identity and its string. *)
Abbreviation node := (nat * bytes)%type.

Record Entry := mkEntry { value : V; order_it : nat }.

(** [fresh] is the identity of the next node that is allocated. *)
Record StringLruMap := mkLru {
  max_ : nat;
  order_ : list node;
  map_ : gmap bytes Entry;
  fresh : nat
}.

Definition make (max_entries : nat) : StringLruMap := mkLru (Nat.max max_entries 1) [] ∅ 0.

(** [order_.erase(it)] and [order_.splice(order_.end(), order_, it)]. *)
Fixpoint list_erase (it : nat) (l : list node) : option (node * list node) :=
  match l with
  | [] => None
  | n :: l => if decide (n.1 = it) then Some (n, l) else '(m, l) ← list_erase it l; Some (m, n :: l)
  end.

Definition splice_back (it : nat) (l : list node) : option (list node) :=
  '(n, rest) ← list_erase it l; Some (rest ++ [n]).

Definition with_order (t : StringLruMap) (o : list node) := mkLru (max_ t) o (map_ t) (fresh t).
Definition with_map (t : StringLruMap) (m : gmap bytes Entry) := mkLru (max_ t) (order_ t) m (fresh t).

(** [order_.push_back(owned)] and [map_.emplace(owned, Entry{value, prev(end)})]. *)
Definition push_entry (t : StringLruMap) (key : bytes) (v : V) : StringLruMap :=
  mkLru (max_ t) (order_ t ++ [(fresh t, key)])
    (match map_ t !! key with Some _ => map_ t | None => <[key := mkEntry v (fresh t)]> (map_ t) end)
    (S (fresh t)).

(** A [Value *] is modelled by the value it points to; writing through it is
    [store]. *)
Definition find (t : StringLruMap) (key : bytes) : option (StringLruMap * option V) :=
  match map_ t !! key with
  | None => Some (t, None)
  | Some e =>
      o ← splice_back (order_it e) (order_ t);
      Some (with_order t o, Some (value e))
  end.

Definition store (t : StringLruMap) (key : bytes) (v : V) : option StringLruMap :=
  e ← map_ t !! key;
  Some (with_map t (<[key := mkEntry v (order_it e)]> (map_ t))).

(** The block of [get_or_create] that makes room. *)
Definition make_room (t : StringLruMap) : option (StringLruMap * bool) :=
  if (max_ t <=? size (map_ t))%nat then
    match order_ t with
    | [] => None
    | n :: rest => Some (mkLru (max_ t) rest (delete n.2 (map_ t)) (fresh t), true)
    end
  else Some (t, false).

Definition get_or_create (t : StringLruMap) (key : bytes) (make_value : V)
  : option (StringLruMap * TouchResult V) :=
  '(t, found) ← find t key;
  match found with
  | Some v => Some (t, mkTouch v false false)
  | None =>
      '(t, evicted) ← make_room t;
      Some (push_entry t key make_value, mkTouch make_value true evicted)
  end.

Definition erase (t : StringLruMap) (key : bytes) : option (StringLruMap * bool) :=
  match map_ t !! key with
  | None => Some (t, false)
  | Some e =>
      '(_, o) ← list_erase (order_it e) (order_ t);
      Some (mkLru (max_ t) o (delete key (map_ t)) (fresh t), true)
  end.

Definition clear (t : StringLruMap) : StringLruMap := mkLru (max_ t) [] ∅ (fresh t).

(** [evict_lru(on_evict)]: the entry [on_evict] is called with, if any, and the
    result. *)
Definition evict_lru (t : StringLruMap) : option (StringLruMap * option (bytes * V) * bool) :=
  match order_ t with
  | [] => Some (t, None, false)
  | n :: rest =>
      match map_ t !! n.2 with
      | None => Some (with_order t rest, None, true)
      | Some e =>
          '(_, o) ← list_erase (order_it e) (order_ t);
          Some (mkLru (max_ t) o (delete n.2 (map_ t)) (fresh t), Some (n.2, value e), true)
      end
  end.

Definition insert_or_assign (t : StringLruMap) (key : bytes) (v : V) : option StringLruMap :=
  match map_ t !! key with
  | Some e =>
      t ← store t key v;
      o ← splice_back (order_it e) (order_ t);
      Some (with_order t o)
  | None =>
      t ← (if (max_ t <=? size (map_ t))%nat then '(t, _, _) ← evict_lru t; Some t else Some t);
      Some (push_entry t key v)
  end.

(** The loop of [erase_if], over the nodes from [it] on; [kept] are the nodes
    already passed. *)
Fixpoint erase_if_loop (pred : bytes -> V -> bool) (kept : list node) (it : list node)
    (m : gmap bytes Entry) (erased : nat) : list node * gmap bytes Entry * nat :=
  match it with
  | [] => (kept, m, erased)
  | n :: it =>
      match m !! n.2 with
      | None => erase_if_loop pred kept it m erased
      | Some e =>
          if negb (pred n.2 (value e)) then erase_if_loop pred (kept ++ [n]) it m erased
          else erase_if_loop pred kept it (delete n.2 m) (S erased)
      end
  end.

Definition erase_if (t : StringLruMap) (pred : bytes -> V -> bool) : StringLruMap * nat :=
  let '(o, m, erased) := erase_if_loop pred [] (order_ t) (map_ t) 0 in
  (mkLru (max_ t) o m (fresh t), erased).

Definition size_ (t : StringLruMap) : nat := size (map_ t).

Definition empty_ (t : StringLruMap) : bool := (size (map_ t) =? 0)%nat.

End lru.
Arguments StringLruMap : clear implicits.
Arguments Entry : clear implicits.
End Lru.

(** ** The abstract map

    Entries from the least to the most recently used one. *)

Module Recency.
Section recency.
Context {V : Type}.
Implicit Types (l : list (bytes * V)).

Fixpoint lookup_ (k : bytes) l : option V :=
  match l with
  | [] => None
  | (k', v) :: l => if decide (k' = k) then Some v else lookup_ k l
  end.

Definition remove (k : bytes) l : list (bytes * V) := filter (fun x => x.1 <> k) l.

(** Use an entry: it becomes the most recent one. *)
Definition touch (k : bytes) l : list (bytes * V) :=
  match lookup_ k l with Some v => remove k l ++ [(k, v)] | None => l end.

Definition assign (k : bytes) (v : V) l : list (bytes * V) :=
  map (fun x => if decide (x.1 = k) then (k, v) else x) l.

(** Add a new entry; a full map first loses the least recent one. *)
Definition push (max : nat) (k : bytes) (v : V) l : list (bytes * V) :=
  (if (max <=? length l)%nat then tail l else l) ++ [(k, v)].

Definition put (max : nat) (k : bytes) (v : V) l : list (bytes * V) :=
  match lookup_ k l with Some _ => remove k l ++ [(k, v)] | None => push max k v l end.

Definition get_or_make (max : nat) (k : bytes) (v : V) l : list (bytes * V) * TouchResult V :=
  match lookup_ k l with
  | Some v' => (touch k l, mkTouch v' false false)
  | None => (push max k v l, mkTouch v true (max <=? length l)%nat)
  end.

End recency.
End Recency.

(** ** Facts about the abstract map *)

Module RecencyFacts.
Import Recency.
Section facts.
Context {V : Type}.
Implicit Types (l : list (bytes * V)).

Lemma lookup_app k l1 l2 :
  lookup_ k (l1 ++ l2) = match lookup_ k l1 with Some v => Some v | None => lookup_ k l2 end.
Proof. induction l1 as [|[k' v] l1 IH]; simpl; [done|]. by case_decide. Qed.

Lemma lookup_remove_eq k l : lookup_ k (remove k l) = None.
Proof.
  unfold remove. induction l as [|[k' v] l IH]; simpl; [done|].
  rewrite filter_cons. case_decide; [|done]. simpl. by rewrite decide_False.
Qed.

Lemma lookup_remove_ne k k' l : k <> k' -> lookup_ k (remove k' l) = lookup_ k l.
Proof.
  intros Hne. unfold remove. induction l as [|[j v] l IH]; simpl; [done|].
  rewrite filter_cons. case_decide as Hj; simpl in *; [by case_decide|].
  rewrite IH. by rewrite decide_False by naive_solver.
Qed.

Lemma lookup_touch k k' l : lookup_ k (touch k' l) = lookup_ k l.
Proof.
  unfold touch. destruct (lookup_ k' l) as [v|] eqn:E; [|done]. rewrite lookup_app.
  destruct (decide (k = k')) as [->|Hne].
  - rewrite lookup_remove_eq. simpl. by rewrite decide_True.
  - rewrite lookup_remove_ne by done. destruct (lookup_ k l); [done|]. simpl. by rewrite decide_False.
Qed.

Lemma lookup_assign_eq k v l : is_Some (lookup_ k l) -> lookup_ k (assign k v l) = Some v.
Proof.
  unfold assign. induction l as [|[k' v'] l IH]; simpl; [by intros []|]. case_decide as Hk; simpl.
  - by rewrite decide_True.
  - rewrite decide_False by done. apply IH.
Qed.

Lemma lookup_assign_ne k k' v l : k <> k' -> lookup_ k (assign k' v l) = lookup_ k l.
Proof.
  intros Hne. unfold assign. induction l as [|[j w] l IH]; simpl; [done|]. case_decide as Hj; simpl in *.
  - by rewrite !decide_False by congruence.
  - by case_decide.
Qed.

Lemma keys_assign k v l : (assign k v l).*1 = l.*1.
Proof.
  unfold assign. induction l as [|[j w] l IH]; [done|]. cbn [map fmap list_fmap fst]. f_equal; [|exact IH].
    by case_decide.
Qed.

Lemma lookup_keys k l : is_Some (lookup_ k l) <-> k ∈ l.*1.
Proof.
  induction l as [|[j w] l IH]; simpl; [split; [by intros []|by intros ?%elem_of_nil]|].
  rewrite elem_of_cons, <- IH. case_decide; naive_solver.
Qed.

Lemma keys_touch k l : forall j, j ∈ (touch k l).*1 <-> j ∈ l.*1.
Proof. intros j. by rewrite <- !lookup_keys, lookup_touch. Qed.

Lemma lookup_elem k v l : lookup_ k l = Some v -> (k, v) ∈ l.
Proof.
  induction l as [|[k' v'] l IH]; cbn; [done|]. destruct (decide (k' = k)) as [->|]; [intros [= ->]; left|right; auto].
Qed.

Lemma touch_elem k l x : x ∈ touch k l -> x ∈ l.
Proof.
  unfold touch, remove. destruct (lookup_ k l) as [v|] eqn:E; [|done]. rewrite elem_of_app, list_elem_of_filter, list_elem_of_singleton.
  intros [[_ H]| ->]; [done|by apply lookup_elem].
Qed.

(** A stored entry is the one put or an old one of another key. *)
Lemma put_elem m k v l x : x ∈ put m k v l -> x = (k, v) \/ (x ∈ l /\ x.1 <> k).
Proof.
  unfold put, push, remove. destruct (lookup_ k l) as [v'|] eqn:E.
  - rewrite elem_of_app, list_elem_of_filter, list_elem_of_singleton. intros [[? ?]| ->]; auto.
  - rewrite elem_of_app, list_elem_of_singleton. intros [H| ->]; [right|by left].
    assert (x ∈ l) as Hx by (destruct (m <=? length l)%nat; [destruct l; [done|by right]|done]). split; [done|].
    intros <-. assert (is_Some (lookup_ x.1 l)) as [? ?] by (apply lookup_keys; by apply list_elem_of_fmap_2). congruence.
Qed.

(** [get_or_make] when there is room: nobody else's entry changes. *)
Lemma get_or_make_room m k v l :
  (k ∉ l.*1 -> (length l < m)%nat) ->
  touched (get_or_make m k v l).2 = default v (lookup_ k l) /\
  lookup_ k (get_or_make m k v l).1 = Some (default v (lookup_ k l)) /\
  (forall j, j <> k -> lookup_ j (get_or_make m k v l).1 = lookup_ j l) /\
  (forall j, j ∈ (get_or_make m k v l).1.*1 <-> j = k \/ j ∈ l.*1).
Proof.
  intros Hroom. unfold get_or_make. destruct (lookup_ k l) as [w|] eqn:E; simpl.
  - split; [done|]. split; [by rewrite lookup_touch|]. split; [intros j _; apply lookup_touch|].
    intros j. rewrite keys_touch. split; [by right|]. intros [->|]; [|done]. apply lookup_keys. eauto.
  - assert (k ∉ l.*1) as Hk by (rewrite <- lookup_keys, E; by intros []). specialize (Hroom Hk).
    unfold push. destruct (Nat.leb_spec m (length l)); [lia|]. split; [done|].
    split; [rewrite lookup_app, E; simpl; by rewrite decide_True|].
    split; [intros j Hj; rewrite lookup_app; destruct (lookup_ j l); [done|]; simpl; by rewrite decide_False|].
    intros j. rewrite fmap_app, elem_of_app. simpl. rewrite list_elem_of_singleton. tauto.
Qed.

(** [get_or_make] always leaves the key there, with its old value or the new one. *)
Lemma get_or_make_self m k v l :
  touched (get_or_make m k v l).2 = default v (lookup_ k l) /\
  lookup_ k (get_or_make m k v l).1 = Some (default v (lookup_ k l)).
Proof.
  unfold get_or_make. destruct (lookup_ k l) as [w|] eqn:E; simpl; [by rewrite lookup_touch|].
  split; [done|]. unfold push. rewrite lookup_app.
  assert (lookup_ k (if (m <=? length l)%nat then tail l else l) = None) as ->.
  { destruct (m <=? length l)%nat; [|done]. destruct l as [|[j w] l]; simpl in *; [done|]. by case_decide. }
  simpl. by rewrite decide_True.
Qed.

End facts.
End RecencyFacts.

(** ** Sequences of calls

    A call of the container; [Find k w] looks [k] up and, when it is there,
    writes [w] through the pointer. *)

Inductive lru_call (V : Type) :=
| Find (k : bytes) (w : option V)
| GetOrCreate (k : bytes) (v : V)
| Erase (k : bytes)
| Clear
| InsertOrAssign (k : bytes) (v : V)
| EvictLru
| EraseIf (pred : bytes -> V -> bool)
| Size.
Arguments Find {V}.
Arguments GetOrCreate {V}.
Arguments Erase {V}.
Arguments Clear {V}.
Arguments InsertOrAssign {V}.
Arguments EvictLru {V}.
Arguments EraseIf {V}.
Arguments Size {V}.

Inductive lru_answer (V : Type) :=
| Found (v : option V) | Touched (r : TouchResult V) | Flag (b : bool) | Nothing
| Evicted (e : option (bytes * V)) (b : bool) | Count (n : nat).
Arguments Found {V}.
Arguments Touched {V}.
Arguments Flag {V}.
Arguments Nothing {V}.
Arguments Evicted {V}.
Arguments Count {V}.

Module LruRun.
Section run.
Context {V : Type}.
Implicit Types (t : Lru.StringLruMap V) (l : list (bytes * V)).

Definition call t (c : lru_call V) : option (Lru.StringLruMap V * lru_answer V) :=
  match c with
  | Find k w =>
      '(t, r) ← Lru.find t k;
      t ← match r, w with Some _, Some v => Lru.store t k v | _, _ => Some t end;
      Some (t, Found r)
  | GetOrCreate k v => '(t, r) ← Lru.get_or_create t k v; Some (t, Touched r)
  | Erase k => '(t, b) ← Lru.erase t k; Some (t, Flag b)
  | Clear => Some (Lru.clear t, Nothing)
  | InsertOrAssign k v => t ← Lru.insert_or_assign t k v; Some (t, Nothing)
  | EvictLru => '(t, e, b) ← Lru.evict_lru t; Some (t, Evicted e b)
  | EraseIf pred => let '(t, n) := Lru.erase_if t pred in Some (t, Count n)
  | Size => Some (t, Count (Lru.size_ t))
  end.

Fixpoint calls t (cs : list (lru_call V)) : option (Lru.StringLruMap V * list (lru_answer V)) :=
  match cs with
  | [] => Some (t, [])
  | c :: cs => '(t, a) ← call t c; '(t, rest) ← calls t cs; Some (t, a :: rest)
  end.

(** The same calls on the abstract map of at most [m] entries. *)
Definition spec_call (m : nat) l (c : lru_call V) : list (bytes * V) * lru_answer V :=
  match c with
  | Find k w =>
      (match Recency.lookup_ k l, w with
       | Some _, Some v => Recency.assign k v (Recency.touch k l)
       | _, _ => Recency.touch k l
       end, Found (Recency.lookup_ k l))
  | GetOrCreate k v => let '(l, r) := Recency.get_or_make m k v l in (l, Touched r)
  | Erase k => (Recency.remove k l, Flag (bool_decide (is_Some (Recency.lookup_ k l))))
  | Clear => ([], Nothing)
  | InsertOrAssign k v => (Recency.put m k v l, Nothing)
  | EvictLru => (tail l, Evicted (head l) (match l with [] => false | _ => true end))
  | EraseIf pred =>
      (filter (fun x => pred x.1 x.2 = false) l, Count (length (filter (fun x => pred x.1 x.2 = true) l)))
  | Size => (l, Count (length l))
  end.

Fixpoint spec_calls (m : nat) l (cs : list (lru_call V)) : list (bytes * V) * list (lru_answer V) :=
  match cs with
  | [] => (l, [])
  | c :: cs =>
      let '(l, a) := spec_call m l c in
      let '(l, rest) := spec_calls m l cs in (l, a :: rest)
  end.

End run.
End LruRun.

(** ** What a client may rely on *)

Class RecencyMap (V T : Type) := {
  rm_new : nat -> T;
  rm_find : T -> bytes -> option (T * option V);
  rm_store : T -> bytes -> V -> option T;
  rm_get_or_create : T -> bytes -> V -> option (T * TouchResult V);
  rm_erase : T -> bytes -> option (T * bool);
  rm_put : T -> bytes -> V -> option T;
  rm_erase_if : T -> (bytes -> V -> bool) -> T * nat;
  rm_size : T -> nat;
  rm_models : T -> nat -> list (bytes * V) -> Prop;
  rm_new_ok n : rm_models (rm_new n) (Nat.max n 1) [];
  rm_find_ok t m l k : rm_models t m l ->
    exists t', rm_find t k = Some (t', Recency.lookup_ k l) /\ rm_models t' m (Recency.touch k l);
  rm_store_ok t m l k v : rm_models t m l -> is_Some (Recency.lookup_ k l) ->
    exists t', rm_store t k v = Some t' /\ rm_models t' m (Recency.assign k v l);
  rm_get_or_create_ok t m l k v : rm_models t m l ->
    exists t', rm_get_or_create t k v = Some (t', (Recency.get_or_make m k v l).2) /\
      rm_models t' m (Recency.get_or_make m k v l).1;
  rm_erase_ok t m l k : rm_models t m l ->
    exists t', rm_erase t k = Some (t', bool_decide (is_Some (Recency.lookup_ k l))) /\
      rm_models t' m (Recency.remove k l);
  rm_put_ok t m l k v : rm_models t m l -> exists t', rm_put t k v = Some t' /\ rm_models t' m (Recency.put m k v l);
  rm_erase_if_ok t m l pred : rm_models t m l ->
    exists t', rm_erase_if t pred = (t', length (filter (fun x => pred x.1 x.2 = true) l)) /\
      rm_models t' m (filter (fun x => pred x.1 x.2 = false) l);
  rm_size_ok t m l : rm_models t m l -> rm_size t = length l;
  rm_bound t m l : rm_models t m l -> NoDup l.*1 /\ (length l <= m)%nat /\ (1 <= m)%nat
}.

(** ** What a client that works on one key needs

    [holds t k b]: the map is in order and [b] is the value of [k], if any. *)

Module OneKey.
Import RecencyFacts.
Section one_key.
Context {V T : Type} `{RM : RecencyMap V T}.

Definition holds (t : T) (k : bytes) (b : option V) : Prop :=
  exists m l, rm_models t m l /\ Recency.lookup_ k l = b.

Lemma holds_new n k : holds (rm_new n) k None.
Proof. exists (Nat.max n 1), []. split; [apply rm_new_ok|done]. Qed.

Lemma holds_find t k b : holds t k b -> exists t', rm_find t k = Some (t', b) /\ holds t' k b.
Proof.
  intros (m & l & M & <-). destruct (rm_find_ok t m l k M) as (t' & -> & M'). exists t'. split; [done|].
  exists m, (Recency.touch k l). split; [done|apply lookup_touch].
Qed.

Lemma holds_store t k b v : holds t k (Some b) -> exists t', rm_store t k v = Some t' /\ holds t' k (Some v).
Proof.
  intros (m & l & M & E). assert (is_Some (Recency.lookup_ k l)) as H by eauto.
  destruct (rm_store_ok t m l k v M H) as (t' & -> & M'). exists t'. split; [done|].
  exists m, (Recency.assign k v l). split; [done|by apply lookup_assign_eq].
Qed.

Lemma holds_create t k b v :
  holds t k b -> exists t' r, rm_get_or_create t k v = Some (t', r) /\ touched r = default v b /\
    holds t' k (Some (default v b)).
Proof.
  intros (m & l & M & <-). destruct (rm_get_or_create_ok t m l k v M) as (t' & -> & M').
  destruct (get_or_make_self m k v l) as [E1 E2]. eexists t', _. split; [done|]. split; [done|].
  eexists m, _. split; [exact M'|done].
Qed.

Lemma holds_erase t k b : holds t k b -> exists t' e, rm_erase t k = Some (t', e) /\ holds t' k None.
Proof.
  intros (m & l & M & E). destruct (rm_erase_ok t m l k M) as (t' & -> & M'). eexists t', _. split; [done|].
  exists m, (Recency.remove k l). split; [done|apply lookup_remove_eq].
Qed.

Lemma holds_put t k b v : holds t k b -> exists t', rm_put t k v = Some t' /\ holds t' k (Some v).
Proof.
  intros (m & l & M & E). destruct (rm_put_ok t m l k v M) as (t' & -> & M'). exists t'. split; [done|].
  eexists m, _. split; [exact M'|]. unfold Recency.put.
  destruct (Recency.lookup_ k l) eqn:El; [rewrite lookup_app, lookup_remove_eq; cbn; by rewrite decide_True|].
  unfold Recency.push. rewrite lookup_app. assert (Recency.lookup_ k (if (m <=? length l)%nat then tail l else l) = None) as ->.
  { destruct (m <=? length l)%nat; [|done]. destruct l as [|[k' v'] l]; [done|]. cbn in *. by destruct (decide (k' = k)). }
  cbn. by rewrite decide_True.
Qed.

Lemma holds_erase_if t k b pred : holds t k b ->
  exists t' n, rm_erase_if t pred = (t', n) /\ holds t' k (v ← b; if pred k v then None else Some v).
Proof.
  intros (m & l & M & E). destruct (rm_erase_if_ok t m l pred M) as (t' & -> & M'). eexists t', _. split; [done|].
  eexists m, _. split; [exact M'|]. destruct (rm_bound t m l M) as [Hnd _]. clear M M'. subst b.
  induction l as [|[k' v'] l IH]; [done|]. rewrite fmap_cons in Hnd. apply NoDup_cons in Hnd as [Hk Hnd]. cbn [fst] in Hk.
  cbn [Recency.lookup_]. destruct (decide (k' = k)) as [->|Hne].
  - cbn [mbind option_bind]. assert (Recency.lookup_ k l = None) as Hno.
    { destruct (Recency.lookup_ k l) eqn:El; [|done]. destruct Hk. apply lookup_keys. eauto. }
    rewrite Hno in IH. cbn [mbind option_bind] in IH. rewrite filter_cons. cbn [fst snd].
    destruct (pred k v') eqn:Ep; [rewrite decide_False by congruence; by apply IH|].
    rewrite decide_True by done. cbn. by rewrite decide_True.
  - rewrite <- (IH Hnd). rewrite filter_cons. cbn [fst snd]. destruct (decide _); [|done]. cbn. by rewrite decide_False.
Qed.
End one_key.
End OneKey.

(** ** What a client that works on few enough keys needs

    [roomy U t f]: the map has room for all the keys of [U], so nothing is ever
    evicted, and [f] gives the value of every key, if any. *)

Module Roomy.
Import RecencyFacts.
Section roomy.
Context {V T : Type} `{RM : RecencyMap V T}.

Definition upd (f : bytes -> option V) (k : bytes) (b : option V) : bytes -> option V :=
  fun j => if decide (j = k) then b else f j.

Lemma upd_eq f k b : upd f k b k = b.
Proof. unfold upd. by rewrite decide_True. Qed.

Lemma upd_ne f k b j : j <> k -> upd f k b j = f j.
Proof. intros H. unfold upd. by rewrite decide_False. Qed.

Lemma upd_upd f k b c j : upd (upd f k b) k c j = upd f k c j.
Proof. unfold upd. by case_decide. Qed.

Lemma upd_same f k j : upd f k (f k) j = f j.
Proof. unfold upd. case_decide; congruence. Qed.

Definition roomy (U : list bytes) (t : T) (f : bytes -> option V) : Prop :=
  exists m l, rm_models t m l /\ (forall k, Recency.lookup_ k l = f k) /\ (forall k, k ∈ l.*1 -> k ∈ U) /\
    (length U <= m)%nat.

Lemma roomy_ext U t f g : (forall k, f k = g k) -> roomy U t f -> roomy U t g.
Proof. intros E (m & l & M & Hf & H). exists m, l. split; [done|]. split; [|done]. intros k. by rewrite Hf. Qed.

Lemma roomy_new U n : (length U <= Nat.max n 1)%nat -> roomy U (rm_new n) (fun _ => None).
Proof.
  intros H. exists (Nat.max n 1), []. split; [apply rm_new_ok|]. split; [done|]. split; [|done].
  intros k []%elem_of_nil.
Qed.

Lemma room U m k (l : list (bytes * V)) :
  (length U <= m)%nat -> NoDup l.*1 -> (forall j, j ∈ l.*1 -> j ∈ U) -> k ∈ U -> k ∉ l.*1 -> (length l < m)%nat.
Proof.
  intros Hm Hn Hl Hk Hno. assert (NoDup (k :: l.*1)) as Hnk by (by apply NoDup_cons).
  assert (k :: l.*1 ⊆+ U) as Hsub.
  { apply NoDup_submseteq; [done|]. intros j [->|Hj]%elem_of_cons; [done|by apply Hl]. }
  apply submseteq_length in Hsub. cbn [length] in Hsub. rewrite length_fmap in Hsub. lia.
Qed.

Lemma in_keys (k : bytes) (l : list (bytes * V)) : k ∈ l.*1 <-> Recency.lookup_ k l <> None.
Proof. rewrite <- lookup_keys. destruct (Recency.lookup_ k l); [by split; eauto|]. by split; [intros [? ?]|]. Qed.

Lemma roomy_find U t f k : roomy U t f -> exists t', rm_find t k = Some (t', f k) /\ roomy U t' f.
Proof.
  intros (m & l & M & Hf & HU & Hm). destruct (rm_find_ok t m l k M) as (t' & -> & M'). exists t'. rewrite Hf.
  split; [done|]. exists m, (Recency.touch k l). split; [done|].
  split; [intros j; by rewrite lookup_touch|]. split; [|done]. intros j. rewrite keys_touch. apply HU.
Qed.

Lemma roomy_store U t f k v : roomy U t f -> f k <> None ->
  exists t', rm_store t k v = Some t' /\ roomy U t' (upd f k (Some v)).
Proof.
  intros (m & l & M & Hf & HU & Hm) Hk. assert (is_Some (Recency.lookup_ k l)) as Hs.
  { rewrite Hf. destruct (f k); [eauto|done]. }
  destruct (rm_store_ok t m l k v M Hs) as (t' & -> & M'). exists t'. split; [done|].
  exists m, (Recency.assign k v l). split; [done|]. split; [|split; [|done]].
  - intros j. unfold upd. case_decide as Hj; [subst j; by apply lookup_assign_eq|by rewrite lookup_assign_ne].
  - intros j. rewrite keys_assign. apply HU.
Qed.

Lemma roomy_create U t f k v : roomy U t f -> k ∈ U ->
  exists t' r, rm_get_or_create t k v = Some (t', r) /\ touched r = default v (f k) /\
    roomy U t' (upd f k (Some (default v (f k)))).
Proof.
  intros (m & l & M & Hf & HU & Hm) Hk. destruct (rm_bound t m l M) as (Hn & _ & _).
  destruct (rm_get_or_create_ok t m l k v M) as (t' & -> & M').
  destruct (get_or_make_room m k v l) as (E1 & E2 & E3 & E4); [intros Hno; by eapply room|].
  eexists t', _. split; [done|]. rewrite <- Hf. split; [done|]. eexists m, _. split; [exact M'|].
  split; [|split; [|done]].
  - intros j. unfold upd. case_decide as Hj; [by subst j|]. by rewrite E3.
  - intros j. rewrite E4. intros [->|Hj]; [done|by apply HU].
Qed.

Lemma roomy_erase U t f k : roomy U t f ->
  exists t' e, rm_erase t k = Some (t', e) /\ roomy U t' (upd f k None).
Proof.
  intros (m & l & M & Hf & HU & Hm). destruct (rm_erase_ok t m l k M) as (t' & -> & M'). eexists t', _. split; [done|].
  exists m, (Recency.remove k l). split; [done|].
  assert (forall j, Recency.lookup_ j (Recency.remove k l) = upd f k None j) as Hj.
  { intros j. unfold upd. case_decide as Hj; [subst j; apply lookup_remove_eq|by rewrite lookup_remove_ne]. }
  split; [done|]. split; [|done]. intros j. rewrite in_keys, Hj. unfold upd. case_decide; [done|].
  rewrite <- Hf, <- in_keys. apply HU.
Qed.
End roomy.
End Roomy.

(** ** The container implements the abstract map *)

Module LruOk.
Import Lru.
Section ok.
Context {V : Type}.
Implicit Types (t : StringLruMap V) (l : list (bytes * V)).

(** One entry: its node, its key and its value. *)
Record cell := mkCell { cid : nat; ckey : bytes; cval : V }.

Definition node_of (c : cell) : nat * bytes := (cid c, ckey c).
Definition entry_of (c : cell) : bytes * Entry V := (ckey c, mkEntry (cval c) (cid c)).
Definition pair_of (c : cell) : bytes * V := (ckey c, cval c).

Record cells_of (t : StringLruMap V) (cs : list cell) : Prop := {
  co_order : order_ t = map node_of cs;
  co_map : map_ t = list_to_map (map entry_of cs);
  co_ids : NoDup (map cid cs);
  co_fresh : Forall (fun c => cid c < fresh t)%nat cs;
  co_keys : NoDup (map ckey cs);
  co_len : (length cs <= max_ t)%nat;
  co_max : (1 <= max_ t)%nat
}.

Definition models (t : StringLruMap V) (m : nat) (l : list (bytes * V)) : Prop :=
  exists cs, cells_of t cs /\ max_ t = m /\ l = map pair_of cs.

Lemma fst_entries cs : (map entry_of cs).*1 = map ckey cs.
Proof. induction cs as [|c cs IH]; simpl; [done|]. f_equal. exact IH. Qed.

Lemma fst_pairs cs : (map pair_of cs).*1 = map ckey cs.
Proof. induction cs as [|c cs IH]; simpl; [done|]. f_equal. exact IH. Qed.

Lemma map_perm cs cs' :
  NoDup (map ckey cs) -> Permutation cs cs' ->
  list_to_map (M := gmap bytes (Entry V)) (map entry_of cs) = list_to_map (map entry_of cs').
Proof.
  intros Hn Hp. apply list_to_map_proper; [by rewrite fst_entries|]. by apply Permutation_map.
Qed.

Lemma map_size cs :
  NoDup (map ckey cs) -> size (list_to_map (M := gmap bytes (Entry V)) (map entry_of cs)) = length cs.
Proof.
  intros Hn. rewrite <- (length_map_to_list (list_to_map (map entry_of cs))).
  rewrite map_to_list_to_map by (by rewrite fst_entries). by rewrite length_map.
Qed.

Lemma lookup_absent k cs : k ∉ map ckey cs -> Recency.lookup_ k (map pair_of cs) = None.
Proof.
  induction cs as [|c cs IH]; simpl; [done|]. intros [H1 H2]%not_elem_of_cons.
  rewrite decide_False by congruence. by apply IH.
Qed.

Lemma lookup_here cs1 c cs2 :
  ckey c ∉ map ckey cs1 -> Recency.lookup_ (ckey c) (map pair_of (cs1 ++ c :: cs2)) = Some (cval c).
Proof.
  induction cs1 as [|d cs1 IH]; simpl; [by rewrite decide_True|]. intros [H1 H2]%not_elem_of_cons.
  rewrite decide_False by congruence. by apply IH.
Qed.

Lemma remove_absent k cs : k ∉ map ckey cs -> Recency.remove k (map pair_of cs) = map pair_of cs.
Proof.
  unfold Recency.remove. induction cs as [|c cs IH]; simpl; [done|]. intros [H1 H2]%not_elem_of_cons.
  rewrite filter_cons_True by (simpl; congruence). by rewrite IH.
Qed.

(** The keys and nodes around one entry. *)
Lemma around {A} (f : cell -> A) cs1 c cs2 :
  NoDup (map f (cs1 ++ c :: cs2)) ->
  f c ∉ map f cs1 /\ f c ∉ map f cs2 /\ NoDup (map f (cs1 ++ cs2)) /\ f c ∉ map f (cs1 ++ cs2).
Proof.
  rewrite !map_app. simpl. intros H. apply NoDup_app in H as (H1 & H2 & H3).
  apply NoDup_cons in H3 as [H3 H4]. split; [|split; [done|split]].
  - intros Hc. apply (H2 _ Hc). apply list_elem_of_here.
  - apply NoDup_app. split; [done|]. split; [|done]. intros x Hx Hx'. apply (H2 x Hx). by apply list_elem_of_further.
  - rewrite elem_of_app. intros [Hc|Hc]; [|done]. apply (H2 _ Hc). apply list_elem_of_here.
Qed.

Lemma remove_here cs1 c cs2 :
  NoDup (map ckey (cs1 ++ c :: cs2)) ->
  Recency.remove (ckey c) (map pair_of (cs1 ++ c :: cs2)) = map pair_of (cs1 ++ cs2).
Proof.
  intros (H1 & H2 & _ & _)%around. unfold Recency.remove. rewrite !map_app, filter_app. simpl.
  rewrite filter_cons_False by (simpl; naive_solver).
  f_equal; [by apply (remove_absent _ cs1)|by apply (remove_absent _ cs2)].
Qed.

Lemma list_erase_here cs1 c cs2 :
  cid c ∉ map cid cs1 ->
  list_erase (cid c) (map node_of (cs1 ++ c :: cs2)) = Some (node_of c, map node_of (cs1 ++ cs2)).
Proof.
  induction cs1 as [|d cs1 IH]; simpl; [by rewrite decide_True|]. intros [H1 H2]%not_elem_of_cons.
  rewrite decide_False by congruence. by rewrite IH.
Qed.

(** A key is absent, or at one place of the list. *)
Lemma cells_lookup t cs k :
  cells_of t cs ->
  (map_ t !! k = None /\ k ∉ map ckey cs) \/
  (exists cs1 c cs2, cs = cs1 ++ c :: cs2 /\ k = ckey c /\ map_ t !! k = Some (mkEntry (cval c) (cid c))).
Proof.
  intros C. rewrite (co_map _ _ C). destruct (decide (k ∈ map ckey cs)) as [Hk|Hk].
  - right. apply list_elem_of_fmap in Hk as (c & -> & Hc). pose proof Hc as Hc'.
    apply list_elem_of_split in Hc' as (cs1 & cs2 & Hcs). exists cs1, c, cs2. split; [done|]. split; [done|].
    apply elem_of_list_to_map; [rewrite fst_entries; apply (co_keys _ _ C)|].
    apply list_elem_of_fmap. by exists c.
  - left. split; [|done]. apply not_elem_of_list_to_map. by rewrite fst_entries.
Qed.

Lemma delete_here cs1 c cs2 :
  NoDup (map ckey (cs1 ++ c :: cs2)) ->
  delete (ckey c) (list_to_map (M := gmap bytes (Entry V)) (map entry_of (cs1 ++ c :: cs2))) =
    list_to_map (map entry_of (cs1 ++ cs2)).
Proof.
  intros Hn. rewrite (map_perm _ (c :: cs1 ++ cs2) Hn) by (by rewrite Permutation_middle).
  simpl. apply delete_insert_id.
  apply around in Hn as (_ & _ & _ & Hc). apply not_elem_of_list_to_map. by rewrite fst_entries.
Qed.

Lemma insert_here cs1 c cs2 v :
  NoDup (map ckey (cs1 ++ c :: cs2)) ->
  <[ckey c := mkEntry v (cid c)]> (list_to_map (M := gmap bytes (Entry V)) (map entry_of (cs1 ++ c :: cs2))) =
    list_to_map (map entry_of (cs1 ++ mkCell (cid c) (ckey c) v :: cs2)).
Proof.
  intros Hn. rewrite (map_perm _ (c :: cs1 ++ cs2) Hn) by (by rewrite Permutation_middle).
  rewrite (map_perm (cs1 ++ mkCell (cid c) (ckey c) v :: cs2) (mkCell (cid c) (ckey c) v :: cs1 ++ cs2)).
  - simpl. by rewrite insert_insert_eq.
  - by rewrite !map_app in *.
  - by rewrite Permutation_middle.
Qed.

Lemma cells_remove t cs1 c cs2 :
  cells_of t (cs1 ++ c :: cs2) ->
  cells_of (mkLru (max_ t) (map node_of (cs1 ++ cs2)) (delete (ckey c) (map_ t)) (fresh t)) (cs1 ++ cs2).
Proof.
  intros C. destruct (around cid _ _ _ (co_ids _ _ C)) as (_ & _ & Hi & _).
  destruct (around ckey _ _ _ (co_keys _ _ C)) as (_ & _ & Hk & _).
  pose proof (co_fresh _ _ C) as Hf. pose proof (co_len _ _ C) as Hl.
  rewrite length_app in Hl. simpl in Hl. rewrite Forall_app, Forall_cons in Hf.
  split; simpl; try done.
  - rewrite (co_map _ _ C). apply delete_here, (co_keys _ _ C).
  - rewrite Forall_app. naive_solver.
  - rewrite length_app. lia.
  - apply (co_max _ _ C).
Qed.

Lemma cells_splice t cs1 c cs2 :
  cells_of t (cs1 ++ c :: cs2) ->
  splice_back (cid c) (order_ t) = Some (map node_of (cs1 ++ cs2 ++ [c])) /\
  cells_of (with_order t (map node_of (cs1 ++ cs2 ++ [c]))) (cs1 ++ cs2 ++ [c]).
Proof.
  intros C. destruct (around cid _ _ _ (co_ids _ _ C)) as (Hi & _).
  assert (Permutation (cs1 ++ c :: cs2) (cs1 ++ cs2 ++ [c])) as Hp.
  { apply Permutation_app_head. apply Permutation_cons_append. }
  split.
  - unfold splice_back. rewrite (co_order _ _ C), list_erase_here by done. cbn [mbind option_bind].
    by rewrite !map_app, <- app_assoc.
  - split; simpl; try done.
    + rewrite (co_map _ _ C). by apply map_perm; [apply (co_keys _ _ C)|].
    + rewrite <- Hp. apply (co_ids _ _ C).
    + rewrite <- Hp. apply (co_fresh _ _ C).
    + rewrite <- Hp. apply (co_keys _ _ C).
    + rewrite <- Hp. apply (co_len _ _ C).
    + apply (co_max _ _ C).
Qed.

Lemma cells_store t cs1 c cs2 v :
  cells_of t (cs1 ++ c :: cs2) ->
  cells_of (with_map t (<[ckey c := mkEntry v (cid c)]> (map_ t))) (cs1 ++ mkCell (cid c) (ckey c) v :: cs2).
Proof.
  intros [Co Cm Ci Cf Ck Cl Cx]. split; simpl.
  - rewrite Co, !map_app. done.
  - rewrite Cm. by apply insert_here.
  - by rewrite !map_app in *.
  - rewrite Forall_app, Forall_cons in *. naive_solver.
  - by rewrite !map_app in *.
  - rewrite length_app in *. done.
  - done.
Qed.

Lemma cells_push t cs k v :
  cells_of t cs -> k ∉ map ckey cs -> (length cs < max_ t)%nat ->
  cells_of (push_entry t k v) (cs ++ [mkCell (fresh t) k v]).
Proof.
  intros [Co Cm Ci Cf Ck Cl Cx] Hk Hl.
  assert (map_ t !! k = None) as Hn.
  { rewrite Cm. apply not_elem_of_list_to_map. by rewrite fst_entries. }
  unfold push_entry. rewrite Hn. split; simpl.
  - by rewrite Co, map_app.
  - rewrite Cm, map_app. change (map entry_of [mkCell (fresh t) k v]) with [(k, mkEntry v (fresh t))].
    rewrite list_to_map_snoc; [done|]. by rewrite fst_entries.
  - rewrite map_app. simpl. apply NoDup_app. split; [done|]. split; [|apply NoDup_singleton].
    intros x (c & -> & Hc)%list_elem_of_fmap Hx%list_elem_of_singleton.
    rewrite Forall_forall in Cf. specialize (Cf c Hc). simpl in Cf. lia.
  - apply Forall_app. split; [|repeat constructor]. eapply Forall_impl; [exact Cf|]. simpl. lia.
  - rewrite map_app. simpl. apply NoDup_app. split; [done|]. split; [|apply NoDup_singleton].
    by intros x Hx ->%list_elem_of_singleton.
  - rewrite length_app. simpl. lia.
  - done.
Qed.

Lemma cells_full t cs : cells_of t cs -> (max_ t <=? size (map_ t))%nat = (max_ t <=? length cs)%nat.
Proof. intros C. by rewrite (co_map _ _ C), map_size by apply (co_keys _ _ C). Qed.

(** The first entry is the one that goes when room is needed. *)
Lemma make_room_ok t cs :
  cells_of t cs ->
  exists t' cs', make_room t = Some (t', (max_ t <=? length cs)%nat) /\ cells_of t' cs' /\ max_ t' = max_ t /\
    (length cs' < max_ t)%nat /\ cs' = if (max_ t <=? length cs)%nat then tail cs else cs.
Proof.
  intros C. unfold make_room. rewrite (cells_full _ _ C).
  pose proof (co_len _ _ C) as Hl. pose proof (co_max _ _ C) as Hm.
  destruct (Nat.leb_spec (max_ t) (length cs)) as [Hf|Hf]; [|by exists t, cs].
  destruct cs as [|c cs]; [simpl in *; lia|]. rewrite (co_order _ _ C). simpl.
  eexists _, cs. split; [done|]. split; [by apply (cells_remove t [] c cs)|]. simpl in *. split; [done|]. split; [lia|done].
Qed.

Lemma find_ok t m l k :
  models t m l ->
  exists t', find t k = Some (t', Recency.lookup_ k l) /\ models t' m (Recency.touch k l).
Proof.
  intros (cs & C & Hm & ->). unfold find, Recency.touch.
  destruct (cells_lookup t cs k C) as [[-> Hk]|(cs1 & c & cs2 & -> & -> & ->)].
  - rewrite lookup_absent by done. exists t. split; [done|]. by exists cs.
  - destruct (around ckey _ _ _ (co_keys _ _ C)) as (Hk & _). rewrite lookup_here by done.
    destruct (cells_splice _ _ _ _ C) as [E C']. simpl. rewrite E. cbn [mbind option_bind].
    eexists. split; [done|]. exists (cs1 ++ cs2 ++ [c]). split; [done|]. split; [done|].
    rewrite remove_here by apply (co_keys _ _ C). by rewrite !map_app, app_assoc.
Qed.

Lemma assign_absent k v cs : k ∉ map ckey cs -> Recency.assign k v (map pair_of cs) = map pair_of cs.
Proof.
  unfold Recency.assign. induction cs as [|d cs IH]; simpl; [done|]. intros [Hd Hds]%not_elem_of_cons.
  rewrite decide_False by (simpl; congruence). by rewrite IH.
Qed.

Lemma assign_here cs1 c cs2 v :
  NoDup (map ckey (cs1 ++ c :: cs2)) ->
  Recency.assign (ckey c) v (map pair_of (cs1 ++ c :: cs2)) =
    map pair_of (cs1 ++ mkCell (cid c) (ckey c) v :: cs2).
Proof.
  intros (H1 & H2 & _ & _)%around. rewrite !map_app. simpl. unfold Recency.assign. rewrite map_app. simpl.
  rewrite decide_True by done.
  f_equal; [by apply (assign_absent _ _ cs1)|]. f_equal. by apply (assign_absent _ _ cs2).
Qed.

Lemma store_ok t m l k v :
  models t m l -> is_Some (Recency.lookup_ k l) ->
  exists t', store t k v = Some t' /\ models t' m (Recency.assign k v l).
Proof.
  intros (cs & C & Hm & ->) Hs. unfold store.
  destruct (cells_lookup t cs k C) as [[_ Hk]|(cs1 & c & cs2 & -> & -> & ->)].
  { rewrite lookup_absent in Hs by done. by destruct Hs. }
  eexists. split; [done|]. exists (cs1 ++ mkCell (cid c) (ckey c) v :: cs2).
  split; [by apply cells_store|]. split; [done|]. apply assign_here, (co_keys _ _ C).
Qed.

Lemma get_or_create_ok t m l k v :
  models t m l ->
  exists t', get_or_create t k v = Some (t', (Recency.get_or_make m k v l).2) /\
    models t' m (Recency.get_or_make m k v l).1.
Proof.
  intros M. unfold get_or_create, Recency.get_or_make.
  destruct (find_ok t m l k M) as (t' & E & M'). rewrite E. cbn [mbind option_bind].
  destruct (Recency.lookup_ k l) as [v'|] eqn:El; [by exists t'|].
  unfold find in E. destruct M as (cs & C & Hm & ->).
  destruct (cells_lookup t cs k C) as [[Hno Hk]|(cs1 & c & cs2 & -> & -> & Hs)].
  2:{ rewrite lookup_here in El; [done|]. by destruct (around ckey _ _ _ (co_keys _ _ C)). }
  rewrite Hno in E. injection E as <-. clear M'.
  destruct (make_room_ok t cs C) as (t1 & cs' & -> & C1 & Hm1 & Hl1 & Hcs). cbn [mbind option_bind].
  rewrite length_map. rewrite Hm in *. eexists. split; [done|].
  exists (cs' ++ [mkCell (fresh t1) k v]). split.
  - apply cells_push; [done| |by rewrite Hm1]. rewrite Hcs. case_match; [|done].
    intros Hin. apply Hk. destruct cs; [done|]. by apply list_elem_of_further.
  - simpl. split; [done|]. unfold Recency.push. rewrite length_map, map_app, Hcs.
    destruct (m <=? length cs)%nat; [by destruct cs|done].
Qed.

Lemma erase_ok t m l k :
  models t m l ->
  exists t', erase t k = Some (t', bool_decide (is_Some (Recency.lookup_ k l))) /\
    models t' m (Recency.remove k l).
Proof.
  intros (cs & C & Hm & ->). unfold erase.
  destruct (cells_lookup t cs k C) as [[-> Hk]|(cs1 & c & cs2 & -> & -> & ->)].
  - rewrite lookup_absent, remove_absent by done. exists t. split; [|by exists cs].
    by rewrite bool_decide_false by (by intros [? ?]).
  - destruct (around ckey _ _ _ (co_keys _ _ C)) as (Hk & _).
    destruct (around cid _ _ _ (co_ids _ _ C)) as (Hi & _).
    rewrite lookup_here, bool_decide_true by eauto. simpl.
    rewrite (co_order _ _ C), list_erase_here by done. cbn [mbind option_bind].
    eexists. split; [done|]. exists (cs1 ++ cs2). split; [by apply cells_remove|]. split; [done|].
    apply remove_here, (co_keys _ _ C).
Qed.

Lemma size_ok t m l : models t m l -> size_ t = length l.
Proof.
  intros (cs & C & Hm & ->). unfold size_. rewrite (co_map _ _ C), map_size by apply (co_keys _ _ C).
  by rewrite length_map.
Qed.

Lemma bound_ok t m l : models t m l -> NoDup l.*1 /\ (length l <= m)%nat /\ (1 <= m)%nat.
Proof.
  intros (cs & C & <- & ->). rewrite fst_pairs, length_map.
  split; [apply (co_keys _ _ C)|]. split; [apply (co_len _ _ C)|apply (co_max _ _ C)].
Qed.

Lemma make_ok n : models (make n) (Nat.max n 1) [].
Proof.
  exists []. split; [|done].
  split; simpl; try done; try apply NoDup_nil_2; try constructor; lia.
Qed.

Lemma clear_ok t m l : models t m l -> models (clear t) m [].
Proof.
  intros (cs & C & Hm & _). exists []. split; [|done]. pose proof (co_max _ _ C).
  split; simpl; try done; try apply NoDup_nil_2; try constructor; lia.
Qed.

Lemma evict_lru_ok t m l :
  models t m l ->
  exists t', evict_lru t = Some (t', head l, match l with [] => false | _ => true end) /\ models t' m (tail l).
Proof.
  intros (cs & C & Hm & ->). unfold evict_lru. rewrite (co_order _ _ C).
  destruct cs as [|c cs]; simpl; [by exists t; split; [|exists []]|].
  destruct (cells_lookup t (c :: cs) (ckey c) C) as [[_ Hk]|(cs1 & d & cs2 & E & Ek & ->)].
  { by destruct Hk; apply list_elem_of_here. }
  assert (cs1 = [] /\ d = c /\ cs2 = cs) as (-> & -> & ->).
  { destruct cs1 as [|e cs1]; [by injection E|]. injection E as -> ->.
    destruct (around ckey (e :: cs1) d cs2 (co_keys _ _ C)) as (Hd & _). rewrite <- Ek in Hd.
    by destruct Hd; apply list_elem_of_here. }
  simpl. rewrite decide_True by done. cbn [mbind option_bind]. eexists. split; [done|].
  exists cs. split; [|done]. by apply (cells_remove t [] c cs).
Qed.

Lemma insert_or_assign_ok t m l k v :
  models t m l -> exists t', insert_or_assign t k v = Some t' /\ models t' m (Recency.put m k v l).
Proof.
  intros M. destruct M as (cs & C & Hm & ->). unfold insert_or_assign, Recency.put.
  destruct (cells_lookup t cs k C) as [[Hno Hk]|(cs1 & c & cs2 & -> & -> & Hs)].
  - rewrite Hno, lookup_absent, (cells_full _ _ C) by done.
    pose proof (co_len _ _ C) as Hl. pose proof (co_max _ _ C) as H1. rewrite Hm in Hl, H1 |- *.
    assert (exists t' cs', (if (m <=? length cs)%nat then '(t, _, _) ← evict_lru t; Some t else Some t) = Some t' /\
      cells_of t' cs' /\ max_ t' = m /\ (length cs' < m)%nat /\ map ckey cs' ⊆ map ckey cs /\
      map pair_of cs' = if (m <=? length cs)%nat then tail (map pair_of cs) else map pair_of cs)
      as (t' & cs' & -> & C' & Hm' & Hl' & Hsub & Hcs).
    { destruct (Nat.leb_spec m (length cs)) as [Hf|Hf]; [|by exists t, cs].
      destruct (evict_lru_ok t m (map pair_of cs)) as (t' & -> & (cs' & C' & Hm' & Hcs)); [by exists cs|].
      exists t', cs'. split; [done|]. split; [done|]. split; [done|]. destruct cs as [|c cs]; [simpl in *; lia|].
      simpl in Hcs. split; [apply (f_equal length) in Hcs; rewrite !length_map in Hcs; simpl in *; lia|].
      split; [|done]. simpl. rewrite <- (fst_pairs cs'), <- Hcs, fst_pairs. set_solver. }
    cbn [mbind option_bind]. eexists. split; [done|]. exists (cs' ++ [mkCell (fresh t') k v]).
    split; [apply cells_push; [done|set_solver|by rewrite Hm']|]. split; [done|].
    unfold Recency.push. by rewrite length_map, map_app, Hcs.
  - rewrite Hs. destruct (around ckey _ _ _ (co_keys _ _ C)) as (Hk & _). rewrite lookup_here by done.
    unfold store. rewrite Hs. cbn [mbind option_bind order_it].
    pose proof (cells_store t cs1 c cs2 v C) as C'.
    destruct (cells_splice _ _ _ _ C') as [E C'']. simpl in E. simpl. rewrite E. cbn [mbind option_bind].
    eexists. split; [done|]. exists (cs1 ++ cs2 ++ [mkCell (cid c) (ckey c) v]). split; [done|]. split; [done|].
    rewrite remove_here by apply (co_keys _ _ C). by rewrite !map_app, app_assoc.
Qed.

(** The loop, from a state where [kept] was passed: the entries the predicate
    holds of go, the others stay in order. *)
Lemma erase_if_loop_ok pred kept rest n o m e :
  NoDup (map ckey (kept ++ rest)) ->
  erase_if_loop pred (map node_of kept) (map node_of rest) (list_to_map (map entry_of (kept ++ rest))) n = (o, m, e) ->
  exists stay, o = map node_of stay /\ m = list_to_map (map entry_of stay) /\ stay `sublist_of` kept ++ rest /\
    map pair_of stay = map pair_of kept ++ filter (fun x => pred x.1 x.2 = false) (map pair_of rest) /\
    e = (n + length (filter (fun x => pred x.1 x.2 = true) (map pair_of rest)))%nat.
Proof.
  revert kept n. induction rest as [|c rest IH]; intros kept n Hn E; simpl in E.
  - injection E as <- <- <-. exists kept. simpl. by rewrite !app_nil_r, Nat.add_0_r.
  - assert (list_to_map (M := gmap bytes (Entry V)) (map entry_of (kept ++ c :: rest)) !! ckey c =
      Some (mkEntry (cval c) (cid c))) as Hc.
    { apply elem_of_list_to_map; [by rewrite fst_entries|]. apply list_elem_of_fmap. exists c.
      split; [done|]. rewrite elem_of_app. right. apply list_elem_of_here. }
    rewrite Hc in E. cbn [value] in E. simpl. rewrite !filter_cons. cbn [pair_of fst snd].
    destruct (pred (ckey c) (cval c)); cbn [negb] in E.
    + rewrite delete_here in E by done. destruct (around ckey _ _ _ Hn) as (_ & _ & Hn' & _).
      destruct (IH kept (S n) Hn' E) as (stay & -> & -> & Hs & Hp & ->). exists stay.
      split; [done|]. split; [done|]. split; [|split; [done|]].
      * etrans; [exact Hs|]. apply sublist_app; [done|]. by constructor.
      * rewrite decide_True by done. simpl. lia.
    + replace (kept ++ c :: rest) with ((kept ++ [c]) ++ rest) in * by (by rewrite <- app_assoc).
      assert (map node_of kept ++ [node_of c] = map node_of (kept ++ [c])) as Ek by (by rewrite map_app).
      rewrite Ek in E. destruct (IH (kept ++ [c]) n Hn E) as (stay & -> & -> & Hs & Hp & ->). exists stay.
      split; [done|]. split; [done|]. split; [done|]. rewrite decide_True by done.
      split; [|done]. rewrite Hp, map_app, <- app_assoc. done.
Qed.

Lemma erase_if_ok t m l pred :
  models t m l ->
  exists t', erase_if t pred = (t', length (filter (fun x => pred x.1 x.2 = true) l)) /\
    models t' m (filter (fun x => pred x.1 x.2 = false) l).
Proof.
  intros (cs & C & Hm & ->). unfold erase_if. rewrite (co_order _ _ C), (co_map _ _ C).
  destruct (erase_if_loop pred [] (map node_of cs) (list_to_map (map entry_of cs)) 0) as [[o m'] e] eqn:E.
  destruct (erase_if_loop_ok pred [] cs 0 o m' e (co_keys _ _ C) E) as (stay & -> & -> & Hs & Hp & ->).
  eexists. split; [done|]. exists stay. split; [|split; [done|by rewrite Hp]].
  split; simpl; try done.
  - eapply sublist_NoDup; [apply (co_ids _ _ C)|]. by apply (fmap_sublist cid).
  - pose proof (co_fresh _ _ C) as Hf. rewrite Forall_forall in *. intros x Hx. apply Hf.
    by eapply elem_of_sublist.
  - eapply sublist_NoDup; [apply (co_keys _ _ C)|]. by apply (fmap_sublist ckey).
  - etrans; [by apply sublist_length|]. apply (co_len _ _ C).
  - apply (co_max _ _ C).
Qed.

End ok.
End LruOk.

(** The container provides the interface. *)
#[global] Instance string_lru_map (V : Type) : RecencyMap V (Lru.StringLruMap V) := {
  rm_new := Lru.make;
  rm_find := Lru.find;
  rm_store := Lru.store;
  rm_get_or_create := Lru.get_or_create;
  rm_erase := Lru.erase;
  rm_put := Lru.insert_or_assign;
  rm_erase_if := Lru.erase_if;
  rm_size := Lru.size_;
  rm_models := LruOk.models;
  rm_new_ok := LruOk.make_ok;
  rm_find_ok := LruOk.find_ok;
  rm_store_ok := LruOk.store_ok;
  rm_get_or_create_ok := LruOk.get_or_create_ok;
  rm_erase_ok := LruOk.erase_ok;
  rm_put_ok := LruOk.insert_or_assign_ok;
  rm_erase_if_ok := LruOk.erase_if_ok;
  rm_size_ok := LruOk.size_ok;
  rm_bound := LruOk.bound_ok
}.

Module LruProps.
Import LruRun LruOk.
Section props.
Context {V : Type}.

Lemma call_refines (t : Lru.StringLruMap V) m l c :
  models t m l ->
  exists t', call t c = Some (t', (spec_call m l c).2) /\ models t' m (spec_call m l c).1.
Proof.
  intros M. destruct c as [k w|k v|k| |k v| |pred|]; simpl.
  - destruct (find_ok t m l k M) as (t1 & -> & M1). cbn [mbind option_bind].
    destruct (Recency.lookup_ k l) as [v|] eqn:E; [|by exists t1].
    destruct w as [v'|]; [|by exists t1].
    destruct (store_ok t1 m _ k v' M1) as (t2 & -> & M2); [|by exists t2]. by rewrite RecencyFacts.lookup_touch, E.
  - destruct (get_or_create_ok t m l k v M) as (t1 & -> & M1).
    destruct (Recency.get_or_make m k v l) as [l1 r]. by exists t1.
  - destruct (erase_ok t m l k M) as (t1 & -> & M1). by exists t1.
  - exists (Lru.clear t). split; [done|]. by eapply clear_ok.
  - destruct (insert_or_assign_ok t m l k v M) as (t1 & -> & M1). by exists t1.
  - destruct (evict_lru_ok t m l M) as (t1 & -> & M1). by exists t1.
  - destruct (erase_if_ok t m l pred M) as (t1 & -> & M1). by exists t1.
  - exists t. by rewrite (size_ok t m l M).
Qed.

Lemma calls_refine cs (t : Lru.StringLruMap V) m l :
  models t m l ->
  exists t', calls t cs = Some (t', (spec_calls m l cs).2) /\ models t' m (spec_calls m l cs).1.
Proof.
  revert t l. induction cs as [|c cs IH]; intros t l M; simpl; [by exists t|].
  destruct (call_refines t m l c M) as (t1 & -> & M1). cbn [mbind option_bind].
  destruct (spec_call m l c) as [l1 a]. destruct (IH t1 l1 M1) as (t2 & -> & M2). cbn [mbind option_bind].
  destruct (spec_calls m l1 cs) as [l2 rest]. by exists t2.
Qed.

(** C19: the LRU map is the list of its entries in the order of last use. Any
    sequence of calls on a new map runs without following a dangling iterator,
    and gives, call by call, the answers of the abstract map, which moves a
    used entry to the end and makes room by dropping the first one; the list
    and the hash table agree at the end, the map holds at most
    [max(max_entries, 1)] entries, and no key twice. *)
Theorem lru_map_refines max_entries (cs : list (lru_call V)) :
  let m := Nat.max max_entries 1 in
  let l := (spec_calls m [] cs).1 in
  exists t, calls (Lru.make max_entries) cs = Some (t, (spec_calls m [] cs).2) /\
    map snd (Lru.order_ t) = l.*1 /\
    (forall k, Lru.value <$> Lru.map_ t !! k = Recency.lookup_ k l) /\
    NoDup l.*1 /\ Lru.size_ t = length l /\ (length l <= m)%nat.
Proof.
  intros m l. destruct (calls_refine cs _ _ _ (make_ok max_entries)) as (t & E & M).
  exists t. split; [done|]. pose proof (bound_ok _ _ _ M) as (Hn & Hl & _). pose proof (size_ok _ _ _ M) as Hs.
  destruct M as (cells & C & _ & Hcs). unfold l, m. split; [|split; [|done]].
  - rewrite Hcs, fst_pairs, (co_order _ _ C), map_map. done.
  - intros k. rewrite Hcs. destruct (cells_lookup t cells k C) as [[-> Hk]|(cs1 & c & cs2 & -> & -> & ->)].
    + by rewrite lookup_absent.
    + rewrite lookup_here; [done|]. by destruct (around ckey _ _ _ (co_keys _ _ C)).
Qed.

End props.
End LruProps.
