(* ===== verification/Cidr.v ===== *)
(** * IP addresses, CIDR blocks and the address filter

    [src/src/utils.cxx] (the address section) and
    [src/src/net/ip_filter.cxx]. Addresses are the 16 bytes of an [in6_addr];
    the C library's [inet_pton] and [inet_ntop] are parameters. The theorems
    show that a parsed block contains exactly the addresses that agree with its
    address on the prefix, bit by bit, and what the filter lets through. *)

From Stdlib Require Import ZArith Lia Strings.Byte String.
From stdpp Require Import base tactics option numbers list.
From S2P Require Import Prelude.

Inductive family := AF_INET | AF_INET6.

Record IpCidr := mkCidr { network : bytes; prefix : Z }.

Module Ip.

Definition INET6_ADDRSTRLEN : nat := 46.

(** The C string that starts at [s]. *)
Fixpoint c_str (s : bytes) : bytes :=
  match s with
  | [] => []
  | c :: s => if c =b x00 then [] else c :: c_str s
  end.

Section ip.
(** [::inet_pton], [Some] of the network-order bytes when it returns 1, and
    [::inet_ntop], the text when it does not return null. *)
Context (inet_pton : family -> bytes -> option bytes).
Context (inet_ntop : family -> bytes -> option bytes).

Definition try_pton (af : family) (s : bytes) : option bytes :=
  if (INET6_ADDRSTRLEN <=? length s)%nat then None else inet_pton af (c_str s).

Definition ntop (af : family) (a : bytes) : bytes :=
  match inet_ntop af a with Some s => c_str s | None => [] end.

Definition ipv4_mapped (v4 : bytes) : bytes := replicate 10 x00 ++ [xff; xff] ++ v4.

(** [addr.s6_addr[full] &= 0xFF << (8 - rem)], then zeros to the end. *)
Definition prefix_mask (rem : Z) : Z := u8 (Z.shiftl 0xff (8 - rem)).

Definition apply_prefix (addr : bytes) (prefix : Z) : bytes :=
  let full := Z.to_nat (prefix / 8) in
  let rem := prefix mod 8 in
  let addr :=
    if 0 <? rem then
      match addr !! full with
      | Some b => <[full := byte_of_Z (Z.land (byteZ b) (prefix_mask rem))]> addr
      | None => addr
      end
    else addr in
  let from := (full + if (0 <? rem)%Z then 1 else 0)%nat in
  take from addr ++ replicate (16 - from) x00.

Definition strip_ip_decorators (s : bytes) : bytes :=
  let s := match find_byte x25 s with Some z => take z s | None => s end in
  if ((2 <=? length s)%nat && bool_decide (head s = Some x5b) && bool_decide (last s = Some x5d))%bool
  then take (length s - 2) (drop 1 s) else s.

Definition parse_ip (s : bytes) : option bytes :=
  let s := strip_ip_decorators s in
  match try_pton AF_INET s with
  | Some v4 => Some (ipv4_mapped v4)
  | None => try_pton AF_INET6 s
  end.

(** [IN6_IS_ADDR_V4MAPPED]. *)
Definition is_v4mapped (ip : bytes) : bool := bytes_eqb (take 12 ip) (replicate 10 x00 ++ [xff; xff]).

Definition ip_to_string (ip : bytes) : bytes :=
  if is_v4mapped ip then ntop AF_INET (drop 12 ip) else ntop AF_INET6 ip.

Definition parse_cidr (s : bytes) : option IpCidr :=
  let slash := find_byte x2f s in
  let ip_stripped := strip_ip_decorators (match slash with None => s | Some p => take p s end) in
  let v4 := try_pton AF_INET ip_stripped in
  let v6 := match v4 with Some _ => None | None => try_pton AF_INET6 ip_stripped end in
  match v4, v6 with
  | None, None => None
  | _, _ =>
      let max_prefix := match v4 with Some _ => 32 | None => 128 end in
      prefix ←
        match slash with
        | None => Some max_prefix
        | Some p =>
            let pfx_sv := drop (p + 1) s in
            match pfx_sv with
            | [] => None
            | _ =>
                match from_chars_unsigned (2 ^ 32 - 1) pfx_sv with
                | FcOk n len =>
                    if negb (len =? length pfx_sv)%nat then None
                    else if max_prefix <? n then None
                    else Some n
                | _ => None
                end
            end
        end;
      let net := match v4, v6 with Some a, _ => ipv4_mapped a | _, Some a => a | _, _ => [] end in
      let final_prefix := match v4 with Some _ => 96 + prefix | None => prefix end in
      Some (mkCidr (apply_prefix net final_prefix) (u8 final_prefix))
  end.

(** The loop over the whole bytes, then the bits of the last one; an index past
    the 16 bytes is never reached with a prefix of at most 128. *)
Fixpoint match_full (n : nat) (ip net : bytes) : bool :=
  match n, ip, net with
  | O, _, _ => true
  | S n, a :: ip, b :: net => if negb (a =b b) then false else match_full n ip net
  | _, _, _ => false
  end.

Definition cidr_match (cidr : IpCidr) (ip : bytes) : bool :=
  let full := Z.to_nat (prefix cidr / 8) in
  let rem := prefix cidr mod 8 in
  if negb (match_full full ip (network cidr)) then false
  else if 0 <? rem then
    match ip !! full, network cidr !! full with
    | Some a, Some b => Z.land (byteZ a) (prefix_mask rem) =? byteZ b
    | _, _ => false
    end
  else true.

Definition parse_cidr_list (cidr_strings : list bytes) : list IpCidr := omap parse_cidr cidr_strings.

(** [ip_filter_middleware]. *)
Inductive IpFilterMode := allowlist | blocklist.

Inductive verdict := Next | Forbidden.

Definition ip_filter_middleware (mode : IpFilterMode) (cidrs : list bytes) (remote_addr : bytes) : verdict :=
  let parsed := parse_cidr_list cidrs in
  let ip := match parse_ip remote_addr with Some a => a | None => replicate 16 x00 end in
  let matched := existsb (fun c => cidr_match c ip) parsed in
  match mode with
  | allowlist => if matched then Next else Forbidden
  | blocklist => if matched then Forbidden else Next
  end.

End ip.
End Ip.

(** ** Prefixes, bit by bit *)

Module IpOk.
Import Ip.

(** The bits of a byte and of an address, the most significant one first. *)
Definition byte_bits (b : byte) : list bool := map (fun i => Z.testbit (byteZ b) (7 - Z.of_nat i)) (seq 0 8).

Definition bits (a : bytes) : list bool := concat (map byte_bits a).

(** Two addresses agree on the first [n] bits. *)
Definition agree (n : nat) (a b : bytes) : Prop := take n (bits a) = take n (bits b).

#[global] Instance agree_dec n a b : Decision (agree n a b).
Proof. unfold agree. apply _. Defined.

(** The value of a byte whose bits are given. *)
Definition bits_value (bs : list bool) : Z := fold_left (fun acc b => 2 * acc + Z.b2z b) bs 0.

(** Masking keeps the first [r] bits and clears the others. *)
Lemma mask_bits b r :
  (1 <= r <= 7)%nat ->
  Z.land (byteZ b) (prefix_mask (Z.of_nat r)) = bits_value (take r (byte_bits b) ++ replicate (8 - r) false).
Proof.
  intros Hr.
  assert (forall b, forallb (fun r => Z.land (byteZ b) (prefix_mask (Z.of_nat r)) =?
    bits_value (take r (byte_bits b) ++ replicate (8 - r) false)) (seq 1 7) = true) as H.
  { intros b'. revert b'. apply forall_byte. vm_compute. reflexivity. }
  specialize (H b). rewrite forallb_forall in H. specialize (H r). rewrite in_seq in H.
  apply Z.eqb_eq, H. lia.
Qed.

Lemma bits_value_app xs ys acc :
  fold_left (fun acc b => 2 * acc + Z.b2z b) (xs ++ ys) acc =
  fold_left (fun acc b => 2 * acc + Z.b2z b) ys (fold_left (fun acc b => 2 * acc + Z.b2z b) xs acc).
Proof. apply fold_left_app. Qed.

Lemma bits_value_inj xs ys :
  length xs = length ys -> bits_value xs = bits_value ys -> xs = ys.
Proof.
  unfold bits_value. revert ys. induction xs as [|x xs IH] using rev_ind; intros ys Hl H.
  - by destruct ys.
  - destruct ys as [|y ys _] using rev_ind; [rewrite length_app in Hl; simpl in Hl; lia|].
    rewrite !length_app in Hl. rewrite !bits_value_app in H. simpl in *.
    assert (x = y /\ fold_left (fun acc b => 2 * acc + Z.b2z b) xs 0 = fold_left (fun acc b => 2 * acc + Z.b2z b) ys 0)
      as [-> E].
    { destruct x, y; simpl in H; split; lia || done. }
    f_equal. apply IH; [lia|done].
Qed.

Lemma byte_bits_length b : length (byte_bits b) = 8%nat.
Proof. done. Qed.

(** Masking again changes nothing, and two bytes with the same masked value
    have the same first bits. *)
Lemma mask_agree a b r :
  (1 <= r <= 7)%nat ->
  (Z.land (byteZ a) (prefix_mask (Z.of_nat r)) = Z.land (byteZ b) (prefix_mask (Z.of_nat r))) <->
  take r (byte_bits a) = take r (byte_bits b).
Proof.
  intros Hr. rewrite !mask_bits by done. split; [|by intros ->].
  intros H%bits_value_inj; [|by rewrite !length_app, !length_take, !byte_bits_length].
  apply (f_equal (take r)) in H. rewrite !take_app_le in H by (rewrite length_take, byte_bits_length; lia).
  by rewrite !take_take, Nat.min_id in H.
Qed.

Lemma byte_bits_inj a b : byte_bits a = byte_bits b -> a = b.
Proof.
  intros H. apply byteZ_inj.
  assert (forall b, bits_value (byte_bits b) =? byteZ b = true) as Hv by (apply forall_byte; vm_compute; reflexivity).
  pose proof (Hv a) as Ha. pose proof (Hv b) as Hb. rewrite Z.eqb_eq in Ha, Hb. congruence.
Qed.

Lemma agree_cons n a b x y : agree (8 + n) (x :: a) (y :: b) <-> x = y /\ agree n a b.
Proof.
  unfold agree, bits. cbn [map concat].
  rewrite !take_app_add' by done. split.
  - intros [H1 H2]%app_inj_1; [|done]. split; [by apply byte_bits_inj|done].
  - by intros [-> ->].
Qed.

Lemma agree_part r a b x y :
  (r <= 8)%nat -> agree r (x :: a) (y :: b) <-> take r (byte_bits x) = take r (byte_bits y).
Proof.
  intros Hr. unfold agree, bits. cbn [map concat].
  by rewrite !take_app_le by (rewrite byte_bits_length; lia).
Qed.

(** ** Matching *)

(** The reference: the address starts with the first [full] bytes and the next
    byte has the same first [rem] bits. *)
Lemma agree_split full rem a b :
  length a = length b -> (full < length a)%nat -> (rem <= 7)%nat ->
  agree (8 * full + rem) a b <->
  take full a = take full b /\
  exists x y, a !! full = Some x /\ b !! full = Some y /\ take rem (byte_bits x) = take rem (byte_bits y).
Proof.
  revert a b. induction full as [|full IH]; intros [|x a] [|y b] Hl Hf Hr; simpl in Hl, Hf; try lia.
  - rewrite Nat.mul_0_r, Nat.add_0_l, agree_part by lia. simpl. naive_solver.
  - replace (8 * S full + rem)%nat with (8 + (8 * full + rem))%nat by lia.
    rewrite agree_cons, IH by lia. simpl.
    split; [by intros (-> & -> & H)|]. by intros ([= -> ->] & H).
Qed.

Lemma agree_all a b : length a = length b -> agree (8 * length b) a b <-> a = b.
Proof.
  revert b. induction a as [|x a IH]; intros [|y b] Hl; simpl in Hl; try lia; [done|].
  replace (8 * length (y :: b))%nat with (8 + 8 * length b)%nat by (simpl; lia).
  rewrite agree_cons, IH by lia. split; [by intros [-> ->]|by intros [= -> ->]].
Qed.

Lemma match_full_take n a b :
  length a = length b -> (n <= length a)%nat -> match_full n a b = bool_decide (take n a = take n b).
Proof.
  revert a b. induction n as [|n IH]; intros [|x a] [|y b] Hl Hn; simpl in *; try done; try lia.
  destruct (byte_eqb_spec x y) as [->|Hne]; simpl.
  - rewrite IH by lia. apply bool_decide_ext. split; congruence.
  - rewrite bool_decide_false; [done|]. naive_solver.
Qed.

(** A prefix as whole bytes and a rest. *)
Lemma prefix_split p :
  0 <= p <= 128 ->
  exists full rem : nat, full = Z.to_nat (p / 8) /\ p mod 8 = Z.of_nat rem /\ (rem <= 7)%nat /\
    ((full < 16)%nat \/ full = 16%nat /\ rem = 0%nat) /\ Z.to_nat p = (8 * full + rem)%nat.
Proof.
  intros Hp. exists (Z.to_nat (p / 8)), (Z.to_nat (p mod 8)).
  pose proof (Z.mod_pos_bound p 8 ltac:(lia)). pose proof (Z.div_mod p 8 ltac:(lia)).
  pose proof (Z.div_pos p 8). split; [done|]. split; [lia|]. split; [lia|]. lia.
Qed.

Lemma apply_prefix_length a p : length a = 16%nat -> 0 <= p <= 128 -> length (apply_prefix a p) = 16%nat.
Proof.
  intros Ha Hp. destruct (prefix_split p Hp) as (full & rem & Hf & Hm & Hr & Hc & _).
  unfold apply_prefix. rewrite <- Hf, Hm. rewrite length_app, length_take, length_replicate.
  destruct (Z.ltb_spec 0 (Z.of_nat rem)) as [H|H].
  - destruct (a !! full); rewrite ?length_insert; lia.
  - lia.
Qed.

Lemma apply_prefix_take a p full :
  length a = 16%nat -> full = Z.to_nat (p / 8) -> take full (apply_prefix a p) = take full a.
Proof.
  intros Ha ->. unfold apply_prefix. set (full := Z.to_nat (p / 8)).
  destruct (0 <? p mod 8).
  - destruct (a !! full) eqn:E.
    + apply lookup_lt_Some in E. rewrite take_app_le by (rewrite length_take, length_insert; lia).
      rewrite take_take. rewrite Nat.min_l by lia. by rewrite take_insert_ge.
    + apply lookup_ge_None in E. rewrite (take_ge a full) by lia.
      rewrite (take_ge a (full + 1)) by lia. replace (16 - (full + 1))%nat with 0%nat by lia.
      simpl. rewrite app_nil_r. apply take_ge. lia.
  - rewrite Nat.add_0_r. destruct (decide (full <= 16)%nat).
    + rewrite take_app_le by (rewrite length_take; lia). by rewrite take_take, Nat.min_id.
    + replace (16 - full)%nat with 0%nat by lia. by rewrite app_nil_r, take_take, Nat.min_id.
Qed.

Lemma apply_prefix_at a p full rem x :
  length a = 16%nat -> full = Z.to_nat (p / 8) -> p mod 8 = Z.of_nat rem -> (1 <= rem <= 7)%nat ->
  a !! full = Some x ->
  exists y, apply_prefix a p !! full = Some y /\ byteZ y = Z.land (byteZ x) (prefix_mask (Z.of_nat rem)).
Proof.
  intros Ha Hf Hm Hr Hx. pose proof (lookup_lt_Some _ _ _ Hx) as Hlt.
  exists (byte_of_Z (Z.land (byteZ x) (prefix_mask (Z.of_nat rem)))). split.
  - unfold apply_prefix. rewrite <- Hf, Hm. destruct (Z.ltb_spec 0 (Z.of_nat rem)); [|lia]. rewrite Hx.
    rewrite lookup_app_l by (rewrite length_take, length_insert; lia).
    rewrite lookup_take_lt by lia. by apply list_lookup_insert_eq.
  - rewrite byteZ_byte_of_Z. apply Z.mod_small. rewrite mask_bits by lia.
    rewrite <- mask_bits by lia. pose proof (byteZ_range x).
    split; [apply Z.land_nonneg; lia|].
    destruct (Z.eq_dec (Z.land (byteZ x) (prefix_mask (Z.of_nat rem))) 0) as [->|Hne]; [lia|].
    assert (0 < byteZ x) by (destruct (Z.eq_dec (byteZ x) 0) as [E|]; [rewrite E in Hne; by rewrite Z.land_0_l in Hne|lia]).
    apply Z.log2_lt_pow2 with (b := 8); [pose proof (Z.land_nonneg (byteZ x) (prefix_mask (Z.of_nat rem))); lia|].
    eapply Z.le_lt_trans; [apply Z.log2_land; [lia|unfold prefix_mask, u8; apply Z.mod_pos_bound; lia]|].
    eapply Z.le_lt_trans; [apply Z.le_min_l|]. apply Z.log2_lt_pow2; lia.
Qed.

(** The masked address matches exactly the addresses that agree with it on the
    prefix. *)
Lemma cidr_match_agree a ip p :
  length a = 16%nat -> length ip = 16%nat -> 0 <= p <= 128 ->
  cidr_match (mkCidr (apply_prefix a p) p) ip = bool_decide (agree (Z.to_nat p) ip a).
Proof.
  intros Ha Hip Hp. pose proof (apply_prefix_length a p Ha Hp) as Hl.
  destruct (prefix_split p Hp) as (full & rem & Hf & Hm & Hr & Hc & ->).
  unfold cidr_match. cbn [prefix network]. rewrite <- Hf, Hm.
  rewrite match_full_take, (apply_prefix_take a p full Ha Hf) by lia.
  destruct Hc as [Hlt|[-> ->]].
  2:{ rewrite !take_ge by lia. change (0 <? Z.of_nat 0) with false. cbv iota.
      replace (8 * 16 + 0)%nat with (8 * length a)%nat by lia.
      destruct (decide (ip = a)) as [->|Hne].
      - by rewrite !bool_decide_true by done.
      - rewrite !bool_decide_false; [done| |done]. rewrite agree_all by lia. done. }
  destruct (lookup_lt_is_Some_2 ip full) as [x Hx]; [lia|].
  destruct (lookup_lt_is_Some_2 a full) as [y Hy]; [lia|].
  rewrite Hx. pose proof (agree_split full rem ip a) as Hag.
  destruct (decide (take full ip = take full a)) as [E|E].
  2:{ rewrite bool_decide_false by done. rewrite bool_decide_false; [done|]. rewrite Hag by lia. naive_solver. }
  rewrite bool_decide_true by done. cbn [negb].
  destruct (Z.ltb_spec 0 (Z.of_nat rem)) as [H0|H0].
  - destruct (apply_prefix_at a p full rem y) as (z & -> & ->); try done; try lia.
    destruct (Z.eqb_spec (Z.land (byteZ x) (prefix_mask (Z.of_nat rem))) (Z.land (byteZ y) (prefix_mask (Z.of_nat rem)))) as [Em|Em].
    + rewrite bool_decide_true; [done|]. rewrite Hag by lia. split; [done|]. exists x, y.
      split; [done|]. split; [done|]. apply mask_agree; [lia|done].
    + rewrite bool_decide_false; [done|]. rewrite Hag by lia. intros (_ & x' & y' & Hx' & Hy' & Hb).
      rewrite Hx in Hx'. rewrite Hy in Hy'. simplify_eq. apply Em, mask_agree; [lia|done].
  - rewrite bool_decide_true; [done|]. rewrite Hag by lia. split; [done|]. exists x, y.
    replace rem with 0%nat by lia. done.
Qed.

End IpOk.

(** ** The theorems *)

Module CidrProps.
Import Ip IpOk.
Section props.
Context (inet_pton : family -> bytes -> option bytes).

(** The size of an [in_addr] and of an [in6_addr]. *)
Definition family_size (af : family) : nat := match af with AF_INET => 4 | AF_INET6 => 16 end.

Definition pton_sized : Prop := forall af s a, inet_pton af s = Some a -> length a = family_size af.

(** What a block's text says: an address and a number of leading bits. *)
Definition address_text (s : bytes) : bytes := match find_byte x2f s with Some p => take p s | None => s end.

Definition prefix_text (s : bytes) : option bytes := (fun p => drop (p + 1) s) <$> find_byte x2f s.

Definition max_prefix (text : bytes) : Z :=
  match try_pton inet_pton AF_INET (strip_ip_decorators text) with Some _ => 32 | None => 128 end.

Definition block (s : bytes) : option (bytes * Z) :=
  match parse_ip inet_pton (address_text s) with
  | None => None
  | Some a =>
      let m := max_prefix (address_text s) in
      match prefix_text s with
      | None => Some (a, 128)
      | Some t =>
          if (negb (bool_decide (t = [])) && forallb is_digit t && (dec_value t <=? m))%bool
          then Some (a, 128 - m + dec_value t) else None
      end
  end.

(** An address is in a block. *)
Definition in_block (ip : bytes) (s : bytes) : Prop :=
  exists a n, block s = Some (a, n) /\ agree (Z.to_nat n) ip a.

Context (Hsize : pton_sized).

Lemma try_pton_size af s a : try_pton inet_pton af s = Some a -> length a = family_size af.
Proof. unfold try_pton. case_match; [done|]. apply Hsize. Qed.

Lemma parse_ip_size s a : parse_ip inet_pton s = Some a -> length a = 16%nat.
Proof.
  unfold parse_ip. destruct (try_pton inet_pton AF_INET (strip_ip_decorators s)) as [v|] eqn:E.
  - intros [= <-]. apply try_pton_size in E. unfold ipv4_mapped. rewrite !length_app, E. done.
  - apply try_pton_size.
Qed.

Lemma block_range s a n : block s = Some (a, n) -> length a = 16%nat /\ 0 <= n <= 128.
Proof.
  unfold block. destruct (parse_ip inet_pton (address_text s)) as [a'|] eqn:E; [|done].
  apply parse_ip_size in E. destruct (prefix_text s) as [t|]; [|by intros [= <- <-]; split; [|lia]].
  destruct (bool_decide (t = [])); [done|]. cbn [negb andb].
  destruct (forallb is_digit t) eqn:Hd; [|done]. cbn [andb].
  destruct (Z.leb_spec (dec_value t) (max_prefix (address_text s))) as [Hm|]; [|done].
  intros [= <- <-]. split; [done|].
  assert (0 <= dec_value t).
  { apply dec_value_nonneg. rewrite forallb_forall in Hd. apply Forall_forall. intros x Hx.
    apply Hd. by apply list_elem_of_In. }
  unfold max_prefix in *. case_match; lia.
Qed.

Lemma read_prefix m t :
  m <= 2 ^ 32 - 1 ->
  match t with
  | [] => None
  | _ =>
      match from_chars_unsigned (2 ^ 32 - 1) t with
      | FcOk n len =>
          if negb (len =? length t)%nat then None else if m <? n then None else Some n
      | _ => None
      end
  end = if (negb (bool_decide (t = [])) && forallb is_digit t && (dec_value t <=? m))%bool
        then Some (dec_value t) else None.
Proof.
  intros Hm. pose proof (from_chars_whole (2 ^ 32 - 1) t) as Hw.
  destruct t as [|c t]; [done|]. set (v := c :: t) in *. rewrite bool_decide_false in * by done.
  destruct (from_chars_unsigned (2 ^ 32 - 1) v) as [n len| |]; [destruct (len =? length v)%nat|..];
    cbn [negb andb] in *; destruct (forallb is_digit v); cbn [andb] in *; try done;
    destruct (Z.leb_spec (dec_value v) (2 ^ 32 - 1)), (Z.leb_spec (dec_value v) m); simplify_eq; try done; try lia;
    destruct (Z.ltb_spec m (dec_value v)); try done; lia.
Qed.

Lemma parse_cidr_spec s :
  parse_cidr inet_pton s = (fun '(a, n) => mkCidr (apply_prefix a n) n) <$> block s /\
  forall a n ip, block s = Some (a, n) -> length ip = 16%nat ->
    cidr_match (mkCidr (apply_prefix a n) n) ip = bool_decide (agree (Z.to_nat n) ip a).
Proof.
  split; [|intros a n ip [Ha Hn]%block_range Hip; by apply cidr_match_agree].
  pose proof (block_range s) as Hr. unfold parse_cidr, block, parse_ip, address_text, prefix_text, max_prefix in *.
  set (text := strip_ip_decorators _) in *.
  destruct (find_byte x2f s) as [p|]; cbn [fmap option_fmap option_map] in *.
  - destruct (try_pton inet_pton AF_INET text) as [v4|].
    + rewrite read_prefix by lia. case_match; [|done]. destruct (Hr _ _ eq_refl) as [_ Hn]. cbn [mbind option_bind].
      replace (128 - 32) with 96 in * by lia. unfold u8. by rewrite Z.mod_small by lia.
    + destruct (try_pton inet_pton AF_INET6 text) as [v6|]; [|done].
      rewrite read_prefix by lia. case_match; [|done]. destruct (Hr _ _ eq_refl) as [_ Hn]. cbn [mbind option_bind].
      replace (128 - 128) with 0 in * by lia. rewrite Z.add_0_l in *. unfold u8. by rewrite Z.mod_small by lia.
  - destruct (try_pton inet_pton AF_INET text) as [v4|]; [done|].
    by destruct (try_pton inet_pton AF_INET6 text).
Qed.

Lemma matched_in_block cidrs ip :
  length ip = 16%nat ->
  existsb (fun c => cidr_match c ip) (parse_cidr_list inet_pton cidrs) = true <->
  exists s, s ∈ cidrs /\ in_block ip s.
Proof.
  intros Hip. unfold parse_cidr_list, in_block. induction cidrs as [|s cidrs IH]; cbn [omap list_omap].
  - split; [done|]. by intros (s & []%not_elem_of_nil & _).
  - destruct (parse_cidr_spec s) as [E Hm]. rewrite E.
    destruct (block s) as [[a n]|] eqn:Eb; cbn [fmap option_fmap option_map existsb].
    + rewrite (Hm a n ip eq_refl Hip), orb_true_iff, bool_decide_eq_true, IH. split.
      * intros [H|(s' & Hs & H)]; [exists s; split; [apply list_elem_of_here|eauto]|].
        exists s'. split; [by apply list_elem_of_further|done].
      * intros (s' & [->|Hs]%elem_of_cons & a' & n' & Hb & Hag); [left; congruence|right; eauto 6].
    + rewrite IH. split; intros (s' & Hs & a & n & Hb & Hag); exists s'.
      * split; [by apply list_elem_of_further|eauto].
      * apply elem_of_cons in Hs as [->|Hs]; [congruence|eauto].
Qed.

(** a CIDR text is accepted exactly when it is an address, alone or followed
    by a slash and a decimal prefix of at most 32 (IPv4) or 128 (IPv6) bits, and
    the block it denotes contains exactly the addresses that agree with that
    address on the prefix, bit by bit (an IPv4 address counts as its mapped IPv6
    address, so its prefix is 96 bits longer). *)
Theorem parse_cidr_exact s :
  parse_cidr inet_pton s = (fun '(a, n) => mkCidr (apply_prefix a n) n) <$> block s /\
  forall a n ip, block s = Some (a, n) -> length ip = 16%nat ->
    cidr_match (mkCidr (apply_prefix a n) n) ip = bool_decide (agree (Z.to_nat n) ip a).
Proof. apply parse_cidr_spec. Qed.

(** the address filter decides by the listed blocks. A client whose address
    parses is let through by an allow list exactly when one of the listed blocks
    contains its address, and refused by a block list exactly then; texts that
    denote no block are ignored, and a client without a readable address is
    treated as the address [::]. *)
Theorem ip_filter_exact cidrs remote_addr :
  let ip := match parse_ip inet_pton remote_addr with Some a => a | None => replicate 16 x00 end in
  let listed := exists s, s ∈ cidrs /\ in_block ip s in
  (ip_filter_middleware inet_pton allowlist cidrs remote_addr = Next <-> listed) /\
  (ip_filter_middleware inet_pton blocklist cidrs remote_addr = Forbidden <-> listed).
Proof.
  intros ip listed.
  assert (length ip = 16%nat) as Hip.
  { unfold ip. destruct (parse_ip inet_pton remote_addr) eqn:E; [by eapply parse_ip_size|done]. }
  pose proof (matched_in_block cidrs ip Hip) as Hm. unfold ip_filter_middleware, ip in *.
  destruct (existsb _ _); naive_solver.
Qed.

End props.

(** A C library that knows four addresses. *)
Definition sample_pton (af : family) (s : bytes) : option bytes :=
  match af with
  | AF_INET =>
      if bytes_eqb s (B "10.0.0.0") then Some [x0a; x00; x00; x00]
      else if bytes_eqb s (B "10.15.2.3") then Some [x0a; x0f; x02; x03]
      else if bytes_eqb s (B "10.16.2.3") then Some [x0a; x10; x02; x03]
      else None
  | AF_INET6 => if bytes_eqb s (B "::1") then Some (replicate 15 x00 ++ [x01]) else None
  end.

Lemma sample_pton_sized : pton_sized sample_pton.
Proof. intros [|] s a; unfold sample_pton; repeat case_match; naive_solver. Qed.

Lemma parse_cidr_exact_witness :
  exists c, parse_cidr sample_pton (B "10.0.0.0/12") = Some c /\ prefix c = 108 /\
    cidr_match c (ipv4_mapped [x0a; x0f; x02; x03]) = true /\
    cidr_match c (ipv4_mapped [x0a; x10; x02; x03]) = false.
Proof.
  destruct (parse_cidr_exact sample_pton sample_pton_sized (B "10.0.0.0/12")) as [E Hm].
  eexists. split; [rewrite E; reflexivity|]. split; [reflexivity|].
  split; (rewrite Hm; [vm_compute|..]; reflexivity).
Defined.

Lemma ip_filter_exact_witness :
  ip_filter_middleware sample_pton allowlist [B "nonsense"; B "10.0.0.0/12"] (B "10.15.2.3") = Next /\
  ip_filter_middleware sample_pton blocklist [B "nonsense"; B "10.0.0.0/12"] (B "10.15.2.3") = Forbidden.
Proof.
  destruct (ip_filter_exact sample_pton sample_pton_sized [B "nonsense"; B "10.0.0.0/12"] (B "10.15.2.3")) as [H1 H2].
  assert (exists s, s ∈ [B "nonsense"; B "10.0.0.0/12"] /\
    in_block sample_pton (ipv4_mapped [x0a; x0f; x02; x03]) s) as Hl.
  { exists (B "10.0.0.0/12"). split; [by apply list_elem_of_further, list_elem_of_here|].
    exists (ipv4_mapped [x0a; x00; x00; x00]), 108. split; vm_compute; reflexivity. }
  split; [apply H1|apply H2]; exact Hl.
Defined.

End CidrProps.
