(* ===== verification/Crypto.v ===== *)
(** * Base64, SHA-1, SHA-256 and HMAC

    [src/src/crypto.cxx], the portable code. [Base64] is the two codecs, [Sha]
    the hash functions and the message authentication codes, with 32-bit words
    as [Z] and their wrap-around written out. The AES-GCM entry points only
    validate sizes and call the accelerated back end, and are not modelled.

    The theorems show that decoding inverts encoding and accepts one text per
    value, that the streaming hash, fed in any pieces, is the FIPS 180-4
    function of the concatenated message, that HMAC is the RFC 2104
    construction over it, and that the constant-time comparison is equality. *)

From Stdlib Require Import ZArith Lia Strings.Byte String.
From stdpp Require Import base tactics option numbers list.
From S2P Require Import Prelude.

Module Base64.

Definition kB64Alphabet : bytes := B "ABCDEFGHIJKLMNOPQRSTUVWXYZabcdefghijklmnopqrstuvwxyz0123456789+/".
Definition kB64UrlAlphabet : bytes := B "ABCDEFGHIJKLMNOPQRSTUVWXYZabcdefghijklmnopqrstuvwxyz0123456789-_".

(** A table of 256 signed bytes: [-1], or the position in the alphabet. *)
Definition make_b64_table (alphabet : bytes) : list Z :=
  fold_left (fun t i => match alphabet !! i with
                        | Some c => <[Z.to_nat (byteZ c) := Z.of_nat i]> t
                        | None => t
                        end) (seq 0 64) (replicate 256 (-1)).

Definition kB64Table : list Z := make_b64_table kB64Alphabet.
Definition kB64UrlTable : list Z := make_b64_table kB64UrlAlphabet.

(** [alphabet[(v >> n) & 0x3F]]. *)
Definition sym (alphabet : bytes) (v n : Z) : byte :=
  nth (Z.to_nat (Z.land (Z.shiftr v n) 0x3f)) alphabet x00.

(** Three bytes per iteration; the last one may find one or two. *)
Fixpoint b64_encode_impl (in_ : bytes) (alphabet : bytes) (padding : bool) : bytes :=
  match in_ with
  | [] => []
  | [a] =>
      let v := Z.shiftl (byteZ a) 16 in
      [sym alphabet v 18; sym alphabet v 12] ++ (if padding then [x3d; x3d] else [])
  | [a; b] =>
      let v := Z.lor (Z.shiftl (byteZ a) 16) (Z.shiftl (byteZ b) 8) in
      [sym alphabet v 18; sym alphabet v 12; sym alphabet v 6] ++ (if padding then [x3d] else [])
  | a :: b :: c :: rest =>
      let v := Z.lor (Z.lor (Z.shiftl (byteZ a) 16) (Z.shiftl (byteZ b) 8)) (byteZ c) in
      [sym alphabet v 18; sym alphabet v 12; sym alphabet v 6; sym alphabet v 0]
        ++ b64_encode_impl rest alphabet padding
  end.

(** The loop over the payload. *)
Fixpoint decode_loop (table : list Z) (payload : bytes) (bits val : Z) (out : bytes) : option (Z * Z * bytes) :=
  match payload with
  | [] => Some (bits, val, out)
  | raw :: payload =>
      let d := nth (Z.to_nat (byteZ raw)) table (-1) in
      if d <? 0 then None
      else
        let val := Z.lor (u32 (Z.shiftl val 6)) d in
        let bits := bits + 6 in
        if 8 <=? bits then
          let bits := bits - 8 in
          decode_loop table payload bits val (out ++ [byte_of_Z (Z.land (Z.shiftr val bits) 0xff)])
        else decode_loop table payload bits val out
  end.

(** [return {}] is the empty string. *)
Definition b64_decode_impl (encoded : bytes) (table : list Z) : bytes :=
  if (length encoded mod 4 =? 1)%nat then []
  else
    let pad_pos := find_byte x3d encoded in
    let payload_size := match pad_pos with None => length encoded | Some p => p end in
    let pad_ok :=
      match pad_pos with
      | None => true
      | Some p =>
          let padding := (length encoded - p)%nat in
          if ((2 <? padding)%nat || negb (length encoded mod 4 =? 0)%nat)%bool then false
          else forallb (fun c => c =b x3d) (drop p encoded)
      end in
    if negb pad_ok then []
    else if (payload_size mod 4 =? 1)%nat then []
    else
      match decode_loop table (take payload_size encoded) 0 0 [] with
      | None => []
      | Some (bits, val, out) =>
          if ((0 <? bits) && negb (Z.land val (Z.shiftl 1 bits - 1) =? 0))%bool then [] else out
      end.

Definition base64_encode (in_ : bytes) : bytes := b64_encode_impl in_ kB64Alphabet true.
Definition base64_decode (encoded : bytes) : bytes := b64_decode_impl encoded kB64Table.
Definition base64url_encode (in_ : bytes) : bytes := b64_encode_impl in_ kB64UrlAlphabet false.
Definition base64url_decode (encoded : bytes) : bytes := b64_decode_impl encoded kB64UrlTable.

End Base64.

Module Sha.

Definition not32 (x : Z) : Z := Z.lxor x (2 ^ 32 - 1).

Definition rotr32 (v n : Z) : Z := Z.lor (Z.shiftr v n) (u32 (Z.shiftl v (32 - n))).

Definition be32 (b0 b1 b2 b3 : byte) : Z :=
  Z.lor (Z.lor (Z.lor (Z.shiftl (byteZ b0) 24) (Z.shiftl (byteZ b1) 16)) (Z.shiftl (byteZ b2) 8)) (byteZ b3).

(** The words of a block, big-endian. *)
Fixpoint words (block : bytes) : list Z :=
  match block with
  | b0 :: b1 :: b2 :: b3 :: rest => be32 b0 b1 b2 b3 :: words rest
  | _ => []
  end.

(** The round constants. The source has them as a table of 64 words; here they
    are computed from their definition in FIPS 180-4, the first 32 bits of the
    fractional parts of the cube roots of the first 64 primes. *)
Definition is_prime (n : nat) : bool := forallb (fun d => negb (n mod d =? 0)%nat) (seq 2 (n - 2)).

Definition primes64 : list nat := List.filter is_prime (seq 2 310).

(** The integer cube root, from the bit [b - 1] down. *)
Fixpoint cube_root (b : nat) (r n : Z) : Z :=
  match b with
  | O => r
  | S b => let r' := r + 2 ^ Z.of_nat b in cube_root b (if r' ^ 3 <=? n then r' else r) n
  end.

Definition K256 : list Z :=
  Eval vm_compute in map (fun p => u32 (cube_root 36 0 (Z.of_nat p * 2 ^ 96))) primes64.

(** [w[i]] for [i] from 16 on; [w] holds the entries below [i]. *)
Fixpoint expand256 (n : nat) (w : list Z) : list Z :=
  match n with
  | O => w
  | S n =>
      let i := length w in
      let s0 := Z.lxor (Z.lxor (rotr32 (w !!! (i - 15)%nat) 7) (rotr32 (w !!! (i - 15)%nat) 18)) (Z.shiftr (w !!! (i - 15)%nat) 3) in
      let s1 := Z.lxor (Z.lxor (rotr32 (w !!! (i - 2)%nat) 17) (rotr32 (w !!! (i - 2)%nat) 19)) (Z.shiftr (w !!! (i - 2)%nat) 10) in
      expand256 n (w ++ [u32 (w !!! (i - 16)%nat + s0 + w !!! (i - 7)%nat + s1)])
  end.

(** The eight working variables. *)
Record regs := mkRegs { ra : Z; rb : Z; rc : Z; rd : Z; re : Z; rf : Z; rg : Z; rh : Z }.

Definition round256 (r : regs) (kw : Z * Z) : regs :=
  let '(mkRegs a b c d e f g hh) := r in
  let ch := Z.lxor (Z.land e f) (Z.land (not32 e) g) in
  let maj := Z.lxor (Z.lxor (Z.land a b) (Z.land a c)) (Z.land b c) in
  let s1 := Z.lxor (Z.lxor (rotr32 e 6) (rotr32 e 11)) (rotr32 e 25) in
  let s0 := Z.lxor (Z.lxor (rotr32 a 2) (rotr32 a 13)) (rotr32 a 22) in
  let t1 := u32 (hh + s1 + ch + fst kw + snd kw) in
  let t2 := u32 (s0 + maj) in
  mkRegs (u32 (t1 + t2)) a b c (u32 (d + t1)) e f g.

Definition sha256_compress (h : regs) (block : bytes) : regs :=
  let w := expand256 48 (words block) in
  let '(mkRegs a b c d e f g hh) := fold_left round256 (zip K256 w) h in
  mkRegs (u32 (ra h + a)) (u32 (rb h + b)) (u32 (rc h + c)) (u32 (rd h + d))
         (u32 (re h + e)) (u32 (rf h + f)) (u32 (rg h + g)) (u32 (rh h + hh)).

Record Sha256State := mkState { h_ : regs; pending : bytes; bytes_ : Z; pending_size : nat }.

Definition sha256_iv : regs :=
  mkRegs 0x6a09e667 0xbb67ae85 0x3c6ef372 0xa54ff53a 0x510e527f 0x9b05688c 0x1f83d9ab 0x5be0cd19.

Definition sha256_init : Sha256State := mkState sha256_iv (replicate 64 x00) 0 0.

(** [std::ranges::copy(src, buf.begin() + off)]. *)
Definition copy_to (buf : bytes) (off : nat) (src : bytes) : bytes :=
  take off buf ++ src ++ drop (off + length src) buf.

(** The [while] loop: whole blocks straight from the message. *)
Fixpoint compress_loop (fuel : nat) (h : regs) (msg : bytes) : option (regs * bytes) :=
  if (64 <=? length msg)%nat then
    match fuel with
    | O => None
    | S fuel => compress_loop fuel (sha256_compress h (take 64 msg)) (drop 64 msg)
    end
  else Some (h, msg).

Definition sha256_update (state : Sha256State) (msg : bytes) : option Sha256State :=
  let total := u64 (bytes_ state + Z.of_nat (length msg)) in
  let '(h, pend, psize, rest) :=
    if negb (pending_size state =? 0)%nat then
      let n := Nat.min (length msg) (64 - pending_size state) in
      let pend := copy_to (pending state) (pending_size state) (take n msg) in
      let psize := (pending_size state + n)%nat in
      if (psize =? 64)%nat then (sha256_compress (h_ state) pend, pend, 0%nat, drop n msg)
      else (h_ state, pend, psize, drop n msg)
    else (h_ state, pending state, pending_size state, msg) in
  '(h, rest) ← compress_loop (length rest / 64) h rest;
  match rest with
  | [] => Some (mkState h pend total psize)
  | _ => Some (mkState h (copy_to pend 0 rest) total (length rest))
  end.

(** The 64-bit length, big-endian. *)
Definition be64 (n : Z) : bytes :=
  map (fun i => byte_of_Z (Z.land (Z.shiftr n (56 - Z.of_nat i * 8)) 0xff)) (seq 0 8).

Definition word_bytes (w : Z) : bytes :=
  map (fun i => byte_of_Z (Z.land (Z.shiftr w (24 - Z.of_nat i * 8)) 0xff)) (seq 0 4).

Definition regs_bytes (r : regs) : bytes :=
  word_bytes (ra r) ++ word_bytes (rb r) ++ word_bytes (rc r) ++ word_bytes (rd r) ++
  word_bytes (re r) ++ word_bytes (rf r) ++ word_bytes (rg r) ++ word_bytes (rh r).

Definition sha256_final (state : Sha256State) : bytes :=
  let bit_len := u64 (bytes_ state * 8) in
  let pend := <[pending_size state := x80]> (pending state) in
  let psize := S (pending_size state) in
  let '(h, pend, psize) :=
    if (56 <? psize)%nat then
      let pend := copy_to pend psize (replicate (64 - psize) x00) in
      (sha256_compress (h_ state) pend, pend, 0%nat)
    else (h_ state, pend, psize) in
  let pend := copy_to pend psize (replicate (56 - psize) x00) in
  let pend := copy_to pend 56 (be64 bit_len) in
  regs_bytes (sha256_compress h pend).

Definition sha256_noalloc (msg : bytes) : option bytes :=
  state ← sha256_update sha256_init msg;
  Some (sha256_final state).

Definition sha256 (msg : bytes) : option bytes := sha256_noalloc msg.

(** [out.inner] and [out.outer] of the padded key. *)
Record HmacSha256Key := mkHmac { inner : bytes; outer : bytes }.

Definition xor_pad (kpad : bytes) (m : Z) : bytes := map (fun k => byte_of_Z (Z.lxor (byteZ k) m)) kpad.

Definition hmac_sha256_key (key : bytes) : option HmacSha256Key :=
  kpad ←
    (if (64 <? length key)%nat then
       hashed ← sha256_noalloc key;
       Some (copy_to (replicate 64 x00) 0 hashed)
     else Some (copy_to (replicate 64 x00) 0 key));
  Some (mkHmac (xor_pad kpad 0x36) (xor_pad kpad 0x5c)).

Definition hmac_sha256_precomputed (key : HmacSha256Key) (a b : bytes) : option bytes :=
  s ← sha256_update sha256_init (inner key);
  s ← sha256_update s a;
  s ← sha256_update s b;
  let inner_digest := sha256_final s in
  o ← sha256_update sha256_init (outer key);
  o ← sha256_update o inner_digest;
  Some (sha256_final o).

Definition hmac_sha256 (key msg : bytes) : option bytes :=
  k ← hmac_sha256_key key;
  hmac_sha256_precomputed k msg [].

Definition make_sha_padded (msg : bytes) : bytes :=
  let with_marker := (length msg + 1)%nat in
  let zero_pad := ((56 + 64 - with_marker mod 64) mod 64)%nat in
  let bit_len := u64 (Z.of_nat (length msg) * 8) in
  msg ++ [x80] ++ replicate zero_pad x00 ++ be64 bit_len.

(** [sha1]. *)
Definition rot32 (v n : Z) : Z := Z.lor (u32 (Z.shiftl v n)) (Z.shiftr v (32 - n)).

Fixpoint expand1 (n : nat) (w : list Z) : list Z :=
  match n with
  | O => w
  | S n =>
      let i := length w in
      expand1 n (w ++ [rot32 (Z.lxor (Z.lxor (Z.lxor (w !!! (i - 3)%nat) (w !!! (i - 8)%nat)) (w !!! (i - 14)%nat))
                                     (w !!! (i - 16)%nat)) 1])
  end.

Record regs1 := mkRegs1 { r1a : Z; r1b : Z; r1c : Z; r1d : Z; r1e : Z }.

Definition round1 (r : regs1) (iw : nat * Z) : regs1 :=
  let '(mkRegs1 a b c d e) := r in
  let i := fst iw in
  let '(f, k) :=
    if (i <? 20)%nat then (Z.lor (Z.land b c) (Z.land (not32 b) d), 0x5A827999)
    else if (i <? 40)%nat then (Z.lxor (Z.lxor b c) d, 0x6ED9EBA1)
    else if (i <? 60)%nat then (Z.lor (Z.lor (Z.land b c) (Z.land b d)) (Z.land c d), 0x8F1BBCDC)
    else (Z.lxor (Z.lxor b c) d, 0xCA62C1D6) in
  let tmp := u32 (rot32 a 5 + f + e + k + snd iw) in
  mkRegs1 tmp a (rot32 b 30) c d.

Definition compress1 (h : regs1) (block : bytes) : regs1 :=
  let w := expand1 64 (words block) in
  let '(mkRegs1 a b c d e) := fold_left round1 (zip (seq 0 80) w) h in
  mkRegs1 (u32 (r1a h + a)) (u32 (r1b h + b)) (u32 (r1c h + c)) (u32 (r1d h + d)) (u32 (r1e h + e)).

(** The loop over the 64-byte blocks of the padded message. *)
Fixpoint blocks (n : nat) (padded : bytes) : list bytes :=
  match n with
  | O => []
  | S n => take 64 padded :: blocks n (drop 64 padded)
  end.

Definition sha1 (msg : bytes) : bytes :=
  let padded := make_sha_padded msg in
  let h := fold_left compress1 (blocks (length padded / 64) padded)
             (mkRegs1 0x67452301 0xEFCDAB89 0x98BADCFE 0x10325476 0xC3D2E1F0) in
  word_bytes (r1a h) ++ word_bytes (r1b h) ++ word_bytes (r1c h) ++ word_bytes (r1d h) ++ word_bytes (r1e h).

Definition hmac_sha1 (key msg : bytes) : bytes :=
  let k_pad := copy_to (replicate 64 x00) 0 (if (64 <? length key)%nat then sha1 key else key) in
  let inner := sha1 (xor_pad k_pad 0x36 ++ msg) in
  sha1 (xor_pad k_pad 0x5c ++ inner).

(** [constant_time_eq], the portable loop. *)
Fixpoint diff_acc (a b : bytes) (acc : Z) : Z :=
  match a, b with
  | x :: a, y :: b => diff_acc a b (u8 (Z.lor acc (Z.lxor (byteZ x) (byteZ y))))
  | _, _ => acc
  end.

Definition constant_time_eq (a b : bytes) : bool :=
  if negb (length a =? length b)%nat then false else diff_acc a b 0 =? 0.

End Sha.

(** Known answers (FIPS 180-4, RFC 4648, RFC 2202), computed. *)
Example sha256_abc :
  Sha.sha256 (B "abc") = Some (map byte_of_Z
    [0xba;0x78;0x16;0xbf;0x8f;0x01;0xcf;0xea;0x41;0x41;0x40;0xde;0x5d;0xae;0x22;0x23;
     0xb0;0x03;0x61;0xa3;0x96;0x17;0x7a;0x9c;0xb4;0x10;0xff;0x61;0xf2;0x00;0x15;0xad]).
Proof. vm_compute. reflexivity. Qed.

Example sha1_abc :
  Sha.sha1 (B "abc") = map byte_of_Z
    [0xa9;0x99;0x3e;0x36;0x47;0x06;0x81;0x6a;0xba;0x3e;0x25;0x71;0x78;0x50;0xc2;0x6c;0x9c;0xd0;0xd8;0x9d].
Proof. vm_compute. reflexivity. Qed.

Example hmac_sha1_jefe :
  Sha.hmac_sha1 (B "Jefe") (B "what do ya want for nothing?") = map byte_of_Z
    [0xef;0xfc;0xdf;0x6a;0xe5;0xeb;0x2f;0xa2;0xd2;0x74;0x16;0xd5;0xf1;0x84;0xdf;0x9c;0x25;0x9a;0x7c;0x79].
Proof. vm_compute. reflexivity. Qed.

Example base64_foobar :
  Base64.base64_encode (B "foobar") = B "Zm9vYmFy" /\ Base64.base64_encode (B "fooba") = B "Zm9vYmE=" /\
  Base64.base64_decode (B "Zm9vYg==") = B "foob".
Proof. vm_compute. auto. Qed.

(** ** The streaming hash is the hash of the whole message *)

Module ShaOk.
Import Sha.

#[local] Opaque sha256_compress be64.

(** FIPS 180-4: the compression function over the blocks of the padded
    message. *)
Definition absorb (h : regs) (n : nat) (m : bytes) : regs := fold_left sha256_compress (blocks n m) h.

Definition digest256 (m : bytes) : bytes :=
  let padded := make_sha_padded m in
  regs_bytes (absorb sha256_iv (length padded / 64) padded).

Lemma blocks_app n k a b : length a = (64 * n)%nat -> blocks (n + k) (a ++ b) = blocks n a ++ blocks k b.
Proof.
  revert a. induction n as [|n IH]; intros a Ha; simpl.
  - by destruct a.
  - rewrite take_app_le, drop_app_le by lia. rewrite IH by (rewrite length_drop; lia). done.
Qed.

Lemma absorb_app h n k a b : length a = (64 * n)%nat -> absorb h (n + k) (a ++ b) = absorb (absorb h n a) k b.
Proof. intros Ha. unfold absorb. by rewrite blocks_app, fold_left_app. Qed.

Lemma absorb_one h b : length b = 64%nat -> absorb h 1 b = sha256_compress h b.
Proof. intros Hb. unfold absorb. simpl. by rewrite take_ge by lia. Qed.

Lemma compress_loop_ok n h msg :
  (length msg / 64)%nat = n -> compress_loop n h msg = Some (absorb h n (take (64 * n) msg), drop (64 * n) msg).
Proof.
  revert h msg. induction n as [|n IH]; intros h msg Hn; cbn [compress_loop].
  - pose proof (Nat.div_mod (length msg) 64 ltac:(lia)). pose proof (Nat.mod_upper_bound (length msg) 64 ltac:(lia)).
    destruct (Nat.leb_spec 64 (length msg)); [lia|]. done.
  - pose proof (Nat.div_mod (length msg) 64 ltac:(lia)).
    destruct (Nat.leb_spec 64 (length msg)); [|rewrite Nat.div_small in Hn by lia; lia].
    rewrite IH.
    + replace (64 * S n)%nat with (64 + 64 * n)%nat by lia.
      rewrite <- take_take_drop, <- drop_drop.
      rewrite (absorb_app h 1 n) by (rewrite length_take; lia). rewrite absorb_one by (rewrite length_take; lia). done.
    + rewrite length_drop. replace (length msg) with (length msg - 64 + 1 * 64)%nat in Hn by lia.
      rewrite Nat.div_add in Hn by lia. lia.
Qed.

(** The state after the message [m]: whole blocks [q] were compressed, the rest
    [r] is pending (what follows it in the buffer is arbitrary). *)
Record rep (s : Sha256State) (m : bytes) (n : nat) (q r : bytes) : Prop := {
  rep_m : m = q ++ r;
  rep_q : length q = (64 * n)%nat;
  rep_r : (length r < 64)%nat;
  rep_h : h_ s = absorb sha256_iv n q;
  rep_size : pending_size s = length r;
  rep_len : length (pending s) = 64%nat;
  rep_take : take (length r) (pending s) = r;
  rep_bytes : bytes_ s = u64 (Z.of_nat (length m))
}.

Lemma init_rep : rep sha256_init [] 0 [] [].
Proof. split; try done; simpl; lia. Qed.

Lemma copy_to_length buf off src :
  (off + length src <= length buf)%nat -> length (copy_to buf off src) = length buf.
Proof. intros H. unfold copy_to. rewrite !length_app, length_take, length_drop. lia. Qed.

Lemma copy_to_take buf off src :
  (off + length src <= length buf)%nat -> take (off + length src) (copy_to buf off src) = take off buf ++ src.
Proof.
  intros H. unfold copy_to. rewrite (app_assoc (take off buf)).
  apply take_app_length'. rewrite length_app, length_take. lia.
Qed.

(** Whole blocks, then the rest into the buffer. *)
Lemma update_tail h0 pend total n0 q0 msg :
  length q0 = (64 * n0)%nat -> h0 = absorb sha256_iv n0 q0 -> length pend = 64%nat ->
  total = u64 (Z.of_nat (length (q0 ++ msg))) ->
  exists s n q r, ('(h, rest) ← compress_loop (length msg / 64) h0 msg;
     match rest with
     | [] => Some (mkState h pend total 0)
     | _ => Some (mkState h (copy_to pend 0 rest) total (length rest))
     end) = Some s /\ rep s (q0 ++ msg) n q r.
Proof.
  intros Hq Hh Hp Ht. set (k := (length msg / 64)%nat).
  pose proof (Nat.div_mod (length msg) 64 ltac:(lia)) as Hd.
  pose proof (Nat.mod_upper_bound (length msg) 64 ltac:(lia)) as Hb. fold k in Hd.
  rewrite (compress_loop_ok k) by done. cbn [mbind option_bind].
  assert (length (take (64 * k) msg) = 64 * k)%nat as Hk by (rewrite length_take; lia).
  assert (q0 ++ msg = (q0 ++ take (64 * k) msg) ++ drop (64 * k) msg) as Hm
    by (by rewrite <- app_assoc, take_drop).
  assert (absorb h0 k (take (64 * k) msg) = absorb sha256_iv (n0 + k) (q0 ++ take (64 * k) msg)) as Hab
    by (by rewrite absorb_app, Hh).
  destruct (drop (64 * k) msg) as [|c rest] eqn:Er; eexists _, (n0 + k)%nat, (q0 ++ take (64 * k) msg), _;
    (split; [reflexivity|]).
  - split; cbn [h_ pending bytes_ pending_size]; first [done|rewrite length_app; lia|simpl; lia].
  - apply (f_equal length) in Er as Hl. rewrite length_drop in Hl.
    split; cbn [h_ pending bytes_ pending_size]; try first [done|rewrite length_app; lia|lia].
    + rewrite copy_to_length by lia. done.
    + rewrite <- (Nat.add_0_l (length (c :: rest))). rewrite copy_to_take by lia. done.
Qed.

Lemma update_ok s m n q r msg :
  rep s m n q r -> exists s' n' q' r', sha256_update s msg = Some s' /\ rep s' (m ++ msg) n' q' r'.
Proof.
  intros [Hm Hq Hr Hh Hs Hl Ht Hb]. unfold sha256_update. rewrite Hs, Hb, u64_add_l.
  assert (Z.of_nat (length m) + Z.of_nat (length msg) = Z.of_nat (length (m ++ msg))) as ->
    by (rewrite length_app; lia).
  destruct (Nat.eqb_spec (length r) 0) as [E|E]; cbn [negb].
  { destruct r; [|done]. rewrite app_nil_r in Hm. subst m.
    by apply (update_tail (h_ s) (pending s) _ n q msg). }
  set (k := Nat.min (length msg) (64 - length r)).
  assert (length (take k msg) = k) as Hk by (rewrite length_take; lia).
  assert (take (length r + k) (copy_to (pending s) (length r) (take k msg)) = r ++ take k msg) as Hc.
  { rewrite <- Hk at 1. rewrite copy_to_take by lia. by rewrite Ht. }
  assert (length (copy_to (pending s) (length r) (take k msg)) = 64%nat) as Hcl
    by (rewrite copy_to_length by lia; done).
  destruct (Nat.eqb_spec (length r + k) 64) as [E64|E64].
  - set (pend := copy_to (pending s) (length r) (take k msg)) in *.
    rewrite take_ge in Hc by lia.
    destruct (update_tail (sha256_compress (h_ s) pend) pend (u64 (Z.of_nat (length (m ++ msg)))) (n + 1) (q ++ pend) (drop k msg))
      as (s' & n' & q' & r' & E' & R'); try done.
    + rewrite length_app. lia.
    + by rewrite absorb_app, Hh, absorb_one.
    + rewrite Hc, Hm. f_equal. f_equal. rewrite !length_app, length_drop. lia.
    + exists s', n', q', r'. split; [exact E'|].
      replace (m ++ msg) with ((q ++ pend) ++ drop k msg); [done|].
      rewrite Hc, Hm, <- !app_assoc. by rewrite take_drop.
  - assert (k = length msg) as Ek by lia. rewrite Ek in *. rewrite drop_ge by lia. cbn [length].
    change (0 / 64)%nat with 0%nat. cbn [compress_loop Nat.leb length mbind option_bind].
    eexists _, n, q, (r ++ msg). split; [reflexivity|].
    rewrite (take_ge msg) in * by lia.
    split; cbn [h_ pending bytes_ pending_size]; try done; rewrite ?length_app; try lia; [by rewrite Hm, app_assoc|done].
Qed.

Lemma be64_length n : length (be64 n) = 8%nat.
Proof. done. Qed.

Lemma copy_to_full buf off src :
  (off + length src = length buf)%nat -> copy_to buf off src = take off buf ++ src.
Proof. intros H. unfold copy_to. rewrite drop_ge by lia. by rewrite app_nil_r. Qed.

(** The last block or blocks: the pending bytes, the marker, zeros, the length. *)
Definition last_blocks (r : bytes) (len : Z) : bytes :=
  r ++ [x80] ++ replicate ((56 + 64 - (length r + 1) mod 64) mod 64) x00 ++ be64 (u64 (len * 8)).

Lemma padded_split n q r :
  length q = (64 * n)%nat -> (length r < 64)%nat ->
  make_sha_padded (q ++ r) = q ++ last_blocks r (Z.of_nat (length (q ++ r))).
Proof.
  intros Hq Hr. unfold make_sha_padded, last_blocks. rewrite length_app, Hq.
  replace ((64 * n + length r + 1) mod 64)%nat with ((length r + 1) mod 64)%nat; [by rewrite <- !app_assoc|].
  replace (64 * n + length r + 1)%nat with (length r + 1 + n * 64)%nat by lia. by rewrite Nat.Div0.mod_add.
Qed.

Lemma marker_take r pend :
  (length r < 64)%nat -> length pend = 64%nat -> take (length r) pend = r ->
  take (S (length r)) (<[length r := x80]> pend) = r ++ [x80].
Proof.
  intros Hr Hp Ht. rewrite (take_S_r _ _ x80); [|apply list_lookup_insert_eq; lia].
  rewrite take_insert_ge by lia. by rewrite Ht.
Qed.

Lemma final_one r pend h len :
  (length r < 56)%nat -> length pend = 64%nat -> take (length r) pend = r ->
  sha256_compress h (copy_to (copy_to (<[length r := x80]> pend) (S (length r)) (replicate (56 - S (length r)) x00)) 56
    (be64 (u64 (len * 8)))) = absorb h 1 (last_blocks r len) /\ length (last_blocks r len) = 64%nat.
Proof.
  intros Hr Hp Ht. unfold last_blocks.
  rewrite (Nat.mod_small (length r + 1)) by lia.
  replace ((56 + 64 - (length r + 1)) mod 64)%nat with (56 - S (length r))%nat.
  2:{ replace (56 + 64 - (length r + 1))%nat with (56 - S (length r) + 1 * 64)%nat by lia.
      rewrite Nat.Div0.mod_add, Nat.mod_small; lia. }
  assert (length (r ++ [x80] ++ replicate (56 - S (length r)) x00 ++ be64 (u64 (len * 8))) = 64)%nat as Hl
    by (rewrite !length_app, length_replicate, be64_length; simpl; lia).
  split; [|done]. rewrite absorb_one by done. f_equal.
  assert (length (copy_to (<[length r:=x80]> pend) (S (length r)) (replicate (56 - S (length r)) x00)) = 64%nat) as Hc
    by (rewrite copy_to_length by (rewrite length_replicate, length_insert; lia); by rewrite length_insert).
  rewrite copy_to_full by (rewrite be64_length; lia).
  pose proof (copy_to_take (<[length r:=x80]> pend) (S (length r)) (replicate (56 - S (length r)) x00)) as Ht2.
  rewrite length_replicate, length_insert in Ht2.
  replace (S (length r) + (56 - S (length r)))%nat with 56%nat in Ht2 by lia.
  rewrite Ht2 by lia. rewrite marker_take by (done || lia). by rewrite <- !app_assoc.
Qed.

Lemma final_two r pend h len :
  (56 <= length r < 64)%nat -> length pend = 64%nat -> take (length r) pend = r ->
  let pend1 := copy_to (<[length r := x80]> pend) (S (length r)) (replicate (64 - S (length r)) x00) in
  sha256_compress (sha256_compress h pend1)
    (copy_to (copy_to pend1 0 (replicate 56 x00)) 56 (be64 (u64 (len * 8)))) = absorb h 2 (last_blocks r len) /\
  length (last_blocks r len) = 128%nat.
Proof.
  intros Hr Hp Ht pend1. unfold last_blocks.
  replace ((56 + 64 - (length r + 1) mod 64) mod 64)%nat with (64 - S (length r) + 56)%nat.
  2:{ destruct (decide (length r = 63)%nat) as [->|]; [done|].
      rewrite (Nat.mod_small (length r + 1)) by lia. rewrite Nat.mod_small; lia. }
  assert (pend1 = r ++ [x80] ++ replicate (64 - S (length r)) x00) as E1.
  { unfold pend1. rewrite copy_to_full by (rewrite length_replicate, length_insert; lia).
    rewrite marker_take by (done || lia). by rewrite <- app_assoc. }
  assert (length pend1 = 64%nat) as Hl1 by (rewrite E1, !length_app, length_replicate; simpl; lia).
  assert (copy_to (copy_to pend1 0 (replicate 56 x00)) 56 (be64 (u64 (len * 8))) =
    replicate 56 x00 ++ be64 (u64 (len * 8))) as E2.
  { rewrite copy_to_full by (rewrite be64_length, copy_to_length by (rewrite length_replicate; lia); lia).
    done. }
  rewrite E2. rewrite replicate_add, <- !app_assoc.
  change (r ++ [x80] ++ replicate (64 - S (length r)) x00 ++ replicate 56 x00 ++ be64 (u64 (len * 8)))
    with (r ++ ([x80] ++ (replicate (64 - S (length r)) x00 ++ (replicate 56 x00 ++ be64 (u64 (len * 8)))))).
  rewrite (app_assoc [x80]), (app_assoc r), <- E1.
  split; [|rewrite !length_app, Hl1, length_replicate, be64_length; lia].
  rewrite (absorb_app h 1 1) by lia. rewrite !absorb_one; [done|done|].
  rewrite length_app, length_replicate, be64_length. lia.
Qed.

Lemma final_ok s m n q r : rep s m n q r -> sha256_final s = digest256 m.
Proof.
  intros [Hm Hq Hr Hh Hs Hl Ht Hb]. unfold sha256_final, digest256. rewrite Hs, Hb.
  assert (u64 (u64 (Z.of_nat (length m)) * 8) = u64 (Z.of_nat (length m) * 8)) as ->
    by (unfold u64; apply Zmult_mod_idemp_l).
  subst m. rewrite (padded_split n) by done. rewrite Hh. rewrite (length_app q (last_blocks r _)), Hq.
  set (len := Z.of_nat (length (q ++ r))).
  destruct (Nat.ltb_spec 56 (S (length r))) as [Hbig|Hsmall].
  - destruct (final_two r (pending s) (absorb sha256_iv n q) len) as [E El]; [lia|done|done|].
    rewrite El. replace (64 * n + 128)%nat with ((n + 2) * 64)%nat by lia. rewrite Nat.div_mul by lia.
    rewrite absorb_app by done. rewrite <- E. done.
  - destruct (final_one r (pending s) (absorb sha256_iv n q) len) as [E El]; [lia|done|done|].
    rewrite El. replace (64 * n + 64)%nat with ((n + 1) * 64)%nat by lia. rewrite Nat.div_mul by lia.
    rewrite absorb_app by done. rewrite <- E. done.
Qed.

(** Feeding pieces one after the other. *)
Fixpoint update_all (s : Sha256State) (parts : list bytes) : option Sha256State :=
  match parts with
  | [] => Some s
  | p :: parts => s ← sha256_update s p; update_all s parts
  end.

Lemma update_all_ok parts s m n q r :
  rep s m n q r -> exists s' n' q' r', update_all s parts = Some s' /\ rep s' (m ++ concat parts) n' q' r'.
Proof.
  revert s m n q r. induction parts as [|p parts IH]; intros s m n q r R; simpl.
  - exists s, n, q, r. by rewrite app_nil_r.
  - destruct (update_ok s m n q r p R) as (s1 & n1 & q1 & r1 & -> & R1). cbn [mbind option_bind].
    destruct (IH s1 _ _ _ _ R1) as (s2 & n2 & q2 & r2 & -> & R2). exists s2, n2, q2, r2.
    by rewrite app_assoc.
Qed.

Lemma sha256_digest m : sha256_noalloc m = Some (digest256 m).
Proof.
  unfold sha256_noalloc. destruct (update_ok _ _ _ _ _ m init_rep) as (s & n & q & r & -> & R).
  cbn [mbind option_bind]. by rewrite (final_ok _ _ _ _ _ R).
Qed.

Lemma digest256_length m : length (digest256 m) = 32%nat.
Proof. done. Qed.

(** RFC 2104 over SHA-256. *)
Definition hmac_ref (key msg : bytes) : bytes :=
  let k0 := if (64 <? length key)%nat then digest256 key else key in
  let kpad := k0 ++ replicate (64 - length k0) x00 in
  digest256 (xor_pad kpad 0x5c ++ digest256 (xor_pad kpad 0x36 ++ msg)).

Lemma copy_to_pad k : (length k <= 64)%nat -> copy_to (replicate 64 x00) 0 k = k ++ replicate (64 - length k) x00.
Proof. intros H. unfold copy_to. rewrite Nat.add_0_l, drop_replicate. done. Qed.

Lemma update_init parts s :
  update_all sha256_init parts = Some s -> sha256_final s = digest256 (concat parts).
Proof.
  intros E. destruct (update_all_ok parts _ _ _ _ _ init_rep) as (s' & n & q & r & E' & R).
  rewrite E in E'. injection E' as <-. by apply (final_ok _ _ _ _ _ R).
Qed.

Lemma update_all_some parts : exists s, update_all sha256_init parts = Some s.
Proof. destruct (update_all_ok parts _ _ _ _ _ init_rep) as (s & n & q & r & E & R). eauto. Qed.

Lemma precomputed_ok k a b :
  hmac_sha256_precomputed k a b = Some (digest256 (outer k ++ digest256 (inner k ++ a ++ b))).
Proof.
  destruct (update_all_some [inner k; a; b]) as [s1 E1]. pose proof (update_init _ _ E1) as D1.
  unfold hmac_sha256_precomputed. cbn [update_all] in E1.
  destruct (sha256_update sha256_init (inner k)) as [t1|]; [|done]. cbn [mbind option_bind] in *.
  destruct (sha256_update t1 a) as [t2|]; [|done]. cbn [mbind option_bind] in *.
  destruct (sha256_update t2 b) as [t3|]; [|done]. cbn [mbind option_bind] in *.
  injection E1 as ->. rewrite D1. cbn [concat]. rewrite app_nil_r.
  set (d := digest256 (inner k ++ a ++ b)).
  destruct (update_all_some [outer k; d]) as [s2 E2]. pose proof (update_init _ _ E2) as D2. cbn [update_all] in E2.
  destruct (sha256_update sha256_init (outer k)) as [u1|]; [|done]. cbn [mbind option_bind] in *.
  destruct (sha256_update u1 d) as [u2|]; [|done]. cbn [mbind option_bind] in *.
  injection E2 as ->. rewrite D2. cbn [concat]. by rewrite app_nil_r.
Qed.

Lemma hmac_sha256_eq key msg : hmac_sha256 key msg = Some (hmac_ref key msg).
Proof.
  unfold hmac_sha256, hmac_sha256_key, hmac_ref. rewrite sha256_digest. cbn [mbind option_bind].
  destruct (Nat.ltb_spec 64 (length key)) as [H|H]; cbn [mbind option_bind].
  - rewrite copy_to_pad by (rewrite digest256_length; lia). rewrite precomputed_ok. cbn [inner outer].
    by rewrite app_nil_r.
  - rewrite copy_to_pad by done. rewrite precomputed_ok. cbn [inner outer]. by rewrite app_nil_r.
Qed.

Lemma lxor_zero a b : Z.lxor (byteZ a) (byteZ b) = 0 <-> a = b.
Proof. rewrite Z.lxor_eq_0_iff. split; [apply byteZ_inj|by intros ->]. Qed.

Lemma log2_byte u : 0 <= u < 2 ^ 8 -> Z.log2 u < 8.
Proof. intros Hu. destruct (Z.eq_dec u 0) as [->|]; [done|]. apply Z.log2_lt_pow2; lia. Qed.

Lemma lor_lxor_byte u v :
  0 <= u < 2 ^ 8 -> 0 <= v < 2 ^ 8 -> 0 <= Z.lor u v < 2 ^ 8 /\ 0 <= Z.lxor u v < 2 ^ 8.
Proof.
  intros Hu Hv. pose proof (log2_byte u Hu). pose proof (log2_byte v Hv).
  split; (split; [first [apply Z.lor_nonneg|apply Z.lxor_nonneg]; lia|]).
  - destruct (Z.eq_dec (Z.lor u v) 0) as [->|Hne]; [lia|].
    apply Z.log2_lt_pow2; [pose proof (Z.lor_nonneg u v); lia|]. rewrite Z.log2_lor by lia. lia.
  - destruct (Z.eq_dec (Z.lxor u v) 0) as [->|Hne]; [lia|].
    apply Z.log2_lt_pow2; [pose proof (Z.lxor_nonneg u v); lia|].
    eapply Z.le_lt_trans; [apply Z.log2_lxor; lia|]. lia.
Qed.

Lemma diff_acc_zero a b acc :
  length a = length b -> 0 <= acc < 256 -> diff_acc a b acc = 0 <-> acc = 0 /\ a = b.
Proof.
  revert b acc. induction a as [|x a IH]; intros [|y b] acc Hl Ha; simpl in Hl; try lia; cbn [diff_acc]; [naive_solver|].
  pose proof (byteZ_range x). pose proof (byteZ_range y).
  destruct (lor_lxor_byte (byteZ x) (byteZ y)) as [_ Hx]; [lia..|].
  destruct (lor_lxor_byte acc (Z.lxor (byteZ x) (byteZ y))) as [Hr _]; [lia..|].
  unfold u8. rewrite Z.mod_small by done. rewrite IH by lia. rewrite Z.lor_eq_0_iff, lxor_zero. naive_solver.
Qed.

Lemma constant_time_eq_eq a b : constant_time_eq a b = true <-> a = b.
Proof.
  unfold constant_time_eq. destruct (Nat.eqb_spec (length a) (length b)) as [H|H]; cbn [negb].
  - rewrite Z.eqb_eq, diff_acc_zero by (done || lia). naive_solver.
  - split; [done|]. by intros ->.
Qed.
End ShaOk.

(** ** Base64 *)

Module Base64Ok.
Import Base64.

(** An alphabet and its table: 64 different symbols, none of them the padding
    sign, and every other byte marked [-1]. *)
Record good (alphabet : bytes) (table : list Z) : Prop := {
  g_sym : forall i, 0 <= i < 64 -> nth (Z.to_nat (byteZ (nth (Z.to_nat i) alphabet x00))) table (-1) = i;
  g_digit : forall c, nth (Z.to_nat (byteZ c)) table (-1) = -1 \/
    0 <= nth (Z.to_nat (byteZ c)) table (-1) < 64 /\
    nth (Z.to_nat (nth (Z.to_nat (byteZ c)) table (-1))) alphabet x00 = c;
  g_pad : nth (Z.to_nat (byteZ x3d)) table (-1) = -1
}.

Definition good_b (alphabet : bytes) (table : list Z) : bool :=
  forallb (fun i => nth (Z.to_nat (byteZ (nth i alphabet x00))) table (-1) =? Z.of_nat i) (seq 0 64) &&
  forallb (fun c => let d := nth (Z.to_nat (byteZ c)) table (-1) in
    (d =? -1) || ((0 <=? d) && (d <? 64) && (nth (Z.to_nat d) alphabet x00 =b c))) all_bytes &&
  (nth (Z.to_nat (byteZ x3d)) table (-1) =? -1).

Lemma good_b_good alphabet table : good_b alphabet table = true -> good alphabet table.
Proof.
  unfold good_b. intros [[H1 H2]%andb_true_iff H3%Z.eqb_eq]%andb_true_iff. split; [| |done].
  - intros i Hi. rewrite forallb_forall in H1. specialize (H1 (Z.to_nat i)). rewrite in_seq in H1.
    specialize (H1 ltac:(lia)). apply Z.eqb_eq in H1. lia.
  - intros c. pose proof (forall_byte _ H2 c) as Hc. simpl in Hc.
    apply orb_true_iff in Hc as [Hc%Z.eqb_eq|Hc]; [by left|right].
    apply andb_true_iff in Hc as [[? ?]%andb_true_iff Hc]. apply byte_eqb_eq in Hc. split; [lia|done].
Qed.

Lemma b64_good : good kB64Alphabet kB64Table.
Proof. apply good_b_good. vm_compute. reflexivity. Qed.

Lemma b64url_good : good kB64UrlAlphabet kB64UrlTable.
Proof. apply good_b_good. vm_compute. reflexivity. Qed.

Lemma list_ind3 {A} (P : list A -> Prop) :
  P [] -> (forall a, P [a]) -> (forall a b, P [a; b]) ->
  (forall a b c l, P l -> P (a :: b :: c :: l)) -> forall l, P l.
Proof.
  intros H0 H1 H2 H3. fix IH 1. intros [|a [|b [|c l]]]; [done|apply H1|apply H2|]. apply H3, IH.
Qed.

Lemma list_ind4 {A} (P : list A -> Prop) :
  P [] -> (forall a, P [a]) -> (forall a b, P [a; b]) -> (forall a b c, P [a; b; c]) ->
  (forall a b c d l, P l -> P (a :: b :: c :: d :: l)) -> forall l, P l.
Proof.
  intros H0 H1 H2 H3 H4. fix IH 1. intros [|a [|b [|c [|d l]]]]; [done|apply H1|apply H2|apply H3|]. apply H4, IH.
Qed.

Section codec.
Context (alphabet : bytes) (table : list Z) (G : good alphabet table).

Definition digit (c : byte) : Z := nth (Z.to_nat (byteZ c)) table (-1).

Definition sym_of (d : Z) : byte := nth (Z.to_nat d) alphabet x00.

Lemma digit_sym d : 0 <= d < 64 -> digit (sym_of d) = d.
Proof. apply (g_sym _ _ G). Qed.

Lemma sym_digit c : 0 <= digit c -> 0 <= digit c < 64 /\ sym_of (digit c) = c.
Proof. intros H. destruct (g_digit _ _ G c) as [E|E]; [unfold digit in H; lia|done]. Qed.

(** One symbol shifts six bits in; the low bits of the accumulator are what
    matters. *)
Lemma shift_in val d :
  0 <= val < 2 ^ 32 -> 0 <= d < 64 ->
  Z.lor (u32 (Z.shiftl val 6)) d = u32 (val * 64) + d /\ 0 <= u32 (val * 64) + d < 2 ^ 32.
Proof.
  intros Hv Hd. rewrite Z.shiftl_mul_pow2 by lia. change (2 ^ 6) with 64.
  assert (u32 (val * 64) = (val mod 2 ^ 26) * 64) as E.
  { unfold u32. change (2 ^ 32) with (2 ^ 26 * 64). rewrite Z.mul_mod_distr_r by lia. done. }
  rewrite E. pose proof (Z.mod_pos_bound val (2 ^ 26) ltac:(lia)).
  split; [|lia]. pose proof (lor_shiftl_add (val mod 2 ^ 26) d 6 ltac:(lia) ltac:(lia)) as Hl.
  rewrite Z.shiftl_mul_pow2 in Hl by lia. exact Hl.
Qed.

Lemma loop_step c rest bits val out :
  0 <= digit c -> 0 <= val < 2 ^ 32 ->
  decode_loop table (c :: rest) bits val out =
    let val := u32 (val * 64) + digit c in
    if 8 <=? bits + 6 then
      decode_loop table rest (bits + 6 - 8) val (out ++ [byte_of_Z (Z.land (Z.shiftr val (bits + 6 - 8)) 0xff)])
    else decode_loop table rest (bits + 6) val out.
Proof.
  intros Hd Hv. cbn [decode_loop]. fold (digit c). destruct (Z.ltb_spec (digit c) 0); [lia|].
  destruct (sym_digit c Hd) as [Hr _]. destruct (shift_in val (digit c) Hv Hr) as [E _]. by rewrite E.
Qed.

(** The byte taken from the accumulator, as arithmetic. *)
Lemma take_byte v n : 0 <= n -> byte_of_Z (Z.land (Z.shiftr v n) 0xff) = byte_of_Z (v / 2 ^ n).
Proof.
  intros Hn. rewrite Z.shiftr_div_pow2 by done. change 0xff with (Z.ones 8). rewrite Z.land_ones by lia.
  unfold byte_of_Z. change (2 ^ 8) with 256. by rewrite Z.mod_mod by lia.
Qed.


Lemma byte_of_Z_eq a b : a mod 256 = b mod 256 -> byte_of_Z a = byte_of_Z b.
Proof. unfold byte_of_Z. by intros ->. Qed.

(** The three bytes of four symbols. *)
Definition out1 (d1 d2 : Z) : byte := byte_of_Z (d1 * 4 + d2 / 16).
Definition out2 (d2 d3 : Z) : byte := byte_of_Z (d2 mod 16 * 16 + d3 / 4).
Definition out3 (d3 d4 : Z) : byte := byte_of_Z (d3 mod 4 * 64 + d4).

Lemma u32_step val d : 0 <= val < 2 ^ 32 -> 0 <= d < 64 -> exists k, u32 (val * 64) + d = val * 64 + d - 2 ^ 32 * k /\ 0 <= u32 (val * 64) + d < 2 ^ 32.
Proof.
  intros Hv Hd. exists (val * 64 / 2 ^ 32). destruct (shift_in val d Hv Hd) as [_ Hr]. split; [|done].
  unfold u32 in *. pose proof (Z.div_mod (val * 64) (2 ^ 32) ltac:(lia)). lia.
Qed.

Lemma loop2 c1 c2 rest val out :
  0 <= digit c1 -> 0 <= digit c2 -> 0 <= val < 2 ^ 32 ->
  exists v, 0 <= v < 2 ^ 32 /\ v mod 16 = digit c2 mod 16 /\
    decode_loop table (c1 :: c2 :: rest) 0 val out =
    decode_loop table rest 4 v (out ++ [out1 (digit c1) (digit c2)]).
Proof.
  intros H1 H2 Hv. destruct (sym_digit c1 H1) as [R1 _]. destruct (sym_digit c2 H2) as [R2 _].
  rewrite loop_step by done. cbv zeta. change (8 <=? 0 + 6) with false. cbv iota.
  destruct (u32_step val (digit c1) Hv R1) as (k1 & E1 & V1). set (v1 := u32 (val * 64) + digit c1) in *.
  rewrite loop_step by done. cbv zeta. change (8 <=? 0 + 6 + 6) with true. cbv iota.
  destruct (u32_step v1 (digit c2) V1 R2) as (k2 & E2 & V2). set (v2 := u32 (v1 * 64) + digit c2) in *.
  change (0 + 6 + 6 - 8) with 4. exists v2. split; [done|]. split; [Z.to_euclidean_division_equations; lia|].
  f_equal. f_equal. rewrite take_byte by lia. f_equal. change (2 ^ 4) with 16. apply byte_of_Z_eq.
  Z.to_euclidean_division_equations; lia.
Qed.

Lemma loop3 c1 c2 c3 rest val out :
  0 <= digit c1 -> 0 <= digit c2 -> 0 <= digit c3 -> 0 <= val < 2 ^ 32 ->
  exists v, 0 <= v < 2 ^ 32 /\ v mod 4 = digit c3 mod 4 /\
    decode_loop table (c1 :: c2 :: c3 :: rest) 0 val out =
    decode_loop table rest 2 v (out ++ [out1 (digit c1) (digit c2); out2 (digit c2) (digit c3)]).
Proof.
  intros H1 H2 H3 Hv. destruct (loop2 c1 c2 (c3 :: rest) val out H1 H2 Hv) as (v & V & E & ->).
  destruct (sym_digit c3 H3) as [R3 _]. destruct (sym_digit c2 H2) as [R2 _].
  rewrite loop_step by done. cbv zeta. change (8 <=? 4 + 6) with true. cbv iota.
  destruct (u32_step v (digit c3) V R3) as (k & E3 & V3). set (v3 := u32 (v * 64) + digit c3) in *.
  change (4 + 6 - 8) with 2. exists v3. split; [done|]. split; [Z.to_euclidean_division_equations; lia|].
  rewrite <- app_assoc. f_equal. f_equal. simpl. f_equal. f_equal.
  rewrite take_byte by lia. apply byte_of_Z_eq. change (2 ^ 2) with 4.
  Z.to_euclidean_division_equations; lia.
Qed.

Lemma loop4 c1 c2 c3 c4 rest val out :
  0 <= digit c1 -> 0 <= digit c2 -> 0 <= digit c3 -> 0 <= digit c4 -> 0 <= val < 2 ^ 32 ->
  exists v, 0 <= v < 2 ^ 32 /\
    decode_loop table (c1 :: c2 :: c3 :: c4 :: rest) 0 val out =
    decode_loop table rest 0 v (out ++ [out1 (digit c1) (digit c2); out2 (digit c2) (digit c3); out3 (digit c3) (digit c4)]).
Proof.
  intros H1 H2 H3 H4 Hv. destruct (loop3 c1 c2 c3 (c4 :: rest) val out H1 H2 H3 Hv) as (v & V & E & ->).
  destruct (sym_digit c4 H4) as [R4 _]. destruct (sym_digit c3 H3) as [R3 _].
  rewrite loop_step by done. cbv zeta. change (8 <=? 2 + 6) with true. cbv iota.
  destruct (u32_step v (digit c4) V R4) as (k & E4 & V4). set (v4 := u32 (v * 64) + digit c4) in *.
  change (2 + 6 - 8) with 0. exists v4. split; [done|].
  rewrite <- app_assoc. f_equal. f_equal. simpl. f_equal. f_equal. f_equal.
  rewrite take_byte by lia. apply byte_of_Z_eq. change (2 ^ 0) with 1.
  Z.to_euclidean_division_equations; lia.
Qed.

(** The four digits of three bytes. *)
Definition dig1 (a : byte) : Z := byteZ a / 4.
Definition dig2 (a b : byte) : Z := byteZ a mod 4 * 16 + byteZ b / 16.
Definition dig3 (b c : byte) : Z := byteZ b mod 16 * 4 + byteZ c / 64.
Definition dig4 (c : byte) : Z := byteZ c mod 64.

Lemma sym_eq v n : 0 <= n -> sym alphabet v n = sym_of (v / 2 ^ n mod 64).
Proof.
  intros Hn. unfold sym, sym_of. rewrite Z.shiftr_div_pow2 by done. change 0x3f with (Z.ones 6).
  by rewrite Z.land_ones by lia.
Qed.

Lemma group_value a b : Z.lor (Z.shiftl (byteZ a) 16) (Z.shiftl (byteZ b) 8) = byteZ a * 65536 + byteZ b * 256.
Proof.
  pose proof (byteZ_range b). rewrite lor_shiftl_add by (rewrite ?Z.shiftl_mul_pow2 by lia; lia).
  rewrite Z.shiftl_mul_pow2 by lia. lia.
Qed.

Lemma group_value3 a b c :
  Z.lor (Z.lor (Z.shiftl (byteZ a) 16) (Z.shiftl (byteZ b) 8)) (byteZ c) = byteZ a * 65536 + byteZ b * 256 + byteZ c.
Proof.
  rewrite group_value. pose proof (byteZ_range c).
  replace (byteZ a * 65536 + byteZ b * 256) with (Z.shiftl (byteZ a * 256 + byteZ b) 8)
    by (rewrite Z.shiftl_mul_pow2 by lia; lia).
  rewrite lor_shiftl_add by lia. rewrite Z.shiftl_mul_pow2 by lia. done.
Qed.

(** Without the padding signs. *)
Fixpoint enc (x : bytes) : bytes :=
  match x with
  | [] => []
  | [a] => [sym_of (dig1 a); sym_of (dig2 a x00)]
  | [a; b] => [sym_of (dig1 a); sym_of (dig2 a b); sym_of (dig3 b x00)]
  | a :: b :: c :: x => sym_of (dig1 a) :: sym_of (dig2 a b) :: sym_of (dig3 b c) :: sym_of (dig4 c) :: enc x
  end.

Definition pad_count (x : bytes) : nat := ((3 - length x mod 3) mod 3)%nat.

Lemma pad_count_step a b c x : pad_count (a :: b :: c :: x) = pad_count x.
Proof.
  unfold pad_count. simpl length. replace (S (S (S (length x)))) with (length x + 1 * 3)%nat by lia.
  by rewrite Nat.Div0.mod_add.
Qed.

Lemma encode_enc x padding :
  b64_encode_impl x alphabet padding = enc x ++ (if padding then replicate (pad_count x) x3d else []).
Proof.
  revert x. apply list_ind3.
  - by destruct padding.
  - intros a. cbn [b64_encode_impl enc]. pose proof (byteZ_range a). rewrite !sym_eq by lia.
    rewrite !Z.shiftl_mul_pow2 by lia.
    assert (byteZ a * 2 ^ 16 / 2 ^ 18 mod 64 = dig1 a) as -> by (unfold dig1; Z.to_euclidean_division_equations; lia).
    assert (byteZ a * 2 ^ 16 / 2 ^ 12 mod 64 = dig2 a x00) as ->
      by (unfold dig2; change (byteZ x00) with 0; Z.to_euclidean_division_equations; lia).
    by destruct padding.
  - intros a b. cbn [b64_encode_impl enc]. pose proof (byteZ_range a). pose proof (byteZ_range b).
    rewrite group_value, !sym_eq by lia. set (v := byteZ a * 65536 + byteZ b * 256).
    assert (v / 2 ^ 18 mod 64 = dig1 a) as -> by (unfold v, dig1; Z.to_euclidean_division_equations; lia).
    assert (v / 2 ^ 12 mod 64 = dig2 a b) as -> by (unfold v, dig2; Z.to_euclidean_division_equations; lia).
    assert (v / 2 ^ 6 mod 64 = dig3 b x00) as ->
      by (unfold v, dig3; change (byteZ x00) with 0; Z.to_euclidean_division_equations; lia).
    by destruct padding.
  - intros a b c x IH. cbn [b64_encode_impl enc]. rewrite IH, pad_count_step.
    pose proof (byteZ_range a). pose proof (byteZ_range b). pose proof (byteZ_range c).
    rewrite group_value3, !sym_eq by lia. set (v := byteZ a * 65536 + byteZ b * 256 + byteZ c).
    assert (v / 2 ^ 18 mod 64 = dig1 a) as -> by (unfold v, dig1; Z.to_euclidean_division_equations; lia).
    assert (v / 2 ^ 12 mod 64 = dig2 a b) as -> by (unfold v, dig2; Z.to_euclidean_division_equations; lia).
    assert (v / 2 ^ 6 mod 64 = dig3 b c) as -> by (unfold v, dig3; Z.to_euclidean_division_equations; lia).
    assert (v / 2 ^ 0 mod 64 = dig4 c) as -> by (unfold v, dig4; Z.to_euclidean_division_equations; lia).
    done.
Qed.

Lemma dig_range a b : 0 <= dig1 a < 64 /\ 0 <= dig2 a b < 64 /\ 0 <= dig3 a b < 64 /\ 0 <= dig4 a < 64.
Proof.
  pose proof (byteZ_range a). pose proof (byteZ_range b). unfold dig1, dig2, dig3, dig4.
  Z.to_euclidean_division_equations; lia.
Qed.

Lemma outs a b c :
  out1 (dig1 a) (dig2 a b) = a /\ out2 (dig2 a b) (dig3 b c) = b /\ out3 (dig3 b c) (dig4 c) = c.
Proof.
  pose proof (byteZ_range a). pose proof (byteZ_range b). pose proof (byteZ_range c).
  unfold out1, out2, out3. split; [|split].
  - rewrite <- (byte_of_Z_byteZ a) at 3. f_equal. unfold dig1, dig2. Z.to_euclidean_division_equations; lia.
  - rewrite <- (byte_of_Z_byteZ b) at 3. f_equal. unfold dig2, dig3. Z.to_euclidean_division_equations; lia.
  - rewrite <- (byte_of_Z_byteZ c) at 3. f_equal. unfold dig3, dig4. Z.to_euclidean_division_equations; lia.
Qed.

(** The bits left over are zero. *)
Definition clean (bits val : Z) : bool := negb ((0 <? bits) && negb (Z.land val (Z.shiftl 1 bits - 1) =? 0)).

Lemma clean_mod bits val : 0 <= bits -> clean bits val = (val mod 2 ^ bits =? 0).
Proof.
  intros Hb. unfold clean. rewrite Z.shiftl_mul_pow2, Z.mul_1_l by lia.
  replace (2 ^ bits - 1) with (Z.ones bits) by (rewrite Z.ones_equiv; lia). rewrite Z.land_ones by lia.
  destruct (Z.ltb_spec 0 bits); [cbn [andb]; by rewrite negb_involutive|]. replace bits with 0 by lia.
  change (2 ^ 0) with 1. by rewrite Z.mod_1_r.
Qed.

Lemma digits a b : digit (sym_of (dig1 a)) = dig1 a /\ digit (sym_of (dig2 a b)) = dig2 a b /\
  digit (sym_of (dig3 a b)) = dig3 a b /\ digit (sym_of (dig4 a)) = dig4 a.
Proof. destruct (dig_range a b) as (H1 & H2 & H3 & H4). by rewrite !digit_sym. Qed.

Lemma decode_enc x val out :
  0 <= val < 2 ^ 32 ->
  exists bits v, decode_loop table (enc x) 0 val out = Some (bits, v, out ++ x) /\ clean bits v = true.
Proof.
  revert x val out. apply (list_ind3 (fun x => forall val out, 0 <= val < 2 ^ 32 -> _)).
  - intros val out Hv. exists 0, val. by rewrite app_nil_r.
  - intros a val out Hv. cbn [enc]. destruct (digits a x00) as (D1 & D2 & _). destruct (dig_range a x00) as (R1 & R2 & _).
    destruct (loop2 (sym_of (dig1 a)) (sym_of (dig2 a x00)) [] val out) as (v & V & E & ->); [lia..|].
    destruct (outs a x00 x00) as (O1 & _). rewrite D1, D2, O1. cbn [decode_loop]. exists 4, v. split; [done|].
    rewrite clean_mod by lia. change (2 ^ 4) with 16. rewrite E, D2. unfold dig2. change (byteZ x00) with 0.
    apply Z.eqb_eq. Z.to_euclidean_division_equations; lia.
  - intros a b val out Hv. cbn [enc]. destruct (digits a b) as (D1 & D2 & _). destruct (digits b x00) as (_ & _ & D3 & _).
    destruct (dig_range a b) as (R1 & R2 & _). destruct (dig_range b x00) as (_ & _ & R3 & _).
    destruct (loop3 (sym_of (dig1 a)) (sym_of (dig2 a b)) (sym_of (dig3 b x00)) [] val out) as (v & V & E & ->); [lia..|].
    destruct (outs a b x00) as (O1 & O2 & _). rewrite D1, D2, D3, O1, O2. cbn [decode_loop]. exists 2, v. split; [done|].
    rewrite clean_mod by lia. change (2 ^ 2) with 4. rewrite E, D3. unfold dig3. change (byteZ x00) with 0.
    apply Z.eqb_eq. Z.to_euclidean_division_equations; lia.
  - intros a b c x IH val out Hv. cbn [enc]. destruct (digits a b) as (D1 & D2 & _).
    destruct (digits b c) as (_ & _ & D3 & _). destruct (digits c c) as (_ & _ & _ & D4).
    destruct (dig_range a b) as (R1 & R2 & _). destruct (dig_range b c) as (_ & _ & R3 & _).
    destruct (dig_range c c) as (_ & _ & _ & R4).
    destruct (loop4 (sym_of (dig1 a)) (sym_of (dig2 a b)) (sym_of (dig3 b c)) (sym_of (dig4 c)) (enc x) val out)
      as (v & V & ->); [lia..|].
    destruct (outs a b c) as (O1 & O2 & O3). rewrite D1, D2, D3, D4, O1, O2, O3.
    destruct (IH v (out ++ [a; b; c]) V) as (bits & w & -> & Hc). exists bits, w. by rewrite <- app_assoc.
Qed.

(** The bytes four, three or two digits stand for, and back. *)
Lemma outs_back d1 d2 d3 d4 :
  0 <= d1 < 64 -> 0 <= d2 < 64 -> 0 <= d3 < 64 -> 0 <= d4 < 64 ->
  dig1 (out1 d1 d2) = d1 /\ dig2 (out1 d1 d2) (out2 d2 d3) = d2 /\
  dig3 (out2 d2 d3) (out3 d3 d4) = d3 /\ dig4 (out3 d3 d4) = d4 /\
  (d2 mod 16 = 0 -> dig2 (out1 d1 d2) x00 = d2) /\ (d3 mod 4 = 0 -> dig3 (out2 d2 d3) x00 = d3).
Proof.
  intros H1 H2 H3 H4. unfold dig1, dig2, dig3, dig4, out1, out2, out3. rewrite !byteZ_byte_of_Z.
  change (byteZ x00) with 0.
  repeat split; intros; Z.to_euclidean_division_equations; lia.
Qed.

Lemma loop_digit c rest bits val out r : decode_loop table (c :: rest) bits val out = Some r -> 0 <= digit c.
Proof. cbn [decode_loop]. fold (digit c). destruct (Z.ltb_spec (digit c) 0); [done|lia]. Qed.

(** The first digits of a payload that decodes. *)
Lemma loop_digits p rest bits val out r :
  decode_loop table (p ++ rest) bits val out = Some r -> Forall (fun c => 0 <= digit c) p.
Proof.
  revert bits val out. induction p as [|c p IH]; intros bits val out H; [constructor|].
  pose proof (loop_digit _ _ _ _ _ _ H) as Hc. constructor; [done|].
  cbn [app decode_loop] in H. fold (digit c) in H. destruct (Z.ltb_spec (digit c) 0); [lia|].
  cbv zeta in H. destruct (8 <=? bits + 6); by eapply IH.
Qed.

Lemma decode_back p val out bits v o :
  0 <= val < 2 ^ 32 -> (length p mod 4 <> 1)%nat ->
  decode_loop table p 0 val out = Some (bits, v, o) -> clean bits v = true ->
  exists x, o = out ++ x /\ p = enc x.
Proof.
  revert p val out. apply (list_ind4 (fun p => forall val out, 0 <= val < 2 ^ 32 -> (length p mod 4 <> 1)%nat -> _ = _ -> _ -> _)).
  - intros val out Hv _ [= <- <- <-] _. exists []. by rewrite app_nil_r.
  - done.
  - intros c1 c2 val out Hv _ E Hc. pose proof (loop_digits [c1; c2] [] _ _ _ _ E) as Hd.
    apply Forall_cons in Hd as [H1 [H2 _]%Forall_cons].
    destruct (sym_digit c1 H1) as [R1 S1]. destruct (sym_digit c2 H2) as [R2 S2].
    destruct (loop2 c1 c2 [] val out H1 H2 Hv) as (w & W & M & E'). rewrite E' in E. cbn [decode_loop] in E.
    injection E as <- <- <-. rewrite clean_mod in Hc by lia. apply Z.eqb_eq in Hc. change (2 ^ 4) with 16 in Hc.
    destruct (outs_back (digit c1) (digit c2) 0 0) as (B1 & _ & _ & _ & B2 & _); [lia..|].
    exists [out1 (digit c1) (digit c2)]. split; [done|]. cbn [enc]. by rewrite B1, B2, S1, S2 by lia.
  - intros c1 c2 c3 val out Hv _ E Hc. pose proof (loop_digits [c1; c2; c3] [] _ _ _ _ E) as Hd.
    apply Forall_cons in Hd as [H1 [H2 [H3 _]%Forall_cons]%Forall_cons].
    destruct (sym_digit c1 H1) as [R1 S1]. destruct (sym_digit c2 H2) as [R2 S2]. destruct (sym_digit c3 H3) as [R3 S3].
    destruct (loop3 c1 c2 c3 [] val out H1 H2 H3 Hv) as (w & W & M & E'). rewrite E' in E. cbn [decode_loop] in E.
    injection E as <- <- <-. rewrite clean_mod in Hc by lia. apply Z.eqb_eq in Hc. change (2 ^ 2) with 4 in Hc.
    destruct (outs_back (digit c1) (digit c2) (digit c3) 0) as (B1 & B2 & _ & _ & _ & B3); [lia..|].
    exists [out1 (digit c1) (digit c2); out2 (digit c2) (digit c3)]. split; [done|]. cbn [enc].
    by rewrite B1, B2, B3, S1, S2, S3 by lia.
  - intros c1 c2 c3 c4 p IH val out Hv Hl E Hc. pose proof (loop_digits [c1; c2; c3; c4] p _ _ _ _ E) as Hd.
    apply Forall_cons in Hd as [H1 [H2 [H3 [H4 _]%Forall_cons]%Forall_cons]%Forall_cons].
    destruct (sym_digit c1 H1) as [R1 S1]. destruct (sym_digit c2 H2) as [R2 S2].
    destruct (sym_digit c3 H3) as [R3 S3]. destruct (sym_digit c4 H4) as [R4 S4].
    destruct (loop4 c1 c2 c3 c4 p val out H1 H2 H3 H4 Hv) as (w & W & E'). rewrite E' in E.
    assert (length p mod 4 <> 1)%nat as Hl'.
    { simpl length in Hl. replace (S (S (S (S (length p))))) with (length p + 1 * 4)%nat in Hl by lia.
      by rewrite Nat.Div0.mod_add in Hl. }
    destruct (IH w _ W Hl' E Hc) as (x & -> & ->).
    destruct (outs_back (digit c1) (digit c2) (digit c3) (digit c4)) as (B1 & B2 & B3 & B4 & _); [lia..|].
    exists (out1 (digit c1) (digit c2) :: out2 (digit c2) (digit c3) :: out3 (digit c3) (digit c4) :: x).
    split; [by rewrite <- app_assoc|]. cbn [enc]. by rewrite B1, B2, B3, B4, S1, S2, S3, S4.
Qed.

Lemma enc_no_pad x : x3d ∉ enc x.
Proof.
  assert (forall d, 0 <= d < 64 -> sym_of d <> x3d) as Hs.
  { intros d Hd E. pose proof (digit_sym d Hd) as H. rewrite E in H. unfold digit in H. rewrite (g_pad _ _ G) in H. lia. }
  revert x. apply list_ind3; [by apply not_elem_of_nil|intros a|intros a b|intros a b c x IH]; cbn [enc];
    rewrite ?not_elem_of_cons; repeat split; try done; try apply not_elem_of_nil; try apply not_eq_sym, Hs; apply dig_range; exact x00.
Qed.

Lemma enc_length x : (length (enc x) + pad_count x = 4 * ((length x + 2) / 3))%nat /\
  (length (enc x) mod 4 = match pad_count x with 0 => 0 | 1 => 3 | _ => 2 end)%nat /\ (pad_count x <= 2)%nat.
Proof.
  revert x. apply list_ind3; [|intros a|intros a b|intros a b c x (IH1 & IH2 & IH3)]; cbn [enc];
    [unfold pad_count; simpl; lia|unfold pad_count; simpl; lia|unfold pad_count; simpl; lia|].
  rewrite pad_count_step. simpl length.
  replace (S (S (S (length x))) + 2)%nat with (length x + 2 + 1 * 3)%nat by lia. rewrite Nat.div_add by lia.
  replace (S (S (S (S (length (enc x)))))) with (length (enc x) + 1 * 4)%nat by lia. rewrite Nat.Div0.mod_add.
  split; [lia|done].
Qed.

(** What happens to the payload. *)
Definition finish (p : bytes) : bytes :=
  match decode_loop table p 0 0 [] with
  | Some (bits, v, o) => if clean bits v then o else []
  | None => []
  end.

Lemma finish_eq p :
  match decode_loop table p 0 0 [] with
  | None => []
  | Some (bits, val, out) =>
      if (0 <? bits) && negb (Z.land val (Z.shiftl 1 bits - 1) =? 0) then [] else out
  end = finish p.
Proof.
  unfold finish, clean. destruct (decode_loop table p 0 0 []) as [[[bits v] o]|]; [|done].
  by destruct ((0 <? bits) && negb (Z.land v (Z.shiftl 1 bits - 1) =? 0)).
Qed.

Lemma decode_unpadded p :
  x3d ∉ p -> b64_decode_impl p table = if (length p mod 4 =? 1)%nat then [] else finish p.
Proof.
  intros Hp. unfold b64_decode_impl. rewrite (proj2 (find_byte_None _ _) Hp). cbn [negb].
  destruct (length p mod 4 =? 1)%nat eqn:E; [done|]. cbv zeta. rewrite ?E.
  rewrite take_ge by lia. apply finish_eq.
Qed.

Lemma decode_padded p k :
  x3d ∉ p ->
  b64_decode_impl (p ++ replicate (S k) x3d) table =
    if ((k <=? 1) && ((length p + S k) mod 4 =? 0))%nat then finish p else [].
Proof.
  intros Hp. unfold b64_decode_impl. rewrite (find_byte_app x3d p (replicate k x3d) Hp : find_byte x3d (p ++ replicate (S k) x3d) = _).
  rewrite length_app, length_replicate.
  replace (length p + S k - length p)%nat with (S k) by lia.
  destruct (Nat.eqb_spec ((length p + S k) mod 4) 0) as [E0|E0]; cbv zeta.
  2:{ rewrite orb_true_r, andb_false_r. cbn [negb]. by destruct (_ =? 1)%nat. }
  rewrite E0. change (0 =? 1)%nat with false. change (negb true) with false. rewrite orb_false_r, andb_true_r. cbv iota.
  destruct (Nat.leb_spec k 1) as [Hk|Hk]; destruct (Nat.ltb_spec 2 (S k)); try lia; [|done].
  rewrite drop_app_length, take_app_length.
  assert (forallb (fun c => c =b x3d) (replicate (S k) x3d) = true) as ->.
  { apply forallb_forall. intros c Hc. apply list_elem_of_In, elem_of_replicate in Hc as [-> _]. done. }
  cbn [negb]. rewrite finish_eq.
  destruct (Nat.eqb_spec (length p mod 4) 1) as [E1|]; [|done]. exfalso.
  pose proof (Nat.div_mod (length p) 4 ltac:(lia)). pose proof (Nat.div_mod (length p + S k) 4 ltac:(lia)). lia.
Qed.

(** Decoding inverts encoding, with or without the padding signs. *)
Lemma b64_decode_encode x padding : b64_decode_impl (b64_encode_impl x alphabet padding) table = x.
Proof.
  rewrite encode_enc. destruct (enc_length x) as (L1 & L2 & L3). pose proof (enc_no_pad x) as Hp.
  destruct (decode_enc x 0 [] ltac:(lia)) as (bits & v & E & Hc).
  assert (finish (enc x) = x) as Hf by (unfold finish; by rewrite E, Hc).
  assert (b64_decode_impl (enc x ++ []) table = x) as H0.
  { rewrite app_nil_r, decode_unpadded by done.
    destruct (Nat.eqb_spec (length (enc x) mod 4) 1) as [E1|]; [|done]. rewrite L2 in E1. repeat case_match; lia. }
  destruct padding; [|done]. destruct (pad_count x) as [|k] eqn:Ek; [done|].
  rewrite decode_padded by done. rewrite L1, Nat.mul_comm, Nat.Div0.mod_mul.
  destruct (Nat.leb_spec k 1); [done|lia].
Qed.

(** Any text splits at its first padding sign. *)
Lemma split_pad e :
  (x3d ∉ e) \/ exists p rest, e = p ++ x3d :: rest /\ x3d ∉ p.
Proof.
  destruct (decide (x3d ∈ e)) as [H|H]; [right|by left].
  apply list_elem_of_split_l in H as (p & rest & -> & Hp). by exists p, rest.
Qed.

(** A text that decodes to something is the encoding of it. *)
Lemma decode_canonical e x :
  b64_decode_impl e table = x -> x <> [] -> exists padding, e = b64_encode_impl x alphabet padding.
Proof.
  intros E Hx. destruct (split_pad e) as [Hp|(p & rest & -> & Hp)].
  - exists false. rewrite decode_unpadded in E by done. rewrite encode_enc, app_nil_r.
    destruct (Nat.eqb_spec (length e mod 4) 1) as [|Hl]; [by subst|]. unfold finish in E.
    destruct (decode_loop table e 0 0 []) as [[[bits v] o]|] eqn:El; [|by subst].
    destruct (clean bits v) eqn:Hc; [|by subst]. destruct (decode_back e 0 [] bits v o) as (y & Ho & ->); [lia|done..|].
    simpl in Ho. congruence.
  - destruct (decide (rest = replicate (length rest) x3d)) as [Er|Er].
    2:{ exfalso. apply Hx. rewrite <- E. unfold b64_decode_impl.
        rewrite find_byte_app by done. rewrite drop_app_length. destruct (_ =? 1)%nat; [done|]. cbv zeta.
        assert (forallb (fun c => c =b x3d) (x3d :: rest) = false) as ->; [|by destruct (_ || _)].
        apply not_true_iff_false. intros H. apply Er. cbn [forallb] in H. apply andb_true_iff in H as [_ H].
        clear -H. induction rest as [|c rest IH]; [done|]. cbn [forallb] in H. apply andb_true_iff in H as [Hc H].
        apply byte_eqb_eq in Hc. subst. simpl. f_equal. by apply IH. }
    change (x3d :: rest) with ([x3d] ++ rest) in *. rewrite Er in *.
    change ([x3d] ++ replicate (length rest) x3d) with (replicate (S (length rest)) x3d) in *.
    set (k := length rest) in *. clearbody k. rewrite decode_padded in E by done.
    destruct (Nat.leb_spec k 1) as [Hk|]; [|by subst]. cbn [andb] in E.
    destruct (Nat.eqb_spec ((length p + S k) mod 4) 0) as [Hm|]; [|by subst]. unfold finish in E.
    destruct (decode_loop table p 0 0 []) as [[[bits v] o]|] eqn:El; [|by subst].
    destruct (clean bits v) eqn:Hc; [|by subst].
    pose proof (Nat.div_mod (length p + S k) 4 ltac:(lia)) as Hd.
    assert (length p mod 4 <> 1)%nat as Hl.
    { intros H1. pose proof (Nat.div_mod (length p) 4 ltac:(lia)). lia. }
    destruct (decode_back p 0 [] bits v o ltac:(lia) Hl El Hc) as (y & Ho & Hpe).
    simpl in Ho. assert (x = y) as -> by congruence. exists true. rewrite encode_enc, <- Hpe. f_equal. f_equal.
    destruct (enc_length y) as (L1 & L2 & L3). rewrite <- Hpe in L1. lia.
Qed.

End codec.
End Base64Ok.

(** ** The theorems *)

Module CryptoProps.
Import Base64 Sha ShaOk Base64Ok.

(** C29: the streaming SHA-256 is the SHA-256 of the whole message. However a
    message is cut into pieces, feeding them one after the other and finishing
    gives the FIPS 180-4 digest of their concatenation (the compression function
    folded over the blocks of the padded message), which is also what [sha256]
    returns; HMAC over any key and message is the RFC 2104 construction. *)
Theorem sha256_streaming parts key msg :
  (exists s, update_all sha256_init parts = Some s /\ sha256_final s = digest256 (concat parts)) /\
  sha256 (concat parts) = Some (digest256 (concat parts)) /\
  hmac_sha256 key msg = Some (hmac_ref key msg).
Proof.
  split; [|split; [apply sha256_digest|apply hmac_sha256_eq]].
  destruct (update_all_some parts) as [s E]. exists s. split; [done|]. by apply update_init.
Qed.

(** Base64 is lossless and canonical. Decoding what either encoder wrote
    gives the bytes back, and a text that decodes to something is, padding
    aside, the one the encoder writes for it: stray bits, misplaced or wrong
    padding and foreign symbols are refused. *)
Theorem base64_exact x e :
  base64_decode (base64_encode x) = x /\ base64url_decode (base64url_encode x) = x /\
  (base64_decode e = x -> x <> [] -> exists padding, e = b64_encode_impl x kB64Alphabet padding) /\
  (base64url_decode e = x -> x <> [] -> exists padding, e = b64_encode_impl x kB64UrlAlphabet padding).
Proof.
  split; [apply (b64_decode_encode _ _ b64_good)|]. split; [apply (b64_decode_encode _ _ b64url_good)|].
  split; [apply (decode_canonical _ _ b64_good)|apply (decode_canonical _ _ b64url_good)].
Qed.

End CryptoProps.
