(* ===== verification/SignedToken.v ===== *)
(** * Signed cookies and JSON Web Tokens

    [src/src/net/cookie_signing.cxx], [src/src/net/jwt.cxx] and the secret
    checks of [src/src/net/config.cxx], over the models of the cryptography and
    of the JSON module. [Secrets], [Cookie] and [Jwt] are the translations;
    error texts are the code's. The clock, the revocation callback and the
    allocation outcomes of the JSON index are arguments.

    The theorems show that a cookie is accepted exactly when it carries the MAC
    of its value under a configured secret, and that token verification decides
    by the signature over the token's first two segments and by the claims of
    its payload, and accepts the tokens the library signs. *)

From Stdlib Require Import ZArith Lia Strings.Byte String.
From stdpp Require Import base tactics option numbers list.
From S2P Require Import Prelude JsonTypes JsonStorage JsonNumber JsonHash JsonSpec JsonTokenizer JsonParse JsonDenote JsonParseOk JsonValid JsonRoundTrip JsonDom JsonDomOk Crypto.
Import Base64 Sha ShaOk Base64Ok.

Module Secrets.

Record ResolvedSecretRotation := mkSecrets { active : bytes; previous : list bytes; min_secret_bytes : nat }.

Definition validate_secret_bytes (secret name : bytes) (min_bytes : nat) : expected unit bytes :=
  match secret with
  | [] => Unexpected (B "auth secret '" ++ name ++ B "': resolved secret is empty")
  | _ =>
      if (length secret <? min_bytes)%nat then
        Unexpected (B "auth secret '" ++ name ++ B "': resolved secret must be at least " ++
          to_dec (Z.of_nat min_bytes) ++ B " bytes")
      else Ok tt
  end.

(** The loop over [previous] from index [i] on. *)
Fixpoint validate_previous (name : bytes) (i : nat) (previous : list bytes) (min_bytes : nat) : expected unit bytes :=
  match previous with
  | [] => Ok tt
  | s :: rest =>
      match validate_secret_bytes s (name ++ B ".previous[" ++ to_dec (Z.of_nat i) ++ B "]") min_bytes with
      | Unexpected e => Unexpected e
      | Ok _ => validate_previous name (S i) rest min_bytes
      end
  end.

Definition validate_secret_rotation (secrets : ResolvedSecretRotation) (name : bytes) : expected unit bytes :=
  match validate_secret_bytes (active secrets) name (min_secret_bytes secrets) with
  | Unexpected e => Unexpected e
  | Ok _ => validate_previous name 0 (previous secrets) (min_secret_bytes secrets)
  end.

End Secrets.

Module Cookie.
Import Secrets.

Definition mac_b64 (value secret : bytes) : option bytes :=
  d ← hmac_sha256 secret value;
  Some (base64url_encode d).

Definition signed_value_matches (value sig secret : bytes) : option bool :=
  m ← mac_b64 value secret;
  Some (constant_time_eq sig m).

(** The loop over the previous secrets. *)
Fixpoint any_previous (value sig : bytes) (previous : list bytes) : option (option bytes) :=
  match previous with
  | [] => Some None
  | p :: previous =>
      ok ← signed_value_matches value sig p;
      if ok : bool then Some (Some value) else any_previous value sig previous
  end.

(** The outer [option] is the hash's loop bound, the inner one the result. *)
Definition verify_cookie_with_validated_secrets (signed_value : bytes) (secrets : ResolvedSecretRotation)
  : option (option bytes) :=
  match sv_rfind x2e signed_value with
  | None => Some None
  | Some dot =>
      let value := take dot signed_value in
      let sig := drop (dot + 1) signed_value in
      ok ← signed_value_matches value sig (active secrets);
      if ok : bool then Some (Some value) else any_previous value sig (previous secrets)
  end.

Definition sign_cookie_unchecked (value secret : bytes) : option bytes :=
  mac ← mac_b64 value secret;
  Some (value ++ [x2e] ++ mac).

Definition sign_cookie (value : bytes) (secrets : ResolvedSecretRotation) : option (expected bytes bytes) :=
  match validate_secret_rotation secrets (B "cookie") with
  | Unexpected e => Some (Unexpected e)
  | Ok _ => s ← sign_cookie_unchecked value (active secrets); Some (Ok s)
  end.

Definition verify_cookie_unchecked (signed_value secret : bytes) : option (option bytes) :=
  match sv_rfind x2e signed_value with
  | None => Some None
  | Some dot =>
      let value := take dot signed_value in
      let sig := drop (dot + 1) signed_value in
      ok ← signed_value_matches value sig secret;
      Some (if (ok : bool) then Some value else None)
  end.

Definition verify_cookie (signed_value : bytes) (secrets : ResolvedSecretRotation) : option (option bytes) :=
  match validate_secret_rotation secrets (B "cookie") with
  | Unexpected _ => Some None
  | Ok _ => verify_cookie_with_validated_secrets signed_value secrets
  end.

(** [cookie_signing_middleware]: what the handler sees of each cookie. *)
Fixpoint cookie_signing_middleware (secrets : ResolvedSecretRotation) (strip_invalid : bool)
    (cookies : list (bytes * bytes)) : option (list (bytes * bytes)) :=
  match cookies with
  | [] => Some []
  | (name, value) :: cookies =>
      value ←
        match find_byte x2e value with
        | None => Some value
        | Some _ =>
            plain ← verify_cookie_with_validated_secrets value secrets;
            Some (match plain with Some p => p | None => if strip_invalid then [] else value end)
        end;
      rest ← cookie_signing_middleware secrets strip_invalid cookies;
      Some ((name, value) :: rest)
  end.

End Cookie.

Module Jwt.
Import Secrets.

Record JwtClaims := mkClaims {
  sub : bytes; iss : bytes; jti : bytes; exp : Z; nbf : Z; iat : Z; raw : bytes
}.

Record JwtOptions := mkJwtOptions {
  secrets : ResolvedSecretRotation;
  issuer : bytes;
  audience : bytes;
  verify_exp : bool;
  verify_nbf : bool;
  require_exp : bool;
  require_iat : bool;
  require_jti : bool;
  clock_skew : Z;
  max_token_lifetime : Z;
  revoked_jti : option (bytes -> bool);
  max_token_bytes : nat
}.

(** What the language's clock and allocator answer: the time in seconds, the
    seeds of the parser's tables, the seed of the index a lookup builds. *)
Record world := mkWorld { now : Z; hash_env : nat -> option Z; find_env : bytes -> option Z }.

Definition kDuplicatePrefix : bytes := B "duplicate member: ".

Definition jwt_json_error (err : JsonError) (segment : bytes) : bytes :=
  if bool_decide (code err = duplicate_member) then
    match err_member_name err with
    | Some n => B "duplicate " ++ n ++ B " claim"
    | None =>
        if starts_with (message err) kDuplicatePrefix then
          B "duplicate " ++ drop (length kDuplicatePrefix) (message err) ++ B " claim"
        else B "duplicate claim"
    end
  else B "invalid " ++ segment ++ B " JSON: " ++ message err.

Section jwt.
Context (w : world).

(** The document and its root object; the outer [option] is a parse that does
    not return or a node out of range. *)
Definition parse_jwt_json (input segment : bytes) : option (expected (DocumentStorage * ObjectView) bytes) :=
  match parse (hash_env w) default_parse_options input with
  | Ret ds =>
      o ← as_object ds (root_node ds);
      Some (match o with
            | Ok ov => Ok (ds, ov)
            | Unexpected _ => Unexpected (segment ++ B " must be a JSON object")
            end)
  | Fail err => Some (Unexpected (jwt_json_error err segment))
  | _ => None
  end.

Definition is_null (ds : DocumentStorage) (i : nat) : option bool :=
  n ← nodes ds !! i;
  Some (kind_is n NK_null).

Definition type_err (ds : DocumentStorage) (i : nat) (name : bytes) (want : JsonKind) : option JsonError :=
  n ← nodes ds !! i;
  Some (mkJsonError Stage_lookup wrong_kind [JsonPathMember name] None (Some want) (Some (kind_of (kind n)))
    (Some name) None None None None None None None (B "member '" ++ name ++ B "' has wrong type")).

(** [optional_string]. *)
Definition optional_string (ds : DocumentStorage) (obj : ObjectView) (name : bytes)
  : option (DocumentStorage * expected (option bytes) JsonError) :=
  '(ds, found) ← find_member (find_env w name) ds obj name;
  match found with
  | None => Some (ds, Ok None)
  | Some node =>
      null ← is_null ds node;
      if null : bool then Some (ds, Ok None)
      else
        sv ← as_string ds node;
        match sv with
        | Ok s => Some (ds, Ok (Some s))
        | Unexpected _ => e ← type_err ds node name KString; Some (ds, Unexpected e)
        end
  end.

(** [ObjectView::optional<std::int64_t>]. *)
Definition optional_i64 (ds : DocumentStorage) (obj : ObjectView) (name : bytes)
  : option (DocumentStorage * expected (option Z) JsonError) :=
  '(ds, found) ← find_member (find_env w name) ds obj name;
  match found with
  | None => Some (ds, Ok None)
  | Some node =>
      null ← is_null ds node;
      if null : bool then Some (ds, Ok None)
      else
        v ← as_i64 ds node;
        match v with
        | Ok z => Some (ds, Ok (Some z))
        | Unexpected e => Some (ds, Unexpected e)
        end
  end.

Definition jwt_string_claim (ds : DocumentStorage) (obj : ObjectView) (key : bytes)
  : option (DocumentStorage * bytes) :=
  '(ds, value) ← optional_string ds obj key;
  Some (ds, match value with Ok (Some s) => s | _ => [] end).

Definition jwt_numeric_date_claim (ds : DocumentStorage) (obj : ObjectView) (key error : bytes)
  : option (DocumentStorage * expected (option Z) bytes) :=
  '(ds, value) ← optional_i64 ds obj key;
  Some (ds, match value with
            | Unexpected _ => Unexpected error
            | Ok (Some z) => if z <? 0 then Unexpected error else Ok (Some z)
            | Ok None => Ok None
            end).

(** The loop over the elements. *)
Fixpoint elements_contain (ds : DocumentStorage) (av : ArrayView) (i n : nat) (value : bytes) : option bool :=
  match n with
  | O => Some false
  | S n =>
      r ← element ds av (Z.of_nat i);
      match r with
      | Ok node =>
          s ← as_string ds node;
          match s with
          | Ok s => if bytes_eqb s value then Some true else elements_contain ds av (S i) n value
          | Unexpected _ => elements_contain ds av (S i) n value
          end
      | Unexpected _ => None
      end
  end.

Definition json_array_contains_string (ds : DocumentStorage) (obj : ObjectView) (key value : bytes)
  : option (DocumentStorage * bool) :=
  '(ds, found) ← find_member (find_env w key) ds obj key;
  match found with
  | None => Some (ds, false)
  | Some node =>
      a ← as_array ds node;
      match a with
      | Unexpected _ => Some (ds, false)
      | Ok av => b ← elements_contain ds av 0 (child_count_ av) value; Some (ds, b)
      end
  end.

Definition int64_top : Z := 2 ^ 63 - 1.

Definition token_expired (exp now skew : Z) : bool := if now <=? skew then false else exp <=? now - skew.

Definition token_not_yet_valid (nbf now skew : Z) : bool :=
  if int64_top - now <? skew then false else now + skew <? nbf.

Record JwtSegments := mkSegments {
  header_b64 : bytes; payload_b64 : bytes; signature_b64 : bytes; signing_input : bytes
}.

Definition validate_jwt_secrets (s : ResolvedSecretRotation) : expected unit bytes :=
  validate_secret_rotation s (B "jwt").

Definition jwt_signature (secret signing_input : bytes) : option bytes := hmac_sha256 secret signing_input.

(** The loop over the previous secrets. *)
Fixpoint previous_matches (signing_input sig_claimed : bytes) (previous : list bytes) : option bool :=
  match previous with
  | [] => Some false
  | p :: previous =>
      expected_signature ← jwt_signature p signing_input;
      if constant_time_eq sig_claimed expected_signature then Some true
      else previous_matches signing_input sig_claimed previous
  end.

Definition signature_matches (signing_input sig_claimed : bytes) (s : ResolvedSecretRotation) : option bool :=
  expected_signature ← jwt_signature (active s) signing_input;
  if constant_time_eq sig_claimed expected_signature then Some true
  else previous_matches signing_input sig_claimed (previous s).

Definition split_jwt_token (token : bytes) : expected JwtSegments bytes :=
  match find_byte x2e token with
  | None => Unexpected (B "malformed token: missing first dot")
  | Some dot1 =>
      match sv_find x2e token (dot1 + 1) with
      | None => Unexpected (B "malformed token: missing second dot")
      | Some dot2 =>
          Ok (mkSegments (take dot1 token) (substr token (dot1 + 1) (dot2 - dot1 - 1))
                (drop (dot2 + 1) token) (take dot2 token))
      end
  end.

Definition decode_jwt_header (header_b64 : bytes) : option (expected unit bytes) :=
  let header := base64url_decode header_b64 in
  match header with
  | [] => Some (Unexpected (B "invalid header encoding"))
  | _ =>
      doc ← parse_jwt_json header (B "header");
      match doc with
      | Unexpected e => Some (Unexpected e)
      | Ok (ds, obj) =>
          '(ds, alg) ← jwt_string_claim ds obj (B "alg");
          Some (if negb (bytes_eqb alg (B "HS256"))
                then Unexpected (B "unsupported algorithm (only HS256 supported)") else Ok tt)
      end
  end.

Definition verify_jwt_signature (segments : JwtSegments) (s : ResolvedSecretRotation) : option (expected unit bytes) :=
  let sig_claimed := base64url_decode (signature_b64 segments) in
  match sig_claimed with
  | [] => Some (Unexpected (B "invalid signature encoding"))
  | _ =>
      ok ← signature_matches (signing_input segments) sig_claimed s;
      Some (if negb (ok : bool) then Unexpected (B "signature verification failed") else Ok tt)
  end.

Definition decode_jwt_payload_segment (payload_b64 : bytes) : expected bytes bytes :=
  match base64url_decode payload_b64 with
  | [] => Unexpected (B "invalid payload encoding")
  | payload => Ok payload
  end.

Definition value_or_0 (o : option Z) : Z := match o with Some z => z | None => 0 end.

Definition extract_registered_jwt_claims (payload : bytes) (ds : DocumentStorage) (obj : ObjectView)
  : option (DocumentStorage * expected JwtClaims bytes) :=
  '(ds, sub) ← jwt_string_claim ds obj (B "sub");
  '(ds, iss) ← jwt_string_claim ds obj (B "iss");
  '(ds, jti) ← jwt_string_claim ds obj (B "jti");
  '(ds, exp) ← jwt_numeric_date_claim ds obj (B "exp") (B "invalid exp claim");
  match exp with
  | Unexpected e => Some (ds, Unexpected e)
  | Ok exp =>
      '(ds, nbf) ← jwt_numeric_date_claim ds obj (B "nbf") (B "invalid nbf claim");
      match nbf with
      | Unexpected e => Some (ds, Unexpected e)
      | Ok nbf =>
          '(ds, iat) ← jwt_numeric_date_claim ds obj (B "iat") (B "invalid iat claim");
          match iat with
          | Unexpected e => Some (ds, Unexpected e)
          | Ok iat =>
              Some (ds, Ok (mkClaims sub iss jti (value_or_0 exp) (value_or_0 nbf) (value_or_0 iat) payload))
          end
      end
  end.

Definition validate_jwt_required_claims (claims : JwtClaims) (opts : JwtOptions) : expected unit bytes :=
  if (require_exp opts && (exp claims =? 0))%bool then Unexpected (B "missing exp claim")
  else if (require_iat opts && (iat claims =? 0))%bool then Unexpected (B "missing iat claim")
  else if (require_jti opts && bool_decide (jti claims = []))%bool then Unexpected (B "missing jti claim")
  else Ok tt.

Definition validate_jwt_temporal_claims (claims : JwtClaims) (opts : JwtOptions) : expected unit bytes :=
  let skew := Z.max 0 (clock_skew opts) in
  let max_lifetime := max_token_lifetime opts in
  if (verify_exp opts && negb (exp claims =? 0) && token_expired (exp claims) (now w) skew)%bool
  then Unexpected (B "token expired")
  else if (verify_nbf opts && negb (nbf claims =? 0) && token_not_yet_valid (nbf claims) (now w) skew)%bool
  then Unexpected (B "token not yet valid")
  else if 0 <? max_lifetime then
    if exp claims =? 0 then Unexpected (B "missing exp claim")
    else if iat claims =? 0 then Unexpected (B "missing iat claim")
    else if exp claims <? iat claims then Unexpected (B "invalid token lifetime")
    else if max_lifetime <? exp claims - iat claims then Unexpected (B "token lifetime too long")
    else Ok tt
  else Ok tt.

Definition validate_jwt_subject_claims (claims : JwtClaims) (ds : DocumentStorage) (obj : ObjectView)
    (opts : JwtOptions) : option (expected unit bytes) :=
  if match revoked_jti opts with Some f => (negb (bool_decide (jti claims = [])) && f (jti claims))%bool | None => false end
  then Some (Unexpected (B "token revoked"))
  else if (negb (bool_decide (issuer opts = [])) && negb (bytes_eqb (iss claims) (issuer opts)))%bool
  then Some (Unexpected (B "issuer mismatch: got '" ++ iss claims ++ B "', want '" ++ issuer opts ++ B "'"))
  else if negb (bool_decide (audience opts = [])) then
    '(ds, aud_str) ← jwt_string_claim ds obj (B "aud");
    aud_match ←
      (if bytes_eqb aud_str (audience opts) then Some true
       else '(_, b) ← json_array_contains_string ds obj (B "aud") (audience opts); Some b);
    Some (if negb (aud_match : bool) then Unexpected (B "audience mismatch") else Ok tt)
  else Some (Ok tt).

Definition decode_jwt_payload (payload : bytes) (opts : JwtOptions) : option (expected JwtClaims bytes) :=
  doc ← parse_jwt_json payload (B "payload");
  match doc with
  | Unexpected e => Some (Unexpected e)
  | Ok (ds, obj) =>
      '(ds, claims) ← extract_registered_jwt_claims payload ds obj;
      match claims with
      | Unexpected e => Some (Unexpected e)
      | Ok claims =>
          match validate_jwt_required_claims claims opts with
          | Unexpected e => Some (Unexpected e)
          | Ok _ =>
              match validate_jwt_temporal_claims claims opts with
              | Unexpected e => Some (Unexpected e)
              | Ok _ =>
                  subject ← validate_jwt_subject_claims claims ds obj opts;
                  Some (match subject with Unexpected e => Unexpected e | Ok _ => Ok claims end)
              end
          end
      end
  end.

Definition jwt_decode (token : bytes) (opts : JwtOptions) : option (expected JwtClaims bytes) :=
  match validate_jwt_secrets (secrets opts) with
  | Unexpected e => Some (Unexpected e)
  | Ok _ =>
      if ((0 <? max_token_bytes opts) && (max_token_bytes opts <? length token))%nat%bool
      then Some (Unexpected (B "token too large"))
      else
        match split_jwt_token token with
        | Unexpected e => Some (Unexpected e)
        | Ok segments =>
            header ← decode_jwt_header (header_b64 segments);
            match header with
            | Unexpected e => Some (Unexpected e)
            | Ok _ =>
                match decode_jwt_payload_segment (payload_b64 segments) with
                | Unexpected e => Some (Unexpected e)
                | Ok payload_raw =>
                    signature ← verify_jwt_signature segments (secrets opts);
                    match signature with
                    | Unexpected e => Some (Unexpected e)
                    | Ok _ => decode_jwt_payload payload_raw opts
                    end
                end
            end
        end
  end.

End jwt.

(** [JwtOptions::public_server()], with the fields it leaves at their defaults. *)
Definition public_server : JwtOptions :=
  mkJwtOptions (mkSecrets [] [] 16) [] [] true true true true false 30 900 None (16 * 1024).

Definition jwt_sign_unchecked_with (header_json payload_json secret : bytes) : option bytes :=
  let header_b64 := base64url_encode header_json in
  let payload_b64 := base64url_encode payload_json in
  let signing_input := header_b64 ++ [x2e] ++ payload_b64 in
  sig ← hmac_sha256 secret signing_input;
  Some (signing_input ++ [x2e] ++ base64url_encode sig).

Definition kHeader : bytes := B "{" ++ [x22] ++ B "alg" ++ [x22] ++ B ":" ++ [x22] ++ B "HS256" ++ [x22] ++ B ","
  ++ [x22] ++ B "typ" ++ [x22] ++ B ":" ++ [x22] ++ B "JWT" ++ [x22] ++ B "}".

Definition jwt_sign_unchecked (payload_json secret : bytes) : option bytes :=
  jwt_sign_unchecked_with kHeader payload_json secret.

Definition jwt_sign (payload_json : bytes) (opts : JwtOptions) : option (expected bytes bytes) :=
  match validate_jwt_secrets (secrets opts) with
  | Unexpected e => Some (Unexpected e)
  | Ok _ => t ← jwt_sign_unchecked payload_json (active (secrets opts)); Some (Ok t)
  end.

End Jwt.

(** ** Signed cookies *)

Module CookieOk.
Import Secrets Cookie.

(** The text of a cookie signed with a secret. *)
Definition signed_text (value secret : bytes) : bytes := value ++ [x2e] ++ base64url_encode (hmac_ref secret value).

Lemma mac_b64_eq value secret : mac_b64 value secret = Some (base64url_encode (hmac_ref secret value)).
Proof. unfold mac_b64. by rewrite hmac_sha256_eq. Qed.

Lemma url_no_dot x : x2e ∉ base64url_encode x.
Proof.
  assert (forall d, 0 <= d < 64 -> sym_of kB64UrlAlphabet d <> x2e) as Hs.
  { intros d Hd E. pose proof (digit_sym _ _ b64url_good d Hd) as H. rewrite E in H.
    change (digit kB64UrlTable x2e) with (-1) in H. lia. }
  unfold base64url_encode. rewrite encode_enc, app_nil_r by apply b64url_good.
  revert x. apply list_ind3; [by apply not_elem_of_nil|intros a|intros a b|intros a b c x IH]; cbn [enc];
    rewrite ?not_elem_of_cons; repeat split; try done; try apply not_elem_of_nil; try apply not_eq_sym, Hs;
    apply dig_range; exact x00.
Qed.

Lemma signed_value_matches_eq value sig secret :
  signed_value_matches value sig secret = Some (bool_decide (sig = base64url_encode (hmac_ref secret value))).
Proof.
  unfold signed_value_matches. rewrite mac_b64_eq. cbn [mbind option_bind]. f_equal.
  pose proof (constant_time_eq_eq sig (base64url_encode (hmac_ref secret value))) as H.
  destruct (constant_time_eq _ _); case_bool_decide; naive_solver.
Qed.

Lemma any_previous_ok value sig previous :
  exists r, any_previous value sig previous = Some r /\
    (r = Some value \/ r = None) /\
    (r = Some value <-> exists p, p ∈ previous /\ sig = base64url_encode (hmac_ref p value)).
Proof.
  induction previous as [|p previous (r & E & Hr & IH)]; cbn [any_previous].
  - exists None. split; [done|]. split; [by right|]. split; [done|]. by intros (p & []%not_elem_of_nil & _).
  - rewrite signed_value_matches_eq. cbn [mbind option_bind]. case_bool_decide as Hs.
    + exists (Some value). split; [done|]. split; [by left|]. split; [|done].
      intros _. exists p. split; [apply list_elem_of_here|done].
    + exists r. split; [done|]. split; [done|]. rewrite IH. split.
      * intros (q & Hq & H). exists q. split; [by apply list_elem_of_further|done].
      * intros (q & [->|Hq]%elem_of_cons & H); [done|eauto].
Qed.

(** Splitting a signed text at its last dot. *)
Lemma signed_text_split value secret s dot :
  sv_rfind x2e s = Some dot ->
  s = signed_text value secret <->
  value = take dot s /\ drop (dot + 1) s = base64url_encode (hmac_ref secret value).
Proof.
  intros Hd. destruct (sv_rfind_Some _ _ _ Hd) as [Hs Hn]. unfold signed_text. split.
  - intros E. rewrite E in Hd. simpl in Hd. rewrite sv_rfind_app in Hd by apply url_no_dot. injection Hd as <-.
    rewrite E. simpl. rewrite take_app_length. split; [done|].
    by rewrite Nat.add_1_r, drop_after.
  - intros [-> E]. rewrite <- E. simpl. exact Hs.
Qed.

Lemma verify_validated_ok s secs :
  exists r, verify_cookie_with_validated_secrets s secs = Some r /\
    forall v, r = Some v <-> exists p, p ∈ active secs :: previous secs /\ s = signed_text v p.
Proof.
  unfold verify_cookie_with_validated_secrets. destruct (sv_rfind x2e s) as [dot|] eqn:Ed.
  2:{ exists None. split; [done|]. intros v. split; [done|]. intros (p & _ & ->).
      apply sv_rfind_None in Ed. destruct Ed. unfold signed_text. rewrite !elem_of_app. right. left. apply list_elem_of_here. }
  rewrite signed_value_matches_eq. cbn [mbind option_bind].
  set (value := take dot s). set (sig := drop (dot + 1) s).
  assert (forall v p, s = signed_text v p <-> v = value /\ sig = base64url_encode (hmac_ref p v)) as Hsplit
    by (intros v p; by apply signed_text_split).
  case_bool_decide as Ha.
  - exists (Some value). split; [done|]. intros v. split.
    + intros [= <-]. exists (active secs). split; [apply list_elem_of_here|]. by apply Hsplit.
    + intros (p & _ & [-> _]%Hsplit). done.
  - destruct (any_previous_ok value sig (previous secs)) as (r & -> & Hr & Hiff). exists r. split; [done|].
    intros v. split.
    + intros ->. destruct Hr as [[= ->]|]; [|done]. destruct (proj1 Hiff eq_refl) as (p & Hp & Hsig).
      exists p. split; [by apply list_elem_of_further|]. by apply Hsplit.
    + intros (p & Hp & [-> Hsig]%Hsplit). apply elem_of_cons in Hp as [->|Hp]; [done|]. apply Hiff. eauto.
Qed.

End CookieOk.

(** ** What a token says, on values *)

Module JwtSpec.
Import Secrets Jwt.

(** A text that is a JSON object with the given members. *)
Definition object_text (t : bytes) (ms : list (bytes * jval)) : Prop :=
  parse_spec default_parse_options t = Ok (JObj ms).

(** A string claim; anything else reads as the empty string. *)
Definition s_string (ms : list (bytes * jval)) (key : bytes) : bytes :=
  match jmember ms key with Ok (JStr s) => s | _ => [] end.

(** The [int64_t] a number text stands for, if it has integer form. *)
Definition lexeme_i64 (lex : bytes) : option Z :=
  match scan_number lex with
  | Some (_, true, _) => if (- 2 ^ 63 <=? int_value lex) && (int_value lex <? 2 ^ 63) then Some (int_value lex) else None
  | _ => None
  end.

(** A date claim: absent or null, or a non-negative integer. *)
Definition s_date (ms : list (bytes * jval)) (key : bytes) : option (option Z) :=
  match jmember ms key with
  | Unexpected _ | Ok JNull => Some None
  | Ok (JNum lex) =>
      match lexeme_i64 lex with
      | Some z => if z <? 0 then None else Some (Some z)
      | None => None
      end
  | Ok _ => None
  end.

Definition s_audience (ms : list (bytes * jval)) (a : bytes) : bool :=
  bytes_eqb (s_string ms (B "aud")) a ||
  match jmember ms (B "aud") with
  | Ok (JArr vs) => existsb (fun v => match v with JStr s => bytes_eqb s a | _ => false end) vs
  | _ => false
  end.

(** The registered claims of a payload. *)
Definition claims_of (payload : bytes) (ms : list (bytes * jval)) : option JwtClaims :=
  exp ← s_date ms (B "exp");
  nbf ← s_date ms (B "nbf");
  iat ← s_date ms (B "iat");
  Some (mkClaims (s_string ms (B "sub")) (s_string ms (B "iss")) (s_string ms (B "jti"))
    (value_or_0 exp) (value_or_0 nbf) (value_or_0 iat) payload).

(** The checks of the claims: the token ends after the present, less the skew, and
    starts before it, more the skew. A date of zero counts as absent, as does an empty
    identifier; a negative skew counts as zero. *)
Definition claims_good (w : world) (opts : JwtOptions) (ms : list (bytes * jval)) (c : JwtClaims) : Prop :=
  (require_exp opts = true -> exp c <> 0) /\ (require_iat opts = true -> iat c <> 0) /\
  (require_jti opts = true -> jti c <> []) /\
  (verify_exp opts = true -> exp c <> 0 -> now w - Z.max 0 (clock_skew opts) < exp c) /\
  (verify_nbf opts = true -> nbf c <> 0 -> nbf c <= now w + Z.max 0 (clock_skew opts)) /\
  (0 < max_token_lifetime opts ->
     exp c <> 0 /\ iat c <> 0 /\ 0 <= exp c - iat c <= max_token_lifetime opts) /\
  (forall f, revoked_jti opts = Some f -> jti c <> [] -> f (jti c) = false) /\
  (issuer opts <> [] -> iss c = issuer opts) /\
  (audience opts <> [] -> s_audience ms (audience opts) = true).

(** A token in its three segments, as the code cuts it: at its first two dots. *)
Definition three_segments (token h p s : bytes) : Prop :=
  token = h ++ [x2e] ++ p ++ [x2e] ++ s /\ x2e ∉ h /\ x2e ∉ p.

(** The token is signed with a configured secret. *)
Definition signed_by (secs : ResolvedSecretRotation) (h p s : bytes) : Prop :=
  exists secret, secret ∈ active secs :: previous secs /\
    base64url_decode s = hmac_ref secret (h ++ [x2e] ++ p).

Definition accepted (w : world) (opts : JwtOptions) (token : bytes) (c : JwtClaims) : Prop :=
  is_ok (validate_jwt_secrets (secrets opts)) = true /\
  (max_token_bytes opts = 0%nat \/ (length token <= max_token_bytes opts)%nat) /\
  exists h p s hms pms, three_segments token h p s /\ signed_by (secrets opts) h p s /\
    object_text (base64url_decode h) hms /\ s_string hms (B "alg") = B "HS256" /\
    object_text (base64url_decode p) pms /\ claims_of (base64url_decode p) pms = Some c /\
    claims_good w opts pms c.

End JwtSpec.

(** ** Claims read from the document are claims of the value *)

Module JwtOk.
Import Secrets Jwt JwtSpec.
Section ok.
Context (w : world).

(** An object view of a stored object. *)
Definition obj_at (ds : DocumentStorage) (ov : ObjectView) (ms : list (bytes * jval)) : Prop :=
  exists i n, denotes ds i (JObj ms) /\ nodes ds !! i = Some n /\ ov = mkObjectView (off n) (len n) i.

(** Lookups leave the extent of every node alone. *)
Lemma find_member_extent env ds ov name ds' r :
  find_member env ds ov name = Some (ds', r) ->
  forall i n, nodes ds !! i = Some n -> exists n', nodes ds' !! i = Some n' /\ off n' = off n /\ len n' = len n.
Proof.
  unfold find_member. destruct (mem_count_ ov <? kHashThreshold)%nat; [intros [= <- <-]; eauto|].
  destruct (nodes ds !! node_idx_ ov) as [m|]; [|done]. cbn [mbind option_bind].
  destruct (payload m); try done. destruct (run_find _ _ _ _ _) as [sl' pc]. destruct pc; try done.
  intros [= <- <-] i n Hn. unfold set_slot_of. destruct ds. simpl in *.
  rewrite list_lookup_alter. case_decide; [subst|]; rewrite Hn; simpl; eauto.
Qed.

Lemma object_find_ok ds ov ms name :
  obj_at ds ov ms ->
  exists ds' r, find_member (find_env w name) ds ov name = Some (ds', r) /\ obj_at ds' ov ms /\
    match r with
    | Some c => exists v, jmember ms name = Ok v /\ denotes ds' c v
    | None => exists e, jmember ms name = Unexpected e
    end.
Proof.
  intros (i & n & Hd & Hn & ->).
  destruct (find_member_ok (find_env w name) ds i ms name Hd) as (n' & ds' & r & Hn' & _ & E & Hk & Hr).
  rewrite Hn in Hn'. injection Hn' as <-. exists ds', r. split; [done|]. split.
  - destruct (find_member_extent _ _ _ _ _ _ E i n Hn) as (m & Hm & Ho & Hl).
    exists i, m. split; [by apply Hk|]. split; [done|]. by rewrite Ho, Hl.
  - destruct r as [c|]; [|by eexists]. destruct Hr as (v & Hj & Hv). exists v. split; [done|by apply Hk].
Qed.

Lemma scalar_strings ds i v :
  denotes ds i v -> exists r, as_string ds i = Some r /\
    match r with Ok s => v = JStr s | Unexpected _ => forall s, v <> JStr s end.
Proof.
  intros Hd. destruct (denotes_kind _ _ _ Hd) as (n & Hn & Hk). unfold as_string, node_rec. rewrite Hn.
  cbn [mbind option_bind]. eexists. split; [done|]. unfold kind_is. rewrite Hk.
  destruct v; cbn [nk_of negb]; try done.
  destruct Hd as (n' & Hn' & _ & [Hb _] & _). rewrite Hn in Hn'. injection Hn' as <-. by f_equal.
Qed.

Lemma is_null_ok ds i v : denotes ds i v -> is_null ds i = Some (match v with JNull => true | _ => false end).
Proof.
  intros (n & Hn & Hk)%denotes_kind. unfold is_null. rewrite Hn. cbn [mbind option_bind]. f_equal.
  destruct v; simpl in Hk; first [by apply kind_is_spec|by apply kind_is_false; rewrite Hk].
Qed.

Lemma string_claim_ok ds ov ms key :
  obj_at ds ov ms -> exists ds', jwt_string_claim w ds ov key = Some (ds', s_string ms key) /\ obj_at ds' ov ms.
Proof.
  intros Ho. unfold jwt_string_claim, optional_string, s_string.
  destruct (object_find_ok ds ov ms key Ho) as (ds' & r & -> & Ho' & Hr). cbn [mbind option_bind]. exists ds'.
  destruct r as [c|]; [destruct Hr as (v & -> & Hd)|destruct Hr as (e & ->); done].
  rewrite (is_null_ok _ _ _ Hd). cbn [mbind option_bind].
  destruct (scalar_strings ds' c v Hd) as (s & -> & Hs). cbn [mbind option_bind].
  destruct (denotes_kind _ _ _ Hd) as (n & Hn & _).
  destruct v as [|b|lex|t|vs|ms']; try (destruct s as [s|e]; [naive_solver|]; unfold type_err; rewrite Hn; done); [done|].
  destruct s as [s|e]; [|naive_solver]. naive_solver.
Qed.

Lemma as_i64_number ds i lex :
  denotes ds i (JNum lex) ->
  exists r, as_i64 ds i = Some r /\ match r with Ok z => lexeme_i64 lex = Some z | Unexpected _ => lexeme_i64 lex = None end.
Proof.
  intros Hd. destruct (as_number_view ds i lex Hd) as (n & b & Hn & Hj & Hnn & Hv).
  unfold as_i64, and_then. rewrite Hv. cbn [mbind option_bind]. eexists. split; [done|].
  pose proof (scan_number_complete lex b [] Hj I) as Hs. rewrite app_nil_r in Hs.
  assert (forall z, to_i64 (node_view lex n) = Ok z <-> lexeme_i64 lex = Some z) as Hz.
  { intros z. rewrite (node_view_i64 kRawInput lex _ _ b n z (or_intror eq_refl) Hnn).
    unfold lexeme_i64, int64_min, int64_max. rewrite Hs. destruct b; [|naive_solver].
    destruct (Z.leb_spec (- 2 ^ 63) (int_value lex)), (Z.ltb_spec (int_value lex) (2 ^ 63)); cbn [andb];
      (split; [intros; f_equal; intuition lia|intros [=]; intuition lia]) || (split; [intuition lia|done]). }
  destruct (to_i64 (node_view lex n)) as [z|e]; [by apply Hz|].
  destruct (lexeme_i64 lex) as [z|]; [|done]. by pose proof (proj2 (Hz z) eq_refl).
Qed.

Lemma as_i64_other ds i v :
  denotes ds i v -> (forall lex, v <> JNum lex) -> exists e, as_i64 ds i = Some (Unexpected e).
Proof.
  intros Hd Hno. destruct (denotes_kind _ _ _ Hd) as (n & Hn & Hk). unfold as_i64, and_then, as_number, node_rec.
  rewrite Hn. cbn [mbind option_bind]. rewrite kind_is_false; [by eexists|]. rewrite Hk. destruct v; naive_solver.
Qed.

Lemma date_claim_ok ds ov ms key error :
  obj_at ds ov ms ->
  exists ds', jwt_numeric_date_claim w ds ov key error =
      Some (ds', match s_date ms key with Some d => Ok d | None => Unexpected error end) /\ obj_at ds' ov ms.
Proof.
  intros Ho. unfold jwt_numeric_date_claim, optional_i64, s_date.
  destruct (object_find_ok ds ov ms key Ho) as (ds' & r & -> & Ho' & Hr). cbn [mbind option_bind]. exists ds'.
  destruct r as [c|]; [destruct Hr as (v & -> & Hd)|destruct Hr as (e & ->); done].
  rewrite (is_null_ok _ _ _ Hd). cbn [mbind option_bind].
  destruct v as [|b|lex|t|vs|ms'];
    try (destruct (as_i64_other ds' c _ Hd) as [e ->]; [intros ?; discriminate|done]); [done|].
  destruct (as_i64_number ds' c lex Hd) as (r & -> & Hr). cbn [mbind option_bind].
  destruct r as [z|e]; rewrite Hr; [|done]. cbn [mbind option_bind]. destruct (z <? 0); done.
Qed.

Lemma elements_ok ds av vs value :
  forall cs, Forall2 (fun c v => denotes ds c v) cs vs ->
  forall i, (forall k c, cs !! k = Some c -> element ds av (Z.of_nat (i + k)) = Some (Ok c)) ->
  elements_contain ds av i (length vs) value =
    Some (existsb (fun v => match v with JStr s => bytes_eqb s value | _ => false end) vs).
Proof.
  induction 1 as [|c v cs vs Hd Hall IH]; intros i Hel; [done|]. cbn [length elements_contain existsb].
  pose proof (Hel 0%nat c eq_refl) as E0. rewrite Nat.add_0_r in E0. rewrite E0. cbn [mbind option_bind].
  destruct (scalar_strings ds c v Hd) as (r & -> & Hr). cbn [mbind option_bind].
  assert (elements_contain ds av (S i) (length vs) value =
    Some (existsb (fun v => match v with JStr s => bytes_eqb s value | _ => false end) vs)) as IH'.
  { apply IH. intros k c' Hk. rewrite <- (Hel (S k) c' Hk). do 2 f_equal. lia. }
  destruct r as [s|e].
  - subst v. by destruct (bytes_eqb s value).
  - rewrite IH'. destruct v; try done. by destruct (Hr s).
Qed.

Lemma array_contains_ok ds ov ms key value :
  obj_at ds ov ms ->
  exists ds', json_array_contains_string w ds ov key value =
    Some (ds', match jmember ms key with
               | Ok (JArr vs) => existsb (fun v => match v with JStr s => bytes_eqb s value | _ => false end) vs
               | _ => false
               end).
Proof.
  intros Ho. unfold json_array_contains_string.
  destruct (object_find_ok ds ov ms key Ho) as (ds' & r & -> & Ho' & Hr). cbn [mbind option_bind]. exists ds'.
  destruct r as [c|]; [destruct Hr as (v & -> & Hd)|destruct Hr as (e & ->); done].
  destruct (denotes_kind _ _ _ Hd) as (n & Hn & Hk). unfold as_array, node_rec. rewrite Hn. cbn [mbind option_bind].
  destruct v as [|b|lex|t|vs|ms']; try (rewrite (kind_is_false n NK_array) by (rewrite Hk; done); done).
  rewrite (proj2 (kind_is_spec n NK_array) Hk). cbn [negb].
  destruct Hd as (n' & Hn' & _ & Hlen & Hall%all2_Forall2). rewrite Hn in Hn'. injection Hn' as <-.
  cbn [child_count_]. rewrite <- Hlen.
  erewrite (elements_ok ds' _ vs value (slice (array_children ds') (off n) (len n))); [done| |].
  - eapply Forall2_impl; [exact Hall|]. naive_solver.
  - intros k c' Hk'. unfold element. cbn [child_count_ child_start_ Nat.add].
    pose proof (Forall2_length _ _ _ Hall) as Hl. pose proof (lookup_lt_Some _ _ _ Hk').
    destruct (Z.leb_spec (Z.of_nat (length vs)) (Z.of_nat k)); [lia|]. rewrite Nat2Z.id.
    apply slice_lookup in Hk'. by rewrite Hk'.
Qed.

Lemma parse_jwt_json_ok t segment :
  exists r, parse_jwt_json w t segment = Some r /\
    match r with
    | Ok (ds, ov) => exists ms, object_text t ms /\ obj_at ds ov ms
    | Unexpected _ => forall ms, ~ object_text t ms
    end.
Proof.
  unfold parse_jwt_json, object_text.
  pose proof (parse_document_storage_ok (hash_env w) default_parse_options prepare_borrowed_input t prepares_borrowed) as H.
  change (parse_document_storage _ _ _ t) with (parse (hash_env w) default_parse_options t) in H.
  destruct (parse (hash_env w) default_parse_options t) as [ds|e| |]; simpl in H; try done.
  - destruct H as (v & Hs & Hd). destruct (denotes_kind _ _ _ Hd) as (n & Hn & Hk).
    unfold as_object, node_rec. rewrite Hn. cbn [mbind option_bind]. eexists. split; [done|].
    destruct v as [| | | | |ms]; try (rewrite (kind_is_false n NK_object) by (rewrite Hk; done); cbn [negb]; congruence).
    rewrite (proj2 (kind_is_spec n NK_object) Hk). cbn [negb]. exists ms. split; [done|]. by exists (root_node ds), n.
  - eexists. split; [done|]. simpl. destruct H as (Hs & _). congruence.
Qed.

Lemma extract_ok payload ds ov ms :
  obj_at ds ov ms ->
  exists ds' r, extract_registered_jwt_claims w payload ds ov = Some (ds', r) /\ obj_at ds' ov ms /\
    match r with Ok c => claims_of payload ms = Some c | Unexpected _ => claims_of payload ms = None end.
Proof.
  intros H0. unfold extract_registered_jwt_claims, claims_of.
  destruct (string_claim_ok ds ov ms (B "sub") H0) as (d1 & -> & H1). cbn [mbind option_bind].
  destruct (string_claim_ok d1 ov ms (B "iss") H1) as (d2 & -> & H2). cbn [mbind option_bind].
  destruct (string_claim_ok d2 ov ms (B "jti") H2) as (d3 & -> & H3). cbn [mbind option_bind].
  destruct (date_claim_ok d3 ov ms (B "exp") (B "invalid exp claim") H3) as (d4 & -> & H4). cbn [mbind option_bind].
  destruct (s_date ms (B "exp")) as [e|]; [|by eexists _, _]. cbn [mbind option_bind].
  destruct (date_claim_ok d4 ov ms (B "nbf") (B "invalid nbf claim") H4) as (d5 & -> & H5). cbn [mbind option_bind].
  destruct (s_date ms (B "nbf")) as [n|]; [|by eexists _, _]. cbn [mbind option_bind].
  destruct (date_claim_ok d5 ov ms (B "iat") (B "invalid iat claim") H5) as (d6 & -> & H6). cbn [mbind option_bind].
  destruct (s_date ms (B "iat")) as [i|]; by eexists _, _.
Qed.

(** The claim checks, one guard at a time. *)
Lemma is_ok_guard {A E} (b : bool) (e : E) (r : expected A E) :
  is_ok (if b then Unexpected e else r) = true <-> b = false /\ is_ok r = true.
Proof. destruct b; simpl; naive_solver. Qed.

Lemma required_ok c opts :
  is_ok (validate_jwt_required_claims c opts) = true <->
  (require_exp opts = true -> exp c <> 0) /\ (require_iat opts = true -> iat c <> 0) /\
  (require_jti opts = true -> jti c <> []).
Proof.
  unfold validate_jwt_required_claims. rewrite !is_ok_guard, !andb_false_iff, !Z.eqb_neq, bool_decide_eq_false.
  destruct (require_exp opts), (require_iat opts), (require_jti opts); naive_solver.
Qed.

Lemma guard_if_present (b : bool) z t : (b && negb (z =? 0) && t)%bool = false <-> (b = true -> z <> 0 -> t = false).
Proof. destruct b, (Z.eqb_spec z 0), t; simpl; naive_solver. Qed.

Lemma lifetime_ok c opts :
  is_ok (if 0 <? max_token_lifetime opts then
    if exp c =? 0 then Unexpected (B "missing exp claim")
    else if iat c =? 0 then Unexpected (B "missing iat claim")
    else if exp c <? iat c then Unexpected (B "invalid token lifetime")
    else if max_token_lifetime opts <? exp c - iat c then Unexpected (B "token lifetime too long")
    else Ok tt else Ok tt) = true <->
  (0 < max_token_lifetime opts -> exp c <> 0 /\ iat c <> 0 /\ 0 <= exp c - iat c <= max_token_lifetime opts).
Proof.
  destruct (Z.ltb_spec 0 (max_token_lifetime opts)) as [Hm|Hm]; [|split; [lia|done]].
  rewrite !is_ok_guard, !Z.eqb_neq, !Z.ltb_ge. simpl. split; [intros (? & ? & ? & ? & _); lia|].
  intros H. specialize (H Hm). intuition lia.
Qed.

(** The comparisons of the dates, whose tests keep the arithmetic in range. *)
Lemma expired_spec e now skew : 0 < e -> token_expired e now skew = false <-> now - skew < e.
Proof. intros He. unfold token_expired. destruct (Z.leb_spec now skew); [split; [lia|done]|]. rewrite Z.leb_gt. lia. Qed.

Lemma not_yet_spec n now skew : n < 2 ^ 63 -> token_not_yet_valid n now skew = false <-> n <= now + skew.
Proof. intros Hn. unfold token_not_yet_valid, int64_top. destruct (Z.ltb_spec (2 ^ 63 - 1 - now) skew); [split; [lia|done]|]. rewrite Z.ltb_ge. lia. Qed.

Lemma claims_range payload ms c : claims_of payload ms = Some c -> 0 <= exp c /\ nbf c < 2 ^ 63.
Proof.
  assert (Hd : forall key d, s_date ms key = Some d -> 0 <= value_or_0 d < 2 ^ 63).
  { intros key d. unfold s_date, lexeme_i64. destruct (jmember ms key) as [[| |lex| | |]|]; try done; try (intros [= <-]; cbn; lia).
    destruct (scan_number lex) as [[[l []] r]|]; try done. destruct (_ && _) eqn:E; [|done]. apply andb_true_iff in E as [_ E%Z.ltb_lt].
    destruct (Z.ltb_spec (int_value lex) 0); [done|]. intros [= <-]. cbn. lia. }
  unfold claims_of. destruct (s_date ms (B "exp")) as [e|] eqn:Ee; [|done]. cbn [mbind option_bind].
  destruct (s_date ms (B "nbf")) as [n|] eqn:En; [|done]. cbn [mbind option_bind]. destruct (s_date ms (B "iat")); [|done].
  cbn [mbind option_bind]. intros [= <-]. cbn. apply Hd in Ee, En. lia.
Qed.

Lemma temporal_ok c opts :
  0 <= exp c -> nbf c < 2 ^ 63 ->
  is_ok (validate_jwt_temporal_claims w c opts) = true <->
  (verify_exp opts = true -> exp c <> 0 -> now w - Z.max 0 (clock_skew opts) < exp c) /\
  (verify_nbf opts = true -> nbf c <> 0 -> nbf c <= now w + Z.max 0 (clock_skew opts)) /\
  (0 < max_token_lifetime opts -> exp c <> 0 /\ iat c <> 0 /\ 0 <= exp c - iat c <= max_token_lifetime opts).
Proof.
  intros He Hn. unfold validate_jwt_temporal_claims. cbv zeta.
  rewrite is_ok_guard, is_ok_guard, !guard_if_present, lifetime_ok, not_yet_spec by done.
  split; intros (H1 & H2); (split; [|exact H2]); intros Hv Hz; specialize (H1 Hv Hz); apply expired_spec; done || lia.
Qed.

Lemma subject_ok c ds ov ms opts :
  obj_at ds ov ms ->
  exists r, validate_jwt_subject_claims w c ds ov opts = Some r /\
    (is_ok r = true <->
     (forall f, revoked_jti opts = Some f -> jti c <> [] -> f (jti c) = false) /\
     (issuer opts <> [] -> iss c = issuer opts) /\
     (audience opts <> [] -> s_audience ms (audience opts) = true)).
Proof.
  intros Ho. unfold validate_jwt_subject_claims.
  set (rev := match revoked_jti opts with Some f => _ | None => false end).
  assert (rev = false <-> (forall f, revoked_jti opts = Some f -> jti c <> [] -> f (jti c) = false)) as Hrev.
  { unfold rev. destruct (revoked_jti opts) as [f|]; [|naive_solver].
    case_bool_decide; destruct (f (jti c)) eqn:Ef; simpl; naive_solver. }
  assert ((negb (bool_decide (issuer opts = [])) && negb (bytes_eqb (iss c) (issuer opts)))%bool = false <->
    (issuer opts <> [] -> iss c = issuer opts)) as Hiss.
  { pose proof (bytes_eqb_eq (iss c) (issuer opts)) as Hb.
    case_bool_decide; destruct (bytes_eqb (iss c) (issuer opts)); simpl; naive_solver. }
  setoid_rewrite <- Hrev. setoid_rewrite <- Hiss. destruct rev; [eexists; split; [done|]; simpl; naive_solver|].
  destruct (_ && _)%bool; [eexists; split; [done|]; simpl; naive_solver|].
  case_bool_decide as Ha; cbn [negb]; [eexists; split; [done|]; simpl; naive_solver|].
  destruct (string_claim_ok ds ov ms (B "aud") Ho) as (d1 & -> & H1). cbn [mbind option_bind].
  destruct (array_contains_ok d1 ov ms (B "aud") (audience opts) H1) as (d2 & E2).
  assert ((if bytes_eqb (s_string ms (B "aud")) (audience opts) then Some true
    else '(_, b) ← json_array_contains_string w d1 ov (B "aud") (audience opts); Some b) =
    Some (s_audience ms (audience opts))) as ->.
  { unfold s_audience. destruct (bytes_eqb _ _); [done|]. by rewrite E2. }
  cbn [mbind option_bind]. eexists. split; [done|]. destruct (s_audience ms (audience opts)); simpl; naive_solver.
Qed.

Lemma payload_ok payload opts :
  exists r, decode_jwt_payload w payload opts = Some r /\
    forall c, r = Ok c <-> exists pms, object_text payload pms /\ claims_of payload pms = Some c /\ claims_good w opts pms c.
Proof.
  unfold decode_jwt_payload. destruct (parse_jwt_json_ok payload (B "payload")) as (r & -> & Hr). cbn [mbind option_bind].
  destruct r as [[ds ov]|e]; [|eexists; split; [done|]; intros c; split; [done|]; intros (pms & H & _); by destruct (Hr pms)].
  destruct Hr as (ms & Hms & Ho). destruct (extract_ok payload ds ov ms Ho) as (ds' & r & -> & Ho' & Hr). cbn [mbind option_bind].
  assert (forall pms, object_text payload pms -> pms = ms) as Huniq by (unfold object_text in *; congruence).
  destruct r as [c|e].
  2:{ eexists. split; [done|]. intros c. split; [done|]. intros (pms & ->%Huniq & H & _). congruence. }
  destruct (claims_range payload ms c Hr) as [Hexp Hnbf].
  pose proof (required_ok c opts) as H1. pose proof (temporal_ok c opts Hexp Hnbf) as H2.
  destruct (subject_ok c ds' ov ms opts Ho') as (rs & Es & H3).
  assert (forall r : expected JwtClaims bytes, (exists c', r = Ok c' /\ c' = c /\ claims_good w opts ms c) \/ ((exists e, r = Unexpected e) /\ ~ claims_good w opts ms c) ->
    forall c', r = Ok c' <-> exists pms, object_text payload pms /\ claims_of payload pms = Some c' /\ claims_good w opts pms c') as Hfin.
  { intros r [(c' & -> & -> & Hg)|((e & ->) & Hg)] c''.
    - split; [intros [= <-]; eauto|]. intros (pms & ->%Huniq & H & _). congruence.
    - split; [done|]. intros (pms & ->%Huniq & H & Hg'). destruct Hg. congruence. }
  assert (claims_good w opts ms c <-> is_ok (validate_jwt_required_claims c opts) = true /\
    is_ok (validate_jwt_temporal_claims w c opts) = true /\ is_ok rs = true) as Hgood.
  { rewrite H1, H2, H3. unfold claims_good. tauto. }
  clear H1 H2 H3.
  destruct (validate_jwt_required_claims c opts) as [u1|e1]; [|eexists; split; [done|]; apply Hfin; right; split; [eauto|]; by intros (Hx & _)%Hgood].
  destruct (validate_jwt_temporal_claims w c opts) as [u2|e2]; [|eexists; split; [done|]; apply Hfin; right; split; [eauto|]; by intros (_ & Hx & _)%Hgood].
  rewrite Es. cbn [mbind option_bind]. eexists. split; [done|]. apply Hfin.
  destruct rs as [u3|e3].
  - left. exists c. split; [done|]. split; [done|]. by apply Hgood.
  - right. split; [eauto|]. by intros (_ & _ & Hx)%Hgood.
Qed.

Lemma no_empty_object ms : ~ object_text [] ms.
Proof. unfold object_text. intros H. vm_compute in H. discriminate H. Qed.

Lemma header_ok h :
  exists r, decode_jwt_header w h = Some r /\
    (is_ok r = true <-> exists hms, object_text (base64url_decode h) hms /\ s_string hms (B "alg") = B "HS256").
Proof.
  unfold decode_jwt_header. destruct (base64url_decode h) as [|c0 rest] eqn:Eh; cbv zeta.
  { eexists. split; [done|]. split; [done|]. intros (hms & H & _). by destruct (no_empty_object hms). }
  set (header := c0 :: rest) in *. destruct (parse_jwt_json_ok header (B "header")) as (r & -> & Hr). cbn [mbind option_bind].
  destruct r as [[ds ov]|e].
  - destruct Hr as (ms & Hms & Ho). destruct (string_claim_ok ds ov ms (B "alg") Ho) as (ds' & -> & _). cbn [mbind option_bind].
    eexists. split; [done|]. pose proof (bytes_eqb_eq (s_string ms (B "alg")) (B "HS256")) as Hb.
    destruct (bytes_eqb _ _); cbn [negb is_ok].
    + split; [|done]. intros _. exists ms. split; [done|]. by apply Hb.
    + split; [done|]. intros (hms & Hh & Ha). unfold object_text in *. rewrite Hms in Hh. injection Hh as <-.
      by apply Hb in Ha.
  - eexists. split; [done|]. split; [done|]. intros (hms & Hh & _). by destruct (Hr hms).
Qed.

Lemma split_ok token :
  match split_jwt_token token with
  | Ok seg => three_segments token (header_b64 seg) (payload_b64 seg) (signature_b64 seg) /\
      signing_input seg = header_b64 seg ++ [x2e] ++ payload_b64 seg
  | Unexpected _ => forall h p s, ~ three_segments token h p s
  end.
Proof.
  unfold split_jwt_token, three_segments. destruct (find_byte x2e token) as [d1|] eqn:E1.
  2:{ intros h p s (-> & _). apply find_byte_None in E1. apply E1. rewrite !elem_of_app. right. left. apply list_elem_of_here. }
  destruct (find_byte_Some _ _ _ E1) as [Et Hn1]. pose proof (find_byte_lt _ _ _ E1) as Hlt.
  set (h := take d1 token) in *. set (t1 := drop (S d1) token) in *.
  assert (length h = d1) as Hh by (unfold h; rewrite length_take; lia). clearbody h t1. subst token d1.
  unfold sv_find. rewrite Nat.add_1_r, drop_after. destruct (find_byte x2e t1) as [d2|] eqn:E2; cbn [fmap option_fmap option_map].
  2:{ intros h' p s (E & Hh' & _). apply find_byte_None in E2. apply E2.
      pose proof (find_byte_app x2e h t1 Hn1) as F1. rewrite E in F1. cbn [app] in F1.
      rewrite find_byte_app in F1 by done. injection F1 as F1.
      apply app_inj_1 in E as [_ E]; [|done]. injection E as ->.
      rewrite elem_of_app. right. apply list_elem_of_here. }
  destruct (find_byte_Some _ _ _ E2) as [Et2 Hn2]. pose proof (find_byte_lt _ _ _ E2) as Hlt2.
  set (p := take d2 t1) in *. set (s := drop (S d2) t1) in *.
  assert (length p = d2) as Hp by (unfold p; rewrite length_take; lia). clearbody p s. subst t1 d2.
  cbn [header_b64 payload_b64 signature_b64 signing_input].
  unfold substr. rewrite drop_after.
  replace (S (length h) + length p - length h - 1)%nat with (length p) by lia. rewrite take_app_length.
  replace (S (length h) + length p + 1)%nat with (S (length h) + S (length p))%nat by lia.
  rewrite <- drop_drop, !drop_after. split; [done|].
  replace (h ++ x2e :: p ++ x2e :: s) with ((h ++ [x2e] ++ p) ++ x2e :: s) by (by rewrite <- !app_assoc).
  apply take_app_length'. rewrite !length_app. simpl. lia.
Qed.

Lemma three_segments_uniq token h p s h' p' s' :
  three_segments token h p s -> three_segments token h' p' s' -> h = h' /\ p = p' /\ s = s'.
Proof.
  assert (forall a b x y : bytes, a ++ x2e :: x = b ++ x2e :: y -> x2e ∉ a -> x2e ∉ b -> a = b /\ x = y) as Hone.
  { intros a b x y E Ha Hb. pose proof (find_byte_app x2e a x Ha) as F. rewrite E, find_byte_app in F by done.
    injection F as F. apply app_inj_1 in E as [-> E]; [|done]. by injection E. }
  intros (-> & H1 & H2) (E & H1' & H2'). apply Hone in E as [-> E]; [|done|done].
  by apply Hone in E as [-> ->].
Qed.

Lemma previous_matches_ok input sig prev :
  previous_matches input sig prev = Some (bool_decide (Exists (fun p => sig = hmac_ref p input) prev)).
Proof.
  induction prev as [|p prev IH]; cbn [previous_matches]; [by rewrite bool_decide_false by (by intros ?%Exists_nil)|].
  unfold jwt_signature. rewrite hmac_sha256_eq. cbn [mbind option_bind].
  pose proof (constant_time_eq_eq sig (hmac_ref p input)) as Hc. destruct (constant_time_eq _ _).
  - rewrite bool_decide_true; [done|]. left. by apply Hc.
  - rewrite IH. f_equal. apply bool_decide_ext. rewrite Exists_cons. naive_solver.
Qed.

Lemma signature_matches_ok input sig secs :
  signature_matches input sig secs =
    Some (bool_decide (Exists (fun p => sig = hmac_ref p input) (active secs :: previous secs))).
Proof. apply (previous_matches_ok input sig (active secs :: previous secs)). Qed.

Lemma signature_ok seg secs :
  signing_input seg = header_b64 seg ++ [x2e] ++ payload_b64 seg ->
  exists r, verify_jwt_signature seg secs = Some r /\
    (is_ok r = true <-> signed_by secs (header_b64 seg) (payload_b64 seg) (signature_b64 seg)).
Proof.
  intros Hi. unfold verify_jwt_signature, signed_by. rewrite <- Hi.
  destruct (base64url_decode (signature_b64 seg)) as [|c0 rest]; cbv zeta.
  { eexists. split; [done|]. split; [done|]. intros (p & _ & H). apply (f_equal length) in H.
    unfold hmac_ref in H. by rewrite digest256_length in H. }
  rewrite signature_matches_ok. cbn [mbind option_bind]. eexists. split; [done|].
  setoid_rewrite <- Exists_exists. case_bool_decide; cbn [negb is_ok]; naive_solver.
Qed.

Lemma jwt_decode_ok token opts :
  exists r, jwt_decode w token opts = Some r /\ forall c, r = Ok c <-> accepted w opts token c.
Proof.
  unfold jwt_decode, accepted. destruct (validate_jwt_secrets (secrets opts)) as [u|e]; cbn [is_ok].
  2:{ eexists. split; [done|]. by intros c; split; [|intros (? & _)]. }
  destruct ((0 <? max_token_bytes opts) && (max_token_bytes opts <? length token))%nat%bool eqn:Em.
  { apply andb_true_iff in Em as [H1%Nat.ltb_lt H2%Nat.ltb_lt].
    eexists. split; [done|]. intros c. split; [done|]. intros (_ & [H|H] & _); lia. }
  assert (max_token_bytes opts = 0%nat \/ (length token <= max_token_bytes opts)%nat) as Hm.
  { apply andb_false_iff in Em as [H%Nat.ltb_ge|H%Nat.ltb_ge]; [left|right]; lia. }
  pose proof (split_ok token) as Hs. destruct (split_jwt_token token) as [seg|e].
  2:{ eexists. split; [done|]. intros c. split; [done|]. intros (_ & _ & h & p & s & hms & pms & H3 & _). by destruct (Hs h p s). }
  destruct Hs as [H3 Hi]. destruct (header_ok (header_b64 seg)) as (rh & -> & Hh). cbn [mbind option_bind].
  destruct (signature_ok seg (secrets opts) Hi) as (rs & Es & Hsig).
  destruct (payload_ok (base64url_decode (payload_b64 seg)) opts) as (rp & Ep & Hp).
  assert (forall c, (is_ok rh = true /\ is_ok rs = true /\ rp = Ok c) <->
    true = true /\ (max_token_bytes opts = 0%nat \/ (length token <= max_token_bytes opts)%nat) /\
    exists h p s hms pms, three_segments token h p s /\ signed_by (secrets opts) h p s /\
      object_text (base64url_decode h) hms /\ s_string hms (B "alg") = B "HS256" /\
      object_text (base64url_decode p) pms /\ claims_of (base64url_decode p) pms = Some c /\
      claims_good w opts pms c) as Hall.
  { intros c. rewrite Hh, Hsig, Hp. split.
    - intros ((hms & A1 & A2) & A3 & pms & A4 & A5 & A6). split; [done|]. split; [done|].
      by exists (header_b64 seg), (payload_b64 seg), (signature_b64 seg), hms, pms.
    - intros (_ & _ & h & p & s & hms & pms & A0 & A3 & A1 & A2 & A4 & A5 & A6).
      destruct (three_segments_uniq _ _ _ _ _ _ _ H3 A0) as (-> & -> & ->). split; [eauto|]. split; [done|eauto]. }
  setoid_rewrite <- Hall. clear Hall Hh Hsig. destruct rh as [u1|e1]; [|by eexists; split; [|intros c; split; [|intros (? & _)]]].
  unfold decode_jwt_payload_segment.
  destruct (base64url_decode (payload_b64 seg)) as [|c0 rest] eqn:Epl.
  { eexists. split; [done|]. intros c. split; [done|]. intros (_ & _ & H). apply Hp in H as (pms & H & _).
    by destruct (no_empty_object pms). }
  rewrite Es. cbn [mbind option_bind]. destruct rs as [u2|e2]; [|by eexists; split; [|intros c; split; [|intros (_ & ? & _)]]].
  exists rp. split; [done|]. intros c. split; [done|]. by intros (_ & _ & ?).
Qed.
End ok.
End JwtOk.

(** ** The theorems *)

Module TokenProps.
Import Secrets Cookie CookieOk Jwt JwtSpec JwtOk.

(** C28: signed cookies. Verification always returns; it returns a value exactly
    when the secrets are valid and the text is that value, a dot and the
    Base64 HMAC of the value under the active or a previous secret. So every
    cookie the library signs verifies, and no other text does. *)
Theorem cookie_exact s secs value :
  (exists r, verify_cookie s secs = Some r /\
     forall v, r = Some v <-> is_ok (validate_secret_rotation secs (B "cookie")) = true /\
       exists p, p ∈ active secs :: previous secs /\ s = signed_text v p) /\
  (forall t, sign_cookie value secs = Some (Ok t) -> verify_cookie t secs = Some (Some value)).
Proof.
  destruct (verify_validated_ok s secs) as (r & E & Hr). unfold verify_cookie, sign_cookie.
  destruct (validate_secret_rotation secs (B "cookie")) as [u|e]; cbn [is_ok].
  - split; [exists r; split; [done|]; intros v; rewrite Hr; naive_solver|].
    intros t. unfold sign_cookie_unchecked. rewrite mac_b64_eq. cbn [mbind option_bind]. intros [= <-].
    change (value ++ x2e :: base64url_encode (hmac_ref (active secs) value)) with (signed_text value (active secs)).
    destruct (verify_validated_ok (signed_text value (active secs)) secs) as (r' & -> & Hr'). f_equal. apply Hr'.
    exists (active secs). split; [apply list_elem_of_here|done].
  - split; [|done]. exists None. split; [done|]. naive_solver.
Qed.


Lemma kHeader_text : object_text kHeader [(B "alg", JStr (B "HS256")); (B "typ", JStr (B "JWT"))].
Proof. unfold object_text. vm_compute. reflexivity. Qed.

(** The text of a token over a header and a payload. *)
Definition token_text (header payload secret : bytes) : bytes :=
  let signing_input := base64url_encode header ++ [x2e] ++ base64url_encode payload in
  signing_input ++ [x2e] ++ base64url_encode (hmac_ref secret signing_input).

Lemma sign_text header payload secret :
  jwt_sign_unchecked_with header payload secret = Some (token_text header payload secret).
Proof. unfold jwt_sign_unchecked_with. by rewrite hmac_sha256_eq. Qed.

Lemma url_decode_encode x : base64url_decode (base64url_encode x) = x.
Proof. apply (b64_decode_encode _ _ b64url_good x false). Qed.

Lemma token_text_signed header payload secs :
  exists h p s, three_segments (token_text header payload (active secs)) h p s /\ signed_by secs h p s /\
    base64url_decode h = header /\ base64url_decode p = payload.
Proof.
  unfold token_text, three_segments, signed_by. eexists (base64url_encode header), (base64url_encode payload), _.
  split; [split; [by rewrite <- !app_assoc|split; apply url_no_dot]|].
  split; [|by rewrite !url_decode_encode]. exists (active secs). split; [apply list_elem_of_here|apply url_decode_encode].
Qed.

Lemma signed_token_accepted w opts payload ms c token :
  object_text payload ms -> claims_of payload ms = Some c -> claims_good w opts ms c ->
  jwt_sign payload opts = Some (Ok token) ->
  (max_token_bytes opts = 0%nat \/ (length token <= max_token_bytes opts)%nat) ->
  jwt_decode w token opts = Some (Ok c).
Proof.
  intros Hms Hc Hg. unfold jwt_sign, jwt_sign_unchecked. rewrite sign_text. cbn [mbind option_bind].
  destruct (validate_jwt_secrets (secrets opts)) as [u|e] eqn:Ev; [|done]. intros Ht Hm.
  assert (token = token_text kHeader payload (active (secrets opts))) as -> by congruence.
  destruct (jwt_decode_ok w (token_text kHeader payload (active (secrets opts))) opts) as (r & -> & Hr).
  f_equal. apply Hr. split; [by rewrite Ev|]. split; [done|].
  destruct (token_text_signed kHeader payload (secrets opts)) as (h & p & s & H3 & Hs & Hh & Hp).
  exists h, p, s, [(B "alg", JStr (B "HS256")); (B "typ", JStr (B "JWT"))], ms. rewrite Hh, Hp.
  split; [done|]. split; [done|]. split; [exact kHeader_text|]. split; [vm_compute; reflexivity|]. done.
Qed.

(** what the library signs, it accepts: a token signed over a payload whose
    claims pass the checks, within the size limit, decodes to the claims of
    that payload, whatever the hash seeds and allocations. *)
Theorem jwt_roundtrip w opts payload ms c token :
  object_text payload ms -> claims_of payload ms = Some c -> claims_good w opts ms c ->
  jwt_sign payload opts = Some (Ok token) ->
  (max_token_bytes opts = 0%nat \/ (length token <= max_token_bytes opts)%nat) ->
  jwt_decode w token opts = Some (Ok c).
Proof. apply signed_token_accepted. Qed.

(** Options with a secret and the defaults of [JwtOptions]: expiry is checked. *)
Definition checking_options : JwtOptions :=
  mkJwtOptions (mkSecrets (B "0123456789abcdef") [] 16) [] [] true true false false false 0 0 None 0.

Definition at_time (t : Z) : world := mkWorld t (fun _ => None) (fun _ => None).

Definition sample_payload : bytes :=
  B "{" ++ [x22] ++ B "sub" ++ [x22] ++ B ":" ++ [x22] ++ B "ada" ++ [x22] ++ B "," ++
  [x22] ++ B "exp" ++ [x22] ++ B ":2000}".

Definition sample_token : bytes :=
  match jwt_sign sample_payload checking_options with Some (Ok t) => t | _ => [] end.

Lemma jwt_roundtrip_witness :
  jwt_decode (at_time 1000) sample_token checking_options =
    Some (Ok (mkClaims (B "ada") [] [] 2000 0 0 sample_payload)).
Proof.
  apply (jwt_roundtrip (at_time 1000) checking_options sample_payload
    [(B "sub", JStr (B "ada")); (B "exp", JNum (B "2000"))]).
  - unfold object_text. vm_compute. reflexivity.
  - vm_compute. reflexivity.
  - unfold claims_good. cbn. repeat split; try done; try lia.
  - vm_compute. reflexivity.
  - by left.
Defined.

(** A payload that expired in 1970. *)
Definition epoch_payload : bytes := B "{" ++ [x22] ++ B "exp" ++ [x22] ++ B ":0}".

Definition epoch_token : bytes :=
  match jwt_sign epoch_payload checking_options with Some (Ok t) => t | _ => [] end.

(** an [exp] claim of 0 never expires. With expiry checks on, a token whose
    payload has an [exp] claim with the value 0 is accepted at every time: the
    code represents a missing claim by the value 0. *)
Theorem jwt_exp_zero_accepted t :
  jmember [(B "exp", JNum (B "0"))] (B "exp") = Ok (JNum (B "0")) /\
  verify_exp checking_options = true /\
  jwt_decode (at_time t) epoch_token checking_options = Some (Ok (mkClaims [] [] [] 0 0 0 epoch_payload)).
Proof.
  split; [reflexivity|]. split; [done|].
  apply (signed_token_accepted (at_time t) checking_options epoch_payload [(B "exp", JNum (B "0"))]).
  - unfold object_text. vm_compute. reflexivity.
  - vm_compute. reflexivity.
  - unfold claims_good. cbn. repeat split; try done; try lia.
  - vm_compute. reflexivity.
  - by left.
Qed.

End TokenProps.
