(* ===== verification/Throttle.v ===== *)
(** * Rate limiting and login throttling

    [src/src/net/rate_limit.cxx] and [rate_limit_impl.cxx] (the rate-limit
    middleware and its sharded store) and the guards of
    [src/src/net/auth.cxx] (the Basic-auth middleware with its failure limiter,
    the bearer middleware, [AuthFailureLimiter] and its middleware). The bucket
    stores are used through the interface [RecencyMap] of the LRU map; the clock is an argument, in nanoseconds as
    [steady_clock] counts; the hash of a key is a parameter. Each operation runs
    under its mutex, so calls are modelled one after the other.

    The theorems bound the requests that pass in any window and the number of
    tracked clients, and say how long an address or a subject stays refused over
    any sequence of requests that the stores have room for. One shows a lockout
    that ends early. *)

From Stdlib Require Import ZArith Lia Strings.Byte String.
From stdpp Require Import base tactics option numbers list.
From S2P Require Import Prelude Codec HttpBody LruMap Crypto Cidr.

Definition second : Z := 1000000000.

(** [std::chrono::duration_cast<std::chrono::seconds>]: towards zero. *)
Definition to_seconds (d : Z) : Z := Z.quot d second.

Module Rate.

Record RateLimitOptions := mkOptions { requests : Z; window : Z; burst : Z; max_clients : nat }.

Record Bucket := mkBucket { tokens : Z; window_start : Z }.

Definition target_shards : nat := 64.
Definition min_clients_per_shard : nat := 1024.

(** The capacities of the shards the constructor makes. *)
Definition shard_capacities (max_clients : nat) : list nat :=
  let total := Nat.max max_clients 1 in
  let shard_count := Nat.min target_shards (Nat.max 1 (total / min_clients_per_shard)) in
  let base := (total / shard_count)%nat in
  let extra := (total mod shard_count)%nat in
  map (fun i => (base + if (i <? extra)%nat then 1 else 0)%nat) (seq 0 shard_count).

(** [capacity]: unsigned arithmetic. *)
Definition capacity (opts : RateLimitOptions) : Z := u32 (requests opts + burst opts).

(** The body of the middleware on one bucket: the bucket after the request, and
    [None] to go on or the [Retry-After] of the 429 response. *)
Definition use_bucket (opts : RateLimitOptions) (now : Z) (bucket : Bucket) : Bucket * option Z :=
  let elapsed := to_seconds (now - window_start bucket) in
  let '(bucket, elapsed) :=
    if window opts <=? elapsed then (mkBucket (capacity opts) now, 0) else (bucket, elapsed) in
  if 0 <? tokens bucket then (mkBucket (u32 (tokens bucket - 1)) (window_start bucket), None)
  else (bucket, Some (u32 (window opts - elapsed))).

(** ** Keys *)

Section keys.
Context (inet_pton : family -> bytes -> option bytes).
Context (inet_ntop : family -> bytes -> option bytes).

Definition decimal_port (value : bytes) : bool :=
  negb (bool_decide (value = [])) && forallb is_digit value.

Definition canonical_ip (s : bytes) : option bytes := Ip.ip_to_string inet_ntop <$> Ip.parse_ip inet_pton s.

Definition canonical_endpoint_ip (remote_addr : bytes) : option bytes :=
  if bool_decide (head remote_addr = Some x5b) then
    match find_byte x5d remote_addr with
    | None => None
    | Some close =>
        if ((length remote_addr <=? close + 1)%nat || negb (bool_decide (remote_addr !! (close + 1)%nat = Some x3a)))%bool
        then None
        else if negb (decimal_port (drop (close + 2) remote_addr)) then None
        else canonical_ip (substr remote_addr 1 (close - 1))
    end
  else
    match sv_rfind x3a remote_addr with
    | None => None
    | Some colon =>
        if negb (bool_decide (find_byte x3a remote_addr = Some colon)) then None
        else if negb (decimal_port (drop (colon + 1) remote_addr)) then None
        else canonical_ip (take colon remote_addr)
    end.

Definition rate_limit_remote_key (remote_addr : bytes) : bytes :=
  match remote_addr with
  | [] => B "unknown"
  | _ =>
      match Ip.parse_ip inet_pton remote_addr with
      | Some parsed => Ip.ip_to_string inet_ntop parsed
      | None => match canonical_endpoint_ip remote_addr with Some parsed => parsed | None => remote_addr end
      end
  end.
End keys.

(** ** The sharded store and the middleware *)

Section store.
Context {T : Type} `{RM : RecencyMap Bucket T} (hash : bytes -> Z).

Definition make_store (max_clients : nat) : list T := map rm_new (shard_capacities max_clients).

(** [shards_[hash(key) % shards_.size()]]. *)
Definition shard_index (shards : list T) (key : bytes) : nat := Z.to_nat (hash key mod Z.of_nat (length shards)).

Definition with_bucket {R} (shards : list T) (key : bytes) (factory : Bucket) (fn : Bucket -> Bucket * R)
  : option (list T * R) :=
  shard ← shards !! shard_index shards key;
  '(shard, r) ← rm_get_or_create shard key factory;
  let '(bucket, res) := fn (touched r) in
  shard ← rm_store shard key bucket;
  Some (<[shard_index shards key := shard]> shards, res).

(** One request: the key is that of [rate_limit_remote_key]. *)
Definition rate_limit_middleware (opts : RateLimitOptions) (shards : list T) (now : Z) (key : bytes)
  : option (list T * option Z) :=
  with_bucket shards key (mkBucket (capacity opts) now) (use_bucket opts now).

(** Requests, each with its time and key, and their verdicts. *)
Fixpoint serve (opts : RateLimitOptions) (shards : list T) (reqs : list (Z * bytes))
  : option (list T * list (option Z)) :=
  match reqs with
  | [] => Some (shards, [])
  | (now, key) :: reqs =>
      '(shards, v) ← rate_limit_middleware opts shards now key;
      '(shards, vs) ← serve opts shards reqs;
      Some (shards, v :: vs)
  end.

(** The clients the store tracks. *)
Definition tracked (shards : list T) : nat := sum_list_with rm_size shards.
End store.

End Rate.

(** ** The Basic-auth failure limiter *)

Module BasicAuth.

Definition credentials_for_auth_scheme (authorization scheme : bytes) : option bytes :=
  if ((length authorization <=? length scheme)%nat || negb (bool_decide (authorization !! length scheme = Some x20)))%bool
  then None
  else if negb (MediaType.ascii_iequals (take (length scheme) authorization) scheme) then None
  else Some (Ascii.trim (drop (length scheme + 1) authorization)).

Record BasicCredentials := mkCredentials { username : bytes; password : bytes }.

Definition parse_basic_credentials (authorization : bytes) : option BasicCredentials :=
  match credentials_for_auth_scheme authorization (B "Basic") with
  | None => None
  | Some credentials =>
      let decoded := Base64.base64_decode credentials in
      match find_byte x3a decoded with
      | None => None
      | Some colon => Some (mkCredentials (take colon decoded) (drop (colon + 1) decoded))
      end
  end.

Definition failed_auth_key (remote_addr : bytes) : bytes :=
  match remote_addr with [] => B "unknown" | _ => remote_addr end.

Record BasicAuthOptions := mkBasic { failed_attempts : Z; failed_window : Z }.

Record FailedAuthBucket := mkFailed { failures : Z; f_window_start : Z }.

Definition basic_auth_limiter_enabled (opts : BasicAuthOptions) : bool :=
  negb (failed_attempts opts =? 0) && (0 <? failed_window opts).

(** What the middleware reads of a request, and the clock then. *)
Record BasicRequest := mkBasicRequest { r_time : Z; r_remote : bytes; r_authorization : bytes }.

Section basic.
Context {T : Type} `{RM : RecencyMap FailedAuthBucket T}.

(** [FailedAuthState(max)]. *)
Definition make_state (max_failed_clients : nat) : T := rm_new (Nat.max max_failed_clients 1).

Definition basic_auth_retry_after (state : T) (opts : BasicAuthOptions) (key : bytes) (now : Z)
  : option (T * option Z) :=
  if negb (basic_auth_limiter_enabled opts) then Some (state, None)
  else
    '(state, bucket) ← rm_find state key;
    match bucket with
    | None => Some (state, None)
    | Some bucket =>
        let elapsed := to_seconds (now - f_window_start bucket) in
        if failed_window opts <=? elapsed then
          '(state, _) ← rm_erase state key;
          Some (state, None)
        else if failures bucket <? failed_attempts opts then Some (state, None)
        else Some (state, Some (Z.max 1 (failed_window opts - elapsed)))
    end.

Definition record_basic_auth_failure (state : T) (opts : BasicAuthOptions) (key : bytes) (now : Z) : option T :=
  if negb (basic_auth_limiter_enabled opts) then Some state
  else
    '(state, r) ← rm_get_or_create state key (mkFailed 0 now);
    let bucket := touched r in
    let elapsed := to_seconds (now - f_window_start bucket) in
    let bucket := if failed_window opts <=? elapsed then mkFailed 0 now else bucket in
    let bucket :=
      if failures bucket <? 2 ^ 32 - 1 then mkFailed (failures bucket + 1) (f_window_start bucket) else bucket in
    rm_store state key bucket.

Definition clear_basic_auth_failures (state : T) (opts : BasicAuthOptions) (key : bytes) : option T :=
  if negb (basic_auth_limiter_enabled opts) then Some state
  else '(state, _) ← rm_erase state key; Some state.

(** What the middleware answers: the rest of the chain, a 401 challenge or a 429
    with its [Retry-After]. *)
Inductive auth_verdict := Next | Unauthorized | TooMany (retry_after : Z).

Definition too_many_auth_attempts (retry_after : Z) : auth_verdict := TooMany (Z.max 1 retry_after).

Definition basic_auth_middleware (validator : bytes -> bytes -> bool) (opts : BasicAuthOptions) (state : T)
  (remote_addr authorization : bytes) (now : Z) : option (T * auth_verdict) :=
  let limiter_key := failed_auth_key remote_addr in
  match parse_basic_credentials authorization with
  | None => Some (state, Unauthorized)
  | Some credentials =>
      '(state, retry) ← basic_auth_retry_after state opts limiter_key now;
      match retry with
      | Some retry_after => Some (state, too_many_auth_attempts retry_after)
      | None =>
          if validator (username credentials) (password credentials) then
            state ← clear_basic_auth_failures state opts limiter_key;
            Some (state, Next)
          else
            state ← record_basic_auth_failure state opts limiter_key now;
            Some (state, Unauthorized)
      end
  end.

(** Requests of any addresses, one after the other. *)
Fixpoint basic_requests (validator : bytes -> bytes -> bool) (opts : BasicAuthOptions) (state : T)
  (reqs : list BasicRequest) : option (T * list auth_verdict) :=
  match reqs with
  | [] => Some (state, [])
  | r :: reqs =>
      '(state, v) ← basic_auth_middleware validator opts state (r_remote r) (r_authorization r) (r_time r);
      '(state, vs) ← basic_requests validator opts state reqs;
      Some (state, v :: vs)
  end.
End basic.

Definition bearer_auth_middleware (validator : bytes -> bool) (authorization : bytes) : auth_verdict :=
  match credentials_for_auth_scheme authorization (B "Bearer") with
  | None => Unauthorized
  | Some credentials => if negb (validator credentials) then Unauthorized else Next
  end.
End BasicAuth.

(** ** [AuthFailureLimiter] *)

Module AuthLimiter.

Record AuthThrottleOptions := mkThrottle {
  max_failures : Z; t_window : Z; lockout : Z; max_subjects : nat; max_subject_bytes : nat
}.

Record AuthThrottleOutcome := mkOutcome { allowed : bool; retry_after : Z; o_failures : Z; locked : bool }.

Record AuthThrottleBucket := mkAuth { failures : Z; a_window_start : Z; locked_until : Z }.

Record AuthThrottleMetrics := mkMetrics {
  allowed_attempts : Z; blocked_attempts : Z; failures_recorded : Z; successes_recorded : Z; subjects_evicted : Z
}.

Definition auth_throttle_enabled (opts : AuthThrottleOptions) : bool :=
  negb (max_failures opts =? 0) && (0 <? t_window opts).

(** [std::chrono::ceil<std::chrono::seconds>]. *)
Definition ceil_seconds (d : Z) : Z :=
  let t := to_seconds d in if t * second <? d then t + 1 else t.

Definition retry_after_until (deadline now : Z) : Z :=
  if deadline <=? now then 1 else Z.max 1 (ceil_seconds (deadline - now)).

Definition auth_throttle_digest_subject (subject : bytes) : option bytes :=
  digest ← Sha.sha256 subject;
  Some (B "sha256:" ++ Base64.base64url_encode digest).

Definition canonical_auth_throttle_subject (subject : bytes) (max_bytes : nat) : option bytes :=
  if (length subject <=? max_bytes)%nat then Some subject else auth_throttle_digest_subject subject.

(** A default [time_point] is zero. *)
Definition refresh_auth_bucket_window (bucket : AuthThrottleBucket) (opts : AuthThrottleOptions) (now : Z)
  : AuthThrottleBucket :=
  if (negb (locked_until bucket =? 0) && (locked_until bucket <=? now))%bool then mkAuth 0 now 0
  else
    let elapsed := to_seconds (now - a_window_start bucket) in
    if t_window opts <=? elapsed then mkAuth 0 now 0 else bucket.

Definition auth_bucket_outcome (bucket : AuthThrottleBucket) (opts : AuthThrottleOptions) (now : Z)
  : AuthThrottleOutcome :=
  if negb (auth_throttle_enabled opts) then mkOutcome true 0 (failures bucket) false
  else if (negb (locked_until bucket =? 0) && (now <? locked_until bucket))%bool then
    mkOutcome false (retry_after_until (locked_until bucket) now) (failures bucket) true
  else if max_failures opts <=? failures bucket then
    mkOutcome false (retry_after_until (a_window_start bucket + t_window opts * second) now) (failures bucket) true
  else mkOutcome true 0 (failures bucket) false.

Definition allow : AuthThrottleOutcome := mkOutcome true 0 0 false.

(** What the middleware sees of an attempt: the subject, the status of the rest
    of the chain, and the clock before and after it. *)
Record AuthAttempt := mkAttempt { a_subject : bytes; a_status : Z; a_now : Z; a_later : Z }.

Section limiter.
Context {T : Type} `{RM : RecencyMap AuthThrottleBucket T}.

Record AuthThrottleState := mkState { buckets : T; metrics : AuthThrottleMetrics }.

Definition make_limiter (opts : AuthThrottleOptions) : AuthThrottleState :=
  mkState (rm_new (Nat.max (max_subjects opts) 1)) (mkMetrics 0 0 0 0 0).

Definition count_allowed (m : AuthThrottleMetrics) :=
  mkMetrics (u64 (allowed_attempts m + 1)) (blocked_attempts m) (failures_recorded m) (successes_recorded m) (subjects_evicted m).
Definition count_blocked (m : AuthThrottleMetrics) :=
  mkMetrics (allowed_attempts m) (u64 (blocked_attempts m + 1)) (failures_recorded m) (successes_recorded m) (subjects_evicted m).
Definition count_failure (m : AuthThrottleMetrics) :=
  mkMetrics (allowed_attempts m) (blocked_attempts m) (u64 (failures_recorded m + 1)) (successes_recorded m) (subjects_evicted m).
Definition count_success (m : AuthThrottleMetrics) :=
  mkMetrics (allowed_attempts m) (blocked_attempts m) (failures_recorded m) (u64 (successes_recorded m + 1)) (subjects_evicted m).
Definition count_evicted (m : AuthThrottleMetrics) :=
  mkMetrics (allowed_attempts m) (blocked_attempts m) (failures_recorded m) (successes_recorded m) (u64 (subjects_evicted m + 1)).

Definition before_attempt (st : AuthThrottleState) (opts : AuthThrottleOptions) (subject : bytes) (now : Z)
  : option (AuthThrottleState * AuthThrottleOutcome) :=
  if (bool_decide (subject = []) || negb (auth_throttle_enabled opts))%bool then Some (st, allow)
  else
    key ← canonical_auth_throttle_subject subject (max_subject_bytes opts);
    '(b, found) ← rm_find (buckets st) key;
    match found with
    | None => Some (mkState b (count_allowed (metrics st)), allow)
    | Some bucket =>
        let bucket := refresh_auth_bucket_window bucket opts now in
        b ← rm_store b key bucket;
        let out := auth_bucket_outcome bucket opts now in
        Some (mkState b ((if allowed out then count_allowed else count_blocked) (metrics st)), out)
    end.

Definition record_failure (st : AuthThrottleState) (opts : AuthThrottleOptions) (subject : bytes) (now : Z)
  : option (AuthThrottleState * AuthThrottleOutcome) :=
  if (bool_decide (subject = []) || negb (auth_throttle_enabled opts))%bool then Some (st, allow)
  else
    key ← canonical_auth_throttle_subject subject (max_subject_bytes opts);
    '(b, r) ← rm_get_or_create (buckets st) key (mkAuth 0 now 0);
    let m := if evicted r then count_evicted (metrics st) else metrics st in
    let bucket := refresh_auth_bucket_window (touched r) opts now in
    let bucket :=
      if failures bucket <? 2 ^ 32 - 1
      then mkAuth (failures bucket + 1) (a_window_start bucket) (locked_until bucket) else bucket in
    let bucket :=
      if ((max_failures opts <=? failures bucket) && (0 <? lockout opts))%bool
      then mkAuth (failures bucket) (a_window_start bucket) (now + lockout opts * second) else bucket in
    b ← rm_store b key bucket;
    Some (mkState b (count_failure m), auth_bucket_outcome bucket opts now).

Definition record_success (st : AuthThrottleState) (opts : AuthThrottleOptions) (subject : bytes)
  : option AuthThrottleState :=
  if bool_decide (subject = []) then Some st
  else
    key ← canonical_auth_throttle_subject subject (max_subject_bytes opts);
    '(b, _) ← rm_erase (buckets st) key;
    Some (mkState b (count_success (metrics st))).

Definition clear (st : AuthThrottleState) (opts : AuthThrottleOptions) (subject : bytes) : option AuthThrottleState :=
  if bool_decide (subject = []) then Some st
  else
    key ← canonical_auth_throttle_subject subject (max_subject_bytes opts);
    '(b, _) ← rm_erase (buckets st) key;
    Some (mkState b (metrics st)).

(** [snapshot]: the counters and the number of tracked subjects. *)
Definition snapshot (st : AuthThrottleState) : AuthThrottleMetrics * nat := (metrics st, rm_size (buckets st)).

Record AuthThrottleMiddlewareOptions := mkAuthMiddleware {
  failure_statuses : list Z; clear_on_success : bool; success_status_min : Z; success_status_max : Z
}.

(** [status] is an [int]; the converted value is compared only when it is not
    negative. *)
Definition auth_response_is_failure (status : Z) (opts : AuthThrottleMiddlewareOptions) : bool :=
  (0 <=? status) && bool_decide (status ∈ failure_statuses opts).

Definition auth_response_is_success (status : Z) (opts : AuthThrottleMiddlewareOptions) : bool :=
  (0 <=? status) && (success_status_min opts <=? status) && (status <=? success_status_max opts).

(** [auth_throttle_middleware] on the key its selector gives: [next] is the
    status of the rest of the chain; the clock is read at [now] before it and at
    [later] after it. The answer is a status, with the wait of a 429. *)
Definition auth_throttle_middleware (limiter_opts : AuthThrottleOptions) (opts : AuthThrottleMiddlewareOptions)
  (st : AuthThrottleState) (key : option bytes) (next now later : Z) : option (AuthThrottleState * (Z + Z)) :=
  match key with
  | None => Some (st, inl next)
  | Some key =>
      '(st, gate) ← before_attempt st limiter_opts key now;
      if negb (allowed gate) then Some (st, inr (Z.max 1 (retry_after gate)))
      else if auth_response_is_failure next opts then
        '(st, _) ← record_failure st limiter_opts key later;
        Some (st, inl next)
      else if clear_on_success opts && auth_response_is_success next opts then
        st ← record_success st limiter_opts key;
        Some (st, inl next)
      else Some (st, inl next)
  end.

(** Attempts of any subjects, one after the other. *)
Fixpoint auth_attempts (limiter_opts : AuthThrottleOptions) (opts : AuthThrottleMiddlewareOptions)
  (st : AuthThrottleState) (attempts : list AuthAttempt) : option (AuthThrottleState * list (Z + Z)) :=
  match attempts with
  | [] => Some (st, [])
  | a :: attempts =>
      '(st, r) ← auth_throttle_middleware limiter_opts opts st (Some (a_subject a)) (a_status a) (a_now a) (a_later a);
      '(st, rs) ← auth_attempts limiter_opts opts st attempts;
      Some (st, r :: rs)
  end.

(** Failures of one subject at the given times. *)
Fixpoint record_failures (st : AuthThrottleState) (opts : AuthThrottleOptions) (subject : bytes) (times : list Z)
  : option AuthThrottleState :=
  match times with
  | [] => Some st
  | t :: times => '(st, _) ← record_failure st opts subject t; record_failures st opts subject times
  end.
End limiter.
Arguments AuthThrottleState : clear implicits.
End AuthLimiter.

(** ** One bucket *)

Module RateOk.
Import Rate.

Lemma second_pos : 0 < second.
Proof. done. Qed.

(** Whole seconds reach a positive bound exactly when the duration does. *)
Lemma to_seconds_le w d : 0 < w -> w <= to_seconds d <-> w * second <= d.
Proof.
  intros Hw. unfold to_seconds. pose proof second_pos as Hs. destruct (Z_lt_le_dec d 0) as [Hd|Hd].
  - pose proof (Z.quot_opp_l d second ltac:(lia)) as Ho. pose proof (Z.quot_pos (- d) second ltac:(lia) ltac:(lia)).
    split; intros; nia.
  - rewrite Z.quot_div_nonneg by lia. split.
    + intros H. pose proof (Z.mul_div_le d second Hs). nia.
    + intros H. apply Z.div_le_lower_bound; lia.
Qed.

Section bucket.
Context (opts : RateLimitOptions) (Hw : 0 < window opts).

Definition in_window (a t : Z) : Prop := a <= t < a + window opts * second.

Definition bucket_ok (b : Bucket) : Prop := 0 <= tokens b <= capacity opts.

Lemma capacity_range : 0 <= capacity opts < 2 ^ 32.
Proof. unfold capacity, u32. apply Z.mod_pos_bound. lia. Qed.

Lemma use_bucket_ok now b b' v : bucket_ok b -> use_bucket opts now b = (b', v) -> bucket_ok b'.
Proof.
  intros Hb. unfold use_bucket, bucket_ok in *. pose proof capacity_range as Hc.
  destruct (window opts <=? to_seconds (now - window_start b)); cbn [tokens window_start].
  - destruct (Z.ltb_spec 0 (capacity opts)); intros [= <- <-]; cbn [tokens]; [rewrite u32_small; lia|lia].
  - destruct (Z.ltb_spec 0 (tokens b)); intros [= <- <-]; cbn [tokens]; [rewrite u32_small; lia|lia].
Qed.

(** What can still pass in the window that starts at [a]: the tokens left and,
    if the bucket's own window began before, one refill. *)
Definition budget (a : Z) (b : Bucket) : Z := tokens b + if window_start b <? a then capacity opts else 0.

Lemma use_bucket_budget a now b b' v :
  bucket_ok b -> in_window a now -> use_bucket opts now b = (b', v) ->
  (match v with None => 1 | Some _ => 0 end) + budget a b' <= budget a b.
Proof.
  intros Hb Hn. unfold use_bucket, budget, bucket_ok, in_window in *. pose proof capacity_range as Hc.
  destruct (Z.leb_spec (window opts) (to_seconds (now - window_start b))) as [Hr|Hr].
  - apply to_seconds_le in Hr; [|done]. destruct (Z.ltb_spec (window_start b) a); [|lia].
    cbn [tokens window_start]. destruct (Z.ltb_spec 0 (capacity opts)); intros [= <- <-]; cbn [tokens window_start];
      destruct (Z.ltb_spec now a); try lia. rewrite u32_small by lia. lia.
  - destruct (Z.ltb_spec 0 (tokens b)); intros [= <- <-]; cbn [tokens window_start]; [|lia].
    rewrite u32_small by lia. lia.
Qed.

(** A refused request is told to come back in at least a second and at most a
    window, and a request that late passes. *)
Lemma refused_retry now b b' r :
  bucket_ok b -> 0 < capacity opts -> window opts < 2 ^ 32 -> window_start b <= now ->
  use_bucket opts now b = (b', Some r) ->
  1 <= r <= window opts /\ forall later, now + r * second <= later -> snd (use_bucket opts later b') = None.
Proof.
  intros Hb Hc Hw2 Hs. unfold use_bucket.
  destruct (Z.leb_spec (window opts) (to_seconds (now - window_start b))) as [Hr|Hr].
  { cbn [tokens]. destruct (Z.ltb_spec 0 (capacity opts)); [done|lia]. }
  destruct (Z.ltb_spec 0 (tokens b)); [done|]. intros [= <- <-].
  assert (0 <= to_seconds (now - window_start b)) as H0 by (apply Z.quot_pos; [lia|apply second_pos]).
  rewrite u32_small by lia. split; [lia|]. intros later Hl.
  assert (window opts <= to_seconds (later - window_start b)) as Hr2.
  { apply to_seconds_le; [done|]. pose proof (Z.quot_rem' (now - window_start b) second) as Hq.
    pose proof (Z.rem_nonneg (now - window_start b) second ltac:(pose proof second_pos; lia) ltac:(lia)).
    unfold to_seconds in *. nia. }
  destruct (Z.leb_spec (window opts) (to_seconds (later - window_start b))); [|lia]. cbn [tokens].
  by destruct (Z.ltb_spec 0 (capacity opts)); [|lia].
Qed.
End bucket.

(** ** The store, key by key *)

Section store.
Context {T : Type} `{RM : RecencyMap Bucket T} (hash : bytes -> Z) (opts : RateLimitOptions).

(** Every client with a bucket of its own. *)
Definition fresh_bucket (now : Z) : Bucket := mkBucket (capacity opts) now.

Definition set_at (f : bytes -> option Bucket) (k : bytes) (b : Bucket) : bytes -> option Bucket :=
  fun j => if decide (j = k) then Some b else f j.

Fixpoint ideal (f : bytes -> option Bucket) (reqs : list (Z * bytes)) : (bytes -> option Bucket) * list (option Z) :=
  match reqs with
  | [] => (f, [])
  | (now, k) :: reqs =>
      let '(b, v) := use_bucket opts now (default (fresh_bucket now) (f k)) in
      let '(f, vs) := ideal (set_at f k b) reqs in (f, v :: vs)
  end.

(** The requests of one client that passed. *)
Definition passed (k : bytes) (reqs : list (Z * bytes)) (vs : list (option Z)) : nat :=
  length (filter (fun x => x.1.2 = k /\ x.2 = None) (zip reqs vs)).

Lemma ideal_bound (Hw : 0 < window opts) a k reqs f :
  (forall j b, f j = Some b -> bucket_ok opts b) -> Forall (fun r => in_window opts a r.1) reqs ->
  Z.of_nat (passed k reqs (ideal f reqs).2) <= match f k with Some b => budget opts a b | None => capacity opts end.
Proof.
  unfold passed. revert f. induction reqs as [|[now j] reqs IH]; intros f Hf Hr; cbn [ideal].
  - cbn. destruct (f k) as [b|] eqn:E; [|pose proof (capacity_range opts); lia].
    specialize (Hf k b E). unfold budget, bucket_ok in *. pose proof (capacity_range opts). case_match; lia.
  - apply Forall_cons in Hr as [Hn Hr]. cbn [fst] in Hn.
    set (b0 := default (fresh_bucket now) (f j)).
    assert (bucket_ok opts b0) as Hb0.
    { unfold b0. destruct (f j) eqn:E; [by eapply Hf|]. unfold bucket_ok, fresh_bucket. cbn. pose proof (capacity_range opts). lia. }
    destruct (use_bucket opts now b0) as [b v] eqn:E.
    pose proof (use_bucket_ok opts now b0 b v Hb0 E) as Hb.
    pose proof (use_bucket_budget opts Hw a now b0 b v Hb0 Hn E) as Hbud.
    assert (forall i c, set_at f j b i = Some c -> bucket_ok opts c) as Hf'.
    { intros i c. unfold set_at. case_decide; [by intros [= <-]|apply Hf]. }
    specialize (IH (set_at f j b) Hf' Hr). destruct (ideal (set_at f j b) reqs) as [f' vs]. cbn [snd] in *.
    cbn [zip zip_with]. rewrite filter_cons. cbn [fst snd]. unfold set_at in IH.
    destruct (decide (k = j)) as [->|Hne].
    + assert (budget opts a b0 <= match f j with Some b => budget opts a b | None => capacity opts end) as Hb0'.
      { unfold b0. destruct (f j); [done|]. unfold budget, fresh_bucket. cbn [default from_option tokens window_start].
        unfold in_window in Hn. destruct (Z.ltb_spec now a); simpl; lia. }
      destruct v; [rewrite decide_False by naive_solver|rewrite decide_True by done];
        cbn [length]; lia.
    + rewrite decide_False by naive_solver. exact IH.
Qed.

(** The store holds what the ideal does, and room for the clients of [U]. *)
Definition store_ok (U : list bytes) (f : bytes -> option Bucket) (shards : list T) : Prop :=
  (0 < length shards)%nat /\
  forall i t, shards !! i = Some t -> exists m l, rm_models t m l /\ (length U <= m)%nat /\
    (forall k, k ∈ l.*1 -> k ∈ U) /\ (forall k, shard_index hash shards k = i -> Recency.lookup_ k l = f k).

Lemma shard_index_lt (shards : list T) k : (0 < length shards)%nat -> (shard_index hash shards k < length shards)%nat.
Proof.
  intros H. unfold shard_index. pose proof (Z.mod_pos_bound (hash k) (Z.of_nat (length shards)) ltac:(lia)). lia.
Qed.

Lemma middleware_ok U f shards now k :
  store_ok U f shards -> k ∈ U ->
  let '(b, v) := use_bucket opts now (default (fresh_bucket now) (f k)) in
  exists shards', rate_limit_middleware hash opts shards now k = Some (shards', v) /\ store_ok U (set_at f k b) shards'.
Proof.
  intros [Hlen Hs] Hk. unfold rate_limit_middleware, with_bucket. set (i := shard_index hash shards k).
  pose proof (shard_index_lt shards k Hlen) as Hi.
  destruct (lookup_lt_is_Some_2 shards i Hi) as [t Ht]. rewrite Ht. cbn [mbind option_bind].
  destruct (Hs i t Ht) as (m & l & M & Hm & Hl & Hf). destruct (rm_bound t m l M) as (Hn & _ & _).
  destruct (rm_get_or_create_ok t m l k (mkBucket (capacity opts) now) M) as (t1 & -> & M1). cbn [mbind option_bind].
  destruct (RecencyFacts.get_or_make_room m k (mkBucket (capacity opts) now) l) as (E1 & E2 & E3 & E4).
  { intros Hno. by eapply Roomy.room. }
  rewrite E1, (Hf k eq_refl). fold (fresh_bucket now).
  destruct (use_bucket opts now (default (fresh_bucket now) (f k))) as [b v].
  destruct (rm_store_ok t1 m _ k b M1) as (t2 & -> & M2); [rewrite E2; eauto|]. cbn [mbind option_bind].
  eexists. split; [done|]. split; [by rewrite length_insert|].
  intros j t' Hj. unfold shard_index. rewrite length_insert. fold (shard_index hash shards).
  destruct (decide (j = i)) as [->|Hne].
  - rewrite list_lookup_insert_eq in Hj by done. injection Hj as <-.
    exists m, (Recency.assign k b (Recency.get_or_make m k (mkBucket (capacity opts) now) l).1).
    split; [done|]. split; [done|]. split.
    + intros x. rewrite RecencyFacts.keys_assign, E4. intros [->|Hx]; [done|by apply Hl].
    + intros x Hx. unfold set_at. case_decide as Hxk.
      * subst x. apply RecencyFacts.lookup_assign_eq. rewrite E2. eauto.
      * rewrite RecencyFacts.lookup_assign_ne, E3 by done. by apply Hf.
  - rewrite list_lookup_insert_ne in Hj by done. destruct (Hs j t' Hj) as (m' & l' & M' & Hm' & Hl' & Hf').
    exists m', l'. split; [done|]. split; [done|]. split; [done|]. intros x Hx. unfold set_at.
    rewrite decide_False; [by apply Hf'|]. intros ->. by apply Hne.
Qed.

Lemma serve_ok U reqs f shards :
  store_ok U f shards -> Forall (fun r => r.2 ∈ U) reqs ->
  exists shards', serve hash opts shards reqs = Some (shards', (ideal f reqs).2) /\ store_ok U (ideal f reqs).1 shards'.
Proof.
  revert f shards. induction reqs as [|[now k] reqs IH]; intros f shards Hs Hr; cbn [serve ideal]; [by exists shards|].
  apply Forall_cons in Hr as [Hk Hr]. pose proof (middleware_ok U f shards now k Hs Hk) as Hstep.
  destruct (use_bucket opts now (default (fresh_bucket now) (f k))) as [b v]. destruct Hstep as (s1 & -> & Hs1).
  cbn [mbind option_bind]. destruct (IH (set_at f k b) s1 Hs1 Hr) as (s2 & E & Hs2).
  destruct (ideal (set_at f k b) reqs) as [f2 vs]. cbn [fst snd] in *. rewrite E. cbn [mbind option_bind]. by exists s2.
Qed.

Lemma ideal_ok reqs f :
  (forall j b, f j = Some b -> bucket_ok opts b) -> forall j b, (ideal f reqs).1 j = Some b -> bucket_ok opts b.
Proof.
  revert f. induction reqs as [|[now k] reqs IH]; intros f Hf; cbn [ideal]; [done|].
  destruct (use_bucket opts now (default (fresh_bucket now) (f k))) as [b v] eqn:E.
  specialize (IH (set_at f k b)). destruct (ideal (set_at f k b) reqs) as [f2 vs]. cbn [fst] in *. apply IH.
  intros i c. unfold set_at. case_decide; [|apply Hf]. intros [= <-].
  eapply use_bucket_ok; [|exact E]. destruct (f k) eqn:Ek; [by eapply Hf|].
  unfold bucket_ok, fresh_bucket. cbn. pose proof (capacity_range opts). lia.
Qed.

(** ** Capacities *)

Lemma seq_extra c extra :
  (extra <= c)%nat -> sum_list_with (fun i => if (i <? extra)%nat then 1%nat else 0%nat) (seq 0 c) = extra.
Proof.
  intros H. assert (forall n k, sum_list_with (fun i => if (i <? extra)%nat then 1%nat else 0%nat) (seq k n) =
    (Nat.min extra (k + n) - Nat.min extra k)%nat) as Hg; [|rewrite Hg; lia].
  induction n as [|n IH]; intros k; cbn [seq sum_list_with]; [lia|]. rewrite IH.
  destruct (Nat.ltb_spec k extra); lia.
Qed.

Lemma capacities_sum n : sum_list (shard_capacities n) = Nat.max n 1.
Proof.
  unfold shard_capacities. set (total := Nat.max n 1).
  set (c := Nat.min target_shards (Nat.max 1 (total / min_clients_per_shard))).
  assert (0 < c)%nat as Hc by (unfold c, target_shards; lia).
  assert (forall (f : nat -> nat) l, sum_list (map (fun i => (total / c + f i)%nat) l) = (length l * (total / c) + sum_list_with f l)%nat) as Hg.
  { intros f l. induction l as [|x l IH]; [done|]. change (sum_list (map ?g (x :: l))) with (g x + sum_list (map g l))%nat.
    rewrite IH. cbn [length sum_list_with]. lia. }
  rewrite Hg, length_seq, seq_extra by (pose proof (Nat.mod_upper_bound total c); lia).
  pose proof (Nat.div_mod total c). lia.
Qed.

(** The clients every shard has room for. *)
Definition shard_share (n : nat) : nat :=
  let total := Nat.max n 1 in
  (total / Nat.min target_shards (Nat.max 1 (total / min_clients_per_shard)))%nat.

Lemma capacities_share n : Forall (fun c => shard_share n <= c)%nat (shard_capacities n) /\ (0 < length (shard_capacities n))%nat.
Proof.
  unfold shard_capacities, shard_share. split.
  - apply Forall_forall. intros c (i & -> & _)%list_elem_of_fmap. lia.
  - rewrite length_map, length_seq. unfold target_shards. lia.
Qed.

Lemma make_store_ok U n : (length U <= shard_share n)%nat -> store_ok U (fun _ => None) (make_store n).
Proof.
  intros HU. destruct (capacities_share n) as [Hc Hl]. unfold make_store. split; [by rewrite length_map|].
  intros i t Ht. rewrite list_lookup_fmap in Ht. destruct (shard_capacities n !! i) as [c|] eqn:E; [|done].
  injection Ht as <-. exists (Nat.max c 1), []. split; [apply rm_new_ok|].
  pose proof (Forall_lookup_1 _ _ _ _ Hc E) as Hci. cbv beta in Hci. split; [lia|]. split; [by intros k ?%elem_of_nil|done].
Qed.

(** Whatever happens, every shard stays within its capacity. *)
Definition within (shards : list T) (caps : list nat) : Prop :=
  Forall2 (fun t m => exists l, rm_models t m l) shards caps.

Lemma step_within shards caps now k :
  within shards caps -> (0 < length shards)%nat ->
  exists shards' v, rate_limit_middleware hash opts shards now k = Some (shards', v) /\ within shards' caps.
Proof.
  intros Hw Hl. unfold rate_limit_middleware, with_bucket. set (i := shard_index hash shards k).
  destruct (lookup_lt_is_Some_2 shards i (shard_index_lt shards k Hl)) as [t Ht]. rewrite Ht. cbn [mbind option_bind].
  destruct (Forall2_lookup_l _ _ _ _ _ Hw Ht) as (m & Hm & l & M).
  destruct (rm_get_or_create_ok t m l k (mkBucket (capacity opts) now) M) as (t1 & -> & M1). cbn [mbind option_bind].
  destruct (use_bucket opts now (touched _)) as [b v].
  destruct (rm_store_ok t1 m _ k b M1) as (t2 & -> & M2).
  { unfold Recency.get_or_make. destruct (Recency.lookup_ k l) as [w|] eqn:E; cbn [fst].
    - rewrite RecencyFacts.lookup_touch, E. by eexists.
    - unfold Recency.push. rewrite RecencyFacts.lookup_app. case_match; [by eexists|].
      simpl. rewrite decide_True by done. by eexists. }
  cbn [mbind option_bind]. eexists _, _. split; [done|]. unfold within.
  rewrite <- (list_insert_id caps i m Hm). apply Forall2_insert; [done|eauto].
Qed.

Lemma serve_within reqs shards caps :
  within shards caps -> (0 < length shards)%nat ->
  exists shards' vs, serve hash opts shards reqs = Some (shards', vs) /\ length vs = length reqs /\ within shards' caps.
Proof.
  revert shards. induction reqs as [|[now k] reqs IH]; intros shards Hw Hl; cbn [serve]; [by exists shards, []|].
  destruct (step_within shards caps now k Hw Hl) as (s1 & v & -> & Hw1). cbn [mbind option_bind].
  destruct (IH s1 Hw1) as (s2 & vs & -> & Hv & Hw2).
  { apply Forall2_length in Hw, Hw1. lia. }
  exists s2, (v :: vs). cbn [length]. by rewrite Hv.
Qed.

Lemma tracked_within shards caps : within shards caps -> (tracked shards <= sum_list caps)%nat.
Proof.
  unfold tracked. induction 1 as [|t m shards caps (l & M) _ IH]; [done|].
  change (sum_list (m :: caps)) with (m + sum_list caps)%nat.
  change (sum_list_with rm_size (t :: shards)) with (rm_size t + sum_list_with rm_size shards)%nat.
  rewrite (rm_size_ok t m l M). destruct (rm_bound t m l M) as (_ & Hb & _). lia.
Qed.

Lemma make_within n : within (make_store n) (map (fun c => Nat.max c 1) (shard_capacities n)).
Proof.
  unfold within, make_store. induction (shard_capacities n) as [|c caps IH]; cbn [map]; [constructor|].
  constructor; [|done]. exists []. apply rm_new_ok.
Qed.

Lemma capacities_positive n : map (fun c => Nat.max c 1) (shard_capacities n) = shard_capacities n.
Proof.
  destruct (capacities_share n) as [Hc _].
  assert (1 <= shard_share n)%nat as H1.
  { unfold shard_share. apply Nat.div_str_pos. unfold target_shards, min_clients_per_shard.
    pose proof (Nat.Div0.div_le_upper_bound (Nat.max n 1) 1024 (Nat.max n 1) ltac:(lia)). lia. }
  induction Hc as [|c caps Hc _ IH]; cbn [map]; [done|]. rewrite IH. f_equal. lia.
Qed.
End store.
End RateOk.

(** ** An address that keeps guessing *)

Module BasicOk.
Import BasicAuth Roomy.
Section basic.
Context {T : Type} `{RM : RecencyMap FailedAuthBucket T} (validator : bytes -> bytes -> bool) (opts : BasicAuthOptions).
Context (Hmax : 0 < failed_attempts opts < 2 ^ 32) (Hwin : 0 < failed_window opts).

Lemma basic_enabled : basic_auth_limiter_enabled opts = true.
Proof.
  unfold basic_auth_limiter_enabled. destruct (Z.eqb_spec (failed_attempts opts) 0); [lia|].
  by destruct (Z.ltb_spec 0 (failed_window opts)); [|lia].
Qed.

Definition open_window (b : FailedAuthBucket) (now : Z) : Prop := now < f_window_start b + failed_window opts * second.

#[local] Instance open_window_dec b now : Decision (open_window b now) := Z_lt_dec _ _.

Lemma open_window_spec b now :
  (failed_window opts <=? to_seconds (now - f_window_start b)) = negb (bool_decide (open_window b now)).
Proof.
  unfold open_window. pose proof (RateOk.to_seconds_le (failed_window opts) (now - f_window_start b) Hwin).
  case_bool_decide; destruct (Z.leb_spec (failed_window opts) (to_seconds (now - f_window_start b))); done || lia.
Qed.

(** The failures that count at [now]. *)
Definition live (ob : option FailedAuthBucket) (now : Z) : option FailedAuthBucket :=
  b ← ob; if bool_decide (open_window b now) then Some b else None.

Definition full (ob : option FailedAuthBucket) : bool :=
  match ob with Some b => failed_attempts opts <=? failures b | None => false end.

(** One address by itself: its failures and what it is answered. *)
Definition guard_step (ob : option FailedAuthBucket) (r : BasicRequest) : option FailedAuthBucket * auth_verdict :=
  match parse_basic_credentials (r_authorization r) with
  | None => (ob, Unauthorized)
  | Some c =>
      let l := live ob (r_time r) in
      let b := default (mkFailed 0 (r_time r)) l in
      if full l then (l, TooMany (failed_window opts - to_seconds (r_time r - f_window_start b)))
      else if validator (username c) (password c) then (None, Next)
      else (Some (mkFailed (failures b + 1) (f_window_start b)), Unauthorized)
  end.

Fixpoint guard_run (ob : option FailedAuthBucket) (reqs : list BasicRequest)
  : option FailedAuthBucket * list auth_verdict :=
  match reqs with
  | [] => (ob, [])
  | r :: reqs => let '(ob, v) := guard_step ob r in let '(ob, vs) := guard_run ob reqs in (ob, v :: vs)
  end.

Abbreviation key_of r := (failed_auth_key (r_remote r)).

(** The limiter finds the failures that count and forgets the others. *)
Lemma retry_after_ok U state f key now : roomy U state f ->
  exists state', basic_auth_retry_after state opts key now = Some (state',
      if full (live (f key) now)
      then Some (failed_window opts - to_seconds (now - f_window_start (default (mkFailed 0 now) (live (f key) now))))
      else None) /\
    roomy U state' (upd f key (live (f key) now)).
Proof.
  intros Hs. unfold basic_auth_retry_after. rewrite basic_enabled. cbn [negb].
  destruct (roomy_find _ _ _ key Hs) as (t1 & -> & H1). cbn [mbind option_bind]. unfold live.
  destruct (f key) as [b|] eqn:Ef; cbn [mbind option_bind]; [rewrite open_window_spec; case_bool_decide as Ho; cbn [negb full]|].
  - pose proof (open_window_spec b now) as Hx. rewrite bool_decide_true in Hx by done. apply Z.leb_gt in Hx.
    exists t1. split; [|eapply roomy_ext; [|exact H1]; intros j; rewrite <- Ef; by rewrite upd_same].
    destruct (Z.ltb_spec (failures b) (failed_attempts opts)); destruct (Z.leb_spec (failed_attempts opts) (failures b)); try lia; [done|].
    cbn [default from_option]. by rewrite Z.max_r by lia.
  - destruct (roomy_erase _ _ _ key H1) as (t2 & e & -> & H2). cbn [mbind option_bind]. eauto.
  - exists t1. split; [done|]. eapply roomy_ext; [|exact H1]. intros j. rewrite <- Ef. by rewrite upd_same.
Qed.

Lemma basic_failure_ok U state f key now :
  roomy U state f -> key ∈ U -> live (f key) now = f key -> full (f key) = false ->
  exists state', record_basic_auth_failure state opts key now = Some state' /\
    roomy U state' (upd f key (Some (mkFailed (failures (default (mkFailed 0 now) (f key)) + 1)
      (f_window_start (default (mkFailed 0 now) (f key)))))).
Proof.
  intros Hs Hk Hl Hf. unfold record_basic_auth_failure. rewrite basic_enabled. cbn [negb].
  destruct (roomy_create U state f key (mkFailed 0 now) Hs Hk) as (t1 & r & -> & Er & H1). cbn [mbind option_bind]. cbv zeta. rewrite Er.
  set (b := default (mkFailed 0 now) (f key)) in *. assert (open_window b now /\ failures b < failed_attempts opts) as [Ho Hlt].
  { unfold b, live, full in *. destruct (f key) as [b0|]; cbn [mbind option_bind default from_option] in *.
    - case_bool_decide; [|done]. split; [done|]. by apply Z.leb_gt.
    - unfold open_window. cbn [f_window_start failures]. pose proof RateOk.second_pos. nia. }
  rewrite open_window_spec, bool_decide_true by done. cbn [negb].
  destruct (Z.ltb_spec (failures b) (2 ^ 32 - 1)); [|lia].
  destruct (roomy_store _ t1 _ key (mkFailed (failures b + 1) (f_window_start b)) H1) as (t2 & -> & H2); [by rewrite upd_eq|].
  exists t2. split; [done|]. eapply roomy_ext; [|exact H2]. intros j. apply upd_upd.
Qed.

(** The middleware does for each address what it would do for it alone. *)
Lemma middleware_alone U state f r : roomy U state f -> key_of r ∈ U ->
  exists state', basic_auth_middleware validator opts state (r_remote r) (r_authorization r) (r_time r) =
      Some (state', (guard_step (f (key_of r)) r).2) /\
    roomy U state' (upd f (key_of r) (guard_step (f (key_of r)) r).1).
Proof.
  intros Hs Hk. unfold basic_auth_middleware, guard_step. set (key := failed_auth_key (r_remote r)) in *.
  destruct (parse_basic_credentials (r_authorization r)) as [c|].
  2: { exists state. split; [done|]. eapply roomy_ext; [|exact Hs]. intros j. cbn [fst]. by rewrite upd_same. }
  destruct (retry_after_ok U state f key (r_time r) Hs) as (t1 & -> & H1). cbn [mbind option_bind]. cbv zeta.
  set (l := live (f key) (r_time r)) in *. destruct (full l) eqn:Ef.
  - exists t1. split; [|done]. cbn [snd]. unfold too_many_auth_attempts. do 3 f_equal. apply Z.max_r.
    destruct l as [b|] eqn:El; [|done]. cbn [default from_option id]. unfold l, live in El.
    destruct (f key) as [b0|]; [|done]. cbn [mbind option_bind] in El. case_bool_decide as Ho; [|done]. injection El as ->.
    pose proof (open_window_spec b (r_time r)) as Hx. rewrite bool_decide_true in Hx by done. apply Z.leb_gt in Hx. lia.
  - destruct (validator (username c) (password c)).
    + unfold clear_basic_auth_failures. rewrite basic_enabled. cbn [negb].
      destruct (roomy_erase _ _ _ key H1) as (t2 & e & -> & H2). cbn [mbind option_bind]. exists t2. split; [done|].
      eapply roomy_ext; [|exact H2]. intros j. apply upd_upd.
    + destruct (basic_failure_ok U t1 _ key (r_time r) H1 Hk) as (t2 & -> & H2); rewrite ?upd_eq; [|done|].
      { unfold l, live. destruct (f key) as [b|]; [|done]. cbn [mbind option_bind]. case_bool_decide as Ho; [|done].
        cbn [mbind option_bind]. by rewrite bool_decide_true. }
      cbn [mbind option_bind]. exists t2. split; [done|]. eapply roomy_ext; [|exact H2]. intros j. by rewrite upd_upd, upd_eq.
Qed.

(** The requests of one address and the answers they got. *)
Definition own (key : bytes) (reqs : list BasicRequest) : list BasicRequest := filter (fun r => key_of r = key) reqs.

Definition answers_to (key : bytes) (reqs : list BasicRequest) (vs : list auth_verdict) : list auth_verdict :=
  (filter (fun x => key_of x.1 = key) (zip reqs vs)).*2.

Lemma requests_alone U reqs state f : roomy U state f -> Forall (fun r => key_of r ∈ U) reqs ->
  exists state' vs f', basic_requests validator opts state reqs = Some (state', vs) /\ roomy U state' f' /\
    forall key, (f' key, answers_to key reqs vs) = guard_run (f key) (own key reqs).
Proof.
  revert state f. induction reqs as [|r reqs IH]; intros state f Hs HU; cbn [basic_requests].
  - exists state, [], f. by split.
  - apply Forall_cons in HU as [Hr HU]. destruct (middleware_alone U state f r Hs Hr) as (s1 & -> & H1).
    cbn [mbind option_bind]. destruct (IH s1 _ H1 HU) as (s2 & vs & f2 & -> & H2 & Hk). cbn [mbind option_bind].
    eexists s2, _, f2. split; [done|]. split; [done|]. intros key. specialize (Hk key). unfold own, answers_to in *.
    cbn [zip zip_with]. rewrite !filter_cons. cbn [fst]. case_decide as Hkey.
    + subst key. cbn [guard_run fmap list_fmap snd]. rewrite upd_eq in Hk. destruct (guard_step (f (key_of r)) r) as [ob v].
      cbn [fst snd] in *. by destruct (guard_run ob _); simplify_eq.
    + by rewrite upd_ne in Hk.
Qed.

(** A run of failures within one window. *)
Lemma guesses_counted reqs b t1 :
  f_window_start b = t1 -> 0 <= failures b -> failures b + Z.of_nat (length reqs) <= failed_attempts opts ->
  Forall (fun r => r_time r < t1 + failed_window opts * second /\
    exists c, parse_basic_credentials (r_authorization r) = Some c /\ validator (username c) (password c) = false) reqs ->
  guard_run (Some b) reqs = (Some (mkFailed (failures b + Z.of_nat (length reqs)) t1), map (fun _ => Unauthorized) reqs).
Proof.
  revert b. induction reqs as [|r reqs IH]; intros b H1 Hf Hlen Ht.
  - cbn [guard_run map length]. destruct b as [n w]. cbn in *. subst. repeat f_equal. lia.
  - apply Forall_cons in Ht as [(Ht & c & Hc & Hv) Hts]. cbn [guard_run length map] in *. unfold guard_step.
    rewrite Hc, Hv. assert (live (Some b) (r_time r) = Some b) as ->.
    { unfold live. cbn [mbind option_bind]. rewrite bool_decide_true; [done|]. unfold open_window. by rewrite H1. }
    cbn [full default from_option id]. destruct (Z.leb_spec (failed_attempts opts) (failures b)); [lia|]. cbv zeta.
    rewrite IH; cbn [failures f_window_start]; [|done|lia|lia|done]. do 3 f_equal. lia.
Qed.

(** The first failure opens the window. *)
Lemma first_guess reqs t1 : r_time <$> head reqs = Some t1 ->
  Forall (fun r => exists c, parse_basic_credentials (r_authorization r) = Some c) reqs ->
  guard_run None reqs = guard_run (Some (mkFailed 0 t1)) reqs.
Proof.
  destruct reqs as [|r reqs]; [done|]. intros [= <-] [[c Hc] _]%Forall_cons. cbn [guard_run]. unfold guard_step. rewrite Hc.
  assert (live (Some (mkFailed 0 (r_time r))) (r_time r) = Some (mkFailed 0 (r_time r))) as ->.
  { unfold live. cbn [mbind option_bind]. rewrite bool_decide_true; [done|]. unfold open_window. cbn [f_window_start].
    pose proof RateOk.second_pos. nia. }
  cbn [live mbind option_bind full default from_option failures]. by destruct (Z.leb_spec (failed_attempts opts) 0); [lia|].
Qed.

(** With the limit reached every request of the window is refused. *)
Lemma refused_all reqs t1 : let b := Some (mkFailed (failed_attempts opts) t1) in
  Forall (fun r => r_time r < t1 + failed_window opts * second) reqs ->
  guard_run b reqs = (b, map (fun r => match parse_basic_credentials (r_authorization r) with
    | None => Unauthorized
    | Some _ => TooMany (failed_window opts - to_seconds (r_time r - t1))
    end) reqs).
Proof.
  intros b. induction reqs as [|r reqs IH]; intros Ht; [done|]. apply Forall_cons in Ht as [Ht Hts].
  cbn [guard_run map]. assert (guard_step b r = (b, match parse_basic_credentials (r_authorization r) with
    | None => Unauthorized | Some _ => TooMany (failed_window opts - to_seconds (r_time r - t1)) end)) as ->.
  { unfold guard_step. destruct (parse_basic_credentials (r_authorization r)); [|done]. unfold live, b.
    cbn [mbind option_bind]. rewrite bool_decide_true by done. cbn [full failures]. by rewrite Z.leb_refl. }
  by rewrite (IH Hts).
Qed.

(** After the window the failures no longer count. *)
Lemma window_over r n t1 : t1 + failed_window opts * second <= r_time r ->
  (guard_step (Some (mkFailed n t1)) r).2 = match parse_basic_credentials (r_authorization r) with
    | None => Unauthorized
    | Some c => if validator (username c) (password c) then Next else Unauthorized
    end.
Proof.
  intros Ht. unfold guard_step, live. cbn [mbind option_bind]. destruct (parse_basic_credentials (r_authorization r)) as [c|]; [|done].
  rewrite bool_decide_false by (unfold open_window; cbn [f_window_start]; lia). cbn [full].
  by destruct (validator (username c) (password c)).
Qed.
End basic.
End BasicOk.

(** ** A subject that keeps failing *)

Module AuthOk.
Import AuthLimiter Roomy.
Section auth.
Context {T : Type} `{RM : RecencyMap AuthThrottleBucket T} (opts : AuthThrottleOptions) (mopts : AuthThrottleMiddlewareOptions).

(** Refused at [now]: the window the failures are counted in is still open, and
    the lockout, if one was started, still runs. *)
Definition refused (b : AuthThrottleBucket) (now : Z) : bool :=
  (to_seconds (now - a_window_start b) <? t_window opts) &&
  (if locked_until b =? 0 then max_failures opts <=? failures b else now <? locked_until b).

(** The end of the refusal, when the lockout does not outlast the window. *)
Definition deadline (b : AuthThrottleBucket) : Z :=
  if locked_until b =? 0 then a_window_start b + t_window opts * second else locked_until b.

Context (Hmax : 0 < max_failures opts < 2 ^ 32) (Hwin : 0 < t_window opts).

Lemma enabled : auth_throttle_enabled opts = true.
Proof.
  unfold auth_throttle_enabled. destruct (Z.eqb_spec (max_failures opts) 0); [lia|].
  by destruct (Z.ltb_spec 0 (t_window opts)); [|lia].
Qed.

Lemma reset_allowed now : allowed (auth_bucket_outcome (mkAuth 0 now 0) opts now) = true.
Proof.
  unfold auth_bucket_outcome. rewrite enabled. cbn. by destruct (Z.leb_spec (max_failures opts) 0); [lia|].
Qed.

(** A refused bucket is left as it is and gives the time to its deadline; the
    others let the attempt pass. *)
Lemma refreshed_outcome b now :
  let b' := refresh_auth_bucket_window b opts now in
  if refused b now
  then b' = b /\ allowed (auth_bucket_outcome b' opts now) = false /\
    retry_after (auth_bucket_outcome b' opts now) = retry_after_until (deadline b) now
  else allowed (auth_bucket_outcome b' opts now) = true.
Proof.
  unfold refresh_auth_bucket_window, refused, deadline.
  destruct (Z.eqb_spec (locked_until b) 0) as [H0|H0]; cbn [negb andb].
  - destruct (Z.leb_spec (t_window opts) (to_seconds (now - a_window_start b))),
      (Z.ltb_spec (to_seconds (now - a_window_start b)) (t_window opts)); try lia; cbn [andb]; [apply reset_allowed|].
    unfold auth_bucket_outcome. rewrite enabled, H0. cbn. by destruct (max_failures opts <=? failures b).
  - destruct (Z.leb_spec (locked_until b) now), (Z.ltb_spec now (locked_until b)); try lia.
    + rewrite andb_false_r. apply reset_allowed.
    + rewrite andb_true_r. destruct (Z.leb_spec (t_window opts) (to_seconds (now - a_window_start b))),
        (Z.ltb_spec (to_seconds (now - a_window_start b)) (t_window opts)); try lia; [apply reset_allowed|].
      unfold auth_bucket_outcome. rewrite enabled. cbn [negb].
      destruct (Z.eqb_spec (locked_until b) 0); [lia|]. by destruct (Z.ltb_spec now (locked_until b)); [|lia].
Qed.

Lemma retry_after_positive d now : 1 <= retry_after_until d now.
Proof. unfold retry_after_until. destruct (d <=? now); lia. Qed.

Lemma retry_after_exact d now : now < d ->
  1 <= retry_after_until d now /\ d <= now + retry_after_until d now * second < d + second.
Proof.
  intros H. unfold retry_after_until, ceil_seconds, to_seconds. destruct (Z.leb_spec d now); [lia|]. cbv zeta.
  rewrite Z.quot_div_nonneg by (unfold second; lia).
  pose proof (Z.div_mod (d - now) second ltac:(done)). pose proof (Z.mod_pos_bound (d - now) second ltac:(done)).
  pose proof (Z.div_pos (d - now) second ltac:(lia) ltac:(done)). unfold second in *.
  case_match eqn:E; [apply Z.ltb_lt in E|apply Z.ltb_ge in E]; lia.
Qed.

(** One failure, on the bucket. *)
Definition failed (b : AuthThrottleBucket) (now : Z) : AuthThrottleBucket :=
  let b := refresh_auth_bucket_window b opts now in
  let b := if failures b <? 2 ^ 32 - 1 then mkAuth (failures b + 1) (a_window_start b) (locked_until b) else b in
  if ((max_failures opts <=? failures b) && (0 <? lockout opts))%bool
  then mkAuth (failures b) (a_window_start b) (now + lockout opts * second) else b.

Lemma canonical_total subject : exists key, canonical_auth_throttle_subject subject (max_subject_bytes opts) = Some key.
Proof.
  unfold canonical_auth_throttle_subject, auth_throttle_digest_subject. case_match; [eauto|]. unfold Sha.sha256. rewrite ShaOk.sha256_digest. eauto.
Qed.

(** One subject by itself: its bucket and what its attempt is answered. *)
Definition attempt_step (ob : option AuthThrottleBucket) (a : AuthAttempt) : option AuthThrottleBucket * (Z + Z) :=
  match ob with
  | Some b =>
      if refused b (a_now a) then (ob, inr (retry_after_until (deadline b) (a_now a)))
      else
        let b := refresh_auth_bucket_window b opts (a_now a) in
        (if auth_response_is_failure (a_status a) mopts then Some (failed b (a_later a))
         else if clear_on_success mopts && auth_response_is_success (a_status a) mopts then None else Some b, inl (a_status a))
  | None =>
      (if auth_response_is_failure (a_status a) mopts then Some (failed (mkAuth 0 (a_later a) 0) (a_later a)) else None,
       inl (a_status a))
  end%bool.

Fixpoint attempt_run (ob : option AuthThrottleBucket) (l : list AuthAttempt) : option AuthThrottleBucket * list (Z + Z) :=
  match l with
  | [] => (ob, [])
  | a :: l => let '(ob, v) := attempt_step ob a in let '(ob, vs) := attempt_run ob l in (ob, v :: vs)
  end.

Abbreviation keyed a key := (canonical_auth_throttle_subject (a_subject a) (max_subject_bytes opts) = Some key).

Section subject.
Context (U : list bytes) (subject key : bytes) (Hne : subject <> []) (HU : key ∈ U).
Context (Hkey : canonical_auth_throttle_subject subject (max_subject_bytes opts) = Some key).

Lemma before_attempt_ok st f now :
  roomy U (buckets st) f ->
  exists st' out, before_attempt st opts subject now = Some (st', out) /\
    roomy U (buckets st') (upd f key ((fun b => refresh_auth_bucket_window b opts now) <$> f key)) /\
    out = match f key with
          | Some b => auth_bucket_outcome (refresh_auth_bucket_window b opts now) opts now
          | None => allow
          end.
Proof.
  intros Hb. unfold before_attempt. rewrite bool_decide_false, enabled, Hkey by done. cbn [negb orb mbind option_bind].
  destruct (roomy_find _ _ f key Hb) as (t1 & -> & H1). cbn [mbind option_bind]. destruct (f key) as [b|] eqn:E.
  - destruct (roomy_store U t1 f key (refresh_auth_bucket_window b opts now) H1) as (t2 & -> & H2); [congruence|].
    cbn [mbind option_bind]. eexists _, _. split; [done|]. by split.
  - eexists _, _. split; [done|]. split; [|done]. cbn [buckets fmap option_fmap option_map].
    eapply roomy_ext; [|exact H1]. intros j. rewrite <- E. by rewrite upd_same.
Qed.

Lemma record_failure_ok st f now :
  roomy U (buckets st) f ->
  exists st' out, record_failure st opts subject now = Some (st', out) /\
    roomy U (buckets st') (upd f key (Some (failed (default (mkAuth 0 now 0) (f key)) now))).
Proof.
  intros Hb. unfold record_failure. rewrite bool_decide_false, enabled, Hkey by done. cbn [negb orb mbind option_bind].
  destruct (roomy_create U _ f key (mkAuth 0 now 0) Hb HU) as (t1 & r & -> & Er & H1). cbn [mbind option_bind].
  destruct (roomy_store U t1 _ key (failed (default (mkAuth 0 now 0) (f key)) now) H1) as (t2 & E3 & H2); [by rewrite upd_eq|].
  unfold failed in E3. cbv zeta in *. rewrite Er, E3. cbn [mbind option_bind]. eexists _, _. split; [done|].
  eapply roomy_ext; [|exact H2]. intros j. apply upd_upd.
Qed.

Lemma record_success_ok st f :
  roomy U (buckets st) f -> exists st', record_success st opts subject = Some st' /\ roomy U (buckets st') (upd f key None).
Proof.
  intros Hb. unfold record_success. rewrite bool_decide_false, Hkey by done. cbn [mbind option_bind].
  destruct (roomy_erase _ _ f key Hb) as (t1 & e & -> & H1). cbn [mbind option_bind]. eexists. split; [done|exact H1].
Qed.

(** The middleware does for each subject what it would do for it alone. *)
Lemma attempt_alone st f a : roomy U (buckets st) f -> a_subject a = subject ->
  exists st', auth_throttle_middleware opts mopts st (Some subject) (a_status a) (a_now a) (a_later a) =
      Some (st', (attempt_step (f key) a).2) /\
    roomy U (buckets st') (upd f key (attempt_step (f key) a).1).
Proof.
  intros Hb Es. unfold auth_throttle_middleware, attempt_step.
  destruct (before_attempt_ok st f (a_now a) Hb) as (st1 & gate & -> & H1 & Eg). cbn [mbind option_bind].
  destruct (record_failure_ok st1 _ (a_later a) H1) as (st2 & out & E2 & H2).
  destruct (record_success_ok st1 _ H1) as (st3 & E3 & H3). rewrite upd_eq in H2. rewrite E2, E3. cbn [mbind option_bind].
  clear E2 E3. destruct (f key) as [b|] eqn:E; cbn [fmap option_fmap option_map default from_option] in *.
  - pose proof (refreshed_outcome b (a_now a)) as Ho. cbv zeta in Ho. rewrite <- Eg in Ho. destruct (refused b (a_now a)) eqn:Er.
    + destruct Ho as (Eb & -> & ->). cbn [negb fst snd]. rewrite Eb in H1. exists st1. split; [|done].
      do 3 f_equal. apply Z.max_r. unfold refused, deadline in *. apply retry_after_positive.
    + rewrite Ho. cbn [negb fst snd]. destruct (auth_response_is_failure (a_status a) mopts); cbn [andb].
      { exists st2. split; [done|]. eapply roomy_ext; [|exact H2]. intros j. apply upd_upd. }
      destruct (clear_on_success mopts && auth_response_is_success (a_status a) mopts)%bool; [exists st3|by exists st1].
      split; [done|]. eapply roomy_ext; [|exact H3]. intros j. apply upd_upd.
  - subst gate. cbn [negb allowed allow fst snd]. destruct (auth_response_is_failure (a_status a) mopts).
    { exists st2. split; [done|]. eapply roomy_ext; [|exact H2]. intros j. apply upd_upd. }
    destruct (clear_on_success mopts && auth_response_is_success (a_status a) mopts)%bool; [exists st3|by exists st1].
    split; [done|]. eapply roomy_ext; [|exact H3]. intros j. apply upd_upd.
Qed.
End subject.

(** The attempts of one subject and the answers they got. *)
Definition own (key : bytes) (l : list AuthAttempt) : list AuthAttempt :=
  filter (fun a => a_subject a <> [] /\ keyed a key) l.

Definition answers_to (key : bytes) (l : list AuthAttempt) (vs : list (Z + Z)) : list (Z + Z) :=
  (filter (fun x => a_subject x.1 <> [] /\ keyed x.1 key) (zip l vs)).*2.

Lemma attempts_alone U l st f :
  roomy U (buckets st) f -> Forall (fun a => exists key, keyed a key /\ key ∈ U) l ->
  exists st' vs f', auth_attempts opts mopts st l = Some (st', vs) /\ roomy U (buckets st') f' /\
    forall key, (f' key, answers_to key l vs) = attempt_run (f key) (own key l).
Proof.
  revert st f. induction l as [|a l IH]; intros st f Hs HU; cbn [auth_attempts]; [by exists st, [], f|].
  apply Forall_cons in HU as [(key & Hkey & Hin) HU]. destruct (decide (a_subject a = [])) as [Hnil|Hne].
  - assert (auth_throttle_middleware opts mopts st (Some (a_subject a)) (a_status a) (a_now a) (a_later a) = Some (st, inl (a_status a))) as ->.
    { rewrite Hnil. unfold auth_throttle_middleware, before_attempt, record_failure, record_success. rewrite bool_decide_true by done.
      cbn [orb mbind option_bind allow allowed negb]. by repeat case_match. }
    cbn [mbind option_bind]. destruct (IH st f Hs HU) as (s2 & vs & f2 & -> & H2 & Hk). cbn [mbind option_bind].
    eexists s2, _, f2. split; [done|]. split; [done|]. intros k. specialize (Hk k). unfold own, answers_to in *.
    cbn [zip zip_with]. rewrite !filter_cons. cbn [fst]. by rewrite !decide_False by tauto.
  - destruct (attempt_alone U (a_subject a) key Hne Hin Hkey st f a Hs eq_refl) as (s1 & -> & H1).
    cbn [mbind option_bind]. destruct (IH s1 _ H1 HU) as (s2 & vs & f2 & -> & H2 & Hk). cbn [mbind option_bind].
    eexists s2, _, f2. split; [done|]. split; [done|]. intros k. specialize (Hk k). unfold own, answers_to in *. cbn [zip zip_with].
    rewrite !filter_cons. cbn [fst]. case_decide as Hd.
    + assert (k = key) as -> by (destruct Hd; congruence). cbn [attempt_run fmap list_fmap snd]. rewrite upd_eq in Hk.
      destruct (attempt_step (f key) a) as [ob v]. cbn [fst snd] in *. by destruct (attempt_run ob _); simplify_eq.
    + rewrite upd_ne in Hk by (intros ->; tauto). exact Hk.
Qed.

(** Failures inside one window add up; the one that reaches the limit starts
    the lockout. *)
Lemma failed_in_window b now :
  locked_until b = 0 -> now < a_window_start b + t_window opts * second -> 0 <= failures b < max_failures opts ->
  failed b now = mkAuth (failures b + 1) (a_window_start b)
    (if ((failures b + 1 =? max_failures opts) && (0 <? lockout opts))%bool then now + lockout opts * second else 0).
Proof.
  intros H0 He Hf. unfold failed, refresh_auth_bucket_window. rewrite H0. cbn [negb andb Z.eqb].
  pose proof (RateOk.to_seconds_le (t_window opts) (now - a_window_start b) Hwin).
  destruct (Z.leb_spec (t_window opts) (to_seconds (now - a_window_start b))); [lia|].
  destruct (Z.ltb_spec (failures b) (2 ^ 32 - 1)); [|lia]. cbn [failures a_window_start locked_until]. rewrite H0.
  destruct (Z.leb_spec (max_failures opts) (failures b + 1)), (Z.eqb_spec (failures b + 1) (max_failures opts)); try lia; cbn [andb]; [|done].
  by destruct (0 <? lockout opts).
Qed.

(** The bucket after [max_failures] failures, the first at [t1], the last at [tn]. *)
Definition locked_bucket (t1 tn : Z) : AuthThrottleBucket :=
  mkAuth (max_failures opts) t1 (if 0 <? lockout opts then tn + lockout opts * second else 0).

(** An attempt of the window that fails. *)
Definition failing (t1 : Z) (a : AuthAttempt) : Prop :=
  a_now a < t1 + t_window opts * second /\ a_later a < t1 + t_window opts * second /\
  auth_response_is_failure (a_status a) mopts = true.

Lemma failing_step b a : locked_until b = 0 -> 0 <= failures b < max_failures opts -> failing (a_window_start b) a ->
  attempt_step (Some b) a = (Some (failed b (a_later a)), inl (a_status a)).
Proof.
  intros H0 Hf (Hn & Hl & Hs). unfold attempt_step, refused, refresh_auth_bucket_window. rewrite Hs, H0. cbn [Z.eqb negb andb].
  pose proof (RateOk.to_seconds_le (t_window opts) (a_now a - a_window_start b) Hwin).
  destruct (Z.leb_spec (max_failures opts) (failures b)); [lia|]. rewrite andb_false_r.
  by destruct (Z.leb_spec (t_window opts) (to_seconds (a_now a - a_window_start b))); [lia|].
Qed.

Lemma failures_counted l b tn :
  locked_until b = 0 -> 0 <= failures b -> failures b + Z.of_nat (length l) = max_failures opts ->
  Forall (failing (a_window_start b)) l -> a_later <$> last l = Some tn ->
  attempt_run (Some b) l = (Some (locked_bucket (a_window_start b) tn), map (fun a => inl (a_status a)) l).
Proof.
  revert b. induction l as [|a l IH]; intros b H0 Hf Hlen Hl Hlast; [done|]. apply Forall_cons in Hl as [Ha Hl].
  cbn [length] in Hlen. cbn [attempt_run map]. rewrite failing_step by (done || lia).
  rewrite failed_in_window by (done || apply Ha || lia). destruct l as [|a' l].
  - cbn in Hlast. injection Hlast as <-. cbn [length] in Hlen. cbn [attempt_run map]. unfold locked_bucket.
    destruct (Z.eqb_spec (failures b + 1) (max_failures opts)) as [E|]; [|lia]. by rewrite E.
  - destruct (Z.eqb_spec (failures b + 1) (max_failures opts)) as [E|]; [cbn [length] in Hlen; lia|]. cbn [andb].
    rewrite last_cons_cons in Hlast. by rewrite IH by (done || cbn [failures a_window_start locked_until]; done || lia).
Qed.

(** The first failure opens the window. *)
Lemma first_failure l t1 : a_later <$> head l = Some t1 -> Forall (failing t1) l ->
  attempt_run None l = attempt_run (Some (mkAuth 0 t1 0)) l.
Proof.
  destruct l as [|a l]; [done|]. intros [= <-] [Ha _]%Forall_cons. cbn [attempt_run].
  rewrite failing_step by (cbn [locked_until failures a_window_start]; done || lia).
  unfold attempt_step. destruct Ha as (_ & _ & ->). done.
Qed.

Lemma locked_refused t1 tn now : 0 <= tn ->
  (0 < lockout opts -> tn + lockout opts * second <= t1 + t_window opts * second) ->
  refused (locked_bucket t1 tn) now = (now <? deadline (locked_bucket t1 tn)).
Proof.
  intros Hn Hd. unfold refused, deadline, locked_bucket. cbn [a_window_start locked_until failures].
  pose proof (RateOk.to_seconds_le (t_window opts) (now - t1) Hwin) as Hs. pose proof RateOk.second_pos.
  apply eq_true_iff_eq. rewrite andb_true_iff, !Z.ltb_lt. destruct (Z.ltb_spec 0 (lockout opts)) as [Hlk|Hlk].
  - destruct (Z.eqb_spec (tn + lockout opts * second) 0); [nia|]. rewrite Z.ltb_lt. lia.
  - rewrite Z.eqb_refl, Z.leb_le. lia.
Qed.

Lemma locked_deadline t1 tn : 0 <= tn ->
  deadline (locked_bucket t1 tn) = if 0 <? lockout opts then tn + lockout opts * second else t1 + t_window opts * second.
Proof.
  intros Hn. unfold deadline, locked_bucket. cbn [a_window_start locked_until]. pose proof RateOk.second_pos.
  destruct (Z.ltb_spec 0 (lockout opts)); [|done]. by destruct (Z.eqb_spec (tn + lockout opts * second) 0); [nia|].
Qed.

(** A refused subject stays refused until its deadline, however often it tries. *)
Lemma refused_run l b : Forall (fun a => refused b (a_now a) = true) l ->
  attempt_run (Some b) l = (Some b, map (fun a => inr (retry_after_until (deadline b) (a_now a))) l).
Proof.
  induction 1 as [|a l Ha _ IH]; [done|]. cbn [attempt_run attempt_step map]. by rewrite Ha, IH.
Qed.
End auth.
End AuthOk.

(** ** The theorems *)

Module ThrottleProps.
Import Rate RateOk.

(** C25: the rate limit holds. As long as the clients seen fit into one shard's
    share, no request is lost to an eviction and, from any state the limiter
    can be in, among the requests that arrive within one window at most twice
    the capacity of a client's bucket pass: what was left and one refill. A
    client that is refused is told to wait between one second and the window,
    and passes after that. *)
Theorem rate_limit_bound {T} `{RM : RecencyMap Bucket T} hash opts U before stretch a k :
  0 < window opts < 2 ^ 32 -> (length U <= shard_share (max_clients opts))%nat ->
  Forall (fun r => r.2 ∈ U) (before ++ stretch) -> Forall (fun r => in_window opts a r.1) stretch ->
  (exists s1 v1 s2 v2, serve hash opts (make_store (max_clients opts)) before = Some (s1, v1) /\
     serve hash opts s1 stretch = Some (s2, v2) /\ Z.of_nat (passed k stretch v2) <= 2 * capacity opts) /\
  (forall b b' now r, bucket_ok opts b -> 0 < capacity opts -> window_start b <= now ->
     use_bucket opts now b = (b', Some r) ->
     1 <= r <= window opts /\ forall later, now + r * second <= later -> snd (use_bucket opts later b') = None).
Proof.
  intros [Hw Hw2] HU [Hb Hs]%Forall_app Ha. split.
  - destruct (serve_ok hash opts U before _ _ (make_store_ok hash U (max_clients opts) HU) Hb) as (s1 & E1 & O1).
    destruct (serve_ok hash opts U stretch _ _ O1 Hs) as (s2 & E2 & _).
    eexists s1, _, s2, _. split; [exact E1|]. split; [exact E2|].
    assert (forall j b, (ideal opts (fun _ => None) before).1 j = Some b -> bucket_ok opts b) as Hok by (by apply ideal_ok).
    etrans; [apply (ideal_bound hash opts Hw a k stretch); [exact Hok|exact Ha]|].
    pose proof (capacity_range opts) as Hc. destruct ((ideal opts (fun _ => None) before).1 k) as [b|] eqn:E; [|lia].
    specialize (Hok k b E). unfold budget, bucket_ok in *. destruct (window_start b <? a); lia.
  - intros b b' now r Hbk Hc Hn E. by apply (refused_retry opts Hw now b b' r).
Qed.

Definition sample_options : RateLimitOptions := mkOptions 2 10 1 8.
Definition sample_before : list (Z * bytes) := [(0, B "a"); (1, B "b")].
Definition sample_stretch : list (Z * bytes) :=
  [(5, B "a"); (6, B "a"); (7, B "a"); (8, B "b"); (10 * second + 2, B "a")].

Lemma rate_limit_bound_witness :
  exists s1 v1 s2 v2,
    serve (T := Lru.StringLruMap Bucket) (fun _ => 7) sample_options (make_store 8) sample_before = Some (s1, v1) /\
    serve (fun _ => 7) sample_options s1 sample_stretch = Some (s2, v2) /\
    Z.of_nat (passed (B "a") sample_stretch v2) <= 2 * capacity sample_options.
Proof.
  apply (rate_limit_bound (T := Lru.StringLruMap Bucket) (fun _ => 7) sample_options [B "a"; B "b"] sample_before
    sample_stretch 5 (B "a")).
  - vm_compute. auto.
  - vm_compute. lia.
  - unfold sample_before, sample_stretch. cbn [app]. repeat constructor; cbn [snd];
      first [apply list_elem_of_here|apply list_elem_of_further, list_elem_of_here].
  - unfold sample_stretch. repeat constructor; vm_compute; done.
Defined.

(** memory is bounded. Whatever requests arrive, from whatever addresses,
    the limiter answers each of them and never tracks more than
    [max(max_clients, 1)] clients, the sum of the capacities of its shards. *)
Theorem tracked_clients_bounded {T} `{RM : RecencyMap Bucket T} hash opts reqs :
  exists s vs, serve hash opts (make_store (max_clients opts)) reqs = Some (s, vs) /\
    length vs = length reqs /\ (tracked s <= Nat.max (max_clients opts) 1)%nat.
Proof.
  destruct (serve_within hash opts reqs _ _ (make_within (max_clients opts))) as (s & vs & E & Hv & Hw).
  { unfold make_store. rewrite length_map. apply capacities_share. }
  exists s, vs. split; [done|]. split; [done|].
  rewrite capacities_positive in Hw. apply tracked_within in Hw. by rewrite capacities_sum in Hw.
Qed.

End ThrottleProps.

Module BasicProps.
Import BasicAuth BasicOk Roomy.

(** C30: the guard against guessing. Requests of many addresses arrive in any
    order, as many addresses as the limiter keeps at most, so that none is
    evicted. An address whose first [failed_attempts] requests, the first of
    them at [t1], have wrong credentials and come within the window that starts
    at [t1] gets a 401 for each of them. Until the window ends it then gets a 429
    for every request with credentials, right or wrong, however often it tries,
    with the wait until the end of the window, and the validator is not asked;
    after the window the validator decides again. Requests without credentials
    get a 401. *)
Theorem basic_auth_guard {T} `{RM : RecencyMap FailedAuthBucket T} validator opts max U remote guesses later t1 :
  let key := failed_auth_key remote in
  let window_end := t1 + failed_window opts * second in
  0 < failed_attempts opts < 2 ^ 32 -> 0 < failed_window opts -> (length U <= Nat.max max 1)%nat ->
  Forall (fun r => failed_auth_key (r_remote r) ∈ U) (guesses ++ later) -> key ∈ U ->
  Z.of_nat (length (own key guesses)) = failed_attempts opts -> r_time <$> head (own key guesses) = Some t1 ->
  Forall (fun r => r_time r < window_end /\
    exists c, parse_basic_credentials (r_authorization r) = Some c /\ validator (username c) (password c) = false)
    (own key guesses) ->
  Forall (fun r => r_time r < window_end) (own key later) ->
  exists s1 v1 s2 v2,
    basic_requests validator opts (make_state max) guesses = Some (s1, v1) /\
    basic_requests validator opts s1 later = Some (s2, v2) /\
    answers_to key guesses v1 = map (fun _ => Unauthorized) (own key guesses) /\
    answers_to key later v2 = map (fun r => match parse_basic_credentials (r_authorization r) with
      | None => Unauthorized
      | Some _ => TooMany (failed_window opts - to_seconds (r_time r - t1))
      end) (own key later) /\
    forall auth now, window_end <= now -> exists s3,
      basic_auth_middleware validator opts s2 remote auth now = Some (s3, match parse_basic_credentials auth with
        | None => Unauthorized
        | Some c => if validator (username c) (password c) then Next else Unauthorized
        end).
Proof.
  intros key window_end Hmax Hwin HU [Hg Hl]%Forall_app Hk Hlen Hh Hgs Hls.
  assert (roomy U (make_state max) (fun _ => None)) as H0 by (unfold make_state; apply roomy_new; lia).
  destruct (requests_alone validator opts Hmax Hwin U guesses _ _ H0 Hg) as (s1 & v1 & f1 & E1 & H1 & K1).
  destruct (requests_alone validator opts Hmax Hwin U later _ _ H1 Hl) as (s2 & v2 & f2 & E2 & H2 & K2).
  exists s1, v1, s2, v2. split; [done|]. split; [done|]. specialize (K1 key). specialize (K2 key).
  rewrite (first_guess validator opts Hmax Hwin _ t1 Hh) in K1 by (eapply Forall_impl; [exact Hgs|naive_solver]).
  rewrite (guesses_counted validator opts _ (mkFailed 0 t1) t1) in K1; cbn [failures f_window_start]; try done; [|lia].
  injection K1 as K1 A1. rewrite K1 in K2. cbn [failures] in K2. rewrite Z.add_0_l, Hlen in K2.
  rewrite (refused_all validator opts) in K2 by done. injection K2 as K2 A2. split; [done|]. split; [done|].
  intros auth now Hn. destruct (middleware_alone validator opts Hmax Hwin U s2 f2 (mkBasicRequest now remote auth) H2 Hk)
    as (s3 & E3 & _).
  exists s3. cbn [r_time r_remote r_authorization] in E3. rewrite E3. fold key. by rewrite K2, window_over.
Qed.

Definition guess : bytes := B "Basic YWRhOmd1ZXNz".
Definition right : bytes := B "Basic YWRhOnNlY3JldA==".
Definition strict_basic : BasicAuthOptions := mkBasic 2 300.
Definition knows (user pass : bytes) : bool := bytes_eqb user (B "ada") && bytes_eqb pass (B "secret").
Definition sample_guesses : list BasicRequest :=
  [mkBasicRequest 1 (B "10.0.0.2") guess; mkBasicRequest 5 (B "10.0.0.1") guess; mkBasicRequest 6 (B "10.0.0.2") right;
   mkBasicRequest 7 (B "10.0.0.1") guess].
Definition sample_later : list BasicRequest :=
  [mkBasicRequest 8 (B "10.0.0.1") right; mkBasicRequest 9 (B "10.0.0.2") guess; mkBasicRequest 10 (B "10.0.0.1") right;
   mkBasicRequest 11 (B "10.0.0.1") []].

Lemma basic_auth_guard_witness :
  exists s1 v1 s2 v2,
    basic_requests (T := Lru.StringLruMap FailedAuthBucket) knows strict_basic (make_state 2) sample_guesses = Some (s1, v1) /\
    basic_requests knows strict_basic s1 sample_later = Some (s2, v2) /\
    answers_to (B "10.0.0.1") sample_guesses v1 = [Unauthorized; Unauthorized] /\
    answers_to (B "10.0.0.1") sample_later v2 = [TooMany 300; TooMany 300; Unauthorized] /\
    forall auth now, 5 + failed_window strict_basic * second <= now -> exists s3,
      basic_auth_middleware knows strict_basic s2 (B "10.0.0.1") auth now = Some (s3, match parse_basic_credentials auth with
        | None => Unauthorized
        | Some c => if knows (username c) (password c) then Next else Unauthorized
        end).
Proof.
  apply (basic_auth_guard knows strict_basic 2 [B "10.0.0.1"; B "10.0.0.2"] (B "10.0.0.1") sample_guesses sample_later 5).
  - vm_compute. auto.
  - vm_compute. auto.
  - cbn. lia.
  - repeat constructor; apply list_elem_of_In; vm_compute; auto.
  - apply list_elem_of_In. vm_compute. auto.
  - reflexivity.
  - reflexivity.
  - repeat constructor; exists (mkCredentials (B "ada") (B "guess")); split; vm_compute; reflexivity.
  - repeat constructor.
Defined.

End BasicProps.

Module AuthProps.
Import AuthLimiter AuthOk Roomy.

(** C32: how long a failing subject stays out. Attempts of many subjects arrive
    in any order, as many subjects as the limiter keeps at most, so that none is
    evicted. A subject whose first [max_failures] attempts fail, the first
    recorded at [t1], the last at [tn] and all within the window that starts at
    [t1], has each of them passed to the rest of the chain. It is then refused
    with a 429, however often it tries and whatever the chain would answer, until
    the lockout after the last failure is over, or without a lockout until the
    window is; each 429 tells the seconds that are left, rounded up. The first
    attempt after that is passed on. This is for a lockout that ends within the
    window. *)
Theorem auth_lockout_kept {T} `{RM : RecencyMap AuthThrottleBucket T} opts mopts U subject key guesses later t1 tn :
  let window_end := t1 + t_window opts * second in
  let over := if 0 <? lockout opts then tn + lockout opts * second else window_end in
  0 < max_failures opts < 2 ^ 32 -> 0 < t_window opts -> over <= window_end ->
  (length U <= Nat.max (max_subjects opts) 1)%nat ->
  Forall (fun a => exists k, canonical_auth_throttle_subject (a_subject a) (max_subject_bytes opts) = Some k /\ k ∈ U)
    (guesses ++ later) ->
  subject <> [] -> canonical_auth_throttle_subject subject (max_subject_bytes opts) = Some key -> key ∈ U ->
  Z.of_nat (length (own opts key guesses)) = max_failures opts ->
  a_later <$> head (own opts key guesses) = Some t1 -> a_later <$> last (own opts key guesses) = Some tn -> 0 <= tn ->
  Forall (fun a => a_now a < window_end /\ a_later a < window_end /\ auth_response_is_failure (a_status a) mopts = true)
    (own opts key guesses) ->
  Forall (fun a => a_now a < over) (own opts key later) ->
  exists s1 v1 s2 v2,
    auth_attempts opts mopts (make_limiter opts) guesses = Some (s1, v1) /\
    auth_attempts opts mopts s1 later = Some (s2, v2) /\
    answers_to opts key guesses v1 = map (fun a => inl (a_status a)) (own opts key guesses) /\
    Forall2 (fun a v => exists w, v = inr w /\ 1 <= w /\ over <= a_now a + w * second < over + second)
      (own opts key later) (answers_to opts key later v2) /\
    forall status now after, over <= now -> exists s3,
      auth_throttle_middleware opts mopts s2 (Some subject) status now after = Some (s3, inl status).
Proof.
  intros window_end over Hmax Hwin Hover HU [Hg Hl]%Forall_app Hne Hkey Hin Hlen Hh Hlast Htn Hgs Hls.
  assert (roomy U (buckets (make_limiter opts)) (fun _ => None)) as H0 by (unfold make_limiter; apply roomy_new; cbn; lia).
  destruct (attempts_alone opts mopts Hmax Hwin U guesses _ _ H0 Hg) as (s1 & v1 & f1 & E1 & H1 & K1).
  destruct (attempts_alone opts mopts Hmax Hwin U later _ _ H1 Hl) as (s2 & v2 & f2 & E2 & H2 & K2).
  specialize (K1 key). specialize (K2 key). set (b := locked_bucket opts t1 tn).
  assert (deadline opts b = over /\ forall now, refused opts b now = (now <? over)) as [Ed Er].
  { assert (deadline opts b = over) as Ed by (by apply locked_deadline). split; [done|].
    intros now. unfold b. rewrite locked_refused; [by fold b; rewrite Ed|done..|]. unfold over in Hover. case_match; lia. }
  rewrite (first_failure opts mopts Hmax Hwin _ t1) in K1 by done.
  rewrite (failures_counted opts mopts Hmax Hwin _ _ tn) in K1 by done. injection K1 as K1 A1. fold b in K1. rewrite K1 in K2.
  rewrite refused_run in K2.
  2: { eapply Forall_impl; [exact Hls|]. intros a Ha. cbv beta in *. rewrite Er. by apply Z.ltb_lt. }
  injection K2 as K2 A2. exists s1, v1, s2, v2. split; [done|]. split; [done|]. split; [done|]. split.
  - rewrite A2. apply Forall2_fmap_r, Forall_Forall2_diag. eapply Forall_impl; [exact Hls|]. intros a Ha.
    eexists. split; [done|]. rewrite Ed. by apply retry_after_exact.
  - intros status now after Hnow.
    destruct (attempt_alone opts mopts Hmax Hwin U subject key Hne Hin Hkey s2 f2 (mkAttempt subject status now after) H2 eq_refl)
      as (s3 & E3 & _).
    exists s3. cbn [a_status a_now a_later] in E3. rewrite E3, K2. cbn [attempt_step a_now]. rewrite Er.
    by destruct (Z.ltb_spec now over); [lia|].
Qed.

(** Three failures in five minutes, a lockout of one minute. *)
Definition short_lockout : AuthThrottleOptions := mkThrottle 3 300 60 2 256.
Definition on_unauthorized : AuthThrottleMiddlewareOptions := mkAuthMiddleware [401; 403] true 200 399.
Definition sample_failures : list AuthAttempt :=
  [mkAttempt (B "ada") 401 1 2; mkAttempt (B "bob") 401 2 3; mkAttempt (B "ada") 401 4 5; mkAttempt (B "bob") 200 5 6;
   mkAttempt (B "ada") 403 7 8].
Definition sample_retries : list AuthAttempt :=
  [mkAttempt (B "ada") 200 9 10; mkAttempt (B "bob") 401 11 12; mkAttempt (B "ada") 200 (30 * second) (31 * second)].

Lemma auth_lockout_kept_witness :
  exists s1 v1 s2 v2,
    auth_attempts (T := Lru.StringLruMap AuthThrottleBucket) short_lockout on_unauthorized (make_limiter short_lockout)
      sample_failures = Some (s1, v1) /\
    auth_attempts short_lockout on_unauthorized s1 sample_retries = Some (s2, v2) /\
    answers_to short_lockout (B "ada") sample_failures v1 = [inl 401; inl 401; inl 403] /\
    Forall2 (fun a v => exists w, v = inr w /\ 1 <= w /\
        8 + lockout short_lockout * second <= a_now a + w * second < 8 + lockout short_lockout * second + second)
      (own short_lockout (B "ada") sample_retries) (answers_to short_lockout (B "ada") sample_retries v2) /\
    forall status now after, 8 + lockout short_lockout * second <= now -> exists s3,
      auth_throttle_middleware short_lockout on_unauthorized s2 (Some (B "ada")) status now after = Some (s3, inl status).
Proof.
  apply (auth_lockout_kept short_lockout on_unauthorized [B "ada"; B "bob"] (B "ada") (B "ada") sample_failures sample_retries 2 8).
  - vm_compute. auto.
  - vm_compute. auto.
  - vm_compute. discriminate.
  - cbn. lia.
  - repeat constructor; eexists; (split; [reflexivity|apply list_elem_of_In; vm_compute; auto]).
  - discriminate.
  - reflexivity.
  - apply list_elem_of_In. vm_compute. auto.
  - reflexivity.
  - reflexivity.
  - reflexivity.
  - lia.
  - assert (own short_lockout (B "ada") sample_failures =
      [mkAttempt (B "ada") 401 1 2; mkAttempt (B "ada") 401 4 5; mkAttempt (B "ada") 403 7 8]) as -> by reflexivity.
    repeat constructor.
  - assert (own short_lockout (B "ada") sample_retries =
      [mkAttempt (B "ada") 200 9 10; mkAttempt (B "ada") 200 (30 * second) (31 * second)]) as -> by reflexivity.
    repeat constructor.
Defined.

(** The documented defaults: five failures in five minutes, a lockout of five
    minutes. *)
Definition default_options : AuthThrottleOptions := mkThrottle 5 300 300 65536 256.
Definition sample_times : list Z := [0; 60 * second; 120 * second; 180 * second; 299 * second].

(** The last answer of [record_failure] and the next of [before_attempt]. *)
Definition lockout_story : option (Z * bool) :=
  st ← record_failures (T := Lru.StringLruMap AuthThrottleBucket)
         (make_limiter default_options) default_options (B "ada") (take 4 sample_times);
  '(st, told) ← record_failure st default_options (B "ada") (299 * second);
  '(_, out) ← before_attempt st default_options (B "ada") (300 * second);
  Some (retry_after told, allowed out).

(** the lockout is cut short. With the default options, a subject whose
    fifth failure comes at second 299 is told that it is locked out and should
    retry after 300 seconds, and is let in again one second later, when the
    counting window ends. *)
Theorem lockout_cut_short : lockout_story = Some (300, true).
Proof. vm_compute. reflexivity. Qed.

End AuthProps.
