(* ===== verification/WebSocket.v ===== *)
(** * WebSocket connections

    The WebSocket half of [src/src/net/realtime.cxx]: the handshake key, frame
    headers, UTF-8 checking, and [WsConn] with its receive loop. A connection
    reads from a socket that delivers bytes in pieces ([incoming]) into the
    buffer [buf_] and writes frames through [kernel], the results of the
    [send] calls for each frame. The keep-alive thread and TLS are not modelled;
    an exception and a read outside a buffer give [None].

    The theorems show that header parsing accepts exactly the headers of RFC
    6455 a client may send, that the UTF-8 check accepts exactly the encodings
    of Unicode scalar values, and that a message arrives as it was sent, however
    it is fragmented, interleaved with control frames and cut into pieces. *)

From Stdlib Require Import ZArith Lia Strings.Byte String.
From stdpp Require Import base tactics option numbers list.
From S2P Require Import Prelude Unicode Codec HttpBody JsonSpec JsonValid JsonUnicode JsonDump Crypto.

(** ** Handshake and frames *)

Module Ws.

Definition kMagic : bytes := B "258EAFA5-E914-47DA-95CA-C5AB0DC85B11".

Definition ws_accept_key (client_key : bytes) : bytes :=
  Base64.base64_encode (Sha.sha1 (client_key ++ kMagic)).

Definition is_valid_client_key (key : bytes) : bool :=
  if negb (length key =? 24)%nat then false
  else
    let decoded := Base64.base64_decode key in
    (length decoded =? 16)%nat && bytes_eqb (Base64.base64_encode decoded) key.

(** The bytes of [len], most significant first, from the shift [s] down. *)
Definition len_bytes (n : nat) (len : Z) : bytes :=
  map (fun i => byte_of_Z (Z.shiftr len (8 * Z.of_nat (n - 1 - i)))) (seq 0 n).

Definition ws_build_frame (opcode : Z) (payload : bytes) : bytes :=
  let len := Z.of_nat (length payload) in
  byte_of_Z (Z.lor 0x80 opcode) ::
  (if len <? 126 then [byte_of_Z len]
   else if len <=? 0xFFFF then byte_of_Z 126 :: len_bytes 2 len
   else byte_of_Z 127 :: len_bytes 8 len) ++ payload.

(** What one [send] call does: it takes some bytes, is interrupted, or fails. *)
Inductive send_result := Sent (n : Z) | Interrupted | Failed.

(** [ws_send_frame]: the bytes written and whether that was the whole frame;
    [None] when the results run out. *)
Fixpoint ws_send_loop (results : list send_result) (frame : bytes) : option (bool * bytes) :=
  match frame with
  | [] => Some (true, [])
  | _ =>
      match results with
      | [] => None
      | Interrupted :: results => ws_send_loop results frame
      | Failed :: _ => Some (false, [])
      | Sent n :: results =>
          if n <=? 0 then Some (false, [])
          else
            let k := Z.to_nat (Z.min n (Z.of_nat (length frame))) in
            '(ok, rest) ← ws_send_loop results (drop k frame);
            Some (ok, take k frame ++ rest)
      end
  end.

Definition ws_send_frame (results : list send_result) (opcode : Z) (payload : bytes) : option (bool * bytes) :=
  ws_send_loop results (ws_build_frame opcode payload).

Definition is_valid_close_code (code : Z) : bool :=
  if code <? 1000 then false
  else if code <=? 1003 then true
  else if code <=? 1006 then false
  else if code <=? 1014 then true
  else if code <=? 4999 then 3000 <=? code
  else false.

(** *** UTF-8 *)

(** The lead byte of a sequence of several bytes: how many follow, the smallest
    code point of that length, and its own bits. *)
Definition utf8_lead (b : byte) : option (nat * Z * Z) :=
  let b := byteZ b in
  if Z.land b 0xE0 =? 0xC0 then Some (1%nat, 0x80, Z.land b 0x1F)
  else if Z.land b 0xF0 =? 0xE0 then Some (2%nat, 0x800, Z.land b 0x0F)
  else if Z.land b 0xF8 =? 0xF0 then Some (3%nat, 0x10000, Z.land b 0x07)
  else None.

Fixpoint utf8_conts (cp : Z) (cs : bytes) : option Z :=
  match cs with
  | [] => Some cp
  | c :: cs =>
      if negb (Z.land (byteZ c) 0xC0 =? 0x80) then None
      else utf8_conts (Z.lor (Z.shiftl cp 6) (Z.land (byteZ c) 0x3F)) cs
  end.

(** The loop on the bytes from [i] on; [None] only when the fuel runs out. *)
Fixpoint utf8_loop (fuel : nat) (s : bytes) : option bool :=
  match fuel with
  | O => None
  | S fuel =>
      match s with
      | [] => Some true
      | b :: t =>
          if byteZ b <? 0x80 then utf8_loop fuel t
          else
            match utf8_lead b with
            | None => Some false
            | Some (extra, min_cp, cp) =>
                if (length t <? extra)%nat then Some false
                else
                  match utf8_conts cp (take extra t) with
                  | None => Some false
                  | Some cp =>
                      if cp <? min_cp then Some false
                      else if (0xD800 <=? cp) && (cp <=? 0xDFFF) then Some false
                      else if 0x10FFFF <? cp then Some false
                      else utf8_loop fuel (drop extra t)
                  end
            end
      end
  end.

Definition utf8_is_valid (s : bytes) : option bool := utf8_loop (S (length s)) s.

(** *** Frame headers *)

Record FrameHeader := mkHeader {
  opcode : Z; fin : bool; masked : bool; payload_len : Z; mask : bytes; header_size : nat
}.

Inductive FrameParseStatus := FrameOk | Incomplete | ProtocolError | ControlTooLarge.

Definition is_reserved (op : Z) : bool := ((0x3 <=? op) && (op <=? 0x7)) || (0xB <=? op).

(** [plen] over the eight bytes from [off] on. *)
Definition be_value (bs : bytes) : Z := fold_left (fun acc b => Z.lor (u64 (Z.shiftl acc 8)) (byteZ b)) bs 0.

Definition set_length (out : FrameHeader) (plen : Z) (m : bytes) (off : nat) : FrameHeader :=
  mkHeader (opcode out) (fin out) (masked out) plen m off.

(** The mask, once the length is known and ends at [off]. *)
Definition read_mask (buf : bytes) (out : FrameHeader) (plen : Z) (off : nat) : FrameParseStatus * FrameHeader :=
  if (length buf <? off + 4)%nat then (Incomplete, out)
  else (FrameOk, set_length out plen (substr buf off 4) (off + 4)).

Definition parse_frame_header (buf : bytes) (out : FrameHeader) : FrameParseStatus * FrameHeader :=
  match buf with
  | c0 :: c1 :: _ =>
      let b0 := byteZ c0 in
      let b1 := byteZ c1 in
      let out := mkHeader (Z.land b0 0x0F) (negb (Z.land b0 0x80 =? 0)) (negb (Z.land b1 0x80 =? 0))
                   (payload_len out) (mask out) (header_size out) in
      let plen := Z.land b1 0x7F in
      let is_control := negb (Z.land (opcode out) 0x08 =? 0) in
      if negb (Z.land b0 0x70 =? 0) then (ProtocolError, out)
      else if is_reserved (opcode out) then (ProtocolError, out)
      else if is_control && (negb (fin out) || (125 <? plen)) then (ControlTooLarge, out)
      else if negb (masked out) then (ProtocolError, out)
      else if plen =? 126 then
        if (length buf <? 4)%nat then (Incomplete, out)
        else
          let plen := be_value (substr buf 2 2) in
          if plen <? 126 then (ProtocolError, out) else read_mask buf out plen 4
      else if plen =? 127 then
        if (length buf <? 10)%nat then (Incomplete, out)
        else
          let plen := be_value (substr buf 2 8) in
          if plen <=? 0xFFFF then (ProtocolError, out) else read_mask buf out plen 10
      else read_mask buf out plen 2
  | _ => (Incomplete, out)
  end.

Definition unmask_ws_payload (payload mask_key : bytes) : bytes :=
  imap (fun i c => byte_of_Z (Z.lxor (byteZ c) (byteZ (nth (i mod 4) mask_key x00)))) payload.

End Ws.

(** ** The connection *)

Module WsConn.
Import Ws.

Inductive Opcode := Text | Binary | Close | Ping | Pong.

Definition opcode_of (raw : Z) : option Opcode :=
  if raw =? 1 then Some Text else if raw =? 2 then Some Binary else if raw =? 8 then Some Close
  else if raw =? 9 then Some Ping else if raw =? 10 then Some Pong else None.

Record Frame := mkFrame { f_opcode : Opcode; f_payload : bytes }.

Definition kMaxMessageSize : Z := 16 * 1024 * 1024.

(** The state of a connection apart from its input. A callback is a number;
    [called] lists those that have run, [wire] what has been written and
    [sends] counts the frames; [shut] is set by [shutdown(fd_, SHUT_WR)]. *)
Record Core := mkCore {
  closed_ : bool; pressure_counted_ : bool; pressure_counter_ : option Z;
  close_callbacks_ : list nat; called : list nat;
  frag_opcode_ : option Opcode; frag_payload_ : bytes;
  wire : bytes; sends : nat; shut : bool
}.

(** The connection: [buf_] from [buf_pos_] on is not consumed yet, [incoming] is
    what the socket will deliver; an empty piece is the end of the stream. *)
Record Conn := mkConn { core : Core; buf_ : bytes; buf_pos_ : nat; incoming : list bytes }.

Section conn.
(** The results of the [send] calls for the [n]-th frame. *)
Context (kernel : nat -> list send_result).

Definition set_frag (op : option Opcode) (p : bytes) (c : Core) : Core :=
  mkCore (closed_ c) (pressure_counted_ c) (pressure_counter_ c) (close_callbacks_ c) (called c) op p
    (wire c) (sends c) (shut c).

Definition invoke_close_callbacks (c : Core) : Core :=
  mkCore (closed_ c) (pressure_counted_ c) (pressure_counter_ c) [] (called c ++ close_callbacks_ c)
    (frag_opcode_ c) (frag_payload_ c) (wire c) (sends c) (shut c).

Definition set_closed (c : Core) : Core :=
  mkCore true (pressure_counted_ c) (pressure_counter_ c) (close_callbacks_ c) (called c)
    (frag_opcode_ c) (frag_payload_ c) (wire c) (sends c) (shut c).

Definition mark_remote_close_noexcept (c : Core) : Core :=
  if closed_ c then c else invoke_close_callbacks (set_closed c).

Definition note_pressure_close_noexcept (c : Core) : Core :=
  match pressure_counter_ c with
  | Some n =>
      if pressure_counted_ c then c
      else mkCore (closed_ c) true (Some (u64 (n + 1))) (close_callbacks_ c) (called c)
             (frag_opcode_ c) (frag_payload_ c) (wire c) (sends c) (shut c)
  | None => c
  end.

Definition do_send_frame (op : Z) (payload : bytes) (c : Core) : option (bool * Core) :=
  '(ok, written) ← ws_send_frame (kernel (sends c)) op payload;
  let c := mkCore (closed_ c) (pressure_counted_ c) (pressure_counter_ c) (close_callbacks_ c) (called c)
             (frag_opcode_ c) (frag_payload_ c) (wire c ++ written) (S (sends c)) (shut c) in
  Some (ok, if ok : bool then c else note_pressure_close_noexcept c).

(** The common part of [send_text], [send_binary] and [send_ping]. *)
Definition send_or_close (op : Z) (payload : bytes) (c : Core) : option (bool * Core) :=
  '(ok, c) ← do_send_frame op payload c;
  Some (ok, if ok : bool then c else mark_remote_close_noexcept c).

Definition send_text (data : bytes) (c : Core) : option (bool * Core) := send_or_close 1 data c.
Definition send_binary (data : bytes) (c : Core) : option (bool * Core) := send_or_close 2 data c.
Definition send_ping (data : bytes) (c : Core) : option (bool * Core) :=
  if (125 <? length data)%nat then None else send_or_close 9 data c.

Definition on_close (callback : nat) (c : Core) : Core :=
  mkCore (closed_ c) (pressure_counted_ c) (pressure_counter_ c)
    (if closed_ c then close_callbacks_ c else close_callbacks_ c ++ [callback])
    (if closed_ c then called c ++ [callback] else called c)
    (frag_opcode_ c) (frag_payload_ c) (wire c) (sends c) (shut c).

Definition close (code : Z) (reason : bytes) (c : Core) : option Core :=
  if negb (is_valid_close_code code) then None
  else if (123 <? length reason)%nat then None
  else
    valid ← utf8_is_valid reason;
    if negb (valid : bool) then None
    else if closed_ c then Some c
    else
      let c := invoke_close_callbacks (set_closed c) in
      let payload := [byte_of_Z (Z.shiftr code 8); byte_of_Z (Z.land code 0xFF)] ++ reason in
      '(_, c) ← do_send_frame 8 payload c;
      Some (mkCore (closed_ c) (pressure_counted_ c) (pressure_counter_ c) (close_callbacks_ c) (called c)
              (frag_opcode_ c) (frag_payload_ c) (wire c) (sends c) true).

(** *** What a frame does, once it is read *)

(** [true] to go on with the next frame. *)
Definition handle_ws_control_frame (hdr : FrameHeader) (payload : bytes) (c : Core) : option (bool * Core) :=
  if opcode hdr =? 0x9 then
    '(_, c) ← send_or_close 10 payload c;
    Some (true, c)
  else if opcode hdr =? 0xA then Some (true, c)
  else if negb (opcode hdr =? 0x8) then c ← close 1002 (B "reserved opcode") c; Some (false, c)
  else if payload_len hdr =? 1 then c ← close 1002 (B "invalid close payload") c; Some (false, c)
  else if 2 <=? payload_len hdr then
    p0 ← payload !! 0%nat;
    p1 ← payload !! 1%nat;
    let echo_code := Z.lor (Z.shiftl (byteZ p0) 8) (byteZ p1) in
    if negb (is_valid_close_code echo_code) then c ← close 1002 (B "invalid close code") c; Some (false, c)
    else
      valid ← (if (2 <? length payload)%nat then utf8_is_valid (drop 2 payload) else Some true);
      if negb (valid : bool) then c ← close 1007 (B "invalid utf-8") c; Some (false, c)
      else c ← close echo_code [] c; Some (false, c)
  else c ← close 1000 [] c; Some (false, c).

(** A complete message, if it is not a text that is no text. *)
Definition deliver (op : Opcode) (payload : bytes) (c : Core) : option (option Frame * Core) :=
  valid ← match op with Text => utf8_is_valid payload | _ => Some true end;
  if negb (valid : bool) then c ← close 1007 (B "invalid utf-8") c; Some (None, c)
  else Some (Some (mkFrame op payload), c).

Definition handle_ws_continuation_frame (fin : bool) (payload : bytes) (c : Core) : option (option Frame * Core) :=
  match frag_opcode_ c with
  | None => c ← close 1002 (B "std::unexpected continuation") c; Some (None, c)
  | Some final_op =>
      let c := set_frag (Some final_op) (frag_payload_ c ++ payload) c in
      if negb fin then Some (None, c)
      else deliver final_op (frag_payload_ c) (set_frag None [] c)
  end.

Definition handle_ws_data_frame (fin : bool) (opcode_raw : Z) (payload : bytes) (c : Core)
  : option (option Frame * Core) :=
  if negb (opcode_raw =? 0x1) && negb (opcode_raw =? 0x2) then
    c ← close 1002 (B "reserved opcode") c; Some (None, c)
  else
    match frag_opcode_ c with
    | Some _ => c ← close 1002 (B "nested data frame") c; Some (None, c)
    | None =>
        op ← opcode_of opcode_raw;
        if negb fin then Some (None, set_frag (Some op) payload c)
        else deliver op payload c
    end.

(** *** Reading *)

(** One [recv] into the 4096 bytes of [tmp]. *)
Definition recv_chunk (incoming : list bytes) : option (bytes * list bytes) :=
  match incoming with
  | [] | [] :: _ => None
  | c :: rest => Some (take 4096 c, match drop 4096 c with [] => rest | d => d :: rest end)
  end.

Definition with_core (f : Core -> Core) (c : Conn) : Conn := mkConn (f (core c)) (buf_ c) (buf_pos_ c) (incoming c).

Definition compact (c : Conn) : Conn :=
  if (0 <? buf_pos_ c)%nat && ((4096 <=? buf_pos_ c)%nat || (length (buf_ c) <=? buf_pos_ c * 2)%nat)
  then mkConn (core c) (drop (buf_pos_ c) (buf_ c)) 0 (incoming c) else c.

Fixpoint fill_loop (fuel n : nat) (c : Conn) : option (bool * Conn) :=
  match fuel with
  | O => None
  | S fuel =>
      if (n <=? length (buf_ c) - buf_pos_ c)%nat then Some (true, c)
      else
        let c := compact c in
        match recv_chunk (incoming c) with
        | None => Some (false, with_core mark_remote_close_noexcept c)
        | Some (tmp, rest) => fill_loop fuel n (mkConn (core c) (buf_ c ++ tmp) (buf_pos_ c) rest)
        end
  end.

Definition fill (n : nat) (c : Conn) : option (bool * Conn) := fill_loop (S n) n c.

Definition consume (n : nat) (c : Conn) : Conn :=
  let pos := (buf_pos_ c + n)%nat in
  if (length (buf_ c) <=? pos)%nat then mkConn (core c) [] 0 (incoming c)
  else mkConn (core c) (buf_ c) pos (incoming c).

Definition close_conn (code : Z) (reason : bytes) (c : Conn) : option Conn :=
  k ← close code reason (core c);
  Some (mkConn k (buf_ c) (buf_pos_ c) (incoming c)).

Definition emit_ws_protocol_close (c : Conn) : option Conn :=
  c0 ← buf_ c !! buf_pos_ c;
  let b0 := byteZ c0 in
  if negb (Z.land b0 0x70 =? 0) then close_conn 1002 (B "rsv bits set") c
  else if is_reserved (Z.land b0 0x0F) then close_conn 1002 (B "reserved opcode") c
  else close_conn 1002 (B "unmasked frame") c.

Definition header0 : FrameHeader := mkHeader 0 false false 0 (replicate 4 x00) 0.

(** The header, or [None] when the connection is at its end. *)
Definition read_ws_frame_header (c : Conn) : option (option FrameHeader * Conn) :=
  '(ok, c) ← fill 2 c;
  if negb (ok : bool) then Some (None, c)
  else
    let '(pre, hdr) := parse_frame_header (substr (buf_ c) (buf_pos_ c) 2) header0 in
    match pre with
    | ProtocolError => c ← emit_ws_protocol_close c; Some (None, c)
    | ControlTooLarge => c ← close_conn 1002 (B "invalid control frame") c; Some (None, c)
    | _ =>
        c1 ← buf_ c !! (buf_pos_ c + 1)%nat;
        let len7 := Z.land (byteZ c1) 0x7F in
        let header_needed := (2 + (if (len7 =? 126)%Z then 2 else if (len7 =? 127)%Z then 8 else 0) + 4)%nat in
        '(ok, c) ← fill header_needed c;
        if negb (ok : bool) then Some (None, c)
        else
          let '(status, hdr) := parse_frame_header (substr (buf_ c) (buf_pos_ c) header_needed) hdr in
          match status with
          | FrameOk => Some (Some hdr, consume (header_size hdr) c)
          | ProtocolError => c ← close_conn 1002 (B "invalid frame header") c; Some (None, c)
          | ControlTooLarge => c ← close_conn 1002 (B "invalid control frame") c; Some (None, c)
          | Incomplete => Some (None, c)
          end
    end.

Definition read_ws_payload (hdr : FrameHeader) (c : Conn) : option (option bytes * Conn) :=
  let plen := payload_len hdr in
  if kMaxMessageSize <? plen then c ← close_conn 1009 (B "message too big") c; Some (None, c)
  else if (Z.land (opcode hdr) 0x08 =? 0) && (kMaxMessageSize <? u64 (Z.of_nat (length (frag_payload_ (core c))) + plen))
  then c ← close_conn 1009 (B "message too big") c; Some (None, c)
  else
    '(ok, c) ← fill (Z.to_nat plen) c;
    if negb (ok : bool) then Some (None, c)
    else
      let payload := substr (buf_ c) (buf_pos_ c) (Z.to_nat plen) in
      Some (Some (unmask_ws_payload payload (mask hdr)), consume (Z.to_nat plen) c).

(** What [recv] does with a frame: [None] to read the next one. *)
Definition handle_frame (hdr : FrameHeader) (payload : bytes) (c : Core) : option (option (option Frame) * Core) :=
  if negb (Z.land (opcode hdr) 0x08 =? 0) then
    '(again, c) ← handle_ws_control_frame hdr payload c;
    Some (if again : bool then None else Some None, c)
  else
    '(frame, c) ← (if opcode hdr =? 0x0 then handle_ws_continuation_frame (fin hdr) payload c
                    else handle_ws_data_frame (fin hdr) (opcode hdr) payload c);
    match frame with
    | None => Some (if negb (closed_ c) then None else Some None, c)
    | Some f => Some (Some (Some f), c)
    end.

Fixpoint recv_loop (fuel : nat) (c : Conn) : option (option Frame * Conn) :=
  match fuel with
  | O => None
  | S fuel =>
      '(hdr, c) ← read_ws_frame_header c;
      match hdr with
      | None => Some (None, c)
      | Some hdr =>
          '(payload, c) ← read_ws_payload hdr c;
          match payload with
          | None => Some (None, c)
          | Some payload =>
              '(r, k) ← handle_frame hdr payload (core c);
              let c := mkConn k (buf_ c) (buf_pos_ c) (incoming c) in
              match r with
              | None => recv_loop fuel c
              | Some r => Some (r, c)
              end
          end
      end
  end.

(** Everything the socket will still deliver, up to the end of the stream. *)
Fixpoint delivered (incoming : list bytes) : bytes :=
  match incoming with
  | [] | [] :: _ => []
  | c :: rest => c ++ delivered rest
  end.

(** The bytes not consumed yet. *)
Definition stream (c : Conn) : bytes := drop (buf_pos_ c) (buf_ c) ++ delivered (incoming c).

(** A frame takes at least two bytes. *)
Definition recv (c : Conn) : option (option Frame * Conn) := recv_loop (S (length (stream c))) c.

End conn.
End WsConn.

(** ** Headers *)

Module WsFrames.
Import Ws.

Lemma len_bytes_S n z : len_bytes (S n) z = len_bytes n (Z.shiftr z 8) ++ [byte_of_Z z].
Proof.
  unfold len_bytes. rewrite seq_S, map_app. cbn [map]. f_equal.
  - apply map_ext_in. intros i Hi%in_seq. rewrite Z.shiftr_shiftr by lia. do 2 f_equal. lia.
  - replace (S n - 1 - (0 + n))%nat with 0%nat by lia. by rewrite Z.shiftr_0_r.
Qed.

Lemma length_len_bytes n z : length (len_bytes n z) = n.
Proof. unfold len_bytes. by rewrite length_map, length_seq. Qed.

Lemma be_value_snoc bs b : be_value (bs ++ [b]) = Z.lor (u64 (Z.shiftl (be_value bs) 8)) (byteZ b).
Proof. unfold be_value. by rewrite fold_left_app. Qed.

(** The value of at most eight bytes. *)
Lemma be_value_range bs : (length bs <= 8)%nat -> 0 <= be_value bs < 256 ^ Z.of_nat (length bs).
Proof.
  induction bs as [|b bs IH] using rev_ind; intros Hl; [done|]. rewrite length_app in *. cbn [length] in *.
  specialize (IH ltac:(lia)). pose proof (byteZ_range b). rewrite be_value_snoc.
  replace (Z.of_nat (length bs + 1)) with (Z.of_nat (length bs) + 1) by lia. rewrite Z.pow_add_r by lia.
  assert (256 ^ Z.of_nat (length bs) <= 256 ^ 7) by (apply Z.pow_le_mono_r; lia).
  rewrite u64_small by (rewrite Z.shiftl_mul_pow2; lia). rewrite lor_shiftl_add by lia. lia.
Qed.

Lemma be_value_step bs b : (length bs < 8)%nat -> be_value (bs ++ [b]) = be_value bs * 256 + byteZ b.
Proof.
  intros Hl. rewrite be_value_snoc. pose proof (be_value_range bs ltac:(lia)). pose proof (byteZ_range b).
  assert (256 ^ Z.of_nat (length bs) <= 256 ^ 7) by (apply Z.pow_le_mono_r; lia).
  rewrite u64_small by (rewrite Z.shiftl_mul_pow2; lia). rewrite lor_shiftl_add by lia. lia.
Qed.

Lemma be_value_len_bytes n z : (n <= 8)%nat -> 0 <= z < 256 ^ Z.of_nat n -> be_value (len_bytes n z) = z.
Proof.
  revert z. induction n as [|n IH]; intros z Hn Hz; [cbn in Hz; by assert (z = 0) as -> by lia|].
  rewrite len_bytes_S, be_value_step by (rewrite length_len_bytes; lia).
  rewrite Z.shiftr_div_pow2 by lia. change (2 ^ 8) with 256. rewrite byteZ_byte_of_Z.
  assert (0 <= z / 256 < 256 ^ Z.of_nat n).
  { replace (Z.of_nat (S n)) with (Z.of_nat n + 1) in Hz by lia. rewrite Z.pow_add_r in Hz by lia.
    split; [apply Z.div_pos; lia|apply Z.div_lt_upper_bound; lia]. }
  rewrite IH by lia. pose proof (Z.div_mod z 256 ltac:(lia)). lia.
Qed.

Lemma len_bytes_be_value bs : (length bs <= 8)%nat -> len_bytes (length bs) (be_value bs) = bs.
Proof.
  induction bs as [|b bs IH] using rev_ind; intros Hl; [done|]. rewrite length_app in *. cbn [length] in *.
  rewrite be_value_step by lia. replace (length bs + 1)%nat with (S (length bs)) by lia.
  rewrite len_bytes_S. pose proof (byteZ_range b). f_equal.
  - rewrite Z.shiftr_div_pow2 by lia. change (2 ^ 8) with 256.
    rewrite Z.div_add_l, Z.div_small, Z.add_0_r by lia. apply IH. lia.
  - f_equal. apply byteZ_inj. rewrite byteZ_byte_of_Z. rewrite Z.add_comm, Z.mod_add by lia. by apply Z.mod_small.
Qed.

(** The header a client writes: RFC 6455, with the shortest form of the length. *)
Definition len7 (len : Z) : Z := if len <? 126 then len else if len <=? 0xFFFF then 126 else 127.
Definition len_ext (len : Z) : bytes :=
  if len <? 126 then [] else if len <=? 0xFFFF then len_bytes 2 len else len_bytes 8 len.
Definition client_header (f : bool) (op : Z) (key : bytes) (len : Z) : bytes :=
  [byte_of_Z ((if f then 128 else 0) + op); byte_of_Z (128 + len7 len)] ++ len_ext len ++ key.

Definition known_opcode (op : Z) : Prop := op = 0 \/ op = 1 \/ op = 2 \/ op = 8 \/ op = 9 \/ op = 10.

Record good_header (h : FrameHeader) : Prop := {
  gh_op : known_opcode (opcode h);
  gh_control : 8 <= opcode h -> fin h = true /\ payload_len h <= 125;
  gh_masked : masked h = true;
  gh_mask : length (mask h) = 4%nat;
  gh_len : 0 <= payload_len h < 2 ^ 64;
  gh_size : header_size h = length (client_header (fin h) (opcode h) (mask h) (payload_len h))
}.

Lemma first_byte (f : bool) op : known_opcode op ->
  let b := byteZ (byte_of_Z ((if f then 128 else 0) + op)) in
  Z.land b 0x0F = op /\ negb (Z.land b 0x80 =? 0) = f /\ Z.land b 0x70 = 0 /\ is_reserved op = false /\
  negb (Z.land op 0x08 =? 0) = (8 <=? op).
Proof. intros H. destruct H as [->|[->|[->|[->|[->| ->]]]]], f; vm_compute; auto. Qed.

Lemma first_byte_inv b : Z.land (byteZ b) 0x70 = 0 -> is_reserved (Z.land (byteZ b) 0x0F) = false ->
  known_opcode (Z.land (byteZ b) 0x0F) /\
  b = byte_of_Z ((if negb (Z.land (byteZ b) 0x80 =? 0) then 128 else 0) + Z.land (byteZ b) 0x0F).
Proof.
  intros H1 H2.
  assert (implb ((Z.land (byteZ b) 0x70 =? 0) && negb (is_reserved (Z.land (byteZ b) 0x0F)))
    (existsb (Z.eqb (Z.land (byteZ b) 0x0F)) [0; 1; 2; 8; 9; 10] &&
     (b =b byte_of_Z ((if negb (Z.land (byteZ b) 0x80 =? 0) then 128 else 0) + Z.land (byteZ b) 0x0F))) = true) as H
    by byte_decide b.
  rewrite H1, H2 in H. cbn [Z.eqb negb andb implb] in H. apply andb_true_iff in H as [Ha Hb%byte_eqb_eq].
  split; [|done]. apply existsb_exists in Ha as (x & Hx & ->%Z.eqb_eq). unfold known_opcode. cbn in Hx. intuition lia.
Qed.

Lemma second_byte n : 0 <= n < 128 ->
  Z.land (byteZ (byte_of_Z (128 + n))) 0x7F = n /\ negb (Z.land (byteZ (byte_of_Z (128 + n))) 0x80 =? 0) = true.
Proof.
  intros Hn. assert (byteZ (byte_of_Z (128 + n)) = 128 + n) as -> by (rewrite byteZ_byte_of_Z; apply Z.mod_small; lia).
  replace (128 + n) with (1 * 2 ^ 7 + n) by lia. rewrite <- lor_shiftl_add by lia. rewrite !Z.land_lor_distr_l.
  change (Z.land (Z.shiftl 1 7) 0x7F) with 0. change (Z.land (Z.shiftl 1 7) 0x80) with 128.
  change 0x7F with (Z.ones 7). rewrite Z.land_ones, Z.mod_small by lia. split; [done|].
  destruct (Z.eqb_spec (Z.lor 128 (Z.land n 128)) 0) as [E|]; [|done]. by apply Z.lor_eq_0_iff in E as [? _].
Qed.

Lemma second_byte_inv b : negb (Z.land (byteZ b) 0x80 =? 0) = true ->
  b = byte_of_Z (128 + Z.land (byteZ b) 0x7F) /\ 0 <= Z.land (byteZ b) 0x7F < 128.
Proof.
  intros H. assert (implb (negb (Z.land (byteZ b) 0x80 =? 0)) (b =b byte_of_Z (128 + Z.land (byteZ b) 0x7F)) = true) as Hb
    by byte_decide b.
  rewrite H in Hb. cbn [implb] in Hb. split; [by apply byte_eqb_eq|].
  change 0x7F with (Z.ones 7). rewrite Z.land_ones by lia. apply Z.mod_pos_bound. lia.
Qed.

Lemma length_client_header f op key len :
  length (client_header f op key len) = (2 + length (len_ext len) + length key)%nat.
Proof. unfold client_header. rewrite !length_app. done. Qed.

Lemma len_ext_length len :
  length (len_ext len) = (if (len <? 126)%Z then 0 else if (len <=? 0xFFFF)%Z then 2 else 8)%nat.
Proof. unfold len_ext. repeat case_match; by rewrite ?length_len_bytes. Qed.

Lemma len7_range len : 0 <= len -> 0 <= len7 len < 128.
Proof. intros. unfold len7. destruct (Z.ltb_spec len 126); [lia|]. destruct (len <=? 0xFFFF); lia. Qed.

(** A header is read from its own bytes, whatever follows it. *)
Lemma parse_client_header h rest out :
  good_header h ->
  parse_frame_header (client_header (fin h) (opcode h) (mask h) (payload_len h) ++ rest) out = (FrameOk, h).
Proof.
  intros [Hop Hctl Hm Hk Hl Hs]. destruct h as [op f m len key size]. cbn [opcode fin masked payload_len mask header_size] in *.
  subst m size. rewrite length_client_header, Hk. unfold parse_frame_header, client_header. cbn [app].
  destruct (first_byte f op Hop) as (E1 & E2 & E3 & E4 & E5). destruct (second_byte (len7 len)) as [E6 E7]; [apply len7_range; lia|].
  cbv zeta. cbn [opcode fin masked payload_len mask header_size]. rewrite E1, E2, E3, E4, E5, E6, E7. cbn [Z.eqb negb].
  set (buf := byte_of_Z _ :: byte_of_Z (128 + len7 len) :: _).
  assert ((8 <=? op) && (negb f || (125 <? len7 len)) = false) as ->.
  { destruct (Z.leb_spec 8 op) as [H8|]; [|done]. destruct (Hctl H8) as [-> H125]. unfold len7. cbn [negb orb andb].
    destruct (Z.ltb_spec len 126); lia. }
  assert (Hmask : forall n p, n = (2 + length (len_ext len))%nat ->
    read_mask buf p len n = (FrameOk, set_length p len key (n + 4))).
  { intros n p ->. unfold read_mask. assert (length buf = (2 + length (len_ext len) + 4 + length rest)%nat) as ->
      by (unfold buf; cbn [length]; rewrite !length_app, Hk; lia).
    destruct (Nat.ltb_spec (2 + length (len_ext len) + 4 + length rest) (2 + length (len_ext len) + 4)); [lia|].
    do 2 f_equal. unfold substr, buf. cbn [Nat.add drop]. rewrite <- app_assoc, drop_app_length.
    rewrite take_app_le, firstn_all2 by lia. done. }
  assert (Hsub : forall n, length (len_ext len) = n -> substr buf 2 n = len_ext len).
  { intros n <-. unfold substr, buf. cbn [drop]. by rewrite <- app_assoc, drop_0, take_app_length. }
  assert (Hbuf : (length buf = 2 + length (len_ext len) + 4 + length rest)%nat)
    by (unfold buf; cbn [length]; rewrite !length_app, Hk; lia).
  pose proof (len_ext_length len) as Hlen.
  unfold len7. unfold len_ext in Hsub at 2. destruct (Z.ltb_spec len 126).
  - destruct (Z.eqb_spec len 126); [lia|]. destruct (Z.eqb_spec len 127); [lia|]. rewrite (Hmask 2%nat) by lia.
    unfold set_length. cbn [opcode fin masked]. do 2 f_equal. lia.
  - destruct (Z.leb_spec len 0xFFFF).
    + rewrite Z.eqb_refl. destruct (Nat.ltb_spec (length buf) 4); [lia|]. rewrite (Hsub 2%nat) by done.
      rewrite be_value_len_bytes by (change (256 ^ Z.of_nat 2) with 65536; lia).
      destruct (Z.ltb_spec len 126); [lia|]. rewrite (Hmask 4%nat) by lia. unfold set_length. cbn [opcode fin masked].
      do 2 f_equal. lia.
    + cbn [Z.eqb Pos.eqb]. destruct (Nat.ltb_spec (length buf) 10); [lia|]. rewrite (Hsub 8%nat) by done.
      rewrite be_value_len_bytes by (change (256 ^ Z.of_nat 8) with (2 ^ 64); lia).
      destruct (Z.leb_spec len 0xFFFF); [lia|]. rewrite (Hmask 10%nat) by lia. unfold set_length. cbn [opcode fin masked].
      do 2 f_equal. lia.
Qed.

(** The mask and the size that the last step of the parser fills in. *)
Lemma read_mask_ok buf out plen off h :
  read_mask buf out plen off = (FrameOk, h) ->
  h = set_length out plen (substr buf off 4) (off + 4) /\ length (substr buf off 4) = 4%nat.
Proof.
  unfold read_mask. destruct (Nat.ltb_spec (length buf) (off + 4)); [done|]. intros [= <-]. split; [done|].
  rewrite substr_length. lia.
Qed.

Lemma len_bytes_of n bs : length bs = n -> (n <= 8)%nat -> len_bytes n (be_value bs) = bs.
Proof. intros <-. apply len_bytes_be_value. Qed.

(** The first two bytes, the length field of [n] bytes and the mask make up the
    header that is returned. *)
Lemma header_good c0 c1 t plen n out h :
  let buf := c0 :: c1 :: t in
  let op := Z.land (byteZ c0) 0x0F in
  let f := negb (Z.land (byteZ c0) 0x80 =? 0) in
  Z.land (byteZ c0) 0x70 = 0 -> is_reserved op = false ->
  (8 <=? op) && (negb f || (125 <? Z.land (byteZ c1) 0x7F)) = false -> negb (Z.land (byteZ c1) 0x80 =? 0) = true ->
  len7 plen = Z.land (byteZ c1) 0x7F -> 0 <= plen < 2 ^ 64 -> substr buf 2 n = len_ext plen ->
  length (len_ext plen) = n -> opcode out = op -> fin out = f -> masked out = true ->
  read_mask buf out plen (2 + n) = (FrameOk, h) ->
  good_header h /\ exists rest, buf = client_header (fin h) (opcode h) (mask h) (payload_len h) ++ rest.
Proof.
  intros buf op f E1 E2 E3 E4 Hp Hl Hs Hn Ho Hf Hm1 [-> Hm]%read_mask_ok.
  destruct (first_byte_inv c0 E1 E2) as [Hop Hc0]. destruct (second_byte_inv c1 E4) as [Hc1 Hr].
  unfold set_length. cbn [opcode fin masked payload_len mask header_size]. rewrite Ho, Hf.
  assert (buf = client_header f op (substr buf (2 + n) 4) plen ++ drop (2 + n + 4) buf) as E.
  { unfold client_header. rewrite Hp, <- Hs. unfold f, op. rewrite <- Hc0, <- Hc1. cbn [app].
    rewrite <- app_assoc, <- (drop_substr _ (2 + n) 4), <- (drop_substr _ 2 n). done. }
  split; [|eexists; exact E]. constructor; cbn [opcode fin masked payload_len mask header_size]; try done.
  - intros H8. apply andb_false_iff in E3 as [E3|E3]; [lia|]. apply orb_false_iff in E3 as [E3 E6].
    split; [by destruct f|]. unfold len7 in Hp. destruct (Z.ltb_spec plen 126); [lia|]. destruct (plen <=? 0xFFFF); lia.
  - rewrite length_client_header, Hm. lia.
Qed.

Lemma parse_frame_header_inv buf out h :
  parse_frame_header buf out = (FrameOk, h) ->
  good_header h /\ exists rest, buf = client_header (fin h) (opcode h) (mask h) (payload_len h) ++ rest.
Proof.
  unfold parse_frame_header. destruct buf as [|c0 [|c1 t]]; [done|done|]. cbv zeta. cbn [opcode fin masked].
  destruct (Z.eqb_spec (Z.land (byteZ c0) 0x70) 0) as [E1|]; [|done]. cbn [negb].
  destruct (is_reserved (Z.land (byteZ c0) 0x0F)) eqn:E2; [done|].
  destruct (first_byte_inv c0 E1 E2) as [Hop _].
  destruct (first_byte true _ Hop) as (_ & _ & _ & _ & E5). rewrite E5.
  match goal with |- context [if ?b then (ControlTooLarge, _) else _] => destruct b eqn:E3; [done|] end.
  destruct (negb (Z.land (byteZ c1) 0x80 =? 0)) eqn:E4; [|done]. cbn [negb].
  destruct (second_byte_inv c1 E4) as [_ Hr].
  destruct (Z.eqb_spec (Z.land (byteZ c1) 0x7F) 126) as [E6|E6]; [|destruct (Z.eqb_spec (Z.land (byteZ c1) 0x7F) 127) as [E7|E7]].
  - destruct (Nat.ltb_spec (length (c0 :: c1 :: t)) 4) as [|Hl]; [done|].
    assert (length (substr (c0 :: c1 :: t) 2 2) = 2%nat) as Hl2 by (rewrite substr_length; lia).
    pose proof (be_value_range (substr (c0 :: c1 :: t) 2 2) ltac:(lia)) as Hv. rewrite Hl2 in Hv.
    change (256 ^ Z.of_nat 2) with 65536 in Hv. pose proof (len_bytes_of 2 _ Hl2 ltac:(lia)) as Hb.
    destruct (Z.ltb_spec (be_value (substr (c0 :: c1 :: t) 2 2)) 126) as [|Hge]; [done|].
    apply (header_good c0 c1 t _ 2); try done; unfold len7, len_ext; try lia;
      destruct (Z.ltb_spec (be_value (substr (c0 :: c1 :: t) 2 2)) 126); try lia;
      destruct (Z.leb_spec (be_value (substr (c0 :: c1 :: t) 2 2)) 0xFFFF); try lia; done.
  - destruct (Nat.ltb_spec (length (c0 :: c1 :: t)) 10) as [|Hl]; [done|].
    assert (length (substr (c0 :: c1 :: t) 2 8) = 8%nat) as Hl2 by (rewrite substr_length; lia).
    pose proof (be_value_range (substr (c0 :: c1 :: t) 2 8) ltac:(lia)) as Hv. rewrite Hl2 in Hv.
    change (256 ^ Z.of_nat 8) with (2 ^ 64) in Hv. pose proof (len_bytes_of 8 _ Hl2 ltac:(lia)) as Hb.
    destruct (Z.leb_spec (be_value (substr (c0 :: c1 :: t) 2 8)) 0xFFFF) as [|Hge]; [done|].
    apply (header_good c0 c1 t _ 8); try done; unfold len7, len_ext; try lia;
      destruct (Z.ltb_spec (be_value (substr (c0 :: c1 :: t) 2 8)) 126); try lia;
      destruct (Z.leb_spec (be_value (substr (c0 :: c1 :: t) 2 8)) 0xFFFF); try lia; done.
  - apply (header_good c0 c1 t _ 0); try done; unfold len7, len_ext; try lia;
      destruct (Z.ltb_spec (Z.land (byteZ c1) 0x7F) 126); try lia; by rewrite ?substr_nil.
Qed.

End WsFrames.

(** ** UTF-8 *)

Module WsUtf8.
Import Ws.

Lemma lead_values b :
  utf8_lead b =
  let z := byteZ b in
  if z <? 192 then None else if z <? 224 then Some (1%nat, 0x80, z - 192) else if z <? 240 then Some (2%nat, 0x800, z - 224)
  else if z <? 248 then Some (3%nat, 0x10000, z - 240) else None.
Proof.
  apply (bool_decide_eq_true _).
  byte_decide b.
Qed.

Lemma cont_values c :
  (Z.land (byteZ c) 0xC0 =? 0x80) = ((128 <=? byteZ c) && (byteZ c <? 192)) /\ Z.land (byteZ c) 0x3F = byteZ c mod 64.
Proof.
  split; [|change 0x3F with (Z.ones 6); by rewrite Z.land_ones].
  apply (bool_decide_eq_true _). byte_decide c.
Qed.

(** Continuation bytes, as numbers. *)
Lemma utf8_conts_cons cp c cs :
  0 <= cp -> utf8_conts cp (c :: cs) =
  if (128 <=? byteZ c) && (byteZ c <? 192) then utf8_conts (cp * 64 + (byteZ c - 128)) cs else None.
Proof.
  intros Hcp. cbn [utf8_conts]. destruct (cont_values c) as [-> ->].
  destruct ((128 <=? byteZ c) && (byteZ c <? 192)) eqn:E; [|done]. cbn [negb]. bool_simp.
  assert (byteZ c mod 64 = byteZ c - 128) as ->
    by (replace (byteZ c) with (byteZ c - 128 + 2 * 64) at 1 by lia; rewrite Z.mod_add, Z.mod_small; lia).
  rewrite lor_shiftl_add by lia. done.
Qed.

Definition mark (base x : Z) : byte := byte_of_Z (base + x).

Lemma byteZ_mark base x : 0 <= base + x < 256 -> byteZ (mark base x) = base + x.
Proof. intros. unfold mark. rewrite byteZ_byte_of_Z. by apply Z.mod_small. Qed.

Lemma mark_of b base : mark base (byteZ b - base) = b.
Proof. unfold mark. replace (base + (byteZ b - base)) with (byteZ b) by lia. apply byte_of_Z_byteZ. Qed.

Lemma cont_mark x : byte_of_Z (Z.lor 0x80 (Z.land x 0x3F)) = mark 128 (x mod 64).
Proof.
  unfold mark. change 0x3F with (Z.ones 6). rewrite Z.land_ones by lia. change 0x80 with (Z.shiftl 2 6).
  pose proof (Z.mod_pos_bound x 64 ltac:(lia)). change (2 ^ 6) with 64. rewrite lor_shiftl_add by lia. done.
Qed.

Lemma lead_mark a n x : 0 <= n -> 0 <= x < 2 ^ n -> byte_of_Z (Z.lor (a * 2 ^ n) x) = mark (a * 2 ^ n) x.
Proof. intros Hn Hx. unfold mark. rewrite <- Z.shiftl_mul_pow2 by done. by rewrite lor_shiftl_add, Z.shiftl_mul_pow2. Qed.

(** The encoding, digit by digit in base 64. *)
Lemma encode_2 cp : 0x80 <= cp < 0x800 -> encode_utf8 cp = [mark 192 (cp / 64); mark 128 (cp mod 64)].
Proof.
  intros H. unfold encode_utf8. destruct (Z.ltb_spec cp 0x80); [lia|]. destruct (Z.ltb_spec cp 0x800); [|lia].
  pose proof (shiftr_range cp 6 0 32 ltac:(lia) ltac:(lia)). rewrite cont_mark.
  rewrite (lead_mark 6 5) by lia. by rewrite Z.shiftr_div_pow2.
Qed.

Lemma encode_3 cp : 0x800 <= cp < 0x10000 ->
  encode_utf8 cp = [mark 224 (cp / 4096); mark 128 (cp / 64 mod 64); mark 128 (cp mod 64)].
Proof.
  intros H. unfold encode_utf8. destruct (Z.ltb_spec cp 0x80); [lia|]. destruct (Z.ltb_spec cp 0x800); [lia|].
  destruct (Z.ltb_spec cp 0x10000); [|lia].
  pose proof (shiftr_range cp 12 0 16 ltac:(lia) ltac:(lia)). rewrite !cont_mark.
  rewrite (lead_mark 14 4) by lia. by rewrite !Z.shiftr_div_pow2.
Qed.

Lemma encode_4 cp : 0x10000 <= cp < 0x110000 ->
  encode_utf8 cp = [mark 240 (cp / 262144); mark 128 (cp / 4096 mod 64); mark 128 (cp / 64 mod 64); mark 128 (cp mod 64)].
Proof.
  intros H. unfold encode_utf8. destruct (Z.ltb_spec cp 0x80); [lia|]. destruct (Z.ltb_spec cp 0x800); [lia|].
  destruct (Z.ltb_spec cp 0x10000); [lia|].
  pose proof (shiftr_range cp 18 0 5 ltac:(lia) ltac:(lia)). rewrite !cont_mark.
  rewrite (lead_mark 30 3) by lia. by rewrite !Z.shiftr_div_pow2.
Qed.

Ltac solve_marks :=
  repeat first [rewrite utf8_conts_cons by lia | rewrite byteZ_mark by lia];
  repeat match goal with |- context [(128 <=? ?x) && (?x <? 192)] =>
    let H := fresh in assert ((128 <=? x) && (x <? 192) = true) as H by (apply andb_true_iff; split; lia); rewrite H; clear H
  end.

Lemma decode_sequence cp : 0x80 <= cp < 0x110000 ->
  exists lead conts min_cp top, encode_utf8 cp = lead :: conts /\ 128 <= byteZ lead /\
    utf8_lead lead = Some (length conts, min_cp, top) /\ utf8_conts top conts = Some cp /\ min_cp <= cp.
Proof.
  intros H. destruct (Z_lt_le_dec cp 0x800); [|destruct (Z_lt_le_dec cp 0x10000)].
  - pose proof (Z.div_mod cp 64 ltac:(lia)). pose proof (Z.mod_pos_bound cp 64 ltac:(lia)).
    rewrite encode_2 by lia. eexists _, _, 0x80, (cp / 64). split; [done|]. rewrite lead_values, byteZ_mark by lia.
    split; [lia|]. cbv zeta. destruct (Z.ltb_spec (192 + cp / 64) 192); [lia|]. destruct (Z.ltb_spec (192 + cp / 64) 224); [|lia].
    split; [cbn [length]; do 2 f_equal; lia|]. split; [|lia]. solve_marks. cbn [utf8_conts]. f_equal. lia.
  - pose proof (Z.div_mod cp 64 ltac:(lia)). pose proof (Z.mod_pos_bound cp 64 ltac:(lia)).
    pose proof (Z.div_mod (cp / 64) 64 ltac:(lia)). pose proof (Z.mod_pos_bound (cp / 64) 64 ltac:(lia)).
    rewrite encode_3 by lia. assert (cp / 4096 = cp / 64 / 64) as -> by (by rewrite Z.div_div by lia).
    eexists _, _, 0x800, (cp / 64 / 64). split; [done|]. rewrite lead_values, byteZ_mark by lia.
    split; [lia|]. cbv zeta. destruct (Z.ltb_spec (224 + cp / 64 / 64) 192); [lia|].
    destruct (Z.ltb_spec (224 + cp / 64 / 64) 224); [lia|]. destruct (Z.ltb_spec (224 + cp / 64 / 64) 240); [|lia].
    split; [cbn [length]; do 2 f_equal; lia|]. split; [|lia]. solve_marks. cbn [utf8_conts]. f_equal. lia.
  - pose proof (Z.div_mod cp 64 ltac:(lia)). pose proof (Z.mod_pos_bound cp 64 ltac:(lia)).
    pose proof (Z.div_mod (cp / 64) 64 ltac:(lia)). pose proof (Z.mod_pos_bound (cp / 64) 64 ltac:(lia)).
    pose proof (Z.div_mod (cp / 64 / 64) 64 ltac:(lia)). pose proof (Z.mod_pos_bound (cp / 64 / 64) 64 ltac:(lia)).
    rewrite encode_4 by lia. assert (cp / 4096 = cp / 64 / 64) as -> by (by rewrite Z.div_div by lia).
    assert (cp / 262144 = cp / 64 / 64 / 64) as -> by (by rewrite !Z.div_div by lia).
    eexists _, _, 0x10000, (cp / 64 / 64 / 64). split; [done|]. rewrite lead_values, byteZ_mark by lia.
    split; [lia|]. cbv zeta. destruct (Z.ltb_spec (240 + cp / 64 / 64 / 64) 192); [lia|].
    destruct (Z.ltb_spec (240 + cp / 64 / 64 / 64) 224); [lia|]. destruct (Z.ltb_spec (240 + cp / 64 / 64 / 64) 240); [lia|].
    destruct (Z.ltb_spec (240 + cp / 64 / 64 / 64) 248); [|lia].
    split; [cbn [length]; do 2 f_equal; lia|]. split; [|lia]. solve_marks. cbn [utf8_conts]. f_equal. lia.
Qed.

(** One continuation byte read. *)
Lemma utf8_conts_inv cp c cs r :
  0 <= cp -> utf8_conts cp (c :: cs) = Some r ->
  exists k, 0 <= k < 64 /\ c = mark 128 k /\ utf8_conts (cp * 64 + k) cs = Some r.
Proof.
  intros Hcp. rewrite utf8_conts_cons by done. destruct ((128 <=? byteZ c) && (byteZ c <? 192)) eqn:E; [|done]. bool_simp.
  intros Hx. exists (byteZ c - 128). split; [lia|]. split; [by rewrite mark_of|done].
Qed.

Lemma sequence_encode lead conts min_cp top cp :
  utf8_lead lead = Some (length conts, min_cp, top) -> utf8_conts top conts = Some cp -> min_cp <= cp < 0x110000 ->
  0x80 <= cp /\ lead :: conts = encode_utf8 cp.
Proof.
  rewrite lead_values. cbv zeta. pose proof (byteZ_range lead).
  destruct (Z.ltb_spec (byteZ lead) 192); [done|]. destruct (Z.ltb_spec (byteZ lead) 224); [|destruct (Z.ltb_spec (byteZ lead) 240);
    [|destruct (Z.ltb_spec (byteZ lead) 248); [|done]]]; intros [= Hl <- <-] Hc Hcp.
  - destruct conts as [|c1 [|? ?]]; try done. apply utf8_conts_inv in Hc as (k1 & Hk1 & -> & [= <-]); [|lia].
    split; [lia|]. rewrite encode_2 by lia. rewrite <- (mark_of lead 192) at 1.
    do 2 f_equal; [|f_equal; f_equal]; Z.to_euclidean_division_equations; lia.
  - destruct conts as [|c1 [|c2 [|? ?]]]; try done. apply utf8_conts_inv in Hc as (k1 & Hk1 & -> & Hc); [|lia].
    apply utf8_conts_inv in Hc as (k2 & Hk2 & -> & [= <-]); [|lia].
    split; [lia|]. rewrite encode_3 by lia. rewrite <- (mark_of lead 224) at 1.
    repeat f_equal; Z.to_euclidean_division_equations; lia.
  - destruct conts as [|c1 [|c2 [|c3 [|? ?]]]]; try done. apply utf8_conts_inv in Hc as (k1 & Hk1 & -> & Hc); [|lia].
    apply utf8_conts_inv in Hc as (k2 & Hk2 & -> & Hc); [|lia]. apply utf8_conts_inv in Hc as (k3 & Hk3 & -> & [= <-]); [|lia].
    split; [lia|]. rewrite encode_4 by lia. rewrite <- (mark_of lead 240) at 1.
    repeat f_equal; Z.to_euclidean_division_equations; lia.
Qed.

Lemma scalar_range cp : scalar cp <-> 0 <= cp < 0x110000 /\ (0xD800 <=? cp) && (cp <=? 0xDFFF) = false.
Proof.
  unfold scalar. destruct (Z.leb_spec 0xD800 cp), (Z.leb_spec cp 0xDFFF); cbn [andb]; intuition (try done; lia).
Qed.

Lemma scalars_inv b t : scalars (b :: t) -> exists cp d, scalar cp /\ scalars d /\ b :: t = encode_utf8 cp ++ d.
Proof. inversion 1 as [E|cp d Hcp Hd E]. exists cp, d. by rewrite encode_utf8_of by apply Hcp. Qed.

Lemma scalars_ascii b t : byteZ b < 0x80 -> scalars (b :: t) <-> scalars t.
Proof.
  intros Hb. pose proof (byteZ_range b). assert (encode_utf8 (byteZ b) = [b]) as E1.
  { unfold encode_utf8. destruct (Z.ltb_spec (byteZ b) 0x80); [|lia]. by rewrite byte_of_Z_byteZ. }
  split.
  - intros (cp & d & [Hcp _]%scalar_range & Hd & E)%scalars_inv. destruct (Z_lt_le_dec cp 0x80) as [Hlo|Hlo].
    + unfold encode_utf8 in E. destruct (Z.ltb_spec cp 0x80); [|lia]. by injection E as _ ->.
    + destruct (decode_sequence cp ltac:(lia)) as (l & ? & ? & ? & E2 & ? & _). rewrite E2 in E. injection E as <- _. lia.
  - intros Ht. change (b :: t) with ([b] ++ t). rewrite <- E1, encode_utf8_of by lia. constructor; [|done]. apply scalar_range.
    split; [lia|]. destruct (Z.leb_spec 0xD800 (byteZ b)); [lia|done].
Qed.

Lemma scalars_multi b t : 0x80 <= byteZ b ->
  scalars (b :: t) <-> exists extra m top cp, utf8_lead b = Some (extra, m, top) /\ (extra <= length t)%nat /\
    utf8_conts top (take extra t) = Some cp /\ m <= cp /\ scalar cp /\ scalars (drop extra t).
Proof.
  intros Hb. split.
  - intros (cp & d & Hs & Hd & E)%scalars_inv. pose proof Hs as [Hcp _]%scalar_range. destruct (Z_lt_le_dec cp 0x80) as [Hlo|Hlo].
    { exfalso. unfold encode_utf8 in E. destruct (Z.ltb_spec cp 0x80); [|lia]. injection E as -> _.
      rewrite byteZ_byte_of_Z, Z.mod_small in Hb; lia. }
    destruct (decode_sequence cp ltac:(lia)) as (l & conts & m & top & E2 & _ & ? & ? & ?). rewrite E2 in E. cbn [app] in E.
    injection E as <- ->. exists (length conts), m, top, cp. rewrite length_app, take_app_length, drop_app_length.
    split_and!; try done. lia.
  - intros (extra & m & top & cp & El & Hl & Ec & Hm & Hs & Hd). pose proof Hs as [Hcp _]%scalar_range.
    destruct (sequence_encode b (take extra t) m top cp) as [_ Heq]; [by rewrite length_take, Nat.min_l by lia|done|lia|].
    rewrite <- (take_drop extra t), app_comm_cons, Heq, encode_utf8_of by lia. by constructor.
Qed.

(** The check ends and accepts exactly the encodings of scalar values. *)
Lemma utf8_loop_exact fuel s :
  (length s < fuel)%nat -> exists b, utf8_loop fuel s = Some b /\ (b = true <-> scalars s).
Proof.
  revert s. induction fuel as [|fuel IH]; intros s Hf; [lia|]. cbn [utf8_loop].
  destruct s as [|b t]; [eexists; split; [done|]; split; [constructor|done]|]. cbn [length] in Hf.
  destruct (Z.ltb_spec (byteZ b) 0x80) as [Hb|Hb]; [setoid_rewrite scalars_ascii; [apply IH; lia|done]|].
  setoid_rewrite scalars_multi; [|done].
  assert (Hno : forall P : Prop, ~ P -> exists r, Some false = Some r /\ (r = true <-> P)) 
    by (intros P HP; exists false; split; [done|]; split; [done|]; intros H; by destruct (HP H)).
  destruct (utf8_lead b) as [[[extra m] top]|] eqn:El; [|apply Hno; by intros (? & ? & ? & ? & ? & _)].
  destruct (Nat.ltb_spec (length t) extra); [apply Hno; intros (? & ? & ? & ? & [= <- <- <-] & ? & _); lia|].
  destruct (utf8_conts top (take extra t)) as [cp|] eqn:Ec;
    [|apply Hno; intros (? & ? & ? & ? & [= <- <- <-] & _ & E & _); congruence].
  assert (Hcp : (exists extra' m' top' cp', Some (extra, m, top) = Some (extra', m', top') /\ (extra' <= length t)%nat /\
    utf8_conts top' (take extra' t) = Some cp' /\ m' <= cp' /\ scalar cp' /\ scalars (drop extra' t)) <->
    m <= cp /\ scalar cp /\ scalars (drop extra t)).
  { split.
    - intros (? & ? & ? & cp' & [= <- <- <-] & _ & E & ?). assert (cp' = cp) as -> by congruence. tauto.
    - intros ?. by exists extra, m, top, cp. }
  setoid_rewrite Hcp. clear Hcp. setoid_rewrite scalar_range.
  destruct (Z.ltb_spec cp m); [apply Hno; lia|].
  destruct ((0xD800 <=? cp) && (cp <=? 0xDFFF)); [apply Hno; intuition done|].
  destruct (Z.ltb_spec 0x10FFFF cp); [apply Hno; lia|].
  destruct (IH (drop extra t)) as (r & -> & Hr); [rewrite length_drop; lia|]. exists r. split; [done|]. rewrite Hr.
  assert (0 <= m) by (rewrite lead_values in El; cbv zeta in El; repeat case_match; simplify_eq; lia).
  intuition (try done; lia).
Qed.

Lemma utf8_is_valid_exact s : exists b, utf8_is_valid s = Some b /\ (b = true <-> scalars s).
Proof. apply utf8_loop_exact. lia. Qed.

End WsUtf8.

(** ** Reading from pieces is reading from the stream

    The receive loop without buffer and pieces: it reads from the bytes not
    consumed yet. *)

Module WsStream.
Import Ws WsConn.

Section stream.
Context (kernel : nat -> list send_result).

Definition s_close (code : Z) (reason : bytes) (k : Core) (s : bytes) : option (Core * bytes) :=
  k ← close kernel code reason k;
  Some (k, s).

Definition header_needed (c1 : byte) : nat :=
  let len7 := Z.land (byteZ c1) 0x7F in
  (2 + (if (len7 =? 126)%Z then 2 else if (len7 =? 127)%Z then 8 else 0) + 4)%nat.

Definition s_protocol_close (k : Core) (s : bytes) : option (Core * bytes) :=
  c0 ← s !! 0%nat;
  let b0 := byteZ c0 in
  if negb (Z.land b0 0x70 =? 0) then s_close 1002 (B "rsv bits set") k s
  else if is_reserved (Z.land b0 0x0F) then s_close 1002 (B "reserved opcode") k s
  else s_close 1002 (B "unmasked frame") k s.

Definition s_header (k : Core) (s : bytes) : option (option FrameHeader * (Core * bytes)) :=
  if (length s <? 2)%nat then Some (None, (mark_remote_close_noexcept k, s))
  else
    let '(pre, hdr) := parse_frame_header (take 2 s) header0 in
    match pre with
    | ProtocolError => r ← s_protocol_close k s; Some (None, r)
    | ControlTooLarge => r ← s_close 1002 (B "invalid control frame") k s; Some (None, r)
    | _ =>
        c1 ← s !! 1%nat;
        if (length s <? header_needed c1)%nat then Some (None, (mark_remote_close_noexcept k, s))
        else
          let '(status, hdr) := parse_frame_header (take (header_needed c1) s) hdr in
          match status with
          | FrameOk => Some (Some hdr, (k, drop (header_size hdr) s))
          | ProtocolError => r ← s_close 1002 (B "invalid frame header") k s; Some (None, r)
          | ControlTooLarge => r ← s_close 1002 (B "invalid control frame") k s; Some (None, r)
          | Incomplete => Some (None, (k, s))
          end
    end.

Definition s_payload (hdr : FrameHeader) (k : Core) (s : bytes) : option (option bytes * (Core * bytes)) :=
  let plen := payload_len hdr in
  if kMaxMessageSize <? plen then r ← s_close 1009 (B "message too big") k s; Some (None, r)
  else if (Z.land (opcode hdr) 0x08 =? 0) && (kMaxMessageSize <? u64 (Z.of_nat (length (frag_payload_ k)) + plen))
  then r ← s_close 1009 (B "message too big") k s; Some (None, r)
  else if (length s <? Z.to_nat plen)%nat then Some (None, (mark_remote_close_noexcept k, s))
  else Some (Some (unmask_ws_payload (take (Z.to_nat plen) s) (mask hdr)), (k, drop (Z.to_nat plen) s)).

Fixpoint s_recv (fuel : nat) (k : Core) (s : bytes) : option (option Frame * (Core * bytes)) :=
  match fuel with
  | O => None
  | S fuel =>
      '(hdr, (k, s)) ← s_header k s;
      match hdr with
      | None => Some (None, (k, s))
      | Some hdr =>
          '(payload, (k, s)) ← s_payload hdr k s;
          match payload with
          | None => Some (None, (k, s))
          | Some payload =>
              '(r, k) ← handle_frame kernel hdr payload k;
              match r with
              | None => s_recv fuel k s
              | Some r => Some (r, (k, s))
              end
          end
      end
  end.

(** The position is in the buffer. *)
Definition wf (c : Conn) : Prop := (buf_pos_ c <= length (buf_ c))%nat.

(** A connection seen as its state and its stream. *)
Definition view {A} (r : option (A * Conn)) : option (A * (Core * bytes)) :=
  '(a, c) ← r; Some (a, (core c, stream c)).

Definition wf_result {A} (r : option (A * Conn)) : Prop := forall a c, r = Some (a, c) -> wf c.

Lemma compact_ok c : wf c -> stream (compact c) = stream c /\ wf (compact c) /\ core (compact c) = core c /\
  incoming (compact c) = incoming c /\ (length (buf_ (compact c)) - buf_pos_ (compact c) = length (buf_ c) - buf_pos_ c)%nat.
Proof.
  intros Hw. unfold compact, wf in *. destruct (_ && _); [|done]. unfold stream. cbn [buf_ buf_pos_ incoming core].
  rewrite drop_0, length_drop. split_and!; try done; lia.
Qed.

Lemma recv_chunk_ok inc :
  match recv_chunk inc with
  | None => delivered inc = []
  | Some (tmp, rest) => tmp <> [] /\ delivered inc = tmp ++ delivered rest
  end.
Proof.
  destruct inc as [|[|b c] rest]; [done|done|]. unfold recv_chunk.
  destruct (drop 4096 (b :: c)) as [|d ds] eqn:E; (split; [done|]).
  - cbn [delivered]. assert (take 4096 (b :: c) = b :: c) as ->; [|done].
    rewrite <- (take_drop 4096 (b :: c)) at 2. by rewrite E, app_nil_r.
  - change (delivered ((b :: c) :: rest)) with ((b :: c) ++ delivered rest).
    change (delivered ((d :: ds) :: rest)) with ((d :: ds) ++ delivered rest).
    rewrite <- E, app_assoc. by rewrite take_drop.
Qed.

Lemma stream_length c : length (stream c) = (length (buf_ c) - buf_pos_ c + length (delivered (incoming c)))%nat.
Proof. unfold stream. by rewrite length_app, length_drop. Qed.

Lemma fill_loop_ok fuel n c : wf c -> (n - (length (buf_ c) - buf_pos_ c) < fuel)%nat ->
  exists c', fill_loop fuel n c = Some ((n <=? length (stream c))%nat, c') /\ wf c' /\ stream c' = stream c /\
    if (n <=? length (stream c))%nat then core c' = core c /\ (n <= length (buf_ c') - buf_pos_ c')%nat
    else core c' = mark_remote_close_noexcept (core c).
Proof.
  revert c. induction fuel as [|fuel IH]; intros c Hw Hf; [lia|]. cbn [fill_loop]. pose proof (stream_length c) as Hl.
  destruct (Nat.leb_spec n (length (buf_ c) - buf_pos_ c)) as [Hn|Hn].
  - exists c. destruct (Nat.leb_spec n (length (stream c))); [|lia]. done.
  - destruct (compact_ok c Hw) as (Hs & Hw' & Hk & Hi & Ha). pose proof (recv_chunk_ok (incoming (compact c))) as Hr.
    destruct (recv_chunk (incoming (compact c))) as [[tmp rest]|].
    + destruct Hr as [Hne Hd]. set (c1 := mkConn (core (compact c)) (buf_ (compact c) ++ tmp) (buf_pos_ (compact c)) rest).
      assert (stream c1 = stream c) as Hs1.
      { rewrite <- Hs. unfold stream, c1, wf in *. cbn [buf_ buf_pos_ incoming]. rewrite drop_app_le by done.
        by rewrite <- app_assoc, Hd. }
      assert (length tmp <> 0%nat) by (by destruct tmp).
      destruct (IH c1) as (c' & E & Hwc & Hsc & Hc).
      * unfold wf, c1 in *. cbn [buf_ buf_pos_]. rewrite length_app. lia.
      * unfold wf, c1 in *. cbn [buf_ buf_pos_]. rewrite length_app. lia.
      * exists c'. rewrite Hs1 in *. split; [done|]. split; [done|]. split; [done|].
        unfold c1 in Hc. cbn [core] in Hc. by rewrite Hk in Hc.
    + rewrite Hi in Hr. rewrite Hr in Hl. cbn [length] in Hl. destruct (Nat.leb_spec n (length (stream c))); [lia|].
      eexists. split; [done|]. split; [exact Hw'|]. split; [exact Hs|]. cbn [core with_core]. by rewrite Hk.
Qed.

Lemma fill_ok n c : wf c ->
  exists c', fill n c = Some ((n <=? length (stream c))%nat, c') /\ wf c' /\ stream c' = stream c /\
    if (n <=? length (stream c))%nat then core c' = core c /\ (n <= length (buf_ c') - buf_pos_ c')%nat
    else core c' = mark_remote_close_noexcept (core c).
Proof. intros Hw. apply fill_loop_ok; [done|lia]. Qed.

(** Inside the buffer, the buffer and the stream agree. *)
Lemma buffered_substr c n : wf c -> (n <= length (buf_ c) - buf_pos_ c)%nat -> substr (buf_ c) (buf_pos_ c) n = take n (stream c).
Proof. intros Hw Hn. unfold substr, stream. rewrite take_app_le; [done|]. rewrite length_drop. lia. Qed.

Lemma buffered_lookup c i : wf c -> (i < length (buf_ c) - buf_pos_ c)%nat -> buf_ c !! (buf_pos_ c + i)%nat = stream c !! i.
Proof. intros Hw Hn. unfold stream. rewrite lookup_app_l by (rewrite length_drop; lia). by rewrite lookup_drop. Qed.

Lemma consume_ok n c : wf c -> (n <= length (buf_ c) - buf_pos_ c)%nat ->
  stream (consume n c) = drop n (stream c) /\ core (consume n c) = core c /\ wf (consume n c).
Proof.
  unfold wf, consume, stream. intros Hw Hn. destruct (Nat.leb_spec (length (buf_ c)) (buf_pos_ c + n)); cbn [buf_ buf_pos_ incoming core].
  - rewrite drop_app_ge by (rewrite length_drop; lia). rewrite length_drop.
    replace (n - (length (buf_ c) - buf_pos_ c))%nat with 0%nat by lia. rewrite drop_0. done.
  - rewrite drop_app_le by (rewrite length_drop; lia). rewrite drop_drop. split_and!; try done. lia.
Qed.

Lemma close_conn_view code reason c {A} (a : A) : wf c ->
  view (c' ← close_conn kernel code reason c; Some (a, c')) = (r ← s_close code reason (core c) (stream c); Some (a, r)) /\
  wf_result (c' ← close_conn kernel code reason c; Some (a, c')).
Proof.
  intros Hw. unfold close_conn, s_close, wf_result. destruct (close kernel code reason (core c)) as [k|]; cbn [mbind option_bind view].
  - split; [done|]. intros ? ? [= <- <-]. exact Hw.
  - by split.
Qed.

Lemma protocol_close_view c {A} (a : A) : wf c -> (2 <= length (buf_ c) - buf_pos_ c)%nat ->
  view (c' ← emit_ws_protocol_close kernel c; Some (a, c')) = (r ← s_protocol_close (core c) (stream c); Some (a, r)) /\
  wf_result (c' ← emit_ws_protocol_close kernel c; Some (a, c')).
Proof.
  intros Hw Hn. unfold emit_ws_protocol_close, s_protocol_close.
  pose proof (buffered_lookup c 0 Hw ltac:(lia)) as E. rewrite Nat.add_0_r in E. rewrite E.
  destruct (stream c !! 0%nat) as [c0|]; cbn [mbind option_bind]; [|done].
  destruct (negb _); [by apply close_conn_view|]. destruct (is_reserved _); by apply close_conn_view.
Qed.

Lemma done_view {A} (a : A) c : wf c -> view (Some (a, c)) = Some (a, (core c, stream c)) /\ wf_result (Some (a, c)).
Proof. intros Hw. split; [done|]. by intros ? ? [= <- <-]. Qed.

(** What the parser reports has the size of what was read. *)
Lemma parsed_size buf out h : parse_frame_header buf out = (FrameOk, h) -> (header_size h <= length buf)%nat.
Proof.
  intros [Hg (rest & ->)]%WsFrames.parse_frame_header_inv. rewrite (WsFrames.gh_size h Hg), length_app. lia.
Qed.

Lemma read_header_view c : wf c ->
  view (read_ws_frame_header kernel c) = s_header (core c) (stream c) /\ wf_result (read_ws_frame_header kernel c).
Proof.
  intros Hw. unfold read_ws_frame_header, s_header.
  destruct (fill_ok 2 c Hw) as (c1 & -> & Hw1 & Hs1 & Hc1). cbn [mbind option_bind].
  rewrite Nat.ltb_antisym. destruct (Nat.leb_spec 2 (length (stream c))) as [Hl|Hl]; cbn [negb].
  2:{ destruct (done_view (@None FrameHeader) c1 Hw1) as [-> ?]. by rewrite Hc1, Hs1. }
  destruct Hc1 as [Hk1 Hb1]. rewrite buffered_substr by done. rewrite <- Hk1, <- Hs1.
  destruct (parse_frame_header (take 2 (stream c1)) header0) as [pre hdr]. destruct pre.
  3: by apply protocol_close_view. 3: by apply close_conn_view.
  all: rewrite buffered_lookup by (done || lia); destruct (stream c1 !! 1%nat) as [x|]; cbn [mbind option_bind]; [|done].
  all: fold (header_needed x); destruct (fill_ok (header_needed x) c1 Hw1) as (c2 & -> & Hw2 & Hs2 & Hc2); cbn [mbind option_bind];
    rewrite Nat.ltb_antisym; destruct (Nat.leb_spec (header_needed x) (length (stream c1))) as [Hl2|Hl2]; cbn [negb];
    [|destruct (done_view (@None FrameHeader) c2 Hw2) as [-> ?]; by rewrite Hc2, Hs2].
  all: destruct Hc2 as [Hk2 Hb2]; rewrite buffered_substr by done; rewrite <- Hk2, <- Hs2;
    destruct (parse_frame_header (take (header_needed x) (stream c2)) hdr) as [status hdr2] eqn:Ep; destruct status;
    [|by apply done_view|by apply close_conn_view|by apply close_conn_view].
  all: apply parsed_size in Ep; rewrite length_take in Ep; destruct (consume_ok (header_size hdr2) c2 Hw2 ltac:(lia)) as (E1 & E2 & E3);
    destruct (done_view (Some hdr2) _ E3) as [-> ?]; by rewrite E1, E2.
Qed.

Lemma read_payload_view hdr c : wf c ->
  view (read_ws_payload kernel hdr c) = s_payload hdr (core c) (stream c) /\ wf_result (read_ws_payload kernel hdr c).
Proof.
  intros Hw. unfold read_ws_payload, s_payload. cbv zeta. destruct (kMaxMessageSize <? _); [by apply close_conn_view|].
  destruct (_ && _); [by apply close_conn_view|].
  destruct (fill_ok (Z.to_nat (payload_len hdr)) c Hw) as (c1 & -> & Hw1 & Hs1 & Hc1). cbn [mbind option_bind].
  rewrite Nat.ltb_antisym. destruct (Nat.leb_spec (Z.to_nat (payload_len hdr)) (length (stream c))) as [Hl|Hl]; cbn [negb].
  2:{ destruct (done_view (@None bytes) c1 Hw1) as [-> ?]. by rewrite Hc1, Hs1. }
  destruct Hc1 as [Hk1 Hb1]. destruct (consume_ok _ c1 Hw1 Hb1) as (E1 & E2 & E3).
  rewrite buffered_substr, Hs1 by done.
  destruct (done_view (Some (unmask_ws_payload (take (Z.to_nat (payload_len hdr)) (stream c)) (mask hdr))) _ E3) as [-> ?].
  by rewrite E1, E2, Hk1, Hs1.
Qed.

Lemma view_Some {A} (r : option (A * Conn)) a c : wf_result r -> r = Some (a, c) -> view r = Some (a, (core c, stream c)) /\ wf c.
Proof. intros Hw ->. split; [done|]. by eapply Hw. Qed.

(** However the bytes arrive, [recv] does what the loop over the stream does. *)
Lemma recv_loop_view fuel c : wf c ->
  view (recv_loop kernel fuel c) = s_recv fuel (core c) (stream c) /\ wf_result (recv_loop kernel fuel c).
Proof.
  revert c. induction fuel as [|fuel IH]; intros c Hw; [done|]. cbn [recv_loop s_recv].
  destruct (read_header_view c Hw) as [<- Hwr]. destruct (read_ws_frame_header kernel c) as [[hdr c1]|] eqn:E1; [|done].
  specialize (Hwr _ _ eq_refl). cbn [view mbind option_bind]. destruct hdr as [hdr|]; [|by apply done_view].
  destruct (read_payload_view hdr c1 Hwr) as [<- Hwp]. destruct (read_ws_payload kernel hdr c1) as [[p c2]|] eqn:E2; [|done].
  specialize (Hwp _ _ eq_refl). cbn [view mbind option_bind]. destruct p as [p|]; [|by apply done_view].
  destruct (handle_frame kernel hdr p (core c2)) as [[r k]|]; [|done]. cbn [mbind option_bind].
  set (c3 := mkConn k (buf_ c2) (buf_pos_ c2) (incoming c2)). assert (wf c3) as Hw3 by exact Hwp.
  destruct r as [r|]; [by apply (done_view r c3)|]. by apply (IH c3).
Qed.

End stream.
End WsStream.

(** ** Messages *)

Module WsMessages.
Import Ws WsConn WsStream WsFrames.

(** A frame a client sends. *)
Record cframe := mkC { c_fin : bool; c_op : Z; c_key : bytes; c_data : bytes }.

(** Masking as RFC 6455 describes it: the bytes of the key are used in turn. *)
Fixpoint mask_with (k0 k1 k2 k3 : byte) (data : bytes) : bytes :=
  match data with
  | [] => []
  | c :: data => byte_of_Z (Z.lxor (byteZ c) (byteZ k0)) :: mask_with k1 k2 k3 k0 data
  end.

Definition masked_data (f : cframe) : bytes :=
  match c_key f with [k0; k1; k2; k3] => mask_with k0 k1 k2 k3 (c_data f) | _ => [] end.

Definition client_frame (f : cframe) : bytes :=
  client_header (c_fin f) (c_op f) (c_key f) (Z.of_nat (length (c_data f))) ++ masked_data f.

Record good_frame (f : cframe) : Prop := {
  gf_op : known_opcode (c_op f);
  gf_control : 8 <= c_op f -> c_fin f = true /\ (length (c_data f) <= 125)%nat;
  gf_key : length (c_key f) = 4%nat;
  gf_size : Z.of_nat (length (c_data f)) <= kMaxMessageSize
}.

(** The opcodes that begin a message. *)
Definition data_opcode (raw : Z) (op : Opcode) : Prop := raw = 1 /\ op = Text \/ raw = 2 /\ op = Binary.

(** The frames of one message, from the state of the fragments before them
    ([None]: no message begun), with the pings to be answered. *)
Inductive spells : option (Opcode * bytes) -> list cframe -> list bytes -> Opcode -> bytes -> Prop :=
| spells_ping st f fs pongs op m : good_frame f -> c_op f = 9 ->
    spells st fs pongs op m -> spells st (f :: fs) (c_data f :: pongs) op m
| spells_pong st f fs pongs op m : good_frame f -> c_op f = 10 ->
    spells st fs pongs op m -> spells st (f :: fs) pongs op m
| spells_whole f op : good_frame f -> data_opcode (c_op f) op -> c_fin f = true ->
    spells None [f] [] op (c_data f)
| spells_first f fs pongs op0 op m : good_frame f -> data_opcode (c_op f) op0 ->
    c_fin f = false -> spells (Some (op0, c_data f)) fs pongs op m -> spells None (f :: fs) pongs op m
| spells_more f fs pongs op0 acc op m : good_frame f -> c_op f = 0 -> c_fin f = false ->
    spells (Some (op0, acc ++ c_data f)) fs pongs op m -> spells (Some (op0, acc)) (f :: fs) pongs op m
| spells_last f op0 acc : good_frame f -> c_op f = 0 -> c_fin f = true ->
    spells (Some (op0, acc)) [f] [] op0 (acc ++ c_data f).

Lemma lxor_bytes a b : 0 <= Z.lxor (byteZ a) (byteZ b) < 256.
Proof.
  pose proof (byteZ_range a). pose proof (byteZ_range b).
  assert (0 <= Z.lxor (byteZ a) (byteZ b)) by (apply Z.lxor_nonneg; lia). split; [done|].
  destruct (Z.eq_dec (Z.lxor (byteZ a) (byteZ b)) 0) as [->|]; [lia|]. change 256 with (2 ^ 8). apply Z.log2_lt_pow2; [lia|].
  eapply Z.le_lt_trans; [apply Z.log2_lxor; lia|].
  assert (forall x, 0 <= x < 256 -> Z.log2 x < 8) as Hx; [|apply Z.max_lub_lt; by apply Hx].
  intros x Hx. destruct (Z.eq_dec x 0) as [->|]; [done|apply Z.log2_lt_pow2; lia].
Qed.

(** Masking twice with the same key. *)
Lemma length_unmask p key : length (unmask_ws_payload p key) = length p.
Proof. apply length_imap. Qed.

Lemma unmask_unmask p key : unmask_ws_payload (unmask_ws_payload p key) key = p.
Proof.
  apply list_eq. intros i. unfold unmask_ws_payload. rewrite !list_lookup_imap. destruct (p !! i) as [c|]; [|done]. cbn. f_equal.
  apply byteZ_inj. set (k := byteZ (nth (i mod 4) key x00)).
  rewrite !byteZ_byte_of_Z. pose proof (byteZ_range c). rewrite (Z.mod_small (Z.lxor (byteZ c) k)) by apply lxor_bytes.
  rewrite Z.lxor_assoc, Z.lxor_nilpotent, Z.lxor_0_r. apply Z.mod_small. lia.
Qed.

Lemma mask_with_lookup k0 k1 k2 k3 p i :
  mask_with k0 k1 k2 k3 p !! i = (fun c => byte_of_Z (Z.lxor (byteZ c) (byteZ (nth (i mod 4) [k0; k1; k2; k3] x00)))) <$> p !! i.
Proof.
  revert k0 k1 k2 k3 i. induction p as [|c p IH]; intros k0 k1 k2 k3 [|i]; try done. cbn [mask_with lookup list_lookup].
  rewrite IH. destruct (p !! i) as [d|]; [|done]. cbn [fmap option_fmap option_map]. do 4 f_equal.
  pose proof (Nat.mod_upper_bound i 4 ltac:(lia)) as Hb. pose proof (Nat.div_mod_eq i 4) as Hi.
  destruct (i mod 4)%nat as [|[|[|[|n]]]] eqn:E; try lia.
  - replace (S i mod 4)%nat with 1%nat; [done|]. apply (Nat.mod_unique _ _ (i / 4)); lia.
  - replace (S i mod 4)%nat with 2%nat; [done|]. apply (Nat.mod_unique _ _ (i / 4)); lia.
  - replace (S i mod 4)%nat with 3%nat; [done|]. apply (Nat.mod_unique _ _ (i / 4)); lia.
  - replace (S i mod 4)%nat with 0%nat; [done|]. apply (Nat.mod_unique _ _ (S (i / 4))); lia.
Qed.

(** The mask that the code takes off is the one the client put on. *)
Lemma masked_data_unmask f : length (c_key f) = 4%nat -> masked_data f = unmask_ws_payload (c_data f) (c_key f).
Proof.
  unfold masked_data. destruct (c_key f) as [|k0 [|k1 [|k2 [|k3 [|]]]]]; try done. intros _. apply list_eq. intros i.
  rewrite mask_with_lookup. unfold unmask_ws_payload. by rewrite list_lookup_imap.
Qed.

(** The two bytes the loop looks at first are only the beginning of a header. *)
Lemma parse_two f op len out :
  known_opcode op -> (8 <= op -> f = true /\ len <= 125) -> 0 <= len -> exists h,
  parse_frame_header [byte_of_Z ((if f then 128 else 0) + op); byte_of_Z (128 + len7 len)] out = (Incomplete, h).
Proof.
  intros Hop Hctl Hl. unfold parse_frame_header. cbv zeta. cbn [opcode fin masked].
  destruct (first_byte f op Hop) as (-> & -> & -> & -> & ->). destruct (second_byte (len7 len)) as [-> ->]; [by apply len7_range|].
  cbn [Z.eqb negb]. assert ((8 <=? op) && (negb f || (125 <? len7 len)) = false) as ->.
  { destruct (Z.leb_spec 8 op) as [H8|]; [|done]. destruct (Hctl H8) as [-> H125]. unfold len7. cbn [negb orb andb].
    destruct (Z.ltb_spec len 126); lia. }
  cbn. destruct (len7 len =? 126); [by eexists|]. destruct (len7 len =? 127); by eexists.
Qed.

Lemma header_needed_ok len (key : bytes) : 0 <= len -> length key = 4%nat ->
  header_needed (byte_of_Z (128 + len7 len)) = (2 + length (len_ext len) + length key)%nat.
Proof.
  intros Hl ->. unfold header_needed. cbv zeta. destruct (second_byte (len7 len)) as [-> _]; [by apply len7_range|].
  rewrite len_ext_length. unfold len7. destruct (Z.ltb_spec len 126).
  - destruct (Z.eqb_spec len 126); [lia|]. by destruct (Z.eqb_spec len 127); [lia|].
  - by destruct (len <=? 0xFFFF).
Qed.

Definition header_of (f : cframe) : FrameHeader :=
  let h := client_header (c_fin f) (c_op f) (c_key f) (Z.of_nat (length (c_data f))) in
  mkHeader (c_op f) (c_fin f) true (Z.of_nat (length (c_data f))) (c_key f) (length h).

Lemma header_of_good f : good_frame f -> good_header (header_of f).
Proof.
  intros [Hop Hctl Hk Hs]. constructor; cbn; try done; [intros H; destruct (Hctl H); split; [done|lia]|].
  unfold kMaxMessageSize in Hs. lia.
Qed.

Section messages.
Context (kernel : nat -> list send_result).

Lemma s_header_frame f k rest : good_frame f ->
  s_header kernel k (client_frame f ++ rest) = Some (Some (header_of f), (k, unmask_ws_payload (c_data f) (c_key f) ++ rest)).
Proof.
  intros Hf. pose proof Hf as [Hop Hctl Hk Hs]. set (len := Z.of_nat (length (c_data f))) in *. unfold client_frame. fold len.
  rewrite masked_data_unmask by done. rewrite <- app_assoc. set (body := unmask_ws_payload (c_data f) (c_key f) ++ rest).
  set (hd := client_header (c_fin f) (c_op f) (c_key f) len).
  assert (length hd = (2 + length (len_ext len) + length (c_key f))%nat) as Hlen by apply length_client_header.
  unfold s_header. destruct (Nat.ltb_spec (length (hd ++ body)) 2); [rewrite length_app in *; lia|].
  destruct (parse_two (c_fin f) (c_op f) len header0) as [h0 E0]; [done|intros H8; destruct (Hctl H8); split; [done|lia]|lia|].
  change (take 2 (hd ++ body)) with [byte_of_Z ((if c_fin f then 128 else 0) + c_op f); byte_of_Z (128 + len7 len)].
  rewrite E0. change ((hd ++ body) !! 1%nat) with (Some (byte_of_Z (128 + len7 len))). cbn [mbind option_bind].
  rewrite (header_needed_ok len (c_key f)), <- Hlen by (done || lia).
  destruct (Nat.ltb_spec (length (hd ++ body)) (length hd)); [rewrite length_app in *; lia|].
  rewrite take_app_length. pose proof (parse_client_header (header_of f) [] h0 (header_of_good f Hf)) as Ep.
  rewrite app_nil_r in Ep. change (client_header _ _ _ _) with hd in Ep. rewrite Ep. cbn [header_size header_of].
  fold len. fold hd. by rewrite drop_app_length.
Qed.

Lemma s_payload_frame f k rest : good_frame f ->
  (c_op f < 8 -> Z.of_nat (length (frag_payload_ k) + length (c_data f)) <= kMaxMessageSize) ->
  s_payload kernel (header_of f) k (unmask_ws_payload (c_data f) (c_key f) ++ rest) = Some (Some (c_data f), (k, rest)).
Proof.
  intros [Hop Hctl Hk Hs] Hfit. unfold s_payload, header_of. cbn [payload_len opcode mask].
  destruct (Z.ltb_spec kMaxMessageSize (Z.of_nat (length (c_data f)))); [lia|].
  assert ((Z.land (c_op f) 8 =? 0) && (kMaxMessageSize <? u64 (Z.of_nat (length (frag_payload_ k)) + Z.of_nat (length (c_data f)))) = false) as ->.
  { destruct (first_byte true (c_op f) Hop) as (_ & _ & _ & _ & E). destruct (Z.leb_spec 8 (c_op f)).
    - by destruct (Z.land (c_op f) 8 =? 0).
    - unfold kMaxMessageSize in *. rewrite u64_small by lia. apply andb_false_iff. right. apply Z.ltb_ge. lia. }
  rewrite Nat2Z.id, <- (length_unmask (c_data f) (c_key f)), take_app_length, drop_app_length, unmask_unmask.
  destruct (Nat.ltb_spec (length (unmask_ws_payload (c_data f) (c_key f) ++ rest)) (length (unmask_ws_payload (c_data f) (c_key f))));
    [rewrite length_app in *; lia|done].
Qed.

(** One turn of the loop on a frame that is all there. *)
Lemma s_recv_frame fuel f k rest : good_frame f ->
  (c_op f < 8 -> Z.of_nat (length (frag_payload_ k) + length (c_data f)) <= kMaxMessageSize) ->
  s_recv kernel (S fuel) k (client_frame f ++ rest) =
  ('(r, k) ← handle_frame kernel (header_of f) (c_data f) k;
   match r with None => s_recv kernel fuel k rest | Some r => Some (r, (k, rest)) end).
Proof.
  intros Hf Hfit. cbn [s_recv]. rewrite s_header_frame by done. cbn [mbind option_bind].
  by rewrite s_payload_frame by done.
Qed.

Lemma frames_length fs rest : (length fs <= S (length (concat (map client_frame fs) ++ rest)))%nat.
Proof.
  assert (length fs <= length (concat (map client_frame fs)))%nat; [|rewrite length_app; lia].
  induction fs as [|f fs IH]; [done|]. cbn [map concat length]. rewrite length_app. unfold client_frame at 1.
  rewrite length_app, length_client_header. lia.
Qed.

Definition fragment (k : Core) : option (Opcode * bytes) := (fun op => (op, frag_payload_ k)) <$> frag_opcode_ k.

Definition add_wire (k : Core) (out : list bytes) : bytes := wire k ++ concat (map (ws_build_frame 10) out).

(** Short frames are written as a whole. *)
Context (Hsend : forall n p, (length p <= 125)%nat -> ws_send_frame (kernel n) 10 p = Some (true, ws_build_frame 10 p)).

Lemma deliver_ok op m k : (op = Text -> scalars m) -> deliver kernel op m k = Some (Some (mkFrame op m), k).
Proof.
  intros Hm. unfold deliver. destruct op; try done. destruct (WsUtf8.utf8_is_valid_exact m) as (b & -> & Hb).
  assert (b = true) as -> by (by apply Hb, Hm). done.
Qed.

(** A pong as RFC 6455 writes it: final, opcode ten, a length below 126, no mask. *)
Definition pong_frame (p : bytes) : bytes := byte_of_Z 138 :: byte_of_Z (Z.of_nat (length p)) :: p.

Lemma pong_frames st fs pongs op m : spells st fs pongs op m -> map (ws_build_frame 10) pongs = map pong_frame pongs.
Proof.
  induction 1 as [st f fs pongs op m Hf Hop _ IH| | | | |]; try done. cbn [map]. rewrite IH. f_equal.
  destruct (gf_control f Hf) as [_ Hl]; [lia|]. unfold ws_build_frame, pong_frame. cbv zeta. destruct (Z.ltb_spec (Z.of_nat (length (c_data f))) 126); [done|lia].
Qed.

Lemma spells_acc st fs pongs op m : spells st fs pongs op m ->
  forall op0 acc, st = Some (op0, acc) -> exists t, m = acc ++ t.
Proof.
  induction 1 as [st f fs pongs op m Hf Hop _ IH|st f fs pongs op m Hf Hop _ IH|f op Hf Hop Hfin
    |f fs pongs op1 op m Hf Hop Hfin Hsp IH|f fs pongs op1 acc1 op m Hf Hop Hfin Hsp IH|f op1 acc1 Hf Hop Hfin];
    intros op0 acc E; try done; try by eapply IH.
  - injection E as -> ->. destruct (IH _ _ eq_refl) as [t ->]. exists (c_data f ++ t). by rewrite app_assoc.
  - injection E as -> ->. by eexists.
Qed.

(** What [handle_frame] does with each kind of frame of a message. *)
Lemma handle_ping f k : good_frame f -> c_op f = 9 -> exists k', handle_frame kernel (header_of f) (c_data f) k = Some (None, k') /\
  closed_ k' = closed_ k /\ frag_opcode_ k' = frag_opcode_ k /\ frag_payload_ k' = frag_payload_ k /\
  wire k' = wire k ++ ws_build_frame 10 (c_data f).
Proof.
  intros Hf E. unfold handle_frame, handle_ws_control_frame, send_or_close, do_send_frame. cbn [opcode header_of].
  rewrite E, Hsend by (destruct (gf_control f Hf); lia).
  cbn [Z.land Z.eqb negb Pos.eqb mbind option_bind Pos.land Pos.Ndouble Z.of_N]. by eexists.
Qed.

Lemma handle_pong f k : c_op f = 10 -> handle_frame kernel (header_of f) (c_data f) k = Some (None, k).
Proof. intros E. unfold handle_frame, handle_ws_control_frame. cbn [opcode header_of]. by rewrite E. Qed.

Lemma handle_data f op k : data_opcode (c_op f) op -> frag_opcode_ k = None -> closed_ k = false ->
  (c_fin f = true -> op = Text -> scalars (c_data f)) ->
  handle_frame kernel (header_of f) (c_data f) k =
  Some (if c_fin f then Some (Some (mkFrame op (c_data f))) else None, if c_fin f then k else set_frag (Some op) (c_data f) k).
Proof.
  intros Hop Hno Hc Htext. unfold handle_frame, handle_ws_data_frame. cbn [opcode fin header_of]. rewrite Hno.
  assert (opcode_of (c_op f) = Some op /\ Z.land (c_op f) 8 = 0 /\ (c_op f =? 0) = false /\
    negb (c_op f =? 1) && negb (c_op f =? 2) = false) as (-> & -> & -> & ->)
    by (by destruct Hop as [[-> ->]|[-> ->]]).
  cbn [Z.eqb negb mbind option_bind]. destruct (c_fin f); cbn [negb mbind option_bind].
  - by rewrite deliver_ok by auto.
  - cbn [closed_ set_frag]. by rewrite Hc.
Qed.

Lemma handle_continuation f op0 k : c_op f = 0 -> frag_opcode_ k = Some op0 -> closed_ k = false ->
  (c_fin f = true -> op0 = Text -> scalars (frag_payload_ k ++ c_data f)) ->
  handle_frame kernel (header_of f) (c_data f) k =
  Some (if c_fin f then Some (Some (mkFrame op0 (frag_payload_ k ++ c_data f))) else None,
        if c_fin f then set_frag None [] k else set_frag (Some op0) (frag_payload_ k ++ c_data f) k).
Proof.
  intros E Ho Hc Htext. unfold handle_frame, handle_ws_continuation_frame. cbn [opcode fin header_of]. rewrite E, Ho.
  cbn [Z.land Z.eqb negb mbind option_bind]. destruct (c_fin f); cbn [negb mbind option_bind].
  - cbn [frag_payload_ set_frag]. by rewrite deliver_ok by auto.
  - cbn [closed_ set_frag]. by rewrite Hc.
Qed.

Lemma s_recv_message st fs pongs op m : spells st fs pongs op m -> forall fuel k rest,
  (length fs <= fuel)%nat -> closed_ k = false -> fragment k = st -> (frag_opcode_ k = None -> frag_payload_ k = []) ->
  Z.of_nat (length m) <= kMaxMessageSize -> (op = Text -> scalars m) ->
  exists k', s_recv kernel fuel k (concat (map client_frame fs) ++ rest) = Some (Some (mkFrame op m), (k', rest)) /\
    closed_ k' = false /\ frag_opcode_ k' = None /\ frag_payload_ k' = [] /\ wire k' = add_wire k pongs.
Proof.
  unfold add_wire, fragment. induction 1 as [st f fs pongs op m Hf Hop _ IH|st f fs pongs op m Hf Hop _ IH|f op Hf Hop Hfin
    |f fs pongs op0 op m Hf Hop Hfin Hsp IH|f fs pongs op0 acc op m Hf Hop Hfin Hsp IH|f op0 acc Hf Hop Hfin];
    intros fuel k rest Hl Hc Hst Hno Hlen Htext; (destruct fuel as [|fuel]; [cbn [length] in Hl; lia|]); cbn [length] in Hl;
    cbn [map concat]; rewrite <- app_assoc.
  - rewrite s_recv_frame by (done || lia). destruct (handle_ping f k Hf Hop) as (k1 & -> & E1 & E2 & E3 & E4). cbn [mbind option_bind].
    destruct (IH fuel k1 rest ltac:(lia) ltac:(congruence) ltac:(by rewrite E2, E3) ltac:(by rewrite E2, E3) Hlen Htext)
      as (k2 & -> & ? & ? & ? & Ew).
    exists k2. split_and!; try done. by rewrite Ew, E4, <- app_assoc.
  - rewrite s_recv_frame by (done || lia). rewrite handle_pong by done. cbn [mbind option_bind]. apply IH; try done. lia.
  - destruct (frag_opcode_ k) eqn:E; [done|]. rewrite s_recv_frame by (done || rewrite Hno by done; cbn; lia).
    rewrite (handle_data f op) by (done || auto). rewrite Hfin. cbn [mbind option_bind concat map app].
    exists k. rewrite app_nil_r. split_and!; auto.
  - destruct (frag_opcode_ k) eqn:E; [done|]. destruct (spells_acc _ _ _ _ _ Hsp _ _ eq_refl) as [t Et]. subst m.
    rewrite length_app in Hlen. rewrite s_recv_frame by (done || rewrite Hno by done; cbn; lia).
    rewrite (handle_data f op0) by (done || congruence). rewrite Hfin. cbn [mbind option_bind].
    destruct (IH fuel (set_frag (Some op0) (c_data f) k) rest) as (k2 & -> & ? & ? & ? & ?);
      try done; rewrite ?length_app; try lia.
    by exists k2.
  - destruct (frag_opcode_ k) as [o|] eqn:E; [|done]. cbn in Hst. injection Hst as -> Hacc.
    destruct (spells_acc _ _ _ _ _ Hsp _ _ eq_refl) as [t Et]. subst m. rewrite !length_app in Hlen.
    rewrite s_recv_frame by (done || rewrite Hacc; lia).
    rewrite (handle_continuation f op0) by (done || congruence). rewrite Hfin, Hacc. cbn [mbind option_bind].
    destruct (IH fuel (set_frag (Some op0) (acc ++ c_data f) k) rest) as (k2 & -> & ? & ? & ? & ?);
      try done; rewrite ?length_app; try lia.
    by exists k2.
  - destruct (frag_opcode_ k) as [o|] eqn:E; [|done]. cbn in Hst. injection Hst as -> Hacc. rewrite length_app in Hlen.
    rewrite s_recv_frame by (done || rewrite Hacc; lia).
    rewrite (handle_continuation f op0) by (done || rewrite Hacc; auto). rewrite Hfin, Hacc. cbn [mbind option_bind concat map app].
    eexists. split; [done|]. cbn. by rewrite app_nil_r.
Qed.
End messages.

End WsMessages.

(** ** The receive loop ends *)

Module WsTotal.
Import Ws WsConn WsStream WsFrames.

Section total.
Context (kernel : nat -> list send_result) (Hret : forall n op p, (length p <= 125)%nat -> is_Some (ws_send_frame (kernel n) op p)).

Lemma do_send_total op p k : (length p <= 125)%nat -> exists ok k', do_send_frame kernel op p k = Some (ok, k') /\ closed_ k' = closed_ k.
Proof.
  intros Hp. unfold do_send_frame. destruct (Hret (sends k) op p Hp) as [[ok w] ->]. cbn [mbind option_bind]. destruct ok; [by eexists _, _|].
  eexists _, _. split; [done|]. unfold note_pressure_close_noexcept. cbn. by destruct (pressure_counter_ k), (pressure_counted_ k).
Qed.

Lemma mark_closed k : closed_ (mark_remote_close_noexcept k) = true.
Proof. unfold mark_remote_close_noexcept. by destruct (closed_ k) eqn:E. Qed.

(** A closed fact about the constants of the code. *)
Ltac evaluates := solve [assumption | vm_compute; reflexivity | vm_compute; lia].

(** A close with a valid code and reason. *)
Lemma close_total code reason k :
  is_valid_close_code code = true -> (length reason <= 123)%nat -> utf8_is_valid reason = Some true ->
  exists k', close kernel code reason k = Some k' /\ closed_ k' = true.
Proof.
  intros Hc Hl Hu. unfold close. rewrite Hc, Hu. cbn [negb mbind option_bind]. destruct (Nat.ltb_spec 123 (length reason)); [lia|].
  destruct (closed_ k) eqn:E; [by exists k|].
  match goal with |- context [do_send_frame kernel 8 ?p ?k] => destruct (do_send_total 8 p k) as (ok & k' & -> & E');
    [cbn [length app]; lia|] end.
  cbn [mbind option_bind]. eexists. split; [done|]. by rewrite E'.
Qed.

Lemma close_some {A} code reason k (a : A) :
  is_valid_close_code code = true -> (length reason <= 123)%nat -> utf8_is_valid reason = Some true ->
  is_Some (c ← close kernel code reason k; Some (a, c)).
Proof. intros Hc Hl Hu. destruct (close_total code reason k Hc Hl Hu) as (k' & -> & _). by eexists. Qed.

Lemma deliver_some op p k : is_Some (deliver kernel op p k).
Proof.
  unfold deliver. destruct op; try (by eexists).
  destruct (WsUtf8.utf8_is_valid_exact p) as (b & -> & _). cbn [mbind option_bind]. destruct b; cbn [negb]; [by eexists|].
  apply close_some; evaluates.
Qed.

Lemma control_total hdr p k : payload_len hdr = Z.of_nat (length p) -> (length p <= 125)%nat ->
  exists again k', handle_ws_control_frame kernel hdr p k = Some (again, k') /\ (again = false -> closed_ k' = true).
Proof.
  intros Hl Hs. unfold handle_ws_control_frame, send_or_close.
  assert (Hclose : forall code reason, is_valid_close_code code = true -> (length reason <= 123)%nat -> utf8_is_valid reason = Some true ->
    exists again k', (c ← close kernel code reason k; Some (false, c)) = Some (again, k') /\ (again = false -> closed_ k' = true)).
  { intros code reason Hc Hr Hu. destruct (close_total code reason k Hc Hr Hu) as (k' & -> & E). by exists false, k'. }
  destruct (opcode hdr =? 9).
  { destruct (do_send_total 10 p k Hs) as (ok & k' & -> & _). cbn [mbind option_bind]. by eexists true, _. }
  destruct (opcode hdr =? 10); [by exists true, k|]. destruct (negb _); [apply Hclose; evaluates|].
  destruct (Z.eqb_spec (payload_len hdr) 1); [apply Hclose; evaluates|]. destruct (Z.leb_spec 2 (payload_len hdr)); [|apply Hclose; evaluates].
  destruct p as [|p0 [|p1 p]]; cbn [length] in *; try lia. cbn [lookup list_lookup mbind option_bind].
  destruct (is_valid_close_code _) eqn:Ec; cbn [negb]; [|apply Hclose; evaluates].
  destruct (Nat.ltb_spec 2 (S (S (length p)))); [|apply Hclose; evaluates]. cbn [drop]. rewrite drop_0.
  destruct (WsUtf8.utf8_is_valid_exact p) as (b & -> & _). cbn [mbind option_bind]. destruct b; apply Hclose; evaluates.
Qed.

Lemma handle_total hdr p k : payload_len hdr = Z.of_nat (length p) -> good_header hdr ->
  exists r k', handle_frame kernel hdr p k = Some (r, k') /\ (r = Some None -> closed_ k' = true).
Proof.
  intros Hl [Hop Hctl _ _ _ _]. unfold handle_frame.
  destruct (first_byte true _ Hop) as (_ & _ & _ & _ & E). rewrite E. destruct (Z.leb_spec 8 (opcode hdr)).
  { destruct (control_total hdr p k Hl) as (again & k' & -> & Ha); [destruct (Hctl ltac:(done)); lia|]. cbn [mbind option_bind].
    eexists _, _. split; [done|]. destruct again; [done|auto]. }
  assert (forall r, is_Some r -> exists r' k', ('(frame, c) ← r; match frame with
    | None => Some (if negb (closed_ c) then None else Some None, c)
    | Some f => Some (Some (Some f), c) end) = Some (r', k') /\ (r' = Some (@None Frame) -> closed_ k' = true)) as Hgo.
  { intros r ([a k'] & ->). cbn [mbind option_bind]. destruct a as [f|]; [by eexists _, _|].
    eexists _, _. split; [done|]. by destruct (closed_ k'). }
  apply Hgo. destruct (Z.eqb_spec (opcode hdr) 0) as [|Hne].
  - unfold handle_ws_continuation_frame. destruct (frag_opcode_ k) as [op|]; [|apply close_some; evaluates].
    destruct (fin hdr); cbn [negb]; [apply deliver_some|by eexists].
  - assert (exists op, opcode_of (opcode hdr) = Some op /\ negb (opcode hdr =? 1) && negb (opcode hdr =? 2) = false) as (op & Eo & En)
      by (destruct Hop as [?|[->|[->|?]]]; try lia; by eexists).
    unfold handle_ws_data_frame. rewrite En, Eo. destruct (frag_opcode_ k); [apply close_some; evaluates|].
    cbn [mbind option_bind]. destruct (fin hdr); cbn [negb]; [apply deliver_some|by eexists].
Qed.

(** All the bytes the header announces are there. *)
Lemma parse_needed c0 c1 t out h :
  length (c0 :: c1 :: t) = header_needed c1 -> parse_frame_header (c0 :: c1 :: t) out = (Incomplete, h) -> False.
Proof.
  unfold header_needed, parse_frame_header, read_mask. cbv zeta. intros Hl. set (buf := c0 :: c1 :: t) in *. rewrite Hl.
  destruct (Z.land (byteZ c1) 0x7F =? 126), (Z.land (byteZ c1) 0x7F =? 127); cbn [Nat.add Nat.ltb Nat.leb];
    repeat (case_match; try done).
Qed.

Lemma s_close_total code reason k s :
  is_valid_close_code code = true -> (length reason <= 123)%nat -> utf8_is_valid reason = Some true ->
  exists k', s_close kernel code reason k s = Some (k', s) /\ closed_ k' = true.
Proof.
  intros Hc Hl Hu. unfold s_close. destruct (close_total code reason k Hc Hl Hu) as (k' & -> & E). by exists k'.
Qed.

Ltac closes k s := let E := fresh "E" in
  match goal with |- context [s_close kernel ?code ?reason k s] =>
    destruct (s_close_total code reason k s) as (? & E & ?); [evaluates|evaluates|evaluates|rewrite E; cbn [mbind option_bind]];
    eexists _, _, _; split; [reflexivity|]; by split
  end.

Lemma s_header_total k s : exists h k' s', s_header kernel k s = Some (h, (k', s')) /\ (h = None -> closed_ k' = true) /\
  (forall hdr, h = Some hdr -> good_header hdr /\ (length s' < length s)%nat).
Proof.
  unfold s_header. destruct (Nat.ltb_spec (length s) 2); [eexists _, _, _; split; [reflexivity|]; split; [by intros; apply mark_closed|done]|].
  destruct s as [|c0 [|c1 t]]; cbn [length] in *; try lia.
  destruct (parse_frame_header (take 2 (c0 :: c1 :: t)) header0) as [pre hdr]. destruct pre; [| | |closes k (c0 :: c1 :: t)].
  3:{ unfold s_protocol_close. cbn [lookup list_lookup mbind option_bind]. cbv zeta.
      destruct (negb _); [closes k (c0 :: c1 :: t)|]. destruct (is_reserved _); closes k (c0 :: c1 :: t). }
  all: cbn [lookup list_lookup mbind option_bind]; set (buf := c0 :: c1 :: t); change (S (S (length t))) with (length buf).
  all: destruct (Nat.ltb_spec (length buf) (header_needed c1)) as [|Hl];
    [eexists _, _, _; split; [reflexivity|]; split; [by intros; apply mark_closed|done]|].
  all: destruct (parse_frame_header (take (header_needed c1) buf) hdr) as [status h2] eqn:Ep; destruct status;
    [| |closes k buf|closes k buf].
  all: try (exfalso; change buf with (c0 :: c1 :: t) in *; assert (exists n, header_needed c1 = S (S n)) as [n En]
    by (by eexists); rewrite En in Ep; cbn [take] in Ep; eapply parse_needed; [|exact Ep]; cbn [length];
    rewrite length_take; cbn [length] in Hl; lia).
  all: destruct (parse_frame_header_inv _ _ _ Ep) as [Hg (rest & E)]; eexists _, _, _; split; [reflexivity|]; split; [done|];
    intros ? [= <-]; split; [done|]; rewrite (gh_size h2 Hg), length_drop, length_client_header; subst buf; cbn [length]; lia.
Qed.

Lemma s_payload_total hdr k s : 0 <= payload_len hdr ->
  exists p k' s', s_payload kernel hdr k s = Some (p, (k', s')) /\ (p = None -> closed_ k' = true) /\
    (forall q, p = Some q -> Z.of_nat (length q) = payload_len hdr /\ (length s' <= length s)%nat).
Proof.
  intros Hl. unfold s_payload. cbv zeta. destruct (kMaxMessageSize <? _); [closes k s|]. destruct (_ && _); [closes k s|].
  destruct (Nat.ltb_spec (length s) (Z.to_nat (payload_len hdr))).
  - eexists _, _, _; split; [reflexivity|]. split; [by intros; apply mark_closed|done].
  - eexists _, _, _; split; [reflexivity|]. split; [done|]. intros q [= <-]. rewrite WsMessages.length_unmask, length_take, length_drop. lia.
Qed.

Lemma s_recv_total fuel k s : (length s < fuel)%nat ->
  exists r k' s', s_recv kernel fuel k s = Some (r, (k', s')) /\ (r = None -> closed_ k' = true).
Proof.
  revert k s. induction fuel as [|fuel IH]; intros k s Hf; [lia|]. cbn [s_recv].
  destruct (s_header_total k s) as (h & k1 & s1 & -> & Hn & Hs). cbn [mbind option_bind].
  destruct h as [hdr|]; [|by eexists _, _, _; split; [|intros; apply Hn]]. destruct (Hs hdr eq_refl) as [Hg Hl1].
  destruct (s_payload_total hdr k1 s1) as (p & k2 & s2 & -> & Hn2 & Hs2); [apply Hg|]. cbn [mbind option_bind].
  destruct p as [p|]; [|by eexists _, _, _; split; [|intros; apply Hn2]]. destruct (Hs2 p eq_refl) as [Hp Hl2].
  destruct (handle_total hdr p k2) as (r & k3 & -> & Hr); [done|done|]. cbn [mbind option_bind].
  destruct r as [r|]; [|apply IH; lia]. eexists _, _, _. split; [done|]. intros ->. by apply Hr.
Qed.
End total.
End WsTotal.

(** ** The size of messages *)

Module WsBound.
Import Ws WsConn WsStream.

Section bound.
Context (kernel : nat -> list send_result).

(** Nothing but a data frame touches the fragments. *)
Lemma do_send_frag op p k ok k' : do_send_frame kernel op p k = Some (ok, k') -> frag_payload_ k' = frag_payload_ k.
Proof.
  unfold do_send_frame. destruct (ws_send_frame _ op p) as [[b w]|]; [|done]. cbn [mbind option_bind]. intros [= <- <-].
  destruct b; [done|]. unfold note_pressure_close_noexcept. cbn. by destruct (pressure_counter_ k), (pressure_counted_ k).
Qed.

Lemma mark_frag k : frag_payload_ (mark_remote_close_noexcept k) = frag_payload_ k.
Proof. unfold mark_remote_close_noexcept. by destruct (closed_ k). Qed.

Lemma close_frag code reason k k' : close kernel code reason k = Some k' -> frag_payload_ k' = frag_payload_ k.
Proof.
  unfold close. destruct (negb _); [done|]. destruct (_ <? _)%nat; [done|]. destruct (utf8_is_valid reason) as [b|]; [|done].
  cbn [mbind option_bind]. destruct (negb b); [done|]. destruct (closed_ k); [by intros [= <-]|].
  destruct (do_send_frame _ _ _ _) as [[ok k1]|] eqn:E; [|done]. cbn [mbind option_bind]. intros [= <-].
  apply do_send_frag in E. done.
Qed.

Lemma close_bind {A} code reason k (a : A) r k' :
  (c ← close kernel code reason k; Some (a, c)) = Some (r, k') -> r = a /\ frag_payload_ k' = frag_payload_ k.
Proof. destruct (close kernel code reason k) eqn:E; [|done]. cbn [mbind option_bind]. intros [= <- <-]. split; [done|]. by eapply close_frag. Qed.

Lemma s_close_bind {A} code reason k (a : A) s r k' s' :
  (x ← s_close kernel code reason k s; Some (a, x)) = Some (r, (k', s')) -> r = a /\ frag_payload_ k' = frag_payload_ k.
Proof.
  unfold s_close. destruct (close kernel code reason k) eqn:E; [|done]. cbn [mbind option_bind]. intros [= <- <- <-]. split; [done|].
  by eapply close_frag.
Qed.

Lemma s_header_frag k s h k' s' : s_header kernel k s = Some (h, (k', s')) -> frag_payload_ k' = frag_payload_ k.
Proof.
  unfold s_header. destruct (_ <? 2)%nat; [intros [= _ <- _]; apply mark_frag|].
  assert (Hgo : forall hdr r, (c1 ← s !! 1%nat; if (length s <? header_needed c1)%nat then Some (None, (mark_remote_close_noexcept k, s))
    else let '(status, hdr) := parse_frame_header (take (header_needed c1) s) hdr in
      match status with
      | FrameOk => Some (Some hdr, (k, drop (header_size hdr) s))
      | ProtocolError => r ← s_close kernel 1002 (B "invalid frame header") k s; Some (None, r)
      | ControlTooLarge => r ← s_close kernel 1002 (B "invalid control frame") k s; Some (None, r)
      | Incomplete => Some (None, (k, s)) end) = Some (r, (k', s')) -> frag_payload_ k' = frag_payload_ k).
  { intros hdr r. destruct (s !! 1%nat) as [c1|]; [|done]. cbn [mbind option_bind]. destruct (_ <? _)%nat; [intros [= _ <- _]; apply mark_frag|].
    destruct (parse_frame_header _ hdr) as [[] h1]; try (by intros [= _ <- _]); by intros [_ H]%s_close_bind. }
  destruct (parse_frame_header (take 2 s) header0) as [[] hdr]; try (by apply Hgo); [|by intros [_ H]%s_close_bind].
  unfold s_protocol_close. destruct (s !! 0%nat) as [c0|]; [|done]. cbn [mbind option_bind]. cbv zeta.
  destruct (negb _); [by intros [_ H]%s_close_bind|]. destruct (is_reserved _); by intros [_ H]%s_close_bind.
Qed.

(** A payload that is read leaves room for the fragments before it. *)
Lemma s_payload_frag hdr k s p k' s' :
  Z.of_nat (length (frag_payload_ k)) <= kMaxMessageSize -> 0 <= payload_len hdr ->
  s_payload kernel hdr k s = Some (p, (k', s')) ->
  frag_payload_ k' = frag_payload_ k /\
  forall q, p = Some q -> Z.of_nat (length q) = payload_len hdr /\
    (Z.land (opcode hdr) 8 = 0 -> Z.of_nat (length (frag_payload_ k) + length q) <= kMaxMessageSize).
Proof.
  intros Hk Hpl. unfold s_payload. cbv zeta. destruct (Z.ltb_spec kMaxMessageSize (payload_len hdr)) as [|Hp].
  { intros [-> Hf]%s_close_bind. by split. }
  destruct (_ && _) eqn:E; [intros [-> Hf]%s_close_bind; by split|].
  destruct (Nat.ltb_spec (length s) (Z.to_nat (payload_len hdr))) as [|Hs]; [intros [= <- <- _]; split; [apply mark_frag|done]|].
  intros [= <- <- _]. split; [done|]. intros q [= <-]. rewrite WsMessages.length_unmask, length_take, Nat.min_l, Z2Nat.id by lia.
  split; [done|]. intros Hl. rewrite Hl in E. cbn [Z.eqb andb] in E. apply Z.ltb_ge in E. unfold kMaxMessageSize in *.
  rewrite u64_small in E by lia. lia.
Qed.

Lemma deliver_frag op p k f k' : deliver kernel op p k = Some (f, k') ->
  frag_payload_ k' = frag_payload_ k /\ forall g, f = Some g -> f_payload g = p.
Proof.
  unfold deliver. destruct (match op with Text => _ | _ => _ end) as [b|]; [|done]. cbn [mbind option_bind].
  destruct (negb b); [intros [-> H]%close_bind; by split|]. intros [= <- <-]. split; [done|]. by intros g [= <-].
Qed.

Lemma control_frag hdr p k b k' : handle_ws_control_frame kernel hdr p k = Some (b, k') -> frag_payload_ k' = frag_payload_ k.
Proof.
  unfold handle_ws_control_frame, send_or_close. destruct (opcode hdr =? 9).
  { destruct (do_send_frame _ _ _ k) as [[ok k1]|] eqn:E; [|done]. cbn [mbind option_bind]. intros [= _ <-]. apply do_send_frag in E.
    destruct ok; [done|]. by rewrite mark_frag. }
  destruct (opcode hdr =? 10); [by intros [= _ <-]|]. destruct (negb _); [by intros [_ H]%close_bind|].
  destruct (_ =? 1); [by intros [_ H]%close_bind|]. destruct (2 <=? _); [|by intros [_ H]%close_bind].
  destruct (p !! 0%nat) as [p0|]; [|done]. cbn [mbind option_bind]. destruct (p !! 1%nat) as [p1|]; [|done]. cbn [mbind option_bind]. cbv zeta.
  destruct (negb _); [by intros [_ H]%close_bind|]. destruct (if (2 <? length p)%nat then _ else _) as [v|]; [|done]. cbn [mbind option_bind].
  destruct (negb v); by intros [_ H]%close_bind.
Qed.

(** What a frame returns or keeps is at most the fragments and its own payload. *)
Lemma handle_frag hdr p k r k' : handle_frame kernel hdr p k = Some (r, k') ->
  Z.of_nat (length (frag_payload_ k)) <= kMaxMessageSize ->
  (Z.land (opcode hdr) 8 = 0 -> Z.of_nat (length (frag_payload_ k) + length p) <= kMaxMessageSize) ->
  Z.of_nat (length (frag_payload_ k')) <= kMaxMessageSize /\
  forall f, r = Some (Some f) -> Z.of_nat (length (f_payload f)) <= kMaxMessageSize.
Proof.
  intros Hh Hk Hp. unfold handle_frame in Hh. destruct (Z.eqb_spec (Z.land (opcode hdr) 8) 0) as [E|_]; cbn [negb] in Hh.
  2: { destruct (handle_ws_control_frame kernel hdr p k) as [[b k1]|] eqn:Ec; [|done]. cbn [mbind option_bind] in Hh.
       injection Hh as <- <-. rewrite (control_frag _ _ _ _ _ Ec). split; [done|]. by destruct b. }
  specialize (Hp E). clear E.
  assert (Hd : forall fr k1, (if opcode hdr =? 0 then handle_ws_continuation_frame kernel (fin hdr) p k
    else handle_ws_data_frame kernel (fin hdr) (opcode hdr) p k) = Some (fr, k1) ->
    Z.of_nat (length (frag_payload_ k1)) <= kMaxMessageSize /\ forall f, fr = Some f -> Z.of_nat (length (f_payload f)) <= kMaxMessageSize).
  { intros fr k1. destruct (opcode hdr =? 0).
    - unfold handle_ws_continuation_frame. destruct (frag_opcode_ k) as [op|]; [|intros [-> H]%close_bind; by rewrite H].
      cbn [frag_payload_ set_frag]. destruct (fin hdr); cbn [negb].
      + intros [H1 H2]%deliver_frag. rewrite H1. split; [done|]. intros f Hf. rewrite (H2 f Hf), length_app. lia.
      + intros [= <- <-]. cbn. rewrite length_app. split; [lia|done].
    - unfold handle_ws_data_frame. destruct (_ && _); [intros [-> H]%close_bind; by rewrite H|].
      destruct (frag_opcode_ k); [intros [-> H]%close_bind; by rewrite H|]. destruct (opcode_of _) as [op|]; [|done]. cbn [mbind option_bind].
      destruct (fin hdr); cbn [negb]; [|intros [= <- <-]; cbn; split; [lia|done]].
      intros [H1 H2]%deliver_frag. rewrite H1. split; [done|]. intros f Hf. rewrite (H2 f Hf). lia. }
  destruct (if opcode hdr =? 0 then _ else _) as [[fr k1]|]; [|done]. destruct (Hd fr k1 eq_refl) as [H1 H2]. cbn [mbind option_bind] in Hh.
  destruct fr as [f|]; injection Hh as <- <-; (split; [done|]); [intros g [= <-]; by apply H2|]. by destruct (closed_ k1).
Qed.

Lemma s_recv_bound (Hret : forall n op p, (length p <= 125)%nat -> is_Some (ws_send_frame (kernel n) op p)) fuel k s r k' s' :
  Z.of_nat (length (frag_payload_ k)) <= kMaxMessageSize -> s_recv kernel fuel k s = Some (r, (k', s')) ->
  Z.of_nat (length (frag_payload_ k')) <= kMaxMessageSize /\ forall f, r = Some f -> Z.of_nat (length (f_payload f)) <= kMaxMessageSize.
Proof.
  revert k s. induction fuel as [|fuel IH]; intros k s Hk; cbn [s_recv]; [done|].
  destruct (WsTotal.s_header_total kernel Hret k s) as (h & k1 & s1 & Eh & _ & Hg). rewrite Eh. cbn [mbind option_bind].
  apply s_header_frag in Eh. destruct h as [hdr|]; [|intros [= <- <- _]; by rewrite Eh]. destruct (Hg hdr eq_refl) as [Hgood _].
  destruct (s_payload kernel hdr k1 s1) as [[p [k2 s2]]|] eqn:Ep; [|done]. cbn [mbind option_bind].
  apply s_payload_frag in Ep as [Ep Hp]; [|by rewrite Eh|by apply WsFrames.gh_len]. destruct p as [p|]; [|intros [= <- <- _]; by rewrite Ep, Eh].
  destruct (Hp p eq_refl) as [_ Hroom]. destruct (handle_frame kernel hdr p k2) as [[x k3]|] eqn:Ef; [|done]. cbn [mbind option_bind].
  apply handle_frag in Ef as [H1 H2]; [|by rewrite Ep, Eh|by rewrite Ep]. destruct x as [x|]; [|by apply IH].
  intros [= <- <- _]. split; [done|]. intros f ->. by apply H2.
Qed.
End bound.
End WsBound.

(** ** The theorems *)

Module WsProps.
Import Ws WsConn WsStream WsFrames WsMessages.

(** C9: a message arrives. On an open connection with no message begun, the
    frames of a message (one frame or fragments, with pings and pongs between
    them, each masked with its own key) are received as that message, whatever
    pieces the socket delivers them in; every ping is answered by a pong with
    its payload, in order, and the rest of the stream is left for the next
    call. The message is at most [kMaxMessageSize] long, a text is UTF-8, and the
    socket takes the pongs. *)
Theorem ws_message_received kernel c fs pongs op m rest :
  (forall n p, (length p <= 125)%nat -> ws_send_frame (kernel n) 10 p = Some (true, ws_build_frame 10 p)) -> wf c ->
  closed_ (core c) = false -> frag_opcode_ (core c) = None -> frag_payload_ (core c) = [] ->
  spells None fs pongs op m -> Z.of_nat (length m) <= kMaxMessageSize -> (op = Text -> scalars m) ->
  stream c = concat (map client_frame fs) ++ rest ->
  exists c', recv kernel c = Some (Some (mkFrame op m), c') /\ wf c' /\ stream c' = rest /\
    closed_ (core c') = false /\ frag_opcode_ (core c') = None /\ frag_payload_ (core c') = [] /\
    wire (core c') = wire (core c) ++ concat (map pong_frame pongs).
Proof.
  intros Hsend Hw Hc Hf Hp Hsp Hl Ht Hs. unfold recv. destruct (recv_loop_view kernel (S (length (stream c))) c Hw) as [Hv Hwr].
  destruct (s_recv_message kernel Hsend None fs pongs op m Hsp (S (length (stream c))) (core c) rest) as (k' & E & H1 & H2 & H3 & H4);
    try done; [rewrite Hs; apply frames_length|by unfold fragment; rewrite Hf|].
  rewrite <- Hs in E. rewrite E in Hv. destruct (recv_loop kernel _ c) as [[r c']|]; [|done]. cbn in Hv. injection Hv as -> <- <-.
  exists c'. split; [done|]. split; [by eapply Hwr|]. by rewrite <- (pong_frames _ _ _ _ _ Hsp).
Qed.

(** C26: receiving ends and does not depend on the pieces. As long as the [send]
    calls return and the fragments held are within the limit, as they are at the
    start and after every call, [recv] returns on every connection and every
    input, with a message of at most [kMaxMessageSize] bytes or with the
    connection closed; and what it returns, what it writes and what it leaves
    unread depend on the bytes of the stream and not on how they are cut into
    pieces or lie in the buffer. *)
Theorem ws_recv_total kernel c :
  (forall n op p, (length p <= 125)%nat -> is_Some (ws_send_frame (kernel n) op p)) -> wf c ->
  Z.of_nat (length (frag_payload_ (core c))) <= kMaxMessageSize ->
  exists r c', recv kernel c = Some (r, c') /\ wf c' /\ (r = None -> closed_ (core c') = true) /\
    (forall f, r = Some f -> Z.of_nat (length (f_payload f)) <= kMaxMessageSize) /\
    Z.of_nat (length (frag_payload_ (core c'))) <= kMaxMessageSize /\
    forall d, wf d -> core d = core c -> stream d = stream c ->
      exists d', recv kernel d = Some (r, d') /\ core d' = core c' /\ stream d' = stream c'.
Proof.
  intros Hret Hw Hk. unfold recv. destruct (recv_loop_view kernel (S (length (stream c))) c Hw) as [Hv Hwr].
  destruct (WsTotal.s_recv_total kernel Hret (S (length (stream c))) (core c) (stream c) ltac:(lia)) as (r & k' & s' & E & Hr).
  destruct (WsBound.s_recv_bound kernel Hret _ _ _ _ _ _ Hk E) as [Hb1 Hb2].
  rewrite E in Hv. destruct (recv_loop kernel (S (length (stream c))) c) as [[r1 c']|] eqn:Ec; [|done]. cbn in Hv.
  injection Hv as -> <- <-. exists r, c'. split; [done|]. split; [by eapply Hwr|]. split; [done|]. split; [done|]. split; [done|].
  intros d Hwd Hcd Hs. destruct (recv_loop_view kernel (S (length (stream d))) d Hwd) as [Hvd _]. rewrite Hcd, Hs, E in Hvd.
  rewrite Hs. destruct (recv_loop kernel (S (length (stream c))) d) as [[r2 d']|]; [|done]. cbn in Hvd.
  injection Hvd as -> <- <-. by exists d'.
Qed.

(** frame headers are exact. The parser accepts a buffer exactly when it
    begins with a header that a client may send, in the only form RFC 6455
    allows (a known opcode, no reserved bits, control frames whole and short,
    the shortest length field, a mask), and returns its fields and its size; a
    frame of the server has that form without the mask. *)
Theorem ws_frame_header_exact buf out h op p :
  (parse_frame_header buf out = (FrameOk, h) <->
   good_header h /\ exists rest, buf = client_header (fin h) (opcode h) (mask h) (payload_len h) ++ rest) /\
  ws_build_frame op p =
    [byte_of_Z (Z.lor 128 op); byte_of_Z (len7 (Z.of_nat (length p)))] ++ len_ext (Z.of_nat (length p)) ++ p.
Proof.
  split.
  - split; [apply parse_frame_header_inv|]. intros [Hg (rest & ->)]. by apply parse_client_header.
  - unfold ws_build_frame, len7, len_ext. cbv zeta. destruct (_ <? 126); [done|]. by destruct (_ <=? 0xFFFF).
Qed.

(** text is UTF-8. The check ends on every string and accepts exactly the
    strings that are UTF-8 encodings of Unicode scalar values, so neither
    overlong forms nor surrogates pass. *)
Theorem ws_utf8_exact s : exists b, utf8_is_valid s = Some b /\ (b = true <-> scalars s).
Proof. apply WsUtf8.utf8_is_valid_exact. Qed.

(** A text in two fragments with a ping between them. *)
Definition sample_frames : list cframe :=
  [mkC false 1 (B "abcd") (B "hel"); mkC true 9 (B "wxyz") (B "p"); mkC true 0 (B "1234") (B "lo")].
Definition sample_core : Core := mkCore false false None [] [] None [] [] 0 false.
Definition sample_conn : Conn :=
  mkConn sample_core [] 0 [take 5 (concat (map client_frame sample_frames)); drop 5 (concat (map client_frame sample_frames)) ++ B "!"].
Definition eager (n : nat) : list send_result := [Sent (2 ^ 40)].

Lemma sample_spells : spells None sample_frames [B "p"] Text (B "hello").
Proof.
  assert (forall f op k d, known_opcode op -> (8 <= op -> f = true /\ (length d <= 125)%nat) -> length k = 4%nat ->
    Z.of_nat (length d) <= kMaxMessageSize -> good_frame (mkC f op k d)) as Hg by (intros; by constructor).
  unfold sample_frames, known_opcode in *.
  assert (forall d : bytes, (length d <= 125)%nat -> Z.of_nat (length d) <= kMaxMessageSize) as Hk by (unfold kMaxMessageSize; lia).
  eapply spells_first; [apply Hg; [tauto|lia|done|apply Hk; cbn; lia]|by left|done|].
  apply (spells_ping _ (mkC true 9 (B "wxyz") (B "p")) _ []); [apply Hg; [tauto|intros; split; [done|cbn; lia]|done|apply Hk; cbn; lia]|done|].
  apply (spells_last (mkC true 0 (B "1234") (B "lo")) Text (B "hel")); [apply Hg; [tauto|lia|done|apply Hk; cbn; lia]|done|done].
Qed.

(** One call takes a whole control frame. *)
Lemma eager_sends n op p : (length p <= 125)%nat -> ws_send_frame (eager n) op p = Some (true, ws_build_frame op p).
Proof.
  intros Hp. unfold ws_send_frame, eager. destruct (ws_build_frame op p) as [|b t] eqn:E; [done|].
  assert (length (b :: t) <= 200)%nat.
  { rewrite <- E. unfold ws_build_frame. destruct (_ <? 126) eqn:El; [cbn [length app]; lia|bool_simp; lia]. }
  cbn [ws_send_loop Z.leb Z.compare]. rewrite Z.min_r by lia. rewrite Nat2Z.id, drop_all, firstn_all. cbn [ws_send_loop mbind option_bind].
  by rewrite app_nil_r.
Qed.

Lemma ws_message_received_witness :
  exists c', recv eager sample_conn = Some (Some (mkFrame Text (B "hello")), c') /\ wf c' /\ stream c' = B "!" /\
    closed_ (core c') = false /\ frag_opcode_ (core c') = None /\ frag_payload_ (core c') = [] /\
    wire (core c') = [] ++ concat (map pong_frame [B "p"]).
Proof.
  apply (ws_message_received eager sample_conn sample_frames [B "p"] Text (B "hello") (B "!")).
  - intros n p. apply eager_sends.
  - vm_compute. lia.
  - reflexivity.
  - reflexivity.
  - reflexivity.
  - apply sample_spells.
  - vm_compute. discriminate.
  - intros _. apply scalars_ascii_text. repeat constructor.
  - vm_compute. reflexivity.
Defined.

Lemma ws_recv_total_witness :
  exists r c', recv eager sample_conn = Some (r, c') /\ wf c' /\ (r = None -> closed_ (core c') = true) /\
    (forall f, r = Some f -> Z.of_nat (length (f_payload f)) <= kMaxMessageSize) /\
    Z.of_nat (length (frag_payload_ (core c'))) <= kMaxMessageSize /\
    forall d, wf d -> core d = core sample_conn -> stream d = stream sample_conn ->
      exists d', recv eager d = Some (r, d') /\ core d' = core c' /\ stream d' = stream c'.
Proof.
  apply (ws_recv_total eager sample_conn).
  - intros n op p Hp. rewrite eager_sends by done. eauto.
  - vm_compute. lia.
  - vm_compute. discriminate.
Defined.

End WsProps.
