(* ===== verification/Sse.v ===== *)
(** * Server-sent events

    The first half of [src/src/net/realtime.cxx]: [SseChannel], a bounded queue
    of frames between a handler and the connection that writes them, and
    [SseBroadcaster]. Each operation runs under the channel's mutex and is one
    step; the event descriptor that wakes the connection is the counter
    [wakes]. A callback is a number; [called] lists those that have run. An
    exception is [None]. Byte counts are [nat]: the bytes they count are in
    memory. The event counters are 64 bits wide.

    The theorems account for every frame that is sent (delivered in order, still
    queued, or refused or dropped for a reason that is counted or because the
    channel is closed), say which it is and bound the queue, and show that a
    channel closed under pressure never runs its close callbacks. *)

From Stdlib Require Import ZArith Lia Strings.Byte String.
From stdpp Require Import base tactics option numbers list.
From S2P Require Import Prelude.

Inductive SseOverflowPolicy := DropNewest | DropOldest | Disconnect.

Inductive OverflowPolicy := drop_newest | drop_oldest | close_connection | reject | backpressure.

Definition to_overflow_policy (policy : SseOverflowPolicy) : OverflowPolicy :=
  match policy with DropNewest => drop_newest | DropOldest => drop_oldest | Disconnect => close_connection end.

Definition sse_overflow_policy (policy : OverflowPolicy) : SseOverflowPolicy :=
  match policy with
  | drop_oldest => DropOldest
  | close_connection => Disconnect
  | drop_newest | reject | backpressure => DropNewest
  end.

Module Sse.

Record SseChannel := mkSse {
  pending_ : list bytes; closed_ : bool; queued_bytes_ : nat; max_queue_bytes_ : nat; overflow_ : SseOverflowPolicy;
  dropped_ : Z; dropped_newest_ : Z; dropped_oldest_ : Z; disconnected_for_pressure_ : Z;
  close_callbacks_ : list nat; called : list nat; wakes : nat
}.

Definition kDefaultMaxQueueBytes : nat := 4 * 1024 * 1024.

Definition make (max_queue_bytes : nat) (overflow : SseOverflowPolicy) : SseChannel :=
  mkSse [] false 0 max_queue_bytes overflow 0 0 0 0 [] [] 0.

Definition set_queue (pending : list bytes) (queued : nat) (c : SseChannel) : SseChannel :=
  mkSse pending (closed_ c) queued (max_queue_bytes_ c) (overflow_ c) (dropped_ c) (dropped_newest_ c)
    (dropped_oldest_ c) (disconnected_for_pressure_ c) (close_callbacks_ c) (called c) (wakes c).

Inductive pressure := newest | oldest | disconnected.

(** [dropped_] and the counter behind it. *)
Definition count (k : pressure) (c : SseChannel) : SseChannel :=
  mkSse (pending_ c) (closed_ c) (queued_bytes_ c) (max_queue_bytes_ c) (overflow_ c) (u64 (dropped_ c + 1))
    (match k with newest => u64 (dropped_newest_ c + 1) | _ => dropped_newest_ c end)
    (match k with oldest => u64 (dropped_oldest_ c + 1) | _ => dropped_oldest_ c end)
    (match k with disconnected => u64 (disconnected_for_pressure_ c + 1) | _ => disconnected_for_pressure_ c end)
    (close_callbacks_ c) (called c) (wakes c).

Definition set_closed (c : SseChannel) : SseChannel :=
  mkSse (pending_ c) true (queued_bytes_ c) (max_queue_bytes_ c) (overflow_ c) (dropped_ c) (dropped_newest_ c)
    (dropped_oldest_ c) (disconnected_for_pressure_ c) (close_callbacks_ c) (called c) (wakes c).

Definition wake (c : SseChannel) : SseChannel :=
  mkSse (pending_ c) (closed_ c) (queued_bytes_ c) (max_queue_bytes_ c) (overflow_ c) (dropped_ c) (dropped_newest_ c)
    (dropped_oldest_ c) (disconnected_for_pressure_ c) (close_callbacks_ c) (called c) (S (wakes c)).

(** The loop of [DropOldest], on the frames that are queued. *)
Fixpoint drop_front (pending : list bytes) (frame_bytes : nat) (c : SseChannel) : SseChannel :=
  match pending with
  | [] => set_queue [] (queued_bytes_ c) c
  | f :: rest =>
      if (max_queue_bytes_ c <? queued_bytes_ c + frame_bytes)%nat
      then drop_front rest frame_bytes (count oldest (set_queue rest (queued_bytes_ c - length f) c))
      else set_queue pending (queued_bytes_ c) c
  end.

Definition enqueue (frame : bytes) (c : SseChannel) : SseChannel :=
  wake (set_queue (pending_ c ++ [frame]) (queued_bytes_ c + length frame) c).

Definition send (frame : bytes) (c : SseChannel) : bool * SseChannel :=
  if closed_ c then (false, c)
  else
    let frame_bytes := length frame in
    if ((max_queue_bytes_ c <? queued_bytes_ c + frame_bytes)%nat && negb (max_queue_bytes_ c =? 0)%nat) then
      match overflow_ c with
      | DropNewest => (false, count newest c)
      | DropOldest => (true, enqueue frame (drop_front (pending_ c) frame_bytes c))
      | Disconnect => (false, wake (count disconnected (set_closed c)))
      end
    else (true, enqueue frame c).

Definition send_view (frame : bytes) (c : SseChannel) : bool * SseChannel := send frame c.

Definition has_nl (s : bytes) : bool :=
  match find_byte x0a s, find_byte x0d s with None, None => false | _, _ => true end.

Definition event_frame (type data : bytes) : bytes :=
  B "event: " ++ type ++ [x0a] ++ B "data: " ++ data ++ [x0a; x0a].

Definition send_event (type data : bytes) (c : SseChannel) : option (bool * SseChannel) :=
  if has_nl type || has_nl data then None else Some (send (event_frame type data) c).

Definition close (c : SseChannel) : SseChannel :=
  if closed_ c then c
  else
    wake (mkSse (pending_ c) true (queued_bytes_ c) (max_queue_bytes_ c) (overflow_ c) (dropped_ c) (dropped_newest_ c)
      (dropped_oldest_ c) (disconnected_for_pressure_ c) [] (called c ++ close_callbacks_ c) (wakes c)).

Definition on_close (callback : nat) (c : SseChannel) : SseChannel :=
  mkSse (pending_ c) (closed_ c) (queued_bytes_ c) (max_queue_bytes_ c) (overflow_ c) (dropped_ c) (dropped_newest_ c)
    (dropped_oldest_ c) (disconnected_for_pressure_ c)
    (if closed_ c then close_callbacks_ c else close_callbacks_ c ++ [callback])
    (if closed_ c then called c ++ [callback] else called c) (wakes c).

Definition drain (c : SseChannel) : bytes * SseChannel := (concat (pending_ c), set_queue [] 0 c).

Definition is_closed (c : SseChannel) : bool := closed_ c.
Definition dropped_count (c : SseChannel) : Z := dropped_ c.
Definition pressure_metrics (c : SseChannel) : Z * Z * Z :=
  (dropped_newest_ c, dropped_oldest_ c, disconnected_for_pressure_ c).

(** *** The broadcaster

    A subscriber that has gone away is [None]; its weak pointer does not lock. *)
Definition subscribe (channels : list (option SseChannel)) : list (option SseChannel) :=
  channels ++ [Some (make kDefaultMaxQueueBytes DropNewest)].

Fixpoint broadcast_raw (frame : bytes) (channels : list (option SseChannel)) : list (option SseChannel) :=
  match channels with
  | [] => []
  | None :: rest => broadcast_raw frame rest
  | Some ch :: rest =>
      if is_closed ch then broadcast_raw frame rest
      else Some (snd (send frame ch)) :: broadcast_raw frame rest
  end.

Definition broadcast (event data : bytes) (channels : list (option SseChannel)) : list (option SseChannel) :=
  broadcast_raw (event_frame event data) channels.

Definition broadcast_data (data : bytes) (channels : list (option SseChannel)) : list (option SseChannel) :=
  broadcast_raw (B "data: " ++ data ++ [x0a; x0a]) channels.

(** *** Calls in sequence *)

Inductive call := Send (frame : bytes) | Drain | Close | OnClose (callback : nat).

(** The frames sent, each with the answer of [send], and what was drained. *)
Record story := mkStory { channel : SseChannel; sent : list (bytes * bool); drained : bytes }.

Definition do_call (st : story) (c : call) : story :=
  match c with
  | Send f => let '(ok, ch) := send f (channel st) in mkStory ch (sent st ++ [(f, ok)]) (drained st)
  | Drain => let '(out, ch) := drain (channel st) in mkStory ch (sent st) (drained st ++ out)
  | Close => mkStory (close (channel st)) (sent st) (drained st)
  | OnClose k => mkStory (on_close k (channel st)) (sent st) (drained st)
  end.

Definition run_calls (max : nat) (policy : SseOverflowPolicy) (cs : list call) : story :=
  fold_left do_call cs (mkStory (make max policy) [] []).

End Sse.

(** ** Where the frames are *)

Module SseOk.
Import Sse.

(** The fate of a frame that was accepted and has left the queue. *)
Definition delivered (fates : list (bool * bytes)) : bytes := concat (map (fun x => if x.1 : bool then x.2 else []) fates).
Definition lost (fates : list (bool * bytes)) : Z := Z.of_nat (length (filter (fun x => x.1 = false) fates)).

Definition total (fs : list bytes) : nat := sum_list_with length fs.

(** The frames [send] took and those it refused, in order. *)
Definition accepted (st : story) : list bytes := (filter (fun x => x.2 = true) (sent st)).*1.
Definition refused (st : story) : list bytes := (filter (fun x => x.2 = false) (sent st)).*1.

(** Why a frame was refused. *)
Inductive refusal := too_new | pressure_close | after_close.

#[local] Instance refusal_eq_dec : EqDecision refusal.
Proof. solve_decision. Defined.

Definition times (r : refusal) (l : list refusal) : Z := Z.of_nat (length (filter (fun x => x = r) l)).

(** What holds between two calls. *)
Record ok (max : nat) (policy : SseOverflowPolicy) (st : story) (fates : list (bool * bytes)) (reasons : list refusal) : Prop := {
  ok_split : accepted st = map snd fates ++ pending_ (channel st);
  ok_drained : drained st = delivered fates;
  ok_reasons : length (refused st) = length reasons;
  ok_oldest : dropped_oldest_ (channel st) = u64 (lost fates);
  ok_newest : dropped_newest_ (channel st) = u64 (times too_new reasons);
  ok_disconnected : disconnected_for_pressure_ (channel st) = u64 (times pressure_close reasons);
  ok_dropped : dropped_ (channel st) = u64 (lost fates + times too_new reasons + times pressure_close reasons);
  ok_drops_oldest : policy <> DropOldest -> lost fates = 0;
  ok_drops_newest : policy <> DropNewest -> times too_new reasons = 0;
  ok_disconnects : policy <> Disconnect \/ closed_ (channel st) = false -> times pressure_close reasons = 0;
  ok_once : times pressure_close reasons <= 1;
  ok_after : closed_ (channel st) = false -> times after_close reasons = 0;
  ok_size : queued_bytes_ (channel st) = total (pending_ (channel st));
  ok_max : max_queue_bytes_ (channel st) = max;
  ok_policy : overflow_ (channel st) = policy;
  ok_bound : (0 < max)%nat -> (total (pending_ (channel st)) <= max)%nat \/
    (policy = DropOldest /\ exists f, pending_ (channel st) = [f])
}.

(** What becomes of a frame that is sent to a channel with the frames [q] queued:
    whether it is taken, and the channel then. Only DropOldest makes room, and it
    drops no more than it has to. *)
Definition send_spec (max : nat) (policy : SseOverflowPolicy) (closed : bool) (q : list bytes) (f : bytes)
    (taken closed' : bool) (q' : list bytes) : Prop :=
  if closed then taken = false /\ closed' = true /\ q' = q
  else if bool_decide (max = 0 \/ total (q ++ [f]) <= max)%nat then taken = true /\ closed' = false /\ q' = q ++ [f]
  else match policy with
    | DropNewest => taken = false /\ closed' = false /\ q' = q
    | Disconnect => taken = false /\ closed' = true /\ q' = q
    | DropOldest => taken = true /\ closed' = false /\ exists gone kept, q = gone ++ kept /\ q' = kept ++ [f] /\
        (kept = [] \/ (total (kept ++ [f]) <= max)%nat) /\
        forall g x, gone = g ++ [x] -> (max < total (x :: kept ++ [f]))%nat
    end.

Lemma total_app a b : total (a ++ b) = (total a + total b)%nat.
Proof. apply sum_list_with_app. Qed.

Lemma total_one f : total [f] = length f.
Proof. unfold total. cbn. lia. Qed.

Lemma delivered_app a b : delivered (a ++ b) = delivered a ++ delivered b.
Proof. unfold delivered. by rewrite map_app, concat_app. Qed.

Lemma lost_app a b : lost (a ++ b) = lost a + lost b.
Proof. unfold lost. rewrite filter_app, length_app. lia. Qed.

(** A whole run of frames with one fate. *)
Definition all_of (b : bool) (fs : list bytes) : list (bool * bytes) := map (pair b) fs.

Lemma all_of_snd b fs : map snd (all_of b fs) = fs.
Proof. unfold all_of. rewrite map_map. apply map_id. Qed.

Lemma delivered_true fs : delivered (all_of true fs) = concat fs.
Proof. unfold delivered, all_of. rewrite map_map. f_equal. apply map_id. Qed.

Lemma delivered_false fs : delivered (all_of false fs) = [].
Proof. induction fs as [|f fs IH]; [done|]. apply IH. Qed.

Lemma lost_true fs : lost (all_of true fs) = 0.
Proof. induction fs as [|f fs IH]; [done|]. apply IH. Qed.

Lemma lost_false fs : lost (all_of false fs) = Z.of_nat (length fs).
Proof.
  induction fs as [|f fs IH]; [done|]. unfold lost in *. cbn [all_of map].
  rewrite filter_cons_True by done. cbn [length]. unfold all_of in IH. lia.
Qed.

Lemma times_app r a b : times r (a ++ b) = times r a + times r b.
Proof. unfold times. rewrite filter_app, length_app. lia. Qed.

Lemma times_one r r' : times r [r'] =
  match r, r' with too_new, too_new | pressure_close, pressure_close | after_close, after_close => 1 | _, _ => 0 end.
Proof. by destruct r, r'. Qed.

Lemma accepted_send ch st f b d :
  accepted (mkStory ch (sent st ++ [(f, b)]) d) = if b : bool then accepted st ++ [f] else accepted st.
Proof. unfold accepted. cbn [sent]. rewrite filter_app, fmap_app. by destruct b; cbn; rewrite ?app_nil_r. Qed.

Lemma refused_send ch st f b d :
  refused (mkStory ch (sent st ++ [(f, b)]) d) = if b : bool then refused st else refused st ++ [f].
Proof. unfold refused. cbn [sent]. rewrite filter_app, fmap_app. by destruct b; cbn; rewrite ?app_nil_r. Qed.

(** The frames the loop takes from the front, and where it stops. *)
Lemma drop_front_ok pending n : forall c k d,
  queued_bytes_ c = total pending -> dropped_oldest_ c = u64 k -> dropped_ c = u64 d ->
  exists gone kept, let c' := drop_front pending n c in pending = gone ++ kept /\
    pending_ c' = kept /\ queued_bytes_ c' = total kept /\
    dropped_oldest_ c' = u64 (k + Z.of_nat (length gone)) /\ dropped_ c' = u64 (d + Z.of_nat (length gone)) /\
    (kept = [] \/ (total kept + n <= max_queue_bytes_ c)%nat) /\
    (forall g x, gone = g ++ [x] -> (max_queue_bytes_ c < total (x :: kept) + n)%nat) /\
    dropped_newest_ c' = dropped_newest_ c /\ disconnected_for_pressure_ c' = disconnected_for_pressure_ c /\
    closed_ c' = closed_ c /\ max_queue_bytes_ c' = max_queue_bytes_ c /\ overflow_ c' = overflow_ c.
Proof.
  induction pending as [|f rest IH]; intros c k d Hq Hk Hd; cbn [drop_front].
  - exists [], []. cbn. rewrite !Z.add_0_r. split_and!; try done; [by left|]. by intros [] ?.
  - destruct (Nat.ltb_spec (max_queue_bytes_ c) (queued_bytes_ c + n)) as [Hlt|Hge].
    + destruct (IH (count oldest (set_queue rest (queued_bytes_ c - length f) c)) (k + 1) (d + 1))
        as (gone & kept & E & Hp & Hs & Ho & Hd' & Hstop & Hmin & Hrest).
      { cbn. rewrite Hq. unfold total. cbn. lia. }
      { cbn. by rewrite Hk, u64_add_l. }
      { cbn. by rewrite Hd, u64_add_l. }
      exists (f :: gone), kept. split; [by rewrite E|]. split; [done|]. split; [done|].
      rewrite Ho, Hd'. split; [f_equal; cbn [length]; lia|]. split; [f_equal; cbn [length]; lia|]. split; [done|].
      split; [|done]. intros [|g0 g] x Hg; cbn in Hg; injection Hg as -> Hg; [|by apply (Hmin g x)].
      subst gone. cbn in E. subst rest. by rewrite <- Hq.
    + exists [], (f :: rest). cbn [app length drop_front set_queue pending_ queued_bytes_ dropped_oldest_ dropped_
        disconnected_for_pressure_ closed_ max_queue_bytes_ overflow_ dropped_newest_]. rewrite !Z.add_0_r.
      split_and!; try done; [right; lia|]. by intros [] ?.
Qed.

(** A frame that joins the queue, after [gone] left it unsent. *)
Lemma ok_enqueue max policy st fates reasons gone kept ch f :
  ok max policy st fates reasons -> pending_ (channel st) = gone ++ kept ->
  pending_ ch = kept -> queued_bytes_ ch = total kept ->
  dropped_oldest_ ch = u64 (lost fates + Z.of_nat (length gone)) ->
  dropped_ ch = u64 (lost fates + times too_new reasons + times pressure_close reasons + Z.of_nat (length gone)) ->
  (policy <> DropOldest -> gone = []) ->
  dropped_newest_ ch = dropped_newest_ (channel st) ->
  disconnected_for_pressure_ ch = disconnected_for_pressure_ (channel st) -> closed_ ch = closed_ (channel st) ->
  max_queue_bytes_ ch = max -> overflow_ ch = policy ->
  ((0 < max)%nat -> (total kept + length f <= max)%nat \/ (policy = DropOldest /\ kept = [])) ->
  ok max policy (mkStory (enqueue f ch) (sent st ++ [(f, true)]) (drained st)) (fates ++ all_of false gone) reasons.
Proof.
  intros [Hsp Hdr Hre Hol Hne Hdi Hdp Hpo Hpn Hpd Hon Haf Hsz Hmx Hov Hbd] Hpend Hk Hq Ho Hd Hg Hn Hx Hc Hm Hv Hb.
  unfold enqueue. split; rewrite ?accepted_send, ?refused_send; cbn [channel sent drained wake set_queue pending_ queued_bytes_
    dropped_oldest_ dropped_newest_ dropped_ disconnected_for_pressure_ closed_ max_queue_bytes_ overflow_];
    rewrite ?Hn, ?Hx, ?Hc; try done.
  - by rewrite Hsp, Hpend, Hk, map_app, all_of_snd, !app_assoc.
  - by rewrite delivered_app, delivered_false, app_nil_r.
  - by rewrite lost_app, lost_false.
  - rewrite lost_app, lost_false, Hd. f_equal. lia.
  - intros Hne'. rewrite (Hg Hne'), app_nil_r. auto.
  - rewrite Hq, Hk, total_app, total_one. done.
  - intros Hp. rewrite Hk, total_app, total_one. destruct (Hb Hp) as [?|[-> ->]]; [by left|].
    right. split; [done|]. by exists f.
Qed.

(** A frame that is refused, for a reason. *)
Lemma ok_refuse max policy st fates reasons r ch f :
  ok max policy st fates reasons ->
  ch = match r with
       | too_new => count newest (channel st)
       | pressure_close => wake (count disconnected (set_closed (channel st)))
       | after_close => channel st
       end ->
  match r with
  | too_new => closed_ (channel st) = false /\ policy = DropNewest
  | pressure_close => closed_ (channel st) = false /\ policy = Disconnect
  | after_close => closed_ (channel st) = true
  end ->
  ok max policy (mkStory ch (sent st ++ [(f, false)]) (drained st)) fates (reasons ++ [r]).
Proof.
  intros [Hsp Hdr Hre Hol Hne Hdi Hdp Hpo Hpn Hpd Hon Haf Hsz Hmx Hov Hbd] -> Hr.
  split; rewrite ?accepted_send, ?refused_send; rewrite ?times_app, ?times_one, ?length_app; cbn [channel sent drained];
    try (by destruct r); try (destruct r; cbn [count wake set_closed dropped_newest_ dropped_ disconnected_for_pressure_];
      rewrite ?Hne, ?Hdi, ?Hdp, ?u64_add_l; f_equal; lia).
  - intros Hp. rewrite (Hpn Hp). destruct r; try done. by destruct Hr.
  - destruct r; cbn; intros Hp; rewrite ?Hpd by naive_solver; try done. destruct Hp; naive_solver.
  - destruct r; try (cbn; lia). rewrite Hpd by (right; apply Hr). done.
  - destruct r; cbn; intros Hc; rewrite ?Haf by done; try done; congruence.
Qed.

Lemma ok_send max policy st fates reasons f :
  ok max policy st fates reasons ->
  (exists fates' reasons', ok max policy (do_call st (Send f)) fates' reasons') /\
  let '(taken, ch) := send f (channel st) in
  send_spec max policy (closed_ (channel st)) (pending_ (channel st)) f taken (closed_ ch) (pending_ ch).
Proof.
  intros Hok. pose proof Hok as [Hsp Hdr Hre Hol Hne Hdi Hdp Hpo Hpn Hpd Hon Haf Hsz Hmx Hov Hbd].
  cbn [do_call]. unfold send, send_spec. rewrite total_app, total_one, <- Hsz, Hmx, Hov.
  destruct (closed_ (channel st)) eqn:Hc.
  { split; [|done]. exists fates, (reasons ++ [after_close]). by apply ok_refuse. }
  assert (Hjoin : (max = 0 \/ queued_bytes_ (channel st) + length f <= max)%nat -> exists fates' reasons',
    ok max policy (mkStory (enqueue f (channel st)) (sent st ++ [(f, true)]) (drained st)) fates' reasons').
  { intros Hfit. exists (fates ++ all_of false []), reasons.
    eapply (ok_enqueue _ _ _ _ _ [] (pending_ (channel st))); try done; rewrite ?Z.add_0_r; try done.
    intros Hp. left. lia. }
  destruct (Nat.ltb_spec max (queued_bytes_ (channel st) + length f)) as [Hlt|Hge];
    cbn [andb]; [destruct (Nat.eqb_spec max 0) as [H0|H0]; cbn [negb]|].
  - rewrite bool_decide_true by (by left). split; [by apply Hjoin; left|done].
  - rewrite bool_decide_false by lia. destruct policy eqn:Hv; cbn [snd].
    + split; [|by rewrite <- Hc]. exists fates, (reasons ++ [too_new]). by apply ok_refuse.
    + destruct (drop_front_ok (pending_ (channel st)) (length f) (channel st) _ _ Hsz Hol Hdp)
        as (gone & kept & Hp & H1 & H2 & H3 & H4 & H5 & H6 & H7 & H8 & H9 & H10 & H11).
      rewrite Hmx in H5, H6. split.
      * exists (fates ++ all_of false gone), reasons. eapply (ok_enqueue _ _ _ _ _ gone kept); try done; try congruence.
        intros _. destruct H5 as [->|H5]; [right; split; congruence|left; lia].
      * cbn [enqueue wake set_queue closed_ pending_]. split; [done|]. split; [congruence|]. exists gone, kept. split; [done|]. split; [by rewrite H1|].
        rewrite total_app, total_one. split; [destruct H5; [by left|by right]|].
        intros g x Hg. specialize (H6 g x Hg). rewrite app_comm_cons, total_app, total_one. exact H6.
    + split; [|done]. exists fates, (reasons ++ [pressure_close]). by apply ok_refuse.
  - rewrite bool_decide_true by (by right). split; [auto|done].
Qed.

Lemma ok_call max policy st fates reasons c :
  ok max policy st fates reasons ->
  exists fates' reasons', ok max policy (do_call st c) fates' reasons'.
Proof.
  intros Hok. destruct c as [f| | |k]; [by eapply ok_send| | |].
  all: destruct Hok as [Hsp Hdr Hre Hol Hne Hdi Hdp Hpo Hpn Hpd Hon Haf Hsz Hmx Hov Hbd].
  - exists (fates ++ all_of true (pending_ (channel st))), reasons.
    split; rewrite ?lost_app, ?lost_true, ?Z.add_0_r; try done.
    + cbn. by rewrite map_app, all_of_snd, app_nil_r.
    + cbn. by rewrite delivered_app, delivered_true, Hdr.
    + intros _. left. cbn. lia.
  - exists fates, reasons. cbn [do_call]. unfold close. destruct (closed_ (channel st)) eqn:Hc; split; try done;
      cbn [channel closed_]; intros; rewrite ?Hpd, ?Haf by naive_solver; try done; congruence.
  - exists fates, reasons. by split.
Qed.

Lemma channel_run_ok max policy cs : exists fates reasons, ok max policy (run_calls max policy cs) fates reasons.
Proof.
  unfold run_calls.
  assert (exists fates reasons, ok max policy (mkStory (make max policy) [] []) fates reasons) as H0.
  { exists [], []. split; try done. left. cbn. lia. }
  revert H0. generalize (mkStory (make max policy) [] []). induction cs as [|c cs IH]; intros st (fates & r & H0); cbn [fold_left].
  - eauto.
  - apply IH. by eapply ok_call.
Qed.

End SseOk.

Module SseProps.
Import Sse SseOk.

(** C36: over any sequence of calls on a new channel every frame is accounted
    for. Of the frames [send] took, those that have left the queue left it from
    the front, each either written out by a drain, in order, or dropped under
    DropOldest and counted in [dropped_oldest_]; the others are still queued, in
    order, and their size is [queued_bytes_]. Each frame [send] refused was
    refused under DropNewest and counted in [dropped_newest_], or closed the
    channel under Disconnect, once, and was counted in
    [disconnected_for_pressure_], or came after the channel was closed and is not
    counted; [dropped_] is the sum of the three counters. With a limit the queue
    holds at most that many bytes, except that DropOldest may keep a single frame
    above it. A closed channel refuses a frame; an open one takes it when it fits,
    and else does what its policy says, DropOldest dropping the fewest frames
    that make room. A drain gives the queued frames and leaves none. *)
Theorem sse_frames_accounted max policy cs f :
  let st := run_calls max policy cs in
  let ch := channel st in
  (exists fates reasons,
    accepted st = map snd fates ++ pending_ ch /\ drained st = delivered fates /\ length (refused st) = length reasons /\
    dropped_oldest_ ch = u64 (lost fates) /\ dropped_newest_ ch = u64 (times too_new reasons) /\
    disconnected_for_pressure_ ch = u64 (times pressure_close reasons) /\
    dropped_ ch = u64 (lost fates + times too_new reasons + times pressure_close reasons) /\
    (policy <> DropOldest -> lost fates = 0) /\ (policy <> DropNewest -> times too_new reasons = 0) /\
    (policy <> Disconnect \/ closed_ ch = false -> times pressure_close reasons = 0) /\
    times pressure_close reasons <= 1 /\ (closed_ ch = false -> times after_close reasons = 0)) /\
  queued_bytes_ ch = total (pending_ ch) /\
  ((0 < max)%nat -> (queued_bytes_ ch <= max)%nat \/ (policy = DropOldest /\ exists g, pending_ ch = [g])) /\
  (let '(taken, ch') := send f ch in send_spec max policy (closed_ ch) (pending_ ch) f taken (closed_ ch') (pending_ ch')) /\
  (drain ch).1 = concat (pending_ ch) /\ pending_ (drain ch).2 = [].
Proof.
  cbn zeta. destruct (channel_run_ok max policy cs) as (fates & r & Hok). pose proof Hok as [].
  split; [by exists fates, r; split_and!|]. split; [done|]. split; [by rewrite ok_size0|].
  split; [by eapply ok_send|done].
Qed.

(** a channel that overflows under the Disconnect policy is closed without
    running the callbacks registered with [on_close], and no later call runs
    them: [close] finds the channel closed and returns. *)
Theorem sse_disconnect_loses_callbacks max f cs :
  (0 < max < length f)%nat -> (forall k, OnClose k ∉ cs) ->
  let st := fold_left do_call cs (do_call (do_call (mkStory (make max Disconnect) [] []) (OnClose 7)) (Send f)) in
  is_closed (channel st) = true /\ close_callbacks_ (channel st) = [7%nat] /\ called (channel st) = [].
Proof.
  intros Hf Hcs. cbn zeta.
  set (st0 := do_call _ (Send f)).
  assert (closed_ (channel st0) = true /\ close_callbacks_ (channel st0) = [7%nat] /\ called (channel st0) = []) as H0.
  { subst st0. cbn [do_call channel make on_close send closed_ max_queue_bytes_ queued_bytes_ overflow_].
    unfold send. cbn [closed_ max_queue_bytes_ queued_bytes_ overflow_ make on_close].
    rewrite (proj2 (Nat.ltb_lt _ _)) by lia. rewrite (proj2 (Nat.eqb_neq _ _)) by lia. done. }
  clearbody st0. revert st0 H0. induction cs as [|c cs IH]; intros st0 H0; cbn [fold_left]; [done|].
  apply IH; [intros k Hk; by apply (Hcs k), list_elem_of_further|].
  destruct H0 as (Hc & Hb & Hd). destruct c as [g| | |k]; cbn [do_call].
  - unfold send. by rewrite Hc.
  - done.
  - unfold close. by rewrite Hc.
  - destruct (Hcs k). apply list_elem_of_here.
Qed.

Lemma sse_disconnect_loses_callbacks_witness :
  called (channel (fold_left do_call [Send (B "x"); Drain; Close]
    (do_call (do_call (mkStory (make 2 Disconnect) [] []) (OnClose 7)) (Send (B "abc"))))) = [].
Proof.
  apply (sse_disconnect_loses_callbacks 2 (B "abc") [Send (B "x"); Drain; Close]); [cbn; lia|].
  intros k Hk. repeat (apply elem_of_cons in Hk as [Hk|Hk]; [discriminate|]). by apply elem_of_nil in Hk.
Defined.

(** [send_event] refuses line ends because they would let data forge an event;
    the broadcaster makes the same frame without the check. *)
Lemma broadcast_forges_event e d e2 d2 ch :
  is_closed ch = false ->
  let data := d ++ [x0a; x0a] ++ B "event: " ++ e2 ++ [x0a] ++ B "data: " ++ d2 in
  send_event e data ch = None /\
  broadcast e data [Some ch] = [Some (snd (send (event_frame e d ++ event_frame e2 d2) ch))].
Proof.
  intros Hc. cbn zeta. split.
  - unfold send_event. set (data := d ++ _). assert (has_nl data = true) as ->; [|by rewrite orb_true_r].
    unfold has_nl. destruct (find_byte x0a data) eqn:Hf; [done|]. exfalso.
    assert (forall a b, find_byte x0a (a ++ x0a :: b) <> None) as Hn.
    { intros a b. induction a as [|y a IH]; cbn; [done|]. destruct (y =b x0a); [done|]. by destruct (find_byte x0a (a ++ x0a :: b)). }
    by apply (Hn d _ Hf).
  - unfold broadcast. cbn [broadcast_raw]. rewrite Hc. do 4 f_equal. unfold event_frame.
    rewrite <-!app_assoc. done.
Qed.

End SseProps.
