(* ===== verification/Route.v ===== *)
(** * Route patterns

    [src/src/net/router_match.cxx] and [src/src/net/path.cxx]: reading a route
    pattern into segments, printing it, joining paths, and matching a request
    path against the segments. A match returns the captured parameters; [None]
    is the [false] of the code, which also clears them.

    The theorems: a pattern that parses has the segments its text spells; the
    segments print to a pattern that parses to them again; a path matches
    exactly when its parts between the slashes do, with the tail rules of a
    wildcard spelled out. *)

From Stdlib Require Import ZArith Lia Strings.Byte String.
From stdpp Require Import base tactics option numbers list.
From S2P Require Import Prelude.
From S2P Require Import Codec.
From S2P Require Import HttpTypes.

Module Pattern.
Import Fields.

Record Segment := mkSegment { value : bytes; is_param : bool; is_wildcard : bool }.

Record ParsedRoutePattern := mkParsed {
  error : option bytes; shape : bytes; segments : list Segment; params : list bytes; param_types : list (bytes * bytes)
}.

Definition is_known_route_type_tag (tag : bytes) : bool :=
  match tag with [] => true | _ => false end || bytes_eqb tag (B "string") || bytes_eqb tag (B "u64")
  || bytes_eqb tag (B "i64") || bytes_eqb tag (B "u32") || bytes_eqb tag (B "i32").

Definition with_error (e : bytes) (info : ParsedRoutePattern) : ParsedRoutePattern :=
  mkParsed (Some e) (shape info) (segments info) (params info) (param_types info).

(** One round of the loop: [segment] is between two slashes, [last] says that
    none follows. [inl] is an early return. *)
Definition parse_segment (info : ParsedRoutePattern) (segment : bytes) (last : bool)
    : ParsedRoutePattern + ParsedRoutePattern :=
  let open := find_byte x7b segment in
  let close := find_byte x7d segment in
  let info := mkParsed (error info) (shape info ++ [x2f]) (segments info) (params info) (param_types info) in
  match open, close with
  | None, None =>
      inr (mkParsed (error info) (shape info ++ segment) (segments info ++ [mkSegment segment false false])
             (params info) (param_types info))
  | Some o, Some c =>
      if (c <? o)%nat then inl (with_error (B "invalid route pattern: unmatched path parameter braces") info)
      else if negb (o =? 0)%nat || negb (c + 1 =? length segment)%nat
      then inl (with_error (B "invalid route pattern: path parameter must occupy the full segment") info)
      else
        let name := substr segment 1 (length segment - 2) in
        let wildcard := starts_with name [x2a] in
        let name := if wildcard then drop 1 name else name in
        if wildcard && negb last
        then inl (with_error (B "invalid route pattern: wildcard parameter must be the final segment") info)
        else
          match name with
          | [] => inl (with_error (B "invalid route pattern: path parameter name is empty") info)
          | _ =>
              let add name type :=
                inr (mkParsed (error info) (shape info ++ (if wildcard then B "{*}" else B "{}"))
                       (segments info ++ [mkSegment name (negb wildcard) wildcard]) (params info ++ [name])
                       (param_types info ++ [(name, type)])) in
              match find_byte x3a name with
              | None => add name []
              | Some colon =>
                  let type := drop (colon + 1) name in
                  match type with
                  | [] => inl (with_error (B "invalid route pattern: path parameter type is empty") info)
                  | _ =>
                      if negb (is_known_route_type_tag type)
                      then inl (with_error (B "invalid route pattern: unknown path parameter type '" ++ type ++ B "'") info)
                      else add (take colon name) type
                  end
              end
          end
  | _, _ => inl (with_error (B "invalid route pattern: unmatched path parameter braces") info)
  end.

(** The loop from the slash at [pos]. *)
Fixpoint parse_loop (fuel : nat) (pattern : bytes) (pos : nat) (info : ParsedRoutePattern) : option ParsedRoutePattern :=
  match fuel with
  | O => None
  | S fuel =>
      let next := sv_find x2f pattern (pos + 1) in
      let segment := substr pattern (pos + 1)
        (match next with None => length pattern - pos - 1 | Some n => n - pos - 1 end)%nat in
      match parse_segment info segment (match next with None => true | Some _ => false end) with
      | inl r => Some r
      | inr info =>
          match next with
          | None => Some info
          | Some n => parse_loop fuel pattern n info
          end
      end
  end.

Definition blank : ParsedRoutePattern := mkParsed None [] [] [] [].

Definition parse_route_pattern (pattern : bytes) : option ParsedRoutePattern :=
  match pattern with
  | x2f :: _ =>
      info ← parse_loop (length pattern) pattern 0 (mkParsed None [] [mkSegment [] false false] [] []);
      match error info, shape info with
      | None, [] => Some (mkParsed None (B "/") (segments info) (params info) (param_types info))
      | _, _ => Some info
      end
  | _ => Some (with_error (B "invalid route pattern: path must start with /") blank)
  end.

Definition parse_pattern (pattern : bytes) : option (list Segment) :=
  info ← parse_route_pattern pattern; Some (segments info).

(** *** Matching *)

Definition add_path_param (ps : HttpFields) (name raw_value : bytes) : HttpFields :=
  if negb (Codec.Url.url_needs_path_decode raw_value) then emplace_back ps name raw_value
  else emplace_back ps name (Codec.Url.url_decode_path raw_value).

Definition path_part (path : bytes) (pos : nat) (next : option nat) : bytes :=
  match next with None => drop pos path | Some n => substr path pos (n - pos) end.

(** The segments before the wildcard. *)
Fixpoint wildcard_loop (prefix : list Segment) (path : bytes) (pos : nat) (out : HttpFields) : option (nat * HttpFields) :=
  match prefix with
  | [] => Some (pos, out)
  | seg :: rest =>
      if (length path <=? pos)%nat then None
      else
        let next := sv_find x2f path pos in
        let part := path_part path pos next in
        if match next, rest with None, _ :: _ => true | _, _ => false end then None
        else
          let pos' := match next with None => length path | Some n => n + 1 end%nat in
          if is_param seg then wildcard_loop rest path pos' (add_path_param out (value seg) part)
          else if negb (bytes_eqb (value seg) part) then None
          else wildcard_loop rest path pos' out
  end.

(** The loop for a pattern without wildcard. *)
Fixpoint plain_loop (pattern : list Segment) (path : bytes) (pos : nat) (out : HttpFields) : option HttpFields :=
  match pattern with
  | [] => None
  | seg :: rest =>
      let next := sv_find x2f path pos in
      let part := path_part path pos next in
      let continue out :=
        match next with
        | None => match rest with [] => Some out | _ => None end
        | Some n => plain_loop rest path (n + 1) out
        end in
      if is_param seg then continue (add_path_param out (value seg) part)
      else if negb (bytes_eqb (value seg) part) then None
      else continue out
  end.

Definition no_params : HttpFields := mkFields [] false.

Definition match_segments (pattern : list Segment) (path : bytes) : option HttpFields :=
  match last pattern with
  | Some w =>
      if is_wildcard w then
        '(pos, out) ← wildcard_loop (removelast pattern) path 0 no_params;
        Some (add_path_param out (value w) (drop pos path))
      else plain_loop pattern path 0 no_params
  | None => plain_loop pattern path 0 no_params
  end.

Definition print_segment (seg : Segment) : bytes :=
  x2f :: (if is_wildcard seg then B "{*" ++ value seg ++ B "}"
          else if is_param seg then B "{" ++ value seg ++ B "}"
          else value seg).

Definition segments_to_pattern (segs : list Segment) : bytes :=
  let rest := match segs with
              | mkSegment [] false false :: rest => rest
              | _ => segs
              end in
  match flat_map print_segment rest with [] => B "/" | out => out end.

(** *** Joining *)

Definition join_route_path (prefix path : bytes) : bytes :=
  match prefix, path with
  | [], _ => path
  | _, [] => prefix
  | _, p0 :: _ =>
      let prefix_slash := match last prefix with Some x2f => true | _ => false end in
      let path_slash := p0 =b x2f in
      if prefix_slash && path_slash then take (length prefix - 1) prefix ++ path
      else if negb prefix_slash && negb path_slash then prefix ++ [x2f] ++ path
      else prefix ++ path
  end.

End Pattern.

(** ** Matching by parts *)

Module MatchSpec.
Import Pattern Fields.

(** Segment by segment, literals equal, parameters decoded and recorded. *)
Fixpoint zip_match (segs : list Segment) (parts : list bytes) (out : HttpFields) : option HttpFields :=
  match segs, parts with
  | [], [] => Some out
  | s :: ss, p :: ps =>
      if is_param s then zip_match ss ps (add_path_param out (value s) p)
      else if bytes_eqb (value s) p then zip_match ss ps out
      else None
  | _, _ => None
  end.

(** A wildcard takes the rest of the path after the segments before it. The path
    may also end with the last of those segments, when that part is not empty. *)
Definition wild_match (prefix : list Segment) (parts : list bytes) (out : HttpFields) : option (bytes * HttpFields) :=
  let k := length prefix in
  if (k <? length parts)%nat then
    out ← zip_match prefix (take k parts) out; Some (join_on x2f (drop k parts), out)
  else if (k =? length parts)%nat && match last parts with Some (_ :: _) => true | _ => false end then
    out ← zip_match prefix parts out; Some ([], out)
  else None.

Definition match_spec (pattern : list Segment) (path : bytes) : option HttpFields :=
  let parts := split_on x2f path in
  match last pattern with
  | Some w =>
      if is_wildcard w then
        '(rest, out) ← wild_match (removelast pattern) parts no_params; Some (add_path_param out (value w) rest)
      else zip_match pattern parts no_params
  | None => zip_match pattern parts no_params
  end.

Lemma next_part path pos :
  (pos <= length path)%nat ->
  match sv_find x2f path pos with
  | None => split_on x2f (drop pos path) = [path_part path pos None]
  | Some n => (pos <= n)%nat /\ (n + 1 <= length path)%nat /\
      split_on x2f (drop pos path) = path_part path pos (Some n) :: split_on x2f (drop (n + 1) path)
  end.
Proof.
  intros Hp. unfold sv_find, path_part. rewrite split_on_find.
  destruct (find_byte x2f (drop pos path)) as [k|] eqn:E; cbn [fmap option_fmap option_map]; [|done].
  pose proof (find_byte_lt _ _ _ E) as Hk. rewrite length_drop in Hk. split; [lia|]. split; [lia|].
  unfold substr. rewrite drop_drop. do 2 f_equal; [f_equal; lia|]. f_equal. lia.
Qed.

Lemma plain_loop_spec pattern path pos out :
  (pos <= length path)%nat -> plain_loop pattern path pos out = zip_match pattern (split_on x2f (drop pos path)) out.
Proof.
  revert pos out. induction pattern as [|seg rest IH]; intros pos out Hp; cbn [plain_loop].
  - pose proof (split_on_nil x2f (drop pos path)). by destruct (split_on x2f (drop pos path)).
  - pose proof (next_part path pos Hp) as Hn. destruct (sv_find x2f path pos) as [n|].
    + destruct Hn as (H1 & H2 & ->). cbn [zip_match]. destruct (is_param seg); [by apply IH|].
      destruct (bytes_eqb _ _); [|done]. by apply IH.
    + rewrite Hn. cbn [zip_match]. destruct (is_param seg); [by destruct rest|].
      destruct (bytes_eqb _ _); [|done]. by destruct rest.
Qed.

Lemma wild_match_cons seg rest p ps out :
  ps <> [] ->
  wild_match (seg :: rest) (p :: ps) out =
  if is_param seg then wild_match rest ps (add_path_param out (value seg) p)
  else if bytes_eqb (value seg) p then wild_match rest ps out else None.
Proof.
  intros Hps. unfold wild_match. destruct ps as [|q qs]; [done|].
  change (last (p :: q :: qs)) with (last (q :: qs)). set (ps := q :: qs). cbn [length take drop zip_match].
  change (S (length rest) <? S (length ps))%nat with (length rest <? length ps)%nat.
  change (S (length rest) =? S (length ps))%nat with (length rest =? length ps)%nat.
  destruct (is_param seg); [done|]. destruct (bytes_eqb (value seg) p); [done|].
  destruct (length rest <? length ps)%nat; [done|]. by destruct (length rest =? length ps)%nat, (last ps) as [[|]|].
Qed.

Lemma wildcard_loop_spec prefix path pos out :
  (pos <= length path)%nat ->
  (fun r => (drop r.1 path, r.2)) <$> wildcard_loop prefix path pos out =
  wild_match prefix (split_on x2f (drop pos path)) out.
Proof.
  revert pos out. induction prefix as [|seg rest IH]; intros pos out Hp; cbn [wildcard_loop].
  - unfold wild_match. pose proof (split_on_nil x2f (drop pos path)) as Hn. cbn [length take drop zip_match].
    rewrite (proj2 (Nat.ltb_lt _ _)) by (destruct (split_on x2f (drop pos path)); [done|]; cbn; lia).
    cbn [mbind option_bind fmap option_fmap option_map fst snd]. by rewrite drop_0, join_split_on.
  - destruct (Nat.leb_spec (length path) pos) as [Hge|Hlt].
    { rewrite drop_ge by lia. cbn [split_on]. unfold wild_match. cbn [length].
      destruct (Nat.ltb_spec (S (length rest)) 1); [lia|]. cbn [last]. by rewrite andb_false_r. }
    pose proof (next_part path pos Hp) as Hn. destruct (sv_find x2f path pos) as [n|].
    + destruct Hn as (H1 & H2 & ->). rewrite wild_match_cons by apply split_on_nil. cbn beta iota.
      destruct (is_param seg); [by apply IH|]. destruct (bytes_eqb _ _); [|done]. by apply IH.
    + rewrite Hn. cbn [path_part]. unfold wild_match. cbn [length].
      destruct (Nat.ltb_spec (S (length rest)) 1); [lia|]. destruct rest as [|s2 rest].
      * cbn [last Nat.eqb andb zip_match length]. destruct (drop pos path) as [|c t] eqn:Ed.
        { apply (f_equal length) in Ed. rewrite length_drop in Ed. cbn in Ed. lia. }
        cbn [wildcard_loop]. destruct (is_param seg); [cbn; by rewrite drop_all|].
        destruct (bytes_eqb _ _); [cbn; by rewrite drop_all|done].
      * cbn. done.
Qed.

Lemma match_segments_spec pattern path : match_segments pattern path = match_spec pattern path.
Proof.
  unfold match_segments, match_spec. destruct (last pattern) as [w|]; [|apply plain_loop_spec; lia].
  destruct (is_wildcard w); [|apply plain_loop_spec; lia].
  pose proof (wildcard_loop_spec (removelast pattern) path 0 no_params ltac:(lia)) as Hw. rewrite drop_0 in Hw. rewrite <- Hw.
  by destruct (wildcard_loop (removelast pattern) path 0 no_params) as [[pos out]|].
Qed.

End MatchSpec.

(** ** Patterns that parse *)

Module PatternOk.
Import Pattern.

Fixpoint parse_parts (info : ParsedRoutePattern) (parts : list bytes) : ParsedRoutePattern :=
  match parts with
  | [] => info
  | p :: ps =>
      match parse_segment info p (match ps with [] => true | _ => false end) with
      | inl r => r
      | inr info => parse_parts info ps
      end
  end.

Lemma parse_loop_spec fuel pattern pos info :
  (pos < length pattern)%nat -> (length pattern <= pos + fuel)%nat ->
  parse_loop fuel pattern pos info = Some (parse_parts info (split_on x2f (drop (pos + 1) pattern))).
Proof.
  revert pos info. induction fuel as [|fuel IH]; intros pos info Hp Hf; [lia|]. cbn [parse_loop].
  unfold sv_find. rewrite split_on_find. destruct (find_byte x2f (drop (pos + 1) pattern)) as [k|] eqn:E;
    cbn [fmap option_fmap option_map].
  - pose proof (find_byte_lt _ _ _ E) as Hk. rewrite length_drop in Hk. cbn [parse_parts].
    pose proof (split_on_nil x2f (drop (S k) (drop (pos + 1) pattern))) as Hn.
    destruct (split_on x2f (drop (S k) (drop (pos + 1) pattern))) as [|h t] eqn:Es; [done|]. rewrite <- Es.
    unfold substr. replace (pos + 1 + k - pos - 1)%nat with k by lia.
    destruct (parse_segment info _ false); [done|]. rewrite IH by lia. rewrite drop_drop. by replace (pos + 1 + S k)%nat with (pos + 1 + k + 1)%nat by lia.
  - cbn [parse_parts]. unfold substr. rewrite take_ge by (rewrite length_drop; lia). by destruct (parse_segment info _ true).
Qed.

(** What a segment of a parsed pattern is. *)
Definition segment_ok (s : Segment) : Prop :=
  x2f ∉ value s /\ x7d ∉ value s /\
  (if is_param s || is_wildcard s then is_param s = negb (is_wildcard s) /\ x3a ∉ value s /\
     (is_param s = true -> starts_with (value s) [x2a] = false)
   else x7b ∉ value s).

Definition root : Segment := mkSegment [] false false.

(** The text between two slashes that spells a segment. *)
Definition spells_segment (p : bytes) (s : Segment) (type : bytes) : Prop :=
  if is_param s || is_wildcard s then
    p = [x7b] ++ (if is_wildcard s then [x2a] else []) ++ value s ++ (match type with [] => [] | _ => x3a :: type end) ++ [x7d]
  else p = value s /\ type = [].

Lemma braced p c :
  find_byte x7b p = Some 0%nat -> find_byte x7d p = Some c -> (c + 1 = length p)%nat ->
  p = [x7b] ++ substr p 1 (length p - 2) ++ [x7d] /\ x7d ∉ substr p 1 (length p - 2).
Proof.
  intros Ho Hc Hl. destruct p as [|b p]; [done|]. cbn [find_byte] in Ho. destruct (byte_eqb_spec b x7b) as [->|]; [|by destruct (find_byte x7b p)].
  apply find_byte_Some in Hc as [Hp Hn]. replace (S c) with (length (x7b :: p)) in Hp by (cbn in *; lia). rewrite drop_all in Hp.
  cbn [length] in *. destruct c as [|c]; [done|]. cbn [take app] in Hp, Hn. injection Hp as Hp.
  apply not_elem_of_cons in Hn as [_ Hn]. unfold substr. cbn [drop]. replace (S (length p) - 2)%nat with c by lia.
  rewrite drop_0. cbn [app]. split; [congruence|done].
Qed.

(** The part of a parameter before and after its colon. *)
Definition typed_name (name type : bytes) : bytes := name ++ match type with [] => [] | _ => x3a :: type end.

Definition add_segment (s : Segment) (type : bytes) (info : ParsedRoutePattern) : ParsedRoutePattern :=
  let text := if is_wildcard s then B "{*}" else if is_param s then B "{}" else value s in
  let capture := is_param s || is_wildcard s in
  mkParsed (error info) (shape info ++ [x2f] ++ text) (segments info ++ [s])
    (params info ++ if capture then [value s] else []) (param_types info ++ if capture then [(value s, type)] else []).

(** A round of the loop that goes on has read a segment. *)
Lemma parse_segment_ok info p last info' :
  x2f ∉ p -> parse_segment info p last = inr info' ->
  exists s type, info' = add_segment s type info /\ segment_ok s /\ spells_segment p s type /\
    is_known_route_type_tag type = true /\ (is_wildcard s = true -> last = true).
Proof.
  intros Hs. unfold parse_segment. destruct (find_byte x7b p) as [o|] eqn:Eo, (find_byte x7d p) as [c|] eqn:Ec; try done.
  2:{ cbn zeta. intros [= <-]. exists (mkSegment p false false), []. apply find_byte_None in Eo, Ec. unfold add_segment. cbn [shape segments params param_types error value is_param is_wildcard orb].
      rewrite !app_nil_r, <- app_assoc. split; [done|]. by repeat split. }
  cbn zeta. destruct (c <? o)%nat; [done|]. destruct (Nat.eqb_spec o 0) as [->|]; [|done].
  destruct (Nat.eqb_spec (c + 1) (length p)) as [Hl|]; [|done]. cbn [negb orb].
  destruct (braced p c Eo Ec Hl) as [Hp Hn]. set (name := substr p 1 (length p - 2)) in *.
  set (w := starts_with name [x2a]). destruct (w && negb last) eqn:Ew; [done|].
  set (name' := if w then drop 1 name else name).
  assert (name = (if w then [x2a] else []) ++ name') as Hname.
  { subst name' w. destruct (starts_with name [x2a]) eqn:E; [|done]. apply starts_with_spec in E as [t ->]. done. }
  assert (w = false -> starts_with name' [x2a] = false) as Hstar by (subst name'; by destruct w eqn:E).
  assert (x2f ∉ name' /\ x7d ∉ name') as [Hs' Hn'].
  { rewrite Hp, Hname in Hs. rewrite Hname in Hn. rewrite !not_elem_of_app in Hs. apply not_elem_of_app in Hn. tauto. }
  assert (forall v t, name' = typed_name v t -> x3a ∉ v -> is_known_route_type_tag t = true ->
    exists s type, mkParsed (error info) ((shape info ++ [x2f]) ++ (if w then B "{*}" else B "{}"))
      (segments info ++ [mkSegment v (negb w) w]) (params info ++ [v]) (param_types info ++ [(v, t)]) = add_segment s type info /\
      segment_ok s /\ spells_segment p s type /\ is_known_route_type_tag type = true /\ (is_wildcard s = true -> last = true)) as Hadd.
  { intros v t Hv Hcol Ht. exists (mkSegment v (negb w) w), t. unfold add_segment, segment_ok, spells_segment.
    cbn [shape segments params param_types error value is_param is_wildcard].
    assert (negb w || w = true) as -> by (by destruct w).
    rewrite <- app_assoc. split; [by destruct w|]. unfold typed_name in Hv. rewrite Hv in Hs', Hn'. apply not_elem_of_app in Hs', Hn'.
    split.
    { split; [tauto|]. split; [tauto|]. split; [done|]. split; [done|]. intros Hw. apply negb_true_iff in Hw.
      apply not_true_is_false. intros [r ->]%starts_with_spec. specialize (Hstar Hw). rewrite Hv, <- app_assoc, starts_with_app in Hstar. done. }
    split; [rewrite Hp, Hname, Hv; by rewrite <- !app_assoc|]. split; [done|]. intros Hw. rewrite Hw in Ew. by destruct last. }
  destruct name' as [|c0 n0] eqn:En; [done|]. rewrite <- En in *.
  destruct (find_byte x3a name') as [k|] eqn:Ek.
  - apply find_byte_Some in Ek as [Hk Hkn]. rewrite <- Nat.add_1_r in Hk.
    destruct (drop (k + 1) name') as [|t0 ts] eqn:Et; [done|]. rewrite <- Et in *.
    destruct (is_known_route_type_tag (drop (k + 1) name')) eqn:Ekn; [|done]. cbn [negb]. intros [= <-].
    apply Hadd; [|done..]. unfold typed_name. rewrite Hk at 1. f_equal. by rewrite Et.
  - intros [= <-]. apply Hadd; [unfold typed_name; by rewrite app_nil_r| |done]. by apply find_byte_None.
Qed.

Lemma parse_segment_error info p last r : parse_segment info p last = inl r -> error r <> None.
Proof. unfold parse_segment. intros H. by dmatch. Qed.

(** Only the last segment can be a wildcard. *)
Definition wildcard_last (segs : list Segment) : Prop :=
  forall a s b, segs = a ++ s :: b -> is_wildcard s = true -> b = [].

Definition add_all (sts : list (Segment * bytes)) (info : ParsedRoutePattern) : ParsedRoutePattern :=
  fold_left (fun i st => add_segment st.1 st.2 i) sts info.

Lemma parse_parts_ok parts info :
  error info = None -> Forall (fun p => x2f ∉ p) parts -> error (parse_parts info parts) = None ->
  exists sts, parse_parts info parts = add_all sts info /\
    Forall2 (fun p st => spells_segment p st.1 st.2) parts sts /\
    Forall (fun st => segment_ok st.1 /\ is_known_route_type_tag st.2 = true) sts /\ wildcard_last (map fst sts).
Proof.
  revert info. induction parts as [|p ps IH]; intros info He Hs Hr.
  - exists []. split; [done|]. split; [constructor|]. split; [constructor|]. intros a s b H. by destruct a.
  - cbn [parse_parts] in *. apply Forall_cons in Hs as [Hp Hps].
    destruct (parse_segment info p _) as [r|info'] eqn:E; [by apply parse_segment_error in E|].
    apply parse_segment_ok in E as (s & type & -> & Hok & Hsp & Ht & Hw); [|done].
    destruct (IH (add_segment s type info)) as (sts & Hsts & H2 & Hall & Hlast); [done..|].
    exists ((s, type) :: sts). split; [done|]. split; [by constructor|]. split; [by constructor|].
    intros a s' b Hab Hws. destruct a as [|a0 a]; cbn [map fst app] in Hab; injection Hab as -> Hab.
    + specialize (Hw Hws). destruct ps; [|done]. apply Forall2_nil_inv_l in H2. by subst.
    + by apply (Hlast a s').
Qed.

Lemma add_all_fields sts info :
  error (add_all sts info) = error info /\
  segments (add_all sts info) = segments info ++ map fst sts /\
  params (add_all sts info) = params info ++ flat_map (fun st => if is_param st.1 || is_wildcard st.1 then [value st.1] else []) sts /\
  param_types (add_all sts info) =
    param_types info ++ flat_map (fun st => if is_param st.1 || is_wildcard st.1 then [(value st.1, st.2)] else []) sts /\
  (length (shape info) + length sts <= length (shape (add_all sts info)))%nat.
Proof.
  revert info. induction sts as [|[s t] sts IH]; intros info.
  - cbn. rewrite !app_nil_r. repeat split; lia.
  - change (add_all ((s, t) :: sts) info) with (add_all sts (add_segment s t info)). cbn [map flat_map length fst snd].
    destruct (IH (add_segment s t info)) as (-> & -> & -> & -> & Hl).
    cbn [add_segment error segments params param_types shape] in *. rewrite <- !app_assoc. repeat split.
    rewrite !length_app in Hl. cbn in Hl. lia.
Qed.

Lemma parse_pattern_total p : exists info, parse_route_pattern p = Some info /\
  forall t, p = x2f :: t -> info = parse_parts (mkParsed None [] [root] [] []) (split_on x2f t).
Proof.
  destruct p as [|c t]; [by eexists|]. destruct (byte_eqb_spec c x2f) as [->|Hc].
  - cbn [parse_route_pattern]. rewrite parse_loop_spec by (cbn; lia). cbn [mbind option_bind Nat.add].
    change (drop 1 (x2f :: t)) with (drop 0 t). rewrite drop_0.
    set (info := parse_parts _ _).
    assert (error info = None -> shape info <> []) as Hsh.
    { intros He. destruct (parse_parts_ok (split_on x2f t) (mkParsed None [] [root] [] []))
        as (sts & Hsts & H2 & _); [done|apply split_on_clean|done|].
      apply Forall2_length in H2. pose proof (split_on_nil x2f t) as Hn.
      assert (0 < length (split_on x2f t))%nat by (destruct (split_on x2f t); [done|cbn; lia]).
      destruct (add_all_fields sts (mkParsed None [] [root] [] [])) as (_ & _ & _ & _ & Hl).
      assert (info = add_all sts (mkParsed None [] [root] [] [])) as Hi by exact Hsts.
      intros H0. rewrite Hi in H0. rewrite H0 in Hl. cbn in Hl. lia. }
    destruct (error info) eqn:E; [by exists info; split; [|intros t' [= <-]]|].
    destruct (shape info) eqn:Es; [by destruct Hsh|]. exists info. split; [done|]. by intros t' [= <-].
  - exists (with_error (B "invalid route pattern: path must start with /") blank). split; [by destruct c|].
    intros t' [= -> _]. done.
Qed.

(** *** Printing *)

Definition body_of (s : Segment) : bytes :=
  if is_wildcard s then B "{*" ++ value s ++ B "}" else if is_param s then B "{" ++ value s ++ B "}" else value s.

Definition named (s : Segment) : Prop := is_param s || is_wildcard s = true -> value s <> [].

Lemma find_close v : x7d ∉ v -> forall pre, x7d ∉ pre -> find_byte x7d (pre ++ v ++ [x7d]) = Some (length pre + length v)%nat.
Proof.
  intros Hv pre Hp. rewrite app_assoc, find_byte_app by (apply not_elem_of_app; by split). by rewrite length_app.
Qed.

Lemma parse_body info s last :
  segment_ok s -> named s -> (is_wildcard s = true -> last = true) ->
  parse_segment info (body_of s) last = inr (add_segment s [] info).
Proof.
  intros (Hsl & Hcl & Hrest) Hn Hl. unfold parse_segment, body_of. destruct s as [v ip iw]. cbn [value is_param is_wildcard] in *.
  unfold named in Hn. cbn [value is_param is_wildcard] in Hn.
  destruct (ip || iw) eqn:Ecap.
  - destruct Hrest as (Hp & Hcol & Hst). specialize (Hn eq_refl).
    assert (x7d ∉ [x7b; x2a]) as Hpre2 by (rewrite !not_elem_of_cons; repeat split; [done..|apply not_elem_of_nil]).
    assert (x7d ∉ [x7b]) as Hpre1 by (rewrite !not_elem_of_cons; repeat split; [done..|apply not_elem_of_nil]).
    destruct iw; cbn [negb] in Hp; subst ip.
    + rewrite Hl by done. change (B "{*" ++ v ++ B "}") with ([x7b; x2a] ++ v ++ [x7d]).
      rewrite (find_close v Hcl _ Hpre2). cbn [find_byte app]. rewrite byte_eqb_refl. cbn zeta.
      assert (substr (x7b :: x2a :: v ++ [x7d]) 1 (length (x7b :: x2a :: v ++ [x7d]) - 2) = x2a :: v) as ->.
      { unfold substr. cbn [drop length]. rewrite length_app. cbn [length]. replace (S (S (length v + 1)) - 2)%nat with (S (length v)) by lia.
        cbn [take]. by rewrite take_app_length. }
      assert (starts_with (x2a :: v) [x2a] = true) as -> by apply (starts_with_app [x2a]). cbn [Nat.ltb Nat.leb length drop].
      rewrite drop_0, length_app. cbn [length].
      rewrite (proj2 (Nat.eqb_eq (2 + length v + 1) (S (S (length v + 1))))) by lia. cbn [Nat.eqb negb orb andb].
      destruct v as [|c0 v0] eqn:Ev; [done|]. rewrite <- Ev in *. rewrite (proj2 (find_byte_None _ _) Hcol).
      unfold add_segment. cbn [is_wildcard is_param value negb orb error shape segments params param_types].
      by rewrite <- !app_assoc.
    + change (B "{" ++ v ++ B "}") with ([x7b] ++ v ++ [x7d]).
      rewrite (find_close v Hcl _ Hpre1). cbn [find_byte app]. rewrite byte_eqb_refl. cbn zeta.
      assert (substr (x7b :: v ++ [x7d]) 1 (length (x7b :: v ++ [x7d]) - 2) = v) as ->.
      { unfold substr. cbn [drop length]. rewrite drop_0, length_app. cbn [length]. replace (S (length v + 1) - 2)%nat with (length v) by lia.
        by rewrite take_app_length. }
      rewrite (Hst eq_refl). cbn [Nat.ltb Nat.leb length]. rewrite length_app. cbn [length].
      rewrite (proj2 (Nat.eqb_eq (1 + length v + 1) (S (length v + 1)))) by lia. cbn [Nat.eqb negb orb andb].
      destruct v as [|c0 v0] eqn:Ev; [done|]. rewrite <- Ev in *. rewrite (proj2 (find_byte_None _ _) Hcol).
      unfold add_segment. cbn [is_wildcard is_param value negb orb error shape segments params param_types].
      by rewrite <- !app_assoc.
  - apply orb_false_iff in Ecap as [-> ->]. rewrite (proj2 (find_byte_None _ _) Hrest), (proj2 (find_byte_None _ _) Hcl).
    unfold add_segment. cbn [is_wildcard is_param value negb orb error shape segments params param_types].
    by rewrite <- !app_assoc, !app_nil_r.
Qed.

Lemma body_clean s : segment_ok s -> x2f ∉ body_of s.
Proof.
  intros (Hs & _). unfold body_of. destruct (is_wildcard s), (is_param s); try done; cbn; rewrite ?not_elem_of_cons, ?not_elem_of_app, ?not_elem_of_cons;
    repeat split; try done; apply not_elem_of_nil.
Qed.

Lemma split_printed_pattern s segs :
  Forall segment_ok (s :: segs) ->
  split_on x2f (body_of s ++ flat_map print_segment segs) = map body_of (s :: segs).
Proof.
  revert s. induction segs as [|s' segs IH]; intros s [Hs Hss]%Forall_cons; cbn [flat_map map].
  - rewrite app_nil_r. by apply split_on_none, body_clean.
  - change (print_segment s') with (x2f :: body_of s'). cbn [app]. rewrite split_on_app by (by apply body_clean). by rewrite IH.
Qed.

Lemma parse_printed_parts segs info :
  Forall segment_ok segs -> Forall named segs -> wildcard_last segs ->
  parse_parts info (map body_of segs) = add_all (map (fun s => (s, [])) segs) info.
Proof.
  revert info. induction segs as [|s segs IH]; intros info Hok Hn Hw; [done|]. cbn [map parse_parts].
  apply Forall_cons in Hok as [Hs Hok], Hn as [Hn1 Hn].
  rewrite parse_body; [|done|done|].
  - change (add_all ((s, []) :: map (fun s0 => (s0, [])) segs) info) with (add_all (map (fun s0 => (s0, [])) segs) (add_segment s [] info)).
    apply IH; [done..|]. intros a s' b Hab. apply (Hw (s :: a) s' b). cbn. by rewrite Hab.
  - intros Hws. by rewrite (Hw [] s segs eq_refl Hws).
Qed.

Lemma print_root segs : segs <> [] -> segments_to_pattern (root :: segs) = flat_map print_segment segs.
Proof. intros Hne. unfold segments_to_pattern, root. by destruct segs. Qed.

Lemma parse_pattern_ok p info :
  parse_route_pattern p = Some info -> error info = None ->
  exists t sts, p = x2f :: t /\ info = add_all sts (mkParsed None [] [root] [] []) /\
    Forall2 (fun q st => spells_segment q st.1 st.2) (split_on x2f t) sts /\
    Forall (fun st => segment_ok st.1 /\ is_known_route_type_tag st.2 = true) sts /\ wildcard_last (map fst sts).
Proof.
  intros Hp He. destruct p as [|c t]; [by injection Hp as <-|]. destruct (byte_eqb_spec c x2f) as [->|Hc].
  - destruct (parse_pattern_total (x2f :: t)) as (i & Hi & Hpp). rewrite Hp in Hi. injection Hi as <-.
    specialize (Hpp t eq_refl). subst info.
    destruct (parse_parts_ok (split_on x2f t) (mkParsed None [] [root] [] [])) as (sts & Hsts & H2 & Hall & Hw);
      [done|apply split_on_clean|done|]. exists t, sts. by rewrite Hsts.
  - assert (info = with_error (B "invalid route pattern: path must start with /") blank) as ->; [|done].
    destruct c; try done; by injection Hp as <-.
Qed.

End PatternOk.

Module RouteProps.
Import Pattern PatternOk MatchSpec.

(** C33: a pattern is always read to the end or to its first error. One that is
    accepted starts with a slash, and its segments are the root followed by one
    segment for each part between the slashes, as that part spells it: a
    literal without braces, a parameter or, only at the end, a wildcard, with a
    known type tag; the parameters are the names of the capturing segments in
    order. *)
Theorem route_pattern_type p :
  exists info, parse_route_pattern p = Some info /\
    (error info = None -> exists t sts, p = x2f :: t /\
      segments info = root :: map fst sts /\
      Forall2 (fun q st => spells_segment q st.1 st.2) (split_on x2f t) sts /\
      Forall (fun st => segment_ok st.1 /\ is_known_route_type_tag st.2 = true) sts /\
      wildcard_last (map fst sts) /\
      params info = flat_map (fun st => if is_param st.1 || is_wildcard st.1 then [value st.1] else []) sts /\
      map fst (param_types info) = params info).
Proof.
  destruct (parse_pattern_total p) as (info & Hi & _). exists info. split; [done|]. intros He.
  destruct (parse_pattern_ok p info Hi He) as (t & sts & Ht & -> & H2 & Hall & Hw). exists t, sts.
  destruct (add_all_fields sts (mkParsed None [] [root] [] [])) as (_ & Hsegs & Hps & Hpt & _). rewrite Hsegs, Hps, Hpt.
  split; [done|]. split; [done|]. split; [done|]. split; [done|]. split; [done|]. split; [done|]. cbn [params param_types app].
  clear. induction sts as [|[s ty] sts IH]; [done|]. cbn [flat_map fst snd]. rewrite map_app, IH.
  by destruct (is_param s || is_wildcard s).
Qed.

(** printing the segments of an accepted pattern and parsing the result gives
    the same segments, provided every parameter has a name. *)
Theorem route_pattern_roundtrip p info :
  parse_route_pattern p = Some info -> error info = None -> Forall named (segments info) ->
  exists info', parse_route_pattern (segments_to_pattern (segments info)) = Some info' /\
    error info' = None /\ segments info' = segments info.
Proof.
  intros Hp He Hn. destruct (parse_pattern_ok p info Hp He) as (t & sts & _ & -> & H2 & Hall & Hw).
  destruct (add_all_fields sts (mkParsed None [] [root] [] [])) as (_ & Hsegs & _). rewrite Hsegs in *. cbn [segments app] in *.
  apply Forall_cons in Hn as [_ Hn].
  assert (Forall segment_ok (map fst sts)) as Hok by (apply Forall_map; eapply Forall_impl; [exact Hall|]; by intros ? []).
  assert (exists s segs, map fst sts = s :: segs) as (s & segs & Hss).
  { apply Forall2_length in H2. pose proof (split_on_nil x2f t). destruct sts as [|st sts]; [by destruct (split_on x2f t)|].
    by exists st.1, (map fst sts). }
  rewrite Hss in *. rewrite print_root by done. cbn [flat_map]. change (print_segment s) with (x2f :: body_of s). cbn [app].
  destruct (parse_pattern_total (x2f :: body_of s ++ flat_map print_segment segs)) as (info' & Hi & Hpp).
  exists info'. split; [done|]. rewrite (Hpp _ eq_refl). rewrite split_printed_pattern, parse_printed_parts by done.
  destruct (add_all_fields (map (fun s0 => (s0, [])) (s :: segs)) (mkParsed None [] [root] [] [])) as (-> & -> & _).
  split; [done|]. cbn [segments app]. rewrite map_map. cbn [fst]. by rewrite map_id.
Qed.

Lemma route_pattern_roundtrip_witness :
  exists info info', parse_route_pattern (B "/a/{id:u64}/{*rest}") = Some info /\
    parse_route_pattern (segments_to_pattern (segments info)) = Some info' /\ segments info' = segments info.
Proof.
  destruct (route_pattern_roundtrip (B "/a/{id:u64}/{*rest}") (mkParsed None (B "/a/{}/{*}")
    [root; mkSegment (B "a") false false; mkSegment (B "id") true false; mkSegment (B "rest") false true]
    [B "id"; B "rest"] [(B "id", B "u64"); (B "rest", [])])) as (info' & Hi & _ & Hs).
  - vm_compute. reflexivity.
  - reflexivity.
  - repeat constructor; discriminate.
  - eexists. exists info'. split; [|split; [exact Hi|exact Hs]]. vm_compute. reflexivity.
Defined.

(** a typed parameter without a name is accepted, as a parameter whose name is
    empty, while the same parameter without a type is refused; the pattern shown
    for the route, printed from the segments, is one that would be refused. *)
Theorem route_empty_name_accepted :
  exists info, parse_route_pattern (B "/{:u64}") = Some info /\ error info = None /\ params info = [[]] /\
    segments_to_pattern (segments info) = B "/{}" /\
    exists info', parse_route_pattern (B "/{}") = Some info' /\
      error info' = Some (B "invalid route pattern: path parameter name is empty").
Proof.
  exists (mkParsed None (B "/{}") [root; mkSegment [] true false] [[]] [([], B "u64")]).
  split; [vm_compute; reflexivity|]. split; [done|]. split; [done|]. split; [vm_compute; reflexivity|].
  eexists. split; [vm_compute; reflexivity|]. reflexivity.
Qed.

(** C23: matching a path, which the code does by scanning for slashes, accepts
    exactly the paths whose parts match the segments one by one, with each
    captured part percent-decoded on its own; a wildcard captures the rest of
    the path, and may capture nothing when the path ends with the segment
    before it. *)
Theorem match_segments_exact pattern path : match_segments pattern path = match_spec pattern path.
Proof. apply match_segments_spec. Qed.

End RouteProps.
