(* ===== verification/Router.v ===== *)
(** * The router

    [src/src/net/router_impl.cxx] and [src/src/net/router_dispatch.cxx]: route
    registration with its lookup index, the iterators over the candidates of a
    request, the parameters a handler sees, and dispatch. Handlers, middleware
    and the error handler are functions the application supplies: a handler
    returns a response or throws, with a message when the exception has one.
    Handlers that run as tasks, the work pool and the tasks themselves are not
    modelled; a task is named by its handler and its request.

    The theorems: the candidates the index yields are in registration order and
    contain every route that matches, so dispatch finds the first match of the
    plain scan over all routes; HEAD requests try the HEAD routes before the GET
    routes; a path parameter cannot stand in for an authenticated claim. *)

From Stdlib Require Import ZArith Lia Strings.Byte String.
From stdpp Require Import base tactics option numbers list countable gmap.
From S2P Require Import Prelude.
From S2P Require Import Codec.
From S2P Require Import HttpTypes.
From S2P Require Import HttpMessage.
From S2P Require Import LruMap.
From S2P Require Import WebSocket.
From S2P Require Import Route.

(** ** The lookup index *)

Module Index.
Import Pattern.

Record RouteLookupIndex := mkIndex {
  generic : list nat; by_first_literal : gmap bytes (list nat); exact : gmap bytes nat
}.

Definition empty_index : RouteLookupIndex := mkIndex [] ∅ ∅.

Record MethodRouteLookupIndex := mkMethodIndex { index_method : bytes; routes_ : RouteLookupIndex }.

Definition first_literal_key (pattern : list Segment) : option bytes :=
  let index := match pattern with
               | s0 :: _ :: _ =>
                   if negb (is_param s0) && negb (is_wildcard s0) && match value s0 with [] => true | _ => false end
                   then 1 else 0
               | _ => 0
               end%nat in
  match pattern !! index with
  | None => None
  | Some segment => if is_param segment || is_wildcard segment then None else Some (value segment)
  end.

Definition first_path_key (path : bytes) : option bytes :=
  match path with
  | [] => None
  | c :: _ =>
      let pos := if c =b x2f then 1%nat else 0%nat in
      match sv_find x2f path pos with
      | None => Some (drop pos path)
      | Some next => Some (substr path pos (next - pos))
      end
  end.

Definition is_exact_literal_pattern (pattern : list Segment) : bool :=
  negb (existsb (fun s => is_param s || is_wildcard s) pattern).

Definition index_route_pattern (index : RouteLookupIndex) (pattern : list Segment) (exact_path : bytes) (route_index : nat)
    : RouteLookupIndex :=
  let ex := match exact_path with
            | [] => exact index
            | _ => match exact index !! exact_path with Some _ => exact index | None => <[exact_path := route_index]> (exact index) end
            end in
  match first_literal_key pattern with
  | Some key =>
      mkIndex (generic index) (<[key := default [] (by_first_literal index !! key) ++ [route_index]]> (by_first_literal index)) ex
  | None => mkIndex (generic index ++ [route_index]) (by_first_literal index) ex
  end.

Record PreparedRoutePattern := mkPrepared {
  pattern : list Segment; path_pattern : bytes; exact_path : bytes; has_exact_path : bool
}.

(** [None] when the code throws [invalid_argument]. *)
Definition prepare_route_pattern (path : bytes) : option PreparedRoutePattern :=
  parsed ← parse_route_pattern path;
  match error parsed with
  | Some _ => None
  | None =>
      let has := is_exact_literal_pattern (segments parsed) in
      Some (mkPrepared (segments parsed) (segments_to_pattern (segments parsed)) (if has then path else []) has)
  end.

(** [find_or_add_method_index(indexes, method).routes] changed by [f]. *)
Fixpoint with_method_index (indexes : list MethodRouteLookupIndex) (method : bytes)
    (f : RouteLookupIndex -> RouteLookupIndex) : list MethodRouteLookupIndex :=
  match indexes with
  | [] => [mkMethodIndex method (f empty_index)]
  | i :: rest =>
      if bytes_eqb (index_method i) method then mkMethodIndex (index_method i) (f (routes_ i)) :: rest
      else i :: with_method_index rest method f
  end.

Fixpoint find_method_index (indexes : list MethodRouteLookupIndex) (method : bytes) : option RouteLookupIndex :=
  match indexes with
  | [] => None
  | i :: rest => if bytes_eqb (index_method i) method then Some (routes_ i) else find_method_index rest method
  end.

Record RouteLookupSelection := mkSelection { sel_exact : option nat; literal : list nat; sel_generic : list nat }.

Definition no_selection : RouteLookupSelection := mkSelection None [] [].

Definition select_routes_for_path (index : RouteLookupIndex) (path : bytes) : RouteLookupSelection :=
  mkSelection (exact index !! path)
    (match first_path_key path with
     | Some key => default [] (by_first_literal index !! key)
     | None => []
     end) (generic index).

Definition select_method_routes (indexes : list MethodRouteLookupIndex) (method path : bytes) : RouteLookupSelection :=
  match find_method_index indexes method with
  | None => no_selection
  | Some index => select_routes_for_path index path
  end.

(** [IndexedRouteRange::Iterator] over one selection. *)
Record iterator := mkIter { exact_done : bool; literal_pos : nat; generic_pos : nat }.

Section Range.
Context (sel : RouteLookupSelection).

Definition done (it : iterator) : bool :=
  (match sel_exact sel with None => true | Some _ => exact_done it end)
  && (length (literal sel) <=? literal_pos it)%nat && (length (sel_generic sel) <=? generic_pos it)%nat.

(** [None] is the largest [size_t], which no route has. *)
Definition min_index (current : option nat) (i : option nat) : option nat :=
  match current, i with Some a, Some b => Some (Nat.min a b) | Some a, None => Some a | None, b => b end.

Definition current_index (it : iterator) : option nat :=
  let current := if exact_done it then None else sel_exact sel in
  let current := min_index current (literal sel !! literal_pos it) in
  min_index current (sel_generic sel !! generic_pos it).

Definition at_current (o : option nat) (current : option nat) : bool :=
  match o, current with Some a, Some b => (a =? b)%nat | _, _ => false end.

Definition next (it : iterator) : iterator :=
  let current := current_index it in
  mkIter
    (if negb (exact_done it) && at_current (sel_exact sel) current then true else exact_done it)
    (if at_current (literal sel !! literal_pos it) current then S (literal_pos it) else literal_pos it)
    (if at_current (sel_generic sel !! generic_pos it) current then S (generic_pos it) else generic_pos it).

Definition begin_ : iterator := mkIter false 0 0.

(** The indices a loop over the range visits. *)
Fixpoint visit (fuel : nat) (it : iterator) : option (list nat) :=
  if done it then Some []
  else
    match fuel with
    | O => None
    | S fuel => i ← current_index it; rest ← visit fuel (next it); Some (i :: rest)
    end.

Definition range : option (list nat) := visit (S (length (literal sel) + length (sel_generic sel))) begin_.

End Range.

(** [CombinedIndexedRouteRange]: the primary range, then the fallback. *)
Definition selected_request_routes (indexes : list MethodRouteLookupIndex) (method path : bytes) (is_head : bool)
    : option (list nat) :=
  let primary_method := if is_head then B "HEAD" else method in
  p ← range (select_method_routes indexes primary_method path);
  f ← range (if is_head then select_method_routes indexes (B "GET") path else no_selection);
  Some (p ++ f).

End Index.

(** ** Dispatch *)

Module Dispatch.
Import Pattern Index Fields Resp Req.

(** What a call of application code does. *)
Inductive outcome := Returns (r : Response) | Throws (what : option bytes).

Definition Handler : Type := RequestView -> outcome.

Record Route := mkRoute {
  route_method : bytes; route_pattern : list Segment; route_path_pattern : bytes; route_exact_path : bytes;
  route_has_exact : bool; route_handler : Handler
}.

(** A route whose handler is started elsewhere: server-sent events and tasks. *)
Record TaskRoute := mkTaskRoute {
  task_method : bytes; task_pattern : list Segment; task_path_pattern : bytes; task_exact_path : bytes;
  task_has_exact : bool; task_timeout : option Z; streaming_upload : bool; task_handler : nat
}.

Record Impl := mkImpl {
  routes : list Route; sse_routes : list TaskRoute; context_routes : list TaskRoute;
  route_indexes : list MethodRouteLookupIndex; sse_index : RouteLookupIndex;
  context_route_indexes : list MethodRouteLookupIndex;
  middlewares : list (RequestView -> Handler -> outcome);
  not_found_handler : option Handler; error_handler : option (RequestView -> bytes -> outcome)
}.

Definition empty_impl : Impl := mkImpl [] [] [] [] empty_index [] [] None None.

Definition add_prepared (method path : bytes) (handler : Handler) (impl : Impl) : option Impl :=
  prepared ← prepare_route_pattern path;
  let route_index := length (routes impl) in
  Some (mkImpl
    (routes impl ++ [mkRoute method (pattern prepared) (path_pattern prepared) (exact_path prepared)
                       (has_exact_path prepared) handler])
    (sse_routes impl) (context_routes impl)
    (with_method_index (route_indexes impl) method
       (fun i => index_route_pattern i (pattern prepared) (exact_path prepared) route_index))
    (sse_index impl) (context_route_indexes impl) (middlewares impl) (not_found_handler impl) (error_handler impl)).

Definition add_context_prepared (method path : bytes) (timeout : option Z) (handler : nat) (streaming : bool) (impl : Impl)
    : option Impl :=
  prepared ← prepare_route_pattern path;
  let route_index := length (context_routes impl) in
  Some (mkImpl (routes impl) (sse_routes impl)
    (context_routes impl ++ [mkTaskRoute method (pattern prepared) (path_pattern prepared) (exact_path prepared)
                               (has_exact_path prepared) timeout streaming handler])
    (route_indexes impl) (sse_index impl)
    (with_method_index (context_route_indexes impl) method
       (fun i => index_route_pattern i (pattern prepared) (exact_path prepared) route_index))
    (middlewares impl) (not_found_handler impl) (error_handler impl)).

Definition sse_prepared (path : bytes) (handler : nat) (impl : Impl) : option Impl :=
  prepared ← prepare_route_pattern path;
  let route_index := length (sse_routes impl) in
  Some (mkImpl (routes impl)
    (sse_routes impl ++ [mkTaskRoute (B "GET") (pattern prepared) (path_pattern prepared) (exact_path prepared)
                           (has_exact_path prepared) None false handler])
    (context_routes impl) (route_indexes impl)
    (index_route_pattern (sse_index impl) (pattern prepared) (exact_path prepared) route_index)
    (context_route_indexes impl) (middlewares impl) (not_found_handler impl) (error_handler impl)).

Definition use_prepared (mw : RequestView -> Handler -> outcome) (impl : Impl) : Impl :=
  mkImpl (routes impl) (sse_routes impl) (context_routes impl) (route_indexes impl) (sse_index impl)
    (context_route_indexes impl) (middlewares impl ++ [mw]) (not_found_handler impl) (error_handler impl).

Definition set_not_found_handler (h : Handler) (impl : Impl) : Impl :=
  mkImpl (routes impl) (sse_routes impl) (context_routes impl) (route_indexes impl) (sse_index impl)
    (context_route_indexes impl) (middlewares impl) (Some h) (error_handler impl).

Definition set_error_handler (h : RequestView -> bytes -> outcome) (impl : Impl) : Impl :=
  mkImpl (routes impl) (sse_routes impl) (context_routes impl) (route_indexes impl) (sse_index impl)
    (context_route_indexes impl) (middlewares impl) (not_found_handler impl) (Some h).

(** [route_matches]: the captured parameters, or [None]. *)
Definition route_matches (has_exact : bool) (exact_path : bytes) (pattern : list Segment) (path : bytes)
    : option HttpFields :=
  if has_exact then if bytes_eqb exact_path path then Some no_params else None
  else match_segments pattern path.

Definition should_observe_route (req : RequestView) : bool :=
  match get (params req) (B "__conflux_observe_route") with Some _ => true | None => false end.

Definition effective_regular_route_method (req : RequestView) (is_head : bool) (route_method : bytes) : bytes :=
  if is_head && bytes_eqb route_method (B "GET") then B "GET" else method req.

Definition can_use_exact_route_request (req : RequestView) (has_exact : bool) (matched_params : HttpFields)
    (effective_method : bytes) (observe_route : bool) : bool :=
  has_exact && negb observe_route && match data_ matched_params with [] => true | _ => false end
  && bytes_eqb effective_method (method req).

Definition kJwtAuthoritative : bytes := B "__conflux_jwt_claims_authoritative".
Definition kJwtClaimParams : list bytes := [B "jwt_sub"; B "jwt_iss"; B "jwt_payload"].

Definition has (f : HttpFields) (key : bytes) : bool := match get f key with Some _ => true | None => false end.

Definition jwt_claim_overrides (req : RequestView) (matched_params : HttpFields) (key : bytes) : bool :=
  has (params req) kJwtAuthoritative && has (params req) key && has matched_params key.

(** The three loops that fill the parameters of a matched request. *)
Definition merged_params (req : RequestView) (matched_params : HttpFields) : HttpFields :=
  let overrides := jwt_claim_overrides req matched_params in
  let claims := flat_map (fun key => if overrides key then
      match get (params req) key with Some v => [(key, v)] | None => [] end else []) kJwtClaimParams in
  let matched := filter (fun p => overrides p.1 = false) (data_ matched_params) in
  let others := filter (fun p => bytes_eqb p.1 kJwtAuthoritative || overrides p.1 = false) (data_ (params req)) in
  mkFields (claims ++ matched ++ others) false.

Definition route_params_with_matches (req : RequestView) (matched_params : HttpFields) (route_pattern : bytes)
    (observe_route : bool) : HttpFields :=
  let all_params := merged_params req matched_params in
  if observe_route && negb (has all_params (B "__conflux_route_pattern"))
  then emplace_back all_params (B "__conflux_route_pattern") route_pattern else all_params.

Definition set_method_params (effective_method : bytes) (ps : HttpFields) (req : RequestView) : RequestView :=
  mkRequestView effective_method (path req) (version req) (remote_addr req) (is_tls req) ps (Req.headers req)
    (query req) (form req) (cookies req) (files req) (body req).

Definition matched_regular_route_view (req : RequestView) (effective_method : bytes) (matched_params : HttpFields)
    (route_pattern : bytes) (observe_route : bool) : RequestView :=
  set_method_params effective_method (route_params_with_matches req matched_params route_pattern observe_route) req.

Definition route_handler_error_response (req : RequestView) (eh : option (RequestView -> bytes -> outcome)) (what : bytes) : outcome :=
  match eh with Some h => h req what | None => Returns (internal_error what) end.

Definition route_handler_unknown_error_response (req : RequestView) (eh : option (RequestView -> bytes -> outcome)) : outcome :=
  match eh with Some h => h req (B "unknown std::exception") | None => Returns (internal_error []) end.

(** [resp.headers.set("__conflux-route-pattern", ...)] *)
Definition annotate (route_pattern : bytes) (r : Response) : option Response :=
  h ← Fields.set (Resp.headers r) (B "__conflux-route-pattern") route_pattern; Some (set_resp_headers h r).

Definition invoke_regular_route_handler (handler : Handler) (path_pattern : bytes) (req : RequestView)
    (is_head observe_route : bool) (eh : option (RequestView -> bytes -> outcome)) : option outcome :=
  match handler req with
  | Returns resp =>
      let resp := if is_head then set_head_only resp else resp in
      if observe_route then r ← annotate path_pattern resp; Some (Returns r) else Some (Returns resp)
  | Throws (Some what) => Some (route_handler_error_response req eh what)
  | Throws None => Some (route_handler_unknown_error_response req eh)
  end.

(** The inner [None] is the [nullopt] of a route that does not match. *)
Definition dispatch_regular_route (req : RequestView) (path : bytes) (is_head : bool) (route : Route) (observe_route : bool)
    (eh : option (RequestView -> bytes -> outcome)) : option (option outcome) :=
  match route_matches (route_has_exact route) (route_exact_path route) (route_pattern route) path with
  | None => Some None
  | Some matched =>
      let m := effective_regular_route_method req is_head (route_method route) in
      o ← (if can_use_exact_route_request req (route_has_exact route) matched m observe_route
           then invoke_regular_route_handler (route_handler route) (route_path_pattern route) req is_head false eh
           else invoke_regular_route_handler (route_handler route) (route_path_pattern route)
                  (matched_regular_route_view req m matched (route_path_pattern route) observe_route) is_head observe_route eh);
      Some (Some o)
  end.

Definition matched_sse_route_request (req : RequestView) (matched_params : HttpFields) (route_pattern : bytes) : RequestView :=
  set_method_params (method req) (emplace_back (merged_params req matched_params) (B "__conflux_route_pattern") route_pattern) req.

(** What dispatch hands back: the response, or a handler to start with the
    request it gets. *)
Inductive reply := Answer (r : Response) | StartSse (handler : nat) (req : RequestView) (r : Response).

Definition dispatch_sse_route (req : RequestView) (path : bytes) (route : TaskRoute) (channel : nat) (observe_route : bool)
    : option (option reply) :=
  match route_matches (task_has_exact route) (task_exact_path route) (task_pattern route) path with
  | None => Some None
  | Some matched =>
      let resp := sse channel in
      resp ← (if observe_route then annotate (task_path_pattern route) resp else Some resp);
      Some (Some (StartSse (task_handler route) (matched_sse_route_request req matched (task_path_pattern route)) resp))
  end.

Definition dispatch_not_found (req : RequestView) (path : bytes) (nf : option Handler) : outcome :=
  match nf with Some h => h req | None => Returns (not_found path) end.

(** A loop over candidate routes; an index outside the vector is undefined. *)
Fixpoint first_route {R O} (f : R -> option (option O)) (rs : list R) (idxs : list nat) : option (option O) :=
  match idxs with
  | [] => Some None
  | i :: rest =>
      r ← rs !! i;
      o ← f r;
      match o with Some o => Some (Some o) | None => first_route f rs rest end
  end.

(** The catch-all of [dispatch_immediate_routes]. *)
Definition caught (o : outcome) : reply := match o with Returns r => Answer r | Throws _ => Answer (internal_error []) end.

Definition dispatch_router_sync (impl : Impl) (req : RequestView) (path : bytes) (is_head : bool) (channel : nat)
    : option reply :=
  candidates ← selected_request_routes (route_indexes impl) (method req) path is_head;
  sse_candidates ← range (if is_head then no_selection else select_routes_for_path (sse_index impl) path);
  let observe_route := should_observe_route req in
  found ← first_route (fun r => dispatch_regular_route req path is_head r observe_route (error_handler impl))
            (routes impl) candidates;
  match found with
  | Some o => Some (caught o)
  | None =>
      found ← (if bytes_eqb (method req) (B "GET")
               then first_route (fun r => dispatch_sse_route req path r channel observe_route) (sse_routes impl) sse_candidates
               else Some None);
      match found with
      | Some r => Some r
      | None => Some (caught (dispatch_not_found req path (not_found_handler impl)))
      end
  end.

(** *** Routes with a context *)

(** The task a matching route starts: handler, request, timeout, and the flags
    its completion uses. *)
Record RouteTask := mkRouteTask {
  run_handler : nat; run_request : RequestView; run_pattern : bytes; should_annotate : bool; run_head : bool; run_timeout : Z
}.

Definition kDefaultTimeout : Z := 30000.

Definition context_route_task (req : RequestView) (has_upload : bool) (path : bytes) (is_head : bool) (route : TaskRoute)
    : option RouteTask :=
  if negb (Bool.eqb (streaming_upload route) has_upload) then None
  else
    matched ← route_matches (task_has_exact route) (task_exact_path route) (task_pattern route) path;
    let observe_route := should_observe_route req in
    let ps := merged_params req matched in
    let pattern := if observe_route then task_path_pattern route else [] in
    let ps := if observe_route then emplace_back ps (B "__conflux_route_pattern") pattern else ps in
    Some (mkRouteTask (task_handler route) (set_method_params (method req) ps req) pattern observe_route is_head
            (match task_timeout route with Some t => if 0 <? t then t else kDefaultTimeout | None => kDefaultTimeout end)).

Definition dispatch_context_route_tasks (impl : Impl) (req : RequestView) (has_upload : bool) (path : bytes) (is_head : bool)
    : option (option RouteTask) :=
  candidates ← selected_request_routes (context_route_indexes impl) (method req) path is_head;
  first_route (fun r => Some (context_route_task req has_upload path is_head r)) (context_routes impl) candidates.

Definition has_matching_context_route (impl : Impl) (req : RequestView) (has_upload : bool) (path : bytes) (is_head : bool)
    : option bool :=
  candidates ← selected_request_routes (context_route_indexes impl) (method req) path is_head;
  found ← first_route (fun r =>
      if negb (Bool.eqb (streaming_upload r) has_upload) then Some None
      else match route_matches (task_has_exact r) (task_exact_path r) (task_pattern r) path with
           | Some _ => Some (Some tt)
           | None => Some None
           end) (context_routes impl) candidates;
  Some (match found with Some _ => true | None => false end).

(** *** Middleware *)

(** [Step::call] from the middleware at [idx_]: each gets the rest of the chain,
    which it may call once. *)
Fixpoint run_middlewares (mws : list (RequestView -> Handler -> outcome)) (inner : Handler) (req : RequestView) : outcome :=
  match mws with
  | [] => inner req
  | mw :: rest => mw req (run_middlewares rest inner)
  end.

(** [Router::dispatch] for a router without server-sent events, whose replies
    are all answers. *)
Definition answer (r : option reply) : outcome :=
  match r with Some (Answer r) => Returns r | Some (StartSse _ _ r) => Returns r | None => Throws None end.

Definition dispatch (impl : Impl) (req : RequestView) (channel : nat) : outcome :=
  let is_head := bytes_eqb (method req) (B "HEAD") in
  let path_sv := Target.path_without_query (path req) in
  match middlewares impl with
  | [] => answer (dispatch_router_sync impl req path_sv is_head channel)
  | mws => run_middlewares mws (fun r => answer (dispatch_router_sync impl r path_sv is_head channel)) req
  end.

(** *** WebSocket routes *)

Definition is_valid_handshake (req : RequestView) : option bool :=
  up ← HeaderList.header_token_contains (at_ (Req.headers req) (B "upgrade")) (B "websocket");
  co ← HeaderList.header_token_contains (at_ (Req.headers req) (B "connection")) (B "upgrade");
  Some (up && co && bytes_eqb (Ascii.trim (at_ (Req.headers req) (B "sec-websocket-version"))) (B "13")
        && Ws.is_valid_client_key (Ascii.trim (at_ (Req.headers req) (B "sec-websocket-key")))).

Definition ws_handler (h : nat) (req : RequestView) : outcome :=
  match is_valid_handshake req with
  | Some true =>
      let key := Ascii.trim (at_ (Req.headers req) (B "sec-websocket-key")) in
      Returns (set_ws_upgrade (Ws.ws_accept_key key) h (response_with 101 (B "Switching Protocols") kContentTypeHtmlUtf8))
  | Some false => Returns (bad_request [])
  | None => Throws None
  end.

Definition ws_prepared (path : bytes) (h : nat) (impl : Impl) : option Impl := add_prepared (B "GET") path (ws_handler h) impl.

End Dispatch.

(** ** What the index holds *)

Module IndexOk.
Import Pattern PatternOk MatchSpec Index.

(** Where in a list, counted from [k], the elements with a property are. *)
Fixpoint positions_from {R} (k : nat) (P : R -> bool) (rs : list R) : list nat :=
  match rs with
  | [] => []
  | r :: rest => (if P r then [k] else []) ++ positions_from (S k) P rest
  end.

Definition positions {R} (P : R -> bool) (rs : list R) : list nat := positions_from 0 P rs.

Lemma positions_snoc {R} k (P : R -> bool) rs r :
  positions_from k P (rs ++ [r]) = positions_from k P rs ++ (if P r then [(k + length rs)%nat] else []).
Proof.
  revert k. induction rs as [|x rs IH]; intros k; cbn [positions_from app length].
  - rewrite app_nil_r, Nat.add_0_r. done.
  - rewrite IH, <- app_assoc. by rewrite Nat.add_succ_r.
Qed.

Lemma positions_ext {R} k (P Q : R -> bool) rs : Forall (fun r => P r = Q r) rs -> positions_from k P rs = positions_from k Q rs.
Proof. intros H. revert k. induction H as [|r rs Hr H IH]; intros k; [done|]. cbn [positions_from]. by rewrite Hr, IH. Qed.

Lemma positions_ge {R} k (P : R -> bool) rs i : i ∈ positions_from k P rs -> (k <= i)%nat.
Proof.
  revert k. induction rs as [|r rs IH]; intros k; cbn [positions_from]; [by intros ?%elem_of_nil|].
  rewrite elem_of_app. intros [Hi|Hi]; [|apply IH in Hi; lia]. destruct (P r); [|by apply elem_of_nil in Hi].
  apply list_elem_of_singleton in Hi. lia.
Qed.

Lemma positions_elem {R} k (P : R -> bool) rs i r :
  rs !! i = Some r -> P r = true -> (k + i)%nat ∈ positions_from k P rs.
Proof.
  revert k i. induction rs as [|x rs IH]; intros k i Hi HP; [done|]. cbn [positions_from]. apply elem_of_app.
  destruct i as [|i]; cbn in Hi.
  - left. injection Hi as ->. rewrite HP, Nat.add_0_r. by apply list_elem_of_singleton.
  - right. rewrite Nat.add_succ_r. by apply (IH (S k)).
Qed.

(** The part of a route that the index depends on. *)
Record entry := mkEntry { e_method : bytes; e_pattern : list Segment; e_exact : bytes; e_has : bool }.

Definition key (e : entry) : option bytes := first_literal_key (e_pattern e).

(** An entry made by [prepare_route_pattern]. *)
Definition entry_ok (e : entry) : Prop :=
  exists path p, prepare_route_pattern path = Some p /\
    e_pattern e = pattern p /\ e_exact e = exact_path p /\ e_has e = has_exact_path p.

Definition key_is (o : option bytes) (e : entry) : bool := bool_decide (key e = o).

Section Method.
Context (sel : entry -> bool).

Record index_ok (idx : RouteLookupIndex) (es : list entry) : Prop := {
  ok_generic : generic idx = positions (fun e => sel e && key_is None e) es;
  ok_literal : forall k, default [] (by_first_literal idx !! k) = positions (fun e => sel e && key_is (Some k) e) es;
  ok_exact : forall p i, exact idx !! p = Some i -> exists e, es !! i = Some e /\ sel e = true /\ e_exact e = p /\ p <> []
}.

Lemma index_ok_other idx es e : sel e = false -> index_ok idx es -> index_ok idx (es ++ [e]).
Proof.
  intros Hs [Hg Hl He]. split.
  - rewrite Hg. unfold positions. rewrite positions_snoc, Hs. cbn. by rewrite app_nil_r.
  - intros k. rewrite Hl. unfold positions. rewrite positions_snoc, Hs. cbn. by rewrite app_nil_r.
  - intros p i Hi. destruct (He p i Hi) as (e' & Hl' & H). exists e'. split; [|done]. by apply lookup_app_l_Some.
Qed.

Lemma index_ok_add idx es e :
  sel e = true -> index_ok idx es ->
  index_ok (index_route_pattern idx (e_pattern e) (e_exact e) (length es)) (es ++ [e]).
Proof.
  intros Hs [Hg Hl He]. set (ex := exact (index_route_pattern idx (e_pattern e) (e_exact e) (length es))).
  assert (forall p i, ex !! p = Some i -> exists e', (es ++ [e]) !! i = Some e' /\ sel e' = true /\ e_exact e' = p /\ p <> []) as Hex.
  { assert (forall p i, exact idx !! p = Some i -> exists e', (es ++ [e]) !! i = Some e' /\ sel e' = true /\ e_exact e' = p /\ p <> []) as Hold.
    { intros p i Hi. destruct (He p i Hi) as (e' & Hl' & H). exists e'. split; [|done]. by apply lookup_app_l_Some. }
    subst ex. unfold index_route_pattern. intros p i.
    assert (forall g b x, exact (match first_literal_key (e_pattern e) with
      | Some k => mkIndex g (<[k := default [] (b !! k) ++ [length es]]> b) x
      | None => mkIndex (g ++ [length es]) b x end) = x) as -> by (intros; by destruct (first_literal_key _)).
    destruct (e_exact e) as [|c t] eqn:Ee; [apply Hold|]. destruct (exact idx !! (c :: t)); [apply Hold|].
    rewrite lookup_insert_Some. intros [[<- <-]|[_ Hi]]; [|by apply Hold].
    exists e. split; [by apply list_lookup_middle|]. by rewrite Ee. }
  unfold index_route_pattern in *. unfold positions in *.
  assert (forall o, key_is o e = bool_decide (first_literal_key (e_pattern e) = o)) as Hki by done.
  destruct (first_literal_key (e_pattern e)) as [k0|] eqn:Ek; split; cbn [generic by_first_literal]; try exact Hex; unfold positions.
  - rewrite Hg, positions_snoc, Hs. rewrite Hki. rewrite bool_decide_false by done. cbn. by rewrite app_nil_r.
  - intros k. rewrite positions_snoc, Hs. rewrite Hki. cbn [andb Nat.add].
    destruct (decide (k0 = k)) as [->|Hne].
    + rewrite lookup_insert_eq. cbn [default]. rewrite Hl. by rewrite bool_decide_true.
    + rewrite lookup_insert_ne by done. rewrite bool_decide_false by congruence. by rewrite app_nil_r, Hl.
  - rewrite Hg, positions_snoc, Hs. rewrite Hki. by rewrite bool_decide_true.
  - intros k. rewrite Hl, positions_snoc, Hs. rewrite Hki. rewrite bool_decide_false by done.
    cbn. by rewrite app_nil_r.
Qed.

Lemma index_ok_empty es : Forall (fun e => sel e = false) es -> index_ok empty_index es.
Proof.
  intros H. assert (forall P k, positions_from k (fun e => sel e && P e) es = []) as Hp.
  { intros P. induction H as [|e es He H IH]; intros k; [done|]. cbn [positions_from]. by rewrite He, IH. }
  split; [symmetry; apply Hp| |].
  - intros k. cbn. rewrite lookup_empty. symmetry. apply Hp.
  - intros p i Hi. cbn in Hi. by rewrite lookup_empty in Hi.
Qed.

End Method.

(** *** The iterator visits the two lists in order *)

Section Visit.
Context (sel : RouteLookupSelection) {R : Type} (PL PG : R -> bool).

(** The state of an iterator that has passed the routes before [k]. *)
Record at_index (k : nat) (rs : list R) (it : iterator) : Prop := {
  at_literal : drop (literal_pos it) (literal sel) = positions_from k PL rs;
  at_generic : drop (generic_pos it) (sel_generic sel) = positions_from k PG rs;
  at_exact : exact_done it = false -> forall i, sel_exact sel = Some i -> i ∈ positions_from k PL rs
}.

Lemma drop_nil_le {A} (l : list A) n : drop n l = [] -> (length l <= n)%nat.
Proof. intros H. apply (f_equal length) in H. rewrite length_drop in H. cbn in H. lia. Qed.

Lemma drop_cons_lookup {A} (l : list A) n x t : drop n l = x :: t -> l !! n = Some x /\ drop (S n) l = t /\ (n < length l)%nat.
Proof.
  intros H. assert (l !! n = Some x) as Hx by (rewrite <- (Nat.add_0_r n), <- lookup_drop, H; done).
  split; [done|]. split; [|by eapply lookup_lt_Some]. rewrite <- Nat.add_1_r, <- drop_drop, H. done.
Qed.

(** What the other list shows while [k] is in this one. *)
Lemma later_lookup (P : R -> bool) (l : list nat) n k rs j :
  drop n l = positions_from (S k) P rs -> l !! n = Some j -> (k < j)%nat.
Proof.
  intros Hd Hj. assert (j ∈ positions_from (S k) P rs) as Hin.
  { rewrite <- Hd. apply list_elem_of_lookup. exists 0%nat. rewrite lookup_drop, Nat.add_0_r. done. }
  apply positions_ge in Hin. lia.
Qed.

Lemma visit_positions rs k it fuel :
  Forall (fun r => PL r && PG r = false) rs -> at_index k rs it ->
  (length (positions_from k PL rs) + length (positions_from k PG rs) <= fuel)%nat ->
  visit sel fuel it = Some (positions_from k (fun r => PL r || PG r) rs).
Proof.
  revert k it fuel. induction rs as [|r rs IH]; intros k it fuel Hdis [Hl Hg He] Hf.
  - cbn [positions_from] in *. assert (done sel it = true) as Hd.
    { unfold done. rewrite (proj2 (Nat.leb_le _ _) (drop_nil_le _ _ Hl)), (proj2 (Nat.leb_le _ _) (drop_nil_le _ _ Hg)).
      destruct (sel_exact sel) as [i|] eqn:E; [|done]. destruct (exact_done it) eqn:Ed; [done|].
      specialize (He eq_refl i eq_refl). by apply elem_of_nil in He. }
    destruct fuel; cbn [visit]; by rewrite Hd.
  - apply Forall_cons in Hdis as [Hr Hdis]. cbn [positions_from] in *.
    destruct (PL r) eqn:EL, (PG r) eqn:EG; cbn [app orb andb] in *; try done.
    + destruct (drop_cons_lookup _ _ _ _ Hl) as (Hl1 & Hl2 & Hl3).
      assert (done sel it = false) as Hd by (unfold done; rewrite (proj2 (Nat.leb_gt _ _) Hl3); by rewrite andb_false_r).
      assert (current_index sel it = Some k) as Hc.
      { unfold current_index. rewrite Hl1. destruct (sel_generic sel !! generic_pos it) as [j|] eqn:Ej.
        - pose proof (later_lookup _ _ _ _ _ _ Hg Ej) as Hj.
          destruct (exact_done it) eqn:Ed; cbn; [f_equal; lia|]. destruct (sel_exact sel) as [i|] eqn:Ei; cbn; [|f_equal; lia].
          specialize (He eq_refl i eq_refl). apply elem_of_cons in He as [->|He]; [f_equal; lia|]. apply positions_ge in He. f_equal. lia.
        - destruct (exact_done it) eqn:Ed; cbn; [done|]. destruct (sel_exact sel) as [i|] eqn:Ei; cbn; [|done].
          specialize (He eq_refl i eq_refl). apply elem_of_cons in He as [->|He]; [f_equal; lia|]. apply positions_ge in He. f_equal. lia. }
      destruct fuel as [|fuel]; [cbn in Hf; lia|]. cbn [visit]. rewrite Hd, Hc. cbn [mbind option_bind].
      rewrite (IH (S k)); [done|done| |cbn in Hf; lia].
      unfold next. rewrite Hc, Hl1. cbn [at_current]. rewrite Nat.eqb_refl.
      split; cbn [literal_pos generic_pos exact_done]; [done| |].
      * destruct (sel_generic sel !! generic_pos it) as [j|] eqn:Ej; cbn [at_current]; [|done].
        pose proof (later_lookup _ _ _ _ _ _ Hg Ej). by rewrite (proj2 (Nat.eqb_neq j k)) by lia.
      * intros Hdn i Hi. rewrite Hi in Hdn. cbn [at_current] in Hdn. destruct (exact_done it) eqn:Ed; [done|]. cbn [negb andb] in Hdn.
        destruct (i =? k)%nat eqn:Eik; [done|]. apply Nat.eqb_neq in Eik.
        specialize (He eq_refl i Hi). apply elem_of_cons in He as [He|He]; done.
    + destruct (drop_cons_lookup _ _ _ _ Hg) as (Hg1 & Hg2 & Hg3).
      assert (done sel it = false) as Hd by (unfold done; rewrite (proj2 (Nat.leb_gt _ _) Hg3); by rewrite andb_false_r).
      assert (current_index sel it = Some k) as Hc.
      { unfold current_index. rewrite Hg1. assert (forall i, exact_done it = false -> sel_exact sel = Some i -> (k < i)%nat) as Hex.
        { intros i Ed Ei. specialize (He Ed i Ei). apply positions_ge in He. lia. }
        destruct (literal sel !! literal_pos it) as [j|] eqn:Ej; [pose proof (later_lookup _ _ _ _ _ _ Hl Ej) as Hj|];
          destruct (exact_done it) eqn:Ed, (sel_exact sel) as [i|] eqn:Ei; cbn; try specialize (Hex i eq_refl eq_refl); f_equal; lia. }
      destruct fuel as [|fuel]; [cbn in Hf; lia|]. cbn [visit]. rewrite Hd, Hc. cbn [mbind option_bind].
      rewrite (IH (S k)); [done|done| |cbn in Hf; lia].
      unfold next. rewrite Hc, Hg1. cbn [at_current]. rewrite Nat.eqb_refl.
      split; cbn [literal_pos generic_pos exact_done]; [|done|].
      * destruct (literal sel !! literal_pos it) as [j|] eqn:Ej; cbn [at_current]; [|done].
        pose proof (later_lookup _ _ _ _ _ _ Hl Ej). by rewrite (proj2 (Nat.eqb_neq j k)) by lia.
      * intros Hdn i Hi. apply He; [|done]. destruct (exact_done it); [|done]. by rewrite andb_false_l in Hdn.
    + apply IH; [done| |done]. by split.
Qed.

End Visit.

(** *** Keys of routes and of paths *)

Lemma first_path_key_root t : first_path_key (x2f :: t) = head (split_on x2f t).
Proof.
  unfold first_path_key. rewrite byte_eqb_refl. unfold sv_find. change (drop 1 (x2f :: t)) with (drop 0 t). rewrite drop_0.
  rewrite split_on_find. destruct (find_byte x2f t) as [n|]; cbn [fmap option_fmap option_map head].
  - unfold substr. change (drop 1 (x2f :: t)) with (drop 0 t). rewrite drop_0. do 2 f_equal. lia.
  - done.
Qed.

Lemma first_literal_root s segs :
  first_literal_key (root :: s :: segs) = if is_param s || is_wildcard s then None else Some (value s).
Proof. done. Qed.

Lemma split_root path v ps :
  split_on x2f path = [] :: v :: ps -> exists t, path = x2f :: t /\ split_on x2f t = v :: ps.
Proof.
  destruct path as [|c t]; [done|]. cbn [split_on]. destruct (byte_eqb_spec c x2f) as [->|Hc].
  - intros [= H]. by exists t.
  - by destruct (split_on x2f t).
Qed.

(** The first two segments of a match. *)
Lemma match_head s segs path out :
  is_param s || is_wildcard s = false -> match_segments (root :: s :: segs) path = Some out ->
  exists t ps, path = x2f :: t /\ split_on x2f t = value s :: ps.
Proof.
  intros Hs. rewrite match_segments_spec. unfold match_spec.
  assert (forall parts o rest, zip_match (root :: s :: rest) parts no_params = Some o -> exists ps, parts = [] :: value s :: ps) as Hz.
  { intros parts o rest. apply orb_false_iff in Hs as [Hp _]. destruct parts as [|p0 [|p1 ps]]; cbn [zip_match root is_param value]; try done.
    - by destruct (bytes_eqb [] p0).
    - destruct (bytes_eqb [] p0) eqn:E0; [|done]. rewrite Hp. destruct (bytes_eqb (value s) p1) eqn:E1; [|done]. bool_simp. subst. eauto. }
  assert (forall parts o rest, wild_match (root :: s :: rest) parts no_params = Some o -> exists ps, parts = [] :: value s :: ps) as Hw.
  { intros parts o rest. unfold wild_match. destruct (_ <? _)%nat eqn:El.
    - destruct (zip_match _ (take _ parts) no_params) as [o'|] eqn:Ez; [|done]. intros _. apply Hz in Ez as [ps Hps].
      exists (ps ++ drop (length (root :: s :: rest)) parts). rewrite <- (take_drop (length (root :: s :: rest)) parts) at 1. by rewrite Hps.
    - destruct (_ && _); [|done]. destruct (zip_match _ parts no_params) eqn:Ez; [|done]. intros _. by eapply Hz. }
  intros Hm. assert (exists ps, split_on x2f path = [] :: value s :: ps) as [ps Hps].
  { destruct (last (root :: s :: segs)) as [w|] eqn:El; [|by eapply Hz].
    destruct (is_wildcard w) eqn:Eww; [|by eapply Hz]. destruct segs as [|s2 segs].
    - cbn in El. injection El as <-. apply orb_false_iff in Hs as [_ Hs]. congruence.
    - change (removelast (root :: s :: s2 :: segs)) with (root :: s :: removelast (s2 :: segs)) in Hm.
      destruct (wild_match _ _ no_params) eqn:Ewm in Hm; [|done]. by eapply Hw. }
  apply split_root in Hps as (t & -> & Ht). eauto.
Qed.

Lemma entry_pattern e : entry_ok e -> exists s segs t parts,
  e_pattern e = root :: s :: segs /\ (e_has e = true -> e_exact e = x2f :: t /\ split_on x2f t = value s :: parts /\ is_param s || is_wildcard s = false) /\
  (e_has e = false -> e_exact e = []).
Proof.
  intros (path & p & Hp & Hpat & Hex & Hhas). unfold prepare_route_pattern in Hp.
  destruct (parse_route_pattern path) as [info|] eqn:Ei; [|done]. cbn [mbind option_bind] in Hp.
  destruct (error info) eqn:Ee; [done|]. injection Hp as <-. cbn [pattern exact_path has_exact_path] in *.
  destruct (parse_pattern_ok path info Ei Ee) as (t & sts & -> & -> & H2 & Hall & Hw).
  destruct (add_all_fields sts (mkParsed None [] [root] [] [])) as (_ & Hsegs & _). rewrite Hsegs in *. cbn [segments app] in *.
  pose proof (split_on_nil x2f t) as Hn. remember (split_on x2f t) as parts eqn:Es.
  destruct H2 as [|p0 st0 ps sts H0 H2]; [done|].
  cbn [map] in *. exists st0.1, (map fst sts), t, ps. split; [done|]. rewrite Hhas, Hex. split.
  - intros Hx. rewrite Hx. split; [done|]. unfold is_exact_literal_pattern in Hx. cbn [existsb] in Hx. apply negb_true_iff in Hx.
    apply orb_false_iff in Hx as [_ Hx]. apply orb_false_iff in Hx as [Hx _]. split; [|done].
    unfold spells_segment in H0. rewrite Hx in H0. destruct H0 as [-> _]. congruence.
  - intros Hx. by rewrite Hx.
Qed.

(** A route that matches is found under the key of the path, or under none. *)
Lemma match_key e path out :
  entry_ok e -> Dispatch.route_matches (e_has e) (e_exact e) (e_pattern e) path = Some out ->
  key e = None \/ (key e = first_path_key path /\ first_path_key path <> None).
Proof.
  intros He Hm. destruct (entry_pattern e He) as (s & segs & t & parts & Hpat & Hex & _). unfold key. rewrite Hpat, first_literal_root.
  destruct (is_param s || is_wildcard s) eqn:Es; [by left|]. right. unfold Dispatch.route_matches in Hm.
  destruct (e_has e) eqn:Eh.
  - destruct (Hex eq_refl) as (Hx & Ht & _). rewrite Hx in Hm. destruct (bytes_eqb (x2f :: t) path) eqn:Ep; [|done]. bool_simp. subst path.
    rewrite first_path_key_root, Ht. done.
  - rewrite Hpat in Hm. destruct (match_head s segs path out Es Hm) as (t' & ps & -> & Ht). rewrite first_path_key_root, Ht. done.
Qed.

Definition wanted (sel : entry -> bool) (path : bytes) (e : entry) : bool :=
  sel e && (key_is None e || match first_path_key path with Some k => key_is (Some k) e | None => false end).

Lemma range_positions sel idx es path :
  Forall entry_ok es -> index_ok sel idx es ->
  range (select_routes_for_path idx path) = Some (positions (wanted sel path) es).
Proof.
  intros Hes [Hg Hl He]. unfold range, positions.
  set (PL := fun e => sel e && match first_path_key path with Some k => key_is (Some k) e | None => false end).
  set (PG := fun e => sel e && key_is None e).
  assert (literal (select_routes_for_path idx path) = positions_from 0 PL es) as Hlit.
  { subst PL. cbn [select_routes_for_path literal]. destruct (first_path_key path) as [k|]; [apply Hl|].
    clear. generalize 0%nat. induction es as [|e es IH]; intros n; [done|]. cbn [positions_from]. rewrite andb_false_r. apply IH. }
  rewrite (visit_positions _ PL PG es 0).
  - f_equal. apply positions_ext. apply Forall_forall. intros e _. subst PL PG. unfold wanted. rewrite orb_comm. by rewrite andb_orb_distrib_r.
  - apply Forall_forall. intros e _. subst PL PG. cbn beta. destruct (sel e); [|done]. cbn [andb].
    destruct (first_path_key path) as [k|]; [|done]. unfold key_is. destruct (key e); repeat case_bool_decide; done.
  - split; cbn [begin_ literal_pos generic_pos exact_done]; [by rewrite drop_0|rewrite drop_0; apply Hg|].
    intros _ i Hi. cbn [select_routes_for_path sel_exact] in Hi. destruct (He path i Hi) as (e & Hei & Hs & Hp & Hne).
    apply (positions_elem 0 PL es i e Hei). subst PL. cbn beta. rewrite Hs. cbn [andb].
    rewrite Forall_forall in Hes. destruct (entry_pattern e) as (s & segs & t & parts & Hpat & Hex & Hno).
    { apply Hes. by eapply list_elem_of_lookup_2. }
    destruct (e_has e) eqn:Eh; [|by rewrite Hno in Hp by done]. destruct (Hex eq_refl) as (Ht & Hpt & Hs0).
    rewrite <- Hp, Ht, first_path_key_root, Hpt. cbn [head]. unfold key_is, key. rewrite Hpat, first_literal_root, Hs0.
    by apply bool_decide_true.
  - change (sel_generic (select_routes_for_path idx path)) with (generic idx). rewrite Hg, Hlit. unfold positions. fold PG. lia.
Qed.

(** *** The index of a method *)

Definition of_method (m : bytes) (e : entry) : bool := bytes_eqb (e_method e) m.

Definition indexes_ok (ix : list MethodRouteLookupIndex) (es : list entry) : Prop :=
  forall m, match find_method_index ix m with
            | Some idx => index_ok (of_method m) idx es
            | None => Forall (fun e => of_method m e = false) es
            end.

Lemma find_with ix m f m' :
  find_method_index (with_method_index ix m f) m' =
  if bytes_eqb m m' then Some (f (default empty_index (find_method_index ix m))) else find_method_index ix m'.
Proof.
  induction ix as [|i ix IH]; cbn [with_method_index find_method_index index_method routes_].
  - by destruct (bytes_eqb m m').
  - destruct (bytes_eqb (index_method i) m) eqn:E; cbn [find_method_index index_method routes_].
    + bool_simp. rewrite E. by destruct (bytes_eqb m m').
    + rewrite IH. destruct (bytes_eqb m m') eqn:E2; [|done]. bool_simp. subst m'. by rewrite (proj2 (bytes_eqb_ne _ _)).
Qed.

Lemma indexes_ok_add ix es e :
  indexes_ok ix es ->
  indexes_ok (with_method_index ix (e_method e) (fun i => index_route_pattern i (e_pattern e) (e_exact e) (length es))) (es ++ [e]).
Proof.
  intros Hix m. rewrite find_with. destruct (bytes_eqb (e_method e) m) eqn:E.
  - assert (of_method m e = true) as Hs by done. apply bytes_eqb_eq in E. subst m. apply index_ok_add; [done|].
    specialize (Hix (e_method e)). destruct (find_method_index ix (e_method e)); [done|]. by apply index_ok_empty.
  - specialize (Hix m). destruct (find_method_index ix m) as [idx|].
    + by apply index_ok_other.
    + apply Forall_app. split; [done|]. by constructor; [|constructor].
Qed.

Lemma method_range ix es m path :
  Forall entry_ok es -> indexes_ok ix es ->
  range (select_method_routes ix m path) = Some (positions (wanted (of_method m) path) es).
Proof.
  intros Hes Hix. specialize (Hix m). unfold select_method_routes. destruct (find_method_index ix m) as [idx|].
  - by apply range_positions.
  - unfold range, positions. cbn. f_equal. generalize 0%nat. induction Hix as [|e es' Hm Hix IH]; intros n; [done|].
    cbn [positions_from]. unfold wanted at 1. rewrite Hm. cbn [andb app]. apply Forall_cons in Hes as [_ Hes]. by apply IH.
Qed.

(** *** Scanning all routes *)

Fixpoint scan {R O} (f : R -> option (option O)) (rs : list R) : option (option O) :=
  match rs with
  | [] => Some None
  | r :: rest => o ← f r; match o with Some o => Some (Some o) | None => scan f rest end
  end.

Lemma first_route_positions {R O} (f : R -> option (option O)) (P : R -> bool) rs pre :
  Dispatch.first_route f (pre ++ rs) (positions_from (length pre) P rs) =
  scan (fun r => if P r then f r else Some None) rs.
Proof.
  revert pre. induction rs as [|r rs IH]; intros pre; cbn [positions_from scan]; [done|].
  specialize (IH (pre ++ [r])). rewrite <- app_assoc, length_app in IH. cbn [app length] in IH. rewrite Nat.add_1_r in IH.
  destruct (P r); cbn [app].
  - cbn [Dispatch.first_route]. rewrite list_lookup_middle by done. cbn [mbind option_bind].
    destruct (f r) as [[o|]|]; cbn [mbind option_bind]; done.
  - cbn [mbind option_bind]. done.
Qed.

Lemma first_route_app {R O} (f : R -> option (option O)) rs a b :
  Dispatch.first_route f rs (a ++ b) =
  (o ← Dispatch.first_route f rs a; match o with Some o => Some (Some o) | None => Dispatch.first_route f rs b end).
Proof.
  induction a as [|i a IH]; [done|]. cbn [app Dispatch.first_route]. destruct (rs !! i); [|done]. cbn [mbind option_bind].
  destruct (f r) as [[o|]|]; [done| |done]. cbn [mbind option_bind]. apply IH.
Qed.

Lemma scan_ext {R O} (f g : R -> option (option O)) rs : Forall (fun r => f r = g r) rs -> scan f rs = scan g rs.
Proof. induction 1 as [|r rs Hr H IH]; [done|]. cbn [scan]. rewrite Hr. by destruct (g r) as [[]|]. Qed.

Section Scan.
Context {R O : Type} (ent : R -> entry) (f : R -> option (option O)) (path : bytes).
Hypothesis unmatched : forall r, Dispatch.route_matches (e_has (ent r)) (e_exact (ent r)) (e_pattern (ent r)) path = None -> f r = Some None.

Lemma positions_map P (rs : list R) k : positions_from k P (map ent rs) = positions_from k (fun r => P (ent r)) rs.
Proof. revert k. induction rs as [|r rs IH]; intros k; [done|]. cbn [map positions_from]. by rewrite IH. Qed.

(** Looking only at the candidates finds what looking at every route finds. *)
Lemma candidates_scan sel rs :
  Forall entry_ok (map ent rs) ->
  Dispatch.first_route f rs (positions (wanted sel path) (map ent rs)) =
  scan (fun r => if sel (ent r) then f r else Some None) rs.
Proof.
  intros Hes. unfold positions. rewrite positions_map. rewrite (first_route_positions f _ rs []).
  apply scan_ext. rewrite Forall_map in Hes. eapply Forall_impl; [exact Hes|]. intros r Hr. cbn in Hr.
  unfold wanted. destruct (sel (ent r)); cbn [andb]; [|done].
  destruct (Dispatch.route_matches (e_has (ent r)) (e_exact (ent r)) (e_pattern (ent r)) path) as [out|] eqn:Em.
  - destruct (match_key _ _ _ Hr Em) as [Hk|[Hk Hne]]; unfold key_is; rewrite Hk.
    + by rewrite bool_decide_true.
    + destruct (first_path_key path) as [k|]; [|done]. rewrite (bool_decide_true (Some k = Some k)) by done. by rewrite orb_true_r.
  - rewrite (unmatched r Em). by destruct (_ || _).
Qed.

End Scan.

End IndexOk.

(** ** Dispatch is the first match of a plain scan *)

Module DispatchOk.
Import Pattern Index Fields Resp Req Dispatch IndexOk.

Definition route_entry (r : Route) : entry := mkEntry (route_method r) (route_pattern r) (route_exact_path r) (route_has_exact r).
Definition task_entry (r : TaskRoute) : entry := mkEntry (task_method r) (task_pattern r) (task_exact_path r) (task_has_exact r).

(** Routers as the application can build them. *)
Inductive built : Impl -> Prop :=
| built_empty : built empty_impl
| built_add m p h impl impl' : built impl -> add_prepared m p h impl = Some impl' -> built impl'
| built_context m p t h up impl impl' : built impl -> add_context_prepared m p t h up impl = Some impl' -> built impl'
| built_sse p h impl impl' : built impl -> sse_prepared p h impl = Some impl' -> built impl'
| built_use mw impl : built impl -> built (use_prepared mw impl)
| built_not_found h impl : built impl -> built (set_not_found_handler h impl)
| built_error h impl : built impl -> built (set_error_handler h impl).

Definition any_method (e : entry) : bool := true.

Record impl_ok (impl : Impl) : Prop := {
  ok_routes : Forall entry_ok (map route_entry (routes impl));
  ok_indexes : indexes_ok (route_indexes impl) (map route_entry (routes impl));
  ok_context : Forall entry_ok (map task_entry (context_routes impl));
  ok_context_indexes : indexes_ok (context_route_indexes impl) (map task_entry (context_routes impl));
  ok_sse : Forall entry_ok (map task_entry (sse_routes impl));
  ok_sse_index : index_ok any_method (sse_index impl) (map task_entry (sse_routes impl))
}.

Lemma entries_snoc {R} (ent : R -> entry) rs r path p :
  prepare_route_pattern path = Some p -> e_pattern (ent r) = pattern p -> e_exact (ent r) = exact_path p ->
  e_has (ent r) = has_exact_path p -> Forall entry_ok (map ent rs) -> Forall entry_ok (map ent (rs ++ [r])).
Proof.
  intros Hp H1 H2 H3 Hrs. rewrite map_app. apply Forall_app. split; [done|]. constructor; [|constructor]. by exists path, p.
Qed.

Lemma built_ok impl : built impl -> impl_ok impl.
Proof.
  induction 1 as [|m p h impl impl' _ IH Ha|m p t h up impl impl' _ IH Ha|p h impl impl' _ IH Ha|mw impl _ []|h impl _ []|h impl _ []].
  - split; try constructor; try (intros m; constructor); cbn; try done.
  - unfold add_prepared in Ha. destruct (prepare_route_pattern p) as [pp|] eqn:Ep; [|done]. injection Ha as <-.
    destruct IH as [H1 H2 H3 H4 H5 H6]. split; cbn [routes route_indexes context_routes context_route_indexes sse_routes sse_index]; try done.
    + by eapply entries_snoc.
    + rewrite map_app. cbn [map]. rewrite <- (length_map route_entry (routes impl)).
      apply (indexes_ok_add _ _ (mkEntry m (pattern pp) (exact_path pp) (has_exact_path pp)) H2).
  - unfold add_context_prepared in Ha. destruct (prepare_route_pattern p) as [pp|] eqn:Ep; [|done]. injection Ha as <-.
    destruct IH as [H1 H2 H3 H4 H5 H6]. split; cbn [routes route_indexes context_routes context_route_indexes sse_routes sse_index]; try done.
    + by eapply entries_snoc.
    + rewrite map_app. cbn [map]. rewrite <- (length_map task_entry (context_routes impl)).
      apply (indexes_ok_add _ _ (mkEntry m (pattern pp) (exact_path pp) (has_exact_path pp)) H4).
  - unfold sse_prepared in Ha. destruct (prepare_route_pattern p) as [pp|] eqn:Ep; [|done]. injection Ha as <-.
    destruct IH as [H1 H2 H3 H4 H5 H6]. split; cbn [routes route_indexes context_routes context_route_indexes sse_routes sse_index]; try done.
    + by eapply entries_snoc.
    + rewrite map_app. cbn [map]. rewrite <- (length_map task_entry (sse_routes impl)).
      by apply (index_ok_add any_method _ _ (mkEntry (B "GET") (pattern pp) (exact_path pp) (has_exact_path pp))).
  - by split.
  - by split.
  - by split.
Qed.

(** The reference: look at every route in the order of registration. *)
Definition scan_method {R O} (ent : R -> entry) (f : R -> option (option O)) (m : bytes) (rs : list R) : option (option O) :=
  scan (fun r => if of_method m (ent r) then f r else Some None) rs.

Definition scan_request {R O} (ent : R -> entry) (f : R -> option (option O)) (m : bytes) (is_head : bool) (rs : list R)
    : option (option O) :=
  if is_head then
    o ← scan_method ent f (B "HEAD") rs;
    match o with Some o => Some (Some o) | None => scan_method ent f (B "GET") rs end
  else scan_method ent f m rs.

Definition scan_dispatch (impl : Impl) (req : RequestView) (path : bytes) (is_head : bool) (channel : nat) : option reply :=
  let observe_route := should_observe_route req in
  found ← scan_request route_entry (fun r => dispatch_regular_route req path is_head r observe_route (error_handler impl))
            (method req) is_head (routes impl);
  match found with
  | Some o => Some (caught o)
  | None =>
      found ← (if bytes_eqb (method req) (B "GET") && negb is_head
               then scan (fun r => dispatch_sse_route req path r channel observe_route) (sse_routes impl)
               else Some None);
      match found with
      | Some r => Some r
      | None => Some (caught (dispatch_not_found req path (not_found_handler impl)))
      end
  end.

Lemma empty_range : range no_selection = Some [].
Proof. done. Qed.

Lemma request_scan {R O} (ent : R -> entry) (f : R -> option (option O)) ix rs m path is_head :
  Forall entry_ok (map ent rs) -> indexes_ok ix (map ent rs) ->
  (forall r, route_matches (e_has (ent r)) (e_exact (ent r)) (e_pattern (ent r)) path = None -> f r = Some None) ->
  exists candidates, selected_request_routes ix m path is_head = Some candidates /\
    first_route f rs candidates = scan_request ent f m is_head rs.
Proof.
  intros Hes Hix Hun. unfold selected_request_routes, scan_request, scan_method.
  destruct is_head; rewrite !(method_range _ (map ent rs)) by done; rewrite ?empty_range; cbn [mbind option_bind];
    eexists; (split; [reflexivity|]); rewrite first_route_app, !(candidates_scan ent f path Hun) by done.
  - done.
  - cbn [first_route]. by destruct (scan _ rs) as [[o|]|].
Qed.

Lemma regular_unmatched req path is_head observe eh r :
  route_matches (e_has (route_entry r)) (e_exact (route_entry r)) (e_pattern (route_entry r)) path = None ->
  dispatch_regular_route req path is_head r observe eh = Some None.
Proof. intros H. unfold dispatch_regular_route. cbn in H. by rewrite H. Qed.

Lemma sse_unmatched req path ch observe r :
  route_matches (e_has (task_entry r)) (e_exact (task_entry r)) (e_pattern (task_entry r)) path = None ->
  dispatch_sse_route req path r ch observe = Some None.
Proof. intros H. unfold dispatch_sse_route. cbn in H. by rewrite H. Qed.

Lemma scan_true {R O} (f : R -> option (option O)) rs : scan (fun r => if true then f r else Some None) rs = scan f rs.
Proof. done. Qed.

Lemma dispatch_scan impl req path is_head channel :
  built impl -> dispatch_router_sync impl req path is_head channel = scan_dispatch impl req path is_head channel.
Proof.
  intros Hb. destruct (built_ok impl Hb) as [H1 H2 _ _ H5 H6]. unfold dispatch_router_sync, scan_dispatch.
  destruct (request_scan route_entry (fun r => dispatch_regular_route req path is_head r (should_observe_route req) (error_handler impl))
    (route_indexes impl) (routes impl) (method req) path is_head H1 H2 (fun r => regular_unmatched req path is_head _ _ r)) as (cs & -> & Hcs).
  cbn [mbind option_bind]. destruct is_head.
  - rewrite empty_range. cbn [mbind option_bind]. rewrite Hcs. cbn [first_route].
    destruct (scan_request _ _ _ _ _) as [[o|]|]; cbn [mbind option_bind]; try done. rewrite andb_false_r. by destruct (bytes_eqb _ _).
  - rewrite (range_positions any_method _ (map task_entry (sse_routes impl))) by done. cbn [mbind option_bind]. rewrite Hcs.
    destruct (scan_request _ _ _ _ _) as [[o|]|]; cbn [mbind option_bind]; try done. rewrite andb_true_r.
    destruct (bytes_eqb _ _); [|done].
    by rewrite (candidates_scan task_entry _ path (fun r => sse_unmatched req path channel _ r)) by done.
Qed.

(** The same for the routes whose handlers run as tasks. *)
Lemma context_dispatch_scan impl req has_upload path is_head :
  built impl ->
  dispatch_context_route_tasks impl req has_upload path is_head =
  scan_request task_entry (fun r => Some (context_route_task req has_upload path is_head r)) (method req) is_head (context_routes impl).
Proof.
  intros Hb. destruct (built_ok impl Hb) as [_ _ H3 H4 _ _]. unfold dispatch_context_route_tasks.
  destruct (request_scan task_entry (fun r => Some (context_route_task req has_upload path is_head r)) (context_route_indexes impl)
    (context_routes impl) (method req) path is_head H3 H4) as (cs & -> & Hcs); [|done].
  intros r Hr. cbn in Hr. unfold context_route_task. rewrite Hr. by destruct (negb _).
Qed.

Lemma annotate_total p r : exists r', annotate p r = Some r'.
Proof. unfold annotate. rewrite FieldsOk.set_data. by eexists. Qed.

Lemma regular_total req path is_head r observe eh : exists o, dispatch_regular_route req path is_head r observe eh = Some o.
Proof.
  unfold dispatch_regular_route, invoke_regular_route_handler. destruct (route_matches _ _ _ _) as [m|]; [|by eexists].
  destruct (can_use_exact_route_request _ _ _ _ _).
  - destruct (route_handler r req) as [|[]]; by eexists.
  - destruct (route_handler r _) as [|[]]; [|by eexists..]. destruct observe; [|by eexists].
    destruct (annotate_total (route_path_pattern r) (if is_head then set_head_only r0 else r0)) as [r' ->]. by eexists.
Qed.

Lemma scan_total {R O} (f : R -> option (option O)) rs : (forall r, exists o, f r = Some o) -> exists o, scan f rs = Some o.
Proof.
  intros Hf. induction rs as [|r rs [o IH]]; [by eexists|]. cbn [scan]. destruct (Hf r) as [[o'|] ->]; cbn [mbind option_bind]; eauto.
Qed.

Lemma scan_request_total {R O} (ent : R -> entry) (f : R -> option (option O)) m is_head rs :
  (forall r, exists o, f r = Some o) -> exists o, scan_request ent f m is_head rs = Some o.
Proof.
  intros Hf. assert (forall m, exists o, scan_method ent f m rs = Some o) as Hs.
  { intros m'. apply scan_total. intros r. destruct (of_method m' (ent r)); [apply Hf|by eexists]. }
  unfold scan_request. destruct is_head; [|apply Hs]. destruct (Hs (B "HEAD")) as [[o|] ->]; cbn [mbind option_bind]; [by eexists|apply Hs].
Qed.

Lemma scan_dispatch_total impl req path is_head channel : exists r, scan_dispatch impl req path is_head channel = Some r.
Proof.
  unfold scan_dispatch. cbn zeta.
  destruct (scan_request_total route_entry (fun r => dispatch_regular_route req path is_head r (should_observe_route req) (error_handler impl))
    (method req) is_head (routes impl)) as [o ->]; [intros r; apply regular_total|].
  cbn [mbind option_bind]. destruct o as [o|]; [by eexists|].
  assert (exists x, (if bytes_eqb (method req) (B "GET") && negb is_head
    then scan (fun r => dispatch_sse_route req path r channel (should_observe_route req)) (sse_routes impl) else Some None) = Some x) as [[x|] ->].
  { destruct (_ && _); [|by eexists]. apply scan_total. intros r. unfold dispatch_sse_route. destruct (route_matches _ _ _ _); [|by eexists].
    destruct (should_observe_route req); [|by eexists]. destruct (annotate_total (task_path_pattern r) (sse channel)) as [r' ->]. by eexists. }
  - by eexists.
  - by eexists.
Qed.

End DispatchOk.

(** ** The parameters of a matched request *)

Module ParamsOk.
Import Fields Req Dispatch.

Notation fm := (first_matching_in false).

Lemma fm_app k a b : fm k (a ++ b) = match fm k a with Some v => Some v | None => fm k b end.
Proof. induction a as [|[k' v] a IH]; [done|]. cbn [app first_matching_in]. by destruct (key_eq false k' k). Qed.

Lemma fm_filter k (Q : bytes -> bool) l : fm k (filter (fun p => Q p.1 = false) l) = if Q k then None else fm k l.
Proof.
  induction l as [|[k' v] l IH]; [by destruct (Q k)|]. cbn [first_matching_in].
  destruct (Q k') eqn:E.
  - rewrite filter_cons_False by (cbn; congruence). rewrite IH. unfold key_eq. destruct (bytes_eqb k' k) eqn:Ek; [|done].
    bool_simp. subst. by rewrite E.
  - rewrite filter_cons_True by done. cbn [first_matching_in]. rewrite IH. unfold key_eq. destruct (bytes_eqb k' k) eqn:Ek; [|done].
    bool_simp. subst. by rewrite E.
Qed.

Lemma fm_claims k (ov : bytes -> bool) (g : bytes -> option bytes) keys :
  (forall key, ov key = true -> g key <> None) ->
  fm k (flat_map (fun key => if ov key then match g key with Some v => [(key, v)] | None => [] end else []) keys) =
  if bool_decide (k ∈ keys) && ov k then g k else None.
Proof.
  intros Hg. induction keys as [|key keys IH]; cbn [flat_map]; [done|]. rewrite fm_app, IH.
  destruct (decide (key = k)) as [->|Hne].
  - rewrite (bool_decide_true (k ∈ k :: keys)) by apply list_elem_of_here. cbn [andb].
    destruct (ov k) eqn:Eo; [|cbn; by rewrite andb_false_r]. destruct (g k) as [v|] eqn:Ev; [|by apply Hg in Eo].
    cbn [first_matching_in]. unfold key_eq. by rewrite bytes_eqb_refl.
  - assert (bool_decide (k ∈ key :: keys) = bool_decide (k ∈ keys)) as ->.
    { apply bool_decide_ext. rewrite elem_of_cons. naive_solver. }
    destruct (ov key); [|done]. destruct (g key); [|done]. cbn [first_matching_in]. unfold key_eq.
    by rewrite (proj2 (bytes_eqb_ne key k) Hne).
Qed.

Section Merged.
Context (req : RequestView) (matched : HttpFields).
Hypothesis req_cs : case_insensitive_ (params req) = false.
Hypothesis matched_cs : case_insensitive_ matched = false.

Lemma get_cs f key : case_insensitive_ f = false -> get f key = fm key (data_ f).
Proof. intros H. unfold get, first_matching. by rewrite H. Qed.

(** Where a parameter of the merged request comes from. *)
Lemma merged_get k :
  get (merged_params req matched) k =
  if jwt_claim_overrides req matched k then if bool_decide (k ∈ kJwtClaimParams) then get (params req) k else None
  else match get matched k with
       | Some v => Some v
       | None => if bytes_eqb k kJwtAuthoritative then None else get (params req) k
       end.
Proof.
  rewrite get_cs by done. unfold merged_params. cbn [data_]. rewrite !fm_app.
  rewrite (fm_claims k _ (get (params req))), (fm_filter k (jwt_claim_overrides req matched)),
    (fm_filter k (fun key => bytes_eqb key kJwtAuthoritative || jwt_claim_overrides req matched key)).
  - rewrite (get_cs (params req)), (get_cs matched) by done.
    destruct (jwt_claim_overrides req matched k) eqn:E.
    + rewrite orb_true_r, andb_true_r. destruct (bool_decide _); [|done]. by destruct (fm k (data_ (params req))).
    + rewrite andb_false_r, orb_false_r. by destruct (fm k (data_ matched)).
  - intros key Hk. unfold jwt_claim_overrides in Hk. bool_simp. unfold has in *. by destruct (get (params req) key).
Qed.

Lemma merged_cs : case_insensitive_ (merged_params req matched) = false.
Proof. done. Qed.

Lemma route_params_get pattern observe k :
  k <> B "__conflux_route_pattern" ->
  get (route_params_with_matches req matched pattern observe) k = get (merged_params req matched) k.
Proof.
  intros Hk. unfold route_params_with_matches. destruct (observe && _); [|done].
  rewrite !get_cs by done. unfold emplace_back. cbn [data_]. rewrite fm_app. cbn [first_matching_in]. unfold key_eq.
  rewrite (proj2 (bytes_eqb_ne _ k)) by congruence. by destruct (fm k _).
Qed.

End Merged.

End ParamsOk.

Module RouterProps.
Import Pattern Fields Resp Req Dispatch DispatchOk ParamsOk.

(** C6: whatever routes, handlers and middleware were registered, dispatch
    returns, and returns what a scan of every route in the order of
    registration would: the first route of the request's method that matches
    (for HEAD, the first HEAD route, and failing that the first GET route), then
    for GET the first matching event-stream route, then the not-found answer.
    The lookup index, with its exact, first-literal and generic lists merged by
    the iterator, loses no match and keeps the order. *)
Theorem dispatch_first_match impl req path is_head channel :
  built impl ->
  dispatch_router_sync impl req path is_head channel = scan_dispatch impl req path is_head channel /\
  exists r, dispatch_router_sync impl req path is_head channel = Some r.
Proof.
  intros Hb. rewrite (dispatch_scan impl req path is_head channel Hb). split; [done|]. apply scan_dispatch_total.
Qed.

Definition say (t : bytes) : Handler := fun _ => Returns (text t 200).
Definition sample_request (m p : bytes) (ps : list (bytes * bytes)) : RequestView :=
  mkRequestView m p (B "HTTP/1.1") (B "127.0.0.1") false (mkFields ps false) (mkFields [] true) (mkFields [] false)
    (mkFields [] false) (mkFields [] false) [] [].

Definition register (p t : bytes) (impl : Impl) : Impl := default impl (add_prepared (B "GET") p (say t) impl).

Lemma register_built p t impl : built impl -> built (register p t impl).
Proof.
  intros Hb. unfold register. destruct (add_prepared (B "GET") p (say t) impl) as [impl'|] eqn:E; [|done]. by eapply built_add.
Qed.

(** Three overlapping routes: the generic one was registered first. *)
Definition sample_router : Impl :=
  register (B "/a/{*rest}") (B "tail") (register (B "/a/x") (B "exact") (register (B "/{name}/x") (B "generic") empty_impl)).

Lemma dispatch_first_match_witness :
  length (routes sample_router) = 3%nat /\
  dispatch_router_sync sample_router (sample_request (B "GET") (B "/a/x") []) (B "/a/x") false 0 =
  Some (Answer (text (B "generic") 200)).
Proof.
  split; [vm_compute; reflexivity|].
  destruct (dispatch_first_match sample_router (sample_request (B "GET") (B "/a/x") []) (B "/a/x") false 0) as [-> _].
  - apply register_built, register_built, register_built. constructor.
  - vm_compute. reflexivity.
Defined.

(** once the token middleware has marked the request's claims as
    authoritative, a claim parameter that it set reaches the handler unchanged:
    a path parameter of the same name cannot stand in for it. *)
Theorem route_claims_authoritative req matched pattern observe k v :
  case_insensitive_ (params req) = false -> case_insensitive_ matched = false ->
  k ∈ kJwtClaimParams -> has (params req) kJwtAuthoritative = true -> get (params req) k = Some v ->
  get (route_params_with_matches req matched pattern observe) k = Some v.
Proof.
  intros Hr Hm Hk Ha Hv.
  assert (k <> B "__conflux_route_pattern" /\ bytes_eqb k kJwtAuthoritative = false) as [H1 H2].
  { repeat (apply elem_of_cons in Hk as [->|Hk]; [by split|]). by apply elem_of_nil in Hk. }
  rewrite route_params_get, merged_get by done. unfold jwt_claim_overrides, has in *. rewrite Hv.
  destruct (get (params req) kJwtAuthoritative); [|done]. cbn [andb].
  destruct (get matched k) as [w|] eqn:Ew.
  - by rewrite bool_decide_true.
  - by rewrite H2.
Qed.

Lemma route_claims_authoritative_witness :
  get (route_params_with_matches
    (sample_request (B "GET") (B "/mallory") [(kJwtAuthoritative, B "1"); (B "jwt_sub", B "alice")])
    (mkFields [(B "jwt_sub", B "mallory")] false) (B "/{jwt_sub}") false) (B "jwt_sub") = Some (B "alice").
Proof.
  apply route_claims_authoritative; try reflexivity. apply list_elem_of_here.
Defined.

(** the rule that lets claims win is applied to every parameter, not only to
    the claims: once the claims are authoritative, a path parameter whose name
    is also a parameter that some middleware set, and is no claim, is dropped,
    in both its values. *)
Theorem route_param_dropped req matched pattern observe k :
  case_insensitive_ (params req) = false -> case_insensitive_ matched = false ->
  has (params req) kJwtAuthoritative = true -> has (params req) k = true -> has matched k = true ->
  k ∉ kJwtClaimParams -> k <> B "__conflux_route_pattern" ->
  get (route_params_with_matches req matched pattern observe) k = None.
Proof.
  intros Hr Hm Ha Hk1 Hk2 Hno Hne. rewrite route_params_get, merged_get by done.
  unfold jwt_claim_overrides. rewrite Ha, Hk1, Hk2. cbn [andb]. by rewrite bool_decide_false.
Qed.

Lemma route_param_dropped_witness :
  get (route_params_with_matches
    (sample_request (B "GET") (B "/u/7") [(kJwtAuthoritative, B "1"); (B "id", B "request-1")])
    (mkFields [(B "id", B "7")] false) (B "/u/{id}") false) (B "id") = None.
Proof.
  apply route_param_dropped; try reflexivity; [|discriminate].
  intros H. repeat (apply elem_of_cons in H as [H|H]; [discriminate H|]). by apply elem_of_nil in H.
Defined.

(** a HEAD request that no route answers gets the not-found page with its
    body: only a handler's own response is marked as having none. *)
Theorem head_not_found_has_body path channel :
  exists r, dispatch_router_sync empty_impl (sample_request (B "HEAD") path []) path true channel = Some (Answer r) /\
    head_only r = false /\ (0 < length (text_body r))%nat.
Proof.
  exists (not_found path). split; [reflexivity|]. split; [reflexivity|].
  change (text_body (not_found path)) with (response_html_error_body 404 (B "Not Found") path).
  unfold response_html_error_body. cbn zeta. rewrite length_app. change (length (B "</body></html>")) with 14%nat. lia.
Qed.

End RouterProps.
