(* ===== verification/HttpConn.v ===== *)
(** * The HTTP/1 connection of the server

    [src/src/net/http_server_dispatch.cxx] with the parts of [http_server_state.cxx],
    [http_server_recv.cxx], [http_server_send.cxx] and [http_server_cqe.cxx] that a
    connection without TLS goes through: from bytes received to a request handed to
    the application, and from its response to bytes sent and the next request.

    The application is a set of arguments: [dispatch] for plain routes and two
    functions for the context routes. A completion of the kernel is one step on a
    [Conn]: [received] for a read, [sent] for a write, [deferred_wakes] for a
    response that comes later, [peer_closed]. What a step needs from outside (the
    date, the responses that have become ready) is its [Env]. [None] stands for a
    loop out of fuel; [HttpServer] shows that it does not occur.

    Not modelled: TLS and HTTP/2, timers, metrics, and the submission queue; a write
    that was submitted is [send_queued] until its completion. *)

From Stdlib Require Import ZArith Lia Strings.Byte String.
From stdpp Require Import base tactics option numbers list.
From S2P Require Import Prelude.
From S2P Require Import Codec.
From S2P Require Import Http1.
From S2P Require Import HttpBody.
From S2P Require Import HttpTypes.
From S2P Require Import HttpMessage.
From S2P Require Import HttpServe.
From S2P Require Import HttpUpload.
From S2P Require Import Router.

(** ** The receive buffer *)

Module Buffer.

Record PartialBuf := mkBuf { buf : bytes; pos : nat }.

Definition empty (b : PartialBuf) : bool := (length (buf b) <=? pos b)%nat.
Definition size (b : PartialBuf) : nat := length (buf b) - pos b.
Definition view (b : PartialBuf) : bytes := drop (pos b) (buf b).
Definition append (s : bytes) (b : PartialBuf) : PartialBuf := mkBuf (buf b ++ s) (pos b).
Definition clear : PartialBuf := mkBuf [] 0.

Definition consume (n : nat) (b : PartialBuf) : PartialBuf :=
  let p := (pos b + n)%nat in if (length (buf b) <=? p)%nat then clear else mkBuf (buf b) p.

Definition erase_view_range (first last : nat) (b : PartialBuf) : PartialBuf :=
  let first := Nat.min first (size b) in
  let last := Nat.min last (size b) in
  if (last <=? first)%nat then b
  else mkBuf (take (pos b + first) (buf b) ++ drop (pos b + last) (buf b)) (pos b).

(** [cut_prefix]: the prefix moved out, and the buffer with the rest. *)
Definition cut_prefix (n : nat) (b : PartialBuf) : bytes * PartialBuf :=
  let available := size b in
  let n := Nat.min n available in
  if (pos b =? 0)%nat then
    if (n <? length (buf b))%nat then (take n (buf b), mkBuf (drop n (buf b)) 0) else (buf b, mkBuf [] 0)
  else (take n (view b), mkBuf (if (n <? available)%nat then drop n (view b) else []) 0).

End Buffer.

(** ** Completion tags *)

Module UserData.

Inductive Op :=
| Accept | Recv | Send | Close | SsePoll | DeferredPoll | Shutdown | FdShutdown | Timer | FileIo | WsCancel
| FixedFdInstall | DirectSlotClose | ClientRing | Nop | SendZc.

Definition op_code (op : Op) : Z :=
  match op with
  | Accept => 0 | Recv => 1 | Send => 2 | Close => 3 | SsePoll => 4 | DeferredPoll => 5 | Shutdown => 6 | FdShutdown => 7
  | Timer => 8 | FileIo => 9 | WsCancel => 10 | FixedFdInstall => 11 | DirectSlotClose => 12 | ClientRing => 13
  | Nop => 14 | SendZc => 15
  end.

Definition OP_SHIFT : Z := 56.
Definition GEN_SHIFT : Z := 24.
Definition GEN_MASK : Z := 0xFFFFFFFF.
Definition FD_MASK : Z := 0x00FFFFFF.

Definition pack (op : Op) (gen fd : Z) : Z :=
  Z.lor (Z.lor (u64 (Z.shiftl (op_code op) OP_SHIFT)) (u64 (Z.shiftl (Z.land gen GEN_MASK) GEN_SHIFT)))
    (Z.land (u32 fd) FD_MASK).

(** The operation is the number of its enumerator. *)
Definition unpack (ud : Z) : Z * Z * Z :=
  (Z.shiftr ud OP_SHIFT, Z.land (Z.shiftr ud GEN_SHIFT) GEN_MASK, Z.land ud FD_MASK).

End UserData.

(** ** Rejections *)

Module Reject.
Import Resp.

Inductive HttpRejectReason :=
| no_reason | malformed_request | request_line_too_large | header_line_too_large | header_block_too_large
| too_many_headers | missing_host | duplicate_host | malformed_content_length | duplicate_content_length
| content_length_with_transfer_encoding | unsupported_transfer_encoding | invalid_transfer_encoding | invalid_chunk
| request_body_too_large | expectation_failed | header_timeout | body_timeout.

Definition reject_reason_code (reason : HttpRejectReason) : bytes :=
  match reason with
  | no_reason => B "none"
  | malformed_request => B "malformed_request"
  | request_line_too_large => B "request_line_too_large"
  | header_line_too_large => B "header_line_too_large"
  | header_block_too_large => B "header_block_too_large"
  | too_many_headers => B "too_many_headers"
  | missing_host => B "missing_host"
  | duplicate_host => B "duplicate_host"
  | malformed_content_length => B "malformed_content_length"
  | duplicate_content_length => B "duplicate_content_length"
  | content_length_with_transfer_encoding => B "content_length_with_transfer_encoding"
  | unsupported_transfer_encoding => B "unsupported_transfer_encoding"
  | invalid_transfer_encoding => B "invalid_transfer_encoding"
  | invalid_chunk => B "invalid_chunk"
  | request_body_too_large => B "body_too_large"
  | expectation_failed => B "expectation_failed"
  | header_timeout => B "header_timeout"
  | body_timeout => B "body_timeout"
  end.

Definition reject_reason_diagnostic_code (reason : HttpRejectReason) : bytes :=
  match reason with
  | header_block_too_large => B "http.reject.header_block_too_large"
  | content_length_with_transfer_encoding => B "http.reject.content_length_with_transfer_encoding"
  | _ => reject_reason_code reason
  end.

Definition reject_reason_status (reason : HttpRejectReason) : Z :=
  match reason with
  | request_line_too_large => 414
  | header_line_too_large | header_block_too_large | too_many_headers => 431
  | request_body_too_large => 413
  | expectation_failed => 417
  | header_timeout | body_timeout => 408
  | no_reason => 200
  | _ => 400
  end.

Definition reject_reason_detail (reason : HttpRejectReason) : bytes :=
  match reason with
  | malformed_request => B "request syntax is invalid"
  | request_line_too_large => B "request line exceeds the configured limit"
  | header_line_too_large => B "a header line exceeds the configured limit"
  | header_block_too_large => B "request headers exceed the configured aggregate limit"
  | too_many_headers => B "request contains too many headers"
  | missing_host => B "HTTP/1.1 request is missing a Host header"
  | duplicate_host => B "HTTP/1.1 request contains more than one Host header"
  | malformed_content_length => B "Content-Length is not a valid decimal length"
  | duplicate_content_length => B "request contains more than one Content-Length header"
  | content_length_with_transfer_encoding => B "request contains both Content-Length and Transfer-Encoding"
  | unsupported_transfer_encoding => B "Transfer-Encoding is not supported for this request"
  | invalid_transfer_encoding => B "Transfer-Encoding header is invalid"
  | invalid_chunk => B "chunked request body framing is invalid"
  | request_body_too_large => B "request body exceeds the configured limit"
  | expectation_failed => B "request Expect header cannot be satisfied"
  | header_timeout => B "request headers were not received before the timeout"
  | body_timeout => B "request body was not received before the timeout"
  | no_reason => []
  end.

(** [ProblemBodyBuilder]: the text and whether the next member is the first. *)
Definition problem_builder : Type := bytes * bool.
Definition new_problem : problem_builder := (B "{", true).

Definition append_name (name : bytes) (p : problem_builder) : problem_builder :=
  let body := if p.2 then p.1 else p.1 ++ [x2c] in
  (JsonEscape.append_json_string_fallback body name ++ [x3a], false).

Definition member (name value : bytes) (p : problem_builder) : problem_builder :=
  let p := append_name name p in (JsonEscape.append_json_string_fallback p.1 value, p.2).

Definition raw_member (name value : bytes) (p : problem_builder) : problem_builder :=
  let p := append_name name p in (p.1 ++ value, p.2).

Definition finish_problem (p : problem_builder) : bytes := p.1 ++ B "}".

Definition make_rejection_response (reason : HttpRejectReason) : Response :=
  problem_json
    (finish_problem
       (member (B "detail") (reject_reason_detail reason)
          (member (B "diagnostic_code") (reject_reason_diagnostic_code reason)
             (member (B "code") (reject_reason_code reason) new_problem))))
    (reject_reason_status reason).

End Reject.

(** ** The connection *)

Module Connection.
Import Req Upload Reject.

Inductive Http1UploadChunkPhase := size_line | data | data_cr | data_lf | trailer_line | upload_done.

(** The response being sent. [in_flight] is the text of the write that was
    submitted last, as the kernel was given it. *)
Record Sending := mkSending {
  own_response : bytes; has_response : bool; written : nat; send_queued : bool; in_flight : bytes; close_after_send : bool;
  continue_final_close : bool
}.

(** The request being received. *)
Record Receiving := mkReceiving {
  partial : Buffer.PartialBuf; request_bytes : nat; expect_continue_sent : bool; chunked_decode : Chunked.ChunkedDecodeState
}.

(** What the response is made of when it is not text: a deferred response, a
    WebSocket handler, an event channel or a file, by its identity or size. *)
Record Attached := mkAttached {
  deferred_response : option nat; deferred_head_only : bool; is_deferred : bool;
  ws_upgrade : option nat; saved_req : option RequestView; is_ws : bool;
  sse_channel : option nat; is_sse : bool; sse_headers_sent : bool;
  mapped_file : option nat; mapped_total : nat;
  streamed_file : option nat; streamed_headers_sent : bool; streamed_delivered : nat
}.

(** A body handed on as it arrives. *)
Record Uploading := mkUploading {
  upload_body : option UploadBodyState; upload_content_length : option Z; upload_received : Z;
  upload_chunk_remaining : Z; upload_chunk_count : nat; upload_trailer_lines : nat; upload_trailer_bytes : nat;
  upload_line : bytes; upload_chunk_phase : Http1UploadChunkPhase
}.

(** What can be seen of the server: the application called with a request, a piece
    of a body, its end or its failure handed on, bytes of a response written, bytes of
    a file written, the sending side shut down, the descriptor closed, or the
    connection handed over to a WebSocket handler with the bytes read. *)
Inductive Effect :=
| Called (req : RequestView) | Fed (chunk : bytes) | FedEnd | FedError (kind : Resp.UploadErrorKind)
| Wrote (b : bytes) | WroteFile (n : nat) | ShutDown | Closed | HandedOver (rest : bytes).

(** [retired]: the generation of the connection has moved on ([conn.gen]), so that
    completions submitted before do not reach it. *)
Record Conn := mkConn {
  snd_ : Sending; rcv : Receiving; att : Attached; up : Uploading; is_tls : bool; remote_addr : bytes; closing : bool; retired : bool;
  rejections : list HttpRejectReason; effects : list Effect
}.

Definition on_snd (f : Sending -> Sending) (c : Conn) : Conn :=
  mkConn (f (snd_ c)) (rcv c) (att c) (up c) (is_tls c) (remote_addr c) (closing c) (retired c) (rejections c) (effects c).
Definition on_rcv (f : Receiving -> Receiving) (c : Conn) : Conn :=
  mkConn (snd_ c) (f (rcv c)) (att c) (up c) (is_tls c) (remote_addr c) (closing c) (retired c) (rejections c) (effects c).
Definition on_att (f : Attached -> Attached) (c : Conn) : Conn :=
  mkConn (snd_ c) (rcv c) (f (att c)) (up c) (is_tls c) (remote_addr c) (closing c) (retired c) (rejections c) (effects c).
Definition on_up (f : Uploading -> Uploading) (c : Conn) : Conn :=
  mkConn (snd_ c) (rcv c) (att c) (f (up c)) (is_tls c) (remote_addr c) (closing c) (retired c) (rejections c) (effects c).
Definition note_reject (r : HttpRejectReason) (c : Conn) : Conn :=
  mkConn (snd_ c) (rcv c) (att c) (up c) (is_tls c) (remote_addr c) (closing c) (retired c) (rejections c ++ [r]) (effects c).
Definition emit (e : Effect) (c : Conn) : Conn :=
  mkConn (snd_ c) (rcv c) (att c) (up c) (is_tls c) (remote_addr c) (closing c) (retired c) (rejections c) (effects c ++ [e]).

Definition set_close_after_send (v : bool) : Conn -> Conn :=
  on_snd (fun s => mkSending (own_response s) (has_response s) (written s) (send_queued s) (in_flight s) v (continue_final_close s)).
Definition set_continue_final_close (v : bool) : Conn -> Conn :=
  on_snd (fun s => mkSending (own_response s) (has_response s) (written s) (send_queued s) (in_flight s) (close_after_send s) v).
Definition set_has_response (v : bool) : Conn -> Conn :=
  on_snd (fun s => mkSending (own_response s) v (written s) (send_queued s) (in_flight s) (close_after_send s) (continue_final_close s)).
Definition set_written (n : nat) : Conn -> Conn :=
  on_snd (fun s => mkSending (own_response s) (has_response s) n (send_queued s) (in_flight s) (close_after_send s)
                     (continue_final_close s)).
Definition set_send_queued (v : bool) : Conn -> Conn :=
  on_snd (fun s => mkSending (own_response s) (has_response s) (written s) v (in_flight s) (close_after_send s)
                     (continue_final_close s)).
Definition set_own_response (t : bytes) : Conn -> Conn :=
  on_snd (fun s => mkSending t (has_response s) (written s) (send_queued s) (in_flight s) (close_after_send s)
                     (continue_final_close s)).

(** [queue_send] without TLS: what is left of the text is submitted. *)
Definition queue_send : Conn -> Conn :=
  on_snd (fun s => mkSending (own_response s) (has_response s) (written s) true (drop (written s) (own_response s))
                     (close_after_send s) (continue_final_close s)).

(** [queue_close] of a connection with an ordinary descriptor. It retires the
    generation of the connection, so reads that complete later are dropped; while a
    write is pending it leaves the closing to the completion of the write. *)
Definition queue_close (c : Conn) : Conn :=
  if closing c then c
  else if send_queued (snd_ c) then emit ShutDown (set_close_after_send true c)
  else mkConn (snd_ c) (rcv c) (att c) (up c) (is_tls c) (remote_addr c) true true (rejections c) (effects c ++ [ShutDown]).

(** [handle_fd_shutdown]: the shutdown has completed. *)
Definition handle_fd_shutdown (c : Conn) : Conn :=
  if send_queued (snd_ c) then
    let c := set_close_after_send true c in
    mkConn (snd_ c) (rcv c) (att c) (up c) (is_tls c) (remote_addr c) false (retired c) (rejections c) (effects c)
  else emit Closed c.

Definition set_partial (b : Buffer.PartialBuf) : Conn -> Conn :=
  on_rcv (fun r => mkReceiving b (request_bytes r) (expect_continue_sent r) (chunked_decode r)).
Definition set_request_bytes (n : nat) : Conn -> Conn :=
  on_rcv (fun r => mkReceiving (partial r) n (expect_continue_sent r) (chunked_decode r)).
Definition set_expect_continue_sent (v : bool) : Conn -> Conn :=
  on_rcv (fun r => mkReceiving (partial r) (request_bytes r) v (chunked_decode r)).
Definition set_chunked_decode (st : Chunked.ChunkedDecodeState) : Conn -> Conn :=
  on_rcv (fun r => mkReceiving (partial r) (request_bytes r) (expect_continue_sent r) st).

Definition set_deferred (d : option nat) (head_only flag : bool) : Conn -> Conn :=
  on_att (fun a => mkAttached d head_only flag (ws_upgrade a) (saved_req a) (is_ws a) (sse_channel a) (is_sse a)
                     (sse_headers_sent a) (mapped_file a) (mapped_total a) (streamed_file a)
                     (streamed_headers_sent a) (streamed_delivered a)).
Definition set_ws (h : option nat) (req : option RequestView) (flag : bool) : Conn -> Conn :=
  on_att (fun a => mkAttached (deferred_response a) (deferred_head_only a) (is_deferred a) h req flag (sse_channel a) (is_sse a)
                     (sse_headers_sent a) (mapped_file a) (mapped_total a) (streamed_file a)
                     (streamed_headers_sent a) (streamed_delivered a)).
Definition set_sse (ch : option nat) (flag sent : bool) : Conn -> Conn :=
  on_att (fun a => mkAttached (deferred_response a) (deferred_head_only a) (is_deferred a) (ws_upgrade a) (saved_req a) (is_ws a)
                     ch flag sent (mapped_file a) (mapped_total a) (streamed_file a)
                     (streamed_headers_sent a) (streamed_delivered a)).
Definition set_mapped (m : option nat) (total : nat) : Conn -> Conn :=
  on_att (fun a => mkAttached (deferred_response a) (deferred_head_only a) (is_deferred a) (ws_upgrade a) (saved_req a) (is_ws a)
                     (sse_channel a) (is_sse a) (sse_headers_sent a) m total (streamed_file a)
                     (streamed_headers_sent a) (streamed_delivered a)).
Definition set_streamed (m : option nat) (sent : bool) (delivered : nat) : Conn -> Conn :=
  on_att (fun a => mkAttached (deferred_response a) (deferred_head_only a) (is_deferred a) (ws_upgrade a) (saved_req a) (is_ws a)
                     (sse_channel a) (is_sse a) (sse_headers_sent a) (mapped_file a) (mapped_total a) m sent delivered).

Definition set_upload_body (u : option UploadBodyState) : Conn -> Conn :=
  on_up (fun p => mkUploading u (upload_content_length p) (upload_received p) (upload_chunk_remaining p) (upload_chunk_count p)
                    (upload_trailer_lines p) (upload_trailer_bytes p) (upload_line p) (upload_chunk_phase p)).
Definition set_upload_received (n : Z) : Conn -> Conn :=
  on_up (fun p => mkUploading (upload_body p) (upload_content_length p) n (upload_chunk_remaining p) (upload_chunk_count p)
                    (upload_trailer_lines p) (upload_trailer_bytes p) (upload_line p) (upload_chunk_phase p)).
Definition set_upload_chunk (remaining : Z) (count : nat) (phase : Http1UploadChunkPhase) : Conn -> Conn :=
  on_up (fun p => mkUploading (upload_body p) (upload_content_length p) (upload_received p) remaining count
                    (upload_trailer_lines p) (upload_trailer_bytes p) (upload_line p) phase).
Definition set_upload_trailer (lines nbytes : nat) : Conn -> Conn :=
  on_up (fun p => mkUploading (upload_body p) (upload_content_length p) (upload_received p) (upload_chunk_remaining p)
                    (upload_chunk_count p) lines nbytes (upload_line p) (upload_chunk_phase p)).
Definition set_upload_line (l : bytes) : Conn -> Conn :=
  on_up (fun p => mkUploading (upload_body p) (upload_content_length p) (upload_received p) (upload_chunk_remaining p)
                    (upload_chunk_count p) (upload_trailer_lines p) (upload_trailer_bytes p) l (upload_chunk_phase p)).

(** The members of an upload that ends: body, storage, length, line and phase. *)
Definition drop_upload : Conn -> Conn :=
  on_up (fun p => mkUploading None None (upload_received p) (upload_chunk_remaining p) (upload_chunk_count p)
                    (upload_trailer_lines p) (upload_trailer_bytes p) [] upload_done).

(** [Conn] as it is declared. *)
Definition new_conn : Conn :=
  mkConn (mkSending [] false 0 false [] false false) (mkReceiving Buffer.clear 0 false Chunked.fresh)
    (mkAttached None false false None None false None false false None 0 None false 0)
    (mkUploading None None 0 0 0 0 0 [] size_line) false [] false false [] [].

(** [conn_erase]: the connection is gone and its place in the table is free. The
    members that are not named keep their value. *)
Definition conn_erase (c : Conn) : Conn :=
  mkConn
    (mkSending [] false 0 (send_queued (snd_ c)) (in_flight (snd_ c)) false (continue_final_close (snd_ c)))
    (mkReceiving Buffer.clear 0 (expect_continue_sent (rcv c)) Chunked.fresh)
    (mkAttached None false false None (saved_req (att c)) false None false false None 0 None false 0)
    (mkUploading None None 0 0 0 0 0 [] size_line) false (remote_addr c) false true (rejections c) (effects c).

(** [reset_accepted_connection], [record_accepted_peer_address] and
    [reset_connection_protocol_state]: the place is taken by a new peer, with
    nothing sent or refused yet. *)
Definition accept (addr : bytes) (c : Conn) : Conn :=
  mkConn
    (mkSending [] false 0 false (in_flight (snd_ c)) false (continue_final_close (snd_ c)))
    (mkReceiving Buffer.clear 0 (expect_continue_sent (rcv c)) Chunked.fresh)
    (mkAttached None false false None (saved_req (att c)) (is_ws (att c)) None false false None 0 None false 0)
    (mkUploading None None 0 0 0 0 0 [] size_line) false addr false false [] [].

Definition uploads (c : Conn) : bool := match upload_body (up c) with Some _ => true | None => false end.

End Connection.

(** ** From a request to its response *)

Module Serve.
Import Http1.Head Fields HeaderList MediaType ContentLength Target Parts Multipart Format Router.Dispatch Req Resp Upload Reject Connection.

Record CommonHeaderSummary := mkSummary {
  host_count : nat; content_length_count : nat; transfer_encoding_count : nat;
  sum_host : option bytes; sum_content_length : option bytes; sum_content_type : option bytes; sum_cookie : option bytes;
  connection_close : bool; connection_keep_alive : bool; expect_continue : bool; expect_unsupported : bool
}.

Definition no_headers : CommonHeaderSummary := mkSummary 0 0 0 None None None None false false false false.

Definition first_of (o : option bytes) (v : bytes) : option bytes := match o with None => Some v | _ => o end.

Definition note_common_header (s : CommonHeaderSummary) (p : bytes * bytes) : CommonHeaderSummary :=
  let '(name, field_value) := p in
  let '(mkSummary hc cc tc h cl ct ck close keep cont unsup) := s in
  if ascii_iequals name (B "host") then mkSummary (S hc) cc tc (first_of h field_value) cl ct ck close keep cont unsup
  else if ascii_iequals name (B "content-length")
  then mkSummary hc (S cc) tc h (first_of cl field_value) ct ck close keep cont unsup
  else if ascii_iequals name (B "transfer-encoding") then mkSummary hc cc (S tc) h cl ct ck close keep cont unsup
  else if ascii_iequals name (B "content-type") then mkSummary hc cc tc h cl (first_of ct field_value) ck close keep cont unsup
  else if ascii_iequals name (B "cookie") then mkSummary hc cc tc h cl ct (first_of ck field_value) close keep cont unsup
  else if ascii_iequals name (B "connection") then
    let has t := default false (header_token_contains field_value t) in
    mkSummary hc cc tc h cl ct ck (has (B "close") || close) (has (B "keep-alive") || keep) cont unsup
  else if ascii_iequals name (B "expect") then
    match parse_expect_value field_value with
    | unsupported => mkSummary hc cc tc h cl ct ck close keep cont true
    | continue_100 => mkSummary hc cc tc h cl ct ck close keep true unsup
    | expect_none => s
    end
  else s.

Definition common_expect_state (s : CommonHeaderSummary) : ExpectState :=
  if expect_unsupported s then unsupported else if expect_continue s then continue_100 else expect_none.

Definition reset_http1_response_state (c : Conn) : Conn :=
  set_sse (sse_channel (att c)) false false (set_mapped None 0 (set_written 0 (set_has_response false c))).

(** The response text, queued; [install] of a text that is sent as it stands. *)
Definition queue_text (t : bytes) (c : Conn) : Conn := set_has_response true (set_own_response t c).

(** The options of the server and the application. *)
Record Ring := mkRing {
  alt_svc_header : bytes; max_body_size : Z; http_redirect_to_https : bool; https_redirect_hosts : list bytes;
  parser_limits : ParserLimits; upload_stream_queue_capacity : nat;
  dispatch : RequestView -> outcome;
  dispatch_context : RequestView -> option outcome;
  dispatch_upload : RequestView -> UploadBodyState -> option (outcome * UploadBodyState)
}.

(** What a step reads from outside: the date, and the deferred responses that are ready. *)
Record Env := mkEnv { http_date_now : bytes; ready : list (nat * Response) }.

Section ring.
Context (ring : Ring) (env : Env).

Definition format (r : Response) (close : bool) : bytes := format_response (http_date_now env) r (alt_svc_header ring) close.

Definition emit_rejection (raw : bytes) (reason : HttpRejectReason) (c : Conn) : Conn :=
  let r := make_rejection_response reason in
  set_request_bytes (length raw) (set_close_after_send true (queue_text (format r true) (note_reject reason c))).

Inductive ParseDispatchStatus := ParseIncomplete | ParseRejected | ParseOk (r : ParsedRequest).

Definition parse_or_reject_http1_request (raw : bytes) (c : Conn) : option (ParseDispatchStatus * Conn) :=
  '(s, r) ← parse_request raw (parser_limits ring) (mkRequest [] [] [] [] 0);
  let reject reason := Some (ParseRejected, emit_rejection raw reason c) in
  match s with
  | Incomplete => Some (ParseIncomplete, c)
  | UriTooLong => reject request_line_too_large
  | HeaderLineTooLarge => reject header_line_too_large
  | HeaderBlockTooLarge => reject header_block_too_large
  | TooManyHeaders => reject too_many_headers
  | BadRequest => reject malformed_request
  | StOk => Some (ParseOk r, c)
  end.

(** The reason the host headers are refused for. *)
Definition validate_http1_host_headers (version : bytes) (s : CommonHeaderSummary) : option HttpRejectReason :=
  if negb (bytes_eqb version (B "HTTP/1.1")) then None
  else if (host_count s =? 0)%nat then Some missing_host
  else if (1 <? host_count s)%nat then Some duplicate_host
  else None.

Definition maybe_make_https_redirect_response (raw : bytes) (s : CommonHeaderSummary) (path redirect_query : bytes) (c : Conn)
    : option Conn :=
  if negb (http_redirect_to_https ring) || Connection.is_tls c then None
  else
    let host := default [] (sum_host s) in
    let host_bare := host_without_port_or_ipv6_brackets host in
    let canonical_host := default [] (List.find (fun h => ascii_iequals h host_bare) (https_redirect_hosts ring)) in
    let finish r := Some (set_request_bytes (length raw) (set_close_after_send true (queue_text (format r true) c))) in
    match host, canonical_host with
    | [], _ | _, [] => finish (text (B "Bad Request") 400)
    | _, _ =>
        let redirect_target := (match path with [] => B "/" | _ => path end) ++ redirect_query in
        finish (redirect (B "https://" ++ canonical_host ++ redirect_target) 308)
    end.

Definition queue_expect_continue_response (c : Conn) : Conn :=
  set_close_after_send false (set_expect_continue_sent true (set_request_bytes 0 (set_written 0
    (queue_text (B "HTTP/1.1 100 Continue" ++ crlf ++ crlf) c)))).

(** The checks of the framing headers that both ways of reading a body share. *)
Definition framing_error (headers : HttpFields) (s : CommonHeaderSummary) : option HttpRejectReason :=
  if negb (content_length_count s =? 0)%nat && negb (transfer_encoding_count s =? 0)%nat
  then Some content_length_with_transfer_encoding
  else if (1 <? content_length_count s)%nat then Some duplicate_content_length
  else if (1 <? transfer_encoding_count s)%nat then Some invalid_transfer_encoding
  else if negb (transfer_encoding_count s =? 0)%nat && negb (has_valid_chunked_transfer_encoding headers)
  then Some unsupported_transfer_encoding
  else match common_expect_state s with unsupported => Some expectation_failed | _ => None end.

(** [parse_content_length_limited] with the rejection of its error. *)
Definition read_content_length (s : CommonHeaderSummary) : expected Z HttpRejectReason :=
  match parse_content_length_limited (default [] (sum_content_length s)) (max_body_size ring) with
  | Ok n => Ok n
  | Unexpected malformed => Unexpected malformed_content_length
  | Unexpected too_large => Unexpected request_body_too_large
  end.

Inductive BodyDispatchResult := BodyIncomplete | BodyRejected | BodyReady (body : bytes) (stream_bytes : Z).

(** The body has not arrived: ask for it if the client waits to be asked. *)
Definition await_body (s : CommonHeaderSummary) (c : Conn) : BodyDispatchResult * Conn :=
  (BodyIncomplete,
   match common_expect_state s with
   | continue_100 => if negb (expect_continue_sent (rcv c)) then queue_expect_continue_response c else set_close_after_send false c
   | _ => c
   end).

Definition resolve_http1_body_view (raw : bytes) (body_start : nat) (headers : HttpFields) (s : CommonHeaderSummary) (c : Conn)
    : option (BodyDispatchResult * Conn) :=
  let reject reason := Some (BodyRejected, emit_rejection raw reason c) in
  match framing_error headers s with
  | Some reason => reject reason
  | None =>
      if negb (content_length_count s =? 0)%nat then
        match read_content_length s with
        | Unexpected reason => reject reason
        | Ok content_length =>
            if Z.of_nat (length raw - body_start) <? content_length then Some (await_body s c)
            else Some (BodyReady (substr raw body_start (Z.to_nat content_length)) content_length, c)
        end
      else if negb (transfer_encoding_count s =? 0)%nat then
        '(rc, st) ← Chunked.decode_chunked_incremental raw body_start (max_body_size ring) (max_chunks (parser_limits ring))
                      (chunked_decode (rcv c));
        let c := set_chunked_decode st c in
        let reject reason := Some (BodyRejected, emit_rejection raw reason c) in
        if rc =? 0 then Some (await_body s c)
        else if rc =? -1 then reject invalid_chunk
        else if rc =? -2 then reject request_body_too_large
        else Some (BodyReady (Chunked.body st) rc, c)
      else Some (BodyReady [] 0, c)
  end.

Definition compact_chunked_request_buffer (body_start : nat) (c : Conn) : Conn :=
  let st := chunked_decode (rcv c) in
  if (Chunked.pos st <=? body_start)%nat then c
  else
    set_chunked_decode
      (Chunked.mkChunked (Chunked.active st) body_start body_start (Chunked.chunks_seen st) (Chunked.current_chunk_size st)
         (Chunked.remaining st) (Chunked.trailer_lines st) (Chunked.trailer_bytes st) (Chunked.body_bytes st) (Chunked.phase st)
         (Chunked.body st))
      (set_partial (Buffer.erase_view_range body_start (Chunked.pos st) (partial (rcv c))) c).

Definition apply_http1_keep_alive (version : bytes) (s : CommonHeaderSummary) (c : Conn) : Conn :=
  let keep_alive :=
    if connection_close s then false else if connection_keep_alive s then true else bytes_eqb version (B "HTTP/1.1") in
  set_close_after_send (negb keep_alive) c.

(** A handler's exception becomes an error page. *)
Definition caught (o : outcome) : Response :=
  match o with Returns r => r | Throws (Some what) => internal_error what | Throws None => internal_error [] end.

(** [invoke_http1_handler] with a body that has arrived. *)
Definition invoke_http1_handler (upload_req req : RequestView) (body : UploadBodyState) : Response :=
  match dispatch_upload ring upload_req body with
  | Some (o, _) => caught o
  | None => match dispatch_context ring req with Some o => caught o | None => caught (dispatch ring req) end
  end.

Definition is_deferred_response (r : Response) : bool := match body_kind r with deferred_kind => true | _ => false end.

Definition install_response_state (resp : Response) (req : RequestView) (c : Conn) : Conn :=
  match body_kind resp, body_payload resp with
  | deferred_kind, PDeferred d => set_has_response false (set_deferred (Some d) (head_only resp) true c)
  | ws_upgrade_kind, PWs _ h =>
      queue_text (format_response (http_date_now env) resp [] false) (set_close_after_send false (set_ws (Some h) (Some req) true c))
  | sse_kind, PSse ch =>
      let c := set_sse (Some ch) true (sse_headers_sent (att c)) (set_close_after_send true c) in
      queue_text (format_sse_headers (close_after_send (snd_ c))) c
  | mapped_file_kind, PMapped n =>
      let t := format resp (close_after_send (snd_ c)) in
      if head_only resp then queue_text t c
      else set_has_response false (set_mapped (Some n) (length t + n) (set_own_response t c))
  | streamed_file_kind, PStreamed n =>
      let t := format resp (close_after_send (snd_ c)) in
      if head_only resp then queue_text t c else set_streamed (Some n) false 0 (queue_text t c)
  | _, _ => queue_text (format resp (close_after_send (snd_ c))) c
  end.

Definition response_send_ready (c : Conn) : bool :=
  has_response (snd_ c) || match mapped_file (att c) with Some _ => true | None => false end
  || match streamed_file (att c) with Some _ => true | None => false end.

Definition start_response_send (c : Conn) : Conn :=
  if send_queued (snd_ c) || negb (response_send_ready c) then c else queue_send c.

(** [take_ready] of a deferred response: the response, and what stays ready. *)
Fixpoint take_ready (d : nat) (rs : list (nat * Response)) : option (Response * list (nat * Response)) :=
  match rs with
  | [] => None
  | (k, r) :: rest =>
      if (k =? d)%nat then Some (r, rest) else '(r', rest') ← take_ready d rest; Some (r', (k, r) :: rest')
  end.

(** A response that has become ready. A nested deferred response is waited for in
    turn, and installed at once when it is ready too; each round takes one away. *)
Fixpoint install_http1_deferred_response (fuel : nat) (rs : list (nat * Response)) (r : Response) (c : Conn) : option Conn :=
  match body_kind r, body_payload r with
  | deferred_kind, PDeferred nested =>
      let c := set_deferred (Some nested) (deferred_head_only (att c) || head_only r) true c in
      match take_ready nested rs with
      | None => Some c
      | Some (r', rs') => match fuel with O => None | S fuel => install_http1_deferred_response fuel rs' r' c end
      end
  | _, _ =>
      let c := match upload_body (up c) with
               | Some _ => set_close_after_send true (drop_upload c)
               | None => c
               end in
      let r := if deferred_head_only (att c) then set_head_only r else r in
      let c := set_deferred None false false c in
      let c := if continue_final_close (snd_ c) then set_continue_final_close false (set_close_after_send true c) else c in
      let t := format r (close_after_send (snd_ c)) in
      let c :=
        match body_kind r, body_payload r with
        | mapped_file_kind, PMapped n =>
            if head_only r then queue_text t c
            else set_has_response false (set_mapped (Some n) (length t + n) (set_own_response t c))
        | streamed_file_kind, PStreamed n => if head_only r then queue_text t c else set_streamed (Some n) false 0 (queue_text t c)
        | _, _ => queue_text t c
        end in
      Some (start_response_send (set_written 0 c))
  end.

(** The response of the connection's deferred response, if it is ready. *)
Definition install_if_ready (c : Conn) : option (option Conn) :=
  match is_deferred (att c), deferred_response (att c) with
  | true, Some d =>
      match take_ready d (ready env) with
      | Some (r, rs) => c' ← install_http1_deferred_response (length rs) rs r c; Some (Some c')
      | None => Some None
      end
  | _, _ => Some None
  end.

(** *** Bodies handed on as they arrive *)

Definition fail_http1_upload (error : UploadError) (c : Conn) : Conn :=
  let response := upload_error_response (kind error) (detail error) in
  let c := set_continue_final_close false (set_deferred None false false c) in
  let c := set_close_after_send true (queue_text (format response true) c) in
  emit (FedError (kind error)) (drop_upload (set_expect_continue_sent false (set_request_bytes 0 c))).

(** Whether feeding goes on, and the connection. *)
Definition push_http1_upload_chunk (u : UploadBodyState) (chunk : bytes) (c : Conn) : bool * Conn :=
  match chunk with
  | [] => (true, c)
  | _ =>
      match push chunk u with
      | (Unexpected e, _, _) => (false, fail_http1_upload e c)
      | (Ok _, _, u') => (true, emit (Fed chunk) (set_upload_body (Some u') c))
      end
  end.

Definition finish_http1_upload (c : Conn) : option Conn :=
  let c := emit FedEnd (set_expect_continue_sent false (set_request_bytes 0 (drop_upload c))) in
  r ← install_if_ready c; Some (default c r).

(** The loop takes all that is missing or all that is there, so it runs once. *)
Definition feed_http1_content_length_upload (u : UploadBodyState) (total : Z) (c : Conn) : option Conn :=
  let received := upload_received (up c) in
  let b := partial (rcv c) in
  let '(going, c) :=
    if (received <? total) && negb (Buffer.empty b) then
      let n := Z.to_nat (Z.min (total - received) (Z.of_nat (Buffer.size b))) in
      push_http1_upload_chunk u (take n (Buffer.view b))
        (set_upload_received (received + Z.of_nat n) (set_partial (Buffer.consume n b) c))
    else (true, c) in
  if going then (if upload_received (up c) =? total then finish_http1_upload c else Some c) else Some c.

Definition upload_error (k : UploadErrorKind) (what : bytes) (c : Conn) : Conn := fail_http1_upload (mkUploadError k what) c.

(** One byte of a line: [None] when the line is too long. *)
Definition consume_http1_upload_line_char (ch : byte) (c : Conn) : option Conn :=
  let c := set_partial (Buffer.consume 1 (partial (rcv c))) c in
  if (Chunked.kMaxChunkSizeLineBytes <=? length (upload_line (up c)))%nat then None
  else Some (set_upload_line (upload_line (up c) ++ [ch]) c).

Definition ends_with_crlf (line : bytes) : bool := (2 <=? length line)%nat && bytes_eqb (drop (length line - 2) line) crlf.

(** One round of the loop: [inl] goes on, [inr] returns. *)
Definition feed_chunk_step (u : UploadBodyState) (ch : byte) (c : Conn) : option (Conn + Conn) :=
  let stop k what c := Some (inr (upload_error k what c)) in
  match upload_chunk_phase (up c) with
  | size_line =>
      match consume_http1_upload_line_char ch c with
      | None => stop malformed_body (B "chunk line too large") (set_partial (Buffer.consume 1 (partial (rcv c))) c)
      | Some c =>
          if negb (ch =b x0a) then Some (inl c)
          else
            let line := upload_line (up c) in
            if negb (ends_with_crlf line) then stop malformed_body (B "chunk size line missing CRLF") c
            else
              match Chunked.parse_chunk_size_line (take (length line - 2) line) with
              | None => stop malformed_body (B "invalid chunk size") c
              | Some chunk_size =>
                  let c := set_upload_line [] c in
                  let count := S (upload_chunk_count (up c)) in
                  let c := set_upload_chunk (upload_chunk_remaining (up c)) count (upload_chunk_phase (up c)) c in
                  if (max_chunks (parser_limits ring) <? count)%nat then stop malformed_body (B "too many upload chunks") c
                  else if chunk_size =? 0 then Some (inl (set_upload_chunk (upload_chunk_remaining (up c)) count trailer_line c))
                  else if (max_body_size ring <? chunk_size) || (max_body_size ring - chunk_size <? upload_received (up c))
                  then stop body_too_large (B "upload exceeds body limit") c
                  else Some (inl (set_upload_chunk chunk_size count data c))
              end
      end
  | data =>
      let b := partial (rcv c) in
      let n := Z.to_nat (Z.min (Z.of_nat (Buffer.size b)) (upload_chunk_remaining (up c))) in
      let remaining := upload_chunk_remaining (up c) - Z.of_nat n in
      let c := set_upload_received (upload_received (up c) + Z.of_nat n)
                 (set_upload_chunk remaining (upload_chunk_count (up c)) data (set_partial (Buffer.consume n b) c)) in
      let '(going, c) := push_http1_upload_chunk u (take n (Buffer.view b)) c in
      if negb going then Some (inr c)
      else Some (inl (if remaining =? 0 then set_upload_chunk remaining (upload_chunk_count (up c)) data_cr c else c))
  | data_cr =>
      if negb (ch =b x0d) then stop malformed_body (B "chunk data missing CRLF") c
      else Some (inl (set_upload_chunk (upload_chunk_remaining (up c)) (upload_chunk_count (up c)) data_lf
                        (set_partial (Buffer.consume 1 (partial (rcv c))) c)))
  | data_lf =>
      if negb (ch =b x0a) then stop malformed_body (B "chunk data missing LF") c
      else Some (inl (set_upload_chunk (upload_chunk_remaining (up c)) (upload_chunk_count (up c)) size_line
                        (set_partial (Buffer.consume 1 (partial (rcv c))) c)))
  | trailer_line =>
      match consume_http1_upload_line_char ch c with
      | None => stop malformed_body (B "chunk line too large") (set_partial (Buffer.consume 1 (partial (rcv c))) c)
      | Some c =>
          if negb (ch =b x0a) then Some (inl c)
          else
            let line := upload_line (up c) in
            if negb (ends_with_crlf line) then stop malformed_body (B "chunk trailer missing CRLF") c
            else
              match Chunked.accept_chunk_trailer_line (length line) (upload_trailer_lines (up c)) (upload_trailer_bytes (up c)) with
              | None => stop malformed_body (B "chunk trailer too large") c
              | Some (lines, nbytes) =>
                  let c := set_upload_line [] (set_upload_trailer lines nbytes c) in
                  if bytes_eqb line crlf then c ← finish_http1_upload c; Some (inr c) else Some (inl c)
              end
      end
  | upload_done => Some (inr c)
  end.

Fixpoint feed_chunk_loop (fuel : nat) (c : Conn) : option Conn :=
  match upload_body (up c), Buffer.view (partial (rcv c)) with
  | Some u, ch :: _ =>
      match fuel with
      | O => None
      | S fuel =>
          r ← feed_chunk_step u ch c;
          match r with inl c => feed_chunk_loop fuel c | inr c => Some c end
      end
  | _, _ => Some c
  end.

(** Every round takes a byte at least, or is the last. *)
Definition feed_http1_chunked_upload (c : Conn) : option Conn :=
  feed_chunk_loop (S (Buffer.size (partial (rcv c)))) c.

Definition feed_http1_upload (c : Conn) : option Conn :=
  match upload_body (up c) with
  | None => Some c
  | Some u =>
      if consumer_abandoned_ u then
        Some (on_up (fun p => mkUploading None None (upload_received p) (upload_chunk_remaining p) (upload_chunk_count p)
                                (upload_trailer_lines p) (upload_trailer_bytes p) (upload_line p) (upload_chunk_phase p))
                (set_partial Buffer.clear (set_close_after_send true c)))
      else
        match upload_content_length (up c) with
        | Some total => feed_http1_content_length_upload u total c
        | None => feed_http1_chunked_upload c
        end
  end.

(** *** Dispatch *)

(** The parts of a request whose body is not looked at. *)
Definition no_parts : RequestParts := mkParts (mkFields [] false) (mkFields [] false) (mkFields [] false) [].

Definition request_view (r : ParsedRequest) (path : bytes) (headers : HttpFields) (parts : RequestParts) (body : bytes) (c : Conn)
    : RequestView :=
  mkRequestView (Http1.Head.method r) path (Http1.Head.version r) (Connection.remote_addr c) (Connection.is_tls c)
    (mkFields [] false) headers (p_query parts) (p_form parts) (p_cookies parts) (p_files parts) body.

(** The length the body is announced with: [None] for a chunked one. *)
Definition announced_length (s : CommonHeaderSummary) : expected (option Z) HttpRejectReason :=
  if negb (content_length_count s =? 0)%nat then
    match read_content_length s with Ok n => Ok (Some n) | Unexpected reason => Unexpected reason end
  else if (transfer_encoding_count s =? 0)%nat then Ok (Some 0) else Ok None.

Definition start_upload (u : UploadBodyState) (content_length : option Z) : Conn -> Conn :=
  on_up (fun _ => mkUploading (Some u) content_length 0 0 0 0 0 [] size_line).

(** A context route has taken the body: its response is installed, and the body is
    fed to it as it arrives. *)
Definition upload_dispatched (resp : Response) (u : UploadBodyState) (content_length : option Z) (s : CommonHeaderSummary)
    (body_start : nat) (req : RequestView) (stored : bool) (c : Conn) : option Conn :=
  let c := if stored then c else set_partial (snd (Buffer.cut_prefix body_start (partial (rcv c)))) c in
  let c := start_upload u content_length (set_request_bytes 0 c) in
  let final := negb (is_deferred_response resp) in
  let c := if final then set_upload_body (Some (snd (abandon_consumer u))) c else c in
  let send_continue := match common_expect_state s with continue_100 => negb final && negb (expect_continue_sent (rcv c)) | _ => false end in
  let c := install_response_state resp req c in
  r ← install_if_ready c;
  match r with
  | Some c => Some c
  | None =>
      if final then
        Some (start_response_send (drop_upload (set_partial Buffer.clear (set_close_after_send true c))))
      else
        let c := if send_continue then
                   start_response_send (set_close_after_send false (queue_expect_continue_response
                     (set_continue_final_close (close_after_send (snd_ c)) c)))
                 else c in
        feed_http1_upload c
  end.

(** [Some] result: the request was handled here; otherwise the query and the
    cookies that were read into the arguments. *)
Definition dispatch_http1_upload_request (raw : bytes) (r : ParsedRequest) (target : PathQueryView) (path : bytes)
    (headers : HttpFields) (query cookies : HttpFields) (s : CommonHeaderSummary) (body_start : nat) (stored : bool) (c : Conn)
    : option (Conn + HttpFields * HttpFields) :=
  let reject reason := Some (inl (emit_rejection raw reason c)) in
  match framing_error headers s with
  | Some reason => reject reason
  | None =>
      match announced_length s with
      | Unexpected reason => reject reason
      | Ok content_length =>
          parts ← populate_request_parts target headers [] (mkParts query (mkFields [] false) cookies []);
          let upload_req := request_view r path headers (mkParts (p_query parts) (p_form parts) (p_cookies parts) []) [] c in
          let u := make content_length (upload_stream_queue_capacity ring) in
          match dispatch_upload ring upload_req u with
          | None => Some (inr (p_query parts, p_cookies parts))
          | Some (o, u) =>
              c ← upload_dispatched (caught o) u content_length s body_start upload_req stored (emit (Called upload_req) c); Some (inl c)
          end
      end
  end.

(** The request is complete and stored: the application is called. *)
Definition call_application (r : ParsedRequest) (path : bytes) (headers : HttpFields) (parts : RequestParts) (body : bytes)
    (s : CommonHeaderSummary) (c : Conn) : Conn :=
  let req := request_view r path headers parts body c in
  let upload_req := request_view r path headers (mkParts (p_query parts) (mkFields [] false) (p_cookies parts) []) [] c in
  let u := make (match sum_content_length s with Some _ => Some (Z.of_nat (length body)) | None => None end)
             (upload_stream_queue_capacity ring) in
  let u := match body with [] => u | _ => snd (push body u) end in
  let u := snd (finish u) in
  let seen := match dispatch_upload ring upload_req u with Some _ => upload_req | None => req end in
  install_response_state (invoke_http1_handler upload_req req u) req (emit (Called seen) c).

(** [dispatch_request]. [again] is the call on the stored request, which the call
    on the receive buffer ends with; [stored] tells them apart. *)
Definition dispatch_request_with (again : Conn -> bytes -> option Conn) (stored : bool) (c : Conn) (raw : bytes) : option Conn :=
  '(status, c) ← parse_or_reject_http1_request raw (reset_http1_response_state c);
  match status with
  | ParseIncomplete | ParseRejected => Some c
  | ParseOk r =>
      let target := split_path_query (Http1.Head.target r) in
      let path := origin_form_path_from_target (Target.path target) in
      let headers := mkFields (Http1.Head.headers r) true in
      let s := fold_left note_common_header (Http1.Head.headers r) no_headers in
      match validate_http1_host_headers (Http1.Head.version r) s with
      | Some reason => Some (emit_rejection raw reason c)
      | None =>
          match maybe_make_https_redirect_response raw s path (query_suffix target) c with
          | Some c => Some c
          | None =>
              let body_start := (header_end_offset r + 4)%nat in
              let c := apply_http1_keep_alive (Http1.Head.version r) s c in
              upload ← dispatch_http1_upload_request raw r target path headers (mkFields [] false) (mkFields [] false) s
                         body_start stored c;
              match upload with
              | inl c => Some c
              | inr (query, cookies) =>
                  '(result, c) ← resolve_http1_body_view raw body_start headers s c;
                  match result with
                  | BodyRejected => Some c
                  | BodyIncomplete =>
                      Some (if negb (transfer_encoding_count s =? 0)%nat then compact_chunked_request_buffer body_start c else c)
                  | BodyReady body stream_bytes =>
                      let c := set_expect_continue_sent false c in
                      parts ← populate_request_parts target headers body (mkParts query (mkFields [] false) cookies []);
                      let c := set_request_bytes (header_end_offset r + 4 + Z.to_nat stream_bytes) c in
                      if negb stored then
                        let '(storage, b) := Buffer.cut_prefix (request_bytes (rcv c)) (partial (rcv c)) in
                        c ← again (set_partial b c) storage;
                        Some (set_request_bytes 0 (set_chunked_decode Chunked.fresh (set_expect_continue_sent false c)))
                      else Some (call_application r path headers parts body s c)
                  end
              end
          end
      end
  end.

Definition dispatch_stored (c : Conn) (raw : bytes) : option Conn := dispatch_request_with (fun _ _ => None) true c raw.
Definition dispatch_request (c : Conn) (raw : bytes) : option Conn := dispatch_request_with dispatch_stored false c raw.

(** *** Completions *)

Definition size_max : Z := 2 ^ 64 - 1.
Definition bounded_add (a b : Z) : Z := if size_max - b <? a then size_max else a + b.
Definition bounded_mul (a b : Z) : Z := if negb (a =? 0) && (size_max / a <? b) then size_max else a * b.

Definition raw_receive_cap : Z :=
  let cap := max_body_size ring in
  let cap := bounded_add cap (Z.of_nat (max_header_block_size (parser_limits ring))) in
  let cap := bounded_add cap (Z.of_nat (max_request_line_size (parser_limits ring))) in
  let cap := bounded_add cap (bounded_mul (Z.of_nat (max_chunks (parser_limits ring))) (Z.of_nat Chunked.kMaxChunkSizeLineBytes + 4)) in
  let cap := bounded_add cap (Z.of_nat Chunked.kMaxChunkTrailerBytes) in
  bounded_add cap 6.

Definition oversized_text : bytes :=
  B "HTTP/1.1 413 Content Too Large" ++ crlf ++ B "Content-Type: application/problem+json" ++ crlf
  ++ B "Content-Length: 78" ++ crlf ++ B "Connection: close" ++ crlf ++ crlf
  ++ B "{" ++ [x22] ++ B "code" ++ [x22; x3a; x22] ++ B "body_too_large" ++ [x22; x2c; x22] ++ B "detail" ++ [x22; x3a; x22]
  ++ B "request body exceeds the configured limit" ++ [x22] ++ B "}".

Definition reject_oversized_receive_buffer (c : Conn) : Conn :=
  start_response_send (set_close_after_send true (queue_text oversized_text (note_reject request_body_too_large c))).

(** [phase1_copy_recv_bufs] for one read. *)
Definition phase1_copy (payload : bytes) (c : Conn) : Conn :=
  if close_after_send (snd_ c) && negb (uploads c) then c
  else
    let c := set_partial (Buffer.append payload (partial (rcv c))) c in
    if send_queued (snd_ c) then c
    else if raw_receive_cap <? Z.of_nat (Buffer.size (partial (rcv c))) then reject_oversized_receive_buffer c
    else c.

Definition idle (c : Conn) : bool :=
  negb (has_response (snd_ c)) && (request_bytes (rcv c) =? 0)%nat && negb (is_deferred (att c)) && negb (is_sse (att c))
  && negb (is_ws (att c)).

(** [phase2_build_responses]. *)
Definition phase2_build (c : Conn) : option Conn :=
  if uploads c then feed_http1_upload c
  else if idle c then dispatch_request c (Buffer.view (partial (rcv c)))
  else Some c.

(** [phase3_dispatch]: what is ready is sent; the other branches arm a wait. *)
Definition phase3_dispatch (c : Conn) : Conn := if response_send_ready c then start_response_send c else c.

(** A read of [payload], which is not empty; a read of a retired generation is
    dropped. *)
Definition received (payload : bytes) (c : Conn) : option Conn :=
  if retired c then Some c
  else c ← phase2_build (phase1_copy payload c); Some (phase3_dispatch c).

(** A read that returned nothing or an error: [handle_recv_cqe] drops it for a
    retired generation and while the connection is to close once a response is sent;
    otherwise [phase3_dispatch] tells the upload and closes. *)
Definition peer_closed (c : Conn) : Conn :=
  if retired c || close_after_send (snd_ c) then c
  else
    let c := match upload_body (up c) with
             | Some u => set_upload_body (Some (snd (fail (mkUploadError disconnected
                           (B "HTTP/1 upload connection closed before request body completed")) u))) c
             | None => c
             end in
    if send_queued (snd_ c) then c else queue_close c.

(** [handle_http_response_send_complete] *)
Definition handle_http_response_send_complete (c : Conn) : option Conn :=
  if expect_continue_sent (rcv c) && uploads c then Some (set_request_bytes 0 c)
  else if close_after_send (snd_ c) then Some (queue_close (set_close_after_send false c))
  else
    let n := request_bytes (rcv c) in
    let c := set_partial (Buffer.consume n (partial (rcv c))) c in
    let c := if (0 <? n)%nat then set_chunked_decode Chunked.fresh (set_expect_continue_sent false c) else c in
    let c := set_request_bytes 0 c in
    if Buffer.empty (partial (rcv c)) then Some c
    else
      c ← dispatch_request c (Buffer.view (partial (rcv c)));
      Some (if response_send_ready c then start_response_send c else c).

(** The stream of events: what was drained from the channel, and whether it is closed. *)
Definition handle_sse_send_complete (drained : bytes) (channel_closed : bool) (c : Conn) : Conn :=
  let c := set_sse (sse_channel (att c)) true true c in
  match drained with
  | _ :: _ => start_response_send (set_written 0 (queue_text (format_http_chunk drained) c))
  | [] =>
      if channel_closed then
        start_response_send (set_close_after_send true (set_sse (sse_channel (att c)) false true
          (set_written 0 (queue_text (B "0" ++ crlf ++ crlf) c))))
      else c
  end.

(** [handle_sse_poll]: the channel has signalled. *)
Definition handle_sse_poll (drained : bytes) (channel_closed : bool) (c : Conn) : Conn :=
  match drained with
  | _ :: _ => start_response_send (set_written 0 (queue_text (format_http_chunk drained) c))
  | [] =>
      if channel_closed then
        start_response_send (set_close_after_send true (set_sse (sse_channel (att c)) false (sse_headers_sent (att c))
          (set_written 0 (queue_text (B "0" ++ crlf ++ crlf) c))))
      else c
  end.

(** [handoff_plain_ws]: the descriptor, the request and the bytes behind it go to the
    handler. *)
Definition handoff_plain_ws (c : Conn) : Conn :=
  let b := Buffer.consume (request_bytes (rcv c)) (partial (rcv c)) in
  let c := set_send_queued false (set_ws None None false (set_partial Buffer.clear (set_request_bytes 0 c))) in
  emit (HandedOver (Buffer.view b))
    (mkConn (snd_ c) (rcv c) (att c) (up c) (is_tls c) (remote_addr c) (closing c) true (rejections c) (effects c)).

Definition handle_send_complete (drained : bytes) (channel_closed : bool) (c : Conn) : option Conn :=
  if is_sse (att c) then Some (handle_sse_send_complete drained channel_closed c)
  else if is_ws (att c) && negb (close_after_send (snd_ c)) then
    Some (handoff_plain_ws c)
  else handle_http_response_send_complete c.

Definition finish_plain_send (drained : bytes) (channel_closed : bool) (c : Conn) : option Conn :=
  handle_send_complete drained channel_closed
    (set_own_response [] (set_has_response false (set_send_queued false (set_written 0 c)))).

Definition finish_mapped_send (drained : bytes) (channel_closed : bool) (c : Conn) : option Conn :=
  handle_send_complete drained channel_closed (set_own_response [] (set_send_queued false (set_written 0 (set_mapped None 0 c)))).

Definition fail_send (c : Conn) : Conn := 
  queue_close (set_streamed None (streamed_headers_sent (att c)) (streamed_delivered (att c))
                 (set_mapped None (mapped_total (att c)) (set_send_queued false c))).

(** A write of [n] bytes has completed, for a response of text or a mapped file;
    what is left is submitted again. *)
Definition sent (n : nat) (drained : bytes) (channel_closed : bool) (c : Conn) : option Conn :=
  match mapped_file (att c) with
  | Some _ =>
      let text_part := take n (in_flight (snd_ c)) in
      let c := emit (Wrote text_part) c in
      let c := if (length text_part <? n)%nat then emit (WroteFile (n - length text_part)) c else c in
      let c := set_written (written (snd_ c) + n) c in
      if (written (snd_ c) <? mapped_total (att c))%nat then Some (queue_send c) else finish_mapped_send drained channel_closed c
  | None =>
      let c := emit (Wrote (take n (in_flight (snd_ c)))) c in
      if match streamed_file (att c) with Some _ => true | None => false end then
        let c := set_written (written (snd_ c) + n) c in
        if (written (snd_ c) <? length (own_response (snd_ c)))%nat then Some (queue_send c)
        else Some (set_streamed (streamed_file (att c)) true (streamed_delivered (att c)) c)
      else if negb (has_response (snd_ c)) then Some (set_send_queued false c)
      else
        let c := set_written (written (snd_ c) + n) c in
        if (written (snd_ c) <? length (own_response (snd_ c)))%nat then Some (queue_send c)
        else finish_plain_send drained channel_closed c
  end.

(** [on_streamed_splice_done]: [n] bytes of the file went out, or the splice failed. *)
Definition spliced (r : option nat) (drained : bytes) (channel_closed : bool) (c : Conn) : option Conn :=
  match r, streamed_file (att c) with
  | Some n, Some send_size =>
      let delivered := (streamed_delivered (att c) + n)%nat in
      let c := emit (WroteFile n) (set_streamed (Some send_size) (streamed_headers_sent (att c)) delivered c) in
      if (delivered <? send_size)%nat then Some c
      else finish_plain_send drained channel_closed (set_streamed None (streamed_headers_sent (att c)) delivered c)
  | _, _ => Some (queue_close (set_streamed None (streamed_headers_sent (att c)) (streamed_delivered (att c)) c))
  end.

(** A write that failed. *)
Definition send_failed (c : Conn) : Conn :=
  match mapped_file (att c), streamed_file (att c) with
  | None, None => queue_close (set_send_queued false c)
  | _, _ => fail_send c
  end.

(** [handle_deferred_poll]: the deferred response has signalled. *)
Definition deferred_wakes (c : Conn) : option Conn := r ← install_if_ready c; Some (default c r).

End ring.

End Serve.
