(* ===== verification/HttpServer.v ===== *)
(** * The HTTP/1 server serves the requests it is sent

    Theorems on the connection of [HttpConn]. [BufferOk]: the receive buffer is a queue
    of bytes. [ChunkWait]: the chunked decoder may stop and go on as bytes arrive.
    [PartsTotal]: the parts of a request are always read. [Client]: a client that sends
    acceptable requests, the completions that may happen to its connection, and the
    invariant that relates the two: each of the requests reaches the application once
    and in order and exactly its answers are written, and no completion gets the
    connection stuck ([good_requests_served]; [HttpAuthentic] states it for requests
    described by what their headers say). [ServerProps]: a server, two requests and a
    run of the connection, for the witnesses. *)

From Stdlib Require Import ZArith Lia Strings.Byte String.
From stdpp Require Import base tactics option numbers list.
From S2P Require Import Prelude.
From S2P Require Import Codec.
From S2P Require Import Http1.
From S2P Require Import HttpBody.
From S2P Require Import HttpTypes.
From S2P Require Import HttpMessage.
From S2P Require Import HttpServe.
From S2P Require Import HttpUpload.
From S2P Require Import Router.
From S2P Require Import HttpConn.

(** ** The receive buffer is a queue of bytes *)

Module BufferOk.
Import Buffer.

Definition wf (b : PartialBuf) : Prop := (pos b <= length (buf b))%nat.

Lemma wf_clear : wf clear.
Proof. unfold wf. done. Qed.

Lemma view_size b : length (view b) = size b.
Proof. apply length_drop. Qed.

Lemma empty_view b : empty b = true <-> view b = [].
Proof.
  unfold empty, view. rewrite Nat.leb_le. split; [by apply drop_ge|].
  intros H%(f_equal length). rewrite length_drop in H. simpl in H. lia.
Qed.

Lemma empty_false b : view b <> [] -> empty b = false.
Proof. intros H. destruct (empty b) eqn:E; [|done]. by apply empty_view in E. Qed.

Lemma append_ok s b : wf b -> wf (append s b) /\ view (append s b) = view b ++ s.
Proof.
  unfold wf, view. cbn. intros H. split; [rewrite length_app; lia|]. by rewrite drop_app_le.
Qed.

Lemma buffer_consume n b : wf (consume n b) /\ view (consume n b) = drop n (view b).
Proof.
  unfold consume, view. rewrite drop_drop. destruct (Nat.leb_spec (length (buf b)) (pos b + n)) as [H|H].
  - split; [apply wf_clear|]. by rewrite (drop_ge (buf b)) by done.
  - split; [unfold wf; cbn; lia|done].
Qed.

Lemma buffer_erase first last b : wf b -> (first <= last)%nat -> (last <= size b)%nat ->
  wf (erase_view_range first last b) /\ view (erase_view_range first last b) = take first (view b) ++ drop last (view b).
Proof.
  unfold wf, erase_view_range, size. intros Hw Hle Hsz. rewrite !Nat.min_l by lia.
  destruct (Nat.leb_spec last first) as [H|H].
  - assert (last = first) as -> by lia. by rewrite take_drop.
  - unfold view. cbn [buf pos]. split; [rewrite length_app, length_take, length_drop; lia|].
    rewrite drop_app_le by (rewrite length_take; lia). rewrite drop_drop. f_equal.
    by rewrite take_drop_commute.
Qed.

Lemma cut_prefix_ok n b : wf b ->
  fst (cut_prefix n b) = take n (view b) /\ wf (snd (cut_prefix n b)) /\ view (snd (cut_prefix n b)) = drop n (view b).
Proof.
  unfold wf, cut_prefix, size, view. intros Hw. destruct (Nat.eqb_spec (pos b) 0) as [E|E].
  - rewrite E, drop_0, Nat.sub_0_r. destruct (Nat.ltb_spec (Nat.min n (length (buf b))) (length (buf b))) as [H|H].
    + rewrite Nat.min_l by lia. cbn. rewrite drop_0. split_and!; [done|lia|done].
    + cbn. rewrite take_ge, drop_ge by lia. split_and!; [done|lia|done].
  - cbn [fst snd pos buf]. destruct (Nat.ltb_spec (Nat.min n (length (buf b) - pos b)) (length (buf b) - pos b)) as [H|H].
    + rewrite Nat.min_l by lia. rewrite drop_0. split_and!; [done|lia|done].
    + rewrite (drop_ge (drop (pos b) (buf b))), !take_ge by (rewrite ?length_drop; lia). split_and!; [done|simpl; lia|done].
Qed.

End BufferOk.

(** ** Chunked bodies of which a part has arrived *)

Module ChunkWait.
Import Http1.Head Chunked.

(** The chunked coding with lines that leave room for a partial line end. *)
Inductive short_trailer : nat -> nat -> bytes -> Prop :=
| st_end : short_trailer 0 0 crlf
| st_line l k s t :
    plain_line l -> l <> [] -> (length l + 3 <= kMaxChunkTrailerBytes)%nat -> short_trailer k s t ->
    short_trailer (S k) (length l + 2 + s) (l ++ crlf ++ t).

Inductive short_chunks : nat -> nat -> nat -> bytes -> bytes -> Prop :=
| sc_last line k s t :
    plain_line line -> (length line < kMaxChunkSizeLineBytes)%nat -> chunk_size_line line 0 ->
    short_trailer k s t -> short_chunks 1 k s (line ++ crlf ++ t) []
| sc_chunk line data n k s t b :
    plain_line line -> (length line < kMaxChunkSizeLineBytes)%nat ->
    chunk_size_line line (Z.of_nat (length data)) -> data <> [] ->
    short_chunks n k s t b -> short_chunks (S n) k s (line ++ crlf ++ data ++ crlf ++ t) (data ++ b).

Lemma short_trailer_part k s t : short_trailer k s t -> trailer_part k s t.
Proof. induction 1; by constructor. Qed.

Lemma short_chunked n k s t b : short_chunks n k s t b -> chunked_text n k s t b.
Proof. induction 1; constructor; try done. by apply short_trailer_part. Qed.

Section wait.
Context (mb : Z) (mc : nat).

(** What is left to read in each phase, and what is left of the body. *)
Definition left (st : ChunkedDecodeState) (text b : bytes) : Prop :=
  match phase st with
  | SizeLine => exists n k s, short_chunks n k s text b /\ (chunks_seen st + n <= mc)%nat /\
      body_bytes st + Z.of_nat (length b) <= mb /\
      (trailer_lines st + k <= kMaxChunkTrailerLines)%nat /\ (trailer_bytes st + s <= kMaxChunkTrailerBytes)%nat
  | Data => exists data t b' n k s, text = data ++ crlf ++ t /\ b = data ++ b' /\ Z.of_nat (length data) = remaining st /\
      short_chunks n k s t b' /\ (chunks_seen st + n <= mc)%nat /\ body_bytes st + Z.of_nat (length b) <= mb /\
      (trailer_lines st + k <= kMaxChunkTrailerLines)%nat /\ (trailer_bytes st + s <= kMaxChunkTrailerBytes)%nat
  | DataCrlf => exists t n k s, text = crlf ++ t /\ short_chunks n k s t b /\ (chunks_seen st + n <= mc)%nat /\
      body_bytes st + Z.of_nat (length b) <= mb /\
      (trailer_lines st + k <= kMaxChunkTrailerLines)%nat /\ (trailer_bytes st + s <= kMaxChunkTrailerBytes)%nat
  | Trailers => b = [] /\ exists k s, short_trailer k s text /\
      (trailer_lines st + k <= kMaxChunkTrailerLines)%nat /\ (trailer_bytes st + s <= kMaxChunkTrailerBytes)%nat
  | Complete => text = [] /\ b = []
  end.

Lemma left_shape st text b : left st text b -> shape mb mc st text b.
Proof.
  unfold left, shape. destruct (phase st).
  - intros (n & k & s & H & ?). exists n, k, s. split; [by apply short_chunked|done].
  - intros (d & t & b' & n & k & s & ? & ? & ? & H & ?). exists d, t, b', n, k, s. apply short_chunked in H. tauto.
  - intros (t & n & k & s & ? & H & ?). exists t, n, k, s. apply short_chunked in H. tauto.
  - intros (? & k & s & H & ?). split; [done|]. exists k, s. split; [by apply short_trailer_part|done].
  - done.
Qed.

(** A line whose end has not arrived is not found. *)
Lemma line_end_missing raw p l t m :
  plain_line l -> drop p raw ++ m = l ++ crlf ++ t -> (length (drop p raw) < length l + 2)%nat -> sv_find_sub crlf raw p = None.
Proof.
  intros Hl Hd Hlt. destruct (sv_find_sub crlf raw p) as [e|] eqn:E; [exfalso|done].
  apply find_plain_line in E as (Hpl & Hle & He & Hdp & Hlen). rewrite Hdp, <- !app_assoc in Hd.
  pose proof (plain_line_find _ (drop (e + 2) raw ++ m) Hpl) as H1. rewrite Hd, plain_line_find in H1 by done.
  injection H1 as H1. rewrite Hdp, !length_app in Hlt. cbn [length crlf] in Hlt. lia.
Qed.

(** A line that has arrived. *)
Lemma line_arrived (q l t m : bytes) :
  q ++ m = l ++ crlf ++ t -> (length l + 2 <= length q)%nat -> exists q', q = l ++ crlf ++ q' /\ q' ++ m = t.
Proof.
  intros H Hle. exists (drop (length l + 2) q). assert (Hq : take (length l + 2) q = l ++ crlf).
  { rewrite <- (take_app_le q m), H, app_assoc by done. rewrite take_app_length'; [done|]. rewrite length_app. done. }
  split.
  - rewrite app_assoc, <- Hq. by rewrite take_drop.
  - rewrite <- (take_drop (length l + 2) q), Hq, <- !app_assoc in H. by apply app_inv_head in H as H%app_inv_head.
Qed.

Definition waits (raw m : bytes) (st st1 : ChunkedDecodeState) (b : bytes) : Prop :=
  exists text1 b1, left st1 text1 b1 /\ text1 = drop (pos st1) raw ++ m /\ body st1 ++ b1 = body st ++ b.

Definition steps_or_waits (raw m : bytes) (st : ChunkedDecodeState) (b : bytes) : Prop :=
  exists st1, (step raw mb mc st = Some (inl st1) \/ step raw mb mc st = Some (inr (0, st1))) /\ waits raw m st st1 b.

Lemma line_waits raw m st line t :
  st_ok mb raw st -> phase st = SizeLine \/ phase st = Trailers -> plain_line line ->
  drop (pos st) raw ++ m = line ++ crlf ++ t -> (length (drop (pos st) raw) < length line + 2)%nat ->
  (length line < match phase st with SizeLine => kMaxChunkSizeLineBytes | _ => kMaxChunkTrailerBytes - 2 end)%nat ->
  step raw mb mc st = Some (inr (0, st)).
Proof.
  intros Hok Hp Hpl Ht Hlt Hlen. destruct (ok_start _ _ _ Hok) as [Hst1 Hst2]. rewrite length_drop in Hlt.
  unfold step. rewrite (line_end_missing raw (pos st) line t m) by (done || by rewrite length_drop).
  rewrite available_small by (done || apply Hok). pose proof (ok_size _ _ _ Hok).
  destruct Hp as [Hp|Hp]; rewrite Hp in *.
  - destruct (Z.ltb_spec (Z.of_nat kMaxChunkSizeLineBytes) (Z.of_nat (length raw) - Z.of_nat (pos st))); [lia|done].
  - rewrite u64_small by lia.
    destruct (Z.ltb_spec (Z.of_nat kMaxChunkTrailerBytes) (Z.of_nat (length raw) - Z.of_nat (pos st) + 2)); [|done].
    unfold kMaxChunkTrailerBytes in *. lia.
Qed.

Lemma wait_size_line raw m st text b :
  st_ok mb raw st -> phase st = SizeLine -> left st text b -> text = drop (pos st) raw ++ m -> steps_or_waits raw m st b.
Proof.
  intros Hok Hp Hl Ht. pose proof Hl as Hleft. unfold left in Hl. rewrite Hp in Hl. destruct Hl as (n & k & s & Hc & Hmc & Hb & Hk & Hs).
  destruct (ok_body _ _ _ Hok) as [Hbb Hbm].
  destruct Hc as [ln k s t Hpl Hln Hz Htr|ln data n k s t b' Hpl Hln Hz Hne Hc'];
    apply parse_chunk_size_line_spec in Hz;
    (destruct (decide (length (drop (pos st) raw) < length ln + 2)%nat) as [Hlt|Hge];
     [exists st; split; [right; eapply line_waits; rewrite ?Hp; eauto|by eexists _, _]|]);
    destruct (line_arrived _ _ _ _ (eq_sym Ht) ltac:(lia)) as (q & Hq & Hqm);
    pose proof (sv_find_plain _ _ _ _ Hq Hpl) as Hf; unfold steps_or_waits, step; rewrite Hp, Hf; cbn [chunks_seen pos body_bytes];
    (destruct (Nat.ltb_spec mc (S (chunks_seen st))); [lia|]);
    replace (pos st + length ln - pos st)%nat with (length ln) by lia;
    (assert (Hsub : substr raw (pos st) (length ln) = ln) by (unfold substr; by rewrite Hq, take_app_length)); rewrite Hsub, Hz.
  - eexists. split; [by left|]. exists t, []. cbn [pos body phase]. split_and!; [|by rewrite <- !drop_drop, Hq, drop_app_length|done].
    unfold left. cbn [phase trailer_lines trailer_bytes]. split; [done|]. by exists k, s.
  - assert (0 < length data)%nat by (by destruct data; [|simpl; lia]). destruct (Z.eqb_spec (Z.of_nat (length data)) 0); [lia|].
    rewrite length_app in Hb. destruct (Z.ltb_spec mb (body_bytes st)); [lia|].
    destruct (Z.ltb_spec (mb - body_bytes st) (Z.of_nat (length data))); [lia|]. cbn [orb].
    eexists. split; [by left|]. exists (data ++ crlf ++ t), (data ++ b'). cbn [pos body phase].
    split_and!; [|by rewrite <- !drop_drop, Hq, drop_app_length|done].
    unfold left. cbn [phase trailer_lines trailer_bytes chunks_seen remaining body_bytes].
    exists data, t, b', n, k, s. split_and!; try done; [lia|rewrite length_app; lia].
Qed.

Lemma wait_data raw m st text b :
  st_ok mb raw st -> phase st = Data -> left st text b -> text = drop (pos st) raw ++ m -> steps_or_waits raw m st b.
Proof.
  intros Hok Hp Hl Ht. unfold left in Hl. rewrite Hp in Hl.
  destruct Hl as (data & t & b' & n & k & s & -> & -> & Hr & Hct & Hc & Hb & Hk & Hsz).
  destruct (ok_data _ _ _ Hok Hp) as [Hr0 _]. destruct (ok_start _ _ _ Hok) as [_ Hst].
  pose proof (step_data_advance mb mc [] [] raw st Hok Hp) as Hs. cbn zeta in Hs. set (av := Z.min _ _) in Hs.
  pose proof (length_drop raw (pos st)) as Hld. unfold steps_or_waits. rewrite Hs. rewrite length_app in Hb.
  destruct (Z.ltb_spec 0 (remaining st - av)) as [Hlt|Hge].
  - exists (advance raw st av). split; [by right|]. assert (Hav : av = Z.of_nat (length raw) - Z.of_nat (pos st)) by lia.
    set (q := drop (pos st) raw) in *. assert (Hq : Z.to_nat av = length q) by lia.
    assert (Hdata : data = q ++ drop (length q) data).
    { rewrite <- (take_drop (length q) data) at 1. f_equal. rewrite <- (take_app_le data (crlf ++ t)) by lia. by rewrite Ht, take_app_length. }
    exists (drop (length q) data ++ crlf ++ t), (drop (length q) data ++ b'). unfold left, advance. cbn [phase pos body remaining chunks_seen
      trailer_lines trailer_bytes body_bytes]. split_and!.
    + exists (drop (length q) data), t, b', n, k, s. split_and!; try done; rewrite ?length_app, ?length_drop; lia.
    + rewrite <- drop_drop. fold q. rewrite Hq, drop_all. cbn [app]. rewrite Hdata, <- app_assoc in Ht. by apply app_inv_head in Ht.
    + unfold substr. fold q. rewrite Hq, firstn_all, <- !app_assoc. f_equal. by rewrite Hdata at 2; rewrite <- app_assoc.
  - eexists. split; [by left|]. assert (Hav : av = remaining st) by lia. rewrite Hav, <- Hr in *.
    set (q := drop (pos st) raw) in *. assert (Hle : (length data <= length q)%nat) by lia.
    assert (Htq : take (length data) q = data) by (rewrite <- (take_app_le q m), <- Ht by done; by rewrite take_app_length).
    exists (crlf ++ t), b'. unfold left, to_crlf, advance. cbn [phase pos body remaining chunks_seen trailer_lines trailer_bytes body_bytes].
    rewrite Nat2Z.id. split_and!.
    + exists t, n, k, s. split_and!; try done. lia.
    + rewrite <- drop_drop. fold q. rewrite <- (take_drop (length data) q), Htq, <- app_assoc in Ht. by apply app_inv_head in Ht.
    + unfold substr. fold q. by rewrite Htq, <- app_assoc.
Qed.

Lemma wait_data_crlf raw m st text b :
  st_ok mb raw st -> phase st = DataCrlf -> left st text b -> text = drop (pos st) raw ++ m -> steps_or_waits raw m st b.
Proof.
  intros Hok Hp Hl Ht. pose proof Hl as Hleft. unfold left in Hl. rewrite Hp in Hl.
  destruct Hl as (t & n & k & s & -> & Hct & Hc & Hb & Hk & Hsz). destruct (ok_start _ _ _ Hok) as [_ Hst].
  pose proof (length_drop raw (pos st)) as Hld. unfold steps_or_waits, step. rewrite Hp, available_small by (done || apply Hok).
  destruct (Z.ltb_spec (Z.of_nat (length raw) - Z.of_nat (pos st)) 2) as [Hlt|Hge].
  - exists st. split; [by right|]. by eexists _, _.
  - destruct (line_arrived _ [] _ _ (eq_sym Ht) ltac:(cbn; lia)) as (q & Hq & Hqm). cbn [app] in Hq.
    assert (H0 : raw !! pos st = Some x0d) by (by rewrite <- (Nat.add_0_r (pos st)), <- lookup_drop, Hq).
    assert (H1 : raw !! S (pos st) = Some x0a) by (by rewrite <- Nat.add_1_r, <- lookup_drop, Hq).
    rewrite H0, H1. cbn [mbind option_bind]. eexists. split; [by left|]. exists t, b. cbn [pos body].
    split_and!; [|by rewrite <- drop_drop, Hq|done]. unfold left. cbn [phase trailer_lines trailer_bytes chunks_seen remaining body_bytes].
    by exists n, k, s.
Qed.

Lemma wait_trailers raw m st text b :
  st_ok mb raw st -> phase st = Trailers -> left st text b -> text = drop (pos st) raw ++ m -> m <> [] -> steps_or_waits raw m st b.
Proof.
  intros Hok Hp Hl Ht Hm. pose proof Hl as Hleft. unfold left in Hl. rewrite Hp in Hl. destruct Hl as (-> & k & s & Htr & Hk & Hsz).
  destruct Htr as [|l k s t Hpl Hne Hlen Htr].
  - exists st. split; [right|by eexists _, _]. apply (line_waits raw m st [] []); rewrite ?Hp; eauto; try done.
    + apply (f_equal length) in Ht. rewrite length_app in Ht. cbn [length crlf] in *. destruct m; [done|]. cbn in *. lia.
    + unfold kMaxChunkTrailerBytes. cbn. lia.
  - destruct (decide (length (drop (pos st) raw) < length l + 2)%nat) as [Hlt|Hge].
    { exists st. split; [right; eapply line_waits; rewrite ?Hp; eauto; unfold kMaxChunkTrailerBytes in *; lia|by eexists _, _]. }
    destruct (line_arrived _ _ _ _ (eq_sym Ht) ltac:(lia)) as (q & Hq & Hqm). unfold steps_or_waits, step.
    rewrite Hp, (sv_find_plain _ _ _ _ Hq Hpl). assert (0 < length l)%nat by (by destruct l; [|simpl; lia]).
    destruct (Nat.eqb_spec (pos st + length l) (pos st)); [lia|]. unfold accept_chunk_trailer_line.
    replace (pos st + length l - pos st)%nat with (length l) by lia.
    destruct (Nat.ltb_spec kMaxChunkTrailerLines (S (trailer_lines st))); [lia|].
    destruct (Nat.ltb_spec kMaxChunkTrailerBytes (length l + 2)); [lia|].
    destruct (Nat.ltb_spec (kMaxChunkTrailerBytes - (length l + 2)) (trailer_bytes st)); [lia|]. cbn [orb].
    eexists. split; [by left|]. exists t, []. cbn [pos body]. split_and!; [|by rewrite <- !drop_drop, Hq, drop_app_length|done].
    unfold left. cbn [phase trailer_lines trailer_bytes]. split; [done|]. exists k, s. split_and!; [done|lia|lia].
Qed.

(** The decoder takes what it can and asks for more. *)
Lemma run_waits fuel raw m st text b :
  st_ok mb raw st -> left st text b -> text = drop (pos st) raw ++ m -> m <> [] -> (measure raw st < fuel)%nat ->
  exists st1, run fuel raw mb mc st = Some (0, st1) /\ waits raw m st st1 b.
Proof.
  revert st text b. induction fuel as [|fuel IH]; intros st text b Hok Hl Ht Hm Hf; [lia|]. cbn [run].
  assert (steps_or_waits raw m st b) as (st1 & Hs & text1 & b1 & Hl1 & Ht1 & Hb1).
  { destruct (phase st) eqn:Hp;
      [by eapply wait_size_line|by eapply wait_data|by eapply wait_data_crlf|by eapply wait_trailers|].
    exfalso. unfold left in Hl. rewrite Hp in Hl. destruct Hl as [-> _]. symmetry in Ht. by apply app_eq_nil in Ht as [_ ?]. }
  pose proof (chunk_step_ok mb mc raw st Hok) as Hg. destruct Hs as [Hs|Hs]; rewrite Hs in *.
  - destruct Hg as (Hok1 & Hlt & _). destruct (IH st1 text1 b1 Hok1 Hl1 Ht1 Hm ltac:(lia)) as (st2 & Hr & text2 & b2 & ? & ? & Hb2).
    exists st2. split; [done|]. exists text2, b2. by rewrite Hb2, Hb1.
  - exists st1. split; [done|]. by exists text1, b1.
Qed.

(** A decoder that has ended stays ended. *)
Lemma run_complete_phase fuel raw st rc st1 :
  st_ok mb raw st -> run fuel raw mb mc st = Some (rc, st1) -> 0 < rc ->
  phase st1 = Complete /\ rc = Z.of_nat (pos st1 - body_start st1).
Proof.
  revert st. induction fuel as [|fuel IH]; intros st Hok H Hrc; [done|]. cbn [run] in H.
  pose proof (chunk_step_ok mb mc raw st Hok) as Hg. destruct (step raw mb mc st) as [[st2|[rc2 st2]]|] eqn:Es; [|injection H as -> ->|done].
  { destruct Hg as (Hok2 & _). by apply (IH st2). }
  clear Hg. unfold step in Es. destruct (phase st) eqn:Hp.
  - repeat case_match; simplify_eq; lia.
  - repeat case_match; simplify_eq; lia.
  - destruct (_ <? 2); [injection Es as <- <-; lia|].
    destruct (raw !! pos st), (raw !! S (pos st)); try done. simpl in Es. case_match; simplify_eq; lia.
  - destruct (sv_find_sub crlf raw (pos st)) as [e|]; [|case_match; simplify_eq; lia].
    destruct (e =? pos st)%nat; [by injection Es as <- <-|]. repeat case_match; simplify_eq; lia.
  - by injection Es as <- <-.
Qed.

End wait.

End ChunkWait.

(** ** Reading the parts of a request always ends *)

Module PartsTotal.
Import Http1.Head Fields HeaderList MediaType Form Parts Multipart Target.

Lemma extract_param_total h n : is_Some (extract_param h n).
Proof. unfold extract_param. rewrite HeaderListOk.header_params_spec. by eexists. Qed.

Lemma parse_urlencoded_total data out : is_Some (parse_urlencoded data out).
Proof. unfold parse_urlencoded. rewrite urlencoded_loop_spec by lia. by eexists. Qed.

Lemma cookie_loop_total fuel h p out : (length h - p <= fuel)%nat -> is_Some (cookie_loop fuel h p out).
Proof.
  revert p out. induction fuel as [|fuel IH]; intros p out Hf; cbn [cookie_loop].
  - destruct (Nat.leb_spec (length h) p); [by eexists|lia].
  - destruct (Nat.leb_spec (length h) p); [by eexists|]. cbn zeta. destruct (sv_find x3b h p) as [k|] eqn:E; [|by eexists].
    apply IH. unfold sv_find in E. destruct (find_byte _ _); simplify_option_eq. lia.
Qed.

Lemma boundary_loop_total fuel body delim p : (length body - p <= fuel)%nat -> is_Some (boundary_loop fuel body delim p).
Proof.
  revert p. induction fuel as [|fuel IH]; intros p Hf; cbn [boundary_loop].
  - destruct (Nat.leb_spec (length body) p); [by eexists|lia].
  - destruct (Nat.leb_spec (length body) p); [by eexists|]. destruct (sv_find_sub delim body p) as [q|] eqn:E; [|by eexists].
    apply sv_find_sub_Some in E as (? & _). destruct (boundary_at body delim q); [by eexists|]. apply IH. lia.
Qed.

Lemma part_headers_total fuel hs h s : (length hs - h <= fuel)%nat -> is_Some (part_headers_loop fuel hs h s).
Proof.
  revert h s. induction fuel as [|fuel IH]; intros h s Hf; cbn [part_headers_loop].
  - destruct (Nat.leb_spec (length hs) h); [by eexists|lia].
  - destruct (Nat.leb_spec (length hs) h); [by eexists|]. destruct (sv_find_sub crlf hs h) as [e|] eqn:E; [|by eexists].
    apply sv_find_sub_Some in E as (? & _). apply IH. lia.
Qed.

Lemma read_part_total body delim p out : is_Some (read_part body delim p out).
Proof.
  unfold read_part. destruct (sv_find_sub _ body p) as [he|]; [|by eexists]. destruct (_ || _); [by eexists|].
  destruct (boundary_loop_total (length body) body delim (he + 4)) as [[m|] Hm]; [lia| |];
    unfold find_multipart_boundary_line; rewrite Hm; cbn [mbind option_bind]; [|by eexists].
  destruct (_ <? _)%nat; [by eexists|].
  destruct (part_headers_total (length (substr body p (he - p))) (substr body p (he - p)) 0 ([], B "text/plain")) as [[d ct] Hd]; [lia|].
  rewrite Hd. cbn [mbind option_bind].
  destruct (extract_param_total d (B "name")) as [n ->]. destruct (extract_param_total d (B "filename")) as [f ->].
  by eexists.
Qed.

Lemma multipart_loop_total parts body delim p out : is_Some (multipart_loop parts body delim p out).
Proof.
  revert p out. induction parts as [|parts IH]; intros p out; cbn [multipart_loop]; [by eexists|]. cbn zeta.
  destruct (_ <=? _)%nat; [by eexists|]. destruct (bytes_eqb _ (B "--")); [by eexists|].
  match goal with |- context [match ?x with Some _ => _ | None => Some out end] => destruct x as [q|]; [|by eexists] end.
  destruct (read_part_total body delim q out) as [[[next o]|] ->]; cbn [mbind option_bind]; [apply IH|by eexists].
Qed.

Lemma parse_multipart_total body boundary form files : is_Some (parse_multipart body boundary form files).
Proof.
  unfold parse_multipart, find_multipart_boundary_line.
  destruct (boundary_loop_total (length body) body (B "--" ++ boundary) 0) as [[m|] ->]; [lia| |]; cbn [mbind option_bind];
    [apply multipart_loop_total|by eexists].
Qed.

Lemma populate_total target headers body parts : is_Some (populate_request_parts target headers body parts).
Proof.
  unfold populate_request_parts.
  assert (forall {X Y} (o : option X) (f : X -> option Y), is_Some o -> (forall a, is_Some (f a)) -> is_Some (o ≫= f)) as Hbind
    by (intros X Y o f [a ->] H; apply H).
  apply Hbind; [|intros q].
  { destruct (query_suffix target); [by eexists|]. apply Hbind; [apply parse_urlencoded_total|by eexists]. }
  apply Hbind; [|intros f].
  { destruct (content_type_is_form_urlencoded _); [|by eexists]. apply Hbind; [apply parse_urlencoded_total|by eexists]. }
  apply Hbind; [|intros [f' fs]].
  { destruct (content_type_is_multipart_form_data _); [|by eexists]. apply Hbind; [apply extract_param_total|intros b].
    destruct b; [by eexists|apply parse_multipart_total]. }
  apply Hbind; [|by eexists]. destruct (at_ headers (B "cookie")); [by eexists|]. apply cookie_loop_total. lia.
Qed.

End PartsTotal.

(** ** Requests a client sends *)

Module Client.
Import Http1.Head Http1.Grammar Fields Target Parts Multipart Format Router.Dispatch Req Resp Reject Connection Serve ChunkWait.

Inductive body_form := NoBody | Sized (b : bytes) | Coded (text b : bytes).

Record message := mkMessage { m_req : ParsedRequest; m_lines : list bytes; m_form : body_form }.

Definition m_body (m : message) : bytes := match m_form m with NoBody => [] | Sized b => b | Coded _ b => b end.
Definition m_coded (m : message) : bytes := match m_form m with NoBody => [] | Sized b => b | Coded t _ => t end.
Definition m_head (m : message) : bytes := head (m_req m) (m_lines m).
Definition m_text (m : message) : bytes := m_head m ++ m_coded m.

Definition summary (m : message) : CommonHeaderSummary := fold_left note_common_header (Http1.Head.headers (m_req m)) no_headers.
Definition m_fields (m : message) : HttpFields := mkFields (Http1.Head.headers (m_req m)) true.
Definition m_target (m : message) : PathQueryView := split_path_query (Http1.Head.target (m_req m)).
Definition m_path (m : message) : bytes := origin_form_path_from_target (Target.path (m_target m)).

Section server.
Context (ring : Ring).

(** A request with a body the server accepts, on a connection that is kept open,
    with the limits met as [room] says and nothing to be asked for first. *)
Record good (m : message) : Prop := {
  g_line : request_line_ok (m_req m);
  g_fields : Forall2 field_line (Http1.Head.headers (m_req m)) (m_lines m);
  g_room : room (parser_limits ring) (m_req m) (m_lines m);
  g_end : header_end_offset (m_req m) = (length (request_line (m_req m)) + length (block (m_lines m)))%nat;
  g_host : validate_http1_host_headers (Http1.Head.version (m_req m)) (summary m) = None;
  g_framing : framing_error (m_fields m) (summary m) = None;
  g_expect : common_expect_state (summary m) = expect_none;
  g_keep : connection_close (summary m) = false /\
    (connection_keep_alive (summary m) = true \/ Http1.Head.version (m_req m) = B "HTTP/1.1");
  g_body :
    match m_form m with
    | NoBody => content_length_count (summary m) = 0%nat /\ transfer_encoding_count (summary m) = 0%nat
    | Sized b => content_length_count (summary m) <> 0%nat /\ read_content_length ring (summary m) = Ok (Z.of_nat (length b))
    | Coded text b =>
        content_length_count (summary m) = 0%nat /\ transfer_encoding_count (summary m) <> 0%nat /\
        exists n k s, short_chunks n k s text b /\ (n <= max_chunks (parser_limits ring))%nat /\
          Z.of_nat (length b) <= max_body_size ring /\
          (k <= Chunked.kMaxChunkTrailerLines)%nat /\ (s <= Chunked.kMaxChunkTrailerBytes)%nat
    end
}.

(** The application's answer. *)
Definition answer (req : RequestView) : Response :=
  match dispatch_context ring req with Some o => caught o | None => caught (dispatch ring req) end.

(** An application that takes bodies whole and answers with text. *)
Record plain_app : Prop := {
  pa_scheme : http_redirect_to_https ring = false;
  pa_upload : forall req u, dispatch_upload ring req u = None;
  pa_text : forall req, body_kind (answer req) = text_kind;
  pa_limit : 0 <= max_body_size ring
}.

(** The parts of the request: the query and the cookies are read once before the
    body is looked at, and once with it. *)
Definition m_parts (m : message) : RequestParts :=
  default no_parts
    (p1 ← populate_request_parts (m_target m) (m_fields m) [] (mkParts (mkFields [] false) (mkFields [] false) (mkFields [] false) []);
     populate_request_parts (m_target m) (m_fields m) (m_body m) (mkParts (p_query p1) (mkFields [] false) (p_cookies p1) [])).

Definition m_request (addr : bytes) (m : message) : RequestView :=
  let p := m_parts m in
  mkRequestView (Http1.Head.method (m_req m)) (m_path m) (Http1.Head.version (m_req m)) addr false (mkFields [] false) (m_fields m)
    (p_query p) (p_form p) (p_cookies p) (p_files p) (m_body m).

Definition m_response (date addr : bytes) (m : message) : bytes :=
  format_response date (answer (m_request addr m)) (alt_svc_header ring) false.

(** A connection that serves such requests. *)
Definition att0 : Attached := att new_conn.
Definition up0 : Uploading := up new_conn.

Definition serving (own : bytes) (has : bool) (w : nat) (queued : bool) (fl : bytes) (cf ec : bool) (pb : Buffer.PartialBuf)
    (rb : nat) (st : Chunked.ChunkedDecodeState) (addr : bytes) (effs : list Effect) : Conn :=
  mkConn (mkSending own has w queued fl false cf) (mkReceiving pb rb ec st) att0 up0 false addr false false [] effs.

Lemma m_head_length m : good m -> (header_end_offset (m_req m) + 4)%nat = length (m_head m).
Proof.
  intros H. rewrite (g_end _ H). unfold m_head, head. rewrite !length_app. cbn [length crlf]. lia.
Qed.

Lemma parse_good m raw out x :
  good m -> raw = m_head m ++ x -> parse_request raw (parser_limits ring) out = Some (StOk, m_req m).
Proof.
  intros H ->. apply parse_request_complete. exists (m_lines m), x. split_and!; try apply H; [done|].
  destruct (g_room _ H) as (H1 & H2 & _ & H3 & H4). split_and!; [lia| |done|unfold block_size; lia].
  eapply Forall_impl; [done|]. cbn. lia.
Qed.

Lemma parse_waits m out q more :
  good m -> m_head m = q ++ more -> more <> [] ->
  exists out', parse_request q (parser_limits ring) out = Some (Incomplete, out').
Proof.
  intros H Hq Hm. eexists. rewrite <- (take_app_length q more), <- Hq. apply prefix_incomplete; try apply H.
  - eapply field_lines_clean, H.
  - fold (m_head m). rewrite Hq, length_app. destruct more; [done|]. simpl. lia.
Qed.

(** The query and the cookies as the first reading leaves them. *)
Definition m_first (m : message) : RequestParts :=
  default no_parts (populate_request_parts (m_target m) (m_fields m) [] (mkParts (mkFields [] false) (mkFields [] false) (mkFields [] false) [])).

Definition read_again (m : message) (body : bytes) : option RequestParts :=
  populate_request_parts (m_target m) (m_fields m) body (mkParts (p_query (m_first m)) (mkFields [] false) (p_cookies (m_first m)) []).

(** [dispatch_request] from the body on. *)
Definition after_head (env : Env) (again : Conn -> bytes -> option Conn) (stored : bool) (m : message) (raw : bytes) (c : Conn)
    : option Conn :=
  let bs := length (m_head m) in
  '(result, c) ← resolve_http1_body_view ring env raw bs (m_fields m) (summary m) c;
  match result with
  | BodyRejected => Some c
  | BodyIncomplete => Some (if negb (transfer_encoding_count (summary m) =? 0)%nat then compact_chunked_request_buffer bs c else c)
  | BodyReady body stream_bytes =>
      parts ← read_again m body;
      let c := set_request_bytes (bs + Z.to_nat stream_bytes) (set_expect_continue_sent false c) in
      if negb stored then
        let '(storage, b) := Buffer.cut_prefix (request_bytes (rcv c)) (partial (rcv c)) in
        c ← again (set_partial b c) storage;
        Some (set_request_bytes 0 (set_chunked_decode Chunked.fresh (set_expect_continue_sent false c)))
      else Some (call_application ring env (m_req m) (m_path m) (m_fields m) parts body (summary m) c)
  end.

Lemma announced_good m : good m -> exists n, announced_length ring (summary m) = Ok n.
Proof.
  intros H. pose proof (g_body _ H) as Hb. unfold announced_length. destruct (m_form m) as [|b|t b].
  - destruct Hb as [-> ->]. by eexists.
  - destruct Hb as [Hc ->]. destruct (content_length_count (summary m) =? 0)%nat; cbn; [|by eexists].
    destruct (transfer_encoding_count (summary m) =? 0)%nat; by eexists.
  - destruct Hb as (-> & _). cbn. destruct (transfer_encoding_count (summary m) =? 0)%nat; by eexists.
Qed.

Lemma dispatch_after_head env again stored m raw x own has w queued fl cf ec pb rb st addr effs :
  good m -> plain_app -> raw = m_head m ++ x ->
  dispatch_request_with ring env again stored (serving own has w queued fl cf ec pb rb st addr effs) raw
  = after_head env again stored m raw (serving own false 0 queued fl cf ec pb rb st addr effs).
Proof.
  intros H P Hraw. unfold dispatch_request_with, parse_or_reject_http1_request. rewrite (parse_good m raw _ x) by done.
  cbn [mbind option_bind]. change (fold_left note_common_header (Http1.Head.headers (m_req m)) no_headers) with (summary m).
  rewrite (g_host _ H). unfold maybe_make_https_redirect_response. rewrite (pa_scheme P). cbn [negb orb].
  assert (Hk : apply_http1_keep_alive (Http1.Head.version (m_req m)) (summary m)
      (reset_http1_response_state (serving own has w queued fl cf ec pb rb st addr effs))
    = serving own false 0 queued fl cf ec pb rb st addr effs).
  { unfold apply_http1_keep_alive. destruct (g_keep _ H) as [-> [->| ->]]; [done|]. by destruct (connection_keep_alive (summary m)). }
  rewrite Hk. clear Hk. unfold dispatch_http1_upload_request. change (mkFields (Http1.Head.headers (m_req m)) true) with (m_fields m).
  rewrite (g_framing _ H). destruct (announced_good m H) as [n ->].
  change (split_path_query (Http1.Head.target (m_req m))) with (m_target m).
  unfold after_head, read_again, m_first.
  destruct (PartsTotal.populate_total (m_target m) (m_fields m) []
    (mkParts (mkFields [] false) (mkFields [] false) (mkFields [] false) [])) as [p1 ->].
  cbn [mbind option_bind default from_option id]. rewrite (pa_upload P), (m_head_length m H). done.
Qed.

Notation mb := (max_body_size ring).
Notation mc := (max_chunks (parser_limits ring)).

(** The connection has received [q] of a request: all of it is in the buffer, or
    part of a chunked body has been decoded and taken out. *)
Definition holds (pb : Buffer.PartialBuf) (st : Chunked.ChunkedDecodeState) (m : message) (q : bytes) : Prop :=
  BufferOk.wf pb /\
  ((st = Chunked.fresh /\ Buffer.view pb = q) \/
   exists text b d t br q', m_form m = Coded text b /\ text = d ++ t /\ t <> [] /\ q = m_head m ++ d ++ q' /\
     Buffer.view pb = m_head m ++ q' /\ st_ok mb (Buffer.view pb) st /\
     Chunked.body_start st = length (m_head m) /\ Chunked.pos st = length (m_head m) /\
     left mb mc st t br /\ Chunked.body st ++ br = b).

Lemma short_chunks_nonempty n k s t b : short_chunks n k s t b -> t <> [].
Proof. by destruct 1; destruct line. Qed.

(** Where the decoder goes on. *)
Lemma decode_resume pb st m q x text b :
  good m -> plain_app -> holds pb st m q -> q = m_head m ++ x -> m_form m = Coded text b ->
  Z.of_nat (length (Buffer.view pb)) < 2 ^ 64 - 2 ->
  exists st0 d t br q',
    Chunked.decode_chunked_incremental (Buffer.view pb) (length (m_head m)) mb mc st
      = Chunked.run (Chunked.run_fuel (Buffer.view pb)) (Buffer.view pb) mb mc st0 /\
    st_ok mb (Buffer.view pb) st0 /\ Chunked.pos st0 = length (m_head m) /\ Chunked.body_start st0 = length (m_head m) /\
    left mb mc st0 t br /\ Chunked.body st0 ++ br = b /\ text = d ++ t /\ t <> [] /\
    Buffer.view pb = m_head m ++ q' /\ q = m_head m ++ d ++ q'.
Proof.
  intros H P [Hwf [[-> Hv]|(text' & b' & d & t & br & q' & Hf & -> & Ht & -> & Hv & Hok & Hbs & Hpos & Hl & Hb)]] Hq Hf' Hsz.
  - pose proof (g_body _ H) as Hg. rewrite Hf' in Hg. destruct Hg as (_ & _ & n & k & s & Hc & Hn & Hlen & Hk & Hs).
    exists (Chunked.started true (length (m_head m))), [], text, b, x. split_and!; try done.
    + apply started_ok; [rewrite Hv, Hq, length_app; lia|done|apply (pa_limit P)].
    + exists n, k, s. cbn. split_and!; try done; lia.
    + by eapply short_chunks_nonempty.
    + by rewrite Hv.
  - rewrite Hf' in Hf. injection Hf as -> ->. exists st, d, t, br, q'. split_and!; try done.
    apply dci_started; [apply Hok|done].
Qed.

(** A chunked body of which a part is missing: the decoder's state is kept and the
    bytes it has read leave the buffer. *)
Lemma chunked_waits env pb st m q more text b own queued fl cf ec addr effs :
  good m -> plain_app -> holds pb st m q -> m_form m = Coded text b ->
  (exists x, q = m_head m ++ x) -> q ++ more = m_text m -> more <> [] -> Z.of_nat (length (Buffer.view pb)) < 2 ^ 64 - 2 ->
  exists pb' st' st1,
    resolve_http1_body_view ring env (Buffer.view pb) (length (m_head m)) (m_fields m) (summary m)
      (serving own false 0 queued fl cf ec pb 0 st addr effs)
      = Some (BodyIncomplete, serving own false 0 queued fl cf ec pb 0 st1 addr effs) /\
    compact_chunked_request_buffer (length (m_head m)) (serving own false 0 queued fl cf ec pb 0 st1 addr effs)
      = serving own false 0 queued fl cf ec pb' 0 st' addr effs /\
    holds pb' st' m q.
Proof.
  intros H P Hh Hf (x & Hx) Hmore Hne Hsz. pose proof Hh as [Hwf _].
  destruct (decode_resume pb st m q x text b) as (st0 & d & t & br & q' & Hdec & Hok & Hpos & Hbs & Hl & Hb & Htext & Ht & Hv & Hq); try done.
  assert (Htq : t = q' ++ more).
  { unfold m_text, m_coded in Hmore. rewrite Hf, Hq, Htext, <- !app_assoc in Hmore. by apply app_inv_head, app_inv_head in Hmore. }
  set (raw := Buffer.view pb) in *. set (h := length (m_head m)) in *.
  assert (Hdr : drop (Chunked.pos st0) raw = q') by (rewrite Hpos, Hv; apply drop_app_length).
  destruct (run_waits mb mc (Chunked.run_fuel raw) raw more st0 t br) as (st1 & Hr & text1 & b1 & Hl1 & Ht1 & Hb1); try done;
    [by rewrite Hdr|apply measure_fuel|].
  destruct (run_ok mb mc (Chunked.run_fuel raw) raw st0 Hok (measure_fuel raw st0)) as (rc & st1' & Hr' & Hact & Hbs1 & _ & Hok1).
  rewrite Hr in Hr'. injection Hr' as <- <-. specialize (Hok1 eq_refl). rewrite Hbs in Hbs1.
  destruct (ok_start _ _ _ Hok1) as [Hp1 Hp2]. rewrite Hbs1 in Hp1. pose proof (g_body _ H) as Hg. rewrite Hf in Hg. destruct Hg as (Hg1 & Hg2 & _).
  set (st' := Chunked.mkChunked (Chunked.active st1) h h (Chunked.chunks_seen st1) (Chunked.current_chunk_size st1)
         (Chunked.remaining st1) (Chunked.trailer_lines st1) (Chunked.trailer_bytes st1) (Chunked.body_bytes st1) (Chunked.phase st1)
         (Chunked.body st1)).
  set (u := (Chunked.pos st1 - h)%nat). set (pb' := if (Chunked.pos st1 <=? h)%nat then pb else Buffer.erase_view_range h (Chunked.pos st1) pb).
  assert (Hdu : drop (Chunked.pos st1) raw = drop u q') by (rewrite Hv, drop_app_ge by (fold h; lia); done).
  assert (Hpb : BufferOk.wf pb' /\ Buffer.view pb' = m_head m ++ drop u q').
  { unfold pb'. destruct (Nat.leb_spec (Chunked.pos st1) h).
    - split; [done|]. unfold u. replace (Chunked.pos st1 - h)%nat with 0%nat by lia. done.
    - destruct (BufferOk.buffer_erase h (Chunked.pos st1) pb) as [Hw' Hv']; [done|lia|rewrite <- BufferOk.view_size; done|].
      split; [done|]. rewrite Hv'. fold raw. rewrite Hdu, Hv. unfold h. by rewrite take_app_length. }
  assert (Hfresh : text1 <> []) by (rewrite Ht1; intros [_ ?]%app_eq_nil; done).
  exists pb', (if (Chunked.pos st1 <=? h)%nat then st1 else st'), st1. split_and!.
  - unfold resolve_http1_body_view. rewrite (g_framing _ H), Hg1. cbn [Nat.eqb negb].
    destruct (Nat.eqb_spec (transfer_encoding_count (summary m)) 0); [done|]. cbn [negb serving rcv chunked_decode]. rewrite Hdec, Hr.
    cbn [mbind option_bind Z.eqb]. unfold await_body. by rewrite (g_expect _ H).
  - unfold compact_chunked_request_buffer, pb'. cbn [serving rcv chunked_decode partial].
    by destruct (Chunked.pos st1 <=? h)%nat.
  - split; [apply Hpb|]. right. exists text, b, (d ++ take u q'), text1, b1, (drop u q'). destruct Hpb as [Hpw Hpv].
    assert (Hsame : forall P : Chunked.ChunkedDecodeState -> Prop, P st1 -> P st' -> P (if (Chunked.pos st1 <=? h)%nat then st1 else st'))
      by (intros; by case_match).
    assert (Hp1' : Chunked.pos (if (Chunked.pos st1 <=? h)%nat then st1 else st') = h)
      by (destruct (Nat.leb_spec (Chunked.pos st1) h); [lia|done]).
    split_and!; try done.
    + rewrite Htext, <- app_assoc. f_equal. by rewrite Htq, Ht1, Hdu, app_assoc, take_drop.
    + by rewrite Hq, <- app_assoc, take_drop.
    + destruct Hok1 as [? _ ? ? ? ? Hc]. constructor; [by apply Hsame| |rewrite Hpv, length_app, length_drop| | | |].
      * rewrite Hp1', Hpv, length_app. split; [|fold h; lia]. apply (Hsame (fun s => (Chunked.body_start s <= h)%nat)); cbn; lia.
      * rewrite Hv, length_app in Hsz. lia.
      * by apply (Hsame (fun s => Chunked.body_bytes s = Z.of_nat (length (Chunked.body s)) /\ Chunked.body_bytes s <= mb)).
      * by apply (Hsame (fun s => Chunked.phase s = Chunked.Data -> 0 < Chunked.remaining s /\ Chunked.body_bytes s + Chunked.remaining s <= mb)).
      * by apply (Hsame (fun s => (Chunked.trailer_lines s <= Chunked.kMaxChunkTrailerLines)%nat /\
          (Chunked.trailer_bytes s <= Chunked.kMaxChunkTrailerBytes)%nat)).
      * intros Hph. exfalso. assert (Hph1 : Chunked.phase st1 = Chunked.Complete) by (by destruct (Chunked.pos st1 <=? h)%nat).
        unfold left in Hl1. rewrite Hph1 in Hl1. by destruct Hl1.
    + by apply (Hsame (fun s => Chunked.body_start s = h)).
    + by apply (Hsame (fun s => left mb mc s text1 b1)).
    + apply (Hsame (fun s => Chunked.body s ++ b1 = b)); cbn; by rewrite Hb1.
Qed.

(** The whole request has not arrived: nothing is done. *)
Lemma dispatch_waits env pb st m q more own has w queued fl cf ec addr effs :
  good m -> plain_app -> holds pb st m q -> q ++ more = m_text m -> more <> [] -> Z.of_nat (length (Buffer.view pb)) < 2 ^ 64 - 2 ->
  exists pb' st',
    dispatch_request ring env (serving own has w queued fl cf ec pb 0 st addr effs) (Buffer.view pb)
      = Some (serving own false 0 queued fl cf ec pb' 0 st' addr effs) /\ holds pb' st' m q.
Proof.
  intros H P Hh Hmore Hne Hsz. unfold dispatch_request.
  destruct (decide (length q < length (m_head m))%nat) as [Hlt|Hge].
  - (* the head is incomplete *)
    assert (Hhead : m_head m = q ++ drop (length q) (m_head m)).
    { rewrite <- (take_drop (length q) (m_head m)) at 1. f_equal. unfold m_text in Hmore.
      rewrite <- (take_app_le (m_head m) (m_coded m)) by lia. by rewrite <- Hmore, take_app_length. }
    assert (Hv : Buffer.view pb = q).
    { destruct Hh as [_ [[_ ?]|(? & ? & ? & ? & ? & ? & _ & _ & _ & -> & _)]]; [done|]. rewrite length_app in Hlt. lia. }
    destruct (parse_waits m (mkRequest [] [] [] [] 0) q (drop (length q) (m_head m)) H Hhead) as [out Hp].
    { intros Hd%(f_equal length). rewrite length_drop in Hd. simpl in Hd. lia. }
    exists pb, st. split; [|done]. unfold dispatch_request_with, parse_or_reject_http1_request. rewrite Hv, Hp. done.
  - assert (Hx : exists x, q = m_head m ++ x).
    { exists (drop (length (m_head m)) q). rewrite <- (take_drop (length (m_head m)) q) at 1. f_equal.
      unfold m_text in Hmore. rewrite <- (take_app_le q more), Hmore by lia. by rewrite take_app_length. }
    assert (Hvx : exists y, Buffer.view pb = m_head m ++ y).
    { destruct Hh as [_ [[_ ->]|(? & ? & ? & ? & ? & ? & _ & _ & _ & _ & ? & _)]]; [done|by eexists]. }
    destruct Hvx as [y Hvy]. rewrite (dispatch_after_head env _ false m _ y) by done. unfold after_head.
    pose proof (g_body _ H) as Hg. destruct (m_form m) as [|b|text b] eqn:Hf.
    + exfalso. destruct Hx as [x ->]. unfold m_text, m_coded in Hmore. rewrite Hf, app_nil_r in Hmore.
      apply (f_equal length) in Hmore. rewrite !length_app in Hmore. destruct more; [done|]. simpl in Hmore. lia.
    + assert (Hvq : st = Chunked.fresh /\ Buffer.view pb = q).
      { destruct Hh as [_ [?|(? & ? & ? & ? & ? & ? & Hf' & _)]]; [done|]. by rewrite Hf in Hf'. }
      exists pb, st. split; [|done]. destruct Hg as [Hc Hcl]. unfold resolve_http1_body_view. rewrite (g_framing _ H), Hcl.
      destruct (Nat.eqb_spec (content_length_count (summary m)) 0); [done|]. cbn [negb].
      destruct Hvq as [_ ->]. unfold m_text, m_coded in Hmore. rewrite Hf in Hmore.
      destruct (Z.ltb_spec (Z.of_nat (length q - length (m_head m))) (Z.of_nat (length b))) as [_|Hle].
      2: { exfalso. apply (f_equal length) in Hmore. rewrite !length_app in Hmore. destruct more; [done|]. simpl in Hmore. lia. }
      cbn [mbind option_bind]. unfold await_body. rewrite (g_expect _ H). cbn.
      assert (Hte : transfer_encoding_count (summary m) = 0%nat).
      { pose proof (g_framing _ H) as Hfr. unfold framing_error in Hfr.
        destruct (Nat.eqb_spec (transfer_encoding_count (summary m)) 0); [done|].
        destruct (Nat.eqb_spec (content_length_count (summary m)) 0); [done|]. done. }
      by rewrite Hte.
    + destruct (chunked_waits env pb st m q more text b own queued fl cf ec addr effs) as (pb' & st' & st1 & Hr & Hcmp & Hh'); try done.
      exists pb', st'. split; [|done]. rewrite Hr. cbn [mbind option_bind]. destruct Hg as (_ & Hg & _).
      destruct (Nat.eqb_spec (transfer_encoding_count (summary m)) 0); [done|]. cbn [negb]. by rewrite Hcmp.
Qed.

(** The whole request has arrived: where its body is, and that the copy of the
    request which is handed on has the same body. *)
Lemma body_ready env pb st m q rest own queued fl cf addr effs :
  good m -> plain_app -> holds pb st m q -> q = m_text m ++ rest -> Z.of_nat (length (Buffer.view pb)) < 2 ^ 64 - 2 ->
  exists n st1 storage,
    Buffer.view pb = storage ++ rest /\ length storage = (length (m_head m) + Z.to_nat n)%nat /\ (exists y, storage = m_head m ++ y) /\
    (forall pb ec rb, resolve_http1_body_view ring env (storage ++ rest) (length (m_head m)) (m_fields m) (summary m)
       (serving own false 0 queued fl cf ec pb rb st addr effs)
       = Some (BodyReady (m_body m) n, serving own false 0 queued fl cf ec pb rb st1 addr effs)) /\
    (forall pb ec rb, resolve_http1_body_view ring env storage (length (m_head m)) (m_fields m) (summary m)
       (serving own false 0 queued fl cf ec pb rb st1 addr effs)
       = Some (BodyReady (m_body m) n, serving own false 0 queued fl cf ec pb rb st1 addr effs)).
Proof.
  intros H P Hh Hq Hsz. pose proof (g_body _ H) as Hg. unfold resolve_http1_body_view. rewrite (g_framing _ H).
  unfold m_text, m_coded, m_body in *. destruct (m_form m) as [|b|text b] eqn:Hf.
  - destruct Hg as [-> ->]. assert (Hvq : Buffer.view pb = q).
    { destruct Hh as [_ [[_ ?]|(? & ? & ? & ? & ? & ? & Hf' & _)]]; [done|]. by rewrite Hf in Hf'. }
    exists 0, st, (m_head m). rewrite app_nil_r in Hq. split_and!; try done; [by rewrite Hvq|].
    by exists []; rewrite app_nil_r.
  - destruct Hg as [Hc ->]. assert (Hvq : Buffer.view pb = q).
    { destruct Hh as [_ [[_ ?]|(? & ? & ? & ? & ? & ? & Hf' & _)]]; [done|]. by rewrite Hf in Hf'. }
    exists (Z.of_nat (length b)), st, (m_head m ++ b).
    destruct (Nat.eqb_spec (content_length_count (summary m)) 0); [done|]. cbn [negb].
    split_and!; [by rewrite Hvq|rewrite length_app; lia|by eexists| |]; intros;
      rewrite (proj2 (Z.ltb_ge _ _)) by (rewrite !length_app; lia); rewrite Nat2Z.id; unfold substr; rewrite <- ?app_assoc, drop_app_length.
    + by rewrite take_app_length.
    + by rewrite firstn_all.
  - destruct Hg as (-> & Hc & _). cbn [Nat.eqb negb]. destruct (Nat.eqb_spec (transfer_encoding_count (summary m)) 0); [done|]. cbn [negb].
    destruct (decode_resume pb st m q (text ++ rest) text b) as (st0 & d & t & br & q' & Hdec & Hok & Hpos & Hbs & Hl & Hb & -> & Ht & Hv & Hq');
      try done; [by rewrite Hq, <- app_assoc|].
    assert (q' = t ++ rest) as ->.
    { rewrite Hq', <- !app_assoc in Hq. by apply app_inv_head, app_inv_head in Hq. }
    set (raw := Buffer.view pb) in *. set (h := length (m_head m)) in *.
    destruct (run_complete raw mb mc (Chunked.run_fuel raw) st0 t br rest) as (st1 & Hr & Hb1); try done;
      [by apply left_shape|rewrite Hpos, Hv; apply drop_app_length|apply measure_fuel|].
    rewrite Hpos, Hbs in Hr. replace (h + length t - h)%nat with (length t) in Hr by lia.
    assert (Ht0 : 0 < Z.of_nat (length t)) by (destruct t; [done|simpl; lia]).
    destruct (run_ok mb mc _ raw st0 Hok (measure_fuel raw st0)) as (rc & st1' & Hr' & Hact & Hbs1 & _).
    destruct (run_complete_phase mb mc _ _ _ _ _ Hok Hr Ht0) as [Hph Hrc]. rewrite Hr in Hr'. injection Hr' as <- <-.
    exists (Z.of_nat (length t)), st1, (m_head m ++ t). rewrite <- app_assoc, <- Hv.
    split_and!; [done|rewrite length_app; fold h; lia|by eexists| |]; intros; cbn [serving rcv chunked_decode].
    + rewrite Hdec, Hr. cbn [mbind option_bind]. rewrite !(proj2 (Z.eqb_neq _ _)) by lia. by rewrite Hb1, Hb.
    + rewrite dci_started by (done || by rewrite Hbs1). unfold Chunked.run_fuel. rewrite Nat.add_succ_r. cbn [Chunked.run].
      unfold Chunked.step. rewrite Hph, <- Hrc. cbn [mbind option_bind]. rewrite !(proj2 (Z.eqb_neq _ _)) by lia. by rewrite Hb1, Hb.
Qed.

(** The application is called with the request and its answer is queued. *)
Lemma call_application_plain env m own queued fl cf pb rb st addr effs parts :
  plain_app -> read_again m (m_body m) = Some parts ->
  call_application ring env (m_req m) (m_path m) (m_fields m) parts (m_body m) (summary m)
    (serving own false 0 queued fl cf false pb rb st addr effs)
  = serving (m_response (http_date_now env) addr m) true 0 queued fl cf false pb rb st addr (effs ++ [Called (m_request addr m)]).
Proof.
  intros P Hp. assert (Hparts : m_parts m = parts).
  { unfold m_parts, read_again, m_first in *.
    destruct (PartsTotal.populate_total (m_target m) (m_fields m) []
      (mkParts (mkFields [] false) (mkFields [] false) (mkFields [] false) [])) as [p1 Hp1].
    rewrite Hp1 in *. cbn [mbind option_bind default from_option id] in *. by rewrite Hp. }
  unfold call_application, invoke_http1_handler. rewrite (pa_upload P).
  set (req := request_view _ _ _ _ _ _). assert (Hreq : req = m_request addr m) by (unfold req, m_request; by rewrite Hparts).
  rewrite Hreq. fold (answer (m_request addr m)). unfold install_response_state. by rewrite (pa_text P).
Qed.

Lemma dispatch_serves env pb st m q rest own has w queued fl cf ec addr effs :
  good m -> plain_app -> holds pb st m q -> q = m_text m ++ rest -> Z.of_nat (length (Buffer.view pb)) < 2 ^ 64 - 2 ->
  exists pb',
    dispatch_request ring env (serving own has w queued fl cf ec pb 0 st addr effs) (Buffer.view pb)
      = Some (serving (m_response (http_date_now env) addr m) true 0 queued fl cf false pb' 0 Chunked.fresh addr
                (effs ++ [Called (m_request addr m)])) /\
    BufferOk.wf pb' /\ Buffer.view pb' = rest.
Proof.
  intros H P Hh Hq Hsz. pose proof Hh as [Hwf _].
  destruct (body_ready env pb st m q rest own queued fl cf addr effs H P Hh Hq Hsz) as (n & st1 & storage & Hv & Hlen & (y & Hy) & Hr1 & Hr2).
  destruct (PartsTotal.populate_total (m_target m) (m_fields m) (m_body m)
    (mkParts (p_query (m_first m)) (mkFields [] false) (p_cookies (m_first m)) [])) as [parts Hparts].
  fold (read_again m (m_body m)) in Hparts.
  unfold dispatch_request. rewrite (dispatch_after_head env _ false m _ (y ++ rest)) by (done || by rewrite Hv, Hy, <- app_assoc).
  unfold after_head. rewrite Hv, Hr1. cbn [mbind option_bind]. rewrite Hparts. cbn [mbind option_bind negb serving rcv request_bytes partial
    set_request_bytes set_expect_continue_sent on_rcv].
  destruct (BufferOk.cut_prefix_ok (length (m_head m) + Z.to_nat n) pb Hwf) as (Hc1 & Hc2 & Hc3).
  destruct (Buffer.cut_prefix _ pb) as [stor b]. cbn [fst snd] in *. rewrite Hv, <- Hlen, take_app_length in Hc1.
  rewrite Hv, <- Hlen, drop_app_length in Hc3. subst stor.
  change (set_partial b _) with (serving own false 0 queued fl cf false b (length (m_head m) + Z.to_nat n) st1 addr effs).
  unfold dispatch_stored. rewrite (dispatch_after_head env _ true m storage y) by done. unfold after_head. rewrite Hr2.
  cbn [mbind option_bind]. rewrite Hparts. cbn [mbind option_bind negb].
  match goal with |- context [call_application _ _ _ _ _ _ _ _ ?c] =>
    change c with (serving own false 0 queued fl cf false b (length (m_head m) + Z.to_nat n) st1 addr effs) end.
  rewrite (call_application_plain env m _ _ _ _ _ _ _ _ _ parts) by done. by exists b.
Qed.

(** *** Completions of the kernel *)

Inductive event := Read (p : bytes) | Write (n : nat).

(** A read brings bytes; a write that was submitted completes with some of them. *)
Inductive kernel_step : Conn -> event -> Conn -> Prop :=
| k_read env p c c' : p <> [] -> received ring env p c = Some c' -> kernel_step c (Read p) c'
| k_write env n drained closed c c' :
    send_queued (snd_ c) = true -> (1 <= n <= length (in_flight (snd_ c)))%nat ->
    sent ring env n drained closed c = Some c' -> kernel_step c (Write n) c'.

Definition arrived (evs : list event) : bytes := concat (map (fun e => match e with Read p => p | Write _ => [] end) evs).

Definition called (effs : list Effect) : list RequestView := omap (fun e => match e with Called r => Some r | _ => None end) effs.
Definition output (effs : list Effect) : bytes := concat (map (fun e => match e with Wrote b => b | _ => [] end) effs).

(** What was submitted and has not been written. *)
Definition unsent (c : Conn) : bytes := if send_queued (snd_ c) then in_flight (snd_ c) else [].

Definition texts (ms : list message) : bytes := concat (map m_text ms).
Definition responses (addr : bytes) (dates : list bytes) (ms : list message) : bytes :=
  concat (zip_with (fun d m => m_response d addr m) dates ms).

Lemma called_app a b : called (a ++ b) = called a ++ called b.
Proof. apply omap_app. Qed.
Lemma output_app a b : output (a ++ b) = output a ++ output b.
Proof. unfold output. by rewrite map_app, concat_app. Qed.
Lemma arrived_app a b : arrived (a ++ b) = arrived a ++ arrived b.
Proof. unfold arrived. by rewrite map_app, concat_app. Qed.
Lemma texts_app a b : texts (a ++ b) = texts a ++ texts b.
Proof. unfold texts. by rewrite map_app, concat_app. Qed.

Lemma m_text_nonempty m : good m -> m_text m <> [].
Proof.
  intros H Hn. unfold m_text, m_head, head, request_line in Hn. destruct (g_line _ H) as [Hm _].
  by destruct (Http1.Head.method (m_req m)).
Qed.

Lemma holds_append pb st m q p :
  holds pb st m q -> Z.of_nat (length (q ++ p)) < 2 ^ 64 - 2 -> holds (Buffer.append p pb) st m (q ++ p).
Proof.
  intros [Hwf Hh] Hsz. destruct (BufferOk.append_ok p pb Hwf) as [Hwf' Hv']. split; [done|].
  destruct Hh as [[-> Hv]|(text & b & d & t & br & q' & ? & ? & ? & -> & Hv & Hok & ? & ? & ? & ?)]; [left; by rewrite Hv', Hv|right].
  exists text, b, d, t, br, (q' ++ p). rewrite Hv', Hv, <- !app_assoc. split_and!; try done.
  rewrite app_assoc, <- Hv. apply st_ok_more; [|done]. rewrite Hv. rewrite !length_app in *. lia.
Qed.

Lemma holds_length pb st m q : holds pb st m q -> (length (Buffer.view pb) <= length q)%nat.
Proof.
  intros [_ [[_ ->]|(? & ? & ? & ? & ? & ? & _ & _ & _ & -> & -> & _)]]; [done|]. rewrite !length_app. lia.
Qed.

(** Bytes have arrived on a connection that waits for a request. *)
Lemma dispatch_arrived env pb st m q z t own has w queued fl cf ec addr effs :
  good m -> plain_app -> holds pb st m q -> q ++ z = m_text m ++ t -> Z.of_nat (length q) < 2 ^ 64 - 2 ->
  (exists pb' st',
    dispatch_request ring env (serving own has w queued fl cf ec pb 0 st addr effs) (Buffer.view pb)
      = Some (serving own false 0 queued fl cf ec pb' 0 st' addr effs) /\
    holds pb' st' m q /\ exists more, more <> [] /\ q ++ more = m_text m) \/
  (exists pb' rest,
    dispatch_request ring env (serving own has w queued fl cf ec pb 0 st addr effs) (Buffer.view pb)
      = Some (serving (m_response (http_date_now env) addr m) true 0 queued fl cf false pb' 0 Chunked.fresh addr
                (effs ++ [Called (m_request addr m)])) /\
    BufferOk.wf pb' /\ Buffer.view pb' = rest /\ q = m_text m ++ rest).
Proof.
  intros H P Hh Hz Hsz. pose proof (holds_length _ _ _ _ Hh).
  destruct (decide (length q < length (m_text m))%nat) as [Hlt|Hge].
  - left. assert (Hmore : q ++ drop (length q) (m_text m) = m_text m).
    { rewrite <- (take_drop (length q) (m_text m)) at 2. f_equal. rewrite <- (take_app_le (m_text m) t), <- Hz by lia. by rewrite take_app_length. }
    assert (Hne : drop (length q) (m_text m) <> []).
    { intros Hd%(f_equal length). rewrite length_drop in Hd. simpl in Hd. lia. }
    destruct (dispatch_waits env pb st m q (drop (length q) (m_text m)) own has w queued fl cf ec addr effs) as (pb' & st' & Hd & Hh'); try done; [lia|].
    exists pb', st'. split_and!; [done|done|by eexists].
  - right. assert (Hrest : q = m_text m ++ drop (length (m_text m)) q).
    { rewrite <- (take_drop (length (m_text m)) q) at 1. f_equal. rewrite <- (take_app_le q z), Hz by lia. by rewrite take_app_length. }
    destruct (dispatch_serves env pb st m q (drop (length (m_text m)) q) own has w queued fl cf ec addr effs) as (pb' & Hd & Hw & Hv); try done; [lia|].
    exists pb', (drop (length (m_text m)) q). by split_and!.
Qed.

(** *** The invariant *)

Section run.
Context (P : plain_app) (ms : list message) (addr : bytes) (Hms : Forall good ms).
Context (Hsize : Z.of_nat (length (texts ms)) < 2 ^ 64 - 2).

(** What is expected next: a request of which part has arrived, or nothing. *)
Definition expects (k : nat) (pb : Buffer.PartialBuf) (st : Chunked.ChunkedDecodeState) (q : bytes) : Prop :=
  match ms !! k with
  | Some m => holds pb st m q /\ exists more, more <> [] /\ q ++ more = m_text m
  | None => q = [] /\ st = Chunked.fresh /\ BufferOk.wf pb /\ Buffer.view pb = []
  end.

(** Having received [got], the connection has answered the first [length dates]
    requests: it waits for the next one, or the last answer is being written. *)
Inductive served (got : bytes) (dates : list bytes) : Conn -> Prop :=
| served_waits own w fl cf ec pb st effs q :
    (length dates <= length ms)%nat -> got = texts (take (length dates) ms) ++ q ->
    called effs = map (m_request addr) (take (length dates) ms) -> output effs = responses addr dates ms ->
    expects (length dates) pb st q ->
    served got dates (serving own false w false fl cf ec pb 0 st addr effs)
| served_writes own w cf ec pb effs q :
    (length dates <= length ms)%nat -> got = texts (take (length dates) ms) ++ q ->
    called effs = map (m_request addr) (take (length dates) ms) ->
    output effs ++ drop w own = responses addr dates ms -> (w < length own)%nat ->
    BufferOk.wf pb -> Buffer.view pb = q ->
    served got dates (serving own true w true (drop w own) cf ec pb 0 Chunked.fresh addr effs).

Lemma texts_take_S k m : ms !! k = Some m -> texts (take (S k) ms) = texts (take k ms) ++ m_text m.
Proof.
  intros H. rewrite (take_S_r _ _ _ H), texts_app. unfold texts at 3. cbn. by rewrite app_nil_r.
Qed.

Lemma zip_with_snoc {X Y W} (f : X -> Y -> W) xs ys x y :
  ys !! length xs = Some y -> zip_with f (xs ++ [x]) ys = zip_with f xs ys ++ [f x y].
Proof. revert ys. induction xs as [|a xs IH]; intros [|b ys] H; try done; cbn in *; [by simplify_eq; destruct ys|by rewrite IH]. Qed.

Lemma responses_snoc dates date m :
  ms !! length dates = Some m -> responses addr (dates ++ [date]) ms = responses addr dates ms ++ m_response date addr m.
Proof. intros H. unfold responses. rewrite (zip_with_snoc _ _ _ _ _ H), concat_app. cbn. by rewrite app_nil_r. Qed.

Lemma m_response_nonempty date m : (0 < length (m_response date addr m))%nat.
Proof.
  unfold m_response. rewrite FormatOk.format_response_fields by (unfold is_ws_upgrade; by rewrite (pa_text P)).
  unfold FormatOk.status_line. rewrite <- !app_assoc, length_app. change (length (B "HTTP/1.1 ")) with 9%nat. lia.
Qed.

Lemma good_at k m : ms !! k = Some m -> good m.
Proof. intros H. rewrite Forall_lookup in Hms. by eapply Hms. Qed.

(** A connection that has received bytes looks for a request in them. *)
Lemma dispatch_served env pb st m q z dates own has w fl cf ec effs :
  ms !! length dates = Some m -> holds pb st m q ->
  (texts (take (length dates) ms) ++ q) ++ z = texts ms ->
  called effs = map (m_request addr) (take (length dates) ms) -> output effs = responses addr dates ms ->
  exists c' dates',
    dispatch_request ring env (serving own has w false fl cf ec pb 0 st addr effs) (Buffer.view pb) = Some c' /\
    served (texts (take (length dates) ms) ++ q) dates' (phase3_dispatch c').
Proof.
  intros Hm Hh Hz Hc Ho. pose proof (lookup_lt_Some _ _ _ Hm) as Hlt. pose proof (good_at _ _ Hm) as Hg.
  assert (Hq : q ++ z = m_text m ++ texts (drop (S (length dates)) ms)).
  { apply (app_inv_head (texts (take (length dates) ms))). rewrite app_assoc, Hz.
    rewrite <- (take_drop_middle ms (length dates) m Hm) at 1. rewrite texts_app. f_equal. }
  assert (Hsz : Z.of_nat (length q) < 2 ^ 64 - 2) by (rewrite <- Hz, !length_app in Hsize; lia).
  destruct (dispatch_arrived env pb st m q z _ own has w false fl cf ec addr effs Hg P Hh Hq Hsz)
    as [(pb' & st' & Hd & Hh' & Hmore)|(pb' & rest & Hd & Hw & Hv & Hrest)]; rewrite Hd.
  - eexists _, dates. split; [done|]. eapply served_waits; try done; [lia|]. unfold expects. by rewrite Hm.
  - eexists _, (dates ++ [http_date_now env]). split; [done|].
    change (phase3_dispatch _) with
      (serving (m_response (http_date_now env) addr m) true 0 true (drop 0 (m_response (http_date_now env) addr m)) cf false pb' 0
         Chunked.fresh addr (effs ++ [Called (m_request addr m)])).
    assert (Hlen : length (dates ++ [http_date_now env]) = S (length dates)) by (rewrite length_app; cbn; lia).
    apply (served_writes _ _ _ _ _ _ _ _ rest); rewrite ?Hlen; try done.
    + by rewrite (texts_take_S _ _ Hm), Hrest, <- app_assoc.
    + rewrite called_app, Hc, (take_S_r _ _ _ Hm), map_app. done.
    + rewrite output_app, (responses_snoc _ _ _ Hm), Ho. cbn. by rewrite drop_0, app_nil_r.
    + apply m_response_nonempty.
Qed.

Lemma expects_prefix k pb st q z :
  expects k pb st q -> (texts (take k ms) ++ q) ++ z = texts ms -> z <> [] -> exists m, ms !! k = Some m /\ holds pb st m q.
Proof.
  unfold expects. destruct (ms !! k) as [m|] eqn:Em; [intros [? _] _ _; by exists m|]. intros (-> & _) Hz Hne. exfalso.
  apply lookup_ge_None in Em. rewrite take_ge, app_nil_r in Hz by done. rewrite <- (app_nil_r (texts ms)) in Hz at 2.
  by apply app_inv_head in Hz.
Qed.

(** What has arrived with the read [p] and is not of a request the application was
    called with: it has to fit the receive buffer when nothing is being written. *)
Definition fits (got p : bytes) (c : Conn) : Prop :=
  send_queued (snd_ c) = false ->
  Z.of_nat (length (got ++ p)) - Z.of_nat (length (texts (take (length (called (effects c))) ms))) <= raw_receive_cap ring.

Inductive paced_steps : Conn -> list event -> Conn -> Prop :=
| ps_none c : paced_steps c [] c
| ps_read c evs c1 p c2 :
    paced_steps c evs c1 -> fits (arrived evs) p c1 -> kernel_step c1 (Read p) c2 -> paced_steps c (evs ++ [Read p]) c2
| ps_write c evs c1 n c2 :
    paced_steps c evs c1 -> kernel_step c1 (Write n) c2 -> paced_steps c (evs ++ [Write n]) c2.

Lemma read_served env p got z dates c :
  served got dates c -> p <> [] -> (got ++ p) ++ z = texts ms -> fits got p c ->
  exists c' dates', received ring env p c = Some c' /\ served (got ++ p) dates' c'.
Proof.
  intros Hs Hp Hz Hfit. unfold received. destruct Hs as [own w fl cf ec pb st effs q Hk -> Hc Ho He|own w cf ec pb effs q Hk -> Hc Ho Hw Hwf Hv].
  - destruct (expects_prefix _ _ _ _ (p ++ z) He) as (m & Hm & Hh); [by rewrite <- Hz, <- !app_assoc|by destruct p|].
    assert (Hpz : (texts (take (length dates) ms) ++ q ++ p) ++ z = texts ms) by (by rewrite <- Hz, <- !app_assoc).
    assert (Hlen : Z.of_nat (length (q ++ p)) <= Z.of_nat (length (texts ms))) by (rewrite <- Hpz, !length_app; lia).
    assert (Hcap : Z.of_nat (length (q ++ p)) <= raw_receive_cap ring).
    { specialize (Hfit eq_refl). cbn [serving effects] in Hfit. rewrite Hc, length_map, length_take_le, !length_app in Hfit by done.
      rewrite length_app. lia. }
    assert (Hh' := holds_append _ _ _ _ p Hh ltac:(lia)). pose proof (holds_length _ _ _ _ Hh') as Hl.
    assert (phase1_copy ring p (serving own false w false fl cf ec pb 0 st addr effs)
      = serving own false w false fl cf ec (Buffer.append p pb) 0 st addr effs) as ->.
    { unfold phase1_copy. cbn [serving snd_ close_after_send andb send_queued set_partial on_rcv rcv partial].
      rewrite (proj2 (Z.ltb_ge _ _)); [done|]. rewrite <- BufferOk.view_size. lia. }
    set (c1 := serving own false w false fl cf ec (Buffer.append p pb) 0 st addr effs).
    assert (phase2_build ring env c1 = dispatch_request ring env c1 (Buffer.view (Buffer.append p pb))) as -> by done.
    destruct (dispatch_served env (Buffer.append p pb) st m (q ++ p) z dates own false w fl cf ec effs) as (c' & dates' & Hd & Hs'); try done.
    fold c1 in Hd. rewrite Hd. cbn [mbind option_bind]. eexists _, dates'. split; [done|]. by rewrite <- app_assoc.
  - destruct (BufferOk.append_ok p pb Hwf) as [Hwf' Hv']. eexists _, dates. split; [done|].
    apply (served_writes _ _ own w cf ec (Buffer.append p pb) effs (q ++ p)); try done; [by rewrite <- app_assoc|by rewrite Hv', Hv].
Qed.

(** The last part of an answer is written: the next request is looked for. *)
Lemma sent_last env n drained closed own w fl cf ec pb effs :
  (length own <= w + n)%nat ->
  sent ring env n drained closed (serving own true w true fl cf ec pb 0 Chunked.fresh addr effs)
  = let pb0 := Buffer.consume 0 pb in
    let c1 := serving [] false 0 false fl cf ec pb0 0 Chunked.fresh addr (effs ++ [Wrote (take n fl)]) in
    if Buffer.empty pb0 then Some c1
    else c ← dispatch_request ring env c1 (Buffer.view pb0); Some (phase3_dispatch c).
Proof.
  intros Hle. unfold sent. cbn [serving att att0 new_conn mapped_file emit streamed_file snd_ has_response negb set_written on_snd
    written own_response in_flight]. rewrite (proj2 (Nat.ltb_ge _ _)) by done. by destruct ec.
Qed.

Lemma write_served env n drained closed got z dates c :
  served got dates c -> send_queued (snd_ c) = true -> (1 <= n <= length (in_flight (snd_ c)))%nat -> got ++ z = texts ms ->
  exists c' dates', sent ring env n drained closed c = Some c' /\ served got dates' c'.
Proof.
  intros Hs Hq Hn Hz. destruct Hs as [own w fl cf ec pb st effs q Hk -> Hc Ho He|own w cf ec pb effs q Hk -> Hc Ho Hw Hwf Hv]; [done|].
  cbn in Hn. rewrite length_drop in Hn.
  assert (Hce : called (effs ++ [Wrote (take n (drop w own))]) = map (m_request addr) (take (length dates) ms))
    by (rewrite called_app, Hc; apply app_nil_r).
  assert (Hoe : output (effs ++ [Wrote (take n (drop w own))]) ++ drop (w + n) own = responses addr dates ms).
  { rewrite output_app, <- Ho, <- app_assoc. f_equal. cbn. by rewrite app_nil_r, <- drop_drop, take_drop. }
  destruct (decide (w + n < length own)%nat) as [Hlt|Hge].
  - eexists _, dates. split.
    { unfold sent. cbn [serving att att0 new_conn mapped_file emit streamed_file snd_ has_response negb set_written on_snd
        written own_response in_flight]. by rewrite (proj2 (Nat.ltb_lt _ _)) by done. }
    by apply (served_writes _ _ own (w + n) cf ec pb _ q).
  - assert (Hn' : (w + n)%nat = length own) by lia. rewrite Hn', drop_all, app_nil_r in Hoe.
    rewrite sent_last by lia. cbn zeta.
    destruct (BufferOk.buffer_consume 0 pb) as [Hwf0 Hv0]. rewrite drop_0, Hv in Hv0. set (pb0 := Buffer.consume 0 pb) in *.
    destruct (Buffer.empty pb0) eqn:Ee.
    + apply BufferOk.empty_view in Ee. rewrite Hv0 in Ee. subst q. rewrite Ee in *. rewrite app_nil_r in *.
      eexists _, dates. split; [done|]. apply (served_waits _ _ [] 0 (drop w own) cf ec pb0 Chunked.fresh _ []); try done; [by rewrite app_nil_r|].
      unfold expects. destruct (ms !! length dates) as [m|] eqn:Em; [|done]. split; [by split; [|left]|].
      exists (m_text m). split; [eapply m_text_nonempty, good_at, Em|done].
    + assert (Hne : q <> []) by (intros ->; apply BufferOk.empty_view in Hv0; congruence).
      destruct (ms !! length dates) as [m|] eqn:Em.
      2: { exfalso. apply lookup_ge_None in Em. rewrite take_ge, <- app_assoc in Hz by done. rewrite <- (app_nil_r (texts ms)) in Hz at 2.
           apply app_inv_head in Hz. by apply app_eq_nil in Hz as [? _]. }
      destruct (dispatch_served env pb0 Chunked.fresh m q z dates [] false 0 (drop w own) cf ec (effs ++ [Wrote (take n (drop w own))]))
        as (c' & dates' & Hd & Hs'); try done; [by split; [|left]|].
      rewrite Hd. cbn [mbind option_bind]. by eexists _, dates'.
Qed.

Lemma steps_served evs c z :
  paced_steps (accept addr new_conn) evs c -> arrived evs ++ z = texts ms -> exists dates, served (arrived evs) dates c.
Proof.
  remember (accept addr new_conn) as c0 eqn:E0. intros Hk. revert z.
  induction Hk as [c|c evs c1 p c2 _ IH Hfit He|c evs c1 n c2 _ IH He]; intros z Hz; subst.
  - exists []. apply (served_waits _ _ [] 0 [] false false Buffer.clear Chunked.fresh [] []); [cbn; lia|done..|].
    unfold expects. destruct (ms !! _) as [m|] eqn:Em; [|split_and!; [done|done|apply BufferOk.wf_clear|done]].
    split; [by split; [apply BufferOk.wf_clear|left]|]. exists (m_text m). split; [eapply m_text_nonempty, good_at, Em|done].
  - rewrite arrived_app in *. rewrite <- app_assoc in Hz. destruct (IH eq_refl _ Hz) as [dates Hs].
    inversion He as [env p' ? ? Hp Hr|]; subst; unfold arrived at 2 in Hz; cbn in Hz.
    destruct (read_served env p (arrived evs) z dates c1 Hs Hp) as (c' & dates' & Hr' & Hs'); [by rewrite <- Hz, app_nil_r, app_assoc|done|].
    rewrite Hr in Hr'. injection Hr' as <-. exists dates'. unfold arrived at 2. cbn. by rewrite app_nil_r.
  - rewrite arrived_app in *. rewrite <- app_assoc in Hz. destruct (IH eq_refl _ Hz) as [dates Hs].
    inversion He as [|env n' drained closed ? ? Hq Hn Hr]; subst; unfold arrived at 2 in Hz; cbn in Hz.
    destruct (write_served env n drained closed (arrived evs) z dates c1 Hs Hq Hn Hz) as (c' & dates' & Hr' & Hs').
    rewrite Hr in Hr'. injection Hr' as <-. exists dates'. unfold arrived at 2. cbn. by rewrite app_nil_r.
Qed.

(** When nothing is being written, every request that has arrived is answered. *)
Lemma served_all got dates c j :
  served got dates c -> unsent c = [] -> (j <= length ms)%nat -> texts (take j ms) `prefix_of` got -> (j <= length dates)%nat.
Proof.
  intros [own w fl cf ec pb st effs q Hk -> Hc Ho He|own w cf ec pb effs q Hk -> Hc Ho Hw Hwf Hv] Hu Hj Hp.
  2: { apply (f_equal length) in Hu. cbn in Hu. rewrite length_drop in Hu. lia. }
  destruct (decide (j <= length dates)%nat) as [|Hlt]; [done|exfalso]. unfold expects in He.
  destruct (ms !! length dates) as [m|] eqn:Em; [|apply lookup_ge_None in Em; lia]. destruct He as [_ (more & Hne & Hmore)].
  apply prefix_length in Hp.
  assert (Hj' : take j ms = take (S (length dates)) ms ++ drop (S (length dates)) (take j ms)).
  { rewrite <- (take_drop (S (length dates)) (take j ms)) at 1. f_equal. rewrite take_take. f_equal. lia. }
  rewrite Hj', texts_app, (texts_take_S _ _ Em), <- Hmore, !length_app in Hp. destruct more; [done|]. cbn in Hp. lia.
Qed.

(** A connection that is sent good requests. *)
Lemma good_requests_served evs c z :
  paced_steps (accept addr new_conn) evs c -> arrived evs ++ z = texts ms ->
  exists dates, (length dates <= length ms)%nat /\
    called (effects c) = map (m_request addr) (take (length dates) ms) /\
    output (effects c) ++ unsent c = responses addr dates ms /\
    rejections c = [] /\ closing c = false /\
    (unsent c = [] -> forall j, (j <= length ms)%nat -> texts (take j ms) `prefix_of` arrived evs -> (j <= length dates)%nat) /\
    (forall env p, p <> [] -> p `prefix_of` z -> fits (arrived evs) p c -> is_Some (received ring env p c)) /\
    (forall env n drained closed, send_queued (snd_ c) = true -> (1 <= n <= length (in_flight (snd_ c)))%nat ->
       is_Some (sent ring env n drained closed c)).
Proof.
  intros Hk Hz. destruct (steps_served evs c z Hk Hz) as [dates Hs]. exists dates.
  assert (Hall := fun j => served_all (arrived evs) dates c j Hs).
  split_and!; [by destruct Hs|by destruct Hs| |by destruct Hs|by destruct Hs|eauto| |].
  - destruct Hs; [|done]. cbn. by rewrite app_nil_r.
  - intros env p Hp [z' ->] Hf. destruct (read_served env p (arrived evs) z' dates c Hs Hp) as (c' & _ & -> & _);
      [by rewrite <- app_assoc|done|by eexists].
  - intros env n drained closed Hq Hn.
    destruct (write_served env n drained closed (arrived evs) z dates c Hs Hq Hn Hz) as (c' & _ & -> & _). by eexists.
Qed.

End run.

End server.

End Client.

(** ** A server, two requests and a run *)

Module ServerProps.
Import Http1.Head Http1.Grammar Fields Target Parts Multipart Format Router.Dispatch Req Resp Reject Connection Serve ChunkWait Client.

(** Completions one after the other, all in one environment, with the reads in
    step with the answers. *)
Definition fitsb (ring : Ring) (ms : list message) (got p : bytes) (c : Conn) : bool :=
  send_queued (snd_ c) ||
  (Z.of_nat (length (got ++ p)) - Z.of_nat (length (texts (take (length (called (effects c))) ms))) <=? raw_receive_cap ring).

Definition exec_event (ring : Ring) (ms : list message) (env : Env) (got : bytes) (c : Conn) (e : event) : option Conn :=
  match e with
  | Read [] => None
  | Read p => if fitsb ring ms got p c then received ring env p c else None
  | Write n =>
      if send_queued (snd_ c) && (1 <=? n)%nat && (n <=? length (in_flight (snd_ c)))%nat then sent ring env n [] false c else None
  end.

Fixpoint exec (ring : Ring) (ms : list message) (env : Env) (got : bytes) (c : Conn) (evs : list event) : option Conn :=
  match evs with
  | [] => Some c
  | e :: evs => c ← exec_event ring ms env got c e; exec ring ms env (got ++ arrived [e]) c evs
  end.

Lemma exec_steps ring ms env c0 done c evs c' :
  paced_steps ring ms c0 done c -> exec ring ms env (arrived done) c evs = Some c' -> paced_steps ring ms c0 (done ++ evs) c'.
Proof.
  revert c done. induction evs as [|e evs IH]; intros c done Hk H; cbn [exec] in H; [injection H as <-; by rewrite app_nil_r|].
  destruct (exec_event ring ms env (arrived done) c e) as [c1|] eqn:E; [|done]. cbn [mbind option_bind] in H.
  rewrite (cons_middle e), app_assoc. apply (IH c1); [|by rewrite arrived_app]. destruct e as [[|b p]|n]; cbn [exec_event] in E; [done| |].
  - destruct (fitsb _ _ _ _ _) eqn:Ef; [|done]. eapply ps_read; [done| |by eapply k_read].
    intros Hq. unfold fitsb in Ef. rewrite Hq in Ef. by apply Z.leb_le.
  - destruct (_ && _) eqn:Eb; [|done]. apply andb_true_iff in Eb as [[E1 E2]%andb_true_iff E3]. apply Nat.leb_le in E2, E3.
    eapply ps_write; [done|]. by eapply k_write.
Qed.

(** A server that answers with the body of the request. *)
Definition echo_ring : Ring :=
  mkRing [] 1000 false [] (mkLimits 100 100 10 400 8) 4 (fun req => Returns (text (Req.body req) 200)) (fun _ => None) (fun _ _ => None).

Definition sized_message : message :=
  mkMessage (mkRequest (B "POST") (B "/") (B "HTTP/1.1") [(B "Host", B "a"); (B "Content-Length", B "2")] 43)
    [B "Host: a"; B "Content-Length: 2"] (Sized (B "hi")).

Definition chunked_message : message :=
  mkMessage (mkRequest (B "PUT") (B "/x?q=1") (B "HTTP/1.1") [(B "Host", B "a"); (B "Transfer-Encoding", B "chunked")] 56)
    [B "Host: a"; B "Transfer-Encoding: chunked"] (Coded (B "2" ++ crlf ++ B "ok" ++ crlf ++ B "0" ++ crlf ++ crlf) (B "ok")).

Definition sample_env : Env := mkEnv (B "now") [].

Lemma echo_plain : plain_app echo_ring.
Proof. by constructor. Qed.

Ltac prove_field := eexists [x20], []; split_and!; try done; by apply forallb_Forall.

Lemma sized_good : good echo_ring sized_message.
Proof.
  constructor.
  - split_and!; [done|by apply forallb_Forall|done|by apply forallb_Forall|by right].
  - repeat constructor; prove_field.
  - split_and!; try (vm_compute; lia); repeat constructor; vm_compute; lia.
  - reflexivity.
  - reflexivity.
  - reflexivity.
  - reflexivity.
  - split; [done|by right].
  - done.
Qed.

Lemma chunked_good : good echo_ring chunked_message.
Proof.
  constructor.
  - split_and!; [done|by apply forallb_Forall|done|by apply forallb_Forall|by right].
  - repeat constructor; prove_field.
  - split_and!; try (vm_compute; lia); repeat constructor; vm_compute; lia.
  - reflexivity.
  - reflexivity.
  - reflexivity.
  - reflexivity.
  - split; [done|by right].
  - split_and!; [done|done|]. exists 2%nat, 0%nat, 0%nat. split_and!; [|cbn; lia|done|unfold Chunked.kMaxChunkTrailerLines; lia|unfold Chunked.kMaxChunkTrailerBytes; lia].
    apply (sc_chunk (B "2") (B "ok") 1 0 0 (B "0" ++ crlf ++ crlf) []); [done|vm_compute; lia|by apply parse_chunk_size_line_spec|done|].
    apply (sc_last (B "0") 0 0 crlf); [done|vm_compute; lia|by apply parse_chunk_size_line_spec|constructor].
Qed.

Definition sample_events : list event :=
  let t := texts [sized_message; chunked_message] in
  [Read (take 20 t); Read (take 90 (drop 20 t)); Write 30; Read (drop 110 t); Write 86; Write 116].

(** All that arrived has been answered and written. *)
Definition finished (o : option Conn) : bool :=
  match o with Some c => bytes_eqb (unsent c) [] | None => false end.

Lemma sample_finished : finished (exec echo_ring [sized_message; chunked_message] sample_env [] (accept (B "1.2.3.4") new_conn) sample_events) = true.
Proof. vm_compute. reflexivity. Qed.

Lemma sample_run :
  exists c, paced_steps echo_ring [sized_message; chunked_message] (accept (B "1.2.3.4") new_conn) sample_events c /\ unsent c = [].
Proof.
  pose proof sample_finished as H. unfold finished in H.
  destruct (exec _ _ _ _ _ _) as [c|] eqn:E; [|done]. exists c. split; [|by apply bytes_eqb_eq].
  by apply (exec_steps _ _ sample_env _ [] _ _ _ (ps_none _ _ _) E).
Qed.

Lemma sample_arrived : arrived sample_events ++ [] = texts [sized_message; chunked_message].
Proof. vm_compute. reflexivity. Qed.

End ServerProps.
