(* ===== verification/HttpAuthentic.v ===== *)
(** * Whatever arrives, the application sees the requests that were sent

    [HttpServer] follows a client that sends requests the server accepts. Here the
    bytes are arbitrary. [framed] says what it means for bytes to be a request with a
    body of a length that all readers agree on: exactly one [Content-Length], or
    exactly one [Transfer-Encoding] that is [chunked], or neither. A first theorem is
    that requests of this kind are all served, in order. A second one is that the
    requests the application is called with are the framed requests the bytes start
    with, one after the other, whatever the sizes of the reads and writes and whatever
    fails in between, and that none of them is passed over on an open connection: no
    request starts inside the body of another. A head that does not give the length of
    its body in exactly one way ends the requests of the connection. A last theorem
    shows what the connection loses: a request after which it closes, when the body
    comes in a later read than the head. *)

From Stdlib Require Import ZArith Lia Strings.Byte String.
From stdpp Require Import base tactics option numbers list.
From S2P Require Import Prelude.
From S2P Require Import Codec.
From S2P Require Import Http1.
From S2P Require Import HttpBody.
From S2P Require Import HttpTypes.
From S2P Require Import HttpMessage.
From S2P Require Import HttpServe.
From S2P Require Import HttpUpload.
From S2P Require Import Router.
From S2P Require Import HttpConn.
From S2P Require Import HttpServer.

(** ** Decoding with the bytes that were read taken out of the buffer *)

Module Shift.
Import Http1.Head Chunked.

Definition shift (k : nat) (st : ChunkedDecodeState) : ChunkedDecodeState :=
  mkChunked (active st) (body_start st) (pos st + k) (chunks_seen st) (current_chunk_size st) (remaining st) (trailer_lines st)
    (trailer_bytes st) (body_bytes st) (phase st) (body st).

Definition shift_rc (k : nat) (rc : Z) : Z := if 0 <? rc then rc + Z.of_nat k else rc.

Lemma step_forward raw mb mc st st1 : step raw mb mc st = Some (inl st1) -> (pos st <= pos st1)%nat.
Proof.
  unfold step. destruct (phase st).
  - destruct (sv_find_sub crlf raw (pos st)) as [e|] eqn:E; [|done]. apply find_crlf_bounds in E as [He _]. cbn [chunks_seen pos body_bytes].
    intros H. repeat case_match; simplify_eq; cbn; lia.
  - intros H. repeat case_match; simplify_eq; cbn; lia.
  - intros H. destruct (_ <? 2); [done|]. destruct (raw !! pos st), (raw !! S (pos st)); try done. simpl in H. case_match; simplify_eq. cbn. lia.
  - destruct (sv_find_sub crlf raw (pos st)) as [e|] eqn:E; [|done]. apply find_crlf_bounds in E as [He _].
    intros H. repeat case_match; simplify_eq; cbn; lia.
  - done.
Qed.

Section shift.
Context (mb : Z) (mc : nat) (raw whole : bytes) (k p0 : nat).
Context (Hlen : length whole = (length raw + k)%nat) (Hsize : Z.of_nat (length whole) < 2 ^ 64 - 2).
Context (Hsame : drop p0 raw = drop (p0 + k) whole).

Lemma same_from p : (p0 <= p)%nat -> drop (p + k) whole = drop p raw.
Proof.
  intros Hp. replace (p + k)%nat with ((p0 + k) + (p - p0))%nat by lia. rewrite <- drop_drop, <- Hsame, drop_drop. f_equal. lia.
Qed.

Lemma find_shift p : (p0 <= p)%nat -> sv_find_sub crlf whole (p + k) = (fun e => (e + k)%nat) <$> sv_find_sub crlf raw p.
Proof.
  intros Hp. unfold sv_find_sub. rewrite same_from by done. destruct (find_sub crlf (drop p raw)); cbn; [f_equal; lia|done].
Qed.

Lemma substr_shift p n : (p0 <= p)%nat -> substr whole (p + k) n = substr raw p n.
Proof. intros Hp. unfold substr. by rewrite same_from. Qed.

Lemma available_shift p : (p0 <= p <= length raw)%nat -> available_bytes whole (p + k) = available_bytes raw p.
Proof. intros Hp. rewrite !available_small by lia. lia. Qed.

Lemma lookup_shift p : (p0 <= p)%nat -> whole !! (p + k)%nat = raw !! p.
Proof. intros Hp. rewrite <- (Nat.add_0_r (p + k)), <- lookup_drop, same_from, lookup_drop by done. f_equal. lia. Qed.

Lemma step_shift st :
  st_ok mb raw st -> (p0 <= pos st)%nat ->
  step whole mb mc (shift k st) =
  match step raw mb mc st with
  | None => None
  | Some (inl st1) => Some (inl (shift k st1))
  | Some (inr (rc, st1)) => Some (inr (shift_rc k rc, shift k st1))
  end.
Proof.
  intros Hok Hp. destruct (ok_start _ _ _ Hok) as [Hs1 Hs2]. unfold step. cbn [shift phase pos chunks_seen remaining trailer_lines
    trailer_bytes body_bytes body active body_start current_chunk_size]. destruct (phase st) eqn:Hph.
  - rewrite find_shift by done. rewrite available_shift by done.
    destruct (sv_find_sub crlf raw (pos st)) as [e|] eqn:E; cbn [fmap option_fmap option_map]; [|by destruct (_ <? _)].
    apply find_crlf_bounds in E as [He1 He2]. destruct (_ <? _)%nat; [done|].
    replace (e + k - (pos st + k))%nat with (e - pos st)%nat by lia. rewrite substr_shift by done.
    destruct (parse_chunk_size_line _) as [n|]; [|done]. replace (e + k + 2)%nat with (e + 2 + k)%nat by lia.
    destruct (n =? 0); [done|]. by destruct (_ || _).
  - rewrite available_shift by done. destruct (Nat.leb_spec (length raw) (pos st)), (Nat.leb_spec (length whole) (pos st + k)); try lia; [done|].
    destruct (0 <? Z.min _ _); cbn [remaining]; [|by destruct (0 <? _)]. rewrite substr_shift by done.
    replace (pos st + k + Z.to_nat (Z.min (remaining st) (available_bytes raw (pos st))))%nat
      with (pos st + Z.to_nat (Z.min (remaining st) (available_bytes raw (pos st))) + k)%nat by lia.
    by destruct (0 <? _).
  - rewrite available_shift by done. destruct (_ <? 2); [done|].
    replace (S (pos st + k)) with (S (pos st) + k)%nat by lia. rewrite !lookup_shift by lia.
    destruct (raw !! pos st), (raw !! S (pos st)); cbn [mbind option_bind]; try done. destruct (_ || _); [done|].
    replace (pos st + k + 2)%nat with (pos st + 2 + k)%nat by lia. done.
  - rewrite find_shift by done. rewrite available_shift by done.
    destruct (sv_find_sub crlf raw (pos st)) as [e|] eqn:E; cbn [fmap option_fmap option_map]; [|by destruct (_ <? _)].
    apply find_crlf_bounds in E as [He1 He2].
    replace (e + k =? pos st + k)%nat with (e =? pos st)%nat by (apply eq_true_iff_eq; rewrite !Nat.eqb_eq; lia).
    destruct (e =? pos st)%nat.
    + unfold shift_rc. rewrite (proj2 (Z.ltb_lt _ _)) by lia. unfold shift. cbn. do 4 f_equal; lia.
    + replace (e + k - (pos st + k) + 2)%nat with (e - pos st + 2)%nat by lia.
      destruct (accept_chunk_trailer_line _ _ _) as [[l b]|]; [|done]. unfold shift. cbn. do 3 f_equal. lia.
  - pose proof (ok_complete _ _ _ Hok Hph). unfold shift_rc. rewrite (proj2 (Z.ltb_lt _ _)) by lia. do 3 f_equal. lia.
Qed.

Lemma run_shift fuel st rc st1 :
  st_ok mb raw st -> (p0 <= pos st)%nat -> run fuel raw mb mc st = Some (rc, st1) ->
  run fuel whole mb mc (shift k st) = Some (shift_rc k rc, shift k st1).
Proof.
  revert st. induction fuel as [|fuel IH]; intros st Hok Hp H; [done|]. cbn [run] in *. rewrite step_shift by done.
  pose proof (chunk_step_ok mb mc raw st Hok) as Hg. destruct (step raw mb mc st) as [[st2|[rc2 st2]]|] eqn:Es; [| |done].
  - destruct Hg as (Hok2 & Hm & Hbs). apply IH; try done. apply step_forward in Es. lia.
  - by injection H as -> ->.
Qed.

End shift.
End Shift.

(** ** What the headers say about the body *)

Module Framing.
Import Http1.Head Http1.Grammar Codec.Ascii Fields FieldsOk HeaderList HeaderListOk MediaType ContentLength Parts Reject Connection Serve ChunkWait Client.

(** The values of a field, whatever the case of its name. *)
Definition field_values (hs : list (bytes * bytes)) (name : bytes) : list bytes :=
  omap (fun h => if bytes_eqb (ascii_lower h.1) (ascii_lower name) then Some h.2 else None) hs.

Lemma field_values_cons name h hs :
  field_values (h :: hs) name = if ascii_iequals h.1 name then h.2 :: field_values hs name else field_values hs name.
Proof. unfold field_values, ascii_iequals. cbn. by destruct (bytes_eqb _ _). Qed.

(** The summary after some headers: the counts and the first lengths given. *)
Definition counts (s : CommonHeaderSummary) : nat * nat * nat * option bytes :=
  (host_count s, content_length_count s, transfer_encoding_count s, sum_content_length s).

Lemma iequals_other a x y : bytes_eqb (ascii_lower x) (ascii_lower y) = false -> ascii_iequals a x = true -> ascii_iequals a y = false.
Proof. unfold ascii_iequals. rewrite bytes_eqb_eq, !bytes_eqb_ne. congruence. Qed.

Lemma note_counts s h :
  counts (note_common_header s h) =
  (host_count s + (if ascii_iequals h.1 (B "host") then 1 else 0),
   content_length_count s + (if ascii_iequals h.1 (B "content-length") then 1 else 0),
   transfer_encoding_count s + (if ascii_iequals h.1 (B "transfer-encoding") then 1 else 0),
   if ascii_iequals h.1 (B "content-length") then first_of (sum_content_length s) h.2 else sum_content_length s)%nat.
Proof.
  destruct h as [n v], s as [hc cc tc ho cl ct ck c1 c2 c3 c4]. unfold note_common_header, counts. cbn [fst snd].
  destruct (ascii_iequals n (B "host")) eqn:E1.
  { rewrite !(iequals_other n (B "host")) by done. cbn. rewrite !Nat.add_0_r, Nat.add_1_r. done. }
  destruct (ascii_iequals n (B "content-length")) eqn:E2.
  { rewrite !(iequals_other n (B "content-length")) by done. cbn. rewrite !Nat.add_0_r, Nat.add_1_r. done. }
  destruct (ascii_iequals n (B "transfer-encoding")); cbn; rewrite !Nat.add_0_r, ?Nat.add_1_r; [done|].
  by repeat case_match.
Qed.

Lemma fold_counts hs s :
  counts (fold_left note_common_header hs s) =
  (host_count s + length (field_values hs (B "host")), content_length_count s + length (field_values hs (B "content-length")),
   transfer_encoding_count s + length (field_values hs (B "transfer-encoding")),
   match sum_content_length s with Some v => Some v | None => hd_error (field_values hs (B "content-length")) end)%nat.
Proof.
  revert s. induction hs as [|h hs IH]; intros s; cbn [fold_left].
  - unfold counts, field_values. cbn. rewrite !Nat.add_0_r. by destruct (sum_content_length s).
  - rewrite IH. pose proof (note_counts s h) as Hn. unfold counts in Hn. injection Hn as -> -> -> ->. rewrite !field_values_cons.
    destruct (ascii_iequals h.1 (B "host")), (ascii_iequals h.1 (B "content-length")), (ascii_iequals h.1 (B "transfer-encoding"));
      destruct (sum_content_length s); cbn [length hd_error first_of]; repeat (apply pair_equal_spec; split); (lia || done).
Qed.

Section message.
Context (m : message).
Let hs := Http1.Head.headers (m_req m).

Lemma summary_counts :
  host_count (summary m) = length (field_values hs (B "host")) /\
  content_length_count (summary m) = length (field_values hs (B "content-length")) /\
  transfer_encoding_count (summary m) = length (field_values hs (B "transfer-encoding")) /\
  sum_content_length (summary m) = hd_error (field_values hs (B "content-length")).
Proof. pose proof (fold_counts hs no_headers) as H. unfold counts in H. cbn [host_count content_length_count
  transfer_encoding_count sum_content_length no_headers Nat.add] in H. change (fold_left note_common_header hs no_headers) with (summary m) in H.
  by injection H as -> -> -> ->. Qed.

(** A value that is one token, [chunked]. *)
Definition says_chunked (v : bytes) : Prop := x2c ∉ v /\ ascii_iequals (trim v) (B "chunked") = true.

Lemma te_loop_one tokens n : te_loop tokens n = (true, 1%nat) -> (n = 0%nat /\ exists t, tokens = [t] /\ ascii_iequals t (B "chunked") = true) \/
  (n = 1%nat /\ tokens = []).
Proof.
  destruct tokens as [|t rest]; cbn [te_loop]; [intros [= ->]; by right|]. intros H. left.
  destruct t as [|c t]; [done|]. destruct (ascii_iequals (c :: t) (B "chunked")) eqn:E; [|done]. cbn [negb] in H.
  destruct rest as [|t' rest]; [cbn in H; injection H as [= ->]; split; [done|by eexists]|]. exfalso.
  assert (Hge : forall ts k b j, te_loop ts k = (b, j) -> (k <= j)%nat).
  { clear. induction ts as [|[|a u] ts IH]; intros k b j H; cbn [te_loop] in H; [by injection H as <- <-|by injection H as <- <-|].
    destruct (ascii_iequals _ _); cbn [negb] in H; [apply IH in H; lia|by injection H as <- <-]. }
  cbn [te_loop] in H. destruct t' as [|a u]; [done|]. destruct (ascii_iequals (a :: u) _); [|done]. cbn [negb] in H. apply Hge in H. lia.
Qed.

Lemma split_on_single c s t : split_on c s = [t] -> c ∉ s /\ t = s.
Proof.
  intros H. pose proof (join_split_on c s) as Hj. pose proof (split_on_clean c s) as Hc. rewrite H in Hj, Hc. cbn in Hj. subst t.
  split; [by inversion Hc|done].
Qed.

(** A visit of the values of a field. *)
Fixpoint visit {S} (fn : S -> bytes -> S * bool) (vs : list bytes) (s : S) : S :=
  match vs with
  | [] => s
  | v :: vs => let '(s', go) := fn s v in if go then visit fn vs s' else s'
  end.

Lemma until_visit {S} (fn : S -> bytes -> S * bool) name data s :
  fst (for_each_matching_until_in true name fn data s) = visit fn (field_values data name) s.
Proof.
  revert s. induction data as [|[k v] data IH]; intros s; [done|]. rewrite field_values_cons. cbn [for_each_matching_until_in fst snd key_eq].
  destruct (ascii_iequals k name); cbn [negb visit]; [|apply IH]. destruct (fn s v) as [s' []]; [apply IH|done].
Qed.

Lemma valid_te v :
  field_values hs (B "transfer-encoding") = [v] -> has_valid_chunked_transfer_encoding (m_fields m) = true -> says_chunked v.
Proof.
  intros Hv. unfold has_valid_chunked_transfer_encoding, m_fields. cbn [case_insensitive_ data_].
  destruct (fst _) as [ok n] eqn:E. rewrite until_visit in E. change (Http1.Head.headers (m_req m)) with hs in E. rewrite Hv in E.
  cbn [visit] in E. rewrite HeaderListOk.header_tokens_spec in E. cbn [default from_option id fst snd] in E.
  set (r := te_loop (map trim (split_on x2c v)) 0) in *. assert (Hr : r = (ok, n)) by (by destruct r.1). clear E.
  intros [-> ->%Nat.eqb_eq]%andb_true_iff. destruct (te_loop_one _ _ Hr) as [(_ & t & Ht & Hc)|(? & _)]; [|done].
  destruct (split_on x2c v) as [|a [|]] eqn:Es; [done| |done]. apply split_on_single in Es as [Hn ->].
  cbn in Ht. injection Ht as <-. by split.
Qed.

End message.

Section framed.
Context (ring : Ring).

(** A request: its head is one of the grammar, within the limits, with one [Host]
    where the version asks for it; its body has the length the head gives. *)
Record framed (m : message) : Prop := {
  f_line : request_line_ok (m_req m);
  f_fields : Forall2 field_line (Http1.Head.headers (m_req m)) (m_lines m);
  f_within : within (parser_limits ring) (m_req m) (m_lines m);
  f_end : header_end_offset (m_req m) = (length (request_line (m_req m)) + length (block (m_lines m)))%nat;
  f_host : Http1.Head.version (m_req m) = B "HTTP/1.1" -> exists v, field_values (Http1.Head.headers (m_req m)) (B "host") = [v];
  f_body :
    let lengths := field_values (Http1.Head.headers (m_req m)) (B "content-length") in
    let encodings := field_values (Http1.Head.headers (m_req m)) (B "transfer-encoding") in
    match m_form m with
    | NoBody => lengths = [] /\ encodings = []
    | Sized b => encodings = [] /\ exists v, lengths = [v] /\ v <> [] /\ Forall (fun c => is_digit c = true) v /\
        dec_value v = Z.of_nat (length b) /\ Z.of_nat (length b) <= max_body_size ring
    | Coded text b => lengths = [] /\ exists v, encodings = [v] /\ says_chunked v /\
        exists n k s, chunked_text n k s text b /\ (n <= max_chunks (parser_limits ring))%nat /\
          Z.of_nat (length b) <= max_body_size ring /\
          (k <= Chunked.kMaxChunkTrailerLines)%nat /\ (s <= Chunked.kMaxChunkTrailerBytes)%nat
    end
}.

(** The head of a request, whatever its body. *)
Record headed (m : message) : Prop := {
  h_line : request_line_ok (m_req m);
  h_fields : Forall2 field_line (Http1.Head.headers (m_req m)) (m_lines m);
  h_within : within (parser_limits ring) (m_req m) (m_lines m);
  h_end : header_end_offset (m_req m) = (length (request_line (m_req m)) + length (block (m_lines m)))%nat
}.

Lemma headed_length m : headed m -> (header_end_offset (m_req m) + 4)%nat = length (m_head m).
Proof. intros H. rewrite (h_end _ H). unfold m_head, Grammar.head. rewrite !length_app. cbn [length crlf]. lia. Qed.

Lemma headed_parses m x out : headed m -> parse_request (m_head m ++ x) (parser_limits ring) out = Some (StOk, m_req m).
Proof. intros [? ? ? ?]. apply parse_request_complete. by exists (m_lines m), x. Qed.

Lemma parsed_headed raw out r :
  parse_request raw (parser_limits ring) out = Some (StOk, r) ->
  exists m x, m_req m = r /\ headed m /\ raw = m_head m ++ x.
Proof.
  intros (lines & rest & -> & H1 & H2 & H3 & H4)%parse_request_sound. exists (mkMessage r lines NoBody), rest. done.
Qed.

Lemma framing_host m : validate_http1_host_headers (Http1.Head.version (m_req m)) (summary m) = None ->
  Http1.Head.version (m_req m) = B "HTTP/1.1" -> exists v, field_values (Http1.Head.headers (m_req m)) (B "host") = [v].
Proof.
  unfold validate_http1_host_headers. intros H Hv. rewrite Hv, bytes_eqb_refl in H. cbn [negb] in H.
  destruct (summary_counts m) as (Hc & _). rewrite Hc in H. destruct (field_values _ _) as [|v [|]]; [done|by eexists|done].
Qed.

(** Headers the checks let through give the length of the body in one way. *)
Lemma framing_cases m :
  framing_error (m_fields m) (summary m) = None ->
  let lengths := field_values (Http1.Head.headers (m_req m)) (B "content-length") in
  let encodings := field_values (Http1.Head.headers (m_req m)) (B "transfer-encoding") in
  (lengths = [] /\ encodings = []) \/ (encodings = [] /\ exists v, lengths = [v]) \/
  (lengths = [] /\ exists v, encodings = [v] /\ says_chunked v).
Proof.
  intros H lengths encodings. destruct (summary_counts m) as (_ & Hc & Ht & _). unfold framing_error in H. rewrite Hc, Ht in H.
  fold lengths encodings in H. destruct lengths as [|v [|]] eqn:El, encodings as [|w [|]] eqn:Ee; cbn in H; try done.
  - by left.
  - right; right. split; [done|]. exists w. split; [done|]. apply (valid_te m); [done|]. by destruct (has_valid_chunked_transfer_encoding _).
  - right; left. split; [done|]. by eexists.
Qed.

(** *** Requests the server keeps the connection for *)

(** One of the tokens of a list, between commas. *)
Definition lists (v t : bytes) : Prop := exists w, w ∈ map trim (split_on x2c v) /\ ascii_lower w = t.

(** A framed request, shorter than the limits by a byte, that expects nothing of the
    server before its body and after which the connection stays open. *)
Record orderly (m : message) : Prop := {
  o_framed : framed m;
  o_room : room (parser_limits ring) (m_req m) (m_lines m);
  o_short : forall text b, m_form m = Coded text b -> exists n k s, short_chunks n k s text b /\
    (n <= max_chunks (parser_limits ring))%nat /\ (k <= Chunked.kMaxChunkTrailerLines)%nat /\ (s <= Chunked.kMaxChunkTrailerBytes)%nat;
  o_expect : field_values (Http1.Head.headers (m_req m)) (B "expect") = [];
  o_keep : Forall (fun v => ~ lists v (B "close")) (field_values (Http1.Head.headers (m_req m)) (B "connection")) /\
    (Http1.Head.version (m_req m) = B "HTTP/1.1" \/
     Exists (fun v => lists v (B "keep-alive")) (field_values (Http1.Head.headers (m_req m)) (B "connection")))
}.

Lemma lists_contains v t :
  t <> [] -> ascii_lower t = t -> default false (header_token_contains v t) = true <-> lists v t.
Proof.
  intros Hne Ht. unfold header_token_contains, lists.
  assert (Hx : existsb (fun part => ascii_iequals part t) (map trim (split_on x2c v)) = true <->
    exists w, w ∈ map trim (split_on x2c v) /\ ascii_lower w = t).
  { rewrite existsb_exists. unfold ascii_iequals. rewrite Ht. split; intros (w & Hw & E); exists w; split; try (by apply list_elem_of_In);
      by apply bytes_eqb_eq. }
  rewrite <- Hx. destruct v as [|c v].
  - cbn. unfold ascii_iequals. rewrite Ht. by destruct t.
  - by rewrite header_tokens_spec.
Qed.

(** The flags of the summary after some headers. *)
Lemma fold_connection (hs : list (bytes * bytes)) t s :
  t = B "close" \/ t = B "keep-alive" ->
  (if bytes_eqb t (B "close") then connection_close (fold_left note_common_header hs s) else connection_keep_alive (fold_left note_common_header hs s))
  = existsb (fun v => default false (header_token_contains v t)) (field_values hs (B "connection")) ||
    (if bytes_eqb t (B "close") then connection_close s else connection_keep_alive s).
Proof.
  intros Ht. revert s. induction hs as [|[n v] hs IH]; intros s; [done|]. cbn [fold_left]. rewrite IH, field_values_cons. cbn [fst snd].
  clear IH. destruct s as [hc cc tc ho cl ct ck c1 c2 c3 c4]. unfold note_common_header.
  destruct (ascii_iequals n (B "connection")) eqn:E.
  - rewrite !(iequals_other n (B "connection")) by done.
    cbn [existsb]. destruct Ht as [-> | ->]; cbn [bytes_eqb connection_close connection_keep_alive];
      [change (bytes_eqb (B "close") (B "close")) with true|change (bytes_eqb (B "keep-alive") (B "close")) with false]; cbn iota;
      rewrite orb_assoc; f_equal; apply orb_comm.
  - f_equal. by repeat case_match.
Qed.

Lemma fold_expect (hs : list (bytes * bytes)) s :
  field_values hs (B "expect") = [] -> common_expect_state (fold_left note_common_header hs s) = common_expect_state s.
Proof.
  revert s. induction hs as [|[n v] hs IH]; intros s; [done|]. rewrite field_values_cons. cbn [fold_left fst snd].
  destruct (ascii_iequals n (B "expect")) eqn:E; [done|]. intros H. rewrite IH by done. clear IH.
  destruct s as [hc cc tc ho cl ct ck c1 c2 c3 c4]. unfold note_common_header. rewrite E. by repeat case_match.
Qed.

Lemma orderly_keep m : orderly m ->
  connection_close (summary m) = false /\ (connection_keep_alive (summary m) = true \/ Http1.Head.version (m_req m) = B "HTTP/1.1").
Proof.
  intros H. destruct (o_keep _ H) as [Hc Hk]. set (hs := Http1.Head.headers (m_req m)) in *. split.
  - apply not_true_iff_false. intros E. pose proof (fold_connection hs (B "close") no_headers ltac:(by left)) as Hf.
    change (bytes_eqb (B "close") (B "close")) with true in Hf. cbn iota in Hf. fold (summary m) in Hf. unfold summary in E. fold hs in E.
    rewrite E in Hf. cbn [connection_close no_headers] in Hf. rewrite orb_false_r in Hf. symmetry in Hf. apply existsb_exists in Hf as (v & Hv & Hl).
    apply lists_contains in Hl; [|done|done]. rewrite Forall_forall in Hc. apply (Hc v); [by apply list_elem_of_In|done].
  - destruct Hk as [Hk|Hk]; [by right|left]. pose proof (fold_connection hs (B "keep-alive") no_headers ltac:(by right)) as Hf.
    change (bytes_eqb (B "keep-alive") (B "close")) with false in Hf. cbn iota in Hf. unfold summary. fold hs. rewrite Hf.
    apply orb_true_iff. left. apply existsb_exists. apply Exists_exists in Hk as (v & Hv & Hl). exists v. split; [by apply list_elem_of_In|].
    by apply lists_contains.
Qed.

Lemma valid_te_says m v :
  field_values (Http1.Head.headers (m_req m)) (B "transfer-encoding") = [v] -> says_chunked v ->
  has_valid_chunked_transfer_encoding (m_fields m) = true.
Proof.
  intros Hv [Hn Hc]. unfold has_valid_chunked_transfer_encoding, m_fields. cbn [case_insensitive_ data_].
  destruct (fst _) as [ok n] eqn:E. rewrite until_visit, Hv in E. cbn [visit] in E. rewrite header_tokens_spec, split_on_none in E by done.
  cbn [default from_option id fst snd map te_loop] in E. destruct (trim v) as [|c u]; [done|]. rewrite Hc in E. cbn in E. by injection E as <- <-.
Qed.

Lemma orderly_framing m : orderly m -> framing_error (m_fields m) (summary m) = None.
Proof.
  intros H. unfold framing_error. destruct (summary_counts m) as (_ & -> & -> & _).
  pose proof (fold_expect (Http1.Head.headers (m_req m)) no_headers (o_expect _ H)) as He. fold (summary m) in He.
  change (common_expect_state (fold_left note_common_header (Http1.Head.headers (m_req m)) no_headers)) with (common_expect_state (summary m)) in He.
  rewrite He. pose proof (f_body _ (o_framed _ H)) as Hb. cbn zeta in Hb. destruct (m_form m) as [|b|t b].
  - destruct Hb as [-> ->]. done.
  - destruct Hb as (-> & v & -> & _). done.
  - destruct Hb as (-> & v & Hv & Hs & _). rewrite (valid_te_says m v Hv Hs), Hv. done.
Qed.

Lemma orderly_good m : Z.of_nat (length (m_text m)) < 2 ^ 64 - 2 -> orderly m -> good ring m.
Proof.
  intros Hsz H. pose proof (o_framed _ H) as Hf. destruct (summary_counts m) as (Hh & Hc & Ht & Hl). constructor; try apply Hf.
  - apply H.
  - unfold validate_http1_host_headers. destruct (bytes_eqb _ _) eqn:E; [|done]. apply bytes_eqb_eq in E.
    destruct (f_host _ Hf E) as [v Hv]. by rewrite Hh, Hv.
  - by apply orderly_framing.
  - exact (fold_expect _ no_headers (o_expect _ H)).
  - by apply orderly_keep.
  - pose proof (f_body _ Hf) as Hb. cbn zeta in Hb. rewrite Hc, Ht. destruct (m_form m) as [|b|t b] eqn:Em.
    + by destruct Hb as [-> ->].
    + destruct Hb as (_ & v & Hv & Hne & Hd & Hn & Hm). rewrite Hv. split; [done|]. unfold read_content_length. rewrite Hl, Hv.
      cbn [hd_error default from_option id]. pose proof (content_length_exact v (max_body_size ring)) as Hx.
      assert (Hlen : Z.of_nat (length b) <= Prelude.size_max).
      { unfold m_text, m_coded in Hsz. rewrite Em, length_app in Hsz. unfold Prelude.size_max. lia. }
      destruct (parse_content_length_limited v _) as [k|[]]; [by destruct Hx as (_ & _ & -> & _); rewrite Hn| |].
      * destruct Hx as [?|[?|?]]; [done|done|lia].
      * destruct Hx as (_ & _ & ?). lia.
    + destruct Hb as (-> & v & Hv & _ & n & k & s & Hct & Hn & Hb & Hk & Hs). rewrite Hv. split_and!; [done|done|].
      destruct (o_short _ H t b Em) as (n' & k' & s' & ? & ? & ? & ?). exists n', k', s'. by split_and!.
Qed.

End framed.
End Framing.

(** ** Dispatching arbitrary bytes *)

Module Any.
Import Http1.Head Http1.Grammar Fields Target Parts Multipart Format Router.Dispatch Req Resp Reject Connection Serve ChunkWait Client
  Shift Framing.

Section server.
Context (ring : Ring) (P : plain_app ring) (addr : bytes).
Notation mb := (max_body_size ring).
Notation mc := (max_chunks (parser_limits ring)).

Definition conn_of (s : Sending) (pb : Buffer.PartialBuf) (rb : nat) (ec : bool) (st : Chunked.ChunkedDecodeState)
    (rj : list HttpRejectReason) (effs : list Effect) : Conn :=
  mkConn s (mkReceiving pb rb ec st) att0 up0 false addr false false rj effs.

(** Nothing to send. *)
Definition quiet (s : Sending) (close : bool) : Sending :=
  mkSending (own_response s) false 0 (send_queued s) (in_flight s) close (continue_final_close s).

(** Whether the connection closes after the request. *)
Definition closes (m : message) : bool :=
  negb (if connection_close (summary m) then false
        else if connection_keep_alive (summary m) then true else bytes_eqb (Http1.Head.version (m_req m)) (B "HTTP/1.1")).

(** A rejection is queued, and the end of the connection with it. *)
Definition ending (c : Conn) (effs : list Effect) : Prop :=
  close_after_send (snd_ c) = true /\ has_response (snd_ c) = true /\ send_queued (snd_ c) = false /\
  att c = att0 /\ up c = up0 /\ closing c = false /\ retired c = false /\ effects c = effs.

Lemma rejection_ends env raw reason s pb rb ec st rj effs :
  send_queued s = false -> ending (emit_rejection ring env raw reason (conn_of s pb rb ec st rj effs)) effs.
Proof. done. Qed.

Lemma dispatch_head env again stored m x s pb rb ec st rj effs :
  headed ring m ->
  dispatch_request_with ring env again stored (conn_of s pb rb ec st rj effs) (m_head m ++ x) =
  let raw := m_head m ++ x in
  let c := conn_of (quiet s (closes m)) pb rb ec st rj effs in
  match validate_http1_host_headers (Http1.Head.version (m_req m)) (summary m) with
  | Some reason => Some (emit_rejection ring env raw reason (conn_of (quiet s (close_after_send s)) pb rb ec st rj effs))
  | None =>
      match framing_error (m_fields m) (summary m) with
      | Some reason => Some (emit_rejection ring env raw reason c)
      | None =>
          match announced_length ring (summary m) with
          | Unexpected reason => Some (emit_rejection ring env raw reason c)
          | Ok _ => after_head ring env again stored m raw c
          end
      end
  end.
Proof.
  intros H. unfold dispatch_request_with, parse_or_reject_http1_request. rewrite (headed_parses ring m x) by done.
  cbn [mbind option_bind]. change (fold_left note_common_header (Http1.Head.headers (m_req m)) no_headers) with (summary m). cbn zeta.
  destruct (validate_http1_host_headers _ _) as [reason|]; [done|].
  unfold maybe_make_https_redirect_response. rewrite (pa_scheme _ P). cbn [negb orb].
  assert (Hk : apply_http1_keep_alive (Http1.Head.version (m_req m)) (summary m)
      (reset_http1_response_state (conn_of s pb rb ec st rj effs)) = conn_of (quiet s (closes m)) pb rb ec st rj effs) by done.
  rewrite Hk. clear Hk. unfold dispatch_http1_upload_request. change (mkFields (Http1.Head.headers (m_req m)) true) with (m_fields m).
  destruct (framing_error (m_fields m) (summary m)) as [reason|]; [done|].
  destruct (announced_length ring (summary m)) as [n|reason]; [|done].
  change (split_path_query (Http1.Head.target (m_req m))) with (m_target m).
  unfold after_head, read_again, m_first.
  destruct (PartsTotal.populate_total (m_target m) (m_fields m) []
    (mkParts (mkFields [] false) (mkFields [] false) (mkFields [] false) [])) as [p1 ->].
  cbn [mbind option_bind default from_option id]. rewrite (pa_upload _ P), (headed_length ring m H). done.
Qed.

(** [q] of the next request has been received: it is in the buffer, or part of its
    chunked body was decoded and taken out. Then the decoder is where it would be had
    it been given all of it. *)
Definition holds_any (pb : Buffer.PartialBuf) (st : Chunked.ChunkedDecodeState) (q : bytes) : Prop :=
  BufferOk.wf pb /\
  ((st = Chunked.fresh /\ Buffer.view pb = q) \/
   exists m d q' q0 more, headed ring m /\ content_length_count (summary m) = 0%nat /\ transfer_encoding_count (summary m) <> 0%nat /\
     q = m_head m ++ d ++ q' /\ Buffer.view pb = m_head m ++ q' /\ st_ok mb (Buffer.view pb) st /\
     Chunked.body_start st = length (m_head m) /\ Chunked.pos st = length (m_head m) /\
     q = q0 ++ more /\ (length (m_head m) <= length q0)%nat /\
     Chunked.run (Chunked.run_fuel q0) q0 mb mc (Chunked.started true (length (m_head m))) = Some (0, shift (length d) st)).

Lemma shift_0 st : shift 0 st = st.
Proof. destruct st. unfold shift. cbn. by rewrite Nat.add_0_r. Qed.

(** Two readings of one head are the same. *)
Lemma head_unique m m' x x' : headed ring m -> headed ring m' -> m_head m ++ x = m_head m' ++ x' ->
  m_req m = m_req m' /\ m_head m = m_head m' /\ x = x'.
Proof.
  intros H H' E. assert (Hr : m_req m = m_req m').
  { pose proof (headed_parses ring m x (mkRequest [] [] [] [] 0) H) as H1. rewrite E, headed_parses in H1 by done. by injection H1. }
  split; [done|]. apply app_inj_1 in E; [done|]. by rewrite <- !(headed_length ring), Hr.
Qed.

Lemma holds_any_append pb st q p :
  holds_any pb st q -> Z.of_nat (length (q ++ p)) < 2 ^ 64 - 2 -> holds_any (Buffer.append p pb) st (q ++ p).
Proof.
  intros [Hwf Hh] Hsz. destruct (BufferOk.append_ok p pb Hwf) as [Hwf' Hv']. split; [done|].
  destruct Hh as [[-> Hv]|(m & d & q' & q0 & more & ? & ? & ? & Hq & Hv & Hok & ? & ? & Hq0 & ? & Hr)]; [left; by rewrite Hv', Hv|right].
  exists m, d, (q' ++ p), q0, (more ++ p). rewrite Hv', Hv, Hq, <- !app_assoc. split_and!; try done.
  - rewrite app_assoc, <- Hv. apply st_ok_more; [|done]. rewrite Hv. rewrite Hq, !length_app in *. lia.
  - by rewrite (app_assoc q0), <- Hq0, Hq, <- !app_assoc.
Qed.

(** Where the decoder goes on, and where it would be with all of the body. *)
Lemma resume_any pb st m q x :
  holds_any pb st q -> headed ring m -> Buffer.view pb = m_head m ++ x ->
  Z.of_nat (length q) < 2 ^ 64 - 2 ->
  (content_length_count (summary m) <> 0%nat \/ transfer_encoding_count (summary m) = 0%nat -> st = Chunked.fresh /\ Buffer.view pb = q) /\
  exists d st0, q = m_head m ++ d ++ x /\
    Chunked.decode_chunked_incremental (Buffer.view pb) (length (m_head m)) mb mc st
      = Chunked.run (Chunked.run_fuel (Buffer.view pb)) (Buffer.view pb) mb mc st0 /\
    st_ok mb (Buffer.view pb) st0 /\ Chunked.pos st0 = length (m_head m) /\ Chunked.body_start st0 = length (m_head m) /\
    Chunked.run (Chunked.run_fuel q) q mb mc (Chunked.started true (length (m_head m)))
      = Chunked.run (Chunked.run_fuel q) q mb mc (shift (length d) st0).
Proof.
  intros [Hwf [[-> Hv]|(m' & d & q' & q0 & more & Hm' & Hcl & Hte & Hq & Hv & Hok & Hbs & Hpos & Hq0 & Hle & Hr)]] Hm Hx Hsz.
  - split; [done|]. exists [], (Chunked.started true (length (m_head m))). rewrite <- Hv. split_and!; try done.
    + apply started_ok; [rewrite Hx, length_app; lia|by rewrite Hv|apply (pa_limit _ P)].
    + cbn [length]. by rewrite shift_0.
  - destruct (head_unique m m' x q') as (Hreq & Hhd & ->); try done; [by rewrite <- Hx, Hv|].
    assert (Hsum : summary m = summary m') by (unfold summary; by rewrite Hreq). rewrite Hsum. split; [intros []; lia|].
    exists d, st. rewrite Hhd in *. split_and!; try done; [by apply dci_started; [apply Hok|]|].
    rewrite Hq0. symmetry. eapply run_more; [by rewrite <- Hq0| |done|done].
    apply started_ok; [done|rewrite Hq0, length_app in Hsz; lia|apply (pa_limit _ P)].
Qed.

(** The decoder's state and the buffer after the bytes read are taken out. *)
Lemma compact_any pb st1 m q x d s ec rj effs :
  BufferOk.wf pb -> headed ring m -> content_length_count (summary m) = 0%nat -> transfer_encoding_count (summary m) <> 0%nat ->
  Buffer.view pb = m_head m ++ x -> q = m_head m ++ d ++ x -> st_ok mb (Buffer.view pb) st1 ->
  Chunked.body_start st1 = length (m_head m) -> Chunked.phase st1 <> Chunked.Complete ->
  Chunked.run (Chunked.run_fuel q) q mb mc (Chunked.started true (length (m_head m))) = Some (0, shift (length d) st1) ->
  exists pb' st' x', compact_chunked_request_buffer (length (m_head m)) (conn_of s pb 0 ec st1 rj effs) = conn_of s pb' 0 ec st' rj effs /\
    holds_any pb' st' q /\ Buffer.view pb' = m_head m ++ x'.
Proof.
  intros Hwf Hm Hcl Hte Hv Hq Hok Hbs Hph Hr. set (h := length (m_head m)) in *. destruct (ok_start _ _ _ Hok) as [Hp1 Hp2]. rewrite Hbs in Hp1.
  unfold compact_chunked_request_buffer. cbn [conn_of rcv chunked_decode partial].
  assert (Hqh : (h <= length q)%nat) by (rewrite Hq, length_app; fold h; lia).
  destruct (Nat.leb_spec (Chunked.pos st1) h) as [Hle|Hgt].
  - exists pb, st1, x. split_and!; [done| |done]. split; [done|]. right. exists m, d, x, q, []. rewrite app_nil_r. split_and!; try done. lia.
  - set (u := (Chunked.pos st1 - h)%nat).
    assert (Hdu : drop (Chunked.pos st1) (Buffer.view pb) = drop u x) by (rewrite Hv, drop_app_ge by (fold h; lia); done).
    destruct (BufferOk.buffer_erase h (Chunked.pos st1) pb) as [Hw' Hv']; [done|lia|by rewrite <- BufferOk.view_size|].
    rewrite Hdu, Hv in Hv'. unfold h in Hv' at 2. rewrite take_app_length in Hv'.
    eexists _, _, (drop u x). split; [reflexivity|]. split; [|done]. split; [done|]. right.
    exists m, (d ++ take u x), (drop u x), q, []. rewrite app_nil_r, <- app_assoc, take_drop. split_and!; try done.
    + assert (Hlx : (u <= length x)%nat) by (rewrite Hv, length_app in Hp2; fold h in Hp2; lia).
      destruct Hok as [? _ Hsz ? ? ? _]. rewrite Hv, length_app in Hsz. fold h in Hsz. constructor; cbn; try done.
      * rewrite Hv', length_app. fold h. lia.
      * rewrite Hv', length_app, length_drop. fold h. lia.
    + fold h. rewrite Hr. unfold shift. cbn. rewrite Hbs, length_app, length_take. do 3 f_equal.
      rewrite Hv, length_app in Hp2. fold h in Hp2. unfold u. lia.
Qed.

(** A wait for the rest of the body. *)
Lemma await_any m s pb ec st rj effs :
  exists s' ec', await_body (summary m) (conn_of (quiet s (closes m)) pb 0 ec st rj effs) = (BodyIncomplete, conn_of s' pb 0 ec' st rj effs) /\
    send_queued s' = send_queued s /\
    (close_after_send s' = true -> has_response s' = false /\ closes m = true /\ common_expect_state (summary m) <> continue_100) /\
    (closes m = true -> common_expect_state (summary m) <> continue_100 -> close_after_send s' = true).
Proof.
  unfold await_body. destruct (common_expect_state (summary m)); [eexists _, _; split; [reflexivity|done]| |eexists _, _; split; [reflexivity|done]].
  cbn [conn_of rcv expect_continue_sent]. destruct ec; cbn [negb].
  - eexists _, true. split; [reflexivity|]. cbn. by split_and!.
  - eexists _, true. split; [reflexivity|]. cbn. by split_and!.
Qed.

Inductive decoded (m : message) (q x : bytes) (s : Sending) (pb : Buffer.PartialBuf) (st : Chunked.ChunkedDecodeState) : Prop :=
| d_waits st1 d :
    (forall env ec rj effs, resolve_http1_body_view ring env (Buffer.view pb) (length (m_head m)) (m_fields m) (summary m)
       (conn_of s pb 0 ec st rj effs) = Some (await_body (summary m) (conn_of s pb 0 ec st1 rj effs))) ->
    q = m_head m ++ d ++ x -> st_ok mb (Buffer.view pb) st1 -> Chunked.body_start st1 = length (m_head m) -> Chunked.phase st1 <> Chunked.Complete ->
    Chunked.run (Chunked.run_fuel q) q mb mc (Chunked.started true (length (m_head m))) = Some (0, shift (length d) st1) ->
    decoded m q x s pb st
| d_rejects st1 reason :
    (forall env ec rj effs, resolve_http1_body_view ring env (Buffer.view pb) (length (m_head m)) (m_fields m) (summary m)
       (conn_of s pb 0 ec st rj effs) = Some (BodyRejected, emit_rejection ring env (Buffer.view pb) reason (conn_of s pb 0 ec st1 rj effs))) ->
    decoded m q x s pb st
| d_ready st1 t rest text b :
    (forall env ec rj effs, resolve_http1_body_view ring env (Buffer.view pb) (length (m_head m)) (m_fields m) (summary m)
       (conn_of s pb 0 ec st rj effs) = Some (BodyReady b (Z.of_nat (length t)), conn_of s pb 0 ec st1 rj effs)) ->
    (forall env pb rb ec rj effs, resolve_http1_body_view ring env (m_head m ++ t) (length (m_head m)) (m_fields m) (summary m)
       (conn_of s pb rb ec st1 rj effs) = Some (BodyReady b (Z.of_nat (length t)), conn_of s pb rb ec st1 rj effs)) ->
    x = t ++ rest -> q = m_head m ++ text ++ rest ->
    (exists n k j, chunked_text n k j text b /\ (n <= mc)%nat /\ Z.of_nat (length b) <= mb /\
       (k <= Chunked.kMaxChunkTrailerLines)%nat /\ (j <= Chunked.kMaxChunkTrailerBytes)%nat) ->
    decoded m q x s pb st.

Lemma run_zero fuel raw st st1 :
  st_ok mb raw st -> Chunked.run fuel raw mb mc st = Some (0, st1) -> Chunked.phase st1 <> Chunked.Complete.
Proof.
  revert st. induction fuel as [|fuel IH]; intros st Hok H; [done|]. cbn [Chunked.run] in H.
  pose proof (chunk_step_ok mb mc raw st Hok) as Hg. pose proof (ok_start _ _ _ Hok) as Hst. pose proof (ok_complete _ _ _ Hok) as Hc.
  destruct (Chunked.step raw mb mc st) as [[st2|[rc2 st2]]|] eqn:Es; [|injection H as -> ->|done].
  { destruct Hg as (Hok2 & _). by apply (IH st2). }
  clear Hg. unfold Chunked.step in Es. destruct (Chunked.phase st) eqn:Hp.
  - repeat case_match; simplify_eq; cbn; congruence.
  - repeat case_match; simplify_eq; cbn; congruence.
  - destruct (_ <? 2); [injection Es as <-; congruence|].
    destruct (raw !! Chunked.pos st), (raw !! S (Chunked.pos st)); try done. simpl in Es. by case_match.
  - destruct (sv_find_sub crlf raw (Chunked.pos st)) as [e|]; [|case_match; simplify_eq; congruence].
    destruct (e =? Chunked.pos st)%nat; [injection Es as Hz _; lia|]. repeat case_match; simplify_eq.
  - injection Es as Hz _. specialize (Hc eq_refl). lia.
Qed.

Lemma run_fuel_le f raw whole st r : (length raw <= length whole)%nat ->
  Chunked.run (Chunked.run_fuel raw) f mb mc st = Some r -> Chunked.run (Chunked.run_fuel whole) f mb mc st = Some r.
Proof. intros Hl H. eapply run_mono; [done|]. unfold Chunked.run_fuel. lia. Qed.

Lemma run_codes fuel raw st rc st1 :
  st_ok mb raw st -> Chunked.run fuel raw mb mc st = Some (rc, st1) -> rc = -1 \/ rc = -2 \/ 0 <= rc.
Proof.
  revert st. induction fuel as [|fuel IH]; intros st Hok H; [done|]. cbn [Chunked.run] in H.
  pose proof (chunk_step_ok mb mc raw st Hok) as Hg.
  destruct (Chunked.step raw mb mc st) as [[st2|[rc2 st2]]|] eqn:Es; [|injection H as -> ->|done].
  { destruct Hg as (Hok2 & _). by apply (IH st2). }
  clear Hg. unfold Chunked.step in Es. destruct (Chunked.phase st).
  - repeat case_match; simplify_eq; lia.
  - repeat case_match; simplify_eq; lia.
  - destruct (_ <? 2); [injection Es as <- _; lia|].
    destruct (raw !! Chunked.pos st), (raw !! S (Chunked.pos st)); try done. simpl in Es. case_match; simplify_eq; lia.
  - repeat case_match; simplify_eq; lia.
  - injection Es as <- _. lia.
Qed.

(** A chunked body, from where the decoder is. *)
Lemma decoded_any pb st m q x s :
  holds_any pb st q -> headed ring m -> Buffer.view pb = m_head m ++ x -> Z.of_nat (length q) < 2 ^ 64 - 2 ->
  framing_error (m_fields m) (summary m) = None ->
  content_length_count (summary m) = 0%nat -> transfer_encoding_count (summary m) <> 0%nat -> decoded m q x s pb st.
Proof.
  intros Hh Hm Hv Hsz Hfr Hcl Hte. set (h := length (m_head m)).
  destruct (resume_any pb st m q x Hh Hm Hv Hsz) as (_ & d & st0 & Hq & Hdec & Hok & Hpos & Hbs & Hrun).
  set (raw := Buffer.view pb) in *. fold h in Hdec, Hpos, Hbs, Hrun.
  destruct (run_ok mb mc (Chunked.run_fuel raw) raw st0 Hok (measure_fuel raw st0)) as (rc & st1 & Hr & Hact & Hbs1 & _ & Hok1).
  assert (Hlen : length q = (length raw + length d)%nat) by (rewrite Hq, Hv, !length_app; lia).
  assert (Hshift : Chunked.run (Chunked.run_fuel q) q mb mc (Chunked.started true h) = Some (shift_rc (length d) rc, shift (length d) st1)).
  { rewrite Hrun. eapply (run_fuel_le q raw q); [lia|]. apply (run_shift mb mc raw q (length d) h); try done; [|lia].
    rewrite Hv, Hq. unfold h. rewrite drop_app_length, app_assoc, drop_app_length'; [done|by rewrite length_app]. }
  assert (Hres : forall env ec rj effs, resolve_http1_body_view ring env raw h (m_fields m) (summary m) (conn_of s pb 0 ec st rj effs) =
    if rc =? 0 then Some (await_body (summary m) (conn_of s pb 0 ec st1 rj effs))
    else if rc =? -1 then Some (BodyRejected, emit_rejection ring env raw invalid_chunk (conn_of s pb 0 ec st1 rj effs))
    else if rc =? -2 then Some (BodyRejected, emit_rejection ring env raw request_body_too_large (conn_of s pb 0 ec st1 rj effs))
    else Some (BodyReady (Chunked.body st1) rc, conn_of s pb 0 ec st1 rj effs)).
  { intros env ec rj effs. unfold resolve_http1_body_view. rewrite Hfr, Hcl. cbn [Nat.eqb negb]. rewrite (proj2 (Nat.eqb_neq _ _)) by done.
    cbn [negb conn_of rcv chunked_decode]. rewrite Hdec, Hr. done. }
  destruct (Z.eqb_spec rc 0) as [->|Hn0].
  { eapply (d_waits m q x s pb st st1 d); try done; [by apply Hok1|by rewrite Hbs1|by eapply run_zero]. }
  destruct (Z.eqb_spec rc (-1)) as [->|Hn1]; [by eapply d_rejects|]. destruct (Z.eqb_spec rc (-2)) as [->|Hn2]; [by eapply d_rejects|].
  assert (Hrc : 0 < rc) by (pose proof (run_codes _ _ _ _ _ Hok Hr); lia).
  destruct (run_complete_phase mb mc _ _ _ _ _ Hok Hr Hrc) as [Hph Hrc1].
  unfold shift_rc in Hshift. rewrite (proj2 (Z.ltb_lt _ _)) in Hshift by done.
  assert (Hst : st_ok mb q (Chunked.started true h)).
  { apply started_ok; [rewrite Hq, length_app; fold h; lia|done|apply (pa_limit _ P)]. }
  destruct (run_sound q mb mc _ _ _ _ Hst Hshift ltac:(lia)) as (text & b & Hsh & ((rest & Hd) & Hp1 & Hb1) & Hval).
  cbn in Hd, Hp1, Hb1, Hval. assert (Hq2 : d ++ x = text ++ rest).
  { rewrite Hq in Hd. unfold h in Hd. by rewrite drop_app_length in Hd. }
  assert (Hlt : length text = (Z.to_nat rc + length d)%nat) by lia.
  assert (Hx : exists t, text = d ++ t /\ x = t ++ rest /\ length t = Z.to_nat rc).
  { exists (drop (length d) text). assert (Hdt : d = take (length d) text).
    { rewrite <- (take_app_le text rest), <- Hq2 by lia. by rewrite take_app_length. }
    assert (Ht : text = d ++ drop (length d) text) by (rewrite Hdt at 1; by rewrite take_drop).
    split_and!; [done| |rewrite length_drop; lia]. rewrite Ht, <- app_assoc in Hq2. by apply app_inv_head in Hq2. }
  destruct Hx as (t & Ht & Hx & Htl). replace rc with (Z.of_nat (length t)) in * by lia.
  apply (d_ready m q x s pb st st1 t rest text b); try done.
  - intros env ec rj effs. by rewrite Hres, Hb1.
  - intros env pb' rb ec rj effs. unfold resolve_http1_body_view. rewrite Hfr, Hcl. cbn [Nat.eqb negb].
    rewrite (proj2 (Nat.eqb_neq _ _)) by done. cbn [negb conn_of rcv chunked_decode].
    rewrite dci_started by (done || by rewrite Hbs1). unfold Chunked.run_fuel. rewrite Nat.add_succ_r. cbn [Chunked.run].
    unfold Chunked.step. rewrite Hph, <- Hrc1. cbn [mbind option_bind]. rewrite !(proj2 (Z.eqb_neq _ _)) by lia. by rewrite Hb1.
  - by rewrite Hq, Hq2.
Qed.

(** *** A request that is whole *)

Lemma call_any env m s pb rb ec st rj effs parts :
  read_again m (m_body m) = Some parts ->
  exists own, call_application ring env (m_req m) (m_path m) (m_fields m) parts (m_body m) (summary m)
      (conn_of (quiet s (closes m)) pb rb ec st rj effs)
    = conn_of (mkSending own true 0 (send_queued s) (in_flight s) (closes m) (continue_final_close s)) pb rb ec st rj
        (effs ++ [Called (m_request addr m)]).
Proof.
  intros Hp. assert (Hparts : m_parts m = parts).
  { unfold m_parts, read_again, m_first in *.
    destruct (PartsTotal.populate_total (m_target m) (m_fields m) []
      (mkParts (mkFields [] false) (mkFields [] false) (mkFields [] false) [])) as [p1 Hp1].
    rewrite Hp1 in *. cbn [mbind option_bind default from_option id] in *. by rewrite Hp. }
  unfold call_application, invoke_http1_handler. rewrite (pa_upload _ P).
  set (req := request_view _ _ _ _ _ _). assert (Hreq : req = m_request addr m) by (unfold req, m_request; by rewrite Hparts).
  rewrite Hreq. fold (answer ring (m_request addr m)). unfold install_response_state. rewrite (pa_text _ P). by eexists.
Qed.

(** The headers of the request are let through. *)
Definition let_through (m : message) : Prop :=
  headed ring m /\ validate_http1_host_headers (Http1.Head.version (m_req m)) (summary m) = None /\
  framing_error (m_fields m) (summary m) = None /\ exists n, announced_length ring (summary m) = Ok n.

Lemma dispatch_let_through env again stored m x s pb rb ec st rj effs :
  let_through m -> dispatch_request_with ring env again stored (conn_of s pb rb ec st rj effs) (m_head m ++ x)
    = after_head ring env again stored m (m_head m ++ x) (conn_of (quiet s (closes m)) pb rb ec st rj effs).
Proof. intros (Hm & Hh & Hf & n & Ha). rewrite dispatch_head by done. by rewrite Hh, Hf, Ha. Qed.

Lemma dispatch_ready env m n y rest s pb ec st st1 rj effs :
  let_through m -> BufferOk.wf pb -> Buffer.view pb = m_head m ++ y ++ rest -> Z.to_nat n = length y ->
  (forall ec, resolve_http1_body_view ring env (Buffer.view pb) (length (m_head m)) (m_fields m) (summary m)
     (conn_of (quiet s (closes m)) pb 0 ec st rj effs) = Some (BodyReady (m_body m) n, conn_of (quiet s (closes m)) pb 0 ec st1 rj effs)) ->
  (forall pb rb ec, resolve_http1_body_view ring env (m_head m ++ y) (length (m_head m)) (m_fields m) (summary m)
     (conn_of (quiet s (closes m)) pb rb ec st1 rj effs) = Some (BodyReady (m_body m) n, conn_of (quiet s (closes m)) pb rb ec st1 rj effs)) ->
  exists s' pb', dispatch_request ring env (conn_of s pb 0 ec st rj effs) (Buffer.view pb)
      = Some (conn_of s' pb' 0 false Chunked.fresh rj (effs ++ [Called (m_request addr m)])) /\
    BufferOk.wf pb' /\ Buffer.view pb' = rest /\ send_queued s' = send_queued s /\ has_response s' = true /\ close_after_send s' = closes m.
Proof.
  intros Hlt Hwf Hv Hn Hr1 Hr2. destruct (PartsTotal.populate_total (m_target m) (m_fields m) (m_body m)
    (mkParts (p_query (m_first m)) (mkFields [] false) (p_cookies (m_first m)) [])) as [parts Hparts].
  fold (read_again m (m_body m)) in Hparts. unfold dispatch_request. rewrite Hv in Hr1 |- *. rewrite dispatch_let_through by done.
  unfold after_head. rewrite Hr1. cbn [mbind option_bind]. rewrite Hparts. cbn [mbind option_bind negb conn_of rcv request_bytes partial
    set_request_bytes set_expect_continue_sent on_rcv].
  destruct (BufferOk.cut_prefix_ok (length (m_head m) + Z.to_nat n) pb Hwf) as (Hc1 & Hc2 & Hc3).
  destruct (Buffer.cut_prefix _ pb) as [stor b]. cbn [fst snd] in *. rewrite Hv, Hn, app_assoc, <- length_app, take_app_length in Hc1.
  rewrite Hv, Hn, app_assoc, <- length_app, drop_app_length in Hc3. subst stor.
  change (set_partial b _) with (conn_of (quiet s (closes m)) b (length (m_head m) + Z.to_nat n) false st1 rj effs).
  unfold dispatch_stored. rewrite dispatch_let_through by done.
  change (quiet (quiet s (closes m)) (closes m)) with (quiet s (closes m)). unfold after_head. rewrite Hr2.
  cbn [mbind option_bind]. rewrite Hparts. cbn [mbind option_bind negb].
  match goal with |- context [call_application _ _ _ _ _ _ _ _ ?c] =>
    change c with (conn_of (quiet s (closes m)) b (length (m_head m) + Z.to_nat n) false st1 rj effs) end.
  destruct (call_any env m s b (length (m_head m) + Z.to_nat n) false st1 rj effs parts Hparts) as [own ->]. by eexists _, b.
Qed.

(** *** What a dispatch does *)

(** The head of a request after which the connection closes. *)
Definition closing_head (pb : Buffer.PartialBuf) : Prop :=
  exists m x, headed ring m /\ Buffer.view pb = m_head m ++ x /\ closes m = true /\ common_expect_state (summary m) <> continue_100.

Lemma closing_same pb m x :
  closing_head pb -> headed ring m -> Buffer.view pb = m_head m ++ x -> closes m = true /\ common_expect_state (summary m) <> continue_100.
Proof.
  intros (m' & x' & Hm' & Hv' & Hc & He) Hm Hv. destruct (head_unique m' m x' x) as (Hr & _); try done; [by rewrite <- Hv', Hv|].
  unfold closes, summary in *. by rewrite <- Hr.
Qed.

(** No whole request has arrived. *)
Definition unread (q : bytes) : Prop := forall m rest, framed ring m -> q <> m_text m ++ rest.

Lemma framed_headed m : framed ring m -> headed ring m.
Proof. by intros []. Qed.

(** A whole request starts with a whole head, which is the one read. *)
Lemma unread_head m x : headed ring m ->
  (forall m' rest, framed ring m' -> m_req m' = m_req m -> x <> m_coded m' ++ rest) -> unread (m_head m ++ x).
Proof.
  intros Hm H m' rest Hf E. unfold m_text in E. rewrite <- app_assoc in E.
  destruct (head_unique m m' _ _ Hm (framed_headed m' Hf) E) as (Hr & _ & Hx). by apply (H m' rest).
Qed.

Lemma unread_partial pb st q : holds_any pb st q ->
  (forall m x, headed ring m -> Buffer.view pb <> m_head m ++ x) -> unread q.
Proof.
  intros [_ [[_ <-]|(m & d & q' & _ & _ & Hm & _ & _ & _ & Hv & _)]] H m' rest Hf E; [|by apply (H m q')].
  unfold m_text in E. rewrite <- app_assoc in E. by apply (H m' (m_coded m' ++ rest) (framed_headed m' Hf)).
Qed.

Lemma unread_empty pb st q : holds_any pb st q -> Buffer.empty pb = true -> unread q.
Proof.
  intros Hh He. apply (unread_partial pb st q Hh). intros m x Hm Hv. apply Nat.leb_le in He. pose proof (headed_length ring m Hm) as Hl.
  assert (Hd : length (Buffer.view pb) = 0%nat) by (unfold Buffer.view; rewrite length_drop; lia). rewrite Hv, length_app in Hd. lia.
Qed.

(** The connection waits for more of [q], which holds no whole request; or it refuses
    and ends; or [q] starts with a request, which the application is called with. *)
Inductive dispatched (q : bytes) (pb : Buffer.PartialBuf) (effs : list Effect) : Conn -> Prop :=
| dp_waits s pb' ec st rj :
    holds_any pb' st q -> send_queued s = false -> (close_after_send s = true -> has_response s = false /\ closing_head pb') ->
    (closing_head pb -> close_after_send s = true) -> unread q -> dispatched q pb effs (conn_of s pb' 0 ec st rj effs)
| dp_ends c : ending c effs -> dispatched q pb effs c
| dp_serves s pb' rj m :
    framed ring m -> q = m_text m ++ Buffer.view pb' -> BufferOk.wf pb' -> send_queued s = false -> has_response s = true ->
    (closing_head pb -> close_after_send s = true) ->
    dispatched q pb effs (conn_of s pb' 0 false Chunked.fresh rj (effs ++ [Called (m_request addr m)])).

Definition with_form (m : message) (f : body_form) : message := mkMessage (m_req m) (m_lines m) f.

Lemma through_form m f : let_through m -> let_through (with_form m f).
Proof. intros ([] & ?). split; [by constructor|done]. Qed.

(** A request with its body. *)
Lemma framed_form m f :
  let_through m -> framed ring (with_form m f) <->
    let lengths := field_values (Http1.Head.headers (m_req m)) (B "content-length") in
    let encodings := field_values (Http1.Head.headers (m_req m)) (B "transfer-encoding") in
    match f with
    | NoBody => lengths = [] /\ encodings = []
    | Sized b => encodings = [] /\ exists v, lengths = [v] /\ v <> [] /\ Forall (fun c => is_digit c = true) v /\
        dec_value v = Z.of_nat (length b) /\ Z.of_nat (length b) <= max_body_size ring
    | Coded text b => lengths = [] /\ exists v, encodings = [v] /\ says_chunked v /\
        exists n k s, chunked_text n k s text b /\ (n <= max_chunks (parser_limits ring))%nat /\
          Z.of_nat (length b) <= max_body_size ring /\
          (k <= Chunked.kMaxChunkTrailerLines)%nat /\ (s <= Chunked.kMaxChunkTrailerBytes)%nat
    end.
Proof.
  intros ([H1 H2 H3 H4] & Hh & _). split; [by intros []|]. intros Hb. constructor; try done. by apply framing_host.
Qed.

(** A body shorter than announced is no whole request. *)
Lemma unread_sized m x n :
  let_through m -> 0 <= n -> (forall b, n = Z.of_nat (length b) -> framed ring (with_form m (Sized b))) -> Z.of_nat (length x) < n ->
  unread (m_head m ++ x).
Proof.
  intros Hlt Hn Hf Hx. apply unread_head; [apply Hlt|]. intros m' rest Hf' Hr ->.
  pose proof (f_body _ _ (Hf (repeat "000"%byte (Z.to_nat n)) ltac:(rewrite repeat_length; lia))) as B1.
  cbn [with_form m_req m_form] in B1. cbn zeta in B1. rewrite repeat_length in B1. destruct B1 as (He & v & Hv & _ & _ & Hd & _). pose proof (f_body _ _ Hf') as B2. cbn zeta in B2.
  rewrite Hr, He, Hv in B2. unfold m_coded in Hx. destruct (m_form m') as [|b|t b]; [by destruct B2| |by destruct B2].
  destruct B2 as (_ & w & [= <-] & _ & _ & Hw & _). rewrite length_app in Hx. lia.
Qed.

(** Neither is a chunked body the decoder asks more of. *)
Lemma unread_coded m q y st :
  let_through m -> content_length_count (summary m) = 0%nat -> transfer_encoding_count (summary m) <> 0%nat ->
  q = m_head m ++ y -> Z.of_nat (length q) < 2 ^ 64 - 2 ->
  Chunked.run (Chunked.run_fuel q) q mb mc (Chunked.started true (length (m_head m))) = Some (0, st) -> unread q.
Proof.
  intros Hlt Hcl Hte Hq Hsz Hrun. rewrite Hq. apply unread_head; [apply Hlt|]. intros m' rest Hf' Hr Hy.
  destruct (summary_counts m) as (_ & _ & Ht & _). rewrite Ht in Hte. pose proof (f_body _ _ Hf') as B2. cbn zeta in B2. rewrite Hr in B2.
  unfold m_coded in Hy. destruct (m_form m') as [|b|t b]; [by destruct B2 as [_ B2]; rewrite B2 in Hte|by destruct B2 as [B2 _]; rewrite B2 in Hte|].
  destruct B2 as (_ & v & _ & _ & n & k & j & Hct & Hn & Hb & Hk & Hj). set (h := length (m_head m)) in *.
  assert (Hok : st_ok mb q (Chunked.started true h)).
  { apply started_ok; [rewrite Hq, length_app; fold h; lia|done|apply (pa_limit _ P)]. }
  assert (Hsh : shape mb mc (Chunked.started true h) t b) by (exists n, k, j; cbn; split_and!; done || lia).
  destruct (run_complete q mb mc (Chunked.run_fuel q) _ t b rest Hok Hsh) as (st2 & Hr2 & _); [|apply measure_fuel|].
  - cbn. rewrite Hq, Hy. unfold h. by rewrite drop_app_length.
  - rewrite Hrun in Hr2. injection Hr2 as Hz _. cbn in Hz.
    assert (0 < length t)%nat by (destruct Hct; rewrite !length_app; simpl; lia). lia.
Qed.

(** A whole request is served. *)
Lemma serves_whole env m f n y rest s pb ec st st1 rj effs q :
  let_through m -> framed ring (with_form m f) -> BufferOk.wf pb -> Buffer.view pb = m_head m ++ y ++ rest -> Z.to_nat n = length y ->
  q = m_text (with_form m f) ++ rest -> send_queued s = false ->
  (forall ec, resolve_http1_body_view ring env (Buffer.view pb) (length (m_head m)) (m_fields m) (summary m)
     (conn_of (quiet s (closes m)) pb 0 ec st rj effs)
     = Some (BodyReady (m_body (with_form m f)) n, conn_of (quiet s (closes m)) pb 0 ec st1 rj effs)) ->
  (forall pb rb ec, resolve_http1_body_view ring env (m_head m ++ y) (length (m_head m)) (m_fields m) (summary m)
     (conn_of (quiet s (closes m)) pb rb ec st1 rj effs)
     = Some (BodyReady (m_body (with_form m f)) n, conn_of (quiet s (closes m)) pb rb ec st1 rj effs)) ->
  exists c, dispatch_request ring env (conn_of s pb 0 ec st rj effs) (Buffer.view pb) = Some c /\ dispatched q pb effs c.
Proof.
  intros Hlt Hf Hwf Hv Hn Hq Hs Hr1 Hr2.
  destruct (dispatch_ready env (with_form m f) n y rest s pb ec st st1 rj effs) as (s' & pb' & Hd & Hwf' & Hv' & Hs' & Hh & Hc); try done;
    [by apply through_form|].
  eexists. split; [exact Hd|]. apply dp_serves; try done; [by rewrite Hv'|by rewrite Hs'|].
  intros Hch. rewrite Hc. apply (closing_same pb m (y ++ rest)); [done|apply Hlt|done].
Qed.

Lemma dispatch_nobody env m x s pb ec st rj effs q :
  let_through m -> content_length_count (summary m) = 0%nat -> transfer_encoding_count (summary m) = 0%nat ->
  framed ring (with_form m NoBody) ->
  holds_any pb st q -> Buffer.view pb = m_head m ++ x -> Z.of_nat (length q) < 2 ^ 64 - 2 -> send_queued s = false ->
  exists c, dispatch_request ring env (conn_of s pb 0 ec st rj effs) (Buffer.view pb) = Some c /\ dispatched q pb effs c.
Proof.
  intros Hlt Hcl Hte Hf Hh Hv Hsz Hs. pose proof Hlt as (Hm & _ & Hfr & _).
  destruct (proj1 (resume_any pb st m q x Hh Hm Hv Hsz)) as [-> Hvq]; [by right|].
  apply (serves_whole env m NoBody 0 [] x s pb ec Chunked.fresh Chunked.fresh rj effs q); try done; [apply Hh| | |].
  - by rewrite <- Hvq, Hv; unfold m_text, m_coded; cbn; rewrite app_nil_r.
  - intros ec'. unfold resolve_http1_body_view. by rewrite Hfr, Hcl, Hte.
  - intros pb' rb ec'. unfold resolve_http1_body_view. by rewrite Hfr, Hcl, Hte.
Qed.

(** A body of a given length. *)
Lemma dispatch_sized env m x s pb ec st rj effs q n :
  let_through m -> content_length_count (summary m) <> 0%nat -> transfer_encoding_count (summary m) = 0%nat ->
  read_content_length ring (summary m) = Ok n -> 0 <= n ->
  (forall b, n = Z.of_nat (length b) -> framed ring (with_form m (Sized b))) ->
  holds_any pb st q -> Buffer.view pb = m_head m ++ x -> Z.of_nat (length q) < 2 ^ 64 - 2 -> send_queued s = false ->
  exists c, dispatch_request ring env (conn_of s pb 0 ec st rj effs) (Buffer.view pb) = Some c /\ dispatched q pb effs c.
Proof.
  intros Hlt Hcl Hte Hlen Hn Hf Hh Hv Hsz Hs. pose proof Hlt as (Hm & _ & Hfr & _).
  destruct (proj1 (resume_any pb st m q x Hh Hm Hv Hsz)) as [-> Hvq]; [by left|].
  destruct (Z.ltb_spec (Z.of_nat (length x)) n) as [Hshort|Hlong].
  - unfold dispatch_request. rewrite Hv, dispatch_let_through by done. unfold after_head, resolve_http1_body_view.
    rewrite Hfr, (proj2 (Nat.eqb_neq _ _) Hcl), Hlen, Hte. cbn [negb Nat.eqb].
    rewrite length_app, (proj2 (Z.ltb_lt _ _)) by lia.
    destruct (await_any m s pb ec Chunked.fresh rj effs) as (s' & ec' & -> & Hs' & Hc1 & Hc2). cbn [mbind option_bind].
    eexists. split; [done|]. apply dp_waits; [done|by rewrite Hs'| | |].
    + intros (? & ? & ?)%Hc1. split; [done|]. by exists m, x.
    + intros Hch. destruct (closing_same pb m x Hch Hm Hv). by apply Hc2.
    + rewrite <- Hvq, Hv. by apply (unread_sized m x n).
  - set (k := Z.to_nat n). assert (Hk : (k <= length x)%nat) by lia.
    assert (Hy : n = Z.of_nat (length (take k x))) by (rewrite length_take; lia).
    assert (Hres : forall env raw rest pb rb ec, raw = m_head m ++ take k x ++ rest ->
      resolve_http1_body_view ring env raw (length (m_head m)) (m_fields m) (summary m) (conn_of (quiet s (closes m)) pb rb ec Chunked.fresh rj effs)
      = Some (BodyReady (take k x) n, conn_of (quiet s (closes m)) pb rb ec Chunked.fresh rj effs)).
    { intros env0 raw rest pb0 rb ec0 ->. unfold resolve_http1_body_view. rewrite Hfr, (proj2 (Nat.eqb_neq _ _) Hcl), Hlen. cbn [negb].
      rewrite !length_app, (proj2 (Z.ltb_ge _ _)) by lia. unfold substr. rewrite drop_app_length, take_app_length' by (unfold k in *; lia).
      done. }
    apply (serves_whole env m (Sized (take k x)) n (take k x) (drop k x) s pb ec Chunked.fresh Chunked.fresh rj effs q); try done.
    + by apply Hf.
    + apply Hh.
    + by rewrite take_drop.
    + lia.
    + unfold m_text, m_coded, m_head. cbn. by rewrite <- app_assoc, take_drop, <- Hvq, Hv.
    + intros ec'. apply (Hres env _ (drop k x)). by rewrite take_drop.
    + intros pb' rb ec'. apply (Hres env _ []). by rewrite app_nil_r.
Qed.

(** A chunked body. *)
Lemma dispatch_coded env m x s pb ec st rj effs q :
  let_through m -> content_length_count (summary m) = 0%nat -> transfer_encoding_count (summary m) <> 0%nat ->
  (forall text b, (exists n k j, chunked_text n k j text b /\ (n <= mc)%nat /\ Z.of_nat (length b) <= mb /\
       (k <= Chunked.kMaxChunkTrailerLines)%nat /\ (j <= Chunked.kMaxChunkTrailerBytes)%nat) -> framed ring (with_form m (Coded text b))) ->
  holds_any pb st q -> Buffer.view pb = m_head m ++ x -> Z.of_nat (length q) < 2 ^ 64 - 2 -> send_queued s = false ->
  exists c, dispatch_request ring env (conn_of s pb 0 ec st rj effs) (Buffer.view pb) = Some c /\ dispatched q pb effs c.
Proof.
  intros Hlt Hcl Hte Hf Hh Hv Hsz Hs. pose proof Hlt as (Hm & _ & Hfr & _).
  destruct (decoded_any pb st m q x (quiet s (closes m))) as [st1 d Hr Hq Hok Hbs Hph Hrun|st1 reason Hr|st1 t rest text b Hr1 Hr2 Hx Hq Hct]; try done.
  - unfold dispatch_request. rewrite Hv in Hr |- *. rewrite dispatch_let_through by done. unfold after_head. rewrite Hr.
    destruct (await_any m s pb ec st1 rj effs) as (s' & ec' & -> & Hs' & Hc1 & Hc2). cbn [mbind option_bind].
    rewrite (proj2 (Nat.eqb_neq _ _) Hte). cbn [negb].
    destruct (compact_any pb st1 m q x d s' ec' rj effs) as (pb' & st' & x' & -> & Hh' & Hv'); try done; [apply Hh|].
    eexists. split; [done|]. apply dp_waits; [done|by rewrite Hs'| | |].
    + intros (? & ? & ?)%Hc1. split; [done|]. by exists m, x'.
    + intros Hch. destruct (closing_same pb m x Hch Hm Hv). by apply Hc2.
    + by apply (unread_coded m q (d ++ x) (shift (length d) st1)).
  - unfold dispatch_request. rewrite Hv in Hr |- *. rewrite dispatch_let_through by done. unfold after_head. rewrite Hr.
    cbn [mbind option_bind]. eexists. split; [done|]. apply dp_ends. by apply rejection_ends.
  - apply (serves_whole env m (Coded text b) (Z.of_nat (length t)) t rest s pb ec st st1 rj effs q); try done.
    + by apply Hf.
    + apply Hh.
    + by rewrite Hv, Hx.
    + by rewrite Nat2Z.id.
    + unfold m_text, m_coded. cbn. by rewrite <- app_assoc.
Qed.

(** [dispatch_request] on whatever is in the buffer. *)
Lemma dispatch_any env s pb ec st rj effs q :
  holds_any pb st q -> Z.of_nat (length q) < 2 ^ 64 - 2 -> send_queued s = false -> (close_after_send s = true -> closing_head pb) ->
  exists c, dispatch_request ring env (conn_of s pb 0 ec st rj effs) (Buffer.view pb) = Some c /\ dispatched q pb effs c.
Proof.
  intros Hh Hsz Hs Hcl. destruct (parse_request_total (Buffer.view pb) (parser_limits ring) (mkRequest [] [] [] [] 0)) as [[status r] Hp].
  destruct status eqn:Est.
  all: try (unfold dispatch_request, dispatch_request_with, parse_or_reject_http1_request; rewrite Hp; cbn [mbind option_bind];
    eexists; split; [reflexivity|]; by apply dp_ends).
  - destruct (parsed_headed ring _ _ _ Hp) as (m & x & <- & Hm & Hv).
    destruct (validate_http1_host_headers (Http1.Head.version (m_req m)) (summary m)) as [reason|] eqn:Hho.
    { unfold dispatch_request. rewrite Hv, dispatch_head, Hho by done. eexists. split; [done|]. by apply dp_ends, rejection_ends. }
    destruct (framing_error (m_fields m) (summary m)) as [reason|] eqn:Hfr.
    { unfold dispatch_request. rewrite Hv, dispatch_head, Hho, Hfr by done. eexists. split; [done|]. by apply dp_ends, rejection_ends. }
    destruct (announced_length ring (summary m)) as [n|reason] eqn:Ha.
    2: { unfold dispatch_request. rewrite Hv, dispatch_head, Hho, Hfr, Ha by done. eexists. split; [done|]. by apply dp_ends, rejection_ends. }
    assert (Hlt : let_through m) by (split_and!; try done; by eexists).
    destruct (summary_counts m) as (_ & Hc & Ht & Hl). destruct (framing_cases m Hfr) as [[Hl0 He0]|[(He0 & v & Hl0)|(Hl0 & v & He0 & Hch)]];
      rewrite Hl0 in Hc, Hl; rewrite He0 in Ht; cbn in Hc, Ht, Hl.
    + apply (dispatch_nobody env m x); try done. by apply framed_form.
    + unfold announced_length in Ha. rewrite Hc in Ha. cbn [Nat.eqb negb] in Ha.
      destruct (read_content_length ring (summary m)) as [k|] eqn:Hk; [|done].
      unfold read_content_length in Hk. rewrite Hl in Hk. cbn [default from_option] in Hk.
      pose proof (content_length_exact v mb) as Hx. unfold id in Hk.
      destruct (ContentLength.parse_content_length_limited v mb) as [k'|[]] eqn:Hkk; [|done|done]. injection Hk as ->.
      destruct Hx as (Hv0 & Hd & Hk' & Hle & _). pose proof (dec_value_nonneg _ Hd).
      apply (dispatch_sized env m x s pb ec st rj effs q k); try done; [by rewrite Hc| |lia|].
      * unfold read_content_length. rewrite Hl. cbn. by rewrite Hkk.
      * intros b Hb. apply framed_form; [done|]. split; [done|]. exists v. split_and!; try done; lia.
    + apply (dispatch_coded env m x); try done; [by rewrite Ht|]. intros text b Hct. apply framed_form; [done|]. split; [done|]. by exists v.
  - unfold dispatch_request, dispatch_request_with, parse_or_reject_http1_request. rewrite Hp. cbn [mbind option_bind].
    eexists. split; [done|]. change (reset_http1_response_state _) with (conn_of (quiet s (close_after_send s)) pb 0 ec st rj effs).
    assert (Hno : forall m x, headed ring m -> Buffer.view pb <> m_head m ++ x).
    { intros m x Hm Hv. rewrite Hv, headed_parses in Hp by done. done. }
    apply dp_waits; try done; cbn; [by intros ?%Hcl| |by eapply unread_partial]. intros (m & x & Hm & Hv & _). by apply Hno in Hv.
Qed.

(** *** Whatever happens *)

Inductive incident := Arrives (p : bytes) | Writes (n : nat) | WriteFails | PeerCloses | ShutdownDone.

(** A read brings bytes, a write that was submitted completes with some of them or
    fails, a read finds that the peer has gone, a shutdown completes. *)
Inductive happens : Conn -> incident -> Conn -> Prop :=
| h_arrives env p c c' : p <> [] -> received ring env p c = Some c' -> happens c (Arrives p) c'
| h_writes env n drained closed c c' :
    send_queued (snd_ c) = true -> (1 <= n <= length (in_flight (snd_ c)))%nat ->
    sent ring env n drained closed c = Some c' -> happens c (Writes n) c'
| h_fails c : send_queued (snd_ c) = true -> happens c WriteFails (send_failed c)
| h_leaves c : happens c PeerCloses (peer_closed c)
| h_down c : ShutDown ∈ effects c -> happens c ShutdownDone (handle_fd_shutdown c).

Inductive history : Conn -> list incident -> Conn -> Prop :=
| hi_none c : history c [] c
| hi_more c evs c1 e c2 : history c evs c1 -> happens c1 e c2 -> history c (evs ++ [e]) c2.

Definition came (evs : list incident) : bytes := concat (map (fun e => match e with Arrives p => p | _ => [] end) evs).

Lemma came_snoc evs e : came (evs ++ [e]) = came evs ++ match e with Arrives p => p | _ => [] end.
Proof. unfold came. rewrite map_app, concat_app. cbn. by rewrite app_nil_r. Qed.

(** The application has been called with exactly these requests. *)
Definition calls (ms : list message) (effs : list Effect) : Prop := called effs = map (m_request addr) ms /\ Forall (framed ring) ms.

Lemma calls_other ms effs e : match e with Called _ => False | _ => True end -> calls ms effs -> calls ms (effs ++ [e]).
Proof. intros He [Hc Hf]. split; [|done]. rewrite called_app, Hc. destruct e; try done; cbn; by rewrite app_nil_r. Qed.

Lemma calls_more ms effs m : calls ms effs -> framed ring m -> calls (ms ++ [m]) (effs ++ [Called (m_request addr m)]).
Proof. intros [Hc Hf] Hm. split; [by rewrite called_app, Hc, map_app|]. apply Forall_app. by split; [|constructor]. Qed.

(** Open, with no whole request left when nothing is being written; waiting for a body it no longer reads; ending once a response is written;
    or gone. *)
Inductive state (got : bytes) : Conn -> Prop :=
| in_open s pb ec st rj effs ms q :
    close_after_send s = false -> send_queued s = has_response s -> holds_any pb st q -> got = texts ms ++ q -> calls ms effs ->
    ShutDown ∉ effs -> (send_queued s = false -> unread q) -> state got (conn_of s pb 0 ec st rj effs)
| in_stuck s pb ec st rj effs ms q lost :
    close_after_send s = true -> send_queued s = false -> has_response s = false -> closing_head pb -> holds_any pb st q ->
    got = texts ms ++ q ++ lost -> calls ms effs -> ShutDown ∉ effs -> state got (conn_of s pb 0 ec st rj effs)
| in_ending c ms rest :
    close_after_send (snd_ c) = true -> has_response (snd_ c) = true -> send_queued (snd_ c) = true -> att c = att0 -> up c = up0 ->
    closing c = false -> retired c = false -> got = texts ms ++ rest -> calls ms (effects c) -> state got c
| in_gone c ms rest :
    retired c = true -> send_queued (snd_ c) = false -> got = texts ms ++ rest -> calls ms (effects c) -> state got c.

Lemma state_settles q pb effs c ms lost :
  dispatched q pb effs c -> calls ms effs -> ShutDown ∉ effs -> lost = [] \/ closing_head pb ->
  state (texts ms ++ q ++ lost) (phase3_dispatch c).
Proof.
  intros Hd Hc Hs Hl. destruct Hd as [s pb' ec st rj Hh Hq Hcl Hch Hu|c Hd|s pb' rj m Hf Hq Hwf Hsq Hhas Hch].
  - destruct (close_after_send s) eqn:Ec.
    + destruct (Hcl eq_refl) as [Hh0 Hc0]. unfold phase3_dispatch, response_send_ready. cbn. rewrite Hh0. cbn. by eapply in_stuck.
    + destruct Hl as [->|Hl]; [|by specialize (Hch Hl)]. rewrite app_nil_r. unfold phase3_dispatch, start_response_send, response_send_ready.
      cbn. rewrite Hq. destruct (has_response s) eqn:Eh; cbn; [|by eapply in_open; eauto; rewrite Eh].
      by eapply (in_open _ (mkSending _ _ _ _ _ _ _)).
  - destruct Hd as (H1 & H2 & H3 & H4 & H5 & H6 & H7 & H8). unfold phase3_dispatch, start_response_send, response_send_ready.
    rewrite H2, H3. cbn. eapply in_ending; cbn; eauto. by rewrite H8.
  - unfold phase3_dispatch, start_response_send, response_send_ready. cbn. rewrite Hhas, Hsq. cbn. subst q.
    assert (Ht : texts ms ++ (m_text m ++ Buffer.view pb') ++ lost = texts (ms ++ [m]) ++ Buffer.view pb' ++ lost).
    { rewrite texts_app. unfold texts at 3. cbn. by rewrite app_nil_r, <- !app_assoc. }
    pose proof (calls_more ms effs m Hc Hf) as Hc'. destruct (close_after_send s) eqn:Ec.
    + eapply in_ending; cbn; eauto.
    + destruct Hl as [->|Hl]; [|by specialize (Hch Hl)]. rewrite !app_nil_r in *. rewrite Ht.
      eapply (in_open _ (mkSending _ _ _ _ _ _ _)); [..|reflexivity|done| |done]; cbn; [done|done|by split; [|left]|].
      rewrite elem_of_app, list_elem_of_singleton. by intros [?|?].
Qed.

(** Leaving an open connection. *)
Lemma state_leaves s pb ec st rj effs ms rest :
  send_queued s = false -> calls ms effs -> state (texts ms ++ rest) (queue_close (conn_of s pb 0 ec st rj effs)).
Proof. intros Hs Hc. unfold queue_close. cbn. rewrite Hs. eapply in_gone; cbn; eauto. by apply calls_other. Qed.

(** While a response is being written nothing is dispatched. *)
Lemma pending_rests env c :
  has_response (snd_ c) = true -> send_queued (snd_ c) = true -> up c = up0 ->
  (c ← phase2_build ring env c; Some (phase3_dispatch c)) = Some c.
Proof.
  intros H1 H2 H3. unfold phase2_build, uploads, idle, phase3_dispatch, start_response_send, response_send_ready. rewrite H1, H3. cbn.
  by rewrite H1, H2.
Qed.

Lemma idle_builds env s pb ec st rj effs :
  has_response s = false ->
  phase2_build ring env (conn_of s pb 0 ec st rj effs) = dispatch_request ring env (conn_of s pb 0 ec st rj effs) (Buffer.view pb).
Proof. intros H. unfold phase2_build, idle. cbn. by rewrite H. Qed.

Lemma state_read env p got c :
  state got c -> Z.of_nat (length (got ++ p)) < 2 ^ 64 - 2 -> exists c', received ring env p c = Some c' /\ state (got ++ p) c'.
Proof.
  intros [s pb ec st rj effs ms q Hcl Hsq Hh -> Hc Hn Hu|s pb ec st rj effs ms q lost Hcl Hsq Hha Hch Hh -> Hc Hn
         |c' ms rest H1 H2 H3 H4 H5 H6 H7 -> H9|c' ms rest H1 H2 -> H4] Hsz; unfold received.
  - assert (Hq : Z.of_nat (length (q ++ p)) < 2 ^ 64 - 2) by (rewrite !length_app in *; lia).
    pose proof (holds_any_append pb st q p Hh Hq) as Hh'. rewrite <- app_assoc.
    unfold phase1_copy. cbn. rewrite Hcl. cbn. destruct (send_queued s) eqn:Es.
    + rewrite pending_rests by done. eexists. split; [done|]. by eapply in_open; eauto; cbn; intros; congruence.
    + destruct (_ <? _).
      * set (c1 := reject_oversized_receive_buffer _).
        assert (Hc1 : c1 = queue_send (set_close_after_send true (queue_text oversized_text (note_reject request_body_too_large
          (conn_of s (Buffer.append p pb) 0 ec st rj effs))))).
        { unfold c1, reject_oversized_receive_buffer, start_response_send. cbn. by rewrite Es. }
        rewrite pending_rests by (by rewrite Hc1). eexists. split; [done|]. rewrite Hc1. eapply in_ending; cbn; eauto.
      * change (set_partial _ _) with (conn_of s (Buffer.append p pb) 0 ec st rj effs). rewrite idle_builds by done.
        destruct (dispatch_any env s (Buffer.append p pb) ec st rj effs (q ++ p) Hh' Hq Es) as (c' & Hd & Hdd); [by rewrite Hcl|].
        rewrite Hd. cbn [mbind option_bind]. eexists. split; [done|].
        pose proof (state_settles _ _ _ _ ms [] Hdd Hc Hn ltac:(by left)) as Hs. by rewrite app_nil_r in Hs.
  - unfold phase1_copy. cbn. rewrite Hcl. cbn [andb negb uploads conn_of up up0 new_conn upload_body]. fold up0.
    change (mkConn _ _ _ _ _ _ _ _ _ _) with (conn_of s pb 0 ec st rj effs). rewrite idle_builds by done.
    destruct (dispatch_any env s pb ec st rj effs q Hh) as (c' & Hd & Hdd); [rewrite !length_app in *; lia|done|done|].
    rewrite Hd. cbn [mbind option_bind]. eexists. split; [done|]. rewrite <- !app_assoc.
    apply (state_settles _ _ _ _ ms (lost ++ p) Hdd Hc Hn). by right.
  - rewrite H7. unfold phase1_copy. rewrite H1. unfold uploads. rewrite H5. cbn. rewrite pending_rests by done. eexists. split; [done|].
    rewrite <- app_assoc. by eapply in_ending.
  - rewrite H1. eexists. split; [done|]. rewrite <- app_assoc. by eapply in_gone.
Qed.

(** A write of text. *)
Lemma sent_text env n drained closed c :
  att c = att0 -> has_response (snd_ c) = true ->
  sent ring env n drained closed c =
  let c := set_written (written (snd_ c) + n) (emit (Wrote (take n (in_flight (snd_ c)))) c) in
  if (written (snd_ c) <? length (own_response (snd_ c)))%nat then Some (queue_send c) else finish_plain_send ring env drained closed c.
Proof. intros Ha Hh. unfold sent. rewrite Ha. cbn. rewrite Ha. cbn. by rewrite Hh. Qed.

(** The last response: it is written further, or written and the connection closed. *)
Lemma last_response env n drained closed c :
  close_after_send (snd_ c) = true -> has_response (snd_ c) = true -> att c = att0 -> up c = up0 -> closing c = false ->
  let wrote := Wrote (take n (in_flight (snd_ c))) in
  exists c', sent ring env n drained closed c = Some c' /\
    (c' = queue_send (set_written (written (snd_ c) + n) (emit wrote c)) \/
     retired c' = true /\ send_queued (snd_ c') = false /\ rejections c' = rejections c /\ effects c' = (effects c ++ [wrote]) ++ [ShutDown]).
Proof.
  intros H1 H2 H4 H5 H6 wrote. rewrite sent_text by done. cbn zeta. destruct (_ <? _)%nat; [eexists; split; [done|]; by left|].
  unfold finish_plain_send, handle_send_complete. cbn. rewrite H4. cbn. unfold handle_http_response_send_complete, uploads. cbn. rewrite H5. cbn.
  rewrite andb_false_r, H1. unfold queue_close. cbn. rewrite H6. eexists. split; [done|]. by right.
Qed.

Lemma state_write env n drained closed got c :
  state got c -> Z.of_nat (length got) < 2 ^ 64 - 2 -> send_queued (snd_ c) = true ->
  exists c', sent ring env n drained closed c = Some c' /\ state got c'.
Proof.
  intros [s pb ec st rj effs ms q Hcl Hsq Hh -> Hc Hn Hu|s pb ec st rj effs ms q lost Hcl Hsq Hha Hch Hh -> Hc Hn
         |c' ms rest H1 H2 H3 H4 H5 H6 H7 -> H9|c' ms rest H1 H2 -> H4] Hsz Hq; [|cbn in Hq; congruence| |congruence].
  - cbn in Hq. rewrite sent_text by (done || cbn; congruence). cbn zeta.
    assert (Hc' : calls ms (effs ++ [Wrote (take n (in_flight s))])) by (by apply calls_other).
    assert (Hn' : ShutDown ∉ effs ++ [Wrote (take n (in_flight s))]) by (rewrite elem_of_app, list_elem_of_singleton; by intros [?|?]).
    cbn [conn_of snd_ written own_response set_written emit on_snd in_flight]. destruct (_ <? _)%nat.
    { eexists. split; [done|]. apply (in_open _ (mkSending (own_response s) (has_response s) (written s + n) true
        (drop (written s + n) (own_response s)) (close_after_send s) (continue_final_close s)) pb ec st rj _ ms q); try done. cbn. congruence. }
    unfold finish_plain_send, handle_send_complete. cbn. unfold handle_http_response_send_complete. cbn. rewrite andb_false_r, Hcl. cbn.
    destruct (BufferOk.buffer_consume 0 pb) as [Hwf0 Hv0]. rewrite drop_0 in Hv0. set (pb0 := Buffer.consume 0 pb) in *.
    assert (Hh0 : holds_any pb0 st q) by (destruct Hh as [_ Hh]; split; [done|]; by rewrite Hv0).
    set (s0 := mkSending [] false 0 false (in_flight s) (close_after_send s) (continue_final_close s)).
    set (c0 := conn_of s0 pb0 0 ec st rj (effs ++ [Wrote (take n (in_flight s))])).
    destruct (Buffer.empty pb0) eqn:Ee; [exists c0; split; [done|]; eapply in_open; eauto; intros _; by eapply unread_empty|].
    destruct (dispatch_any env s0 pb0 ec st rj (effs ++ [Wrote (take n (in_flight s))]) q Hh0) as (c1 & Hd & Hdd);
      [rewrite length_app in Hsz; lia|done|by cbn; rewrite Hcl|].
    change (dispatch_request ring env _ _) with (dispatch_request ring env c0 (Buffer.view pb0)). unfold c0. rewrite Hd. cbn [mbind option_bind].
    eexists. split; [reflexivity|]. pose proof (state_settles _ _ _ _ ms [] Hdd Hc' Hn' ltac:(by left)) as Hs. by rewrite app_nil_r in Hs.
  - destruct (last_response env n drained closed c') as (c2 & Hr & Hc2); try done. exists c2. split; [done|].
    assert (Hc' : calls ms (effects c' ++ [Wrote (take n (in_flight (snd_ c')))])) by (by apply calls_other).
    destruct Hc2 as [->|(Hr2 & Hq2 & _ & He2)]; [by eapply in_ending|]. eapply in_gone; try done. rewrite He2. by apply calls_other.
Qed.

Lemma state_end got c :
  state got c -> (send_queued (snd_ c) = true -> state got (send_failed c)) /\ state got (peer_closed c) /\
    (ShutDown ∈ effects c -> state got (handle_fd_shutdown c)).
Proof.
  intros [s pb ec st rj effs ms q Hcl Hsq Hh -> Hc Hn Hu|s pb ec st rj effs ms q lost Hcl Hsq Hha Hch Hh -> Hc Hn
         |c' ms rest H1 H2 H3 H4 H5 H6 H7 -> H9|c' ms rest H1 H2 -> H4]; split_and!; try (cbn; congruence); try done.
  - intros _. by apply (state_leaves (mkSending (own_response s) (has_response s) (written s) false (in_flight s) (close_after_send s)
      (continue_final_close s))).
  - unfold peer_closed. cbn [conn_of retired snd_ orb]. rewrite Hcl.
    change (state (texts ms ++ q) (if send_queued s then conn_of s pb 0 ec st rj effs else queue_close (conn_of s pb 0 ec st rj effs))).
    destruct (send_queued s) eqn:Es; [|by apply state_leaves]. by eapply in_open; eauto; cbn; intros; congruence.
  - unfold peer_closed. cbn [conn_of retired snd_ orb]. rewrite Hcl. by eapply in_stuck.
  - intros _. unfold send_failed. rewrite H4. cbn. unfold queue_close. cbn. rewrite H6. eapply in_gone; cbn; eauto. by apply calls_other.
  - unfold peer_closed. rewrite H1, orb_true_r. by eapply in_ending.
  - intros _. unfold handle_fd_shutdown. rewrite H3. eapply in_ending; cbn; eauto.
  - unfold peer_closed. rewrite H1. by eapply in_gone.
  - intros _. unfold handle_fd_shutdown. rewrite H2. eapply in_gone; cbn; eauto. by apply calls_other.
Qed.

Lemma history_state evs c :
  history (accept addr new_conn) evs c -> Z.of_nat (length (came evs)) < 2 ^ 64 - 2 -> state (came evs) c.
Proof.
  remember (accept addr new_conn) as c0 eqn:E0. induction 1 as [c|c evs c1 e c2 _ IH He]; intros Hsz; subst.
  - apply (in_open _ (mkSending [] false 0 false [] false false) Buffer.clear false Chunked.fresh [] [] [] []); try done;
      [split; [apply BufferOk.wf_clear|by left]|by intros ?%elem_of_nil|intros _].
    apply (unread_empty Buffer.clear Chunked.fresh); [split; [apply BufferOk.wf_clear|by left]|done].
  - rewrite came_snoc in *. assert (Hs : state (came evs) c1) by (apply IH; [done|]; rewrite length_app in Hsz; lia).
    destruct He as [env p c c' Hp Hr|env n drained closed c c' Hq Hn Hr|c Hq|c|c Hd].
    + destruct (state_read env p _ _ Hs Hsz) as (c2 & Hr' & Hs'). by rewrite Hr in Hr'; injection Hr' as ->.
    + rewrite app_nil_r in *. destruct (state_write env n drained closed _ _ Hs Hsz Hq) as (c2 & Hr' & Hs'). by rewrite Hr in Hr'; injection Hr' as ->.
    + rewrite app_nil_r. by apply (state_end _ _ Hs).
    + rewrite app_nil_r. by apply (state_end _ _ Hs).
    + rewrite app_nil_r. by apply (state_end _ _ Hs).
Qed.

Lemma state_calls got c : state got c -> exists ms rest, got = texts ms ++ rest /\ calls ms (effects c) /\
  (send_queued (snd_ c) = false -> close_after_send (snd_ c) = false -> retired c = false -> unread rest).
Proof. destruct 1; subst; eexists _, _; (split; [reflexivity|]); (split; [eassumption|]); cbn in *; intros; (congruence || auto). Qed.

(** *** Only one reading *)

Lemma framed_unique m m' x x' :
  framed ring m -> framed ring m' -> m_text m ++ x = m_text m' ++ x' -> Z.of_nat (length (m_text m ++ x)) < 2 ^ 64 - 2 ->
  m_request addr m = m_request addr m' /\ m_text m = m_text m' /\ x = x'.
Proof.
  intros Hf Hf' E Hsz. unfold m_text in E, Hsz |- *. rewrite <- !app_assoc in E.
  destruct (head_unique m m' _ _ (framed_headed _ Hf) (framed_headed _ Hf') E) as (Hr & Hh & Ec).
  assert (m_coded m = m_coded m' /\ m_body m = m_body m' /\ x = x') as (Hc & Hb & Hx).
  { pose proof (f_body _ _ Hf) as B1. pose proof (f_body _ _ Hf') as B2. cbn zeta in B1, B2. rewrite <- Hr in B2.
    unfold m_coded, m_body in *. destruct (m_form m) as [|b|t b], (m_form m') as [|b'|t' b']; try done;
      try (exfalso; repeat match goal with H : _ /\ _ |- _ => destruct H | H : exists _, _ |- _ => destruct H end; congruence).
    - destruct B1 as (_ & v & Hv & _ & _ & Hl & _), B2 as (_ & v' & Hv' & _ & _ & Hl' & _). rewrite Hv in Hv'. injection Hv' as <-.
      apply app_inj_1 in Ec as [-> ->]; [done|lia].
    - destruct B1 as (_ & v & _ & _ & n & k & j & Ht & ? & ? & ? & ?), B2 as (_ & w & _ & _ & n' & k' & j' & Ht' & ? & ? & ? & ?).
      rewrite !length_app in Hsz. pose proof (pa_limit _ P).
      pose proof (decode_chunked_text n k j t b x mb mc ltac:(rewrite length_app; lia) ltac:(done) Ht ltac:(done) ltac:(done) ltac:(done) ltac:(done)) as D1.
      pose proof (decode_chunked_text n' k' j' t' b' x' mb mc ltac:(rewrite <- Ec, length_app; lia) ltac:(done) Ht' ltac:(done) ltac:(done) ltac:(done) ltac:(done)) as D2.
      rewrite Ec, D2 in D1. injection D1 as Hl ->. apply app_inj_1 in Ec as [-> ->]; [done|lia]. }
  rewrite Hh, Hc. split; [|done]. unfold m_request, m_parts, m_path, m_target, m_fields. by rewrite Hr, Hb.
Qed.

(** Two readings of the same bytes agree as far as both go. *)
Lemma readings_agree ms ms' x x' :
  Forall (framed ring) ms -> Forall (framed ring) ms' -> texts ms ++ x = texts ms' ++ x' -> Z.of_nat (length (texts ms ++ x)) < 2 ^ 64 - 2 ->
  map (m_request addr) ms `prefix_of` map (m_request addr) ms' \/ map (m_request addr) ms' `prefix_of` map (m_request addr) ms.
Proof.
  intros H. revert ms' x x'. induction H as [|m ms Hm _ IH]; intros ms' x x' H' E Hsz; [left; apply prefix_nil|].
  destruct H' as [|m' ms' Hm' Hms']; [right; apply prefix_nil|]. unfold texts in E, Hsz. cbn in E, Hsz. rewrite <- !app_assoc in E.
  rewrite <- app_assoc in Hsz. destruct (framed_unique m m' _ _ Hm Hm' E Hsz) as (Hr & _ & E').
  cbn. rewrite Hr. rewrite length_app in Hsz.
  destruct (IH ms' x x' Hms' E') as [?|?]; [unfold texts; lia|left; by apply prefix_cons|right; by apply prefix_cons].
Qed.

(** *** A request that closes the connection *)

Section lost.
Context (m : message) (p part more : bytes) (Hf : framed ring m) (Hcloses : closes m = true)
  (Hexpect : common_expect_state (summary m) <> continue_100).
Context (Hp : p = m_head m ++ part) (Hmore : m_text m = p ++ more) (Hne : more <> []) (Hsize : Z.of_nat (length (m_text m)) < 2 ^ 64 - 2).

(** Waiting for the rest of the request, ending or gone, with nothing called. *)
Inductive lost : Conn -> Prop :=
| lo_stuck s pb ec st rj effs :
    close_after_send s = true -> send_queued s = false -> has_response s = false -> closing_head pb -> holds_any pb st p ->
    called effs = [] -> ShutDown ∉ effs -> lost (conn_of s pb 0 ec st rj effs)
| lo_ending c :
    close_after_send (snd_ c) = true -> has_response (snd_ c) = true -> send_queued (snd_ c) = true -> att c = att0 -> up c = up0 ->
    closing c = false -> retired c = false -> called (effects c) = [] -> lost c
| lo_gone c : retired c = true -> send_queued (snd_ c) = false -> called (effects c) = [] -> lost c.

Lemma not_whole m' rest : framed ring m' -> p <> m_text m' ++ rest.
Proof.
  intros Hf' E. destruct (framed_unique m m' [] (rest ++ more) Hf Hf') as (_ & Ht & Hx).
  - by rewrite app_nil_r, Hmore, E, <- app_assoc.
  - by rewrite app_nil_r.
  - symmetry in Hx. by apply app_eq_nil in Hx as [_ ?].
Qed.

Lemma lost_settles pb effs c :
  dispatched p pb effs c -> closing_head pb -> called effs = [] -> ShutDown ∉ effs -> lost (phase3_dispatch c).
Proof.
  intros [s pb' ec st rj Hh Hq Hcl Hch _|c' (H1 & H2 & H3 & H4 & H5 & H6 & H7 & H8)|s pb' rj m' Hf' Hq Hwf Hsq Hhas Hch] Hc He Hs.
  - destruct (Hcl (Hch Hc)) as [Hh0 Hc0]. unfold phase3_dispatch, response_send_ready. cbn. rewrite Hh0. cbn. apply lo_stuck; auto.
  - unfold phase3_dispatch, start_response_send, response_send_ready. rewrite H2, H3. cbn. apply lo_ending; cbn; auto. by rewrite H8.
  - by apply not_whole in Hq.
Qed.

Lemma lost_read env x c c' : lost c -> received ring env x c = Some c' -> lost c'.
Proof.
  intros [s pb ec st rj effs H1 H2 H3 H4 H5 H6 H7|c1 H1 H2 H3 H4 H5 H6 H7 H8|c1 H1 H2 H3]; unfold received.
  - unfold phase1_copy. cbn. rewrite H1. cbn [andb negb uploads conn_of up up0 new_conn upload_body]. fold up0.
    change (mkConn _ _ _ _ _ _ _ _ _ _) with (conn_of s pb 0 ec st rj effs). rewrite idle_builds by done.
    destruct (dispatch_any env s pb ec st rj effs p H5) as (c2 & Hd & Hdd); [rewrite Hmore, length_app in Hsize; lia|done|done|].
    rewrite Hd. cbn [mbind option_bind]. intros [= <-]. by apply (lost_settles pb effs).
  - rewrite H7. unfold phase1_copy. rewrite H1. unfold uploads. rewrite H5. cbn. rewrite pending_rests by done. intros [= <-]. by apply lo_ending.
  - rewrite H1. intros [= <-]. by apply lo_gone.
Qed.

Lemma called_other effs e : match e with Called _ => False | _ => True end -> called effs = [] -> called (effs ++ [e]) = [].
Proof. intros He Hc. rewrite called_app, Hc. by destruct e. Qed.

Lemma lost_happens c e c' : lost c -> happens c e c' -> lost c'.
Proof.
  intros Hl He. destruct He as [env x c c' Hx Hr|env n drained closed c c' Hq Hn Hr|c Hq|c|c Hd].
  - by eapply lost_read.
  - destruct Hl as [s pb ec st rj effs H1 H2 H3 H4 H5 H6 H7|c1 H1 H2 H3 H4 H5 H6 H7 H8|c1 H1 H2 H3]; [cbn in Hq; congruence| |congruence].
    destruct (last_response env n drained closed c1) as (c2 & Hr' & Hc2); try done. rewrite Hr in Hr'. injection Hr' as <-.
    assert (Hc' : called (effects c1 ++ [Wrote (take n (in_flight (snd_ c1)))]) = []) by (by apply called_other).
    destruct Hc2 as [->|(Hr2 & Hq2 & _ & He2)]; [by apply lo_ending|]. apply lo_gone; try done. rewrite He2. by apply called_other.
  - destruct Hl as [s pb ec st rj effs H1 H2 H3 H4 H5 H6 H7|c1 H1 H2 H3 H4 H5 H6 H7 H8|c1 H1 H2 H3]; [cbn in Hq; congruence| |congruence].
    unfold send_failed. rewrite H4. cbn. unfold queue_close. cbn. rewrite H6. apply lo_gone; cbn; auto. by apply called_other.
  - destruct Hl as [s pb ec st rj effs H1 H2 H3 H4 H5 H6 H7|c1 H1 H2 H3 H4 H5 H6 H7 H8|c1 H1 H2 H3]; unfold peer_closed.
    + cbn [conn_of retired snd_ orb]. rewrite H1. by apply lo_stuck.
    + rewrite H1, orb_true_r. by apply lo_ending.
    + rewrite H1. by apply lo_gone.
  - destruct Hl as [s pb ec st rj effs H1 H2 H3 H4 H5 H6 H7|c1 H1 H2 H3 H4 H5 H6 H7 H8|c1 H1 H2 H3]; [done| |]; unfold handle_fd_shutdown.
    + rewrite H3. apply lo_ending; cbn; auto.
    + rewrite H2. apply lo_gone; cbn; auto. by apply called_other.
Qed.

Lemma lost_first env c : received ring env p (accept addr new_conn) = Some c -> lost c.
Proof.
  assert (Hsz : Z.of_nat (length p) < 2 ^ 64 - 2) by (rewrite Hmore, length_app in Hsize; lia).
  set (pb := Buffer.append p Buffer.clear). set (s := mkSending [] false 0 false [] false false).
  assert (Hh : holds_any pb Chunked.fresh p) by (split; [unfold BufferOk.wf; cbn; lia|by left]).
  assert (Hch : closing_head pb) by (exists m, part; split_and!; [by apply framed_headed|exact Hp|done|done]).
  assert (Ha : accept addr new_conn = conn_of s Buffer.clear 0 false Chunked.fresh [] []) by reflexivity.
  rewrite Ha. unfold received. cbn [conn_of retired]. fold (conn_of s Buffer.clear 0 false Chunked.fresh [] []).
  assert (H1 : phase1_copy ring p (conn_of s Buffer.clear 0 false Chunked.fresh [] []) =
    let c := conn_of s pb 0 false Chunked.fresh [] [] in
    if raw_receive_cap ring <? Z.of_nat (Buffer.size pb)
    then queue_send (set_close_after_send true (queue_text oversized_text (note_reject request_body_too_large c))) else c) by reflexivity.
  rewrite H1. cbn zeta. destruct (_ <? _).
  - rewrite pending_rests by reflexivity. intros [= <-]. apply lo_ending; reflexivity.
  - rewrite idle_builds by reflexivity.
    destruct (dispatch_any env s pb false Chunked.fresh [] [] p Hh Hsz) as (c2 & Hd & Hdd); [reflexivity|by cbn|].
    rewrite Hd. cbn [mbind option_bind]. intros [= <-]. apply (lost_settles pb []); try assumption; [reflexivity|by intros ?%elem_of_nil].
Qed.

End lost.

(** *** A head that does not give the length of its body *)

(** Not one host, both framing headers, one of them twice, an encoding that is not
    [chunked], or a length that is no number within the limit. *)
Definition bad_framing (m : message) : Prop :=
  let hosts := field_values (Http1.Head.headers (m_req m)) (B "host") in
  let lengths := field_values (Http1.Head.headers (m_req m)) (B "content-length") in
  let encodings := field_values (Http1.Head.headers (m_req m)) (B "transfer-encoding") in
  (Http1.Head.version (m_req m) = B "HTTP/1.1" /\ length hosts <> 1%nat) \/ (lengths <> [] /\ encodings <> []) \/
  (2 <= length lengths)%nat \/ (2 <= length encodings)%nat \/ (exists v, encodings = [v] /\ ~ says_chunked v) \/
  (exists v, lengths = [v] /\ ~ (Forall (fun c => is_digit c = true) v /\ dec_value v <= mb)).

(** No framed request has such a head, *)
Lemma framed_good m m' : framed ring m -> bad_framing m' -> m_req m = m_req m' -> False.
Proof.
  intros Hf Hb Hr. pose proof (f_host _ _ Hf) as Hh. pose proof (f_body _ _ Hf) as Hy. unfold bad_framing in Hb. cbn zeta in Hb, Hy.
  rewrite Hr in Hh, Hy. destruct Hb as [[Hv Hl]|Hb]; [destruct (Hh Hv) as [v E]; by rewrite E in Hl|].
  destruct (m_form m) as [|b|t b].
  - destruct Hy as [E1 E2]. rewrite E1, E2 in Hb. cbn in Hb.
    destruct Hb as [[? _]|[?|[?|[(v & ? & _)|(v & ? & _)]]]]; first [done|lia].
  - destruct Hy as (E2 & v & E1 & _ & Hd & Hn & Hm). rewrite E1, E2 in Hb. cbn in Hb.
    destruct Hb as [[_ ?]|[?|[?|[(w & ? & _)|(w & [= <-] & Hw)]]]]; try first [done|lia]. apply Hw. split; [done|]. by rewrite Hn.
  - destruct Hy as (E1 & v & E2 & Hs & _). rewrite E1, E2 in Hb. cbn in Hb.
    destruct Hb as [[? _]|[?|[?|[(w & [= <-] & Hw)|(w & ? & _)]]]]; first [done|lia].
Qed.

(** so no request is read beyond it. *)
Lemma bad_stops ms0 ms m x rest :
  Forall (framed ring) ms0 -> Forall (framed ring) ms -> headed ring m -> bad_framing m ->
  texts ms0 ++ m_head m ++ x = texts ms ++ rest -> Z.of_nat (length (texts ms0 ++ m_head m ++ x)) < 2 ^ 64 - 2 ->
  map (m_request addr) ms `prefix_of` map (m_request addr) ms0.
Proof.
  intros H0 H Hm Hb. revert ms H. induction H0 as [|m0 ms0 Hm0 _ IH]; intros ms H E Hsz; destruct H as [|m' ms Hm' Hms]; try apply prefix_nil.
  - exfalso. unfold texts in E. cbn in E. unfold m_text in E. rewrite <- !app_assoc in E.
    destruct (head_unique m m' _ _ Hm (framed_headed m' Hm') E) as (Hr & _). by apply (framed_good m' m).
  - unfold texts in E, Hsz. cbn in E, Hsz. rewrite <- !app_assoc in E. rewrite <- app_assoc in Hsz.
    destruct (framed_unique m0 m' _ _ Hm0 Hm' E Hsz) as (Hr & _ & E'). cbn. rewrite Hr. apply prefix_cons. rewrite length_app in Hsz.
    apply IH; [done|exact E'|unfold texts; lia].
Qed.

(** The reason the head is refused for. *)
Definition refusal (m : message) : option HttpRejectReason :=
  match validate_http1_host_headers (Http1.Head.version (m_req m)) (summary m) with
  | Some reason => Some reason
  | None =>
      match framing_error (m_fields m) (summary m) with
      | Some reason => Some reason
      | None => match announced_length ring (summary m) with Unexpected reason => Some reason | Ok _ => None end
      end
  end.

Lemma bad_refused m : bad_framing m -> is_Some (refusal m).
Proof.
  intros H. unfold refusal. destruct (validate_http1_host_headers _ _) as [r|] eqn:Eh; [by eexists|].
  destruct (framing_error _ _) as [r|] eqn:Ef; [by eexists|]. destruct (announced_length ring (summary m)) as [n|r] eqn:Ea; [exfalso|by eexists].
  destruct (summary_counts m) as (_ & Hcl & Hte & Hv). pose proof (framing_cases m Ef) as Hc. cbn zeta in Hc.
  destruct H as [[Hver Hho]|[[? ?]|[H2|[H2|[(v & He & Hn)|(v & Hl & Hn)]]]]].
  - destruct (framing_host m Eh Hver) as [v Hv']. by rewrite Hv' in Hho.
  - destruct Hc as [[? ?]|[(? & v & ?)|(? & v & ? & ?)]]; congruence.
  - destruct Hc as [[E _]|[(_ & v & E)|(E & _)]]; rewrite E in H2; cbn in H2; lia.
  - destruct Hc as [[_ E]|[(E & v & _)|(_ & v & E & _)]]; rewrite E in H2; cbn in H2; lia.
  - destruct Hc as [[_ ?]|[(? & w & _)|(_ & w & Hw & ?)]]; [congruence|congruence|]. rewrite He in Hw. by injection Hw as ->.
  - rewrite Hl in Hcl, Hv. cbn in Hcl, Hv. unfold announced_length, read_content_length in Ea. rewrite Hcl, Hv in Ea. cbn in Ea.
    pose proof (content_length_exact v mb) as Hx. destruct (ContentLength.parse_content_length_limited v mb) as [k|[]]; [|done|done].
    destruct Hx as (_ & Hd & -> & ? & _). by apply Hn.
Qed.

(** A refusal being written, or the connection gone. *)
Inductive refused (reason : HttpRejectReason) (text : bytes) : Conn -> Prop :=
| re_ending c :
    close_after_send (snd_ c) = true -> has_response (snd_ c) = true -> send_queued (snd_ c) = true -> att c = att0 -> up c = up0 ->
    closing c = false -> retired c = false -> called (effects c) = [] -> rejections c = [reason] -> own_response (snd_ c) = text ->
    in_flight (snd_ c) = drop (written (snd_ c)) text -> output (effects c) = take (written (snd_ c)) text -> refused reason text c
| re_gone c :
    retired c = true -> send_queued (snd_ c) = false -> called (effects c) = [] -> rejections c = [reason] ->
    output (effects c) `prefix_of` text -> refused reason text c.

Lemma take_prefix {A} n (l : list A) : take n l `prefix_of` l.
Proof. exists (drop n l). by rewrite take_drop. Qed.

Lemma refused_write reason text env n drained closed c c' :
  refused reason text c -> send_queued (snd_ c) = true -> (n <= length (in_flight (snd_ c)))%nat ->
  sent ring env n drained closed c = Some c' -> refused reason text c'.
Proof.
  intros [c1 H1 H2 H3 H4 H5 H6 H7 H8 H9 H10 H11 H12|c1 H1 H2 H3 H4 H5] Hq Hn; [|congruence].
  assert (Ho : output (effects c1 ++ [Wrote (take n (in_flight (snd_ c1)))]) = take (written (snd_ c1) + n) text).
  { rewrite output_app, H12, H11. cbn. rewrite app_nil_r. by rewrite take_take_drop. }
  assert (Hc : called (effects c1 ++ [Wrote (take n (in_flight (snd_ c1)))]) = []) by (by apply called_other).
  destruct (last_response env n drained closed c1) as (c2 & Hr & Hc2); try done. rewrite Hr. intros [= <-].
  destruct Hc2 as [->|(Hr2 & Hq2 & Hj2 & He2)]; [apply re_ending; cbn; try done; by rewrite H10|].
  apply re_gone; try done; rewrite ?Hj2, ?He2; [by apply called_other|done|].
  rewrite output_app, Ho. cbn. rewrite app_nil_r. apply take_prefix.
Qed.

Lemma refused_happens reason text c e c' : refused reason text c -> happens c e c' -> refused reason text c'.
Proof.
  intros Hl He. destruct He as [env x c c' Hx Hr|env n drained closed c c' Hq Hn Hr|c Hq|c|c Hd].
  - unfold received in Hr. destruct Hl as [c1 H1 H2 H3 H4 H5 H6 H7 H8 H9 H10 H11 H12|c1 H1 H2 H3 H4 H5].
    + rewrite H7 in Hr. unfold phase1_copy in Hr. rewrite H1 in Hr. unfold uploads in Hr. rewrite H5 in Hr. cbn [andb negb up0 new_conn up
        upload_body] in Hr. rewrite pending_rests in Hr by done. injection Hr as <-. by apply re_ending.
    + rewrite H1 in Hr. injection Hr as <-. by apply re_gone.
  - apply (refused_write reason text env n drained closed c c'); [assumption|assumption|lia|assumption].
  - destruct Hl as [c1 H1 H2 H3 H4 H5 H6 H7 H8 H9 H10 H11 H12|c1 H1 H2 H3 H4 H5]; [|congruence].
    unfold send_failed. rewrite H4. cbn. unfold queue_close. cbn. rewrite H6. apply re_gone; cbn [retired snd_ send_queued effects rejections]; auto; [by apply called_other|].
    rewrite output_app. cbn. rewrite app_nil_r, H12. apply take_prefix.
  - destruct Hl as [c1 H1 H2 H3 H4 H5 H6 H7 H8 H9 H10 H11 H12|c1 H1 H2 H3 H4 H5]; unfold peer_closed; rewrite H1, ?orb_true_r;
      [by apply re_ending|by apply re_gone].
  - destruct Hl as [c1 H1 H2 H3 H4 H5 H6 H7 H8 H9 H10 H11 H12|c1 H1 H2 H3 H4 H5]; unfold handle_fd_shutdown.
    + rewrite H3. apply re_ending; cbn; auto.
    + rewrite H2. apply re_gone; cbn [retired snd_ send_queued effects rejections emit]; auto; [by apply called_other|]. rewrite output_app. cbn. by rewrite app_nil_r.
Qed.

(** The first read of a connection, up to the dispatch. *)
Lemma first_read env p :
  Z.of_nat (length p) <= raw_receive_cap ring ->
  let c := conn_of (mkSending [] false 0 false [] false false) (Buffer.append p Buffer.clear) 0 false Chunked.fresh [] [] in
  received ring env p (accept addr new_conn) = c1 ← dispatch_request ring env c p; Some (phase3_dispatch c1).
Proof.
  intros Hcap c. unfold received. cbn [accept retired]. fold (accept addr new_conn).
  assert (H1 : phase1_copy ring p (accept addr new_conn) = c).
  { unfold phase1_copy. cbn [accept snd_ close_after_send andb set_partial on_rcv rcv partial send_queued].
    rewrite (proj2 (Z.ltb_ge _ _)); [done|]. unfold Buffer.size, Buffer.append, Buffer.clear. cbn [Buffer.buf Buffer.pos]. cbn. lia. }
  rewrite H1. unfold c at 1. rewrite idle_builds by done. done.
Qed.

Lemma refused_first env m x reason c :
  headed ring m -> refusal m = Some reason -> Z.of_nat (length (m_head m ++ x)) <= raw_receive_cap ring ->
  received ring env (m_head m ++ x) (accept addr new_conn) = Some c ->
  refused reason (format_response (http_date_now env) (make_rejection_response reason) (alt_svc_header ring) true) c.
Proof.
  intros Hm Hr Hcap. rewrite first_read by done. cbn zeta. unfold dispatch_request. rewrite dispatch_head by done. unfold refusal in Hr. cbn zeta.
  assert (Hgoal : forall s pb ec st, send_queued s = false -> written s = 0%nat ->
    refused reason (format_response (http_date_now env) (make_rejection_response reason) (alt_svc_header ring) true)
      (phase3_dispatch (emit_rejection ring env (m_head m ++ x) reason (conn_of s pb 0 ec st [] [])))).
  { intros s pb ec st Hs Hw. unfold phase3_dispatch, start_response_send, response_send_ready. cbn [emit_rejection set_request_bytes on_rcv
      set_close_after_send on_snd queue_text set_has_response set_own_response note_reject conn_of snd_ has_response orb send_queued].
    rewrite Hs. cbn [orb negb]. apply re_ending; cbn [queue_send on_snd snd_ in_flight written own_response effects output map concat]; try done.
    match goal with |- context [take ?w _] => replace w with 0%nat by (symmetry; exact Hw) end. reflexivity. }
  destruct (validate_http1_host_headers _ _) as [r|].
  { injection Hr as ->. cbn [mbind option_bind]. intros H. injection H as <-. by apply Hgoal. }
  destruct (framing_error _ _) as [r|].
  { injection Hr as ->. cbn [mbind option_bind]. intros H. injection H as <-. by apply Hgoal. }
  destruct (announced_length _ _) as [n|r]; [done|]. injection Hr as ->. cbn [mbind option_bind]. intros H. injection H as <-. by apply Hgoal.
Qed.

(** A history from its first incident on. *)
Lemma history_from (Q : Conn -> Prop) e evs c0 c :
  history c0 (e :: evs) c -> (forall c1, happens c0 e c1 -> Q c1) -> (forall c1 e c2, Q c1 -> happens c1 e c2 -> Q c2) -> Q c.
Proof.
  intros H H0 Hs. remember (e :: evs) as es eqn:E. revert evs E. induction H as [c|c es c1 e' c2 Hk IH He]; intros evs E; [done|].
  destruct es as [|e1 es]; cbn in E; injection E as -> E.
  - inversion Hk; subst; [by apply H0|]. by destruct evs0.
  - eapply Hs; [|done]. by eapply IH.
Qed.

End server.
End Any.

(** ** Properties *)

Module AuthenticProps.
Import Http1.Head Http1.Grammar Fields Target Parts Multipart Format Router.Dispatch Req Resp Reject Connection Serve ChunkWait Client
  Shift Framing Any ServerProps.

Ltac prove_framed := constructor;
  [split_and!; [done|by apply forallb_Forall|done|by apply forallb_Forall|by right]|repeat constructor; prove_field
  |split_and!; try (vm_compute; lia); repeat constructor; vm_compute; lia|reflexivity|by intros _; eexists|].

Lemma sized_orderly : orderly echo_ring sized_message.
Proof.
  constructor; [prove_framed|apply sized_good|done|done|by split; [constructor|left]].
  split; [done|]. exists (B "2"). split_and!; try done. repeat constructor.
Qed.

Lemma chunked_orderly : orderly echo_ring chunked_message.
Proof.
  pose proof (g_body _ _ chunked_good) as (_ & _ & n & k & s & Hs & Hn & Hb & Hk & Ht).
  constructor; [prove_framed|apply chunked_good| |done|by split; [constructor|left]].
  - split; [done|]. exists (B "chunked"). split; [done|]. split; [split; [by apply (bool_decide_unpack _)|done]|].
    exists n, k, s. split_and!; try done. by apply short_chunked.
  - intros t b [= <- <-]. by exists n, k, s.
Qed.

(** C3: a connection serves the requests it is sent. The application answers with
    texts, takes no streamed uploads, and plain HTTP is not redirected ([plain_app]). A
    client sends requests one after the other, without a body, with a sized or a
    chunked one; each is [orderly]: framed, its lines a byte shorter than the limits,
    with no [Expect] header, and it keeps the connection open. The bytes arrive in
    reads of any sizes and the answers are written in writes of any sizes, interleaved
    in any way, where a read that comes while nothing is being written leaves at most
    [raw_receive_cap] bytes of requests the application was not called with ([fits]).
    Then at every moment the application has been called with exactly the first
    requests, in order and once each; what has been written, with what is being
    written, is exactly the text of its answers, in order; nothing is refused and the
    connection stays open. When no write is pending every request that has arrived
    whole has been answered. The server never gets stuck: each further such read and
    each completed write has a next state. *)
Theorem requests_served ring ms addr evs c z :
  plain_app ring -> Forall (orderly ring) ms -> Z.of_nat (length (texts ms)) < 2 ^ 64 - 2 ->
  paced_steps ring ms (accept addr new_conn) evs c -> arrived evs ++ z = texts ms ->
  exists dates, (length dates <= length ms)%nat /\
    called (effects c) = map (m_request addr) (take (length dates) ms) /\
    output (effects c) ++ unsent c = responses ring addr dates ms /\
    rejections c = [] /\ closing c = false /\
    (unsent c = [] -> forall j, (j <= length ms)%nat -> texts (take j ms) `prefix_of` arrived evs -> (j <= length dates)%nat) /\
    (forall env p, p <> [] -> p `prefix_of` z -> fits ring ms (arrived evs) p c -> is_Some (received ring env p c)) /\
    (forall env n drained closed, send_queued (snd_ c) = true -> (1 <= n <= length (in_flight (snd_ c)))%nat ->
       is_Some (sent ring env n drained closed c)).
Proof.
  intros P Hms Hsz. apply (good_requests_served ring P ms addr); [|done]. apply Forall_forall. intros m Hm.
  apply orderly_good; [|by rewrite Forall_forall in Hms; apply Hms]. apply list_elem_of_split in Hm as (a & b & ->).
  rewrite texts_app, length_app in Hsz. unfold texts in Hsz at 2. cbn in Hsz. rewrite length_app in Hsz. lia.
Qed.

Lemma requests_served_witness :
  exists c dates, paced_steps echo_ring [sized_message; chunked_message] (accept (B "1.2.3.4") new_conn) sample_events c /\
    length dates = 2%nat /\ called (effects c) = map (m_request (B "1.2.3.4")) [sized_message; chunked_message] /\
    output (effects c) = responses echo_ring (B "1.2.3.4") dates [sized_message; chunked_message].
Proof.
  destruct sample_run as (c & Hk & Hu).
  destruct (requests_served echo_ring [sized_message; chunked_message] (B "1.2.3.4") sample_events c [] echo_plain) as
    (dates & Hlen & Hc & Ho & _ & _ & Hall & _); [|vm_compute; reflexivity|exact Hk|apply sample_arrived|].
  { constructor; [apply sized_orderly|]. constructor; [apply chunked_orderly|constructor]. }
  assert (H2 : (2 <= length dates)%nat).
  { apply (Hall Hu 2%nat); [cbn; lia|]. exists []. rewrite app_nil_r. rewrite <- (app_nil_r (arrived _)). apply sample_arrived. }
  assert (Hd : length dates = 2%nat) by (cbn in Hlen; lia).
  exists c, dates. rewrite Hu, app_nil_r in Ho. rewrite Hd in Hc. split_and!; assumption.
Defined.

(** C2: no bytes make the server see a request that was not sent, and no request it
    should answer is passed over. The application answers with texts, takes no
    streamed uploads, and plain HTTP is not redirected ([plain_app]); fewer than
    [2 ^ 64 - 2] bytes arrive. Whatever the bytes are, in whatever reads, and whatever
    else happens to the connection (writes of any sizes, writes that fail, a peer that
    leaves, a shutdown), the application has been called with the requests [ms], once
    each and in order, where what has arrived is the texts of [ms] and a rest, and each
    of them is framed: its head is of the grammar and gives the length of its body in
    exactly one way. So no request starts inside the body of another, and every way to
    cut what has arrived into framed requests gives the same requests as far as it
    goes. While the connection is open, nothing is being written and it is not to be
    closed, the rest does not start with a whole framed request: each one that has
    arrived was served. The server never gets stuck: each further read and each
    completed write has a next state. *)
Theorem requests_authentic ring addr evs c :
  plain_app ring -> history ring (accept addr new_conn) evs c -> Z.of_nat (length (came evs)) < 2 ^ 64 - 2 ->
  exists ms rest, came evs = texts ms ++ rest /\ called (effects c) = map (m_request addr) ms /\ Forall (framed ring) ms /\
    (forall ms' rest', Forall (framed ring) ms' -> came evs = texts ms' ++ rest' ->
       called (effects c) `prefix_of` map (m_request addr) ms' \/ map (m_request addr) ms' `prefix_of` called (effects c)) /\
    (send_queued (snd_ c) = false -> close_after_send (snd_ c) = false -> retired c = false -> unread ring rest) /\
    (forall env p, Z.of_nat (length (came evs ++ p)) < 2 ^ 64 - 2 -> is_Some (received ring env p c)) /\
    (forall env n drained closed, send_queued (snd_ c) = true -> is_Some (sent ring env n drained closed c)).
Proof.
  intros P Hh Hsz. pose proof (history_state ring P addr evs c Hh Hsz) as Hs.
  destruct (state_calls ring addr _ _ Hs) as (ms & rest & Hgot & [Hc Hf] & Hu). exists ms, rest. split_and!; try done.
  - intros ms' rest' Hf' Hgot'. rewrite Hc. apply (readings_agree ring P addr ms ms' rest rest'); try done; congruence.
  - intros env p Hp. destruct (state_read ring P addr env p _ _ Hs Hp) as (c' & -> & _). by eexists.
  - intros env n drained closed Hq. destruct (state_write ring P addr env n drained closed _ _ Hs Hsz Hq) as (c' & -> & _). by eexists.
Qed.


(** A request after which the connection closes is lost when its body does not
    arrive with its head. The application is as in [plain_app]; the request is framed,
    with [Connection: close] or of version 1.0, and does not expect [100 Continue]; the
    first read brings its whole head and part of its body. Then the application is
    never called, whatever arrives afterwards, the rest of the body included: reads are
    dropped from the moment the head is seen. *)
Theorem closing_request_lost ring addr m part more evs c :
  plain_app ring -> framed ring m -> closes m = true -> common_expect_state (summary m) <> continue_100 ->
  m_coded m = part ++ more -> more <> [] -> Z.of_nat (length (m_text m)) < 2 ^ 64 - 2 ->
  history ring (accept addr new_conn) (Arrives (m_head m ++ part) :: evs) c ->
  called (effects c) = [].
Proof.
  intros P Hf Hc He Hp Hm Hsz Hh.
  assert (Ht : m_text m = (m_head m ++ part) ++ more) by (unfold m_text; by rewrite Hp, app_assoc).
  assert (Q : lost ring addr (m_head m ++ part) c).
  { eapply (history_from ring (lost ring addr (m_head m ++ part))); [exact Hh| |].
    - intros c1 H1. inversion H1 as [env ? ? ? _ Hrc| | | |]; subst. by eapply (lost_first ring P addr m _ part more).
    - intros c1 e c2 Hl He2. by eapply (lost_happens ring P addr m _ more). }
  by destruct Q.
Qed.

(** Incidents one after the other, all in one environment. *)
Definition has_shut_down (effs : list Effect) : bool := existsb (fun e => match e with ShutDown => true | _ => false end) effs.

Definition exec_one (ring : Ring) (env : Env) (c : Conn) (e : incident) : option Conn :=
  match e with
  | Arrives [] => None
  | Arrives p => received ring env p c
  | Writes n =>
      if send_queued (snd_ c) && (1 <=? n)%nat && (n <=? length (in_flight (snd_ c)))%nat then sent ring env n [] false c else None
  | WriteFails => if send_queued (snd_ c) then Some (send_failed c) else None
  | PeerCloses => Some (peer_closed c)
  | ShutdownDone => if has_shut_down (effects c) then Some (handle_fd_shutdown c) else None
  end.

Fixpoint exec_any (ring : Ring) (env : Env) (c : Conn) (evs : list incident) : option Conn :=
  match evs with
  | [] => Some c
  | e :: evs => c ← exec_one ring env c e; exec_any ring env c evs
  end.

Lemma exec_one_happens ring env c e c' : exec_one ring env c e = Some c' -> happens ring c e c'.
Proof.
  destruct e as [[|b p]|n| | |]; cbn [exec_one]; intros H.
  - done.
  - by eapply h_arrives.
  - destruct (_ && _) eqn:E; [|done]. apply andb_true_iff in E as [[E1 E2]%andb_true_iff E3]. apply Nat.leb_le in E2, E3. by eapply h_writes.
  - destruct (send_queued _) eqn:E; [|done]. injection H as <-. by apply h_fails.
  - injection H as <-. apply h_leaves.
  - destruct (has_shut_down _) eqn:E; [|done]. injection H as <-. apply h_down. apply existsb_exists in E as (e & He & Heq).
    apply list_elem_of_In. by destruct e.
Qed.

Lemma exec_history ring env c0 old c evs c' :
  history ring c0 old c -> exec_any ring env c evs = Some c' -> history ring c0 (old ++ evs) c'.
Proof.
  revert c old. induction evs as [|e evs IH]; intros c old Hk H; cbn [exec_any] in H; [injection H as <-; by rewrite app_nil_r|].
  destruct (exec_one ring env c e) as [c1|] eqn:E; [|done]. rewrite (cons_middle e), app_assoc. eapply IH; [|done].
  eapply hi_more; [done|]. by eapply exec_one_happens.
Qed.

(** A history with the number of calls and of refusals in it. *)
Definition sample_holds (evs : list incident) (calls refusals : nat) : bool :=
  match exec_any echo_ring sample_env (accept (B "1.2.3.4") new_conn) evs with
  | Some c => (length (called (effects c)) =? calls)%nat && (length (rejections c) =? refusals)%nat
  | None => false
  end.

Lemma sample_history evs calls refusals :
  sample_holds evs calls refusals = true ->
  exists c, history echo_ring (accept (B "1.2.3.4") new_conn) evs c /\ length (called (effects c)) = calls /\ length (rejections c) = refusals.
Proof.
  unfold sample_holds. destruct (exec_any _ _ _ _) as [c|] eqn:E; [|done]. intros [H1%Nat.eqb_eq H2%Nat.eqb_eq]%andb_true_iff. exists c.
  split; [|done]. by apply (exec_history _ sample_env _ [] _ _ _ (hi_none _ _) E).
Qed.

(** A request in two reads, then bytes that are no request, and a write that fails. *)
Definition odd_events : list incident :=
  [Arrives (take 20 (m_text sized_message)); Arrives (drop 20 (m_text sized_message) ++ B "GARBAGE"); Writes 30; Writes 86;
   Arrives (crlf ++ crlf); Writes 10; PeerCloses; WriteFails; ShutdownDone; Arrives (m_text sized_message)].

Lemma odd_holds : sample_holds odd_events 1 1 = true.
Proof. vm_compute. reflexivity. Qed.

Lemma requests_authentic_witness :
  exists c ms rest, history echo_ring (accept (B "1.2.3.4") new_conn) odd_events c /\ length ms = 1%nat /\
    came odd_events = texts ms ++ rest /\ called (effects c) = map (m_request (B "1.2.3.4")) ms /\ Forall (framed echo_ring) ms.
Proof.
  destruct (sample_history odd_events 1 1 odd_holds) as (c & Hh & Hl & _).
  destruct (requests_authentic echo_ring (B "1.2.3.4") odd_events c echo_plain Hh) as (ms & rest & H1 & H2 & H3 & _);
    [vm_compute; reflexivity|].
  exists c, ms, rest. split; [exact Hh|]. split; [|split; [exact H1|split; [exact H2|exact H3]]].
  rewrite H2, length_map in Hl. exact Hl.
Defined.

(** A head with both framing headers, followed by what would be another request. *)
Definition smuggling_head : message :=
  mkMessage (mkRequest (B "POST") (B "/") (B "HTTP/1.1") [(B "Host", B "a"); (B "Content-Length", B "2"); (B "Transfer-Encoding", B "chunked")] 71)
    [B "Host: a"; B "Content-Length: 2"; B "Transfer-Encoding: chunked"] NoBody.

Definition smuggled : bytes := B "0" ++ crlf ++ crlf ++ m_text sized_message.
Definition smuggling_events : list incident :=
  [Arrives (m_head smuggling_head ++ smuggled); Writes 50; Arrives (m_text sized_message)].

Lemma smuggling_holds : sample_holds smuggling_events 0 1 = true.
Proof. vm_compute. reflexivity. Qed.

Lemma smuggling_headed : headed echo_ring smuggling_head.
Proof.
  constructor.
  - split_and!; [done|by apply forallb_Forall|done|by apply forallb_Forall|by right].
  - repeat constructor; prove_field.
  - split_and!; try (vm_compute; lia); repeat constructor; vm_compute; lia.
  - reflexivity.
Qed.


(** A request of two bytes, with [Connection: close]. *)
Definition closing_message : message :=
  mkMessage (mkRequest (B "POST") (B "/") (B "HTTP/1.1") [(B "Host", B "a"); (B "Connection", B "close"); (B "Content-Length", B "2")] 62)
    [B "Host: a"; B "Connection: close"; B "Content-Length: 2"] (Sized (B "hi")).

Definition closing_events : list incident := [Arrives (m_head closing_message ++ []); Arrives (B "hi"); PeerCloses].

Lemma closing_holds : sample_holds closing_events 0 0 && sample_holds [Arrives (m_text closing_message)] 1 0 = true.
Proof. vm_compute. reflexivity. Qed.

Lemma closing_framed : framed echo_ring closing_message.
Proof.
  constructor.
  - split_and!; [done|by apply forallb_Forall|done|by apply forallb_Forall|by right].
  - repeat constructor; prove_field.
  - split_and!; try (vm_compute; lia); repeat constructor; vm_compute; lia.
  - reflexivity.
  - intros _. by eexists.
  - split; [done|]. exists (B "2"). split_and!; try done. repeat constructor.
Qed.

Lemma closing_request_lost_witness :
  exists c, history echo_ring (accept (B "1.2.3.4") new_conn) closing_events c /\ came closing_events = m_text closing_message /\
    called (effects c) = [].
Proof.
  destruct (sample_history closing_events 0 0 (proj1 (andb_prop _ _ closing_holds))) as (c & Hh & _). exists c.
  split; [exact Hh|]. split; [vm_compute; reflexivity|].
  apply (closing_request_lost echo_ring (B "1.2.3.4") closing_message [] (B "hi") (tl closing_events) c echo_plain closing_framed).
  - reflexivity.
  - discriminate.
  - reflexivity.
  - discriminate.
  - vm_compute. reflexivity.
  - exact Hh.
Defined.

End AuthenticProps.
