(* ===== verification/Middleware.v ===== *)
(** * Middleware

    The wrappers of handlers that a router runs before and after a route: cross-origin
    headers ([src/src/net/cors.cxx]), request forgery tokens ([csrf.cxx]), entity tags
    ([etag.cxx]), forwarding headers ([forwarded.cxx]), redirects ([redirect.cxx] and
    [trailing_slash.cxx]), caching and security headers ([cache_control.cxx] and
    [security.cxx]), request identifiers ([request_id.cxx]) and virtual hosts
    ([vhost.cxx]). A middleware is a function of the request and of the rest of the
    chain, as in [Router.Dispatch]; random bytes are an argument.

    The theorems say what each lets through and what it adds: a request with a
    protected method reaches the rest of the chain only with the token of its cookie; a
    redirect with a prefix rule stays on the host of its target when the target ends
    its authority; the query survives the redirect of a trailing slash; the entity tag
    is compared as the header lists it; a request goes to the router of its host.
    Several theorems show inputs on which a middleware does not do what its comments
    say. *)

From Stdlib Require Import ZArith Lia Strings.Byte String.
From stdpp Require Import base tactics option numbers list gmap.
From S2P Require Import Prelude.
From S2P Require Import Codec.
From S2P Require Import Http1.
From S2P Require Import HttpBody.
From S2P Require Import HttpTypes.
From S2P Require Import HttpMessage.
From S2P Require Import HttpServe.
From S2P Require Import Cidr.
From S2P Require Import Crypto.
From S2P Require Import Router.

(** ** Around a handler *)

Module Chain.
Import Fields Resp Req Dispatch.

Definition Middleware : Type := RequestView -> Handler -> outcome.

(** The response of the rest of the chain, changed. *)
Definition with_response (o : outcome) (f : Response -> Response) : outcome :=
  match o with Returns r => Returns (f r) | Throws what => Throws what end.

Definition set_req_headers (h : HttpFields) (req : RequestView) : RequestView :=
  mkRequestView (method req) (path req) (version req) (remote_addr req) (is_tls req) (params req) h (query req) (form req) (cookies req)
    (files req) (body req).

Definition set_remote_addr (a : bytes) (req : RequestView) : RequestView :=
  mkRequestView (method req) (path req) (version req) a (is_tls req) (params req) (Req.headers req) (query req) (form req) (cookies req)
    (files req) (body req).

Definition set_content_type (t : bytes) (r : Response) : Response :=
  mkResponse (status r) (status_text r) t (Resp.headers r) (set_cookies r) (trailers r) (head_only r) (content_length_hint r) (body_kind r)
    (body_payload r).

(** [headers[name]] where the fields can be written: the field is added when it is absent. *)
Definition read_header (name : bytes) (r : Response) : bytes * Response :=
  (at_ (Resp.headers r) name, if contains (Resp.headers r) name then r else set_header name [] r).

End Chain.

(** ** Cross-origin requests *)

Module Cors.
Import Fields HeaderList Resp Req Dispatch Chain.

Definition kCorsDefaultMaxAge : Z := 86400.

Record CorsOptions := mkCors {
  allowed_origins : list bytes; allowed_methods : list bytes; allowed_headers : list bytes; expose_headers : list bytes;
  max_age : Z; allow_credentials : bool
}.

Definition default_cors : CorsOptions :=
  mkCors [B "*"] [B "GET"; B "POST"; B "PUT"; B "DELETE"; B "PATCH"; B "OPTIONS"] [B "Content-Type"; B "Authorization"; B "Accept"] []
    kCorsDefaultMaxAge false.

Record PreparedCorsOptions := mkPrepared {
  opts : CorsOptions; methods_text : bytes; headers_text : bytes; expose_text : bytes; max_age_text : bytes; wildcard_origin : bool
}.

Definition prepare (o : CorsOptions) : PreparedCorsOptions :=
  mkPrepared o (join_header_tokens (allowed_methods o)) (join_header_tokens (allowed_headers o)) (join_header_tokens (expose_headers o))
    (to_dec (max_age o)) (match allowed_origins o with [a] => bytes_eqb a (B "*") | _ => false end).

Definition resolve_origin (policy : PreparedCorsOptions) (request_origin : bytes) : bytes :=
  if wildcard_origin policy then (if allow_credentials (opts policy) then request_origin else B "*")
  else if existsb (fun a => bytes_eqb a request_origin) (allowed_origins (opts policy)) then request_origin else [].

Definition inject_cors_headers (policy : PreparedCorsOptions) (request_origin : bytes) (resp : Response) : option Response :=
  match resolve_origin policy request_origin with
  | [] => Some resp
  | origin =>
      let resp := set_header (B "Access-Control-Allow-Origin") origin resp in
      let resp := if allow_credentials (opts policy) then set_header (B "Access-Control-Allow-Credentials") (B "true") resp else resp in
      let resp := match expose_text policy with [] => resp | t => set_header (B "Access-Control-Expose-Headers") t resp end in
      append_vary (B "Origin") resp
  end.

Definition is_preflight (req : RequestView) : bool :=
  bytes_eqb (method req) (B "OPTIONS") && negb (bytes_eqb (at_ (Req.headers req) (B "origin")) [])
  && negb (bytes_eqb (at_ (Req.headers req) (B "access-control-request-method")) []).

(** [append_vary] always returns ([cors_exact]); the default is never taken. *)
Definition cors_middleware (o : CorsOptions) : Middleware := fun req next =>
  let policy := prepare o in
  let request_origin := at_ (Req.headers req) (B "origin") in
  if is_preflight req then
    let preflight := set_content_type (B "text/plain") no_content in
    Returns
      match resolve_origin policy request_origin with
      | [] => preflight
      | origin =>
          let r := set_header (B "Access-Control-Allow-Origin") origin preflight in
          let r := set_header (B "Access-Control-Allow-Methods") (methods_text policy) r in
          let r := set_header (B "Access-Control-Allow-Headers") (headers_text policy) r in
          let r := set_header (B "Access-Control-Max-Age") (max_age_text policy) r in
          let r := if allow_credentials (opts policy) then set_header (B "Access-Control-Allow-Credentials") (B "true") r else r in
          set_header (B "Vary") (B "Origin") r
      end
  else
    with_response (next req) (fun resp =>
      match request_origin with [] => resp | _ => default resp (inject_cors_headers policy request_origin resp) end).

End Cors.

(** ** Request forgery *)

Module Csrf.
Import Base64 Sha Codec.Ascii Fields Resp Req Dispatch Chain.

Definition generate_token (random : bytes) : bytes := base64url_encode random.

Record CsrfOptions := mkCsrf {
  cookie_name : bytes; header_name : bytes; form_field : bytes; cookie_attrs : bytes; protected_methods : list bytes
}.

Definition default_csrf : CsrfOptions :=
  mkCsrf (B "csrf_token") (B "X-CSRF-Token") (B "csrf_token") (B "Path=/; Secure; SameSite=Strict")
    [B "POST"; B "PUT"; B "PATCH"; B "DELETE"].

(** The token the client gives back: in the header, or else in the form. *)
Definition submitted (o : CsrfOptions) (req : RequestView) : bytes :=
  match at_ (Req.headers req) (ascii_lower (header_name o)) with
  | [] => at_ (form req) (ascii_lower (form_field o))
  | t => t
  end.

(** [random]: the bytes drawn for a new token. *)
Definition csrf_middleware (o : CsrfOptions) (random : bytes) : Middleware := fun req next =>
  let cookie_token := at_ (cookies req) (ascii_lower (cookie_name o)) in
  let is_protected := existsb (fun m => bytes_eqb m (method req)) (protected_methods o) in
  let refused :=
    if is_protected then
      match cookie_token with
      | [] => Some (text (B "CSRF token missing") 403)
      | _ => if negb (constant_time_eq cookie_token (submitted o req)) then Some (text (B "CSRF token invalid") 403) else None
      end
    else None in
  match refused with
  | Some r => Returns r
  | None =>
      with_response (next req) (fun resp =>
        let token := match cookie_token with [] => generate_token random | t => t end in
        set_header (header_name o) token (set_cookie (cookie_name o) token (cookie_attrs o) resp))
  end.

End Csrf.

(** ** Entity tags *)

Module ETag.
Import Fields HeaderList Resp Req Dispatch Decimal Chain.

Definition fnv1a64 (value : bytes) : Z :=
  fold_left (fun hash c => u64 (Z.lxor hash (byteZ c) * 1099511628211)) value 14695981039346656037.

Definition weak_value (tag : bytes) : bytes := if starts_with tag (B "W/") then drop 2 tag else tag.
Definition weak_match (lhs rhs : bytes) : bool := bytes_eqb (weak_value lhs) (weak_value rhs).

Definition etag_of (weak : bool) (body : bytes) : bytes :=
  (if weak then B "W/" else []) ++ [x22] ++ append_hex (fnv1a64 body) ++ [x22].

(** Whether the list of tags names this one; [header_tokens] always returns. *)
Definition listed (if_none_match etag : bytes) : bool :=
  existsb (fun token => bytes_eqb token (B "*") || weak_match token etag) (default [] (header_tokens if_none_match)).

Definition etag_middleware (weak : bool) : Middleware := fun req next =>
  with_response (next req) (fun resp =>
    if negb (bytes_eqb (at_ (Resp.headers resp) (B "ETag")) []) then resp
    else
      match body_kind resp, text_body resp with
      | text_kind, _ :: _ =>
          let etag := etag_of weak (text_body resp) in
          let resp := set_header (B "ETag") etag resp in
          match at_ (Req.headers req) (B "if-none-match") with
          | [] => resp
          | inm => if listed inm etag then not_modified etag else resp
          end
      | _, _ => resp
      end).

End ETag.

(** ** Forwarding headers *)

Module Forwarded.
Import Codec.Ascii Fields Resp Req Dispatch Ip Chain.

Record ForwardedOptions := mkForwarded { trusted_proxies : list bytes; use_x_forwarded_for : bool; use_x_real_ip : bool }.

Definition xff_first (value : bytes) : bytes :=
  trim (match find_byte x2c value with None => value | Some comma => take comma value end).

Section forwarded.
Context (inet_pton : family -> bytes -> option bytes) (inet_ntop : family -> bytes -> option bytes).

Definition trusted (o : ForwardedOptions) (remote_addr : bytes) : bool :=
  let peer_ip := match parse_ip inet_pton remote_addr with Some a => a | None => replicate 16 x00 end in
  existsb (fun c => cidr_match c peer_ip) (parse_cidr_list inet_pton (trusted_proxies o)).

(** The address the proxy gives. *)
Definition real_ip (o : ForwardedOptions) (req : RequestView) : bytes :=
  let xff := if use_x_forwarded_for o then xff_first (at_ (Req.headers req) (B "x-forwarded-for")) else [] in
  match xff with
  | [] => if use_x_real_ip o then trim (at_ (Req.headers req) (B "x-real-ip")) else []
  | _ => xff
  end.

Definition forwarded_middleware (o : ForwardedOptions) : Middleware := fun req next =>
  if negb (trusted o (remote_addr req)) then
    next (set_req_headers (assign (assign (Req.headers req) (B "x-forwarded-for") []) (B "x-real-ip") []) req)
  else
    match real_ip o req with
    | [] => next req
    | ip =>
        next (set_remote_addr (match parse_ip inet_pton ip with Some a => ip_to_string inet_ntop a | None => ip end) req)
    end.

End forwarded.
End Forwarded.

(** ** Redirects *)

Module Redirect.
Import Fields Resp Req Dispatch Chain.

Definition is_safe_redirect_suffix (s : bytes) : bool :=
  if starts_with s (B "//") || starts_with s [x2f; x5c] then false
  else forallb (fun c => negb ((c =b x40) || (c =b x5c) || (c =b x0d) || (c =b x0a))) s.

Record RedirectRule := mkRule { from : bytes; to : bytes; rule_status : Z; prefix_match : bool }.

Fixpoint redirect_middleware (rules : list RedirectRule) (req : RequestView) (next : Handler) : outcome :=
  match rules with
  | [] => next req
  | rule :: rest =>
      if prefix_match rule then
        if starts_with (path req) (from rule) then
          let suffix := drop (length (from rule)) (path req) in
          if negb (is_safe_redirect_suffix suffix) then Returns (not_found (path req))
          else Returns (redirect (to rule ++ suffix) (rule_status rule))
        else redirect_middleware rest req next
      else if bytes_eqb (path req) (from rule) then Returns (redirect (to rule) (rule_status rule))
      else redirect_middleware rest req next
  end.

End Redirect.

Module TrailingSlash.
Import Codec.Url Fields Resp Req Dispatch Chain.

Inductive TrailingSlashMode := remove | add.

Fixpoint build_query_from (fields : list (bytes * bytes)) (first : bool) (out : bytes) : bytes :=
  match fields with
  | [] => out
  | (k, v) :: rest =>
      let out := if first then out else out ++ [x26] in
      build_query_from rest false (append_url_percent_encoded (append_url_percent_encoded out k ++ [x3d]) v)
  end.

Definition build_query (query : HttpFields) : bytes := build_query_from (data_ query) true [].

Definition make_redirect (status : Z) (req : RequestView) (new_path : bytes) : outcome :=
  let target := match data_ (query req) with [] => new_path | _ => new_path ++ [x3f] ++ build_query (query req) end in
  Returns (set_content_type (B "text/plain; charset=utf-8") (redirect target status)).

Definition trailing_slash_middleware (mode : TrailingSlashMode) (redirect_status : Z) : Middleware := fun req next =>
  if bytes_eqb (path req) (B "/") || bytes_eqb (path req) [] then next req
  else
    let has_slash := match last (path req) with Some c => c =b x2f | None => false end in
    match mode, has_slash with
    | remove, true => make_redirect redirect_status req (take (length (path req) - 1) (path req))
    | add, false => make_redirect redirect_status req (path req ++ [x2f])
    | _, _ => next req
    end.

End TrailingSlash.

(** ** Caching and security headers *)

Module CacheControl.
Import MediaType Fields Resp Req Dispatch Chain.

Record CacheRule := mkCacheRule { mime_prefix : bytes; directive : bytes }.

Definition set_directive (d : bytes) (resp : Response) : Response :=
  match d with [] => resp | _ => set_header (B "Cache-Control") d resp end.

Definition cache_control_middleware (rules : list CacheRule) (default_directive : bytes) : Middleware := fun req next =>
  with_response (next req) (fun resp =>
    let '(current, resp) := read_header (B "Cache-Control") resp in
    match current with
    | _ :: _ => resp
    | [] =>
        let mime := content_type_media_type (content_type resp) in
        match List.find (fun rule => bytes_eqb (mime_prefix rule) [] || starts_with mime (mime_prefix rule)) rules with
        | Some rule => set_directive (directive rule) resp
        | None => set_directive default_directive resp
        end
    end).

End CacheControl.

Module Security.
Import Fields Resp Req Dispatch Chain.

Record SecurityOptions := mkSecurity {
  hsts_max_age : Z; hsts_include_subdomains : bool; frame_options : bytes; nosniff : bool; xss_protection : bytes;
  referrer_policy : bytes; permissions_policy : bytes; csp : bytes; hsts_only_on_tls : bool
}.

Definition default_security : SecurityOptions :=
  mkSecurity 31536000 true (B "DENY") true (B "0") (B "strict-origin-when-cross-origin")
    (B "geolocation=(), microphone=(), camera=()") [] true.

Definition set_unless_empty (name v : bytes) (resp : Response) : Response := match v with [] => resp | _ => set_header name v resp end.

Definition security_headers_middleware (o : SecurityOptions) : Middleware := fun req next =>
  with_response (next req) (fun resp =>
    let resp :=
      if (0 <? hsts_max_age o) && (negb (hsts_only_on_tls o) || is_tls req) then
        set_header (B "Strict-Transport-Security")
          (B "max-age=" ++ to_dec (hsts_max_age o) ++ (if hsts_include_subdomains o then B "; includeSubDomains" else [])) resp
      else resp in
    let resp := set_unless_empty (B "X-Frame-Options") (frame_options o) resp in
    let resp := if nosniff o then set_header (B "X-Content-Type-Options") (B "nosniff") resp else resp in
    let resp := set_unless_empty (B "X-XSS-Protection") (xss_protection o) resp in
    let resp := set_unless_empty (B "Referrer-Policy") (referrer_policy o) resp in
    let resp := set_unless_empty (B "Permissions-Policy") (permissions_policy o) resp in
    set_unless_empty (B "Content-Security-Policy") (csp o) resp).

End Security.

(** ** Request identifiers *)

Module RequestId.
Import Codec.Ascii Fields Resp Req Dispatch Decimal Chain.

(** [random]: sixteen bytes. *)
Definition stamp_version (i : nat) (b : byte) : byte :=
  if (i =? 6)%nat then byte_of_Z (Z.lor (Z.land (byteZ b) 0x0F) 0x40)
  else if (i =? 8)%nat then byte_of_Z (Z.lor (Z.land (byteZ b) 0x3F) 0x80)
  else b.

Definition uuid_step (out : bytes) (p : nat * byte) : bytes :=
  let '(i, b) := p in
  let out := if (i =? 4)%nat || (i =? 6)%nat || (i =? 8)%nat || (i =? 10)%nat then out ++ [x2d] else out in
  out ++ [hex_digit (Z.shiftr (byteZ b) 4); hex_digit (Z.land (byteZ b) 0xF)].

Definition generate_uuid (random : bytes) : bytes :=
  fold_left uuid_step (imap (fun i b => (i, stamp_version i b)) (take 16 random)) [].

Definition request_id_middleware (header : bytes) (trust_incoming : bool) (random : bytes) : Middleware := fun req next =>
  let lower_header := ascii_lower header in
  let existing := if trust_incoming then at_ (Req.headers req) lower_header else [] in
  let id := match existing with [] => generate_uuid random | _ => existing end in
  with_response (next (set_req_headers (assign (Req.headers req) lower_header id) req)) (set_header header id).

End RequestId.

(** ** Virtual hosts *)

Module VHost.
Import Codec.Ascii Fields Target Resp Req Dispatch.

Record VHostRouter := mkVHost { vhosts_ : list (bytes * Impl); default_ : option Impl }.

Definition host_router (host : bytes) (hosts : list (bytes * Impl)) : option Impl :=
  snd <$> List.find (fun p => bytes_eqb p.1 host) hosts.

(** [emplace]: a host that is registered keeps its router. *)
Definition add (host : bytes) (router : Impl) (v : VHostRouter) : VHostRouter :=
  match host_router (ascii_lower host) (vhosts_ v) with
  | Some _ => v
  | None => mkVHost (vhosts_ v ++ [(ascii_lower host, router)]) (default_ v)
  end.

Definition set_default (router : Impl) (v : VHostRouter) : VHostRouter := mkVHost (vhosts_ v) (Some router).

Definition vhost_dispatch (v : VHostRouter) (req : RequestView) (channel : nat) : outcome :=
  let host := ascii_lower (host_without_port (at_ (Req.headers req) (B "host"))) in
  match host_router host (vhosts_ v) with
  | Some router => dispatch router req channel
  | None => match default_ v with Some router => dispatch router req channel | None => Returns (not_found (path req)) end
  end.

End VHost.

(** ** Properties *)

Module MiddlewareProps.
Import Fields FieldsOk HeaderListOk Resp RespOk Req Dispatch Chain.

Section csrf.
Import Csrf ShaOk Codec.Ascii.
Context (o : CsrfOptions) (random : bytes) (req : RequestView).
Let token := at_ (cookies req) (ascii_lower (cookie_name o)).

Lemma is_protected : method req ∈ protected_methods o -> existsb (fun m => bytes_eqb m (method req)) (protected_methods o) = true.
Proof. intros H. apply existsb_exists. exists (method req). split; [by apply list_elem_of_In|by apply bytes_eqb_eq]. Qed.

(** The value of the first field of a name. Cookies and form fields have the case
    of their names ([norm] is the identity), headers do not. *)
Definition first_named (norm : bytes -> bytes) (name : bytes) (fields : list (bytes * bytes)) (v : bytes) : Prop :=
  exists before k after, fields = before ++ (k, v) :: after /\ norm k = norm name /\
    Forall (fun x => norm x.1 <> norm name) before.

(** The request gives the token of its cookie back: in the header, or, when the
    header is absent or empty, in the form. *)
Definition gives_back (tok : bytes) : Prop :=
  tok <> [] /\ first_named id (cookie_name o) (data_ (cookies req)) tok /\
  (first_named ascii_lower (header_name o) (data_ (Req.headers req)) tok \/
   (forall v, first_named ascii_lower (header_name o) (data_ (Req.headers req)) v -> v = []) /\
   first_named id (form_field o) (data_ (form req)) tok).

Lemma first_matching_named ci key data v :
  first_matching_in ci key data = Some v <-> first_named (if ci then ascii_lower else id) key data v.
Proof.
  induction data as [|[k w] data IH]; cbn [first_matching_in].
  - split; [done|]. by intros ([|? ?] & ? & ? & [=] & _).
  - destruct (key_eq ci k key) eqn:E.
    + apply key_eq_spec in E. split.
      * intros [= ->]. exists [], k, data. split; [done|]. split; [|done]. by destruct ci.
      * intros ([|x before] & k' & after & Heq & Hk & Hb); simplify_eq/=; [done|]. apply Forall_cons in Hb as [Hb _].
        destruct Hb. cbn [fst]. by destruct ci.
    + rewrite IH. assert ((if ci then ascii_lower else id) k <> (if ci then ascii_lower else id) key) as Hne.
      { intros H. assert (key_eq ci k key = true) by (apply key_eq_spec; by destruct ci). congruence. }
      split.
      * intros (before & k' & after & -> & Hk & Hb). exists ((k, w) :: before), k', after. split; [done|]. split; [done|].
        by apply Forall_cons.
      * intros ([|x before] & k' & after & Heq & Hk & Hb); simplify_eq/=. apply Forall_cons in Hb as [_ Hb].
        exists before, k', after. done.
Qed.

Lemma at_named f key t : t <> [] ->
  at_ f key = t <-> first_named (if case_insensitive_ f then ascii_lower else id) key (data_ f) t.
Proof.
  intros Ht. rewrite <- first_matching_named. unfold at_, get, first_matching.
  destruct (first_matching_in _ _ _) as [v|]; cbn; [split; congruence|]. split; [by intros <-|done].
Qed.

Lemma at_empty f key :
  at_ f key = [] <-> forall v, first_named (if case_insensitive_ f then ascii_lower else id) key (data_ f) v -> v = [].
Proof.
  unfold at_, get, first_matching. split.
  - intros H v Hv. apply first_matching_named in Hv. rewrite Hv in H. exact H.
  - intros H. destruct (first_matching_in _ _ _) as [v|] eqn:E; [|done]. apply first_matching_named in E. by apply H in E.
Qed.

Lemma first_named_lower name fields v :
  first_named ascii_lower (ascii_lower name) fields v <-> first_named ascii_lower name fields v.
Proof. unfold first_named. by rewrite ascii_lower_idemp. Qed.

(** The fields of a request as the server fills them, and names without capitals
    for the cookie and the form field. *)
Definition plain_names : Prop :=
  case_insensitive_ (cookies req) = false /\ case_insensitive_ (form req) = false /\
  case_insensitive_ (Req.headers req) = true /\
  ascii_lower (cookie_name o) = cookie_name o /\ ascii_lower (form_field o) = form_field o.

Lemma submitted_spec t : plain_names -> t <> [] ->
  (token = t /\ submitted o req = t <-> gives_back t).
Proof.
  intros (Hc & Hf & Hh & Ec & Ef) Ht. unfold gives_back, submitted, token. rewrite Ec, Ef.
  rewrite at_named, Hc by done. cbv iota.
  pose proof (at_named (Req.headers req) (ascii_lower (header_name o)) t Ht) as Hn.
  pose proof (at_empty (Req.headers req) (ascii_lower (header_name o))) as He.
  rewrite Hh in Hn, He. rewrite first_named_lower in Hn. setoid_rewrite first_named_lower in He.
  pose proof (at_named (form req) (form_field o) t Ht) as Hm. rewrite Hf in Hm.
  destruct (at_ (Req.headers req) (ascii_lower (header_name o))) as [|c h] eqn:E; [naive_solver|].
  assert (~ forall v, first_named ascii_lower (header_name o) (data_ (Req.headers req)) v -> v = []); naive_solver.
Qed.

(** C31: a request with a protected method passes the forgery check exactly when
    its cookie carries a token, not empty, and the header, or when the header is
    absent or empty the form, gives the same token back; then the rest of the
    chain runs and its response carries the token. In every other case, a wrong
    header before a right form included, the answer is 403, the same whatever the
    rest of the chain is, so that no later middleware and no handler runs. Of
    fields of the same name the first counts. The names of the cookie and of the
    form field are configured without capital letters. *)
Theorem csrf_guard mws inner :
  plain_names -> method req ∈ protected_methods o ->
  (forall tok, gives_back tok ->
     run_middlewares (csrf_middleware o random :: mws) inner req =
     with_response (run_middlewares mws inner req)
       (fun resp => set_header (header_name o) tok (set_cookie (cookie_name o) tok (cookie_attrs o) resp))) /\
  ((forall tok, ~ gives_back tok) ->
     exists r, status r = 403 /\ forall mws' inner', run_middlewares (csrf_middleware o random :: mws') inner' req = Returns r).
Proof.
  intros Hp Hm. cbn [run_middlewares]. unfold csrf_middleware. fold token.
  rewrite is_protected by done.
  split.
  - intros tok Hg. assert (tok <> []) as Hn by apply Hg. apply submitted_spec in Hg as [Et Hs]; [|done..].
    rewrite Hs, Et. rewrite (proj2 (constant_time_eq_eq _ _)) by done. cbn [negb]. by destruct tok.
  - intros H. destruct token as [|c t] eqn:E; [by eexists; split; [|done]|].
    destruct (Sha.constant_time_eq (c :: t) (submitted o req)) eqn:Ec; cbn [negb]; [|by eexists; split; [|done]].
    apply constant_time_eq_eq in Ec. exfalso. apply (H (c :: t)). by apply submitted_spec.
Qed.

(** With a cookie name that has capital letters the cookie the middleware sets is
    never found again, so that every request with a protected method is refused: the
    name is looked up in lower case, among cookies whose names are kept as they are. *)
Theorem csrf_cookie_case tok mws inner :
  method req ∈ protected_methods o -> ascii_lower (cookie_name o) <> cookie_name o ->
  cookies req = mkFields [(cookie_name o, tok)] false ->
  exists r, status r = 403 /\ run_middlewares (csrf_middleware o random :: mws) inner req = Returns r.
Proof.
  intros Hm Hn Hc. cbn [run_middlewares]. unfold csrf_middleware.
  rewrite is_protected by done.
  assert (at_ (cookies req) (ascii_lower (cookie_name o)) = []) as ->; [|by eexists; split; [|done]].
  rewrite Hc. unfold at_, get, first_matching. cbn. destruct (bytes_eqb (cookie_name o) (ascii_lower (cookie_name o))) eqn:E; [|done].
  apply bytes_eqb_eq in E. by symmetry in E.
Qed.

End csrf.

(** A form sent with a token, after a header that may have one too. *)
Definition csrf_request (header : list (bytes * bytes)) (tok : bytes) : RequestView :=
  mkRequestView (B "POST") (B "/pay") (B "HTTP/1.1") [] false (mkFields [] false) (mkFields header true) (mkFields [] false)
    (mkFields [(B "csrf_token", tok)] false) (mkFields [(B "csrf_token", B "secret")] false) [] [].

Definition paid : Handler := fun _ => Returns (text (B "paid") 200).

Lemma csrf_guard_witness :
  (exists r, run_middlewares [Csrf.csrf_middleware Csrf.default_csrf []] paid (csrf_request [] (B "secret"))
     = Returns r /\ status r = 200) /\
  exists r, status r = 403 /\
    run_middlewares [Csrf.csrf_middleware Csrf.default_csrf []] paid (csrf_request [(B "x-csrf-token", B "guess")] (B "secret")) = Returns r.
Proof.
  assert (Hm : forall h t, method (csrf_request h t) ∈ Csrf.protected_methods Csrf.default_csrf) by (intros h t; apply list_elem_of_here).
  assert (Hp : forall h t, plain_names Csrf.default_csrf (csrf_request h t)) by (intros h t; repeat split).
  split.
  - destruct (csrf_guard Csrf.default_csrf [] (csrf_request [] (B "secret")) [] paid (Hp _ _) (Hm _ _)) as [H _].
    eexists. split; [rewrite (H (B "secret")); [reflexivity|]|reflexivity]. split; [discriminate|].
    split; [by exists [], (B "csrf_token"), []|]. right. split; [by intros v ([|? ?] & ? & ? & [=] & _)|].
    by exists [], (B "csrf_token"), [].
  - destruct (csrf_guard Csrf.default_csrf [] (csrf_request [(B "x-csrf-token", B "guess")] (B "secret")) [] paid (Hp _ _) (Hm _ _))
      as [_ H].
    destruct H as (r & Hr & Hx); [|exists r; split; [exact Hr|apply Hx]].
    intros tok Hg. assert (tok <> []) as Hn by apply Hg. apply submitted_spec in Hg as [E1 E2]; [|apply Hp|done].
    vm_compute in E1, E2. congruence.
Defined.

(** *** Entity tags *)

Section etag.
Import ETag Codec.Ascii.

(** The tag a response gets is compared as the header lists it: the answer is 304 with
    the tag exactly when the list has a star, or a tag that is this one but for being
    weak; otherwise the response stands, with the tag added. Neither the method of the
    request nor the status of the response is looked at. *)
Theorem etag_exact weak req (next : Handler) resp :
  next req = Returns resp -> at_ (Resp.headers resp) (B "ETag") = [] -> body_kind resp = text_kind -> text_body resp <> [] ->
  at_ (Req.headers req) (B "if-none-match") <> [] ->
  let etag := etag_of weak (text_body resp) in
  let named := exists t, t ∈ map trim (split_on x2c (at_ (Req.headers req) (B "if-none-match"))) /\
                 (t = B "*" \/ weak_value t = weak_value etag) in
  (named /\ etag_middleware weak req next = Returns (not_modified etag)) \/
  (~ named /\ etag_middleware weak req next = Returns (set_header (B "ETag") etag resp)).
Proof.
  intros Hn He Hk Hb Hi etag named. unfold etag_middleware. rewrite Hn. cbn [with_response]. rewrite He. cbn [bytes_eqb negb]. rewrite Hk.
  destruct (text_body resp) as [|c b] eqn:Eb; [done|]. fold etag.
  destruct (at_ (Req.headers req) (B "if-none-match")) as [|d inm] eqn:Ei; [done|].
  assert (Hl : listed (d :: inm) etag = true <-> named).
  { unfold listed, named. rewrite header_tokens_spec. cbn [default from_option id]. rewrite existsb_exists.
    unfold weak_match. setoid_rewrite orb_true_iff. setoid_rewrite bytes_eqb_eq. setoid_rewrite list_elem_of_In. done. }
  destruct (listed (d :: inm) etag); [left|right]; split; try done; [by apply Hl|]. by intros H%Hl.
Qed.

(** A failed upload, told that nothing was modified. *)
Theorem etag_hides_failure :
  let req := mkRequestView (B "POST") (B "/orders") (B "HTTP/1.1") [] false (mkFields [] false)
               (mkFields [(B "if-none-match", B "*")] true) (mkFields [] false) (mkFields [] false) (mkFields [] false) [] [] in
  status <$> (match etag_middleware false req (fun _ => Returns (internal_error (B "disk full"))) with Returns r => Some r | _ => None end)
  = Some 304.
Proof. vm_compute. reflexivity. Qed.

End etag.

(** *** Forwarding headers *)

Section forwarded.
Import Forwarded.
Context (inet_pton inet_ntop : family -> bytes -> option bytes) (o : ForwardedOptions) (req : RequestView).
Context (Hci : case_insensitive_ (Req.headers req) = true).

(** From a peer that is not trusted the forwarding headers read as empty further on,
    and the address stays that of the peer; from a trusted one the headers stand and
    only the address changes, to the one given. *)
Theorem forwarded_exact (next : Handler) :
  exists req', forwarded_middleware inet_pton inet_ntop o req next = next req' /\
    if trusted inet_pton o (remote_addr req) then
      Req.headers req' = Req.headers req /\ (real_ip o req = [] -> req' = req)
    else
      remote_addr req' = remote_addr req /\
      at_ (Req.headers req') (B "x-forwarded-for") = [] /\ at_ (Req.headers req') (B "x-real-ip") = [].
Proof.
  unfold forwarded_middleware. destruct (trusted _ _ _); cbn [negb].
  - destruct (real_ip o req) as [|c ip]; eexists; (split; [reflexivity|]); [done|]. split; [done|]. done.
  - eexists. split; [reflexivity|]. split; [done|]. cbn [set_req_headers Req.headers]. rewrite !at_assign. cbn [assign case_insensitive_].
    rewrite Hci. split; vm_compute; reflexivity.
Qed.

End forwarded.

(** A second forwarding header of a peer that is not trusted is handed on. *)
Theorem forwarded_second_field inet_pton inet_ntop :
  let req := mkRequestView (B "GET") (B "/") (B "HTTP/1.1") (B "9.9.9.9") false (mkFields [] false)
               (mkFields [(B "X-Forwarded-For", B "1.1.1.1"); (B "X-Forwarded-For", B "127.0.0.1")] true) (mkFields [] false)
               (mkFields [] false) (mkFields [] false) [] [] in
  exists req', (forall next, Forwarded.forwarded_middleware inet_pton inet_ntop (Forwarded.mkForwarded [] true true) req next = next req') /\
    values (Req.headers req') (B "x-forwarded-for") = [[]; B "127.0.0.1"].
Proof. eexists. split; [intros next; reflexivity|]. vm_compute. reflexivity. Qed.

(** *** Redirects *)

Section redirect.
Import Redirect.

(** The target ends its authority: a slash or a query follows the host. *)
Definition ends_authority (t : bytes) : Prop :=
  exists k e, find_sub (B "://") t = Some k /\ Url.find_slash_or_query (drop (k + 3) t) = Some e.

Lemma slash_or_query_app s t e : Url.find_slash_or_query s = Some e -> Url.find_slash_or_query (s ++ t) = Some e /\ (e < length s)%nat.
Proof.
  revert e. induction s as [|c s IH]; intros e H; [done|]. cbn [Url.find_slash_or_query app] in *.
  destruct ((c =b x2f) || (c =b x3f)); [injection H as <-; cbn; split; [done|lia]|].
  destruct (Url.find_slash_or_query s) as [k|] eqn:E; [|done]. destruct (IH k eq_refl) as [-> Hk]. injection H as <-. cbn. split; [done|lia].
Qed.

Lemma target_host scheme host port rest e u :
  Url.parse_target scheme host port rest e = Ok u -> Url.scheme u = scheme /\ Url.host u = host /\ Url.port u = port.
Proof.
  unfold Url.parse_target. destruct host as [|c h]; [done|]. destruct (existsb _ (c :: h)); [done|].
  destruct (match e with None => _ | Some _ => _ end) as [path query]. destruct (_ || _); [done|]. by intros [= <-].
Qed.

Lemma authority_cut scheme rest rest' e u u' :
  Url.find_slash_or_query rest = Some e -> Url.find_slash_or_query rest' = Some e -> take e rest = take e rest' ->
  Url.parse_authority scheme rest = Ok u -> Url.parse_authority scheme rest' = Ok u' ->
  Url.scheme u' = Url.scheme u /\ Url.host u' = Url.host u /\ Url.port u' = Url.port u.
Proof.
  intros He He' Ht. unfold Url.parse_authority. rewrite He, He', <- Ht. destruct (take e rest) as [|c au]; [done|]. cbn zeta.
  destruct (Target.invalid_bracket _); [done|]. destruct (Target.invalid_suffix _); [done|].
  destruct (Target.has_port _); [destruct (Url.read_port _); [|done]|]; intros H1%target_host H2%target_host;
    destruct H1 as (-> & -> & ->), H2 as (-> & -> & ->); done.
Qed.

Lemma parse_after_scheme t k u :
  find_sub (B "://") t = Some k -> Url.parse t = Ok u -> Url.parse_authority (Codec.Ascii.ascii_lower (take k t)) (drop (k + 3) t) = Ok u.
Proof.
  intros Hk. unfold Url.parse. rewrite Hk. destruct t as [|c t]; [done|]. destruct (_ <? _); [done|]. cbn zeta.
  destruct (_ && _); [done|]. by destruct (drop (k + 3) (c :: t)).
Qed.

(** A redirect by a prefix rule stays on the host of its target when the target ends
    its authority: whatever path the request has, where it is sent has the same
    scheme, host and port. *)
Theorem redirect_keeps_host rule req (next : Handler) r u u' :
  prefix_match rule = true -> ends_authority (to rule) -> starts_with (path req) (from rule) = true ->
  redirect_middleware [rule] req next = Returns r -> status r = rule_status rule -> rule_status rule <> 404 ->
  Url.parse (to rule) = Ok u -> Url.parse (at_ (Resp.headers r) (B "Location")) = Ok u' ->
  Url.scheme u' = Url.scheme u /\ Url.host u' = Url.host u /\ Url.port u' = Url.port u.
Proof.
  intros Hp (k & e & Hk & He) Hs Hr Hst H404 Hu Hu'. cbn [redirect_middleware] in Hr. rewrite Hp, Hs in Hr.
  destruct (is_safe_redirect_suffix _); cbn [negb] in Hr; injection Hr as <-; [|by cbn in Hst; congruence].
  set (suffix := drop _ (path req)) in *. change (at_ _ (B "Location")) with (to rule ++ suffix) in Hu'.
  assert (Hl : (k + 3 <= length (to rule))%nat).
  { apply find_sub_Some in Hk as (b & Hb & Hlt). rewrite Hb, !length_app, length_take. cbn. lia. }
  apply (parse_after_scheme _ k) in Hu; [|done]. apply (parse_after_scheme _ k) in Hu'; [|by apply MultipartOk.find_sub_prefix].
  rewrite take_app_le in Hu' by lia. rewrite drop_app_le in Hu' by lia.
  destruct (slash_or_query_app _ suffix _ He) as [He' Hlt].
  eapply authority_cut; [exact He|exact He'| |exact Hu|exact Hu']. by rewrite take_app_le by lia.
Qed.

Lemma redirect_keeps_host_witness :
  exists u', Url.parse (B "https://example.com/new" ++ B "/x") = Ok u' /\ Url.host u' = B "example.com".
Proof.
  set (rule := mkRule (B "/old") (B "https://example.com/new") 302 true).
  set (req := mkRequestView (B "GET") (B "/old/x") (B "HTTP/1.1") [] false (mkFields [] false) (mkFields [] true) (mkFields [] false)
    (mkFields [] false) (mkFields [] false) [] []).
  destruct (Url.parse (B "https://example.com/new" ++ B "/x")) as [u'|] eqn:E; [|vm_compute in E; discriminate E].
  exists u'. split; [reflexivity|].
  destruct (redirect_keeps_host rule req (fun _ => Throws None) (redirect (B "https://example.com/new/x") 302)
    (Url.mkUrl (B "https") (B "example.com") 443 (B "/new") []) u') as (_ & -> & _); try reflexivity.
  - exists 5%nat, 11%nat. split; reflexivity.
  - discriminate.
  - exact E.
Defined.

(** A target without a slash after its host does not: the rest of the path becomes
    part of the host. *)
Theorem redirect_leaves_host :
  let rule := mkRule (B "/old") (B "https://example.com") 302 true in
  let req := mkRequestView (B "GET") (B "/old.evil.org/x") (B "HTTP/1.1") [] false (mkFields [] false) (mkFields [] true) (mkFields [] false)
               (mkFields [] false) (mkFields [] false) [] [] in
  is_safe_redirect_suffix (B ".evil.org/x") = true /\
  exists r u, redirect_middleware [rule] req (fun _ => Throws None) = Returns r /\
    Url.parse (at_ (Resp.headers r) (B "Location")) = Ok u /\ Url.host u = B "example.com.evil.org".
Proof. split; [reflexivity|]. eexists _, _. split; [reflexivity|]. split; vm_compute; reflexivity. Qed.

End redirect.

(** *** Trailing slashes *)

Section slash.
Import TrailingSlash Codec.Url.

(** A field of a query as it is written. *)
Definition percent_field (f : bytes * bytes) : bytes := url_percent_encode f.1 ++ x3d :: url_percent_encode f.2.

Lemma percent_clean s : x26 ∉ url_percent_encode s /\ x3d ∉ url_percent_encode s /\ x3f ∉ url_percent_encode s.
Proof.
  unfold url_percent_encode, append_url_percent_encoded. rewrite append_url_encoded_flat. cbn [app].
  assert (Hc : forall c, forallb (fun d => negb ((d =b x26) || (d =b x3d) || (d =b x3f))) (url_encode_byte false c) = true)
    by (intros c; byte_decide c).
  assert (H : Forall (fun d => negb ((d =b x26) || (d =b x3d) || (d =b x3f)) = true) (flat_map (url_encode_byte false) s)).
  { induction s as [|c s IH]; simpl; [constructor|]. apply Forall_app. split; [apply forallb_Forall, Hc|done]. }
  rewrite Forall_forall in H. split_and!; intros Hin; by specialize (H _ Hin).
Qed.

Lemma percent_field_clean f : x26 ∉ percent_field f.
Proof. unfold percent_field. rewrite not_elem_of_app, not_elem_of_cons. split_and!; try done; apply percent_clean. Qed.

Lemma percent_field_read f : field_of (percent_field f) = [f].
Proof.
  unfold field_of, percent_field. rewrite find_byte_app by apply percent_clean. rewrite take_app_length, drop_after.
  unfold url_decode, url_percent_encode, append_url_percent_encoded. rewrite !url_roundtrip by done. by destruct f.
Qed.

Lemma build_query_text fields first out :
  build_query_from fields first out =
  match fields with [] => out | _ => out ++ (if first then [] else [x26]) ++ join_on x26 (map percent_field fields) end.
Proof.
  revert first out. induction fields as [|[k v] fields IH]; intros first out; [done|]. cbn [build_query_from]. rewrite IH.
  assert (Ha : forall out s, append_url_percent_encoded out s = out ++ url_percent_encode s).
  { intros o t. unfold url_percent_encode, append_url_percent_encoded. by rewrite !append_url_encoded_flat. }
  rewrite !Ha. cbn [map]. unfold percent_field at 2. cbn [fst snd].
  destruct fields as [|g fields]; cbn [join_on map]; destruct first; cbn [app]; rewrite <- ?app_assoc; cbn [app]; rewrite <- ?app_assoc; done.
Qed.

Lemma query_read fs : flat_map field_of (split_amp (join_on x26 (map percent_field fs)) []) = fs.
Proof.
  induction fs as [|f [|g fs] IH]; [done| |]; rewrite split_amp_step.
  - cbn [map join_on]. rewrite (proj2 (find_byte_None _ _) (percent_field_clean f)). cbn [app flat_map]. by rewrite percent_field_read.
  - change (join_on x26 (map percent_field (f :: g :: fs))) with (percent_field f ++ x26 :: join_on x26 (map percent_field (g :: fs))).
    rewrite find_byte_app, take_app_length, drop_after by apply percent_field_clean. cbn [app flat_map]. by rewrite percent_field_read, IH.
Qed.

(** A path with a trailing slash is redirected to the path without it, and whoever
    follows the redirect asks for that path with the same query: the fields come back
    with the same names and values, in the same order. *)
Theorem trailing_slash_followed status req (next : Handler) p :
  path req = p ++ [x2f] -> p <> [] -> x3f ∉ p ->
  exists r, trailing_slash_middleware remove status req next = Returns r /\
    let target := Target.split_path_query (at_ (Resp.headers r) (B "Location")) in
    Target.path target = p /\ Form.parse_urlencoded (Target.query target) [] = Some (data_ (query req)).
Proof.
  intros Hp Hn Hq. unfold trailing_slash_middleware. rewrite Hp.
  assert (bytes_eqb (p ++ [x2f]) (B "/") = false) as -> by (apply bytes_eqb_ne; destruct p as [|c [|]]; done).
  assert (bytes_eqb (p ++ [x2f]) [] = false) as -> by (apply bytes_eqb_ne; by destruct p).
  rewrite last_snoc, length_app. cbn [orb]. replace (length p + length [x2f] - 1)%nat with (length p) by (cbn; lia).
  rewrite take_app_length. unfold make_redirect. eexists. split; [reflexivity|]. cbn zeta.
  match goal with |- context [redirect ?t status] => change (at_ _ (B "Location")) with t end.
  destruct (data_ (query req)) as [|f fs] eqn:Ed.
  - unfold Target.split_path_query. rewrite (proj2 (find_byte_None _ _) Hq). done.
  - unfold Target.split_path_query. cbn [app]. rewrite find_byte_app by done. cbn [Target.path Target.query].
    rewrite take_app_length. split; [done|]. replace (length p + 1)%nat with (S (length p)) by lia. rewrite drop_after.
    unfold build_query. rewrite Ed, build_query_text. cbn [app]. unfold Form.parse_urlencoded.
    rewrite urlencoded_loop_spec by lia. by rewrite drop_0, query_read.
Qed.

Lemma trailing_slash_followed_witness :
  let req := mkRequestView (B "GET") (B "/docs/") (B "HTTP/1.1") [] false (mkFields [] false) (mkFields [] true)
               (mkFields [(B "q", B "a&b"); (B "", B "=")] false) (mkFields [] false) (mkFields [] false) [] [] in
  exists r, trailing_slash_middleware remove 301 req (fun _ => Throws None) = Returns r /\
    let target := Target.split_path_query (at_ (Resp.headers r) (B "Location")) in
    Target.path target = B "/docs" /\ Form.parse_urlencoded (Target.query target) [] = Some [(B "q", B "a&b"); (B "", B "=")].
Proof.
  intros req. apply (trailing_slash_followed 301 req (fun _ => Throws None) (B "/docs")); [reflexivity|discriminate|].
  apply find_byte_None. vm_compute. reflexivity.
Defined.

(** A path that starts with two slashes is redirected to another host: the target of
    the request names a path, the location the client gets names an authority. *)
Theorem trailing_slash_leaves_host :
  let target := B "//evil.org/" in
  let req := mkRequestView (B "GET") (Target.origin_form_path_from_target (Target.path (Target.split_path_query target))) (B "HTTP/1.1") [] false
               (mkFields [] false) (mkFields [] true) (mkFields [] false) (mkFields [] false) (mkFields [] false) [] [] in
  exists r, trailing_slash_middleware remove 301 req (fun _ => Throws None) = Returns r /\
    at_ (Resp.headers r) (B "Location") = B "//evil.org".
Proof. eexists. split; vm_compute; reflexivity. Qed.

End slash.

(** *** Caching headers *)

(** Without a rule for the response and without a default, a response that has no
    [Cache-Control] gets an empty one: reading the field adds it. *)
Theorem cache_control_empty_field req (next : Handler) resp :
  next req = Returns resp -> contains (Resp.headers resp) (B "Cache-Control") = false ->
  exists r, CacheControl.cache_control_middleware [] [] req next = Returns r /\
    data_ (Resp.headers r) = data_ (Resp.headers resp) ++ [(B "Cache-Control", [])].
Proof.
  intros Hn Hc. unfold CacheControl.cache_control_middleware. rewrite Hn. cbn [with_response]. unfold read_header. rewrite Hc.
  assert (Ha : at_ (Resp.headers resp) (B "Cache-Control") = []).
  { unfold contains in Hc. unfold at_, get. by destruct (first_matching _ _). }
  rewrite Ha. cbn [List.find CacheControl.set_directive]. eexists. split; [done|]. unfold contains, first_matching in Hc.
  cbn [set_header set_resp_headers Resp.headers assign data_]. destruct (Resp.headers resp) as [data ci]. cbn [data_ case_insensitive_] in *.
  clear Ha Hn. induction data as [|[k v] data IH]; [done|]. cbn [first_matching_in assign_in app] in *.
  destruct (key_eq ci k (B "Cache-Control")); [done|]. by rewrite IH.
Qed.

(** *** Request identifiers *)

Section uuid.
Import RequestId Decimal.

Definition lower_hex (c : byte) : bool := is_digit c || ((0x61 <=? byteZ c) && (byteZ c <=? 0x66)).

Lemma hex_pair b : lower_hex (hex_digit (Z.shiftr (byteZ b) 4)) && lower_hex (hex_digit (Z.land (byteZ b) 0xF)) = true.
Proof. byte_decide b. Qed.

Lemma version_pair b : hex_digit (Z.shiftr (byteZ (stamp_version 6 b)) 4) = x34.
Proof. assert (hex_digit (Z.shiftr (byteZ (stamp_version 6 b)) 4) =b x34 = true) as H by byte_decide b. by apply byte_eqb_eq. Qed.

Lemma variant_pair b : hex_digit (Z.shiftr (byteZ (stamp_version 8 b)) 4) ∈ [x38; x39; x61; x62].
Proof.
  assert (existsb (fun c => hex_digit (Z.shiftr (byteZ (stamp_version 8 b)) 4) =b c) [x38; x39; x61; x62] = true) as H by byte_decide b.
  apply existsb_exists in H as (c & Hc & He). apply byte_eqb_eq in He. rewrite He. by apply list_elem_of_In.
Qed.

(** An identifier drawn from sixteen bytes has the shape of a version 4 UUID: five
    groups of hexadecimal digits, with the version and the variant in their places. *)
Theorem uuid_shape random :
  length random = 16%nat ->
  exists a b c d e, generate_uuid random = a ++ [x2d] ++ b ++ [x2d] ++ c ++ [x2d] ++ d ++ [x2d] ++ e /\
    length a = 8%nat /\ length b = 4%nat /\ length c = 4%nat /\ length d = 4%nat /\ length e = 12%nat /\
    Forall (fun c => lower_hex c = true) (a ++ b ++ c ++ d ++ e) /\
    hd_error c = Some x34 /\ exists v, hd_error d = Some v /\ v ∈ [x38; x39; x61; x62].
Proof.
  intros Hl. destruct random as [|b0 [|b1 [|b2 [|b3 [|b4 [|b5 [|b6 [|b7 [|b8 [|b9 [|b10 [|b11 [|b12 [|b13 [|b14 [|b15 [|]]]]]]]]]]]]]]]]]; try done. unfold generate_uuid.
  set (h := fun b : byte => [hex_digit (Z.shiftr (byteZ b) 4); hex_digit (Z.land (byteZ b) 0xF)]).
  assert (Hh : forall b, Forall (fun c => lower_hex c = true) (h b)).
  { intros b. pose proof (hex_pair b) as [H1 H2]%andb_true_iff. by repeat constructor. }
  exists (h b0 ++ h b1 ++ h b2 ++ h b3), (h b4 ++ h b5), (h (stamp_version 6 b6) ++ h b7), (h (stamp_version 8 b8) ++ h b9),
    (h b10 ++ h b11 ++ h b12 ++ h b13 ++ h b14 ++ h b15).
  split; [reflexivity|]. split_and!; try reflexivity.
  - rewrite !Forall_app. split_and!; apply Hh.
  - cbn [h app hd_error]. by rewrite version_pair.
  - eexists. split; [reflexivity|]. apply variant_pair.
Qed.

End uuid.

(** *** Virtual hosts *)

Section vhost.
Import VHost Codec.Ascii.

Lemma find_host_app h hosts hosts' : host_router h (hosts ++ hosts') = match host_router h hosts with Some r => Some r | None => host_router h hosts' end.
Proof. unfold host_router. induction hosts as [|[k r] hosts IH]; [done|]. cbn. by destruct (bytes_eqb k h). Qed.

(** A registered host gets its requests whatever the case of the name and whatever the
    port in the header, and the router that was registered first for it; other hosts
    are not affected by registering it. *)
Theorem vhost_routes v host router req channel :
  let h := ascii_lower (Target.host_without_port (at_ (Req.headers req) (B "host"))) in
  vhost_dispatch (add host router v) req channel =
  if bytes_eqb h (ascii_lower host) then
    match host_router h (vhosts_ v) with
    | Some first => dispatch first req channel
    | None => dispatch router req channel
    end
  else vhost_dispatch v req channel.
Proof.
  intros h. unfold vhost_dispatch, add. fold h. destruct (bytes_eqb h (ascii_lower host)) eqn:E.
  - apply bytes_eqb_eq in E. rewrite <- E. destruct (host_router h (vhosts_ v)) as [r|] eqn:Ef; [by rewrite Ef|].
    cbn [vhosts_]. rewrite find_host_app, Ef. unfold host_router. cbn. by rewrite bytes_eqb_refl.
  - destruct (host_router (ascii_lower host) (vhosts_ v)); [done|]. cbn [vhosts_ default_]. rewrite find_host_app.
    destruct (host_router h (vhosts_ v)); [done|]. unfold host_router. cbn.
    assert (bytes_eqb (ascii_lower host) h = false) as ->; [|done]. apply bytes_eqb_ne. apply bytes_eqb_ne in E. congruence.
Qed.

End vhost.

(** *** Cross-origin headers *)

Section cors.
Import Cors.
Context (o : CorsOptions) (req : RequestView).
Let origin := at_ (Req.headers req) (B "origin").

(** The origins that are allowed: all of them for a single star, else those listed. *)
Definition granted : Prop := allowed_origins o = [B "*"] \/ origin ∈ allowed_origins o.

Lemma resolve_granted : origin <> [] ->
  (granted /\ resolve_origin (prepare o) origin = (if wildcard_origin (prepare o) && negb (allow_credentials o) then B "*" else origin)) \/
  (~ granted /\ resolve_origin (prepare o) origin = []).
Proof.
  intros Ho. unfold resolve_origin, granted. cbn [prepare wildcard_origin opts].
  destruct (match allowed_origins o with [a] => bytes_eqb a (B "*") | _ => false end) eqn:Ew.
  - left. split; [left|by destruct (allow_credentials o)]. destruct (allowed_origins o) as [|a [|]]; try done. by apply bytes_eqb_eq in Ew as ->.
  - cbn [andb]. destruct (existsb (fun a => bytes_eqb a origin) (allowed_origins o)) eqn:Ee.
    + left. split; [right|done]. apply existsb_exists in Ee as (a & Ha & ->%bytes_eqb_eq). by apply list_elem_of_In.
    + right. split; [|done]. intros [H|H]; [by rewrite H in Ew|].
      assert (existsb (fun a => bytes_eqb a origin) (allowed_origins o) = true); [|congruence].
      apply existsb_exists. exists origin. split; [by apply list_elem_of_In|by apply bytes_eqb_eq].
Qed.

Lemma at_set_other name v r k :
  case_insensitive_ (Resp.headers r) = true -> MediaType.ascii_iequals name k = false ->
  at_ (Resp.headers (set_header name v r)) k = at_ (Resp.headers r) k.
Proof. intros Hc Hk. rewrite at_set_header, Hc. unfold key_eq. by rewrite Hk. Qed.

(** A preflight is answered without the rest of the chain. Any other response is
    handed on as it is when the request has no origin or one that is not allowed; for
    an allowed origin it carries that origin, or a star for everyone where no
    credentials are allowed, and says that it varies with the origin. *)
Theorem cors_exact (next : Handler) :
  (is_preflight req = true -> forall next', cors_middleware o req next = cors_middleware o req next') /\
  (is_preflight req = false ->
   match next req with
   | Throws what => cors_middleware o req next = Throws what
   | Returns resp =>
       case_insensitive_ (Resp.headers resp) = true ->
       exists r, cors_middleware o req next = Returns r /\
         (origin = [] \/ ~ granted -> r = resp) /\
         (origin <> [] -> granted ->
            at_ (Resp.headers r) (B "Access-Control-Allow-Origin") =
              (if wildcard_origin (prepare o) && negb (allow_credentials o) then B "*" else origin) /\
            (Codec.Ascii.trim (at_ (Resp.headers resp) (B "Vary")) = B "*" /\ vary r = vary resp \/
             exists t, t ∈ vary r /\ MediaType.ascii_iequals t (B "Origin") = true))
   end).
Proof.
  unfold cors_middleware. fold origin. split; [by intros ->|intros ->]. destruct (next req) as [resp|what]; [|done]. intros Hci.
  cbn [with_response]. eexists. split; [reflexivity|]. destruct origin as [|c t] eqn:Eo; [by split|]. rewrite <- Eo.
  assert (Ho : origin <> []) by (by rewrite Eo). unfold inject_cors_headers.
  destruct (resolve_granted Ho) as [[Hg Hr]|[Hg Hr]]; rewrite Hr; [|by split].
  split; [by intros [?|?]|]. intros _ _. set (R := if wildcard_origin (prepare o) && negb (allow_credentials o) then B "*" else origin).
  assert (HR : exists c' t', R = c' :: t') by (unfold R; destruct (_ && _); [by eexists _, _|rewrite Eo; by eexists _, _]).
  destruct HR as (c' & t' & HR). rewrite HR. rewrite <- HR.
  set (r1 := set_header (B "Access-Control-Allow-Origin") R resp).
  set (r2 := if allow_credentials (opts (prepare o)) then set_header (B "Access-Control-Allow-Credentials") (B "true") r1 else r1).
  set (r3 := match expose_text (prepare o) with [] => r2 | x => set_header (B "Access-Control-Expose-Headers") x r2 end).
  assert (Hci3 : case_insensitive_ (Resp.headers r3) = true).
  { unfold r3, r2. destruct (expose_text (prepare o)), (allow_credentials (opts (prepare o))); exact Hci. }
  assert (Hkey : forall k, MediaType.ascii_iequals (B "Access-Control-Allow-Credentials") k = false ->
    MediaType.ascii_iequals (B "Access-Control-Expose-Headers") k = false -> at_ (Resp.headers r3) k = at_ (Resp.headers r1) k).
  { intros k H1 H2. unfold r3, r2. destruct (expose_text (prepare o)), (allow_credentials (opts (prepare o)));
      rewrite ?at_set_other by (exact Hci || done); done. }
  assert (Hv3 : at_ (Resp.headers r3) (B "Vary") = at_ (Resp.headers resp) (B "Vary")).
  { rewrite Hkey by (vm_compute; reflexivity). unfold r1. rewrite at_set_header, Hci. done. }
  assert (Hvary : vary r3 = vary resp) by (unfold vary; by rewrite Hv3).
  destruct (MessageProps.append_vary_exact (B "Origin") r3) as (r' & -> & Hoth & Hv); [|exact Hci3|].
  { split_and!; [done|by apply find_byte_None|done]. }
  cbn [default from_option id]. split.
  - rewrite Hoth, Hkey by (vm_compute; reflexivity). unfold r1. rewrite at_set_header, Hci. done.
  - rewrite Hv3, Hvary in Hv. destruct (bytes_eqb (Codec.Ascii.trim _) (B "*")) eqn:Es; cbn [orb] in Hv; [left; by apply bytes_eqb_eq in Es|right].
    destruct (existsb _ (vary resp)) eqn:Ee; rewrite Hv.
    + apply existsb_exists in Ee as (x & Hx & Hi). exists x. split; [by apply list_elem_of_In|done].
    + exists (B "Origin"). split; [|done]. rewrite elem_of_app, list_elem_of_singleton. by right.
Qed.

End cors.

End MiddlewareProps.
