(* ===== verification/Cache.v ===== *)
(** * The response cache

    [src/src/net/response_cache.cxx]. [RespCache]: the keys, what may be stored and for
    how long, and [RespLruCache] over the LRU map of [LruMap]. The middleware locks the
    cache twice, to look a request up and to store the response, so the two are separate
    operations and the theorems hold for all their interleavings ([CacheRun]).

    Times are nanoseconds of the steady clock; adding a lifetime that does not fit is
    [None]. Sizes are [size_t]; the theorems show that their sums do not wrap.

    The theorems: whatever the cache answers was stored for a request with the same key
    and has not expired; equal keys mean the same path, the same query and the same
    values of the headers the response varies with, unless one of them contains a
    separator of the key; what is stored is found again; the cache never holds more than
    it may. Two examples show a key that is shared and a response that is never found. *)

From Stdlib Require Import ZArith Lia Strings.Byte String.
From stdpp Require Import base tactics option numbers list gmap.
From S2P Require Import Prelude.
From S2P Require Import Codec.
From S2P Require Import HttpBody.
From S2P Require Import HttpTypes.
From S2P Require Import HttpMessage.
From S2P Require Import LruMap.
From S2P Require Import Router.

(** ** The response cache *)

Module RespCache.
Import Codec.Ascii MediaType Fields HeaderList Resp Req.

Record ResponseCacheOptions := mkCacheOptions { max_entries : nat; max_bytes : Z; default_ttl : Z; respect_vary : bool }.

Definition default_cache_options : ResponseCacheOptions := mkCacheOptions 256 (64 * 1024 * 1024) 60 true.

Record RespCacheEntry := mkCached { cached : Response; expires_at : Z }.

Record RespLruCache := mkRespCache {
  max_ : nat; max_bytes_ : Z; total_bytes_ : Z; entries_ : Lru.StringLruMap RespCacheEntry; path_vary_ : gmap bytes (list bytes)
}.

Definition new_cache (o : ResponseCacheOptions) : RespLruCache := mkRespCache (max_entries o) (max_bytes o) 0 (Lru.make (Nat.max (max_entries o) 1)) ∅.

Definition body_size (e : RespCacheEntry) : Z := Z.of_nat (length (text_body (cached e))).

Definition with_entries (total : Z) (t : Lru.StringLruMap RespCacheEntry) (c : RespLruCache) : RespLruCache :=
  mkRespCache (max_ c) (max_bytes_ c) total t (path_vary_ c).

Definition get (now : Z) (key : bytes) (c : RespLruCache) : option (RespLruCache * option RespCacheEntry) :=
  '(t, found) ← Lru.find (entries_ c) key;
  match found with
  | None => Some (with_entries (total_bytes_ c) t c, None)
  | Some e =>
      if now <? expires_at e then Some (with_entries (total_bytes_ c) t c, Some e)
      else '(t, _) ← Lru.erase t key; Some (with_entries (u64 (total_bytes_ c - body_size e)) t c, None)
  end.

(** The loop that makes room; [inr] leaves [put]. An eviction takes an entry. *)
Fixpoint evict_until_fits (fuel : nat) (entry_bytes : Z) (c : RespLruCache) : option (RespLruCache + RespLruCache) :=
  if ((0 <? max_bytes_ c) && (max_bytes_ c <? u64 (total_bytes_ c + entry_bytes))) || (max_ c <=? Lru.size_ (entries_ c))%nat then
    match fuel with
    | O => None
    | S fuel =>
        '(t, old, evicted) ← Lru.evict_lru (entries_ c);
        let total := match old with Some (_, e) => u64 (total_bytes_ c - body_size e) | None => total_bytes_ c end in
        let c := with_entries total t c in
        if negb evicted then Some (inr c) else evict_until_fits fuel entry_bytes c
    end
  else Some (inl c).

Definition put (key : bytes) (entry : RespCacheEntry) (c : RespLruCache) : option RespLruCache :=
  if (max_ c =? 0)%nat then Some c
  else
    let entry_bytes := body_size entry in
    if (0 <? max_bytes_ c) && (max_bytes_ c <? entry_bytes) then Some c
    else
      '(t, existing) ← Lru.find (entries_ c) key;
      c ← match existing with
          | Some e => '(t, _) ← Lru.erase t key; Some (with_entries (u64 (total_bytes_ c - body_size e)) t c)
          | None => Some (with_entries (total_bytes_ c) t c)
          end;
      r ← evict_until_fits (S (Lru.size_ (entries_ c))) entry_bytes c;
      match r with
      | inr c => Some c
      | inl c =>
          t ← Lru.insert_or_assign (entries_ c) key entry;
          Some (with_entries (u64 (total_bytes_ c + entry_bytes)) t c)
      end.

Definition vary_for (path : bytes) (c : RespLruCache) : list bytes := default [] (path_vary_ c !! path).

Definition set_vary (path : bytes) (headers : list bytes) (c : RespLruCache) : RespLruCache :=
  mkRespCache (max_ c) (max_bytes_ c) (total_bytes_ c) (entries_ c) (<[path := headers]> (path_vary_ c)).

(** *** Directives *)

Fixpoint any_item (f : HeaderItem -> option bool) (items : list HeaderItem) : option bool :=
  match items with
  | [] => Some false
  | i :: items => b ← f i; if b : bool then Some true else any_item f items
  end.

Definition cache_control_directive_contains (cc directive : bytes) : option bool :=
  items ← header_items cc;
  any_item (fun item =>
    if ascii_iequals (item_name item) directive then Some true
    else params ← header_params (item_params item); Some (existsb (fun p => ascii_iequals (name p) directive) params)) items.

(** [long] *)
Definition long_of (val : bytes) : option Z :=
  match from_chars_signed (- 2 ^ 63) (2 ^ 63 - 1) val with
  | FcOk v n => if (n =? length val)%nat then Some v else None
  | _ => None
  end.

Fixpoint max_age_in (items : list HeaderItem) : option Z :=
  match items with
  | [] => Some 0
  | item :: rest =>
      if negb (item_has_value item) || negb (ascii_iequals (item_name item) (B "max-age")) then max_age_in rest
      else
        params ← header_params (item_params item);
        match params with
        | _ :: _ => Some 0
        | [] => Some (default 0 (long_of (trim (item_value item))))
        end
  end.

Definition parse_max_age (cc : bytes) : option Z := items ← header_items cc; max_age_in items.

(** *** Headers a response varies with *)

Fixpoint bytes_lt (a b : bytes) : bool :=
  match a, b with
  | _, [] => false
  | [], _ :: _ => true
  | x :: a, y :: b => (byteZ x <? byteZ y) || ((x =b y) && bytes_lt a b)
  end.

(** [std::ranges::sort] and [std::ranges::unique], as insertion into a sorted list
    without what is there already. *)
Fixpoint insert_name (n : bytes) (l : list bytes) : list bytes :=
  match l with
  | [] => [n]
  | m :: rest => if bytes_eqb n m then l else if bytes_lt n m then n :: l else m :: insert_name n rest
  end.

Definition parse_vary (vary : bytes) : option (list bytes) :=
  tokens ← header_tokens vary;
  Some (fold_left (fun out token =>
    match token with [] => out | _ => if bytes_eqb token (B "*") then out else insert_name (ascii_lower token) out end) tokens []).

(** *** Keys *)

Definition append_len_field (out : bytes) (value : nat) : bytes := out ++ to_dec (Z.of_nat value) ++ [x3a].

Definition build_cache_key (path : bytes) (query : HttpFields) (vary : list bytes) (req_headers : HttpFields) : bytes :=
  let key := path in
  let key :=
    match data_ query with
    | [] => key
    | fields =>
        fold_left (fun key p => append_len_field (append_len_field key (length p.1) ++ p.1) (length p.2) ++ p.2) fields (key ++ B "|q:")
    end in
  fold_left (fun key h => key ++ [x7c] ++ h ++ [x3d] ++ at_ req_headers h) vary key.

(** *** The middleware *)

Definition cacheable_method (m : bytes) : bool := bytes_eqb m (B "GET") || bytes_eqb m (B "HEAD").

(** The first locked block. *)
Definition lookup_response (now : Z) (req : RequestView) (c : RespLruCache) : option (RespLruCache * option Response) :=
  let key := build_cache_key (path req) (query req) (vary_for (path req) c) (Req.headers req) in
  '(c, entry) ← get now key c;
  Some (c, match entry with
           | Some e => Some (if bytes_eqb (method req) (B "HEAD") then set_head_only (cached e) else cached e)
           | None => None
           end).

(** The checks of the response; [Some] gives the headers it varies with and its
    lifetime in seconds. *)
Definition storable (o : ResponseCacheOptions) (req : RequestView) (resp : Response) : option (option (list bytes * Z)) :=
  let cc := at_ (Resp.headers resp) (B "Cache-Control") in
  let vary_hdr := at_ (Resp.headers resp) (B "Vary") in
  if bytes_eqb (method req) (B "HEAD") || negb (status resp =? 200) || negb (match set_cookies resp with [] => true | _ => false end)
     || negb (match body_kind resp with text_kind => true | _ => false end)
  then Some None
  else
    no_store ← cache_control_directive_contains cc (B "no-store");
    no_cache ← cache_control_directive_contains cc (B "no-cache");
    private ← cache_control_directive_contains cc (B "private");
    if no_store || no_cache || private then Some None
    else if respect_vary o && match find_byte x2a vary_hdr with Some _ => true | None => false end then Some None
    else
      vary_list ← parse_vary vary_hdr;
      ttl ← parse_max_age cc;
      has_max_age ← cache_control_directive_contains cc (B "max-age");
      if (ttl =? 0) && has_max_age then Some None
      else Some (Some (vary_list, if ttl =? 0 then default_ttl o else ttl)).

(** [now + ttl] in nanoseconds: [None] when it overflows. *)
Definition expiry (now ttl : Z) : option Z :=
  let fits z := (- 2 ^ 63 <=? z) && (z <? 2 ^ 63) in
  if fits (ttl * 10 ^ 9) && fits (now + ttl * 10 ^ 9) then Some (now + ttl * 10 ^ 9) else None.

(** The checks and the second locked block. *)
Definition store_response (o : ResponseCacheOptions) (now : Z) (req : RequestView) (resp : Response) (c : RespLruCache) : option RespLruCache :=
  s ← storable o req resp;
  match s with
  | None => Some c
  | Some (vary_list, ttl) =>
      e ← expiry now ttl;
      let c := match vary_list with [] => c | _ => set_vary (path req) vary_list c end in
      put (build_cache_key (path req) (query req) vary_list (Req.headers req)) (mkCached resp e) c
  end.

(** The whole middleware when no other request comes in between: the times of the
    lookup and of the storing, and the rest of the chain. *)
Definition response_cache_middleware (o : ResponseCacheOptions) (now now' : Z) (req : RequestView) (next : Dispatch.Handler)
    (c : RespLruCache) : option (Dispatch.outcome * RespLruCache) :=
  if negb (cacheable_method (method req)) then Some (next req, c)
  else
    '(c, hit) ← lookup_response now req c;
    match hit with
    | Some r => Some (Dispatch.Returns r, c)
    | None =>
        match next req with
        | Dispatch.Throws what => Some (Dispatch.Throws what, c)
        | Dispatch.Returns resp => c ← store_response o now' req resp c; Some (Dispatch.Returns resp, c)
        end
    end.

End RespCache.

(** ** What the cache holds *)

Module RespCacheOk.
Import Codec.Ascii MediaType Fields FieldsOk HeaderList HeaderListOk Resp Req RespCache.

Abbreviation contents := (list (bytes * RespCacheEntry)).

Fixpoint sizes (l : contents) : Z := match l with [] => 0 | x :: l => body_size x.2 + sizes l end.

Lemma body_size_nonneg e : 0 <= body_size e.
Proof. unfold body_size. lia. Qed.

Lemma sizes_nonneg l : 0 <= sizes l.
Proof. induction l as [|x l IH]; cbn [sizes]; [lia|]. pose proof (body_size_nonneg x.2). lia. Qed.

Lemma sizes_app a b : sizes (a ++ b) = sizes a + sizes b.
Proof. induction a as [|x a IH]; cbn [sizes app]; lia. Qed.

Lemma sizes_drop n l : sizes (drop n l) <= sizes l.
Proof. rewrite <- (take_drop n l) at 2. rewrite sizes_app. pose proof (sizes_nonneg (take n l)). lia. Qed.

Lemma sizes_remove k l : NoDup l.*1 ->
  sizes (Recency.remove k l) = sizes l - match Recency.lookup_ k l with Some e => body_size e | None => 0 end.
Proof.
  induction l as [|[k' e] l IH]; cbn [sizes Recency.lookup_ fmap list_fmap fst snd]; [done|]. intros [Hk Hn]%NoDup_cons.
  unfold Recency.remove in *. rewrite filter_cons. cbn [fst]. destruct (decide (k' = k)) as [->|Hne].
  - rewrite decide_False by (intros H; by apply H). rewrite IH by done.
    assert (Recency.lookup_ k l = None) as ->; [|lia]. destruct (Recency.lookup_ k l) eqn:E; [|done].
    exfalso. apply Hk. apply RecencyFacts.lookup_keys. by eexists.
  - rewrite decide_True by done. cbn [sizes fst snd]. rewrite IH by done. lia.
Qed.

Lemma remove_none k (l : contents) : Recency.lookup_ k l = None -> Recency.remove k l = l.
Proof.
  unfold Recency.remove. induction l as [|[k' e] l IH]; cbn [Recency.lookup_]; [done|]. rewrite filter_cons. cbn [fst].
  destruct (decide (k' = k)); [done|]. rewrite decide_True by done. intros H. by rewrite IH.
Qed.

Lemma sizes_touch k l : NoDup l.*1 -> sizes (Recency.touch k l) = sizes l.
Proof.
  intros Hn. unfold Recency.touch. destruct (Recency.lookup_ k l) as [e|] eqn:E; [|done].
  rewrite sizes_app, sizes_remove, E by done. cbn [sizes snd]. lia.
Qed.

(** The entries and their total size. *)
Record holds (c : RespLruCache) (l : contents) : Prop := {
  h_models : LruOk.models (entries_ c) (Nat.max (max_ c) 1) l;
  h_total : total_bytes_ c = u64 (sizes l);
  h_bytes : 0 < max_bytes_ c -> sizes l <= max_bytes_ c;
  h_count : (length l <= max_ c)%nat
}.

Lemma holds_nodup c l : holds c l -> NoDup l.*1.
Proof. intros H. apply (LruOk.bound_ok _ _ _ (h_models _ _ H)). Qed.

(** Looking a key up: a live entry is returned and becomes the most recent, an expired
    one is dropped. *)
Definition after_get (now : Z) (key : bytes) (l : contents) : contents :=
  match Recency.lookup_ key l with
  | Some e => if now <? expires_at e then Recency.touch key l else Recency.remove key (Recency.touch key l)
  | None => l
  end.

Lemma lookup_length k (l : contents) : (length (Recency.touch k l) <= length l)%nat /\ (length (Recency.remove k l) <= length l)%nat.
Proof.
  assert (Hr : (length (Recency.remove k l) <= length l)%nat) by apply length_filter.
  split; [|done]. unfold Recency.touch. destruct (Recency.lookup_ k l) as [e|] eqn:E; [|done].
  rewrite length_app. cbn. assert (length (Recency.remove k l) < length l)%nat; [|lia].
  apply RecencyFacts.lookup_elem in E. unfold Recency.remove. apply length_filter_lt with (k, e); [done|]. intros H. by apply H.
Qed.

Lemma get_ok now key c l :
  holds c l ->
  exists c', get now key c = Some (c', match Recency.lookup_ key l with Some e => if now <? expires_at e then Some e else None | None => None end) /\
    holds c' (after_get now key l) /\ max_ c' = max_ c /\ max_bytes_ c' = max_bytes_ c /\ path_vary_ c' = path_vary_ c.
Proof.
  intros H. pose proof (holds_nodup _ _ H) as Hn. destruct H as [M Ht Hb Hc]. unfold get, after_get.
  destruct (LruOk.find_ok _ _ _ key M) as (t & -> & M1). cbn [mbind option_bind].
  destruct (lookup_length key l) as [Hl1 _]. pose proof (sizes_touch key l Hn) as Hst.
  destruct (Recency.lookup_ key l) as [e|] eqn:E.
  - destruct (now <? expires_at e).
    + eexists. split; [done|]. split; [|done]. split; cbn; rewrite ?Hst; try done. lia.
    + destruct (LruOk.erase_ok _ _ _ key M1) as (t' & -> & M2). cbn [mbind option_bind]. eexists. split; [done|]. split; [|done].
      assert (Hn1 : NoDup (Recency.touch key l).*1) by apply (LruOk.bound_ok _ _ _ M1).
      destruct (lookup_length key (Recency.touch key l)) as [_ Hl2]. pose proof (sizes_remove key _ Hn1) as Hsr.
      rewrite RecencyFacts.lookup_touch, E, Hst in Hsr. pose proof (body_size_nonneg e).
      split; cbn; rewrite ?Hsr; try done; [by rewrite Ht, u64_sub_l|intros ?%Hb; lia|lia].
  - unfold Recency.touch in *. rewrite E in *. eexists. split; [done|]. by split.
Qed.

(** Making room drops the least recent entries until the new one fits. *)
Lemma cache_room_ok fuel eb c l :
  holds c l -> (length l < fuel)%nat -> (1 <= max_ c)%nat -> 0 <= eb -> max_bytes_ c < 2 ^ 63 -> (0 < max_bytes_ c -> eb <= max_bytes_ c) ->
  exists c' n, evict_until_fits fuel eb c = Some (inl c') /\ holds c' (drop n l) /\ (length (drop n l) < max_ c)%nat /\
    (0 < max_bytes_ c -> sizes (drop n l) + eb <= max_bytes_ c) /\
    max_ c' = max_ c /\ max_bytes_ c' = max_bytes_ c /\ path_vary_ c' = path_vary_ c /\
    ((length l < max_ c)%nat -> (0 < max_bytes_ c -> sizes l + eb <= max_bytes_ c) -> n = 0%nat).
Proof.
  revert c l. induction fuel as [|fuel IH]; intros c l H Hf Hm He Hmax Heb; [lia|]. cbn [evict_until_fits].
  destruct H as [M Ht Hb Hc]. rewrite (LruOk.size_ok _ _ _ M). pose proof (sizes_nonneg l).
  destruct (_ || _) eqn:E.
  - destruct (LruOk.evict_lru_ok _ _ _ M) as (t & -> & M1). cbn [mbind option_bind]. destruct l as [|[k e] l].
    { exfalso. apply orb_true_iff in E as [E|E]; [|apply Nat.leb_le in E; cbn in E; lia].
      apply andb_true_iff in E as [E1%Z.ltb_lt E2%Z.ltb_lt]. rewrite Ht, u64_add_l in E2. cbn [sizes] in E2.
      rewrite u64_small in E2 by lia. lia. }
    cbn [negb head]. cbn [sizes snd] in *. pose proof (body_size_nonneg e). pose proof (sizes_nonneg l). cbn [tail] in M1.
    assert (H' : holds (with_entries (u64 (total_bytes_ c - body_size e)) t c) l).
    { split; cbn; [done|rewrite Ht, u64_sub_l; f_equal; lia|intros ?%Hb; lia|cbn in Hc; lia]. }
    destruct (IH _ _ H') as (c' & n & Hr & Hh & Hl & Hs & ? & ? & ? & _); cbn; try done; try (cbn in Hf; lia).
    exists c', (S n). cbn [drop]. rewrite Hr. split_and!; try done. intros Hroom Hsum. exfalso.
    apply orb_true_iff in E as [E|E]; [|apply Nat.leb_le in E; cbn in E, Hroom; lia].
    apply andb_true_iff in E as [E1%Z.ltb_lt E2%Z.ltb_lt]. specialize (Hsum E1). rewrite Ht, u64_add_l, u64_small in E2 by lia. lia.
  - apply orb_false_iff in E as [E1 E2]. apply Nat.leb_gt in E2. exists c, 0%nat. rewrite drop_0. split_and!; try done.
    intros Hpos. pose proof (Hb Hpos). rewrite (proj2 (Z.ltb_lt _ _)) in E1 by done. cbn [andb] in E1. apply Z.ltb_ge in E1.
    rewrite Ht, u64_add_l, u64_small in E1 by (specialize (Heb Hpos); lia). done.
Qed.

Lemma in_drop {A} (x : A) n l : x ∈ drop n l -> x ∈ l.
Proof. intros H. rewrite <- (take_drop n l), elem_of_app. by right. Qed.

(** What [put] does first: an entry of the same key goes. *)
Lemma drop_existing key c l t :
  holds c l -> LruOk.models t (Nat.max (max_ c) 1) (Recency.touch key l) ->
  exists c1, (match Recency.lookup_ key l with
      | Some e => '(t, _) ← Lru.erase t key; Some (with_entries (u64 (total_bytes_ c - body_size e)) t c)
      | None => Some (with_entries (total_bytes_ c) t c) end) = Some c1 /\
    holds c1 (Recency.remove key (Recency.touch key l)) /\
    max_ c1 = max_ c /\ max_bytes_ c1 = max_bytes_ c /\ path_vary_ c1 = path_vary_ c.
Proof.
  intros H M1. pose proof (holds_nodup _ _ H) as Hn. destruct H as [M Ht Hb Hc].
  destruct (lookup_length key l) as [Hl1 _]. destruct (lookup_length key (Recency.touch key l)) as [_ Hl2].
  pose proof (sizes_remove key _ (proj1 (LruOk.bound_ok _ _ _ M1))) as Hsr.
  rewrite RecencyFacts.lookup_touch, (sizes_touch key l Hn) in Hsr.
  destruct (Recency.lookup_ key l) as [e0|] eqn:E.
  - destruct (LruOk.erase_ok _ _ _ key M1) as (t' & -> & M2). cbn [mbind option_bind]. eexists. split; [done|]. split; [|done].
    pose proof (body_size_nonneg e0). split; cbn; rewrite ?Hsr; try done; [by rewrite Ht, u64_sub_l|intros ?%Hb; lia|lia].
  - eexists. split; [done|]. split; [|done]. unfold Recency.touch in *. rewrite E in *.
    rewrite remove_none by done. by split.
Qed.

(** Storing an entry: afterwards the cache holds it or not, and otherwise only entries
    it had. *)
Lemma put_ok key e c l :
  holds c l -> max_bytes_ c < 2 ^ 63 ->
  exists c' l', put key e c = Some c' /\ holds c' l' /\ max_ c' = max_ c /\ max_bytes_ c' = max_bytes_ c /\ path_vary_ c' = path_vary_ c /\
    (forall x, x ∈ l' -> x = (key, e) \/ x ∈ l) /\
    ((1 <= max_ c)%nat -> (0 < max_bytes_ c -> body_size e <= max_bytes_ c) -> Recency.lookup_ key l' = Some e) /\
    (length l' <= S (length l))%nat /\ sizes l' <= sizes l + body_size e /\
    ((length l < max_ c)%nat -> (0 < max_bytes_ c -> sizes l + body_size e <= max_bytes_ c) ->
     forall k, k <> key -> Recency.lookup_ k l' = Recency.lookup_ k l).
Proof.
  intros H Hmax. unfold put. pose proof (body_size_nonneg e) as Hbe. pose proof (holds_nodup _ _ H) as Hnd.
  destruct (Nat.eqb_spec (max_ c) 0) as [|Hm]; [exists c, l; split_and!; auto; lia|].
  destruct ((0 <? max_bytes_ c) && (max_bytes_ c <? body_size e)) eqn:Ebig.
  { apply andb_true_iff in Ebig as [?%Z.ltb_lt ?%Z.ltb_lt]. exists c, l. split_and!; auto; lia. }
  assert (Heb : 0 < max_bytes_ c -> body_size e <= max_bytes_ c).
  { intros Hp. rewrite (proj2 (Z.ltb_lt _ _)) in Ebig by done. by apply Z.ltb_ge in Ebig. }
  destruct (LruOk.find_ok _ _ _ key (h_models _ _ H)) as (t & -> & M1). cbn [mbind option_bind].
  destruct (drop_existing _ _ _ _ H M1) as (c1 & -> & H1 & Hm1 & Hb1 & Hp1). cbn [mbind option_bind].
  set (l1 := Recency.remove key (Recency.touch key l)) in *.
  destruct (cache_room_ok (S (Lru.size_ (entries_ c1))) (body_size e) c1 l1 H1) as (c2 & n & -> & H2 & Hl2 & Hs2 & Hm2 & Hb2 & Hp2 & Hn0);
    try (rewrite ?Hm1, ?Hb1; done || lia); [rewrite (LruOk.size_ok _ _ _ (h_models _ _ H1)); lia|].
  cbn [mbind option_bind]. destruct (LruOk.insert_or_assign_ok _ _ _ key e (h_models _ _ H2)) as (t2 & -> & M2). cbn [mbind option_bind].
  set (l2 := drop n l1) in *.
  assert (Hnone : Recency.lookup_ key l2 = None).
  { destruct (Recency.lookup_ key l2) as [e'|] eqn:E; [|done]. apply RecencyFacts.lookup_elem, in_drop in E.
    unfold l1, Recency.remove in E. by apply list_elem_of_filter in E as [? _]. }
  assert (Hput : Recency.put (Nat.max (max_ c2) 1) key e l2 = l2 ++ [(key, e)]).
  { unfold Recency.put, Recency.push. rewrite Hnone, (proj2 (Nat.leb_gt _ _)); [done|]. rewrite Hm2, Hm1 in *. lia. }
  assert (Hlen1 : (length l1 <= length l)%nat).
  { destruct (lookup_length key l) as [? _], (lookup_length key (Recency.touch key l)) as [_ ?]. unfold l1. lia. }
  assert (Hsz1 : sizes l1 <= sizes l).
  { unfold l1. rewrite sizes_remove by apply (LruOk.bound_ok _ _ _ M1). rewrite sizes_touch by done. case_match; [|lia].
    match goal with x : RespCacheEntry |- _ => pose proof (body_size_nonneg x) end. lia. }
  rewrite Hput in M2. eexists _, (l2 ++ [(key, e)]). split; [done|]. split_and!; cbn; try congruence.
  - split; cbn; try done.
    + rewrite (h_total _ _ H2), u64_add_l, sizes_app. cbn [sizes snd]. f_equal. lia.
    + rewrite sizes_app. cbn [sizes snd]. rewrite Hb2. intros ?%Hs2. lia.
    + rewrite length_app. cbn. lia.
  - intros x. rewrite elem_of_app, list_elem_of_singleton. intros [Hx| ->]; [right|by left].
    apply in_drop in Hx. unfold l1, Recency.remove in Hx. apply list_elem_of_filter in Hx as [_ Hx]. by apply RecencyFacts.touch_elem in Hx.
  - intros _ _. rewrite RecencyFacts.lookup_app, Hnone. cbn. by rewrite decide_True.
  - rewrite length_app. cbn. unfold l2. rewrite length_drop. lia.
  - rewrite sizes_app. cbn [sizes snd]. pose proof (sizes_drop n l1). fold l2 in H0. lia.
  - intros Hroom Hsum k Hk. assert (n = 0)%nat as -> by (apply Hn0; rewrite ?Hm1, ?Hb1; [lia|intros Hpos; specialize (Hsum Hpos); lia]).
    unfold l2. rewrite drop_0, RecencyFacts.lookup_app. cbn. rewrite decide_False by done. unfold l1.
    rewrite RecencyFacts.lookup_remove_ne, RecencyFacts.lookup_touch by done. by destruct (Recency.lookup_ k l).
Qed.

End RespCacheOk.

(** ** Keys *)

Module CacheKeyOk.
Import Codec.Ascii Fields HeaderList Resp Req RespCache.

(** What follows a part: nothing, or its separator. *)
Definition ends (d : byte) (t : bytes) : Prop := match t with [] => True | c :: _ => c = d end.

Lemma ends_inj d a a' t t' : d ∉ a -> d ∉ a' -> ends d t -> ends d t' -> a ++ t = a' ++ t' -> a = a' /\ t = t'.
Proof.
  revert a'. induction a as [|x a IH]; intros [|y a'] Ha Ha' Ht Ht' E; cbn [app] in E.
  - done.
  - destruct t as [|z t]; [done|]. cbn in Ht. injection E as -> _. subst. by destruct Ha'; left.
  - destruct t' as [|z t']; [done|]. cbn in Ht'. injection E as <- _. subst. by destruct Ha; left.
  - injection E as -> E. apply not_elem_of_cons in Ha as [_ Ha], Ha' as [_ Ha']. by destruct (IH a' Ha Ha' Ht Ht' E) as [-> ->].
Qed.

Definition len_field (s : bytes) : bytes := to_dec (Z.of_nat (length s)) ++ x3a :: s.

Lemma colon_not_digit n : x3a ∉ to_dec (Z.of_nat n).
Proof.
  intros Hin. destruct (to_dec_spec (Z.of_nat n)) as (_ & H & _); [lia|]. rewrite Forall_forall in H. by specialize (H _ Hin).
Qed.

Lemma len_field_inj s s' t t' : len_field s ++ t = len_field s' ++ t' -> s = s' /\ t = t'.
Proof.
  unfold len_field. rewrite <- !app_assoc. cbn [app]. intros E.
  apply (ends_inj x3a) in E as [E1 E2]; [|apply colon_not_digit|apply colon_not_digit|done|done].
  apply to_dec_inj in E1; [|lia|lia]. injection E2 as E2. apply app_inj_1 in E2; [done|lia].
Qed.

Definition query_part (fields : list (bytes * bytes)) : bytes := concat (map (fun p => len_field p.1 ++ len_field p.2) fields).

Definition query_seg (fields : list (bytes * bytes)) : bytes :=
  match fields with [] => [] | _ => B "|q:" ++ query_part fields end.

Definition vary_part (names : list bytes) (h : HttpFields) : bytes := concat (map (fun n => x7c :: n ++ x3d :: at_ h n) names).

Lemma build_cache_key_spec p q names h :
  build_cache_key p q names h = p ++ query_seg (data_ q) ++ vary_part names h.
Proof.
  assert (Hv : forall key, fold_left (fun key n => key ++ [x7c] ++ n ++ [x3d] ++ at_ h n) names key = key ++ vary_part names h).
  { unfold vary_part. induction names as [|n names IH]; intros key; cbn [fold_left map concat]; [by rewrite app_nil_r|].
    rewrite IH, <- !app_assoc. cbn [app]. by rewrite <- app_assoc. }
  assert (Hq : forall f key, fold_left (fun key p => append_len_field (append_len_field key (length p.1) ++ p.1) (length p.2) ++ p.2) f key
    = key ++ query_part f).
  { unfold query_part. induction f as [|x f IH]; intros key; cbn [fold_left map concat]; [by rewrite app_nil_r|].
    rewrite IH. unfold append_len_field, len_field. rewrite <- !app_assoc. cbn [app]. done. }
  unfold build_cache_key. rewrite Hv. unfold query_seg. destruct (data_ q) as [|x f]; [done|]. rewrite Hq. by rewrite <- !app_assoc.
Qed.

Lemma vary_ends names h : ends x7c (vary_part names h).
Proof. by destruct names. Qed.

(** A field starts with a digit and the rest of the key with the bar. *)
Lemma len_field_head s : exists c t, len_field s = c :: t /\ c <> x7c.
Proof.
  unfold len_field. destruct (to_dec_spec (Z.of_nat (length s))) as (Hne & Hd & _); [lia|].
  destruct (to_dec _) as [|c ds]; [done|]. eexists _, _. split; [done|]. intros ->. by apply Forall_cons in Hd as [? _].
Qed.

Lemma query_part_inj f f' t t' : ends x7c t -> ends x7c t' -> query_part f ++ t = query_part f' ++ t' -> f = f' /\ t = t'.
Proof.
  revert f'. induction f as [|[n v] f IH]; intros [|[n' v'] f'] Ht Ht' E; unfold query_part in *; cbn [map concat fst snd app] in E.
  - done.
  - destruct (len_field_head n') as (c & u & Hc & Hne). rewrite Hc in E. destruct t as [|x t]; [done|]. cbn in Ht.
    injection E as -> _. by subst.
  - destruct (len_field_head n) as (c & u & Hc & Hne). rewrite Hc in E. destruct t' as [|x t']; [done|]. cbn in Ht'.
    injection E as <- _. by subst.
  - rewrite <- !app_assoc in E. apply len_field_inj in E as [-> E]. apply len_field_inj in E as [-> E].
    by destruct (IH f' Ht Ht' E) as [-> ->].
Qed.

(** Names without the characters of the key and values without the bar. *)
Definition plain_names (names : list bytes) (h : HttpFields) : Prop :=
  Forall (fun n => x7c ∉ n /\ x3d ∉ n /\ x3a ∉ n /\ x7c ∉ at_ h n) names.

Lemma vary_part_inj names names' h h' :
  plain_names names h -> plain_names names' h' -> vary_part names h = vary_part names' h' ->
  names = names' /\ map (at_ h) names = map (at_ h') names'.
Proof.
  intros H. revert names'. induction H as [|n names (_ & Hn & _ & Hv) H IH]; intros names' H' E;
    destruct H' as [|n' names' (_ & Hn' & _ & Hv') H']; [done|done|done|].
  unfold vary_part in E. cbn [map concat app] in E. injection E as E. rewrite <- !app_assoc in E. cbn [app] in E.
  apply (ends_inj x3d) in E as [-> E]; [|done|done|done|done]. injection E as E.
  apply (ends_inj x7c) in E as [Ev E]; [|done|done|apply vary_ends|apply vary_ends].
  cbn [map]. destruct (IH names' H' E) as [-> ->]. by rewrite Ev.
Qed.

(** No name of a header starts like the query. *)
Lemma vary_not_query names h t : plain_names names h -> vary_part names h <> B "|q:" ++ t.
Proof.
  intros H E. destruct H as [|n names (_ & _ & Hn & _) H]; [done|]. unfold vary_part in E. cbn [map concat app] in E.
  injection E as E. destruct n as [|a [|b n]]; cbn in E; [done|done|]. injection E as _ -> _. apply Hn. by right; left.
Qed.

Lemma key_inj p p' q q' names names' h h' :
  x7c ∉ p -> x7c ∉ p' -> plain_names names h -> plain_names names' h' ->
  build_cache_key p q names h = build_cache_key p' q' names' h' ->
  p = p' /\ data_ q = data_ q' /\ names = names' /\ map (at_ h) names = map (at_ h') names'.
Proof.
  intros Hp Hp' Hn Hn'. rewrite !build_cache_key_spec. intros E.
  assert (Hends : forall f names h, ends x7c (query_seg f ++ vary_part names h)).
  { intros [|x f] ns hd; [apply vary_ends|done]. }
  apply (ends_inj x7c) in E as [-> E]; [|done|done|apply Hends|apply Hends]. split; [done|].
  destruct (data_ q) as [|x f], (data_ q') as [|x' f']; unfold query_seg in E; cbn [app] in E.
  - split; [done|]. by apply vary_part_inj.
  - rewrite <- app_assoc in E. by apply vary_not_query in E.
  - rewrite <- app_assoc in E. symmetry in E. by apply vary_not_query in E.
  - rewrite <- !app_assoc in E. apply app_inv_head in E. apply query_part_inj in E as [-> E]; [|apply vary_ends|apply vary_ends].
    split; [done|]. by apply vary_part_inj.
Qed.

End CacheKeyOk.

(** ** Runs *)

Module CacheRun.
Import Codec.Ascii MediaType Fields HeaderList HeaderListOk Resp Req RespCache RespCacheOk CacheKeyOk.

(** The two locked blocks of the middleware, in any order: calls on several threads
    interleave between them. *)
Inductive event := Looks (now : Z) (req : RequestView) | Stores (now : Z) (req : RequestView) (resp : Response).

Definition step (o : ResponseCacheOptions) (ev : event) (c : RespLruCache) : option (RespLruCache * option Response) :=
  match ev with
  | Looks now req => lookup_response now req c
  | Stores now req resp => c ← store_response o now req resp c; Some (c, None)
  end.

Fixpoint run (o : ResponseCacheOptions) (evs : list event) (c : RespLruCache) : option (RespLruCache * list (option Response)) :=
  match evs with
  | [] => Some (c, [])
  | ev :: evs => '(c, out) ← step o ev c; '(c, outs) ← run o evs c; Some (c, out :: outs)
  end.

(** The lifetimes of the stored responses fit the clock. *)
Definition in_time (o : ResponseCacheOptions) (ev : event) : Prop :=
  match ev with
  | Looks _ _ => True
  | Stores now req resp => forall vary ttl, storable o req resp = Some (Some (vary, ttl)) -> is_Some (expiry now ttl)
  end.

(** The headers that the responses of a path vary with, after a run: those of the
    last stored response that has any. *)
Definition vary_now (o : ResponseCacheOptions) (evs : list event) (p : bytes) : list bytes :=
  fold_left (fun v ev =>
    match ev with
    | Looks _ _ => v
    | Stores _ req resp =>
        match storable o req resp with
        | Some (Some ((_ :: _) as vary, _)) => if decide (path req = p) then vary else v
        | _ => v
        end
    end) evs [].

(** The responses that the events store, and the size of their bodies. *)
Definition kept (o : ResponseCacheOptions) (evs : list event) : list Response :=
  omap (fun ev =>
    match ev with
    | Looks _ _ => None
    | Stores _ req resp => match storable o req resp with Some (Some _) => Some resp | _ => None end
    end) evs.

Definition bodies (rs : list Response) : Z := fold_right (fun r n => Z.of_nat (length (text_body r)) + n) 0 rs.

Lemma kept_app o a b : kept o (a ++ b) = kept o a ++ kept o b.
Proof. apply omap_app. Qed.

Lemma bodies_app a b : bodies (a ++ b) = bodies a + bodies b.
Proof. unfold bodies. induction a as [|x a IH]; cbn [app fold_right]; lia. Qed.

(** [e] was stored under [k] by one of the events. *)
Definition stored (o : ResponseCacheOptions) (evs : list event) (k : bytes) (e : RespCacheEntry) : Prop :=
  exists t req resp vary ttl, Stores t req resp ∈ evs /\ storable o req resp = Some (Some (vary, ttl)) /\
    e = mkCached resp (t + ttl * 10 ^ 9) /\ k = build_cache_key (path req) (query req) vary (Req.headers req).

Record inv (o : ResponseCacheOptions) (evs : list event) (c : RespLruCache) (l : contents) : Prop := {
  i_holds : holds c l;
  i_max : max_ c = max_entries o;
  i_bytes : max_bytes_ c = max_bytes o;
  i_vary : forall p, vary_for p c = vary_now o evs p;
  i_stored : forall k e, (k, e) ∈ l -> stored o evs k e;
  i_count : (length l <= length (kept o evs))%nat;
  i_size : sizes l <= bodies (kept o evs)
}.

Lemma directive_total cc d : is_Some (cache_control_directive_contains cc d).
Proof.
  unfold cache_control_directive_contains, header_items. rewrite header_tokens_spec. cbn [mbind option_bind].
  induction (map item_of _) as [|i items IH]; cbn [any_item]; [by eexists|].
  rewrite header_params_spec. destruct (ascii_iequals (item_name i) d); cbn [mbind option_bind]; [by eexists|].
  destruct (existsb _ _); [by eexists|done].
Qed.

Lemma max_age_total cc : is_Some (parse_max_age cc).
Proof.
  unfold parse_max_age, header_items. rewrite header_tokens_spec. cbn [mbind option_bind].
  induction (map item_of _) as [|i items IH]; cbn [max_age_in]; [by eexists|].
  destruct (_ || _); [done|]. rewrite header_params_spec. cbn [mbind option_bind]. by destruct (map param_of _); eexists.
Qed.

Lemma storable_total o req resp : is_Some (storable o req resp).
Proof.
  unfold storable. destruct (_ || _); [by eexists|].
  destruct (directive_total (at_ (Resp.headers resp) (B "Cache-Control")) (B "no-store")) as [b1 ->]. cbn [mbind option_bind].
  destruct (directive_total (at_ (Resp.headers resp) (B "Cache-Control")) (B "no-cache")) as [b2 ->]. cbn [mbind option_bind].
  destruct (directive_total (at_ (Resp.headers resp) (B "Cache-Control")) (B "private")) as [b3 ->]. cbn [mbind option_bind].
  destruct (_ || _ || _); [by eexists|]. destruct (_ && _); [by eexists|].
  unfold parse_vary. rewrite header_tokens_spec. cbn [mbind option_bind].
  destruct (max_age_total (at_ (Resp.headers resp) (B "Cache-Control"))) as [ttl ->]. cbn [mbind option_bind].
  destruct (directive_total (at_ (Resp.headers resp) (B "Cache-Control")) (B "max-age")) as [b4 ->]. cbn [mbind option_bind].
  destruct (_ && _); by eexists.
Qed.

Lemma expiry_some now ttl e : expiry now ttl = Some e -> e = now + ttl * 10 ^ 9.
Proof. unfold expiry. destruct (_ && _); [|done]. by intros [= <-]. Qed.

Lemma stored_app o evs evs' k e : stored o evs k e -> stored o (evs ++ evs') k e.
Proof.
  intros (t & req & resp & vary & ttl & Hin & H). exists t, req, resp, vary, ttl. split; [|done]. rewrite elem_of_app. by left.
Qed.

Lemma new_inv o : inv o [] (new_cache o) [].
Proof.
  split; try done; [|by intros k e ?%elem_of_nil]. split; cbn; [|done|lia|lia].
  replace (Nat.max (max_entries o) 1) with (Nat.max (Nat.max (max_entries o) 1) 1) at 2 by lia. apply LruOk.make_ok.
Qed.

(** An answer: the response of an earlier event, stored under the key of the lookup
    and still alive. *)
Definition answer (o : ResponseCacheOptions) (past : list event) (now : Z) (req : RequestView) (r : Response) : Prop :=
  exists t req' resp vary ttl, Stores t req' resp ∈ past /\ storable o req' resp = Some (Some (vary, ttl)) /\
    now < t + ttl * 10 ^ 9 /\ r = (if bytes_eqb (method req) (B "HEAD") then set_head_only resp else resp) /\
    build_cache_key (path req') (query req') vary (Req.headers req') =
    build_cache_key (path req) (query req) (vary_now o past (path req)) (Req.headers req).

Lemma after_get_elem now k l x : x ∈ after_get now k l -> x ∈ l.
Proof.
  unfold after_get. destruct (Recency.lookup_ k l); [|done]. destruct (now <? _).
  - by intros ?%RecencyFacts.touch_elem.
  - unfold Recency.remove. by intros [_ ?%RecencyFacts.touch_elem]%list_elem_of_filter.
Qed.

Lemma remove_nodup k (l : contents) : NoDup l.*1 -> NoDup (Recency.remove k l).*1.
Proof.
  induction l as [|[k' e] l IH]; [done|]. cbn [fmap list_fmap fst]. intros [Hk Hn]%NoDup_cons. unfold Recency.remove in *. rewrite filter_cons.
  case_decide; [|by apply IH]. cbn [fmap list_fmap fst]. apply NoDup_cons. split; [|by apply IH]. contradict Hk.
  apply list_elem_of_fmap in Hk as (x & -> & [_ Hx]%list_elem_of_filter). by apply list_elem_of_fmap_2.
Qed.

Lemma after_get_less now k l : NoDup l.*1 -> (length (after_get now k l) <= length l)%nat /\ sizes (after_get now k l) <= sizes l.
Proof.
  intros Hn. unfold after_get. destruct (Recency.lookup_ k l) as [e|] eqn:E; [|done]. pose proof (sizes_touch k l Hn) as Hs.
  destruct (lookup_length k l) as [Hl _]. destruct (now <? _); [split; [done|lia]|].
  destruct (lookup_length k (Recency.touch k l)) as [_ Hl2]. split; [lia|]. rewrite sizes_remove.
  - rewrite RecencyFacts.lookup_touch, E. pose proof (body_size_nonneg e). lia.
  - unfold Recency.touch. rewrite E, fmap_app. apply NoDup_app. split_and!; [by apply remove_nodup| |apply NoDup_singleton].
    intros x Hx ->%list_elem_of_singleton. apply RecencyFacts.lookup_keys in Hx as [? Hx]. by rewrite RecencyFacts.lookup_remove_eq in Hx.
Qed.

Lemma vary_looks o evs now req p : vary_now o (evs ++ [Looks now req]) p = vary_now o evs p.
Proof. unfold vary_now. by rewrite fold_left_app. Qed.

Lemma lookup_inv o evs c l now req :
  inv o evs c l ->
  exists c' out, lookup_response now req c = Some (c', out) /\
    inv o (evs ++ [Looks now req]) c' (after_get now (build_cache_key (path req) (query req) (vary_now o evs (path req)) (Req.headers req)) l) /\
    forall r, out = Some r -> answer o evs now req r.
Proof.
  intros [H Hm Hb Hv Hs Hn Hz]. unfold lookup_response. rewrite Hv.
  destruct (get_ok now (build_cache_key (path req) (query req) (vary_now o evs (path req)) (Req.headers req)) c l H)
    as (c' & -> & H' & Hm' & Hb' & Hp'). cbn [mbind option_bind].
  eexists _, _. split; [done|]. split.
  - split; [done|congruence|congruence| | | |].
    + intros p. rewrite vary_looks, <- Hv. unfold vary_for. by rewrite Hp'.
    + intros k e He%after_get_elem. by apply stored_app, Hs.
    + rewrite kept_app. cbn [kept omap list_omap]. rewrite app_nil_r. etrans; [apply after_get_less, (holds_nodup _ _ H)|done].
    + rewrite kept_app. cbn [kept omap list_omap]. rewrite app_nil_r. etrans; [apply after_get_less, (holds_nodup _ _ H)|done].
  - intros r. destruct (Recency.lookup_ _ l) as [e|] eqn:E; [|done].
    destruct (Z.ltb_spec now (expires_at e)) as [Hlt|]; [|done]. intros [= <-].
    apply RecencyFacts.lookup_elem in E. destruct (Hs _ _ E) as (t & req' & resp & vary & ttl & Hin & Hst & -> & Hk).
    by exists t, req', resp, vary, ttl.
Qed.

Lemma vary_stores o evs now req resp p :
  vary_now o (evs ++ [Stores now req resp]) p =
  match storable o req resp with
  | Some (Some ((_ :: _) as vary, _)) => if decide (path req = p) then vary else vary_now o evs p
  | _ => vary_now o evs p
  end.
Proof. unfold vary_now. by rewrite fold_left_app. Qed.

Lemma vary_set p q v c : vary_for p (set_vary q v c) = if decide (q = p) then v else vary_for p c.
Proof. unfold vary_for, set_vary. cbn. destruct (decide (q = p)) as [->|Hne]; [by rewrite lookup_insert_eq|by rewrite lookup_insert_ne]. Qed.

Lemma store_inv o evs c l now req resp :
  inv o evs c l -> max_bytes o < 2 ^ 63 -> in_time o (Stores now req resp) ->
  exists c' l', store_response o now req resp c = Some c' /\ inv o (evs ++ [Stores now req resp]) c' l' /\
    (forall vary ttl, storable o req resp = Some (Some (vary, ttl)) -> (1 <= max_entries o)%nat ->
      (0 < max_bytes o -> Z.of_nat (length (text_body resp)) <= max_bytes o) ->
      Recency.lookup_ (build_cache_key (path req) (query req) vary (Req.headers req)) l' = Some (mkCached resp (now + ttl * 10 ^ 9))) /\
    (forall k, (forall vary ttl, storable o req resp = Some (Some (vary, ttl)) ->
        k <> build_cache_key (path req) (query req) vary (Req.headers req) /\ (length l < max_entries o)%nat /\
        (0 < max_bytes o -> sizes l + Z.of_nat (length (text_body resp)) <= max_bytes o)) ->
      Recency.lookup_ k l' = Recency.lookup_ k l).
Proof.
  intros [H Hm Hb Hv Hs Hn Hz] Hmax Hin. unfold store_response. pose proof (fun p => vary_stores o evs now req resp p) as Hvs.
  destruct (storable_total o req resp) as [s Es]. rewrite Es in Hvs |- *. cbn [mbind option_bind]. destruct s as [[vary ttl]|].
  2: { exists c, l. split; [done|]. split; [|done]. split; try done; [intros p; by rewrite Hvs| | |].
       - intros k e He. by apply stored_app, Hs.
       - rewrite kept_app, length_app. lia.
       - rewrite kept_app, bodies_app. cbn [kept omap list_omap]. rewrite Es. cbn. lia. }
  destruct (Hin _ _ Es) as [e He]. rewrite He. cbn [mbind option_bind]. apply expiry_some in He as ->.
  set (c1 := match vary with [] => c | _ => _ end).
  assert (H1 : holds c1 l /\ max_ c1 = max_ c /\ max_bytes_ c1 = max_bytes_ c /\
    forall p, vary_for p c1 = vary_now o (evs ++ [Stores now req resp]) p).
  { destruct H as [? ? ? ?]. destruct vary as [|v vs]; (split; [by split|]); split_and!; try done; intros p; rewrite Hvs; [done|].
    unfold c1. by rewrite vary_set, Hv. }
  destruct H1 as (H1 & Hm1 & Hb1 & Hv1).
  destruct (put_ok (build_cache_key (path req) (query req) vary (Req.headers req)) (mkCached resp (now + ttl * 10 ^ 9)) c1 l H1)
    as (c' & l' & -> & H' & Hm' & Hb' & Hp' & Hl' & Hin' & Hlen & Hsz & Hother); [lia|].
  exists c', l'. split; [done|]. split.
  - assert (Hk : kept o (evs ++ [Stores now req resp]) = kept o evs ++ [resp]).
    { rewrite kept_app. f_equal. cbn [kept omap list_omap]. by rewrite Es. }
    split; [done|congruence|congruence|intros p; rewrite <- Hv1; unfold vary_for; by rewrite Hp'| | |].
    + intros k e [Hx|Hx]%Hl'; [|by apply stored_app, Hs]. injection Hx as -> ->. exists now, req, resp, vary, ttl.
      split; [|done]. rewrite elem_of_app, list_elem_of_singleton. by right.
    + rewrite Hk, length_app. cbn. lia.
    + rewrite Hk, bodies_app. unfold body_size in Hsz. cbn in Hsz |- *. lia.
  - split; [intros vary' ttl' [= <- <-] Hm0 Hfit; apply Hin'; [lia|]; rewrite Hb1, Hb; exact Hfit|].
    intros k Hk. destruct (Hk _ _ eq_refl) as (Hne & Hlt & Hsum). apply Hother; [lia| |done]. rewrite Hb1, Hb. exact Hsum.
Qed.

Lemma run_inv o evs past c l :
  inv o past c l -> max_bytes o < 2 ^ 63 -> Forall (in_time o) evs ->
  exists c' outs l', run o evs c = Some (c', outs) /\ inv o (past ++ evs) c' l' /\
    forall i now req r, evs !! i = Some (Looks now req) -> outs !! i = Some (Some r) -> answer o (past ++ take i evs) now req r.
Proof.
  intros H Hmax Hf. revert past c l H. induction Hf as [|ev evs Hev Hf IH]; intros past c l H; cbn [run].
  { exists c, [], l. rewrite app_nil_r. by split_and!. }
  assert (Hstep : exists c1 out l1, step o ev c = Some (c1, out) /\ inv o (past ++ [ev]) c1 l1 /\
    forall now req r, ev = Looks now req -> out = Some r -> answer o past now req r).
  { destruct ev as [now req|now req resp]; cbn [step].
    - destruct (lookup_inv _ _ _ _ now req H) as (c1 & out & -> & H1 & Ha). eexists _, _, _. split; [done|]. split; [done|].
      intros now' req' r [= <- <-]. apply Ha.
    - destruct (store_inv _ _ _ _ now req resp H Hmax Hev) as (c1 & l1 & -> & H1 & _ & _). cbn [mbind option_bind].
      by eexists _, _, _. }
  destruct Hstep as (c1 & out & l1 & -> & H1 & Ha). cbn [mbind option_bind].
  destruct (IH _ _ _ H1) as (c' & outs & l' & -> & H' & Has). cbn [mbind option_bind].
  eexists _, _, l'. rewrite <- app_assoc in H'. split; [done|]. split; [done|].
  intros [|i] now req r; cbn [lookup list_lookup take].
  - intros [= ->] [= ->]. rewrite app_nil_r. by eapply Ha.
  - intros He Ho. specialize (Has i now req r He Ho). by rewrite <- app_assoc in Has.
Qed.

End CacheRun.

Module RespCacheProps.
Import Codec.Ascii MediaType Fields HeaderList HeaderListOk Resp Req RespCache RespCacheOk CacheKeyOk CacheRun.

(** Requests and responses without the separators of the key: no bar in the path and
    in the header values, none of bar, equals sign and colon in the names of [Vary]. *)
Definition plain_request (req : RequestView) : Prop := x7c ∉ path req /\ Forall (fun p => x7c ∉ p.2) (data_ (Req.headers req)).

Definition plain_name (n : bytes) : Prop := x7c ∉ n /\ x3d ∉ n /\ x3a ∉ n.

Definition plain_event (o : ResponseCacheOptions) (ev : event) : Prop :=
  match ev with
  | Looks _ req => plain_request req
  | Stores _ req resp => plain_request req /\ forall vary ttl, storable o req resp = Some (Some (vary, ttl)) -> Forall plain_name vary
  end.

(** What a client expects of an answer: it was the response to a request of the same
    path and query that had the same values of the headers it varies with, and it is
    still alive. *)
Definition same_request_answer (o : ResponseCacheOptions) (past : list event) (now : Z) (req : RequestView) (r : Response) : Prop :=
  exists t req' resp vary ttl, Stores t req' resp ∈ past /\ storable o req' resp = Some (Some (vary, ttl)) /\
    now < t + ttl * 10 ^ 9 /\ r = (if bytes_eqb (method req) (B "HEAD") then set_head_only resp else resp) /\
    path req' = path req /\ data_ (query req') = data_ (query req) /\
    forall h, h ∈ vary -> at_ (Req.headers req') h = at_ (Req.headers req) h.

Lemma at_plain f n : Forall (fun p => x7c ∉ p.2) (data_ f) -> x7c ∉ at_ f n.
Proof.
  unfold at_, Fields.get, first_matching. induction 1 as [|[k v] d Hv Hd IH]; cbn [first_matching_in]; [by intros ?%elem_of_nil|].
  by destruct (key_eq _ k n).
Qed.

Lemma plain_names_of names f : Forall plain_name names -> Forall (fun p => x7c ∉ p.2) (data_ f) -> plain_names names f.
Proof. intros Hn Hf. eapply Forall_impl; [exact Hn|]. intros n (? & ? & ?). split_and!; try done. by apply at_plain. Qed.

Lemma vary_now_plain o evs p : Forall (plain_event o) evs -> Forall plain_name (vary_now o evs p).
Proof.
  unfold vary_now. intros H. assert (Hnil : Forall plain_name []) by done. revert Hnil. generalize (@nil bytes).
  induction H as [|ev evs Hev H IH]; intros v Hv; cbn [fold_left]; [done|]. apply IH.
  destruct ev as [|now req resp]; [done|]. destruct Hev as [_ Hev].
  destruct (storable o req resp) as [[[[|n names] ttl]|]|] eqn:E; try done.
  destruct (decide (path req = p)); [by eapply Hev|done].
Qed.

Lemma answer_same o past now req r :
  Forall (plain_event o) past -> plain_request req -> answer o past now req r -> same_request_answer o past now req r.
Proof.
  intros Hp [Hr Hh] (t & req' & resp & vary & ttl & Hin & Hs & Hlt & Hr' & Hk).
  pose proof (proj1 (Forall_forall _ _) Hp _ Hin) as [[Hp' Hh'] Hn]. specialize (Hn _ _ Hs).
  apply key_inj in Hk as (Hpath & Hq & Hvary & Hvals); [|done|done|by apply plain_names_of|by apply plain_names_of; [apply vary_now_plain|]].
  exists t, req', resp, vary, ttl. split_and!; try done. rewrite <- Hvary in Hvals. clear -Hvals.
  induction vary as [|n names IH]; intros h Hin; [by apply elem_of_nil in Hin|]. cbn [map] in Hvals. injection Hvals as Hv Hvals.
  apply elem_of_cons in Hin as [->|Hin]; [done|]. by apply IH.
Qed.


Lemma run_app o a b c : run o (a ++ b) c = '(c, outs) ← run o a c; '(c, outs') ← run o b c; Some (c, outs ++ outs').
Proof.
  revert c. induction a as [|ev a IH]; intros c; cbn [app run]; [cbn [mbind option_bind]; by destruct (run o b c) as [[? ?]|]|].
  destruct (step o ev c) as [[c1 out]|]; cbn [mbind option_bind]; [|done]. rewrite IH.
  destruct (run o a c1) as [[c2 outs]|]; cbn [mbind option_bind]; [|done]. by destruct (run o b c2) as [[c3 outs']|].
Qed.

Lemma storable_get o req resp s : storable o req resp = Some (Some s) -> bytes_eqb (method req) (B "HEAD") = false.
Proof. unfold storable. by destruct (bytes_eqb (method req) (B "HEAD")). Qed.

(** What may happen to the cache while an entry stored under [k] for the path [p] with
    the headers [vary] lives: lookups of any requests before it expires, and stores under
    other keys that leave the headers of the path as they are. *)
Definition spares (o : ResponseCacheOptions) (k p : bytes) (vary : list bytes) (until : Z) (ev : event) : Prop :=
  match ev with
  | Looks t _ => t < until
  | Stores _ req resp => forall vary' ttl, storable o req resp = Some (Some (vary', ttl)) ->
      k <> build_cache_key (path req) (query req) vary' (Req.headers req) /\ (path req = p -> vary' = [] \/ vary' = vary)
  end.

(** All that is stored fits without evicting anything. *)
Definition roomy (o : ResponseCacheOptions) (evs : list event) : Prop :=
  (length (kept o evs) <= max_entries o)%nat /\ (0 < max_bytes o -> bodies (kept o evs) <= max_bytes o).

Lemma bodies_nonneg rs : 0 <= bodies rs.
Proof. unfold bodies. induction rs as [|r rs IH]; cbn [fold_right]; lia. Qed.

Lemma after_get_keeps now k' k e l :
  Recency.lookup_ k l = Some e -> now < expires_at e -> Recency.lookup_ k (after_get now k' l) = Some e.
Proof.
  intros H Hlt. unfold after_get. destruct (Recency.lookup_ k' l) as [e'|] eqn:E; [|done].
  destruct (Z.ltb_spec now (expires_at e')) as [|Hge]; [by rewrite RecencyFacts.lookup_touch|].
  rewrite RecencyFacts.lookup_remove_ne, RecencyFacts.lookup_touch; [done|]. intros ->. rewrite H in E. injection E as <-. lia.
Qed.

(** An entry stays while the events spare it. *)
Lemma run_spares o k p vary e past evs c l :
  inv o past c l -> max_bytes o < 2 ^ 63 -> Forall (in_time o) evs -> Forall (spares o k p vary (expires_at e)) evs ->
  kept o evs = [] \/ roomy o (past ++ evs) -> Recency.lookup_ k l = Some e -> vary_now o past p = vary ->
  exists c' outs l', run o evs c = Some (c', outs) /\ inv o (past ++ evs) c' l' /\ Recency.lookup_ k l' = Some e /\
    vary_now o (past ++ evs) p = vary.
Proof.
  intros H Hmax Hf Hsp. revert past c l H. induction Hf as [|ev evs Hev Hf IH]; intros past c l H Hroom Hk Hv; cbn [run].
  { exists c, [], l. by rewrite app_nil_r. }
  apply Forall_cons in Hsp as [Hsev Hsp]. specialize (IH Hsp).
  assert (Hnext : kept o evs = [] \/ roomy o ((past ++ [ev]) ++ evs)).
  { rewrite <- app_assoc. destruct Hroom as [Hroom|Hroom]; [left|by right]. cbn [kept omap list_omap] in Hroom. by case_match. }
  assert (Hstep : exists c1 out l1, step o ev c = Some (c1, out) /\ inv o (past ++ [ev]) c1 l1 /\ Recency.lookup_ k l1 = Some e /\
    vary_now o (past ++ [ev]) p = vary).
  { destruct ev as [now req|now req resp]; cbn [step].
    - destruct (lookup_inv _ _ _ _ now req H) as (c1 & out & -> & H1 & _). eexists _, _, _. split; [done|]. split; [done|].
      split; [by apply after_get_keeps|by rewrite vary_looks].
    - destruct (store_inv _ _ _ _ now req resp H Hmax Hev) as (c1 & l1 & -> & H1 & _ & Hother). cbn [mbind option_bind].
      eexists _, _, _. split; [done|]. split; [done|]. split.
      + rewrite Hother; [done|]. intros vary' ttl' Hs. destruct (Hsev _ _ Hs) as [Hne _]. split; [done|].
        assert (Hkc : kept o (Stores now req resp :: evs) = resp :: kept o evs) by (cbn [kept omap list_omap]; by rewrite Hs).
        rewrite Hkc in Hroom. destruct Hroom as [|[Hc Hb]]; [done|]. rewrite kept_app, Hkc, length_app in Hc. rewrite kept_app, Hkc, bodies_app in Hb.
        change (bodies (resp :: kept o evs)) with (Z.of_nat (length (text_body resp)) + bodies (kept o evs)) in Hb. cbn [length] in Hc.
        pose proof (i_count _ _ _ _ H). pose proof (i_size _ _ _ _ H). pose proof (bodies_nonneg (kept o evs)).
        split; [lia|]. intros Hpos. specialize (Hb Hpos). lia.
      + rewrite vary_stores. destruct (storable o req resp) as [[[[|n names] ttl']|]|] eqn:Es; try done.
        case_decide as Hp; [|done]. by destruct (proj2 (Hsev _ _ Es) Hp) as [|]. }
  destruct Hstep as (c1 & out & l1 & -> & H1 & Hk1 & Hv1). cbn [mbind option_bind].
  destruct (IH _ _ _ H1 Hnext Hk1 Hv1) as (c' & outs & l' & -> & H' & Hk' & Hv'). cbn [mbind option_bind].
  eexists _, _, l'. rewrite <- app_assoc in H', Hv'. done.
Qed.

(** C37: a response that may be stored, whose body fits and whose lifetime fits the
    clock, is the answer to the same request until it expires. Before, the cache did
    anything; afterwards it looks up any requests, before the expiry, and stores other
    responses that go under other keys, leave the headers of the path as they are, and
    leave nothing to be evicted. The response varies with a header, or no earlier one of
    its path did. *)
Theorem stored_then_found o evs later now now' req resp vary ttl :
  0 <= max_bytes o < 2 ^ 63 -> Forall (in_time o) evs -> Forall (in_time o) later -> (1 <= max_entries o)%nat ->
  (0 < max_bytes o -> Z.of_nat (length (text_body resp)) <= max_bytes o) ->
  storable o req resp = Some (Some (vary, ttl)) -> is_Some (expiry now ttl) -> now' < now + ttl * 10 ^ 9 ->
  vary <> [] \/ vary_now o evs (path req) = [] ->
  Forall (spares o (build_cache_key (path req) (query req) vary (Req.headers req)) (path req) vary (now + ttl * 10 ^ 9)) later ->
  kept o later = [] \/ roomy o (evs ++ Stores now req resp :: later) ->
  exists c outs, run o (evs ++ Stores now req resp :: later ++ [Looks now' req]) (new_cache o) = Some (c, outs) /\ last outs = Some (Some resp).
Proof.
  intros Hmax Hf Hf' Hm Hfit Hs Hexp Hlt Hv Hsp Hroom.
  destruct (run_inv o evs [] _ _ (new_inv o) ltac:(lia) Hf) as (c & outs & l & Hr & Hi & _). cbn [app] in Hi.
  assert (Hin : in_time o (Stores now req resp)) by (intros v t; rewrite Hs; by intros [= <- <-]).
  destruct (store_inv _ _ _ _ now req resp Hi ltac:(lia) Hin) as (c1 & l1 & Hst & Hi1 & Hfound & _).
  specialize (Hfound _ _ Hs Hm Hfit).
  assert (Hkey : vary_now o (evs ++ [Stores now req resp]) (path req) = vary).
  { rewrite vary_stores, Hs. destruct vary as [|n names]; [by destruct Hv|by rewrite decide_True]. }
  rewrite cons_middle, (app_assoc evs) in Hroom.
  destruct (run_spares o _ _ vary (mkCached resp (now + ttl * 10 ^ 9)) _ later c1 l1 Hi1 ltac:(lia) Hf' Hsp Hroom Hfound Hkey) as (c2 & outs2 & l2 & Hr2 & Hi2 & Hk2 & Hv2).
  destruct (get_ok now' (build_cache_key (path req) (query req) vary (Req.headers req)) _ _ (i_holds _ _ _ _ Hi2)) as (c3 & Hg & _).
  rewrite Hk2 in Hg. cbn [expires_at] in Hg. rewrite (proj2 (Z.ltb_lt _ _)) in Hg by done.
  eexists c3, (outs ++ None :: outs2 ++ [Some resp]). split; [|by rewrite last_app, last_cons, last_app].
  rewrite run_app, Hr. cbn [mbind option_bind run step]. rewrite Hst. cbn [mbind option_bind]. rewrite run_app, Hr2.
  cbn [mbind option_bind run step]. unfold lookup_response. rewrite (i_vary _ _ _ _ Hi2), Hv2, Hg. cbn [mbind option_bind cached].
  by rewrite (storable_get _ _ _ _ Hs).
Qed.

(** A request of a path with the header [Accept], and a response that varies with it. *)
Definition sample_request (p : bytes) (q : list (bytes * bytes)) (accept : bytes) : RequestView :=
  mkRequestView (B "GET") p (B "HTTP/1.1") [] false (mkFields [] false) (mkFields [(B "Accept", accept)] true) (mkFields q false)
    (mkFields [] false) (mkFields [] false) [] [].

Definition sample_response : Response :=
  set_header (B "Vary") (B "accept") (set_header (B "Cache-Control") (B "max-age=10") (set_text_body (B "hello") default_response)).

Definition sample_events : list event :=
  [Stores 5 (sample_request (B "/a") [] (B "text/html")) sample_response; Looks 9 (sample_request (B "/a") [] (B "text/html"));
   Looks 9 (sample_request (B "/a") [] (B "text/plain"))].

Lemma sample_storable q a : storable default_cache_options (sample_request (B "/a") q a) sample_response = Some (Some ([B "accept"], 10)).
Proof. vm_compute. reflexivity. Qed.


(** Another path is stored and looked up in between. *)
Definition later_events : list event :=
  [Stores 21 (sample_request (B "/c") [] []) sample_response; Looks 25 (sample_request (B "/c") [] []); Looks 26 (sample_request (B "/b") [] [])].

Lemma other_storable : storable default_cache_options (sample_request (B "/c") [] []) sample_response = Some (Some ([B "accept"], 10)).
Proof. vm_compute. reflexivity. Qed.

Lemma stored_then_found_witness :
  exists c outs, run default_cache_options (sample_events ++ Stores 20 (sample_request (B "/b") [] []) sample_response ::
      later_events ++ [Looks 30 (sample_request (B "/b") [] [])])
    (new_cache default_cache_options) = Some (c, outs) /\ last outs = Some (Some sample_response).
Proof.
  apply (stored_then_found default_cache_options sample_events later_events 20 30 (sample_request (B "/b") [] []) sample_response [B "accept"] 10).
  - cbn. lia.
  - repeat constructor; intros vary ttl; rewrite sample_storable; intros [= <- <-]; by eexists.
  - repeat constructor. intros vary ttl. rewrite other_storable. intros [= <- <-]. by eexists.
  - cbn. lia.
  - by vm_compute.
  - by vm_compute.
  - by eexists.
  - lia.
  - by left.
  - constructor; [|by repeat constructor]. intros vary' ttl'. rewrite other_storable. intros [= <- <-]. split; [by vm_compute|auto].
  - right. split; vm_compute; [lia|discriminate].
Defined.

(** two keys are equal exactly when the paths, the queries, the names of the
    headers and their values are, as long as the paths and values have no bar in them
    and the names none of bar, equals sign and colon; the query may hold any bytes. *)
Theorem cache_key_exact p p' q q' names names' h h' :
  x7c ∉ p -> x7c ∉ p' -> plain_names names h -> plain_names names' h' ->
  build_cache_key p q names h = build_cache_key p' q' names' h' <->
  p = p' /\ data_ q = data_ q' /\ names = names' /\ map (at_ h) names = map (at_ h') names'.
Proof.
  intros Hp Hp' Hn Hn'. split; [by apply key_inj|]. intros (-> & Hq & -> & Hv). rewrite !build_cache_key_spec, Hq. do 2 f_equal.
  unfold vary_part. f_equal. clear -Hv. induction names' as [|n names IH]; cbn [map] in *; [done|]. injection Hv as Hv Hvs.
  by rewrite Hv, IH.
Qed.

Lemma cache_key_exact_witness :
  build_cache_key (B "/a") (mkFields [(B "x|", B "1")] false) [] (mkFields [] true) <>
  build_cache_key (B "/a") (mkFields [(B "x", B "|1")] false) [] (mkFields [] true).
Proof.
  intros H. apply (cache_key_exact (B "/a") (B "/a")) in H as (_ & H & _); [done|apply find_byte_None; reflexivity..|by constructor|by constructor].
Defined.

(** A bar in a path makes two requests one: the second gets the response to the first. *)
Lemma cache_key_collides :
  snd <$> run default_cache_options [Stores 5 (sample_request (B "/a|q:1:x1:y") [] []) (set_text_body (B "first") default_response);
                        Looks 9 (sample_request (B "/a") [(B "x", B "y")] [])] (new_cache default_cache_options) =
  Some [None; Some (set_text_body (B "first") default_response)].
Proof. by vm_compute. Qed.

(** A response that varies with nothing is not found again once another response of
    its path named a header: it is stored under a key that no lookup builds. *)
Lemma unvaried_not_found :
  snd <$> run default_cache_options [Stores 5 (sample_request (B "/a") [] (B "text/html")) sample_response;
                        Stores 6 (sample_request (B "/a") [] (B "text/plain")) (set_text_body (B "plain") default_response);
                        Looks 7 (sample_request (B "/a") [] (B "text/plain"))] (new_cache default_cache_options) =
  Some [None; None; None].
Proof. by vm_compute. Qed.

End RespCacheProps.
