(* ===== verification/StaticFiles.v ===== *)
(** * Static files: paths and the cache of contents

    [src/src/net/static_core.cxx] and [for_each_path_component] of
    [src/src/types_api.cxx]. [StaticPath] is the normalisation of the path that a
    request names below the root of the files: [None] of the outer option is the
    exception of [std::string::erase], which the theorems exclude. [StaticCache] is
    [StaticCacheStore], the cache of file contents: an unordered map from path and
    content encoding to an entry that carries the tick of its last use. The order in
    which the map is iterated is a parameter, of which only that it is an order of the
    entries is used. The mutex makes each operation one step.

    The theorems: a path is normalised to the one that a walk along its components
    reaches, is refused when the walk would leave the root or meets a NUL, and is never
    one that leads upwards; any sequence of calls on the cache answers as a list in
    order of last use does that drops its oldest entries to make room, whatever the
    order of iteration, and the cached bytes never exceed the bound of the last call
    that stored. *)

From Stdlib Require Import ZArith Lia Strings.Byte String.
From stdpp Require Import base tactics option numbers list sorting.
From S2P Require Import Prelude.

(** ** Paths *)

Module StaticPath.

(** The visitor keeps a state and says whether to go on; [None] is an exception. *)
Fixpoint for_each_from {S} (fuel : nat) (path : bytes) (fn : S -> bytes -> option (S * bool)) (pos : nat) (s : S) : option (S * bool) :=
  if (pos <? length path)%nat then
    match fuel with
    | O => None
    | Datatypes.S fuel =>
        let next := sv_find x2f path pos in
        let component := match next with None => drop pos path | Some n => substr path pos (n - pos) end in
        '(s, ok) ← fn s component;
        if negb ok then Some (s, false)
        else match next with None => Some (s, true) | Some n => for_each_from fuel path fn (n + 1) s end
    end
  else Some (s, true).

Definition for_each_path_component {S} (path : bytes) (fn : S -> bytes -> option (S * bool)) (s : S) : option (S * bool) :=
  for_each_from (length path) path fn 0 s.

Definition static_component (result : bytes) (seg : bytes) : option (bytes * bool) :=
  match find_byte x00 seg with
  | Some _ => Some (result, false)
  | None =>
      if bytes_eqb seg (B "..") then
        match result with
        | [] => Some (result, false)
        | _ =>
            match sv_rfind x2f result with
            | None => None
            | Some slash => Some (if (slash =? 0)%nat then [] else take slash result, true)
            end
        end
      else if negb (bytes_eqb seg []) && negb (bytes_eqb seg (B ".")) then Some (result ++ [x2f] ++ seg, true)
      else Some (result, true)
  end.

Definition normalize_static_path (raw : bytes) : option (option bytes) :=
  '(result, ok) ← for_each_path_component raw static_component [];
  Some (if ok : bool then Some result else None).

End StaticPath.

(** ** The walk *)

Module StaticPathOk.
Import StaticPath.

(** What the loop visits: the parts between the slashes, without an empty last one. *)
Fixpoint visited (parts : list bytes) : list bytes :=
  match parts with
  | [] => []
  | [p] => match p with [] => [] | _ => [p] end
  | p :: rest => p :: visited rest
  end.

Fixpoint visit_parts {S} (fn : S -> bytes -> option (S * bool)) (parts : list bytes) (s : S) : option (S * bool) :=
  match parts with
  | [] => Some (s, true)
  | p :: rest => '(s, ok) ← fn s p; if ok : bool then visit_parts fn rest s else Some (s, false)
  end.

Lemma visited_cons p rest : rest <> [] -> visited (p :: rest) = p :: visited rest.
Proof. by destruct rest. Qed.

Lemma for_each_from_spec {S} (fn : S -> bytes -> option (S * bool)) fuel path pos s :
  (length path <= pos + fuel)%nat ->
  for_each_from fuel path fn pos s = visit_parts fn (visited (split_on x2f (drop pos path))) s.
Proof.
  revert pos s. induction fuel as [|fuel IH]; intros pos s Hf; cbn [for_each_from].
  { by rewrite (proj2 (Nat.ltb_ge _ _)), drop_ge by lia. }
  destruct (Nat.ltb_spec pos (length path)) as [Hlt|Hge]; [|by rewrite drop_ge by lia].
  unfold sv_find. rewrite split_on_find. destruct (find_byte x2f (drop pos path)) as [n|]; cbn [fmap option_fmap option_map].
  - rewrite visited_cons by apply split_on_nil. cbn [visit_parts]. unfold substr. replace (pos + n - pos)%nat with n by lia.
    destruct (fn s (take n (drop pos path))) as [[s' ok]|]; [|done]. cbn [mbind option_bind].
    destruct ok; [|done]. cbn [negb]. rewrite IH by lia. rewrite drop_drop. by replace (pos + n + 1)%nat with (pos + Datatypes.S n)%nat by lia.
  - assert (Hne : drop pos path <> []) by (intros H; apply (f_equal length) in H; rewrite length_drop in H; cbn in H; lia).
    destruct (drop pos path) as [|c t]; [done|]. cbn [visited visit_parts]. destruct (fn s (c :: t)) as [[s' ok]|]; [|done].
    cbn [mbind option_bind]. by destruct ok.
Qed.

(** The directories that a path names below the root, or [None] when it leaves the root
    or has a NUL. *)
Fixpoint walk (dirs : list bytes) (parts : list bytes) : option (list bytes) :=
  match parts with
  | [] => Some dirs
  | p :: rest =>
      if decide (x00 ∈ p) then None
      else if decide (p = B "..") then match dirs with [] => None | _ => walk (removelast dirs) rest end
      else if decide (p = [] \/ p = B ".") then walk dirs rest
      else walk (dirs ++ [p]) rest
  end.

Definition render (dirs : list bytes) : bytes := concat (map (cons x2f) dirs).

(** A component that names an entry of a directory. *)
Definition safe (d : bytes) : Prop := d <> [] /\ d <> B "." /\ d <> B ".." /\ x2f ∉ d /\ x00 ∉ d.

Lemma walk_visited parts dirs : walk dirs (visited parts) = walk dirs parts.
Proof.
  revert dirs. induction parts as [|p rest IH]; intros dirs; [done|]. destruct rest as [|q rest]; [by destruct p|].
  rewrite visited_cons by done. cbn [walk] in *. by repeat case_decide; destruct dirs; rewrite ?IH.
Qed.

Lemma walk_safe parts dirs dirs' :
  Forall (fun p => x2f ∉ p) parts -> Forall safe dirs -> walk dirs parts = Some dirs' -> Forall safe dirs'.
Proof.
  intros Hp. revert dirs. induction Hp as [|p parts Hp Hps IH]; intros dirs Hd; cbn [walk]; [by intros [= <-]|].
  case_decide; [done|]. case_decide.
  { destruct dirs as [|d ds] eqn:E; [done|]. rewrite <- E in *. apply IH. rewrite (app_removelast_last [] (l := dirs)) in Hd by by subst.
    by apply Forall_app in Hd as [? _]. }
  case_decide as Hdot; [by apply IH|]. apply IH. apply Forall_app. split; [done|]. apply Forall_singleton. split_and!; try done; naive_solver.
Qed.

Lemma render_snoc dirs d : render (dirs ++ [d]) = render dirs ++ x2f :: d.
Proof. unfold render. rewrite map_app, concat_app. cbn [map concat]. by rewrite app_nil_r. Qed.

Lemma find_nul p : (exists n, find_byte x00 p = Some n) <-> x00 ∈ p.
Proof.
  destruct (find_byte x00 p) as [n|] eqn:E.
  - split; [intros _|by eexists]. apply find_byte_lookup in E. by apply list_elem_of_lookup_2 in E.
  - apply find_byte_None in E. split; [by intros [? ?]|done].
Qed.

Lemma walk_up dirs d rest : walk (dirs ++ [d]) (B ".." :: rest) = walk dirs rest.
Proof.
  cbn [walk]. rewrite decide_False by (intros H; by apply find_nul in H as [? ?]). rewrite decide_True by done.
  rewrite removelast_last. by destruct dirs.
Qed.

Lemma component_up dirs d : x2f ∉ d -> static_component (render (dirs ++ [d])) (B "..") = Some (render dirs, true).
Proof.
  intros Hd. unfold static_component. cbn [find_byte B]. rewrite render_snoc.
  change (find_byte x00 (B "..")) with (@None nat). rewrite bytes_eqb_refl, sv_rfind_app by done.
  rewrite take_app_length. destruct (Nat.eqb_spec (length (render dirs)) 0) as [H%nil_length_inv|_]; [rewrite H; done|].
  by destruct (render dirs).
Qed.

(** One component, when the result is the rendering of the walk so far. *)
Lemma component_ok dirs p rest :
  Forall safe dirs -> x2f ∉ p ->
  (static_component (render dirs) p = Some (render dirs, false) /\ walk dirs (p :: rest) = None) \/
  exists dirs', static_component (render dirs) p = Some (render dirs', true) /\ walk dirs (p :: rest) = walk dirs' rest /\ Forall safe dirs'.
Proof.
  intros Hd Hs. destruct (decide (p = B "..")) as [->|Hup].
  { destruct dirs as [|d dirs _] using rev_ind; [by left|]. right. apply Forall_app in Hd as [Hd Hl]. apply Forall_singleton in Hl as (_ & _ & _ & Hl & _).
    exists dirs. by rewrite component_up, walk_up. }
  unfold static_component. cbn [walk]. rewrite (decide_False (P := p = B "..")), (proj2 (bytes_eqb_ne _ _) Hup) by done.
  destruct (find_byte x00 p) as [n|] eqn:En; [left; rewrite decide_True by (apply find_nul; by eexists); done|]. right.
  apply find_byte_None in En. rewrite (decide_False (P := x00 ∈ p)) by done. unfold bytes_eqb.
  destruct (decide (p = [])) as [->|Hne]; [by exists dirs|]. rewrite bool_decide_eq_false_2 by done.
  destruct (decide (p = B ".")) as [->|Hdot]; [by exists dirs|]. rewrite bool_decide_eq_false_2, decide_False by naive_solver.
  exists (dirs ++ [p]). rewrite render_snoc. split_and!; [done|done|]. apply Forall_app. split; [done|]. by apply Forall_singleton.
Qed.

Lemma visit_parts_walk parts dirs :
  Forall (fun p => x2f ∉ p) parts -> Forall safe dirs ->
  exists r ok, visit_parts static_component parts (render dirs) = Some (r, ok) /\
    (if ok : bool then Some r else None) = render <$> walk dirs parts.
Proof.
  intros Hp. revert dirs. induction Hp as [|p parts Hp Hps IH]; intros dirs Hd; [by eexists _, _|]. cbn [visit_parts].
  destruct (component_ok dirs p parts Hd Hp) as [[-> ->]|(dirs' & -> & -> & Hd')]; cbn [mbind option_bind]; [by eexists _, _|by apply IH].
Qed.

Lemma visited_clean parts : Forall (fun p => x2f ∉ p) parts -> Forall (fun p => x2f ∉ p) (visited parts).
Proof.
  induction 1 as [|p parts Hp Hps IH]; [done|]. destruct parts as [|q parts]; [destruct p; cbn; by auto|].
  rewrite visited_cons by done. by constructor.
Qed.

Lemma normalize_spec raw : normalize_static_path raw = Some (render <$> walk [] (split_on x2f raw)).
Proof.
  unfold normalize_static_path, for_each_path_component. rewrite for_each_from_spec by lia. rewrite drop_0.
  destruct (visit_parts_walk (visited (split_on x2f raw)) []) as (r & ok & Hv & Hw); [apply visited_clean, split_on_clean|done|].
  change (@nil byte) with (render []). rewrite Hv. cbn [mbind option_bind]. by rewrite Hw, walk_visited.
Qed.

Lemma split_on_mid d a t : split_on d (a ++ d :: t) = split_on d a ++ split_on d t.
Proof.
  induction a as [|c a IH]; cbn [app split_on]; [by rewrite byte_eqb_refl|]. rewrite IH. pose proof (split_on_nil d a).
  destruct (c =b d); [done|]. by destruct (split_on d a).
Qed.

Lemma split_render a dirs : Forall safe dirs -> split_on x2f (a ++ render dirs) = split_on x2f a ++ dirs.
Proof.
  induction dirs as [|d dirs IH] using rev_ind; intros Hd; [by rewrite !app_nil_r|].
  apply Forall_app in Hd as [Hd Hl]. apply Forall_singleton in Hl as (_ & _ & _ & Hl & _).
  by rewrite render_snoc, app_assoc, split_on_mid, IH, (split_on_none x2f d), <- app_assoc.
Qed.

Lemma walk_all dirs dirs' : Forall safe dirs' -> walk dirs dirs' = Some (dirs ++ dirs').
Proof.
  intros H. revert dirs. induction H as [|d dirs' (? & ? & ? & ? & ?) H IH]; intros dirs; cbn [walk]; [by rewrite app_nil_r|].
  rewrite !decide_False by naive_solver. by rewrite IH, <- app_assoc.
Qed.

End StaticPathOk.

Module StaticPathProps.
Import StaticPath StaticPathOk.

(** How a path is resolved without links: empty components and dots stay, two dots go
    up, at the top they stay there. *)
Definition resolve (path : bytes) : list bytes :=
  fold_left (fun dirs p =>
    if decide (p = [] \/ p = B ".") then dirs else if decide (p = B "..") then removelast dirs else dirs ++ [p]) (split_on x2f path) [].

Lemma resolve_below root dirs : Forall safe dirs -> resolve (root ++ render dirs) = resolve root ++ dirs.
Proof.
  intros Hd. unfold resolve. rewrite split_render, fold_left_app by done. generalize (fold_left (fun dirs p =>
    if decide (p = [] \/ p = B ".") then dirs else if decide (p = B "..") then removelast dirs else dirs ++ [p]) (split_on x2f root) []).
  induction Hd as [|d dirs (? & ? & ? & ? & ?) Hd IH]; intros l; cbn [fold_left]; [by rewrite app_nil_r|].
  rewrite !decide_False by naive_solver. by rewrite IH, <- app_assoc.
Qed.

(** C14: the normalisation of a path below the root never throws; it answers what a walk
    along the components of the path reaches and refuses the path exactly when the walk
    would leave the root or meets a NUL. A normalised path put behind any root names
    something below that root, and normalising it again changes nothing. *)
Theorem static_path_confined raw :
  normalize_static_path raw = Some (render <$> walk [] (split_on x2f raw)) /\
  forall r, normalize_static_path raw = Some (Some r) ->
    normalize_static_path r = Some (Some r) /\ x00 ∉ r /\
    exists dirs, Forall safe dirs /\ r = render dirs /\ forall root, resolve (root ++ r) = resolve root ++ dirs.
Proof.
  split; [apply normalize_spec|]. intros r. rewrite normalize_spec. destruct (walk [] (split_on x2f raw)) as [dirs|] eqn:E; [|done].
  intros [= <-]. apply walk_safe in E; [|apply split_on_clean|done]. split_and!.
  - rewrite normalize_spec. change (render dirs) with ([] ++ render dirs) at 1. rewrite split_render by done. cbn [split_on app].
    change (walk [] ([] :: dirs)) with (walk [] dirs). by rewrite walk_all.
  - unfold render. clear -E. induction E as [|d dirs (_ & _ & _ & _ & Hn) E IH]; cbn [map concat]; [by intros ?%elem_of_nil|].
    cbn [app]. rewrite elem_of_cons, elem_of_app. naive_solver.
  - exists dirs. split_and!; [done|done|]. intros root. by apply resolve_below.
Qed.

End StaticPathProps.

(** ** The cache of file contents *)

Module StaticCache.

Record StaticCacheEntry := mkEntry {
  body : bytes; mime : bytes; etag : bytes; last_modified : bytes; content_encoding : bytes;
  size : Z; mtime : Z; dev : Z; ino : Z; tick : Z
}.

(** What the cache looks at in [struct stat]. *)
Record stat := mkStat { st_size : Z; st_mtime : Z; st_dev : Z; st_ino : Z }.

(** [StaticCacheKey]: path and content encoding. *)
Definition StaticCacheKey : Type := bytes * bytes.

Record StaticCacheStore := mkStore { entries : list (StaticCacheKey * StaticCacheEntry); total_bytes : Z; ticks : Z }.

Definition new_store : StaticCacheStore := mkStore [] 0 0.

Definition set_tick (t : Z) (e : StaticCacheEntry) : StaticCacheEntry :=
  mkEntry (body e) (mime e) (etag e) (last_modified e) (content_encoding e) (size e) (mtime e) (dev e) (ino e) t.

Definition body_bytes (e : StaticCacheEntry) : Z := Z.of_nat (length (body e)).

Fixpoint find_entry (k : StaticCacheKey) (l : list (StaticCacheKey * StaticCacheEntry)) : option StaticCacheEntry :=
  match l with
  | [] => None
  | (k', e) :: l => if decide (k' = k) then Some e else find_entry k l
  end.

Definition erase_entry (k : StaticCacheKey) (l : list (StaticCacheKey * StaticCacheEntry)) : list (StaticCacheKey * StaticCacheEntry) :=
  filter (fun x => x.1 <> k) l.

Definition same_file (e : StaticCacheEntry) (st : stat) : bool :=
  (size e =? st_size st) && (mtime e =? st_mtime st) && (dev e =? st_dev st) && (ino e =? st_ino st).

(** The entry that [fn] is called with. *)
Definition with_cached (path content_encoding : bytes) (st : stat) (s : StaticCacheStore) : StaticCacheStore * option StaticCacheEntry :=
  let k := (path, content_encoding) in
  match find_entry k (entries s) with
  | None => (s, None)
  | Some e =>
      if negb (same_file e st) then (mkStore (erase_entry k (entries s)) (u64 (total_bytes s - body_bytes e)) (ticks s), None)
      else
        let t := u64 (ticks s + 1) in
        (mkStore (map (fun x => if decide (x.1 = k) then (x.1, set_tick t x.2) else x) (entries s)) (total_bytes s) t, Some (set_tick t e))
  end.

Definition evict (path content_encoding : bytes) (s : StaticCacheStore) : StaticCacheStore :=
  let k := (path, content_encoding) in
  match find_entry k (entries s) with
  | Some e => mkStore (erase_entry k (entries s)) (u64 (total_bytes s - body_bytes e)) (ticks s)
  | None => s
  end.

Definition evict_all_encodings (path : bytes) (s : StaticCacheStore) : StaticCacheStore :=
  evict path (B "gzip") (evict path (B "br") (evict path [] s)).

Definition evict_path_and_sidecars (path : bytes) (s : StaticCacheStore) : StaticCacheStore :=
  evict_all_encodings (path ++ B ".gz") (evict_all_encodings (path ++ B ".br") (evict_all_encodings path s)).

Section Iteration.

(** The order in which the unordered map is iterated. *)
Variable iter : list (StaticCacheKey * StaticCacheEntry) -> list (StaticCacheKey * StaticCacheEntry).

Definition older (v it : StaticCacheKey * StaticCacheEntry) : StaticCacheKey * StaticCacheEntry :=
  if tick it.2 <? tick v.2 then it else v.

Fixpoint shrink (fuel : nat) (entry_bytes max_total_bytes : Z) (s : StaticCacheStore) : option StaticCacheStore :=
  if max_total_bytes <? u64 (total_bytes s + entry_bytes) then
    match iter (entries s) with
    | [] => Some s
    | first :: rest =>
        match fuel with
        | O => None
        | S fuel =>
            let victim := fold_left older rest first in
            shrink fuel entry_bytes max_total_bytes
              (mkStore (erase_entry victim.1 (entries s)) (u64 (total_bytes s - body_bytes victim.2)) (ticks s))
        end
    end
  else Some s.

Definition put (path content_encoding : bytes) (entry : StaticCacheEntry) (max_total_bytes : Z) (s : StaticCacheStore) : option StaticCacheStore :=
  if max_total_bytes <? body_bytes entry then Some s
  else
    let k := (path, content_encoding) in
    let s := evict path content_encoding s in
    s ← shrink (length (entries s)) (body_bytes entry) max_total_bytes s;
    let t := u64 (ticks s + 1) in
    Some (mkStore ((k, set_tick t entry) :: entries s) (u64 (total_bytes s + body_bytes entry)) t).

End Iteration.

End StaticCache.

(** ** The cache as a list in order of last use *)

Module StaticCacheOk.
Import StaticCache.

Abbreviation pairs := (list (StaticCacheKey * StaticCacheEntry)).

Definition untick (x : StaticCacheKey * StaticCacheEntry) : StaticCacheKey * StaticCacheEntry := (x.1, set_tick 0 x.2).

Fixpoint bytes_of (l : pairs) : Z := match l with [] => 0 | x :: l => body_bytes x.2 + bytes_of l end.

(** The reference: the oldest entry first. *)
Definition ref_with (k : StaticCacheKey) (st : stat) (l : pairs) : pairs * option StaticCacheEntry :=
  match find_entry k l with
  | None => (l, None)
  | Some e => if same_file e st then (erase_entry k l ++ [(k, e)], Some e) else (erase_entry k l, None)
  end.

Fixpoint ref_shrink (entry_bytes max_total_bytes : Z) (l : pairs) : pairs :=
  match l with
  | [] => []
  | _ :: rest => if max_total_bytes <? bytes_of l + entry_bytes then ref_shrink entry_bytes max_total_bytes rest else l
  end.

Definition ref_put (k : StaticCacheKey) (e : StaticCacheEntry) (m : Z) (l : pairs) : pairs :=
  if m <? body_bytes e then l else ref_shrink (body_bytes e) m (erase_entry k l) ++ [(k, set_tick 0 e)].

(** The store holds the entries of the list, the ticks in the list's order. *)
Definition ticked (s : StaticCacheStore) (lt : pairs) : Prop :=
  entries s ≡ₚ lt /\ StronglySorted (fun a b => tick a.2 < tick b.2) lt /\ Forall (fun x => tick x.2 <= ticks s) lt /\
  NoDup lt.*1 /\ total_bytes s = bytes_of lt /\ bytes_of lt < 2 ^ 63.

Definition models (s : StaticCacheStore) (l : pairs) : Prop := exists lt, ticked s lt /\ l = map untick lt.

(** *** Lists *)

Lemma bytes_of_nonneg l : 0 <= bytes_of l.
Proof. induction l as [|x l IH]; cbn [bytes_of]; unfold body_bytes; lia. Qed.

Lemma bytes_of_app a b : bytes_of (a ++ b) = bytes_of a + bytes_of b.
Proof. induction a as [|x a IH]; cbn [bytes_of app]; lia. Qed.

Lemma bytes_of_untick l : bytes_of (map untick l) = bytes_of l.
Proof. induction l as [|x l IH]; cbn [bytes_of map]; [done|]. by rewrite IH. Qed.

Lemma find_entry_elem k e l : NoDup l.*1 -> find_entry k l = Some e <-> (k, e) ∈ l.
Proof.
  induction l as [|[k' e'] l IH]; cbn [find_entry fmap list_fmap fst]; [by split; [|intros ?%elem_of_nil]|].
  intros [Hk Hn]%NoDup_cons. rewrite elem_of_cons. destruct (decide (k' = k)) as [->|Hne].
  - split; [intros [= ->]; by left|]. intros [[= ->]|Hin]; [done|]. destruct Hk. by apply (list_elem_of_fmap_2 fst) in Hin.
  - rewrite IH by done. split; [by right|]. intros [[= -> ->]|]; done.
Qed.

Lemma find_entry_perm k l l' : l ≡ₚ l' -> NoDup l'.*1 -> find_entry k l = find_entry k l'.
Proof.
  intros Hp Hn. assert (Hn' : NoDup l.*1) by (by rewrite Hp).
  apply option_eq. intros e. rewrite !find_entry_elem by done. by rewrite Hp.
Qed.

Lemma find_untick k l : find_entry k (map untick l) = set_tick 0 <$> find_entry k l.
Proof. induction l as [|[k' e] l IH]; cbn [find_entry map untick fst snd]; [done|]. by destruct (decide (k' = k)). Qed.

Lemma erase_untick k l : erase_entry k (map untick l) = map untick (erase_entry k l).
Proof.
  unfold erase_entry. induction l as [|x l IH]; cbn [map]; [done|]. rewrite !filter_cons. cbn [untick fst].
  destruct (decide (x.1 <> k)); cbn [map]; by rewrite IH.
Qed.

Lemma erase_sorted (R : relation (StaticCacheKey * StaticCacheEntry)) k l : StronglySorted R l -> StronglySorted R (erase_entry k l).
Proof.
  unfold erase_entry. induction 1 as [|x l Hs IH Hx]; [constructor|]. rewrite filter_cons. case_decide; [|done].
  constructor; [done|]. apply Forall_forall. intros y [_ Hy]%list_elem_of_filter. by apply (proj1 (Forall_forall _ _) Hx).
Qed.

Lemma erase_nodup k l : NoDup l.*1 -> NoDup (erase_entry k l).*1 /\ k ∉ (erase_entry k l).*1.
Proof.
  intros Hn. split.
  - unfold erase_entry. induction l as [|x l IH]; [constructor|]. cbn [fmap list_fmap] in Hn. apply NoDup_cons in Hn as [Hx Hn].
    rewrite filter_cons. case_decide; [|by apply IH]. cbn [fmap list_fmap]. apply NoDup_cons. split; [|by apply IH].
    intros (y & Hy & [_ Hin]%list_elem_of_filter)%list_elem_of_fmap. apply Hx. rewrite Hy. by apply list_elem_of_fmap_2.
  - intros ([k' e] & -> & [Hne _]%list_elem_of_filter)%list_elem_of_fmap. done.
Qed.

Lemma erase_absent k l : k ∉ l.*1 -> erase_entry k l = l.
Proof.
  unfold erase_entry. induction l as [|x l IH]; cbn [fmap list_fmap]; [done|]. intros [Hne Hk]%not_elem_of_cons.
  rewrite filter_cons, decide_True by (intros H; by apply Hne). by rewrite IH.
Qed.

Lemma bytes_erase k l : NoDup l.*1 -> bytes_of (erase_entry k l) = bytes_of l - match find_entry k l with Some e => body_bytes e | None => 0 end.
Proof.
  unfold erase_entry. induction l as [|[k' e] l IH]; cbn [fmap list_fmap bytes_of find_entry fst snd]; [done|]. intros [Hk Hn]%NoDup_cons.
  rewrite filter_cons. cbn [fst]. destruct (decide (k' = k)) as [->|Hne].
  - rewrite decide_False by (intros H; by apply H). fold (erase_entry k l). rewrite erase_absent by done. lia.
  - rewrite decide_True by done. cbn [bytes_of snd]. rewrite IH by done. lia.
Qed.

Lemma sorted_snoc (l : pairs) x :
  StronglySorted (fun a b => tick a.2 < tick b.2) l -> Forall (fun y => tick y.2 < tick x.2) l ->
  StronglySorted (fun a b => tick a.2 < tick b.2) (l ++ [x]).
Proof.
  induction 1 as [|y l Hs IH Hy]; cbn [app]; [by repeat constructor|]. intros [Hx Hl]%Forall_cons.
  constructor; [by apply IH|]. apply Forall_app. split; [done|]. by apply Forall_singleton.
Qed.

(** The loop for the victim finds an entry with the smallest tick. *)
Lemma older_min rest first :
  fold_left older rest first ∈ first :: rest /\ Forall (fun y => tick (fold_left older rest first).2 <= tick y.2) (first :: rest).
Proof.
  revert first. induction rest as [|it rest IH]; intros first; cbn [fold_left].
  { split; [by left|]. apply Forall_singleton. lia. }
  destruct (IH (older first it)) as [Hin Hall]. apply Forall_cons in Hall as [Hhd Hall]. unfold older in *.
  destruct (Z.ltb_spec (tick it.2) (tick first.2)) as [Hlt|Hge].
  - split; [by right|]. constructor; [lia|]. by constructor.
  - split; [rewrite !elem_of_cons in *; tauto|]. constructor; [done|]. constructor; [lia|done].
Qed.

Lemma update_perm k t e l : NoDup l.*1 -> (k, e) ∈ l ->
  map (fun x => if decide (x.1 = k) then (x.1, set_tick t x.2) else x) l ≡ₚ erase_entry k l ++ [(k, set_tick t e)].
Proof.
  unfold erase_entry. induction l as [|[k' e'] l IH]; cbn [fmap list_fmap fst map snd]; [by intros _ ?%elem_of_nil|].
  intros [Hk Hn]%NoDup_cons. rewrite filter_cons. cbn [fst]. intros [[= <- <-]|Hin]%elem_of_cons.
  - rewrite decide_True by done. rewrite decide_False by (intros H; by apply H). fold (erase_entry k l). rewrite erase_absent by done.
    rewrite <- Permutation_cons_append. apply Permutation_skip. clear -Hk.
    induction l as [|x l IH]; [done|]. cbn [map fmap list_fmap] in *. apply not_elem_of_cons in Hk as [Hx Hk].
    rewrite decide_False by (intros H; by apply Hx). by rewrite IH.
  - assert (k' <> k) by (intros ->; apply Hk; by apply (list_elem_of_fmap_2 fst) in Hin).
    rewrite decide_False by done. rewrite decide_True by done. cbn [app]. by rewrite IH.
Qed.

(** *** Operations *)

Lemma ticked_erase s lt k e :
  ticked s lt -> find_entry k lt = Some e ->
  ticked (mkStore (erase_entry k (entries s)) (u64 (total_bytes s - body_bytes e)) (ticks s)) (erase_entry k lt).
Proof.
  intros (Hp & Hs & Ht & Hn & Hb & Hlt) Hf. pose proof (bytes_erase k lt Hn) as He. rewrite Hf in He.
  pose proof (bytes_of_nonneg (erase_entry k lt)). assert (0 <= body_bytes e) by (unfold body_bytes; lia).
  split_and!; cbn.
  - unfold erase_entry. by rewrite Hp.
  - by apply erase_sorted.
  - apply Forall_forall. intros x [_ Hx]%list_elem_of_filter. by apply (proj1 (Forall_forall _ _) Ht).
  - by apply erase_nodup.
  - rewrite Hb, u64_small by lia. lia.
  - lia.
Qed.

Lemma evict_ticked s lt p c : ticked s lt -> ticked (evict p c s) (erase_entry (p, c) lt) /\ ticks (evict p c s) = ticks s.
Proof.
  intros H. pose proof H as (Hp & _ & _ & Hn & _). unfold evict. rewrite (find_entry_perm _ _ _ Hp Hn).
  destruct (find_entry (p, c) lt) as [e|] eqn:E; [split; [by apply ticked_erase|done]|].
  rewrite erase_absent; [done|]. intros ([k e] & Hk & Hin)%list_elem_of_fmap. cbn in Hk. subst k. apply find_entry_elem in Hin; [|done]. congruence.
Qed.

Lemma evict_ok s l p c : models s l -> models (evict p c s) (erase_entry (p, c) l) /\ ticks (evict p c s) = ticks s.
Proof.
  intros (lt & H & ->). destruct (evict_ticked s lt p c H) as [H' Ht]. split; [|done]. exists (erase_entry (p, c) lt).
  split; [done|apply erase_untick].
Qed.

(** An entry with the next tick is the newest. *)
Lemma ticked_snoc es total t lt k e :
  es ≡ₚ lt ++ [(k, set_tick t e)] -> StronglySorted (fun a b => tick a.2 < tick b.2) lt -> Forall (fun x => tick x.2 < t) lt ->
  NoDup lt.*1 -> k ∉ lt.*1 -> total = bytes_of lt + body_bytes e -> total < 2 ^ 63 ->
  ticked (mkStore es total t) (lt ++ [(k, set_tick t e)]).
Proof.
  intros Hp Hs Ht Hn Hk -> Hlt. split_and!; cbn; [done|by apply sorted_snoc| | | |].
  - apply Forall_app. split; [|apply Forall_singleton; cbn; lia]. eapply Forall_impl; [exact Ht|]. cbn. lia.
  - rewrite fmap_app. apply NoDup_app. split; [done|]. split; [|apply NoDup_singleton].
    intros x Hx ->%list_elem_of_singleton. done.
  - rewrite bytes_of_app. cbn [bytes_of snd]. unfold body_bytes. cbn. lia.
  - rewrite bytes_of_app. cbn [bytes_of snd]. unfold body_bytes in *. cbn. lia.
Qed.

Lemma with_ok s l p c st :
  models s l -> 0 <= ticks s < 2 ^ 64 - 1 ->
  models (with_cached p c st s).1 (ref_with (p, c) st l).1 /\
  set_tick 0 <$> (with_cached p c st s).2 = (ref_with (p, c) st l).2 /\
  ticks s <= ticks (with_cached p c st s).1 <= ticks s + 1.
Proof.
  intros (lt & H & ->) Htk. pose proof H as (Hp & Hs & Ht & Hn & Hb & Hlt). unfold with_cached, ref_with.
  rewrite (find_entry_perm _ _ _ Hp Hn), find_untick. destruct (find_entry (p, c) lt) as [e|] eqn:E; cbn [fmap option_fmap option_map].
  2: { split_and!; [by exists lt|done|cbn; lia|cbn; lia]. }
  change (same_file (set_tick 0 e) st) with (same_file e st). rewrite erase_untick. destruct (same_file e st); cbn [negb fst snd].
  - rewrite u64_small by lia. split_and!; cbn [ticks]; [|done|lia|lia].
    exists (erase_entry (p, c) lt ++ [((p, c), set_tick (ticks s + 1) e)]). split; [|by rewrite map_app].
    destruct (erase_nodup (p, c) lt Hn) as [Hn' Hk']. pose proof (bytes_erase (p, c) lt Hn) as Hbe. rewrite E in Hbe.
    apply find_entry_elem in E; [|done]. apply ticked_snoc; [|by apply erase_sorted| |done|done|lia|lia].
    + rewrite (update_perm (p, c) (ticks s + 1) e (entries s)); [unfold erase_entry; by rewrite Hp|by rewrite Hp|by rewrite Hp].
    + apply Forall_forall. intros x [_ Hx]%list_elem_of_filter. pose proof (proj1 (Forall_forall _ _) Ht x Hx). cbn in *. lia.
  - split_and!; cbn [ticks]; [|done|lia|lia]. exists (erase_entry (p, c) lt). split; [by apply ticked_erase|done].
Qed.

Section Iteration.
Context (iter : pairs -> pairs) (iter_perm : forall l, iter l ≡ₚ l).

(** The victim is the head of the list. *)
Lemma victim_head s x lt first rest :
  ticked s (x :: lt) -> iter (entries s) = first :: rest -> fold_left older rest first = x.
Proof.
  intros (Hp & Hs & _) Hi. assert (Hall : first :: rest ≡ₚ x :: lt) by (by rewrite <- Hi, iter_perm).
  destruct (older_min rest first) as [Hin Hmin]. rewrite Hall in Hin, Hmin. apply StronglySorted_inv in Hs as [_ Hx].
  apply elem_of_cons in Hin as [Hv|Hin]; [done|]. apply Forall_cons in Hmin as [Hmin _].
  pose proof (proj1 (Forall_forall _ _) Hx _ Hin). cbn in *. lia.
Qed.

Lemma shrink_ok fuel eb m s lt :
  ticked s lt -> (length lt <= fuel)%nat -> 0 <= eb <= m -> m < 2 ^ 63 ->
  exists s' lt', shrink iter fuel eb m s = Some s' /\ ticked s' lt' /\ ticks s' = ticks s /\
    map untick lt' = ref_shrink eb m (map untick lt) /\ bytes_of lt' + eb <= m /\ forall k, k ∈ lt'.*1 -> k ∈ lt.*1.
Proof.
  revert s lt. induction fuel as [|fuel IH]; intros s lt H Hf Heb Hm; pose proof H as (Hp & Hs & Ht & Hn & Hb & Hlt);
    pose proof (bytes_of_nonneg lt) as Hpos; cbn [shrink]; rewrite Hb, u64_small by lia.
  { destruct lt; [|cbn in Hf; lia]. rewrite (proj2 (Z.ltb_ge _ _)) by (cbn [bytes_of]; lia). exists s, []. cbn [bytes_of]. split_and!; done || lia. }
  destruct lt as [|x lt].
  { rewrite (proj2 (Z.ltb_ge _ _)) by (cbn [bytes_of]; lia). exists s, []. cbn [bytes_of]. split_and!; done || lia. }
  change (map untick (x :: lt)) with (untick x :: map untick lt). cbn [ref_shrink].
  change (untick x :: map untick lt) with (map untick (x :: lt)). rewrite bytes_of_untick.
  destruct (Z.ltb_spec m (bytes_of (x :: lt) + eb)) as [Hbig|Hfit].
  2: { exists s, (x :: lt). by split_and!. }
  destruct (iter (entries s)) as [|first rest] eqn:Hi.
  { exfalso. pose proof (iter_perm (entries s)) as Hnil. rewrite Hi, Hp in Hnil. by apply Permutation_nil_cons in Hnil. }
  rewrite (victim_head _ _ _ _ _ H Hi). assert (Hfx : find_entry x.1 (x :: lt) = Some x.2).
  { destruct x as [k e]. cbn [find_entry fst snd]. by rewrite decide_True. }
  pose proof (ticked_erase _ _ _ _ H Hfx) as H'. rewrite Hb in H'.
  cbn [fmap list_fmap] in Hn. apply NoDup_cons in Hn as [Hx Hn].
  assert (He : erase_entry x.1 (x :: lt) = lt).
  { unfold erase_entry. rewrite filter_cons, decide_False by (intros Hc; by apply Hc). by apply erase_absent. }
  rewrite He in H'. destruct (IH _ _ H') as (s' & lt' & Hr & Hm' & Htk & Hu & Hb' & Hk); [cbn in Hf; lia|done|done|].
  exists s', lt'. split_and!; try done. intros k Hin%Hk. cbn [fmap list_fmap]. rewrite elem_of_cons. by right.
Qed.

Lemma static_put_ok s l p c e m :
  models s l -> 0 <= ticks s < 2 ^ 64 - 1 -> m < 2 ^ 63 ->
  exists s', put iter p c e m s = Some s' /\ models s' (ref_put (p, c) e m l) /\ ticks s <= ticks s' <= ticks s + 1.
Proof.
  intros (lt & H & ->) Htk Hm. unfold put, ref_put. destruct (Z.ltb_spec m (body_bytes e)) as [Hbig|Hfit].
  { exists s. split_and!; [done|by exists lt|lia|lia]. }
  assert (Hpos : 0 <= body_bytes e) by (unfold body_bytes; lia). pose proof H as (_ & _ & _ & Hn & _).
  destruct (evict_ticked s lt p c H) as [H1 Ht1]. set (s1 := evict p c s) in *. rewrite erase_untick.
  destruct (shrink_ok (length (entries s1)) (body_bytes e) m s1 _ H1) as (s2 & lt2 & -> & H2 & Ht2 & Hu & Hb2 & Hk); [|done|done|].
  { destruct H1 as (Hp1 & _). by rewrite Hp1. }
  cbn [mbind option_bind]. rewrite Ht2, Ht1, u64_small by lia. eexists. split; [done|]. split; [|cbn; lia].
  destruct H2 as (Hp & Hs & Ht & Hn2 & Hb & Hlt). pose proof (bytes_of_nonneg lt2).
  exists (lt2 ++ [((p, c), set_tick (ticks s + 1) e)]). split; [|by rewrite map_app, Hu].
  rewrite Hb, u64_small by lia. apply ticked_snoc; [|done| |done| |done|lia].
  - rewrite Hp. by rewrite Permutation_cons_append.
  - eapply Forall_impl; [exact Ht|]. cbn. lia.
  - intros Hin%Hk. by apply (erase_nodup (p, c) lt Hn) in Hin.
Qed.

End Iteration.

End StaticCacheOk.

Module StaticCacheProps.
Import StaticCache StaticCacheOk.

Inductive call :=
  | Get (path content_encoding : bytes) (st : stat)
  | Put (path content_encoding : bytes) (entry : StaticCacheEntry) (max_total_bytes : Z)
  | Evict (path : bytes).

(** The entry a call answers with. *)
Definition do_call (iter : pairs -> pairs) (c : call) (s : StaticCacheStore) : option (StaticCacheStore * option StaticCacheEntry) :=
  match c with
  | Get p ce st => Some (with_cached p ce st s)
  | Put p ce e m => s ← put iter p ce e m s; Some (s, None)
  | Evict p => Some (evict_path_and_sidecars p s, None)
  end.

Fixpoint do_calls (iter : pairs -> pairs) (cs : list call) (s : StaticCacheStore) : option (StaticCacheStore * list (option StaticCacheEntry)) :=
  match cs with
  | [] => Some (s, [])
  | c :: cs => '(s, out) ← do_call iter c s; '(s, outs) ← do_calls iter cs s; Some (s, out :: outs)
  end.

(** The reference drops the nine entries of a path and its compressed siblings. *)
Definition siblings (p : bytes) : list StaticCacheKey :=
  [(p, []); (p, B "br"); (p, B "gzip"); (p ++ B ".br", []); (p ++ B ".br", B "br"); (p ++ B ".br", B "gzip");
   (p ++ B ".gz", []); (p ++ B ".gz", B "br"); (p ++ B ".gz", B "gzip")].

Definition ref_call (c : call) (l : pairs) : pairs * option StaticCacheEntry :=
  match c with
  | Get p ce st => ref_with (p, ce) st l
  | Put p ce e m => (ref_put (p, ce) e m l, None)
  | Evict p => (fold_left (fun l k => erase_entry k l) (siblings p) l, None)
  end.

Fixpoint ref_calls (cs : list call) (l : pairs) : pairs * list (option StaticCacheEntry) :=
  match cs with
  | [] => (l, [])
  | c :: cs => let '(l, out) := ref_call c l in let '(l, outs) := ref_calls cs l in (l, out :: outs)
  end.

Definition bounded_by (m : Z) (c : call) : Prop := match c with Put _ _ _ m' => m' <= m | _ => True end.

Lemma ref_call_bytes m c l : 0 <= m -> bounded_by m c -> bytes_of l <= m -> NoDup l.*1 -> bytes_of (ref_call c l).1 <= m.
Proof.
  intros Hm Hc Hl Hn. assert (Her : forall k l, bytes_of (erase_entry k l) <= bytes_of l).
  { intros k l'. unfold erase_entry. induction l' as [|x l' IH]; [done|]. rewrite filter_cons. cbn [bytes_of].
    pose proof (Nat2Z.is_nonneg (length (body x.2))). unfold body_bytes in *. case_decide; cbn [bytes_of]; unfold body_bytes; lia. }
  destruct c as [p ce st|p ce e m'|p]; cbn [ref_call fst].
  - unfold ref_with. pose proof (bytes_erase (p, ce) l Hn) as Hb. destruct (find_entry (p, ce) l) as [e|]; [|done].
    destruct (same_file e st); cbn [fst]; [rewrite bytes_of_app; cbn [bytes_of snd]; lia|]. specialize (Her (p, ce) l). lia.
  - unfold ref_put. cbn in Hc. destruct (Z.ltb_spec m' (body_bytes e)) as [|Hfit]; [done|]. rewrite bytes_of_app. cbn [bytes_of snd].
    change (body_bytes (set_tick 0 e)) with (body_bytes e).
    assert (Hsh : forall l, bytes_of (ref_shrink (body_bytes e) m' l) + body_bytes e <= m'); [|specialize (Hsh (erase_entry (p, ce) l)); lia].
    induction l0 as [|x l0 IH]; cbn [ref_shrink]; [cbn [bytes_of]; lia|]. destruct (Z.ltb_spec m' (bytes_of (x :: l0) + body_bytes e)); [done|lia].
  - generalize (siblings p). intros ks. revert l Hl Hn. induction ks as [|k ks IH]; intros l Hl Hn; cbn [fold_left]; [done|].
    apply IH; [specialize (Her k l); lia|by apply erase_nodup].
Qed.

Lemma models_nodup s l : models s l -> NoDup l.*1 /\ total_bytes s = bytes_of l.
Proof.
  intros (lt & (_ & _ & _ & Hn & Hb & _) & ->). rewrite bytes_of_untick. split; [|done].
  replace ((map untick lt).*1) with (lt.*1); [done|]. clear. induction lt as [|x lt IH]; [done|]. cbn. by f_equal.
Qed.

Lemma evict_path_ok s l p :
  models s l -> models (evict_path_and_sidecars p s) (fold_left (fun l k => erase_entry k l) (siblings p) l) /\
    ticks (evict_path_and_sidecars p s) = ticks s.
Proof.
  intros H. unfold evict_path_and_sidecars, evict_all_encodings, siblings. cbn [fold_left].
  do 9 (match goal with |- context [evict ?a ?b s] =>
    destruct (evict_ok s _ a b H) as [H1 Ht1]; rewrite <- Ht1; clear Ht1; revert H1; clear H; generalize (evict a b s); clear s; intros s H end).
  done.
Qed.

Lemma call_ok iter c s l :
  (forall l, iter l ≡ₚ l) -> models s l -> 0 <= ticks s < 2 ^ 64 - 1 -> bounded_by (2 ^ 63 - 1) c ->
  exists s' out, do_call iter c s = Some (s', out) /\ models s' (ref_call c l).1 /\ set_tick 0 <$> out = (ref_call c l).2 /\
    ticks s <= ticks s' <= ticks s + 1.
Proof.
  intros Hi H Ht Hc. destruct c as [p ce st|p ce e m|p]; cbn [do_call ref_call].
  - pose proof (with_ok s l p ce st H Ht) as Hw. destruct (with_cached p ce st s) as [s' out]. by eexists _, _.
  - cbn in Hc. destruct (static_put_ok iter Hi s l p ce e m H Ht) as (s' & -> & H'); [lia|]. cbn [mbind option_bind]. eexists _, _.
    split; [done|]. cbn [fst snd]. naive_solver.
  - destruct (evict_path_ok s l p H) as [H' Htk]. eexists _, _. split; [done|]. cbn [fst snd]. rewrite Htk. split_and!; done || lia.
Qed.

Lemma calls_ok iter m cs s l :
  (forall l, iter l ≡ₚ l) -> 0 <= m < 2 ^ 63 -> models s l -> bytes_of l <= m -> 0 <= ticks s -> ticks s + Z.of_nat (length cs) < 2 ^ 64 ->
  Forall (bounded_by m) cs ->
  exists s' outs, do_calls iter cs s = Some (s', outs) /\ models s' (ref_calls cs l).1 /\ map (fmap (set_tick 0)) outs = (ref_calls cs l).2 /\
    bytes_of (ref_calls cs l).1 <= m.
Proof.
  intros Hi Hm. revert s l. induction cs as [|c cs IH]; intros s l H Hb Ht Hlen Hf; cbn [do_calls ref_calls]; [by eexists _, _|].
  cbn [length] in Hlen. apply Forall_cons in Hf as [Hc Hf].
  destruct (call_ok iter c s l Hi H) as (s1 & out & -> & H1 & Ho & Ht1); [lia|destruct c; cbn in *; done || lia|].
  pose proof (ref_call_bytes m c l ltac:(lia) Hc Hb (proj1 (models_nodup _ _ H))) as Hb1. cbn [mbind option_bind].
  destruct (ref_call c l) as [l1 out1]. cbn [fst snd] in *.
  destruct (IH s1 l1 H1 Hb1 ltac:(lia) ltac:(lia) Hf) as (s' & outs & -> & H' & Hos & Hb'). cbn [mbind option_bind].
  destruct (ref_calls cs l1) as [l' outs']. cbn [fst snd map] in *. eexists _, _. split; [done|]. cbn [map]. by rewrite Ho, Hos.
Qed.

(** C20: any sequence of calls on the cache of static files, in whatever order the
    unordered map is iterated, answers what a list in order of last use answers that
    drops its oldest entries to make room (the ticks apart), and
    that answers an entry only for a file of its size, time, device and inode. The bytes the cache counts are those of its bodies,
    and never more than the largest bound it was called with. *)
Theorem static_cache_refines iter m cs :
  (forall l, iter l ≡ₚ l) -> 0 <= m < 2 ^ 63 -> Forall (bounded_by m) cs -> Z.of_nat (length cs) < 2 ^ 64 ->
  exists s outs, do_calls iter cs new_store = Some (s, outs) /\ map (fmap (set_tick 0)) outs = (ref_calls cs []).2 /\
    map untick (entries s) ≡ₚ (ref_calls cs []).1 /\ total_bytes s = bytes_of (entries s) /\ total_bytes s <= m.
Proof.
  intros Hi Hm Hf Hlen. assert (H0 : models new_store []) by (exists []; split; [by split_and!; cbn; try constructor|done]).
  destruct (calls_ok iter m cs new_store [] Hi Hm H0) as (s & outs & Hr & H & Ho & Hb); [cbn; lia|done|cbn; lia|done|].
  destruct (models_nodup _ _ H) as [_ Htot]. exists s, outs. split_and!; [done|done| | |lia].
  - destruct H as (lt & (Hp & _) & ->). by rewrite Hp.
  - destruct H as (lt & (Hp & _ & _ & _ & -> & _) & _). clear -Hp. induction Hp; cbn [bytes_of]; lia.
Qed.

(** Three files of three bytes in a cache of six: the one not used goes, and a file that
    changed is not answered. *)
Definition sample_file (text : bytes) : StaticCacheEntry := mkEntry text (B "text/plain") [] [] [] 3 100 1 7 0.

Definition sample_calls : list call :=
  [Put (B "/a") [] (sample_file (B "aaa")) 6; Put (B "/b") [] (sample_file (B "bbb")) 6; Get (B "/a") [] (mkStat 3 100 1 7);
   Put (B "/c") [] (sample_file (B "ccc")) 6; Get (B "/b") [] (mkStat 3 100 1 7); Get (B "/a") [] (mkStat 3 100 1 7);
   Get (B "/c") [] (mkStat 3 101 1 7)].

Lemma static_cache_refines_witness :
  exists s outs, do_calls (@rev _) sample_calls new_store = Some (s, outs) /\
    map (fmap (set_tick 0)) outs = [None; None; Some (sample_file (B "aaa")); None; None; Some (sample_file (B "aaa")); None] /\
    total_bytes s <= 6.
Proof.
  destruct (static_cache_refines (@rev _) 6 sample_calls) as (s & outs & Hr & Ho & _ & _ & Hb).
  - intros l. symmetry. apply Permutation_rev.
  - lia.
  - repeat constructor; cbn; lia.
  - cbn. lia.
  - exists s, outs. split_and!; [done| |done]. rewrite Ho. by vm_compute.
Defined.

End StaticCacheProps.
