(* ===== verification/Dns.v ===== *)
(** * The DNS resolver

    [src/src/net/dns/dns.cxx] and the parts of [src/src/net/dns/dns_impl.cxx]
    that do not run on the ring: host names, the wire codec, the configuration
    files, the checks of a response, the receive loop of a UDP query, the flow
    over nameservers and search names to endpoints, and the cache. A [DnsError] is its kind; its message is
    not modelled. The C library's [inet_pton] is a parameter, an address is its
    network-order bytes, and a socket address whose length does not fit its
    family is [NoAddr]. File contents are arguments.

    [decode_name] needs fuel because a pointer moves the cursor back; the fuel is
    the product of the pointers it follows at most and the length of the message.

    The theorems: decoding a name always ends, in bounds, with the name that the
    labels and backward pointers spell; a query for a valid host name decodes to
    the question that was asked; every endpoint a lookup returns is in a response to
    the question and identifier sent, from the nameserver asked; when the nameserver
    answers, its addresses are returned, whatever well-formed datagrams of others come
    before, while a malformed one ends the query and a timeout gives an empty success;
    the cache answers with the last result stored, until it expires. *)

From Stdlib Require Import ZArith Lia Strings.Byte String.
From stdpp Require Import base tactics option numbers list.
From S2P Require Import Prelude.
From S2P Require Import Codec.
From S2P Require Import LruMap.

(** ** Names and addresses *)

Module DnsName.

Inductive AddressFamily := v4 | v6.

Inductive DnsErrorKind :=
| timeout | nxdomain | servfail | refused | formerr | malformed | no_servers | network | truncated | cancelled
| invalid_hostname | no_ring | cannot_block_on_owned_ring | not_implemented.

(** [sockaddr_storage] with its length, as far as it is read. *)
Inductive sockaddr :=
| NoAddr
| Sin (addr : bytes) (port : Z)
| Sin6 (addr : bytes) (port : Z) (scope_id : Z).

Record Endpoint := mkEndpoint { addr : sockaddr; ep_family : AddressFamily }.
Record NameserverEndpoint := mkNs { ns_addr : sockaddr; ns_port : Z }.

(** The digits after a colon, as the two loops of [parse_nameserver] read them. *)
Fixpoint port_loop (rest : bytes) (parsed : Z) : option Z :=
  match rest with
  | [] => Some parsed
  | c :: rest =>
      if negb (is_digit c) then None
      else
        let parsed := u32 (parsed * 10 + digit_val c) in
        if 0xFFFF <? parsed then None else port_loop rest parsed
  end.

Definition read_port (rest : bytes) : option Z := match rest with [] => None | _ => port_loop rest 0 end.

Definition count_byte (c : byte) (s : bytes) : nat := length (filter (fun x => x = c) s).

Section Parse.
Context (inet_pton : AddressFamily -> bytes -> option bytes).

(** [host.c_str()] ends at the first NUL. *)
Definition c_str (s : bytes) : bytes := match find_byte x00 s with Some n => take n s | None => s end.

(** The host part and the port of a literal; [None] is an error. *)
Definition split_nameserver (literal : bytes) : option (bytes * Z) :=
  match literal with
  | [] => None
  | x5b :: _ =>
      close ← find_byte x5d literal;
      let host := substr literal 1 (close - 1) in
      match drop (close + 1) literal with
      | [] => Some (host, 53)
      | c :: rest => if negb (c =b x3a) then None else port ← read_port rest; Some (host, port)
      end
  | _ =>
      let colons := count_byte x3a literal in
      let is_ipv6 := (2 <=? colons)%nat || match find_sub (B "::") literal with Some _ => true | None => false end in
      if negb is_ipv6 && (colons =? 1)%nat then
        colon ← find_byte x3a literal;
        port ← read_port (drop (colon + 1) literal);
        Some (take colon literal, port)
      else Some (literal, 53)
  end.

Definition parse_nameserver (literal : bytes) : option NameserverEndpoint :=
  '(host, port) ← split_nameserver literal;
  match inet_pton v4 (c_str host) with
  | Some a => Some (mkNs (Sin a port) port)
  | None =>
      match inet_pton v6 (c_str host) with
      | Some a => Some (mkNs (Sin6 a port 0) port)
      | None => None
      end
  end.

Definition try_parse_ip_literal (host : bytes) (port : Z) : option Endpoint :=
  if (64 <=? length host)%nat then None
  else
    match inet_pton v4 (c_str host) with
    | Some a => Some (mkEndpoint (Sin a port) v4)
    | None =>
        match inet_pton v6 (c_str host) with
        | Some a => Some (mkEndpoint (Sin6 a port 0) v6)
        | None => None
        end
    end.

End Parse.

Fixpoint label_loop (s : bytes) (label_len : nat) : bool :=
  match s with
  | [] => (0 <? label_len)%nat
  | c :: rest =>
      if c =b x00 then false
      else if c =b x2e then
        if (label_len =? 0)%nat then false else label_loop rest 0
      else
        let label_len := S label_len in
        if (63 <? label_len)%nat then false else label_loop rest label_len
  end.

(** Without the final dot, if there is one. *)
Definition strip_root (name : bytes) : bytes :=
  match last name with Some x2e => take (length name - 1) name | _ => name end.

Definition is_valid_hostname (name : bytes) : bool :=
  match name with
  | [] => false
  | _ =>
      let trimmed := strip_root name in
      match trimmed with
      | [] => false
      | _ => if (253 <? length trimmed)%nat then false else label_loop trimmed 0
      end
  end.

End DnsName.

(** ** The wire codec *)

Module DnsCodec.
Import DnsName.

(** A result, an error that the code throws, or no fuel. *)
Definition M (A : Type) : Type := option (expected A DnsErrorKind).
Definition ret {A} (a : A) : M A := Some (Ok a).
Definition throw {A} (e : DnsErrorKind) : M A := Some (Unexpected e).
Definition bind {A C} (m : M A) (f : A -> M C) : M C :=
  match m with Some (Ok a) => f a | Some (Unexpected e) => throw e | None => None end.

Notation "x '<~' m ';;' k" := (bind m (fun x => k)) (at level 100, m at next level, right associativity).

Definition kQA : Z := 1.
Definition kQAaaa : Z := 28.
Definition kQOpt : Z := 41.
Definition kClassIn : Z := 1.

Definition kFlagQR : Z := 0x8000.
Definition kFlagTC : Z := 0x0200.
Definition kFlagRD : Z := 0x0100.
Definition kRCodeMask : Z := 0x000F.

Record Header := mkHeader { id : Z; flags : Z; qdcount : Z; ancount : Z; nscount : Z; arcount : Z }.

Definition qr (h : Header) : bool := negb (Z.land (flags h) kFlagQR =? 0).
Definition tc (h : Header) : bool := negb (Z.land (flags h) kFlagTC =? 0).
Definition rcode (h : Header) : Z := Z.land (flags h) kRCodeMask.

Record Question := mkQuestion { qname : bytes; qtype : Z; qclass : Z }.
Record ResourceRecord := mkRR { rname : bytes; rtype : Z; rclass : Z; ttl : Z; rdata : bytes }.
Record Message := mkMessage {
  header : Header; questions : list Question; answers : list ResourceRecord; authority : list ResourceRecord;
  additional : list ResourceRecord
}.
Record Edns0Options := mkEdns { udp_size : Z; ext_rcode : Z; edns_version : Z; edns_flags : Z }.

Definition write_u16 (v : Z) : bytes := [byte_of_Z (Z.shiftr v 8); byte_of_Z (Z.land v 0xFF)].
Definition write_u32 (v : Z) : bytes :=
  [byte_of_Z (Z.shiftr v 24); byte_of_Z (Z.land (Z.shiftr v 16) 0xFF); byte_of_Z (Z.land (Z.shiftr v 8) 0xFF);
   byte_of_Z (Z.land v 0xFF)].

(** The labels of a name, each with its length. *)
Fixpoint name_loop (fuel : nat) (name : bytes) (pos : nat) (out : bytes) : M bytes :=
  if (length name <=? pos)%nat then ret out
  else
    match fuel with
    | O => None
    | S fuel =>
        let dot := sv_find x2e name pos in
        let len := (match dot with None => length name | Some d => d end - pos)%nat in
        if (len =? 0)%nat then ret out
        else if (63 <? len)%nat then throw invalid_hostname
        else
          name_loop fuel name (pos + (len + match dot with None => 0 | Some _ => 1 end))
            (out ++ byte_of_Z (Z.of_nat len) :: substr name pos len)
    end.

Definition encode_query (id : Z) (name : bytes) (qtype : Z) (edns : option Edns0Options) : M bytes :=
  let out := write_u16 id ++ write_u16 kFlagRD ++ write_u16 1 ++ write_u16 0 ++ write_u16 0
             ++ write_u16 (match edns with Some _ => 1 | None => 0 end) in
  out <~ name_loop (length name) name 0 out;;
  let out := out ++ [x00] ++ write_u16 qtype ++ write_u16 kClassIn in
  ret (match edns with
       | None => out
       | Some e =>
           out ++ [x00] ++ write_u16 kQOpt ++ write_u16 (udp_size e)
           ++ write_u32 (Z.lor (Z.lor (Z.shiftl (ext_rcode e) 24) (Z.shiftl (edns_version e) 16)) (edns_flags e))
           ++ write_u16 0
       end).

Definition kMaxDepth : nat := 16.

(** [wire[i]]; the code has checked the bounds. *)
Definition at_ (wire : bytes) (i : nat) : Z := match wire !! i with Some b => byteZ b | None => 0 end.

(** [consumed] is set before a pointer is followed. *)
Fixpoint decode_name_loop (fuel : nat) (wire : bytes) (offset depth cursor : nat) (consumed : option nat) (out : bytes)
    : M (nat * bytes) :=
  match fuel with
  | O => None
  | S fuel =>
      if (length wire <=? cursor)%nat then throw malformed
      else
        let len := at_ wire cursor in
        if len =? 0 then ret (match consumed with Some c => c | None => cursor + 1 - offset end, out)%nat
        else if Z.land len 0xC0 =? 0xC0 then
          if (length wire <=? cursor + 1)%nat then throw malformed
          else
            let next := Z.to_nat (Z.lor (Z.shiftl (Z.land len 0x3F) 8) (at_ wire (cursor + 1))) in
            let consumed := match consumed with Some c => c | None => cursor + 2 - offset end%nat in
            if (cursor <=? next)%nat then throw malformed
            else if (kMaxDepth <? depth + 1)%nat then throw malformed
            else decode_name_loop fuel wire offset (depth + 1) next (Some consumed) out
        else if negb (Z.land len 0xC0 =? 0) then throw malformed
        else
          let n := Z.to_nat len in
          if (length wire <? cursor + 1 + n)%nat then throw malformed
          else
            let out := match out with [] => [] | _ => out ++ [x2e] end in
            let out := out ++ Ascii.ascii_lower (substr wire (cursor + 1) n) in
            if (253 <? length out)%nat then throw malformed
            else decode_name_loop fuel wire offset depth (cursor + (1 + n)) consumed out
  end.

Definition decode_fuel (wire : bytes) : nat := S (kMaxDepth + 1) * S (length wire).

(** The bytes consumed and the name. *)
Definition decode_name (wire : bytes) (offset : nat) : M (nat * bytes) :=
  decode_name_loop (decode_fuel wire) wire offset 0 offset None [].

Definition read_u16 (wire : bytes) (offset : nat) : M Z :=
  if (length wire <? offset + 2)%nat then throw malformed
  else ret (Z.lor (Z.shiftl (at_ wire offset) 8) (at_ wire (offset + 1))).

Definition read_u32 (wire : bytes) (offset : nat) : M Z :=
  if (length wire <? offset + 4)%nat then throw malformed
  else ret (Z.lor (Z.lor (Z.lor (Z.shiftl (at_ wire offset) 24) (Z.shiftl (at_ wire (offset + 1)) 16))
                     (Z.shiftl (at_ wire (offset + 2)) 8)) (at_ wire (offset + 3))).

Definition read_question (wire : bytes) (pos : nat) : M (Question * nat) :=
  r <~ decode_name wire pos;;
  let pos := (pos + r.1)%nat in
  t <~ read_u16 wire pos;;
  c <~ read_u16 wire (pos + 2);;
  ret (mkQuestion r.2 t c, pos + 4)%nat.

Definition read_rr (wire : bytes) (pos : nat) : M (ResourceRecord * nat) :=
  r <~ decode_name wire pos;;
  let pos := (pos + r.1)%nat in
  t <~ read_u16 wire pos;;
  c <~ read_u16 wire (pos + 2);;
  l <~ read_u32 wire (pos + 4);;
  n <~ read_u16 wire (pos + 8);;
  let pos := (pos + 10)%nat in
  let n := Z.to_nat n in
  if (length wire <? pos + n)%nat then throw malformed
  else ret (mkRR r.2 t c l (substr wire pos n), pos + n)%nat.

(** [std::generate_n] with the position threaded through. *)
Fixpoint read_many {A} (read : nat -> M (A * nat)) (count : nat) (pos : nat) : M (list A * nat) :=
  match count with
  | O => ret ([], pos)
  | S count =>
      r <~ read pos;;
      rest <~ read_many read count r.2;;
      ret (r.1 :: rest.1, rest.2)
  end.

Definition decode_message (wire : bytes) : M Message :=
  if (length wire <? 12)%nat then throw malformed
  else
    i <~ read_u16 wire 0;;
    f <~ read_u16 wire 2;;
    qd <~ read_u16 wire 4;;
    an <~ read_u16 wire 6;;
    ns <~ read_u16 wire 8;;
    ar <~ read_u16 wire 10;;
    qs <~ read_many (read_question wire) (Z.to_nat qd) 12;;
    ans <~ read_many (read_rr wire) (Z.to_nat an) qs.2;;
    auth <~ read_many (read_rr wire) (Z.to_nat ns) ans.2;;
    add <~ read_many (read_rr wire) (Z.to_nat ar) auth.2;;
    ret (mkMessage (mkHeader i f qd an ns ar) qs.1 ans.1 auth.1 add.1).

Definition rdata_to_endpoint (rr : ResourceRecord) (port : Z) : option Endpoint :=
  if (rtype rr =? kQA) && (length (rdata rr) =? 4)%nat then Some (mkEndpoint (Sin (rdata rr) port) v4)
  else if (rtype rr =? kQAaaa) && (length (rdata rr) =? 16)%nat then Some (mkEndpoint (Sin6 (rdata rr) port 0) v6)
  else None.

Definition rcode_to_error (r : Z) : option DnsErrorKind :=
  match r with
  | 0 => None
  | 1 => Some formerr
  | 2 => Some servfail
  | 3 => Some nxdomain
  | 4 => Some servfail
  | 5 => Some refused
  | _ => Some servfail
  end.

End DnsCodec.

(** ** Configuration files *)

Module DnsConf.
Import DnsName.

(** [chrono::milliseconds] and [size_t] values; [ndots] and [attempts] count. *)
Record ResolvConfig := mkConf {
  nameservers : list NameserverEndpoint; search_domains : list bytes; ndots : Z; query_timeout : Z; attempts : Z
}.

Definition empty_conf : ResolvConfig := mkConf [] [] 1 0 1.

(** No check for overflow: the value wraps at 64 bits. *)
Fixpoint decimal_loop (sv : bytes) (out : Z) : option Z :=
  match sv with
  | [] => Some out
  | c :: rest => if negb (is_digit c) then None else decimal_loop rest (u64 (out * 10 + digit_val c))
  end.

Definition parse_decimal_size (sv : bytes) : option Z := match sv with [] => None | _ => decimal_loop sv 0 end.

Definition is_blank (c : byte) : bool := (c =b x20) || (c =b x09).

(** [find_first_of(" \t")] *)
Fixpoint find_blank (s : bytes) : option nat :=
  match s with
  | [] => None
  | c :: s' => if is_blank c then Some 0%nat else S <$> find_blank s'
  end.

(** The next token of a line and what follows it. *)
Definition next_word (rest : bytes) : bytes * bytes :=
  let rest := Ascii.drop_front is_blank rest in
  match find_blank rest with
  | None => (rest, [])
  | Some e => (take e rest, drop (e + 1) rest)
  end.

Definition after_prefix (value prefix : bytes) : option Z :=
  if starts_with value prefix then parse_decimal_size (drop (length prefix) value) else None.

(** A count of seconds as [chrono::seconds] holds it, in milliseconds. *)
Definition seconds (t : Z) : Z := 1000 * (if t <? 2 ^ 63 then t else t - 2 ^ 64).

Definition apply_option (token : bytes) (cfg : ResolvConfig) : ResolvConfig :=
  let positive o := match o with Some v => if 0 <? v then Some v else None | None => None end in
  match positive (after_prefix token (B "timeout:")) with
  | Some t => mkConf (nameservers cfg) (search_domains cfg) (ndots cfg) (seconds t) (attempts cfg)
  | None =>
      match positive (after_prefix token (B "attempts:")) with
      | Some a => mkConf (nameservers cfg) (search_domains cfg) (ndots cfg) (query_timeout cfg) a
      | None =>
          match after_prefix token (B "ndots:") with
          | Some n => mkConf (nameservers cfg) (search_domains cfg) n (query_timeout cfg) (attempts cfg)
          | None => cfg
          end
      end
  end.

Fixpoint parse_resolv_options (fuel : nat) (rest : bytes) (cfg : ResolvConfig) : option ResolvConfig :=
  match rest with
  | [] => Some cfg
  | _ =>
      match fuel with
      | O => None
      | S fuel => let '(token, rest) := next_word rest in parse_resolv_options fuel rest (apply_option token cfg)
      end
  end.

Fixpoint parse_search_domains (fuel : nat) (rest : bytes) (out : list bytes) : option (list bytes) :=
  match rest with
  | [] => Some out
  | _ =>
      match fuel with
      | O => None
      | S fuel =>
          let '(token, rest) := next_word rest in
          match strip_root (Ascii.ascii_lower (Ascii.trim token)) with
          | [] => parse_search_domains fuel rest out
          | token => parse_search_domains fuel rest (out ++ [token])
          end
      end
  end.

Section Files.
Context (inet_pton : AddressFamily -> bytes -> option bytes).

(** [find_first_of("#;")] and the cut. *)
Fixpoint cut_comment (stop : byte -> bool) (line : bytes) : bytes :=
  match line with
  | [] => []
  | c :: rest => if stop c then [] else c :: cut_comment stop rest
  end.

Definition parse_resolv_line (line : bytes) (out : ResolvConfig) : option ResolvConfig :=
  let trimmed := Ascii.trim (cut_comment (fun c => (c =b x23) || (c =b x3b)) line) in
  match trimmed with
  | [] => Some out
  | _ =>
      let split := find_blank trimmed in
      let key := match split with None => trimmed | Some k => take k trimmed end in
      let rest := match split with None => [] | Some k => drop (k + 1) trimmed end in
      if bytes_eqb key (B "nameserver") then
        match parse_nameserver inet_pton (Ascii.trim rest) with
        | Some ns => Some (mkConf (nameservers out ++ [ns]) (search_domains out) (ndots out) (query_timeout out) (attempts out))
        | None => Some out
        end
      else if bytes_eqb key (B "options") then parse_resolv_options (length rest) rest out
      else if bytes_eqb key (B "search") then
        ds ← parse_search_domains (length rest) rest [];
        Some (mkConf (nameservers out) ds (ndots out) (query_timeout out) (attempts out))
      else Some out
  end.

Fixpoint fold_lines {A} (f : bytes -> A -> option A) (ls : list Lines.LineView) (a : A) : option A :=
  match ls with
  | [] => Some a
  | l :: ls => a ← f (Lines.text l) a; fold_lines f ls a
  end.

(** [contents] is [None] when the file cannot be read. *)
Definition parse_resolv_conf (contents : option bytes) : option ResolvConfig :=
  match contents with
  | None => Some empty_conf
  | Some text => fold_lines parse_resolv_line (Lines.lines text) empty_conf
  end.

(** The map from names to endpoints, as an association list whose entries keep
    the order in which the names were first seen. *)
Fixpoint add_host (name : bytes) (ep : Endpoint) (hosts : list (bytes * list Endpoint)) : list (bytes * list Endpoint) :=
  match hosts with
  | [] => [(name, [ep])]
  | (n, eps) :: rest => if bytes_eqb n name then (n, eps ++ [ep]) :: rest else (n, eps) :: add_host name ep rest
  end.

Fixpoint find_host (name : bytes) (hosts : list (bytes * list Endpoint)) : option (list Endpoint) :=
  match hosts with
  | [] => None
  | (n, eps) :: rest => if bytes_eqb n name then Some eps else find_host name rest
  end.

(** [next_token] from a position: the token and the rest of the line. *)
Definition next_token (line : bytes) : bytes * bytes :=
  let line := Ascii.drop_front is_blank line in
  span (fun c => negb (is_blank c)) line.

Fixpoint add_names (fuel : nat) (line : bytes) (ep : Endpoint) (out : list (bytes * list Endpoint))
    : option (list (bytes * list Endpoint)) :=
  match fuel with
  | O => None
  | S fuel =>
      let '(name, rest) := next_token line in
      match name with
      | [] => Some out
      | _ => add_names fuel rest ep (add_host (Ascii.ascii_lower name) ep out)
      end
  end.

Definition parse_hosts_line (line : bytes) (out : list (bytes * list Endpoint)) : option (list (bytes * list Endpoint)) :=
  let line := cut_comment (fun c => c =b x23) line in
  let '(ip, rest) := next_token line in
  match ip with
  | [] => Some out
  | _ =>
      let add ep := add_names (S (length rest)) rest ep out in
      match inet_pton v4 (c_str ip) with
      | Some a => add (mkEndpoint (Sin a 0) v4)
      | None =>
          match inet_pton v6 (c_str ip) with
          | Some a => add (mkEndpoint (Sin6 a 0 0) v6)
          | None => Some out
          end
      end
  end.

Definition parse_hosts_file (contents : option bytes) : option (list (bytes * list Endpoint)) :=
  match contents with
  | None => Some []
  | Some text => fold_lines parse_hosts_line (Lines.lines text) []
  end.

End Files.

Record ResolveOptions := mkOptions {
  prefer : AddressFamily; allow_v4 : bool; allow_v6 : bool; opt_query_timeout : Z; opt_total_timeout : Z
}.

Definition set_endpoint_port (port : Z) (ep : Endpoint) : Endpoint :=
  match ep_family ep, addr ep with
  | v4, Sin a _ => mkEndpoint (Sin a port) v4
  | v6, Sin6 a _ s => mkEndpoint (Sin6 a port s) v6
  | _, _ => ep
  end.

Definition endpoint_family_allowed (ep : Endpoint) (opts : ResolveOptions) : bool :=
  match ep_family ep with v4 => allow_v4 opts | v6 => allow_v6 opts end.

Definition hosts_endpoints_for_options (cached : list Endpoint) (port : Z) (opts : ResolveOptions) : list Endpoint :=
  map (set_endpoint_port port) (filter (fun ep => endpoint_family_allowed ep opts = true) cached).

(** The endpoints of a result that came from the hosts file. *)
Definition hosts_lookup_result (hosts_cache : list (bytes * list Endpoint)) (host : bytes) (port : Z) (opts : ResolveOptions)
    : option (list Endpoint) :=
  let key := strip_root (Ascii.ascii_lower host) in
  cached ← find_host key hosts_cache;
  match hosts_endpoints_for_options cached port opts with [] => None | eps => Some eps end.

Definition effective_native_timeout (opts : ResolveOptions) : Z :=
  if opt_query_timeout opts <=? 0 then opt_total_timeout opts
  else if opt_total_timeout opts <=? 0 then opt_query_timeout opts
  else Z.min (opt_query_timeout opts) (opt_total_timeout opts).

Definition apply_resolv_defaults (opts : ResolveOptions) (resolv_query_timeout : Z) : ResolveOptions :=
  if (opt_query_timeout opts =? 2000) && (0 <? resolv_query_timeout)
  then mkOptions (prefer opts) (allow_v4 opts) (allow_v6 opts) resolv_query_timeout (opt_total_timeout opts)
  else opts.

Definition nameservers_with_attempts (base : list NameserverEndpoint) (attempts : nat) : list NameserverEndpoint :=
  match base with [] => [] | _ => concat (repeat base (Nat.max attempts 1)) end.

Definition resolve_candidates (host : bytes) (search_domains : list bytes) (ndots : Z) : list bytes :=
  match last host with
  | Some x2e => [take (length host - 1) host]
  | _ =>
      match search_domains with
      | [] => [host]
      | _ =>
          if ndots <=? Z.of_nat (count_byte x2e host) then [host]
          else map (fun domain => host ++ [x2e] ++ domain) search_domains ++ [host]
      end
  end.

Definition make_cache_key (host : bytes) (port : Z) (prefer : AddressFamily) (a4 a6 : bool) (resolver_context : bytes) : bytes :=
  host ++ [x3a] ++ to_dec port ++ [x3a] ++ [match prefer with v4 => x34 | v6 => x36 end] ++ [if a4 then x34 else x2d]
  ++ [if a6 then x36 else x2d] ++ [x3a] ++ resolver_context.

End DnsConf.

(** ** Responses *)

Module DnsQuery.
Import DnsName DnsCodec.

Definition same_dns_peer (actual : sockaddr) (expected : NameserverEndpoint) : bool :=
  match actual, ns_addr expected with
  | Sin a p, Sin a' p' => (p =? p') && bytes_eqb a a'
  | Sin6 a p s, Sin6 a' p' s' => (p =? p') && bytes_eqb a a' && (s =? s')
  | _, _ => false
  end.

Definition has_expected_question (msg : Message) (expected_id : Z) (expected_qname : bytes) (expected_qtype : Z) : bool :=
  if negb (id (header msg) =? expected_id) then false
  else
    match questions msg with
    | [] => false
    | q :: _ => bytes_eqb (qname q) expected_qname && (qtype q =? expected_qtype) && (qclass q =? kClassIn)
    end.

Definition validate_accepted_response_status (msg : Message) : M unit :=
  if negb (qr (header msg)) then throw malformed
  else
    match rcode_to_error (rcode (header msg)) with
    | Some k => throw k
    | None => if tc (header msg) then throw truncated else ret tt
    end.

(** The receive loop of [run_udp_query_driver] on the datagrams that arrive
    before the deadline, each with its sender. *)
Fixpoint udp_receive (ns : NameserverEndpoint) (expected_id : Z) (expected_qname : bytes) (expected_qtype : Z)
    (datagrams : list (sockaddr * bytes)) : M Message :=
  match datagrams with
  | [] => throw timeout
  | (from, data) :: rest =>
      msg <~ decode_message data;;
      if negb (same_dns_peer from ns) then udp_receive ns expected_id expected_qname expected_qtype rest
      else if negb (has_expected_question msg expected_id expected_qname expected_qtype)
      then udp_receive ns expected_id expected_qname expected_qtype rest
      else
        _ <~ validate_accepted_response_status msg;;
        ret msg
  end.

(** The end of [run_tcp_query_driver], on the framed response. *)
Definition tcp_accept (expected_id : Z) (expected_qname : bytes) (expected_qtype : Z) (resp : bytes) : M Message :=
  match resp with
  | [] => throw malformed
  | _ =>
      msg <~ decode_message resp;;
      if negb (has_expected_question msg expected_id expected_qname expected_qtype) then throw malformed
      else
        _ <~ validate_accepted_response_status msg;;
        ret msg
  end.

Definition min_answer_ttl (msg : Message) (family : AddressFamily) : Z :=
  fold_left (fun m rr =>
    if match family with v4 => rtype rr =? kQA | v6 => rtype rr =? kQAaaa end then Z.min m (ttl rr) else m)
    (answers msg) (2 ^ 32 - 1).

End DnsQuery.

(** ** From a query to endpoints *)

Module DnsFlow.
Import DnsName DnsCodec DnsQuery.

(** Ordered by severity. *)
Inductive BatchFailReason := bf_none | bf_timeout | bf_network | bf_nxdomain | bf_truncated.

Definition severity (r : BatchFailReason) : Z :=
  match r with bf_none => 0 | bf_timeout => 1 | bf_network => 2 | bf_nxdomain => 3 | bf_truncated => 4 end.

Record EndpointBatch := mkBatch { eps : list Endpoint; min_ttl : Z; fail_reason : BatchFailReason; was_queried : bool }.

Definition uint32_max : Z := 2 ^ 32 - 1.

Definition failed (r : BatchFailReason) : EndpointBatch := mkBatch [] uint32_max r true.

(** [suggested_ttl] in seconds; the other members of a [ResolveResult] keep
    their defaults here. *)
Record ResolveResult := mkResult { endpoints : list Endpoint; suggested_ttl : Z }.

(** What a nameserver answers: the datagrams that arrive at the socket before the
    deadline once a query was sent, each with its sender, and what a connection
    reads after a framed query was written. *)
Record Net := mkNet {
  udp_arrivals : NameserverEndpoint -> bytes -> list (sockaddr * bytes);
  tcp_reply : NameserverEndpoint -> bytes -> expected bytes DnsErrorKind
}.

Definition udp_single_query (net : Net) (ns : NameserverEndpoint) (wire : bytes) (expected_id : Z) (expected_qname : bytes)
    (expected_qtype : Z) : M Message :=
  udp_receive ns expected_id expected_qname expected_qtype (udp_arrivals net ns wire).

Definition tcp_single_query (net : Net) (ns : NameserverEndpoint) (wire : bytes) (expected_id : Z) (expected_qname : bytes)
    (expected_qtype : Z) : M Message :=
  resp <~ Some (tcp_reply net ns (write_u16 (Z.of_nat (length wire) mod 2 ^ 16) ++ wire));;
  tcp_accept expected_id expected_qname expected_qtype resp.

Definition AddressFamily_eqb (a b : AddressFamily) : bool := match a, b with v4, v4 | v6, v6 => true | _, _ => false end.

(** The batch of a message. *)
Definition batch_of (msg : Message) (port : Z) (fam : AddressFamily) : EndpointBatch :=
  mkBatch (omap (fun rr => match rdata_to_endpoint rr port with
                           | Some ep => if AddressFamily_eqb (ep_family ep) fam then Some ep else None
                           | None => None
                           end) (answers msg)) (min_answer_ttl msg fam) bf_none true.

Definition build_family_flow (net : Net) (ns : NameserverEndpoint) (hostname : bytes) (port qid qtype : Z)
    (fam : AddressFamily) (edns : Edns0Options) : M EndpointBatch :=
  wire <~ encode_query qid hostname qtype (Some edns);;
  let expected_qname := Ascii.ascii_lower hostname in
  match udp_single_query net ns wire qid expected_qname qtype with
  | None => None
  | Some (Ok msg) => ret (batch_of msg port fam)
  | Some (Unexpected cancelled) => throw cancelled
  | Some (Unexpected truncated) =>
      match tcp_single_query net ns wire qid expected_qname qtype with
      | None => None
      | Some (Ok msg2) => ret (batch_of msg2 port fam)
      | Some (Unexpected _) => ret (failed bf_truncated)
      end
  | Some (Unexpected e) =>
      ret (failed (match e with nxdomain => bf_nxdomain | timeout => bf_timeout | _ => bf_network end))
  end.

Definition make_empty_batch_task : M EndpointBatch := ret (mkBatch [] uint32_max bf_none false).

Definition build_native_udp_flow (net : Net) (ns : NameserverEndpoint) (hostname : bytes) (port : Z) (do_v4 do_v6 : bool)
    (prefer : AddressFamily) (edns : Edns0Options) (qid_a qid_aaaa : Z) : M ResolveResult :=
  b4 <~ (if do_v4 then build_family_flow net ns hostname port qid_a kQA v4 edns else make_empty_batch_task);;
  b6 <~ (if do_v6 then build_family_flow net ns hostname port qid_aaaa kQAaaa v6 edns else make_empty_batch_task);;
  let w := if severity (fail_reason b6) <=? severity (fail_reason b4) then fail_reason b4 else fail_reason b6 in
  let all := match prefer with v4 => eps b4 ++ eps b6 | v6 => eps b6 ++ eps b4 end in
  let lowest := Z.min (min_ttl b4) (min_ttl b6) in
  let r := mkResult all (if lowest =? uint32_max then 0 else lowest) in
  match eps b4, eps b6, w with
  | [], [], bf_truncated => throw truncated
  | [], [], bf_nxdomain => throw nxdomain
  | _, _, _ => ret r
  end.

(** [random_dns_query_id] is the argument [ids]: the [n]-th draw is [ids n]. The
    flows return how many draws were made. *)
Fixpoint build_native_udp_flow_with_nameservers (net : Net) (nameservers : list NameserverEndpoint) (hostname : bytes)
    (port : Z) (do_v4 do_v6 : bool) (prefer : AddressFamily) (edns : Edns0Options) (ids : nat -> Z) (n : nat)
    : M ResolveResult * nat :=
  match nameservers with
  | [] => (throw no_servers, n)
  | ns :: rest =>
      match build_native_udp_flow net ns hostname port do_v4 do_v6 prefer edns (ids n) (ids (n + 1)%nat) with
      | Some (Ok result) =>
          match endpoints result, rest with
          | [], _ :: _ =>
              build_native_udp_flow_with_nameservers net rest hostname port do_v4 do_v6 prefer edns ids (n + 2)
          | _, _ => (ret result, n + 2)%nat
          end
      | r => (r, n + 2)%nat
      end
  end.

Fixpoint build_native_udp_flow_with_candidates (net : Net) (nameservers : list NameserverEndpoint)
    (candidates : list bytes) (port : Z) (do_v4 do_v6 : bool) (prefer : AddressFamily) (edns : Edns0Options)
    (ids : nat -> Z) (n : nat) : M ResolveResult * nat :=
  match candidates with
  | [] => (throw nxdomain, n)
  | candidate :: rest =>
      let '(r, n) :=
        build_native_udp_flow_with_nameservers net nameservers candidate port do_v4 do_v6 prefer edns ids n in
      match r, rest with
      | Some (Unexpected nxdomain), _ :: _ =>
          build_native_udp_flow_with_candidates net nameservers rest port do_v4 do_v6 prefer edns ids n
      | _, _ => (r, n)
      end
  end.

End DnsFlow.

(** ** The cache *)

Module DnsCache.

Record DnsCacheEntry (R : Type) := mkCacheEntry { result : R; expires : Z }.
Arguments mkCacheEntry {R} result expires.
Arguments result {R} d.
Arguments expires {R} d.

Section Cache.
Context {R T : Type} `{RM : RecencyMap (DnsCacheEntry R) T}.

Definition make (cap : nat) : T := rm_new (Nat.max cap 1).

Definition get (t : T) (key : bytes) (now : Z) : option (T * option R) :=
  '(t, entry) ← rm_find t key;
  match entry with
  | None => Some (t, None)
  | Some e =>
      if expires e <=? now then '(t, _) ← rm_erase t key; Some (t, None)
      else Some (t, Some (result e))
  end.

Definition put (t : T) (key : bytes) (r : R) (ttl now : Z) : option T := rm_put t key (mkCacheEntry r (now + ttl)).

Definition invalidate_by_host (t : T) (host : bytes) : T :=
  fst (rm_erase_if t (fun key _ => starts_with key (host ++ [x3a]))).

End Cache.

End DnsCache.

(** ** Names on the wire *)

Module DnsNameOk.
Import DnsName DnsCodec.

Lemma bind_ret {A C} (a : A) (f : A -> M C) : bind (ret a) f = f a.
Proof. done. Qed.

(** What a name at a cursor spells: labels up to the root or to a pointer, which
    goes back; [d] pointers may be followed. The last number is the end of the
    bytes at the cursor itself. *)
Inductive spelled (wire : bytes) : nat -> nat -> list bytes -> nat -> Prop :=
| sp_root d c : wire !! c = Some x00 -> spelled wire d c [] (c + 1)
| sp_label d c b n l ls e :
    wire !! c = Some b -> byteZ b = Z.of_nat n -> (0 < n < 64)%nat -> (c + 1 + n <= length wire)%nat ->
    l = substr wire (c + 1) n -> spelled wire d (c + (1 + n)) ls e -> spelled wire d c (l :: ls) e
| sp_pointer d c b1 b2 next ls e :
    wire !! c = Some b1 -> Z.land (byteZ b1) 0xC0 = 0xC0 -> wire !! (c + 1)%nat = Some b2 ->
    Z.of_nat next = Z.land (byteZ b1) 0x3F * 256 + byteZ b2 -> (next < c)%nat ->
    spelled wire d next ls e -> spelled wire (S d) c ls (c + 2).

(** The text of a name: labels in lower case with dots between. *)
Definition joined (out : bytes) (ls : list bytes) : bytes :=
  fold_left (fun out l => (match out with [] => [] | _ => out ++ [x2e] end) ++ Ascii.ascii_lower l) ls out.

Lemma lower_length l : length (Ascii.ascii_lower l) = length l.
Proof. apply length_map. Qed.

Lemma joined_length out ls : (length out <= length (joined out ls))%nat.
Proof.
  revert out. induction ls as [|l ls IH]; intros out; [done|]. cbn [joined fold_left].
  etrans; [|apply IH]. rewrite length_app. destruct out; rewrite ?length_app; lia.
Qed.

Lemma at_lookup wire i b : wire !! i = Some b -> at_ wire i = byteZ b.
Proof. intros H. unfold at_. by rewrite H. Qed.

Lemma top_bits b : (Z.land (byteZ b) 0xC0 =? 0xC0) = (192 <=? byteZ b).
Proof.
  apply Bool.eqb_prop. change (Bool.eqb (Z.land (byteZ b) 0xC0 =? 0xC0) (192 <=? byteZ b) = true). byte_decide b.
Qed.

Lemma low_bits b : (Z.land (byteZ b) 0xC0 =? 0) = (byteZ b <? 64).
Proof. apply Bool.eqb_prop. change (Bool.eqb (Z.land (byteZ b) 0xC0 =? 0) (byteZ b <? 64) = true). byte_decide b. Qed.

Lemma low_six b : (0 <=? Z.land (byteZ b) 0x3F) && (Z.land (byteZ b) 0x3F <? 64) = true.
Proof. byte_decide b. Qed.

Lemma pointer_value b1 b2 : Z.lor (Z.shiftl (Z.land (byteZ b1) 0x3F) 8) (byteZ b2) = Z.land (byteZ b1) 0x3F * 256 + byteZ b2.
Proof. pose proof (byteZ_range b2). rewrite lor_shiftl_add by lia. done. Qed.

(** Two lookups at one place give one byte. *)
Ltac same_byte H H' := rewrite H in H'; injection H' as H'; apply (f_equal byteZ) in H'; change (byteZ x00) with 0 in H'.

(** How many rounds the loop can take. *)
Definition rounds (wire : bytes) (depth cursor : nat) : nat :=
  (kMaxDepth + 1 - depth) * S (length wire) + (length wire - cursor).

Section Loop.
Context (wire : bytes) (offset : nat).

Definition spells_out (depth cursor : nat) (consumed : option nat) (out : bytes) (n : nat) (name : bytes) : Prop :=
  exists ls e, spelled wire (kMaxDepth - depth) cursor ls e /\
    n = (match consumed with Some c => c | None => e - offset end)%nat /\
    name = joined out ls /\ (ls = [] \/ (length name <= 253)%nat).

Definition settles (m : M (nat * bytes)) (P : nat -> bytes -> Prop) : Prop :=
  exists r, m = Some r /\ forall n name, r = Ok (n, name) <-> P n name.

Lemma settles_throw (P : nat -> bytes -> Prop) e : (forall n name, ~ P n name) -> settles (throw e) P.
Proof. intros H. exists (Unexpected e). split; [done|]. intros n name. split; [done|]. intros HP. by apply H in HP. Qed.

Lemma settles_iff m (P Q : nat -> bytes -> Prop) : (forall n name, P n name <-> Q n name) -> settles m P -> settles m Q.
Proof. intros H (r & -> & Hr). exists r. split; [done|]. intros n name. rewrite Hr. apply H. Qed.

Lemma decode_name_loop_spec fuel depth cursor consumed out :
  (depth <= kMaxDepth)%nat -> (rounds wire depth cursor < fuel)%nat ->
  settles (decode_name_loop fuel wire offset depth cursor consumed out) (spells_out depth cursor consumed out).
Proof.
  revert depth cursor consumed out. induction fuel as [|fuel IH]; intros depth cursor consumed out Hd Hf; [lia|]. cbn [decode_name_loop].
  destruct (Nat.leb_spec (length wire) cursor) as [Hge|Hlt].
  { apply settles_throw. intros n name (ls & e & Hs & _).
    destruct Hs as [d c Hc|d c b k l ls e Hc|d c b1 b2 nx ls e Hc]; apply lookup_lt_Some in Hc; lia. }
  destruct (lookup_lt_is_Some_2 wire cursor Hlt) as [b Hb]. rewrite (at_lookup _ _ _ Hb), top_bits, low_bits.
  destruct (Z.eqb_spec (byteZ b) 0) as [H0|H0].
  { assert (b = x00) as -> by (by apply byteZ_inj). eexists. split; [reflexivity|]. intros n name. split.
    - intros [= <- <-]. exists [], (cursor + 1)%nat. split; [by constructor|]. split; [done|]. split; [done|by left].
    - intros (ls & e & Hs & -> & -> & _). inversion Hs as [d c Hc|d c b' k l ls' e' Hc Hk Hr|d c b1 b2 nx ls' e' Hc H1]; subst.
      + done.
      + same_byte Hb Hc. lia.
      + same_byte Hb Hc. rewrite <- Hc in H1. done. }
  pose proof (byteZ_range b) as Hbr. destruct (Z.leb_spec 192 (byteZ b)) as [Hp|Hnp].
  { destruct (Nat.leb_spec (length wire) (cursor + 1)) as [Hge|Hlt1].
    { apply settles_throw. intros n name (ls & e & Hs & _).
      inversion Hs as [d c Hc|d c b' k l ls' e' Hc Hk Hr|d c b1 b2 nx ls' e' Hc H1 Hc2]; subst; same_byte Hb Hc; try lia.
      apply lookup_lt_Some in Hc2. lia. }
    destruct (lookup_lt_is_Some_2 wire (cursor + 1) Hlt1) as [b2 Hb2]. rewrite (at_lookup _ _ _ Hb2), pointer_value.
    pose proof (byteZ_range b2) as Hbr2. pose proof (low_six b) as Hls. apply andb_true_iff in Hls as [Hl1%Z.leb_le Hl2%Z.ltb_lt].
    set (nx := Z.to_nat (Z.land (byteZ b) 0x3F * 256 + byteZ b2)).
    assert (forall n name, spells_out depth cursor consumed out n name -> (nx < cursor)%nat /\ (depth < kMaxDepth)%nat /\
      spells_out (depth + 1) nx (Some (match consumed with Some c => c | None => cursor + 2 - offset end)%nat) out n name) as Hinv.
    { intros n name (ls & e & Hs & -> & -> & Hlen). remember (kMaxDepth - depth)%nat as d eqn:Ed.
      inversion Hs as [d' c Hc|d' c b' k l ls' e' Hc Hk Hr|d' c b1 b2' nx' ls' e' Hc H1 Hc2 Hnx Hlt' Hs']; subst d c ls; try subst e;
        same_byte Hb Hc; try lia.
      same_byte Hb2 Hc2. rewrite <- Hc, <- Hc2 in Hnx. assert (nx' = nx) as -> by (subst nx; lia). split; [done|]. split; [lia|].
      exists ls', e'. replace (kMaxDepth - (depth + 1))%nat with d' by lia. split; [done|]. split; [by destruct consumed|]. split; done. }
    destruct (Nat.leb_spec cursor nx) as [Hfwd|Hback].
    { apply settles_throw. intros n name Hs. apply Hinv in Hs as [? _]. lia. }
    destruct (Nat.ltb_spec kMaxDepth (depth + 1)) as [Hdeep|Hok].
    { apply settles_throw. intros n name Hs. apply Hinv in Hs as (_ & ? & _). lia. }
    eapply settles_iff; [|apply (IH (depth + 1)%nat nx); [lia|]].
    - intros n name. split; [|intros Hs; by apply Hinv in Hs as (_ & _ & ?)].
      intros (ls & e & Hs & -> & -> & Hlen). exists ls, (cursor + 2)%nat. split; [|split; [by destruct consumed|done]].
      replace (kMaxDepth - depth)%nat with (S (kMaxDepth - (depth + 1))) by lia.
      eapply (sp_pointer wire _ cursor b b2 nx ls e); try done; [|subst nx; lia].
      apply Z.eqb_eq. rewrite top_bits. by apply Z.leb_le.
    - unfold rounds in *. replace (kMaxDepth + 1 - depth)%nat with (S (kMaxDepth + 1 - (depth + 1))) in Hf by lia. cbn [Nat.mul] in Hf. lia. }
  destruct (Z.ltb_spec (byteZ b) 64) as [Hlow|Hhigh]; cbn [negb].
  2:{ apply settles_throw. intros n name (ls & e & Hs & _).
      inversion Hs as [d c Hc|d c b' k l ls' e' Hc Hk Hr|d c b1 b2 nx ls' e' Hc H1 Hc2]; subst; same_byte Hb Hc; try lia.
      rewrite <- Hc in H1. apply Z.eqb_eq in H1. rewrite top_bits in H1. apply Z.leb_le in H1. lia. }
  set (k := Z.to_nat (byteZ b)).
  set (out' := (match out with [] => [] | _ => out ++ [x2e] end) ++ Ascii.ascii_lower (substr wire (cursor + 1) k)).
  assert (forall n name, spells_out depth cursor consumed out n name -> (cursor + 1 + k <= length wire)%nat /\
    (length out' <= 253)%nat /\ spells_out depth (cursor + (1 + k)) consumed out' n name) as Hinv.
  { intros n name (ls & e & Hs & -> & -> & Hlen).
    inversion Hs as [d c Hc|d c b' k' l ls' e' Hc Hk Hr Hin Hl Hs'|d c b1 b2 nx ls' e' Hc H1 Hc2]; subst;
      same_byte Hb Hc; try lia.
    - assert (k' = k) as -> by (subst k; lia). split; [done|]. destruct Hlen as [?|Hlen]; [done|].
      pose proof (joined_length out' ls') as Hj. change (joined out (substr wire (cursor + 1) k :: ls')) with (joined out' ls') in *.
      split; [lia|]. exists ls', e. split; [done|]. split; [done|]. split; [done|]. by right.
    - rewrite <- Hc in H1. apply Z.eqb_eq in H1. rewrite top_bits in H1. apply Z.leb_le in H1. lia. }
  destruct (Nat.ltb_spec (length wire) (cursor + 1 + k)) as [Hover|Hin].
  { apply settles_throw. intros n name Hs. apply Hinv in Hs as [? _]. lia. }
  destruct (Nat.ltb_spec 253 (length out')) as [Hlong|Hshort].
  { apply settles_throw. intros n name Hs. apply Hinv in Hs as (_ & ? & _). lia. }
  eapply settles_iff; [|apply (IH depth (cursor + (1 + k))%nat consumed out'); [lia|]].
  - intros n name. split; [|intros Hs; by apply Hinv in Hs as (_ & _ & ?)].
    intros (ls & e & Hs & -> & -> & Hlen). exists (substr wire (cursor + 1) k :: ls), e.
    split; [eapply (sp_label wire _ cursor b k); try done; subst k; lia|]. split; [done|]. split; [done|]. right.
    destruct Hlen as [->|Hlen]; done.
  - unfold rounds in *. lia.
Qed.

Lemma decode_name_spec :
  settles (decode_name wire offset) (fun n name => exists ls e, spelled wire kMaxDepth offset ls e /\
    n = (e - offset)%nat /\ name = joined [] ls /\ (length name <= 253)%nat).
Proof.
  eapply settles_iff; [|apply (decode_name_loop_spec (decode_fuel wire) 0 offset None [])].
  - intros n name. unfold spells_out. split; intros (ls & e & Hs & Hn & Hname & Hl).
    + rewrite Nat.sub_0_r in Hs. exists ls, e. split; [done|]. split; [done|]. split; [done|].
      destruct Hl as [->|?]; [|done]. subst name. cbn. lia.
    + exists ls, e. rewrite Nat.sub_0_r. split; [done|]. split; [done|]. split; [done|]. by right.
  - unfold kMaxDepth. lia.
  - unfold rounds, decode_fuel. rewrite Nat.sub_0_r. cbn [Nat.mul]. lia.
Qed.

End Loop.

End DnsNameOk.

(** ** Queries *)

Module DnsQueryOk.
Import DnsName DnsCodec DnsNameOk.

Definition total {A} (m : M A) : Prop := m <> None.

Lemma bind_total {A C} (m : M A) (f : A -> M C) : total m -> (forall a, total (f a)) -> total (bind m f).
Proof. intros Hm Hf. destruct m as [[a|e]|]; [apply Hf|done|done]. Qed.

Lemma decode_name_total wire pos : total (decode_name wire pos).
Proof. destruct (decode_name_spec wire pos) as (r & -> & _). done. Qed.

Lemma read_u16_total wire pos : total (read_u16 wire pos).
Proof. unfold read_u16. by destruct (_ <? _)%nat. Qed.

Lemma read_u32_total wire pos : total (read_u32 wire pos).
Proof. unfold read_u32. by destruct (_ <? _)%nat. Qed.

Lemma read_many_total {A} (read : nat -> M (A * nat)) n pos : (forall p, total (read p)) -> total (read_many read n pos).
Proof.
  intros Hr. revert pos. induction n as [|n IH]; intros pos; [done|]. cbn [read_many].
  apply bind_total; [apply Hr|]. intros r. apply bind_total; [apply IH|]. done.
Qed.

Lemma read_question_total wire pos : total (read_question wire pos).
Proof.
  unfold read_question. apply bind_total; [apply decode_name_total|]. intros r. cbn zeta.
  apply bind_total; [apply read_u16_total|]. intros t. apply bind_total; [apply read_u16_total|]. done.
Qed.

Lemma read_rr_total wire pos : total (read_rr wire pos).
Proof.
  unfold read_rr. apply bind_total; [apply decode_name_total|]. intros r. cbn zeta.
  repeat (apply bind_total; [first [apply read_u16_total|apply read_u32_total]|]; intros ?).
  by destruct (_ <? _)%nat.
Qed.

Lemma decode_message_total wire : total (decode_message wire).
Proof.
  unfold decode_message. destruct (_ <? _)%nat; [done|].
  repeat (apply bind_total; [first [apply read_u16_total|apply read_many_total; intros; first [apply read_question_total|apply read_rr_total]]|]; intros ?).
  done.
Qed.

(** *** Numbers *)

Lemma at_app pre b post : at_ (pre ++ b :: post) (length pre) = byteZ b.
Proof. apply at_lookup. by apply list_lookup_middle. Qed.

Lemma u16_bytes v : 0 <= v < 2 ^ 16 -> exists a b, write_u16 v = [a; b] /\ byteZ a = v / 256 /\ byteZ b = v mod 256.
Proof.
  intros Hv. unfold write_u16. do 2 eexists. split; [reflexivity|].
  rewrite !byteZ_byte_of_Z, Z.shiftr_div_pow2 by lia. change (2 ^ 8) with 256. split.
  - apply Z.mod_small. Z.to_euclidean_division_equations; lia.
  - change 0xFF with (Z.ones 8). rewrite Z.land_ones by lia. change (2 ^ 8) with 256. apply Z.mod_mod. lia.
Qed.

Lemma read_written_u16 pre v post pos :
  0 <= v < 2 ^ 16 -> pos = length pre -> read_u16 (pre ++ write_u16 v ++ post) pos = ret v.
Proof.
  intros Hv ->. destruct (u16_bytes v Hv) as (a & b & -> & Ha & Hb). unfold read_u16.
  rewrite (proj2 (Nat.ltb_ge _ _)) by (rewrite length_app; cbn; lia). cbn [app]. rewrite at_app.
  replace (pre ++ a :: b :: post) with ((pre ++ [a]) ++ b :: post) by (by rewrite <- app_assoc).
  replace (length pre + 1)%nat with (length (pre ++ [a])) by (rewrite length_app; cbn; lia). rewrite at_app.
  pose proof (byteZ_range b). rewrite lor_shiftl_add by lia. unfold ret. do 2 f_equal. Z.to_euclidean_division_equations; lia.
Qed.

Lemma u32_bytes v : 0 <= v < 2 ^ 32 -> exists a b c d, write_u32 v = [a; b; c; d] /\ byteZ a = v / 2 ^ 24 /\
  byteZ b = (v / 2 ^ 16) mod 256 /\ byteZ c = (v / 2 ^ 8) mod 256 /\ byteZ d = v mod 256.
Proof.
  intros Hv. unfold write_u32. do 4 eexists. split; [reflexivity|].
  rewrite !byteZ_byte_of_Z, !Z.shiftr_div_pow2 by lia. change 0xFF with (Z.ones 8). rewrite !Z.land_ones by lia. change (2 ^ 8) with 256.
  rewrite !Z.mod_mod by lia. split_and!; try done. apply Z.mod_small. Z.to_euclidean_division_equations; lia.
Qed.

Lemma read_written_u32 pre v post pos :
  0 <= v < 2 ^ 32 -> pos = length pre -> read_u32 (pre ++ write_u32 v ++ post) pos = ret v.
Proof.
  intros Hv ->. destruct (u32_bytes v Hv) as (a & b & c & d & -> & Ha & Hb & Hc & Hd). unfold read_u32.
  rewrite (proj2 (Nat.ltb_ge _ _)) by (rewrite length_app; cbn; lia). cbn [app].
  assert (forall l x r i, pre ++ a :: b :: c :: d :: post = (pre ++ l) ++ x :: r -> i = length l ->
    at_ (pre ++ a :: b :: c :: d :: post) (length pre + i) = byteZ x) as Hat.
  { intros l x r i -> ->. rewrite <- length_app. apply at_app. }
  rewrite at_app, (Hat [a] b (c :: d :: post) 1%nat), (Hat [a; b] c (d :: post) 2%nat), (Hat [a; b; c] d post 3%nat)
    by (by rewrite <- ?app_assoc).
  pose proof (byteZ_range a). pose proof (byteZ_range b). pose proof (byteZ_range c). pose proof (byteZ_range d).
  assert (Z.lor (Z.shiftl (byteZ a) 24) (Z.shiftl (byteZ b) 16) = byteZ a * 2 ^ 24 + byteZ b * 2 ^ 16) as ->.
  { rewrite lor_shiftl_add by (rewrite ?Z.shiftl_mul_pow2; lia). by rewrite Z.shiftl_mul_pow2 by lia. }
  replace (byteZ a * 2 ^ 24 + byteZ b * 2 ^ 16) with (Z.shiftl (byteZ a * 256 + byteZ b) 16) by (rewrite Z.shiftl_mul_pow2; lia).
  assert (Z.lor (Z.shiftl (byteZ a * 256 + byteZ b) 16) (Z.shiftl (byteZ c) 8) = Z.shiftl ((byteZ a * 256 + byteZ b) * 256 + byteZ c) 8) as ->.
  { rewrite lor_shiftl_add by (rewrite ?Z.shiftl_mul_pow2; lia). rewrite !Z.shiftl_mul_pow2 by lia. lia. }
  rewrite lor_shiftl_add by lia. unfold ret. do 2 f_equal. rewrite Ha, Hb, Hc, Hd. Z.to_euclidean_division_equations; lia.
Qed.

(** *** Host names *)

Definition label_ok (l : bytes) : Prop := (0 < length l < 64)%nat /\ x2e ∉ l.

Lemma label_loop_spec s n :
  (n < 64)%nat -> label_loop s n = true ->
  match split_on x2e s with
  | h :: t => (0 < n + length h < 64)%nat /\ Forall (fun l => (0 < length l < 64)%nat) t
  | [] => False
  end.
Proof.
  revert n. induction s as [|c s IH]; intros n Hn; cbn [label_loop split_on].
  - intros H%Nat.ltb_lt. cbn. split; [lia|constructor].
  - destruct (c =b x00); [done|]. destruct (c =b x2e).
    + destruct (Nat.eqb_spec n 0); [done|]. intros H. apply IH in H; [|lia].
      destruct (split_on x2e s) as [|h t]; [done|]. cbn. split; [lia|]. destruct H as [? ?]. by constructor.
    + destruct (Nat.ltb_spec 63 (S n)); [done|]. intros H'. apply IH in H'; [|lia].
      destruct (split_on x2e s) as [|h t]; [done|]. destruct H' as [? ?]. split; [cbn; lia|done].
Qed.

Lemma valid_hostname name :
  is_valid_hostname name = true ->
  Forall label_ok (split_on x2e (strip_root name)) /\ (length (strip_root name) <= 253)%nat /\
  (name = strip_root name \/ name = strip_root name ++ [x2e]).
Proof.
  unfold is_valid_hostname. destruct name as [|c0 n0] eqn:En; [done|]. rewrite <- En. destruct (strip_root name) as [|c1 t1] eqn:Et; [done|].
  rewrite <- Et. destruct (Nat.ltb_spec 253 (length (strip_root name))); [done|]. intros Hl.
  split; [|split; [done|]].
  - apply label_loop_spec in Hl; [|lia]. pose proof (split_on_clean x2e (strip_root name)) as Hc.
    destruct (split_on x2e (strip_root name)) as [|h t]; [done|]. destruct Hl as [Hh Ht]. apply Forall_cons in Hc as [Hc Hct].
    constructor; [by split|]. rewrite Forall_forall in *. intros l Hin. split; auto.
  - unfold strip_root. destruct (last name) as [c|] eqn:Ela; [|by left]. destruct (byte_eqb_spec c x2e) as [->|Hne].
    + right. rewrite last_lookup in Ela. rewrite <- (take_drop (length name - 1) name) at 1. f_equal.
      assert (0 < length name)%nat by (subst name; cbn; lia). replace (pred (length name)) with (length name - 1)%nat in Ela by lia.
      rewrite (drop_S _ _ _ Ela). f_equal. apply drop_ge. lia.
    + left. by destruct c.
Qed.

(** A label with its length. *)
Definition enc (l : bytes) : bytes := byte_of_Z (Z.of_nat (length l)) :: l.

Lemma name_loop_labels ls tail name fuel pos out :
  ls <> [] -> Forall label_ok ls -> tail = [] \/ tail = [x2e] ->
  drop pos name = join_on x2e ls ++ tail -> (length ls <= fuel)%nat ->
  name_loop fuel name pos out = ret (out ++ concat (map enc ls)).
Proof.
  intros Hne Hok Htail. revert fuel pos out. induction ls as [|l ls IH]; intros fuel pos out Hd Hf; [done|].
  apply Forall_cons in Hok as [[Hl Hdot] Hok]. destruct fuel as [|fuel]; [cbn in Hf; lia|].
  assert (exists rest, drop pos name = l ++ rest /\ ((ls = [] /\ rest = tail) \/ (ls <> [] /\ rest = x2e :: join_on x2e ls ++ tail))) as (rest & Hdr & Hrest).
  { rewrite Hd. destruct ls as [|l2 ls]; [exists tail; auto|]. exists (x2e :: join_on x2e (l2 :: ls) ++ tail). cbn [join_on]. rewrite <- app_assoc. auto. }
  assert (length l <= length (drop pos name))%nat as Hlen by (rewrite Hdr, length_app; lia). rewrite length_drop in Hlen.
  assert (Z.of_nat (length name) >= 0) by lia.
  cbn [name_loop]. rewrite (proj2 (Nat.leb_gt _ _)) by lia. unfold sv_find.
  assert (substr name pos (length l) = l) as Hsub by (unfold substr; by rewrite Hdr, take_app_length).
  assert (length (drop pos name) = length l + length rest)%nat as Hlr by (by rewrite Hdr, length_app). rewrite length_drop in Hlr.
  assert (name_loop fuel name (pos + (length l + 0)) (out ++ enc l) = ret (out ++ enc l) \/ rest <> []) as Hend.
  { destruct rest; [left|by right]. cbn in Hlr. destruct fuel; cbn [name_loop]; by rewrite (proj2 (Nat.leb_le _ _)) by lia. }
  destruct rest as [|c rest].
  - rewrite (proj2 (find_byte_None x2e (drop pos name))) by (rewrite Hdr, app_nil_r; done). cbn [fmap option_fmap option_map].
    replace (length name - pos)%nat with (length l) by (cbn in Hlr; lia).
    rewrite (proj2 (Nat.eqb_neq _ _)), (proj2 (Nat.ltb_ge _ _)) by lia. rewrite Hsub. destruct Hend as [Hend|?]; [|done].
    change (out ++ byte_of_Z (Z.of_nat (length l)) :: l) with (out ++ enc l). rewrite Hend.
    destruct Hrest as [[-> _]|[_ ?]]; [|done]. cbn. by rewrite app_nil_r.
  - assert (c = x2e) as ->. { destruct Hrest as [[_ He]|[_ He]]; [destruct Htail as [->| ->]; [done|]|]; by injection He. }
    rewrite Hdr, find_byte_app by done. cbn [fmap option_fmap option_map].
    replace (pos + length l - pos)%nat with (length l) by lia.
    rewrite (proj2 (Nat.eqb_neq _ _)), (proj2 (Nat.ltb_ge _ _)) by lia. rewrite Hsub.
    change (out ++ byte_of_Z (Z.of_nat (length l)) :: l) with (out ++ enc l).
    assert (drop (pos + (length l + 1)) name = rest) as Hdr2.
    { rewrite <- drop_drop, Hdr, Nat.add_1_r. apply drop_after. }
    destruct Hrest as [[-> He]|[Hls He]].
    + destruct Htail as [->| ->]; [done|]. injection He as ->. cbn in Hlr.
      destruct fuel; cbn [name_loop]; rewrite (proj2 (Nat.leb_le _ _)) by lia; cbn; by rewrite app_nil_r.
    + injection He as ->. rewrite (IH Hls Hok fuel (pos + (length l + 1))%nat) by (done || (cbn in Hf; lia)).
      cbn [map concat]. by rewrite <- app_assoc.
Qed.

Lemma spelled_labels pre ls post d :
  Forall label_ok ls ->
  spelled (pre ++ concat (map enc ls) ++ x00 :: post) d (length pre) ls (length pre + length (concat (map enc ls)) + 1).
Proof.
  intros Hok. revert pre. induction Hok as [|l ls [Hl Hdot] Hok IH]; intros pre; cbn [map concat].
  - cbn [app length]. rewrite Nat.add_0_r. constructor. by apply list_lookup_middle.
  - set (wire := pre ++ (enc l ++ concat (map enc ls)) ++ x00 :: post).
    assert (wire = (pre ++ enc l) ++ concat (map enc ls) ++ x00 :: post) as Hw by (subst wire; by rewrite <- !app_assoc).
    eapply (sp_label wire d (length pre) (byte_of_Z (Z.of_nat (length l))) (length l)).
    + subst wire. by apply list_lookup_middle.
    + rewrite byteZ_byte_of_Z. apply Z.mod_small. lia.
    + lia.
    + rewrite Hw, !length_app. cbn [enc length]. lia.
    + assert (wire = (pre ++ [byte_of_Z (Z.of_nat (length l))]) ++ l ++ concat (map enc ls) ++ x00 :: post) as ->.
      { subst wire. cbn [enc app]. by rewrite <- !app_assoc. }
      unfold substr. rewrite drop_app_length' by (by rewrite length_app). by rewrite take_app_length.
    + rewrite Hw. specialize (IH (pre ++ enc l)). rewrite !length_app in IH. cbn [enc length] in IH.
      rewrite !length_app. cbn [enc length].
      replace (length pre + (S (length l) + length (concat (map enc ls))) + 1)%nat
        with (length pre + S (length l) + length (concat (map enc ls)) + 1)%nat by lia. exact IH.
Qed.

Lemma joined_more out ls : out <> [] -> Forall (fun l => l <> []) ls ->
  joined out ls = out ++ concat (map (fun l => x2e :: Ascii.ascii_lower l) ls).
Proof.
  intros Ho Hls. revert out Ho. induction Hls as [|l ls Hl Hls IH]; intros out Ho; cbn [joined fold_left map concat].
  - by rewrite app_nil_r.
  - destruct out as [|c out]; [done|]. fold (joined (((c :: out) ++ [x2e]) ++ Ascii.ascii_lower l) ls). rewrite IH by done.
    by rewrite <- !app_assoc.
Qed.

Lemma joined_labels ls : Forall label_ok ls -> joined [] ls = Ascii.ascii_lower (join_on x2e ls).
Proof.
  intros Hok. assert (Forall (fun l : bytes => l <> []) ls) as Hne.
  { eapply Forall_impl; [exact Hok|]. intros [|c l] [? _]; [cbn in *; lia|done]. }
  destruct ls as [|l ls]; [done|]. apply Forall_cons in Hne as [Hl Hls]. cbn [joined fold_left app].
  fold (joined (Ascii.ascii_lower l) ls). rewrite joined_more; [|by destruct l|done]. clear Hok Hl.
  revert l. induction Hls as [|l2 ls Hl2 Hls IH]; intros l; cbn [map concat]; [by rewrite app_nil_r|].
  change (join_on x2e (l :: l2 :: ls)) with (l ++ x2e :: join_on x2e (l2 :: ls)).
  unfold Ascii.ascii_lower in *. rewrite map_app. cbn [map]. rewrite <- IH. by rewrite app_comm_cons.
Qed.

(** The name of a query, where it is read back. *)
Lemma decode_labels pre ls post :
  Forall label_ok ls -> (length (join_on x2e ls) <= 253)%nat ->
  decode_name (pre ++ concat (map enc ls) ++ x00 :: post) (length pre)
  = ret (length (concat (map enc ls)) + 1, Ascii.ascii_lower (join_on x2e ls))%nat.
Proof.
  intros Hok Hlen. destruct (decode_name_spec (pre ++ concat (map enc ls) ++ x00 :: post) (length pre)) as (r & -> & Hr).
  unfold ret. f_equal. apply Hr. do 2 eexists. split; [by apply spelled_labels|]. split; [lia|].
  rewrite joined_labels by done. split; [done|]. by rewrite lower_length.
Qed.

(** *** A whole query *)

Lemma labels_fit ls : Forall label_ok ls -> (length ls <= length (join_on x2e ls))%nat.
Proof.
  induction 1 as [|l ls [Hl _] Hok IH]; [done|]. destruct ls as [|l2 ls]; [cbn in *; lia|].
  change (join_on x2e (l :: l2 :: ls)) with (l ++ x2e :: join_on x2e (l2 :: ls)). rewrite length_app. cbn [length] in *. lia.
Qed.

Definition labels (name : bytes) : bytes := concat (map enc (split_on x2e (strip_root name))).

Definition opt_count (edns : option Edns0Options) : Z := match edns with Some _ => 1 | None => 0 end.

Definition opt_ttl (e : Edns0Options) : Z := ext_rcode e * 2 ^ 24 + edns_version e * 2 ^ 16 + edns_flags e.

Definition opt_wire (edns : option Edns0Options) : bytes :=
  match edns with
  | Some e => [x00] ++ write_u16 kQOpt ++ write_u16 (udp_size e) ++ write_u32 (opt_ttl e) ++ write_u16 0
  | None => []
  end.

Definition edns_ok (edns : option Edns0Options) : Prop :=
  match edns with
  | Some e => 0 <= udp_size e < 2 ^ 16 /\ 0 <= ext_rcode e < 2 ^ 8 /\ 0 <= edns_version e < 2 ^ 8 /\ 0 <= edns_flags e < 2 ^ 16
  | None => True
  end.

Definition query_wire (id : Z) (name : bytes) (qtype : Z) (edns : option Edns0Options) : bytes :=
  write_u16 id ++ write_u16 kFlagRD ++ write_u16 1 ++ write_u16 0 ++ write_u16 0 ++ write_u16 (opt_count edns)
  ++ labels name ++ x00 :: write_u16 qtype ++ write_u16 kClassIn ++ opt_wire edns.

Lemma opt_ttl_lor e : edns_ok (Some e) ->
  Z.lor (Z.lor (Z.shiftl (ext_rcode e) 24) (Z.shiftl (edns_version e) 16)) (edns_flags e) = opt_ttl e.
Proof.
  intros (_ & H1 & H2 & H3). unfold opt_ttl. rewrite (lor_shiftl_add (ext_rcode e) (Z.shiftl (edns_version e) 16) 24)
    by (rewrite ?Z.shiftl_mul_pow2; lia).
  replace (ext_rcode e * 2 ^ 24 + Z.shiftl (edns_version e) 16) with (Z.shiftl (ext_rcode e * 2 ^ 8 + edns_version e) 16)
    by (rewrite !Z.shiftl_mul_pow2; lia).
  rewrite lor_shiftl_add by lia. lia.
Qed.

Lemma encode_query_wire id name qtype edns :
  is_valid_hostname name = true -> edns_ok edns -> encode_query id name qtype edns = ret (query_wire id name qtype edns).
Proof.
  intros Hv He. apply valid_hostname in Hv as (Hok & Hlen & Hname). unfold encode_query.
  pose proof (labels_fit _ Hok) as Hfit. rewrite join_split_on in Hfit.
  assert (exists tail, name = strip_root name ++ tail /\ (tail = [] \/ tail = [x2e])) as (tail & Hn & Htail).
  { destruct Hname as [Hn|Hn]; [exists []|exists [x2e]]; rewrite ?app_nil_r; auto. }
  assert (length name = length (strip_root name) + length tail)%nat as Hl by (rewrite Hn at 1; apply length_app).
  rewrite (name_loop_labels (split_on x2e (strip_root name)) tail).
  - rewrite bind_ret. unfold query_wire, labels, opt_count. f_equal.
    destruct edns as [e|]; cbn [opt_wire]; rewrite ?opt_ttl_lor by done; rewrite ?app_nil_r, <- ?app_assoc; done.
  - apply split_on_nil.
  - done.
  - done.
  - by rewrite join_split_on, drop_0.
  - lia.
Qed.

Lemma read_u16_at wire pre v post pos :
  wire = pre ++ write_u16 v ++ post -> 0 <= v < 2 ^ 16 -> pos = length pre -> read_u16 wire pos = ret v.
Proof. intros ->. apply read_written_u16. Qed.

Lemma read_u32_at wire pre v post pos :
  wire = pre ++ write_u32 v ++ post -> 0 <= v < 2 ^ 32 -> pos = length pre -> read_u32 wire pos = ret v.
Proof. intros ->. apply read_written_u32. Qed.

(** Reads the number [v] after the bytes [pre] of the wire. *)
Ltac read_after pre v :=
  erewrite (read_u16_at _ pre v);
  [rewrite bind_ret | rewrite <- ?app_assoc; reflexivity | done || lia | rewrite ?length_app; cbn; lia].

Definition query_opt (edns : option Edns0Options) : list ResourceRecord :=
  match edns with Some e => [mkRR [] kQOpt (udp_size e) (opt_ttl e) []] | None => [] end.

Definition query_message (id : Z) (name : bytes) (qtype : Z) (edns : option Edns0Options) : Message :=
  mkMessage (mkHeader id kFlagRD 1 0 0 (opt_count edns)) [mkQuestion (Ascii.ascii_lower (strip_root name)) qtype kClassIn]
    [] [] (query_opt edns).

Section Query.
Context (id : Z) (name : bytes) (qtype : Z) (edns : option Edns0Options).
Context (Hname : is_valid_hostname name = true) (Hid : 0 <= id < 2 ^ 16) (Hqt : 0 <= qtype < 2 ^ 16) (He : edns_ok edns).

Definition head12 : bytes :=
  write_u16 id ++ write_u16 kFlagRD ++ write_u16 1 ++ write_u16 0 ++ write_u16 0 ++ write_u16 (opt_count edns).

Lemma read_question_query :
  read_question (query_wire id name qtype edns) 12
  = ret (mkQuestion (Ascii.ascii_lower (strip_root name)) qtype kClassIn, 12 + length (labels name) + 5)%nat.
Proof.
  destruct (valid_hostname name Hname) as (Hok & Hlen & _). unfold read_question.
  assert (query_wire id name qtype edns
    = head12 ++ concat (map enc (split_on x2e (strip_root name))) ++ x00 :: write_u16 qtype ++ write_u16 kClassIn ++ opt_wire edns) as Hw.
  { unfold query_wire, head12. by rewrite <- !app_assoc. }
  rewrite Hw at 1. change 12%nat with (length head12) at 1. rewrite decode_labels; [|done|by rewrite join_split_on].
  rewrite bind_ret, join_split_on. cbn [fst snd]. fold (labels name). rewrite Hw. fold (labels name).
  read_after (head12 ++ labels name ++ [x00]) qtype.
  read_after (head12 ++ labels name ++ [x00] ++ write_u16 qtype) kClassIn.
  unfold ret. do 3 f_equal. lia.
Qed.

Lemma read_rr_query e : edns = Some e ->
  read_rr (query_wire id name qtype edns) (12 + length (labels name) + 5)
  = ret (mkRR [] kQOpt (udp_size e) (opt_ttl e) [], 12 + length (labels name) + 16)%nat.
Proof.
  intros E. rewrite E in He. destruct He as (Hs & Hx & Hver & Hfl). unfold read_rr.
  set (front := head12 ++ labels name ++ x00 :: write_u16 qtype ++ write_u16 kClassIn).
  set (rest := write_u16 kQOpt ++ write_u16 (udp_size e) ++ write_u32 (opt_ttl e) ++ write_u16 0).
  assert (query_wire id name qtype edns = front ++ concat (map enc []) ++ x00 :: rest) as Hw.
  { unfold query_wire, front, head12, rest. rewrite E. cbn [opt_wire map concat]. by rewrite <- !app_assoc, <- !app_comm_cons, <- !app_assoc. }
  assert (length front = 12 + length (labels name) + 5)%nat as Hf.
  { subst front. rewrite !length_app. cbn. lia. }
  rewrite Hw, <- Hf, decode_labels by (done || cbn; lia). rewrite bind_ret. cbn [map concat app fst snd length join_on].
  assert (0 <= opt_ttl e < 2 ^ 32) by (unfold opt_ttl; lia). subst rest.
  read_after (front ++ [x00]) kQOpt.
  read_after (front ++ [x00] ++ write_u16 kQOpt) (udp_size e).
  erewrite (read_u32_at _ (front ++ [x00] ++ write_u16 kQOpt ++ write_u16 (udp_size e)) (opt_ttl e) (write_u16 0));
    [rewrite bind_ret|by rewrite <- !app_assoc|done|rewrite !length_app; cbn; lia].
  read_after (front ++ [x00] ++ write_u16 kQOpt ++ write_u16 (udp_size e) ++ write_u32 (opt_ttl e)) 0.
  cbn [Z.to_nat]. rewrite (proj2 (Nat.ltb_ge _ _)) by (rewrite !length_app; cbn; lia).
  unfold ret, substr. rewrite take_0. do 3 f_equal. rewrite Hf. lia.
Qed.

Lemma decode_query_wire : decode_message (query_wire id name qtype edns) = ret (query_message id name qtype edns).
Proof.
  unfold decode_message.
  rewrite (proj2 (Nat.ltb_ge _ _)) by (unfold query_wire; rewrite !length_app; cbn; lia).
  assert (0 <= opt_count edns < 2 ^ 16) by (destruct edns; cbn; lia).
  unfold query_wire at 1 2 3 4 5 6.
  read_after (@nil byte) id.
  read_after (write_u16 id) kFlagRD.
  read_after (write_u16 id ++ write_u16 kFlagRD) 1.
  read_after (write_u16 id ++ write_u16 kFlagRD ++ write_u16 1) 0.
  read_after (write_u16 id ++ write_u16 kFlagRD ++ write_u16 1 ++ write_u16 0) 0.
  read_after (write_u16 id ++ write_u16 kFlagRD ++ write_u16 1 ++ write_u16 0 ++ write_u16 0) (opt_count edns).
  change (Z.to_nat 1) with 1%nat. change (Z.to_nat 0) with 0%nat. cbn [read_many].
  rewrite read_question_query, !bind_ret. cbn [fst snd]. unfold query_message.
  pose proof read_rr_query as Hrr. destruct edns as [e|] eqn:E in |- *; cbn [opt_count query_opt].
  - change (Z.to_nat 1) with 1%nat. cbn [read_many]. rewrite <- E, (Hrr e E), !bind_ret. done.
  - done.
Qed.

End Query.

End DnsQueryOk.

(** ** Answers *)

Module DnsFlowOk.
Import DnsName DnsCodec DnsQuery DnsFlow DnsNameOk DnsQueryOk.

(** The message carries the identifier, and its first question is the one asked, of
    the Internet class. *)
Definition asks (i : Z) (name : bytes) (type : Z) (msg : Message) : Prop :=
  id (header msg) = i /\ exists q more, questions msg = q :: more /\ qname q = name /\ qtype q = type /\ qclass q = 1.

(** A response (bit 15 of the flags) without an error code (the low four bits) and not
    truncated (bit 9). *)
Definition plain_response (msg : Message) : Prop :=
  Z.testbit (flags (header msg)) 15 = true /\ flags (header msg) mod 16 = 0 /\ Z.testbit (flags (header msg)) 9 = false.

(** A response to the question that was asked, without error or truncation. *)
Definition accepted (i : Z) (name : bytes) (type : Z) (msg : Message) : Prop := asks i name type msg /\ plain_response msg.

(** An address record: type A with four bytes, or AAAA with sixteen. *)
Definition type_of (fam : AddressFamily) : Z := match fam with v4 => 1 | v6 => 28 end.

Inductive is_address (port : Z) : AddressFamily -> ResourceRecord -> Endpoint -> Prop :=
| address_v4 rr : rtype rr = 1 -> length (rdata rr) = 4%nat -> is_address port v4 rr (mkEndpoint (Sin (rdata rr) port) v4)
| address_v6 rr : rtype rr = 28 -> length (rdata rr) = 16%nat -> is_address port v6 rr (mkEndpoint (Sin6 (rdata rr) port 0) v6).

(** The addresses of a family among some records, in order. *)
Inductive addresses (port : Z) (fam : AddressFamily) : list ResourceRecord -> list Endpoint -> Prop :=
| addresses_none : addresses port fam [] []
| addresses_take rr rrs ep l : is_address port fam rr ep -> addresses port fam rrs l -> addresses port fam (rr :: rrs) (ep :: l)
| addresses_skip rr rrs l : (forall ep, ~ is_address port fam rr ep) -> addresses port fam rrs l -> addresses port fam (rr :: rrs) l.

(** The lowest time to live of the records of a type, at most [2 ^ 32 - 1]. *)
Definition lowest_ttl (fam : AddressFamily) (rrs : list ResourceRecord) (t : Z) : Prop :=
  (forall rr, rr ∈ rrs -> rtype rr = type_of fam -> t <= ttl rr) /\
  (t = 2 ^ 32 - 1 \/ exists rr, rr ∈ rrs /\ rtype rr = type_of fam /\ t = ttl rr).

Lemma same_peer_spec from ns : same_dns_peer from ns = true <-> from = ns_addr ns /\ from <> NoAddr.
Proof.
  unfold same_dns_peer. destruct from as [|a p|a p z], (ns_addr ns) as [|a' p'|a' p' z']; try (by split; [|intros [? ?]]);
    rewrite ?andb_true_iff, ?Z.eqb_eq, ?bytes_eqb_eq; split; [intros [-> ->]; done|by intros [[= -> ->] _]|intros [[-> ->] ->]; done|by intros [[= -> -> ->] _]].
Qed.

Lemma expected_question_spec msg i q t : has_expected_question msg i q t = true <-> asks i q t msg.
Proof.
  unfold has_expected_question, asks. destruct (Z.eqb_spec (id (header msg)) i) as [Hi|Hi]; cbn [negb]; [|by split; [|intros [? _]]].
  destruct (questions msg) as [|x more]; [by split; [|intros (_ & ? & ? & ? & _)]|].
  rewrite !andb_true_iff, bytes_eqb_eq, !Z.eqb_eq. split.
  - intros [[? ?] ?]. split; [done|]. by exists x, more.
  - intros (_ & x' & more' & [= <- <-] & ? & ? & ?). done.
Qed.

Lemma flag_testbit f k : 0 <= k -> negb (Z.land f (2 ^ k) =? 0) = Z.testbit f k.
Proof.
  intros Hk. assert (Hb : Z.land f (2 ^ k) = if Z.testbit f k then 2 ^ k else 0).
  { apply Z.bits_inj'. intros n Hn. rewrite Z.land_spec, Z.pow2_bits_eqb by done. destruct (Z.eqb_spec k n) as [->|Hne].
    - rewrite andb_true_r. destruct (Z.testbit f n); [by rewrite Z.pow2_bits_true|by rewrite Z.bits_0].
    - rewrite andb_false_r. destruct (Z.testbit f k); [by rewrite Z.pow2_bits_false|by rewrite Z.bits_0]. }
  rewrite Hb. destruct (Z.testbit f k); [|done]. assert (2 ^ k <> 0) by (apply Z.pow_nonzero; lia).
  by rewrite (proj2 (Z.eqb_neq _ _)).
Qed.

Lemma plain_response_spec msg :
  qr (header msg) = true /\ rcode (header msg) = 0 /\ tc (header msg) = false <-> plain_response msg.
Proof.
  unfold plain_response, qr, rcode, tc. rewrite <- (flag_testbit _ 15), <- (flag_testbit _ 9) by lia.
  change kRCodeMask with (Z.ones 4). rewrite Z.land_ones by lia. done.
Qed.

Lemma endpoint_spec rr port fam ep : rdata_to_endpoint rr port = Some ep /\ ep_family ep = fam <-> is_address port fam rr ep.
Proof.
  unfold rdata_to_endpoint. split.
  - destruct (_ && _) eqn:E1.
    { intros [[= <-] <-]. apply andb_true_iff in E1 as [?%Z.eqb_eq ?%Nat.eqb_eq]. by apply address_v4. }
    destruct ((rtype rr =? kQAaaa) && _) eqn:E2; [|by intros [? _]]. intros [[= <-] <-]. apply andb_true_iff in E2 as [?%Z.eqb_eq ?%Nat.eqb_eq]. by apply address_v6.
  - intros [rr' Ht Hl|rr' Ht Hl]; rewrite Ht, Hl; done.
Qed.

Lemma batch_addresses msg port fam : addresses port fam (answers msg) (eps (batch_of msg port fam)).
Proof.
  cbn [batch_of eps]. induction (answers msg) as [|rr rrs IH]; cbn [omap list_omap]; [constructor|].
  destruct (rdata_to_endpoint rr port) as [ep|] eqn:E.
  - destruct (AddressFamily_eqb (ep_family ep) fam) eqn:Ef.
    + apply addresses_take; [|done]. apply endpoint_spec. split; [done|]. by destruct (ep_family ep), fam.
    + apply addresses_skip; [|done]. intros ep' [H1 H2]%endpoint_spec. rewrite E in H1. injection H1 as ->. rewrite H2 in Ef. by destruct fam.
  - apply addresses_skip; [|done]. intros ep' [H1 _]%endpoint_spec. by rewrite E in H1.
Qed.

Lemma batch_ttl msg port fam : lowest_ttl fam (answers msg) (min_ttl (batch_of msg port fam)).
Proof.
  cbn [batch_of min_ttl]. unfold min_answer_ttl. assert (Ht : forall rr, (match fam with v4 => rtype rr =? kQA | v6 => rtype rr =? kQAaaa end)
    = (rtype rr =? type_of fam)) by (by destruct fam).
  assert (H : forall rrs m, let r := fold_left (fun m rr => if match fam with v4 => rtype rr =? kQA | v6 => rtype rr =? kQAaaa end
      then Z.min m (ttl rr) else m) rrs m in
    r <= m /\ (forall rr, rr ∈ rrs -> rtype rr = type_of fam -> r <= ttl rr) /\
    (r = m \/ exists rr, rr ∈ rrs /\ rtype rr = type_of fam /\ r = ttl rr)).
  { intros rrs. induction rrs as [|x rrs IH]; intros m; cbn [fold_left]; [split; [lia|]; split; [by intros ? ?%not_elem_of_nil|by left]|].
    rewrite Ht. destruct (Z.eqb_spec (rtype x) (type_of fam)) as [Hx|Hx].
    - destruct (IH (Z.min m (ttl x))) as (H1 & H2 & H3). split; [lia|]. split.
      + intros rr [->|Hin]%elem_of_cons; [lia|by apply H2].
      + destruct H3 as [H3|(rr & Hin & ? & ?)]; [|right; exists rr; split; [by right|done]].
        destruct (Z.min_spec m (ttl x)) as [[_ E]|[_ E]]; [left; lia|right; exists x; split; [by left|]; split; [done|lia]].
    - destruct (IH m) as (H1 & H2 & H3). split; [lia|]. split.
      + intros rr [->|Hin]%elem_of_cons; [done|by apply H2].
      + destruct H3 as [H3|(rr & Hin & ? & ?)]; [by left|]. right. exists rr. split; [by right|done]. }
  destruct (H (answers msg) (2 ^ 32 - 1)) as (_ & H1 & H2). by split.
Qed.

Lemma validate_spec msg :
  validate_accepted_response_status msg = ret tt <-> plain_response msg.
Proof.
  rewrite <- plain_response_spec. unfold validate_accepted_response_status. destruct (qr (header msg)); cbn [negb]; [|by split; [|intros [? _]]].
  assert (rcode_to_error (rcode (header msg)) = None <-> rcode (header msg) = 0) as Hr.
  { unfold rcode_to_error. destruct (rcode (header msg)) as [|p|p]; [done| |done].
    split; [|done]. by do 3 (destruct p as [p|p|]; try done). }
  destruct (rcode_to_error (rcode (header msg))) as [k|].
  - split; [done|]. intros (_ & H & _). by apply Hr in H.
  - destruct (tc (header msg)); [by split; [|intros (_ & _ & ?)]|]. split; [|done]. intros _. split; [done|]. split; [by apply Hr|done].
Qed.

Lemma bind_Ok {A C} (m : M A) (f : A -> M C) (c : C) : bind m f = ret c -> exists a, m = ret a /\ f a = ret c.
Proof. destruct m as [[a|e]|]; [|done|done]. intros H. by exists a. Qed.

Lemma udp_receive_ok ns i q t ds msg :
  udp_receive ns i q t ds = ret msg ->
  exists data, (ns_addr ns, data) ∈ ds /\ decode_message data = ret msg /\ accepted i q t msg.
Proof.
  induction ds as [|[from data] ds IH]; cbn [udp_receive]; [done|]. intros H. apply bind_Ok in H as (m & Hd & H).
  assert (udp_receive ns i q t ds = ret msg -> exists data0, (ns_addr ns, data0) ∈ (from, data) :: ds /\
    decode_message data0 = ret msg /\ accepted i q t msg) as Hskip.
  { intros H'. destruct (IH H') as (d & Hin & Hrest). exists d. split; [by right|done]. }
  destruct (same_dns_peer from ns) eqn:Ep; cbn [negb] in H; [|auto].
  destruct (has_expected_question m i q t) eqn:Eq; cbn [negb] in H; [|auto].
  apply bind_Ok in H as ([] & Hv & H). apply validate_spec in Hv. injection H as <-. apply same_peer_spec in Ep as [-> _].
  apply expected_question_spec in Eq. exists data. split; [by left|]. split; [done|]. by split.
Qed.

Lemma tcp_accept_ok i q t resp msg :
  tcp_accept i q t resp = ret msg -> decode_message resp = ret msg /\ accepted i q t msg.
Proof.
  unfold tcp_accept. destruct resp as [|b resp]; [done|]. intros H. apply bind_Ok in H as (m & Hd & H).
  destruct (has_expected_question m i q t) eqn:Eq; cbn [negb] in H; [|done].
  apply bind_Ok in H as ([] & Hv & H). apply validate_spec in Hv. injection H as <-. apply expected_question_spec in Eq. split; [done|]. by split.
Qed.

Lemma udp_receive_total ns i q t ds : total (udp_receive ns i q t ds).
Proof.
  induction ds as [|[from data] ds IH]; cbn [udp_receive]; [done|]. apply bind_total; [apply decode_message_total|].
  intros m. destruct (negb _); [done|]. destruct (negb _); [done|]. apply bind_total; [|done].
  unfold validate_accepted_response_status. destruct (negb _); [done|]. destruct (rcode_to_error _); [done|]. by destruct (tc _).
Qed.

(** A datagram that the receive loop passes over. *)
Definition passed_over (ns : NameserverEndpoint) (i : Z) (q : bytes) (t : Z) (d : sockaddr * bytes) : Prop :=
  exists m, decode_message d.2 = ret m /\ (d.1 <> ns_addr ns \/ ~ asks i q t m).

Lemma udp_receive_answer ns i q t noise data rest msg :
  Forall (passed_over ns i q t) noise -> ns_addr ns <> NoAddr -> decode_message data = ret msg -> accepted i q t msg ->
  udp_receive ns i q t (noise ++ (ns_addr ns, data) :: rest) = ret msg.
Proof.
  intros Hn Hp Hd [Hq Hv]. induction Hn as [|[f d] noise (m & Hm & Ho) Hn IH]; cbn [app udp_receive].
  - apply validate_spec in Hv. apply expected_question_spec in Hq. rewrite (proj2 (same_peer_spec (ns_addr ns) ns)) by done.
    by rewrite Hd, bind_ret, Hq, Hv.
  - cbn [fst snd] in *. rewrite Hm, bind_ret, IH. destruct (same_dns_peer f ns) eqn:Ep; [|done]. apply same_peer_spec in Ep as [Ep _].
    destruct (has_expected_question m i q t) eqn:Eq; [|done]. apply expected_question_spec in Eq. by destruct Ho.
Qed.

Lemma batch_endpoint msg port fam ep :
  ep ∈ eps (batch_of msg port fam) -> exists rr, rr ∈ answers msg /\ is_address port fam rr ep.
Proof.
  pose proof (batch_addresses msg port fam) as H. revert H. generalize (answers msg), (eps (batch_of msg port fam)). intros rrs l H.
  induction H as [|rr rrs ep' l Ha _ IH|rr rrs l _ _ IH]; intros Hin; [by apply not_elem_of_nil in Hin| |].
  - apply elem_of_cons in Hin as [->|Hin]; [exists rr; split; [by left|done]|]. destruct (IH Hin) as (x & ? & ?). exists x. split; [by right|done].
  - destruct (IH Hin) as (x & ? & ?). exists x. split; [by right|done].
Qed.

(** The endpoint is an address record of the family, in a message that answers the
    question sent, and that message was a datagram from the address of the nameserver
    or what the connection to it read. *)
Definition answered (net : Net) (ns : NameserverEndpoint) (name : bytes) (port qid : Z) (fam : AddressFamily) (edns : Edns0Options)
    (ep : Endpoint) : Prop :=
  exists msg rr wire,
    encode_query qid name (type_of fam) (Some edns) = ret wire /\ accepted qid (Ascii.ascii_lower name) (type_of fam) msg /\
    rr ∈ answers msg /\ is_address port fam rr ep /\
    ((exists data, (ns_addr ns, data) ∈ udp_arrivals net ns wire /\ decode_message data = ret msg) \/
     (exists resp, tcp_reply net ns (write_u16 (Z.of_nat (length wire) mod 2 ^ 16) ++ wire) = Ok resp /\ decode_message resp = ret msg)).

Lemma family_authentic net ns name port qid fam edns batch ep :
  build_family_flow net ns name port qid (type_of fam) fam edns = ret batch -> ep ∈ eps batch -> answered net ns name port qid fam edns ep.
Proof.
  unfold build_family_flow. intros H Hep. apply bind_Ok in H as (wire & Hw & H). cbv zeta in H.
  destruct (udp_single_query net ns wire qid _ _) as [[msg|e]|] eqn:Eu; [| |done].
  - injection H as <-. apply batch_endpoint in Hep as (rr & Hrr & Hr).
    apply udp_receive_ok in Eu as (data & Hin & Hd & Ha). exists msg, rr, wire. do 4 (split; [done|]). left. eauto.
  - assert (batch = failed bf_truncated \/ (exists msg2, tcp_single_query net ns wire qid (Ascii.ascii_lower name) (type_of fam) = ret msg2 /\
      batch = batch_of msg2 port fam) \/ eps batch = []) as [-> | [(msg2 & Et & ->)|He]].
    { destruct e; try (right; right; by injection H as <-); [|done].
      destruct (tcp_single_query net ns wire qid _ _) as [[msg2|e2]|]; [| |done]; injection H as <-; eauto. }
    + by apply not_elem_of_nil in Hep.
    + apply batch_endpoint in Hep as (rr & Hrr & Hr). unfold tcp_single_query in Et.
      apply bind_Ok in Et as (resp & Hresp & Et). injection Hresp as Hresp. apply tcp_accept_ok in Et as (Hd & Ha).
      exists msg2, rr, wire. do 4 (split; [done|]). right. eauto.
    + rewrite He in Hep. by apply not_elem_of_nil in Hep.
Qed.

Definition allowed (do_v4 do_v6 : bool) (fam : AddressFamily) : Prop := match fam with v4 => do_v4 = true | v6 => do_v6 = true end.

(** Both families from one nameserver. *)
Lemma native_authentic net ns name port do_v4 do_v6 prefer edns ids n r ep :
  build_native_udp_flow net ns name port do_v4 do_v6 prefer edns (ids n) (ids (n + 1)%nat) = ret r -> ep ∈ endpoints r ->
  exists fam k, allowed do_v4 do_v6 fam /\ (n <= k < n + 2)%nat /\ answered net ns name port (ids k) fam edns ep.
Proof.
  unfold build_native_udp_flow. intros H Hep. apply bind_Ok in H as (b4 & H4 & H). apply bind_Ok in H as (b6 & H6 & H). cbv zeta in H.
  assert (Hin : ep ∈ eps b4 \/ ep ∈ eps b6).
  { assert (Hr : r = mkResult (match prefer with v4 => eps b4 ++ eps b6 | v6 => eps b6 ++ eps b4 end)
      (if Z.min (min_ttl b4) (min_ttl b6) =? uint32_max then 0 else Z.min (min_ttl b4) (min_ttl b6))).
    { destruct (eps b4), (eps b6); try (by injection H as <-). destruct (if _ <=? _ then _ else _); try (by injection H as <-); done. }
    rewrite Hr in Hep. cbn [endpoints] in Hep. destruct prefer; rewrite elem_of_app in Hep; tauto. }
  destruct Hin as [Hin|Hin].
  - destruct do_v4; [|injection H4 as <-; by apply not_elem_of_nil in Hin]. exists v4, n. split; [done|]. split; [lia|].
    by eapply (family_authentic net ns name port _ v4).
  - destruct do_v6; [|injection H6 as <-; by apply not_elem_of_nil in Hin]. exists v6, (n + 1)%nat. split; [done|]. split; [lia|].
    by eapply (family_authentic net ns name port _ v6).
Qed.

Lemma nameservers_authentic net nss name port do_v4 do_v6 prefer edns ids n r n' ep :
  build_native_udp_flow_with_nameservers net nss name port do_v4 do_v6 prefer edns ids n = (r, n') ->
  (n <= n')%nat /\ (forall res, r = ret res -> ep ∈ endpoints res ->
    exists ns fam k, ns ∈ nss /\ allowed do_v4 do_v6 fam /\ (n <= k < n')%nat /\ answered net ns name port (ids k) fam edns ep).
Proof.
  revert n. induction nss as [|ns nss IH]; intros n; cbn [build_native_udp_flow_with_nameservers]; [intros [= <- <-]; split; [lia|done]|].
  destruct (build_native_udp_flow net ns name port do_v4 do_v6 prefer edns (ids n) (ids (n + 1)%nat)) as [[res0|e]|] eqn:E;
    [|intros [= <- <-]; split; [lia|done]|intros [= <- <-]; split; [lia|done]].
  assert (Hhere : (ret res0, (n + 2)%nat) = (r, n') -> (n <= n')%nat /\ (forall res, r = ret res -> ep ∈ endpoints res ->
    exists ns' fam k, ns' ∈ ns :: nss /\ allowed do_v4 do_v6 fam /\ (n <= k < n')%nat /\ answered net ns' name port (ids k) fam edns ep)).
  { intros [= <- <-]. split; [lia|]. intros res [= <-] Hep. destruct (native_authentic _ _ _ _ _ _ _ _ _ _ _ _ E Hep) as (fam & k & ? & ? & ?).
    exists ns, fam, k. split; [by left|done]. }
  destruct (endpoints res0); [|exact Hhere]. destruct nss as [|ns' nss']; [exact Hhere|]. intros H. apply IH in H as [Hn H].
  split; [lia|]. intros res Hr Hep. destruct (H res Hr Hep) as (ns0 & fam & k & ? & ? & ? & ?). exists ns0, fam, k. split; [by right|].
  split; [done|]. split; [lia|done].
Qed.

End DnsFlowOk.

(** ** Cached results *)

Module DnsCacheOk.
Import DnsCache RecencyFacts.
Section ok.
Context {R T : Type} `{RM : RecencyMap (DnsCacheEntry R) T}.

Inductive call := Get (key : bytes) (now : Z) | Put (key : bytes) (r : R) (ttl now : Z) | Invalidate (host : bytes).

Definition run_call (t : T) (c : call) : option (T * option R) :=
  match c with
  | Get key now => get t key now
  | Put key r ttl now => t ← put t key r ttl now; Some (t, None)
  | Invalidate host => Some (invalidate_by_host t host, None)
  end.

Fixpoint run (t : T) (cs : list call) : option (T * list (option R)) :=
  match cs with
  | [] => Some (t, [])
  | c :: cs => '(t, o) ← run_call t c; '(t, os) ← run t cs; Some (t, o :: os)
  end.

(** The last result put under each key and not invalidated since. *)
Definition latest (I : bytes -> option (DnsCacheEntry R)) (c : call) : bytes -> option (DnsCacheEntry R) :=
  match c with
  | Get _ _ => I
  | Put key r ttl now => fun k => if decide (k = key) then Some (mkCacheEntry r (now + ttl)) else I k
  | Invalidate host => fun k => if starts_with k (host ++ [x3a]) then None else I k
  end.

Definition answer_ok (I : bytes -> option (DnsCacheEntry R)) (c : call) (o : option R) : Prop :=
  match c, o with
  | Get key now, Some r => exists e, I key = Some e /\ result e = r /\ now < expires e
  | _, o => o = None
  end.

Fixpoint answers_ok (I : bytes -> option (DnsCacheEntry R)) (cs : list call) (os : list (option R)) : Prop :=
  match cs, os with
  | [], [] => True
  | c :: cs, o :: os => answer_ok I c o /\ answers_ok (latest I c) cs os
  | _, _ => False
  end.

Definition current (t : T) (I : bytes -> option (DnsCacheEntry R)) : Prop :=
  exists m l, rm_models t m l /\ forall x, x ∈ l -> I x.1 = Some x.2.

Lemma run_call_ok t I c :
  current t I -> exists t' o, run_call t c = Some (t', o) /\ answer_ok I c o /\ current t' (latest I c).
Proof.
  intros (m & l & HM & HI). destruct c as [key now|key r ttl now|host]; cbn [run_call latest].
  - unfold get. destruct (rm_find_ok t m l key HM) as (t1 & -> & HM1). cbn [mbind option_bind].
    assert (current t1 I) as Hc1 by (exists m, (Recency.touch key l); split; [done|]; intros x Hx; apply HI; by eapply touch_elem).
    destruct (Recency.lookup_ key l) as [e|] eqn:El; [|by exists t1, None].
    destruct (Z.leb_spec (expires e) now) as [Hx|Hx].
    + destruct (rm_erase_ok t1 m _ key HM1) as (t2 & -> & HM2). cbn [mbind option_bind]. exists t2, None. split; [done|]. split; [done|].
      exists m, (Recency.remove key (Recency.touch key l)). split; [done|]. intros x Hin. apply HI.
      unfold Recency.remove in Hin. apply list_elem_of_filter in Hin as [_ Hin]. by eapply touch_elem.
    + exists t1, (Some (result e)). split; [done|]. split; [|done]. exists e. split; [|done]. exact (HI (key, e) (lookup_elem _ _ _ El)).
  - unfold put. destruct (rm_put_ok t m l key (mkCacheEntry r (now + ttl)) HM) as (t1 & -> & HM1). cbn [mbind option_bind].
    exists t1, None. split; [done|]. split; [done|]. eexists m, _. split; [exact HM1|]. intros x Hx.
    apply put_elem in Hx as [-> | [Hx Hk]]; cbn [fst snd]; [by rewrite decide_True|]. rewrite decide_False by done. by apply HI.
  - unfold invalidate_by_host. eexists _, None. split; [done|]. split; [done|].
    destruct (rm_erase_if_ok t m l (fun key _ => starts_with key (host ++ [x3a])) HM) as (t1 & -> & HM1).
    eexists m, _. split; [exact HM1|]. intros x Hx. apply list_elem_of_filter in Hx as [Hf Hx]. rewrite Hf. by apply HI.
Qed.

Lemma cache_run_ok cs t I :
  current t I -> exists t' os, run t cs = Some (t', os) /\ answers_ok I cs os /\ exists I', current t' I'.
Proof.
  revert t I. induction cs as [|c cs IH]; intros t I Hc; cbn [run]; [exists t, []; split; [done|]; split; [done|by exists I]|].
  destruct (run_call_ok t I c Hc) as (t1 & o & -> & Ho & Hc1). cbn [mbind option_bind].
  destruct (IH t1 _ Hc1) as (t2 & os & -> & Hos & Hc2). cbn [mbind option_bind]. exists t2, (o :: os). by split.
Qed.

End ok.
End DnsCacheOk.

(** ** The resolver *)

Module DnsProps.
Import DnsName DnsCodec DnsQuery DnsFlow DnsNameOk DnsQueryOk DnsFlowOk.

(** C27: decoding a message always ends, and a name is decoded exactly: at every
    offset of every message, compression pointers that form a cycle included,
    [decode_name] gives a name, and the bytes it takes, exactly when labels of 1 to
    63 bytes and at most sixteen backward pointers spell it there within the
    message and it has at most 253 bytes. *)
Theorem dns_decode_exact wire :
  decode_message wire <> None /\
  forall offset, exists r, decode_name wire offset = Some r /\
    forall n name, r = Ok (n, name) <-> exists ls e, spelled wire kMaxDepth offset ls e /\ n = (e - offset)%nat /\
      name = joined [] ls /\ (length name <= 253)%nat.
Proof. split; [apply decode_message_total|]. intros offset. apply decode_name_spec. Qed.

(** a query says what was asked: for every valid host name, with or without
    the root's dot, and all identifiers, types and EDNS options of their width,
    [encode_query] succeeds and [decode_message] reads the wire back as one
    question for the name in lower case, with the identifier, and the options. *)
Theorem dns_query_roundtrip id name qtype edns :
  is_valid_hostname name = true -> 0 <= id < 2 ^ 16 -> 0 <= qtype < 2 ^ 16 -> edns_ok edns ->
  exists wire, encode_query id name qtype edns = ret wire /\ decode_message wire = ret (query_message id name qtype edns).
Proof.
  intros Hv Hi Hq He. eexists. split; [by apply encode_query_wire|]. by apply decode_query_wire.
Qed.

Lemma dns_query_roundtrip_witness :
  exists wire, encode_query 7 (B "Example.ORG.") kQA (Some (mkEdns 1232 0 0 0)) = ret wire /\
    decode_message wire = ret (query_message 7 (B "Example.ORG.") kQA (Some (mkEdns 1232 0 0 0))).
Proof. apply (dns_query_roundtrip 7 (B "Example.ORG.") kQA (Some (mkEdns 1232 0 0 0))); [reflexivity|lia|unfold kQA; lia|cbn; lia]. Defined.

(** C22: the endpoints are the nameserver's answer. Every endpoint of a resolution,
    over all candidate names and all nameservers tried, is an address record, A of four
    bytes or AAAA of sixteen and of a family that was asked for, in the answers of a
    message that carries the identifier drawn for the query, repeats its question and
    has neither error nor truncation; and that message was a datagram from the address
    and port of one of the nameservers, or what the connection to it read. *)
Theorem dns_endpoints_authentic net nss candidates port do_v4 do_v6 prefer edns ids n r n' ep :
  build_native_udp_flow_with_candidates net nss candidates port do_v4 do_v6 prefer edns ids n = (ret r, n') -> ep ∈ endpoints r ->
  exists ns name fam k, ns ∈ nss /\ name ∈ candidates /\ allowed do_v4 do_v6 fam /\ (n <= k < n')%nat /\
    answered net ns name port (ids k) fam edns ep.
Proof.
  revert n. induction candidates as [|name rest IH]; intros n; cbn [build_native_udp_flow_with_candidates]; [done|].
  destruct (build_native_udp_flow_with_nameservers _ _ _ _ _ _ _ _ _ _) as [r1 n1] eqn:E.
  apply (nameservers_authentic _ _ _ _ _ _ _ _ _ _ _ _ ep) in E as [Hn E]. intros H Hep.
  assert (Hhere : (r1, n1) = (ret r, n') -> exists ns name0 fam k, ns ∈ nss /\ name0 ∈ name :: rest /\ allowed do_v4 do_v6 fam /\
    (n <= k < n')%nat /\ answered net ns name0 port (ids k) fam edns ep).
  { intros [= -> ->]. destruct (E r eq_refl Hep) as (ns & fam & k & ? & ? & ? & ?). exists ns, name, fam, k. split; [done|]. by split; [left|]. }
  destruct r1 as [[res|e]|]; [by apply Hhere| |by apply Hhere]. destruct e, rest as [|name2 rest2]; try (by apply Hhere).
  destruct (IH n1 H Hep) as (ns & name0 & fam & k & ? & ? & ? & ? & ?). exists ns, name0, fam, k. split; [done|]. split; [by right|].
  split; [done|]. split; [lia|done].
Qed.

(** A nameserver, a stranger, and a reply with one address for [a.b]. *)
Definition one_ns : NameserverEndpoint := mkNs (Sin [x7f; x00; x00; x01] 53) 53.
Definition stranger : sockaddr := Sin [x0a; x00; x00; x09] 53.
Definition one_edns : Edns0Options := mkEdns 1232 0 0 0.
Definition one_reply : bytes :=
  [x00; x07; x81; x80; x00; x01; x00; x01; x00; x00; x00; x00; x01; x61; x01; x62; x00; x00; x01; x00; x01;
   xc0; x0c; x00; x01; x00; x01; x00; x00; x00; x3c; x00; x04; x01; x02; x03; x04].
Definition one_message : Message :=
  mkMessage (mkHeader 7 0x8180 1 1 0 0) [mkQuestion (B "a.b") 1 1] [mkRR (B "a.b") 1 1 60 [x01; x02; x03; x04]] [] [].
Definition one_net : Net :=
  mkNet (fun _ wire => [(stranger, wire); (ns_addr one_ns, one_reply)]) (fun _ _ => Unexpected network).

Lemma dns_endpoints_authentic_witness :
  exists ns name fam k, ns ∈ [one_ns] /\ name ∈ [B "a.b"] /\ allowed true false fam /\ (3 <= k < 5)%nat /\
    answered one_net ns name 80 ((fun _ => 7) k) fam one_edns (mkEndpoint (Sin [x01; x02; x03; x04] 80) v4).
Proof.
  apply (dns_endpoints_authentic one_net [one_ns] [B "a.b"] 80 true false v4 one_edns (fun _ => 7) 3
    (mkResult [mkEndpoint (Sin [x01; x02; x03; x04] 80) v4] 60) 5); [vm_compute; reflexivity|left].
Defined.



(** a stranger can end a query. A datagram is decoded before its sender is
    compared, so a malformed one from any address, an empty one for instance, makes
    the query fail at once, although the nameserver's answer follows. *)
Theorem dns_stranger_ends_query ns qid qname qtype from data rest e :
  same_dns_peer from ns = false -> decode_message data = throw e ->
  udp_receive ns qid qname qtype ((from, data) :: rest) = throw e.
Proof. intros _ Hd. cbn [udp_receive]. by rewrite Hd. Qed.

Lemma dns_stranger_ends_query_witness :
  udp_receive one_ns 7 (B "a.b") kQA [(ns_addr one_ns, one_reply)] = ret one_message /\
  udp_receive one_ns 7 (B "a.b") kQA ((stranger, []) :: [(ns_addr one_ns, one_reply)]) = throw malformed.
Proof.
  split; [vm_compute; reflexivity|].
  apply (dns_stranger_ends_query one_ns 7 (B "a.b") kQA stranger [] [(ns_addr one_ns, one_reply)] malformed); vm_compute; reflexivity.
Defined.

(** no answer is no error. When no datagram arrives from any nameserver, the
    lookup of a valid host name succeeds, with no endpoints: the timeouts of the
    two families are not propagated. *)
Theorem dns_timeout_is_empty_success net nameservers name port prefer edns ids n :
  nameservers <> [] -> is_valid_hostname name = true -> edns_ok (Some edns) -> (forall ns wire, udp_arrivals net ns wire = []) ->
  fst (build_native_udp_flow_with_candidates net nameservers [name] port true true prefer edns ids n) = ret (mkResult [] 0).
Proof.
  intros Hne Hv He Hu.
  assert (forall ns a b, build_native_udp_flow net ns name port true true prefer edns a b = ret (mkResult [] 0)) as Hflow.
  { intros ns a b. unfold build_native_udp_flow, build_family_flow. rewrite !encode_query_wire, !bind_ret by done. cbv zeta.
    unfold udp_single_query. rewrite !Hu. cbn [udp_receive throw]. rewrite !bind_ret. by destruct prefer. }
  assert (forall k, fst (build_native_udp_flow_with_nameservers net nameservers name port true true prefer edns ids k) = ret (mkResult [] 0)) as Hns.
  { induction nameservers as [|ns rest IH]; intros k; [done|]. cbn [build_native_udp_flow_with_nameservers]. rewrite Hflow.
    cbn [ret endpoints]. destruct rest as [|ns2 rest]; [done|]. by apply IH. }
  cbn [build_native_udp_flow_with_candidates]. specialize (Hns n).
  destruct (build_native_udp_flow_with_nameservers net nameservers name port true true prefer edns ids n) as [r k]. cbn in Hns. by rewrite Hns.
Qed.

Lemma dns_timeout_is_empty_success_witness :
  fst (build_native_udp_flow_with_candidates (mkNet (fun _ _ => []) (fun _ _ => Unexpected network)) [one_ns] [B "a.b"] 80
    true true v6 one_edns (fun _ => 7) 0) = ret (mkResult [] 0).
Proof.
  apply (dns_timeout_is_empty_success (mkNet (fun _ _ => []) (fun _ _ => Unexpected network)) [one_ns] (B "a.b") 80 v6 one_edns (fun _ => 7) 0);
    [done|vm_compute; reflexivity|cbn; lia|done].
Defined.

(** the cache never answers with a stale result. Over every sequence of calls
    on a new cache, no call fails and every answer is the last result put under
    that very key, not invalidated since and before its expiry; and a result is
    found right after it was put until it expires. *)
Theorem dns_cache_current {R T : Type} `{RM : RecencyMap (DnsCache.DnsCacheEntry R) T} cap (calls : list (@DnsCacheOk.call R)) :
  exists t answers, DnsCacheOk.run (DnsCache.make cap) calls = Some (t, answers) /\
    DnsCacheOk.answers_ok (fun _ => None) calls answers /\
    forall key r ttl now later, exists t1 t2, DnsCache.put t key r ttl now = Some t1 /\
      DnsCache.get t1 key later = Some (t2, if now + ttl <=? later then None else Some r).
Proof.
  assert (DnsCacheOk.current (DnsCache.make cap) (fun _ : bytes => None)) as Hc.
  { exists (Nat.max (Nat.max cap 1) 1), []. split; [apply rm_new_ok|]. intros x Hx. by apply not_elem_of_nil in Hx. }
  destruct (DnsCacheOk.cache_run_ok calls _ _ Hc) as (t & os & Hr & Ho & I & m & l & HM & _). exists t, os. split; [done|]. split; [done|].
  intros key r ttl now later. unfold DnsCache.put, DnsCache.get.
  destruct (OneKey.holds_put t key (Recency.lookup_ key l) (DnsCache.mkCacheEntry r (now + ttl))) as (t1 & E1 & H1); [by exists m, l|].
  destruct (OneKey.holds_find t1 key _ H1) as (t2 & E2 & H2). exists t1. rewrite E2. cbn [mbind option_bind DnsCache.expires DnsCache.result].
  destruct (now + ttl <=? later); [|eauto]. destruct (OneKey.holds_erase t2 key _ H2) as (t3 & e & -> & _). cbn [mbind option_bind]. eauto.
Qed.

End DnsProps.
